(* ===== verification/_CoqProject ===== *)
-Q . S2P
Prelude.v
Ord.v
Decimal.v
Delta.v
DeltaFold.v
Path.v
Hash.v
Bonsai.v
BonsaiDiff.v
ManifestDiff.v
ManifestWalk.v
RevlogDiff.v
TreePack.v
HgManifest.v
HgFile.v
HgChangeset.v
HgUpload.v
MemoryManifest.v
MemoryManifestOk.v
ManifestDerive.v
ApplyDiff.v
HgDerive.v
HgDeriveExample.v
CaseConflict.v
Batch.v
Blobstore.v
CacheBlobstore.v
BoundedHash.v
AsyncMemo.v
Framing.v
ByteStream.v
Netstring.v
Dechunker.v
BundleCodec.v
Chunk.v
PartHeader.v
Changegroup.v
ChangegroupRoundtrip.v
Wirepack.v
WirepackRoundtrip.v
RevlogManifest.v
TreemanifestParser.v
PushChangegroup.v
UploadEntries.v
NewBlobs.v
PushUpload.v
Framed.v
StreamStart.v
PartOuter.v
BundleEncode.v
Bundle2.v
Parts.v
Bundle2Example.v
Graph.v
Frontier.v
Range.v
Revset.v
SetCommon.v
UnionStream.v
IntersectStream.v
DifferenceStream.v
Ancestors.v
Skiplist.v
AncestorsDifference.v
RevsetExample.v
TopoSort.v
SyncQueue.v
Multiplexed.v
Changesets.v
BonsaiHgMapping.v
Bookmarks.v
Repo.v
BookmarkList.v
Phases.v
PhasesCaching.v
CacheLayers.v
MappingCaching.v
Pushrebase.v
PushrebaseLoop.v
PushrebaseExample.v
