(* ===== verification/Prelude.v ===== *)
(** * Mononoke: a verification of its data formats and core algorithms

    Mononoke is a Mercurial server. Clients speak the Mercurial wire protocol
    to it and send and receive bundles; the server keeps its own "bonsai"
    changesets in a blob store and derives Mercurial's data from them. This
    library models the parts of the program (all paths below are under [src/])
    that carry its data from the wire to the store, and proves them correct.

    ** The parts and how they interact

    - Streams. Every parser is a decoder that is given a growing buffer.
      [futures-ext] drives decoders over streams of byte chunks.
      [Framing] ([futures-ext/src/decode.rs]): the class [Decoder] is the trait
      of [tokio], [DecoderLaws] what a good decoder promises, [LayeredDecode]
      the driver with its poll loop. [ByteStream]
      ([futures-ext/src/bytes_stream]): the buffer shared by successive
      decoders. Every decoder below is an instance of [DecoderLaws], so its
      stream-level theorem is the driver's theorem applied to it.
    - Wire protocol. [Netstring] ([netstring/src]): the framing between the
      client wrapper and the server. [Batch] ([hgproto/src/batch.rs]): escaping
      of batched commands. [Dechunker] ([hgproto/src/dechunker.rs]): the reader
      of the chunked bundle that [unbundle] sends, over any lawful reader (the
      class [BufReadLaws]). [Decimal]: decimal numbers, which the last two of
      the three share.
    - Bundles. [BundleCodec] ([mercurial_bundles/src/utils.rs], [delta.rs],
      [bytes-ext/src/sized.rs]): drains, peeks and the delta format. [Chunk]
      ([chunk.rs]): the chunks a bundle2 stream consists of. [PartHeader]
      ([part_header.rs]): the headers of its parts. [Changegroup] and
      [ChangegroupRoundtrip] ([changegroup/]): packer and unpacker of
      changegroups. [Wirepack] and [WirepackRoundtrip] ([wirepack/]): the same
      for tree packs and file packs.
    - Bundle streams. [Framed]: what is relied on of [tokio]'s [Framed], the
      driver of the outer decoders, as classes. [StreamStart]
      ([mercurial_bundles/src/stream_start.rs], [capabilities.rs]): the header
      of a bundle. [PartOuter] ([part_outer.rs]): the decoder that takes a
      bundle apart. [BundleEncode] ([part_encode.rs], [bundle2_encode.rs]):
      the builders and the writing of a bundle. [Bundle2] ([bundle2.rs],
      [part_inner.rs]): the stream of a bundle's items, and a consumer.
      [Parts] ([parts/mod.rs]): the parts that the server makes.
      [Bundle2Example]: instances.
    - Deltas. [Delta] and [DeltaFold] ([mercurial_types/src/delta.rs],
      [delta_apply.rs]): deltas, their application, and the fold of a chain of
      deltas into one.
    - Names and changesets. [Path] ([mononoke_types/src/path.rs]): paths and the
      path-conflict check. [CaseConflict] (the same file): the trie that finds
      names which differ in case only. [Hash] ([mononoke_types/src/hash.rs],
      [mercurial_types/src/hash.rs], [nodehash.rs]): hashes and their text.
      [Bonsai] ([mononoke_types/src/bonsai_changeset.rs], [file_change.rs],
      [datetime.rs], [typed_hash.rs]): changesets, their checks and their
      thrift form. [BonsaiDiff] ([bonsai_utils/src/diff.rs],
      [composite.rs]): the file changes between a Mercurial manifest and those
      of the parents. [Ord]: the orders of the standard library's sorted
      collections, and sorting.
    - Manifests. [HgManifest] ([blobrepo/src/manifest.rs],
      [mercurial_types/src/blobnode.rs]): the text of a Mercurial manifest, its
      node id, its place in the blob store. [MemoryManifest]
      ([blobrepo/src/memory_manifest.rs],
      [blobrepo_utils/src/bonsai/manifest.rs]): the tree that takes the file
      changes of a changeset and is saved as manifests. [MemoryManifestOk],
      [ManifestDerive], [ApplyDiff]: what such a tree holds, what changes and
      saving make of it, and the results of [BonsaiDiff] applied to a parent.
      [ManifestDiff] and [ManifestWalk] ([mercurial_types/src/manifest_utils.rs]): the entries that differ
      between two manifests, as a stream that pruners cut. [RevlogDiff]
      ([mercurial/src/manifest/manifest_utils.rs]): its earlier form, for
      repositories on disk. [TreePack] ([repo_client/src/client/mod.rs]): the
      trees that are sent when a client asks for some.
    - Mercurial's data. [HgFile] ([mercurial/src/file.rs]): the metadata of
      files. [HgUpload] ([blobrepo/src/file.rs], [repo.rs]): files in the blob
      store, and the two ways to upload one. [HgChangeset]
      ([mercurial/src/changeset/mod.rs], [blobrepo/blob_changeset/src/lib.rs]):
      changesets, their text and their loading. [HgDerive]
      ([blobrepo/src/repo.rs]): the manifest derived from a bonsai changeset;
      [HgDeriveExample]: instances of it and of [ApplyDiff]. [BonsaiHgMapping]
      ([bonsai_hg_mapping/src/lib.rs], [mem_writes.rs]): the table of pairs of
      changesets, and one in memory before it.
    - Caches. [CacheLayers] ([common/rust/caching_ext/src]): many values looked
      up in the cache of the process, in memcache, and in a database.
      [MappingCaching] ([bonsai_hg_mapping/src/caching.rs]): the mapping behind
      them.
    - History. [Graph] ([blobrepo/changeset_fetcher/src/lib.rs],
      [mononoke_types/src/generation.rs]): the fetcher of parents and
      generations as a class, the laws its clients rely on, ancestors.
      [Range] ([revset/src/range.rs]): the stream of the changesets between
      two. [Changesets] ([changesets/src/lib.rs]): the table of changesets,
      which is a lawful fetcher. [Bookmarks] and [BookmarkList]
      ([bookmarks/src/lib.rs], [bookmarks/dbbookmarks/src/lib.rs]):
      transactions on bookmarks, their log, and their listing. [Phases]
      ([phases/src/lib.rs], [hint.rs]): the trait, its table, and what is
      computed from the bookmarks and an index. [PhasesCaching]
      ([caching.rs]): the same behind a cache, and servers that share table
      and cache.
    - Revsets. [Revset] ([revset/src/validation.rs], and the part of
      [setcommon.rs] that adds generations): a stream is the list of what its
      polls give; a stream that polls others is a machine with one [step] per
      turn of its [loop], and [runs step s evs] says what it gives until it
      ends. [SetCommon] ([setcommon.rs]): polled inputs. [UnionStream],
      [IntersectStream], [DifferenceStream] ([unionnodestream.rs],
      [intersectnodestream.rs], [setdifferencenodestream.rs]): the set
      operations. [Ancestors] ([ancestors.rs]) and [AncestorsDifference]
      ([ancestorscombinators.rs]): the streams of ancestors; the latter is
      proved against the classes of the reachability index.
      [RevsetExample]: instances.
    - Reachability. [Frontier] ([reachabilityindex/src/index.rs],
      [common/uniqueheap]): the heap of generations, frontiers of changesets
      by generation, and the two traits of an index as classes with their
      laws. [Skiplist] ([reachabilityindex/skiplist/src/lib.rs],
      [reachabilityindex/common/src/lib.rs]): the index that keeps those laws.
    - Blobs. [Blobstore] ([blobstore/src/lib.rs], [memblob], [prefixblob],
      [cacheblob/src/mem_writes.rs]): the trait as a class, its documented
      guarantees as laws, and the stores that keep them. [CacheBlobstore]
      ([cacheblob/src/locking_cache.rs], [cachelib_cache.rs],
      [in_process_lease.rs], [dummy.rs]): a store behind a cache with leases.
      [SyncQueue] ([blobstore_sync_queue/src/lib.rs]): the table of what is
      still to be copied. [Multiplexed] ([multiplexedblob/src],
      [cmds/blobstore_healer/healer.rs]): several stores as one, and the
      healer, as tasks that run interleaved (the relation [step]).
    - Memoization. [BoundedHash] ([asyncmemo/src/boundedhash.rs],
      [weight.rs]): a table with limits. [AsyncMemo] ([asyncmemo/src/lib.rs]):
      the cache of results and of computations under way, with tasks that poll
      it interleaved.
    - Pushing. [TopoSort] ([blobrepo/src/utils.rs]) and [Repo]
      ([blobrepo/src/repo.rs]): the repository as the state that the blob
      store, the changesets table and the bookmarks make up, and the saving of
      changesets. [Pushrebase] and [PushrebaseLoop]
      ([bundle2_resolver/pushrebase/src/lib.rs]): rebasing a pushed stack onto
      a bookmark, its steps and the loop of attempts, which runs against
      other clients. [PushrebaseExample]: instances, of
      phases too.

    - Pushed data. [PushChangegroup] ([bundle2_resolver/src/changegroup/]): the
      changesets and files of a changegroup. [TreemanifestParser]
      ([bundle2_resolver/wirepack/src/lib.rs]) and [RevlogManifest]
      ([mercurial/src/manifest/revlog.rs]): its trees. [NewBlobs]
      ([bundle2_resolver/src/upload_blobs.rs], [resolver.rs]): what the push
      has of one changeset. [UploadEntries] ([blobrepo/src/repo_commit.rs]):
      the record of what was uploaded and what is needed, and the checks.
      [PushUpload]: the uploads in any order (the relation [run_uploads]), from
      the parts of the bundle to the checks.

    ** Conventions

    Names are the source's, with the type in front where two types have a
    method of the same name ([MPath_new] is [MPath::new]). A [struct] is a
    Record, an [enum] an Inductive. [usize], [u8], [u16], [u32] and [u64] are
    [N], [i32] is [Z], and every operation that may leave the range is written
    with its wrap-around ([usize_add], [i32_add], [as_i32]...), as in a release
    build. Bytes are lists of [byte]. [Result] is [outcome] below, with a third
    constructor [Panic] for a failed assertion, index or [unwrap]; error values
    carry what distinguishes one failure from another, not their message
    texts. A [&mut] argument is a value taken and returned. A stream of chunks
    is a list of [poll] results, where [NotReady] is a poll that finds nothing.
    [BTreeMap]s are lists sorted by key; a [HashMap] is stdpp's [gmap], or an
    association list where it holds itself.

    ** Bounds and fuel

    Loops over data are structural. Where the code loops until a state changes,
    the model has fuel, and a theorem says how much is enough: [drive] needs
    more polls than there are events and bytes; [gather] and [discard] as many
    rounds as fragments are left; [mpatch_fold] as many as there are deltas;
    the dechunker's [read_until] one more than a size has digits (65 covers a
    [usize]); the walks over history and the topological sort have theorems
    that some fuel is enough and more changes nothing; the attempts of
    pushrebase are the 100 that the code allows. [runs] holds when enough fuel
    gives the result and more fuel does not change it; every machine has a
    measure that its steps lower ([step_ok]), so its theorem includes that it
    ends. A bundle is written with as many polls for a part as its stream has
    ([polls_of]), and [bundle_roundtrip] says that reading it ends.
    [compute_skip_edges] takes as many edges as the index allows a node,
    [process_frontier] at most one round per generation, [exclude_node] one
    turn after a hint. [bonsai_diff_tree] takes one more than the depth of the
    trees, [save] and [is_empty] the depth of what was changed. A walk over
    two manifests takes one turn per directory compared and per entry given;
    its theorems give a bound from the trees. The streams over revlogs take
    the depth of the trees. The walk over a pushed changeset stops at paths of
    more than 4096 bytes, and each level adds one: [walk_fuel] is enough
    ([walk_total]). Lengths on the wire are assumed below the width of the field that
    holds them, and no theorem assumes more than the code's checks give or the
    field's width imposes.

    ** What the theorems show

    - [DeltaFold]: folding a chain of deltas and applying the result equals
      applying the deltas in order, as long as offsets fit an [i32]; applying a
      delta replaces exactly its ranges.
    - [Framing], [ByteStream]: how the input is cut and delayed does not change
      what a lawful decoder yields; a decoding future leaves the rest to the
      next reader; a read gives the next bytes (and never returns at the end).
    - [Netstring], [Chunk], [BundleCodec], [PartHeader], [Changegroup...],
      [Wirepack...], [Batch], [Hash]: round trips between writer and reader,
      most of them through the stream driver, and what readers accept is valid.
    - [Bundle2], [Parts]: an uncompressed bundle without empty chunks of data is
      written and read back as a whole, whatever parts it has and however the
      reader gets its bytes; the parts
      the server makes decode to the entries they were made of.
    - [Dechunker]: a dechunker over a lawful reader is a lawful reader of the
      chunks' contents, and leaves what follows them.
    - [Path], [CaseConflict], [Bonsai]: parsing accepts exactly valid paths;
      the checks for path conflicts and case conflicts report exactly the
      conflicts there are; the trie's invariant holds after any history;
      freezing a changeset accepts exactly the well-formed ones; thrift forms
      round-trip and their readers reject what is malformed.
    - [BonsaiDiff]: the diff of manifests gives each difference once and nothing
      else, is free of path conflicts, and takes the files of the parents to
      those of the new root.
    - [HgManifest], [MemoryManifestOk], [ApplyDiff]: what is written as a
      manifest is read back; a tree in memory is saved with exactly its files;
      the differences to the parent, applied to its manifest, give the files
      of the root they come from, in every order in which no change comes after
      one below it; in other orders the changes of a valid changeset may fail.
    - [ManifestWalk], [RevlogDiff], [TreePack]: the stream of changed entries
      ends, in whatever order directories are compared, and gives what differs
      at each path once; the older form gives the same but for changes of
      type alone; a client is sent the roots and the trees that its base lacks,
      once each.
    - [HgFile], [HgChangeset]: what is written is read back, of changesets
      those that their text can hold. [HgUpload]: both ways to upload a file
      give the same node. [HgDerive]: a manifest derived with one parent or
      none has the parent's files with the changes made.
    - [PushChangegroup], [TreemanifestParser]: what a client sends is understood
      as it was meant, deltas and all, and nothing else is taken for a tree.
      [NewBlobs]: the walk finds exactly what the push introduces.
      [PushUpload]: when the checks of a pushed changeset pass, all that is
      below its root is in the store, if that holds of the trees that were
      there, and what was uploaded has its filenode.
    - [BonsaiHgMapping], [CacheLayers], [MappingCaching]: entries are added,
      found, or refused as conflicting; behind its caches the mapping answers
      as without them, and what the caches hold stays right.
    - [Range], [TopoSort]: what the walks over history yield, exactly, and that
      they end. [Changesets], [Bookmarks]: additions and transactions take
      effect as a whole or not at all; the graph stays well-formed; the log of
      bookmarks replays to the table.
    - [Phases], [PhasesCaching]: answers are exact over the table alone, and
      with the cache an answer [Public] is never wrong, by an invariant of all
      that the servers do (the relation [step] on [world]).
    - [Blobstore], [CacheBlobstore]: stores and wrappers keep the documented
      guarantees, so a stack of them does, but a cache only over a store of
      which what can be read stays; a [get] after a completed [put] gives the
      value or fails. [Multiplexed]: a blob whose [put] has returned
      is not lost, whatever fails and however tasks interleave, and a read
      does not miss it, except where a clean-up overtakes the read.
    - [AsyncMemo]: a task gets only what a computation for its own key gave,
      and the limits of every shard hold, whatever tasks do and in what order.
    - [UnionStream], [IntersectStream], [DifferenceStream]: of streams in order
      they give the set they are named after, in order and without
      repetitions, however the inputs are delayed, and they hand on errors.
      [Ancestors], [AncestorsDifference]: the streams give exactly the
      ancestors, common ancestors, or ancestors of some but not of others.
    - [Skiplist]: indexing keeps the index right, and every index that can be
      built answers questions of reachability exactly.
    - [Pushrebase], [PushrebaseLoop]: the check for conflicts is exact; the
      closest root is found; a rebased stack is isomorphic to the pushed one;
      and the whole loop is safe whatever other clients do between its steps
      (they are a function [env] of the attempt and the step).

    ** What is not modelled

    Asynchronous tasks and wake-ups (a poll is a step), I/O, logging and message
    texts; hash functions, compression, thrift's binary formats, chrono and
    Unicode tables, which are third-party code (chrono, lower-casing and the
    hash of a changeset are arguments of the definitions that use them; the
    [Framed] of [tokio], percent-encoding and the tables of characters are
    classes with laws).
    SQL statements are written out over tables; a replica may lag where
    [Changesets] says so. Pushrebase takes the comparison of derived Mercurial
    manifests and the mapping to Mercurial changesets as arguments. The order
    in which a [HashSet] or [HashMap] is iterated is a parameter ([HashOrder]),
    and so is the order in which [SelectAll] polls its streams. Of the
    program's own logic, not modelled: the creation of the bonsai changeset for
    a pushed one, revlogs on disk, the request grammar of the wire protocol,
    and of the resolver of bundles the order in which it calls the parts above;
    an entry is recorded when it is uploaded. Memcache and the cache of the process are classes whose
    laws let them forget. The clones of a pruner share its state, as they do in
    the code. A file change on a tree in memory is one step, though the code
    waits for manifests within it, and the theorems on such trees are for one
    parent or none; the merging of two is defined. A cache in front of a store
    is filled when a read has its value, where the code spawns a task for it,
    and its operations run one after the other; a healer deletes the entries of
    the queue that it cleans up in one step, where the code has one statement
    for each.

    This file holds what the components share: results, bytes, machine
    integers, byte-string splitting, association lists, UTF-8 and automation. *)

From stdpp Require Export base list gmap sorting.
From Stdlib Require Export ZArith Lia.
From Stdlib Require Export Strings.Byte.
From Stdlib Require Strings.String.
Export Stdlib.Strings.String.StringSyntax.

#[global] Set Default Goal Selector "!".

(** ** Results of fallible Rust code

    [Ok] and [Err] are the two constructors of [Result]; [Panic] is a run
    of the code that hits a failed [assert!], an out-of-range index or slice,
    or an [expect]/[unwrap] of nothing. *)

Inductive outcome (E A : Type) : Type :=
| Ok (a : A)
| Err (e : E)
| Panic.
Arguments Ok {E A} a.
Arguments Err {E A} e.
Arguments Panic {E A}.

#[export] Instance outcome_ret {E} : MRet (outcome E) := fun A a => Ok a.
#[export] Instance outcome_bind {E} : MBind (outcome E) := fun A B f m =>
  match m with Ok a => f a | Err e => Err e | Panic => Panic end.
#[export] Instance outcome_fmap {E} : FMap (outcome E) := fun A B f m =>
  match m with Ok a => Ok (f a) | Err e => Err e | Panic => Panic end.

(** [Poll]: what an asynchronous operation returns when it is polled. *)
Inductive poll (A : Type) :=
| NotReady
| Ready (a : A).
Arguments NotReady {A}.
Arguments Ready {A} a.

(** The [?] operator followed by [with_context]: the error is replaced. *)
Definition map_err {E F A} (f : E -> F) (m : outcome E A) : outcome F A :=
  match m with Ok a => Ok a | Err e => Err (f e) | Panic => Panic end.

(** What a caller sees of a result when it does not look at the error. *)
Definition ok {E A} (m : outcome E A) : option A :=
  match m with Ok a => Some a | _ => None end.

Definition is_ok {E A} (m : outcome E A) : bool :=
  match m with Ok _ => true | _ => false end.

Definition is_panic {E A} (m : outcome E A) : bool :=
  match m with Panic => true | _ => false end.

(** [ensure_err!]/[ensure_msg!]: continue when the condition holds. *)
Definition ensure {E} (b : bool) (e : E) : outcome E unit :=
  if b then Ok tt else Err e.

(** [assert!]. *)
Definition assert_ {E} (b : bool) : outcome E unit :=
  if b then Ok tt else Panic.

(** [.expect(..)] and [.unwrap()] on an option. *)
Definition expect {E A} (o : option A) : outcome E A :=
  match o with Some a => Ok a | None => Panic end.

(** [.ok_or(e)]. *)
Definition ok_or {E A} (o : option A) (e : E) : outcome E A :=
  match o with Some a => Ok a | None => Err e end.

Lemma bind_Ok {E A B} (f : A -> outcome E B) a : (Ok a ≫= f) = f a.
Proof. done. Qed.

Lemma bind_Ok_inv {E A B} (f : A -> outcome E B) m b :
  (m ≫= f) = Ok b -> exists a, m = Ok a /\ f a = Ok b.
Proof. destruct m; naive_solver. Qed.

Lemma map_err_Ok {E F A} (f : E -> F) (m : outcome E A) a :
  map_err f m = Ok a <-> m = Ok a.
Proof. destruct m; simpl; naive_solver. Qed.

(** Iterators collected into a [Result]: the first error wins. *)
Fixpoint collect {E A B} (f : A -> outcome E B) (l : list A) : outcome E (list B) :=
  match l with
  | [] => Ok []
  | x :: xs => y ← f x; ys ← collect f xs; Ok (y :: ys)
  end.

Lemma collect_Ok_Forall2 {E A B} (f : A -> outcome E B) l l' :
  collect f l = Ok l' <-> Forall2 (fun x y => f x = Ok y) l l'.
Proof.
  revert l'; induction l as [|x l IH]; intros l'; simpl.
  - split; [intros [= <-]; constructor | by inversion 1].
  - split.
    + intros (y & Hy & (ys & Hys & [= <-])%bind_Ok_inv)%bind_Ok_inv.
      constructor; [done | by apply IH].
    + inversion 1 as [|? y ? ys Hy Hys]; subst. rewrite Hy, bind_Ok.
      apply IH in Hys. by rewrite Hys.
Qed.

Lemma collect_Ok_map {E A B} (f : A -> outcome E B) (g : A -> B) l :
  Forall (fun x => f x = Ok (g x)) l -> collect f l = Ok (g <$> l).
Proof.
  intros H. apply collect_Ok_Forall2. induction H; simpl; constructor; auto.
Qed.

(** Case analysis on the next monadic step of a hypothesis or goal. *)
Ltac step_ok :=
  repeat match goal with
  | H : (_ ≫= _) = Ok _ |- _ =>
      let a := fresh "a" in let Ha := fresh "Ha" in
      apply bind_Ok_inv in H as (a & Ha & H)
  | H : map_err _ _ = Ok _ |- _ => apply map_err_Ok in H
  | H : Ok _ = Ok _ |- _ => injection H as H; try subst
  | H : Err _ = Ok _ |- _ => discriminate H
  | H : Panic = Ok _ |- _ => discriminate H
  end.

(** ** Bytes *)

Abbreviation bytes := (list byte).

#[export] Instance byte_eq_dec : EqDecision byte := Byte.byte_eq_dec.

(** A byte string literal, [b"..."] in the source. *)
Definition bstr (s : String.string) : bytes := String.list_byte_of_string s.
Arguments bstr s%_string_scope.

Definition b2z (b : byte) : Z := Z.of_N (Byte.to_N b).
Definition z2b (z : Z) : byte :=
  match Byte.of_N (Z.to_N (z mod 256)) with Some b => b | None => x00 end.

(** The iteration order of a [HashMap] is not specified. *)
Class MapOrder := { map_order {K A} `{Countable K} : gmap K A -> list (K * A) }.
Class MapOrderLaws (O : MapOrder) : Prop :=
{ map_order_perm {K A} `{Countable K} (m : gmap K A) : map_order m ≡ₚ map_to_list m }.

#[export] Instance to_list_order : MapOrder := {| map_order K A _ _ := map_to_list |}.
#[export] Instance to_list_order_laws : MapOrderLaws to_list_order.
Proof. split. intros K A ? ? m. reflexivity. Qed.

(** An operation that may fail and changes the state [S]. *)
Definition eio (E S A : Type) : Type := S -> S * outcome E A.

#[export] Instance eio_ret {E S} : MRet (eio E S) := fun A a s => (s, Ok a).
#[export] Instance eio_bind {E S} : MBind (eio E S) := fun A B f m s =>
  match m s with
  | (s, Ok a) => f a s
  | (s, Err e) => (s, Err e)
  | (s, Panic) => (s, Panic)
  end.
Definition lift {E S A} (r : outcome E A) : eio E S A := fun s => (s, r).

(** Operations that relate the state before with the one after. *)
Section preserves.
Context {E S : Type} (R : S -> S -> Prop) `{!PreOrder R}.

Definition preserves {A} (m : eio E S A) : Prop := forall s, R s (m s).1.

Lemma preserves_ret {A} (a : A) : preserves (mret a).
Proof. intros s. reflexivity. Qed.
Lemma preserves_lift {A} (r : outcome E A) : preserves (lift r).
Proof. intros s. reflexivity. Qed.
Lemma preserves_read {A} (f : S -> outcome E A) : preserves (fun s => (s, f s)).
Proof. intros s. reflexivity. Qed.
Lemma preserves_bind {A B} (m : eio E S A) (f : A -> eio E S B) : preserves m -> (forall a, preserves (f a)) -> preserves (m ≫= f).
Proof.
  intros Hm Hf s. specialize (Hm s). unfold mbind, eio_bind. destruct (m s) as [s1 [a| |]]; [|done..]. etransitivity; [exact Hm|apply Hf].
Qed.
End preserves.

(** [futures_unordered] gives the results of futures as they complete. *)
Class FuturesUnordered := { futures_unordered {A} : list A -> list A }.
Class FuturesUnorderedLaws (O : FuturesUnordered) : Prop := { futures_unordered_perm {A} (l : list A) : futures_unordered l ≡ₚ l }.

#[export] Instance in_order_completion : FuturesUnordered := {| futures_unordered A l := l |}.
#[export] Instance in_order_completion_laws : FuturesUnorderedLaws in_order_completion.
Proof. split. intros A l. reflexivity. Qed.

(** [slice.len()], as a [usize]. *)
Definition lenN {A} (l : list A) : N := N.of_nat (length l).

#[export] Instance byte_countable : Countable byte.
Proof.
  refine {| encode b := encode (Byte.to_N b);
            decode p := n ← decode p; Byte.of_N n |}.
  intros b. rewrite decode_encode. simpl. apply Byte.of_to_N.
Defined.

Lemma b2z_range b : (0 <= b2z b < 256)%Z.
Proof. unfold b2z. pose proof (Byte.to_N_bounded b). lia. Qed.

Lemma b2z_z2b z : b2z (z2b z) = (z mod 256)%Z.
Proof.
  unfold z2b, b2z. pose proof (Z.mod_pos_bound z 256 ltac:(lia)).
  destruct (Byte.of_N _) eqn:E.
  - apply Byte.to_of_N in E. rewrite E. lia.
  - apply Byte.of_N_None_iff in E. lia.
Qed.

Lemma b2z_inj a b : b2z a = b2z b -> a = b.
Proof.
  unfold b2z. intros H. apply N2Z.inj in H.
  assert (Some a = Some b) as [= ->]; [|done].
  by rewrite <- !Byte.of_to_N, H.
Qed.

Lemma z2b_b2z b : z2b (b2z b) = b.
Proof.
  apply b2z_inj. rewrite b2z_z2b. apply Z.mod_small, b2z_range.
Qed.

(** ** Machine integers

    [usize], [u8], [u16], [u32], [u64] values are of type [N]; [i32] values
    are of type [Z]. Casts and [i32] arithmetic are written out with their
    wrap-around. *)

Definition wrap32 (z : Z) : Z := ((z + 2 ^ 31) mod 2 ^ 32 - 2 ^ 31)%Z.
Definition i32_max : Z := (2 ^ 31 - 1)%Z.
Definition i32_range (z : Z) : Prop := (- 2 ^ 31 <= z < 2 ^ 31)%Z.

Definition i32_add (x y : Z) : Z := wrap32 (x + y).
Definition i32_sub (x y : Z) : Z := wrap32 (x - y).

(** [usize as i32], [i32 as usize], [usize as u8], ... *)
Definition as_i32 (n : N) : Z := wrap32 (Z.of_N n).
Definition as_usize (z : Z) : N := Z.to_N (z mod 2 ^ 64).
Definition as_u8 (n : N) : N := (n mod 2 ^ 8)%N.
Definition as_u16 (n : N) : N := (n mod 2 ^ 16)%N.
Definition usize_add (x y : N) : N := ((x + y) mod 2 ^ 64)%N.
Definition usize_mul (x y : N) : N := ((x * y) mod 2 ^ 64)%N.
Definition usize_sub (x y : N) : N := Z.to_N ((Z.of_N x - Z.of_N y) mod 2 ^ 64).

Lemma wrap32_small z : i32_range z -> wrap32 z = z.
Proof. unfold wrap32, i32_range. intros. rewrite Z.mod_small; lia. Qed.

Lemma wrap32_range z : i32_range (wrap32 z).
Proof.
  unfold wrap32, i32_range. pose proof (Z.mod_pos_bound (z + 2^31) (2^32) ltac:(lia)).
  lia.
Qed.

Lemma as_i32_small n : (n < 2 ^ 31)%N -> as_i32 n = Z.of_N n.
Proof. intros. apply wrap32_small. unfold i32_range. lia. Qed.

Lemma as_usize_range z : (as_usize z < 2 ^ 64)%N.
Proof. unfold as_usize. pose proof (Z.mod_pos_bound z (2 ^ 64) ltac:(lia)). lia. Qed.

Lemma as_usize_small z : (0 <= z < 2 ^ 64)%Z -> as_usize z = Z.to_N z.
Proof. intros. unfold as_usize. by rewrite Z.mod_small. Qed.

Lemma as_usize_as_i32 n : (n < 2 ^ 31)%N -> as_usize (as_i32 n) = n.
Proof.
  intros. rewrite as_i32_small by done. rewrite as_usize_small by lia. apply N2Z.id.
Qed.

Lemma usize_add_small x y : (x + y < 2 ^ 64)%N -> usize_add x y = (x + y)%N.
Proof. apply N.mod_small. Qed.

Lemma usize_sub_small x y : (y <= x < 2 ^ 64)%N -> usize_sub x y = (x - y)%N.
Proof. intros. unfold usize_sub. rewrite Z.mod_small; lia. Qed.

(** ** Big-endian integers *)

Fixpoint be_bytes (n : nat) (z : Z) : bytes :=
  match n with
  | O => []
  | S n => z2b (z / 2 ^ (8 * Z.of_nat n)) :: be_bytes n z
  end.

Fixpoint be_value (l : bytes) : Z :=
  match l with
  | [] => 0
  | b :: l => b2z b * 2 ^ (8 * Z.of_nat (length l)) + be_value l
  end%Z.

Lemma length_be_bytes n z : length (be_bytes n z) = n.
Proof. induction n; simpl; congruence. Qed.

Lemma be_value_range l : (0 <= be_value l < 2 ^ (8 * Z.of_nat (length l)))%Z.
Proof.
  induction l as [|b l IH]; simpl length; [simpl; lia|]. cbn [be_value].
  pose proof (b2z_range b).
  replace (8 * Z.of_nat (S (length l)))%Z with (8 + 8 * Z.of_nat (length l))%Z by lia.
  rewrite Z.pow_add_r by lia. nia.
Qed.

Lemma be_value_bytes n z : be_value (be_bytes n z) = (z mod 2 ^ (8 * Z.of_nat n))%Z.
Proof.
  induction n as [|n IH]; [by rewrite Z.mod_1_r|].
  cbn [be_bytes be_value]. rewrite IH, length_be_bytes, b2z_z2b.
  replace (8 * Z.of_nat (S n))%Z with (8 * Z.of_nat n + 8)%Z by lia.
  rewrite Z.pow_add_r by lia. change (2 ^ 8)%Z with 256%Z.
  rewrite (Z.rem_mul_r z (2 ^ (8 * Z.of_nat n)) 256) by lia. lia.
Qed.

Lemma be_bytes_value l : be_bytes (length l) (be_value l) = l.
Proof.
  assert (forall l z k, (be_value l = z mod 2 ^ (8 * Z.of_nat (length l)))%Z ->
            length l = k -> be_bytes k z = l) as H.
  { clear. induction l as [|b l IH]; intros z k Hz <-; [done|].
    cbn [length be_bytes be_value] in *.
    pose proof (be_value_range l). pose proof (b2z_range b).
    replace (8 * Z.of_nat (S (length l)))%Z with (8 * Z.of_nat (length l) + 8)%Z in Hz by lia.
    rewrite Z.pow_add_r in Hz by lia. change (2 ^ 8)%Z with 256%Z in Hz.
    rewrite Z.rem_mul_r in Hz by lia.
    set (P := (2 ^ (8 * Z.of_nat (length l)))%Z) in *.
    assert (P > 0)%Z by lia.
    pose proof (Z.mod_pos_bound z P ltac:(lia)).
    pose proof (Z.mod_pos_bound (z / P) 256 ltac:(lia)).
    destruct (Z.div_mod_unique P (b2z b) ((z / P) mod 256) (be_value l) (z mod P))
      as [Hhi Hlo]; [lia | lia | lia |].
    f_equal; [apply b2z_inj; by rewrite b2z_z2b | by apply IH]. }
  apply H; [|done]. symmetry. apply Z.mod_small, be_value_range.
Qed.

(** [put_i32_be], [BigEndian::read_i32] and friends. *)
Definition i32_be (z : Z) : bytes := be_bytes 4 z.
Definition read_i32 (l : bytes) : Z := wrap32 (be_value l).
Definition u_be (n : nat) (x : N) : bytes := be_bytes n (Z.of_N x).
Definition read_u (l : bytes) : N := Z.to_N (be_value l).

Lemma read_i32_be z : i32_range z -> read_i32 (i32_be z) = z.
Proof.
  intros Hz. unfold read_i32, i32_be. rewrite be_value_bytes.
  unfold wrap32. change (8 * Z.of_nat 4)%Z with 32%Z.
  rewrite Z.add_mod_idemp_l by lia. by apply wrap32_small.
Qed.

Lemma read_u_be n x : (Z.of_N x < 2 ^ (8 * Z.of_nat n))%Z -> read_u (u_be n x) = x.
Proof.
  intros Hx. unfold read_u, u_be. rewrite be_value_bytes, Z.mod_small.
  - apply N2Z.id.
  - split; [apply N2Z.is_nonneg | done].
Qed.

Lemma length_u_be n x : length (u_be n x) = n.
Proof. apply length_be_bytes. Qed.

Lemma length_i32_be z : length (i32_be z) = 4.
Proof. apply length_be_bytes. Qed.

(** ** Byte buffers ([Bytes], [BytesMut])

    [split_to at] removes and returns the first [at] bytes and panics when
    there are fewer. *)

Definition split_to {E} (at_ : N) (buf : bytes) : outcome E (bytes * bytes) :=
  if (at_ <=? lenN buf)%N
  then Ok (take (N.to_nat at_) buf, drop (N.to_nat at_) buf)
  else Panic.

Lemma split_to_app {E} n (p r : bytes) :
  lenN p = n -> split_to (E := E) n (p ++ r) = Ok (p, r).
Proof.
  unfold split_to, lenN. intros <-. rewrite length_app, Nat2N.id.
  rewrite take_app_length, drop_app_length. by rewrite (proj2 (N.leb_le _ _)) by lia.
Qed.

Lemma split_to_Ok {E} n (buf : bytes) :
  (n <= lenN buf)%N ->
  split_to (E := E) n buf = Ok (take (N.to_nat n) buf, drop (N.to_nat n) buf).
Proof. unfold split_to. intros H. by rewrite (proj2 (N.leb_le _ _)). Qed.

(** [slice.split(|b| b == sep)]: the pieces between separators, one more
    than there are separators. *)
Fixpoint split_on (sep : byte) (l : bytes) : list bytes :=
  match l with
  | [] => [[]]
  | b :: l =>
      if decide (b = sep) then [] :: split_on sep l
      else match split_on sep l with
           | [] => [[b]]
           | p :: ps => (b :: p) :: ps
           end
  end.

(** [pieces.join(&sep)]. *)
Fixpoint join_with (sep : byte) (ps : list bytes) : bytes :=
  match ps with
  | [] => []
  | [p] => p
  | p :: ps => p ++ sep :: join_with sep ps
  end.

Lemma split_on_ne sep l : split_on sep l <> [].
Proof.
  destruct l as [|b l]; simpl; [done|].
  destruct (decide (b = sep)); [done|]. destruct (split_on sep l); done.
Qed.

Lemma join_split_on sep l : join_with sep (split_on sep l) = l.
Proof.
  induction l as [|b l IH]; [done|]. simpl.
  destruct (decide (b = sep)) as [->|].
  - pose proof (split_on_ne sep l). destruct (split_on sep l); [done|].
    simpl in *. by rewrite IH.
  - destruct (split_on sep l) as [|p ps]; [by rewrite <- IH|].
    destruct ps; simpl in *; by rewrite IH.
Qed.

Lemma split_on_app_sep sep p l :
  sep ∉ p -> split_on sep (p ++ sep :: l) = p :: split_on sep l.
Proof.
  induction p as [|b p IH]; intros Hp; simpl.
  - by destruct (decide (sep = sep)).
  - apply not_elem_of_cons in Hp as [Hb Hp].
    destruct (decide (b = sep)); [congruence|]. by rewrite (IH Hp).
Qed.

Lemma split_on_no_sep sep p : sep ∉ p -> split_on sep p = [p].
Proof.
  induction p as [|b p IH]; intros Hp; simpl; [done|].
  apply not_elem_of_cons in Hp as [Hb Hp].
  destruct (decide (b = sep)); [congruence|]. by rewrite (IH Hp).
Qed.

Lemma split_on_join sep ps :
  ps <> [] -> Forall (fun p => sep ∉ p) ps -> split_on sep (join_with sep ps) = ps.
Proof.
  intros Hne H. induction H as [|p ps Hp Hps IH]; [done|]. simpl.
  destruct ps as [|p' ps]; [by apply split_on_no_sep|].
  rewrite split_on_app_sep by done. f_equal. by apply IH.
Qed.

Lemma split_on_pieces sep l :
  Forall (fun p => (sep ∉ p) /\ (forall b, b ∈ p -> b ∈ l)) (split_on sep l).
Proof.
  induction l as [|b l IH]; simpl.
  - apply Forall_singleton; set_solver.
  - destruct (decide (b = sep)).
    + constructor; [set_solver|]. eapply Forall_impl; [exact IH|]. set_solver.
    + destruct (split_on sep l) as [|p ps]; [apply Forall_singleton; set_solver|].
      apply Forall_cons in IH as [Hp Hps].
      constructor; [set_solver|]. eapply Forall_impl; [exact Hps|]. set_solver.
Qed.

Lemma length_join_with sep ps :
  ps <> [] -> length (join_with sep ps) = (length ps - 1 + sum_list (length <$> ps)).
Proof.
  induction ps as [|p ps IH]; [done|]. intros _. destruct ps as [|p' ps]; simpl in *; [lia|].
  rewrite length_app. simpl. rewrite IH by done. simpl. lia.
Qed.

(** ** Filtering lists *)

Lemma filter_all {A} (f : A -> bool) l : Forall (fun x => f x = true) l -> List.filter f l = l.
Proof. induction 1 as [|x l Hx _ IH]; simpl; [done|]. by rewrite Hx, IH. Qed.

Lemma filter_in {A} (f : A -> bool) (l : list A) x : x ∈ List.filter f l <-> x ∈ l /\ f x = true.
Proof. rewrite !list_elem_of_In. apply filter_In. Qed.

Lemma filter_none {A} (f : A -> bool) l : (forall y, y ∈ l -> f y = false) -> List.filter f l = [].
Proof.
  induction l as [|y l IH]; intros H; simpl; [done|]. rewrite (H y) by by left.
  apply IH. intros ??. apply H. by right.
Qed.

Lemma filter_unique {A} (f : A -> bool) l x :
  NoDup l -> x ∈ l -> f x = true -> (forall y, y ∈ l -> f y = true -> y = x) -> List.filter f l = [x].
Proof.
  induction l as [|y l IH]; intros Hnd Hx Hf Hu; [by apply elem_of_nil in Hx|].
  apply NoDup_cons in Hnd as [Hy Hnd]. simpl. destruct (f y) eqn:Efy.
  - assert (y = x) as -> by (apply Hu; [by left|done]). f_equal.
    assert (forall z, z ∈ l -> f z = false) as Hno.
    { intros z Hz. destruct (f z) eqn:Efz; [|done].
      assert (z = x) as -> by (apply Hu; [by right|done]). done. }
    clear -Hno. induction l as [|z l IH]; simpl; [done|]. rewrite Hno by by left.
    apply IH. intros ??. apply Hno. by right.
  - apply elem_of_cons in Hx as [->|Hx]; [congruence|]. apply IH; [done..|].
    intros z Hz. apply Hu. by right.
Qed.

Lemma filter_Forall {A} (f : A -> bool) (P : A -> Prop) l :
  Forall P l -> Forall P (List.filter f l).
Proof. induction 1; simpl; [done|]. case_match; auto. Qed.

(** ** Automation shared by the components *)

Create HintDb rust.
Create Rewrite HintDb rust.
#[export] Hint Rewrite @length_app @length_take @length_drop @length_be_bytes
  length_u_be length_i32_be @length_fmap : rust.

(** Rewrite lengths, then decide a goal about sizes. *)
Ltac solve_len := unfold lenN in *; autorewrite with rust in *; simpl in *; lia.

(** Reduce the [if] in the goal whose test is an arithmetic comparison. *)
Ltac case_test :=
  match goal with
  | |- context [if ?b then _ else _] =>
      let E := fresh "E" in destruct b eqn:E
  end.

(** ** [HashMap] whose values may be recursive

    An association list with at most one entry per key. Its iteration order
    is never used by the code modelled with it. *)

Section HashMap.
Context {K V : Type} `{!EqDecision K}.

Fixpoint hm_get (k : K) (m : list (K * V)) : option V :=
  match m with
  | [] => None
  | (k', v) :: m => if decide (k = k') then Some v else hm_get k m
  end.

Fixpoint hm_insert (k : K) (v : V) (m : list (K * V)) : list (K * V) :=
  match m with
  | [] => [(k, v)]
  | (k', v') :: m => if decide (k = k') then (k, v) :: m else (k', v') :: hm_insert k v m
  end.

Definition hm_remove (k : K) (m : list (K * V)) : list (K * V) :=
  filter (fun x => x.1 <> k) m.

Lemma hm_get_insert k k' v m :
  hm_get k' (hm_insert k v m) = if decide (k' = k) then Some v else hm_get k' m.
Proof.
  induction m as [|[k2 v2] m IH]; simpl; [done|].
  destruct (decide (k = k2)) as [->|]; simpl.
  - by destruct (decide (k' = k2)).
  - rewrite IH. destruct (decide (k' = k2)), (decide (k' = k)); congruence.
Qed.

Lemma hm_get_remove k k' m :
  hm_get k' (hm_remove k m) = if decide (k' = k) then None else hm_get k' m.
Proof.
  unfold hm_remove. induction m as [|[k2 v2] m IH]; simpl; [by destruct (decide (k' = k))|].
  rewrite filter_cons. simpl. destruct (decide (k2 <> k)) as [Hne|Heq]; simpl; rewrite IH.
  - destruct (decide (k' = k2)), (decide (k' = k)); congruence.
  - apply dec_stable in Heq as ->. by destruct (decide (k' = k)).
Qed.

Lemma hm_get_in k v m : hm_get k m = Some v -> (k, v) ∈ m.
Proof. induction m as [|[k' v'] m IH]; cbn; [done|]. case_decide; [intros [= ->]; subst; by left|]. intros Hk. right. by apply IH. Qed.

Lemma hm_get_some k v m : (k, v) ∈ m -> is_Some (hm_get k m).
Proof. induction m as [|[k' v'] m IH]; [by intros ?%elem_of_nil|]. intros [[= -> ->]|Hk]%elem_of_cons; cbn; [by rewrite decide_True|]. case_decide; [done|by apply IH]. Qed.

Lemma hm_nil_iff m : m = [] <-> forall k, hm_get k m = None.
Proof.
  split; [by intros ->|]. destruct m as [|[k v] m]; [done|].
  intros H. specialize (H k). simpl in H. by rewrite decide_True in H.
Qed.
End HashMap.

(** ** UTF-8

    [std::str::from_utf8] accepts the well-formed sequences of the Unicode
    standard: no overlong form, no surrogate, nothing above U+10FFFF. *)

Definition in_range (lo hi : N) (b : byte) : bool :=
  (lo <=? Byte.to_N b)%N && (Byte.to_N b <=? hi)%N.
Definition utf8_cont (b : byte) : bool := in_range 128 191 b.

Fixpoint utf8_valid (l : bytes) : bool :=
  match l with
  | [] => true
  | b1 :: l1 =>
      if in_range 0 127 b1 then utf8_valid l1 else
      match l1 with
      | [] => false
      | b2 :: l2 =>
          if in_range 194 223 b1 then utf8_cont b2 && utf8_valid l2 else
          match l2 with
          | [] => false
          | b3 :: l3 =>
              if in_range 224 239 b1 then
                (if (Byte.to_N b1 =? 224)%N then in_range 160 191 b2
                 else if (Byte.to_N b1 =? 237)%N then in_range 128 159 b2
                 else utf8_cont b2) && utf8_cont b3 && utf8_valid l3
              else
              match l3 with
              | [] => false
              | b4 :: l4 =>
                  in_range 240 244 b1 &&
                  (if (Byte.to_N b1 =? 240)%N then in_range 144 191 b2
                   else if (Byte.to_N b1 =? 244)%N then in_range 128 143 b2
                   else utf8_cont b2) && utf8_cont b3 && utf8_cont b4 && utf8_valid l4
              end
          end
      end
  end.

(** The bytes of a [String], when they are one. *)
Definition from_utf8 (l : bytes) : option bytes :=
  if utf8_valid l then Some l else None.

Lemma utf8_valid_ascii l : Forall (fun b => (Byte.to_N b <= 127)%N) l -> utf8_valid l = true.
Proof.
  induction 1 as [|b l Hb _ IH]; [done|]. simpl. unfold in_range.
  rewrite (proj2 (N.leb_le _ _)), (proj2 (N.leb_le _ _)) by lia. done.
Qed.
