(* ===== verification/Ord.v ===== *)
(** * Orders and [BTreeMap]

    Rust's derived [Ord] as a class with its laws, the lexicographic instance
    for sequences, and the standard library's [BTreeMap] as an association
    list kept strictly sorted by key, which is the order its iterators
    yield. *)

From S2P Require Import Prelude.

(** ** The class *)

Class Ordered (A : Type) := {
  cmp : A -> A -> comparison;
  ord_lt : A -> A -> Prop;
  cmp_spec : forall x y, CompareSpec (x = y) (ord_lt x y) (ord_lt y x) (cmp x y);
  ord_lt_trans :: Transitive ord_lt;
  ord_lt_irrefl :: Irreflexive ord_lt;
}.

Section Facts.
Context {A : Type} `{!Ordered A}.
Implicit Types x y : A.

Lemma ord_irr x : ord_lt x x -> False.
Proof. apply (irreflexivity ord_lt x). Qed.

Lemma ord_asym x y : ord_lt x y -> ord_lt y x -> False.
Proof. intros H1 H2. apply (ord_irr x). by transitivity y. Qed.

Lemma cmp_refl x : cmp x x = Eq.
Proof. destruct (cmp_spec x x) as [|H|H]; [done| |]; by destruct (ord_irr x). Qed.

Lemma cmp_eq x y : cmp x y = Eq <-> x = y.
Proof.
  split; [|intros ->; apply cmp_refl].
  by destruct (cmp_spec x y).
Qed.

Lemma cmp_lt x y : cmp x y = Lt <-> ord_lt x y.
Proof.
  destruct (cmp_spec x y) as [->|H|H]; split; try done.
  - intros H. by destruct (ord_irr y).
  - intros H'. by destruct (ord_asym x y).
Qed.

Lemma cmp_gt x y : cmp x y = Gt <-> ord_lt y x.
Proof.
  destruct (cmp_spec x y) as [->|H|H]; split; try done.
  - intros H. by destruct (ord_irr y).
  - intros H'. by destruct (ord_asym x y).
Qed.

#[export] Instance ord_lt_dec x y : Decision (ord_lt x y).
Proof.
  destruct (cmp x y) eqn:E.
  - right. apply cmp_eq in E as ->. exact (ord_irr y).
  - left. by apply cmp_lt.
  - right. apply cmp_gt in E. intros H. by apply (ord_asym x y).
Defined.
End Facts.

#[export] Instance byte_ordered : Ordered byte.
Proof.
  refine {| cmp a b := N.compare (Byte.to_N a) (Byte.to_N b);
            ord_lt a b := (Byte.to_N a < Byte.to_N b)%N |}.
  - intros a b. destruct (N.compare_spec (Byte.to_N a) (Byte.to_N b)) as [H| |]; constructor; try done.
    apply b2z_inj. unfold b2z. by rewrite H.
  - intros a b c. lia.
  - intros a H. lia.
Defined.

(** ** Sequences compare lexicographically *)

Inductive lex {A} (lt : A -> A -> Prop) : list A -> list A -> Prop :=
| lex_nil x l : lex lt [] (x :: l)
| lex_lt x y l k : lt x y -> lex lt (x :: l) (y :: k)
| lex_eq x l k : lex lt l k -> lex lt (x :: l) (x :: k).

Fixpoint list_cmp {A} (f : A -> A -> comparison) (l k : list A) : comparison :=
  match l, k with
  | [], [] => Eq
  | [], _ :: _ => Lt
  | _ :: _, [] => Gt
  | x :: l, y :: k => match f x y with Eq => list_cmp f l k | c => c end
  end.

Section Lex.
Context {A : Type} `{!Ordered A}.
Abbreviation llt := (lex (A := A) ord_lt).

Lemma lex_trans : Transitive llt.
Proof.
  intros l1 l2 l3 H. revert l3.
  induction H as [x l|x y l k Hxy|x l k Hlk IH]; intros l3 H; inversion H; subst.
  - constructor.
  - constructor.
  - apply lex_lt. by transitivity y.
  - by apply lex_lt.
  - by apply lex_lt.
  - apply lex_eq. by apply IH.
Qed.

Lemma lex_irrefl : Irreflexive llt.
Proof.
  intros l. induction l as [|x l IH]; inversion 1; subst; [|by apply IH].
  by apply (irreflexivity ord_lt x).
Qed.

Lemma list_cmp_spec l k : CompareSpec (l = k) (llt l k) (llt k l) (list_cmp cmp l k).
Proof.
  revert k. induction l as [|x l IH]; intros [|y k]; simpl; try (constructor; by constructor).
  destruct (cmp_spec x y) as [->|H|H]; try (constructor; by constructor).
  destruct (IH k) as [->|H|H]; constructor; [done | by apply lex_eq | by apply lex_eq].
Qed.

(** What lies between a list and one of its extensions is an extension. *)
Lemma lex_prefix_between a b c :
  llt a b -> llt b c -> a `prefix_of` c -> a `prefix_of` b.
Proof.
  intros Hab Hbc. revert c Hbc. induction Hab as [x l|x y l k Hxy|x l k Hlk IH]; intros c Hbc [d ->].
  - apply prefix_nil.
  - exfalso. inversion Hbc; subst.
    + apply (irreflexivity ord_lt x). by transitivity y.
    + by apply (irreflexivity ord_lt x).
  - apply prefix_cons. simpl in Hbc. inversion Hbc; subst.
    + exfalso. by apply (irreflexivity ord_lt x).
    + eapply IH; [done | by eexists].
Qed.

Lemma lex_prefix_not_gt a b : llt b a -> ~ a `prefix_of` b.
Proof.
  intros H [k ->]. revert H. induction a as [|x a IH]; simpl; inversion 1; subst.
  - by apply (irreflexivity ord_lt x).
  - by apply IH.
Qed.
End Lex.

#[export] Instance list_ordered {A} `{!Ordered A} : Ordered (list A) := {|
  cmp := list_cmp cmp; ord_lt := lex ord_lt; cmp_spec := list_cmp_spec;
  ord_lt_trans := lex_trans; ord_lt_irrefl := lex_irrefl |}.

(** A wrapper with one field is ordered by the field. *)
Program Definition ordered_by {A B} `{!Ordered B} (f : A -> B)
    (f_inj : forall x y, f x = f y -> x = y) : Ordered A := {|
  cmp x y := cmp (f x) (f y); ord_lt x y := ord_lt (f x) (f y) |}.
Next Obligation.
  intros A B ? f Hinj x y. simpl. destruct (cmp_spec (f x) (f y)); constructor; auto.
Qed.
Next Obligation. intros A B ? f Hinj x y z. apply ord_lt_trans. Qed.
Next Obligation. intros A B ? f Hinj x. exact (ord_lt_irrefl (f x)). Qed.

(** ** [BTreeMap] *)

Section BTree.
Context {K V : Type} `{!Ordered K}.
Implicit Types m : list (K * V).

Definition btree_wf {W} (m : list (K * W)) : Prop :=
  StronglySorted (fun x y => ord_lt x.1 y.1) m.

Fixpoint btree_insert (k : K) (v : V) (m : list (K * V)) : list (K * V) :=
  match m with
  | [] => [(k, v)]
  | (k', v') :: m' =>
      match cmp k k' with
      | Lt => (k, v) :: m
      | Eq => (k, v) :: m'
      | Gt => (k', v') :: btree_insert k v m'
      end
  end.

Fixpoint btree_get (k : K) (m : list (K * V)) : option V :=
  match m with
  | [] => None
  | (k', v') :: m' => match cmp k k' with Eq => Some v' | _ => btree_get k m' end
  end.

(** [iter.collect::<BTreeMap<_, _>>()]. *)
Definition btree_collect (l : list (K * V)) : list (K * V) :=
  foldl (fun m '(k, v) => btree_insert k v m) [] l.

Lemma btree_insert_elem k v m x :
  x ∈ btree_insert k v m -> x = (k, v) \/ x ∈ m.
Proof.
  induction m as [|[k' v'] m IH]; simpl; [set_solver|].
  destruct (cmp k k'); set_solver.
Qed.

Lemma btree_insert_wf k v m : btree_wf m -> btree_wf (btree_insert k v m).
Proof.
  induction 1 as [|[k' v'] m Hs IH Hlt]; simpl; [repeat constructor|].
  destruct (cmp_spec k k') as [<-|H|H].
  - by constructor.
  - constructor; [by constructor|]. constructor; [done|].
    eapply Forall_impl; [exact Hlt|]. intros y Hy. simpl in *. by transitivity k'.
  - constructor; [done|]. apply Forall_forall. intros x [->|Hx]%btree_insert_elem; [done|].
    rewrite Forall_forall in Hlt. by apply Hlt.
Qed.

Lemma btree_get_insert k k' v m :
  btree_get k' (btree_insert k v m)
  = match cmp k' k with Eq => Some v | _ => btree_get k' m end.
Proof.
  induction m as [|[k2 v2] m IH]; simpl.
  { by destruct (cmp k' k). }
  destruct (cmp_spec k k2) as [<-|H|H]; simpl.
  - by destruct (cmp k' k).
  - by destruct (cmp k' k).
  - rewrite IH. destruct (cmp_spec k' k) as [E|?|?], (cmp_spec k' k2) as [E'|?|?]; try done.
    subst. by destruct (ord_irr k2).
Qed.

Lemma btree_insert_snoc k v m :
  Forall (fun x => ord_lt x.1 k) m -> btree_insert k v m = m ++ [(k, v)].
Proof.
  induction 1 as [|[k' v'] m Hk _ IH]; simpl; [done|]. apply cmp_gt in Hk. simpl in Hk.
  by rewrite Hk, IH.
Qed.

Lemma btree_collect_elem l x : x ∈ btree_collect l -> x ∈ l.
Proof.
  unfold btree_collect. assert (forall m, x ∈ foldl (fun m '(k, v) => btree_insert k v m) m l -> x ∈ m \/ x ∈ l) as H.
  { induction l as [|[k v] l IH]; simpl; [by left|]. intros m [[->|Hx]%btree_insert_elem|Hx]%IH.
    - right. constructor.
    - by left.
    - right. by constructor. }
  intros [Hx|Hx]%H; [by apply elem_of_nil in Hx|done].
Qed.

Lemma btree_collect_wf l : btree_wf (btree_collect l).
Proof.
  unfold btree_collect. assert (forall m, btree_wf m ->
    btree_wf (foldl (fun m '(k, v) => btree_insert k v m) m l)) as H.
  { induction l as [|[k v] l IH]; simpl; [done|]. intros m Hm. by apply IH, btree_insert_wf. }
  apply H. constructor.
Qed.

(** Collecting a sequence that is already in key order changes nothing. *)
Lemma btree_collect_id l : btree_wf l -> btree_collect l = l.
Proof.
  unfold btree_collect. assert (forall l2 l1, btree_wf (l1 ++ l2) ->
    foldl (fun m '(k, v) => btree_insert k v m) l1 l2 = l1 ++ l2) as H.
  { induction l2 as [|[k v] l2 IH]; intros l1 Hs; simpl; [by rewrite app_nil_r|].
    rewrite btree_insert_snoc.
    - rewrite IH; by rewrite <- app_assoc.
    - clear IH. induction l1 as [|x l1 IH]; [constructor|]. simpl in Hs.
      apply StronglySorted_inv in Hs as [Hs Hlt]. constructor; [|by apply IH].
      rewrite Forall_app in Hlt. destruct Hlt as [_ Hlt]. by apply Forall_cons in Hlt as [? _]. }
  apply (H l []).
Qed.
End BTree.

(** ** Sorting *)

Section Sort.
Context {A : Type} `{!Ordered A}.

Definition ord_le (x y : A) : Prop := x = y \/ ord_lt x y.

#[export] Instance ord_le_trans : Transitive ord_le.
Proof. intros x y z [->|H1] [->|H2]; [by left|by right|by right|]. right. by transitivity y. Qed.

Fixpoint sort_insert (x : A) (l : list A) : list A :=
  match l with
  | [] => [x]
  | y :: l' => match cmp x y with Gt => y :: sort_insert x l' | _ => x :: l end
  end.

(** [sort_unstable]: equal elements of a total order are the same. *)
Definition sort_unstable (l : list A) : list A := foldr sort_insert [] l.

Lemma sort_insert_perm x l : sort_insert x l ≡ₚ x :: l.
Proof.
  induction l as [|y l IH]; simpl; [done|]. destruct (cmp x y); [done|done|].
  rewrite IH. apply Permutation_swap.
Qed.

Lemma sort_unstable_perm l : sort_unstable l ≡ₚ l.
Proof. induction l as [|x l IH]; simpl; [done|]. by rewrite sort_insert_perm, IH. Qed.

Lemma sort_insert_sorted x l : StronglySorted ord_le l -> StronglySorted ord_le (sort_insert x l).
Proof.
  induction 1 as [|y l Hs IH Hy]; simpl; [repeat constructor|].
  destruct (cmp_spec x y) as [<-|H|H].
  - constructor; [by constructor|]. constructor; [by left|done].
  - constructor; [by constructor|]. constructor; [by right|]. eapply Forall_impl; [exact Hy|].
    intros z Hz. transitivity y; [by right|done].
  - constructor; [done|]. rewrite sort_insert_perm. constructor; [by right|done].
Qed.

Lemma sort_unstable_sorted l : StronglySorted ord_le (sort_unstable l).
Proof. induction l as [|x l IH]; simpl; [constructor|]. by apply sort_insert_sorted. Qed.
End Sort.
