(* ===== verification/Decimal.v ===== *)
(** * Decimal numbers

    Numbers as the program writes them ([write!] with [{}]) and the step with
    which its parsers read them, digit by digit, in a [usize]. *)

From S2P Require Import Prelude.

Definition digit_byte (d : N) : byte := z2b (48 + Z.of_N d).

Fixpoint decimal_fuel (k : nat) (n : N) : bytes :=
  match k with
  | O => []
  | S k => if (n <? 10)%N then [digit_byte n]
           else decimal_fuel k (n / 10) ++ [digit_byte (n mod 10)]
  end.

(** There are at most as many decimal as binary digits. *)
Definition decimal (n : N) : bytes := decimal_fuel (S (N.to_nat (N.size n))) n.

Definition is_digit (b : byte) : bool := in_range 48 57 b.
Definition digit_value (b : byte) : N := (Byte.to_N b - 48)%N.

(** [size * 10 + (digit - b'0') as usize], with its wrap-around. *)
Definition add_digit (acc : N) (b : byte) : N := usize_add (usize_mul acc 10) (digit_value b).

Lemma digit_byte_spec d :
  (d < 10)%N -> is_digit (digit_byte d) = true /\ digit_value (digit_byte d) = d.
Proof.
  intros Hd. assert (Byte.to_N (digit_byte d) = 48 + d)%N as E.
  { apply N2Z.inj. fold (b2z (digit_byte d)). unfold digit_byte. rewrite b2z_z2b.
    rewrite Z.mod_small by lia. lia. }
  unfold is_digit, in_range, digit_value. rewrite E.
  rewrite !(proj2 (N.leb_le _ _)) by lia. split; [done | lia].
Qed.

Lemma decimal_fuel_value k : forall n, (n < 10 ^ N.of_nat k)%N -> (n < 2 ^ 64)%N -> k <> 0 ->
  foldl add_digit 0%N (decimal_fuel k n) = n.
Proof.
  induction k as [|k IH]; intros n Hn Hu Hk; [done|]. cbn [decimal_fuel].
  destruct (N.ltb_spec n 10) as [Hs|Hs].
  - cbn [foldl]. unfold add_digit. destruct (digit_byte_spec n Hs) as [_ ->].
    change (usize_mul 0 10) with 0%N. by rewrite usize_add_small by lia.
  - assert (n / 10 < 10 ^ N.of_nat k)%N as Hdiv.
    { apply N.Div0.div_lt_upper_bound. replace (N.of_nat (S k)) with (N.succ (N.of_nat k)) in Hn by lia.
      rewrite N.pow_succ_r' in Hn. lia. }
    destruct k as [|k]; [simpl in Hdiv; pose proof (N.div_str_pos n 10); lia|].
    pose proof (N.mod_lt n 10 ltac:(lia)) as Hm. pose proof (N.div_mod n 10 ltac:(lia)) as Hdm.
    assert (n / 10 <= n)%N by (apply N.Div0.div_le_upper_bound; lia).
    rewrite foldl_app, IH by (done || lia). cbn [foldl]. unfold add_digit.
    destruct (digit_byte_spec (n mod 10) Hm) as [_ ->].
    assert (n / 10 * 10 + n mod 10 = n)%N as E by (rewrite (N.mul_comm (n / 10)); congruence).
    revert E. generalize (n / 10)%N (n mod 10)%N. intros q m E. unfold usize_mul.
    rewrite (N.mod_small (q * 10)) by lia. rewrite usize_add_small by lia. lia.
Qed.

Lemma decimal_value n : (n < 2 ^ 64)%N -> foldl add_digit 0%N (decimal n) = n.
Proof.
  intros Hn. apply decimal_fuel_value; [|done|done].
  rewrite Nat2N.inj_succ, N2Nat.id, N.pow_succ_r'. pose proof (N.size_gt n).
  assert (2 ^ N.size n <= 10 ^ N.size n)%N by (apply N.pow_le_mono_l; lia). lia.
Qed.

Lemma decimal_digits n : Forall (fun b => is_digit b = true) (decimal n).
Proof.
  unfold decimal. generalize (S (N.to_nat (N.size n))). intros k. revert n.
  induction k as [|k IH]; intros n; cbn [decimal_fuel]; [constructor|].
  destruct (N.ltb_spec n 10) as [Hs|Hs].
  - repeat constructor. by apply digit_byte_spec.
  - apply Forall_app. split; [apply IH|]. repeat constructor.
    apply digit_byte_spec. apply N.mod_lt. lia.
Qed.

(** Different numbers have different digits, whatever zeros stand before them. *)
Definition plain_value (l : bytes) : N := foldl (fun acc b => acc * 10 + digit_value b)%N 0%N l.

Lemma decimal_fuel_plain k : forall n, (n < 10 ^ N.of_nat k)%N -> k <> 0 -> plain_value (decimal_fuel k n) = n.
Proof.
  unfold plain_value. induction k as [|k IH]; intros n Hn Hk; [done|]. cbn [decimal_fuel].
  destruct (N.ltb_spec n 10) as [Hs|Hs]; [by cbn [foldl]; destruct (digit_byte_spec n Hs) as [_ ->]|].
  assert (n / 10 < 10 ^ N.of_nat k)%N as Hdiv.
  { apply N.Div0.div_lt_upper_bound. replace (N.of_nat (S k)) with (N.succ (N.of_nat k)) in Hn by lia.
    rewrite N.pow_succ_r' in Hn. lia. }
  destruct k as [|k]; [simpl in Hdiv; pose proof (N.div_str_pos n 10); lia|].
  pose proof (N.mod_lt n 10 ltac:(lia)) as Hm. pose proof (N.div_mod n 10 ltac:(lia)) as Hdm.
  rewrite foldl_app, IH by done. cbn [foldl]. destruct (digit_byte_spec (n mod 10) Hm) as [_ ->].
  rewrite (N.mul_comm (n / 10)). by symmetry.
Qed.

Lemma decimal_plain n i : plain_value (replicate i x30 ++ decimal n) = n.
Proof.
  assert (forall l, plain_value (replicate i x30 ++ l) = plain_value l) as ->; [unfold plain_value; induction i; done|].
  apply decimal_fuel_plain; [|done]. rewrite Nat2N.inj_succ, N2Nat.id, N.pow_succ_r'. pose proof (N.size_gt n).
  assert (2 ^ N.size n <= 10 ^ N.size n)%N by (apply N.pow_le_mono_l; lia). lia.
Qed.

Lemma decimal_nonempty n : decimal n <> [].
Proof. unfold decimal. cbn [decimal_fuel]. destruct (n <? 10)%N; [done|]. intros [_ ?]%app_eq_nil. done. Qed.

(** The numbers of a [usize] are short. *)
Lemma decimal_short n : (n < 2 ^ 64)%N -> length (decimal n) <= 65.
Proof.
  intros Hn. assert (forall k n, length (decimal_fuel k n) <= k) as Hk.
  { clear. induction k as [|k IH]; intros n; cbn [decimal_fuel]; [done|].
    destruct (n <? 10)%N; [simpl; lia|]. rewrite length_app. specialize (IH (n / 10)%N). simpl. lia. }
  unfold decimal. specialize (Hk (S (N.to_nat (N.size n))) n).
  assert (N.size n <= 64)%N; [|lia]. destruct n as [|p]; [done|].
  rewrite N.size_log2 by done. pose proof (N.log2_lt_pow2 (Npos p) 64 ltac:(lia)). lia.
Qed.
