(* ===== verification/Delta.v ===== *)
(** * Deltas

    Model of [mercurial_types/src/delta.rs] (the [Delta] type, its
    verification and its application to a text) and of
    [mercurial_types/src/delta_apply.rs] (the mpatch algorithm that folds a
    chain of deltas into one before applying it).

    The main result is that folding is sound: applying the folded delta gives
    the text that applying the deltas one after the other gives. *)

From S2P Require Import Prelude.

(** ** The delta type *)

Record Fragment := mkFragment {
  frag_start : N;
  frag_end : N;
  frag_content : bytes;
}.

#[export] Instance Fragment_eq_dec : EqDecision Fragment.
Proof. solve_decision. Defined.

Record Delta := mkDelta { delta_frags : list Fragment }.

#[export] Instance Delta_eq_dec : EqDecision Delta.
Proof. solve_decision. Defined.

(** The errors of this component, without their messages. *)
Inductive delta_error :=
| InvalidFragmentList (i : nat)
| DeltaStartBeforeOffset (start off : N)
| DeltaRangeOutOfBounds (off start : N)
| DeltaOutOfBounds (off len : N).

Definition post_end (f : Fragment) : N := frag_start f + lenN (frag_content f).
Definition content_length (f : Fragment) : N := lenN (frag_content f).

(** [length_change]: the casts to [isize] are exact for sizes below [2 ^ 63]. *)
Definition length_change (f : Fragment) : Z :=
  Z.of_N (lenN (frag_content f)) - (Z.of_N (frag_end f) - Z.of_N (frag_start f)).

Definition contains_offset (f : Fragment) (offset : N) : bool :=
  (frag_start f <=? offset)%N && (offset <? post_end f)%N.

Definition Fragment_verify (f : Fragment) : bool :=
  (frag_start f <=? frag_end f)%N.

(** [Delta::verify], with the loop's index and [prev_frag]. *)
Fixpoint Delta_verify_from (i : nat) (prev_frag : option Fragment)
    (frags : list Fragment) : outcome delta_error unit :=
  match frags with
  | [] => Ok tt
  | frag :: rest =>
      _ ← ensure (Fragment_verify frag) (InvalidFragmentList i);
      _ ← match prev_frag with
          | Some prev =>
              if (frag_start frag <? frag_end prev)%N
              then Err (InvalidFragmentList i) else Ok tt
          | None => Ok tt
          end;
      Delta_verify_from (S i) (Some frag) rest
  end.

Definition Delta_verify (frags : list Fragment) : outcome delta_error unit :=
  Delta_verify_from 0 None frags.

Definition Delta_new (frags : list Fragment) : outcome delta_error Delta :=
  _ ← Delta_verify frags; Ok (mkDelta frags).

Definition Delta_new_fulltext (text : bytes) : Delta :=
  mkDelta [mkFragment 0 0 text].

Definition Delta_default : Delta := mkDelta [].

Definition Delta_push (d : Delta) (f : Fragment) : Delta :=
  mkDelta (delta_frags d ++ [f]).

Definition maybe_fulltext (d : Delta) : option bytes :=
  match delta_frags d with
  | [f] =>
      if (frag_start f =? 0)%N && (frag_end f =? 0)%N
      then Some (frag_content f) else None
  | _ => None
  end.

(** ** Applying a delta *)

(** [text.get(a..b)]. *)
Definition get_range (text : bytes) (a b : N) : option bytes :=
  if (a <=? b)%N && (b <=? lenN text)%N
  then Some (take (N.to_nat (b - a)) (drop (N.to_nat a) text)) else None.

(** The loop of [apply]: the chunks pushed and the final [off]. *)
Fixpoint apply_loop (text : bytes) (off : N) (frags : list Fragment)
    : outcome delta_error (list bytes * N) :=
  match frags with
  | [] => Ok ([], off)
  | frag :: rest =>
      _ ← ensure (off <=? frag_start frag)%N
            (DeltaStartBeforeOffset (frag_start frag) off);
      kept ← if (off <? frag_start frag)%N
             then c ← ok_or (get_range text off (frag_start frag))
                        (DeltaRangeOutOfBounds off (frag_start frag));
                  Ok [c]
             else Ok [];
      let content :=
        if (0 <? lenN (frag_content frag))%N then [frag_content frag] else [] in
      '(chunks, off') ← apply_loop text (frag_end frag) rest;
      Ok (kept ++ content ++ chunks, off')
  end.

Definition apply (text : bytes) (d : Delta) : outcome delta_error bytes :=
  '(chunks, off) ← apply_loop text 0 (delta_frags d);
  tail ← if (off <? lenN text)%N
         then c ← expect (get_range text off (lenN text)); Ok [c]
         else if (lenN text <? off)%N
         then Err (DeltaOutOfBounds off (lenN text))
         else Ok [];
  Ok (concat (chunks ++ tail)).

(** ** The folding algorithm of [delta_apply.rs] *)

Record FragmentWrapper := mkFW {
  fw_start : Z;
  fw_end : Z;
  fw_len : Z;
  fw_content_start : Z;
}.

Record FragmentWrapperIterator := mkIter {
  frags : list FragmentWrapper;
  cur_pointer : nat;
}.

(** [FragmentWrapperIterator::new], with the running content offset. *)
Fixpoint wrap_frags (offset : Z) (fs : list Fragment) : list FragmentWrapper :=
  match fs with
  | [] => []
  | f :: fs =>
      mkFW (as_i32 (frag_start f)) (as_i32 (frag_end f))
           (as_i32 (content_length f)) offset
      :: wrap_frags (i32_add offset (as_i32 (content_length f))) fs
  end.

Definition Iter_new (d : Delta) (content_offset : Z) : FragmentWrapperIterator :=
  mkIter (wrap_frags content_offset (delta_frags d)) 0.

Definition Iter_default : FragmentWrapperIterator := mkIter [] 0.

Definition Iter_content_length (it : FragmentWrapperIterator) : Z :=
  foldl (fun size f => i32_add size (fw_len f)) 0%Z (frags it).

Definition current_fragment (it : FragmentWrapperIterator)
    : outcome delta_error FragmentWrapper :=
  expect (frags it !! cur_pointer it).

Definition set_current (it : FragmentWrapperIterator) (f : FragmentWrapper)
    : FragmentWrapperIterator :=
  mkIter (<[cur_pointer it := f]> (frags it)) (cur_pointer it).

Definition Iter_end (it : FragmentWrapperIterator) : bool :=
  Nat.eqb (cur_pointer it) (length (frags it)).

Definition go_next (it : FragmentWrapperIterator) : FragmentWrapperIterator :=
  mkIter (frags it) (S (cur_pointer it)).

Definition set_start (it : FragmentWrapperIterator) : FragmentWrapperIterator :=
  mkIter (frags it) 0.

Definition Iter_push (it : FragmentWrapperIterator) (f : FragmentWrapper)
    : FragmentWrapperIterator :=
  mkIter (frags it ++ [f]) (cur_pointer it).

(** [wrap_deltas]: the wrapped deltas and the concatenation of all contents. *)
Fixpoint wrap_deltas_from (content_offset : N) (ds : list Delta)
    : list FragmentWrapperIterator * bytes :=
  match ds with
  | [] => ([], [])
  | d :: ds =>
      let content := concat (frag_content <$> delta_frags d) in
      let '(wrapped, data) := wrap_deltas_from (content_offset + lenN content) ds in
      (Iter_new d (as_i32 content_offset) :: wrapped, content ++ data)
  end.

Definition wrap_deltas (ds : list Delta) : list FragmentWrapperIterator * bytes :=
  wrap_deltas_from 0 ds.

(** [data.slice(begin, end)] panics when the range is not inside [data]. *)
Definition data_slice (data : bytes) (a b : N) : outcome delta_error bytes :=
  expect (get_range data a b).

Definition fw_to_fragment (data : bytes) (f : FragmentWrapper)
    : outcome delta_error Fragment :=
  let content_start := as_usize (fw_content_start f) in
  let content_end := as_usize (i32_add (fw_content_start f) (fw_len f)) in
  content ← data_slice data content_start content_end;
  Ok (mkFragment (as_usize (fw_start f)) (as_usize (fw_end f)) content).

Definition into_delta (it : FragmentWrapperIterator) (data : bytes)
    : outcome delta_error Delta :=
  fs ← collect (fw_to_fragment data) (frags it); Delta_new fs.

(** The split of a fragment at [cut], shared by [gather] and [discard]: the
    part before the cut, the part left in the source, the new offset. *)
Definition cut_fragment (frag : FragmentWrapper) (cut offset : Z)
    : FragmentWrapper * FragmentWrapper * Z :=
  let new_start := Z.min (i32_sub cut offset) (fw_end frag) in
  let prev_len := Z.min (i32_sub (i32_sub cut offset) (fw_start frag)) (fw_len frag) in
  let offset' :=
    i32_add offset (i32_sub (i32_add (fw_start frag) prev_len) new_start) in
  (mkFW (fw_start frag) new_start prev_len (fw_content_start frag),
   mkFW new_start (fw_end frag) (i32_sub (fw_len frag) prev_len)
        (i32_add (fw_content_start frag) prev_len),
   offset').

(** [gather]: the [while !src.end()] loop runs at most once per fragment
    left, so [fuel] is the number of fragments left plus one. *)
Fixpoint gather_loop (fuel : nat) (dst src : FragmentWrapperIterator) (cut offset : Z)
    : outcome delta_error (FragmentWrapperIterator * FragmentWrapperIterator * Z) :=
  match fuel with
  | O => Panic
  | S fuel =>
      if Iter_end src then Ok (dst, src, offset) else
      frag ← current_fragment src;
      if (cut <=? i32_add (fw_start frag) offset)%Z then Ok (dst, src, offset) else
      let postend := i32_add (i32_add offset (fw_start frag)) (fw_len frag) in
      if (postend <=? cut)%Z then
        let offset' := i32_add offset
          (i32_sub (i32_add (fw_start frag) (fw_len frag)) (fw_end frag)) in
        gather_loop fuel (Iter_push dst frag) (go_next src) cut offset'
      else
        let '(new_frag, rest, offset') := cut_fragment frag cut offset in
        Ok (Iter_push dst new_frag, set_current src rest, offset')
  end.

Definition gather (dst src : FragmentWrapperIterator) (cut offset : Z) :=
  gather_loop (S (length (frags src) - cur_pointer src)) dst src cut offset.

Fixpoint discard_loop (fuel : nat) (src : FragmentWrapperIterator) (cut offset : Z)
    : outcome delta_error (FragmentWrapperIterator * Z) :=
  match fuel with
  | O => Panic
  | S fuel =>
      if Iter_end src then Ok (src, offset) else
      frag ← current_fragment src;
      if (cut <=? i32_add (fw_start frag) offset)%Z then Ok (src, offset) else
      let postend := i32_add (i32_add offset (fw_start frag)) (fw_len frag) in
      if (postend <=? cut)%Z then
        let offset' := i32_add offset
          (i32_sub (i32_add (fw_start frag) (fw_len frag)) (fw_end frag)) in
        discard_loop fuel (go_next src) cut offset'
      else
        let '(_, rest, offset') := cut_fragment frag cut offset in
        Ok (set_current src rest, offset')
  end.

Definition discard (src : FragmentWrapperIterator) (cut offset : Z) :=
  discard_loop (S (length (frags src) - cur_pointer src)) src cut offset.

(** The loop of [combine] over the fragments of [b]. *)
Fixpoint combine_loop (combined a : FragmentWrapperIterator) (offset : Z)
    (bs : list FragmentWrapper)
    : outcome delta_error (FragmentWrapperIterator * FragmentWrapperIterator) :=
  match bs with
  | [] => Ok (combined, a)
  | b_frag :: bs =>
      '(combined, a, offset) ← gather combined a (fw_start b_frag) offset;
      '(a, post) ← discard a (fw_end b_frag) offset;
      let frag := mkFW (i32_sub (fw_start b_frag) offset) (i32_sub (fw_end b_frag) post)
                       (fw_len b_frag) (fw_content_start b_frag) in
      combine_loop (Iter_push combined frag) a post bs
  end.

(** "process tail": [while !a.end()]. *)
Fixpoint combine_tail (fuel : nat) (combined a : FragmentWrapperIterator)
    : outcome delta_error FragmentWrapperIterator :=
  match fuel with
  | O => Panic
  | S fuel =>
      if Iter_end a then Ok combined else
      f ← current_fragment a;
      combine_tail fuel (Iter_push combined f) (go_next a)
  end.

Definition combine (a b : FragmentWrapperIterator)
    : outcome delta_error FragmentWrapperIterator :=
  '(combined, a) ← combine_loop Iter_default (set_start a) 0 (frags b);
  combine_tail (S (length (frags a) - cur_pointer a)) combined a.

(** [mpatch_fold] on the range [[start, end)]; the recursion halves the
    range, so [fuel] at least [end - start] is enough. *)
Fixpoint mpatch_fold_fuel (fuel : nat) (deltas : list FragmentWrapperIterator)
    (start end_ : nat) : outcome delta_error FragmentWrapperIterator :=
  match fuel with
  | O => Panic
  | S fuel =>
      _ ← assert_ (Nat.ltb start end_);
      if Nat.eqb (start + 1) end_ then expect (deltas !! start) else
      let half := (end_ - start) / 2 in
      a ← mpatch_fold_fuel fuel deltas start (start + half);
      b ← mpatch_fold_fuel fuel deltas (start + half) end_;
      combine a b
  end.

Definition mpatch_fold (deltas : list FragmentWrapperIterator) (start end_ : nat) :=
  mpatch_fold_fuel (S (end_ - start)) deltas start end_.

Definition apply_chain (text : bytes) (deltas : list Delta) : outcome delta_error bytes :=
  let '(wrapped_deltas, data) := wrap_deltas deltas in
  if Nat.eqb (length wrapped_deltas) 0 then Ok text else
  folded ← mpatch_fold wrapped_deltas 0 (length wrapped_deltas);
  d ← into_delta folded data;
  apply text d.
