(* ===== verification/DeltaFold.v ===== *)
(** * Folding a chain of deltas is sound

    Proofs about [Delta]: what [apply] computes, that [combine] composes two
    deltas, that [mpatch_fold] composes a whole chain, and that the [i32]
    arithmetic of [delta_apply.rs] does not wrap for texts below [2 ^ 30]
    bytes. *)

From S2P Require Import Prelude Delta.

Local Open Scope Z_scope.

Definition zlen {A} (l : list A) : Z := Z.of_nat (length l).

Lemma zlen_app {A} (l k : list A) : zlen (l ++ k) = zlen l + zlen k.
Proof. unfold zlen. rewrite length_app. lia. Qed.
Lemma zlen_nonneg {A} (l : list A) : 0 <= zlen l.
Proof. unfold zlen. lia. Qed.
Lemma zlen_nil {A} : zlen (@nil A) = 0.
Proof. done. Qed.

(** Make every length a sum of lengths of atoms, known non-negative. *)
Ltac zlens :=
  repeat rewrite zlen_app in *;
  repeat match goal with
  | |- context [zlen ?l] =>
      lazymatch goal with H : 0 <= zlen l |- _ => fail | _ => pose proof (zlen_nonneg l) end
  | _ : context [zlen ?l] |- _ =>
      lazymatch goal with H : 0 <= zlen l |- _ => fail | _ => pose proof (zlen_nonneg l) end
  end.

(** Remove the wrap-around of [i32] operations whose result is in range,
    innermost first. *)
Ltac i32_solve :=
  unfold i32_add, i32_sub;
  repeat match goal with
  | |- context [wrap32 ?z] =>
      lazymatch z with
      | context [wrap32 _] => fail
      | _ => rewrite (wrap32_small z) by (unfold i32_range; lia)
      end
  end.

(** ** The meaning of a list of wrapped fragments

    [patched data s p fs u]: reading [s] as the part of a text that starts at
    offset [p], the fragments [fs] turn it into [u]. *)

Section Patched.
Context (data : bytes).

Definition content_at (f : FragmentWrapper) (c : bytes) : Prop :=
  exists pre post,
    data = pre ++ c ++ post /\ fw_content_start f = zlen pre /\ fw_len f = zlen c.

Inductive patched : bytes -> Z -> list FragmentWrapper -> bytes -> Prop :=
| patched_nil s p : patched s p [] s
| patched_cons p k x r c f fs u :
    fw_start f = p + zlen k ->
    fw_end f = fw_start f + zlen x ->
    content_at f c ->
    patched r (fw_end f) fs u ->
    patched (k ++ x ++ r) p (f :: fs) (k ++ c ++ u).

Lemma patched_extend k s p fs u :
  patched s (p + zlen k) fs u -> patched (k ++ s) p fs (k ++ u).
Proof.
  inversion 1 as [|p' k' x r c f fs' u' Hs He Hc Hr]; subst; [constructor|].
  rewrite !(app_assoc k k'). constructor; try done. zlens. lia.
Qed.

Lemma app_split_le {A} (a b c d : list A) :
  a ++ b = c ++ d -> zlen a <= zlen c -> exists e, c = a ++ e /\ b = e ++ d.
Proof.
  intros H Hl. unfold zlen in Hl. exists (drop (length a) c).
  assert (a = take (length a) c) as Ha.
  { rewrite <- (take_app_le c d) by lia. by rewrite <- H, take_app_length. }
  split; [by rewrite Ha at 1; rewrite take_drop|].
  rewrite <- (take_drop (length a) c), <- Ha, <- app_assoc in H.
  by apply app_inv_head in H.
Qed.

Lemma split_at_zlen {A} (l : list A) n :
  0 <= n <= zlen l -> exists a b, l = a ++ b /\ zlen a = n.
Proof.
  intros Hn. exists (take (Z.to_nat n) l), (drop (Z.to_nat n) l).
  rewrite take_drop. split; [done|]. unfold zlen in *. rewrite length_take. lia.
Qed.

(** ** Iterators as the list of fragments left *)

Definition remaining (it : FragmentWrapperIterator) (l : list FragmentWrapper) : Prop :=
  exists pre, frags it = pre ++ l /\ cur_pointer it = length pre.

Lemma remaining_end it l :
  remaining it l -> Iter_end it = match l with [] => true | _ => false end.
Proof.
  intros (pre & H1 & H2). unfold Iter_end. rewrite H1, H2, length_app.
  destruct l; simpl; [apply Nat.eqb_eq | apply Nat.eqb_neq]; lia.
Qed.

Lemma remaining_current it f l : remaining it (f :: l) -> current_fragment it = Ok f.
Proof.
  intros (pre & H1 & H2). unfold current_fragment.
  rewrite H1, H2, list_lookup_middle by done. done.
Qed.

Lemma remaining_next it f l : remaining it (f :: l) -> remaining (go_next it) l.
Proof.
  intros (pre & H1 & H2). exists (pre ++ [f]). simpl.
  rewrite H1, H2, length_app, <- app_assoc. simpl. split; [done | lia].
Qed.

Lemma remaining_set it f g l : remaining it (f :: l) -> remaining (set_current it g) (g :: l).
Proof.
  intros (pre & H1 & H2). exists pre. simpl. rewrite H1, H2.
  split; [|done]. by rewrite insert_app_r_alt, Nat.sub_diag by lia.
Qed.

Lemma remaining_fuel it l : remaining it l -> (length (frags it) - cur_pointer it)%nat = length l.
Proof. intros (pre & H1 & H2). rewrite H1, H2, length_app. lia. Qed.

(** ** [gather] and [discard] *)

Context (Hdata : zlen data < 2 ^ 31).

Definition B : Z := 2 ^ 30 - 1.

(** The split of the head fragment at a cut inside its content. *)
Lemma cut_fragment_spec p (k x c1 c2 : bytes) f cut offset :
  fw_start f = p + zlen k -> fw_end f = fw_start f + zlen x ->
  content_at f (c1 ++ c2) ->
  0 <= p -> 0 <= p + offset -> p + zlen k + zlen x <= B ->
  p + offset + zlen k + zlen (c1 ++ c2) <= B ->
  0 < zlen c2 ->
  cut = fw_start f + offset + zlen c1 ->
  exists x1 x2 g h offset',
    cut_fragment f cut offset = (g, h, offset') /\ x = x1 ++ x2 /\
    cut - offset' = p + zlen k + zlen x1 /\
    fw_start g = p + zlen k /\ fw_end g = fw_start g + zlen x1 /\ content_at g c1 /\
    fw_start h = fw_end g /\ fw_end h = fw_start h + zlen x2 /\ content_at h c2.
Proof.
  intros Hs He (pre & post & Hd & Hcs & Hlen) Hp Hq Hb1 Hb2 Hc2 Hcut.
  unfold B in *.
  assert (zlen data = zlen pre + zlen c1 + zlen c2 + zlen post) as Hdl
    by (rewrite Hd; zlens; lia).
  destruct (split_at_zlen x (Z.min (zlen c1) (zlen x))) as (x1 & x2 & -> & Hx1);
    [zlens; lia|].
  zlens.
  assert (i32_sub cut offset = cut - offset) as E1 by (i32_solve; lia).
  assert (i32_sub (cut - offset) (fw_start f) = zlen c1) as E2 by (i32_solve; lia).
  assert (Z.min (zlen c1) (fw_len f) = zlen c1) as E3 by lia.
  assert (Z.min (cut - offset) (fw_end f) = p + zlen k + zlen x1) as E4 by lia.
  exists x1, x2. do 3 eexists. unfold cut_fragment. rewrite E1, E2, E3, E4.
  i32_solve. split; [reflexivity|]. cbn [fw_start fw_end].
  repeat match goal with |- _ /\ _ => split end; try lia; [done | |].
  - exists pre, (c2 ++ post). rewrite Hd, <- app_assoc. done.
  - exists (pre ++ c1), post. rewrite Hd, <- !app_assoc. cbn. zlens.
    split; [done|]. split; lia.
Qed.

(** What [gather] and [discard] do to the source: the text before the cut is
    [s1], and the fragments left patch the rest [s2]. *)
Definition cut_at (s : bytes) (p : Z) (u2 : bytes) (cut offset' : Z)
    (fs' : list FragmentWrapper) (s1 s2 : bytes) : Prop :=
  s = s1 ++ s2 /\ cut - offset' = p + zlen s1 /\ patched s2 (p + zlen s1) fs' u2.

(** Where the cut falls relative to the first fragment left. *)
Inductive cut_case (s : bytes) (p : Z) (f : FragmentWrapper)
    (fs : list FragmentWrapper) (u1 u2 : bytes) (cut offset : Z) : Prop :=
| cut_before s2 :
    cut <= fw_start f + offset ->
    s = u1 ++ s2 -> patched s2 (p + zlen u1) (f :: fs) u2 ->
    cut_case s p f fs u1 u2 cut offset
| cut_after k x r c w1 :
    fw_start f + offset < cut -> offset + fw_start f + fw_len f <= cut ->
    s = k ++ x ++ r -> u1 = k ++ c ++ w1 ->
    fw_start f = p + zlen k -> fw_end f = p + zlen k + zlen x ->
    fw_len f = zlen c -> content_at f c ->
    patched r (fw_end f) fs (w1 ++ u2) ->
    cut_case s p f fs u1 u2 cut offset
| cut_inside k x1 x2 r c1 g h offset' :
    fw_start f + offset < cut -> cut < offset + fw_start f + fw_len f ->
    cut_fragment f cut offset = (g, h, offset') ->
    s = k ++ x1 ++ x2 ++ r -> u1 = k ++ c1 ->
    cut - offset' = p + zlen k + zlen x1 ->
    fw_start g = p + zlen k -> fw_end g = fw_start g + zlen x1 -> content_at g c1 ->
    patched (x2 ++ r) (fw_end g) (h :: fs) u2 ->
    cut_case s p f fs u1 u2 cut offset.

Lemma cut_cases s p f fs u1 u2 cut offset :
  patched s p (f :: fs) (u1 ++ u2) ->
  0 <= p -> 0 <= p + offset -> p + zlen s <= B -> p + offset + zlen (u1 ++ u2) <= B ->
  cut = p + offset + zlen u1 ->
  cut_case s p f fs u1 u2 cut offset.
Proof.
  intros Hpat Hp Hq HB1 HB2 ->.
  inversion Hpat as [|p' k x r c f' fs' u Hs He Hc Hr Es Ep Ef Eu]; subst.
  rewrite Hs in He. pose proof Hc as (pre & post & Hd & Hcs & Hlen).
  rewrite <- Eu in HB2. pose proof (f_equal zlen Eu) as Elen. unfold B in *. zlens.
  destruct (Z.leb_spec (p + offset + zlen u1) (fw_start f + offset)) as [Hle|Hgt].
  { symmetry in Eu. apply app_split_le in Eu as (k2 & -> & Eu); [|lia].
    rewrite <- app_assoc. eapply cut_before; [done | done |].
    rewrite Eu. apply patched_cons; try done; zlens; lia. }
  destruct (Z.leb_spec (offset + fw_start f + fw_len f) (p + offset + zlen u1)) as [Hle2|Hgt2].
  { rewrite app_assoc in Eu. apply app_split_le in Eu as (w1 & -> & Eu); [|zlens; lia].
    subst u. eapply cut_after; try done. by rewrite app_assoc. }
  apply app_split_le in Eu as (c1 & -> & Eu); [|lia].
  symmetry in Eu. apply app_split_le in Eu as (c2 & -> & ->); [|zlens; lia].
  zlens.
  destruct (cut_fragment_spec p k x c1 c2 f (p + offset + (zlen k + zlen c1)) offset)
    as (x1 & x2 & g & h & offset' & Hcf & -> & Hoff & Hgs & Hge & Hgc & Hhs & Hhe & Hhc);
    try done; unfold B; zlens; try lia.
  rewrite <- !app_assoc. eapply cut_inside; try done; zlens.
  apply (patched_cons _ [] x2 r c2 h fs u); try done; [rewrite zlen_nil; lia|].
  by replace (fw_end h) with (fw_end f) by lia.
Qed.

Lemma content_len_bound f c : content_at f c -> fw_len f = zlen c /\ zlen c <= zlen data.
Proof. intros (pre & post & Hd & _ & Hl). rewrite Hd. zlens. lia. Qed.

(** The loop's tests at the head fragment, without their wrap-around. *)
Lemma head_range s p f fs u offset :
  patched s p (f :: fs) u ->
  0 <= p -> 0 <= p + offset -> p + zlen s <= B -> p + offset + zlen u <= B ->
  i32_add (fw_start f) offset = fw_start f + offset /\
  i32_add (i32_add offset (fw_start f)) (fw_len f) = offset + fw_start f + fw_len f /\
  i32_add offset (i32_sub (i32_add (fw_start f) (fw_len f)) (fw_end f))
    = offset + (fw_start f + fw_len f - fw_end f).
Proof.
  inversion 1 as [|p' k x r c f' fs' u' Hs He Hc Hr]; subst. intros.
  pose proof (content_len_bound f c Hc) as [Hl _]. unfold B in *. zlens.
  repeat split; i32_solve; done.
Qed.

Lemma gather_loop_spec fs : forall fuel dst src s p u1 u2 cut offset,
  patched s p fs (u1 ++ u2) ->
  remaining src fs -> (length fs < fuel)%nat ->
  0 <= p -> 0 <= p + offset -> p + zlen s <= B -> p + offset + zlen (u1 ++ u2) <= B ->
  cut = p + offset + zlen u1 ->
  exists out src' fs' offset' s1 s2,
    gather_loop fuel dst src cut offset
      = Ok (mkIter (frags dst ++ out) (cur_pointer dst), src', offset') /\
    remaining src' fs' /\
    cut_at s p u2 cut offset' fs' s1 s2 /\
    (forall rest v, patched s2 (p + zlen s1) rest v ->
                    patched s p (out ++ rest) (u1 ++ v)).
Proof.
  unfold cut_at.
  induction fs as [|f fs IH]; intros [|fuel] dst src s p u1 u2 cut offset
    Hpat Hrem Hfuel Hp Hq HB1 HB2 Hcut; simpl in Hfuel; try lia.
  all: cbn [gather_loop]; rewrite (remaining_end _ _ Hrem).
  { inversion Hpat; subst. exists [], src, [], offset, u1, u2. destruct dst.
    rewrite app_nil_r. repeat split; [done | lia | constructor |].
    intros rest v. apply patched_extend. }
  rewrite (remaining_current _ _ _ Hrem), bind_Ok.
  destruct (head_range _ _ _ _ _ _ Hpat Hp Hq HB1 HB2) as (-> & -> & ->).
  destruct (cut_cases _ _ _ _ _ _ cut offset Hpat Hp Hq HB1 HB2 Hcut)
    as [s2 Hle -> Hs2
       |k x r c w1 Hgt Hle -> -> Hs He Hl Hc Hr
       |k x1 x2 r c1 g h offset' Hgt Hlt Hcf -> -> Ho Hgs Hge Hgc Hh].
  - rewrite (proj2 (Z.leb_le _ _)) by done.
    exists [], src, (f :: fs), offset, u1, s2. destruct dst. rewrite app_nil_r.
    repeat split; [done | lia | done |]. intros rest v. apply patched_extend.
  - rewrite (proj2 (Z.leb_gt _ _)), (proj2 (Z.leb_le _ _)) by done.
    unfold B in *. zlens.
    destruct (IH fuel (Iter_push dst f) (go_next src) r (fw_end f) w1 u2 cut
                (offset + (fw_start f + fw_len f - fw_end f)))
      as (out & src' & fs' & offset' & s1 & s2 & -> & Hrem' & (-> & Hcut' & Hp2) & Hout);
      [done | by eapply remaining_next | lia | lia | lia | zlens; lia | zlens; lia | lia |].
    exists (f :: out), src', fs', offset', (k ++ x ++ s1), s2. zlens.
    replace (p + (zlen k + (zlen x + zlen s1))) with (fw_end f + zlen s1) by lia.
    rewrite <- !app_assoc. repeat split; try done; try lia; [by simpl; rewrite <- app_assoc|].
    intros rest v Hv. simpl. rewrite <- !app_assoc.
    apply patched_cons; [lia | lia | done | by apply Hout].
  - rewrite (proj2 (Z.leb_gt _ _)), (proj2 (Z.leb_gt _ _)), Hcf by done.
    exists [g], (set_current src h), (h :: fs), offset', (k ++ x1), (x2 ++ r). zlens.
    replace (p + (zlen k + zlen x1)) with (fw_end g) by lia.
    rewrite <- !app_assoc. repeat split; try done; [by eapply remaining_set | lia |].
    intros rest v Hv. simpl. rewrite <- !app_assoc. by apply patched_cons.
Qed.

(** [discard] is [gather] without the output. *)
Lemma discard_gather fuel : forall dst src cut offset,
  discard_loop fuel src cut offset
    = (fun '(_, src', offset') => (src', offset')) <$> gather_loop fuel dst src cut offset.
Proof.
  induction fuel as [|fuel IH]; intros dst src cut offset; cbn [discard_loop gather_loop];
    [done|].
  destruct (Iter_end src); [done|]. destruct (current_fragment src) as [f| |]; [|done|done].
  cbn [mbind outcome_bind]. case_test; [done|]. case_test; [apply IH|]. done.
Qed.

(** ** [combine] composes two deltas *)

Lemma combine_loop_spec bs : forall combined a as_ s p u q offset v,
  patched s p as_ u -> patched u q bs v -> q = p + offset ->
  remaining a as_ ->
  0 <= p -> 0 <= q -> p + zlen s <= B -> q + zlen u <= B ->
  exists out a' as',
    combine_loop combined a offset bs
      = Ok (mkIter (frags combined ++ out) (cur_pointer combined), a') /\
    remaining a' as' /\ patched s p (out ++ as') v.
Proof.
  induction bs as [|b bs IH]; intros combined a as_ s p u q offset v Ha Hb Hq Hrem Hp Hq0 HB1 HB2.
  { inversion Hb; subst. exists [], a, as_. destruct combined. by rewrite app_nil_r. }
  inversion Hb as [|q' k x r c b' bs' v' Hbs Hbe Hc Hr]; subst. cbn [combine_loop].
  unfold gather, discard. rewrite (remaining_fuel _ _ Hrem).
  destruct (gather_loop_spec as_ (S (length as_)) combined a s p k (x ++ r) (fw_start b) offset)
    as (out1 & a1 & as1 & off1 & s1 & s2 & -> & Hrem1 & (-> & Hcut1 & Hp1) & Hout1);
    [done | done | lia | done | done | done | done | done |].
  cbn [mbind outcome_bind]. rewrite (remaining_fuel _ _ Hrem1).
  rewrite (discard_gather _ Iter_default). unfold B in *. zlens.
  destruct (gather_loop_spec as1 (S (length as1)) Iter_default a1 s2 (p + zlen s1) x r (fw_end b) off1)
    as (out2 & a2 & as2 & post & s3 & s4 & -> & Hrem2 & (-> & Hcut2 & Hp2) & _);
    unfold B; zlens; [done | done | lia | lia | lia | lia | lia | lia |].
  cbn [fmap outcome_fmap mbind outcome_bind].
  rewrite <- (Z.add_assoc _ (zlen s1)) in Hp2.
  destruct (IH (Iter_push (mkIter (frags combined ++ out1) (cur_pointer combined))
                 (mkFW (i32_sub (fw_start b) off1) (i32_sub (fw_end b) post)
                       (fw_len b) (fw_content_start b)))
               a2 as2 s4 (p + (zlen s1 + zlen s3)) r (fw_end b) post v')
    as (out3 & a3 & as3 & -> & Hrem3 & Hp3); unfold B; zlens; [done | done | lia | done | lia | lia | lia | lia |].
  simpl. exists (out1 ++ mkFW (i32_sub (fw_start b) off1) (i32_sub (fw_end b) post)
                     (fw_len b) (fw_content_start b) :: out3), a3, as3.
  split; [by rewrite <- !app_assoc|]. split; [done|].
  rewrite <- app_assoc. apply Hout1. simpl. i32_solve.
  apply (patched_cons _ [] s3 s4 c); simpl; rewrite ?zlen_nil; [lia | lia | done |].
  by replace (fw_end b - post) with (p + (zlen s1 + zlen s3)) by lia.
Qed.

Lemma combine_tail_spec as_ : forall fuel combined a,
  remaining a as_ -> (length as_ < fuel)%nat ->
  combine_tail fuel combined a = Ok (mkIter (frags combined ++ as_) (cur_pointer combined)).
Proof.
  induction as_ as [|f fs IH]; intros [|fuel] combined a Hrem Hfuel; simpl in Hfuel; try lia.
  all: cbn [combine_tail]; rewrite (remaining_end _ _ Hrem).
  { rewrite app_nil_r. by destruct combined. }
  rewrite (remaining_current _ _ _ Hrem), bind_Ok, IH.
  - simpl. by rewrite <- app_assoc.
  - by eapply remaining_next.
  - lia.
Qed.

Lemma combine_patched a b t t' t'' :
  patched t 0 (frags a) t' -> patched t' 0 (frags b) t'' ->
  zlen t <= B -> zlen t' <= B ->
  exists c, combine a b = Ok c /\ patched t 0 (frags c) t''.
Proof.
  intros Ha Hb HB1 HB2. unfold combine.
  destruct (combine_loop_spec (frags b) Iter_default (set_start a) (frags a) t 0 t' 0 0 t'')
    as (out & a' & as' & -> & Hrem & Hp); try done.
  { by exists []. }
  cbn [mbind outcome_bind]. rewrite (remaining_fuel _ _ Hrem).
  rewrite (combine_tail_spec as') by (done || lia). eexists. split; [done|]. done.
Qed.

(** ** [mpatch_fold] composes a chain *)

(** [chain t its t']: the deltas [its], one after the other, turn [t] into
    [t'], and every text on the way is within the bound. *)
Inductive chain : bytes -> list FragmentWrapperIterator -> bytes -> Prop :=
| chain_nil t : zlen t <= B -> chain t [] t
| chain_cons t it its t' t'' :
    zlen t <= B -> patched t 0 (frags it) t' -> chain t' its t'' ->
    chain t (it :: its) t''.

Lemma chain_bound t its t' : chain t its t' -> zlen t <= B.
Proof. by inversion 1. Qed.

Lemma chain_app_inv its1 its2 t t'' :
  chain t (its1 ++ its2) t'' -> exists t', chain t its1 t' /\ chain t' its2 t''.
Proof.
  revert t. induction its1 as [|it its1 IH]; intros t H; simpl in *.
  - exists t. split; [constructor; by eapply chain_bound | done].
  - inversion H as [|? ? ? t' ? Hb Hp Hc]; subst. apply IH in Hc as (t2 & H1 & H2).
    exists t2. split; [by econstructor | done].
Qed.

Lemma mpatch_fold_patched fuel : forall pre m post t t',
  m <> [] -> (length m <= fuel)%nat -> chain t m t' ->
  exists c, mpatch_fold_fuel fuel (pre ++ m ++ post) (length pre) (length pre + length m) = Ok c
            /\ patched t 0 (frags c) t'.
Proof.
  induction fuel as [|fuel IH]; intros pre m post t t' Hne Hf Hc.
  { destruct m; simpl in *; [done | lia]. }
  assert (0 < length m)%nat by (destruct m; simpl in *; [done | lia]).
  cbn [mpatch_fold_fuel]. unfold assert_.
  rewrite (proj2 (Nat.ltb_lt _ _)), bind_Ok by lia.
  destruct (Nat.eqb_spec (length pre + 1) (length pre + length m)) as [E|E].
  { destruct m as [|it [|? ?]]; simpl in *; try lia. rewrite list_lookup_middle by done.
    inversion Hc as [|? ? ? t1 ? Hb Hp Hc']; subst. inversion Hc'; subst. by exists it. }
  replace (length pre + length m - length pre)%nat with (length m) by lia.
  set (h := (length m / 2)%nat).
  assert (0 < h < length m)%nat as Hh.
  { pose proof (Nat.div_mod_eq (length m) 2). pose proof (Nat.mod_upper_bound (length m) 2).
    unfold h in *. lia. }
  rewrite <- (take_drop h m) in Hc. apply chain_app_inv in Hc as (t1 & Hc1 & Hc2).
  destruct (IH pre (take h m) (drop h m ++ post) t t1) as (a & Ha & Hpa); try done;
    rewrite ?length_take; [destruct m, h; simpl in *; try lia; done | lia |].
  rewrite (app_assoc (take h m)), take_drop, length_take, (Nat.min_l h) in Ha by lia. rewrite Ha, bind_Ok.
  destruct (IH (pre ++ take h m) (drop h m) post t1 t') as (b & Hb & Hpb);
    try done; rewrite ?length_drop; [|lia|].
  { intros E'. apply (f_equal length) in E'. rewrite length_drop in E'. simpl in E'. lia. }
  rewrite <- app_assoc, (app_assoc (take h m)), take_drop, length_app, length_take,
    (Nat.min_l h), length_drop in Hb by lia.
  replace (length pre + h + (length m - h))%nat with (length pre + length m)%nat in Hb by lia.
  rewrite Hb, bind_Ok. eapply combine_patched; try done; by eapply chain_bound.
Qed.

End Patched.

(** ** What [apply] computes *)

(** [applied s p fs u]: reading [s] as the part of a text that starts at
    offset [p], replacing each fragment's range by its content gives [u]. *)
Inductive applied : bytes -> N -> list Fragment -> bytes -> Prop :=
| applied_nil s p : applied s p [] s
| applied_cons p k x r f fs u :
    frag_start f = (p + lenN k)%N ->
    frag_end f = (frag_start f + lenN x)%N ->
    applied r (frag_end f) fs u ->
    applied (k ++ x ++ r) p (f :: fs) (k ++ frag_content f ++ u).

Lemma get_range_app (pre k r : bytes) :
  get_range (pre ++ k ++ r) (lenN pre) (lenN pre + lenN k) = Some k.
Proof.
  unfold get_range, lenN. rewrite !length_app.
  rewrite (proj2 (N.leb_le _ _)), (proj2 (N.leb_le _ _)) by lia. simpl.
  rewrite Nat2N.id, drop_app_length.
  replace (N.to_nat _) with (length k) by lia. by rewrite take_app_length.
Qed.

Lemma get_range_inv text a b c :
  get_range text a b = Some c ->
  exists pre post, text = pre ++ c ++ post /\ a = lenN pre /\ b = (a + lenN c)%N.
Proof.
  unfold get_range. intros H.
  destruct (N.leb_spec a b), (N.leb_spec b (lenN text)); simpl in H; try done.
  injection H as <-. unfold lenN in *.
  exists (take (N.to_nat a) text), (drop (N.to_nat (b - a)) (drop (N.to_nat a) text)).
  rewrite take_drop, take_drop, !length_take, length_drop. split; [done|]. lia.
Qed.

(** The offset never goes back. *)
Lemma apply_loop_mono text fs : forall off cs off',
  Forall (fun f => Fragment_verify f = true) fs ->
  apply_loop text off fs = Ok (cs, off') -> (off <= off')%N.
Proof.
  intros off cs off' Hv. revert off cs. induction Hv as [|f fs Hf Hfs IH]; intros off cs; simpl.
  { intros [= <- <-]. lia. }
  apply N.leb_le in Hf. intros ([] & He & Hl)%bind_Ok_inv. unfold ensure in He.
  destruct (N.leb_spec off (frag_start f)); [|done].
  apply bind_Ok_inv in Hl as (? & _ & ([cs' o'] & Hl & [= <- ->])%bind_Ok_inv).
  apply IH in Hl. lia.
Qed.

(** A text cut at a fragment's two ends. *)
Lemma split_at_frag (pre s : bytes) (a b : N) :
  (lenN pre <= a)%N -> (a <= b)%N -> (b <= lenN (pre ++ s))%N ->
  exists k x r, s = k ++ x ++ r /\ a = (lenN pre + lenN k)%N /\ b = (a + lenN x)%N.
Proof.
  intros H1 H2 H3.
  set (s' := drop (N.to_nat (a - lenN pre)) s).
  exists (take (N.to_nat (a - lenN pre)) s), (take (N.to_nat (b - a)) s'),
    (drop (N.to_nat (b - a)) s').
  unfold s', lenN in *. rewrite !take_drop, !length_take, !length_drop.
  rewrite length_app in *. split; [done|]. lia.
Qed.

(** The chunk kept before a fragment. *)
Lemma kept_chunk (pre k r : bytes) kept e :
  (if (lenN pre <? lenN pre + lenN k)%N
   then c ← ok_or (get_range (pre ++ k ++ r) (lenN pre) (lenN pre + lenN k)) e; Ok [c]
   else @Ok delta_error _ []) = Ok kept -> concat kept = k.
Proof.
  destruct (N.ltb_spec (lenN pre) (lenN pre + lenN k)) as [Hlt|Hge]; intros Hk.
  - rewrite get_range_app in Hk. simpl in Hk. injection Hk as <-. apply app_nil_r.
  - injection Hk as <-. unfold lenN in *. destruct k; simpl in *; [done | lia].
Qed.

Lemma content_chunk (c : bytes) : concat (if (0 <? lenN c)%N then [c] else []) = c.
Proof. destruct c; [done|]. simpl. by rewrite app_nil_r. Qed.

(** A successful loop, whose final offset is inside the text. *)
Lemma apply_loop_applied fs : forall pre s chunks off',
  Forall (fun f => Fragment_verify f = true) fs ->
  apply_loop (pre ++ s) (lenN pre) fs = Ok (chunks, off') ->
  (off' <= lenN (pre ++ s))%N ->
  applied s (lenN pre) fs (concat chunks ++ drop (N.to_nat off') (pre ++ s)).
Proof.
  induction fs as [|f fs IH]; intros pre s chunks off' Hv Hl Hoff; cbn [apply_loop] in Hl.
  { injection Hl as <- <-. unfold lenN. rewrite Nat2N.id, drop_app_length. constructor. }
  apply Forall_cons in Hv as [Hf Hfs]. apply N.leb_le in Hf.
  apply bind_Ok_inv in Hl as ([] & He & (kept & Hk & ([cs o] & Hl & [= <- <-])%bind_Ok_inv)%bind_Ok_inv).
  unfold ensure in He. destruct (N.leb_spec (lenN pre) (frag_start f)) as [Hle|]; [|done].
  pose proof (apply_loop_mono _ _ _ _ _ Hfs Hl) as Hmono.
  destruct (split_at_frag pre s (frag_start f) (frag_end f)) as (k & x & r & -> & Hs & Hx); try lia.
  rewrite Hs in Hk. apply kept_chunk in Hk as Hkept.
  rewrite (app_assoc pre), (app_assoc (pre ++ k)) in Hl, Hoff |- *.
  assert (frag_end f = lenN ((pre ++ k) ++ x)) as Hend by (unfold lenN in *; rewrite !length_app; lia).
  rewrite Hend in Hl. apply (IH _ _ _ _ Hfs) in Hl; [|done].
  rewrite !concat_app, Hkept, content_chunk, <- !(app_assoc _ _ (drop _ _)).
  apply applied_cons; [done | done | by rewrite Hend].
Qed.

Lemma applied_loop fs : forall pre s u,
  applied s (lenN pre) fs u ->
  exists chunks off',
    apply_loop (pre ++ s) (lenN pre) fs = Ok (chunks, off') /\
    (off' <= lenN (pre ++ s))%N /\
    u = concat chunks ++ drop (N.to_nat off') (pre ++ s).
Proof.
  induction fs as [|f fs IH]; intros pre s u; inversion 1 as [|p k x r f' fs' u' Hs He Hr]; subst.
  { exists [], (lenN pre). simpl. unfold lenN. rewrite Nat2N.id, drop_app_length, length_app.
    repeat split; lia. }
  assert (frag_end f = lenN ((pre ++ k) ++ x)) as Hend by (unfold lenN in *; rewrite !length_app; lia).
  rewrite Hend in Hr. apply IH in Hr as (cs & o & Hl & Ho & ->).
  cbn [apply_loop]. unfold ensure. rewrite Hs, (proj2 (N.leb_le _ _)), bind_Ok by lia.
  rewrite get_range_app. rewrite Hend, (app_assoc pre), (app_assoc (pre ++ k)), Hl.
  destruct (N.ltb_spec (lenN pre) (lenN pre + lenN k)) as [Hlt|Hge];
    cbn [mbind outcome_bind ok_or].
  all: eexists _, o; split; [done|]; split; [done|]; rewrite !concat_app, content_chunk.
  - cbn [concat]. by rewrite app_nil_r, <- !app_assoc.
  - unfold lenN in Hge. destruct k; simpl in *; [by rewrite <- !app_assoc | lia].
Qed.

(** On a delta whose fragments have [start <= end], [apply] succeeds with
    [u] exactly when the fragments, in order and inside the text, rewrite it
    to [u]. *)
Lemma apply_applied t d u :
  Forall (fun f => Fragment_verify f = true) (delta_frags d) ->
  apply t d = Ok u <-> applied t 0 (delta_frags d) u.
Proof.
  intros Hv. unfold apply. change 0%N with (lenN (@nil byte)). split.
  - intros ([cs o] & Hl & (tl & Ht & [= <-])%bind_Ok_inv)%bind_Ok_inv.
    rewrite concat_app. destruct (N.ltb_spec o (lenN t)) as [Hlt|Hge].
    + assert (concat tl = drop (N.to_nat o) t) as ->.
      { unfold get_range in Ht. rewrite (proj2 (N.leb_le _ _)), (proj2 (N.leb_le _ _)) in Ht by lia.
        simpl in Ht. injection Ht as <-. simpl. rewrite app_nil_r, take_ge; [done|].
        rewrite length_drop. unfold lenN. lia. }
      apply (apply_loop_applied _ [] t); [done | done | simpl; lia].
    + destruct (N.ltb_spec (lenN t) o); [done|]. injection Ht as <-.
      replace (concat []) with (drop (N.to_nat o) ([] ++ t)).
      * apply (apply_loop_applied _ [] t); [done | done | simpl; lia].
      * simpl. apply drop_ge. unfold lenN in *. lia.
  - intros (cs & o & Hl & Ho & ->)%(applied_loop _ [] t).
    simpl in *. rewrite Hl, bind_Ok.
    destruct (N.ltb_spec o (lenN t)) as [Hlt|Hge].
    + unfold get_range. rewrite !(proj2 (N.leb_le _ _)) by lia. simpl.
      rewrite concat_app. simpl. rewrite app_nil_r, take_ge; [done|].
      rewrite length_drop. unfold lenN. lia.
    + destruct (N.ltb_spec (lenN t) o); [lia|]. simpl.
      rewrite app_nil_r, drop_ge, app_nil_r; [done|]. unfold lenN in *. lia.
Qed.

(** ** From deltas to wrapped fragments and back *)

Lemma lenN_zlen {A} (l : list A) : Z.of_N (lenN l) = zlen l.
Proof. unfold lenN, zlen. lia. Qed.

(** Wrapping keeps the meaning, when every number fits. *)
Lemma wrap_frags_patched fs : forall s p u pre post,
  applied s p fs u ->
  Z.of_N p + zlen s <= B ->
  zlen (pre ++ concat (frag_content <$> fs) ++ post) < 2 ^ 31 ->
  patched (pre ++ concat (frag_content <$> fs) ++ post) s (Z.of_N p)
          (wrap_frags (zlen pre) fs) u.
Proof.
  induction fs as [|f fs IH]; intros s p u pre post;
    inversion 1 as [|p' k x r f' fs' u' Hs He Hr]; subst; intros HB Hd; [constructor|].
  cbn [wrap_frags fmap list_fmap concat] in *. unfold B in *.
  rewrite <- !lenN_zlen in *. unfold content_length.
  assert (lenN (frag_content f) < 2 ^ 31)%N by (unfold lenN in *; rewrite !length_app in *; lia).
  rewrite !as_i32_small by (unfold lenN in *; rewrite !length_app in *; lia).
  unfold i32_add. rewrite wrap32_small
    by (unfold i32_range, lenN in *; rewrite !length_app in *; lia).
  apply patched_cons; simpl.
  - rewrite <- lenN_zlen. lia.
  - rewrite <- lenN_zlen. lia.
  - exists pre, (concat (frag_content <$> fs) ++ post). simpl.
    rewrite <- !lenN_zlen, <- app_assoc. done.
  - rewrite <- (app_assoc (frag_content f)), (app_assoc pre).
    replace (Z.of_N (lenN pre) + Z.of_N (lenN (frag_content f)))
      with (zlen (pre ++ frag_content f)) by (rewrite zlen_app, !lenN_zlen; done).
    apply IH; [done | unfold lenN, zlen in *; rewrite !length_app in *; lia |].
    unfold lenN, zlen in *. rewrite !length_app in *. lia.
Qed.

(** Reading the contents back gives fragments with the same meaning. *)
Lemma fw_to_fragment_content data f c :
  content_at data f c -> zlen data < 2 ^ 31 ->
  0 <= fw_start f <= B -> 0 <= fw_end f <= B ->
  fw_to_fragment data f = Ok (mkFragment (Z.to_N (fw_start f)) (Z.to_N (fw_end f)) c).
Proof.
  intros (pre & post & -> & Hcs & Hl) Hd Hs He. unfold B in *. zlens.
  unfold fw_to_fragment. i32_solve. rewrite !as_usize_small by lia.
  rewrite Hcs, Hl, <- zlen_app. unfold data_slice.
  replace (Z.to_N (zlen pre)) with (lenN pre) by (unfold zlen, lenN; lia).
  replace (Z.to_N (zlen (pre ++ c))) with (lenN pre + lenN c)%N
    by (unfold zlen, lenN; rewrite length_app; lia).
  by rewrite get_range_app.
Qed.

Lemma patched_into_fragments data fws : forall s p u,
  patched data s p fws u ->
  zlen data < 2 ^ 31 -> 0 <= p -> p + zlen s <= B ->
  exists fs, collect (fw_to_fragment data) fws = Ok fs /\ applied s (Z.to_N p) fs u.
Proof.
  induction fws as [|f fws IH]; intros s p u;
    inversion 1 as [|p' k x r c f' fws' u' Hs He Hc Hr]; subst; intros Hdata Hp HB.
  { exists []. split; [done | constructor]. }
  zlens. apply IH in Hr as (fs & Hfs & Happ); [|done|lia|lia].
  exists (mkFragment (Z.to_N (fw_start f)) (Z.to_N (fw_end f)) c :: fs). cbn [collect].
  rewrite (fw_to_fragment_content data f c), bind_Ok, Hfs by (done || lia). split; [done|].
  pose proof (lenN_zlen k). pose proof (lenN_zlen x).
  apply (applied_cons _ _ _ _ (mkFragment _ _ c)); simpl; [lia | lia | done].
Qed.

Lemma applied_verify fs : forall s p u i prev,
  applied s p fs u -> (match prev with Some f => frag_end f = p | None => True end) ->
  Delta_verify_from i prev fs = Ok tt.
Proof.
  induction fs as [|f fs IH]; intros s p u i prev;
    inversion 1 as [|p' k x r f' fs' u' Hs He Hr]; subst; intros Hprev; [done|].
  cbn [Delta_verify_from]. unfold Fragment_verify, ensure.
  rewrite (proj2 (N.leb_le _ _)), bind_Ok by lia.
  replace (match prev with Some _ => _ | None => _ end) with (@Ok delta_error _ tt).
  { rewrite bind_Ok. by eapply IH. }
  destruct prev as [g|]; [|done]. by rewrite (proj2 (N.ltb_ge _ _)) by lia.
Qed.

Lemma verify_Forall fs : forall i prev,
  Delta_verify_from i prev fs = Ok tt -> Forall (fun f => Fragment_verify f = true) fs.
Proof.
  induction fs as [|f fs IH]; intros i prev H; [constructor|]. cbn [Delta_verify_from] in H.
  apply bind_Ok_inv in H as ([] & He & (? & _ & H)%bind_Ok_inv).
  unfold ensure in He. destruct (Fragment_verify f) eqn:E; [|done]. constructor; [done | by eapply IH].
Qed.

Lemma applied_into_delta data it s u :
  patched data s 0 (frags it) u -> zlen data < 2 ^ 31 -> zlen s <= B ->
  exists d, into_delta it data = Ok d /\ apply s d = Ok u.
Proof.
  intros Hp Hd HB. apply patched_into_fragments in Hp as (fs & Hfs & Happ); [|done|lia|lia].
  pose proof (applied_verify fs _ _ _ 0%nat None Happ I) as Hv.
  exists (mkDelta fs). unfold into_delta. rewrite Hfs, bind_Ok. unfold Delta_new, Delta_verify.
  rewrite Hv. split; [done|]. apply apply_applied; [by eapply verify_Forall | done].
Qed.

(** ** The chain of deltas, applied one after the other *)

(** The texts obtained on the way, the input and the result included. *)
Fixpoint apply_each (text : bytes) (ds : list Delta) : outcome delta_error (list bytes) :=
  match ds with
  | [] => Ok [text]
  | d :: ds => t ← apply text d; ts ← apply_each t ds; Ok (text :: ts)
  end.

Definition chain_content (ds : list Delta) : bytes :=
  concat ((fun d => concat (frag_content <$> delta_frags d)) <$> ds).

Lemma wrap_deltas_data ds : forall off, (wrap_deltas_from off ds).2 = chain_content ds.
Proof.
  induction ds as [|d ds IH]; intros off; [done|]. simpl.
  specialize (IH (off + lenN (concat (frag_content <$> delta_frags d)))%N).
  destruct (wrap_deltas_from _ ds) as [w data]. simpl in *. by rewrite IH.
Qed.

Lemma wrap_deltas_chain ds : forall pre t ts,
  Forall (fun d => Delta_verify (delta_frags d) = Ok tt) ds ->
  apply_each t ds = Ok ts -> Forall (fun t => zlen t <= B) ts ->
  zlen (pre ++ chain_content ds) < 2 ^ 31 ->
  exists t', last ts = Some t' /\
    chain (pre ++ chain_content ds) t (wrap_deltas_from (lenN pre) ds).1 t'.
Proof.
  induction ds as [|d ds IH]; intros pre t ts Hv Hts HB Hd; simpl in Hts.
  { injection Hts as <-. exists t. rewrite Forall_singleton in HB. split; [done | by constructor]. }
  apply Forall_cons in Hv as [Hd1 Hv].
  apply bind_Ok_inv in Hts as (t1 & Ht1 & (ts' & Hts & [= <-])%bind_Ok_inv).
  apply Forall_cons in HB as [HBt HB].
  apply apply_applied in Ht1; [|by eapply verify_Forall].
  set (c := concat (frag_content <$> delta_frags d)) in *.
  change (chain_content (d :: ds)) with (c ++ chain_content ds) in *.
  destruct (IH (pre ++ c) t1 ts' Hv Hts HB) as (t' & Hlast & Hch); [by rewrite <- app_assoc|].
  rewrite <- app_assoc in Hch. exists t'. split.
  { rewrite last_cons, Hlast. done. }
  cbn [wrap_deltas_from]. fold c.
  replace (lenN (pre ++ c)) with (lenN pre + lenN c)%N in Hch by (unfold lenN; rewrite length_app; lia).
  destruct (wrap_deltas_from (lenN pre + lenN c) ds) as [w data]. simpl in *.
  econstructor; [done | | done]. simpl.
  rewrite as_i32_small, lenN_zlen.
  - apply (wrap_frags_patched _ _ 0); [done | done | done].
  - unfold zlen, lenN in *. rewrite length_app in *. lia.
Qed.

Lemma length_wrap_deltas ds : forall off, length (wrap_deltas_from off ds).1 = length ds.
Proof.
  induction ds as [|d ds IH]; intros off; [done|]. simpl.
  specialize (IH (off + lenN (concat (frag_content <$> delta_frags d)))%N).
  destruct (wrap_deltas_from _ ds). simpl in *. by rewrite IH.
Qed.

(** C1. Folding a chain of deltas with the mpatch algorithm and applying the
    result gives the text obtained by applying the deltas one after the
    other, whenever that succeeds on verified deltas, every text on the way is
    below [2 ^ 30] bytes and the contents together below [2 ^ 31]: no panic,
    no error, no [i32] wrap-around. *)
Theorem apply_chain_sequential text ds ts t :
  Forall (fun d => Delta_verify (delta_frags d) = Ok tt) ds ->
  apply_each text ds = Ok ts -> last ts = Some t ->
  Forall (fun t => Z.of_nat (length t) < 2 ^ 30) ts ->
  Z.of_nat (length (chain_content ds)) < 2 ^ 31 ->
  apply_chain text ds = Ok t.
Proof.
  intros Hv Hts Hlast HB Hd.
  destruct (wrap_deltas_chain ds [] text ts Hv Hts) as (t' & Hl & Hch).
  { eapply Forall_impl; [exact HB|]. unfold zlen, B. simpl. lia. }
  { done. }
  rewrite Hlast in Hl. injection Hl as <-. simpl in Hch.
  unfold apply_chain, wrap_deltas. change (lenN []) with 0%N in Hch.
  pose proof (wrap_deltas_data ds 0) as Edata. pose proof (length_wrap_deltas ds 0) as Elen.
  destruct (wrap_deltas_from 0 ds) as [w data]. simpl in *. subst data.
  destruct (Nat.eqb_spec (length w) 0) as [E|E].
  { destruct w; [|done]. by inversion Hch. }
  unfold mpatch_fold.
  destruct (mpatch_fold_patched (chain_content ds) Hd (S (length w - 0)) [] w [] text t)
    as (c & Hc & Hp); [by destruct w | lia | done |].
  simpl in Hc. rewrite app_nil_r in Hc. simpl. rewrite Hc, bind_Ok.
  destruct (applied_into_delta _ _ _ _ Hp Hd) as (d & -> & Happ); [by eapply chain_bound|].
  by rewrite bind_Ok.
Qed.

Definition ex_text : bytes := bstr "aaaabbbbcccc".
Definition ex_deltas : list Delta :=
  [mkDelta [mkFragment 4 8 (bstr "XY")];
   mkDelta [mkFragment 0 0 (bstr "head:"); mkFragment 5 7 (bstr "--")];
   mkDelta [mkFragment 2 11 (bstr "*")]].

Lemma apply_chain_sequential_witness :
  exists t, apply_each ex_text ex_deltas
              = Ok [ex_text; bstr "aaaaXYcccc"; bstr "head:aaaaX--ccc"; t] /\
            apply_chain ex_text ex_deltas = Ok t.
Proof.
  exists (bstr "he*-ccc"). split; [vm_compute; reflexivity|].
  refine (apply_chain_sequential ex_text ex_deltas
            [ex_text; bstr "aaaaXYcccc"; bstr "head:aaaaX--ccc"; bstr "he*-ccc"]
            (bstr "he*-ccc") _ _ _ _ _).
  - repeat constructor.
  - vm_compute; reflexivity.
  - reflexivity.
  - repeat constructor.
  - vm_compute; reflexivity.
Defined.

(** On a delta accepted by [Delta::new], [apply] returns [u] exactly when
    [u] is the text with each fragment's range replaced by its content. *)
Theorem apply_correct frags d t u :
  Delta_new frags = Ok d ->
  apply t d = Ok u <-> applied t 0 frags u.
Proof.
  unfold Delta_new, Delta_verify. intros ([] & Hv & [= <-])%bind_Ok_inv.
  apply apply_applied. by eapply verify_Forall.
Qed.

Lemma apply_correct_witness :
  applied ex_text 0 [mkFragment 4 8 (bstr "XY")] (bstr "aaaaXYcccc").
Proof.
  refine (proj1 (apply_correct [mkFragment 4 8 (bstr "XY")]
                   (mkDelta [mkFragment 4 8 (bstr "XY")]) ex_text (bstr "aaaaXYcccc") _) _).
  - reflexivity.
  - vm_compute; reflexivity.
Defined.
