(* ===== verification/Path.v ===== *)
(** * Paths

    Model of [mononoke_types/src/path.rs]: path elements, [MPath],
    [RepoPath], their thrift conversions, the path-conflict check used on
    changesets, and the derived orders. *)

From S2P Require Import Prelude Ord.

(** ** Data *)

Record MPathElement := mkElem { elem : bytes }.
Record MPath := mkMPath { elements : list MPathElement }.

Inductive RepoPath :=
| RootPath
| DirectoryPath (p : MPath)
| FilePath (p : MPath).

#[export] Instance MPathElement_eq_dec : EqDecision MPathElement.
Proof. solve_decision. Defined.
#[export] Instance MPath_eq_dec : EqDecision MPath.
Proof. solve_decision. Defined.
#[export] Instance RepoPath_eq_dec : EqDecision RepoPath.
Proof. solve_decision. Defined.

(** Why a path was rejected. *)
Inductive path_error :=
| EmptyElement
| ContainsByte (b : byte)
| EmptyPath
| EmptyThriftPath
| InvalidThriftElement (e : path_error)
| UnknownThriftField (id : Z)
| TooManyComponents (taken has : N)
| NotPathConflictFree (dir path : MPath).

Definition nul : byte := x00.
Definition soh : byte := x01.
Definition nl : byte := x0a.
Definition slash : byte := x2f.

Definition contains (b : byte) (l : bytes) : bool := bool_decide (b ∈ l).

(** ** [MPathElement] *)

Definition MPathElement_verify (p : bytes) : outcome path_error unit :=
  if Nat.eqb (length p) 0 then Err EmptyElement else
  if contains nul p then Err (ContainsByte nul) else
  if contains soh p then Err (ContainsByte soh) else
  if contains slash p then Err (ContainsByte slash) else
  if contains nl p then Err (ContainsByte nl) else
  Ok tt.

Definition MPathElement_new (element : bytes) : outcome path_error MPathElement :=
  _ ← MPathElement_verify element; Ok (mkElem element).

Definition MPathElement_extend (e : MPathElement) (toappend : bytes) : MPathElement :=
  mkElem (elem e ++ toappend).

Definition MPathElement_len (e : MPathElement) : N := lenN (elem e).

(** The thrift form of an element is its bytes. *)
Definition MPathElement_from_thrift (e : bytes) : outcome path_error MPathElement :=
  _ ← map_err InvalidThriftElement (MPathElement_verify e); Ok (mkElem e).

Definition MPathElement_into_thrift (e : MPathElement) : bytes := elem e.

Definition MPath_of_element (e : MPathElement) : MPath := mkMPath [e].

(** ** [MPath] *)

Definition MPath_verify (p : bytes) : outcome path_error unit :=
  if contains nul p then Err (ContainsByte nul) else
  if contains soh p then Err (ContainsByte soh) else
  if contains nl p then Err (ContainsByte nl) else
  Ok tt.

Definition nonempty (e : bytes) : bool := negb (Nat.eqb (length e) 0).

Definition MPath_new (p : bytes) : outcome path_error MPath :=
  _ ← MPath_verify p;
  let els := mkElem <$> List.filter nonempty (split_on slash p) in
  if Nat.eqb (length els) 0 then Err EmptyPath else Ok (mkMPath els).

Definition MPath_from_thrift (mpath : list bytes) : outcome path_error MPath :=
  els ← collect MPathElement_from_thrift mpath;
  if Nat.eqb (length els) 0 then Err EmptyThriftPath else Ok (mkMPath els).

Definition MPath_into_thrift (p : MPath) : list bytes :=
  MPathElement_into_thrift <$> elements p.

Definition nonempty_elem (e : MPathElement) : bool := nonempty (elem e).

Definition MPath_join (p : MPath) (another : list MPathElement) : MPath :=
  mkMPath (elements p ++ List.filter nonempty_elem another).

Definition join_element (p : MPath) (element : option MPathElement) : MPath :=
  match element with
  | Some e => MPath_join p [e]
  | None => p
  end.

Definition join_opt (path : option MPath) (another : list MPathElement) : option MPath :=
  match path with
  | Some p => Some (MPath_join p another)
  | None =>
      let els := List.filter nonempty_elem another in
      if Nat.eqb (length els) 0 then None else Some (mkMPath els)
  end.

Definition join_opt_element (path : option MPath) (element : MPathElement) : MPath :=
  match path with
  | Some p => join_element p (Some element)
  | None => mkMPath [element]
  end.

Definition join_element_opt (path : option MPath) (element : option MPathElement)
    : option MPath :=
  match element with
  | Some e => join_opt path [e]
  | None => path
  end.

Definition iter_opt (path : option MPath) : list MPathElement :=
  match path with Some p => elements p | None => [] end.

Definition num_components (p : MPath) : nat := length (elements p).

(** [zip], [take_while], [count]. *)
Fixpoint common_components (es other : list MPathElement) : nat :=
  match es, other with
  | e1 :: es, e2 :: other =>
      if decide (e1 = e2) then S (common_components es other) else 0
  | _, _ => 0
  end.

Definition is_prefix_of (p : MPath) (other : list MPathElement) : bool :=
  Nat.eqb (common_components (elements p) other) (num_components p).

Definition basename (p : MPath) : outcome path_error MPathElement :=
  expect (last (elements p)).

Definition take_prefix_components (p : MPath) (components : nat)
    : outcome path_error (option MPath) :=
  if Nat.eqb components 0 then Ok None else
  if Nat.ltb (num_components p) components
  then Err (TooManyComponents (N.of_nat components) (N.of_nat (num_components p)))
  else Ok (Some (mkMPath (take components (elements p)))).

Definition to_vec (p : MPath) : bytes := join_with slash (elem <$> elements p).

(** [len]: the subtraction wraps (or panics) on a path without elements. *)
Definition MPath_len (p : MPath) : N :=
  usize_add (usize_sub (lenN (elements p)) 1)
            (foldr (fun e n => usize_add (MPathElement_len e) n) 0%N (elements p)).

Definition from_elements (els : list MPathElement) : MPath := mkMPath els.

Definition split_dirname (p : MPath) : outcome path_error (option MPath * MPathElement) :=
  filename ← expect (last (elements p));
  let dirname_elements := removelast (elements p) in
  if Nat.eqb (length dirname_elements) 0 then Ok (None, filename)
  else Ok (Some (from_elements dirname_elements), filename).

(** ** The path-conflict check *)

Fixpoint check_pcf_from (last_changed_path : option MPath)
    (sorted_paths : list (MPath * bool)) : outcome path_error unit :=
  match sorted_paths with
  | [] => Ok tt
  | (path, is_changed) :: rest =>
      _ ← match last_changed_path with
          | Some l =>
              if is_prefix_of l (elements path) then Err (NotPathConflictFree l path)
              else Ok tt
          | None => Ok tt
          end;
      check_pcf_from (if is_changed then Some path else last_changed_path) rest
  end.

Definition check_pcf (sorted_paths : list (MPath * bool)) : outcome path_error unit :=
  check_pcf_from None sorted_paths.

(** ** [RepoPath] *)

Definition RepoPath_root : RepoPath := RootPath.
Definition RepoPath_dir (path : outcome path_error MPath) : outcome path_error RepoPath :=
  p ← path; Ok (DirectoryPath p).
Definition RepoPath_file (path : outcome path_error MPath) : outcome path_error RepoPath :=
  p ← path; Ok (FilePath p).

Definition is_root (r : RepoPath) : bool := match r with RootPath => true | _ => false end.
Definition is_dir (r : RepoPath) : bool :=
  match r with DirectoryPath _ => true | _ => false end.
Definition is_tree (r : RepoPath) : bool :=
  match r with RootPath => true | DirectoryPath _ => true | _ => false end.
Definition is_file (r : RepoPath) : bool := match r with FilePath _ => true | _ => false end.

Definition RepoPath_len (r : RepoPath) : N :=
  match r with
  | RootPath => 0
  | DirectoryPath p => MPath_len p
  | FilePath p => MPath_len p
  end.

Definition RepoPath_mpath (r : RepoPath) : option MPath :=
  match r with
  | RootPath => None
  | DirectoryPath p => Some p
  | FilePath p => Some p
  end.

(** The thrift union. *)
Inductive thrift_RepoPath :=
| TRootPath (dummy : bool)
| TDirectoryPath (p : list bytes)
| TFilePath (p : list bytes)
| TUnknownField (id : Z).

Definition RepoPath_from_thrift (path : thrift_RepoPath) : outcome path_error RepoPath :=
  match path with
  | TRootPath _ => Ok RepoPath_root
  | TDirectoryPath p => p ← MPath_from_thrift p; RepoPath_dir (Ok p)
  | TFilePath p => p ← MPath_from_thrift p; RepoPath_file (Ok p)
  | TUnknownField id => Err (UnknownThriftField id)
  end.

Definition RepoPath_into_thrift (r : RepoPath) : thrift_RepoPath :=
  match r with
  | RootPath => TRootPath false
  | DirectoryPath p => TDirectoryPath (MPath_into_thrift p)
  | FilePath p => TFilePath (MPath_into_thrift p)
  end.

(** ** The derived order

    [Ord] on [MPath] compares element lists, and elements as byte strings,
    lexicographically. *)

#[export] Instance MPathElement_ordered : Ordered MPathElement.
Proof. refine (ordered_by elem _). intros [a] [b]. simpl. congruence. Defined.
#[export] Instance MPath_ordered : Ordered MPath.
Proof. refine (ordered_by elements _). intros [a] [b]. simpl. congruence. Defined.

(** ** Validity: the invariant of the two types *)

Definition valid_elem (e : MPathElement) : Prop := MPathElement_verify (elem e) = Ok tt.
Definition valid_path (p : MPath) : Prop := elements p <> [] /\ Forall valid_elem (elements p).
Definition valid_repo_path (r : RepoPath) : Prop :=
  match RepoPath_mpath r with Some p => valid_path p | None => True end.

Lemma contains_spec b l : reflect (b ∈ l) (contains b l).
Proof. apply bool_decide_reflect. Qed.

Lemma valid_elem_iff e :
  valid_elem e <->
  elem e <> [] /\ (nul ∉ elem e) /\ (soh ∉ elem e) /\ (slash ∉ elem e) /\ (nl ∉ elem e).
Proof.
  unfold valid_elem, MPathElement_verify.
  destruct (Nat.eqb_spec (length (elem e)) 0) as [E|E].
  { apply nil_length_inv in E. naive_solver. }
  assert (elem e <> []) by (intros E'; by rewrite E' in E).
  destruct (contains_spec nul (elem e)), (contains_spec soh (elem e)),
    (contains_spec slash (elem e)), (contains_spec nl (elem e)); naive_solver.
Qed.

Lemma MPath_verify_Ok p : MPath_verify p = Ok tt <-> (nul ∉ p) /\ (soh ∉ p) /\ (nl ∉ p).
Proof.
  unfold MPath_verify.
  destruct (contains_spec nul p), (contains_spec soh p), (contains_spec nl p); naive_solver.
Qed.

Lemma nonempty_spec e : nonempty e = true <-> e <> [].
Proof. destruct e; unfold nonempty; simpl; split; done. Qed.

Lemma valid_elem_nonempty e : valid_elem e -> nonempty_elem e = true.
Proof. intros (H & _)%valid_elem_iff. by apply nonempty_spec. Qed.

Lemma MPath_new_valid b p : MPath_new b = Ok p -> valid_path p.
Proof.
  unfold MPath_new. intros ([] & (H0 & H1 & Hn)%MPath_verify_Ok & H)%bind_Ok_inv.
  destruct (Nat.eqb_spec (length (mkElem <$> List.filter nonempty (split_on slash b))) 0)
    as [E|E]; [done|]. injection H as <-. split; simpl.
  { intros E'. by rewrite E' in E. }
  pose proof (split_on_pieces slash b) as Hp. induction Hp as [|q qs [Hq Hin] _ IH]; simpl in *; [done|].
  clear E. assert (Forall valid_elem (mkElem <$> List.filter nonempty qs)) as IH'.
  { destruct (List.filter nonempty qs) eqn:E; [done | by apply IH]. }
  destruct (nonempty q) eqn:Hne; [|done]. constructor; [|done].
  apply valid_elem_iff. simpl. apply nonempty_spec in Hne. naive_solver.
Qed.

Lemma to_vec_bytes p b : b ∈ to_vec p -> b = slash \/ Exists (fun e => b ∈ elem e) (elements p).
Proof.
  unfold to_vec. induction (elements p) as [|e es IH]; simpl; [set_solver|].
  destruct es as [|e' es]; simpl in *; [intros; right; by constructor|].
  rewrite elem_of_app, elem_of_cons. intros [H|[H|H]]; [right; by constructor | by left |].
  destruct (IH H) as [?|?]; [by left | right; by apply Exists_cons_tl].
Qed.

Lemma to_vec_verify p : valid_path p -> MPath_verify (to_vec p) = Ok tt.
Proof.
  intros [_ Hv]. apply MPath_verify_Ok.
  assert (forall b, b <> slash -> Forall (fun e => b ∉ elem e) (elements p) -> b ∉ to_vec p) as H.
  { intros b Hb Hf [->|Hex]%to_vec_bytes; [done|].
    apply Exists_exists in Hex as (e & He & Hbe).
    rewrite Forall_forall in Hf. by apply (Hf e). }
  repeat split; apply H; try done; eapply Forall_impl; try done; intros e He%valid_elem_iff;
    naive_solver.
Qed.

Lemma MPath_new_to_vec_valid p : valid_path p -> MPath_new (to_vec p) = Ok p.
Proof.
  intros Hv. unfold MPath_new. rewrite to_vec_verify, bind_Ok by done.
  destruct Hv as [Hne Hv]. destruct p as [es]. simpl in *. unfold to_vec. simpl.
  rewrite split_on_join.
  - rewrite filter_all.
    + replace (mkElem <$> (elem <$> es)) with es.
      * by destruct es.
      * rewrite <- list_fmap_compose. symmetry. rewrite <- (list_fmap_id es) at 2.
        apply list_fmap_ext. by intros ? [].
    + apply Forall_fmap. eapply Forall_impl; [exact Hv|]. intros e He. by apply valid_elem_nonempty.
  - by destruct es.
  - apply Forall_fmap. eapply Forall_impl; [exact Hv|]. intros e He%valid_elem_iff. naive_solver.
Qed.

Lemma length_to_vec p :
  elements p <> [] ->
  lenN (to_vec p) = (lenN (elements p) - 1 + foldr (fun e n => MPathElement_len e + n) 0 (elements p))%N.
Proof.
  intros Hne. unfold to_vec, lenN, MPathElement_len. rewrite length_join_with.
  - rewrite length_fmap. induction (elements p) as [|e es IH]; [done|].
    destruct es as [|e' es]; [simpl; unfold lenN; lia|].
    specialize (IH ltac:(done)). simpl in *. unfold lenN in *. lia.
  - by destruct (elements p).
Qed.

Lemma elements_le_len es :
  Forall valid_elem es -> (lenN es <= foldr (fun e n => MPathElement_len e + n) 0 es)%N.
Proof.
  induction 1 as [|e es He _ IH]; [done|]. apply valid_elem_iff in He as [He _].
  cbn [foldr]. assert (1 <= MPathElement_len e)%N.
  { unfold MPathElement_len, lenN. destruct (elem e); [done|]. cbn [length]. lia. }
  unfold lenN in *. cbn [length]. lia.
Qed.

Lemma MPath_len_to_vec p :
  valid_path p -> (lenN (to_vec p) < 2 ^ 64)%N -> MPath_len p = lenN (to_vec p).
Proof.
  intros [Hne Hv%elements_le_len] H. rewrite (length_to_vec p Hne) in *. unfold MPath_len.
  assert (1 <= lenN (elements p))%N by (destruct (elements p); [done|]; unfold lenN; cbn [length]; lia).
  rewrite usize_sub_small by lia.
  assert (forall es, (foldr (fun e n => MPathElement_len e + n) 0 es < 2 ^ 64)%N ->
    foldr (fun e n => usize_add (MPathElement_len e) n) 0%N es
    = foldr (fun e n => MPathElement_len e + n)%N 0%N es) as Hsum.
  { induction es as [|e es IH]; simpl; [done|]. intros Hl. rewrite IH by lia.
    by apply usize_add_small. }
  rewrite Hsum by lia. apply usize_add_small. lia.
Qed.

(** Whatever [MPath::new] accepts is a valid path (at least one element,
    no element empty or with a forbidden byte), writing it with [to_vec] and
    parsing again gives the same path, and [len] is the number of bytes
    written. *)
Theorem MPath_new_roundtrip b p :
  MPath_new b = Ok p ->
  valid_path p /\ MPath_new (to_vec p) = Ok p /\
  ((lenN (to_vec p) < 2 ^ 64)%N -> MPath_len p = lenN (to_vec p)).
Proof.
  intros Hv%MPath_new_valid. split; [done|]. split; [by apply MPath_new_to_vec_valid|].
  by apply MPath_len_to_vec.
Qed.

Definition ex_path : MPath := mkMPath [mkElem (bstr "foo"); mkElem (bstr "bar")].

Lemma MPath_new_roundtrip_witness :
  MPath_new (bstr "//foo/bar/") = Ok ex_path /\ MPath_new (to_vec ex_path) = Ok ex_path /\
  MPath_len ex_path = 7%N.
Proof.
  split; [vm_compute; reflexivity|].
  destruct (MPath_new_roundtrip (bstr "//foo/bar/") ex_path) as (_ & H & L);
    [vm_compute; reflexivity|]. split; [exact H|]. apply L. vm_compute. reflexivity.
Defined.

(** ** Joins keep validity *)

Lemma join_valid p es : valid_path p -> Forall valid_elem es -> valid_path (MPath_join p es).
Proof.
  intros [Hne Hv] He. split; simpl.
  - by destruct (elements p).
  - apply Forall_app. split; [done | by apply filter_Forall].
Qed.

Lemma join_valid_elems p es :
  Forall valid_elem es -> elements (MPath_join p es) = elements p ++ es.
Proof.
  intros He. simpl. rewrite filter_all; [done|].
  eapply Forall_impl; [exact He | apply valid_elem_nonempty].
Qed.

Lemma removelast_last {A} (l : list A) x : last l = Some x -> l = removelast l ++ [x].
Proof.
  intros H. apply last_Some in H as [l' ->]. by rewrite List.removelast_last.
Qed.

(** [split_dirname] of a valid path returns its directory (none when the
    path has one element) and file name, [join_opt_element] puts them back
    together, and [basename] is that file name. *)
Theorem split_dirname_join p :
  valid_path p ->
  exists dir file,
    split_dirname p = Ok (dir, file) /\ join_opt_element dir file = p /\
    basename p = Ok file /\
    match dir with Some d => valid_path d | None => num_components p = 1 end.
Proof.
  intros [Hne Hv]. destruct p as [es]. simpl in *. unfold split_dirname, basename. simpl.
  destruct (last es) as [f|] eqn:El; [|by apply last_None in El].
  pose proof (removelast_last es f El) as E. rewrite E in Hv.
  apply Forall_app in Hv as [Hvd Hvf]. rewrite Forall_singleton in Hvf.
  simpl. destruct (Nat.eqb_spec (length (removelast es)) 0) as [E0|E0].
  - apply nil_length_inv in E0. exists None, f. rewrite E0 in E. simpl in E. subst es. done.
  - eexists (Some _), f. split; [done|]. simpl. unfold MPath_join. simpl.
    rewrite (valid_elem_nonempty f Hvf), <- E. repeat split; try done.
    intros E'. simpl in E'. by rewrite E' in E0.
Qed.

Lemma split_dirname_join_witness :
  exists dir file, split_dirname ex_path = Ok (dir, file) /\ join_opt_element dir file = ex_path.
Proof.
  destruct (split_dirname_join ex_path) as (d & f & H1 & H2 & _).
  - split; [discriminate|]. repeat constructor.
  - exists d, f. split; [exact H1 | exact H2].
Defined.

(** ** Prefixes *)

Lemma common_components_le es other : common_components es other <= length es.
Proof.
  revert other. induction es as [|e es IH]; intros [|o other]; simpl; try lia.
  case_decide; simpl; [specialize (IH other); lia | lia].
Qed.

Lemma is_prefix_of_spec p other : is_prefix_of p other = true <-> elements p `prefix_of` other.
Proof.
  unfold is_prefix_of, num_components. rewrite Nat.eqb_eq.
  revert other. induction (elements p) as [|e es IH]; intros [|o other]; simpl.
  - split; [intros _; apply prefix_nil | done].
  - split; [intros _; apply prefix_nil | done].
  - split; [done|]. intros [k Hk]. done.
  - case_decide as E.
    + subst o. split.
      * intros H. apply prefix_cons, IH. lia.
      * intros H%prefix_cons_inv_2%IH. lia.
    + split; [done|]. intros [k [= -> _]]. done.
Qed.

Lemma path_prefix_not_gt (p q : MPath) : ord_lt q p -> ~ elements p `prefix_of` elements q.
Proof. apply (lex_prefix_not_gt (elements p) (elements q)). Qed.

Lemma path_prefix_between (p q r : MPath) :
  ord_lt p q -> ord_lt q r -> elements p `prefix_of` elements r -> elements p `prefix_of` elements q.
Proof. apply (lex_prefix_between (elements p) (elements q) (elements r)). Qed.

(** ** The path-conflict check is exact *)

(** No changed path is a directory of another path. *)
Definition path_conflict_free (l : list (MPath * bool)) : Prop :=
  forall p q c, (p, true) ∈ l -> (q, c) ∈ l -> p <> q -> ~ elements p `prefix_of` elements q.

Definition no_ext (last : option MPath) (l : list (MPath * bool)) : Prop :=
  match last with
  | Some p => Forall (fun x => ~ elements p `prefix_of` elements x.1) l
  | None => True
  end.

Definition below (last : option MPath) (l : list (MPath * bool)) : Prop :=
  match last with Some p => Forall (fun x => ord_lt p x.1) l | None => True end.

Lemma pcf_cons p c l :
  Forall (fun x => ord_lt p x.1) l ->
  path_conflict_free ((p, c) :: l) <->
  path_conflict_free l /\ no_ext (if c then Some p else None) l.
Proof.
  intros Hlt. rewrite Forall_forall in Hlt. split.
  - intros H. split; [intros q r d Hq Hr; apply (H q r d); by constructor|].
    destruct c; [|done]. apply Forall_forall. intros [q d] Hq Hpre.
    eapply (H p q d); try done; [constructor | by constructor |].
    intros ->. by apply (ord_irr q), (Hlt _ Hq).
  - intros [Hl Hn] q r d Hq Hr Hne Hpre.
    apply elem_of_cons in Hr as [Er|Hr]; apply elem_of_cons in Hq as [Eq|Hq]; simplify_eq.
    + by apply (path_prefix_not_gt q p (Hlt _ Hq)).
    + simpl in Hn. rewrite Forall_forall in Hn. by apply (Hn _ Hr).
    + by apply (Hl q r d).
Qed.

Lemma check_pcf_from_spec l : forall last,
  btree_wf l -> below last l ->
  check_pcf_from last l = Ok tt <-> no_ext last l /\ path_conflict_free l.
Proof.
  induction l as [|[p c] l IH]; intros last Hs Hb.
  { simpl. split; [|done]. intros _. split; [destruct last; simpl; by constructor|].
    intros ? ? ? H. by apply elem_of_nil in H. }
  apply StronglySorted_inv in Hs as [Hs Hlt]. cbn [check_pcf_from].
  rewrite (pcf_cons p c l Hlt).
  assert (below (if c then Some p else last) l) as Hb'.
  { destruct c; [done|]. destruct last; simpl in *; [|done]. by apply Forall_cons in Hb as [_ ?]. }
  specialize (IH (if c then Some p else last) Hs Hb').
  destruct last as [q|].
  2:{ rewrite bind_Ok, IH. destruct c; simpl; naive_solver. }
  simpl in Hb. apply Forall_cons in Hb as [Hqp Hql]. simpl in Hqp.
  destruct (is_prefix_of q (elements p)) eqn:E.
  { apply is_prefix_of_spec in E. split; [done|]. intros [H _]. simpl in H.
    apply Forall_cons in H as [H _]. by destruct H. }
  assert (~ elements q `prefix_of` elements p) as Hn
    by (intros H; apply is_prefix_of_spec in H; congruence).
  assert (Forall (fun x => ~ elements q `prefix_of` elements x.1) l) as Hnl.
  { eapply Forall_impl; [exact Hlt|]. intros [r d] Hr Hpre. apply Hn.
    exact (path_prefix_between _ _ _ Hqp Hr Hpre). }
  rewrite bind_Ok, IH. simpl. rewrite Forall_cons. destruct c; simpl; naive_solver.
Qed.

(** The reported pair is in the list, and the check never panics. *)
Lemma check_pcf_from_err l : forall last e,
  check_pcf_from last l = Err e ->
  exists p q c, e = NotPathConflictFree p q /\ (last = Some p \/ (p, true) ∈ l) /\
                (q, c) ∈ l /\ elements p `prefix_of` elements q.
Proof.
  induction l as [|[p c] l IH]; intros last e H; [done|]. cbn [check_pcf_from] in H.
  destruct (match last with Some _ => _ | None => _ end) as [[]|e'|] eqn:E.
  - rewrite bind_Ok in H. apply IH in H as (q & r & d & -> & Hq & Hr & Hpre).
    exists q, r, d. split; [done|].
    destruct c; set_solver.
  - simpl in H. injection H as <-. destruct last as [q|]; [|done].
    destruct (is_prefix_of q (elements p)) eqn:Ep; [|done]. injection E as <-.
    exists q, p, c. split; [done|]. split; [by left|]. split; [constructor|].
    by apply is_prefix_of_spec.
  - done.
Qed.

(** On file changes in [BTreeMap] order, [check_pcf] accepts exactly the
    lists in which no changed path is a directory of another path (looking
    only at the last changed path misses nothing), and when it refuses, the
    two paths it reports are such a pair. *)
Theorem check_pcf_exact l :
  btree_wf l ->
  (check_pcf l = Ok tt <-> path_conflict_free l) /\
  (forall e, check_pcf l = Err e ->
     exists p q c, e = NotPathConflictFree p q /\ (p, true) ∈ l /\ (q, c) ∈ l /\
                   elements p `prefix_of` elements q).
Proof.
  intros Hs. split.
  - unfold check_pcf. rewrite (check_pcf_from_spec l None Hs); simpl; naive_solver.
  - intros e (p & q & c & -> & [?|Hp] & Hq & Hpre)%check_pcf_from_err; [done|]. eauto 10.
Qed.

Lemma check_pcf_exact_witness :
  ~ path_conflict_free [(mkMPath [mkElem (bstr "a")], true);
                        (mkMPath [mkElem (bstr "a"); mkElem (bstr "b")], false)].
Proof.
  refine (fun H => _ (proj2 (proj1 (check_pcf_exact _ _)) H)).
  - vm_compute. discriminate.
  - apply SSorted_cons; [repeat constructor|].
    constructor; [apply lex_eq, lex_nil | constructor].
Defined.

(** ** Thrift *)

Lemma MPath_thrift_roundtrip p : valid_path p -> MPath_from_thrift (MPath_into_thrift p) = Ok p.
Proof.
  intros [Hne Hv]. destruct p as [es]. unfold MPath_from_thrift, MPath_into_thrift. simpl in *.
  rewrite (collect_Ok_map _ mkElem).
  - rewrite bind_Ok. replace (mkElem <$> (MPathElement_into_thrift <$> es)) with es.
    + by destruct es.
    + rewrite <- list_fmap_compose. symmetry. rewrite <- (list_fmap_id es) at 2.
      apply list_fmap_ext. by intros ? [].
  - apply Forall_fmap. eapply Forall_impl; [exact Hv|]. intros e He.
    unfold compose, MPathElement_from_thrift, MPathElement_into_thrift. by rewrite He.
Qed.

Lemma MPath_from_thrift_valid t p : MPath_from_thrift t = Ok p -> valid_path p.
Proof.
  unfold MPath_from_thrift. intros (es & Hes & H)%bind_Ok_inv.
  destruct (Nat.eqb_spec (length es) 0) as [E|E]; [done|]. injection H as <-. split; simpl.
  - by intros ->.
  - apply collect_Ok_Forall2 in Hes. clear E. induction Hes as [|b e t es He _ IH]; [done|].
    constructor; [|done]. unfold MPathElement_from_thrift in He.
    apply bind_Ok_inv in He as ([] & Hv%map_err_Ok & [= <-]). done.
Qed.

(** Thrift round trip of repository paths: what [into_thrift] writes is
    read back unchanged, and whatever [from_thrift] accepts is valid. *)
Theorem RepoPath_thrift_roundtrip r :
  (valid_repo_path r -> RepoPath_from_thrift (RepoPath_into_thrift r) = Ok r) /\
  (forall t, RepoPath_from_thrift t = Ok r -> valid_repo_path r).
Proof.
  split.
  - destruct r as [|p|p]; simpl; [done| |]; intros Hv; by rewrite MPath_thrift_roundtrip.
  - intros [d|t|t|i]; simpl; intros H; [by injection H as <-| | |done];
      apply bind_Ok_inv in H as (p & Hp & [= <-]); by eapply MPath_from_thrift_valid.
Qed.
