(* ===== verification/Hash.v ===== *)
(** * Hashes

    Model of [mononoke_types/src/hash.rs] (Blake2) and
    [mercurial_types/src/hash.rs] (Sha1): construction from bytes, from
    thrift and from hexadecimal text, and the conversions back. A hash is the
    contents of the fixed-size array; the array's length is the invariant
    ([valid_blake2], [valid_sha1]). *)

From S2P Require Import Prelude Ord.

Record Blake2 := mkBlake2 { blake2_bytes : bytes }.
Record Sha1 := mkSha1 { sha1_bytes : bytes }.

#[export] Instance Blake2_eq_dec : EqDecision Blake2.
Proof. solve_decision. Defined.
#[export] Instance Sha1_eq_dec : EqDecision Sha1.
Proof. solve_decision. Defined.

Inductive hash_error :=
| NeedExactBytes
| NeedHexDigits
| BadDigit
| WrongThriftLength (len : N).

(** ** Text *)

Definition plus_sign : byte := x2b.

Definition HEX_CHARS : bytes := bstr "0123456789abcdef".

(** [HEX_CHARS[i]]; the index is below sixteen wherever it is used. *)
Definition hex_char (i : N) : byte := nth (N.to_nat i) HEX_CHARS x00.

Definition hex_pair (b : byte) : bytes :=
  [hex_char (N.shiftr (Byte.to_N b) 4); hex_char (N.land (Byte.to_N b) 15)].

(** The body of [to_hex]. *)
Fixpoint hex_of (l : bytes) : bytes :=
  match l with
  | [] => []
  | b :: l => hex_pair b ++ hex_of l
  end.

(** [char::to_digit(16)]. *)
Definition to_digit16 (b : byte) : option N :=
  let n := Byte.to_N b in
  if in_range 48 57 b then Some (n - 48)%N else
  if in_range 97 102 b then Some (n - 87)%N else
  if in_range 65 70 b then Some (n - 55)%N else None.

Fixpoint radix_digits (acc : N) (l : bytes) : option N :=
  match l with
  | [] => Some acc
  | b :: l =>
      d ← to_digit16 b;
      let acc := (acc * 16 + d)%N in
      if (acc <=? 255)%N then radix_digits acc l else None
  end.

(** [u8::from_str_radix(s, 16)]: a leading plus sign is accepted, a minus
    sign is not a digit, and there must be at least one digit. *)
Definition u8_from_str_radix16 (s : bytes) : option N :=
  let digits := match s with b :: r => if decide (b = plus_sign) then r else s | [] => [] end in
  match digits with [] => None | _ => radix_digits 0 digits end.

(** [s.is_char_boundary(i)] and [&s[from..to]] on a [str]. *)
Definition is_char_boundary (s : bytes) (i : nat) : bool :=
  Nat.eqb i (length s) ||
  match s !! i with Some b => negb (utf8_cont b) | None => false end.

Definition str_slice {E} (s : bytes) (from to : nat) : outcome E bytes :=
  if Nat.leb from to && is_char_boundary s from && is_char_boundary s to
  then Ok (take (to - from) (drop from s)) else Panic.

(** The loop of [from_str] over the [n] array cells from [idx] on. *)
Fixpoint hex_loop (n idx : nat) (s : bytes) : outcome hash_error bytes :=
  match n with
  | O => Ok []
  | S n =>
      piece ← str_slice s (idx * 2) (idx * 2 + 2);
      match u8_from_str_radix16 piece with
      | None => Err BadDigit
      | Some v =>
          rest ← hex_loop n (S idx) s;
          Ok (z2b (Z.of_N v) :: rest)
      end
  end.

(** ** [Blake2] *)

Definition Blake2_from_bytes (b : bytes) : outcome hash_error Blake2 :=
  if negb (Nat.eqb (length b) 32) then Err NeedExactBytes else Ok (mkBlake2 b).

Definition Blake2_from_thrift (b : bytes) : outcome hash_error Blake2 :=
  if negb (Nat.eqb (length b) 32) then Err (WrongThriftLength (lenN b)) else Ok (mkBlake2 b).

Definition Blake2_into_thrift (h : Blake2) : bytes := blake2_bytes h.

Definition Blake2_to_hex (h : Blake2) : bytes := hex_of (blake2_bytes h).

Definition Blake2_from_str (s : bytes) : outcome hash_error Blake2 :=
  if Nat.ltb (length s) 64 then Err NeedHexDigits else
  ret ← hex_loop 32 0 s; Ok (mkBlake2 ret).

(** ** [Sha1] *)

Definition Sha1_from_bytes (b : bytes) : outcome hash_error Sha1 :=
  if negb (Nat.eqb (length b) 20) then Err NeedExactBytes else Ok (mkSha1 b).

Definition Sha1_from_thrift (b : bytes) : outcome hash_error Sha1 :=
  if negb (Nat.eqb (length b) 20) then Err (WrongThriftLength (lenN b)) else Ok (mkSha1 b).

Definition Sha1_into_thrift (h : Sha1) : bytes := sha1_bytes h.

Definition Sha1_to_hex (h : Sha1) : bytes := hex_of (sha1_bytes h).

Definition Sha1_from_str (s : bytes) : outcome hash_error Sha1 :=
  if Nat.ltb (length s) 40 then Err NeedHexDigits else
  ret ← hex_loop 20 0 s; Ok (mkSha1 ret).

(** The null hash, twenty zero bytes. *)
Definition NULL : Sha1 := mkSha1 (replicate 20 x00).

(** ** [HgNodeHash]: a newtype around [Sha1] ([nodehash.rs]) *)

Record HgNodeHash := mkNode { node_sha1 : Sha1 }.

#[export] Instance HgNodeHash_eq_dec : EqDecision HgNodeHash.
Proof. solve_decision. Defined.

Definition NULL_HASH : HgNodeHash := mkNode NULL.

Definition HgNodeHash_from_bytes (b : bytes) : outcome hash_error HgNodeHash :=
  mkNode <$> Sha1_from_bytes b.

Definition HgNodeHash_as_bytes (h : HgNodeHash) : bytes := sha1_bytes (node_sha1 h).

Definition into_option (h : HgNodeHash) : option HgNodeHash :=
  if decide (h = NULL_HASH) then None else Some h.

Definition from_option (h : option HgNodeHash) : HgNodeHash :=
  match h with None => NULL_HASH | Some h => h end.

(** ** The array length *)

Definition valid_blake2 (h : Blake2) : Prop := length (blake2_bytes h) = 32.
Definition valid_sha1 (h : Sha1) : Prop := length (sha1_bytes h) = 20.

Definition valid_node (h : HgNodeHash) : Prop := valid_sha1 (node_sha1 h).

(** ** Lemmas *)

Lemma length_hex_of l : length (hex_of l) = 2 * length l.
Proof. induction l; simpl; lia. Qed.

Lemma Blake2_from_thrift_Ok b h :
  Blake2_from_thrift b = Ok h <-> b = blake2_bytes h /\ valid_blake2 h.
Proof.
  unfold Blake2_from_thrift, valid_blake2. destruct (Nat.eqb_spec (length b) 32) as [E|E]; simpl.
  - split; [by intros [= <-] | intros [-> _]; by destruct h].
  - split; [done|]. intros [-> ?]. done.
Qed.

Lemma Sha1_from_bytes_Ok b h :
  Sha1_from_bytes b = Ok h <-> b = sha1_bytes h /\ valid_sha1 h.
Proof.
  unfold Sha1_from_bytes, valid_sha1. destruct (Nat.eqb_spec (length b) 20) as [E|E]; simpl.
  - split; [by intros [= <-] | intros [-> _]; by destruct h].
  - split; [done|]. intros [-> ?]. done.
Qed.

Lemma HgNodeHash_from_as_bytes h :
  valid_node h -> HgNodeHash_from_bytes (HgNodeHash_as_bytes h) = Ok h.
Proof.
  intros Hv. unfold HgNodeHash_from_bytes, HgNodeHash_as_bytes.
  rewrite (proj2 (Sha1_from_bytes_Ok _ (node_sha1 h)) (conj eq_refl Hv)). by destruct h.
Qed.

Lemma HgNodeHash_from_bytes_valid b h :
  HgNodeHash_from_bytes b = Ok h -> valid_node h /\ b = HgNodeHash_as_bytes h.
Proof.
  unfold HgNodeHash_from_bytes. destruct (Sha1_from_bytes b) as [s| |] eqn:E; simpl; [|done|done].
  intros [= <-]. apply Sha1_from_bytes_Ok in E as [-> Hv]. done.
Qed.

Lemma from_into_option h : from_option (into_option h) = h.
Proof. unfold into_option. by case_decide; subst. Qed.

(** Each byte written as two characters is read back; the characters are
    ASCII, so that every index is a boundary. Both facts are checked on the
    256 bytes. *)
Lemma hex_pair_spec b :
  u8_from_str_radix16 (hex_pair b) = Some (Byte.to_N b) /\
  Forall (fun c => utf8_cont c = false) (hex_pair b).
Proof. destruct b; split; try reflexivity; repeat constructor. Qed.

Lemma hex_of_ascii l : Forall (fun c => utf8_cont c = false) (hex_of l).
Proof.
  induction l as [|b l IH]; [constructor|]. cbn [hex_of].
  apply Forall_app. split; [apply hex_pair_spec | done].
Qed.

Lemma is_char_boundary_ascii s i :
  Forall (fun c => utf8_cont c = false) s -> i <= length s -> is_char_boundary s i = true.
Proof.
  intros Hs Hi. unfold is_char_boundary. destruct (Nat.eqb_spec i (length s)); [done|]. simpl.
  destruct (lookup_lt_is_Some_2 s i) as [c Hc]; [lia|]. rewrite Hc.
  rewrite Forall_lookup in Hs. by rewrite (Hs _ _ Hc).
Qed.

Lemma hex_loop_hex_of l : forall p t, Forall (fun c => utf8_cont c = false) t ->
  hex_loop (length l) (length p) (hex_of p ++ hex_of l ++ t) = Ok l.
Proof.
  induction l as [|b l IH]; intros p t Ht; [done|].
  cbn [length hex_loop]. set (s := hex_of p ++ hex_of (b :: l) ++ t).
  assert (Forall (fun c => utf8_cont c = false) s) as Hs.
  { subst s. rewrite !Forall_app. eauto using hex_of_ascii. }
  assert (length s = 2 * length p + 2 * length (b :: l) + length t) as Hlen.
  { subst s. rewrite !length_app, !length_hex_of. lia. }
  cbn [length] in Hlen. unfold str_slice. rewrite !is_char_boundary_ascii by (done || lia).
  rewrite (proj2 (Nat.leb_le _ _)) by lia. cbn [andb]. rewrite bind_Ok.
  replace (length p * 2 + 2 - length p * 2) with 2 by lia. subst s.
  rewrite drop_app_length' by (rewrite length_hex_of; lia). cbn [hex_of].
  rewrite <- app_assoc. rewrite take_app_length' by done.
  destruct (hex_pair_spec b) as [-> _].
  specialize (IH (p ++ [b]) t Ht). rewrite length_app in IH. cbn [length] in IH.
  replace (length p + 1) with (S (length p)) in IH by lia.
  assert (hex_of (p ++ [b]) ++ hex_of l ++ t = hex_of p ++ hex_pair b ++ hex_of l ++ t) as E.
  { clear. induction p as [|c p IHp]; [done|]. cbn [hex_of app].
    by rewrite <- !app_assoc, IHp, <- ?app_assoc. }
  rewrite E in IH. rewrite IH, bind_Ok. f_equal. f_equal. apply z2b_b2z.
Qed.

Lemma hex_loop_length n : forall idx s l, hex_loop n idx s = Ok l -> length l = n.
Proof.
  induction n as [|n IH]; intros idx s l; cbn [hex_loop]; [by intros [= <-]|].
  intros (piece & _ & H)%bind_Ok_inv. destruct (u8_from_str_radix16 piece); [|done].
  apply bind_Ok_inv in H as (r & Hr & [= <-]). simpl. f_equal. by eapply IH.
Qed.

(** Hexadecimal round trip of Mercurial and Mononoke hashes: the text of
    a hash, also followed by further ASCII text, is read back as that hash;
    and what [from_str] returns always fills the array. *)
Theorem hex_roundtrip (h : Blake2) (n : Sha1) (trail : bytes) :
  Forall (fun c => utf8_cont c = false) trail ->
  (valid_blake2 h -> Blake2_from_str (Blake2_to_hex h ++ trail) = Ok h) /\
  (valid_sha1 n -> Sha1_from_str (Sha1_to_hex n ++ trail) = Ok n) /\
  (forall s h', Blake2_from_str s = Ok h' -> valid_blake2 h') /\
  (forall s n', Sha1_from_str s = Ok n' -> valid_sha1 n').
Proof.
  unfold valid_blake2, valid_sha1, Blake2_from_str, Sha1_from_str, Blake2_to_hex, Sha1_to_hex.
  intros Ht. destruct h as [hb], n as [nb]; cbn [blake2_bytes sha1_bytes]. split_and!.
  - intros Hl. rewrite (proj2 (Nat.ltb_ge _ _)) by (rewrite length_app, length_hex_of; lia).
    pose proof (hex_loop_hex_of hb [] trail Ht) as E. rewrite Hl in E.
    cbn [length hex_of app] in E. by rewrite E.
  - intros Hl. rewrite (proj2 (Nat.ltb_ge _ _)) by (rewrite length_app, length_hex_of; lia).
    pose proof (hex_loop_hex_of nb [] trail Ht) as E. rewrite Hl in E.
    cbn [length hex_of app] in E. by rewrite E.
  - intros s h'. destruct (Nat.ltb (length s) 64); [done|]. intros (r & Hr%hex_loop_length & [= <-])%bind_Ok_inv. done.
  - intros s n'. destruct (Nat.ltb (length s) 40); [done|]. intros (r & Hr%hex_loop_length & [= <-])%bind_Ok_inv. done.
Qed.

Lemma hex_roundtrip_witness :
  Sha1_from_str (Sha1_to_hex NULL ++ bstr "!") = Ok NULL.
Proof.
  refine (proj1 (proj2 (hex_roundtrip (mkBlake2 []) NULL (bstr "!") _)) _).
  - repeat constructor.
  - reflexivity.
Defined.
