(* ===== verification/Bonsai.v ===== *)
(** * Bonsai changesets

    Model of [mononoke_types]: [datetime.rs] (the thrift conversions),
    [typed_hash.rs] (identifiers), [file_change.rs] and
    [bonsai_changeset.rs]. The thrift structures are those of
    [mononoke_types/if/mononoke_types_thrift.thrift]. *)

From S2P Require Import Prelude Ord Path Hash.

Inductive bonsai_error :=
| BadHash (e : hash_error)
| UnknownIdType (x : Z)
| UnknownFileType (x : Z)
| BadPath (e : path_error)
| TimezoneOutOfRange (tz : Z)
| SecondsOutOfRange (secs : Z)
| MissingAuthorDate
| UnknownCopyParent (path from : MPath) (id : Blake2)
| InvalidFileChangeList (e : path_error)
| InvalidThriftFileChange (path : MPath) (e : bonsai_error)
| InvalidThriftChangeset (e : bonsai_error).

(** ** Dates

    The dates are those of the [chrono] package: what the code uses of it is
    the class [Chrono], and what it relies on are the laws of [ChronoLaws]:
    the offset that [utc_minus_local] reports is one [west_opt] accepts, and
    an instant is determined by its offset, its seconds and its nanoseconds. *)

Class Chrono := {
  FixedOffset : Type;
  ChronoDateTime : Type;
  west_opt : Z -> option FixedOffset;
  utc_minus_local : FixedOffset -> Z;
  timestamp_opt : FixedOffset -> Z -> N -> option ChronoDateTime;
  timestamp : ChronoDateTime -> Z;
  offset : ChronoDateTime -> FixedOffset;
  subsec_nanos : ChronoDateTime -> N;
}.

Class ChronoLaws `{Chrono} : Prop := {
  west_opt_utc_minus_local tz : west_opt (utc_minus_local tz) = Some tz;
  timestamp_opt_self dt :
    timestamp_opt (offset dt) (timestamp dt) (subsec_nanos dt) = Some dt;
  timestamp_opt_nanos tz s n dt : timestamp_opt tz s n = Some dt -> subsec_nanos dt = n;
}.

(** ** Thrift structures *)

Record thrift_DateTime := mkTDateTime { t_timestamp_secs : Z; t_tz_offset_secs : Z }.

Inductive thrift_IdType :=
| TBlake2 (b : bytes)
| TIdUnknownField (x : Z).

(** The thrift enumeration is a newtype around an [i32]. *)
Record thrift_FileType := mkTFileType { t_ft : Z }.

Record thrift_CopyInfo := mkTCopyInfo { t_file : list bytes; t_cs_id : thrift_IdType }.

Record thrift_FileChange := mkTFileChange {
  t_content_id : thrift_IdType;
  t_file_type : thrift_FileType;
  t_size : Z;
  t_copy_from : option thrift_CopyInfo;
}.

Record thrift_FileChangeOpt := mkTFileChangeOpt { t_change : option thrift_FileChange }.

Record thrift_BonsaiChangeset := mkTBonsai {
  t_parents : list thrift_IdType;
  t_author : bytes;
  t_author_date : option thrift_DateTime;
  t_committer : option bytes;
  t_committer_date : option thrift_DateTime;
  t_message : bytes;
  t_extra : list (bytes * bytes);
  t_file_changes : list (list bytes * thrift_FileChangeOpt);
}.

(** ** Identifiers

    [ChangesetId] and [ContentId] are newtypes around [Blake2], defined by
    one macro. *)

Record ChangesetId := mkChangesetId { cs_blake2 : Blake2 }.
Record ContentId := mkContentId { content_blake2 : Blake2 }.

#[export] Instance ChangesetId_eq_dec : EqDecision ChangesetId.
Proof. solve_decision. Defined.

Definition typed_from_thrift {T} (new : Blake2 -> T) (h : thrift_IdType) : outcome bonsai_error T :=
  match h with
  | TBlake2 blake2 => b ← map_err BadHash (Blake2_from_thrift blake2); Ok (new b)
  | TIdUnknownField x => Err (UnknownIdType x)
  end.

Definition ChangesetId_from_thrift := typed_from_thrift mkChangesetId.
Definition ContentId_from_thrift := typed_from_thrift mkContentId.
Definition ChangesetId_into_thrift (c : ChangesetId) : thrift_IdType :=
  TBlake2 (Blake2_into_thrift (cs_blake2 c)).
Definition ContentId_into_thrift (c : ContentId) : thrift_IdType :=
  TBlake2 (Blake2_into_thrift (content_blake2 c)).

(** ** File changes *)

Inductive FileType := Regular | Executable | Symlink.

#[export] Instance FileType_eq_dec : EqDecision FileType.
Proof. solve_decision. Defined.

Definition FileType_all : list FileType := [Regular; Executable; Symlink].

Definition FileType_complement (ft : FileType) : list FileType :=
  match ft with
  | Regular => [Executable; Symlink]
  | Executable => [Regular; Symlink]
  | Symlink => [Regular; Executable]
  end.

Definition FileType_from_thrift (ft : thrift_FileType) : outcome bonsai_error FileType :=
  match t_ft ft with
  | 0%Z => Ok Regular
  | 1%Z => Ok Executable
  | 2%Z => Ok Symlink
  | x => Err (UnknownFileType x)
  end.

Definition FileType_into_thrift (ft : FileType) : thrift_FileType :=
  mkTFileType (match ft with Regular => 0 | Executable => 1 | Symlink => 2 end).

Record FileChange := mkFileChange {
  content_id : ContentId;
  file_type : FileType;
  size : N;
  copy_from : option (MPath * ChangesetId);
}.

Definition copy_from_thrift (copy_info : thrift_CopyInfo)
    : outcome bonsai_error (MPath * ChangesetId) :=
  file ← map_err BadPath (MPath_from_thrift (t_file copy_info));
  cs_id ← ChangesetId_from_thrift (t_cs_id copy_info);
  Ok (file, cs_id).

(** An optional field, converted when it is there. *)
Definition opt_try {E A B} (f : A -> outcome E B) (o : option A) : outcome E (option B) :=
  match o with
  | Some a => b ← f a; Ok (Some b)
  | None => Ok None
  end.

Definition FileChange_from_thrift (fc : thrift_FileChange) (mpath : MPath)
    : outcome bonsai_error FileChange :=
  map_err (InvalidThriftFileChange mpath)
    (content_id ← ContentId_from_thrift (t_content_id fc);
     file_type ← FileType_from_thrift (t_file_type fc);
     copy_from ← opt_try copy_from_thrift (t_copy_from fc);
     Ok (mkFileChange content_id file_type (as_usize (t_size fc)) copy_from)).

Definition FileChange_from_thrift_opt (fc_opt : thrift_FileChangeOpt) (mpath : MPath)
    : outcome bonsai_error (option FileChange) :=
  opt_try (fun fc => FileChange_from_thrift fc mpath) (t_change fc_opt).

(** [u64 as i64]. *)
Definition as_i64 (n : N) : Z := ((Z.of_N n + 2 ^ 63) mod 2 ^ 64 - 2 ^ 63)%Z.

Definition FileChange_into_thrift (fc : FileChange) : thrift_FileChange :=
  mkTFileChange (ContentId_into_thrift (content_id fc)) (FileType_into_thrift (file_type fc))
    (as_i64 (size fc))
    ((fun '(file, cs_id) => mkTCopyInfo (MPath_into_thrift file) (ChangesetId_into_thrift cs_id))
       <$> copy_from fc).

Definition FileChange_into_thrift_opt (fc_opt : option FileChange) : thrift_FileChangeOpt :=
  mkTFileChangeOpt (FileChange_into_thrift <$> fc_opt).

Section Bonsai.
Context `{Chrono}.

(** ** [DateTime] *)

Record DateTime := mkDateTime { chrono : ChronoDateTime }.

Definition from_timestamp (secs tz_offset_secs : Z) : outcome bonsai_error DateTime :=
  tz ← ok_or (west_opt tz_offset_secs) (TimezoneOutOfRange tz_offset_secs);
  dt ← ok_or (timestamp_opt tz secs 0) (SecondsOutOfRange secs);
  Ok (mkDateTime dt).

Definition timestamp_secs (dt : DateTime) : Z := timestamp (chrono dt).
Definition tz_offset_secs (dt : DateTime) : Z := utc_minus_local (offset (chrono dt)).

Definition DateTime_from_thrift (dt : thrift_DateTime) : outcome bonsai_error DateTime :=
  from_timestamp (t_timestamp_secs dt) (t_tz_offset_secs dt).

Definition DateTime_into_thrift (dt : DateTime) : thrift_DateTime :=
  mkTDateTime (timestamp_secs dt) (tz_offset_secs dt).

(** ** [BonsaiChangesetMut] and [BonsaiChangeset] *)

(** [extra] and [file_changes] are [BTreeMap]s. *)
Record BonsaiChangesetMut := mkBonsai {
  parents : list ChangesetId;
  author : bytes;
  author_date : DateTime;
  committer : option bytes;
  committer_date : option DateTime;
  message : bytes;
  extra : list (bytes * bytes);
  file_changes : list (MPath * option FileChange);
}.

Record BonsaiChangeset := mkFrozen { inner : BonsaiChangesetMut }.

Fixpoint verify_copies (parents : list ChangesetId) (changes : list (MPath * option FileChange))
    : outcome bonsai_error unit :=
  match changes with
  | [] => Ok tt
  | (path, fc_opt) :: rest =>
      _ ← match fc_opt with
          | Some fc =>
              match copy_from fc with
              | Some (copy_from_path, copy_from_id) =>
                  if negb (bool_decide (copy_from_id ∈ parents))
                  then Err (UnknownCopyParent path copy_from_path (cs_blake2 copy_from_id))
                  else Ok tt
              | None => Ok tt
              end
          | None => Ok tt
          end;
      verify_copies parents rest
  end.

Definition is_some {A} (o : option A) : bool := match o with Some _ => true | None => false end.

Definition changed_paths (changes : list (MPath * option FileChange)) : list (MPath * bool) :=
  (fun '(path, change) => (path, is_some change)) <$> changes.

Definition verify (cs : BonsaiChangesetMut) : outcome bonsai_error unit :=
  _ ← verify_copies (parents cs) (file_changes cs);
  _ ← map_err InvalidFileChangeList (check_pcf (changed_paths (file_changes cs)));
  Ok tt.

Definition freeze (cs : BonsaiChangesetMut) : outcome bonsai_error BonsaiChangeset :=
  _ ← verify cs; Ok (mkFrozen cs).

Definition into_mut (cs : BonsaiChangeset) : BonsaiChangesetMut := inner cs.

Definition file_change_from_thrift (x : list bytes * thrift_FileChangeOpt)
    : outcome bonsai_error (MPath * option FileChange) :=
  let '(f, fc_opt) := x in
  mpath ← map_err BadPath (MPath_from_thrift f);
  fc_opt ← FileChange_from_thrift_opt fc_opt mpath;
  Ok (mpath, fc_opt).

Definition BonsaiChangeset_from_thrift (tc : thrift_BonsaiChangeset)
    : outcome bonsai_error BonsaiChangeset :=
  map_err InvalidThriftChangeset
    (parents ← collect ChangesetId_from_thrift (t_parents tc);
     t_date ← ok_or (t_author_date tc) MissingAuthorDate;
     author_date ← DateTime_from_thrift t_date;
     committer_date ← opt_try DateTime_from_thrift (t_committer_date tc);
     file_changes ← collect file_change_from_thrift (t_file_changes tc);
     freeze (mkBonsai parents (t_author tc) author_date (t_committer tc) committer_date
               (t_message tc) (t_extra tc) (btree_collect file_changes))).

Definition BonsaiChangeset_into_thrift (cs : BonsaiChangeset) : thrift_BonsaiChangeset :=
  let cs := inner cs in
  mkTBonsai (ChangesetId_into_thrift <$> parents cs) (author cs)
    (Some (DateTime_into_thrift (author_date cs))) (committer cs)
    (DateTime_into_thrift <$> committer_date cs) (message cs) (extra cs)
    (btree_collect
       ((fun '(f, c) => (MPath_into_thrift f, FileChange_into_thrift_opt c)) <$> file_changes cs)).

(** ** The type invariant *)

Definition valid_id (c : ChangesetId) : Prop := valid_blake2 (cs_blake2 c).

Definition valid_copy (x : MPath * ChangesetId) : Prop := valid_path x.1 /\ valid_id x.2.

Definition on_some {A} (P : A -> Prop) (o : option A) : Prop :=
  match o with Some a => P a | None => True end.

Definition valid_file_change (fc : FileChange) : Prop :=
  valid_blake2 (content_blake2 (content_id fc)) /\ (size fc < 2 ^ 64)%N /\
  on_some valid_copy (copy_from fc).

Definition whole_seconds (dt : DateTime) : Prop := subsec_nanos (chrono dt) = 0%N.

(** What every [BonsaiChangeset] read from a blob satisfies. *)
Record valid_changeset (cs : BonsaiChangesetMut) : Prop := {
  vc_parents : Forall valid_id (parents cs);
  vc_author_date : whole_seconds (author_date cs);
  vc_committer_date : on_some whole_seconds (committer_date cs);
  vc_sorted : btree_wf (file_changes cs);
  vc_changes : Forall (fun x => valid_path x.1 /\ on_some valid_file_change x.2) (file_changes cs);
}.

(** The copy information of a file change names a parent. *)
Definition copies_known (cs : BonsaiChangesetMut) : Prop :=
  forall path fc from id, (path, Some fc) ∈ file_changes cs ->
    copy_from fc = Some (from, id) -> id ∈ parents cs.

(** ** Verification *)

Lemma verify_copies_spec ps l :
  verify_copies ps l = Ok tt <->
  forall path fc from id, (path, Some fc) ∈ l -> copy_from fc = Some (from, id) -> id ∈ ps.
Proof.
  induction l as [|[path fco] l IH]; cbn [verify_copies].
  { split; [|done]. intros _ ? ? ? ? Hin. by apply elem_of_nil in Hin. }
  destruct fco as [fc|]; [destruct (copy_from fc) as [[from id]|] eqn:Ec|].
  - case_bool_decide as Hid; simpl.
    + rewrite IH. split.
      * intros Hl p fc' fr i [E|Hin]%elem_of_cons; [simplify_eq; intros; by simplify_eq|].
        by apply (Hl p fc' fr i).
      * intros Hl p fc' fr i Hin. apply (Hl p fc' fr i). by constructor.
    + split; [done|]. intros Hl. destruct Hid. eapply (Hl path fc from id); [by left | done].
  - rewrite bind_Ok, IH. split.
    + intros Hl p fc' fr i [E|Hin]%elem_of_cons; [simplify_eq; congruence | by apply (Hl p fc' fr i)].
    + intros Hl p fc' fr i Hin. apply (Hl p fc' fr i). by constructor.
  - rewrite bind_Ok, IH. split.
    + intros Hl p fc' fr i [E|Hin]%elem_of_cons; [simplify_eq | by apply (Hl p fc' fr i)].
    + intros Hl p fc' fr i Hin. apply (Hl p fc' fr i). by constructor.
Qed.

Lemma changed_paths_wf l : btree_wf l -> btree_wf (changed_paths l).
Proof.
  induction 1 as [|[p c] l Hs IH Hlt]; simpl; [constructor|].
  constructor; [done|]. apply Forall_fmap. eapply Forall_impl; [exact Hlt|]. by intros [? ?].
Qed.

Lemma verify_spec cs :
  btree_wf (file_changes cs) ->
  verify cs = Ok tt <-> copies_known cs /\ path_conflict_free (changed_paths (file_changes cs)).
Proof.
  intros Hwf. unfold verify. pose proof (verify_copies_spec (parents cs) (file_changes cs)) as Hc.
  pose proof (check_pcf_from_spec _ None (changed_paths_wf _ Hwf) I) as Hp.
  fold (check_pcf (changed_paths (file_changes cs))) in Hp. simpl in Hp.
  fold (copies_known cs) in Hc.
  destruct (verify_copies _ _) as [[]| |]; [rewrite bind_Ok | naive_solver | naive_solver].
  destruct (check_pcf _) as [[]| |]; simpl; naive_solver.
Qed.

(** A changeset is frozen exactly when all its copy sources are parents
    and no changed path is a directory of another path, and freezing keeps it
    as it was; the checks never panic. *)
Theorem freeze_exact (cs : BonsaiChangesetMut) :
  btree_wf (file_changes cs) ->
  (is_ok (freeze cs) = true <->
     copies_known cs /\ path_conflict_free (changed_paths (file_changes cs))) /\
  (forall b, freeze cs = Ok b -> into_mut b = cs) /\
  freeze cs <> Panic.
Proof.
  intros Hwf. pose proof (verify_spec cs Hwf) as Hv. unfold freeze.
  assert (verify cs <> Panic) as Hp.
  { unfold verify. assert (forall l, verify_copies (parents cs) l <> Panic) as Hc.
    { induction l as [|[? [fc|]] l IH]; simpl; [done| |exact IH].
      destruct (copy_from fc) as [[? ?]|]; [|exact IH]. case_bool_decide; [exact IH | done]. }
    assert (forall l last, check_pcf_from last l <> Panic) as Hpcf.
    { induction l as [|[p c] l IH]; intros [q|]; simpl; [done|done| |apply IH].
      destruct (is_prefix_of _ _); simpl; [done | apply IH]. }
    specialize (Hc (file_changes cs)). specialize (Hpcf (changed_paths (file_changes cs)) None).
    destruct (verify_copies _ _); simpl; [|done|done]. unfold check_pcf.
    by destruct (check_pcf_from _ _). }
  destruct (verify cs) as [[]| |]; simpl; [|naive_solver|done].
  split; [naive_solver|]. split; [by intros b [= <-] | done].
Qed.
(** ** Thrift round trips *)

Lemma typed_roundtrip {T} (new : Blake2 -> T) b :
  valid_blake2 b -> typed_from_thrift new (TBlake2 (Blake2_into_thrift b)) = Ok (new b).
Proof.
  intros Hb. unfold typed_from_thrift, Blake2_into_thrift. by rewrite (proj2 (Blake2_from_thrift_Ok _ b) (conj eq_refl Hb)).
Qed.

Lemma typed_from_thrift_valid {T} (new : Blake2 -> T) t c :
  typed_from_thrift new t = Ok c -> exists b, c = new b /\ valid_blake2 b.
Proof.
  destruct t as [b|x]; simpl; [|done].
  intros (h & Hh%map_err_Ok & [= <-])%bind_Ok_inv. apply Blake2_from_thrift_Ok in Hh as [_ ?].
  eauto.
Qed.

Lemma opt_try_map {E A B} (f : A -> outcome E B) (g : B -> A) (P : B -> Prop) o :
  (forall b, P b -> f (g b) = Ok b) -> on_some P o -> opt_try f (g <$> o) = Ok o.
Proof. intros Hf. destruct o as [b|]; simpl; [|done]. intros Hb. by rewrite (Hf b Hb). Qed.

Lemma opt_try_valid {E A B} (f : A -> outcome E B) (P : B -> Prop) o o' :
  (forall a b, f a = Ok b -> P b) -> opt_try f o = Ok o' -> on_some P o'.
Proof.
  intros Hf. destruct o as [a|]; simpl; [|by intros [= <-]].
  intros (b & Hb & [= <-])%bind_Ok_inv. by eapply Hf.
Qed.

Lemma collect_valid {E A B} (f : A -> outcome E B) (P : B -> Prop) l l' :
  (forall a b, f a = Ok b -> P b) -> collect f l = Ok l' -> Forall P l'.
Proof.
  intros Hf Hl%collect_Ok_Forall2. induction Hl; constructor; [by eapply Hf | done].
Qed.

Lemma collect_map_inv {E A B} (f : A -> outcome E B) (g : B -> A) (P : B -> Prop) l :
  (forall b, P b -> f (g b) = Ok b) -> Forall P l -> collect f (g <$> l) = Ok l.
Proof.
  intros Hf Hl. apply collect_Ok_Forall2. induction Hl; simpl; constructor; auto.
Qed.

Lemma as_usize_as_i64 n : (n < 2 ^ 64)%N -> as_usize (as_i64 n) = n.
Proof.
  intros Hn. unfold as_usize, as_i64.
  assert (((Z.of_N n + 2 ^ 63) mod 2 ^ 64 - 2 ^ 63) mod 2 ^ 64 = Z.of_N n)%Z as E.
  { rewrite Zminus_mod_idemp_l. replace (Z.of_N n + 2 ^ 63 - 2 ^ 63)%Z with (Z.of_N n) by lia.
    apply Z.mod_small. lia. }
  rewrite E. apply N2Z.id.
Qed.

Lemma copy_roundtrip x :
  valid_copy x ->
  copy_from_thrift
    ((fun '(file, cs_id) => mkTCopyInfo (MPath_into_thrift file) (ChangesetId_into_thrift cs_id)) x)
  = Ok x.
Proof.
  destruct x as [p [c]]. intros [Hp Hc]. unfold copy_from_thrift. cbn [t_file t_cs_id].
  rewrite MPath_thrift_roundtrip by done. cbn [map_err]. rewrite bind_Ok.
  unfold ChangesetId_from_thrift, ChangesetId_into_thrift.
  by rewrite typed_roundtrip.
Qed.

Lemma FileChange_roundtrip fc p :
  valid_file_change fc -> FileChange_from_thrift (FileChange_into_thrift fc) p = Ok fc.
Proof.
  intros (Hid & Hs & Hc). unfold FileChange_from_thrift, FileChange_into_thrift.
  cbn [t_content_id t_file_type t_size t_copy_from].
  unfold ContentId_from_thrift, ContentId_into_thrift. rewrite typed_roundtrip by done.
  rewrite bind_Ok. destruct fc as [[cid] ft sz cp]; simpl in *.
  assert (FileType_from_thrift (FileType_into_thrift ft) = Ok ft) as -> by (by destruct ft).
  rewrite bind_Ok, (opt_try_map _ _ valid_copy) by (done || apply copy_roundtrip).
  rewrite bind_Ok. simpl. by rewrite as_usize_as_i64.
Qed.

Lemma FileChange_from_thrift_valid t p fc :
  FileChange_from_thrift t p = Ok fc -> valid_file_change fc.
Proof.
  unfold FileChange_from_thrift. intros Hfc%map_err_Ok.
  apply bind_Ok_inv in Hfc as (cid & Hcid & Hfc). apply bind_Ok_inv in Hfc as (ft & _ & Hfc).
  apply bind_Ok_inv in Hfc as (cp & Hcp & [= <-]). unfold valid_file_change. simpl.
  apply typed_from_thrift_valid in Hcid as (b & -> & Hb). split; [done|].
  split; [apply as_usize_range|]. revert Hcp. apply opt_try_valid. clear.
  intros ci [path cs]. unfold copy_from_thrift.
  intros (f & Hf%map_err_Ok & (c & Hc & [= <- <-])%bind_Ok_inv)%bind_Ok_inv.
  apply typed_from_thrift_valid in Hc as (b & -> & Hb).
  split; [by eapply MPath_from_thrift_valid | done].
Qed.

Context `{!ChronoLaws}.

Lemma DateTime_roundtrip dt :
  whole_seconds dt -> DateTime_from_thrift (DateTime_into_thrift dt) = Ok dt.
Proof.
  destruct dt as [c]. unfold whole_seconds. simpl. intros Hn.
  unfold DateTime_from_thrift, from_timestamp, DateTime_into_thrift, timestamp_secs, tz_offset_secs.
  simpl. rewrite west_opt_utc_minus_local. simpl. rewrite <- Hn, timestamp_opt_self. done.
Qed.

Lemma DateTime_from_thrift_valid t dt : DateTime_from_thrift t = Ok dt -> whole_seconds dt.
Proof.
  unfold DateTime_from_thrift, from_timestamp.
  intros (tz & _ & (c & Hc & [= <-])%bind_Ok_inv)%bind_Ok_inv.
  destruct (timestamp_opt _ _ _) as [c'|] eqn:E; [|done]. injection Hc as <-.
  by apply timestamp_opt_nanos in E.
Qed.

(** The order of paths and of their thrift forms agree. *)
Lemma MPath_into_thrift_lt p q :
  ord_lt p q -> ord_lt (MPath_into_thrift p) (MPath_into_thrift q).
Proof.
  destruct p as [es], q as [fs]. unfold MPath_into_thrift. simpl. revert fs.
  induction es as [|e es IH]; intros fs Hl; inversion Hl; subst; simpl; by constructor; auto.
Qed.

Lemma file_changes_into_thrift_wf (l : list (MPath * option FileChange)) :
  btree_wf l ->
  btree_wf ((fun '(f, c) => (MPath_into_thrift f, FileChange_into_thrift_opt c)) <$> l).
Proof.
  induction 1 as [|[p c] l Hs IH Hlt]; simpl; [constructor|]. constructor; [done|].
  apply Forall_fmap. eapply Forall_impl; [exact Hlt|]. intros [q d]. apply MPath_into_thrift_lt.
Qed.

Lemma file_change_roundtrip x :
  valid_path x.1 /\ on_some valid_file_change x.2 ->
  file_change_from_thrift
    ((fun '(f, c) => (MPath_into_thrift f, FileChange_into_thrift_opt c)) x) = Ok x.
Proof.
  destruct x as [p c]. simpl. intros [Hp Hc]. rewrite MPath_thrift_roundtrip by done. simpl.
  unfold FileChange_from_thrift_opt. simpl.
  rewrite (opt_try_map _ _ valid_file_change); [done | | done].
  intros fc. apply FileChange_roundtrip.
Qed.

Lemma file_change_from_thrift_valid t x :
  file_change_from_thrift t = Ok x -> valid_path x.1 /\ on_some valid_file_change x.2.
Proof.
  destruct t as [f c]. simpl.
  intros (p & Hp%map_err_Ok & (fc & Hfc & [= <-])%bind_Ok_inv)%bind_Ok_inv.
  split; [by eapply MPath_from_thrift_valid|]. revert Hfc. apply opt_try_valid.
  intros a b. apply FileChange_from_thrift_valid.
Qed.

Lemma btree_collect_Forall {K V} `{!Ordered K} (P : K * V -> Prop) l :
  Forall P l -> Forall P (btree_collect l).
Proof.
  intros Hl. apply Forall_forall. rewrite Forall_forall in Hl. unfold btree_collect.
  assert (forall m x, x ∈ foldl (fun m '(k, v) => btree_insert k v m) m l -> x ∈ m \/ x ∈ l) as Hin.
  { clear. induction l as [|[k v] l IH]; simpl; [by left|]. intros m x [Hx|Hx]%IH; [|set_solver].
    apply btree_insert_elem in Hx. set_solver. }
  intros x [Hx|Hx]%Hin; [by apply elem_of_nil in Hx | by apply Hl].
Qed.

(** Thrift round trip of changesets: a frozen changeset with valid
    contents and dates in whole seconds is written and read back unchanged. *)
Theorem bonsai_thrift_roundtrip (cs : BonsaiChangeset) :
  valid_changeset (inner cs) -> freeze (inner cs) = Ok cs ->
  BonsaiChangeset_from_thrift (BonsaiChangeset_into_thrift cs) = Ok cs.
Proof.
  intros [Hp Hd Hcd Hs Hc] Hf. unfold BonsaiChangeset_from_thrift, BonsaiChangeset_into_thrift.
  cbn [t_parents t_author_date t_committer_date t_file_changes t_author t_committer t_message t_extra].
  rewrite (collect_map_inv _ _ valid_id) by (done || (intros []; apply typed_roundtrip)).
  rewrite bind_Ok. cbn [ok_or]. rewrite bind_Ok, DateTime_roundtrip, bind_Ok by done.
  rewrite (opt_try_map _ _ whole_seconds), bind_Ok by (done || apply DateTime_roundtrip).
  rewrite btree_collect_id by (by apply file_changes_into_thrift_wf).
  rewrite (collect_map_inv _ _ (fun x => valid_path x.1 /\ on_some valid_file_change x.2))
    by (done || apply file_change_roundtrip).
  rewrite bind_Ok, btree_collect_id by done.
  destruct cs as [[? ? ? ? ? ? ? ?]]; simpl in *. by rewrite Hf.
Qed.

(** C37. Whatever [from_thrift] accepts is a changeset with valid hashes and
    paths, sorted file changes, known copy sources and no path conflict. *)
Theorem bonsai_from_thrift_valid (t : thrift_BonsaiChangeset) (cs : BonsaiChangeset) :
  BonsaiChangeset_from_thrift t = Ok cs ->
  valid_changeset (inner cs) /\ copies_known (inner cs) /\
  path_conflict_free (changed_paths (file_changes (inner cs))).
Proof.
  unfold BonsaiChangeset_from_thrift. intros Hcs%map_err_Ok. step_ok.
  rename a into ps, a1 into ad, a2 into cd, a3 into fcs. unfold freeze in Hcs.
  apply bind_Ok_inv in Hcs as ([] & Hv & [= <-]). simpl.
  match goal with |- valid_changeset ?c /\ _ => assert (valid_changeset c) as Hvc end.
  { constructor; simpl.
    - revert Ha. apply collect_valid. intros x y Hxy%typed_from_thrift_valid.
      by destruct Hxy as (b & -> & Hb).
    - by eapply DateTime_from_thrift_valid.
    - revert Ha2. apply opt_try_valid. intros x y. apply DateTime_from_thrift_valid.
    - apply btree_collect_wf.
    - apply btree_collect_Forall. revert Ha3. apply collect_valid.
      intros x y. apply file_change_from_thrift_valid. }
  split; [done|]. apply verify_spec in Hv; [done | apply btree_collect_wf].
Qed.
End Bonsai.

(** ** Concrete instances

    Offsets strictly within a day, and instants within the range of years
    that [chrono] represents, with a nanosecond count below two seconds. *)

Definition keep {A} (test : A -> bool) (a : A) : option {x : A | test x = true} :=
  match bool_dec (test a) true with
  | left E => Some (exist _ a E)
  | right _ => None
  end.

Lemma keep_proj1 {A} (test : A -> bool) (x : {x : A | test x = true}) :
  keep test (proj1_sig x) = Some x.
Proof.
  destruct x as [a E]. unfold keep. simpl. destruct (bool_dec (test a) true) as [E'|]; [|done].
  f_equal. f_equal. apply proof_irrel.
Qed.

Lemma keep_Some {A} (test : A -> bool) a x : keep test a = Some x -> proj1_sig x = a.
Proof. unfold keep. destruct (bool_dec _ _); [by intros [= <-] | done]. Qed.

Definition offset_ok (z : Z) : bool := ((-86400 <? z) && (z <? 86400))%Z.
Definition instant_ok (x : {z : Z | offset_ok z = true} * Z * N) : bool :=
  ((-8334632851200 <=? x.1.2) && (x.1.2 <=? 8210298412799))%Z && (x.2 <? 2000000000)%N.

#[local] Instance ex_chrono : Chrono := {|
  FixedOffset := {z : Z | offset_ok z = true};
  ChronoDateTime := {x | instant_ok x = true};
  west_opt := keep offset_ok;
  utc_minus_local tz := proj1_sig tz;
  timestamp_opt tz s n := keep instant_ok (tz, s, n);
  timestamp dt := (proj1_sig dt).1.2;
  offset dt := (proj1_sig dt).1.1;
  subsec_nanos dt := (proj1_sig dt).2;
|}.

#[local] Instance ex_chrono_laws : ChronoLaws (H := ex_chrono).
Proof.
  split; simpl.
  - apply keep_proj1.
  - intros dt. rewrite <- (keep_proj1 _ dt). by destruct (proj1_sig dt) as [[? ?] ?].
  - intros tz s n dt E%keep_Some. by rewrite E.
Qed.

Definition ex_date : option (DateTime (H := ex_chrono)) := ok (from_timestamp 1500000000 (-3600)).

Definition ex_id (b : byte) : ChangesetId := mkChangesetId (mkBlake2 (replicate 32 b)).

(** A merge with a copied file and a deletion. *)
Definition ex_changeset (d : DateTime (H := ex_chrono)) : BonsaiChangesetMut :=
  mkBonsai [ex_id x01; ex_id x02] (bstr "alice") d None (Some d) (bstr "merge") []
    [(mkMPath [mkElem (bstr "a"); mkElem (bstr "b")],
      Some (mkFileChange (mkContentId (mkBlake2 (replicate 32 x07))) Executable 42
              (Some (mkMPath [mkElem (bstr "c")], ex_id x02))));
     (mkMPath [mkElem (bstr "c")], None)].

Lemma ex_changeset_wf d : btree_wf (file_changes (ex_changeset d)).
Proof. repeat constructor. Qed.

Lemma freeze_exact_witness :
  match ex_date with
  | Some d => copies_known (ex_changeset d)
  | None => False
  end.
Proof.
  destruct ex_date as [d|] eqn:E; [|discriminate E].
  apply (proj1 (freeze_exact (ex_changeset d) (ex_changeset_wf d))). reflexivity.
Defined.

Lemma bonsai_thrift_roundtrip_witness :
  match ex_date with
  | Some d => BonsaiChangeset_from_thrift
                (BonsaiChangeset_into_thrift (mkFrozen (ex_changeset d)))
              = Ok (mkFrozen (ex_changeset d))
  | None => False
  end.
Proof.
  destruct ex_date as [d|] eqn:E; [|discriminate E].
  apply bonsai_thrift_roundtrip; [|reflexivity].
  injection E as <-. split; [repeat constructor | reflexivity | reflexivity | repeat constructor |].
  repeat constructor; discriminate.
Defined.

Definition ex_thrift : thrift_BonsaiChangeset :=
  mkTBonsai [TBlake2 (replicate 32 x01)] (bstr "bob") (Some (mkTDateTime 0 0)) None None
    (bstr "delete") [] [([bstr "a"], mkTFileChangeOpt None)].

Lemma bonsai_from_thrift_valid_witness :
  match BonsaiChangeset_from_thrift (H := ex_chrono) ex_thrift with
  | Ok cs => valid_changeset (inner cs)
  | _ => False
  end.
Proof.
  destruct (BonsaiChangeset_from_thrift ex_thrift) as [cs|e|] eqn:E;
    [|discriminate E | discriminate E].
  exact (proj1 (bonsai_from_thrift_valid ex_thrift cs E)).
Defined.
