(* ===== verification/BonsaiDiff.v ===== *)
(** * Diffs of manifests

    Model of [bonsai_utils/src/diff.rs] and [composite.rs]: the comparison of
    a Mercurial root manifest with those of the parents, which gives the file
    changes of the bonsai changeset; with the manifest entries of
    [mercurial_types/src/manifest.rs]. *)

From stdpp Require Import fin_maps.
From S2P Require Import Prelude Ord Path Hash Bonsai.

(** ** Entries and manifests *)

#[export] Instance FileType_countable : Countable FileType.
Proof.
  refine (inj_countable' (fun ft => match ft with Regular => 0 | Executable => 1 | Symlink => 2 end)
    (fun n => match n with 0 => Regular | 1 => Executable | _ => Symlink end) _). by intros [].
Defined.

#[export] Instance HgNodeHash_countable : Countable HgNodeHash.
Proof. refine (inj_countable' (fun h => sha1_bytes (node_sha1 h)) (fun b => mkNode (mkSha1 b)) _). by intros [[]]. Defined.

Inductive Type_ :=
| File (ft : FileType)
| Tree.

#[export] Instance Type_eq_dec : EqDecision Type_.
Proof. solve_decision. Defined.

Abbreviation HgEntryId := HgNodeHash.

(** What an [Entry] says without I/O; the name is missing for a root. *)
Record Entry := mkEntry {
  get_name : option MPathElement;
  get_type : Type_;
  get_hash : HgEntryId;
}.

(** [Manifest::list]: the entries in the order of their names. *)
Definition Manifest := list Entry.

(** ** [CompositeEntry] and [CompositeManifest] *)

Record CompositeEntry := mkComposite {
  files : gmap (FileType * HgEntryId) Entry;
  trees : gmap HgEntryId Entry;
}.

Definition CompositeEntry_new : CompositeEntry := mkComposite ∅ ∅.

Definition add_parent (c : CompositeEntry) (entry : Entry) : CompositeEntry :=
  match get_type entry with
  | Tree => mkComposite (files c) (<[get_hash entry := entry]> (trees c))
  | File ft => mkComposite (<[(ft, get_hash entry) := entry]> (files c)) (trees c)
  end.

Definition num_files (c : CompositeEntry) : nat := base.size (files c).
Definition contains_file (c : CompositeEntry) (ft : FileType) (hash : HgEntryId) : bool :=
  bool_decide (is_Some (files c !! (ft, hash))).
Definition contains_file_other_type (c : CompositeEntry) (ft : FileType) (hash : HgEntryId) : bool :=
  existsb (fun ft => contains_file c ft hash) (FileType_complement ft).
Definition contains_file_any_type (c : CompositeEntry) (hash : HgEntryId) : bool :=
  existsb (fun ft => contains_file c ft hash) FileType_all.
Definition num_trees (c : CompositeEntry) : nat := base.size (trees c).
Definition contains_tree (c : CompositeEntry) (hash : HgEntryId) : bool := bool_decide (is_Some (trees c !! hash)).

Definition CompositeManifest := list (MPathElement * CompositeEntry).
Definition CompositeManifest_new : CompositeManifest := [].

(** [expect] of a name. *)
Definition expect_name {E} (e : Entry) : outcome E MPathElement :=
  match get_name e with Some name => Ok name | None => Panic end.

(** [entry(name).or_insert_with(new).add_parent(entry)]. *)
Definition composite_add {E} (m : CompositeManifest) (entry : Entry) : outcome E CompositeManifest :=
  name ← expect_name entry;
  Ok (btree_insert name (add_parent (default CompositeEntry_new (btree_get name m)) entry) m).

(** ** [BonsaiDiffResult] *)

Inductive BonsaiDiffResult :=
| Changed (path : MPath) (ft : FileType) (hash : HgEntryId)
| ChangedReusedId (path : MPath) (ft : FileType) (hash : HgEntryId)
| Deleted (path : MPath).

Definition result_path (r : BonsaiDiffResult) : MPath :=
  match r with Changed p _ _ | ChangedReusedId p _ _ | Deleted p => p end.

(** [EitherOrBoth], and [merge_join_by] of itertools for two sequences in
    order. *)
Inductive EitherOrBoth (A B : Type) :=
| Left (a : A)
| Right (b : B)
| Both (a : A) (b : B).
Arguments Left {A B} a. Arguments Right {A B} b. Arguments Both {A B} a b.

Fixpoint merge_join {A B} (compare : A -> B -> comparison) (l : list A) : list B -> list (EitherOrBoth A B) :=
  match l with
  | [] => fmap Right
  | a :: l =>
      fix merge k :=
        match k with
        | [] => Left a :: (Left <$> l)
        | b :: k' =>
            match compare a b with
            | Lt => Left a :: merge_join compare l k
            | Gt => Right b :: merge k'
            | Eq => Both a b :: merge_join compare l k'
            end
        end
  end.

(** ** The diff *)

(** [select_all] gives the items of its streams in some order. *)
Class Interleave := { interleave {A} : list (list A) -> list A }.
Class InterleaveLaws (I : Interleave) : Prop := { interleave_perm {A} (ls : list (list A)) : interleave ls ≡ₚ concat ls }.

Inductive WorkingEntry :=
| Absent
| WFile (ft : FileType) (e : Entry)
| WTree (e : Entry).

Definition WorkingEntry_new (e : Entry) : WorkingEntry :=
  match get_type e with File ft => WFile ft e | Tree => WTree e end.

Definition bonsai_diff_file (w : WorkingEntry) (path : MPath) (c : CompositeEntry) : option BonsaiDiffResult :=
  match w with
  | WFile ft entry =>
      let hash := get_hash entry in
      if Nat.eqb (num_trees c) 0 && Nat.eqb (num_files c) 1 then
        if contains_file c ft hash then None
        else if contains_file_other_type c ft hash then Some (ChangedReusedId path ft hash)
        else Some (Changed path ft hash)
      else if contains_file_any_type c hash then Some (ChangedReusedId path ft hash)
      else Some (Changed path ft hash)
  | _ => if negb (Nat.eqb (num_files c) 0) then Some (Deleted path) else None
  end.

Section diff.
Context {E : Type} {MO : MapOrder} {IL : Interleave}.

(** [get_content] of a tree: an entry loads its manifest by its hash. *)
Context (content : HgEntryId -> outcome E Manifest).

Definition add_all (m : CompositeManifest) (mf : Manifest) : outcome E CompositeManifest :=
  foldl (fun m entry => m ← m; composite_add m entry) (Ok m) mf.

Definition add_manifests (m : CompositeManifest) (mfs : list Manifest) : outcome E CompositeManifest :=
  foldl (fun m mf => m ← m; add_all m mf) (Ok m) mfs.

(** [CompositeEntry::manifest]: the manifests of all trees are loaded. *)
Definition composite_manifest (c : CompositeEntry) : outcome E CompositeManifest :=
  mfs ← collect (fun x => content (get_hash x.2)) (map_order (trees c));
  add_manifests CompositeManifest_new mfs.

Definition working_manifest (w : WorkingEntry) : outcome E Manifest :=
  match w with WTree entry => content (get_hash entry) | _ => Ok [] end.

(** [WorkingEntry::bonsai_diff], given the diff of trees below. *)
Definition bonsai_diff_entry (diff_tree : WorkingEntry -> option MPath -> CompositeEntry -> outcome E (list BonsaiDiffResult))
    (w : WorkingEntry) (path : MPath) (c : CompositeEntry) : outcome E (list BonsaiDiffResult) :=
  let file_result := bonsai_diff_file w path c in
  tree_stream ← match file_result with
                | Some (Changed _ _ _) | Some (ChangedReusedId _ _ _) => Ok []
                | _ => diff_tree w (Some path) c
                end;
  Ok (option_list file_result ++ tree_stream).

(** One pair of the join. The comparison has a name for every entry, as the
    join looked at it. *)
Definition diff_pair diff_tree (path : option MPath)
    (pair : EitherOrBoth (MPathElement * CompositeEntry) (MPathElement * Entry)) : outcome E (list BonsaiDiffResult) :=
  match pair with
  | Left (name, centry) => bonsai_diff_entry diff_tree Absent (join_opt_element path name) centry
  | Right (name, wentry) =>
      bonsai_diff_entry diff_tree (WorkingEntry_new wentry) (join_opt_element path name) CompositeEntry_new
  | Both (name, centry) (_, wentry) =>
      bonsai_diff_entry diff_tree (WorkingEntry_new wentry) (join_opt_element path name) centry
  end.

Definition same_tree (w : WorkingEntry) (c : CompositeEntry) : bool :=
  match w with
  | WTree entry => Nat.eqb (num_trees c) 1 && contains_tree c (get_hash entry)
  | _ => false
  end.

(** [n] bounds the depth of the trees. *)
Fixpoint bonsai_diff_tree (n : nat) (w : WorkingEntry) (path : option MPath) (c : CompositeEntry)
    : outcome E (list BonsaiDiffResult) :=
  match n with
  | 0 => Panic
  | S n =>
      if same_tree w c then Ok [] else
      composite_mf ← composite_manifest c;
      working_mf ← working_manifest w;
      named ← collect (fun e => name ← expect_name e; Ok (name, e)) working_mf;
      sub_streams ← collect (diff_pair (bonsai_diff_tree n) path)
                      (merge_join (fun x y => cmp x.1 y.1) composite_mf named);
      Ok (interleave sub_streams)
  end.

Definition add_opt_parent (c : CompositeEntry) (e : option Entry) : CompositeEntry :=
  match e with Some e => add_parent c e | None => c end.

Definition bonsai_diff (n : nat) (root_entry : Entry) (p1_entry p2_entry : option Entry)
    : outcome E (list BonsaiDiffResult) :=
  let composite_entry := add_opt_parent (add_opt_parent CompositeEntry_new p1_entry) p2_entry in
  bonsai_diff_tree n (WorkingEntry_new root_entry) None composite_entry.
End diff.

Lemma map_size_1_iff {K A} `{Countable K} (m : gmap K A) : base.size m = 1 <-> exists k x, m = {[k := x]}.
Proof.
  split; [|intros (k & x & ->); apply map_size_singleton].
  intros Hs. destruct (map_to_list m) as [|[k x] [|y l]] eqn:E.
  - apply map_to_list_empty_iff in E as ->. by rewrite map_size_empty in Hs.
  - exists k, x. apply map_to_list_inj. by rewrite E, map_to_list_singleton.
  - apply (f_equal length) in E. rewrite length_map_to_list, Hs in E. done.
Qed.

(** ** What entries hold

    An entry is identified by its type and hash, and a composite entry by the
    entries of its parents. *)

Definition id : Type := Type_ * HgEntryId.
Definition entry_id (e : Entry) : id := (get_type e, get_hash e).

Definition has (c : CompositeEntry) (i : id) : Prop :=
  match i with
  | (File ft, h) => is_Some (files c !! (ft, h))
  | (Tree, h) => is_Some (trees c !! h)
  end.

(** The entries of [c] are those of [S], under their own keys. *)
Record holds (c : CompositeEntry) (S : id -> Prop) : Prop := {
  holds_files : map_Forall (fun k e => entry_id e = (File k.1, k.2)) (files c);
  holds_trees : map_Forall (fun h e => entry_id e = (Tree, h)) (trees c);
  holds_has i : has c i <-> S i;
}.

Lemma holds_new : holds CompositeEntry_new (fun _ => False).
Proof.
  split; [apply map_Forall_empty|apply map_Forall_empty|].
  intros [[ft|] h]; cbn; rewrite lookup_empty; (split; [by intros []|done]).
Qed.

Lemma holds_ext c S S' : (forall i, S i <-> S' i) -> holds c S -> holds c S'.
Proof. intros HS [H1 H2 H3]. split; [done|done|]. intros i. by rewrite H3. Qed.

Lemma holds_add c S e : holds c S -> holds (add_parent c e) (fun i => i = entry_id e \/ S i).
Proof.
  intros [H1 H2 H3]. unfold add_parent, entry_id. destruct (get_type e) as [ft|] eqn:Et.
  - split; cbn; [|done|].
    + apply map_Forall_insert_2; [|done]. unfold entry_id. by rewrite Et.
    + intros [[ft'|] h]; [|rewrite <- H3; cbn; naive_solver].
      rewrite <- H3. cbn. destruct (decide ((ft, get_hash e) = (ft', h))) as [[= <- <-]|Hne].
      * rewrite lookup_insert_eq. naive_solver.
      * rewrite lookup_insert_ne by done. naive_solver.
  - split; cbn; [done| |].
    + apply map_Forall_insert_2; [|done]. unfold entry_id. by rewrite Et.
    + intros [[ft'|] h]; rewrite <- H3; cbn; [naive_solver|].
      destruct (decide (get_hash e = h)) as [<-|Hne].
      * rewrite lookup_insert_eq. naive_solver.
      * rewrite lookup_insert_ne by done. naive_solver.
Qed.

Lemma contains_file_spec c S ft h : holds c S -> contains_file c ft h = true <-> S (File ft, h).
Proof. intros Hc. unfold contains_file. rewrite bool_decide_eq_true. by rewrite <- (holds_has _ _ Hc (File ft, h)). Qed.

Lemma contains_other_spec c S ft h : holds c S ->
  contains_file_other_type c ft h = true <-> exists ft', ft' <> ft /\ S (File ft', h).
Proof.
  intros Hc. unfold contains_file_other_type. rewrite existsb_exists. split.
  - intros (ft' & Hin & H%(contains_file_spec _ _ _ _ Hc)). exists ft'. split; [|done].
    intros ->. by destruct ft, Hin as [?|[?|[]]].
  - intros (ft' & Hne & H). exists ft'. split; [|by apply (contains_file_spec _ _ _ _ Hc)].
    destruct ft, ft'; cbn; tauto || done.
Qed.

Lemma contains_any_spec c S h : holds c S ->
  contains_file_any_type c h = true <-> exists ft, S (File ft, h).
Proof.
  intros Hc. unfold contains_file_any_type. rewrite existsb_exists. split.
  - intros (ft & _ & H%(contains_file_spec _ _ _ _ Hc)). by exists ft.
  - intros (ft & H). exists ft. split; [destruct ft; cbn; tauto|by apply (contains_file_spec _ _ _ _ Hc)].
Qed.

Lemma num_files_zero c S : holds c S -> num_files c = 0 <-> forall i, S i -> i.1 = Tree.
Proof.
  intros Hc. unfold num_files. rewrite map_size_empty_iff. split.
  - intros E [[ft|] h] H%(holds_has _ _ Hc); [|done]. cbn in H. rewrite E, lookup_empty in H. by destruct H.
  - intros H. apply map_empty. intros [ft h]. destruct (files c !! (ft, h)) eqn:E; [|done].
    assert (has c (File ft, h)) as Hh by (cbn; by rewrite E). by apply (holds_has _ _ Hc), H in Hh.
Qed.

Lemma num_trees_zero c S : holds c S -> num_trees c = 0 <-> forall h, ~ S (Tree, h).
Proof.
  intros Hc. unfold num_trees. rewrite map_size_empty_iff. split.
  - intros E h H%(holds_has _ _ Hc). cbn in H. rewrite E, lookup_empty in H. by destruct H.
  - intros H. apply map_empty. intros h. destruct (trees c !! h) eqn:E; [|done].
    destruct (H h). apply (holds_has _ _ Hc). cbn. by rewrite E.
Qed.

(** [S] is the one entry [i]. *)
Definition only (S : id -> Prop) (i : id) : Prop := forall j, S j <-> j = i.

Lemma only_file c S ft h : holds c S ->
  only S (File ft, h) <-> num_trees c = 0 /\ num_files c = 1 /\ contains_file c ft h = true.
Proof.
  intros Hc. rewrite (num_trees_zero _ _ Hc), (contains_file_spec _ _ _ _ Hc). unfold num_files. split.
  - intros Ho. split; [by intros h' ?%Ho|]. split; [|by apply Ho].
    apply map_size_1_iff. assert (S (File ft, h)) as H%(holds_has _ _ Hc) by by apply Ho. cbn in H. destruct H as [e He].
    exists (ft, h), e. apply map_eq. intros [ft' h']. destruct (decide ((ft, h) = (ft', h'))) as [[= <- <-]|Hne].
    + by rewrite lookup_singleton_eq.
    + rewrite lookup_singleton_ne by done. destruct (files c !! (ft', h')) eqn:E; [|done].
      assert (has c (File ft', h')) as H' by (cbn; by rewrite E). apply (holds_has _ _ Hc), Ho in H'. congruence.
  - intros (Ht & (k & e & Hf)%map_size_1_iff & Hin) j. split; [|by intros ->].
    intros Hj. destruct j as [[ft'|] h']; [|by destruct (Ht h')].
    apply (holds_has _ _ Hc) in Hj, Hin. cbn in Hj, Hin. rewrite Hf in Hj, Hin.
    destruct Hj as [? [-> _]%lookup_singleton_Some], Hin as [? [[= <- <-] _]%lookup_singleton_Some]. done.
Qed.

Lemma only_tree c S h : holds c S -> num_trees c = 1 -> contains_tree c h = true ->
  forall h', S (Tree, h') <-> h' = h.
Proof.
  intros Hc (k & e & Hf)%map_size_1_iff Hin h'. unfold contains_tree in Hin. rewrite bool_decide_eq_true in Hin.
  rewrite Hf in Hin. destruct Hin as [? [-> _]%lookup_singleton_Some].
  rewrite <- (holds_has _ _ Hc (Tree, h')). cbn. rewrite Hf. split.
  - by intros [? [-> _]%lookup_singleton_Some].
  - intros ->. by rewrite lookup_singleton_eq.
Qed.

(** ** Manifests that load

    A tree of depth below [n]: every manifest in it loads, in the order of
    the names of its entries, which are not empty. *)

Definition named (name : MPathElement) (e : Entry) : Prop := get_name e = Some name.
#[local] Instance named_dec name e : Decision (named name e) := decide (get_name e = Some name).

Definition good_manifest (mf : Manifest) : Prop :=
  exists l : list (MPathElement * Entry),
    mf = l.*2 /\ btree_wf l /\ Forall (fun x => named x.1 x.2 /\ nonempty_elem x.1 = true) l.

Section spec.
Context {E : Type} (content : HgEntryId -> outcome E Manifest).

Fixpoint loads (n : nat) (i : id) : Prop :=
  match i with
  | (File _, _) => True
  | (Tree, h) =>
      match n with
      | 0 => False
      | S n => exists mf, content h = Ok mf /\ good_manifest mf /\ Forall (fun e => loads n (entry_id e)) mf
      end
  end.

(** The entry under a name, and at a path. *)
Definition id_child (i : id) (name : MPathElement) : option id :=
  match i with
  | (File _, _) => None
  | (Tree, h) =>
      match content h with
      | Ok mf => x ← list_find (named name) mf; Some (entry_id x.2)
      | _ => None
      end
  end.

Fixpoint id_at (i : id) (p : list MPathElement) : option id :=
  match p with
  | [] => Some i
  | name :: p => i ← id_child i name; id_at i p
  end.

(** What a set of parents has at a path. *)
Definition parents_at (S : id -> Prop) (p : list MPathElement) (i : id) : Prop :=
  exists j, S j /\ id_at j p = Some i.

Definition below (S : id -> Prop) (name : MPathElement) (i : id) : Prop :=
  exists j, S j /\ id_child j name = Some i.

Lemma parents_below S name p i : parents_at S (name :: p) i <-> parents_at (below S name) p i.
Proof.
  unfold parents_at, below. cbn [id_at]. split.
  - intros (j & Hj & Hi). destruct (id_child j name) as [k|] eqn:Ek; [|done]. exists k. split; [by exists j|done].
  - intros (k & (j & Hj & Ek) & Hi). exists j. by rewrite Ek.
Qed.

Lemma find_named l name : btree_wf l -> Forall (fun x => named x.1 x.2 /\ nonempty_elem x.1 = true) l ->
  (x ← list_find (named name) l.*2; Some x.2) = btree_get name l.
Proof.
  intros Hs. induction 1 as [|[k e] l [Hn _] _ IH]; [done|]. apply StronglySorted_inv in Hs as [Hs _].
  cbn [fmap list_fmap list_find btree_get]. cbn in Hn. destruct (decide (named name (k, e).2)) as [Hd|Hd].
  - unfold named in Hd, Hn. cbn in Hd. assert (name = k) as -> by congruence. by rewrite cmp_refl.
  - specialize (IH Hs). destruct (cmp_spec name k) as [->|_|_]; [done|..];
      (rewrite <- IH; by destruct (list_find (named name) l.*2) as [[]|]).
Qed.

Lemma id_child_get h mf l name :
  content h = Ok mf -> mf = l.*2 -> btree_wf l -> Forall (fun x => named x.1 x.2 /\ nonempty_elem x.1 = true) l ->
  id_child (Tree, h) name = entry_id <$> btree_get name l.
Proof.
  intros Hc -> Hs Hl. unfold id_child. rewrite Hc, <- (find_named l name Hs Hl).
  by destruct (list_find (named name) l.*2) as [[]|].
Qed.

(** ** The composite manifest *)

(** [m] holds under each name what the entries [S] hold there. *)
Definition composes (m : CompositeManifest) (S : MPathElement -> id -> Prop) : Prop :=
  btree_wf m /\ forall name,
    match btree_get name m with
    | Some c => holds c (S name) /\ nonempty_elem name = true
    | None => forall i, ~ S name i
    end.

Lemma composes_ext m S S' : (forall name i, S name i <-> S' name i) -> composes m S -> composes m S'.
Proof.
  intros HS [Hm Hn]. split; [done|]. intros name. specialize (Hn name). destruct (btree_get name m).
  - split; [eapply holds_ext; [apply HS|apply Hn]|apply Hn].
  - intros i Hi%HS. by apply (Hn i).
Qed.

Lemma composite_add_ok m S name e :
  composes m S -> named name e -> nonempty_elem name = true ->
  exists m', composite_add (E := E) m e = Ok m' /\
    composes m' (fun n i => (n = name /\ i = entry_id e) \/ S n i).
Proof.
  intros [Hm Hn] He Hne. unfold composite_add, expect_name. rewrite He, bind_Ok. eexists. split; [done|].
  split; [by apply btree_insert_wf|]. intros n. rewrite btree_get_insert.
  destruct (cmp_spec n name) as [->|Hlt|Hlt].
  - split; [|done]. specialize (Hn name).
    eapply holds_ext; [|apply holds_add]; [intros i; cbn; rewrite <- (or_comm (S name i)); symmetry|].
    2:{ destruct (btree_get name m) as [c|]; [exact (proj1 Hn)|]. eapply holds_ext; [|apply holds_new].
        intros i. split; [done|]. intros Hi. by destruct (Hn i). }
    cbn. naive_solver.
  - specialize (Hn n). destruct (btree_get n m) as [c|].
    + split; [|apply Hn]. eapply holds_ext; [|apply Hn]. intros i. cbn. split; [by right|]. intros [[-> _]|?]; [|done].
      by destruct (ord_irr name).
    + intros i [[-> _]|Hi]; [by destruct (ord_irr name)|by apply (Hn i)].
  - specialize (Hn n). destruct (btree_get n m) as [c|].
    + split; [|apply Hn]. eapply holds_ext; [|apply Hn]. intros i. cbn. split; [by right|]. intros [[-> _]|?]; [|done].
      by destruct (ord_irr name).
    + intros i [[-> _]|Hi]; [by destruct (ord_irr name)|by apply (Hn i)].
Qed.

Lemma add_all_ok l : forall m S,
  composes m S -> Forall (fun x => named x.1 x.2 /\ nonempty_elem x.1 = true) l ->
  exists m', add_all (E := E) m l.*2 = Ok m' /\
    composes m' (fun n i => (exists e, (n, e) ∈ l /\ i = entry_id e) \/ S n i).
Proof.
  unfold add_all. induction l as [|[name e] l IH]; intros m S Hm Hl.
  - exists m. split; [done|]. eapply composes_ext; [|exact Hm]. intros n i. split; [by right|].
    intros [(e & H & _)|H]; [by apply elem_of_nil in H|done].
  - apply Forall_cons in Hl as [[Hn Hne] Hl]. cbn [fmap list_fmap foldl snd]. cbn in Hn, Hne.
    destruct (composite_add_ok m S name e Hm Hn Hne) as (m1 & E1 & H1). rewrite bind_Ok, E1.
    destruct (IH m1 _ H1 Hl) as (m' & E' & H'). exists m'. split; [done|].
    eapply composes_ext; [|exact H']. intros n i. cbn. set_solver.
Qed.

Lemma add_manifests_ok (ls : list (list (MPathElement * Entry))) : forall m S,
  composes m S -> Forall (fun l => Forall (fun x => named x.1 x.2 /\ nonempty_elem x.1 = true) l) ls ->
  exists m', add_manifests (E := E) m ((fun l => l.*2) <$> ls) = Ok m' /\
    composes m' (fun n i => (exists l e, l ∈ ls /\ (n, e) ∈ l /\ i = entry_id e) \/ S n i).
Proof.
  unfold add_manifests. induction ls as [|l ls IH]; intros m S Hm Hls.
  - exists m. split; [done|]. eapply composes_ext; [|exact Hm]. intros n i. split; [by right|].
    intros [(l & e & H & _)|H]; [by apply elem_of_nil in H|done].
  - apply Forall_cons in Hls as [Hl Hls]. cbn [fmap list_fmap foldl].
    destruct (add_all_ok l m S Hm Hl) as (m1 & E1 & H1). rewrite bind_Ok, E1.
    destruct (IH m1 _ H1 Hls) as (m' & E' & H'). exists m'. split; [done|].
    eapply composes_ext; [|exact H']. intros n i. cbn. set_solver.
Qed.

Lemma btree_get_elem {V} (l : list (MPathElement * V)) name v :
  btree_wf l -> btree_get name l = Some v <-> (name, v) ∈ l.
Proof.
  induction l as [|[k w] l IH]; intros Hs; cbn [btree_get]; [by rewrite elem_of_nil|].
  apply StronglySorted_inv in Hs as [Hs Hk]. rewrite elem_of_cons, <- IH by done.
  rewrite Forall_forall in Hk. destruct (cmp_spec name k) as [->|Hlt|Hlt].
  - split; [intros [= ->]; by left|]. intros [[= ->]|Hin%(IH Hs)]; [done|]. apply Hk in Hin. by destruct (ord_irr k).
  - split; [by right|]. intros [[= -> _]|]; [by destruct (ord_irr k)|done].
  - split; [by right|]. intros [[= -> _]|]; [by destruct (ord_irr k)|done].
Qed.

Context {MO : MapOrder} {ML : MapOrderLaws MO}.

Lemma composite_manifest_ok n c S :
  holds c S -> (forall i, S i -> loads n i) ->
  exists m, composite_manifest content c = Ok m /\ composes m (below S).
Proof.
  intros Hc Hload. unfold composite_manifest.
  assert (forall h e, (h, e) ∈ map_order (trees c) -> get_hash e = h /\ S (Tree, h)) as Htrees.
  { intros h e He. rewrite map_order_perm in He. apply elem_of_map_to_list in He.
    pose proof (holds_trees _ _ Hc h e He) as [= _ <-]. split; [done|]. apply (holds_has _ _ Hc). cbn. by rewrite He. }
  assert (forall h, S (Tree, h) -> exists e, (h, e) ∈ map_order (trees c)) as Hall.
  { intros h Hh%(holds_has _ _ Hc). destruct Hh as [e He]. exists e. rewrite map_order_perm. by apply elem_of_map_to_list. }
  assert (forall l, (forall h e, (h, e) ∈ l -> get_hash e = h /\ S (Tree, h)) ->
    exists ls, collect (fun x => content (get_hash x.2)) l = Ok ((fun l => l.*2) <$> ls) /\
      Forall (fun l => btree_wf l /\ Forall (fun x => named x.1 x.2 /\ nonempty_elem x.1 = true) l) ls /\
      forall k, k ∈ ls -> exists h e, (h, e) ∈ l /\ content h = Ok k.*2) as Hls.
  { induction l as [|[h e] l IH]; intros Hl; [exists []; split; [done|]; split; [done|]; by intros k ?%elem_of_nil|].
    destruct IH as (ls & El & Hok & Hk); [intros h' e' He; apply Hl; by right|].
    destruct (Hl h e) as [Hh HS]; [by left|]. apply Hload in HS. destruct n as [|n]; [done|].
    destruct HS as (mf & Hmf & (k & -> & Hs & Hnm) & _). exists (k :: ls). cbn [collect].
    cbn [snd]. rewrite Hh, Hmf, bind_Ok, El, bind_Ok. split; [done|]. split; [by constructor|].
    intros k' [->|Hk']%elem_of_cons; [exists h, e; split; [by left|done]|].
    destruct (Hk k' Hk') as (h' & e' & Hin & Hc'). exists h', e'. split; [by right|done]. }
  destruct (Hls _ Htrees) as (ls & El & Hok & Hk). rewrite El, bind_Ok.
  destruct (add_manifests_ok ls CompositeManifest_new (fun _ _ => False)) as (m & Em & Hm).
  { split; [constructor|]. cbn. intros name i H. exact H. }
  { eapply Forall_impl; [exact Hok|]. by intros l [_ ?]. }
  exists m. split; [exact Em|]. eapply composes_ext; [|exact Hm]. intros name i. unfold below. split.
  - intros [(k & e & Hin & He & ->)|[]]. destruct (Hk k Hin) as (h & e' & Hh & Hcont).
    rewrite Forall_forall in Hok. destruct (Hok k Hin) as [Hs Hnm].
    exists (Tree, h). split; [exact (proj2 (Htrees h e' Hh))|]. rewrite (id_child_get h _ k name Hcont eq_refl Hs Hnm).
    apply (btree_get_elem _ _ _ Hs) in He. by rewrite He.
  - intros ([[ft|] h] & HS & Hi); [done|]. left. destruct (Hall h HS) as [e He].
    destruct (list_elem_of_lookup_1 _ _ He) as [j Hj].
    apply collect_Ok_Forall2 in El. destruct (Forall2_lookup_l _ _ _ _ _ El Hj) as (mf & Hmf & Hcont).
    cbn [snd] in Hcont. destruct (Htrees h e He) as [Hh _]. rewrite Hh in Hcont.
    apply list_lookup_fmap_Some in Hmf as (k & -> & Hkj). apply list_elem_of_lookup_2 in Hkj.
    rewrite Forall_forall in Hok. destruct (Hok k Hkj) as [Hs Hnm].
    rewrite (id_child_get h _ k name Hcont eq_refl Hs Hnm) in Hi.
    destruct (btree_get name k) as [e'|] eqn:Ee; [|done]. injection Hi as <-.
    exists k, e'. split; [done|]. split; [by apply btree_get_elem|done].
Qed.

Lemma below_loads n S name i : (forall i, S i -> loads (Datatypes.S n) i) -> below S name i -> loads n i.
Proof.
  intros HS ([[ft|] h] & Hj & Hi); [done|]. apply HS in Hj. destruct Hj as (mf & Hmf & Hgood & Hl).
  unfold id_child in Hi. rewrite Hmf in Hi. destruct (list_find (named name) mf) as [[k e]|] eqn:Ef; [|done].
  injection Hi as <-. apply list_find_Some in Ef as (Hk & _). rewrite Forall_forall in Hl.
  by apply Hl; eapply list_elem_of_lookup_2.
Qed.
End spec.

(** ** The join *)

Section join.
Context {K A B : Type} `{!Ordered K}.

Abbreviation join := (merge_join (fun (x : K * A) (y : K * B) => cmp x.1 y.1)).

Definition pair_key (x : EitherOrBoth (K * A) (K * B)) : K :=
  match x with Left (k, _) | Right (k, _) | Both (k, _) _ => k end.

Definition joined (l : list (K * A)) (k : list (K * B)) (x : EitherOrBoth (K * A) (K * B)) : Prop :=
  match x with
  | Left a => a ∈ l /\ forall b, b ∈ k -> b.1 <> a.1
  | Right b => b ∈ k /\ forall a, a ∈ l -> a.1 <> b.1
  | Both a b => a ∈ l /\ b ∈ k /\ a.1 = b.1
  end.

Lemma join_step (a : K * A) l (b : K * B) k :
  join (a :: l) (b :: k) = match cmp a.1 b.1 with
    | Lt => Left a :: join l (b :: k)
    | Gt => Right b :: join (a :: l) k
    | Eq => Both a b :: join l k
    end.
Proof. reflexivity. Qed.

Lemma joined_left a l k x : (forall b, b ∈ k -> b.1 <> a.1) ->
  joined (a :: l) k x <-> x = Left a \/ joined l k x.
Proof. intros Hk. destruct x; cbn [joined]; setoid_rewrite elem_of_cons; naive_solver. Qed.

Lemma joined_right b l k x : (forall a, a ∈ l -> a.1 <> b.1) ->
  joined l (b :: k) x <-> x = Right b \/ joined l k x.
Proof. intros Hl. destruct x; cbn [joined]; setoid_rewrite elem_of_cons; naive_solver. Qed.

Lemma joined_both a b l k x : a.1 = b.1 ->
  (forall a', a' ∈ l -> a'.1 <> b.1) -> (forall b', b' ∈ k -> b'.1 <> a.1) ->
  joined (a :: l) (b :: k) x <-> x = Both a b \/ joined l k x.
Proof. intros Heq Hl Hk. destruct x; cbn [joined]; setoid_rewrite elem_of_cons; naive_solver congruence. Qed.

Lemma above_ne {V} (x : K) (l : list (K * V)) (y : K) :
  Forall (fun z => ord_lt x z.1) l -> ord_lt y x \/ y = x -> forall z, z ∈ l -> z.1 <> y.
Proof.
  intros Hl Hy z Hz Heq. rewrite Forall_forall in Hl. apply Hl in Hz. rewrite Heq in Hz.
  destruct Hy as [Hy|Hy]; [by apply (ord_asym x y)|]. rewrite Hy in Hz. by apply (ord_irr x).
Qed.

Lemma above_cons {V} x y (v : V) l :
  ord_lt x y -> Forall (fun z => ord_lt y z.1) l -> Forall (fun z : K * V => ord_lt x z.1) ((y, v) :: l).
Proof.
  intros Hx Hl. constructor; [done|]. eapply Forall_impl; [exact Hl|]. intros z Hz. by transitivity y.
Qed.

Lemma joined_above x l k : (forall y, y ∈ join l k <-> joined l k y) ->
  Forall (fun z => ord_lt x z.1) l -> Forall (fun z => ord_lt x z.1) k ->
  Forall (fun y => ord_lt x (pair_key y)) (join l k).
Proof.
  intros Hm Hl Hk. rewrite Forall_forall in Hl. rewrite Forall_forall in Hk. apply Forall_forall.
  intros y Hy%Hm. destruct y as [[n v]|[n v]|[n v] [n' v']]; cbn in Hy |- *.
  - exact (Hl (n, v) (proj1 Hy)).
  - exact (Hk (n, v) (proj1 Hy)).
  - exact (Hl (n, v) (proj1 Hy)).
Qed.

Lemma join_nil_r l : join l [] = Left <$> l.
Proof. by destruct l. Qed.

Lemma sorted_fmap {V} (f : K * V -> EitherOrBoth (K * A) (K * B)) (l : list (K * V)) :
  (forall x, pair_key (f x) = x.1) -> btree_wf l ->
  StronglySorted (fun x y => ord_lt (pair_key x) (pair_key y)) (f <$> l).
Proof.
  intros Hf Hs. induction Hs as [|x l Hs IH Hx]; [constructor|]. cbn. constructor; [done|].
  apply Forall_fmap. eapply Forall_impl; [exact Hx|]. intros y Hy. cbn. by rewrite !Hf.
Qed.

Lemma join_ok l : forall k, btree_wf l -> btree_wf k ->
  (forall x, x ∈ join l k <-> joined l k x) /\
  StronglySorted (fun x y => ord_lt (pair_key x) (pair_key y)) (join l k).
Proof.
  induction l as [|[na a] l IHl].
  { intros k _ Hk. cbn [merge_join]. split; [|apply sorted_fmap; [by intros []|done]].
    intros x. rewrite list_elem_of_fmap. destruct x; cbn [joined]; setoid_rewrite elem_of_nil; naive_solver. }
  intros k Hl. pose proof Hl as Hl0. apply StronglySorted_inv in Hl as [Hl Hal]. induction k as [|[nb b] k IHk]; intros Hk.
  { rewrite join_nil_r. split; [|apply sorted_fmap; [by intros []|done]].
    intros x. rewrite list_elem_of_fmap. destruct x; cbn [joined]; setoid_rewrite elem_of_nil; naive_solver. }
  pose proof Hk as Hk0. apply StronglySorted_inv in Hk as [Hk Hbk]. rewrite join_step. cbn [fst] in *.
  destruct (cmp_spec na nb) as [->|Hlt|Hlt].
  - destruct (IHl k Hl Hk) as [Hm Hs]. split.
    + intros x. rewrite elem_of_cons, Hm, joined_both; [done|done| |]; (eapply above_ne; [eassumption|by right]).
    + constructor; [done|]. by apply joined_above.
  - destruct (IHl _ Hl Hk0) as [Hm Hs]. split.
    + intros x. rewrite elem_of_cons, Hm, joined_left; [done|].
      eapply above_ne; [by apply (above_cons na nb b k)|by right].
    + constructor; [done|]. apply joined_above; [done|done|by apply above_cons].
  - destruct (IHk Hk) as [Hm Hs]. split.
    + intros x. rewrite elem_of_cons, Hm, joined_right; [done|].
      eapply above_ne; [by apply (above_cons nb na a l)|by right].
    + constructor; [done|]. apply joined_above; [done|by apply above_cons|done].
Qed.
End join.


(** ** What the diff gives *)

Inductive kind :=
| KChanged (ft : FileType) (h : HgEntryId)
| KReused (ft : FileType) (h : HgEntryId)
| KDeleted.

(** A result at a path below [base]. *)
Definition result (base p : list MPathElement) (k : kind) : BonsaiDiffResult :=
  let path := mkMPath (base ++ p) in
  match k with
  | KChanged ft h => Changed path ft h
  | KReused ft h => ChangedReusedId path ft h
  | KDeleted => Deleted path
  end.

Definition w_id (w : WorkingEntry) : option id :=
  match w with
  | Absent => None
  | WFile ft e => Some (File ft, get_hash e)
  | WTree e => Some (Tree, get_hash e)
  end.

Section exact.
Context {E : Type} (content : HgEntryId -> outcome E Manifest).
Abbreviation parents_at := (parents_at content).
Abbreviation below := (below content).

Definition work_at (W : option id) (p : list MPathElement) : option id := i ← W; id_at content i p.
Definition work_below (W : option id) (name : MPathElement) : option id := i ← W; id_child content i name.

Definition no_file (i : option id) : Prop := forall ft h, i <> Some (File ft, h).

(** A file of the working copy is a result unless it is all that the parents
    have there; a file of a parent is deleted where the working copy has no
    file, unless one replaces a directory above. *)
Definition diff_spec (W : option id) (S : id -> Prop) (p : list MPathElement) (k : kind) : Prop :=
  match k with
  | KChanged ft h =>
      work_at W p = Some (File ft, h) /\ ~ only (parents_at S p) (File ft, h) /\
      ~ exists ft', parents_at S p (File ft', h)
  | KReused ft h =>
      work_at W p = Some (File ft, h) /\ ~ only (parents_at S p) (File ft, h) /\
      exists ft', parents_at S p (File ft', h)
  | KDeleted =>
      no_file (work_at W p) /\ (exists ft h, parents_at S p (File ft, h)) /\
      forall q name r, p = q ++ name :: r -> no_file (work_at W q)
  end.

Lemma work_at_cons W name p : work_at W (name :: p) = work_at (work_below W name) p.
Proof. by destruct W. Qed.

Lemma only_ext S S' i : (forall j, S j <-> S' j) -> only S i <-> only S' i.
Proof. intros H. unfold only. by setoid_rewrite H. Qed.

Lemma parents_nil S i : parents_at S [] i <-> S i.
Proof. split; [by intros (j & Hj & [= <-])|intros H; by exists i]. Qed.

(** The working entry is a tree, or no parent is. *)
Definition open_at (W : option id) (S : id -> Prop) : Prop := no_file W \/ forall h, ~ S (Tree, h).

Lemma diff_spec_cons W S name p k : open_at W S ->
  diff_spec W S (name :: p) k <-> diff_spec (work_below W name) (below S name) p k.
Proof.
  intros Ho.
  destruct k as [ft h|ft h|]; cbn [diff_spec]; rewrite work_at_cons.
  - rewrite (only_ext _ _ _ (parents_below content S name p)). by setoid_rewrite (parents_below content S name p).
  - rewrite (only_ext _ _ _ (parents_below content S name p)). by setoid_rewrite (parents_below content S name p).
  - setoid_rewrite (parents_below content S name p). split; intros (Hw & Hp & Hq); (split; [done|]; split; [done|]).
    + intros q n r ->. rewrite <- work_at_cons. by apply (Hq (name :: q) n r).
    + intros [|n q] n' r Heq; [|injection Heq as -> ->; rewrite work_at_cons; by eapply Hq].
      destruct Ho as [Ho|Ho]; [destruct W; [exact Ho|done]|]. exfalso.
      destruct Hp as (ft & h & j & ([[ft'|] h'] & Hj & Hc) & _); [done|]. by destruct (Ho h').
Qed.

Lemma spec_below_file ft h S name p k : ~ diff_spec (Some (File ft, h)) S (name :: p) k.
Proof.
  intros Hs.
  destruct k as [ft' h'|ft' h'|]; cbn in Hs; [by destruct Hs..|].
  destruct Hs as (_ & _ & Hq). by apply (Hq [] name p eq_refl ft h).
Qed.

(** The results of [l] are those of the spec below [base], where [P] holds. *)
Definition exact (W : option id) (S : id -> Prop) (base : list MPathElement) (P : list MPathElement -> Prop)
    (l : list BonsaiDiffResult) : Prop :=
  NoDup (result_path <$> l) /\
  forall r, r ∈ l <-> exists p k, P p /\ diff_spec W S p k /\ r = result base p k.

Abbreviation proper := (fun p : list MPathElement => p <> []).
Abbreviation whole := (fun _ : list MPathElement => True).

Lemma result_elements base p k : elements (result_path (result base p k)) = base ++ p.
Proof. by destruct k. Qed.

Lemma exact_nil W S base P : (forall p k, P p -> ~ diff_spec W S p k) -> exact W S base P [].
Proof.
  intros H. split; [constructor|]. intros r. split; [by intros ?%elem_of_nil|].
  intros (p & k & Hp & Hs & _). by destruct (H p k Hp).
Qed.

(** The file of an entry, and what lies below. *)
Lemma exact_cons_self W S base k l : diff_spec W S [] k -> (forall k', diff_spec W S [] k' -> k' = k) ->
  exact W S base proper l -> exact W S base whole (result base [] k :: l).
Proof.
  intros Hk Hu [Hn Hl]. split.
  - cbn. constructor; [|done]. intros (r & Hr & (p & k' & Hp & _ & ->)%Hl)%list_elem_of_fmap.
    apply (f_equal elements) in Hr. rewrite !result_elements, app_nil_r in Hr.
    destruct p; [done|]. by apply (f_equal length) in Hr; rewrite length_app in Hr; cbn in Hr; lia.
  - intros r. rewrite elem_of_cons, Hl. split.
    + intros [->|(p & k' & Hp & Hs & ->)]; [by exists [], k|by exists p, k'].
    + intros ([|n p] & k' & _ & Hs & ->); [left; by rewrite (Hu k' Hs)|right; by exists (n :: p), k'].
Qed.

Lemma exact_self W S base l : (forall k, ~ diff_spec W S [] k) ->
  exact W S base proper l -> exact W S base whole l.
Proof.
  intros Hk [Hn Hl]. split; [done|]. intros r. rewrite Hl. split.
  - intros (p & k & _ & Hs & ->). by exists p, k.
  - intros ([|n p] & k & _ & Hs & ->); [by destruct (Hk k)|by exists (n :: p), k].
Qed.

Lemma bonsai_diff_file_file ft e path c S : holds c S ->
  (only S (File ft, get_hash e) /\ bonsai_diff_file (WFile ft e) path c = None) \/
  (~ only S (File ft, get_hash e) /\ (exists ft', S (File ft', get_hash e)) /\
    bonsai_diff_file (WFile ft e) path c = Some (ChangedReusedId path ft (get_hash e))) \/
  (~ only S (File ft, get_hash e) /\ ~ (exists ft', S (File ft', get_hash e)) /\
    bonsai_diff_file (WFile ft e) path c = Some (Changed path ft (get_hash e))).
Proof.
  intros Hc. cbn [bonsai_diff_file]. generalize (get_hash e). intros h.
  pose proof (only_file c S ft h Hc) as Ho. pose proof (contains_any_spec c S h Hc) as Ha.
  pose proof (contains_other_spec c S ft h Hc) as Hother. pose proof (contains_file_spec c S ft h Hc) as Hf.
  destruct (Nat.eqb_spec (num_trees c) 0) as [Ht|Ht]; cbn [andb];
    [destruct (Nat.eqb_spec (num_files c) 1) as [Hn|Hn]; cbn [andb]|].
  - destruct (contains_file c ft h).
    { left. split; [by apply Ho|done]. }
    right. assert (~ only S (File ft, h)) as Hno by (rewrite Ho; by intros (_ & _ & ?)).
    destruct (contains_file_other_type c ft h); [left|right]; (split; [done|]; split; [|done]).
    + destruct (proj1 Hother eq_refl) as (ft' & _ & H). by exists ft'.
    + intros [ft' H]. destruct (decide (ft' = ft)) as [->|Hne]; [by apply Hf in H|].
      by discriminate (proj2 Hother (ex_intro _ ft' (conj Hne H))).
  - right. assert (~ only S (File ft, h)) as Hno by (rewrite Ho; by intros (_ & ? & _)).
    destruct (contains_file_any_type c h); [left|right]; (split; [done|]; split; [|done]).
    + by apply Ha.
    + by intros ?%Ha.
  - right. assert (~ only S (File ft, h)) as Hno by (rewrite Ho; by intros (? & _)).
    destruct (contains_file_any_type c h); [left|right]; (split; [done|]; split; [|done]).
    + by apply Ha.
    + by intros ?%Ha.
Qed.

Lemma bonsai_diff_file_other w path c S : holds c S -> no_file (w_id w) ->
  ((exists ft h, S (File ft, h)) /\ bonsai_diff_file w path c = Some (Deleted path)) \/
  ((~ exists ft h, S (File ft, h)) /\ bonsai_diff_file w path c = None).
Proof.
  intros Hc Hw. assert (bonsai_diff_file w path c = if negb (Nat.eqb (num_files c) 0) then Some (Deleted path) else None) as ->.
  { destruct w as [|ft e|e]; [done| |done]. by destruct (Hw ft (get_hash e)). }
  pose proof (num_files_zero c S Hc) as Hz. destruct (Nat.eqb_spec (num_files c) 0) as [Hn|Hn]; cbn.
  - right. split; [|done]. intros (ft & h & H). by apply (proj1 Hz) in H.
  - left. split; [|done]. unfold num_files in Hn. destruct (map_choose (files c)) as ([ft h] & e & He).
    { intros Hf. by rewrite Hf, map_size_empty in Hn. }
    exists ft, h. apply (holds_has _ _ Hc). cbn. by rewrite He.
Qed.

Lemma diff_spec_nil W S k : diff_spec W S [] k <->
  match k with
  | KChanged ft h => W = Some (File ft, h) /\ ~ only S (File ft, h) /\ ~ exists ft', S (File ft', h)
  | KReused ft h => W = Some (File ft, h) /\ ~ only S (File ft, h) /\ exists ft', S (File ft', h)
  | KDeleted => no_file W /\ exists ft h, S (File ft, h)
  end.
Proof.
  assert (work_at W [] = W) as HW by by destruct W.
  destruct k as [ft h|ft h|]; cbn [diff_spec]; rewrite HW, ?(only_ext _ _ _ (parents_nil S)); setoid_rewrite parents_nil; [done|done|].
  split; [tauto|]. intros [H1 H2]. split; [done|]. split; [done|]. by intros [|? ?] ? ?.
Qed.

Context {MO : MapOrder} {ML : MapOrderLaws MO} {IL : Interleave} {HIL : InterleaveLaws IL}.

(** A tree is compared as the spec says, everywhere below it. *)
Definition tree_ok (n : nat) (diff_tree : WorkingEntry -> option MPath -> CompositeEntry -> outcome E (list BonsaiDiffResult)) : Prop :=
  forall w path c S, holds c S -> (forall i, S i -> loads content n i) ->
    (forall i, w_id w = Some i -> loads content n i) -> open_at (w_id w) S ->
    exists l, diff_tree w path c = Ok l /\ exact (w_id w) S (iter_opt path) proper l.

Lemma bonsai_diff_entry_ok n diff_tree w base c S : tree_ok n diff_tree -> holds c S ->
  (forall i, S i -> loads content n i) -> (forall i, w_id w = Some i -> loads content n i) ->
  exists l, bonsai_diff_entry diff_tree w (mkMPath base) c = Ok l /\ exact (w_id w) S base whole l.
Proof.
  intros Ht Hc HS Hw. unfold bonsai_diff_entry.
  assert ((exists ft e, w = WFile ft e) \/ no_file (w_id w)) as [(ft & e & ->)|Hn].
  { destruct w as [|ft e|e]; [by right|left; by exists ft, e|by right]. }
  - assert (exact (Some (File ft, get_hash e)) S base proper []) as Hnil.
    { apply exact_nil. intros [|name p] k Hp; [done|]. apply spec_below_file. }
    destruct (bonsai_diff_file_file ft e (mkMPath base) c S Hc) as [(Ho & ->)|[(Ho & Ha & ->)|(Ho & Ha & ->)]].
    + assert (forall h, ~ S (Tree, h)) as Hnt by by intros h ?%Ho.
      destruct (Ht (WFile ft e) (Some (mkMPath base)) c S Hc HS Hw (or_intror Hnt)) as (l & -> & Hl).
      exists l. split; [done|]. apply exact_self; [|done]. intros k. rewrite diff_spec_nil. cbn [w_id].
      destruct k as [ft' h'|ft' h'|]; [intros ([= <- <-] & ? & _); done|intros ([= <- <-] & ? & _); done|].
      intros (Hf & _). by apply (Hf ft (get_hash e)).
    + eexists. split; [done|]. cbn [option_list app w_id].
      rewrite <- (app_nil_r base) at 2. apply (exact_cons_self _ _ _ (KReused ft (get_hash e))); [rewrite diff_spec_nil; by split_and?| |done].
      intros [ft' h'|ft' h'|]; rewrite diff_spec_nil; [intros ([= <- <-] & _ & Hx); by destruct (Hx Ha)|by intros ([= <- <-] & _)|].
      intros (Hf & _). by destruct (Hf ft (get_hash e)).
    + eexists. split; [done|]. cbn [option_list app w_id].
      rewrite <- (app_nil_r base) at 2. apply (exact_cons_self _ _ _ (KChanged ft (get_hash e))); [rewrite diff_spec_nil; by split_and?| |done].
      intros [ft' h'|ft' h'|]; rewrite diff_spec_nil; [by intros ([= <- <-] & _)|by intros ([= <- <-] & _ & ?%Ha)|].
      intros (Hf & _). by destruct (Hf ft (get_hash e)).
  - destruct (Ht w (Some (mkMPath base)) c S Hc HS Hw (or_introl Hn)) as (l & El & Hl).
    destruct (bonsai_diff_file_other w (mkMPath base) c S Hc Hn) as [(Hf & ->)|(Hf & ->)]; rewrite El; eexists; (split; [done|]).
    + cbn [option_list app]. rewrite <- (app_nil_r base) at 2. apply (exact_cons_self _ _ _ KDeleted); [rewrite diff_spec_nil; by split_and?| |done].
      intros [ft' h'|ft' h'|]; rewrite diff_spec_nil; [intros (Hf' & _)|intros (Hf' & _)|done]; by destruct (Hn ft' h').
    + apply exact_self; [|done]. intros [ft' h'|ft' h'|]; rewrite diff_spec_nil.
      * intros (Hf' & _). by destruct (Hn ft' h').
      * intros (Hf' & _). by destruct (Hn ft' h').
      * by intros (_ & ?).
Qed.

Lemma exact_perm W S base P l l' : l ≡ₚ l' -> exact W S base P l -> exact W S base P l'.
Proof. intros Hp [Hn Hl]. split; [by rewrite <- Hp|]. intros r. by rewrite <- Hp. Qed.

(** The results under the names of a directory, put together. *)
Lemma exact_concat {X} (key : X -> MPathElement) W S base xs ls : open_at W S ->
  StronglySorted (fun x y => ord_lt (key x) (key y)) xs ->
  Forall2 (fun x l => exact (work_below W (key x)) (below S (key x)) (base ++ [key x]) whole l) xs ls ->
  (forall name p k, diff_spec W S (name :: p) k -> exists x, x ∈ xs /\ key x = name) ->
  exact W S base proper (concat ls).
Proof.
  intros Ho Hs Hls Hall.
  assert (forall name p k, result (base ++ [name]) p k = result base (name :: p) k) as Hres.
  { intros name p k. unfold result. by rewrite <- app_assoc. }
  split.
  - clear Hall. revert Hs. induction Hls as [|x l xs ls [Hn Hl] Hls IH]; [constructor|].
    intros [Hs Hx]%StronglySorted_inv. cbn. rewrite fmap_app, NoDup_app. split; [done|]. split; [|by apply IH].
    intros path (r & -> & (p & k & _ & _ & ->)%Hl)%list_elem_of_fmap (r' & Hr & Hin)%list_elem_of_fmap.
    apply list_elem_of_In, in_concat in Hin as (l' & Hl'%list_elem_of_In & Hr'%list_elem_of_In).
    apply list_elem_of_lookup_1 in Hl' as [j Hj]. destruct (Forall2_lookup_r _ _ _ _ _ Hls Hj) as (y & Hy & _ & Hly).
    destruct (proj1 (Hly r') Hr') as (p' & k' & _ & _ & ->). apply (f_equal elements) in Hr. rewrite !result_elements, <- !app_assoc in Hr.
    apply app_inv_head in Hr. injection Hr as Hr _. rewrite Forall_forall in Hx.
    apply list_elem_of_lookup_2, Hx in Hy. rewrite Hr in Hy. by apply ord_irr in Hy.
  - intros r. rewrite list_elem_of_In, in_concat. setoid_rewrite <- list_elem_of_In. split.
    + intros (l & [j Hj]%list_elem_of_lookup_1 & Hr). destruct (Forall2_lookup_r _ _ _ _ _ Hls Hj) as (x & Hx & _ & Hlx).
      destruct (proj1 (Hlx r) Hr) as (p & k & _ & Hk & ->). exists (key x :: p), k. rewrite diff_spec_cons, Hres by done. done.
    + intros ([|name p] & k & Hp & Hk & ->); [done|]. destruct (Hall name p k Hk) as (x & [j Hx]%list_elem_of_lookup_1 & <-).
      destruct (Forall2_lookup_l _ _ _ _ _ Hls Hx) as (l & Hl & _ & Hlx). exists l.
      split; [by eapply list_elem_of_lookup_2|]. apply Hlx. exists p, k. by rewrite <- diff_spec_cons, Hres by done.
Qed.

Lemma join_opt_mpath path name : nonempty_elem name = true -> join_opt_element path name = mkMPath (iter_opt path ++ [name]).
Proof. intros Hn. destruct path as [p|]; [|done]. cbn. unfold MPath_join. cbn. by rewrite Hn. Qed.

(** What a pair of the join compares. *)
Lemma diff_pair_ok diff_tree path W S m k x : composes m (below S) -> btree_wf k ->
  Forall (fun x => named x.1 x.2 /\ nonempty_elem x.1 = true) k ->
  (forall name, work_below W name = entry_id <$> btree_get name k) -> joined m k x ->
  exists w c, diff_pair (E := E) diff_tree path x = bonsai_diff_entry diff_tree w (mkMPath (iter_opt path ++ [pair_key x])) c /\
    holds c (below S (pair_key x)) /\ w_id w = work_below W (pair_key x).
Proof.
  intros [Hm Hn] Hk Hnm HW Hx.
  assert (forall e, w_id (WorkingEntry_new e) = Some (entry_id e)) as Hid.
  { intros e. unfold WorkingEntry_new, entry_id. by destruct (get_type e). }
  assert (forall name e, (name, e) ∈ k -> work_below W name = Some (entry_id e)) as Hin.
  { intros name e He%(btree_get_elem _ _ _ Hk). by rewrite HW, He. }
  assert (forall name c, (name, c) ∈ m -> holds c (below S name) /\ nonempty_elem name = true) as Hc.
  { intros name c Hc%(btree_get_elem _ _ _ Hm). specialize (Hn name). by rewrite Hc in Hn. }
  destruct x as [[name c]|[name e]|[name c] [name' e]]; cbn [joined diff_pair pair_key] in *.
  - destruct Hx as [Hx Hx']. apply Hc in Hx as [Hx Hne]. exists Absent, c. rewrite join_opt_mpath by done.
    split; [done|]. split; [done|]. rewrite HW. destruct (btree_get name k) as [e|] eqn:Ee; [|done].
    apply (btree_get_elem _ _ _ Hk) in Ee. by destruct (Hx' _ Ee).
  - destruct Hx as [Hx Hx']. exists (WorkingEntry_new e), CompositeEntry_new. rewrite join_opt_mpath.
    2:{ rewrite Forall_forall in Hnm. by apply (Hnm _ Hx). }
    split; [done|]. split; [|by rewrite Hid, (Hin name e)]. specialize (Hn name).
    destruct (btree_get name m) as [c|] eqn:Ec; [apply (btree_get_elem _ _ _ Hm) in Ec; by destruct (Hx' _ Ec)|].
    eapply holds_ext; [|apply holds_new]. intros i. split; [done|]. by intros Hi%Hn.
  - destruct Hx as (Hx & Hx' & Heq). cbn in Heq. subst name'. apply Hc in Hx as [Hx Hne].
    exists (WorkingEntry_new e), c. rewrite join_opt_mpath by done. split; [done|]. split; [done|]. by rewrite Hid, (Hin name e).
Qed.

(** Every name of the directory is in the join. *)
Lemma join_names W S m k name : composes m (below S) -> btree_wf k ->
  (forall name, work_below W name = entry_id <$> btree_get name k) ->
  is_Some (work_below W name) \/ (exists i, below S name i) ->
  exists x, joined m k x /\ pair_key x = name.
Proof.
  intros [Hm Hn] Hk HW H. specialize (Hn name). rewrite HW in H.
  destruct (btree_get name m) as [c|] eqn:Ec; destruct (btree_get name k) as [e|] eqn:Ee;
    rewrite ?(btree_get_elem _ _ _ Hm), ?(btree_get_elem _ _ _ Hk) in *.
  - exists (Both (name, c) (name, e)). done.
  - exists (Left (name, c)). split; [|done]. cbn. split; [done|]. intros [n b] Hb Heq. cbn in Heq. subst n.
    apply (btree_get_elem _ _ _ Hk) in Hb. congruence.
  - exists (Right (name, e)). split; [|done]. cbn. split; [done|]. intros [n b] Hb Heq. cbn in Heq. subst n.
    apply (btree_get_elem _ _ _ Hm) in Hb. congruence.
  - exfalso. destruct H as [[? [=]]|[i Hi]]. by apply (Hn i).
Qed.

Lemma working_manifest_ok n w : (forall i, w_id w = Some i -> loads content n i) ->
  exists k, working_manifest content w = Ok k.*2 /\ btree_wf k /\
    Forall (fun x => named x.1 x.2 /\ nonempty_elem x.1 = true) k /\
    forall name, work_below (w_id w) name = entry_id <$> btree_get name k.
Proof.
  intros Hw. destruct w as [|ft e|e]; cbn [w_id working_manifest] in *; [by exists []; split_and!; try constructor..|].
  specialize (Hw _ eq_refl). destruct n as [|n]; [done|]. destruct Hw as (mf & Hmf & (k & -> & Hs & Hnm) & _).
  exists k. split_and!; [done..|]. intros name. by apply (id_child_get content _ _ _ name Hmf eq_refl).
Qed.

Lemma expect_names k : Forall (fun x => named x.1 x.2 /\ nonempty_elem x.1 = true) k ->
  collect (E := E) (fun e => name ← expect_name e; Ok (name, e)) k.*2 = Ok k.
Proof.
  induction 1 as [|[name e] k [Hn _] Hk IH]; [done|].
  assert (expect_name (E := E) e = Ok name) as He by (unfold expect_name; cbn in Hn; by rewrite Hn).
  cbn [fmap list_fmap collect snd]. cbn [fmap list_fmap] in IH. by rewrite He, !bind_Ok, IH.
Qed.

Lemma collect_total {X Y} (f : X -> outcome E Y) (P : X -> Y -> Prop) l :
  (forall x, x ∈ l -> exists y, f x = Ok y /\ P x y) -> exists ys, collect f l = Ok ys /\ Forall2 P l ys.
Proof.
  induction l as [|x l IH]; intros H; [by exists []|].
  destruct (H x) as (y & Ey & Hy); [by left|]. destruct IH as (ys & Eys & Hys); [intros; apply H; by right|].
  exists (y :: ys). cbn [collect]. rewrite Ey, bind_Ok, Eys. split; [done|by constructor].
Qed.

(** Without a tree there is nothing below. *)
Lemma bonsai_diff_flat n w path c S : holds c S -> (forall i, S i -> loads content 0 i) ->
  (forall i, w_id w = Some i -> loads content 0 i) -> bonsai_diff_tree content (Datatypes.S n) w path c = Ok [].
Proof.
  intros Hc HS Hw. cbn [bonsai_diff_tree].
  assert (same_tree w c = false /\ working_manifest content w = Ok []) as [-> ->].
  { destruct w as [|ft e|e]; [done|done|]. by specialize (Hw _ eq_refl). }
  assert (trees c = ∅) as Ht.
  { apply map_size_empty_iff. fold (num_trees c). apply (num_trees_zero _ _ Hc). by intros h ?%HS. }
  unfold composite_manifest. rewrite Ht. pose proof (map_order_perm (∅ : gmap HgEntryId Entry)) as Hp.
  rewrite map_to_list_empty in Hp. symmetry in Hp. apply Permutation_nil in Hp. rewrite Hp. cbn.
  pose proof (interleave_perm (A := BonsaiDiffResult) []) as Hi. cbn in Hi. symmetry in Hi. by apply Permutation_nil in Hi as ->.
Qed.

Lemma spec_names W S name p k : diff_spec W S (name :: p) k -> open_at W S ->
  is_Some (work_below W name) \/ exists i, below S name i.
Proof.
  intros Hk Ho. rewrite diff_spec_cons in Hk by done.
  destruct k as [ft h|ft h|]; cbn in Hk.
  - left. destruct Hk as [Hk _]. by destruct (work_below W name).
  - left. destruct Hk as [Hk _]. by destruct (work_below W name).
  - right. destruct Hk as (_ & (ft & h & j & Hj & _) & _). by exists j.
Qed.

Lemma same_tree_spec w c S p k : holds c S -> same_tree w c = true -> p <> [] -> ~ diff_spec (w_id w) S p k.
Proof.
  intros Hc Hs Hp Hk. destruct w as [|ft e|e]; [done|done|]. cbn [same_tree w_id] in *.
  apply andb_true_iff in Hs as [Hn%Nat.eqb_eq Ht]. pose proof (only_tree _ _ _ Hc Hn Ht) as Ho.
  assert (forall i, parents_at S p i <-> work_at (Some (Tree, get_hash e)) p = Some i) as Hat.
  { intros i. cbn. destruct p as [|name p]; [done|]. split.
    - intros ([[ft|] h] & Hj & Hi); [done|]. by apply Ho in Hj as ->.
    - intros Hi. exists (Tree, get_hash e). split; [by apply Ho|done]. }
  destruct k as [ft h|ft h|]; cbn [diff_spec] in Hk.
  - destruct Hk as (Hw & Hno & _). apply Hno. intros j. rewrite Hat, Hw. split; [by intros [= <-]|by intros ->].
  - destruct Hk as (Hw & Hno & _). apply Hno. intros j. rewrite Hat, Hw. split; [by intros [= <-]|by intros ->].
  - destruct Hk as (Hw & (ft & h & Hf%Hat) & _). by destruct (Hw ft h).
Qed.

Lemma bonsai_diff_tree_ok n : tree_ok n (bonsai_diff_tree content (Datatypes.S n)).
Proof.
  induction n as [|n IH]; intros w path c S Hc HS Hw Ho.
  { rewrite (bonsai_diff_flat _ _ _ _ _ Hc HS Hw). eexists. split; [done|]. apply exact_nil. intros [|name p] k Hp Hk; [done|].
    destruct (spec_names _ _ _ _ _ Hk Ho) as [Hn|[i ([[ft|] h] & Hj & Hi)]]; [|done|by apply HS in Hj].
    destruct w as [|ft e|e]; [by destruct Hn|by destruct Hn|by specialize (Hw _ eq_refl)]. }
  remember (Datatypes.S n) as n1 eqn:En1. cbn [bonsai_diff_tree]. destruct (same_tree w c) eqn:Est.
  { eexists. split; [done|]. apply exact_nil. intros p k. by apply (same_tree_spec w c). }
  destruct (composite_manifest_ok content n1 c S Hc HS) as (m & -> & Hm). rewrite bind_Ok.
  destruct (working_manifest_ok n1 w Hw) as (k & -> & Hk & Hnm & HW). rewrite bind_Ok, (expect_names k Hnm), bind_Ok.
  destruct (join_ok m k (proj1 Hm) Hk) as [Hj Hs].
  destruct (collect_total (diff_pair (bonsai_diff_tree content n1) path)
    (fun x l => exact (work_below (w_id w) (pair_key x)) (below S (pair_key x)) (iter_opt path ++ [pair_key x]) whole l)
    (merge_join (fun x y => cmp x.1 y.1) m k)) as (ls & -> & Hls).
  { intros x Hx%Hj. destruct (diff_pair_ok (bonsai_diff_tree content n1) path (w_id w) S m k x Hm Hk Hnm HW Hx) as (w' & c' & -> & Hc' & Hw').
    rewrite <- Hw'. apply (bonsai_diff_entry_ok n _ w' _ c'); [by subst n1|done| |].
    - intros i. apply below_loads. by subst n1.
    - intros i. rewrite Hw'. unfold work_below. destruct (w_id w) as [j|] eqn:Ej; [|done]. cbn. intros Hi.
      apply (below_loads content n (eq j) (pair_key x)); [intros ? <-; subst n1; by apply Hw|by exists j]. }
  rewrite bind_Ok. eexists. split; [done|]. eapply exact_perm; [symmetry; apply interleave_perm|].
  eapply exact_concat; [done|exact Hs|exact Hls|]. intros name p k' Hk'.
  destruct (join_names _ S m k name Hm Hk HW (spec_names _ _ _ _ _ Hk' Ho)) as (x & Hx & Hkey).
  exists x. split; [by apply Hj|done].
Qed.

(** ** The theorems *)

(** A root and its parents: trees of depth below [n]. *)
Definition roots (n : nat) (root : Entry) (p1 p2 : option Entry) : Prop :=
  forall e, e = root \/ p1 = Some e \/ p2 = Some e -> get_type e = Tree /\ loads content n (entry_id e).

Definition parents (p1 p2 : option Entry) (i : id) : Prop :=
  exists e, (p1 = Some e \/ p2 = Some e) /\ i = entry_id e.

Lemma holds_parents p1 p2 :
  holds (add_opt_parent (add_opt_parent CompositeEntry_new p1) p2) (parents p1 p2).
Proof.
  assert (forall c S e, holds c S -> holds (add_opt_parent c e) (fun i => (exists x, e = Some x /\ i = entry_id x) \/ S i)) as H.
  { intros c S [e|] Hc; cbn.
    - eapply holds_ext; [|by apply holds_add]. naive_solver.
    - eapply holds_ext; [|exact Hc]. naive_solver. }
  eapply holds_ext; [|apply H, H, holds_new]. unfold parents. naive_solver.
Qed.

Lemma bonsai_diff_ok n root p1 p2 : roots n root p1 p2 ->
  exists l, bonsai_diff content (Datatypes.S n) root p1 p2 = Ok l /\
    exact (Some (entry_id root)) (parents p1 p2) [] proper l.
Proof.
  intros Hr. destruct (Hr root (or_introl eq_refl)) as [Ht Hl].
  assert (w_id (WorkingEntry_new root) = Some (entry_id root)) as Hw.
  { unfold WorkingEntry_new, entry_id. by rewrite Ht. }
  destruct (bonsai_diff_tree_ok n (WorkingEntry_new root) None _ _ (holds_parents p1 p2)) as (l & El & Hex).
  - intros i (e & He & ->). apply (Hr e). naive_solver.
  - rewrite Hw. by intros i [= <-].
  - rewrite Hw. left. intros ft h [= H _]. congruence.
  - exists l. rewrite Hw in Hex. done.
Qed.

Definition is_changed (r : BonsaiDiffResult) : bool := match r with Deleted _ => false | _ => true end.

Lemma result_changed base p k : is_changed (result base p k) = true -> exists ft h, k = KChanged ft h \/ k = KReused ft h.
Proof. destruct k as [ft h|ft h|]; [exists ft, h; by left|exists ft, h; by right|done]. Qed.

Lemma spec_changed W S p k : diff_spec W S p k ->
  match k with KChanged ft h | KReused ft h => work_at W p = Some (File ft, h) | KDeleted => no_file (work_at W p) end.
Proof. by destruct k; intros (? & _). Qed.

Lemma id_at_app i p q : id_at content i (p ++ q) = j ← id_at content i p; id_at content j q.
Proof. revert i. induction p as [|name p IH]; intros i; cbn; [done|].
  destruct (id_child content i name); [apply IH|done]. Qed.

(** Nothing lies below a file. *)
Lemma work_at_above W p name q ft h : work_at W p = Some (File ft, h) -> work_at W (p ++ name :: q) = None.
Proof. destruct W as [i|]; [|done]. cbn. rewrite id_at_app. by intros ->. Qed.

(** A changed path has no result below it. *)
Lemma exact_conflict_free W S P base l r r' : exact W S base P l -> r ∈ l -> r' ∈ l -> is_changed r = true ->
  result_path r <> result_path r' -> ~ elements (result_path r) `prefix_of` elements (result_path r').
Proof.
  intros [_ Hl] Hr Hr' Hc Hne [q Hq]. destruct (proj1 (Hl r) Hr) as (p & k & _ & Hk & ->).
  destruct (proj1 (Hl r') Hr') as (p' & k' & _ & Hk' & ->). rewrite !result_elements, <- app_assoc in Hq.
  apply app_inv_head in Hq as ->. destruct q as [|name q].
  { apply Hne. rewrite app_nil_r. by destruct k, k'. }
  assert (exists ft h, work_at W p = Some (File ft, h)) as (ft & h & Hw).
  { apply spec_changed in Hk. apply result_changed in Hc as (ft & h & [-> | ->]); by exists ft, h. }
  destruct k' as [ft' h'|ft' h'|].
  - apply spec_changed in Hk'. by rewrite (work_at_above _ _ _ _ _ _ Hw) in Hk'.
  - apply spec_changed in Hk'. by rewrite (work_at_above _ _ _ _ _ _ Hw) in Hk'.
  - destruct Hk' as (_ & _ & Hq). by apply (Hq p name q eq_refl ft h).
Qed.

(** [bonsai_diff] ends without an error on manifests that load, whatever
    the order in which its streams give their items, and gives exactly the
    differences: each path once; a file of the new root that is not all that
    the parents have at its path is [ChangedReusedId] when a parent has a file
    with its hash there, [Changed] otherwise; and a file that a parent has and
    the root has not is [Deleted], except below a new file. *)
Theorem bonsai_diff_exact n root p1 p2 : roots n root p1 p2 ->
  exists l, bonsai_diff content (Datatypes.S n) root p1 p2 = Ok l /\
    NoDup (result_path <$> l) /\
    forall r, r ∈ l <-> exists p k,
      p <> [] /\ diff_spec (Some (entry_id root)) (parents p1 p2) p k /\ r = result [] p k.
Proof. intros (l & El & Hn & Hl)%bonsai_diff_ok. by exists l. Qed.

(** The file of a root at a path. *)
Definition file_at (root : Entry) (p : MPath) (x : FileType * HgEntryId) : Prop :=
  id_at content (entry_id root) (elements p) = Some (File x.1, x.2).

(** What the results make of the files of the parents. *)
Definition applied (l : list BonsaiDiffResult) (p1 p2 : option Entry) (p : MPath) (x : FileType * HgEntryId) : Prop :=
  Changed p x.1 x.2 ∈ l \/ ChangedReusedId p x.1 x.2 ∈ l \/
  (p ∉ result_path <$> l /\
   (forall r, r ∈ l -> is_changed r = true -> ~ elements (result_path r) `prefix_of` elements p) /\
   exists e, (p1 = Some e \/ p2 = Some e) /\ file_at e p x).

#[local] Instance result_eq_dec : EqDecision BonsaiDiffResult.
Proof. solve_decision. Defined.

Lemma exact_in W S l p k : exact W S [] proper l -> p <> [] -> result [] p k ∈ l <-> diff_spec W S p k.
Proof.
  intros [_ Hl] Hp. rewrite Hl. split; [|by exists p, k].
  intros (p' & k' & _ & Hk & Heq). by destruct k, k'; cbn in Heq; simplify_eq.
Qed.

Lemma exact_not_in W S l p : exact W S [] proper l -> p <> [] ->
  mkMPath p ∉ result_path <$> l <-> forall k, ~ diff_spec W S p k.
Proof.
  intros Hl Hp. split.
  - intros H k Hk%(exact_in _ _ _ _ _ Hl Hp). apply H, list_elem_of_fmap. exists (result [] p k). by destruct k.
  - intros H (r & Hr & Hin)%list_elem_of_fmap. destruct (proj1 (proj2 Hl r) Hin) as (p' & k & _ & Hk & ->).
    apply (f_equal elements) in Hr. rewrite result_elements in Hr. cbn in Hr. subst p'. by apply (H k).
Qed.

(** A file of the working copy without a result is what the parents have. *)
Lemma file_result W S p ft h : work_at W p = Some (File ft, h) -> ~ only (parents_at S p) (File ft, h) ->
  ~ (~ diff_spec W S p (KChanged ft h) /\ ~ diff_spec W S p (KReused ft h)).
Proof. intros Hw Ho [Hc Hr]. apply Hc. cbn. split_and!; [done..|]. intros Hex. by apply Hr. Qed.

Lemma parents_at_iff p1 p2 p i : parents_at (parents p1 p2) p i <->
  exists e, (p1 = Some e \/ p2 = Some e) /\ id_at content (entry_id e) p = Some i.
Proof. unfold parents, BonsaiDiff.parents_at. naive_solver. Qed.

Lemma parents_at_dec p1 p2 p i : parents_at (parents p1 p2) p i \/ ~ parents_at (parents p1 p2) p i.
Proof.
  assert (forall e, (exists x, e = Some x /\ id_at content (entry_id x) p = Some i) \/
    ~ (exists x, e = Some x /\ id_at content (entry_id x) p = Some i)) as Hdec.
  { intros [e|]; [|right; by intros (? & ? & _)].
    destruct (decide (id_at content (entry_id e) p = Some i)) as [H|H]; [left; by exists e|right; by intros (x & [= <-] & ?)]. }
  rewrite parents_at_iff. destruct (Hdec p1) as [(e & He & Hi)|H1]; [left; exists e; tauto|].
  destruct (Hdec p2) as [(e & He & Hi)|H2]; [left; exists e; tauto|]. right. intros (e & [He|He] & Hi); [apply H1|apply H2]; by exists e.
Qed.

(** A file of a parent has only directories above. *)
Lemma parents_not_only S p name q i ft h : parents_at S (p ++ name :: q) i -> ~ only (parents_at S p) (File ft, h).
Proof.
  intros (j & Hj & Hi) Ho. rewrite id_at_app in Hi. destruct (id_at content j p) as [k|] eqn:Ek; [|done].
  assert (parents_at S p k) as Hk by by exists j. by apply Ho in Hk as ->.
Qed.

(** Where a parent has a file and there is no result, the root has it too. *)
Lemma unchanged_file W S l p ft h : exact W S [] proper l -> no_file W -> p <> [] ->
  (forall k, ~ diff_spec W S p k) ->
  (forall r, r ∈ l -> is_changed r = true -> ~ elements (result_path r) `prefix_of` p) ->
  parents_at S p (File ft, h) -> work_at W p = Some (File ft, h).
Proof.
  intros Hl Hroot Hp Hno Hpre Hpar. apply dec_stable. intros Hne.
  assert (no_file (work_at W p)) as Hnf.
  { intros ft' h' Hw. apply (file_result W S p ft' h' Hw); [|by split; apply Hno].
    intros Ho. apply Ho in Hpar. congruence. }
  apply (Hno KDeleted). split; [done|]. split; [by exists ft, h|]. intros q name r -> ft' h' Hq.
  assert (q <> []) as Hqne by (intros ->; destruct W; [by apply (Hroot ft' h')|done]).
  assert (forall k, is_changed (result [] q k) = true -> ~ diff_spec W S q k) as Hnq.
  { intros k Hk Hs%(exact_in _ _ _ _ _ Hl Hqne). apply (Hpre _ Hs Hk). rewrite result_elements. by exists (name :: r). }
  apply (file_result W S q ft' h' Hq); [by eapply parents_not_only|by split; apply Hnq].
Qed.

Lemma exact_applied root p1 p2 l p x : exact (Some (entry_id root)) (parents p1 p2) [] proper l ->
  get_type root = Tree -> elements p <> [] -> file_at root p x <-> applied l p1 p2 p x.
Proof.
  destruct p as [p], x as [ft h]. intros Hl Ht Hp. unfold file_at, applied. cbn [elements fst snd] in *.
  pose proof (exact_in _ _ _ p (KChanged ft h) Hl Hp) as Hc. pose proof (exact_in _ _ _ p (KReused ft h) Hl Hp) as Hr.
  cbn [result app] in Hc, Hr. rewrite Hc, Hr, (exact_not_in _ _ _ _ Hl Hp). split.
  - intros Hw. destruct (decide (Changed (mkMPath p) ft h ∈ l)) as [Hi|Hi]; [left; by apply Hc|right].
    destruct (decide (ChangedReusedId (mkMPath p) ft h ∈ l)) as [Hi'|Hi']; [left; by apply Hr|right].
    rewrite Hc in Hi. rewrite Hr in Hi'.
    assert (forall k, ~ diff_spec (Some (entry_id root)) (parents p1 p2) p k) as Hno.
    { intros k Hk. pose proof (spec_changed _ _ _ _ Hk) as Hwk. cbn [work_at] in Hwk.
      destruct k as [ft' h'|ft' h'|]; [|  |by apply (Hwk ft h)]; cbn in Hwk; rewrite Hw in Hwk; by simplify_eq. }
    split; [done|]. split.
    + intros r Hin Hch [q Hq]. destruct (proj1 (proj2 Hl r) Hin) as (p' & k & Hp' & Hk & ->).
      rewrite result_elements in Hq. cbn in Hq. subst p. destruct q as [|name q]; [rewrite app_nil_r in *; by apply (Hno k)|].
      apply result_changed in Hch as (ft' & h' & Hch). apply spec_changed in Hk.
      assert (work_at (Some (entry_id root)) p' = Some (File ft', h')) as Hk' by by destruct Hch as [-> | ->].
      pose proof (work_at_above _ _ name q _ _ Hk') as Hab. cbn in Hab. congruence.
    + apply parents_at_iff. destruct (parents_at_dec p1 p2 p (File ft, h)) as [H|H]; [done|].
      exfalso. apply (file_result (Some (entry_id root)) (parents p1 p2) p ft h Hw); [intros Ho; by apply H, Ho|done].
  - intros [Hk|[Hk|(Hno & Hpre & Hpar%parents_at_iff)]]; [by apply spec_changed in Hk..|].
    apply (unchanged_file (Some (entry_id root)) (parents p1 p2) l p ft h Hl); try done.
    intros ft' h' [= H _]. congruence.
Qed.

Lemma exact_check_pcf W S l : exact W S [] proper l ->
  check_pcf (btree_collect ((fun r => (result_path r, is_changed r)) <$> l)) = Ok tt.
Proof.
  intros Hl. apply (check_pcf_from_spec _ None); [apply btree_collect_wf|done|]. split; [done|].
  assert (forall x, x ∈ btree_collect ((fun r => (result_path r, is_changed r)) <$> l) ->
    exists r, r ∈ l /\ x = (result_path r, is_changed r)) as Hin.
  { intros x Hx%btree_collect_elem. apply list_elem_of_fmap in Hx as (r & -> & Hr). by exists r. }
  intros p q c (r & Hr & [= -> Hc])%Hin (r' & Hr' & [= -> _])%Hin Hne. by eapply exact_conflict_free.
Qed.

(** C6. The results are a bonsai changeset for the root: put in the map of
    file changes they pass [check_pcf], and applied to the files of the
    parents they give the files of the root, no more and no less. *)
Theorem bonsai_diff_applies n root p1 p2 l : roots n root p1 p2 ->
  bonsai_diff content (Datatypes.S n) root p1 p2 = Ok l ->
  check_pcf (btree_collect ((fun r => (result_path r, is_changed r)) <$> l)) = Ok tt /\
  forall p x, elements p <> [] -> file_at root p x <-> applied l p1 p2 p x.
Proof.
  intros Hr. destruct (bonsai_diff_ok n root p1 p2 Hr) as (l' & -> & Hl). intros [= <-].
  split; [by eapply exact_check_pcf|]. intros p x. apply (exact_applied root p1 p2 l' p x Hl).
  by apply (Hr root (or_introl eq_refl)).
Qed.
End exact.

(** ** Example *)

Module Example.
#[local] Open Scope string_scope.
#[local] Open Scope list_scope.
#[local] Instance concat_interleave : Interleave := {| interleave A := @concat A |}.
#[local] Instance concat_interleave_laws : InterleaveLaws concat_interleave.
Proof. by split. Qed.

Definition hash (b : byte) : HgEntryId := mkNode (mkSha1 [b]).
Definition name (s : String.string) : MPathElement := mkElem (bstr s).
Definition file (s : String.string) (ft : FileType) (b : byte) : MPathElement * Entry :=
  (name s, mkEntry (Some (name s)) (File ft) (hash b)).
Definition dir (s : String.string) (b : byte) : MPathElement * Entry :=
  (name s, mkEntry (Some (name s)) Tree (hash b)).
Definition path (l : list String.string) : MPath := mkMPath (name <$> l).

Definition manifests : list (HgEntryId * list (MPathElement * Entry)) :=
  [ (hash xa0, [file "a" Regular x01; file "b" Regular x02; dir "d" xa1; file "g" Regular x04; dir "k" xa2]);
    (hash xa1, [file "x" Regular x05; file "y" Regular x06]);
    (hash xa2, [file "z" Regular x07]);
    (hash xb0, [file "a" Regular x01; file "b" Executable x02; dir "d" xb1; dir "g" xb2; file "k" Regular x08]);
    (hash xb1, [file "x" Regular x09]);
    (hash xb2, [file "q" Regular x0a]) ].

Definition content (h : HgEntryId) : outcome unit Manifest :=
  match list_find (fun x => x.1 = h) manifests with
  | Some (_, (_, l)) => Ok l.*2
  | None => Err tt
  end.

Definition parent : Entry := mkEntry None Tree (hash xa0).
Definition root : Entry := mkEntry None Tree (hash xb0).
Definition path_a : MPath := path ["a"].
Definition path_g : MPath := path ["g"].
Definition results : list BonsaiDiffResult :=
  [ ChangedReusedId (path ["b"]) Executable (hash x02);
    Changed (path ["d"; "x"]) Regular (hash x09);
    Deleted (path ["d"; "y"]);
    Deleted (path ["g"]);
    Changed (path ["g"; "q"]) Regular (hash x0a);
    Changed (path ["k"]) Regular (hash x08) ].

Lemma example_diff : bonsai_diff content 3 root (Some parent) None = Ok results.
Proof. vm_compute. reflexivity. Qed.

Lemma example_good : Forall (fun x => good_manifest x.2.*2) manifests.
Proof.
  assert (forall l, bool_decide (btree_wf l) && forallb (fun x => bool_decide (named x.1 x.2) && nonempty_elem x.1) l = true ->
    good_manifest l.*2) as H.
  { intros l [Hs%bool_decide_eq_true Hn]%andb_true_iff. exists l. split; [done|]. split; [done|].
    apply Forall_forall. intros x Hx%list_elem_of_In. rewrite forallb_forall in Hn.
    specialize (Hn x Hx). rewrite andb_true_iff in Hn. by rewrite bool_decide_eq_true in Hn. }
  repeat (constructor; [apply H; vm_compute; reflexivity|]). constructor.
Qed.

Definition children (h : HgEntryId) : option (list id) :=
  x ← list_find (fun x => x.1 = h) manifests; Some (entry_id <$> x.2.2.*2).

Lemma loads_dir n h ids : children h = Some ids -> Forall (loads content n) ids -> loads content (S n) (Tree, h).
Proof.
  unfold children. destruct (list_find (fun x => x.1 = h) manifests) as [[i [h' l]]|] eqn:Ef; [|done]. intros [= <-] Hl.
  exists l.*2. unfold content. rewrite Ef. split; [done|].
  apply list_find_Some in Ef as (Hi%list_elem_of_lookup_2 & _). pose proof example_good as Hg.
  rewrite Forall_forall in Hg. split; [exact (Hg _ Hi)|]. rewrite Forall_fmap in Hl; exact Hl.
Qed.

Ltac load :=
  repeat constructor; try (eapply loads_dir; [vm_compute; reflexivity|load]).

Lemma example_roots : roots content 2 root (Some parent) None.
Proof. intros e [->|[[= <-]|[=]]]; (split; [reflexivity|]); load. Qed.

Lemma example_file : file_at content root (path ["d"; "x"]) (Regular, hash x09).
Proof. vm_compute. reflexivity. Qed.
End Example.

Lemma bonsai_diff_exact_witness :
  diff_spec Example.content (Some (entry_id Example.root)) (parents (Some Example.parent) None)
    (elements Example.path_g) KDeleted.
Proof.
  destruct (bonsai_diff_exact (IL := Example.concat_interleave) (HIL := Example.concat_interleave_laws) Example.content 2 Example.root (Some Example.parent) None Example.example_roots)
    as (l & Hl & _ & H).
  rewrite Example.example_diff in Hl. injection Hl as <-.
  destruct (proj1 (H (Deleted (Example.path_g))) ltac:(do 3 right; left)) as (p & k & _ & Hk & Heq).
  destruct k; [discriminate|discriminate|]. injection Heq as <-. exact Hk.
Defined.

Lemma bonsai_diff_applies_witness :
  applied Example.content Example.results (Some Example.parent) None Example.path_a (Regular, Example.hash x01).
Proof.
  destruct (bonsai_diff_applies (IL := Example.concat_interleave) (HIL := Example.concat_interleave_laws) Example.content 2 Example.root (Some Example.parent) None _ Example.example_roots Example.example_diff)
    as [_ H].
  apply (H Example.path_a (Regular, Example.hash x01)); [discriminate|vm_compute; reflexivity].
Defined.
