(* ===== verification/ManifestDiff.v ===== *)
(** * Comparison of two manifests

    Model of [mercurial_types/src/manifest_utils.rs]: the entries that differ
    between two Mercurial manifests, as a stream that goes down into the
    directories that differ, with pruners that cut it. The directories are
    compared concurrently: what is still to be done is a list, and a schedule
    chooses what is done next. *)

From stdpp Require Import list.
From S2P Require Import Prelude Ord Path Hash Bonsai BonsaiDiff.

(** ** Changed entries *)

Definition is_tree (t : Type_) : bool := bool_decide (t = Tree).

Inductive EntryStatus :=
| Added (entry : Entry)
| Deleted (entry : Entry)
| Modified (to_entry from_entry : Entry).

Definition status_is_tree (s : EntryStatus) : bool :=
  match s with Added entry | Deleted entry | Modified entry _ => is_tree (get_type entry) end.
Definition status_is_file (s : EntryStatus) : bool := negb (status_is_tree s).

Record ChangedEntry := mkChanged { dirname : option MPath; status : EntryStatus }.

Definition new_added (dirname : option MPath) (entry : Entry) : ChangedEntry := mkChanged dirname (Added entry).
Definition new_deleted (dirname : option MPath) (entry : Entry) : ChangedEntry := mkChanged dirname (Deleted entry).
Definition new_modified (dirname : option MPath) (to_entry from_entry : Entry) : ChangedEntry :=
  mkChanged dirname (Modified to_entry from_entry).

Definition get_full_path (c : ChangedEntry) : option MPath :=
  match status c with
  | Added entry | Deleted entry | Modified entry _ => join_element_opt (dirname c) (get_name entry)
  end.

(** ** One directory *)

(** [Option]'s order: nothing is less than a name. *)
Definition opt_cmp (a b : option MPathElement) : comparison :=
  match a, b with
  | None, None => Eq
  | None, Some _ => Lt
  | Some _, None => Gt
  | Some a, Some b => cmp a b
  end.

(** Two entries with one name. *)
Definition diff_same_name (path : option MPath) (to_entry from_entry : Entry) : list ChangedEntry :=
  if Bool.eqb (is_tree (get_type to_entry)) (is_tree (get_type from_entry)) then
    if bool_decide (get_hash to_entry = get_hash from_entry) && bool_decide (get_type to_entry = get_type from_entry) then []
    else [new_modified path to_entry from_entry]
  else [new_added path to_entry; new_deleted path from_entry].

Fixpoint diff_sorted_vecs (path : option MPath) (to : list Entry) : list Entry -> list ChangedEntry :=
  match to with
  | [] => fmap (new_deleted path)
  | to_entry :: to' =>
      fix diff from :=
        match from with
        | [] => new_added path to_entry :: (new_added path <$> to')
        | from_entry :: from' =>
            match opt_cmp (get_name to_entry) (get_name from_entry) with
            | Lt => new_added path to_entry :: diff_sorted_vecs path to' from
            | Gt => new_deleted path from_entry :: diff from'
            | Eq => diff_same_name path to_entry from_entry ++ diff_sorted_vecs path to' from'
            end
        end
  end.

Definition diff_manifests (path : option MPath) (to from : Manifest) : list ChangedEntry := diff_sorted_vecs path to from.

(** ** Pruners

    The clones of a pruner share its state. *)

Class Pruner (P : Type) := keep : P -> ChangedEntry -> P * bool.

Inductive NoopPruner := Noop.
#[export] Instance NoopPruner_keep : Pruner NoopPruner := fun p _ => (p, true).

Inductive FilePruner := NoFiles.
#[export] Instance FilePruner_keep : Pruner FilePruner := fun p entry => (p, status_is_tree (status entry)).

Inductive DeletedPruner := NoDeleted.
#[export] Instance DeletedPruner_keep : Pruner DeletedPruner := fun p entry =>
  (p, match status entry with Deleted _ => false | _ => true end).

(** The set of visited paths and hashes. *)
Record VisitedPruner := mkVisited { visited : list (option MPath * HgNodeHash) }.

Definition visited_key (entry : ChangedEntry) : option MPath * HgNodeHash :=
  let key e := (join_opt (dirname entry) (option_list (get_name e)), get_hash e) in
  match status entry with Added e | Deleted e | Modified e _ => key e end.

#[export] Instance VisitedPruner_keep : Pruner VisitedPruner := fun p entry =>
  if bool_decide (visited_key entry ∈ visited p) then (p, false) else (mkVisited (visited_key entry :: visited p), true).

Record CombinatorPruner (A B : Type) := mkCombinator { pruner_a : A; pruner_b : B }.
Arguments mkCombinator {A B}.
Arguments pruner_a {A B}.
Arguments pruner_b {A B}.

(** The second is asked when the first keeps the entry. *)
#[export] Instance CombinatorPruner_keep {A B} `{Pruner A} `{Pruner B} : Pruner (CombinatorPruner A B) := fun p entry =>
  let '(a, kept) := keep (pruner_a p) entry in
  if kept then let '(b, kept) := keep (pruner_b p) entry in (mkCombinator a b, kept)
  else (mkCombinator a (pruner_b p), false).

(** [filter] with a pruner. *)
Fixpoint prune {P} `{Pruner P} (p : P) (l : list ChangedEntry) : P * list ChangedEntry :=
  match l with
  | [] => (p, [])
  | entry :: l =>
      let '(p, kept) := keep p entry in
      let '(p, l) := prune p l in
      (p, if kept then entry :: l else l)
  end.

(** ** The streams *)

Section streams.
Context {E : Type} (content : HgEntryId -> outcome E Manifest).

(** [get_content] and [get_tree_content] of an entry that is a tree. *)
Definition get_tree_content (entry : Entry) : outcome E Manifest :=
  match get_type entry with Tree => content (get_hash entry) | File _ => Panic end.

(** The manifests below a changed tree. *)
Definition to_manifest (s : EntryStatus) : outcome E Manifest :=
  match s with Added entry => get_tree_content entry | Deleted _ => Ok [] | Modified to_entry _ => get_tree_content to_entry end.
Definition from_manifest (s : EntryStatus) : outcome E Manifest :=
  match s with Added _ => Ok [] | Deleted entry => get_tree_content entry | Modified _ from_entry => get_tree_content from_entry end.

(** The differences right below a changed tree. *)
Definition compare_below (c : ChangedEntry) : outcome E (list ChangedEntry) :=
  to_mf ← to_manifest (status c);
  from_mf ← from_manifest (status c);
  Ok (diff_manifests (get_full_path c) to_mf from_mf).

Definition goes_down (max_depth : option nat) (depth : nat) (c : ChangedEntry) : bool :=
  status_is_tree (status c) && negb (match max_depth with Some m => Nat.leb m depth | None => false end).

(** What a stream still does: the comparison of two manifests, giving an
    entry, and the comparison below it. *)
Inductive task :=
| Start (path : option MPath) (to from : Manifest)
| Give (c : ChangedEntry) (depth : nat)
| Below (c : ChangedEntry) (depth : nat).

Section walk.
Context {P : Type} `{Pruner P} (max_depth : option nat).

Record walk := mkWalk { pruner : P; todo : list task; given : list ChangedEntry }.

(** One task, among others that stay to be done; the entries of a comparison
    are filtered and go among the tasks. *)
Definition run_task (t : task) (rest : list task) (w : walk) : outcome E walk :=
  match t with
  | Start path to from =>
      if bool_decide (max_depth = Some 0) then Ok (mkWalk (pruner w) rest (given w))
      else
        let '(p, l) := prune (pruner w) (diff_manifests path to from) in
        Ok (mkWalk p (((fun c => Give c 1) <$> l) ++ rest) (given w))
  | Give c depth => Ok (mkWalk (pruner w) (if goes_down max_depth depth c then Below c depth :: rest else rest) (given w ++ [c]))
  | Below c depth =>
      diff ← compare_below c;
      let '(p, l) := prune (pruner w) diff in
      Ok (mkWalk p (((fun c => Give c (S depth)) <$> l) ++ rest) (given w))
  end.

(** The schedule chooses the task of each turn; [n] bounds the turns. *)
Fixpoint run_walk (n turn : nat) (schedule : nat -> nat) (w : walk) : option (outcome E walk) :=
  match todo w with
  | [] => Some (Ok w)
  | t :: l =>
      match n with
      | 0 => None
      | S n =>
          let i := schedule turn mod S (length l) in
          match run_task (default t ((t :: l) !! i)) (take i (t :: l) ++ drop (S i) (t :: l)) w with
          | Ok w => run_walk n (S turn) schedule w
          | Err e => Some (Err e)
          | Panic => Some Panic
          end
      end
  end.
End walk.
(** What a stream that ends gives, mapped. *)
Definition map_stream {A B} (f : A -> B) (r : option (outcome E A)) : option (outcome E B) :=
  match r with Some (Ok a) => Some (Ok (f a)) | Some (Err e) => Some (Err e) | Some Panic => Some Panic | None => None end.

Definition changed_entry_stream_with_pruner {P} `{Pruner P} (n : nat) (schedule : nat -> nat) (to from : Manifest) (path : option MPath)
    (pruner : P) (max_depth : option nat) : option (outcome E (list ChangedEntry)) :=
  map_stream given (run_walk max_depth n 0 schedule (mkWalk pruner [Start path to from] [])).

Definition changed_entry_stream (n : nat) (schedule : nat -> nat) (to from : Manifest) (path : option MPath) : option (outcome E (list ChangedEntry)) :=
  changed_entry_stream_with_pruner n schedule to from path Noop None.

Definition changed_file_stream (n : nat) (schedule : nat -> nat) (to from : Manifest) (path : option MPath) : option (outcome E (list ChangedEntry)) :=
  map_stream (List.filter (fun c => negb (status_is_tree (status c)))) (changed_entry_stream_with_pruner n schedule to from path Noop None).

(** *** Entries that are new for all parents *)

Record NewEntry := mkNew { ne_dirname : option MPath; ne_entry : Entry }.

Definition from_changed_entry (ce : ChangedEntry) : option NewEntry :=
  match status ce with
  | Deleted _ => None
  | Added entry | Modified entry _ => Some (mkNew (dirname ce) entry)
  end.

(** Equality and hash look at the directory alone. *)
Definition NewEntry_eq (a b : NewEntry) : bool := bool_decide (ne_dirname a = ne_dirname b).
Definition into_tuple (ne : NewEntry) : option MPath * Entry := (ne_dirname ne, ne_entry ne).

Definition new_entries (n : nat) (schedule : nat -> nat) (root from : Manifest) : option (outcome E (list NewEntry)) :=
  map_stream (omap from_changed_entry) (changed_entry_stream n schedule root from None).

(** The entries compared with the second parent are collected first. *)
Definition new_entry_intersection_stream (n : nat) (schedule schedule2 : nat -> nat) (root : Manifest) (p1 p2 : option Manifest)
    : option (outcome E (list (option MPath * Entry))) :=
  match p1, p2 with
  | Some p1, Some p2 =>
      match new_entries n schedule2 root p2 with
      | Some (Ok p2) => map_stream (fun p1 => into_tuple <$> List.filter (fun ne => existsb (NewEntry_eq ne) p2) p1) (new_entries n schedule root p1)
      | Some (Err e) => Some (Err e)
      | Some Panic => Some Panic
      | None => None
      end
  | Some p, None | None, Some p => map_stream (fmap into_tuple) (new_entries n schedule root p)
  | None, None => map_stream (fmap into_tuple) (new_entries n schedule root [])
  end.

(** *** All entries below one *)

Context {IL : Interleave}.

(** [n] bounds the depth of the trees. *)
Fixpoint recursive_entry_stream (n : nat) (rootpath : option MPath) (entry : Entry) : outcome E (list (option MPath * Entry)) :=
  match n with
  | 0 => Panic
  | S n =>
      subentries ← match get_type entry with
                   | File _ => Ok []
                   | Tree =>
                       let path := join_opt rootpath (option_list (get_name entry)) in
                       mf ← get_tree_content entry;
                       streams ← collect (recursive_entry_stream n path) mf;
                       Ok (interleave streams)
                   end;
      Ok ((rootpath, entry) :: subentries)
  end.
End streams.
Arguments walk P : clear implicits.

(** ** What differs

    An entry on either side is identified as in [BonsaiDiff]. *)

Definition ids : Type := option id * option id.
Definition status_ids (s : EntryStatus) : ids :=
  match s with
  | Added e => (Some (entry_id e), None)
  | Deleted e => (None, Some (entry_id e))
  | Modified e f => (Some (entry_id e), Some (entry_id f))
  end.

(** Path and entries of a change. *)
Definition view (c : ChangedEntry) : option MPath * ids := (get_full_path c, status_ids (status c)).

(** What is said of a path with the entries [W] and [F]: a file that replaces a
    directory, or the other way round, is two changes. *)
Definition differs (W F : option id) : list ids :=
  match W, F with
  | None, None => []
  | None, Some _ | Some _, None => [(W, F)]
  | Some i, Some j =>
      if Bool.eqb (is_tree i.1) (is_tree j.1) then if bool_decide (i = j) then [] else [(W, F)]
      else [(W, None); (None, F)]
  end.

Lemma differs_same W : differs W W = [].
Proof. destruct W as [i|]; [|done]. cbn. rewrite Bool.eqb_reflx. by rewrite bool_decide_true by done. Qed.

(** A change is one entry, or two of one kind that are not the same. *)
Definition proper (W F : option id) : Prop := differs W F = [(W, F)].

Lemma differs_proper W F W' F' : (W', F') ∈ differs W F -> proper W' F' /\ (W' = W \/ W' = None) /\ (F' = F \/ F' = None).
Proof.
  unfold proper. destruct W as [i|], F as [j|]; cbn; [|intros [= -> ->]%list_elem_of_singleton; auto|intros [= -> ->]%list_elem_of_singleton; auto|by intros ?%elem_of_nil].
  destruct (Bool.eqb (is_tree i.1) (is_tree j.1)) eqn:Ek.
  - case_bool_decide as Eij; [by intros ?%elem_of_nil|]. intros [= -> ->]%list_elem_of_singleton. cbn. rewrite Ek, bool_decide_false by done. auto.
  - intros [[= -> ->]|[= -> ->]%list_elem_of_singleton]%elem_of_cons; cbn; auto.
Qed.

(** *** One directory *)

Definition pair_changes (path : option MPath) (x : EitherOrBoth (MPathElement * Entry) (MPathElement * Entry)) : list ChangedEntry :=
  match x with
  | Left (_, e) => [new_added path e]
  | Right (_, e) => [new_deleted path e]
  | Both (_, e) (_, f) => diff_same_name path e f
  end.

Definition pair_ids (x : EitherOrBoth (MPathElement * Entry) (MPathElement * Entry)) : ids :=
  match x with
  | Left (_, e) => (Some (entry_id e), None)
  | Right (_, e) => (None, Some (entry_id e))
  | Both (_, e) (_, f) => (Some (entry_id e), Some (entry_id f))
  end.

(** The entries of a good manifest. *)
Record entries_ok (l : list (MPathElement * Entry)) : Prop := {
  eo_sorted : btree_wf l;
  eo_named : Forall (fun x => named x.1 x.2 /\ nonempty_elem x.1 = true) l;
}.

Lemma entries_ok_cons x l : entries_ok (x :: l) -> entries_ok l /\ get_name x.2 = Some x.1.
Proof. intros [[Hs _]%StronglySorted_inv [[Hx _] Hl]%Forall_cons]. done. Qed.

Lemma diff_step path t to f from : diff_sorted_vecs path (t :: to) (f :: from) =
  match opt_cmp (get_name t) (get_name f) with
  | Lt => new_added path t :: diff_sorted_vecs path to (f :: from)
  | Gt => new_deleted path f :: diff_sorted_vecs path (t :: to) from
  | Eq => diff_same_name path t f ++ diff_sorted_vecs path to from
  end.
Proof. reflexivity. Qed.

Lemma diff_sorted_join path l : forall k, entries_ok l -> entries_ok k ->
  diff_sorted_vecs path l.*2 k.*2 = merge_join (fun x y => cmp x.1 y.1) l k ≫= pair_changes path.
Proof.
  assert (forall (f : Entry -> ChangedEntry) (g : MPathElement * Entry -> EitherOrBoth (MPathElement * Entry) (MPathElement * Entry)) l,
    (forall x, pair_changes path (g x) = [f x.2]) -> f <$> l.*2 = (g <$> l) ≫= pair_changes path) as Hone.
  { intros f g m Hg. induction m as [|x m IH]; [done|]. cbn. rewrite Hg, IH. done. }
  induction l as [|[n e] l IHl]; intros k Hl Hk; [cbn [diff_sorted_vecs fmap list_fmap merge_join]; apply Hone; by intros []|].
  apply entries_ok_cons in Hl as [Hl He]. cbn in He. induction k as [|[n' e'] k IHk].
  - cbn [fmap list_fmap merge_join diff_sorted_vecs]. cbn. f_equal. apply Hone. by intros [].
  - pose proof Hk as Hk0. apply entries_ok_cons in Hk as [Hk He']. cbn in He'. rewrite join_step. cbn [fmap list_fmap fst snd].
    rewrite diff_step, He, He'. cbn [opt_cmp].
    destruct (cmp n n'); cbn [mbind list_bind]; [f_equal; by apply IHl|cbn [pair_changes app]; f_equal; by apply (IHl ((n', e') :: k))|].
    cbn [pair_changes app]. f_equal. by apply IHk.
Qed.

Lemma is_tree_eq e f : get_hash e = get_hash f /\ get_type e = get_type f <-> entry_id e = entry_id f.
Proof. unfold entry_id. split; [intros [-> ->]; done|by intros [= -> ->]]. Qed.

(** The changes of a pair are under its name. *)
Lemma pair_changes_ok path x : (status_ids ∘ status <$> pair_changes path x) = differs (pair_ids x).1 (pair_ids x).2 /\
  forall c, c ∈ pair_changes path x -> dirname c = path /\
    forall name, (forall n e, x = Left (n, e) \/ x = Right (n, e) -> get_name e = Some name) ->
      (forall n e n' f, x = Both (n, e) (n', f) -> get_name e = Some name /\ get_name f = Some name) ->
      get_full_path c = join_element_opt path (Some name).
Proof.
  destruct x as [[n e]|[n e]|[n e] [n' f]]; cbn [pair_changes pair_ids fst snd].
  - split; [done|]. intros c ->%list_elem_of_singleton. split; [done|]. intros name H _. unfold get_full_path. cbn [status new_added dirname]. rewrite (H n e); auto.
  - split; [done|]. intros c ->%list_elem_of_singleton. split; [done|]. intros name H _. unfold get_full_path. cbn [status new_deleted dirname]. rewrite (H n e); auto.
  - unfold diff_same_name. cbn [differs]. unfold entry_id at 1 2. cbn [fst]. destruct (Bool.eqb _ _).
    + pose proof (is_tree_eq e f) as Heq. destruct (decide (entry_id e = entry_id f)) as [Ei|Ei].
      * destruct (proj2 Heq Ei) as [H1 H2]. rewrite (bool_decide_true _ H1), (bool_decide_true _ H2), (bool_decide_true _ Ei). split; [done|]. by intros c ?%elem_of_nil.
      * assert (bool_decide (get_hash e = get_hash f) && bool_decide (get_type e = get_type f) = false) as ->.
        { apply andb_false_iff. rewrite !bool_decide_eq_false. destruct (decide (get_hash e = get_hash f)); [|by left]. right. intros ?. apply Ei. by apply Heq. }
        rewrite (bool_decide_false _ Ei). split; [done|]. intros c ->%list_elem_of_singleton. split; [done|]. intros name _ H. unfold get_full_path. cbn.
        by rewrite (proj1 (H _ _ _ _ eq_refl)).
    + split; [done|]. intros c [->| ->%list_elem_of_singleton]%elem_of_cons; (split; [done|]); intros name _ H; unfold get_full_path; cbn;
        [by rewrite (proj1 (H _ _ _ _ eq_refl))|by rewrite (proj2 (H _ _ _ _ eq_refl))].
Qed.

(** *** All changes below one *)

Section exact.
Context {E : Type} (content : HgEntryId -> outcome E Manifest) (max_depth : option nat).
Abbreviation work_at := (work_at content).
Abbreviation work_below := (work_below content).

(** What the streams give, one directory after the other. *)
Fixpoint subtree (n depth : nat) (c : ChangedEntry) : list ChangedEntry :=
  c :: (if goes_down max_depth depth c then
          match n, compare_below content c with
          | S n, Ok l => l ≫= subtree n (S depth)
          | _, _ => []
          end
        else []).

Definition within (depth : nat) : Prop := match max_depth with Some m => depth <= m | None => True end.

Definition owloads (n : nat) (W : option id) : Prop := forall i, W = Some i -> loads content n i.

(** The changes of [l] are those of [S] below [base], once each. *)
Definition exact_changes (base : list MPathElement) (S : list MPathElement -> ids -> Prop) (l : list ChangedEntry) : Prop :=
  NoDup (view <$> l) /\ forall v, v ∈ view <$> l <-> exists p x, S p x /\ v = (Some (mkMPath (base ++ p)), x).

Lemma exact_changes_ext base S S' l : (forall p x, S p x <-> S' p x) -> exact_changes base S l -> exact_changes base S' l.
Proof. intros HS [Hn Hl]. split; [done|]. intros v. rewrite Hl. by setoid_rewrite HS. Qed.

Lemma exact_changes_nil base S : (forall p x, ~ S p x) -> exact_changes base S [].
Proof. intros H. split; [constructor|]. intros v. split; [by intros ?%elem_of_nil|]. intros (p & x & Hs & _). by destruct (H p x). Qed.

Lemma exact_changes_app base S1 S2 l1 l2 : exact_changes base S1 l1 -> exact_changes base S2 l2 -> (forall p x, S1 p x -> S2 p x -> False) ->
  exact_changes base (fun p x => S1 p x \/ S2 p x) (l1 ++ l2).
Proof.
  intros [Hn1 Hl1] [Hn2 Hl2] Hd. split.
  - rewrite fmap_app, NoDup_app. split; [done|]. split; [|done]. intros v (p & x & Hs & ->)%Hl1 (p' & x' & Hs' & [= Hp ->])%Hl2.
    apply app_inv_head in Hp as <-. by apply (Hd p x').
  - intros v. rewrite fmap_app, elem_of_app, Hl1, Hl2. naive_solver.
Qed.

(** The changes under the names of a directory. *)
Lemma exact_changes_concat {X} (key : X -> MPathElement) base (S : list MPathElement -> ids -> Prop) xs (f : X -> list ChangedEntry) :
  StronglySorted (fun x y => ord_lt (key x) (key y)) xs ->
  (forall x, x ∈ xs -> exact_changes (base ++ [key x]) (fun p => S (key x :: p)) (f x)) ->
  (forall x, ~ S [] x) -> (forall name p x, S (name :: p) x -> exists y, y ∈ xs /\ key y = name) ->
  exact_changes base S (xs ≫= f).
Proof.
  intros Hs Hx Hnil Hall. split.
  - clear Hall. revert Hx. induction Hs as [|x xs Hs IH Hlt]; intros Hx; [constructor|]. cbn [mbind list_bind]. rewrite fmap_app, NoDup_app.
    pose proof (Hx x ltac:(by left)) as [Hn Hl]. split; [done|]. split; [|apply IH; intros y Hy; apply Hx; by right].
    intros v (p & i & _ & ->)%Hl Hin. apply list_elem_of_fmap in Hin as (c & Hc & (y & Hcy & Hy)%list_elem_of_bind).
    assert (view c ∈ view <$> f y) as (p' & i' & _ & Hp)%(proj2 (Hx y ltac:(by right))) by (by apply list_elem_of_fmap_2).
    rewrite <- Hc in Hp. injection Hp as Hp _. rewrite <- !app_assoc in Hp. apply app_inv_head in Hp. injection Hp as Hk _.
    rewrite Forall_forall in Hlt. apply Hlt in Hy. rewrite Hk in Hy. by apply ord_irr in Hy.
  - intros v. split.
    + intros (c & -> & (y & Hcy & Hy)%list_elem_of_bind)%list_elem_of_fmap.
      assert (view c ∈ view <$> f y) as (p & i & HS & Hv)%(proj2 (Hx y Hy)) by (by apply list_elem_of_fmap_2).
      exists (key y :: p), i. split; [done|]. by rewrite Hv, <- app_assoc.
    + intros ([|name p] & i & HS & ->); [by destruct (Hnil i)|]. destruct (Hall name p i HS) as (y & Hy & <-).
      assert ((Some (mkMPath (base ++ key y :: p)), i) ∈ view <$> f y) as (c & Hc & Hin)%list_elem_of_fmap.
      { apply (Hx y Hy). exists p, i. split; [done|]. by rewrite <- app_assoc. }
      rewrite Hc. apply list_elem_of_fmap_2, list_elem_of_bind. by exists y.
Qed.

(** The spec of a change: what differs at a path below it. *)
Definition change_spec (depth : nat) (W F : option id) (p : list MPathElement) (x : ids) : Prop :=
  x ∈ differs (work_at W p) (work_at F p) /\ within (depth + length p).

Lemma work_at_nil W : work_at W [] = W.
Proof. by destruct W. Qed.

Lemma work_at_none p : work_at None p = None.
Proof. done. Qed.

Lemma work_at_file ft h name p : work_at (Some (File ft, h)) (name :: p) = None.
Proof. done. Qed.

(** Where a file meets a directory, each has its own changes. *)
Lemma differs_kinds i j p : is_tree i.1 <> is_tree j.1 -> forall x,
  x ∈ differs (work_at (Some i) p) (work_at (Some j) p) <-> x ∈ differs (work_at (Some i) p) None \/ x ∈ differs None (work_at (Some j) p).
Proof.
  intros Hk x. destruct p as [|name p].
  - rewrite !work_at_nil. cbn [differs]. destruct (Bool.eqb (is_tree i.1) (is_tree j.1)) eqn:Ek; [by apply Bool.eqb_prop in Ek|]. set_solver.
  - destruct i as [[ft|] h], j as [[ft'|] h']; [done| | |done]; rewrite work_at_file; destruct (work_at _ _); cbn [differs]; set_solver.
Qed.

Lemma differs_side W x : (x ∈ differs W None -> x.2 = None /\ x.1 = W /\ x.1 <> None) /\ (x ∈ differs None W -> x.1 = None /\ x.2 = W /\ x.2 <> None).
Proof. destruct W; cbn; split; (intros H; first [by apply elem_of_nil in H|by apply list_elem_of_singleton in H as ->]). Qed.

Definition directory (path : option MPath) (to from : list (MPathElement * Entry)) : list ChangedEntry := diff_manifests path to.*2 from.*2.

Definition entry_under (l : list (MPathElement * Entry)) (name : MPathElement) : option id := entry_id <$> btree_get name l.

Lemma pair_entries to from x : entries_ok to -> entries_ok from -> joined to from x ->
  pair_ids x = (entry_under to (pair_key x), entry_under from (pair_key x)) /\ nonempty_elem (pair_key x) = true /\
  (forall n e, x = Left (n, e) \/ x = Right (n, e) -> get_name e = Some (pair_key x)) /\
  (forall n e n' f, x = Both (n, e) (n', f) -> get_name e = Some (pair_key x) /\ get_name f = Some (pair_key x)).
Proof.
  intros [Hts Htn] [Hfs Hfn] Hx. rewrite Forall_forall in Htn, Hfn. unfold entry_under.
  assert (forall (l : list (MPathElement * Entry)) name, btree_wf l -> (forall b, b ∈ l -> b.1 <> name) -> btree_get name l = None) as Hnone.
  { intros l name Hs H. destruct (btree_get name l) as [e|] eqn:Ee; [|done]. apply (btree_get_elem _ _ _ Hs) in Ee. by destruct (H _ Ee). }
  destruct x as [[n e]|[n e]|[n e] [n' f]]; cbn [joined pair_key pair_ids] in *.
  - destruct Hx as [Hx Hno]. destruct (Htn _ Hx) as [Hn Hne]. apply (btree_get_elem _ _ _ Hts) in Hx. rewrite Hx, (Hnone from n Hfs Hno). split; [done|]. split; [done|]. split.
    + intros ? ? [[= <- <-]|?]; done.
    + done.
  - destruct Hx as [Hx Hno]. destruct (Hfn _ Hx) as [Hn Hne]. apply (btree_get_elem _ _ _ Hfs) in Hx. rewrite Hx, (Hnone to n Hts Hno). split; [done|]. split; [done|]. split.
    + intros ? ? [?|[= <- <-]]; done.
    + done.
  - destruct Hx as (Hx & Hy & Heq). cbn in Heq. subst n'. destruct (Htn _ Hx) as [Hn Hne]. destruct (Hfn _ Hy) as [Hn' _].
    apply (btree_get_elem _ _ _ Hts) in Hx. apply (btree_get_elem _ _ _ Hfs) in Hy. rewrite Hx, Hy. split; [done|]. split; [done|]. split.
    + by intros ? ? [?|?].
    + intros ? ? ? ? [= <- <- <- <-]. done.
Qed.

Lemma join_under to from name : entries_ok to -> entries_ok from -> is_Some (entry_under to name) \/ is_Some (entry_under from name) ->
  exists x, joined to from x /\ pair_key x = name.
Proof.
  intros [Hts _] [Hfs _] H. unfold entry_under in H.
  destruct (btree_get name to) as [e|] eqn:Ee; destruct (btree_get name from) as [f|] eqn:Ef; rewrite ?(btree_get_elem _ _ _ Hts), ?(btree_get_elem _ _ _ Hfs) in *.
  - by exists (Both (name, e) (name, f)).
  - exists (Left (name, e)). split; [|done]. split; [done|]. intros [n b] Hb Heq. cbn in Heq. subst n. apply (btree_get_elem _ _ _ Hfs) in Hb. congruence.
  - exists (Right (name, f)). split; [|done]. split; [done|]. intros [n b] Hb Heq. cbn in Heq. subst n. apply (btree_get_elem _ _ _ Hts) in Hb. congruence.
  - by destruct H as [[? [=]]|[? [=]]].
Qed.

(** A change that is well-formed: at a path, of entries that differ and load. *)
Record change_ok (n depth : nat) (c : ChangedEntry) (base : list MPathElement) : Prop := {
  ck_path : get_full_path c = Some (mkMPath base);
  ck_proper : proper (status_ids (status c)).1 (status_ids (status c)).2;
  ck_to : owloads n (status_ids (status c)).1;
  ck_from : owloads n (status_ids (status c)).2;
  ck_within : within depth;
}.

Lemma join_element_path path name : nonempty_elem name = true -> join_element_opt path (Some name) = Some (mkMPath (iter_opt path ++ [name])).
Proof. intros Hne. unfold join_element_opt, join_opt. destruct path as [q|]; cbn [List.filter iter_opt app]; [unfold MPath_join; cbn [List.filter]|]; by rewrite Hne. Qed.

(** The changes of a directory are well-formed, one for each difference. *)
Lemma pair_ok n depth path to from x c : entries_ok to -> entries_ok from -> within depth ->
  (forall name, owloads n (entry_under to name) /\ owloads n (entry_under from name)) -> joined to from x -> c ∈ pair_changes path x ->
  change_ok n depth c (iter_opt path ++ [pair_key x]) /\ status_ids (status c) ∈ differs (entry_under to (pair_key x)) (entry_under from (pair_key x)).
Proof.
  intros Ht Hf Hw Hl Hx Hc. destruct (pair_entries to from x Ht Hf Hx) as (Hids & Hne & H1 & H2). destruct (pair_changes_ok path x) as [Hd Hp].
  assert (status_ids (status c) ∈ differs (entry_under to (pair_key x)) (entry_under from (pair_key x))) as Hin.
  { rewrite Hids in Hd. cbn [fst snd] in Hd. rewrite <- Hd. by apply (list_elem_of_fmap_2 (status_ids ∘ status)). }
  destruct (Hp c Hc) as [_ Hpath]. specialize (Hpath _ H1 H2). split; [|done].
  destruct (status_ids (status c)) as [W F] eqn:Eids. destruct (differs_proper _ _ _ _ Hin) as (Hpr & HW & HF).
  destruct (Hl (pair_key x)) as [Hlt Hlf]. split; rewrite ?Eids; cbn [fst snd]; [|done| | |done].
  - by rewrite Hpath, join_element_path.
  - destruct HW as [->| ->]; [done|]. by intros ? [=].
  - destruct HF as [->| ->]; [done|]. by intros ? [=].
Qed.

Lemma directory_ok n depth path to from : entries_ok to -> entries_ok from -> within depth ->
  (forall name, owloads n (entry_under to name) /\ owloads n (entry_under from name)) ->
  (forall c, c ∈ directory path to from -> exists name, change_ok n depth c (iter_opt path ++ [name]) /\
    status_ids (status c) ∈ differs (entry_under to name) (entry_under from name)) /\
  forall name x, x ∈ differs (entry_under to name) (entry_under from name) ->
    exists c, c ∈ directory path to from /\ change_ok n depth c (iter_opt path ++ [name]) /\ status_ids (status c) = x.
Proof.
  intros Ht Hf Hw Hl. unfold directory, diff_manifests. rewrite (diff_sorted_join path to from Ht Hf).
  pose proof (join_ok to from (eo_sorted _ Ht) (eo_sorted _ Hf)) as [Hj _]. split.
  - intros c (x & Hc & Hx%Hj)%list_elem_of_bind. exists (pair_key x). by apply pair_ok.
  - intros name x Hx. destruct (join_under to from name Ht Hf) as (y & Hy & <-).
    { destruct (entry_under to name), (entry_under from name); [by left; eexists|by left; eexists|by right; eexists|by apply elem_of_nil in Hx]. }
    destruct (pair_entries to from y Ht Hf Hy) as (Hids & _). destruct (pair_changes_ok path y) as [Hd _]. rewrite Hids in Hd. cbn [fst snd] in Hd.
    rewrite <- Hd in Hx. apply list_elem_of_fmap in Hx as (c & -> & Hc). exists c. split; [apply list_elem_of_bind; exists y; split; [done|by apply Hj]|].
    split; [by apply (pair_ok n depth path to from y c)|done].
Qed.

(** The manifest of a tree, or no manifest. *)
Lemma manifest_entries n W : owloads (S n) W -> (forall ft h, W <> Some (File ft, h)) ->
  exists l, match W with Some i => content i.2 | None => Ok [] end = Ok l.*2 /\ entries_ok l /\
    forall name, entry_under l name = work_below W name /\ owloads n (work_below W name).
Proof.
  intros Hl Hk. destruct W as [[[ft|] h]|]; [by destruct (Hk ft h)| |].
  - destruct (Hl _ eq_refl) as (mf & Hmf & (l & -> & Hs & Hnm) & Hall). exists l. split; [done|]. split; [by split|]. intros name.
    assert (entry_under l name = work_below (Some (Tree, h)) name) as Hu by (symmetry; by apply (id_child_get content h _ l name Hmf eq_refl)). split; [done|].
    intros i Hi. change (work_below (Some (Tree, h)) name = Some i) in Hi. rewrite <- Hu in Hi. unfold entry_under in Hi. destruct (btree_get name l) as [e|] eqn:Ee; [|done]. injection Hi as <-.
    rewrite Forall_forall in Hall. apply Hall. apply (btree_get_elem _ _ _ Hs) in Ee. by apply (list_elem_of_fmap_2 snd) in Ee.
  - exists []. split; [done|]. split; [split; constructor|]. intros name. split; [done|]. by intros ? [=].
Qed.

Lemma proper_kinds i j : proper (Some i) (Some j) -> is_tree i.1 = is_tree j.1.
Proof. unfold proper. cbn. destruct (Bool.eqb _ _) eqn:Ek; [intros _; by apply Bool.eqb_prop|done]. Qed.

(** The comparison below a changed tree. *)
Lemma compare_ok n depth c base : change_ok (S n) depth c base -> status_is_tree (status c) = true ->
  let '(W, F) := status_ids (status c) in
  exists to from, compare_below content c = Ok (directory (Some (mkMPath base)) to from) /\ entries_ok to /\ entries_ok from /\
    forall name, entry_under to name = work_below W name /\ entry_under from name = work_below F name /\
      owloads n (work_below W name) /\ owloads n (work_below F name).
Proof.
  intros [Hp Hpr Ht Hf _] Htree. destruct (status_ids (status c)) as [W F] eqn:Eids. cbn [fst snd] in *.
  assert (forall i, W = Some i \/ F = Some i -> i.1 = Tree) as Hk.
  { assert (forall e, is_tree (get_type e) = true -> (entry_id e).1 = Tree) as He by (intros e ?%bool_decide_eq_true; done).
    destruct (status c) as [e|e|e f]; cbn in Eids, Htree; injection Eids as <- <-; intros i Hi.
    - destruct Hi as [[= <-]|[=]]. by apply He.
    - destruct Hi as [[=]|[= <-]]. by apply He.
    - pose proof (proper_kinds _ _ Hpr) as Hkind. cbn in Hkind. destruct Hi as [[= <-]|[= <-]]; [by apply He|]. apply He. by rewrite <- Hkind. }
  destruct (manifest_entries n W Ht) as (to & Eto & Hto & HW); [intros ft h ->; by specialize (Hk _ (or_introl eq_refl))|].
  destruct (manifest_entries n F Hf) as (from & Efrom & Hfrom & HF); [intros ft h ->; by specialize (Hk _ (or_intror eq_refl))|].
  exists to, from. split; [|split; [done|split; [done|]]].
  - assert (forall e, Some (entry_id e) = W \/ Some (entry_id e) = F -> get_tree_content content e = content (get_hash e)) as Hg.
    { intros e He. unfold get_tree_content. assert (get_type e = Tree) as -> by (apply (Hk (entry_id e)); naive_solver). done. }
    unfold compare_below, directory. rewrite Hp. destruct (status c) as [e|e|e f]; cbn in Eids; injection Eids as <- <-; cbn [to_manifest from_manifest].
    + rewrite Hg by auto. cbn in Eto. rewrite Eto, !bind_Ok. injection Efrom as Efrom. by rewrite <- Efrom.
    + rewrite Hg by auto. cbn in Efrom. injection Eto as Eto. rewrite bind_Ok, Efrom, bind_Ok. by rewrite <- Eto.
    + rewrite !Hg by auto. cbn in Eto, Efrom. by rewrite Eto, bind_Ok, Efrom, bind_Ok.
  - intros name. destruct (HW name), (HF name). done.
Qed.

(** *** Exactness *)

Lemma within_S depth k : within (depth + S k) <-> within (S depth + k).
Proof. unfold within. destruct max_depth; [lia|done]. Qed.

Lemma within_le d d' : d <= d' -> within d' -> within d.
Proof. unfold within. destruct max_depth; [lia|done]. Qed.

Lemma spec_below depth W F name p x : change_spec depth W F (name :: p) x <-> change_spec (S depth) (work_below W name) (work_below F name) p x.
Proof. unfold change_spec. cbn [length]. rewrite within_S, !work_at_cons. done. Qed.

(** What a pair of a directory gives, with all below. *)
Lemma pair_exact n depth base A B cs : (forall c, change_ok n depth c base ->
    exact_changes base (change_spec depth (status_ids (status c)).1 (status_ids (status c)).2) (subtree n depth c)) ->
  (status_ids ∘ status <$> cs) = differs A B -> (forall c, c ∈ cs -> change_ok n depth c base) ->
  exact_changes base (change_spec depth A B) (cs ≫= subtree n depth).
Proof.
  intros IH Hids Hok.
  assert (forall c, c ∈ cs -> exact_changes base (change_spec depth (status_ids (status c)).1 (status_ids (status c)).2) (subtree n depth c)) as Hc.
  { intros c Hin. by apply IH, Hok. }
  destruct cs as [|c [|c' [|c2 cs]]]; cbn [fmap list_fmap] in Hids; cbn [mbind list_bind]; rewrite ?app_nil_r.
  - apply exact_changes_nil. intros p x [Hx _]. destruct A as [i|], B as [j|]; [|done|done|by apply elem_of_nil in Hx]. cbn [differs] in Hids.
    destruct (Bool.eqb _ _); [|done]. case_bool_decide as Eij; [|done]. subst j. rewrite differs_same in Hx. by apply elem_of_nil in Hx.
  - specialize (Hc c ltac:(by left)). assert (status_ids (status c) = (A, B)) as Hs.
    { destruct A as [i|], B as [j|]; cbn [differs] in Hids; [|by injection Hids|by injection Hids|done].
      destruct (Bool.eqb _ _); [|done]. case_bool_decide; [done|]. by injection Hids. }
    by rewrite Hs in Hc.
  - pose proof (Hc c ltac:(by left)) as Hc1. pose proof (Hc c' ltac:(by right; left)) as Hc2.
    destruct A as [i|], B as [j|]; cbn [differs] in Hids; [|done..]. destruct (Bool.eqb (is_tree i.1) (is_tree j.1)) eqn:Ek; [by case_bool_decide|].
    injection Hids as H1 H2. rewrite H1 in Hc1. rewrite H2 in Hc2. cbn [fst snd] in Hc1, Hc2. apply Bool.eqb_false_iff in Ek.
    eapply exact_changes_ext; [|apply (exact_changes_app _ _ _ _ _ Hc1 Hc2)].
    + intros p x. unfold change_spec. rewrite (differs_kinds i j p Ek x), work_at_none. tauto.
    + intros p x [Hx1 _] [Hx2 _]. rewrite work_at_none in Hx1, Hx2. apply differs_side in Hx1 as (? & ? & ?). apply differs_side in Hx2 as (? & ? & ?). congruence.
  - exfalso. destruct A as [i|], B as [j|]; cbn [differs] in Hids; [|done..]. destruct (Bool.eqb _ _); [case_bool_decide|]; done.
Qed.

(** The changes of a directory with all below, against the entries under its
    names. *)
Lemma directory_exact n depth path to from W F : (forall c base, change_ok n (S depth) c base ->
    exact_changes base (change_spec (S depth) (status_ids (status c)).1 (status_ids (status c)).2) (subtree n (S depth) c)) ->
  entries_ok to -> entries_ok from -> within (S depth) ->
  (forall name, entry_under to name = work_below W name /\ entry_under from name = work_below F name /\
    owloads n (work_below W name) /\ owloads n (work_below F name)) ->
  exact_changes (iter_opt path) (fun p x => p <> [] /\ change_spec depth W F p x) (directory path to from ≫= subtree n (S depth)).
Proof.
  intros IH Ht Hf Hw Hn. unfold directory, diff_manifests. rewrite (diff_sorted_join path to from Ht Hf).
  assert (forall l : list (EitherOrBoth (MPathElement * Entry) (MPathElement * Entry)),
    (l ≫= pair_changes path) ≫= subtree n (S depth) = l ≫= (fun x => pair_changes path x ≫= subtree n (S depth))) as ->.
  { induction l as [|x l IHl]; [done|]. cbn [mbind list_bind]. rewrite bind_app. f_equal. exact IHl. }
  pose proof (join_ok to from (eo_sorted _ Ht) (eo_sorted _ Hf)) as [Hj Hsort].
  assert (forall name, owloads n (entry_under to name) /\ owloads n (entry_under from name)) as Hl.
  { intros name. destruct (Hn name) as (-> & -> & ?). done. }
  apply (exact_changes_concat pair_key); [exact Hsort| |by intros x [? _]|].
  - intros x Hx%Hj. destruct (pair_entries to from x Ht Hf Hx) as (Hids & _). destruct (pair_changes_ok path x) as [Hd _]. rewrite Hids in Hd. cbn [fst snd] in Hd.
    destruct (Hn (pair_key x)) as (EW & EF & _).
    eapply exact_changes_ext; [|apply (pair_exact n (S depth) _ _ _ _ (fun c => IH c _) Hd)].
    + intros p y. rewrite EW, EF, spec_below. naive_solver.
    + intros c Hc. by apply (pair_ok n (S depth) path to from x c).
  - intros name p x [_ [Hx _]]. rewrite !work_at_cons in Hx. destruct (Hn name) as (EW & EF & _). rewrite <- EW, <- EF in Hx.
    destruct (join_under to from name Ht Hf) as (y & Hy & Hk); [|exists y; split; [by apply Hj|done]].
    destruct (entry_under to name); [by left; eexists|]. destruct (entry_under from name); [by right; eexists|].
    rewrite work_at_none, differs_same in Hx. by apply elem_of_nil in Hx.
Qed.

(** Nothing is given below where the stream does not go down. *)
Lemma stops_here n depth c base p x : change_ok n depth c base -> goes_down max_depth depth c = false ->
  change_spec depth (status_ids (status c)).1 (status_ids (status c)).2 p x <-> p = [] /\ x = status_ids (status c).
Proof.
  intros [_ Hpr _ _ Hw] Hg. destruct (status_ids (status c)) as [W F] eqn:Eids. cbn [fst snd] in *. unfold change_spec. split.
  - intros [Hx Hwi]. destruct p as [|name p]; [rewrite !work_at_nil, Hpr in Hx; by apply list_elem_of_singleton in Hx|]. exfalso.
    unfold goes_down in Hg. apply andb_false_iff in Hg as [Hg|Hg].
    + assert (forall e, status_is_tree (status c) = false -> is_tree (get_type e) = false -> exists ft, entry_id e = (File ft, get_hash e)) as He.
      { intros e _ Hft. unfold entry_id. destruct (get_type e) as [ft|]; [by exists ft|done]. }
      destruct (status c) as [e|e|e f]; cbn [status_ids] in Eids; cbn [status_is_tree] in Hg; injection Eids as <- <-.
      * destruct (He e Hg Hg) as [ft Ee]. rewrite Ee, work_at_file, work_at_none in Hx. by apply elem_of_nil in Hx.
      * destruct (He e Hg Hg) as [ft Ee]. rewrite Ee, work_at_file, work_at_none in Hx. by apply elem_of_nil in Hx.
      * pose proof (proper_kinds _ _ Hpr) as Hkind. cbn in Hkind. destruct (He e Hg Hg) as [ft Ee]. destruct (He f Hg) as [ft' Ef]; [congruence|].
        rewrite Ee, Ef, !work_at_file in Hx. by apply elem_of_nil in Hx.
    + unfold within in *. destruct max_depth as [m|]; [|done]. apply negb_false_iff, Nat.leb_le in Hg. cbn [length] in Hwi. lia.
  - intros [-> ->]. rewrite !work_at_nil, Hpr. split; [by left|]. cbn [length]. by rewrite Nat.add_0_r.
Qed.

Lemma down_within depth c : goes_down max_depth depth c = true -> status_is_tree (status c) = true /\ within (S depth).
Proof.
  intros [Ht Hd]%andb_true_iff. split; [done|]. unfold within. destruct max_depth; [|done]. apply negb_true_iff, Nat.leb_gt in Hd. lia.
Qed.

Lemma tree_id c : status_is_tree (status c) = true -> exists h, (status_ids (status c)).1 = Some (Tree, h) \/ (status_ids (status c)).2 = Some (Tree, h).
Proof.
  destruct (status c) as [e|e|e f]; cbn; unfold entry_id; intros ->%bool_decide_eq_true; exists (get_hash e); [by left|by right|by left].
Qed.

(** The reference gives exactly what differs. *)
Lemma subtree_exact n : forall depth c base, change_ok n depth c base ->
  exact_changes base (change_spec depth (status_ids (status c)).1 (status_ids (status c)).2) (subtree n depth c).
Proof.
  induction n as [|n IH]; intros depth c base Hok; cbn [subtree]; destruct (goes_down max_depth depth c) eqn:Eg.
  2,4: (eapply exact_changes_ext; [intros p x; symmetry; by eapply stops_here|]; split; [cbn; apply NoDup_singleton|];
    intros v; cbn; rewrite list_elem_of_singleton; unfold view; rewrite (ck_path _ _ _ _ Hok); split;
    [intros ->; exists [], (status_ids (status c)); by rewrite app_nil_r|intros (p & x & [-> ->] & ->); by rewrite app_nil_r]).
  - apply down_within in Eg as [(h & [Hh|Hh])%tree_id _]; [destruct (ck_to _ _ _ _ Hok _ Hh)|destruct (ck_from _ _ _ _ Hok _ Hh)].
  - apply down_within in Eg as [Ht Hw]. pose proof (compare_ok n depth c base Hok Ht) as Hc. destruct (status_ids (status c)) as [W F] eqn:Eids.
    destruct Hc as (to & from & -> & Hto & Hfrom & Hn). cbn [fst snd].
    destruct (directory_exact n depth (Some (mkMPath base)) to from W F (IH (S depth)) Hto Hfrom Hw Hn) as [Hnd Hin]. cbn [iter_opt elements] in Hin.
    assert (view c = (Some (mkMPath base), (W, F))) as Hv by (unfold view; by rewrite (ck_path _ _ _ _ Hok), Eids).
    pose proof (ck_proper _ _ _ _ Hok) as Hpr. rewrite Eids in Hpr. cbn [fst snd] in Hpr. split.
    + cbn [fmap list_fmap]. constructor; [|done]. rewrite Hv, Hin. intros (p & x & [Hp _] & [= Hb _]). rewrite <- (app_nil_r base) in Hb at 1. by apply app_inv_head in Hb as <-.
    + intros v. cbn [fmap list_fmap]. rewrite elem_of_cons, Hin, Hv. split.
      * intros [->|(p & x & [_ ?] & ->)]; [|by exists p, x]. exists [], (W, F). rewrite app_nil_r. split; [|done]. split; [rewrite !work_at_nil, Hpr; by left|].
        cbn [length]. rewrite Nat.add_0_r. by apply (ck_within _ _ _ _ Hok).
      * intros (p & x & Hx & ->). destruct p as [|name p]; [left|right; by exists (name :: p), x].
        destruct Hx as [Hx _]. rewrite !work_at_nil, Hpr in Hx. apply list_elem_of_singleton in Hx as ->. by rewrite app_nil_r.
Qed.

Lemma list_bind_ext_in {A B} (f g : A -> list B) (l : list A) : (forall x, x ∈ l -> f x = g x) -> l ≫= f = l ≫= g.
Proof. induction l as [|x l IH]; intros H; [done|]. cbn. rewrite (H x) by (by left). f_equal. apply IH. intros y Hy. apply H. by right. Qed.

(** More fuel than the trees are deep changes nothing. *)
Lemma loads_mono n : forall n' i, n <= n' -> loads content n i -> loads content n' i.
Proof.
  induction n as [|n IH]; intros n' [[ft|] h] Hle Hl; [by destruct n'|done|by destruct n'|].
  destruct n' as [|n']; [lia|]. destruct Hl as (mf & Hmf & Hg & Hl). exists mf. split; [done|]. split; [done|].
  eapply Forall_impl; [exact Hl|]. intros e. apply IH. lia.
Qed.

Lemma change_ok_mono n n' depth c base : n <= n' -> change_ok n depth c base -> change_ok n' depth c base.
Proof. intros Hle [H1 H2 H3 H4 H5]. split; [done|done| | |done]; intros i Hi; eapply loads_mono; eauto. Qed.

Lemma subtree_stable n : forall n' depth c base, n <= n' -> change_ok n depth c base -> subtree n' depth c = subtree n depth c.
Proof.
  induction n as [|n IH]; intros n' depth c base Hle Hok.
  - destruct (goes_down max_depth depth c) eqn:Eg; [|destruct n'; [done|]; cbn [subtree]; by rewrite Eg].
    apply down_within in Eg as [(h & [Hh|Hh])%tree_id _]; [destruct (ck_to _ _ _ _ Hok _ Hh)|destruct (ck_from _ _ _ _ Hok _ Hh)].
  - destruct n' as [|n']; [lia|]. cbn [subtree]. destruct (goes_down max_depth depth c) eqn:Eg; [|done]. apply down_within in Eg as [Ht Hw].
    pose proof (compare_ok n depth c base Hok Ht) as Hc. destruct (status_ids (status c)) as [W F].
    destruct Hc as (to & from & -> & Hto & Hfrom & Hn). f_equal. apply list_bind_ext_in. intros c' Hin.
    destruct (directory_ok n (S depth) (Some (mkMPath base)) to from Hto Hfrom Hw) as [Hd _].
    { intros name. destruct (Hn name) as (-> & -> & ?). done. }
    destruct (Hd c' Hin) as (name & Hok' & _). eapply IH; [lia|exact Hok'].
Qed.
End exact.
