(* ===== verification/ManifestWalk.v ===== *)
(** * The walk over what differs

    The streams of [ManifestDiff] end whatever the schedule and the pruner,
    and give nothing but changes, each once; what a pruner refuses is all that
    is missing. *)

From stdpp Require Import list.
From S2P Require Import Prelude Ord Path Hash Bonsai BonsaiDiff ManifestDiff.

(** ** What a pruner refuses

    [pinv p l] relates the state of a pruner to the entries it has kept;
    [refuses l c] says why it would not keep [c] next to those. *)

Class PrunerLaws (P : Type) `{Pruner P} (pinv : P -> list ChangedEntry -> Prop) (refuses : list ChangedEntry -> ChangedEntry -> Prop) : Prop := {
  pinv_perm p l l' : l ≡ₚ l' -> pinv p l -> pinv p l';
  keep_true p l c p' : pinv p l -> keep p c = (p', true) -> pinv p' (c :: l);
  keep_false p l c p' : pinv p l -> keep p c = (p', false) -> pinv p' l /\ refuses l c;
  refuses_mono l l' c : l ⊆ l' -> refuses l c -> refuses l' c
}.

(** A pruner without a state that looks at each entry alone. *)
Class PurePruner (P : Type) `{Pruner P} (keeps : ChangedEntry -> bool) : Prop := pure_keep p c : keep p c = (p, keeps c).

#[export] Instance NoopPruner_pure : PurePruner NoopPruner (fun _ => true).
Proof. done. Qed.
#[export] Instance FilePruner_pure : PurePruner FilePruner (fun c => status_is_tree (status c)).
Proof. done. Qed.
#[export] Instance DeletedPruner_pure : PurePruner DeletedPruner (fun c => match status c with Deleted _ => false | _ => true end).
Proof. done. Qed.
#[export] Instance CombinatorPruner_pure {A B} `{PurePruner A f} `{PurePruner B g} : PurePruner (CombinatorPruner A B) (fun c => f c && g c).
Proof.
  intros [a b] c. unfold keep at 1, CombinatorPruner_keep. cbn [pruner_a pruner_b]. rewrite (pure_keep a c). destruct (f c); [|done].
  rewrite (pure_keep b c). done.
Qed.

(** What it keeps passes. *)
#[export] Instance PurePruner_laws {P} `{PP : PurePruner P f} : PrunerLaws P (fun _ l => Forall (fun c => f c = true) l) (fun _ c => f c = false).
Proof.
  split; [by intros p l l' ->| | |done]; intros p l c p' Hl; rewrite (pure_keep p c); intros [= <- Hf]; [by constructor|done].
Qed.

#[export] Instance VisitedPruner_laws : PrunerLaws VisitedPruner
  (fun p l => (forall k, k ∈ visited p <-> k ∈ visited_key <$> l) /\ NoDup (visited_key <$> l)) (fun l c => visited_key c ∈ visited_key <$> l).
Proof.
  split.
  - intros p l l' Hp [Hv Hn]. split; [intros k; by rewrite Hv, Hp|by rewrite <- Hp].
  - intros p l c p' [Hv Hn]. unfold keep, VisitedPruner_keep. case_bool_decide as Hin; [done|]. intros [= <-]. split.
    + intros k. cbn. rewrite !elem_of_cons, Hv. done.
    + cbn. constructor; [by rewrite <- Hv|done].
  - intros p l c p' [Hv Hn]. unfold keep, VisitedPruner_keep. case_bool_decide as Hin; [|done]. intros [= <-]. split; [done|by apply Hv].
  - intros l l' c Hl (c' & -> & Hin)%list_elem_of_fmap. apply list_elem_of_fmap. exists c'. split; [done|by apply Hl].
Qed.

(** A stateless pruner before another. *)
#[export] Instance CombinatorPruner_laws {A B} `{PurePruner A f} `{PrunerLaws B pinv refuses} :
  PrunerLaws (CombinatorPruner A B) (fun p l => pinv (pruner_b p) l /\ Forall (fun c => f c = true) l) (fun l c => f c = false \/ refuses l c).
Proof.
  split.
  - intros p l l' Hp [Hi Hf]. split; [by apply (pinv_perm _ _ _ Hp)|by rewrite <- Hp].
  - intros p l c p' [Hi Hf]. unfold keep at 1, CombinatorPruner_keep. rewrite (pure_keep (pruner_a p) c). destruct (f c) eqn:Ef; [|done].
    destruct (keep (pruner_b p) c) as [b [|]] eqn:Eb; [|done]. intros [= <-]. cbn [pruner_b]. split; [by eapply keep_true|by constructor].
  - intros p l c p' [Hi Hf]. unfold keep at 1, CombinatorPruner_keep. rewrite (pure_keep (pruner_a p) c). destruct (f c) eqn:Ef.
    + destruct (keep (pruner_b p) c) as [b [|]] eqn:Eb; [done|]. intros [= <-]. cbn [pruner_b]. destruct (keep_false _ _ _ _ Hi Eb). auto.
    + intros [= <-]. cbn [pruner_b]. auto.
  - intros l l' c Hl [?|Hr]; [by left|right; by eapply refuses_mono].
Qed.

Section prune.
Context {P : Type} `{PL : PrunerLaws P pinv refuses}.

Lemma prune_ok l : forall p k p' l', prune p l = (p', l') -> pinv p k ->
  pinv p' (l' ++ k) /\ l' `sublist_of` l /\ forall c, c ∈ l -> c ∈ l' \/ refuses (l' ++ k) c.
Proof.
  induction l as [|c l IH]; intros p k p' l'; cbn [prune]; [intros [= <- <-] Hi; split; [done|]; split; [done|]; by intros c ?%elem_of_nil|].
  destruct (keep p c) as [p1 b] eqn:Ek. destruct (prune p1 l) as [p2 l2] eqn:El. intros [= <- <-] Hi. destruct b.
  - destruct (IH _ (c :: k) _ _ El) as (Hi2 & Hs & Hc); [by eapply keep_true|].
    assert (l2 ++ c :: k ≡ₚ (c :: l2) ++ k) as Hp by by rewrite <- Permutation_middle.
    split; [by apply (pinv_perm _ _ _ Hp)|]. split; [by constructor|]. intros c' [->|Hin]%elem_of_cons; [left; by left|].
    destruct (Hc c' Hin) as [?|Hr]; [left; by right|right]. eapply refuses_mono; [|exact Hr]. intros x. by rewrite Hp.
  - destruct (keep_false _ _ _ _ Hi Ek) as [Hi1 Hr]. destruct (IH _ k _ _ El Hi1) as (Hi2 & Hs & Hc). split; [done|]. split; [by constructor|].
    intros c' [->|Hin]%elem_of_cons; [right|by apply Hc]. eapply refuses_mono; [|exact Hr]. intros x Hx. apply elem_of_app. by right.
Qed.
End prune.

(** ** The walk *)

Section walk.
Context {E : Type} (content : HgEntryId -> outcome E Manifest) {P : Type} `{PL : PrunerLaws P pinv refuses}
  (max_depth : option nat) (path : option MPath) (N : nat).
Hypothesis (first_level : within max_depth 1).

Abbreviation subtree := (subtree content max_depth N).

(** A change at its depth below the root. *)
Definition placed (n depth : nat) (c : ChangedEntry) : Prop :=
  exists base, change_ok content max_depth n depth c (iter_opt path ++ base) /\ length base = depth.

Definition roots_ok (to from : Manifest) : Prop := exists l k, to = l.*2 /\ from = k.*2 /\ entries_ok l /\ entries_ok k /\
  forall name, owloads content N (entry_under l name) /\ owloads content N (entry_under k name).

Definition task_ok (t : task) : Prop :=
  match t with
  | Start p to from => p = path /\ roots_ok to from
  | Give c depth => placed N depth c
  | Below c depth => placed N depth c /\ goes_down max_depth depth c = true
  end.

(** What a task would give without a pruner. *)
Definition rest_of (t : task) : list ChangedEntry :=
  match t with
  | Start p to from => diff_manifests p to from ≫= subtree 1
  | Give c depth => subtree depth c
  | Below c depth => tail (subtree depth c)
  end.

Definition cost (t : task) : nat :=
  match t with Give c depth => 2 * length (rest_of t) | t => 2 * length (rest_of t) + 1 end.

Definition task_gives (t : task) : option ChangedEntry := match t with Give c _ => Some c | _ => None end.

(** The entries that a pruner has kept so far. *)
Definition kept (w : walk P) : list ChangedEntry := given w ++ omap task_gives (todo w).

Definition answered (w : walk P) (l : list ChangedEntry) : Prop := forall c, c ∈ l -> c ∈ kept w \/ refuses (kept w) c.

Record walk_ok (starts : list (Manifest * Manifest)) (full : list ChangedEntry) (w : walk P) : Prop := {
  wo_tasks : Forall task_ok (todo w);
  wo_full : given w ++ (todo w ≫= rest_of) ⊆+ full;
  wo_pruner : pinv (pruner w) (kept w);
  wo_given : Forall (fun c => exists depth, placed N depth c) (given w);
  wo_starts : forall to from, (to, from) ∈ starts -> Start path to from ∈ todo w \/ answered w (diff_manifests path to from);
  wo_below : forall c depth, c ∈ given w -> placed N depth c -> goes_down max_depth depth c = true ->
    Below c depth ∈ todo w \/ exists l, compare_below content c = Ok l /\ answered w l
}.

Lemma answered_mono w w' l : kept w ⊆ kept w' -> answered w l -> answered w' l.
Proof using PL. intros Hk Ha c Hc. destruct (Ha c Hc) as [?|?]; [left; by apply Hk|right; by eapply refuses_mono]. Qed.

Lemma placed_depth n n' d d' c : placed n d c -> placed n' d' c -> d = d'.
Proof.
  intros (b & Hc & <-) (b' & Hc' & <-). pose proof (ck_path _ _ _ _ _ _ Hc) as H1. rewrite (ck_path _ _ _ _ _ _ Hc') in H1.
  injection H1 as H1. by apply app_inv_head in H1 as ->.
Qed.

(** The order of the tasks does not matter. *)
Lemma walk_ok_perm starts full p l l' g : l ≡ₚ l' -> walk_ok starts full (mkWalk p l g) -> walk_ok starts full (mkWalk p l' g).
Proof using PL.
  intros Hp [H1 H2 H3 H4 H5 H6]. cbn [todo given pruner] in *.
  assert (kept (mkWalk p l g) ≡ₚ kept (mkWalk p l' g)) as Hk by (unfold kept; cbn [todo given]; by rewrite Hp).
  split; cbn [todo given pruner].
  - by rewrite <- Hp.
  - by rewrite <- Hp.
  - by apply (pinv_perm _ _ _ Hk).
  - done.
  - intros to from Hin. destruct (H5 to from Hin) as [?|?]; [left; by rewrite <- Hp|right]. eapply answered_mono; [|done]. intros x. by rewrite Hk.
  - intros c d Hc Hpl Hg. destruct (H6 c d Hc Hpl Hg) as [?|(m & ? & ?)]; [left; by rewrite <- Hp|right]. exists m. split; [done|].
    eapply answered_mono; [|done]. intros x. by rewrite Hk.
Qed.

Lemma sublist_bind {A B} (f : A -> list B) l l' : l' `sublist_of` l -> l' ≫= f `sublist_of` l ≫= f.
Proof. induction 1; cbn; [done|by apply sublist_app|by apply sublist_inserts_l]. Qed.

Lemma bind_give d (l : list ChangedEntry) : (((fun c => Give c d) <$> l) ≫= rest_of) = l ≫= subtree d.
Proof. induction l as [|c l IH]; [done|]. cbn. by rewrite <- IH. Qed.

Lemma omap_give d (l : list ChangedEntry) : omap task_gives ((fun c => Give c d) <$> l) = l.
Proof. induction l as [|c l IH]; [done|]. cbn. by rewrite IH. Qed.

Lemma costs_give d (l : list ChangedEntry) : sum_list_with cost ((fun c => Give c d) <$> l) = 2 * length (l ≫= subtree d).
Proof.
  induction l as [|c l IH]; [done|]. change (cost (Give c d) + sum_list_with cost ((fun c => Give c d) <$> l) = 2 * length (subtree d c ++ (l ≫= subtree d))).
  rewrite IH, length_app. cbn [cost rest_of]. lia.
Qed.

(** A comparison: its entries, as far as they are kept, become tasks. *)
Lemma compared starts full t rest w d l p' l' : walk_ok starts full w -> todo w = t :: rest -> task_gives t = None ->
  rest_of t = l ≫= subtree (S d) -> Forall (placed N (S d)) l -> prune (pruner w) l = (p', l') ->
  (forall to from, (to, from) ∈ starts -> t = Start path to from -> l = diff_manifests path to from) ->
  (forall c depth, t = Below c depth -> compare_below content c = Ok l) ->
  let w' := mkWalk p' (((fun c => Give c (S d)) <$> l') ++ rest) (given w) in
  walk_ok starts full w' /\ sum_list_with cost (todo w') <= 2 * length (rest_of t) + sum_list_with cost rest.
Proof using PL.
  intros [H1 H2 H3 H4 H5 H6] Ht Hnone Hrest Hl Hprune Hstart Hbelow w'. rewrite Ht in *.
  destruct (prune_ok l _ _ _ _ Hprune H3) as (Hi & Hs & Ha).
  assert (kept w = given w ++ omap task_gives rest) as Ek.
  { unfold kept. rewrite Ht. cbn. by rewrite Hnone. }
  assert (l' ++ kept w ≡ₚ kept w') as Hk.
  { rewrite Ek. unfold kept, w'. cbn [todo given]. rewrite omap_app, omap_give. solve_Permutation. }
  assert (answered w' l) as Hal.
  { intros c Hc. destruct (Ha c Hc) as [?|Hr]; [left; rewrite <- Hk; apply elem_of_app; by left|right]. eapply refuses_mono; [|exact Hr]. intros x. by rewrite Hk. }
  assert (forall m, answered w m -> answered w' m) as Hmono.
  { intros m. apply answered_mono. intros x Hx. rewrite <- Hk. apply elem_of_app. by right. }
  apply Forall_cons in H1 as [_ H1]. split; [|].
  - unfold w'. split; cbn [todo given pruner].
    + apply Forall_app. split; [|done]. apply Forall_fmap, Forall_forall. intros c Hc. rewrite Forall_forall in Hl. apply Hl. eapply elem_of_submseteq; [exact Hc|by apply sublist_submseteq].
    + etransitivity; [|exact H2]. cbn [mbind list_bind]. rewrite bind_app, bind_give, Hrest. apply submseteq_skips_l, submseteq_app; [|done].
      by apply sublist_submseteq, sublist_bind.
    + by apply (pinv_perm _ _ _ Hk).
    + done.
    + intros to from Hin. destruct (H5 to from Hin) as [[Heq|?]%elem_of_cons|?]; [|left; apply elem_of_app; by right|right; by apply Hmono].
      right. by rewrite <- (Hstart to from Hin (eq_sym Heq)).
    + intros c depth Hc Hp Hg. destruct (H6 c depth Hc Hp Hg) as [[Heq|?]%elem_of_cons|(m & Em & Hm)]; [|left; apply elem_of_app; by right|].
      * right. exists l. split; [by apply (Hbelow c depth)|done].
      * right. exists m. split; [done|by apply Hmono].
  - unfold w'. cbn [todo]. rewrite sum_list_with_app, costs_give, Hrest.
    pose proof (sublist_length _ _ (sublist_bind (subtree (S d)) _ _ Hs)). lia.
Qed.

(** The entries of the roots. *)
Lemma roots_placed to from : roots_ok to from -> Forall (placed N 1) (diff_manifests path to from).
Proof using first_level.
  intros (l & k & -> & -> & Hl & Hk & Hn). apply Forall_forall. intros c Hc.
  destruct (directory_ok content max_depth N 1 path l k Hl Hk first_level Hn) as [Hd _]. destruct (Hd c Hc) as (name & Hok & _). by exists [name].
Qed.

(** The entries right below a change. *)
Lemma below_placed c d : placed N d c -> goes_down max_depth d c = true ->
  exists l, compare_below content c = Ok l /\ Forall (placed N (S d)) l /\ tail (subtree d c) = l ≫= subtree (S d).
Proof.
  intros (base & Hok & Hlen) Hg. pose proof (down_within _ _ _ Hg) as [Ht Hw].
  destruct N as [|n] eqn:EN.
  { apply tree_id in Ht as (h & [Hh|Hh]); [destruct (ck_to _ _ _ _ _ _ Hok _ Hh)|destruct (ck_from _ _ _ _ _ _ Hok _ Hh)]. }
  pose proof (compare_ok content max_depth n d c _ Hok Ht) as Hc. destruct (status_ids (status c)) as [W F].
  destruct Hc as (to & from & Ec & Hto & Hfrom & Hn). exists (directory (Some (mkMPath (iter_opt path ++ base))) to from). split; [exact Ec|].
  destruct (directory_ok content max_depth n (S d) (Some (mkMPath (iter_opt path ++ base))) to from Hto Hfrom Hw) as [Hd _].
  { intros name. destruct (Hn name) as (-> & -> & ?). done. }
  split.
  - apply Forall_forall. intros c' Hin. destruct (Hd c' Hin) as (name & Hok' & _). exists (base ++ [name]). cbn [iter_opt elements] in Hok'.
    rewrite <- app_assoc in Hok'. split; [by eapply (change_ok_mono _ _ n); [lia|]|]. rewrite length_app. cbn. lia.
  - cbn [ManifestDiff.subtree tail]. rewrite Hg, Ec. apply list_bind_ext_in. intros c' Hin. destruct (Hd c' Hin) as (name & Hok' & _).
    symmetry. exact (subtree_stable content max_depth n (S n) (S d) c' _ ltac:(lia) Hok').
Qed.

(** A turn. *)
Lemma run_task_ok starts full t rest w : walk_ok starts full w -> todo w = t :: rest ->
  exists w', run_task content max_depth t rest w = Ok w' /\ walk_ok starts full w' /\
    sum_list_with cost (todo w') < cost t + sum_list_with cost rest.
Proof using PL first_level.
  intros Hw Ht. pose proof (wo_tasks _ _ _ Hw) as Htask. rewrite Ht in Htask. apply Forall_cons in Htask as [Htask Hrest].
  destruct t as [p to from|c d|c d]; cbn [run_task].
  - destruct Htask as [-> Hroots]. rewrite bool_decide_false by (intros Em; unfold within in first_level; rewrite Em in first_level; lia).
    destruct (prune (pruner w) (diff_manifests path to from)) as [p' l'] eqn:Ep.
    destruct (compared _ _ _ _ _ 0 _ _ _ Hw Ht eq_refl eq_refl (roots_placed _ _ Hroots) Ep) as [Hok Hcost]; [by intros ? ? _ [= <- <-]|done|].
    eexists. split; [done|]. split; [exact Hok|]. cbn [cost]. lia.
  - exists (mkWalk (pruner w) (if goes_down max_depth d c then Below c d :: rest else rest) (given w ++ [c])). split; [done|].
    destruct Hw as [H1 H2 H3 H4 H5 H6]. rewrite Ht in *.
    set (w' := mkWalk _ _ _).
    assert (kept w = kept w') as Hk.
    { unfold kept, w'. rewrite Ht. cbn [todo given]. rewrite <- app_assoc. cbn. by destruct (goes_down max_depth d c). }
    assert (subtree d c = c :: tail (subtree d c)) as Esub by by destruct N.
    assert (forall m, answered w m -> answered w' m) as Hmono by (intros m; unfold answered; by rewrite Hk).
    split; [split; unfold w'; cbn [todo given pruner]|].
    + destruct (goes_down max_depth d c) eqn:Eg; [by constructor|done].
    + etransitivity; [|exact H2]. cbn [mbind list_bind rest_of]. rewrite Esub, <- app_assoc. apply submseteq_app; [done|]. cbn [app]. apply submseteq_skip.
      destruct (goes_down max_depth d c) eqn:Eg; cbn [mbind list_bind rest_of]; [done|]. by apply submseteq_inserts_l.
    + change (pinv (pruner w) (kept w')). by rewrite <- Hk.
    + apply Forall_app. split; [done|]. constructor; [by exists d|constructor].
    + intros to from Hin. destruct (H5 to from Hin) as [[?|?]%elem_of_cons|?]; [done| |right; by apply Hmono]. left. destruct (goes_down max_depth d c); [by right|done].
    + intros c' depth [Hc|Hc%list_elem_of_singleton]%elem_of_app Hp Hg.
      * destruct (H6 c' depth Hc Hp Hg) as [[?|?]%elem_of_cons|(m & ? & ?)]; [done| |right; exists m; split; [done|by apply Hmono]].
        left. destruct (goes_down max_depth d c); [by right|done].
      * subst c'. rewrite (placed_depth _ _ _ _ _ Hp Htask) in *. rewrite Hg. left. by left.
    + unfold w'. cbn [todo cost rest_of]. rewrite Esub. cbn [length]. destruct (goes_down max_depth d c); cbn [sum_list_with cost rest_of]; lia.
  - destruct Htask as [Hp Hg]. destruct (below_placed c d Hp Hg) as (l & Ec & Hl & Etail). rewrite Ec, bind_Ok.
    destruct (prune (pruner w) l) as [p' l'] eqn:Epr.
    destruct (compared _ _ _ _ _ d _ _ _ Hw Ht eq_refl Etail Hl Epr) as [Hok Hcost]; [done|by intros ? ? [= <- _]|].
    eexists. split; [done|]. split; [exact Hok|]. cbn [cost]. lia.
Qed.

(** The walk ends, whatever the schedule. *)
Lemma run_walk_ok starts full schedule n : forall turn w, walk_ok starts full w -> sum_list_with cost (todo w) <= n ->
  exists w', run_walk content max_depth n turn schedule w = Some (Ok w') /\ walk_ok starts full w' /\ todo w' = [].
Proof using PL first_level.
  induction n as [|n IH]; intros turn w Hw Hn; cbn [run_walk]; destruct (todo w) as [|t l] eqn:Et; [by exists w| |by exists w|].
  - exfalso. pose proof (wo_tasks _ _ _ Hw) as Htask. rewrite Et in Htask. apply Forall_cons in Htask as [Htask _].
    destruct t as [p to from|c d|c d]; cbn [sum_list_with cost] in Hn; [lia| |lia]. cbn [rest_of] in Hn. destruct N; cbn in Hn; lia.
  - cbv zeta. set (i := schedule turn mod S (length l)). assert (i < length (t :: l)) as Hi by exact (Nat.mod_upper_bound (schedule turn) (S (length l)) ltac:(lia)).
    destruct (lookup_lt_is_Some_2 (t :: l) i Hi) as [t' Ht']. rewrite Ht'. cbn [option.from_option].
    set (rest := take i (t :: l) ++ drop (S i) (t :: l)).
    assert (t :: l ≡ₚ t' :: rest) as Hp.
    { rewrite <- (take_drop_middle (t :: l) i t' Ht') at 1. symmetry. apply Permutation_middle. }
    assert (walk_ok starts full (mkWalk (pruner w) (t' :: rest) (given w))) as Hw'.
    { eapply walk_ok_perm; [exact Hp|]. rewrite <- Et. by destruct w. }
    destruct (run_task_ok _ _ t' rest _ Hw' eq_refl) as (w2 & E2 & Hw2 & Hc2).
    unfold Datatypes.id. assert (run_task content max_depth t' rest w = Ok w2) as -> by (rewrite <- E2; by destruct t').
    apply IH; [exact Hw2|]. rewrite Hp in Hn. cbn [sum_list_with] in Hn. lia.
Qed.

(** All that is known of a walk that has ended. *)
Lemma walk_exact p starts schedule n : Forall (fun x => roots_ok x.1 x.2) starts -> pinv p [] ->
  let tasks := (fun x => Start path x.1 x.2) <$> starts in sum_list_with cost tasks <= n ->
  exists w', run_walk content max_depth n 0 schedule (mkWalk p tasks []) = Some (Ok w') /\
    given w' ⊆+ tasks ≫= rest_of /\ pinv (pruner w') (given w') /\ Forall (fun c => exists depth, placed N depth c) (given w') /\
    (forall to from c, (to, from) ∈ starts -> c ∈ diff_manifests path to from -> c ∈ given w' \/ refuses (given w') c) /\
    (forall c depth l c', c ∈ given w' -> placed N depth c -> goes_down max_depth depth c = true -> compare_below content c = Ok l -> c' ∈ l ->
      c' ∈ given w' \/ refuses (given w') c').
Proof using PL first_level.
  intros Hstarts Hp tasks Hn.
  assert (omap task_gives tasks = []) as Hgives by (unfold tasks; clear; induction starts as [|x l IH]; [done|exact IH]).
  destruct (run_walk_ok starts (tasks ≫= rest_of) schedule n 0 (mkWalk p tasks [])) as (w' & Ew & [H1 H2 H3 H4 H5 H6] & Et); [|done|].
  - split; cbn [todo given pruner]; [|done| |constructor| |by intros c d ?%elem_of_nil].
    + apply Forall_fmap. eapply Forall_impl; [exact Hstarts|]. by intros x Hx.
    + unfold kept. cbn [todo given]. by rewrite Hgives.
    + intros to from Hin. left. apply list_elem_of_fmap. by exists (to, from).
  - assert (kept w' = given w') as Hk by (unfold kept; rewrite Et; apply app_nil_r). rewrite Et, Hk in *. cbn [mbind list_bind] in H2. rewrite app_nil_r in H2.
    exists w'. split; [done|]. split; [done|]. split; [done|]. split; [done|]. split.
    + intros to from c Hin Hc. destruct (H5 to from Hin) as [?%elem_of_nil|Ha]; [done|]. specialize (Ha c Hc). by rewrite Hk in Ha.
    + intros c d l c' Hc Hpl Hg El Hc'. destruct (H6 c d Hc Hpl Hg) as [?%elem_of_nil|(m & Em & Ha)]; [done|].
      assert (l = m) as -> by congruence. specialize (Ha c' Hc'). by rewrite Hk in Ha.
Qed.
End walk.

(** ** Exactness *)

Section exact_walk.
Context {E : Type} (content : HgEntryId -> outcome E Manifest) (N : nat).
Abbreviation work_at := (work_at content).

(** The manifest of a root, or the empty one. *)
Record root_ok (W : option id) (mf : Manifest) : Prop := {
  ro_manifest : match W with Some i => content i.2 | None => Ok [] end = Ok mf;
  ro_loads : owloads content (S N) W;
  ro_tree : forall ft h, W <> Some (File ft, h)
}.

Lemma roots_entries W F to from : root_ok W to -> root_ok F from -> exists l k, to = l.*2 /\ from = k.*2 /\ entries_ok l /\ entries_ok k /\
  forall name, entry_under l name = work_below content W name /\ entry_under k name = work_below content F name /\
    owloads content N (work_below content W name) /\ owloads content N (work_below content F name).
Proof.
  intros [H1 H2 H3] [G1 G2 G3]. destruct (manifest_entries content N W H2 H3) as (l & El & Hl & Hn). destruct (manifest_entries content N F G2 G3) as (k & Ek & Hk & Hm).
  exists l, k. split; [congruence|]. split; [congruence|]. split; [done|]. split; [done|]. intros name. destruct (Hn name), (Hm name). done.
Qed.

Lemma roots_roots_ok W F to from : root_ok W to -> root_ok F from -> roots_ok content N to from.
Proof.
  intros Ht Hf. destruct (roots_entries W F to from Ht Hf) as (l & k & -> & -> & Hl & Hk & Hn). exists l, k. split; [done|]. split; [done|]. split; [done|]. split; [done|].
  intros name. destruct (Hn name) as (-> & -> & ?). done.
Qed.

Context (max_depth : option nat) (path : option MPath).
Hypothesis (first_level : within max_depth 1).

Lemma full_exact W F to from : root_ok W to -> root_ok F from ->
  exact_changes (iter_opt path) (fun p x => p <> [] /\ change_spec content max_depth 0 W F p x)
    (diff_manifests path to from ≫= subtree content max_depth N 1).
Proof using first_level.
  intros Ht Hf. destruct (roots_entries W F to from Ht Hf) as (l & k & -> & -> & Hl & Hk & Hn).
  apply (directory_exact content max_depth N 0 path l k W F); [|done..]. intros c base. apply subtree_exact.
Qed.

(** What is closed under going down has whole subtrees. *)
Lemma closed_subtree (G : list ChangedEntry) : (forall c d l c', c ∈ G -> placed content max_depth path N d c -> goes_down max_depth d c = true ->
    compare_below content c = Ok l -> c' ∈ l -> c' ∈ G) ->
  forall n d c, n <= N -> placed content max_depth path N d c -> c ∈ G -> subtree content max_depth n d c ⊆ G.
Proof.
  intros HG. induction n as [|n IH]; intros d c Hn Hp Hc x; cbn [subtree]; (intros [->|Hx]%elem_of_cons; [done|]);
    destruct (goes_down max_depth d c) eqn:Eg; try (by apply elem_of_nil in Hx).
  destruct (below_placed content max_depth path N c d Hp Eg) as (l & El & Hl & _). rewrite El in Hx.
  apply list_elem_of_bind in Hx as (c' & Hx & Hc'). rewrite Forall_forall in Hl.
  apply (IH (S d) c'); [lia|by apply Hl|by eapply HG|done].
Qed.

Lemma same_elements (G full : list ChangedEntry) : NoDup full -> G ⊆+ full -> full ⊆ G -> G ≡ₚ full.
Proof. intros Hn Hs Hf. apply (anti_symm submseteq); [done|]. by apply NoDup_submseteq. Qed.

(** The stream without a pruner gives all of the reference. *)
Lemma changed_entries_reference W F to from : root_ok W to -> root_ok F from -> exists bound, forall n schedule, bound <= n ->
  exists l, changed_entry_stream_with_pruner content n schedule to from path Noop max_depth = Some (Ok l) /\
    l ≡ₚ diff_manifests path to from ≫= subtree content max_depth N 1.
Proof using first_level.
  intros Ht Hf. pose proof (roots_roots_ok _ _ _ _ Ht Hf) as Hr. exists (sum_list_with (cost content max_depth N) [Start path to from]). intros n schedule Hn.
  destruct (walk_exact content max_depth path N first_level Noop [(to, from)] schedule n) as (w & Ew & Hsub & _ & Hpl & Hs & Hb); [by constructor|constructor|done|].
  unfold changed_entry_stream_with_pruner. exists (given w).
  change ((fun x => Start path x.1 x.2) <$> [(to, from)]) with [Start path to from] in Ew. rewrite Ew. split; [done|]. cbn in Hsub. rewrite app_nil_r in Hsub.
  apply same_elements; [|exact Hsub|].
  - destruct (full_exact W F to from Ht Hf) as [Hnd _]. by apply NoDup_fmap_1 in Hnd.
  - intros x (c & Hx & Hc)%list_elem_of_bind. pose proof (roots_placed content max_depth path N first_level to from Hr) as Hp. rewrite Forall_forall in Hp.
    eapply (closed_subtree (given w)); [|reflexivity|by apply Hp| |exact Hx].
    + intros c1 d l c2 H1 H2 H3 H4 H5. by destruct (Hb c1 d l c2 H1 H2 H3 H4 H5).
    + by destruct (Hs to from c ltac:(by left) Hc).
Qed.

(** C16. Whatever order the directories are compared in, the stream of changed
    entries between two manifests that load ends, and gives exactly what
    differs at each path up to the depth asked for, each difference once: an
    entry on one side only, two entries of one kind that are not the same, or
    a file and a directory, which are two changes. *)
Theorem changed_entries_exact W F to from : root_ok W to -> root_ok F from -> exists bound, forall n schedule, bound <= n ->
  exists l, changed_entry_stream_with_pruner content n schedule to from path Noop max_depth = Some (Ok l) /\ NoDup (view <$> l) /\
    forall v, v ∈ view <$> l <-> exists p x, p <> [] /\ x ∈ differs (work_at W p) (work_at F p) /\ within max_depth (length p) /\
      v = (Some (mkMPath (iter_opt path ++ p)), x).
Proof using first_level.
  intros Ht Hf. destruct (changed_entries_reference W F to from Ht Hf) as [bound Hb]. exists bound. intros n schedule Hn.
  destruct (Hb n schedule Hn) as (l & El & Hl). exists l. split; [done|]. destruct (full_exact W F to from Ht Hf) as [Hnd Hin].
  split; [by rewrite Hl|]. intros v. rewrite Hl, Hin. unfold change_spec. cbn [Nat.add]. naive_solver.
Qed.
End exact_walk.

(** Only files: the changes of trees are left out. *)
Definition ids_tree (x : ids) : bool :=
  match x with (Some i, _) => is_tree i.1 | (None, Some j) => is_tree j.1 | (None, None) => false end.

Lemma status_ids_tree s : ids_tree (status_ids s) = status_is_tree s.
Proof. by destruct s. Qed.

Lemma changed_files_exact {E} (content : HgEntryId -> outcome E Manifest) N path W F to from : root_ok content N W to -> root_ok content N F from ->
  exists bound, forall n schedule, bound <= n ->
  exists l, changed_file_stream content n schedule to from path = Some (Ok l) /\ NoDup (view <$> l) /\
    forall v, v ∈ view <$> l <-> exists p x, p <> [] /\ x ∈ differs (work_at content W p) (work_at content F p) /\ ids_tree x = false /\
      v = (Some (mkMPath (iter_opt path ++ p)), x).
Proof.
  intros Ht Hf. destruct (changed_entries_reference content N None path I W F to from Ht Hf) as [bound Hb]. exists bound. intros n schedule Hn.
  destruct (Hb n schedule Hn) as (l & El & Hl). unfold changed_file_stream. rewrite El. cbn [map_stream]. eexists. split; [done|].
  destruct (full_exact content N None path I W F to from Ht Hf) as [Hnd Hin]. rewrite <- Hl in Hnd.
  assert (forall v, v ∈ view <$> List.filter (fun c => negb (status_is_tree (status c))) l <-> v ∈ view <$> l /\ ids_tree v.2 = false) as Hfilter.
  { intros v. rewrite !list_elem_of_fmap. setoid_rewrite filter_in. setoid_rewrite negb_true_iff. split.
    - intros (c & -> & Hc & Htree). split; [by exists c|]. cbn. by rewrite status_ids_tree.
    - intros [(c & -> & Hc) Htree]. exists c. split; [done|]. split; [done|]. cbn in Htree. by rewrite status_ids_tree in Htree. }
  split.
  - clear -Hnd. induction l as [|c l IH]; [constructor|]. cbn [fmap list_fmap] in Hnd. apply NoDup_cons in Hnd as [Hc Hnd]. cbn [List.filter].
    destruct (negb _); [|by apply IH]. cbn. constructor; [|by apply IH]. intros (c' & Hv & Hin)%list_elem_of_fmap. apply Hc. apply filter_in in Hin as [Hin _].
    rewrite Hv. by apply list_elem_of_fmap_2.
  - intros v. rewrite Hfilter, Hl, Hin. unfold change_spec. cbn [Nat.add]. split.
    + intros [(p & x & [Hp [Hx _]] & ->) Hk]. by exists p, x.
    + intros (p & x & Hp & Hx & Hk & ->). split; [exists p, x; done|done].
Qed.

(** ** All entries below one *)

Section entries.
Context {E : Type} (content : HgEntryId -> outcome E Manifest) {IL : Interleave} {ILL : InterleaveLaws IL}.

Definition entry_view (x : option MPath * Entry) : list MPathElement * id := (iter_opt (join_element_opt x.1 (get_name x.2)), entry_id x.2).

Lemma recursive_step n rootpath entry : recursive_entry_stream content (S n) rootpath entry =
  (subentries ← match get_type entry with
                | File _ => Ok []
                | Tree => mf ← get_tree_content content entry;
                    streams ← collect (recursive_entry_stream content n (join_opt rootpath (option_list (get_name entry)))) mf; Ok (interleave streams)
                end;
   Ok ((rootpath, entry) :: subentries)).
Proof. reflexivity. Qed.

(** Every entry below the first comes with its directory, once. *)
Lemma recursive_entries_exact n : forall rootpath entry, loads content n (entry_id entry) -> exists l, recursive_entry_stream content (S n) rootpath entry = Ok l /\
  forall v, v ∈ entry_view <$> l <-> exists p i, id_at content (entry_id entry) p = Some i /\ v = (iter_opt (join_element_opt rootpath (get_name entry)) ++ p, i).
Proof.
  induction n as [|n IH]; intros rootpath entry Hl; rewrite recursive_step.
  all: destruct (get_type entry) as [ft|] eqn:Et.
  1,3: rewrite bind_Ok; eexists; (split; [done|]); intros v; unfold entry_id; rewrite Et; cbn [fmap list_fmap]; rewrite list_elem_of_singleton; unfold entry_view; cbn [fst snd]; unfold entry_id; rewrite Et; split;
    [intros ->; exists [], (File ft, get_hash entry); by rewrite app_nil_r|intros ([|name p] & i & Hi & ->); [injection Hi as <-; by rewrite app_nil_r|done]].
  - unfold entry_id in Hl. by rewrite Et in Hl.
  - unfold entry_id in Hl. rewrite Et in Hl. destruct Hl as (mf & Hmf & (k & -> & Hs & Hnm) & Hall). unfold get_tree_content. rewrite Et, Hmf, bind_Ok.
    set (path := join_opt rootpath (option_list (get_name entry))).
    assert (path = join_element_opt rootpath (get_name entry)) as Hpath.
    { unfold path. destruct (get_name entry) as [name|]; [done|]. cbn. destruct rootpath as [[p]|]; [|done]. cbn. unfold MPath_join. cbn. by rewrite app_nil_r. }
    destruct (collect_total (E := E) (recursive_entry_stream content (S n) path) (fun e l => forall v, v ∈ entry_view <$> l <-> exists p i, id_at content (entry_id e) p = Some i /\ v = (iter_opt (join_element_opt path (get_name e)) ++ p, i)) k.*2) as (ls & Els & Hls).
    { intros e He. rewrite Forall_forall in Hall. by apply IH, Hall. }
    rewrite Els, !bind_Ok. eexists. split; [done|]. intros v. cbn [fmap list_fmap]. rewrite elem_of_cons, interleave_perm.
    rewrite Forall_forall in Hnm.
    assert (v ∈ entry_view <$> concat ls <-> exists name e p i, (name, e) ∈ k /\ id_at content (entry_id e) p = Some i /\ v = (iter_opt path ++ name :: p, i)) as ->.
    { rewrite list_elem_of_fmap. split.
      - intros (x & -> & (l & Hl%list_elem_of_In & Hx%list_elem_of_In)%list_elem_of_In%in_concat). apply list_elem_of_lookup_1 in Hl as [j Hj].
        destruct (Forall2_lookup_r _ _ _ _ _ Hls Hj) as (e & He & Hv). destruct (proj1 (Hv (entry_view x))) as (p & i & Hi & Hvx); [by apply list_elem_of_fmap_2|].
        apply list_lookup_fmap_Some in He as ([name e'] & -> & Hk). apply list_elem_of_lookup_2 in Hk. destruct (Hnm _ Hk) as [Hn Hne]. cbn [fst snd] in *.
        unfold named in Hn. cbn in Hn. rewrite Hn, join_element_path in Hvx by done. cbn [iter_opt elements] in Hvx. rewrite <- app_assoc in Hvx. by exists name, e', p, i.
      - intros (name & e & p & i & Hk & Hi & ->). destruct (Hnm _ Hk) as [Hn Hne]. apply list_elem_of_lookup_1 in Hk as [j Hj].
        assert (k.*2 !! j = Some e) as Hj2 by (by rewrite list_lookup_fmap, Hj). destruct (Forall2_lookup_l _ _ _ _ _ Hls Hj2) as (l & Hlj & Hv).
        assert ((iter_opt path ++ name :: p, i) ∈ entry_view <$> l) as (x & Hx & Hin)%list_elem_of_fmap.
        { apply Hv. exists p, i. split; [done|]. unfold named in Hn. cbn in Hn. rewrite Hn, join_element_path by done. cbn [iter_opt elements]. by rewrite <- app_assoc. }
        exists x. split; [done|]. apply list_elem_of_In, in_concat. exists l. split; apply list_elem_of_In; [by eapply list_elem_of_lookup_2|done]. }
    unfold entry_view at 1. cbn [fst snd]. unfold entry_id. rewrite Et, <- Hpath. split.
    + intros [->|(name & e & p & i & Hk & Hi & ->)]; [exists [], (Tree, get_hash entry); by rewrite app_nil_r|]. exists (name :: p), i. split; [|done].
      cbn [id_at]. rewrite (id_child_get content _ _ _ name Hmf eq_refl Hs).
      * apply (btree_get_elem _ _ _ Hs) in Hk. by rewrite Hk.
      * apply Forall_forall. apply Hnm.
    + intros ([|name p] & i & Hi & ->); [left; injection Hi as <-; by rewrite app_nil_r|right]. cbn [id_at] in Hi.
      rewrite (id_child_get content _ _ _ name Hmf eq_refl Hs) in Hi by (apply Forall_forall; apply Hnm).
      destruct (btree_get name k) as [e|] eqn:Ee; [|done]. apply (btree_get_elem _ _ _ Hs) in Ee. by exists name, e, p, i.
Qed.
End entries.

(** ** Examples *)

Section example.
#[local] Open Scope string_scope.
#[local] Open Scope list_scope.

Definition md_hash (b : byte) : HgNodeHash := mkNode (mkSha1 (replicate 20 b)).
Definition md_name (s : String.string) : MPathElement := mkElem (bstr s).
Definition md_entry (s : String.string) (t : Type_) (b : byte) : Entry := mkEntry (Some (md_name s)) t (md_hash b).

(** Two roots: a file that becomes executable, and a file that becomes a
    directory. *)
Definition md_to : Manifest := [md_entry "a" (File Executable) x10; md_entry "d" Tree x02].
Definition md_from : Manifest := [md_entry "a" (File Regular) x10; md_entry "d" (File Regular) x11].
Definition md_content (h : HgEntryId) : outcome unit Manifest :=
  if decide (h = md_hash x01) then Ok md_to
  else if decide (h = md_hash x02) then Ok [md_entry "b" (File Regular) x12]
  else if decide (h = md_hash x03) then Ok md_from else Err tt.

Lemma md_good l : StronglySorted (fun x y : MPathElement * Entry => ord_lt x.1 y.1) l -> Forall (fun x => named x.1 x.2 /\ nonempty_elem x.1 = true) l -> good_manifest l.*2.
Proof. intros Hs Hn. by exists l. Qed.

Ltac md_manifest l := exists l.*2; split; [reflexivity|]; split;
  [apply md_good; [repeat first [constructor|apply cmp_lt; vm_compute; reflexivity]|repeat constructor]|].

Lemma md_loads_d : loads md_content 1 (Tree, md_hash x02).
Proof. md_manifest [(md_name "b", md_entry "b" (File Regular) x12)]. by repeat constructor. Qed.

Lemma md_root_to : root_ok md_content 1 (Some (Tree, md_hash x01)) md_to.
Proof.
  split; [reflexivity| |done]. intros i [= <-].
  md_manifest [(md_name "a", md_entry "a" (File Executable) x10); (md_name "d", md_entry "d" Tree x02)].
  constructor; [done|]. constructor; [exact md_loads_d|constructor].
Qed.

Lemma md_root_from : root_ok md_content 1 (Some (Tree, md_hash x03)) md_from.
Proof.
  split; [reflexivity| |done]. intros i [= <-].
  md_manifest [(md_name "a", md_entry "a" (File Regular) x10); (md_name "d", md_entry "d" (File Regular) x11)]. by repeat constructor.
Qed.

Lemma changed_entries_exact_witness : exists l, changed_entry_stream_with_pruner md_content 100 (fun turn => turn) md_to md_from None Noop None = Some (Ok l) /\
  length l = 4 /\ (Some (mkMPath [md_name "d"; md_name "b"]), (Some (File Regular, md_hash x12), None)) ∈ view <$> l.
Proof.
  destruct (changed_entries_exact md_content 1 None None I _ _ _ _ md_root_to md_root_from) as [bound Hb].
  destruct (Hb (100 + bound) (fun turn => turn) ltac:(lia)) as (l & El & _ & Hl).
  assert (forall n r, changed_entry_stream_with_pruner md_content (100 + n) (fun turn => turn) md_to md_from None Noop None = r ->
    r = changed_entry_stream_with_pruner md_content 100 (fun turn => turn) md_to md_from None Noop None) as Hmore.
  { intros n r <-. vm_compute. reflexivity. }
  exists l. split; [rewrite <- El; by rewrite (Hmore bound _ eq_refl)|]. split.
  - pose proof (Hmore bound _ El) as E100. vm_compute in E100. by injection E100 as ->.
  - apply Hl. exists [md_name "d"; md_name "b"], (Some (File Regular, md_hash x12), None). split; [done|]. split; [vm_compute; left|]. done.
Defined.

(** Each parent has one of the two files: nothing is new for both, but the
    entries are in one directory. *)
Example intersection_by_directory :
  new_entry_intersection_stream md_content 100 (fun turn => turn) (fun turn => turn)
    [md_entry "a" (File Regular) x10; md_entry "b" (File Regular) x11]
    (Some [md_entry "b" (File Regular) x11]) (Some [md_entry "a" (File Regular) x10]) = Some (Ok [(None, md_entry "a" (File Regular) x10)]).
Proof. vm_compute. reflexivity. Qed.
End example.
