(* ===== verification/RevlogDiff.v ===== *)
(** * Comparison of two manifests of a revlog repository

    Model of [mercurial/src/manifest/manifest_utils.rs], which the import of a
    Mercurial repository uses: the comparison of [ManifestDiff] in an earlier
    form, without pruners, one directory after the other. The entries and
    changes are those of [ManifestDiff]. It gives the same changes, but for
    files of which only the type changes. *)

From stdpp Require Import list.
From S2P Require Import Prelude Ord Path Hash Bonsai BonsaiDiff ManifestDiff ManifestWalk.

(** Two entries with one name: the type of a file is not compared. *)
Definition revlog_same_name (path : option MPath) (to_entry from_entry : Entry) : list ChangedEntry :=
  if Bool.eqb (is_tree (get_type to_entry)) (is_tree (get_type from_entry)) then
    if bool_decide (get_hash to_entry = get_hash from_entry) then [] else [new_modified path to_entry from_entry]
  else [new_added path to_entry; new_deleted path from_entry].

Fixpoint revlog_diff_sorted_vecs (path : option MPath) (to : list Entry) : list Entry -> list ChangedEntry :=
  match to with
  | [] => fmap (new_deleted path)
  | to_entry :: to' =>
      fix diff from :=
        match from with
        | [] => new_added path to_entry :: (new_added path <$> to')
        | from_entry :: from' =>
            match opt_cmp (get_name to_entry) (get_name from_entry) with
            | Lt => new_added path to_entry :: revlog_diff_sorted_vecs path to' from
            | Gt => new_deleted path from_entry :: diff from'
            | Eq => revlog_same_name path to_entry from_entry ++ revlog_diff_sorted_vecs path to' from'
            end
        end
  end.

Section streams.
Context {E : Type} (content : HgEntryId -> outcome E Manifest).

(** [n] bounds the depth of the trees. *)
Fixpoint revlog_entry_stream (n : nat) (rootpath : option MPath) (entry : Entry) : outcome E (list (option MPath * Entry)) :=
  match n with
  | 0 => Panic
  | S n =>
      subentries ← match get_type entry with
                   | File _ => Ok []
                   | Tree =>
                       let path := join_opt rootpath (option_list (get_name entry)) in
                       mf ← get_tree_content content entry;
                       streams ← collect (revlog_entry_stream n path) mf;
                       Ok (concat streams)
                   end;
      Ok ((rootpath, entry) :: subentries)
  end.

Fixpoint revlog_changed_stream (n : nat) (changed_entry : ChangedEntry) : outcome E (list ChangedEntry) :=
  match n with
  | 0 => Panic
  | S n =>
      match status changed_entry with
      | Added entry => l ← revlog_entry_stream (S n) (dirname changed_entry) entry; Ok (fmap (M := list) (fun x => new_added x.1 x.2) l)
      | Deleted entry => l ← revlog_entry_stream (S n) (dirname changed_entry) entry; Ok (fmap (M := list) (fun x => new_deleted x.1 x.2) l)
      | Modified to_entry from_entry =>
          substream ← (if is_tree (get_type to_entry) then
                         to_manifest ← get_tree_content content to_entry;
                         from_manifest ← get_tree_content content from_entry;
                         streams ← collect (revlog_changed_stream n)
                           (revlog_diff_sorted_vecs (join_element_opt (dirname changed_entry) (get_name to_entry)) to_manifest from_manifest);
                         Ok (concat streams)
                       else Ok []);
          Ok (new_modified (dirname changed_entry) to_entry from_entry :: substream)
      end
  end.

Definition revlog_changed_entry_stream (n : nat) (to from : Manifest) (path : option MPath) : outcome E (list ChangedEntry) :=
  streams ← collect (revlog_changed_stream n) (revlog_diff_sorted_vecs path to from);
  Ok (concat streams).

Definition revlog_new_entries (n : nat) (root from : Manifest) : outcome E (list NewEntry) :=
  ces ← revlog_changed_entry_stream n root from None; Ok (omap (M := list) from_changed_entry ces).

(** As in [ManifestDiff], entries are compared by their directory. *)
Definition revlog_intersection_stream (n : nat) (root : Manifest) (p1 p2 : option Manifest) : outcome E (list (option MPath * Entry)) :=
  match p1, p2 with
  | Some p1, Some p2 =>
      p2 ← revlog_new_entries n root p2;
      p1 ← revlog_new_entries n root p1;
      Ok (fmap (M := list) into_tuple (List.filter (fun ne => existsb (NewEntry_eq ne) p2) p1))
  | Some p, None | None, Some p => l ← revlog_new_entries n root p; Ok (fmap (M := list) into_tuple l)
  | None, None => l ← revlog_new_entries n root []; Ok (fmap (M := list) into_tuple l)
  end.
End streams.

(** ** The same changes *)

(** Not only the type of a file changes. *)
Definition content_changes (c : ChangedEntry) : bool :=
  match status c with Modified e f => negb (bool_decide (get_hash e = get_hash f)) | _ => true end.

Lemma filter_true {A} (f : A -> bool) l : (forall x, x ∈ l -> f x = true) -> List.filter f l = l.
Proof. induction l as [|x l IH]; intros H; [done|]. cbn. rewrite (H x) by (by left). f_equal. apply IH. intros y Hy. apply H. by right. Qed.

#[export] Instance filter_perm {A} (f : A -> bool) : Proper (Permutation ==> Permutation) (List.filter f).
Proof.
  intros l l'. induction 1 as [|x l l' _ IH|x y l|l l2 l' _ IH1 _ IH2]; cbn; [done|by destruct (f x); [constructor|]| |by transitivity (List.filter f l2)].
  destruct (f x), (f y); [apply perm_swap|done|done|done].
Qed.

Lemma revlog_same_name_filter path e f : revlog_same_name path e f = List.filter content_changes (diff_same_name path e f).
Proof.
  unfold revlog_same_name, diff_same_name. destruct (Bool.eqb _ _); [|done]. destruct (decide (get_hash e = get_hash f)) as [Eh|Eh].
  - rewrite (bool_decide_true _ Eh). cbn [andb]. case_bool_decide; [done|]. cbn. by rewrite (bool_decide_true _ Eh).
  - rewrite (bool_decide_false _ Eh). cbn. by rewrite (bool_decide_false _ Eh).
Qed.

Lemma revlog_step path t to f from : revlog_diff_sorted_vecs path (t :: to) (f :: from) =
  match opt_cmp (get_name t) (get_name f) with
  | Lt => new_added path t :: revlog_diff_sorted_vecs path to (f :: from)
  | Gt => new_deleted path f :: revlog_diff_sorted_vecs path (t :: to) from
  | Eq => revlog_same_name path t f ++ revlog_diff_sorted_vecs path to from
  end.
Proof. reflexivity. Qed.

Lemma revlog_diff_filter path to : forall from, revlog_diff_sorted_vecs path to from = List.filter content_changes (diff_sorted_vecs path to from).
Proof.
  induction to as [|t to IHt]; [intros from; symmetry; apply filter_true; by intros x (e & -> & _)%list_elem_of_fmap|]. intros from. induction from as [|f from IHf].
  - symmetry. apply filter_true. by intros x [->|(e & -> & _)%list_elem_of_fmap]%elem_of_cons.
  - rewrite revlog_step, diff_step. destruct (opt_cmp _ _).
    + by rewrite List.filter_app, <- revlog_same_name_filter, IHt.
    + rewrite IHt. done.
    + rewrite IHf. done.
Qed.

Section same.
Context {E : Type} (content : HgEntryId -> outcome E Manifest).
Abbreviation subtree := (subtree content None).

Lemma name_path path (e : Entry) : join_opt path (option_list (get_name e)) = join_element_opt path (get_name e).
Proof. destruct (get_name e) as [name|]; [done|]. cbn. destruct path as [[p]|]; [|done]. cbn. unfold MPath_join. cbn. by rewrite app_nil_r. Qed.

(** A side of which everything is changed: [f] makes the change of an entry. *)
Definition one_sided (f : option MPath -> Entry -> ChangedEntry) : Prop :=
  (forall path e, goes_down None 0 (f path e) = is_tree (get_type e)) /\
  (forall path e mf, get_type e = Tree -> content (get_hash e) = Ok mf -> compare_below content (f path e) = Ok (f (join_element_opt path (get_name e)) <$> mf)).

Lemma goes_down_depth d d' c : goes_down None d c = goes_down None d' c.
Proof. done. Qed.

Lemma added_one_sided : one_sided new_added.
Proof.
  split; [intros path e; unfold goes_down; cbn; by rewrite andb_true_r|]. intros path e mf Ht Hc. unfold compare_below, get_tree_content. cbn. unfold get_tree_content. rewrite Ht, Hc, bind_Ok.
  unfold diff_manifests, get_full_path. cbn [status new_added dirname]. by destruct mf.
Qed.

Lemma deleted_one_sided : one_sided new_deleted.
Proof.
  split; [intros path e; unfold goes_down; cbn; by rewrite andb_true_r|]. intros path e mf Ht Hc. unfold compare_below, get_tree_content. cbn. unfold get_tree_content. rewrite Ht, Hc, bind_Ok.
  done.
Qed.

Lemma collect_concat {X Y} (f : X -> outcome E (list Y)) (g : X -> list Y) (l : list X) : (forall x, x ∈ l -> f x = Ok (g x)) ->
  exists ls, collect f l = Ok ls /\ concat ls = l ≫= g.
Proof.
  induction l as [|x l IH]; intros H; [by exists []|]. destruct IH as (ls & Els & Hls); [intros; apply H; by right|].
  exists (g x :: ls). cbn [collect]. rewrite (H x), bind_Ok, Els by (by left). split; [done|]. cbn. by rewrite Hls.
Qed.

Lemma entry_stream_subtree f : one_sided f -> forall n rootpath e, loads content n (entry_id e) ->
  exists l, revlog_entry_stream content (S n) rootpath e = Ok l /\ forall d, (fun x => f x.1 x.2) <$> l = subtree n d (f rootpath e).
Proof.
  intros [Hd Hc]. induction n as [|n IH]; intros rootpath e Hl.
  - destruct (get_type e) as [ft|] eqn:Et; [|unfold entry_id in Hl; by rewrite Et in Hl]. exists [(rootpath, e)]. split; [cbn; by rewrite Et|].
    intros d. cbn [ManifestDiff.subtree]. rewrite (goes_down_depth d 0), Hd, Et. done.
  - destruct (get_type e) as [ft|] eqn:Et.
    { exists [(rootpath, e)]. split; [cbn; by rewrite Et|]. intros d. cbn [ManifestDiff.subtree]. rewrite (goes_down_depth d 0), Hd, Et. done. }
    unfold entry_id in Hl. rewrite Et in Hl. destruct Hl as (mf & Hmf & _ & Hall). rewrite Forall_forall in Hall.
    change (revlog_entry_stream content (S (S n)) rootpath e) with (subentries ← match get_type e with
      | File _ => Ok []
      | Tree => mf ← get_tree_content content e; streams ← collect (revlog_entry_stream content (S n) (join_opt rootpath (option_list (get_name e)))) mf; Ok (concat streams)
      end; Ok ((rootpath, e) :: subentries)).
    unfold get_tree_content. rewrite Et, Hmf, bind_Ok, name_path.
    set (path := join_element_opt rootpath (get_name e)).
    destruct (collect_concat (revlog_entry_stream content (S n) path) (fun e => match revlog_entry_stream content (S n) path e with Ok l => l | _ => [] end) mf) as (ls & Els & Hls).
    { intros e' He'. destruct (IH path e' (Hall e' He')) as (l & -> & _). done. }
    rewrite Els, !bind_Ok. eexists. split; [done|]. intros d. cbn [ManifestDiff.subtree fmap list_fmap fst snd]. rewrite (goes_down_depth d 0), Hd, Et, (Hc rootpath e mf Et Hmf). change (is_tree Tree) with true. cbv iota.
    f_equal. fold path. rewrite Hls. clear -IH Hall. induction mf as [|e' mf IHm]; [done|]. cbn [mbind list_bind fmap list_fmap]. rewrite fmap_app. f_equal; [|apply IHm; intros; apply Hall; by right].
    destruct (IH path e' (Hall e' ltac:(by left))) as (l & -> & Hl). apply Hl.
Qed.

Lemma filter_bind {A B} (p : B -> bool) (g : A -> list B) (l : list A) : List.filter p (l ≫= g) = l ≫= (fun x => List.filter p (g x)).
Proof. induction l as [|x l IH]; [done|]. cbn [mbind list_bind]. by rewrite List.filter_app, IH. Qed.

Lemma bind_filter {A B} (p : A -> bool) (g : A -> list B) (l : list A) : (forall x, x ∈ l -> p x = false -> g x = []) -> List.filter p l ≫= g = l ≫= g.
Proof.
  induction l as [|x l IH]; intros H; [done|]. cbn [List.filter mbind list_bind]. destruct (p x) eqn:Ep; cbn [mbind list_bind];
    rewrite IH by (intros y Hy; apply H; by right); [done|]. by rewrite (H x ltac:(by left) Ep).
Qed.

(** Where only the type of a file changes nothing is below. *)
Lemma type_change n d c base : change_ok content None n d c base -> content_changes c = false -> List.filter content_changes (subtree n d c) = [].
Proof.
  intros [_ Hp _ _ _] Hc. assert (goes_down None d c = false) as Hg.
  { unfold content_changes in Hc. destruct (status c) as [e|e|e f] eqn:Es; [done|done|]. apply negb_false_iff, bool_decide_eq_true in Hc.
    unfold goes_down. rewrite Es. cbn [status_is_tree negb]. rewrite andb_true_r. cbn [status_ids] in Hp. pose proof (proper_kinds _ _ Hp) as Hk. cbn in Hk.
    destruct (get_type e) as [ft|] eqn:Ee; [done|]. exfalso. symmetry in Hk. apply bool_decide_eq_true in Hk.
    assert (entry_id e = entry_id f) as Ei by (unfold entry_id; congruence). unfold proper in Hp. cbn [fst snd] in Hp. rewrite Ei, differs_same in Hp. done. }
  destruct n as [|n]; cbn [ManifestDiff.subtree]; rewrite Hg; cbn; by rewrite Hc.
Qed.

Lemma revlog_list n d l : (forall c, c ∈ l -> exists base, change_ok content None n d c base) ->
  (forall c base, change_ok content None n d c base -> content_changes c = true -> revlog_changed_stream content (S n) c = Ok (List.filter content_changes (subtree n d c))) ->
  exists ls, collect (revlog_changed_stream content (S n)) (List.filter content_changes l) = Ok ls /\ concat ls = List.filter content_changes (l ≫= subtree n d).
Proof.
  intros Hok IH. destruct (collect_concat (revlog_changed_stream content (S n)) (fun c => List.filter content_changes (subtree n d c)) (List.filter content_changes l)) as (ls & Els & Hls).
  - intros c [Hc Hcc]%filter_in. destruct (Hok c Hc) as [base Hb]. by eapply IH.
  - exists ls. split; [done|]. rewrite Hls, filter_bind. apply bind_filter. intros c Hc Hcc. destruct (Hok c Hc) as [base Hb]. by eapply type_change.
Qed.

Lemma one_sided_all f n d path e : one_sided f -> (forall path e, content_changes (f path e) = true) -> loads content n (entry_id e) ->
  exists l, revlog_entry_stream content (S n) path e = Ok l /\ fmap (M := list) (fun x => f x.1 x.2) l = List.filter content_changes (subtree n d (f path e)).
Proof.
  intros Hf Hall Hl. destruct (entry_stream_subtree f Hf n path e Hl) as (l & El & Hs). exists l. split; [done|]. rewrite <- (Hs d). symmetry.
  apply filter_true. by intros x (y & -> & _)%list_elem_of_fmap.
Qed.

Lemma revlog_changed_filter n : forall d c base, change_ok content None n d c base -> content_changes c = true ->
  revlog_changed_stream content (S n) c = Ok (List.filter content_changes (subtree n d c)).
Proof.
  induction n as [n IH] using lt_wf_ind. intros d [dir s] base Hok Hcc. destruct s as [e|e|e f].
  - destruct (one_sided_all new_added n d dir e added_one_sided) as (l & El & Hl); [done|by apply (ck_to _ _ _ _ _ _ Hok)|].
    unfold revlog_changed_stream. cbn [status dirname]. by rewrite El, bind_Ok, Hl.
  - destruct (one_sided_all new_deleted n d dir e deleted_one_sided) as (l & El & Hl); [done|by apply (ck_from _ _ _ _ _ _ Hok)|].
    unfold revlog_changed_stream. cbn [status dirname]. by rewrite El, bind_Ok, Hl.
  - cbn [revlog_changed_stream status dirname]. destruct (is_tree (get_type e)) eqn:Et.
    + destruct n as [|n]; [apply bool_decide_eq_true in Et; pose proof (ck_to _ _ _ _ _ _ Hok _ eq_refl) as Hl; unfold entry_id in Hl; by rewrite Et in Hl|].
      pose proof (compare_ok content None n d _ base Hok Et) as Hc. cbn [status_ids status] in Hc. destruct Hc as (to & from & Ec & Hto & Hfrom & Hn).
      destruct (directory_ok content None n (S d) (Some (mkMPath base)) to from Hto Hfrom I) as [Hd _].
      { intros name. destruct (Hn name) as (-> & -> & ?). done. }
      assert (goes_down None d (mkChanged dir (Modified e f)) = true) as Hg by (unfold goes_down; cbn; by rewrite Et).
      cbn [ManifestDiff.subtree]. rewrite Hg, Ec. unfold compare_below in Ec. cbn [status to_manifest from_manifest] in Ec.
      apply bind_Ok_inv in Ec as (to_mf & Eto & (from_mf & Efrom & Ediff)%bind_Ok_inv). injection Ediff as Ediff.
      rewrite Eto, bind_Ok, Efrom, bind_Ok. change (join_element_opt dir (get_name e)) with (get_full_path (mkChanged dir (Modified e f))).
      rewrite revlog_diff_filter. unfold diff_manifests in Ediff. rewrite Ediff.
      destruct (revlog_list n (S d) (directory (Some (mkMPath base)) to from)) as (ls & Els & Hls).
      { intros c' Hc'. destruct (Hd c' Hc') as (name & Hok' & _). by eexists. }
      { intros c' base' Hok' Hcc'. eapply IH; [lia|done|done]. }
      rewrite Els, !bind_Ok, Hls. cbn [List.filter]. by rewrite Hcc.
    + rewrite bind_Ok. assert (goes_down None d (mkChanged dir (Modified e f)) = false) as Hg by (unfold goes_down; cbn; by rewrite Et).
      destruct n as [|n]; cbn [ManifestDiff.subtree]; rewrite Hg; cbn [List.filter]; by rewrite Hcc.
Qed.

(** C18. The two comparisons agree: of a revlog repository the stream gives the
    changes that the newer one gives of the same manifests, in some order, and
    leaves out exactly the files of which only the type changes. *)
Theorem revlog_same N path W F to from : root_ok content N W to -> root_ok content N F from ->
  exists l bound, revlog_changed_entry_stream content (S N) to from path = Ok l /\ forall n schedule, bound <= n ->
    exists l', changed_entry_stream content n schedule to from path = Some (Ok l') /\ l ≡ₚ List.filter content_changes l'.
Proof.
  intros Ht Hf. destruct (roots_entries content N W F to from Ht Hf) as (k1 & k2 & E1 & E2 & Hk1 & Hk2 & Hn).
  destruct (directory_ok content None N 1 path k1 k2 Hk1 Hk2 I) as [Hd _].
  { intros name. destruct (Hn name) as (-> & -> & ?). done. }
  destruct (revlog_list N 1 (diff_sorted_vecs path to from)) as (ls & Els & Hls).
  { intros c Hc. rewrite E1, E2 in Hc. destruct (Hd c Hc) as (name & Hok & _). by eexists. }
  { intros c base. apply revlog_changed_filter. }
  destruct (changed_entries_reference content N None path I W F to from Ht Hf) as [bound Hb].
  exists (concat ls), bound. split; [unfold revlog_changed_entry_stream; by rewrite revlog_diff_filter, Els, bind_Ok|].
  intros n schedule Hle. destruct (Hb n schedule Hle) as (l' & El & Hl). exists l'. split; [exact El|]. rewrite Hls. by rewrite Hl.
Qed.
End same.

(** ** Example *)

Lemma revlog_same_witness : exists l l', revlog_changed_entry_stream md_content 2 md_to md_from None = Ok l /\ l ≡ₚ List.filter content_changes l' /\
  length l = 3 /\ length l' = 4.
Proof.
  destruct (revlog_same md_content 1 None _ _ _ _ md_root_to md_root_from) as (l & bound & El & Hb).
  destruct (Hb (100 + bound) (fun turn => turn) ltac:(lia)) as (l' & El' & Hl). exists l, l'. split; [exact El|]. split; [exact Hl|].
  split; [vm_compute in El; by injection El as <-|]. vm_compute in El'. by injection El' as <-.
Defined.
