(* ===== verification/TreePack.v ===== *)
(** * The trees that a client is sent

    Model of [gettreepack] in [repo_client/src/client/mod.rs] (and its
    arguments, [hgproto/src/lib.rs]) up to the choice of the trees: those of
    some manifests that are not in a base manifest that the client has. The
    part of a bundle that is made of each is in [Parts]. *)

From stdpp Require Import list.
From S2P Require Import Prelude Ord Path Hash Bonsai BonsaiDiff ManifestDiff ManifestWalk.

Record GettreepackArgs := mkTreepackArgs {
  rootdir : bytes;
  mfnodes : list HgNodeHash;
  basemfnodes : list HgNodeHash;
  directories : list bytes;
  depth_arg : option nat
}.

Inductive treepack_error (E : Type) := DirectoriesNotSupported | BadRootdir (e : path_error) | ManifestError (e : E).
Arguments DirectoriesNotSupported {E}.
Arguments BadRootdir {E}.
Arguments ManifestError {E}.

Definition root_entry (mfid : HgNodeHash) : Entry := mkEntry None Tree mfid.

(** [used_hashes]: the first entry with a hash. *)
Fixpoint first_with_hash (used_hashes : list HgNodeHash) (l : list (Entry * option MPath)) : list (Entry * option MPath) :=
  match l with
  | [] => []
  | entry :: l =>
      if bool_decide (get_hash entry.1 ∈ used_hashes) then first_with_hash used_hashes l
      else entry :: first_with_hash (get_hash entry.1 :: used_hashes) l
  end.

Abbreviation DefaultPruner := (CombinatorPruner FilePruner DeletedPruner).
Definition default_pruner : DefaultPruner := mkCombinator NoFiles NoDeleted.

Section treepack.
Context {E : Type} (content : HgEntryId -> outcome E Manifest) {IL : Interleave}.

(** The entry of a change, with its two assertions. *)
Definition changed_tree (c : ChangedEntry) : outcome E (Entry * option MPath) :=
  match status c with
  | Added to_entry | Modified to_entry _ => if is_tree (get_type to_entry) then Ok (to_entry, dirname c) else Panic
  | Deleted _ => Panic
  end.

(** The streams of [get_changed_manifests_stream] for some manifests, taken
    together; their pruners share their state. A root comes after the entries
    below it; here it may come anywhere. *)
Definition changed_manifests {P} `{Pruner P} (n : nat) (schedule : nat -> nat) (mfids : list HgNodeHash) (basemfid : HgNodeHash)
    (rootpath : option MPath) (pruner : P) (max_depth : nat) : option (outcome E (list (Entry * option MPath))) :=
  let roots := (fun mfid => (root_entry mfid, rootpath)) <$> mfids in
  if Nat.eqb max_depth 1 then Some (Ok (interleave [roots]))
  else
    match collect (fun mfid => mf ← content mfid; basemf ← content basemfid; Ok (mf, basemf)) mfids with
    | Ok mfs =>
        match run_walk content (Some max_depth) n 0 schedule (mkWalk pruner ((fun x => Start rootpath x.1 x.2) <$> mfs) []) with
        | Some (Ok w) => Some (changed ← collect changed_tree (given w); Ok (interleave [changed; roots]))
        | Some (Err e) => Some (Err e)
        | Some Panic => Some Panic
        | None => None
        end
    | Err e => Some (Err e)
    | Panic => Some Panic
    end.

Definition treepack_rootpath (params : GettreepackArgs) : outcome (treepack_error E) (option MPath) :=
  if Nat.eqb (length (rootdir params)) 0 then Ok None else p ← map_err BadRootdir (MPath_new (rootdir params)); Ok (Some p).
Definition fetchdepth (params : GettreepackArgs) : nat := default (2 * 2 ^ 16) (depth_arg params).
Definition basemfnode (params : GettreepackArgs) : HgNodeHash := default NULL_HASH (head (basemfnodes params)).

Definition gettreepack_entries (n : nat) (schedule : nat -> nat) (params : GettreepackArgs)
    : option (outcome (treepack_error E) (list (Entry * option MPath))) :=
  if negb (Nat.eqb (length (directories params)) 0) then Some (Err DirectoriesNotSupported)
  else
    match treepack_rootpath params with
    | Ok rootpath =>
        let changed_entries :=
          if Nat.ltb 1 (length (mfnodes params)) then
            changed_manifests n schedule (mfnodes params) (basemfnode params) rootpath (mkCombinator default_pruner (mkVisited [])) (fetchdepth params)
          else
            match mfnodes params with
            | mfnode :: _ => changed_manifests n schedule [mfnode] (basemfnode params) rootpath default_pruner (fetchdepth params)
            | [] => Some (Ok [])
            end in
        match changed_entries with
        | Some r => Some (l ← map_err ManifestError r; Ok (first_with_hash [] l))
        | None => None
        end
    | Err e => Some (Err e)
    | Panic => Some Panic
    end.
End treepack.

(** ** Everything that is missing is sent *)

Lemma first_with_hash_ok l : forall used, NoDup ((get_hash ∘ fst) <$> first_with_hash used l) /\ first_with_hash used l ⊆ l /\
  (forall h, h ∈ (get_hash ∘ fst) <$> first_with_hash used l <-> h ∈ (get_hash ∘ fst) <$> l /\ h ∉ used).
Proof.
  induction l as [|x l IH]; intros used; cbn [first_with_hash]; [split; [constructor|]; split; [done|]; intros h; cbn; set_solver|].
  case_bool_decide as Hin.
  - destruct (IH used) as (H1 & H2 & H3). split; [done|]. split; [set_solver|]. intros h. rewrite H3. cbn. rewrite elem_of_cons. split; [naive_solver|].
    intros [[->|?] ?]; [done|done].
  - destruct (IH (get_hash x.1 :: used)) as (H1 & H2 & H3). cbn. split; [constructor; [|done]; rewrite H3; set_solver|]. split; [set_solver|].
    intros h. rewrite elem_of_cons, H3, elem_of_cons, elem_of_cons. cbn. destruct (decide (h = get_hash x.1)) as [->|]; naive_solver.
Qed.

Lemma visited_key_path c : (visited_key c).1 = get_full_path c.
Proof.
  assert (forall path (e : Entry), join_opt path (option_list (get_name e)) = join_element_opt path (get_name e)) as H.
  { intros path e. destruct (get_name e) as [name|]; [done|]. cbn. destruct path as [[p]|]; [|done]. cbn. unfold MPath_join. cbn. by rewrite app_nil_r. }
  unfold visited_key, get_full_path. destruct (status c); cbn [fst]; apply H.
Qed.

(** A tree on the left is in a change that has it, unless it is the same. *)
Lemma differs_left i F : F <> Some i -> exists j, (Some i, j) ∈ differs (Some i) F /\ (j = F \/ j = None).
Proof.
  intros Hne. destruct F as [j|]; cbn; [|exists None; split; [by left|by right]]. destruct (Bool.eqb _ _); [|exists None; split; [by left|by right]].
  rewrite bool_decide_false by congruence. exists (Some j). split; [by left|by left].
Qed.

(** What stands against a tree in a change of it. *)
Definition against (F : option id) : option id := match F with Some (Tree, h) => Some (Tree, h) | _ => None end.

Lemma differs_tree h W F x : x ∈ differs W F -> x.1 = Some (Tree, h) -> W = Some (Tree, h) /\ x.2 = against F.
Proof.
  destruct W as [[k g]|], F as [[k' g']|]; cbn; [|intros ->%list_elem_of_singleton; cbn; by intros [= -> ->]|by intros ->%list_elem_of_singleton|by intros ?%elem_of_nil].
  destruct (Bool.eqb _ _) eqn:Ek.
  - case_bool_decide; [by intros ?%elem_of_nil|]. intros ->%list_elem_of_singleton. cbn. intros [= -> ->]. split; [done|].
    apply Bool.eqb_prop in Ek. symmetry in Ek. apply bool_decide_eq_true in Ek as ->. done.
  - intros [->| ->%list_elem_of_singleton]%elem_of_cons; cbn; [|done]. intros [= -> ->]. split; [done|].
    destruct k' as [ft|]; [done|]. by cbn in Ek.
Qed.

Lemma work_at_snoc {E} (content : HgEntryId -> outcome E Manifest) W p name : work_at content W (p ++ [name]) = work_below content (work_at content W p) name.
Proof.
  revert W. induction p as [|n p IH]; intros W.
  - cbn [app]. rewrite work_at_cons, !work_at_nil. done.
  - cbn [app]. rewrite !work_at_cons. apply IH.
Qed.

Section complete.
Context {E : Type} (content : HgEntryId -> outcome E Manifest) (rootpath : option MPath) (N : nat) (mfids : list HgNodeHash) (base : HgNodeHash) (m : nat)
  (basemf : Manifest) (mfs : list Manifest).
Hypothesis (depth_ok : 1 <= m).
Hypothesis (base_ok : root_ok content N (Some (Tree, base)) basemf).
Hypothesis (mfs_ok : Forall2 (fun h mf => root_ok content N (Some (Tree, h)) mf) mfids mfs).

Abbreviation work_at := (work_at content).
Abbreviation tasks := ((fun x => Start rootpath x.1 x.2) <$> ((fun mf => (mf, basemf)) <$> mfs)).

(** What is known of the entries that a walk has given. *)
Record given_ok (G : list ChangedEntry) : Prop := {
  go_sub : G ⊆+ tasks ≫= rest_of content (Some m) N;
  go_placed : Forall (fun c => exists depth, placed content (Some m) rootpath N depth c) G;
  go_trees : Forall (fun c => status_is_tree (status c) = true /\ (status_ids (status c)).1 <> None) G;
  go_starts mf c : mf ∈ mfs -> c ∈ diff_manifests rootpath mf basemf -> status_is_tree (status c) = true -> (status_ids (status c)).1 <> None ->
    c ∈ G \/ exists c', c' ∈ G /\ visited_key c' = visited_key c;
  go_below c d l c' : c ∈ G -> placed content (Some m) rootpath N d c -> goes_down (Some m) d c = true -> compare_below content c = Ok l -> c' ∈ l ->
    status_is_tree (status c') = true -> (status_ids (status c')).1 <> None -> c' ∈ G \/ exists c2, c2 ∈ G /\ visited_key c2 = visited_key c'
}.

Lemma to_tree c t : (status_ids (status c)).1 = Some (Tree, t) <->
  status_is_tree (status c) = true /\ (status_ids (status c)).1 <> None /\ (visited_key c).2 = t.
Proof.
  unfold visited_key. destruct (status c) as [e|e|e f]; cbn; unfold entry_id; (split; [|]).
  - intros [= Ht ->]. split; [by apply bool_decide_eq_true|done].
  - intros (Ht%bool_decide_eq_true & _ & <-). by rewrite Ht.
  - done.
  - by intros (_ & ? & _).
  - intros [= Ht ->]. split; [by apply bool_decide_eq_true|done].
  - intros (Ht%bool_decide_eq_true & _ & <-). by rewrite Ht.
Qed.

(** Each is a change between one of the manifests and the base. *)
Lemma given_spec G c : given_ok G -> c ∈ G -> exists mfid p, mfid ∈ mfids /\ p <> [] /\ length p <= m /\
  get_full_path c = Some (mkMPath (iter_opt rootpath ++ p)) /\ status_ids (status c) ∈ differs (work_at (Some (Tree, mfid)) p) (work_at (Some (Tree, base)) p).
Proof using depth_ok base_ok mfs_ok.
  intros HG Hc. assert (c ∈ tasks ≫= rest_of content (Some m) N) as Hin by (eapply elem_of_submseteq; [exact Hc|apply HG]).
  apply list_elem_of_bind in Hin as (t & Hin & Ht). apply list_elem_of_fmap in Ht as (x & -> & Hx). apply list_elem_of_fmap in Hx as (mf & -> & Hmf).
  apply list_elem_of_lookup_1 in Hmf as [i Hi]. destruct (Forall2_lookup_r _ _ _ _ _ mfs_ok Hi) as (mfid & Hm & Hroot).
  destruct (full_exact content N (Some m) rootpath depth_ok _ _ _ _ Hroot base_ok) as [_ Hex]. cbn [rest_of fst snd] in Hin.
  assert (view c ∈ view <$> (diff_manifests rootpath mf basemf ≫= subtree content (Some m) N 1)) as (p & x & [Hp [Hx Hw]] & Hv)%Hex by by apply list_elem_of_fmap_2.
  unfold view in Hv. injection Hv as Hpath Hids. exists mfid, p. split; [by eapply list_elem_of_lookup_2|]. split; [done|]. split; [exact Hw|]. split; [done|]. by rewrite Hids.
Qed.

(** An entry that was refused is there under the same key. *)
Lemma given_same G c t P : given_ok G -> (status_ids (status c)).1 = Some (Tree, t) -> get_full_path c = Some P ->
  c ∈ G \/ (exists c', c' ∈ G /\ visited_key c' = visited_key c) ->
  exists c', c' ∈ G /\ get_full_path c' = Some P /\ (status_ids (status c')).1 = Some (Tree, t).
Proof.
  intros HG Ht HP [Hc|(c' & Hc' & Hk)]; [by exists c|]. exists c'. split; [done|]. split; [by rewrite <- HP, <- !visited_key_path, Hk|].
  apply to_tree in Ht as (_ & _ & <-). apply to_tree. pose proof (go_trees _ HG) as Htrees. rewrite Forall_forall in Htrees. destruct (Htrees c' Hc').
  rewrite Hk. done.
Qed.

(** A tree that the base does not have at its place is given. *)
Lemma tree_given G : given_ok G -> forall p mfid t, mfid ∈ mfids -> p <> [] -> length p <= m ->
  work_at (Some (Tree, mfid)) p = Some (Tree, t) -> work_at (Some (Tree, base)) p <> Some (Tree, t) ->
  exists c, c ∈ G /\ get_full_path c = Some (mkMPath (iter_opt rootpath ++ p)) /\ (status_ids (status c)).1 = Some (Tree, t).
Proof using depth_ok base_ok mfs_ok.
  intros HG. induction p as [|name p IH] using rev_ind; intros mfid t Hm Hp Hlen Ht Hb; [done|]. rewrite work_at_snoc in Ht, Hb. rewrite length_app in Hlen. cbn in Hlen.
  destruct (decide (p = [])) as [->|Hpn].
  - rewrite !work_at_nil in Ht, Hb. apply list_elem_of_lookup_1 in Hm as [i Hi]. destruct (Forall2_lookup_l _ _ _ _ _ mfs_ok Hi) as (mf & Hmf & Hroot).
    destruct (roots_entries content N _ _ _ _ Hroot base_ok) as (l & k & El & Ek & Hl & Hk & Hn). destruct (Hn name) as (EW & EF & _).
    destruct (directory_ok content (Some m) N 1 rootpath l k Hl Hk depth_ok) as [_ Hd]; [intros n'; destruct (Hn n') as (-> & -> & ?); done|].
    rewrite Ht in EW. destruct (differs_left (Tree, t) (work_below content (Some (Tree, base)) name) Hb) as (j & Hj & _).
    destruct (Hd name (Some (Tree, t), j)) as (c & Hc & Hok & Hids); [by rewrite EW, EF|].
    assert ((status_ids (status c)).1 = Some (Tree, t)) as Hto by by rewrite Hids. pose proof (proj1 (to_tree c t) Hto) as (Hk1 & Hk2 & _).
    eapply given_same; [done|exact Hto|apply (ck_path _ _ _ _ _ _ Hok)|].
    apply (go_starts _ HG mf); [by eapply list_elem_of_lookup_2|by rewrite El, Ek|done|done].
  - assert (exists tq, work_at (Some (Tree, mfid)) p = Some (Tree, tq)) as [tq Htq].
    { destruct (work_at (Some (Tree, mfid)) p) as [[[ft|] h]|]; [done|by exists h|done]. }
    rewrite Htq in Ht. destruct (IH mfid tq Hm Hpn) as (c & Hc & Hpath & Hto); [lia|done|intros Heq; rewrite Heq in Hb; done|].
    destruct (given_spec G c HG Hc) as (mfid' & p' & _ & _ & _ & Hpath' & Hdiff). rewrite Hpath in Hpath'. injection Hpath' as Hpp. apply app_inv_head in Hpp as <-.
    destruct (differs_tree _ _ _ _ Hdiff Hto) as [_ Hfrom].
    pose proof (go_placed _ HG) as Hpl. rewrite Forall_forall in Hpl. destruct (Hpl c Hc) as (d & b & Hok & Hd). pose proof (ck_path _ _ _ _ _ _ Hok) as Hb'.
    rewrite Hpath in Hb'. injection Hb' as Hb'. apply app_inv_head in Hb' as <-.
    pose proof (proj1 (to_tree c tq) Hto) as (Htree & _ & _).
    assert (goes_down (Some m) d c = true) as Hg.
    { unfold goes_down. rewrite Htree. cbn. apply negb_true_iff, Nat.leb_gt. lia. }
    destruct N as [|n] eqn:EN; [destruct (ck_to _ _ _ _ _ _ Hok _ Hto)|].
    pose proof (compare_ok content (Some m) n d c _ Hok Htree) as Hcmp. destruct (status_ids (status c)) as [W F] eqn:Eids. cbn [fst snd] in Hto, Hfrom. subst W F.
    destruct Hcmp as (to & from & Ec & Hto' & Hfrom' & Hn). destruct (Hn name) as (EW & EF & _).
    destruct (directory_ok content (Some m) n (S d) (Some (mkMPath (iter_opt rootpath ++ p))) to from Hto' Hfrom') as [_ Hdir].
    { cbn. lia. }
    { intros n'. destruct (Hn n') as (-> & -> & ?). done. }
    assert (work_below content (against (work_at (Some (Tree, base)) p)) name = work_below content (work_at (Some (Tree, base)) p) name) as Hag.
    { by destruct (work_at (Some (Tree, base)) p) as [[[ft|] h]|]. }
    rewrite Ht in EW. rewrite Hag in EF. destruct (differs_left (Tree, t) _ Hb) as (j & Hj & _).
    destruct (Hdir name (Some (Tree, t), j)) as (c' & Hc' & Hok' & Hids'); [by rewrite EW, EF|].
    assert ((status_ids (status c')).1 = Some (Tree, t)) as Hto2 by by rewrite Hids'. pose proof (proj1 (to_tree c' t) Hto2) as (Hk1 & Hk2 & _).
    eapply given_same; [done|exact Hto2| |].
    + rewrite (ck_path _ _ _ _ _ _ Hok'). cbn [iter_opt elements]. by rewrite <- app_assoc.
    + rewrite <- EN in *. eapply (go_below _ HG c d); [done| |done|exact Ec|done|done|done]. exists p. split; [|done]. exact Hok.
Qed.

(** The walk with a pruner that keeps trees of the new side, and refuses such a
    tree only when its key is there. *)
Lemma walk_given {P} `{PL : PrunerLaws P pinv refuses} (p : P) : pinv p [] ->
  (forall p G, pinv p G -> Forall (fun c => status_is_tree (status c) = true /\ (status_ids (status c)).1 <> None) G) ->
  (forall G c, refuses G c -> status_is_tree (status c) = true -> (status_ids (status c)).1 <> None -> exists c', c' ∈ G /\ visited_key c' = visited_key c) ->
  exists bound, forall n schedule, bound <= n -> exists w, run_walk content (Some m) n 0 schedule (mkWalk p tasks []) = Some (Ok w) /\ given_ok (given w).
Proof using depth_ok base_ok mfs_ok.
  intros Hp Hkeeps Href. exists (sum_list_with (cost content (Some m) N) tasks). intros n schedule Hn.
  destruct (walk_exact content (Some m) rootpath N depth_ok p ((fun mf => (mf, basemf)) <$> mfs) schedule n) as (w & Ew & Hsub & Hi & Hpl & Hs & Hb); [|done|done|].
  - apply Forall_fmap, Forall_forall. intros mf Hmf. apply list_elem_of_lookup_1 in Hmf as [i Hi']. destruct (Forall2_lookup_r _ _ _ _ _ mfs_ok Hi') as (h & _ & Hroot).
    cbn. by apply (roots_roots_ok content N _ _ _ _ Hroot base_ok).
  - exists w. split; [exact Ew|]. split; [exact Hsub|exact Hpl|by apply (Hkeeps _ _ Hi)| |].
    + intros mf c Hmf Hc Ht Hto. destruct (Hs mf basemf c) as [?|Hr]; [by apply (list_elem_of_fmap_2 (fun mf => (mf, basemf)))|done|by left|]. right. by apply Href.
    + intros c d l c' H1 H2 H3 H4 H5 Ht Hto. destruct (Hb c d l c' H1 H2 H3 H4 H5) as [?|Hr]; [by left|right; by apply Href].
Qed.

(** The two pruners are of that kind. *)
Lemma tree_to c : status_is_tree (status c) && match status c with Deleted _ => false | _ => true end = true <->
  status_is_tree (status c) = true /\ (status_ids (status c)).1 <> None.
Proof. rewrite andb_true_iff. destruct (status c); cbn; naive_solver. Qed.

Lemma default_given : exists bound, forall n schedule, bound <= n ->
  exists w, run_walk content (Some m) n 0 schedule (mkWalk default_pruner tasks []) = Some (Ok w) /\ given_ok (given w).
Proof using depth_ok base_ok mfs_ok.
  eapply (walk_given (PL := PurePruner_laws)); [constructor| |].
  - intros p G HG. eapply Forall_impl; [exact HG|]. intros c. apply tree_to.
  - intros G c Hr H1 H2. exfalso. by rewrite (proj2 (tree_to c) (conj H1 H2)) in Hr.
Qed.

Lemma visited_given : exists bound, forall n schedule, bound <= n ->
  exists w, run_walk content (Some m) n 0 schedule (mkWalk (mkCombinator default_pruner (mkVisited [])) tasks []) = Some (Ok w) /\ given_ok (given w).
Proof using depth_ok base_ok mfs_ok.
  eapply (walk_given (PL := CombinatorPruner_laws)); [split; [split; [done|constructor]|constructor]| |].
  - intros p G [_ HG]. eapply Forall_impl; [exact HG|]. intros c. apply tree_to.
  - intros G c [Hr|Hr] H1 H2; [exfalso; by rewrite (proj2 (tree_to c) (conj H1 H2)) in Hr|]. apply list_elem_of_fmap in Hr as (c' & Hk & Hin). by exists c'.
Qed.

(** The entries that are sent of a walk, with the roots. *)
Record sent_ok (l : list (Entry * option MPath)) : Prop := {
  so_roots mfid : mfid ∈ mfids -> mfid ∈ (get_hash ∘ fst) <$> l;
  so_missing mfid p t : mfid ∈ mfids -> length p <= m -> work_at (Some (Tree, mfid)) p = Some (Tree, t) ->
    t ∈ (get_hash ∘ fst) <$> l \/ work_at (Some (Tree, base)) p = Some (Tree, t);
  so_sound e dir : (e, dir) ∈ l -> get_type e = Tree /\ exists mfid p, mfid ∈ mfids /\ length p <= m /\ work_at (Some (Tree, mfid)) p = Some (Tree, get_hash e) /\
    iter_opt (join_element_opt dir (get_name e)) = iter_opt rootpath ++ p /\ (p <> [] -> work_at (Some (Tree, base)) p <> Some (Tree, get_hash e))
}.

Lemma changed_trees G : given_ok G -> exists l, collect (E := E) changed_tree G = Ok l /\
  Forall2 (fun c x => get_type x.1 = Tree /\ (status_ids (status c)).1 = Some (Tree, get_hash x.1) /\ join_element_opt x.2 (get_name x.1) = get_full_path c) G l.
Proof.
  intros HG. apply (collect_total (E := E) changed_tree (fun c (x : Entry * option MPath) => get_type x.1 = Tree /\
    (status_ids (status c)).1 = Some (Tree, get_hash x.1) /\ join_element_opt x.2 (get_name x.1) = get_full_path c)).
  intros c Hc. pose proof (go_trees _ HG) as Ht. rewrite Forall_forall in Ht. destruct (Ht c Hc) as [Htree Hto].
  unfold changed_tree, get_full_path. destruct (status c) as [e|e|e f]; cbn in Htree, Hto |- *; [|done|];
    rewrite Htree; (eexists; split; [done|]); unfold entry_id; apply bool_decide_eq_true in Htree; cbn; by rewrite Htree.
Qed.

Lemma roots_in l l' : l' ≡ₚ l ++ ((fun mfid => (root_entry mfid, rootpath)) <$> mfids) -> forall mfid, mfid ∈ mfids -> mfid ∈ (get_hash ∘ fst) <$> l'.
Proof.
  intros Hp mfid Hm. rewrite Hp, fmap_app, elem_of_app. right. apply list_elem_of_fmap. exists (root_entry mfid, rootpath). split; [done|]. apply list_elem_of_fmap. by exists mfid.
Qed.

Lemma walk_sent G l l' : given_ok G -> collect (E := E) changed_tree G = Ok l -> l' ≡ₚ l ++ ((fun mfid => (root_entry mfid, rootpath)) <$> mfids) -> sent_ok l'.
Proof using depth_ok base_ok mfs_ok.
  intros HG El Hp. destruct (changed_trees G HG) as (l2 & E2 & Hl). rewrite El in E2. injection E2 as <-. split; [by apply (roots_in l)| |].
  - intros mfid p t Hm Hlen Ht. destruct (decide (work_at (Some (Tree, base)) p = Some (Tree, t))) as [|Hb]; [by right|left]. rewrite Hp, fmap_app, elem_of_app.
    destruct (decide (p = [])) as [->|Hpn].
    + right. rewrite work_at_nil in Ht. injection Ht as ->. apply list_elem_of_fmap. exists (root_entry t, rootpath). split; [done|]. apply list_elem_of_fmap. by exists t.
    + left. destruct (tree_given G HG p mfid t Hm Hpn Hlen Ht Hb) as (c & Hc & _ & Hto). apply list_elem_of_lookup_1 in Hc as [i Hi].
      destruct (Forall2_lookup_l _ _ _ _ _ Hl Hi) as (x & Hx & _ & Hids & _). rewrite Hids in Hto. injection Hto as <-.
      apply list_elem_of_fmap. exists x. split; [done|]. by eapply list_elem_of_lookup_2.
  - intros e dir. rewrite Hp, elem_of_app. intros [Hin|Hin].
    + apply list_elem_of_lookup_1 in Hin as [i Hi]. destruct (Forall2_lookup_r _ _ _ _ _ Hl Hi) as (c & Hc & Htype & Hids & Hpath). cbn [fst snd] in *. split; [done|].
      apply list_elem_of_lookup_2 in Hc. destruct (given_spec G c HG Hc) as (mfid & p & Hm & Hpn & Hlen & Hfull & Hd).
      destruct (differs_tree _ _ _ _ Hd Hids) as [HW HF]. exists mfid, p. split; [done|]. split; [done|]. split; [done|]. split; [by rewrite Hpath, Hfull|].
      intros _ Hb. rewrite HW, Hb, differs_same in Hd. by apply elem_of_nil in Hd.
    + apply list_elem_of_fmap in Hin as (mfid & [= -> ->] & Hm). split; [done|]. exists mfid, []. split; [done|]. split; [cbn; lia|]. split; [done|].
      split; [cbn; by rewrite app_nil_r|done].
Qed.

Context {IL : Interleave} {ILL : InterleaveLaws IL}.

Lemma manifests_loaded : collect (fun mfid => mf ← content mfid; basemf ← content base; Ok (mf, basemf)) mfids = Ok ((fun mf => (mf, basemf)) <$> mfs).
Proof using base_ok mfs_ok.
  clear depth_ok. pose proof (ro_manifest _ _ _ _ base_ok) as Eb. cbn in Eb. generalize mfs_ok. clear mfs_ok. induction 1 as [|h mf hs ms Hr _ IH]; [done|].
  pose proof (ro_manifest _ _ _ _ Hr) as Em. cbn in Em. cbn [collect]. rewrite IH. by rewrite Em, bind_Ok, Eb, bind_Ok, bind_Ok.
Qed.

(** A walk whose entries are as they should be makes a stream that is. *)
Lemma manifests_sent {P} `{Pruner P} (p : P) n schedule w : m <> 1 -> run_walk content (Some m) n 0 schedule (mkWalk p tasks []) = Some (Ok w) -> given_ok (given w) ->
  exists l, changed_manifests content n schedule mfids base rootpath p m = Some (Ok l) /\ sent_ok l.
Proof using depth_ok base_ok mfs_ok ILL.
  intros Hm1 Ew HG. unfold changed_manifests. destruct (Nat.eqb_spec m 1) as [|_]; [done|]. rewrite manifests_loaded, Ew.
  destruct (changed_trees _ HG) as (l & El & _). rewrite El, bind_Ok. eexists. split; [done|]. eapply walk_sent; [exact HG|exact El|].
  rewrite interleave_perm. cbn [concat]. by rewrite app_nil_r.
Qed.
End complete.

(** *** No more than the roots *)

(** How deep the trees are that are sent, for a depth that is asked for. *)
Definition levels_sent (depth : nat) : nat := if Nat.leb depth 1 then 0 else depth.

Section roots.
Context {E : Type} (content : HgEntryId -> outcome E Manifest) (rootpath : option MPath) (mfids : list HgNodeHash) (base : HgNodeHash).

Lemma roots_sent l : l ≡ₚ ((fun mfid => (root_entry mfid, rootpath)) <$> mfids) -> sent_ok content rootpath mfids base 0 l.
Proof.
  intros Hp. pose proof (roots_in rootpath mfids [] l Hp) as Hr. split; [exact Hr| |].
  - intros mfid [|name p] t Hm Hlen Ht; [|cbn in Hlen; lia]. rewrite work_at_nil in Ht. injection Ht as <-. left. by apply Hr.
  - intros e dir. rewrite Hp. intros (mfid & [= -> ->] & Hm)%list_elem_of_fmap. split; [done|]. exists mfid, []. split; [done|]. split; [done|]. split; [done|].
    split; [cbn; by rewrite app_nil_r|done].
Qed.

(** With the depth 0 the walk ends without an entry. *)
Lemma empty_walk {P} `{Pruner P} schedule n : forall turn w, Forall (fun t => exists path to from, t = Start path to from) (todo w) -> length (todo w) <= n ->
  exists w', run_walk content (Some 0) n turn schedule w = Some (Ok w') /\ given w' = given w.
Proof.
  induction n as [|n IH]; intros turn w Hw Hn; cbn [run_walk]; destruct (todo w) as [|t l] eqn:Et; [by exists w|cbn in Hn; lia|by exists w|].
  set (i := schedule turn mod S (length l)). assert (i < length (t :: l)) as Hi by (apply Nat.mod_upper_bound; done).
  destruct (lookup_lt_is_Some_2 _ _ Hi) as [t' Ht']. rewrite Ht'. cbn [default].
  pose proof Hw as Hw'. rewrite Forall_forall in Hw'. destruct (Hw' t' (list_elem_of_lookup_2 _ _ _ Ht')) as (path & to & from & ->). unfold run_task at 1. rewrite bool_decide_true by done.
  destruct (IH (S turn) (mkWalk (pruner w) (take i (t :: l) ++ drop (S i) (t :: l)) (given w))) as (w' & E' & G').
  - cbn [todo]. apply Forall_app. split; [by apply Forall_take|by apply Forall_drop].
  - cbn [todo]. rewrite length_app, length_take, length_drop. cbn [length] in *. lia.
  - by exists w'.
Qed.

Lemma shallow_sent {P} `{Pruner P} {IL : Interleave} {ILL : InterleaveLaws IL} (p : P) depth n schedule mfs : depth <= 1 -> length mfs <= n ->
  collect (fun mfid => mf ← content mfid; basemf ← content base; Ok (mf, basemf)) mfids = Ok mfs ->
  exists l, changed_manifests content n schedule mfids base rootpath p depth = Some (Ok l) /\ sent_ok content rootpath mfids base 0 l.
Proof.
  intros Hd Hn Hc. unfold changed_manifests. destruct (Nat.eqb_spec depth 1) as [->|Hd1].
  { eexists. split; [done|]. apply roots_sent. rewrite interleave_perm. cbn [concat]. by rewrite app_nil_r. }
  assert (depth = 0) as -> by lia. rewrite Hc.
  destruct (empty_walk schedule n 0 (mkWalk p ((fun x => Start rootpath x.1 x.2) <$> mfs) [])) as (w' & -> & ->).
  - cbn [todo]. apply Forall_fmap, Forall_forall. intros x _. by eexists _, _, _.
  - cbn [todo]. by rewrite length_fmap.
  - cbn. eexists. split; [done|]. apply roots_sent. rewrite interleave_perm. cbn [concat app]. by rewrite app_nil_r.
Qed.
End roots.

(** All depths, and both pruners. *)
Lemma entries_sent {E} (content : HgEntryId -> outcome E Manifest) {IL : Interleave} {ILL : InterleaveLaws IL} (params : GettreepackArgs) rootpath N basemf mfs :
  directories params = [] -> treepack_rootpath (E := E) params = Ok rootpath ->
  root_ok content N (Some (Tree, basemfnode params)) basemf -> Forall2 (fun h mf => root_ok content N (Some (Tree, h)) mf) (mfnodes params) mfs ->
  exists bound, forall n schedule, bound <= n -> exists l, gettreepack_entries content n schedule params = Some (Ok (first_with_hash [] l)) /\
    sent_ok content rootpath (mfnodes params) (basemfnode params) (levels_sent (fetchdepth params)) l.
Proof.
  intros Hdir Hroot Hbase Hmfs. pose proof (manifests_loaded content N _ _ _ _ Hbase Hmfs) as Hload.
  unfold gettreepack_entries, levels_sent. rewrite Hdir, Hroot. cbn [length Nat.eqb negb]. destruct (Nat.leb_spec (fetchdepth params) 1) as [Hd|Hd].
  - exists (length mfs). intros n schedule Hn. assert (length ((fun mf => (mf, basemf)) <$> mfs) <= n) as Hn' by by rewrite length_fmap.
    destruct (Nat.ltb_spec 1 (length (mfnodes params))) as [Hlen|Hlen].
    + destruct (shallow_sent content rootpath _ _ (mkCombinator default_pruner (mkVisited [])) _ n schedule _ Hd Hn' Hload) as (l & -> & Hl). by exists l.
    + destruct (mfnodes params) as [|h [|h' hs]] eqn:Em; [exists []; split; [done|]; by apply roots_sent| |cbn in Hlen; lia].
      destruct (shallow_sent content rootpath _ _ default_pruner _ n schedule _ Hd Hn' Hload) as (l & -> & Hl). by exists l.
  - assert (1 <= fetchdepth params) as Hd1 by lia. assert (fetchdepth params <> 1) as Hd2 by lia.
    destruct (Nat.ltb_spec 1 (length (mfnodes params))) as [Hlen|Hlen].
    + destruct (visited_given content rootpath N _ _ _ basemf mfs Hd1 Hbase Hmfs) as [bound Hb]. exists bound. intros n schedule Hn. destruct (Hb n schedule Hn) as (w & Ew & HG).
      destruct (manifests_sent content rootpath N _ _ _ basemf mfs Hd1 Hbase Hmfs _ n schedule w Hd2 Ew HG) as (l & -> & Hl). by exists l.
    + destruct (mfnodes params) as [|h [|h' hs]] eqn:Em; [| |cbn in Hlen; lia].
      * exists 0. intros n schedule _. exists []. split; [done|]. split; [by intros ? ?%elem_of_nil|by intros ? ? ? ?%elem_of_nil|by intros ? ? ?%elem_of_nil].
      * destruct (default_given content rootpath N _ _ _ basemf mfs Hd1 Hbase Hmfs) as [bound Hb]. exists bound. intros n schedule Hn. destruct (Hb n schedule Hn) as (w & Ew & HG).
        destruct (manifests_sent content rootpath N _ _ _ basemf mfs Hd1 Hbase Hmfs _ n schedule w Hd2 Ew HG) as (l & -> & Hl). by exists l.
Qed.

(** C17. What [gettreepack] sends is complete and no more than that, if the
    manifests load and no directories are named: every root asked for is sent,
    also when the base is the same; every tree below one, down to the depth
    asked for, is sent or is in the base manifest at the same place, where the
    depths 0 and 1 ask for nothing below the roots ([levels_sent]); whatever is
    sent is such a tree, at its path, and below the root differs from what the
    base has there; and no hash is sent twice. *)
Theorem gettreepack_complete {E} (content : HgEntryId -> outcome E Manifest) {IL : Interleave} {ILL : InterleaveLaws IL} (params : GettreepackArgs) rootpath N :
  directories params = [] -> treepack_rootpath (E := E) params = Ok rootpath ->
  (forall h, h = basemfnode params \/ h ∈ mfnodes params -> exists mf, root_ok content N (Some (Tree, h)) mf) ->
  exists bound, forall n schedule, bound <= n -> exists l, gettreepack_entries content n schedule params = Some (Ok l) /\
    NoDup ((get_hash ∘ fst) <$> l) /\
    (forall mfid, mfid ∈ mfnodes params -> mfid ∈ (get_hash ∘ fst) <$> l) /\
    (forall mfid p t, mfid ∈ mfnodes params -> length p <= levels_sent (fetchdepth params) -> work_at content (Some (Tree, mfid)) p = Some (Tree, t) ->
      t ∈ (get_hash ∘ fst) <$> l \/ work_at content (Some (Tree, basemfnode params)) p = Some (Tree, t)) /\
    (forall e dir, (e, dir) ∈ l -> get_type e = Tree /\ exists mfid p, mfid ∈ mfnodes params /\ length p <= levels_sent (fetchdepth params) /\
      work_at content (Some (Tree, mfid)) p = Some (Tree, get_hash e) /\ iter_opt (join_element_opt dir (get_name e)) = iter_opt rootpath ++ p /\
      (p <> [] -> work_at content (Some (Tree, basemfnode params)) p <> Some (Tree, get_hash e))).
Proof.
  intros Hdir Hroot Hload. destruct (Hload (basemfnode params)) as [basemf Hbase]; [by left|].
  assert (exists mfs, Forall2 (fun h mf => root_ok content N (Some (Tree, h)) mf) (mfnodes params) mfs) as [mfs Hmfs].
  { assert (forall h, h ∈ mfnodes params -> exists mf, root_ok content N (Some (Tree, h)) mf) as H by (intros h Hh; apply Hload; by right).
    clear Hload. induction (mfnodes params) as [|h hs IH]; [by exists []|]. destruct (H h) as [mf Hmf]; [by left|]. destruct IH as [mfs Hmfs]; [intros; apply H; by right|].
    exists (mf :: mfs). by constructor. }
  destruct (entries_sent content params rootpath N basemf mfs Hdir Hroot Hbase Hmfs) as [bound Hb].
  exists bound. intros n schedule Hn. destruct (Hb n schedule Hn) as (l & El & [H0 H1 H2]). exists (first_with_hash [] l). split; [done|].
  destruct (first_with_hash_ok l []) as (Hnd & Hs & Hh). split; [exact Hnd|]. split; [|split; [|intros e dir Hin; by apply H2, Hs]].
  - intros mfid Hm. apply Hh. split; [by apply H0|apply not_elem_of_nil].
  - intros mfid p t Hm Hp Ht. rewrite Hh. destruct (H1 mfid p t Hm Hp Ht) as [?|?]; [left; split; [done|apply not_elem_of_nil]|by right].
Qed.

(** ** Examples *)

Section example.
#[local] Open Scope string_scope.
#[local] Open Scope list_scope.
#[local] Instance tp_interleave : Interleave := {| interleave A ls := concat ls |}.
#[local] Instance tp_interleave_laws : InterleaveLaws tp_interleave.
Proof. by split. Qed.

Definition tp_args (depth : option nat) (mfnodes base : list HgNodeHash) : GettreepackArgs := mkTreepackArgs [] mfnodes base [] depth.

Lemma gettreepack_complete_witness : exists n l, gettreepack_entries md_content n (fun turn => turn) (tp_args None [md_hash x01; md_hash x03] [md_hash x03]) = Some (Ok l) /\
  md_hash x02 ∈ (get_hash ∘ fst) <$> l.
Proof.
  destruct (gettreepack_complete md_content (tp_args None [md_hash x01; md_hash x03] [md_hash x03]) None 1) as [bound Hb].
  - reflexivity.
  - reflexivity.
  - intros h [->|[->|[->|[]%elem_of_nil]%elem_of_cons]%elem_of_cons]; [exists md_from; exact md_root_from|exists md_to; exact md_root_to|exists md_from; exact md_root_from].
  - destruct (Hb bound (fun turn => turn) (le_n bound)) as (l & El & _ & _ & Hall & _). exists bound, l. split; [exact El|].
    destruct (Hall (md_hash x01) [md_name "d"] (md_hash x02)) as [H|H]; [by left|apply Nat.leb_le; reflexivity|vm_compute; reflexivity|exact H|].
    exfalso. vm_compute in H. discriminate H.
Defined.

(** Directories in directories: with the depth 1 the root is sent, with the
    depth 2 the root and two levels below it. *)
Definition deep_content (h : HgEntryId) : outcome unit Manifest :=
  if decide (h = md_hash x05) then Ok [md_entry "d" Tree x04]
  else if decide (h = md_hash x04) then Ok [md_entry "e" Tree x02]
  else if decide (h = md_hash x02) then Ok [md_entry "f" Tree x01]
  else Ok [].

Definition sent_hashes (r : option (outcome (treepack_error unit) (list (Entry * option MPath)))) : option (list HgNodeHash) :=
  match r with Some (Ok l) => Some ((get_hash ∘ fst) <$> l) | _ => None end.

Example depth_levels :
  sent_hashes (gettreepack_entries deep_content 100 (fun turn => turn) (tp_args (Some 1) [md_hash x05] [])) = Some [md_hash x05] /\
  sent_hashes (gettreepack_entries deep_content 100 (fun turn => turn) (tp_args (Some 2) [md_hash x05] [])) = Some [md_hash x04; md_hash x02; md_hash x05].
Proof. vm_compute. by split. Qed.
End example.
