(* ===== verification/HgManifest.v ===== *)
(** * Mercurial manifests in the blob store

    Model of [src/blobrepo/src/manifest.rs] (the text of a manifest and its
    loading), of [src/mercurial_types/src/blobnode.rs] (node ids), and of the
    upload of trees in [src/blobrepo/src/repo.rs]. Entries and manifests are
    those of [BonsaiDiff]. *)

From S2P Require Import Prelude Ord Path Hash Bonsai BonsaiDiff.

(** ** The text of a manifest

    A line per entry: the name, a zero byte, the hash, and a flag. *)

Inductive manifest_error :=
| MalformedNoNul
| MalformedNoHash
| InvalidManifestPath (e : path_error)
| HashTooSmall
| HashNotUtf8
| MalformedHash (e : hash_error)
| TooManyFlags
| UnknownFlag (b : byte)
| ManifestIdMismatch (requested got : HgNodeHash)
| InconsistentEntryHash (provided computed : HgNodeHash).

Record Details := mkDetails { entryid : HgEntryId; flag : Type_ }.

Definition manifest_suffix (t : Type_) : bytes :=
  match t with
  | Tree => bstr "t"
  | File Symlink => bstr "l"
  | File Executable => bstr "x"
  | File Regular => []
  end.

Definition HgNodeHash_from_str (s : bytes) : outcome hash_error HgNodeHash := mkNode <$> Sha1_from_str s.
Definition HgNodeHash_to_hex (h : HgNodeHash) : bytes := Sha1_to_hex (node_sha1 h).

Definition Details_parse (data : bytes) : outcome manifest_error Details :=
  _ ← ensure (Nat.leb 40 (length data)) HashTooSmall;
  let '(hash, flags) := (take 40 data, drop 40 data) in
  hash ← ok_or (from_utf8 hash) HashNotUtf8;
  hash ← map_err MalformedHash (HgNodeHash_from_str hash);
  _ ← ensure (Nat.leb (length flags) 1) TooManyFlags;
  flag ← match flags with
         | [] => Ok (File Regular)
         | b :: _ =>
             if decide (b = x6c) then Ok (File Symlink)
             else if decide (b = x78) then Ok (File Executable)
             else if decide (b = x74) then Ok Tree
             else Err (UnknownFlag b)
         end;
  Ok (mkDetails hash flag).

(** The position of the first zero byte. *)
Fixpoint find_nul (l : bytes) : option nat :=
  match l with
  | [] => None
  | b :: l => if decide (b = nul) then Some 0 else S <$> find_nul l
  end.

Definition parse_line (line : bytes) : outcome manifest_error (MPathElement * Details) :=
  match find_nul line with
  | None => Err MalformedNoNul
  | Some nil_ =>
      match drop nil_ line with
      | [] => Err MalformedNoHash
      | _ :: hash =>
          path ← map_err InvalidManifestPath (MPathElement_new (take nil_ line));
          details ← Details_parse hash;
          Ok (path, details)
      end
  end.

Fixpoint parse_lines (lines : list bytes) (files : list (MPathElement * Details))
    : outcome manifest_error (list (MPathElement * Details)) :=
  match lines with
  | [] => Ok files
  | [] :: _ => Ok files
  | line :: lines => x ← parse_line line; parse_lines lines (btree_insert x.1 x.2 files)
  end.

(** [ManifestContent]: the details by name. *)
Definition ManifestContent := list (MPathElement * Details).
Definition ManifestContent_parse (data : bytes) : outcome manifest_error ManifestContent :=
  parse_lines (split_on nl data) [].

(** What [save] writes for its entries. *)
Definition manifest_line (x : MPathElement * Details) : bytes :=
  elem x.1 ++ [nul] ++ HgNodeHash_to_hex (entryid x.2) ++ manifest_suffix (flag x.2) ++ [nl].
Definition manifest_text (entries : ManifestContent) : bytes := concat (manifest_line <$> entries).

Definition details_entry (x : MPathElement * Details) : Entry := mkEntry (Some x.1) (flag x.2) (entryid x.2).
Definition content_list (m : ManifestContent) : Manifest := details_entry <$> m.
Definition content_lookup (m : ManifestContent) (path : MPathElement) : option Entry :=
  (fun d => details_entry (path, d)) <$> btree_get path m.

(** *** Round trip *)

Definition content_ok (m : ManifestContent) : Prop :=
  btree_wf m /\ Forall (fun x => valid_elem x.1 /\ valid_node (entryid x.2)) m.

Lemma hex_pair_chars b : Forall (fun c => (Byte.to_N c <= 127)%N /\ c <> nl) (hex_pair b).
Proof. destruct b; repeat constructor; done. Qed.

Lemma hex_of_chars l : Forall (fun c => (Byte.to_N c <= 127)%N /\ c <> nl) (hex_of l).
Proof. induction l as [|b l IH]; [constructor|]. cbn [hex_of]. apply Forall_app. split; [apply hex_pair_chars|done]. Qed.

Lemma Details_parse_text d : valid_node (entryid d) ->
  Details_parse (HgNodeHash_to_hex (entryid d) ++ manifest_suffix (flag d)) = Ok d.
Proof.
  destruct d as [[h] fl]. cbn. intros Hv. unfold Details_parse, HgNodeHash_to_hex. cbn [node_sha1].
  assert (length (Sha1_to_hex h) = 40) as Hlen.
  { unfold Sha1_to_hex. rewrite length_hex_of. unfold valid_node, valid_sha1 in Hv. cbn in Hv. lia. }
  rewrite length_app, Hlen. rewrite (proj2 (Nat.leb_le 40 _)) by lia. rewrite take_app_length', drop_app_length' by done.
  assert (from_utf8 (Sha1_to_hex h) = Some (Sha1_to_hex h)) as ->.
  { unfold from_utf8. rewrite utf8_valid_ascii; [done|]. eapply Forall_impl; [apply hex_of_chars|]. by intros c [? _]. }
  pose proof (proj1 (proj2 (hex_roundtrip (mkBlake2 []) h [] (List.Forall_nil _))) Hv) as Hr. rewrite app_nil_r in Hr.
  unfold HgNodeHash_from_str. cbn. rewrite Hr. cbn. destruct fl as [[]|]; reflexivity.
Qed.

(** A line without its end. *)
Definition line_body (x : MPathElement * Details) : bytes :=
  elem x.1 ++ nul :: HgNodeHash_to_hex (entryid x.2) ++ manifest_suffix (flag x.2).

Lemma find_nul_app p l : nul ∉ p -> find_nul (p ++ nul :: l) = Some (length p).
Proof.
  induction p as [|b p IH]; cbn; [done|]. intros [Hb Hp]%not_elem_of_cons. rewrite decide_False by congruence. by rewrite IH.
Qed.

Lemma parse_line_body x : valid_elem x.1 -> valid_node (entryid x.2) -> parse_line (line_body x) = Ok x.
Proof.
  destruct x as [[name] d]. cbn. intros Hn Hd. unfold parse_line, line_body. cbn [fst snd elem].
  pose proof (proj1 (valid_elem_iff _) Hn) as (_ & Hnul & _). cbn in Hnul.
  rewrite find_nul_app, drop_app_length, take_app_length by done.
  unfold MPathElement_new. unfold valid_elem in Hn. cbn in Hn. rewrite Hn. cbn. by rewrite Details_parse_text.
Qed.

Lemma line_body_no_nl x : valid_elem x.1 -> nl ∉ line_body x.
Proof.
  intros (_ & _ & _ & _ & Hnl)%valid_elem_iff. unfold line_body. rewrite not_elem_of_app, not_elem_of_cons, not_elem_of_app.
  split; [done|]. split; [done|]. split.
  - intros Hin. pose proof (hex_of_chars (sha1_bytes (node_sha1 (entryid x.2)))) as Hc. rewrite Forall_forall in Hc.
    by destruct (Hc nl Hin).
  - destruct (flag x.2) as [[]|]; cbn; rewrite ?not_elem_of_cons; (repeat split); try done; apply not_elem_of_nil.
Qed.

Lemma parse_lines_bodies m : Forall (fun x => valid_elem x.1 /\ valid_node (entryid x.2)) m -> forall files,
  parse_lines ((line_body <$> m) ++ [[]]) files = Ok (foldl (fun f '(k, v) => btree_insert k v f) files m).
Proof.
  induction 1 as [|x m [Hn Hd] _ IH]; intros files; [done|]. cbn [fmap list_fmap app parse_lines].
  destruct (line_body x) as [|b l] eqn:E.
  { unfold line_body in E. by destruct (elem x.1). }
  rewrite <- E, parse_line_body by done. rewrite bind_Ok. rewrite IH. by destruct x.
Qed.

(** A manifest that [save] writes is read back. *)
Lemma manifest_text_roundtrip m : content_ok m -> ManifestContent_parse (manifest_text m) = Ok m.
Proof.
  intros [Hwf Hv]. unfold ManifestContent_parse.
  assert (split_on nl (manifest_text m) = (line_body <$> m) ++ [[]]) as ->.
  { unfold manifest_text. clear Hwf. induction Hv as [|x m [Hn _] _ IH]; [done|]. cbn [fmap list_fmap concat].
    assert (manifest_line x ++ concat (manifest_line <$> m) = line_body x ++ nl :: concat (manifest_line <$> m)) as ->.
    { unfold manifest_line, line_body. by rewrite <- !app_assoc; cbn; rewrite <- !app_assoc. }
    rewrite split_on_app_sep by by apply line_body_no_nl. by rewrite IH. }
  rewrite parse_lines_bodies by done. f_equal. by apply btree_collect_id.
Qed.

(** ** Node ids *)

Inductive HgParents :=
| NoParents
| One (p1 : HgNodeHash)
| Two (p1 p2 : HgNodeHash).

Definition HgParents_new (p1 p2 : option HgNodeHash) : HgParents :=
  match p1, p2 with
  | None, None => NoParents
  | Some p1, None => One p1
  | None, Some p2 => One p2
  | Some p1, Some p2 => Two p1 p2
  end.

Definition get_nodes (p : HgParents) : option HgNodeHash * option HgNodeHash :=
  match p with
  | NoParents => (None, None)
  | One p1 => (Some p1, None)
  | Two p1 p2 => (Some p1, Some p2)
  end.

(** The hash of the bytes that a [Context] was updated with. *)
Class Sha1Context := { digest : bytes -> Sha1 }.
Class Sha1ContextLaws (C : Sha1Context) : Prop := { digest_valid data : valid_sha1 (digest data) }.

Section store.
Context {C : Sha1Context}.

(** [HgBlobNode::nodeid]: the smaller parent comes first. *)
Definition nodeid (data : bytes) (parents : HgParents) : HgNodeHash :=
  let '(h1, h2) :=
    match parents with
    | NoParents => (NULL, NULL)
    | One p1 => (NULL, node_sha1 p1)
    | Two p1 p2 =>
        match cmp (HgNodeHash_as_bytes p1) (HgNodeHash_as_bytes p2) with
        | Gt => (node_sha1 p2, node_sha1 p1)
        | _ => (node_sha1 p1, node_sha1 p2)
        end
    end in
  mkNode (digest (sha1_bytes h1 ++ sha1_bytes h2 ++ data)).

(** ** Manifests in the blob store *)

Record HgManifestEnvelope := mkEnvelope {
  node_id : HgNodeHash;
  env_p1 : option HgNodeHash;
  env_p2 : option HgNodeHash;
  computed_node_id : HgNodeHash;
  contents : bytes
}.

(** What has been put under the keys of manifests, the latest first. *)
Definition ManifestStore := list (HgNodeHash * HgManifestEnvelope).

Definition fetch_manifest_envelope_opt (node : HgNodeHash) (store : ManifestStore) : outcome manifest_error (option HgManifestEnvelope) :=
  match hm_get node store with
  | None => Ok None
  | Some envelope =>
      if decide (node = node_id envelope) then Ok (Some envelope)
      else Err (ManifestIdMismatch node (node_id envelope))
  end.

Definition BlobManifest_load (manifestid : HgNodeHash) (store : ManifestStore) : outcome manifest_error (option ManifestContent) :=
  if decide (manifestid = NULL_HASH) then Ok (Some [])
  else
    envelope ← fetch_manifest_envelope_opt manifestid store;
    match envelope with
    | Some envelope => content ← ManifestContent_parse (contents envelope); Ok (Some content)
    | None => Ok None
    end.

Inductive UploadHgNodeHash :=
| Generate
| Supplied (node_id : HgNodeHash)
| Checked (node_id : HgNodeHash).

Record UploadHgTreeEntry := mkUploadTree {
  upload_node_id : UploadHgNodeHash;
  tree_contents : bytes;
  tree_p1 : option HgNodeHash;
  tree_p2 : option HgNodeHash;
  tree_path : RepoPath
}.

Definition upload_to_blobstore (u : UploadHgTreeEntry) (store : ManifestStore)
    : outcome manifest_error (ManifestStore * (Entry * RepoPath)) :=
  let computed_node_id := nodeid (tree_contents u) (HgParents_new (tree_p1 u) (tree_p2 u)) in
  node_id ← match upload_node_id u with
            | Generate => Ok computed_node_id
            | Supplied node_id => Ok node_id
            | Checked node_id =>
                if decide (node_id = computed_node_id) then Ok node_id
                else Err (InconsistentEntryHash node_id computed_node_id)
            end;
  let envelope := mkEnvelope node_id (tree_p1 u) (tree_p2 u) computed_node_id (tree_contents u) in
  let blob_entry := mkEntry (path ← RepoPath_mpath (tree_path u); last (elements path)) Tree node_id in
  Ok ((node_id, envelope) :: store, (blob_entry, tree_path u)).

(** *** The contract of the blob store

    [blobstore/src/lib.rs]: at most one value is ever put under a key. No
    manifest has the id that stands for the empty one. *)
Definition one_value_per_key (store : ManifestStore) : Prop :=
  (forall k v v', (k, v) ∈ store -> (k, v') ∈ store -> v = v') /\ forall v, (NULL_HASH, v) ∉ store.

Lemma hm_get_elem {A} (l : list (HgNodeHash * A)) k v : hm_get k l = Some v -> (k, v) ∈ l.
Proof.
  induction l as [|[k' v'] l IH]; cbn; [done|]. case_decide as E; [intros [= ->]; subst; by left|]. intros H. right. by apply IH.
Qed.

Lemma elem_hm_get {A} (l : list (HgNodeHash * A)) k v : (k, v) ∈ l -> is_Some (hm_get k l).
Proof.
  induction l as [|[k' v'] l IH]; cbn; [by intros ?%elem_of_nil|]. case_decide as E; [by eexists|].
  intros [[= -> ->]|H]%elem_of_cons; [done|by apply IH].
Qed.

(** It can be tested. *)
#[export] Instance envelope_eq_dec : EqDecision HgManifestEnvelope.
Proof. solve_decision. Defined.

Definition one_value_check (store : ManifestStore) : bool :=
  forallb (fun x => negb (bool_decide (x.1 = NULL_HASH)) && forallb (fun y => negb (bool_decide (x.1 = y.1)) || bool_decide (x.2 = y.2)) store) store.

Lemma one_value_checked store : one_value_check store = true -> one_value_per_key store.
Proof.
  unfold one_value_check. rewrite forallb_forall. intros H. split.
  - intros k v v' H1%list_elem_of_In H2%list_elem_of_In. apply H in H1 as [_ H1]%andb_true_iff. rewrite forallb_forall in H1. specialize (H1 _ H2).
    cbn in H1. rewrite bool_decide_true in H1 by done. by apply bool_decide_eq_true in H1.
  - intros v H1%list_elem_of_In. apply H in H1 as [H1 _]%andb_true_iff. cbn in H1. by rewrite bool_decide_true in H1.
Qed.

(** Later puts change nothing that was there. *)
Lemma load_later new store h m : one_value_per_key (new ++ store) -> BlobManifest_load h store = Ok (Some m) ->
  BlobManifest_load h (new ++ store) = Ok (Some m).
Proof.
  intros [H1 H2]. unfold BlobManifest_load, fetch_manifest_envelope_opt. case_decide; [done|].
  destruct (hm_get h store) as [env|] eqn:E; [|done]. apply hm_get_elem in E.
  assert ((h, env) ∈ new ++ store) as Hin by (apply elem_of_app; by right).
  destruct (elem_hm_get _ _ _ Hin) as [env' E']. rewrite E'. apply hm_get_elem in E'. by rewrite (H1 h env' env E' Hin).
Qed.

(** What has just been uploaded loads. *)
Lemma load_uploaded content p1 p2 store : content_ok content ->
  let id := nodeid (manifest_text content) (HgParents_new p1 p2) in
  let store' := (id, mkEnvelope id p1 p2 id (manifest_text content)) :: store in
  one_value_per_key store' -> BlobManifest_load id store' = Ok (Some content).
Proof.
  intros Hc id store' [_ Hnull]. unfold BlobManifest_load. case_decide as E.
  { destruct (Hnull (mkEnvelope id p1 p2 id (manifest_text content))). rewrite <- E. by left. }
  unfold fetch_manifest_envelope_opt, store'. cbn [hm_get]. rewrite decide_True by done. cbn [node_id]. rewrite decide_True by done.
  rewrite bind_Ok. cbn [contents]. by rewrite manifest_text_roundtrip.
Qed.

(** What is loaded is in order. *)
Lemma parse_lines_ok lines : forall files m, content_ok files -> parse_lines lines files = Ok m -> content_ok m.
Proof.
  induction lines as [|line lines IH]; intros files m Hf; cbn [parse_lines]; [by intros [= <-]|].
  destruct line as [|b l]; [by intros [= <-]|]. intros ([name d] & Hx & Hm)%bind_Ok_inv. apply (IH _ _) in Hm; [done|].
  destruct Hf as [Hwf Hv]. split; [by apply btree_insert_wf|]. apply Forall_forall. intros y [->|Hy]%btree_insert_elem.
  2:{ rewrite Forall_forall in Hv. by apply Hv. }
  unfold parse_line in Hx. destruct (find_nul (b :: l)); [|done]. destruct (drop n (b :: l)) as [|c hash]; [done|].
  apply bind_Ok_inv in Hx as (path & Hp & Hx). apply bind_Ok_inv in Hx as (d' & Hd & [= <- <-]).
  unfold map_err in Hp. destruct (MPathElement_new _) as [p'| |] eqn:Ep; try done. injection Hp as ->. cbn. split.
  - unfold MPathElement_new in Ep. destruct (MPathElement_verify _) as [[]| |] eqn:Ev; try done. injection Ep as <-. exact Ev.
  - unfold Details_parse in Hd. apply bind_Ok_inv in Hd as (_ & _ & Hd). destruct (from_utf8 _) as [h0|]; [|done]. cbn in Hd.
    apply bind_Ok_inv in Hd as (h & Hh & Hd). apply bind_Ok_inv in Hd as (_ & _ & Hd). apply bind_Ok_inv in Hd as (f & _ & [= <-]).
    cbn. unfold map_err, HgNodeHash_from_str in Hh. destruct (Sha1_from_str h0) as [sh| |] eqn:Es; try done. cbn in Hh. injection Hh as <-.
    unfold valid_node. cbn. by apply (proj2 (proj2 (proj2 (hex_roundtrip (mkBlake2 []) NULL [] (List.Forall_nil _)))) h0).
Qed.

Lemma load_ok h store m : BlobManifest_load h store = Ok (Some m) -> content_ok m.
Proof.
  assert (content_ok []) as Hnil by (split; constructor).
  unfold BlobManifest_load. case_decide; [by intros [= <-]|]. intros ([env|] & _ & Hm)%bind_Ok_inv; [|done].
  apply bind_Ok_inv in Hm as (c & Hc & [= <-]). by eapply parse_lines_ok.
Qed.
End store.

(** ** Paths and ids as text *)

(** A byte that is not in a constant. *)
Ltac not_in_const := vm_compute; let H := fresh in intros H; repeat (apply elem_of_cons in H as [H|H]; [discriminate|]); by apply elem_of_nil in H.

Lemma to_vec_no_nl path : valid_path path -> nl ∉ to_vec path /\ to_vec path <> [].
Proof.
  intros [Hne Hv]. split.
  - intros [?|Hex]%to_vec_bytes; [done|]. apply Exists_exists in Hex as (e & He & Hb). rewrite Forall_forall in Hv.
    by apply (proj1 (valid_elem_iff e) (Hv e He)).
  - destruct path as [[|e es]]; [done|]. apply Forall_cons in Hv as [(He & _)%valid_elem_iff _]. unfold to_vec. cbn.
    destruct (elem e); [done|]. by destruct es.
Qed.

Lemma hex_no_nl h : nl ∉ HgNodeHash_to_hex h.
Proof.
  intros Hin. pose proof (hex_of_chars (sha1_bytes (node_sha1 h))) as Hc. rewrite Forall_forall in Hc. by destruct (Hc nl Hin).
Qed.

Lemma node_from_hex h : valid_node h -> from_utf8 (HgNodeHash_to_hex h) = Some (HgNodeHash_to_hex h) /\ HgNodeHash_from_str (HgNodeHash_to_hex h) = Ok h.
Proof.
  destruct h as [h]. intros Hv. unfold HgNodeHash_to_hex, HgNodeHash_from_str. cbn [node_sha1]. split.
  - unfold from_utf8. rewrite utf8_valid_ascii; [done|]. eapply Forall_impl; [apply hex_of_chars|]. by intros c [? _].
  - pose proof (proj1 (proj2 (hex_roundtrip (mkBlake2 []) h [] (List.Forall_nil _))) Hv) as Hr. rewrite app_nil_r in Hr. cbn in Hr |- *. by rewrite Hr.
Qed.
