(* ===== verification/HgFile.v ===== *)
(** * Mercurial files

    Model of [src/mercurial/src/file.rs]: the metadata that Mercurial puts in
    front of a file's content, which says what the file was copied from, and
    the pointer files of LFS. [Sha256] is of [src/mononoke_types/src/hash.rs]. *)

From stdpp Require Import gmap.
From S2P Require Import Prelude Path Hash Decimal BonsaiDiff HgManifest.

Inductive file_error :=
| InvalidCopyPath (e : path_error)
| IncorrectLfsVersion
| IncorrectLfsOid
| IncorrectLfsSize
| NotUtf8.

(** ** [Sha256] *)

Record Sha256 := mkSha256 { sha256_bytes : bytes }.

Definition Sha256_to_hex (h : Sha256) : bytes := hex_of (sha256_bytes h).
Definition Sha256_from_str (s : bytes) : outcome hash_error Sha256 :=
  if negb (Nat.eqb (length s) 64) then Err NeedHexDigits else
  ret ← hex_loop 32 0 s; Ok (mkSha256 ret).
Definition valid_sha256 (h : Sha256) : Prop := length (sha256_bytes h) = 32.

(** ** Metadata *)

Record HgBlobNode := mkBlobNode { blob : bytes; parents : HgParents }.
Record File := mkFile { node : HgBlobNode }.

Definition File_new (blob : bytes) (p1 p2 : option HgNodeHash) : File := mkFile (mkBlobNode blob (HgParents_new p1 p2)).
Definition data_only (blob : bytes) : File := File_new blob None None.

Definition META_MARKER : bytes := [x01; nl].
Definition META_SZ : nat := 2.
Definition COPY_PATH_KEY : bytes := bstr "copy".
Definition COPY_REV_KEY : bytes := bstr "copyrev".

(** The first window of two bytes that is the marker. *)
Fixpoint find_marker (l : bytes) : option nat :=
  match l with
  | a :: (b :: _) as t => if decide (a = x01 /\ b = nl) then Some 0 else S <$> find_marker t
  | _ => None
  end.

Definition extract_meta (file : bytes) : bytes * nat :=
  if Nat.ltb (length file) META_SZ then ([], 0)
  else if negb (bool_decide (take META_SZ file = META_MARKER)) then ([], 0)
  else
    let metasz := match find_marker (drop META_SZ file) with Some idx => idx + META_SZ * 2 | None => META_SZ end in
    if Nat.leb (META_SZ * 2) metasz then (take (metasz - META_SZ - META_SZ) (drop META_SZ file), metasz)
    else ([], metasz).

(** The first position where [line] goes on with the delimiter. *)
Fixpoint find_delimiter (delimiter line : bytes) : option nat :=
  if bool_decide (take (length delimiter) line = delimiter) then Some 0
  else match line with [] => None | _ :: line => S <$> find_delimiter delimiter line end.

Definition parse_to_hash_map (content delimiter : bytes) : gmap bytes bytes :=
  foldl (fun kv line =>
    match find_delimiter delimiter line with
    | Some idx => <[take idx line := drop (idx + length delimiter) line]> kv
    | None => kv
    end) ∅ (split_on nl content).

Definition parse_meta (file : bytes) : gmap bytes bytes := parse_to_hash_map (extract_meta file).1 (bstr ": ").
Definition parse_content_to_lfs_hash_map (content : bytes) : gmap bytes bytes := parse_to_hash_map content (bstr " ").

(** [ok()] of a result. *)
Definition ok_opt {E E' A} (r : outcome E A) : outcome E' (option A) :=
  match r with Ok a => Ok (Some a) | Err _ => Ok None | Panic => Panic end.

Definition get_copied_from_with_keys (meta : gmap bytes bytes) (copy_path_key copy_rev_key : bytes)
    : outcome file_error (option (MPath * HgNodeHash)) :=
  let path := MPath_new <$> meta !! copy_path_key in
  nodeid ← match meta !! copy_rev_key ≫= from_utf8 with
           | Some rev => ok_opt (HgNodeHash_from_str rev)
           | None => Ok None
           end;
  match path, nodeid with
  | Some (Ok path), Some nodeid => Ok (Some (path, nodeid))
  | Some (Err e), _ => Err (InvalidCopyPath e)
  | Some Panic, _ => Panic
  | _, _ => Ok None
  end.

Definition get_copied_from (meta : gmap bytes bytes) : outcome file_error (option (MPath * HgNodeHash)) :=
  get_copied_from_with_keys meta COPY_PATH_KEY COPY_REV_KEY.
Definition copied_from (f : File) : outcome file_error (option (MPath * HgNodeHash)) :=
  get_copied_from (parse_meta (blob (node f))).

Definition generate_metadata (copy_from : option (MPath * HgNodeHash)) (file_contents : bytes) : bytes :=
  match copy_from with
  | None => if bool_decide (take META_SZ file_contents = META_MARKER) then META_MARKER ++ META_MARKER else []
  | Some (path, version) =>
      META_MARKER ++ COPY_PATH_KEY ++ bstr ": " ++ to_vec path ++ [nl] ++
      COPY_REV_KEY ++ bstr ": " ++ HgNodeHash_to_hex version ++ [nl] ++ META_MARKER
  end.

Definition metadata (f : File) : bytes := let data := blob (node f) in take (extract_meta data).2 data.
Definition file_contents (f : File) : bytes := let data := blob (node f) in drop (extract_meta data).2 data.

(** ** LFS *)

Definition VERSION : bytes := bstr "version".
Definition OID : bytes := bstr "oid".
Definition SIZE : bytes := bstr "size".
Definition HGCOPY : bytes := bstr "x-hg-copy".
Definition HGCOPYREV : bytes := bstr "x-hg-copyrev".
Definition GIT_VERSION : bytes := bstr "https://git-lfs.github.com/spec/v1".
Definition SHA256_PREFIX : bytes := bstr "sha256:".

Record LFSContent := mkLfs { version : bytes; oid : Sha256; size : N; copy_from : option (MPath * HgNodeHash) }.

(** [s.parse::<u64>()]: a plus sign is allowed, overflow is an error. *)
Definition u64_digit (acc : option N) (b : byte) : option N :=
  acc ← acc;
  if is_digit b then let v := (acc * 10 + digit_value b)%N in if (v <? 2 ^ 64)%N then Some v else None else None.
Definition u64_from_str (s : bytes) : option N :=
  let digits := match s with b :: r => if decide (b = plus_sign) then r else s | [] => [] end in
  match digits with [] => None | _ => foldl u64_digit (Some 0%N) digits end.

(** The hexadecimal digits after the prefix: [s] is cut with [&s[..7]]. *)
Definition oid_digits (s : bytes) : outcome file_error (option bytes) :=
  let prefix_len := length SHA256_PREFIX in
  if Nat.leb prefix_len (length s) then
    prefix ← str_slice s 0 prefix_len;
    if bool_decide (prefix = SHA256_PREFIX) then Some <$> str_slice s prefix_len (length s) else Ok None
  else Ok None.

(** The hash of the [oid] field, if there is a right one. *)
Definition lfs_oid (contents : gmap bytes bytes) : outcome file_error (option Sha256) :=
  digits ← match contents !! OID ≫= from_utf8 with Some s => oid_digits s | None => Ok None end;
  match digits with Some s => ok_opt (Sha256_from_str s) | None => Ok None end.

Definition parse_mandatory_lfs (contents : gmap bytes bytes) : outcome file_error (bytes * Sha256 * N)%type :=
  version ← ok_or (s ← contents !! VERSION; from_utf8 s) IncorrectLfsVersion;
  oid ← lfs_oid contents;
  oid ← ok_or oid IncorrectLfsOid;
  size ← ok_or (s ← contents !! SIZE; s ← from_utf8 s; u64_from_str s) IncorrectLfsSize;
  Ok (version, oid, size).

Definition get_copied_lfs (contents : gmap bytes bytes) : outcome file_error (option (MPath * HgNodeHash)) :=
  get_copied_from_with_keys contents HGCOPY HGCOPYREV.

Definition get_lfs_struct (contents : gmap bytes bytes) : outcome file_error LFSContent :=
  x ← parse_mandatory_lfs contents;
  copy_from ← get_copied_lfs contents;
  let '(version, oid, size) := x in Ok (mkLfs version oid size copy_from).

Definition get_lfs_content (f : File) : outcome file_error LFSContent :=
  get_lfs_struct (parse_content_to_lfs_hash_map (file_contents f)).

Definition LFSContent_into_bytes (l : LFSContent) : bytes :=
  VERSION ++ bstr " " ++ version l ++ [nl] ++
  OID ++ bstr " " ++ SHA256_PREFIX ++ Sha256_to_hex (oid l) ++ [nl] ++
  SIZE ++ bstr " " ++ decimal (size l) ++ [nl].

Definition generate_lfs_file (oid : Sha256) (size : N) : outcome file_error bytes :=
  git_version ← ok_or (from_utf8 GIT_VERSION) NotUtf8;
  Ok (LFSContent_into_bytes (mkLfs git_version oid size None)).

(** ** The end of the metadata *)

Lemma find_marker_cons a b l : find_marker (a :: b :: l) = if decide (a = x01 /\ b = nl) then Some 0 else S <$> find_marker (b :: l).
Proof. done. Qed.

Lemma find_marker_line l1 l2 : nl ∉ l1 ->
  find_marker (l1 ++ nl :: l2) = if decide (last l1 = Some x01) then Some (length l1 - 1) else (fun i => S (length l1) + i) <$> find_marker l2.
Proof.
  induction l1 as [|a l1 IH]; intros Hn.
  - cbn [app last length]. rewrite decide_False by done. destruct l2 as [|b l2]; [done|]. rewrite find_marker_cons.
    rewrite decide_False by (by intros [? _]). done.
  - apply not_elem_of_cons in Hn as [Ha Hn]. specialize (IH Hn). destruct l1 as [|b l1].
    + cbn [app] in IH |- *. rewrite find_marker_cons, IH. cbn [last length]. rewrite (decide_False (P := None = Some x01)) by done.
      destruct (decide (a = x01)) as [->|Hne]; [by rewrite !decide_True|]. rewrite !decide_False by (congruence || tauto).
      by destruct (find_marker l2).
    + cbn [app] in IH |- *. apply not_elem_of_cons in Hn as [Hb Hn]. rewrite find_marker_cons, IH. rewrite decide_False by (by intros [_ ->]).
      change (last (a :: b :: l1)) with (last (b :: l1)). case_decide; cbn; [f_equal; lia|]. by destruct (find_marker l2).
Qed.

Lemma find_marker_end l rest : find_marker l = None -> find_marker (l ++ x01 :: nl :: rest) = Some (length l).
Proof.
  induction l as [|a l IH]; [done|]. destruct l as [|b l].
  - intros _. cbn [app]. rewrite find_marker_cons. rewrite decide_False by (by intros [_ ?]). done.
  - cbn [app]. rewrite !find_marker_cons. case_decide as E; [done|]. intros H. apply fmap_None in H. specialize (IH H). cbn [app] in IH. by rewrite IH.
Qed.

Lemma extract_meta_marked m rest : find_marker m = None ->
  extract_meta (META_MARKER ++ m ++ META_MARKER ++ rest) = (m, length m + 4).
Proof.
  intros Hm. unfold extract_meta. change (META_MARKER ++ m ++ META_MARKER ++ rest) with (x01 :: nl :: (m ++ x01 :: nl :: rest)).
  change (drop META_SZ (x01 :: nl :: m ++ x01 :: nl :: rest)) with (m ++ x01 :: nl :: rest).
  change (take META_SZ (x01 :: nl :: m ++ x01 :: nl :: rest)) with META_MARKER. rewrite find_marker_end, bool_decide_true by done.
  change (Nat.ltb (length (x01 :: nl :: m ++ x01 :: nl :: rest)) META_SZ) with false. cbn [negb].
  rewrite (proj2 (Nat.leb_le _ _)) by (unfold META_SZ; lia). f_equal. unfold META_SZ. replace (length m + 2 * 2 - 2 - 2) with (length m) by lia. apply take_app_length.
Qed.

Lemma extract_meta_plain c : take META_SZ c <> META_MARKER -> extract_meta c = ([], 0).
Proof. intros Hc. unfold extract_meta. destruct (Nat.ltb _ _); [done|]. by rewrite bool_decide_false. Qed.

(** What [generate_metadata] writes between the markers. *)
Definition copy_meta (path : MPath) (h : HgNodeHash) : bytes :=
  (bstr "copy: " ++ to_vec path) ++ nl :: (bstr "copyrev: " ++ HgNodeHash_to_hex h) ++ [nl].

Lemma generate_copy path h c : generate_metadata (Some (path, h)) c = META_MARKER ++ copy_meta path h ++ META_MARKER.
Proof. unfold generate_metadata, copy_meta. repeat (rewrite <- !app_assoc; cbn -[to_vec HgNodeHash_to_hex]). done. Qed.

Lemma hex_no_01 l : x01 ∉ hex_of l.
Proof.
  induction l as [|b l IH]; [apply not_elem_of_nil|]. cbn [hex_of]. apply not_elem_of_app. split; [|done].
  destruct b; vm_compute; intros H; repeat (apply elem_of_cons in H as [H|H]; [discriminate|]); by apply elem_of_nil in H.
Qed.

Lemma last_not_in {A} (l : list A) x : x ∉ l -> last l <> Some x.
Proof. intros Hx [l' ->]%last_Some. apply Hx, elem_of_app. right. by left. Qed.

Lemma copyrev_line h : nl ∉ bstr "copyrev: " ++ HgNodeHash_to_hex h /\ x01 ∉ bstr "copyrev: " ++ HgNodeHash_to_hex h.
Proof. split; apply not_elem_of_app; (split; [not_in_const|]); [apply hex_no_nl|apply hex_no_01]. Qed.

Lemma copy_line path : valid_path path -> nl ∉ bstr "copy: " ++ to_vec path.
Proof. intros Hp. apply not_elem_of_app. split; [not_in_const|]. by apply to_vec_no_nl. Qed.

(** In the metadata there is no marker: no path contains its first byte. *)
Lemma to_vec_no_01 path : valid_path path -> x01 ∉ to_vec path.
Proof.
  intros [_ Hv] [?|Hex]%to_vec_bytes; [done|]. apply Exists_exists in Hex as (e & He & Hb). rewrite Forall_forall in Hv.
  by destruct (proj1 (valid_elem_iff e) (Hv e He)) as (_ & _ & H & _).
Qed.

Lemma find_marker_copy path h : valid_path path -> find_marker (copy_meta path h) = None.
Proof.
  intros Hp. destruct (copyrev_line h) as [Hnl' H01]. unfold copy_meta. rewrite find_marker_line by by apply copy_line. rewrite decide_False.
  - rewrite find_marker_line by done. rewrite decide_False by by apply last_not_in. done.
  - apply last_not_in, not_elem_of_app. split; [not_in_const|by apply to_vec_no_01].
Qed.

(** *** Fields *)

Lemma parse_copy path h : valid_path path ->
  parse_to_hash_map (copy_meta path h) (bstr ": ") = <[COPY_REV_KEY := HgNodeHash_to_hex h]> (<[COPY_PATH_KEY := to_vec path]> ∅).
Proof.
  intros Hp. unfold parse_to_hash_map, copy_meta. rewrite split_on_app_sep by by apply copy_line. rewrite split_on_app_sep by apply copyrev_line. reflexivity.
Qed.

Lemma copied_from_copy path h kv : valid_path path -> valid_node h ->
  kv = <[COPY_REV_KEY := HgNodeHash_to_hex h]> (<[COPY_PATH_KEY := to_vec path]> ∅) -> get_copied_from kv = Ok (Some (path, h)).
Proof.
  intros Hp Hh ->. unfold get_copied_from, get_copied_from_with_keys. rewrite lookup_insert_eq. rewrite lookup_insert_ne by done. rewrite lookup_insert_eq.
  destruct (node_from_hex h Hh) as [E1 E2]. cbn [fmap option_fmap option_map mbind option_bind]. rewrite E1, E2, MPath_new_to_vec_valid by done. done.
Qed.

(** *** Round trip *)

Definition valid_copy (copy : option (MPath * HgNodeHash)) : Prop :=
  match copy with Some (path, h) => valid_path path /\ valid_node h | None => True end.
(** A file that reads as the metadata [m] and the content [c]. *)
Definition reads_as (data m c : bytes) (copy : option (MPath * HgNodeHash)) : Prop := forall p1 p2,
  let f := File_new data p1 p2 in metadata f = m /\ file_contents f = c /\ copied_from f = Ok copy.

Lemma reads_as_extract data m c meta copy : extract_meta data = (meta, length m) -> data = m ++ c ->
  get_copied_from (parse_to_hash_map meta (bstr ": ")) = Ok copy -> reads_as data m c copy.
Proof.
  intros E -> Hc p1 p2. unfold metadata, file_contents, copied_from, parse_meta. cbn. rewrite E. cbn.
  by rewrite take_app_length, drop_app_length.
Qed.

Lemma generate_reads copy c rest : valid_copy copy -> (rest = c \/ rest = []) ->
  reads_as (generate_metadata copy c ++ rest) (generate_metadata copy c) rest copy.
Proof.
  intros Hv Hr. destruct copy as [[path h]|].
  - destruct Hv as [Hp Hh]. rewrite generate_copy, <- !app_assoc. eapply (reads_as_extract _ _ _ (copy_meta path h)).
    + rewrite extract_meta_marked; [f_equal; rewrite !length_app; cbn; lia|]. by apply find_marker_copy.
    + by rewrite <- !app_assoc.
    + apply copied_from_copy; [done|done|]. by apply parse_copy.
  - unfold generate_metadata. destruct (bool_decide (take META_SZ c = META_MARKER)) eqn:E.
    + eapply (reads_as_extract _ _ _ []); [|done|by vm_compute]. rewrite <- app_assoc. by apply (extract_meta_marked [] rest).
    + apply bool_decide_eq_false in E. eapply (reads_as_extract _ _ _ []); [|done|by vm_compute]. apply extract_meta_plain.
      by destruct Hr as [-> | ->].
Qed.

(** C15. What [generate_metadata] puts in front of a content is read back: the
    metadata, the content and what the file was copied from, the latter also
    from the metadata alone, as it is kept in the envelope of a file. *)
Theorem file_metadata_roundtrip copy c : valid_copy copy ->
  let m := generate_metadata copy c in reads_as (m ++ c) m c copy /\ copied_from (data_only m) = Ok copy.
Proof.
  intros Hv m. split; [apply generate_reads; auto|]. pose proof (generate_reads copy c [] Hv (or_intror eq_refl) None None) as (_ & _ & H).
  by rewrite app_nil_r in H.
Qed.

(** ** LFS pointers *)

Lemma Sha256_roundtrip h : valid_sha256 h -> Sha256_from_str (Sha256_to_hex h) = Ok h.
Proof.
  destruct h as [hb]. unfold valid_sha256, Sha256_from_str, Sha256_to_hex. cbn [sha256_bytes]. intros Hl. rewrite length_hex_of, Hl. cbn [Nat.eqb negb Nat.mul Nat.add].
  pose proof (hex_loop_hex_of hb [] [] (List.Forall_nil _)) as E. rewrite Hl, app_nil_r in E. cbn [length hex_of app] in E. by rewrite E.
Qed.

Lemma u64_digit_small acc d : (d < 10)%N -> (acc * 10 + d < 2 ^ 64)%N -> u64_digit (Some acc) (digit_byte d) = Some (acc * 10 + d)%N.
Proof.
  intros Hd Hv. unfold u64_digit. cbn [mbind option_bind]. destruct (digit_byte_spec d Hd) as [-> ->]. cbv zeta. by rewrite (proj2 (N.ltb_lt _ _)).
Qed.

Lemma u64_decimal_fuel k : forall n, (n < 10 ^ N.of_nat k)%N -> (n < 2 ^ 64)%N -> k <> 0 -> foldl u64_digit (Some 0%N) (decimal_fuel k n) = Some n.
Proof.
  induction k as [|k IH]; intros n Hn Hu Hk; [done|]. cbn [decimal_fuel]. destruct (N.ltb_spec n 10) as [Hs|Hs].
  - cbn [foldl]. rewrite u64_digit_small by lia. f_equal; lia.
  - assert (n / 10 < 10 ^ N.of_nat k)%N as Hdiv.
    { apply N.Div0.div_lt_upper_bound. replace (N.of_nat (S k)) with (N.succ (N.of_nat k)) in Hn by lia. rewrite N.pow_succ_r' in Hn. lia. }
    destruct k as [|k]; [simpl in Hdiv; pose proof (N.div_str_pos n 10); lia|].
    pose proof (N.mod_lt n 10 ltac:(lia)) as Hm. pose proof (N.div_mod n 10 ltac:(lia)) as Hdm.
    assert (n / 10 <= n)%N by (apply N.Div0.div_le_upper_bound; lia).
    rewrite foldl_app, IH by (done || lia). cbn [foldl].
    assert (n / 10 * 10 + n mod 10 = n)%N as E by (rewrite (N.mul_comm (n / 10)); congruence).
    rewrite u64_digit_small by (done || by rewrite E). by rewrite E.
Qed.

Lemma u64_from_decimal n : (n < 2 ^ 64)%N -> u64_from_str (decimal n) = Some n.
Proof.
  intros Hn. assert (foldl u64_digit (Some 0%N) (decimal n) = Some n) as E.
  { apply u64_decimal_fuel; [|done|done]. rewrite Nat2N.inj_succ, N2Nat.id, N.pow_succ_r'. pose proof (N.size_gt n).
    assert (2 ^ N.size n <= 10 ^ N.size n)%N by (apply N.pow_le_mono_l; lia). lia. }
  unfold u64_from_str. pose proof (decimal_digits n) as Hd. pose proof (decimal_nonempty n) as Hne.
  destruct (decimal n) as [|b l]; [done|]. apply Forall_cons in Hd as [Hb _]. rewrite decide_False by (by intros ->). exact E.
Qed.

Lemma digit_not b c : is_digit b = true -> is_digit c = false -> b <> c.
Proof. intros Hb Hc ->. congruence. Qed.

Lemma decimal_text n : from_utf8 (decimal n) = Some (decimal n) /\ nl ∉ decimal n.
Proof.
  pose proof (decimal_digits n) as Hd. split.
  - unfold from_utf8. rewrite utf8_valid_ascii; [done|]. eapply Forall_impl; [exact Hd|]. intros b Hb. unfold is_digit, in_range in Hb.
    apply andb_true_iff in Hb as [_ Hb%N.leb_le]. lia.
  - intros H. rewrite Forall_forall in Hd. by apply Hd in H.
Qed.

Definition valid_lfs (l : LFSContent) : Prop :=
  utf8_valid (version l) = true /\ (nl ∉ version l) /\ valid_sha256 (oid l) /\ (size l < 2 ^ 64)%N.

Lemma parse_lfs l : valid_lfs l -> parse_content_to_lfs_hash_map (LFSContent_into_bytes l) =
  <[SIZE := decimal (size l)]> (<[OID := SHA256_PREFIX ++ Sha256_to_hex (oid l)]> (<[VERSION := version l]> ∅)).
Proof.
  intros (_ & Hnl & _). unfold parse_content_to_lfs_hash_map, parse_to_hash_map.
  assert (LFSContent_into_bytes l = (bstr "version " ++ version l) ++ nl :: (bstr "oid " ++ SHA256_PREFIX ++ Sha256_to_hex (oid l)) ++ nl ::
    (bstr "size " ++ decimal (size l)) ++ [nl]) as ->.
  { unfold LFSContent_into_bytes. repeat (rewrite <- !app_assoc; cbn -[Sha256_to_hex decimal]). done. }
  assert (nl ∉ Sha256_to_hex (oid l)) as Hhex.
  { intros Hin. pose proof (hex_of_chars (sha256_bytes (oid l))) as Hc. rewrite Forall_forall in Hc. by destruct (Hc nl Hin). }
  rewrite split_on_app_sep by (apply not_elem_of_app; split; [not_in_const|done]).
  rewrite split_on_app_sep by (apply not_elem_of_app; split; [not_in_const|apply not_elem_of_app; split; [not_in_const|done]]).
  rewrite split_on_app_sep by (apply not_elem_of_app; split; [not_in_const|apply decimal_text]). reflexivity.
Qed.

Lemma oid_digits_ok h : oid_digits (SHA256_PREFIX ++ Sha256_to_hex h) = Ok (Some (Sha256_to_hex h)).
Proof.
  unfold oid_digits. assert (Forall (fun c => utf8_cont c = false) (SHA256_PREFIX ++ Sha256_to_hex h)) as Ha.
  { apply Forall_app. split; [repeat constructor|apply hex_of_ascii]. }
  assert (length SHA256_PREFIX <= length (SHA256_PREFIX ++ Sha256_to_hex h)) as Hle by (rewrite length_app; lia).
  rewrite (proj2 (Nat.leb_le _ _) Hle). unfold str_slice. rewrite !is_char_boundary_ascii by (done || lia).
  change (Nat.leb 0 (length SHA256_PREFIX)) with true. cbn [andb]. rewrite bind_Ok. cbn [drop].
  rewrite drop_0, Nat.sub_0_r, take_app_length, bool_decide_true by done. rewrite (proj2 (Nat.leb_le _ _) Hle). cbn [andb fmap outcome_fmap]. rewrite drop_app_length. f_equal. f_equal.
  apply take_ge. rewrite length_app. lia.
Qed.

Lemma sha_text h : from_utf8 (SHA256_PREFIX ++ Sha256_to_hex h) = Some (SHA256_PREFIX ++ Sha256_to_hex h).
Proof.
  unfold from_utf8. rewrite utf8_valid_ascii; [done|]. apply Forall_app. split; [by repeat constructor|].
  eapply Forall_impl; [apply hex_of_chars|]. by intros c [? _].
Qed.

(** A pointer that [into_bytes] writes is read back, but for the copy, which
    [into_bytes] does not write. *)
Theorem lfs_roundtrip l : valid_lfs l ->
  get_lfs_content (data_only (LFSContent_into_bytes l)) = Ok (mkLfs (version l) (oid l) (size l) None).
Proof.
  intros Hl. pose proof Hl as (Hu & _ & Hs & Hn). unfold get_lfs_content, file_contents. cbn [node data_only File_new blob].
  rewrite extract_meta_plain by discriminate. cbn [snd]. rewrite drop_0. rewrite parse_lfs by done.
  unfold get_lfs_struct, parse_mandatory_lfs, lfs_oid, get_copied_lfs, get_copied_from_with_keys.
  repeat (rewrite lookup_insert_eq || rewrite lookup_insert_ne by done || rewrite lookup_empty). cbn [mbind option_bind].
  assert (from_utf8 (version l) = Some (version l)) as -> by (unfold from_utf8; by rewrite Hu). rewrite sha_text, oid_digits_ok. cbn [ok_or]. rewrite !bind_Ok. rewrite Sha256_roundtrip by done. cbn [ok_opt ok_or]. rewrite !bind_Ok. cbn [ok_or]. rewrite !bind_Ok.
  rewrite (proj1 (decimal_text _)). cbn [mbind option_bind]. by rewrite u64_from_decimal.
Qed.

(** ** Text that is not ASCII

    Numbers and hashes are cut out of text by bytes: where a character of
    several bytes is in the way, this panics. *)

Definition e_acute : bytes := [xc3; xa9].

Example copyrev_panics : copied_from (data_only (META_MARKER ++ bstr "copy: a" ++ [nl] ++ bstr "copyrev: 1" ++ e_acute ++ replicate 40 x30 ++ [nl] ++ META_MARKER)) = Panic.
Proof. vm_compute. reflexivity. Qed.

Example lfs_oid_panics : get_lfs_content (data_only (bstr "version 1" ++ [nl] ++ bstr "oid sha256" ++ e_acute ++ [nl] ++ bstr "size 1" ++ [nl])) = Panic.
Proof. vm_compute. reflexivity. Qed.

Definition ex_copy : option (MPath * HgNodeHash) := Some (mkMPath [mkElem (bstr "a"); mkElem (bstr "b")], NULL_HASH).

Lemma ex_copy_valid : valid_copy ex_copy.
Proof. split; [|reflexivity]. split; [discriminate|]. repeat (apply List.Forall_cons; [reflexivity|]). apply List.Forall_nil. Qed.

Lemma file_metadata_roundtrip_witness :
  copied_from (data_only (generate_metadata ex_copy (bstr "x"))) = Ok ex_copy.
Proof. exact (proj2 (file_metadata_roundtrip ex_copy (bstr "x") ex_copy_valid)). Defined.
