(* ===== verification/HgChangeset.v ===== *)
(** * Mercurial changesets

    Model of [src/mercurial/src/changeset/mod.rs]: the text of a changeset, its
    parser and the escaping of its extras; and of
    [src/blobrepo/blob_changeset/src/lib.rs], which stores these texts. *)

From stdpp Require Import list.
From S2P Require Import Prelude Ord Path Hash Decimal HgManifest Bonsai.

(** ** Numbers and text of the standard library *)

(** [{}] of a signed number. *)
Definition decimal_Z (z : Z) : bytes := if (z <? 0)%Z then x2d :: decimal (Z.to_N (- z)) else decimal (Z.to_N z).

(** A digit of [str::parse::<i64>] and [str::parse::<i32>]: every step is checked. *)
Definition int_digit (lo hi : Z) (neg : bool) (acc : option Z) (b : byte) : option Z :=
  acc ← acc;
  if is_digit b then
    let v := (acc * 10 + (if neg then - Z.of_N (digit_value b) else Z.of_N (digit_value b)))%Z in
    if ((lo <=? acc * 10) && (acc * 10 <=? hi) && (lo <=? v) && (v <=? hi))%Z then Some v else None
  else None.

Definition int_from_str (lo hi : Z) (s : bytes) : option Z :=
  let digits neg s := match s with [] => None | _ => foldl (int_digit lo hi neg) (Some 0%Z) s end in
  match s with
  | b :: r => if decide (b = x2d) then digits true r else if decide (b = x2b) then digits false r else digits false s
  | [] => None
  end.

Definition i64_from_str : bytes -> option Z := int_from_str (- 2 ^ 63) (2 ^ 63 - 1).
Definition i32_from_str : bytes -> option Z := int_from_str (- 2 ^ 31) (2 ^ 31 - 1).

(** [slice.splitn(n, |c| c == sep)]. *)
Fixpoint split_once (sep : byte) (l : bytes) : option (bytes * bytes) :=
  match l with
  | [] => None
  | b :: l => if decide (b = sep) then Some ([], l) else (fun x => (b :: x.1, x.2)) <$> split_once sep l
  end.

Fixpoint splitn (n : nat) (sep : byte) (l : bytes) : list bytes :=
  match n with
  | 0 => []
  | 1 => [l]
  | S n => match split_once sep l with Some (p, l) => p :: splitn n sep l | None => [l] end
  end.

(** [String::from_utf8_lossy]: each maximal part that is not UTF-8 becomes the
    replacement character. *)
Definition replacement : bytes := [xef; xbf; xbd].

Fixpoint from_utf8_lossy (l : bytes) : bytes :=
  match l with
  | [] => []
  | b1 :: l1 =>
      if in_range 0 127 b1 then b1 :: from_utf8_lossy l1
      else if in_range 194 223 b1 then
        match l1 with
        | b2 :: l2 => if utf8_cont b2 then b1 :: b2 :: from_utf8_lossy l2 else replacement ++ from_utf8_lossy l1
        | [] => replacement
        end
      else if in_range 224 239 b1 then
        match l1 with
        | b2 :: l2 =>
            if (if (Byte.to_N b1 =? 224)%N then in_range 160 191 b2 else if (Byte.to_N b1 =? 237)%N then in_range 128 159 b2 else utf8_cont b2) then
              match l2 with
              | b3 :: l3 => if utf8_cont b3 then b1 :: b2 :: b3 :: from_utf8_lossy l3 else replacement ++ from_utf8_lossy l2
              | [] => replacement
              end
            else replacement ++ from_utf8_lossy l1
        | [] => replacement
        end
      else if in_range 240 244 b1 then
        match l1 with
        | b2 :: l2 =>
            if (if (Byte.to_N b1 =? 240)%N then in_range 144 191 b2 else if (Byte.to_N b1 =? 244)%N then in_range 128 143 b2 else utf8_cont b2) then
              match l2 with
              | b3 :: l3 =>
                  if utf8_cont b3 then
                    match l3 with
                    | b4 :: l4 => if utf8_cont b4 then b1 :: b2 :: b3 :: b4 :: from_utf8_lossy l4 else replacement ++ from_utf8_lossy l3
                    | [] => replacement
                    end
                  else replacement ++ from_utf8_lossy l2
              | [] => replacement
              end
            else replacement ++ from_utf8_lossy l1
        | [] => replacement
        end
      else replacement ++ from_utf8_lossy l1
  end.

(** [Display for MPath]. *)
Definition MPath_display (p : MPath) : bytes := from_utf8_lossy (to_vec p).

(** ** Extras *)

Definition sp : byte := x20.
Definition colon : byte := x3a.
Definition backslash : byte := x5c.

(** [extra] is a [BTreeMap]. *)
Definition Extra := list (bytes * bytes).

Definition escape_byte (c : byte) : bytes :=
  match c with
  | x00 => [backslash; x30]
  | x0a => [backslash; x6e]
  | x0d => [backslash; x72]
  | x5c => [backslash; backslash]
  | c => [c]
  end.
Definition escape (s : bytes) : bytes := s ≫= escape_byte.

(** The loop of [unescape], with its [quote]. *)
Fixpoint unescape_loop (quote : bool) (s : bytes) : bytes :=
  match s with
  | [] => []
  | c :: s =>
      if quote then
        match c with
        | x30 => x00 :: unescape_loop false s
        | x6e => x0a :: unescape_loop false s
        | x72 => x0d :: unescape_loop false s
        | x5c => backslash :: unescape_loop false s
        | c => backslash :: c :: unescape_loop false s
        end
      else match c with x5c => unescape_loop true s | c => c :: unescape_loop false s end
  end.
Definition unescape (s : bytes) : bytes := unescape_loop false s.

Definition Extra_from_slice (s : option bytes) : Extra :=
  match s with
  | Some s => foldl (fun ret kv =>
      match splitn 2 colon kv with [k; v] => btree_insert (unescape k) (unescape v) ret | _ => ret end) [] (split_on x00 s)
  | None => []
  end.

Definition serialize_extras (extras : Extra) : bytes :=
  join_with x00 ((fun kv => escape (kv.1 ++ colon :: kv.2)) <$> extras).

(** ** Changesets *)

Inductive changeset_error :=
| PrematureEnd
| NotUtf8
| CantGetHash (e : hash_error)
| NotEnoughParts
| CantParseTime
| CantParseTz
| InvalidDate (e : bonsai_error)
| InvalidFile (e : path_error)
| ChangesetIdMismatch (requested got : HgNodeHash).

Section changeset.
Context `{Chrono} {C : Sha1Context}.

Record RevlogChangeset := mkRevlogChangeset {
  p1 : option HgNodeHash;
  p2 : option HgNodeHash;
  manifestid : HgNodeHash;
  user : bytes;
  time : DateTime;
  cs_extra : Extra;
  files : list MPath;
  comments : bytes
}.

Definition parseline {T} (lines : list bytes) (parse : bytes -> outcome changeset_error T) : outcome changeset_error (T * list bytes) :=
  match lines with
  | s :: lines => x ← parse s; Ok (x, lines)
  | [] => Err PrematureEnd
  end.

Definition parsetimeextra (s : bytes) : outcome changeset_error (DateTime * Extra) :=
  let parts := splitn 3 sp s in
  match parts with
  | p0 :: p1 :: rest =>
      p0 ← ok_or (from_utf8 p0) NotUtf8;
      time ← ok_or (i64_from_str p0) CantParseTime;
      p1 ← ok_or (from_utf8 p1) NotUtf8;
      tz ← ok_or (i32_from_str p1) CantParseTz;
      let extras := Extra_from_slice (head rest) in
      dt ← map_err InvalidDate (from_timestamp time tz);
      Ok (dt, extras)
  | _ => Err NotEnoughParts
  end.

Definition parse_hash (l : bytes) : outcome changeset_error HgNodeHash :=
  s ← ok_or (from_utf8 l) NotUtf8; map_err CantGetHash (HgNodeHash_from_str s).

(** The files, and the lines of the comments after the blank line. *)
Fixpoint parse_files (lines : list bytes) : outcome changeset_error (list MPath * list bytes) :=
  match lines with
  | [] => Ok ([], [])
  | line :: lines =>
      if Nat.eqb (length line) 0 then Ok ([], lines)
      else
        path ← map_err InvalidFile (MPath_new line);
        x ← parse_files lines;
        Ok (path :: x.1, x.2)
  end.

(** The [DateTime] of a changeset that is not filled in. *)
Definition null_time : outcome changeset_error DateTime := match from_timestamp 0 0 with Ok t => Ok t | _ => Panic end.

Definition RevlogChangeset_parse (data : bytes) (p1 p2 : option HgNodeHash) : outcome changeset_error RevlogChangeset :=
  _ ← null_time;
  let lines := split_on nl data in
  x ← parseline lines parse_hash;
  let '(manifestid, lines) := x in
  x ← parseline lines Ok;
  let '(user, lines) := x in
  x ← parseline lines parsetimeextra;
  let '(time, extra, lines) := x in
  x ← parse_files lines;
  Ok (mkRevlogChangeset p1 p2 manifestid user time extra x.1 (join_with nl x.2)).

Definition new_null : outcome changeset_error RevlogChangeset :=
  t ← null_time; Ok (mkRevlogChangeset None None NULL_HASH [] t [] [] []).

Definition RevlogChangeset_new_from_parts (parents : HgParents) (manifestid : HgNodeHash) (user : bytes) (time : DateTime)
    (extra : Extra) (files : list MPath) (comments : bytes) : RevlogChangeset :=
  let '(p1, p2) := get_nodes parents in mkRevlogChangeset p1 p2 manifestid user time extra files comments.

Definition serialize_cs (cs : RevlogChangeset) : bytes :=
  HgNodeHash_to_hex (manifestid cs) ++ [nl] ++ user cs ++ [nl] ++
  decimal_Z (timestamp_secs (time cs)) ++ [sp] ++ decimal_Z (tz_offset_secs (time cs)) ++
  match cs_extra cs with [] => [] | extra => sp :: serialize_extras extra end ++ [nl] ++
  (files cs ≫= fun f => MPath_display f ++ [nl]) ++ [nl] ++ comments cs.

Definition get_node_id (cs : RevlogChangeset) : HgNodeHash := nodeid (serialize_cs cs) (HgParents_new (p1 cs) (p2 cs)).

(** ** Changesets in the blob store *)

Record ChangesetMetadata := mkMetadata { md_user : bytes; md_time : DateTime; md_extra : Extra; md_comments : bytes }.

(** [HgChangesetContent] has the fields of [RevlogChangeset]. *)
Definition HgChangesetContent := RevlogChangeset.

Definition HgChangesetContent_new_from_parts (parents : HgParents) (manifestid : HgNodeHash) (cs_metadata : ChangesetMetadata) (files : list MPath)
    : HgChangesetContent :=
  let '(p1, p2) := get_nodes parents in
  mkRevlogChangeset p1 p2 manifestid (md_user cs_metadata) (md_time cs_metadata) (md_extra cs_metadata) files (md_comments cs_metadata).

Definition generate : HgChangesetContent -> bytes := serialize_cs.

Definition compute_hash (content : HgChangesetContent) : HgNodeHash :=
  nodeid (generate content) (HgParents_new (p1 content) (p2 content)).

Record HgBlobChangeset := mkBlobChangeset { changesetid : HgNodeHash; cs_content : HgChangesetContent }.
Definition HgBlobChangeset_new (content : HgChangesetContent) : HgBlobChangeset := mkBlobChangeset (compute_hash content) content.

Record HgChangesetEnvelope := mkChangesetEnvelope { ce_node_id : HgNodeHash; ce_p1 : option HgNodeHash; ce_p2 : option HgNodeHash; ce_contents : bytes }.

(** What is put under the keys of changesets, the latest first. *)
Definition ChangesetStore := list (HgNodeHash * HgChangesetEnvelope).

Definition from_envelope (envelope : HgChangesetEnvelope) : outcome changeset_error RevlogChangeset :=
  RevlogChangeset_parse (ce_contents envelope) (ce_p1 envelope) (ce_p2 envelope).

Definition HgBlobChangeset_load (changesetid : HgNodeHash) (store : ChangesetStore) : outcome changeset_error (option HgBlobChangeset) :=
  if decide (changesetid = NULL_HASH) then revlogcs ← new_null; Ok (Some (mkBlobChangeset changesetid revlogcs))
  else
    match hm_get changesetid store with
    | None => Ok None
    | Some envelope =>
        if decide (changesetid = ce_node_id envelope) then
          revlogcs ← from_envelope envelope; Ok (Some (mkBlobChangeset changesetid revlogcs))
        else Err (ChangesetIdMismatch changesetid (ce_node_id envelope))
    end.

Definition HgBlobChangeset_save (cs : HgBlobChangeset) (store : ChangesetStore) : ChangesetStore :=
  (changesetid cs, mkChangesetEnvelope (changesetid cs) (p1 (cs_content cs)) (p2 (cs_content cs)) (generate (cs_content cs))) :: store.
End changeset.

(** ** Escaping *)

Lemma unescape_escape s : unescape (escape s) = s.
Proof.
  unfold unescape, escape. induction s as [|c s IH]; [done|]. cbn [mbind list_bind].
  assert (unescape_loop false (escape_byte c ++ (s ≫= escape_byte)) = c :: unescape_loop false (s ≫= escape_byte)) as ->; [by destruct c|by rewrite IH].
Qed.

(** What an escaped text does not contain. *)
Lemma escape_no b s : b = x00 \/ b = x0a \/ b = x0d -> b ∉ escape s.
Proof.
  intros Hb. unfold escape. induction s as [|c s IH]; [by intros ?%elem_of_nil|]. cbn [mbind list_bind]. apply not_elem_of_app. split; [|done].
  destruct Hb as [->|[->| ->]]; destruct c; vm_compute; intros Hin; repeat (apply elem_of_cons in Hin as [Hin|Hin]; [discriminate|]); by apply elem_of_nil in Hin.
Qed.

Lemma escape_no_colon s : colon ∉ s -> colon ∉ escape s.
Proof.
  unfold escape. induction s as [|c s IH]; [done|]. intros [Hc Hs]%not_elem_of_cons. cbn [mbind list_bind]. apply not_elem_of_app. split; [|by apply IH].
  destruct c; try (by destruct Hc); vm_compute; intros Hin; repeat (apply elem_of_cons in Hin as [Hin|Hin]; [discriminate|]); by apply elem_of_nil in Hin.
Qed.

Lemma split_once_sep sep p l : sep ∉ p -> split_once sep (p ++ sep :: l) = Some (p, l).
Proof.
  induction p as [|b p IH]; cbn; [by rewrite decide_True|]. intros [Hb Hp]%not_elem_of_cons. rewrite decide_False by congruence. by rewrite IH.
Qed.

Lemma escape_pair k v : escape (k ++ colon :: v) = escape k ++ colon :: escape v.
Proof. unfold escape. by rewrite bind_app. Qed.

Definition valid_extra (e : Extra) : Prop := btree_wf e /\ Forall (fun kv => colon ∉ kv.1) e.

Lemma serialize_extras_no b e : b = x0a \/ b = x0d -> b ∉ serialize_extras e.
Proof.
  intros Hb. unfold serialize_extras. induction e as [|kv e IH]; [by intros ?%elem_of_nil|]. cbn [fmap list_fmap join_with].
  destruct e as [|kv' e]; cbn in IH |- *; [apply escape_no; tauto|]. apply not_elem_of_app. split; [apply escape_no; tauto|]. apply not_elem_of_cons. split; [|done].
  by destruct Hb as [-> | ->].
Qed.

Lemma Extra_roundtrip e : valid_extra e -> e <> [] -> Extra_from_slice (Some (serialize_extras e)) = e.
Proof.
  intros [Hwf Hk] Hne. unfold Extra_from_slice, serialize_extras. rewrite split_on_join; [|by destruct e|].
  2:{ apply Forall_fmap, Forall_forall. intros kv _. apply escape_no. tauto. }
  rewrite <- (btree_collect_id e Hwf) at 2. unfold btree_collect. clear Hwf Hne. generalize (@nil (bytes * bytes)).
  induction Hk as [|[k v] e Hkv _ IH]; intros acc; [done|]. cbn [fmap list_fmap foldl]. rewrite <- IH. f_equal.
  cbn [fst snd] in Hkv |- *. rewrite escape_pair. cbn [splitn]. rewrite split_once_sep by by apply escape_no_colon. by rewrite !unescape_escape.
Qed.

(** ** Numbers *)

Lemma int_digits_from (lo hi : Z) (neg : bool) k : forall n, (n < 10 ^ N.of_nat k)%N -> k <> 0 ->
  (lo <= 0 <= hi)%Z -> (lo <= (if neg then - Z.of_N n else Z.of_N n) <= hi)%Z ->
  foldl (int_digit lo hi neg) (Some 0%Z) (decimal_fuel k n) = Some (if neg then - Z.of_N n else Z.of_N n)%Z.
Proof.
  assert (forall acc d, (d < 10)%N -> (lo <= 0 <= hi)%Z -> (if neg then acc <= 0 else 0 <= acc)%Z ->
    (lo <= acc * 10 + (if neg then - Z.of_N d else Z.of_N d) <= hi)%Z ->
    int_digit lo hi neg (Some acc) (digit_byte d) = Some (acc * 10 + (if neg then - Z.of_N d else Z.of_N d))%Z) as Hstep.
  { intros acc d Hd H0 Ha Hr. unfold int_digit. cbn [mbind option_bind]. destruct (digit_byte_spec d Hd) as [-> ->]. cbv zeta.
    rewrite !(proj2 (Z.leb_le _ _)); [done|destruct neg; lia..]. }
  induction k as [|k IH]; intros n Hn Hk H0 Hr; [done|]. cbn [decimal_fuel]. destruct (N.ltb_spec n 10) as [Hs|Hs].
  - cbn [foldl]. rewrite Hstep; [f_equal; destruct neg; lia|done|done|destruct neg; lia|destruct neg; lia].
  - assert (n / 10 < 10 ^ N.of_nat k)%N as Hdiv.
    { apply N.Div0.div_lt_upper_bound. replace (N.of_nat (S k)) with (N.succ (N.of_nat k)) in Hn by lia. rewrite N.pow_succ_r' in Hn. lia. }
    destruct k as [|k]; [simpl in Hdiv; pose proof (N.div_str_pos n 10); lia|].
    pose proof (N.mod_lt n 10 ltac:(lia)) as Hm. pose proof (N.div_mod n 10 ltac:(lia)) as Hdm.
    assert (n / 10 <= n)%N by (apply N.Div0.div_le_upper_bound; lia).
    rewrite foldl_app, IH; [|done|done|done|destruct neg; lia]. cbn [foldl].
    revert Hdm Hm. generalize (n / 10)%N (n mod 10)%N. intros q m Hdm Hm.
    rewrite Hstep; [f_equal; destruct neg; lia|done|done|destruct neg; lia|destruct neg; lia].
Qed.

Lemma decimal_fuel_enough n : (n < 10 ^ N.of_nat (S (N.to_nat (N.size n))))%N.
Proof.
  rewrite Nat2N.inj_succ, N2Nat.id, N.pow_succ_r'. pose proof (N.size_gt n).
  assert (2 ^ N.size n <= 10 ^ N.size n)%N by (apply N.pow_le_mono_l; lia). lia.
Qed.

Lemma decimal_Z_parse lo hi z : (lo <= 0 <= hi)%Z -> (lo <= z <= hi)%Z -> int_from_str lo hi (decimal_Z z) = Some z.
Proof.
  intros H0 Hz. unfold decimal_Z, int_from_str. destruct (Z.ltb_spec z 0) as [Hneg|Hpos].
  - rewrite decide_True by done. pose proof (decimal_nonempty (Z.to_N (- z))) as Hne. destruct (decimal (Z.to_N (- z))) as [|b l] eqn:E; [done|].
    rewrite <- E. unfold decimal. rewrite int_digits_from; [f_equal; lia|apply decimal_fuel_enough|done|done|lia].
  - pose proof (decimal_nonempty (Z.to_N z)) as Hne. pose proof (decimal_digits (Z.to_N z)) as Hd. destruct (decimal (Z.to_N z)) as [|b l] eqn:E; [done|].
    apply Forall_cons in Hd as [Hb _]. rewrite !decide_False by (by intros ->). rewrite <- E. unfold decimal.
    rewrite int_digits_from; [f_equal; lia|apply decimal_fuel_enough|done|done|lia].
Qed.

(** The characters of a number. *)
Definition number_char (b : byte) : Prop := (Byte.to_N b <= 57)%N /\ b <> x20 /\ b <> x0a.

Lemma decimal_Z_chars z : Forall number_char (decimal_Z z).
Proof.
  assert (forall n, Forall number_char (decimal n)) as Hd.
  { intros n. eapply Forall_impl; [apply decimal_digits|]. intros b Hb. unfold is_digit, in_range in Hb. apply andb_true_iff in Hb as [H1%N.leb_le H2%N.leb_le].
    split; [lia|]. split; intros ->; cbn in H1; lia. }
  unfold decimal_Z. destruct (z <? 0)%Z; [|done]. constructor; [by split|done].
Qed.

Lemma decimal_Z_text z : from_utf8 (decimal_Z z) = Some (decimal_Z z) /\ (sp ∉ decimal_Z z) /\ nl ∉ decimal_Z z.
Proof.
  pose proof (decimal_Z_chars z) as Hc. split; [|split].
  - unfold from_utf8. rewrite utf8_valid_ascii; [done|]. eapply Forall_impl; [exact Hc|]. intros b [? _]. lia.
  - intros Hin. rewrite Forall_forall in Hc. by destruct (Hc _ Hin) as (_ & ? & _).
  - intros Hin. rewrite Forall_forall in Hc. by destruct (Hc _ Hin) as (_ & _ & ?).
Qed.

(** ** Text *)

Lemma lossy_valid l : utf8_valid l = true -> from_utf8_lossy l = l.
Proof.
  assert (forall n l, length l <= n -> utf8_valid l = true -> from_utf8_lossy l = l) as H; [|by apply (H (length l))].
  intros n. clear l. induction n as [|n IH]; intros [|b1 l1] Hl; cbn in Hl |- *; [done|lia|done|].
  destruct (in_range 0 127 b1); [intros Hv; by rewrite IH by (done || lia)|]. destruct l1 as [|b2 l2]; [done|]. cbn in Hl.
  destruct (in_range 194 223 b1); [intros [-> Hv]%andb_true_iff; by rewrite IH by (done || lia)|]. destruct l2 as [|b3 l3]; [done|]. cbn in Hl.
  destruct (in_range 224 239 b1); [intros [[-> ->]%andb_true_iff Hv]%andb_true_iff; by rewrite IH by (done || lia)|]. destruct l3 as [|b4 l4]; [done|]. cbn in Hl.
  intros [[[[-> ->]%andb_true_iff ->]%andb_true_iff ->]%andb_true_iff Hv]%andb_true_iff. by rewrite IH by (done || lia).
Qed.

(** ** Round trip *)

Section roundtrip.
Context `{ChronoLaws} {C : Sha1Context}.

(** A changeset that its text can hold. *)
Record valid_cs (cs : RevlogChangeset) : Prop := {
  vs_manifest : valid_node (manifestid cs);
  vs_user : nl ∉ user cs;
  vs_time : whole_seconds (time cs);
  vs_secs : (- 2 ^ 63 <= timestamp_secs (time cs) < 2 ^ 63)%Z;
  vs_tz : (- 2 ^ 31 <= tz_offset_secs (time cs) < 2 ^ 31)%Z;
  vs_extra : valid_extra (cs_extra cs);
  vs_files : Forall (fun p => valid_path p /\ utf8_valid (to_vec p) = true) (files cs)
}.

(** The time and the extras of a changeset. *)
Definition time_line (cs : RevlogChangeset) : bytes :=
  decimal_Z (timestamp_secs (time cs)) ++ sp :: decimal_Z (tz_offset_secs (time cs)) ++
  match cs_extra cs with [] => [] | extra => sp :: serialize_extras extra end.

Lemma split_once_none sep l : sep ∉ l -> split_once sep l = None.
Proof. induction l as [|b l IH]; [done|]. intros [Hb Hl]%not_elem_of_cons. cbn. rewrite decide_False by congruence. by rewrite IH. Qed.

Lemma parse_time cs : valid_cs cs -> parsetimeextra (time_line cs) = Ok (time cs, cs_extra cs).
Proof.
  intros Hv. pose proof (vs_secs _ Hv) as Hs. pose proof (vs_tz _ Hv) as Ht. unfold parsetimeextra, time_line.
  destruct (decimal_Z_text (timestamp_secs (time cs))) as (U1 & S1 & _). destruct (decimal_Z_text (tz_offset_secs (time cs))) as (U2 & S2 & _).
  assert (exists rest, splitn 3 sp (decimal_Z (timestamp_secs (time cs)) ++ sp :: decimal_Z (tz_offset_secs (time cs)) ++
    match cs_extra cs with [] => [] | extra => sp :: serialize_extras extra end) =
    decimal_Z (timestamp_secs (time cs)) :: decimal_Z (tz_offset_secs (time cs)) :: rest /\ Extra_from_slice (head rest) = cs_extra cs) as (rest & -> & Hex).
  { pose proof (vs_extra _ Hv) as Hex. cbn [splitn]. rewrite split_once_sep by done. destruct (cs_extra cs) as [|kv e] eqn:E.
    - rewrite app_nil_r, split_once_none by done. by exists [].
    - rewrite split_once_sep by done. eexists. split; [done|]. by apply Extra_roundtrip. }
  rewrite U1. cbn [ok_or]. rewrite bind_Ok. unfold i64_from_str. rewrite decimal_Z_parse by lia. cbn [ok_or]. rewrite bind_Ok, U2. cbn [ok_or]. rewrite bind_Ok.
  unfold i32_from_str. rewrite decimal_Z_parse by lia. cbn [ok_or]. rewrite bind_Ok, Hex.
  pose proof (DateTime_roundtrip (time cs) (vs_time _ Hv)) as Hd. unfold DateTime_from_thrift, DateTime_into_thrift in Hd. cbn in Hd. by rewrite Hd.
Qed.

Lemma time_line_no_nl cs : nl ∉ time_line cs.
Proof.
  unfold time_line. apply not_elem_of_app. split; [apply decimal_Z_text|]. apply not_elem_of_cons. split; [done|]. apply not_elem_of_app. split; [apply decimal_Z_text|].
  destruct (cs_extra cs); [by intros ?%elem_of_nil|]. apply not_elem_of_cons. split; [done|]. apply serialize_extras_no. by left.
Qed.

Lemma split_files fs rest : Forall (fun p => valid_path p /\ utf8_valid (to_vec p) = true) fs ->
  split_on nl ((fs ≫= fun f => MPath_display f ++ [nl]) ++ nl :: rest) = (to_vec <$> fs) ++ [] :: split_on nl rest.
Proof.
  induction 1 as [|f fs [Hf Hu] _ IH]; [exact (split_on_app_sep nl [] rest (not_elem_of_nil nl))|].
  cbn [mbind list_bind fmap list_fmap app]. unfold MPath_display at 1. rewrite lossy_valid by done. rewrite <- !app_assoc. cbn [app].
  rewrite split_on_app_sep by by apply to_vec_no_nl. by rewrite <- IH.
Qed.

Lemma parse_files_ok fs rest : Forall (fun p => valid_path p /\ utf8_valid (to_vec p) = true) fs ->
  parse_files ((to_vec <$> fs) ++ [] :: rest) = Ok (fs, rest).
Proof.
  induction 1 as [|f fs [Hf Hu] _ IH]; [done|]. cbn [fmap list_fmap app parse_files]. destruct (to_vec_no_nl f Hf) as [_ Hne].
  destruct (Nat.eqb_spec (length (to_vec f)) 0) as [?%nil_length_inv|_]; [done|]. rewrite MPath_new_to_vec_valid by done. cbn [map_err]. rewrite bind_Ok.
  rewrite IH. by rewrite bind_Ok.
Qed.

Lemma serialize_lines cs : valid_cs cs -> split_on nl (serialize_cs cs) =
  HgNodeHash_to_hex (manifestid cs) :: user cs :: time_line cs :: (to_vec <$> files cs) ++ [] :: split_on nl (comments cs).
Proof.
  intros Hv. assert (serialize_cs cs = HgNodeHash_to_hex (manifestid cs) ++ nl :: user cs ++ nl :: time_line cs ++ nl ::
    (files cs ≫= fun f => MPath_display f ++ [nl]) ++ nl :: comments cs) as ->.
  { unfold serialize_cs, time_line. repeat (rewrite <- !app_assoc; cbn [app]). done. }
  rewrite split_on_app_sep by apply hex_no_nl. rewrite split_on_app_sep by by apply vs_user. rewrite split_on_app_sep by apply time_line_no_nl.
  by rewrite split_files by by apply vs_files.
Qed.

Lemma parse_hash_ok h : valid_node h -> parse_hash (HgNodeHash_to_hex h) = Ok h.
Proof. intros Hh. destruct (node_from_hex h Hh) as [E1 E2]. unfold parse_hash. rewrite E1. cbn [ok_or]. by rewrite bind_Ok, E2. Qed.

Lemma parseline_ok {T} (s : bytes) lines (parse : bytes -> outcome changeset_error T) (t : T) : parse s = Ok t -> parseline (s :: lines) parse = Ok (t, lines).
Proof. intros Hp. cbn [parseline]. by rewrite Hp. Qed.

Lemma parse_serialize cs : valid_cs cs -> (exists t, from_timestamp 0 0 = Ok t) -> RevlogChangeset_parse (serialize_cs cs) (p1 cs) (p2 cs) = Ok cs.
Proof.
  intros Hv [t Ht]. unfold RevlogChangeset_parse, null_time. rewrite Ht, bind_Ok, (serialize_lines cs Hv).
  rewrite (parseline_ok _ _ _ _ (parse_hash_ok _ (vs_manifest _ Hv))), bind_Ok. cbv beta iota.
  rewrite (parseline_ok (user cs) _ Ok _ eq_refl), bind_Ok. cbv beta iota.
  rewrite (parseline_ok _ _ _ _ (parse_time cs Hv)), bind_Ok. cbv beta iota. rewrite parse_files_ok by by apply vs_files.
  rewrite bind_Ok. cbn [fst snd]. rewrite join_split_on. by destruct cs.
Qed.

(** C12. The text of a changeset parses to it, and a changeset that is saved is
    loaded again, if its fields are such that the text can hold them
    ([valid_cs]): a user without a line break, a time in whole seconds, extras
    with sorted keys that have no colon, files whose names are UTF-8; and if
    its hash is not that of no changeset. Other changesets are loaded as
    before. *)
Theorem changeset_roundtrip content store : valid_cs content -> (exists t, from_timestamp 0 0 = Ok t) -> compute_hash content <> NULL_HASH ->
  let cs := HgBlobChangeset_new content in
  RevlogChangeset_parse (serialize_cs content) (p1 content) (p2 content) = Ok content /\
  HgBlobChangeset_load (changesetid cs) (HgBlobChangeset_save cs store) = Ok (Some cs) /\
  forall id, id <> changesetid cs -> HgBlobChangeset_load id (HgBlobChangeset_save cs store) = HgBlobChangeset_load id store.
Proof.
  intros Hv Ht Hid cs. split; [by apply parse_serialize|]. split.
  - unfold HgBlobChangeset_load. rewrite decide_False by done. cbn. rewrite !decide_True by done. unfold from_envelope. cbn.
    unfold generate. rewrite parse_serialize by done. done.
  - intros id Hne. unfold HgBlobChangeset_load, HgBlobChangeset_save. cbn [hm_get]. by rewrite (decide_False (P := id = changesetid cs)).
Qed.
End roundtrip.

(** ** Examples *)

Section example.
#[local] Existing Instance ex_chrono.
#[local] Existing Instance ex_chrono_laws.
#[local] Instance one_digest : Sha1Context := {| digest _ := mkSha1 (replicate 20 x01) |}.

Definition example_cs (user : bytes) (files : list MPath) (t : DateTime) : HgChangesetContent :=
  mkRevlogChangeset (Some (mkNode (mkSha1 (replicate 20 x05)))) None (mkNode (mkSha1 (replicate 20 x02))) user t
    [(bstr "branch", [x61; x0a; x00])] files (bstr "about").

Lemma example_valid t : ex_date = Some t -> valid_cs (example_cs (bstr "bob") [mkMPath [mkElem (bstr "f")]] t).
Proof.
  intros E. assert (subsec_nanos (chrono t) = 0%N /\ timestamp_secs t = 1500000000%Z /\ tz_offset_secs t = (-3600)%Z) as (E1 & E2 & E3).
  { injection E as <-. vm_compute. repeat split. }
  split; cbn [example_cs manifestid user time cs_extra files].
  - reflexivity.
  - not_in_const.
  - exact E1.
  - rewrite E2. lia.
  - rewrite E3. lia.
  - split; [repeat constructor|]. constructor; [not_in_const|constructor].
  - constructor; [|constructor]. split; [split; [discriminate|repeat constructor]|reflexivity].
Qed.

Lemma epoch_exists : exists t, from_timestamp 0 0 = Ok t.
Proof. destruct (from_timestamp 0 0) as [t0|e|] eqn:E0; [by exists t0|discriminate E0|discriminate E0]. Qed.

Lemma changeset_roundtrip_witness : exists t, ex_date = Some t /\
  let cs := HgBlobChangeset_new (example_cs (bstr "bob") [mkMPath [mkElem (bstr "f")]] t) in
  HgBlobChangeset_load (changesetid cs) (HgBlobChangeset_save cs []) = Ok (Some cs).
Proof.
  destruct ex_date as [t|] eqn:E; [|discriminate E]. exists t. split; [reflexivity|].
  apply (changeset_roundtrip (example_cs (bstr "bob") [mkMPath [mkElem (bstr "f")]] t) []).
  - exact (example_valid t E).
  - exact epoch_exists.
  - discriminate.
Defined.

(** An author with a line break makes a changeset that is saved and cannot be
    loaded. *)
Definition load_error (user : bytes) : option changeset_error :=
  t ← ex_date;
  let cs := HgBlobChangeset_new (example_cs user [] t) in
  match HgBlobChangeset_load (changesetid cs) (HgBlobChangeset_save cs []) with Err e => Some e | _ => None end.

Example author_line_break : load_error [x61; x0a; x62] = Some NotEnoughParts.
Proof. vm_compute. reflexivity. Qed.

(** Files whose names are not UTF-8 are not told apart. *)
Example lossy_files t : serialize_cs (example_cs [] [mkMPath [mkElem [xff]]] t) = serialize_cs (example_cs [] [mkMPath [mkElem [xfe]]] t).
Proof. reflexivity. Qed.
End example.
