(* ===== verification/HgUpload.v ===== *)
(** * Files in the blob store

    Model of the upload of files in [src/blobrepo/src/repo.rs]
    ([UploadHgFileEntry] and what it calls), of their reading in
    [src/blobrepo/src/file.rs], of [src/blobrepo/src/alias.rs], and of the
    file-node records of [src/blobrepo/src/utils.rs]. *)

From S2P Require Import Prelude Ord Path Hash Bonsai BonsaiDiff HgManifest HgFile.

Inductive mf_error :=
| ManifestError (e : manifest_error)
| ManifestMissing (id : HgNodeHash)
| UnresolvedConflicts
| UnchangedManifest
| ManifestAlreadyAMerge (p1 p2 : HgNodeHash)
| SingleEntryConflict
| NotADirectory
| PathNotFound (path : MPath)
| EmptyFilePath
| PathError (e : path_error)
| HgContentMissing (id : HgNodeHash)
| FileIdMismatch (requested got : HgNodeHash)
| ContentBlobMissing (id : ContentId)
| MissingTypedKeyEntry (id : ContentId)
| InconsistentFileHash (provided computed : HgNodeHash)
| FileError (e : file_error).

Record IncompleteFilenodeInfo := mkFilenode {
  fn_path : RepoPath;
  filenode : HgNodeHash;
  fn_p1 : option HgNodeHash;
  fn_p2 : option HgNodeHash;
  copyfrom : option (RepoPath * HgNodeHash)
}.

Record HgFileEnvelope := mkFileEnvelope {
  fe_node_id : HgNodeHash;
  fe_p1 : option HgNodeHash;
  fe_p2 : option HgNodeHash;
  fe_content_id : ContentId;
  content_size : N;
  fe_metadata : bytes
}.

(** The keys of manifests, of file envelopes, of contents and of aliases in the
    blob store, what is put last first; and the [IncompleteFilenodes]. *)
Record repo_state := mkState {
  blobs : ManifestStore;
  envelopes : list (HgNodeHash * HgFileEnvelope);
  content_blobs : list (ContentId * bytes);
  aliases : list (Sha256 * ContentId);
  filenodes : list IncompleteFilenodeInfo
}.

Definition add_filenode (info : IncompleteFilenodeInfo) : eio mf_error repo_state unit := fun s =>
  (mkState (blobs s) (envelopes s) (content_blobs s) (aliases s) (filenodes s ++ [info]), Ok tt).
Definition put_manifests (store : ManifestStore) : eio mf_error repo_state unit := fun s =>
  (mkState store (envelopes s) (content_blobs s) (aliases s) (filenodes s), Ok tt).
Definition put_envelope (id : HgNodeHash) (e : HgFileEnvelope) : eio mf_error repo_state unit := fun s =>
  (mkState (blobs s) ((id, e) :: envelopes s) (content_blobs s) (aliases s) (filenodes s), Ok tt).

(** What only reads. *)
Definition reads {A} (f : repo_state -> outcome mf_error A) : eio mf_error repo_state A := fun s => (s, f s).

(** The hash of contents that makes their ids, and that of aliases. *)
Class ContentHash := { content_hash : bytes -> ContentId; get_sha256 : bytes -> Sha256 }.

#[export] Instance ContentId_eq_dec : EqDecision ContentId.
Proof. solve_decision. Defined.

(** ** Reading *)

Definition fetch_file_envelope_opt (node_id : HgNodeHash) (s : repo_state) : outcome mf_error (option HgFileEnvelope) :=
  match hm_get node_id (envelopes s) with
  | None => Ok None
  | Some envelope => if decide (node_id = fe_node_id envelope) then Ok (Some envelope) else Err (FileIdMismatch node_id (fe_node_id envelope))
  end.

Definition fetch_file_envelope (node_id : HgNodeHash) (s : repo_state) : outcome mf_error HgFileEnvelope :=
  envelope ← fetch_file_envelope_opt node_id s;
  ok_or envelope (HgContentMissing node_id).

Definition fetch_file_contents (id : ContentId) (s : repo_state) : outcome mf_error bytes :=
  ok_or (hm_get id (content_blobs s)) (ContentBlobMissing id).

Definition fetch_file_content_from_blobstore (node_id : HgNodeHash) (s : repo_state) : outcome mf_error bytes :=
  envelope ← fetch_file_envelope node_id s;
  fetch_file_contents (fe_content_id envelope) s.

(** The metadata and the contents joined together. *)
Definition fetch_raw_filenode_bytes (node_id : HgNodeHash) (s : repo_state) : outcome mf_error bytes :=
  envelope ← fetch_file_envelope node_id s;
  contents ← fetch_file_contents (fe_content_id envelope) s;
  Ok (if Nat.eqb (length (fe_metadata envelope)) 0 then contents else fe_metadata envelope ++ contents).

Definition fetch_file_size_from_blobstore (node_id : HgNodeHash) (s : repo_state) : outcome mf_error N :=
  envelope ← fetch_file_envelope node_id s; Ok (content_size envelope).
Definition fetch_file_content_id_from_blobstore (node_id : HgNodeHash) (s : repo_state) : outcome mf_error ContentId :=
  envelope ← fetch_file_envelope node_id s; Ok (fe_content_id envelope).
Definition fetch_file_content_sha256_from_blobstore {CH : ContentHash} (content_id : ContentId) (s : repo_state) : outcome mf_error Sha256 :=
  file_content ← fetch_file_contents content_id s; Ok (get_sha256 file_content).

Definition get_rename_from_envelope (envelope : HgFileEnvelope) : outcome mf_error (option (MPath * HgNodeHash)) :=
  map_err FileError (copied_from (File_new (fe_metadata envelope) (fe_p1 envelope) (fe_p2 envelope))).

Definition fetch_rename_from_blobstore (node_id : HgNodeHash) (s : repo_state) : outcome mf_error (option (MPath * HgNodeHash)) :=
  envelope ← fetch_file_envelope node_id s; get_rename_from_envelope envelope.

(** *** Entries *)

(** [File], [Executable] and [Symlink] are the types of the file. *)
Inductive Content := ContentTree (manifest : ManifestContent) | ContentFile (ft : FileType) (contents : bytes).

Definition get_content (s : repo_state) (e : Entry) : outcome mf_error Content :=
  match get_type e with
  | Tree =>
      blob_manifest ← map_err ManifestError (BlobManifest_load (get_hash e) (blobs s));
      manifest ← ok_or blob_manifest (HgContentMissing (get_hash e));
      Ok (ContentTree manifest)
  | BonsaiDiff.File ft =>
      envelope ← fetch_file_envelope (get_hash e) s;
      contents ← fetch_file_contents (fe_content_id envelope) s;
      Ok (ContentFile ft contents)
  end.

Definition get_manifest_by_nodeid (manifestid : HgNodeHash) (s : repo_state) : outcome mf_error ManifestContent :=
  mf ← map_err ManifestError (BlobManifest_load manifestid (blobs s));
  ok_or mf (ManifestMissing manifestid).

Definition get_root_entry (manifestid : HgNodeHash) : Entry := mkEntry None Tree manifestid.

(** [fetch] of a content. *)
Definition fetch (id : ContentId) (s : repo_state) : outcome mf_error bytes :=
  ok_or (hm_get id (content_blobs s)) (MissingTypedKeyEntry id).

(** ** Uploading *)

Record ContentBlobMeta := mkMeta { cbm_id : ContentId; cbm_copy_from : option (MPath * HgNodeHash) }.
Record ContentBlobInfo := mkInfo { cbi_path : MPath; cbi_meta : ContentBlobMeta }.

Inductive UploadHgFileContents :=
| ContentUploaded (cbmeta : ContentBlobMeta)
| RawBytes (raw_content : bytes).

Record UploadHgFileEntry := mkUploadFile {
  uf_node_id : UploadHgNodeHash;
  uf_contents : UploadHgFileContents;
  uf_file_type : FileType;
  uf_p1 : option HgNodeHash;
  uf_p2 : option HgNodeHash;
  uf_path : MPath
}.

Section upload.
Context {C : Sha1Context} {CH : ContentHash}.

Definition upload_blob (contents : bytes) : eio mf_error repo_state ContentId := fun s =>
  let id := content_hash contents in
  (mkState (blobs s) (envelopes s) ((id, contents) :: content_blobs s) ((get_sha256 contents, id) :: aliases s) (filenodes s), Ok id).

Definition node_id (raw_content : bytes) (p1 p2 : option HgNodeHash) : HgNodeHash := nodeid raw_content (HgParents_new p1 p2).

Definition compute (cbmeta : ContentBlobMeta) (p1 p2 : option HgNodeHash) (s : repo_state) : outcome mf_error (HgNodeHash * bytes * N) :=
  file_contents ← fetch (cbm_id cbmeta) s;
  let metadata := generate_metadata (cbm_copy_from cbmeta) file_contents in
  Ok (node_id (metadata ++ file_contents) p1 p2, metadata, lenN file_contents).

(** What [execute] gives: the information, the upload and the computation. *)
Definition execute (c : UploadHgFileContents) (p1 p2 : option HgNodeHash) (path : MPath)
    : outcome mf_error (ContentBlobInfo * eio mf_error repo_state unit * (repo_state -> outcome mf_error (HgNodeHash * bytes * N))) :=
  match c with
  | ContentUploaded cbmeta => Ok (mkInfo path cbmeta, mret tt, compute cbmeta p1 p2)
  | RawBytes raw_content =>
      let node_id := node_id raw_content p1 p2 in
      let f := File_new raw_content p1 p2 in
      copy_from ← match copied_from f with Ok copy_from => Ok copy_from | Err _ => Ok None | Panic => Panic end;
      let contents := file_contents f in
      Ok (mkInfo path (mkMeta (content_hash contents) copy_from), _ ← upload_blob contents; mret tt,
          fun _ => Ok (node_id, metadata f, lenN contents))
  end.

(** [upload]: the envelope, and then the content. *)
Definition upload_file_entry (u : UploadHgFileEntry) : eio mf_error repo_state (ContentBlobInfo * (Entry * RepoPath)) :=
  x ← lift (execute (uf_contents u) (uf_p1 u) (uf_p2 u) (uf_path u));
  let '(cbinfo, content_upload, compute) := x in
  y ← reads compute;
  let '(computed_node_id, metadata, content_size) := y in
  node_id ← lift (match uf_node_id u with
                  | Generate => Ok computed_node_id
                  | Supplied node_id => Ok node_id
                  | Checked node_id => if decide (node_id = computed_node_id) then Ok node_id else Err (InconsistentFileHash node_id computed_node_id)
                  end);
  name ← lift (map_err PathError (basename (uf_path u)));
  _ ← put_envelope node_id (mkFileEnvelope node_id (uf_p1 u) (uf_p2 u) (cbm_id (cbi_meta cbinfo)) content_size metadata);
  _ ← (content_upload : eio mf_error repo_state unit);
  mret (cbinfo, (mkEntry (Some name) (BonsaiDiff.File (uf_file_type u)) node_id, FilePath (uf_path u))).
End upload.

(** ** What is read of an uploaded file *)

Section uploaded.
Context {C : Sha1Context} {CH : ContentHash}.
Implicit Types s : repo_state.

(** The upload of a file gave the entry [id], which reads as [raw]. *)
Definition stored_raw s (id : HgNodeHash) (raw : bytes) (copy : option (MPath * HgNodeHash)) : Prop :=
  fetch_raw_filenode_bytes id s = Ok raw /\
  fetch_file_content_from_blobstore id s = Ok (file_contents (data_only raw)) /\
  fetch_file_size_from_blobstore id s = Ok (lenN (file_contents (data_only raw))) /\
  fetch_rename_from_blobstore id s = Ok copy.

(** The envelope that an upload puts. *)
Definition envelope_of (id : HgNodeHash) (p1 p2 : option HgNodeHash) (m c : bytes) : HgFileEnvelope :=
  mkFileEnvelope id p1 p2 (content_hash c) (lenN c) m.

Lemma fetch_envelope_put e l s : envelopes s = (fe_node_id e, e) :: l -> fetch_file_envelope (fe_node_id e) s = Ok e.
Proof. intros E. unfold fetch_file_envelope, fetch_file_envelope_opt. rewrite E. cbn. by rewrite !decide_True. Qed.

Lemma read_uploaded s id p1 p2 m c copy l : reads_as (m ++ c) m c copy -> reads_as m m [] copy ->
  envelopes s = (id, envelope_of id p1 p2 m c) :: l -> hm_get (content_hash c) (content_blobs s) = Some c -> stored_raw s id (m ++ c) copy.
Proof.
  intros Hr Hm He Hc. pose proof (fetch_envelope_put (envelope_of id p1 p2 m c) l s He) as Hf. cbn [fe_node_id envelope_of] in Hf.
  destruct (Hr None None) as (_ & Hcont & _). unfold data_only in *. unfold stored_raw, fetch_raw_filenode_bytes, fetch_file_content_from_blobstore,
    fetch_file_size_from_blobstore, fetch_rename_from_blobstore, get_rename_from_envelope, fetch_file_contents.
  rewrite Hf, !bind_Ok. cbn [fe_content_id fe_metadata fe_p1 fe_p2 content_size envelope_of]. unfold data_only. rewrite Hcont, Hc. cbn [ok_or]. rewrite !bind_Ok. split; [by destruct m|].
  destruct (Hm p1 p2) as (_ & _ & ->). done.
Qed.

Definition generated (ft : FileType) (p1 p2 : option HgNodeHash) (path : MPath) (c : UploadHgFileContents) : UploadHgFileEntry :=
  mkUploadFile Generate c ft p1 p2 path.

Lemma basename_ok path : elements path <> [] -> exists name, basename path = Ok name.
Proof. intros H. unfold basename. destruct (last (elements path)) as [x|] eqn:E; [by exists x|]. by apply last_None in E. Qed.

(** C11. A content that is in the store, uploaded with what it was copied from,
    and the bytes that Mercurial sends for it are one file: the uploads give
    the same entry, whose id is the hash of these bytes, and the same envelope;
    and the bytes, the content, its size and the copy are read back at it. *)
Theorem upload_same copy c ft p1 p2 path s : valid_copy copy -> elements path <> [] ->
  hm_get (content_hash c) (content_blobs s) = Some c ->
  let raw := generate_metadata copy c ++ c in let meta := mkMeta (content_hash c) copy in
  exists entry s1 s2, let id := get_hash entry in
    upload_file_entry (generated ft p1 p2 path (ContentUploaded meta)) s = (s1, Ok (mkInfo path meta, (entry, FilePath path))) /\
    upload_file_entry (generated ft p1 p2 path (RawBytes raw)) s = (s2, Ok (mkInfo path meta, (entry, FilePath path))) /\
    id = nodeid raw (HgParents_new p1 p2) /\ envelopes s1 = envelopes s2 /\
    (forall k, hm_get k (content_blobs s1) = hm_get k (content_blobs s2)) /\
    stored_raw s1 id raw copy /\ stored_raw s2 id raw copy.
Proof.
  intros Hv Hp Hc raw meta. destruct (basename_ok path Hp) as [name Hn].
  pose proof (generate_reads copy c c Hv (or_introl eq_refl)) as Hr. pose proof (generate_reads copy c [] Hv (or_intror eq_refl)) as Hm.
  rewrite app_nil_r in Hm. destruct (Hr p1 p2) as (E1 & E2 & E3). fold raw in E1, E2, E3.
  set (id := nodeid raw (HgParents_new p1 p2)). exists (mkEntry (Some name) (BonsaiDiff.File ft) id).
  exists (put_envelope id (envelope_of id p1 p2 (generate_metadata copy c) c) s).1.
  exists (upload_blob c (put_envelope id (envelope_of id p1 p2 (generate_metadata copy c) c) s).1).1.
  cbn zeta. split; [|split; [|split; [done|split; [done|split]]]].
  - unfold upload_file_entry. cbn [uf_contents uf_p1 uf_p2 uf_path uf_node_id uf_file_type generated execute]. unfold lift, reads, mbind, eio_bind. cbn.
    unfold compute, fetch. cbn [cbm_id meta]. rewrite Hc. cbn. by rewrite Hn.
  - unfold upload_file_entry. cbn [uf_contents uf_p1 uf_p2 uf_path uf_node_id uf_file_type generated execute]. rewrite E1, E2, E3, bind_Ok.
    unfold lift, reads, mbind, eio_bind, node_id. cbn [fst snd fmap]. fold id. cbn [map_err]. by rewrite Hn.
  - intros k. cbn. case_decide as Ek; [by rewrite Ek|done].
  - split; eapply read_uploaded; try done. cbn. by rewrite decide_True.
Qed.
End uploaded.

(** *** On an example *)

Section example.
#[local] Instance zero_digest : Sha1Context := {| digest _ := mkSha1 (replicate 20 x00) |}.
#[local] Instance zero_content_hash : ContentHash := {| content_hash _ := mkContentId (mkBlake2 (replicate 32 x00)); get_sha256 _ := mkSha256 (replicate 32 x00) |}.

Lemma upload_same_witness : exists entry s,
  upload_file_entry (generated Regular None None (mkMPath [mkElem (bstr "b")]) (RawBytes (bstr "text"))) (mkState [] [] [(mkContentId (mkBlake2 (replicate 32 x00)), bstr "text")] [] []) =
    (s, Ok (mkInfo (mkMPath [mkElem (bstr "b")]) (mkMeta (mkContentId (mkBlake2 (replicate 32 x00))) None), (entry, FilePath (mkMPath [mkElem (bstr "b")])))) /\
  fetch_raw_filenode_bytes (get_hash entry) s = Ok (bstr "text").
Proof.
  destruct (upload_same None (bstr "text") Regular None None (mkMPath [mkElem (bstr "b")])
    (mkState [] [] [(mkContentId (mkBlake2 (replicate 32 x00)), bstr "text")] [] []) I ltac:(discriminate) ltac:(reflexivity))
    as (entry & s1 & s2 & _ & H2 & _ & _ & _ & _ & (H4 & _)).
  exists entry, s2. split; [exact H2|exact H4].
Defined.
End example.
