(* ===== verification/MemoryManifest.v ===== *)
(** * Manifests in memory

    Model of [src/blobrepo/src/memory_manifest.rs]: the tree that starts from
    the manifests of the parents, takes the file changes of a changeset, and is
    saved as a Mercurial manifest. Handles to a tree share its changes: what is
    done through a handle is a function that is applied at its place. *)

From stdpp Require Import list.
From S2P Require Import Prelude Ord Path Hash Bonsai BonsaiDiff HgManifest HgUpload.

Inductive MemoryManifestEntry :=
| Blob (e : Entry)
| Conflict (l : list MemoryManifestEntry)
| MemTree (base_manifest_id p1 p2 : option HgNodeHash) (changes : list (MPathElement * option MemoryManifestEntry)).

(** What only reads the manifests of the blob store. *)
Definition read_store {A} (f : ManifestStore -> outcome mf_error A) : eio mf_error repo_state A := fun s => (s, f (blobs s)).

Definition btree_remove {V} (k : MPathElement) (m : list (MPathElement * V)) : list (MPathElement * V) :=
  List.filter (fun x => negb (bool_decide (x.1 = k))) m.

(** [BTreeMap::extend]. *)
Definition btree_extend {V} (m : list (MPathElement * V)) (l : list (MPathElement * V)) : list (MPathElement * V) :=
  foldl (fun m '(k, v) => btree_insert k v m) m l.

Definition extend_repopath_with_dir (path : RepoPath) (dir : MPathElement) : outcome mf_error RepoPath :=
  _ ← assert_ (is_dir path || is_root path);
  match join_opt (RepoPath_mpath path) [dir] with
  | None => Ok RepoPath_root
  | Some p => match RepoPath_dir (Ok p) with Ok r => Ok r | _ => Panic end
  end.

Definition is_memtree (e : MemoryManifestEntry) : bool := match e with MemTree _ _ _ _ => true | _ => false end.
Definition empty_tree : MemoryManifestEntry := MemTree None None None [].
Definition is_modified (e : MemoryManifestEntry) : bool :=
  match e with
  | MemTree base _ _ changes => bool_decide (base = None) || negb (Nat.eqb (length changes) 0)
  | _ => false
  end.
Definition convert_treenode (manifest_id : HgNodeHash) : MemoryManifestEntry :=
  MemTree (Some manifest_id) (Some manifest_id) None [].

(** A manifest's entry as a child. *)
Definition memory_entry (name : MPathElement) (e : Entry) : MemoryManifestEntry :=
  match get_type e with
  | Tree => convert_treenode (get_hash e)
  | _ => Blob (mkEntry (Some name) (get_type e) (get_hash e))
  end.

Definition apply_changes (changes : list (MPathElement * option MemoryManifestEntry)) (children : list (MPathElement * MemoryManifestEntry))
    : list (MPathElement * MemoryManifestEntry) :=
  foldl (fun children '(path, entry) =>
    match entry with None => btree_remove path children | Some new => btree_insert path new children end) children changes.

Section memory.
Context {C : Sha1Context} {FU : FuturesUnordered} {CH : ContentHash}.

Definition load_manifest (store : ManifestStore) (id : HgNodeHash) : outcome mf_error ManifestContent :=
  m ← map_err ManifestError (BlobManifest_load id store);
  ok_or m (ManifestMissing id).

Definition base_children (m : ManifestContent) : outcome mf_error (list (MPathElement * MemoryManifestEntry)) :=
  foldl (fun children entry => children ← children; name ← expect_name entry; Ok (btree_insert name (memory_entry name entry) children))
    (Ok []) (content_list m).

Definition get_new_children (store : ManifestStore) (e : MemoryManifestEntry) : outcome mf_error (list (MPathElement * MemoryManifestEntry)) :=
  match e with
  | MemTree (Some manifest_id) _ _ changes =>
      m ← load_manifest store manifest_id;
      children ← base_children m;
      Ok (apply_changes changes children)
  | MemTree None _ _ changes => Ok (apply_changes changes [])
  | _ => Ok []
  end.

(** [n] bounds the depth. *)
Fixpoint is_empty (n : nat) (store : ManifestStore) (e : MemoryManifestEntry) : outcome mf_error bool :=
  match e with
  | MemTree base _ _ changes =>
      if Nat.eqb (length changes) 0 then Ok (bool_decide (base = None))
      else
        match n with
        | 0 => Panic
        | S n =>
            children ← get_new_children store e;
            f ← collect (fun x => is_empty n store x.2) children;
            Ok (forallb (fun ce => ce) f)
        end
  | _ => Ok false
  end.

(** The entries of the children that are not empty, one after the other. *)
Fixpoint save_children (empty : ManifestStore -> MemoryManifestEntry -> outcome mf_error bool)
    (save : MemoryManifestEntry -> RepoPath -> eio mf_error repo_state Entry) (path : RepoPath)
    (children : list (MPathElement * MemoryManifestEntry)) : eio mf_error repo_state ManifestContent :=
  match children with
  | [] => mret []
  | (path_elem, entry) :: children =>
      is_empty ← read_store (fun store => empty store entry);
      if is_empty : bool then save_children empty save path children
      else
        entry_path ← lift (extend_repopath_with_dir path path_elem);
        saved ← save entry entry_path;
        rest ← save_children empty save path children;
        mret ((path_elem, mkDetails (get_hash saved) (get_type saved)) :: rest)
  end.

Definition upload_manifest (p1 p2 : option HgNodeHash) (path : RepoPath) (entries : ManifestContent) : eio mf_error repo_state Entry := fun s =>
  match upload_to_blobstore (mkUploadTree Generate (manifest_text entries) p1 p2 path) (blobs s) with
  | Ok (store, (entry, path)) => (_ ← put_manifests store; _ ← add_filenode (mkFilenode path (get_hash entry) p1 p2 None); mret entry) s
  | Err e => (s, Err (ManifestError e))
  | Panic => (s, Panic)
  end.

Definition unchanged_entry (base p2 : option HgNodeHash) (path : RepoPath) : outcome mf_error Entry :=
  match p2 with
  | Some _ => Err UnchangedManifest
  | None =>
      base_manifest_id ← ok_or base UnchangedManifest;
      match RepoPath_mpath path with
      | None => Ok (mkEntry None Tree base_manifest_id)
      | Some path => name ← map_err PathError (basename path); Ok (mkEntry (Some name) Tree base_manifest_id)
      end
  end.

Fixpoint save (n : nat) (e : MemoryManifestEntry) (path : RepoPath) : eio mf_error repo_state Entry :=
  match e with
  | Blob blob => mret blob
  | Conflict _ => lift (Err UnresolvedConflicts)
  | MemTree base p1 p2 _ =>
      if is_modified e then
        match n with
        | 0 => lift Panic
        | S n =>
            new_children ← read_store (fun store => get_new_children store e);
            entries ← save_children (is_empty n) (save n) path new_children;
            upload_manifest p1 p2 path entries
        end
      else lift (unchanged_entry base p2 path)
  end.

(** ** Merging *)

(** [children] and the conflicts still to be merged. *)
Fixpoint merge_pairs (children other_children : list (MPathElement * MemoryManifestEntry))
    : list (MPathElement * MemoryManifestEntry) * list (MPathElement * MemoryManifestEntry * MemoryManifestEntry) :=
  match other_children with
  | [] => (children, [])
  | (path, other_entry) :: other_children =>
      match btree_get path children with
      | None => merge_pairs (btree_insert path other_entry children) other_children
      | Some conflict_entry =>
          let '(children, conflicts) := merge_pairs (btree_remove path children) other_children in
          (children, (path, conflict_entry, other_entry) :: conflicts)
      end
  end.

Fixpoint merge_all (merge : MemoryManifestEntry -> MemoryManifestEntry -> RepoPath -> eio mf_error repo_state MemoryManifestEntry)
    (repo_path : RepoPath) (conflicts : list (MPathElement * MemoryManifestEntry * MemoryManifestEntry))
    : eio mf_error repo_state (list (MPathElement * MemoryManifestEntry)) :=
  match conflicts with
  | [] => mret []
  | (path, entry, other) :: conflicts =>
      repo_path' ← lift (extend_repopath_with_dir repo_path path);
      merged ← merge entry other repo_path';
      rest ← merge_all merge repo_path conflicts;
      mret ((path, merged) :: rest)
  end.

Definition merge_trees (merge : MemoryManifestEntry -> MemoryManifestEntry -> RepoPath -> eio mf_error repo_state MemoryManifestEntry)
    (children other_children : list (MPathElement * MemoryManifestEntry)) (repo_path : RepoPath) (p1 p2 : option HgNodeHash)
    : eio mf_error repo_state MemoryManifestEntry :=
  let '(children, conflicts) := merge_pairs children other_children in
  merged ← merge_all merge repo_path (futures_unordered conflicts);
  mret (MemTree None p1 p2 ((fun x => (x.1, Some x.2)) <$> btree_extend children merged)).

(** What is left when a modified side has been saved. *)
Definition merge_saved (merge : MemoryManifestEntry -> MemoryManifestEntry -> RepoPath -> eio mf_error repo_state MemoryManifestEntry)
    (self other : MemoryManifestEntry) (repo_path : RepoPath) : eio mf_error repo_state MemoryManifestEntry :=
  match self, other with
  | _, Conflict _ | Conflict _, _ => lift (Err UnresolvedConflicts)
  | Blob b1, Blob b2 =>
      if bool_decide (get_name b1 = get_name b2) && bool_decide (get_hash b1 = get_hash b2) && bool_decide (get_type b1 = get_type b2)
      then mret self else mret (Conflict [self; other])
  | Blob _, _ | _, Blob _ => mret (Conflict [self; other])
  | MemTree my_id p1 p1' my_changes, MemTree other_id p2 p2' other_changes =>
      match p1, p1', p2, p2' with
      | Some a, Some b, _, _ | _, _, Some a, Some b =>
          _ ← lift (assert_ (negb (bool_decide (a = b)))); lift (Err (ManifestAlreadyAMerge a b))
      | _, _, _, _ =>
          if negb (bool_decide (my_id = None)) && bool_decide (my_id = other_id) && Nat.eqb (length my_changes) 0 && Nat.eqb (length other_changes) 0
          then mret self
          else
            children ← read_store (fun store => get_new_children store self);
            other_children ← read_store (fun store => get_new_children store other);
            merge_trees merge children other_children repo_path p1 p2
      end
  end.

(** [n] bounds the depth of the trees, [m] that of what is saved. *)
Fixpoint merge_with_conflicts (n m : nat) (self other : MemoryManifestEntry) (repo_path : RepoPath)
    : eio mf_error repo_state MemoryManifestEntry :=
  match n with
  | 0 => lift Panic
  | S n =>
      let saved e := if is_modified e then entry ← save m e repo_path; mret (convert_treenode (get_hash entry)) else mret e in
      self ← saved self;
      other ← saved other;
      merge_saved (merge_with_conflicts n m) self other repo_path
  end.

(** ** Changes *)

Definition conflict_to_memtree (e : MemoryManifestEntry) : MemoryManifestEntry :=
  match e with
  | Conflict conflicts =>
      let parents := omap (fun entry =>
        match entry with
        | MemTree base _ _ _ => if is_modified entry then None else base
        | Blob blob => if bool_decide (get_type blob = Tree) then Some (get_hash blob) else None
        | _ => None
        end) conflicts in
      MemTree None (parents !! 0) (parents !! 1) []
  | e => e
  end.

(** The tree under a name, made if there is none. *)
Definition find_mut_helper (changes : list (MPathElement * option MemoryManifestEntry)) (path : MPathElement) : MemoryManifestEntry :=
  conflict_to_memtree (match btree_get path changes with Some (Some e) => e | _ => empty_tree end).

Definition manifest_lookup (manifest : ManifestContent) (changes : list (MPathElement * option MemoryManifestEntry)) (element : MPathElement)
    : list (MPathElement * option MemoryManifestEntry) :=
  match content_lookup manifest element with
  | Some entry =>
      match btree_get element changes with
      | Some _ => changes
      | None => btree_insert element (Some (memory_entry element entry)) changes
      end
  | None => changes
  end.

(** What [find_mut] does first for an element that has no change yet. *)
Definition look_up (store : ManifestStore) (base : option HgNodeHash) (changes : list (MPathElement * option MemoryManifestEntry)) (element : MPathElement)
    : outcome mf_error (list (MPathElement * option MemoryManifestEntry)) :=
  match btree_get element changes, base with
  | None, Some manifest_id => m ← load_manifest store manifest_id; Ok (manifest_lookup m changes element)
  | _, _ => Ok changes
  end.

(** [find_mut]: what is done at the end of the path, where there is a path. *)
Fixpoint find_mut {A} (store : ManifestStore) (k : MemoryManifestEntry -> MemoryManifestEntry * outcome mf_error A)
    (path : list MPathElement) (not_found : mf_error) (e : MemoryManifestEntry) : MemoryManifestEntry * outcome mf_error A :=
  match path with
  | [] => k e
  | element :: path =>
      match e with
      | MemTree base p1 p2 changes =>
          match look_up store base changes element with
          | Ok changes =>
              let '(child, r) := find_mut store k path not_found (find_mut_helper changes element) in
              (MemTree base p1 p2 (btree_insert element (Some child) changes), r)
          | Err er => (e, Err er)
          | Panic => (e, Panic)
          end
      | _ => (e, Err not_found)
      end
  end.

Definition is_blob (e : MemoryManifestEntry) : bool := match e with Blob _ => true | _ => false end.

(** What is put where a change meets a conflict. *)
Definition change_conflict (conflict : list MemoryManifestEntry) (change : option Entry) : outcome mf_error (option MemoryManifestEntry) :=
  match conflict with
  | e0 :: e1 :: rest =>
      _ ← assert_ (Nat.eqb (length rest) 0);
      if is_blob e0 && is_memtree e1 then Ok (Some (match change with None => e1 | Some entry => Blob entry end))
      else if is_memtree e0 && is_blob e1 then Ok (Some (match change with None => e0 | Some entry => Blob entry end))
      else Ok (Blob <$> change)
  | _ => Err SingleEntryConflict
  end.

Definition change (element : MPathElement) (c : option Entry) (e : MemoryManifestEntry) : MemoryManifestEntry * outcome mf_error unit :=
  match e with
  | MemTree base p1 p2 changes =>
      let entry := match btree_get element changes with
                   | Some (Some (Conflict conflict)) => change_conflict conflict c
                   | _ => Ok (Blob <$> c)
                   end in
      match entry with
      | Ok entry => (MemTree base p1 p2 (btree_insert element entry changes), Ok tt)
      | Err er => (e, Err er)
      | Panic => (e, Panic)
      end
  | _ => (e, Err NotADirectory)
  end.

(** [MemoryRootManifest::change_entry]. *)
Definition change_entry (store : ManifestStore) (path : MPath) (entry : option Entry) (root : MemoryManifestEntry)
    : MemoryManifestEntry * outcome mf_error unit :=
  match split_dirname path with
  | Ok (possible_path, filename) => find_mut store (change filename entry) (iter_opt possible_path) (PathNotFound path) root
  | Err er => (root, Err (PathError er))
  | Panic => (root, Panic)
  end.

(** *** Trivial conflicts *)

Definition same_file (first other : Content) : bool :=
  match first, other with ContentFile ft c0, ContentFile ft' c1 => bool_decide (ft = ft') && bool_decide (c0 = c1) | _, _ => false end.

Definition merge_content (s : repo_state) (entries : list Entry) : outcome mf_error (option (FileType * bytes)) :=
  match get_type <$> head entries with
  | Some (File file_type) =>
      content ← collect (get_content s) entries;
      match content with
      | first :: others =>
          if forallb (same_file first) others
          then match first with ContentFile _ file_content => Ok (Some (file_type, file_content)) | ContentTree _ => Panic end
          else Ok None
      | [] => Ok None
      end
  | _ => Ok None
  end.

Definition merge_entries (path : option MPath) (entries : list Entry) : eio mf_error repo_state (option MemoryManifestEntry) :=
  let parents := get_hash <$> entries in
  content ← reads (fun s => merge_content s entries);
  match content with
  | Some (file_type, file_content) =>
      path ← lift (ok_or path EmptyFilePath);
      let '(p1, p2) := (parents !! 0, parents !! 1) in
      _ ← lift (assert_ (Nat.leb (length parents) 2));
      uploaded ← upload_file_entry (mkUploadFile Generate (RawBytes file_content) file_type p1 p2 path);
      let '(_, (entry, path)) := uploaded in
      _ ← add_filenode (mkFilenode path (get_hash entry) p1 p2 None);
      mret (Some (Blob entry))
  | None => mret None
  end.

Definition as_blob (e : MemoryManifestEntry) : option Entry := match e with Blob b => Some b | _ => None end.

(** The node as it is afterwards. *)
Fixpoint resolve_rec (path : option MPath) (node : MemoryManifestEntry) : eio mf_error repo_state MemoryManifestEntry :=
  match node with
  | MemTree base p1 p2 changes =>
      changes ← (fix resolve_children changes : eio mf_error repo_state (list (MPathElement * option MemoryManifestEntry)) :=
        match changes with
        | [] => mret []
        | (name, Some child) :: changes =>
            child ← resolve_rec (join_opt path [name]) child;
            rest ← resolve_children changes;
            mret ((name, Some child) :: rest)
        | (name, None) :: changes => rest ← resolve_children changes; mret ((name, None) :: rest)
        end) changes;
      mret (MemTree base p1 p2 changes)
  | Conflict conflict =>
      match mapM as_blob conflict with
      | Some entries => merged ← merge_entries path entries; mret (default node merged)
      | None => mret node
      end
  | node => mret node
  end.

(** ** [MemoryRootManifest] *)

Definition MemoryRootManifest_new (n m : nat) (mp1 mp2 : option HgNodeHash) : eio mf_error repo_state MemoryManifestEntry :=
  match mp1, mp2 with
  | None, None => mret empty_tree
  | Some p, None | None, Some p => mret (convert_treenode p)
  | Some p1, Some p2 => merge_with_conflicts n m (convert_treenode p1) (convert_treenode p2) RootPath
  end.

Definition resolve_trivial_conflicts (root : MemoryManifestEntry) : eio mf_error repo_state MemoryManifestEntry := resolve_rec None root.
Definition root_save (n : nat) (root : MemoryManifestEntry) : eio mf_error repo_state Entry := save n root RootPath.

(** The changes one after the other, as they come to be made. *)
Fixpoint change_all (store : ManifestStore) (changes : list (MPath * option Entry)) (root : MemoryManifestEntry)
    : MemoryManifestEntry * outcome mf_error unit :=
  match changes with
  | [] => (root, Ok tt)
  | (path, entry) :: changes =>
      match change_entry store path entry root with
      | (root, Ok _) => change_all store changes root
      | r => r
      end
  end.

Definition make_entry (r : BonsaiDiffResult) : option Entry :=
  match r with
  | Changed path ft entry_id | ChangedReusedId path ft entry_id => Some (mkEntry (last (elements path)) (File ft) entry_id)
  | Deleted _ => None
  end.

(** [apply_diff]. The changes are futures that are joined: they are made in the
    order in which what each waits for arrives. [n] bounds the depths. *)
Definition apply_diff (n : nat) (diff_result : list BonsaiDiffResult) (manifest_p1 manifest_p2 : option HgNodeHash)
    : eio mf_error repo_state HgNodeHash :=
  root ← MemoryRootManifest_new n n manifest_p1 manifest_p2;
  root ← (fun s : repo_state =>
    match change_all (blobs s) (futures_unordered ((fun r => (result_path r, make_entry r)) <$> diff_result)) root with
    | (root, Ok _) => (s, Ok root)
    | (_, Err e) => (s, Err e)
    | (_, Panic) => (s, Panic)
    end);
  root ← resolve_trivial_conflicts root;
  m ← root_save n root;
  mret (get_hash m).
End memory.
