(* ===== verification/MemoryManifestOk.v ===== *)
(** * Manifests in memory: the theorems

    What the trees of [MemoryManifest] hold, and that changes and [save] keep
    it: the files of the saved manifest are those of the parent with the
    changes applied. *)

From stdpp Require Import list.
From S2P Require Import Prelude Ord Path Hash Bonsai BonsaiDiff HgManifest HgUpload MemoryManifest.

#[local] Arguments cmp : simpl never.

(** ** Sorted maps *)

Section btree.
Context {V : Type}.
Implicit Types m : list (MPathElement * V).

Lemma btree_get_remove k k' m : btree_get k' (btree_remove k m) = if decide (k' = k) then None else btree_get k' m.
Proof.
  unfold btree_remove. induction m as [|[k2 v2] m IH]; cbn; [by case_decide|].
  destruct (bool_decide (k2 = k)) eqn:E; cbn.
  - apply bool_decide_eq_true in E as ->. rewrite IH. destruct (cmp_spec k' k) as [->|Hlt|Hlt]; case_decide; congruence.
  - apply bool_decide_eq_false in E. rewrite IH. destruct (cmp_spec k' k2) as [->|Hlt|Hlt]; case_decide; congruence.
Qed.

Lemma btree_remove_elem k m x : x ∈ btree_remove k m -> x ∈ m.
Proof. unfold btree_remove. rewrite !list_elem_of_In, filter_In. by intros [? _]. Qed.

Lemma btree_remove_wf k m : btree_wf m -> btree_wf (btree_remove k m).
Proof.
  induction 1 as [|x m Hs IH Hlt]; [constructor|]. unfold btree_remove. cbn. case_match; [|done]. constructor; [done|].
  apply Forall_forall. intros y Hy%btree_remove_elem. rewrite Forall_forall in Hlt. by apply Hlt.
Qed.

Lemma btree_get_cons_wf k v m : btree_wf ((k, v) :: m) -> btree_get k m = None.
Proof.
  intros [_ Hlt]%StronglySorted_inv. induction m as [|[k' v'] m IH]; cbn; [done|]. apply Forall_cons in Hlt as [Hk Hlt]. cbn in Hk.
  destruct (cmp_spec k k') as [->|?|?]; [by destruct (ord_irr k')|by apply IH|by apply IH].
Qed.

Lemma btree_get_decide k k' v m : btree_get k' (btree_insert k v m) = if decide (k' = k) then Some v else btree_get k' m.
Proof. rewrite btree_get_insert. case_decide as E; [subst; by rewrite cmp_refl|]. destruct (cmp_spec k' k); done. Qed.

Lemma btree_get_fmap {W} (f : MPathElement -> V -> W) k m : btree_get k ((fun x => (x.1, f x.1 x.2)) <$> m) = f k <$> btree_get k m.
Proof.
  induction m as [|[k' v'] m IH]; cbn; [done|]. destruct (cmp k k') eqn:E; [|done|done]. apply cmp_eq in E as ->. done.
Qed.

Lemma btree_fmap_wf {W} (f : MPathElement -> V -> W) m : btree_wf m -> btree_wf ((fun x => (x.1, f x.1 x.2)) <$> m).
Proof. induction 1 as [|x m Hs IH Hlt]; cbn; [constructor|]. constructor; [done|]. by apply Forall_fmap. Qed.

Lemma btree_elem_get k v m : btree_wf m -> (k, v) ∈ m -> btree_get k m = Some v.
Proof.
  induction 1 as [|[k' v'] m Hs IH Hlt]; [by intros ?%elem_of_nil|]. intros [[= -> ->]|H]%elem_of_cons; cbn; [by rewrite cmp_refl|].
  rewrite Forall_forall in Hlt. pose proof (Hlt _ H) as Hk. cbn in Hk. destruct (cmp_spec k k') as [->|?|?]; [by destruct (ord_irr k')|by apply IH..].
Qed.

Lemma btree_get_in k v m : btree_get k m = Some v -> (k, v) ∈ m.
Proof.
  induction m as [|[k' v'] m IH]; cbn; [done|]. destruct (cmp k k') eqn:E; [|intros H; right; by apply IH..].
  apply cmp_eq in E as ->. intros [= ->]. by left.
Qed.

(** Changes make a tree modified. *)
Lemma changes_modified base p1 p2 k o changes : btree_get k changes = Some o -> is_modified (MemTree base p1 p2 changes) = true.
Proof. destruct changes; [done|]. cbn. by rewrite orb_true_r. Qed.
End btree.

Lemma apply_changes_wf ch children : btree_wf children -> btree_wf (apply_changes ch children).
Proof.
  unfold apply_changes. revert children. induction ch as [|[k [e|]] ch IH]; intros children Hwf; cbn; [done|..]; apply IH;
    [by apply btree_insert_wf|by apply btree_remove_wf].
Qed.

Lemma apply_changes_get ch : btree_wf ch -> forall children name,
  btree_get name (apply_changes ch children) = match btree_get name ch with Some o => o | None => btree_get name children end.
Proof.
  unfold apply_changes. induction ch as [|[k o] ch IH]; intros Hwf children name; cbn; [done|].
  pose proof (btree_get_cons_wf _ _ _ Hwf) as Hk. apply StronglySorted_inv in Hwf as [Hwf _]. rewrite IH by done.
  destruct (cmp name k) eqn:E.
  - apply cmp_eq in E as ->. rewrite Hk. destruct o; [rewrite btree_get_decide|rewrite btree_get_remove]; by rewrite decide_True.
  - destruct (btree_get name ch); [done|]. assert (name <> k) by (intros ->; by rewrite cmp_refl in E).
    destruct o; [rewrite btree_get_decide|rewrite btree_get_remove]; by rewrite decide_False.
  - destruct (btree_get name ch); [done|]. assert (name <> k) by (intros ->; by rewrite cmp_refl in E).
    destruct o; [rewrite btree_get_decide|rewrite btree_get_remove]; by rewrite decide_False.
Qed.

(** ** What a tree holds *)

Section files.
Context {C : Sha1Context}.
Implicit Types (st : ManifestStore) (e : MemoryManifestEntry).

Definition content st (h : HgEntryId) : outcome mf_error Manifest := m ← load_manifest st h; Ok (content_list m).

Definition file_of (i : BonsaiDiff.id) : option (FileType * HgEntryId) := match i with (File ft, h) => Some (ft, h) | _ => None end.
Definition stored_file st (i : BonsaiDiff.id) (p : list MPathElement) : option (FileType * HgEntryId) := id_at (content st) i p ≫= file_of.

Fixpoint mem_file st (p : list MPathElement) e : option (FileType * HgEntryId) :=
  match p with
  | [] => match e with Blob b => file_of (entry_id b) | _ => None end
  | name :: p' =>
      match e with
      | MemTree base _ _ changes =>
          match btree_get name changes with
          | Some (Some child) => mem_file st p' child
          | Some None => None
          | None => id ← base; stored_file st (Tree, id) p
          end
      | _ => None
      end
  end.

(** A tree without conflicts, whose manifests are in the store. What is modified
    in it has depth at most [n]. *)
Fixpoint mem_ok st (n : nat) e : Prop :=
  match e with
  | Blob b => valid_node (get_hash b) /\ exists ft, get_type b = File ft
  | Conflict _ => False
  | MemTree base _ p2 changes =>
      (forall id, base = Some id -> valid_node id /\ exists k, loads (content st) k (Tree, id)) /\
      (p2 = None \/ base = None) /\ btree_wf changes /\ Forall (fun x => valid_elem x.1) changes /\
      (is_modified e = true ->
       match n with
       | 0 => False
       | S n => forall name c, (name, Some c) ∈ changes -> mem_ok st n c
       end)
  end.

Lemma load_content st h m : load_manifest st h = Ok m -> content_ok m /\ content st h = Ok (content_list m).
Proof.
  intros E. unfold content. rewrite E. split; [|done]. unfold load_manifest, map_err in E.
  destruct (BlobManifest_load h st) as [[m'|]| |] eqn:El; try done. injection E as <-. by eapply load_ok.
Qed.

Definition named_list (m : ManifestContent) : list (MPathElement * Entry) := (fun x => (x.1, details_entry x)) <$> m.

Lemma named_list_snd m : (named_list m).*2 = content_list m.
Proof. unfold named_list, content_list. by rewrite <- list_fmap_compose. Qed.

Lemma named_list_ok m : content_ok m -> btree_wf (named_list m) /\ Forall (fun x => named x.1 x.2 /\ nonempty_elem x.1 = true) (named_list m).
Proof.
  intros [Hwf Hv]. split.
  - apply (btree_fmap_wf (fun k v => details_entry (k, v))) in Hwf. unfold named_list.
    rewrite (list_fmap_ext _ (fun x => (x.1, details_entry (x.1, x.2)))); [done|]. by intros ? [] _.
  - apply Forall_fmap. eapply Forall_impl; [exact Hv|]. intros x [Hn _]. split; [done|]. by apply valid_elem_nonempty.
Qed.

Lemma child_get st h m name : load_manifest st h = Ok m ->
  id_child (content st) (Tree, h) name = (fun d => (flag d, entryid d)) <$> btree_get name m.
Proof.
  intros [Hok Hc]%load_content. destruct (named_list_ok m Hok) as [Hwf Hl].
  rewrite (id_child_get (content st) h (content_list m) (named_list m) name Hc); [|by rewrite named_list_snd|done|done].
  unfold named_list. rewrite (list_fmap_ext _ (fun x => (x.1, details_entry (x.1, x.2)))); [|by intros ? [] _].
  rewrite (btree_get_fmap (fun k v => details_entry (k, v))). by destruct (btree_get name m).
Qed.

Lemma base_children_ok m : content_ok m ->
  base_children m = Ok ((fun x => (x.1, memory_entry x.1 (details_entry (x.1, x.2)))) <$> m).
Proof.
  intros [Hwf _]. unfold base_children, content_list.
  apply (btree_fmap_wf (fun k v => memory_entry k (details_entry (k, v)))) in Hwf. rewrite <- (btree_collect_id _ Hwf). unfold btree_collect.
  clear Hwf. generalize (@nil (MPathElement * MemoryManifestEntry)).
  induction m as [|[k d] m IH]; intros acc; [done|]. cbn [fmap list_fmap foldl]. apply IH.
Qed.

Lemma memory_entry_file st name d p : mem_file st p (memory_entry name (details_entry (name, d))) = stored_file st (flag d, entryid d) p.
Proof.
  unfold memory_entry. cbn. destruct d as [h [ft|]]; cbn.
  - destruct p as [|n p]; [done|]. unfold stored_file. done.
  - destruct p as [|n p]; [done|]. done.
Qed.

(** *** Manifests that load *)

Lemma good_content st h m : load_manifest st h = Ok m -> content st h = Ok (content_list m) /\ good_manifest (content_list m).
Proof.
  intros [Hok Hc]%load_content. split; [done|]. destruct (named_list_ok m Hok) as [Hwf Hl].
  exists (named_list m). by rewrite named_list_snd.
Qed.

Lemma content_inv st h mf : content st h = Ok mf -> exists m, load_manifest st h = Ok m /\ mf = content_list m.
Proof. unfold content. intros (m & Hm & [= <-])%bind_Ok_inv. by exists m. Qed.

Lemma loads_tree st k h : loads (content st) (S k) (Tree, h) <->
  exists m, load_manifest st h = Ok m /\ Forall (fun x => loads (content st) k (flag x.2, entryid x.2)) m.
Proof.
  cbn [loads]. split.
  - intros (mf & (m & Hm & ->)%content_inv & _ & Hl). exists m. split; [done|]. unfold content_list in Hl. by rewrite Forall_fmap in Hl.
  - intros (m & Hm & Hl). destruct (good_content _ _ _ Hm) as [Hc Hg]. exists (content_list m). split; [done|]. split; [done|].
    unfold content_list. by apply Forall_fmap.
Qed.

Lemma loads_le st k k' i : k <= k' -> loads (content st) k i -> loads (content st) k' i.
Proof.
  revert k' i. induction k as [|k IH]; intros k' [[ft|] h] Hle Hl; [by destruct k'|done|by destruct k'|].
  destruct k' as [|k']; [lia|]. apply loads_tree in Hl as (m & Hm & Hl). apply loads_tree. exists m. split; [done|].
  eapply Forall_impl; [exact Hl|]. intros x Hx. apply IH; [lia|done].
Qed.

(** One bound for all of a list. *)
Lemma loads_all st (m : ManifestContent) : Forall (fun x => exists k, loads (content st) k (flag x.2, entryid x.2)) m ->
  exists k, Forall (fun x => loads (content st) k (flag x.2, entryid x.2)) m.
Proof.
  induction 1 as [|x m [k Hk] _ [k' IH]]; [by exists 0|]. exists (k + k'). constructor; [eapply loads_le; [|exact Hk]; lia|].
  eapply Forall_impl; [exact IH|]. intros y Hy. eapply loads_le; [|exact Hy]. lia.
Qed.

Lemma stored_cons st h m name p : load_manifest st h = Ok m ->
  stored_file st (Tree, h) (name :: p) = d ← btree_get name m; stored_file st (flag d, entryid d) p.
Proof. intros Hm. unfold stored_file. cbn [id_at]. rewrite (child_get _ _ _ _ Hm). by destruct (btree_get name m). Qed.

(** *** Puts that come later *)

Definition grown st st' : Prop := exists new, st' = new ++ st.

Lemma grown_refl st : grown st st.
Proof. by exists []. Qed.
Lemma grown_trans st1 st2 st3 : grown st1 st2 -> grown st2 st3 -> grown st1 st3.
Proof. intros [n1 ->] [n2 ->]. exists (n2 ++ n1). by rewrite app_assoc. Qed.

Lemma one_value_before st st' : grown st st' -> one_value_per_key st' -> one_value_per_key st.
Proof.
  intros [new ->] [H1 H2]. split.
  - intros k v v' H H'. apply (H1 k); apply elem_of_app; by right.
  - intros v H. apply (H2 v), elem_of_app. by right.
Qed.

Lemma load_grown st st' h m : grown st st' -> one_value_per_key st' -> load_manifest st h = Ok m -> load_manifest st' h = Ok m.
Proof.
  intros [new ->] Hone. unfold load_manifest. destruct (BlobManifest_load h st) as [[m'|]| |] eqn:E; try done. intros [= <-].
  by rewrite (load_later new st h m' Hone E).
Qed.

Lemma loads_grown st st' k i : grown st st' -> one_value_per_key st' -> loads (content st) k i -> loads (content st') k i.
Proof.
  intros Hg Hone. revert i. induction k as [|k IH]; intros [[ft|] h]; [done..|]. rewrite !loads_tree.
  intros (m & Hm & Hl). exists m. split; [by eapply load_grown|]. eapply Forall_impl; [exact Hl|]. intros x. apply IH.
Qed.

Lemma stored_grown st st' k i p : grown st st' -> one_value_per_key st' -> loads (content st) k i -> stored_file st' i p = stored_file st i p.
Proof.
  intros Hg Hone. revert i p. induction k as [|k IH]; intros [[ft|] h] [|name p] Hl; try done.
  apply loads_tree in Hl as (m & Hm & Hl). rewrite (stored_cons st h m) by done. rewrite (stored_cons st' h m) by by eapply load_grown.
  destruct (btree_get name m) as [d|] eqn:E; [|done]. cbn. apply IH. apply btree_get_in in E. rewrite Forall_forall in Hl. by apply (Hl (name, d)).
Qed.

Lemma mem_ok_grown st st' n e : grown st st' -> one_value_per_key st' -> mem_ok st n e -> mem_ok st' n e.
Proof.
  intros Hg Hone. revert e. induction n as [|n IH]; intros [b|l|base p1 p2 changes]; cbn [mem_ok]; try done;
    intros (Hb & Hp & Hwf & Hv & Hc); (split; [|split; [done|split; [done|split; [done|]]]]; [intros id Hid; destruct (Hb id Hid) as [Hn [k Hk]]; split; [done|]; exists k; by eapply loads_grown|]).
  - done.
  - intros Hm name c Hin. by apply IH, (Hc Hm name).
Qed.

Lemma mem_file_grown st st' n e p : grown st st' -> one_value_per_key st' -> mem_ok st n e -> mem_file st' p e = mem_file st p e.
Proof.
  intros Hg Hone. revert e p. induction n as [|n IH]; intros [b|l|base p1 p2 changes] [|name p]; cbn [mem_ok mem_file]; try done;
    intros (Hb & Hp & Hwf & Hv & Hc).
  - destruct (btree_get name changes) as [o|] eqn:E.
    + by destruct (Hc (changes_modified _ _ _ _ _ _ E)).
    + destruct base as [id|]; [|done]. destruct (Hb id eq_refl) as [_ [k Hk]]. exact (stored_grown st st' k _ _ Hg Hone Hk).
  - destruct (btree_get name changes) as [[c|]|] eqn:E; [|done|].
    + apply IH, (Hc (changes_modified _ _ _ _ _ _ E) name). by apply btree_get_in.
    + destruct base as [id|]; [|done]. destruct (Hb id eq_refl) as [_ [k Hk]]. exact (stored_grown st st' k _ _ Hg Hone Hk).
Qed.

(** ** The children of a tree *)

Lemma is_modified_empty base p1 p2 changes : is_modified (MemTree base p1 p2 changes) = false -> (exists id, base = Some id) /\ changes = [].
Proof. cbn. rewrite orb_false_iff, bool_decide_eq_false, negb_false_iff, Nat.eqb_eq. intros [Hb ->%nil_length_inv]. destruct base; [by eauto|done]. Qed.

Lemma mem_ok_entry st n k name d : valid_node (entryid d) -> loads (content st) k (flag d, entryid d) -> mem_ok st n (memory_entry name (details_entry (name, d))).
Proof.
  destruct d as [h [ft|]]; cbn; intros Hv Hl; destruct n; cbn; (split; [by eauto||(intros id [= <-]; by eauto)|]); eauto;
    (split; [by left|]; split; [constructor|]; split; [constructor|done]).
Qed.

Definition children_of st n e (children : list (MPathElement * MemoryManifestEntry)) : Prop :=
  btree_wf children /\ Forall (fun x => valid_elem x.1 /\ mem_ok st n x.2) children /\
  forall name p, mem_file st (name :: p) e = c ← btree_get name children; mem_file st p c.

Lemma base_children_of st n h m k : load_manifest st h = Ok m -> loads (content st) k (Tree, h) ->
  exists children, base_children m = Ok children /\ btree_wf children /\ Forall (fun x => valid_elem x.1 /\ mem_ok st n x.2) children /\
    forall name p, stored_file st (Tree, h) (name :: p) = c ← btree_get name children; mem_file st p c.
Proof.
  intros Hm Hl. destruct (load_content st h m Hm) as [Hok _]. rewrite (base_children_ok m Hok). eexists. split; [done|].
  destruct Hok as [Hwf Hv]. split; [exact (btree_fmap_wf (fun k v => memory_entry k (details_entry (k, v))) m Hwf)|]. split.
  - apply Forall_fmap. destruct k as [|k]; [done|]. apply loads_tree in Hl as (m' & Hm' & Hl). assert (m' = m) as -> by congruence.
    rewrite Forall_forall in *. intros [name d] Hin. destruct (Hv _ Hin) as [? ?]. split; [done|]. eapply mem_ok_entry; [done|by apply (Hl (name, d))].
  - intros name p. rewrite (stored_cons _ _ _ _ _ Hm). rewrite (btree_get_fmap (fun k v => memory_entry k (details_entry (k, v)))).
    destruct (btree_get name m) as [d|] eqn:E; [|done]. cbn -[memory_entry details_entry]. by rewrite memory_entry_file.
Qed.

Lemma apply_changes_ok st n changes children : Forall (fun x => valid_elem x.1) changes ->
  (forall name c, (name, Some c) ∈ changes -> mem_ok st n c) ->
  Forall (fun x => valid_elem x.1 /\ mem_ok st n x.2) children -> Forall (fun x => valid_elem x.1 /\ mem_ok st n x.2) (apply_changes changes children).
Proof.
  unfold apply_changes. intros Hv. revert children. induction Hv as [|[k o] changes Hk _ IH]; intros children Hc Hch; cbn; [done|].
  apply IH; [intros name c Hin; apply (Hc name); by right|]. rewrite Forall_forall in *. destruct o as [c|].
  - intros x [->|Hx]%btree_insert_elem; [|by apply Hch]. split; [done|]. apply (Hc k). by left.
  - intros x Hx%btree_remove_elem. by apply Hch.
Qed.

Lemma children_ok st n base p1 p2 changes : mem_ok st (S n) (MemTree base p1 p2 changes) -> is_modified (MemTree base p1 p2 changes) = true ->
  exists children, get_new_children st (MemTree base p1 p2 changes) = Ok children /\ children_of st n (MemTree base p1 p2 changes) children.
Proof.
  cbn [mem_ok]. intros (Hb & _ & Hwf & Hv & Hc) Hm. specialize (Hc Hm).
  assert (exists base_ch, match base with Some id => m ← load_manifest st id; base_children m | None => Ok [] end = Ok base_ch /\
    btree_wf base_ch /\ Forall (fun x => valid_elem x.1 /\ mem_ok st n x.2) base_ch /\
    forall name p, (id ← base; stored_file st (Tree, id) (name :: p)) = c ← btree_get name base_ch; mem_file st p c) as (ch & Ech & Hcwf & Hch & Hf).
  { destruct base as [id|]; [|exists []; repeat split; constructor]. destruct (Hb id eq_refl) as [_ [[|k] Hk]]; [done|].
    pose proof Hk as (m & Hl & _)%loads_tree. rewrite Hl. rewrite bind_Ok. by eapply base_children_of. }
  exists (apply_changes changes ch). split; [|split; [by apply apply_changes_wf|]; split; [by apply apply_changes_ok|]].
  - cbn [get_new_children]. destruct base as [id|]; [|by injection Ech as <-]. destruct (load_manifest st id) as [m| |]; [|done..].
    rewrite bind_Ok in Ech |- *. by rewrite Ech.
  - intros name p. rewrite apply_changes_get by done. cbn [mem_file]. destruct (btree_get name changes) as [[c|]|]; [done|done|apply Hf].
Qed.

(** What [is_empty] is true of holds no file. *)
Lemma is_empty_ok st n e : mem_ok st n e -> exists b, is_empty n st e = Ok b /\ (b = true -> forall p, mem_file st p e = None).
Proof.
  revert e. induction n as [|n IH]; intros [b|l|base p1 p2 changes] Hok; [by exists false|done| |by exists false|done|].
  - destruct changes as [|x changes].
    + cbn. eexists. split; [done|]. intros ->%bool_decide_eq_true [|name p]; done.
    + destruct Hok as (_ & _ & _ & _ & Hc). destruct Hc. cbn. by rewrite orb_true_r.
  - destruct (is_modified (MemTree base p1 p2 changes)) eqn:Hm.
    2:{ apply is_modified_empty in Hm as [[id ->] ->]. by exists false. }
    destruct (children_ok _ _ _ _ _ _ Hok Hm) as (ch & Ech & Hwf & Hch & Hf).
    destruct changes as [|x changes]; [cbn; eexists; split; [done|]; intros ->%bool_decide_eq_true [|name p]; done|].
    cbn [is_empty]. cbn [length Nat.eqb]. rewrite Ech, bind_Ok.
    destruct (collect_total (fun x => is_empty n st x.2) (fun x b => b = true -> forall p, mem_file st p x.2 = None) ch) as (bs & Ebs & Hbs).
    { intros y Hy. apply IH. rewrite Forall_forall in Hch. by apply Hch. }
    rewrite Ebs, bind_Ok. eexists. split; [done|]. intros Hall [|name p]; [done|]. rewrite Hf.
    destruct (btree_get name ch) as [c|] eqn:E; [|done]. apply btree_get_in, list_elem_of_lookup in E as [i Hi].
    destruct (Forall2_lookup_l _ _ _ _ _ Hbs Hi) as (b & Hb & Hbf). apply Hbf. rewrite forallb_forall in Hall.
    apply Hall, list_elem_of_In. by eapply list_elem_of_lookup_2.
Qed.

(** ** Operations on the repository

    Every operation only puts blobs; [runs] says what it does if none of the
    puts is under a key with another value. *)

Definition grown_blobs (s s' : repo_state) : Prop := grown (blobs s) (blobs s').
#[export] Instance grown_blobs_preorder : PreOrder grown_blobs.
Proof. split; [intros s; apply grown_refl|intros s1 s2 s3; apply grown_trans]. Qed.
Abbreviation grows := (preserves grown_blobs).

Definition runs {A} (m : eio mf_error repo_state A) (s : repo_state) (Q : repo_state -> A -> Prop) : Prop :=
  one_value_per_key (blobs (m s).1) -> exists a, (m s).2 = Ok a /\ Q (m s).1 a.

Lemma runs_ret {A} (a : A) s (Q : repo_state -> A -> Prop) : Q s a -> runs (mret a) s Q.
Proof. intros H _. by exists a. Qed.

Lemma runs_lift {A} (r : outcome mf_error A) a s (Q : repo_state -> A -> Prop) : r = Ok a -> Q s a -> runs (lift r) s Q.
Proof. intros -> H _. by exists a. Qed.

Lemma runs_bind_lift {A B} (r : outcome mf_error A) a (f : A -> eio mf_error repo_state B) s Q : r = Ok a -> runs (f a) s Q -> runs (lift r ≫= f) s Q.
Proof. by intros ->. Qed.

Lemma runs_bind_read {A B} (r : ManifestStore -> outcome mf_error A) a (f : A -> eio mf_error repo_state B) s Q :
  r (blobs s) = Ok a -> runs (f a) s Q -> runs (read_store r ≫= f) s Q.
Proof. intros E. unfold runs, mbind, eio_bind, read_store. by rewrite E. Qed.

Lemma runs_step {A B} (m : eio mf_error repo_state A) (f : A -> eio mf_error repo_state B) s s1 a Q : m s = (s1, Ok a) -> runs (f a) s1 Q -> runs (m ≫= f) s Q.
Proof. intros E. unfold runs, mbind, eio_bind. by rewrite E. Qed.

Lemma runs_bind {A B} (m : eio mf_error repo_state A) (f : A -> eio mf_error repo_state B) s (Q1 : repo_state -> A -> Prop) (Q : repo_state -> B -> Prop) :
  grows m -> (forall a, grows (f a)) -> runs m s Q1 ->
  (forall s1 a, grown (blobs s) (blobs s1) -> one_value_per_key (blobs s1) -> Q1 s1 a -> runs (f a) s1 Q) -> runs (m ≫= f) s Q.
Proof.
  intros Hm Hf H1 H2. unfold runs, mbind, eio_bind. specialize (Hm s). unfold runs in H1. destruct (m s) as [s1 [a|e|]]; cbn in *.
  - intros Hone. pose proof (one_value_before _ _ (Hf a s1) Hone) as Hone1. destruct (H1 Hone1) as (a' & [= <-] & HQ). by apply (H2 s1 a).
  - intros Hone. by destruct (H1 Hone) as (a & ? & _).
  - intros Hone. by destruct (H1 Hone) as (a & ? & _).
Qed.

Lemma upload_manifest_grows p1 p2 path m : grows (upload_manifest p1 p2 path m).
Proof. intros s. unfold upload_manifest. cbn. by eexists [_]. Qed.

(** What [save] leaves is what its uploads leave. *)
Section save.
Context (R : repo_state -> repo_state -> Prop) `{!PreOrder R}.

Lemma save_children_preserves empty sv path children : (forall e path, preserves R (sv e path)) -> preserves R (save_children empty sv path children).
Proof.
  intros Hs. induction children as [|[name e] children IH]; cbn [save_children]; [by apply preserves_ret|].
  apply preserves_bind; [done|by apply preserves_read|]. intros [|]; [done|]. apply preserves_bind; [done|by apply preserves_lift|]. intros p.
  apply preserves_bind; [done|apply Hs|]. intros x. apply preserves_bind; [done..|]. intros r. by apply preserves_ret.
Qed.

Lemma save_preserves n e path : (forall p1 p2 path m, preserves R (upload_manifest p1 p2 path m)) -> preserves R (save n e path).
Proof.
  intros Hu. revert e path. induction n as [|n IH]; intros [b|l|base p1 p2 changes] path; cbn [save]; try (by apply preserves_ret || by apply preserves_lift).
  - destruct (is_modified _); by apply preserves_lift.
  - destruct (is_modified _); [|by apply preserves_lift]. apply preserves_bind; [done|by apply preserves_read|]. intros ch.
    apply preserves_bind; [done|by apply save_children_preserves|]. intros m. apply Hu.
Qed.
End save.

Lemma save_children_grows empty sv path children : (forall e path, grows (sv e path)) -> grows (save_children empty sv path children).
Proof. apply save_children_preserves, _. Qed.

Lemma save_grows n e path : grows (save n e path).
Proof. apply save_preserves; [apply _|]. apply upload_manifest_grows. Qed.

(** ** Saving *)

Context {CL : Sha1ContextLaws C}.

Definition tree_path_ok (path : RepoPath) : Prop :=
  match path with RootPath => True | DirectoryPath p => elements p <> [] | FilePath _ => False end.

Lemma extend_ok path name : tree_path_ok path -> valid_elem name ->
  exists path', extend_repopath_with_dir path name = Ok path' /\ tree_path_ok path'.
Proof.
  intros Hp Hn%valid_elem_nonempty. destruct path as [|p|p]; [| |done]; unfold extend_repopath_with_dir; cbn -[nonempty_elem]; rewrite ?Hn; cbn;
    (eexists; split; [reflexivity|]; cbn); [done|]. by intros [? _]%app_eq_nil.
Qed.

Lemma last_ok {A} (l : list A) : l <> [] -> exists x, last l = Some x.
Proof. intros Hl. destruct (last l) eqn:E; [by eauto|]. by apply last_None in E. Qed.

(** What is saved for [e]: an entry that loads, with the files of [e]. *)
Definition saved_as e (s : repo_state) (entry : Entry) : Prop :=
  valid_node (get_hash entry) /\ (exists k, loads (content (blobs s)) k (entry_id entry)) /\
  (is_memtree e = true -> get_type entry = Tree) /\
  forall p, stored_file (blobs s) (entry_id entry) p = mem_file (blobs s) p e.

Lemma saved_as_grown e s s' entry n : grown (blobs s) (blobs s') -> one_value_per_key (blobs s') -> mem_ok (blobs s) n e ->
  saved_as e s entry -> saved_as e s' entry.
Proof.
  intros Hg Hone Hok (Hv & [k Hk] & Ht & Hf). split; [done|]. split; [exists k; by eapply loads_grown|]. split; [done|]. intros p.
  rewrite (stored_grown (blobs s) (blobs s') k) by done. rewrite Hf. by erewrite <- mem_file_grown.
Qed.

Lemma load_manifest_ok st h m : BlobManifest_load h st = Ok (Some m) -> load_manifest st h = Ok m.
Proof. unfold load_manifest. by intros ->. Qed.

Lemma nodeid_valid data parents : valid_node (nodeid data parents).
Proof. unfold nodeid. case_match. apply digest_valid. Qed.

Lemma upload_manifest_ok p1 p2 path m s : content_ok m ->
  runs (upload_manifest p1 p2 path m) s (fun s' entry =>
    get_type entry = Tree /\ valid_node (get_hash entry) /\ load_manifest (blobs s') (get_hash entry) = Ok m).
Proof.
  intros Hm Hone. cbn in *. eexists. split; [done|]. cbn. split; [done|]. split; [apply nodeid_valid|].
  apply load_manifest_ok. exact (load_uploaded m p1 p2 (blobs s) Hm Hone).
Qed.

Lemma blob_saved b s : valid_node (get_hash b) -> (exists ft, get_type b = File ft) -> saved_as (Blob b) s b.
Proof.
  intros Hv [ft Hft]. unfold saved_as, entry_id. rewrite Hft. split; [done|]. split; [by exists 0|]. split; [done|]. intros [|name p]; cbn; unfold entry_id; by rewrite ?Hft.
Qed.

Lemma unchanged_saved id p1 path s k : tree_path_ok path -> valid_node id -> loads (content (blobs s)) k (Tree, id) ->
  exists entry, unchanged_entry (Some id) None path = Ok entry /\ saved_as (MemTree (Some id) p1 None []) s entry.
Proof.
  intros Hp Hv Hl. assert (exists name, unchanged_entry (Some id) None path = Ok (mkEntry name Tree id)) as [name ->].
  { destruct path as [|p|p]; [by eexists| |done]. unfold unchanged_entry. cbn. destruct (last_ok (elements p) Hp) as [x Hx].
    exists (Some x). unfold basename. by rewrite Hx. }
  eexists. split; [done|]. split; [done|]. split; [by exists k|]. split; [done|]. intros [|n p]; done.
Qed.

(** The entries that [save_children] gives. *)
Definition saved_children (children : list (MPathElement * MemoryManifestEntry)) (s : repo_state) (m : ManifestContent) : Prop :=
  content_ok m /\ Forall (fun x => exists k, loads (content (blobs s)) k (flag x.2, entryid x.2)) m /\ m.*1 ⊆ children.*1 /\
  forall name p, (d ← btree_get name m; stored_file (blobs s) (flag d, entryid d) p) = c ← btree_get name children; mem_file (blobs s) p c.

Lemma btree_get_above {V W} k v (children : list (MPathElement * W)) (m : list (MPathElement * V)) :
  btree_wf ((k, v) :: children) -> m.*1 ⊆ children.*1 -> btree_get k m = None.
Proof.
  intros Hwf Hsub. destruct (btree_get k m) as [d|] eqn:E; [|done]. exfalso.
  assert (k ∈ children.*1) as (y & -> & Hy)%list_elem_of_fmap.
  { apply Hsub. apply btree_get_in in E. apply list_elem_of_fmap. by exists (k, d). }
  apply StronglySorted_inv in Hwf as [_ Hlt]. rewrite Forall_forall in Hlt. by destruct (ord_irr _ (Hlt y Hy)).
Qed.

Lemma saved_children_skip name c children s m : btree_wf ((name, c) :: children) -> (forall p, mem_file (blobs s) p c = None) ->
  saved_children children s m -> saved_children ((name, c) :: children) s m.
Proof.
  intros Hwf Hc (Hm & Hl & Hsub & Hf). split; [done|]. split; [done|]. split; [intros x Hx; right; by apply Hsub|]. intros name' p. cbn.
  destruct (cmp name' name) eqn:E; [|apply Hf..]. apply cmp_eq in E as ->. rewrite (btree_get_above _ _ _ _ Hwf Hsub). cbn. by rewrite Hc.
Qed.

Lemma saved_children_cons name c children s m entry : btree_wf ((name, c) :: children) -> valid_elem name -> saved_as c s entry ->
  saved_children children s m -> saved_children ((name, c) :: children) s ((name, mkDetails (get_hash entry) (get_type entry)) :: m).
Proof.
  intros Hwf Hv (Hh & Hk & _ & Hfe) ([Hmwf Hmv] & Hl & Hsub & Hf).
  assert (btree_wf ((name, mkDetails (get_hash entry) (get_type entry)) :: m)) as Hwf'.
  { constructor; [done|]. apply Forall_forall. intros x Hx. apply StronglySorted_inv in Hwf as [_ Hlt].
    assert (x.1 ∈ children.*1) as (y & Hy1 & Hy)%list_elem_of_fmap by (apply Hsub, list_elem_of_fmap; by exists x).
    rewrite Forall_forall in Hlt. specialize (Hlt y Hy). cbn in *. by rewrite Hy1. }
  split; [split; [done|by constructor]|]. split; [by constructor|]. split.
  - cbn. intros x [->|Hx]%elem_of_cons; [by left|]. right. by apply Hsub.
  - intros name' p. cbn. destruct (cmp name' name) eqn:E; [|apply Hf..]. cbn. apply Hfe.
Qed.

Lemma save_children_ok n st sv children path : tree_path_ok path -> (forall e path, grows (sv e path)) ->
  (forall c path s, tree_path_ok path -> mem_ok (blobs s) n c -> runs (sv c path) s (saved_as c)) ->
  btree_wf children -> Forall (fun x => valid_elem x.1 /\ mem_ok st n x.2) children ->
  forall s, grown st (blobs s) -> one_value_per_key (blobs s) -> runs (save_children (is_empty n) sv path children) s (saved_children children).
Proof.
  intros Hp Hsg Hs Hwf Hv. induction Hv as [|[name c] children [Hn Hc] _ IH]; intros s Hg Hone; cbn [save_children].
  { apply runs_ret. split; [by split; constructor|]. split; [constructor|]. by split. }
  cbn in Hn, Hc. pose proof (proj1 (StronglySorted_inv Hwf)) as Hwf'. specialize (IH Hwf').
  pose proof (mem_ok_grown st (blobs s) n c Hg Hone Hc) as Hc1.
  destruct (is_empty_ok (blobs s) n c Hc1) as ([|] & Eb & Hb); (eapply runs_bind_read; [exact Eb|]).
  - intros Hone2. destruct (IH s Hg Hone Hone2) as (m & Em & Hm). exists m. split; [done|].
    apply saved_children_skip; [done| |done]. intros p. rewrite (mem_file_grown (blobs s) _ n c p); [by apply Hb| |done|done].
    by apply save_children_grows.
  - destruct (extend_ok path name Hp Hn) as (path' & Ep & Hp'). eapply runs_bind_lift; [exact Ep|].
    eapply (runs_bind _ _ _ (saved_as c)); [done| |by apply Hs|].
    { intros x. apply preserves_bind; [apply _|by apply save_children_grows|]. intros r. by apply preserves_ret, _. }
    intros s1 entry Hg1 Hone1 Hsaved. eapply (runs_bind _ _ _ (saved_children children)).
    + by apply save_children_grows.
    + intros r. by apply preserves_ret, _.
    + apply IH; [by eapply grown_trans|done].
    + intros s2 m Hg2 Hone2 Hm. apply runs_ret. apply saved_children_cons; [done|done| |done].
      eapply (saved_as_grown c s1 s2 entry n); [done|done| |done]. eapply mem_ok_grown; [|done|exact Hc]. by eapply grown_trans.
Qed.

(** A tree whose manifest is that of its saved children. *)
Lemma saved_tree n base p1 p2 changes st ch s1 s2 m entry : mem_ok st (S n) (MemTree base p1 p2 changes) -> children_of st n (MemTree base p1 p2 changes) ch ->
  saved_children ch s1 m -> grown st (blobs s1) -> grown (blobs s1) (blobs s2) -> one_value_per_key (blobs s2) ->
  get_type entry = Tree -> valid_node (get_hash entry) -> load_manifest (blobs s2) (get_hash entry) = Ok m ->
  saved_as (MemTree base p1 p2 changes) s2 entry.
Proof.
  intros Hok (Hwf & Hch & Hfc) (Hm & Hl & Hsub & Hf) Hg1 Hg2 Hone Ht Hv Hload. pose proof (one_value_before _ _ Hg2 Hone) as Hone1.
  pose proof (grown_trans _ _ _ Hg1 Hg2) as Hg. unfold saved_as, entry_id. rewrite Ht. split; [done|]. split.
  - destruct (loads_all (blobs s2) m) as [k Hk]; [|exists (S k); apply loads_tree; by exists m].
    eapply Forall_impl; [exact Hl|]. intros x [k Hk]. exists k. by apply (loads_grown (blobs s1)).
  - split; [done|]. intros [|name p]; [done|]. rewrite (stored_cons _ _ _ _ _ Hload), (mem_file_grown _ _ _ _ _ Hg Hone Hok), Hfc.
    transitivity (d ← btree_get name m; stored_file (blobs s1) (flag d, entryid d) p).
    + destruct (btree_get name m) as [d|] eqn:E; [|done]. cbn. apply btree_get_in in E. rewrite Forall_forall in Hl.
      destruct (Hl _ E) as [k Hk]. by apply (stored_grown (blobs s1) (blobs s2) k).
    + rewrite Hf. destruct (btree_get name ch) as [c|] eqn:E; [|done]. cbn. apply btree_get_in in E. rewrite Forall_forall in Hch.
      apply (mem_file_grown st (blobs s1) n); [done|done|]. by apply (Hch (name, c)).
Qed.

(** [save] gives the id of a manifest with the files of the tree. *)
Lemma save_ok n e path s : tree_path_ok path -> mem_ok (blobs s) n e -> runs (save n e path) s (saved_as e).
Proof.
  revert e path s. induction n as [|n IH]; intros [b|l|base p1 p2 changes] path s Hp Hok; try done.
  - apply runs_ret. by apply blob_saved; apply Hok.
  - cbn [save]. destruct (is_modified _) eqn:Hm; [by destruct Hok as (_ & _ & _ & _ & Hc); destruct Hc|].
    apply is_modified_empty in Hm as [[id ->] ->]. destruct Hok as (Hb & [->|?] & _); [|done]. destruct (Hb id eq_refl) as [Hv [k Hk]].
    destruct (unchanged_saved id p1 path s k Hp Hv Hk) as (entry & He & Hs). by eapply runs_lift.
  - apply runs_ret. by apply blob_saved; apply Hok.
  - cbn [save]. destruct (is_modified _) eqn:Hm.
    2:{ apply is_modified_empty in Hm as [[id ->] ->]. destruct Hok as (Hb & [->|?] & _); [|done]. destruct (Hb id eq_refl) as [Hv [k Hk]].
        destruct (unchanged_saved id p1 path s k Hp Hv Hk) as (entry & He & Hs). by eapply runs_lift. }
    destruct (children_ok _ _ _ _ _ _ Hok Hm) as (ch & Ech & Hwf & Hch & Hf).
    eapply runs_bind_read; [exact Ech|].
    apply (runs_bind _ _ _ (saved_children ch)); [by apply save_children_grows, save_grows|intros m; apply upload_manifest_grows| |].
    + intros Hone. eapply (save_children_ok n (blobs s)); eauto using save_grows, grown_refl.
      eapply one_value_before; [|exact Hone]. by apply save_children_grows, save_grows.
    + intros s1 m Hg1 Hone1 Hsc Hone. destruct (upload_manifest_ok p1 p2 path m s1 (proj1 Hsc) Hone) as (entry & He & Ht & Hv & Hl).
      exists entry. split; [done|]. apply (saved_tree n _ _ _ _ (blobs s) ch s1 _ m); try done. apply upload_manifest_grows.
Qed.
End files.
