(* ===== verification/ManifestDerive.v ===== *)
(** * Manifests of changesets

    The changes that a changeset makes to a tree of [MemoryManifest], and the
    manifest that is saved for them: changes made in an order in which none
    comes after one below it give the files that the changes say. *)

From stdpp Require Import list.
From S2P Require Import Prelude Ord Path Hash Bonsai BonsaiDiff HgManifest HgUpload MemoryManifest MemoryManifestOk.

#[local] Arguments cmp : simpl never.

Section change.
Context {C : Sha1Context}.
Implicit Types (st : ManifestStore) (e : MemoryManifestEntry).

(** ** One change *)

Abbreviation file := (option (FileType * HgEntryId)).

(** The files after a change: nothing is left below its path. *)
Definition after_change (full : list MPathElement) (c : file) (f : list MPathElement -> file) (p : list MPathElement) : file :=
  if decide (p = full) then c else if decide (full `prefix_of` p) then None else f p.

(** No file is above the path. *)
Definition clear (f : list MPathElement -> file) (full : list MPathElement) : Prop :=
  forall q name r, full = q ++ name :: r -> f q = None.

Lemma after_change_cons name full c f p : after_change (name :: full) c f (name :: p) = after_change full c (fun p => f (name :: p)) p.
Proof.
  unfold after_change. destruct (decide (p = full)) as [->|Hne]; [by rewrite decide_True|]. rewrite decide_False by congruence.
  destruct (decide (full `prefix_of` p)) as [Hp|Hp].
  - by rewrite decide_True by by apply prefix_cons.
  - rewrite decide_False; [done|]. by intros ?%prefix_cons_inv_2.
Qed.

Lemma after_change_other name name' full c f p : name' <> name -> after_change (name :: full) c f (name' :: p) = f (name' :: p).
Proof. intros Hne. unfold after_change. rewrite decide_False by congruence. rewrite decide_False; [done|]. intros ?%prefix_cons_inv_1. congruence. Qed.

Lemma clear_cons f name full : clear f (name :: full) <-> f [] = None /\ clear (fun p => f (name :: p)) full.
Proof.
  unfold clear. split.
  - intros H. split; [by eapply (H [])|]. intros q x r ->. by apply (H (name :: q) x r).
  - intros [H0 H] [|y q] x r; [done|]. intros [= <- ->]. by eapply H.
Qed.

Lemma clear_one f name : f [] = None -> clear f [name].
Proof. intros H. apply clear_cons. split; [done|]. by intros [|? ?] x r. Qed.

Lemma after_change_root name full c f : after_change (name :: full) c f [] = f [].
Proof. done. Qed.

Lemma mem_file_root st base p1 p2 changes : mem_file st [] (MemTree base p1 p2 changes) = None.
Proof. done. Qed.

Lemma insert_ok st n base p1 p2 changes name o : mem_ok st (S n) (MemTree base p1 p2 changes) -> valid_elem name ->
  (forall c, o = Some c -> mem_ok st n c) ->
  mem_ok st (S n) (MemTree base p1 p2 (btree_insert name o changes)) /\
  forall name' p, mem_file st (name' :: p) (MemTree base p1 p2 (btree_insert name o changes)) =
    if decide (name' = name) then c ← o; mem_file st p c else mem_file st (name' :: p) (MemTree base p1 p2 changes).
Proof.
  intros (Hb & Hp & Hwf & Hv & Hc) Hn Ho. split.
  - split; [done|]. split; [done|]. split; [by apply btree_insert_wf|]. split.
    + rewrite Forall_forall in *. by intros x [->|Hx]%btree_insert_elem; [|apply Hv].
    + intros _ name' c [[= -> <-]|Hin]%btree_insert_elem; [by apply Ho|].
      apply (Hc (changes_modified _ _ _ name' (Some c) _ (btree_elem_get _ _ _ Hwf Hin)) name' c Hin).
  - intros name' p. cbn [mem_file]. rewrite btree_get_decide. case_decide; [by destruct o|done].
Qed.

Lemma mem_ok_not_conflict st n e : mem_ok st n e -> conflict_to_memtree e = e.
Proof. by destruct e, n. Qed.

Lemma empty_tree_ok st n : mem_ok st (S n) empty_tree /\ forall p, mem_file st p empty_tree = None.
Proof.
  split; [|by intros [|]]. split; [done|]. split; [by left|]. split; [constructor|]. split; [constructor|]. by intros _ name c ?%elem_of_nil.
Qed.

(** The tree under a name, in changes that have what was looked up. *)
Definition looked_up st n base p1 p2 changes element changes' : Prop :=
  mem_ok st (S (S n)) (MemTree base p1 p2 changes') /\
  (forall p, mem_file st p (MemTree base p1 p2 changes') = mem_file st p (MemTree base p1 p2 changes)) /\
  mem_ok st (S n) (find_mut_helper changes' element) /\
  forall p, mem_file st p (find_mut_helper changes' element) = mem_file st (element :: p) (MemTree base p1 p2 changes).

Lemma helper_known st n base p1 p2 changes element o : mem_ok st (S (S n)) (MemTree base p1 p2 changes) -> btree_get element changes = Some o ->
  looked_up st n base p1 p2 changes element changes.
Proof.
  intros Hok E. split; [done|]. split; [done|]. unfold find_mut_helper. cbn [mem_file]. rewrite E. destruct o as [c|].
  - assert (mem_ok st (S n) c) as Hc.
    { destruct Hok as (_ & _ & _ & _ & Hc). apply (Hc (changes_modified _ _ _ _ _ _ E) element). by apply btree_get_in. }
    by rewrite (mem_ok_not_conflict _ _ _ Hc).
  - destruct (empty_tree_ok st n) as [He Hf]. by split.
Qed.

Lemma helper_new st n base p1 p2 changes element : mem_ok st (S (S n)) (MemTree base p1 p2 changes) -> btree_get element changes = None ->
  (forall p, mem_file st (element :: p) (MemTree base p1 p2 changes) = None) -> looked_up st n base p1 p2 changes element changes.
Proof.
  intros Hok E Hf. split; [done|]. split; [done|]. unfold find_mut_helper. rewrite E. destruct (empty_tree_ok st n) as [He Hf']. split; [done|].
  intros p. rewrite Hf. apply Hf'.
Qed.

Lemma looked_up_insert st n base p1 p2 changes element c : mem_ok st (S (S n)) (MemTree base p1 p2 changes) -> valid_elem element -> mem_ok st (S n) c ->
  (forall p, mem_file st p c = mem_file st (element :: p) (MemTree base p1 p2 changes)) ->
  looked_up st n base p1 p2 changes element (btree_insert element (Some c) changes).
Proof.
  intros Hok Hv Hc Hf. destruct (insert_ok st (S n) base p1 p2 changes element (Some c) Hok Hv) as [Hok' Hf']; [by intros ? [= <-]|].
  assert (btree_get element (btree_insert element (Some c) changes) = Some (Some c)) as E by (rewrite btree_get_decide; by rewrite decide_True).
  destruct (helper_known _ _ _ _ _ _ _ _ Hok' E) as (_ & _ & Hh & Hhf).
  assert (forall p, mem_file st p (MemTree base p1 p2 (btree_insert element (Some c) changes)) = mem_file st p (MemTree base p1 p2 changes)) as Hsame.
  { intros [|name p]; [done|]. rewrite Hf'. case_decide; [subst; apply Hf|done]. }
  split; [done|]. split; [done|]. split; [done|]. intros p. by rewrite Hhf, Hsame.
Qed.

Lemma look_up_ok st n base p1 p2 changes element : mem_ok st (S (S n)) (MemTree base p1 p2 changes) -> valid_elem element ->
  exists changes', look_up st base changes element = Ok changes' /\ looked_up st n base p1 p2 changes element changes'.
Proof.
  intros Hok Hv. unfold look_up. destruct (btree_get element changes) as [o|] eqn:E; [exists changes; split; [done|]; by eapply helper_known|].
  destruct base as [id|].
  2:{ exists changes. split; [done|]. apply helper_new; [done..|]. intros p. cbn [mem_file]. by rewrite E. }
  pose proof Hok as (Hb & _). destruct (Hb id eq_refl) as (_ & [|k] & Hk); [done|]. pose proof Hk as (m & Hm & Hl)%loads_tree.
  rewrite Hm, bind_Ok. eexists. split; [done|].
  assert (forall p, mem_file st (element :: p) (MemTree (Some id) p1 p2 changes) = d ← btree_get element m; stored_file st (flag d, entryid d) p) as Hfile.
  { intros p. cbn [mem_file]. rewrite E. cbn -[stored_file]. by apply stored_cons. }
  unfold manifest_lookup, content_lookup. destruct (btree_get element m) as [d|] eqn:Ed; cbn [fmap option_fmap option_map].
  - rewrite E. apply looked_up_insert; [done|done| |].
    + apply btree_get_in in Ed. destruct (load_content _ _ _ Hm) as [[_ Hval] _]. rewrite Forall_forall in Hval, Hl.
      eapply (mem_ok_entry _ _ k); [by apply (Hval (element, d))|by apply (Hl (element, d))].
    + intros p. rewrite Hfile. apply memory_entry_file.
  - apply helper_new; [done..|]. intros p. by rewrite Hfile.
Qed.

(** What a change is to leave at its path. *)
Definition change_file (c : option Entry) : file := b ← c; file_of (entry_id b).

Definition entry_ok (c : option Entry) : Prop := forall b, c = Some b -> valid_node (get_hash b) /\ exists ft, get_type b = File ft.

Lemma entry_ok_blob st n c b : entry_ok c -> Blob <$> c = Some b -> mem_ok st n b.
Proof. intros Hc. destruct c as [e|]; intros [= <-]. specialize (Hc e eq_refl). by destruct n. Qed.

Lemma mem_file_blob st p c : (b ← Blob <$> c; mem_file st p b) = if decide (p = []) then change_file c else None.
Proof. destruct c as [b|], p; done. Qed.

(** Afterwards the tree is in order, and has what the change says: all of it,
    where nothing above the path is a file, and nothing otherwise. *)
Definition changed_as st n full c e (r : MemoryManifestEntry * outcome mf_error unit) : Prop :=
  mem_ok st n r.1 /\
  ((r.2 = Ok tt /\ clear (fun p => mem_file st p e) full /\
    forall p, mem_file st p r.1 = after_change full (change_file c) (fun p => mem_file st p e) p) \/
   ((exists er, r.2 = Err er) /\ ~ clear (fun p => mem_file st p e) full /\ forall p, mem_file st p r.1 = mem_file st p e)).

Lemma change_blob st n full name c b e r : mem_ok st n (Blob b) -> e = Blob b -> r = (e, Err name) -> full <> [] -> changed_as st n full c e r.
Proof.
  intros Hok -> -> Hf. split; [done|]. right. split; [by eexists|]. split; [|done]. intros Hcl. destruct full as [|x full]; [done|].
  apply clear_cons in Hcl as [H0 _]. assert (exists ft, get_type b = File ft) as [ft Hft] by by destruct n; apply Hok.
  cbn in H0. unfold entry_id in H0. by rewrite Hft in H0.
Qed.

Lemma change_here_ok st n filename c e : mem_ok st (S n) e -> valid_elem filename -> entry_ok c ->
  changed_as st (S n) [filename] c e (change filename c e).
Proof.
  intros Hok Hv Hc. destruct e as [b|l|base p1 p2 changes]; [by eapply change_blob|done|]. cbn [change].
  assert (match btree_get filename changes with Some (Some (Conflict conflict)) => change_conflict conflict c | _ => Ok (Blob <$> c) end
    = Ok (Blob <$> c)) as ->.
  { destruct (btree_get filename changes) as [[[| |]|]|] eqn:E; try done. destruct Hok as (_ & _ & _ & _ & Hch).
    by destruct n; destruct (Hch (changes_modified _ _ _ _ _ _ E) filename _ (btree_get_in _ _ _ E)). }
  destruct (insert_ok st n base p1 p2 changes filename (Blob <$> c) Hok Hv) as [Hok' Hf]; [intros b; by apply entry_ok_blob|].
  split; [done|]. left. split; [done|]. split; [by apply clear_one|]. intros [|name p]; [by rewrite after_change_root|].
  cbn [fst]. rewrite Hf. destruct (decide (name = filename)) as [->|Hne]; [|by rewrite after_change_other].
  rewrite after_change_cons, mem_file_blob. unfold after_change. pose proof (prefix_nil p). by repeat case_decide.
Qed.

Lemma find_mut_ok st filename c nf path : valid_elem filename -> entry_ok c -> Forall valid_elem path -> forall n e,
  mem_ok st n e -> length path < n -> changed_as st n (path ++ [filename]) c e (find_mut st (change filename c) path nf e).
Proof.
  intros Hv Hc. induction 1 as [|element path He _ IH]; intros n e Hok Hn; cbn in Hn.
  { destruct n as [|n]; [lia|]. by apply change_here_ok. }
  destruct n as [|[|n]]; [lia..|]. destruct e as [b|l|base p1 p2 changes]; [by eapply change_blob|done|]. cbn [find_mut].
  destruct (look_up_ok st n base p1 p2 changes element Hok He) as (changes' & -> & Hok' & Hsame & Hch & Hchf).
  destruct (IH (S n) (find_mut_helper changes' element) Hch ltac:(lia)) as [Hres Hcase].
  destruct (find_mut _ _ _ _ _) as [child r]. cbn [fst snd] in Hres, Hcase.
  destruct (insert_ok st (S n) base p1 p2 changes' element (Some child) Hok' He) as [Hins Hinsf]; [by intros ? [= <-]|].
  split; [done|]. cbn [fst snd app].
  assert (clear (fun p => mem_file st p (find_mut_helper changes' element)) (path ++ [filename]) <->
    clear (fun p => mem_file st p (MemTree base p1 p2 changes)) (element :: path ++ [filename])) as Hcl.
  { rewrite clear_cons. unfold clear. setoid_rewrite Hchf. split; [by split|by intros [_ H]]. }
  rewrite <- Hcl. destruct Hcase as [(-> & Hcl' & Hf)|(Her & Hcl' & Hf)]; [left|right]; (split; [done|]; split; [done|]).
  - intros [|name p]; [by rewrite after_change_root|].
    rewrite Hinsf. destruct (decide (name = element)) as [->|Hne]; [|by rewrite after_change_other, Hsame].
    rewrite after_change_cons. cbn -[mem_file]. rewrite Hf. unfold after_change. by rewrite Hchf.
  - intros [|name p]; [done|]. rewrite Hinsf. case_decide; [subst; cbn -[mem_file]; by rewrite Hf, Hchf|by rewrite Hsame].
Qed.

Lemma split_dirname_iter p : elements p <> [] -> exists dir filename, split_dirname p = Ok (dir, filename) /\ elements p = iter_opt dir ++ [filename].
Proof.
  destruct p as [l]. cbn [elements]. intros Hl. destruct (last_ok l Hl) as [x Hx]. unfold split_dirname. cbn [elements]. rewrite Hx. cbn -[removelast].
  apply last_Some in Hx as [l' ->]. rewrite List.removelast_last. destruct l' as [|y l']; [by exists None, x|]. by exists (Some (mkMPath (y :: l'))), x.
Qed.

Lemma change_entry_ok st n path c e : mem_ok st n e -> valid_path path -> length (elements path) <= n -> entry_ok c ->
  changed_as st n (elements path) c e (change_entry st path c e).
Proof.
  intros Hok [Hne Hv] Hn Hc. unfold change_entry. destruct (split_dirname_iter path Hne) as (dir & filename & -> & Hp). rewrite Hp in *.
  apply Forall_app in Hv as [Hd Hf]. rewrite Forall_singleton in Hf. rewrite length_app in Hn. cbn in Hn. apply find_mut_ok; try done. lia.
Qed.

(** ** Changes one after the other *)

Definition after_changes (changes : list (MPath * option Entry)) (f : list MPathElement -> file) : list MPathElement -> file :=
  foldl (fun f '(path, c) => after_change (elements path) (change_file c) f) f changes.

(** No change finds a file above its path. *)
Fixpoint all_clear (f : list MPathElement -> file) (changes : list (MPath * option Entry)) : Prop :=
  match changes with
  | [] => True
  | (path, c) :: changes => clear f (elements path) /\ all_clear (after_change (elements path) (change_file c) f) changes
  end.

Definition change_ok (n : nat) (x : MPath * option Entry) : Prop := valid_path x.1 /\ length (elements x.1) <= n /\ entry_ok x.2.

Lemma after_change_ext full c f g p : (forall p, f p = g p) -> after_change full c f p = after_change full c g p.
Proof. intros H. unfold after_change. by rewrite H. Qed.

Lemma clear_ext f g full : (forall p, f p = g p) -> clear f full <-> clear g full.
Proof. intros H. unfold clear. by setoid_rewrite H. Qed.

Lemma change_all_ok st n changes : Forall (change_ok n) changes -> forall e f, mem_ok st n e -> (forall p, mem_file st p e = f p) -> all_clear f changes ->
  exists e', change_all st changes e = (e', Ok tt) /\ mem_ok st n e' /\ forall p, mem_file st p e' = after_changes changes f p.
Proof.
  induction 1 as [|[path c] changes (Hp & Hn & Hc) _ IH]; intros e f Hok Hf Hcl; [by exists e|]. cbn in *. destruct Hcl as [Hcl1 Hcl2].
  destruct (change_entry_ok st n path c e Hok Hp Hn Hc) as [Hok' Hcase]. destruct (change_entry st path c e) as [e1 r]. cbn in Hok', Hcase.
  destruct Hcase as [(-> & _ & Hf')|(_ & Hno & _)]; [|by destruct Hno; apply (clear_ext f)].
  apply IH; [done| |done]. intros p. rewrite Hf'. by apply after_change_ext.
Qed.

(** A change whose path has a file above it stops all. *)
Lemma change_all_error st n l1 path c l2 : Forall (change_ok n) (l1 ++ (path, c) :: l2) -> forall e f, mem_ok st n e -> (forall p, mem_file st p e = f p) ->
  ~ clear (after_changes l1 f) (elements path) -> exists e' er, change_all st (l1 ++ (path, c) :: l2) e = (e', Err er).
Proof.
  induction l1 as [|[path1 c1] l1 IH]; intros Hl e f Hok Hf Hno; apply Forall_cons in Hl as [(Hp & Hn & Hc) Hl]; cbn [app change_all].
  - destruct (change_entry_ok st n path c e Hok Hp Hn Hc) as [_ [(_ & Hcl & _)|([er Her] & _)]]; [by destruct Hno; apply (clear_ext f) in Hcl|].
    destruct (change_entry st path c e) as [e1 r]. cbn in Her. subst r. by eauto.
  - destruct (change_entry_ok st n path1 c1 e Hok Hp Hn Hc) as [Hok' Hcase]. destruct (change_entry st path1 c1 e) as [e1 r]. cbn in Hok', Hcase.
    destruct Hcase as [(-> & _ & Hf')|([er ->] & _)]; [|by eauto]. eapply IH; [done|done| |exact Hno]. intros p. rewrite Hf'. by apply after_change_ext.
Qed.

Lemma find_mut_memtree {A} st (k : MemoryManifestEntry -> MemoryManifestEntry * outcome mf_error A) path nf e : (forall e, is_memtree (k e).1 = is_memtree e) ->
  is_memtree (find_mut st k path nf e).1 = is_memtree e.
Proof.
  intros Hk. destruct path as [|x path]; [apply Hk|]. destruct e as [| |base p1 p2 changes]; [done..|]. cbn.
  destruct (look_up st base changes x); [|done..]. by destruct (find_mut _ _ _ _ _).
Qed.

Lemma change_memtree name c e : is_memtree (change name c e).1 = is_memtree e.
Proof. destruct e as [| |base p1 p2 changes]; [done..|]. unfold change. by case_match. Qed.

Lemma change_all_memtree st changes e : is_memtree (change_all st changes e).1 = is_memtree e.
Proof.
  revert e. induction changes as [|[path c] changes IH]; intros e; [done|]. cbn. assert (is_memtree (change_entry st path c e).1 = is_memtree e) as H.
  { unfold change_entry. destruct (split_dirname path) as [[dir name]| |]; [|done..]. apply find_mut_memtree. intros x. apply change_memtree. }
  destruct (change_entry st path c e) as [e1 [| |]]; [|done..]. cbn in H. rewrite <- H. apply IH.
Qed.

(** There are no conflicts to resolve. *)
Lemma resolve_ok {CH : ContentHash} st n e : mem_ok st n e -> forall path s, resolve_rec path e s = (s, Ok e).
Proof.
  revert e. induction n as [|n IH]; intros [b|l|base p1 p2 changes] Hok path s; [done|done| |done|done|].
  - destruct (is_modified (MemTree base p1 p2 changes)) eqn:Hm; [by destruct Hok as (_ & _ & _ & _ & Hc); destruct Hc|].
    by apply is_modified_empty in Hm as [_ ->].
  - assert (forall name c, (name, Some c) ∈ changes -> forall path s, resolve_rec path c s = (s, Ok c)) as Hc.
    { intros name c Hin. apply IH. destruct Hok as (_ & _ & Hwf & _ & Hc). apply (Hc (changes_modified _ _ _ name _ _ (btree_elem_get _ _ _ Hwf Hin)) name c Hin). }
    cbn [resolve_rec]. unfold mbind, eio_bind at 1.
    match goal with |- context [?F changes s] => assert (F changes s = (s, Ok changes)) as H end; [|by rewrite H].
    clear Hok. revert s. induction changes as [|[name [c|]] changes IHc]; intros s; [done|..].
    + unfold mbind, eio_bind at 1. rewrite (Hc name c) by by left. unfold eio_bind at 1.
      rewrite IHc by (intros n' c' Hin; apply (Hc n'); by right). done.
    + unfold mbind, eio_bind at 1. rewrite IHc by (intros n' c' Hin; apply (Hc n'); by right). done.
Qed.

(** ** Where the changes lead *)

Lemma after_changes_none changes q : (forall x, x ∈ changes -> elements x.1 = q -> change_file x.2 = None) -> forall f,
  f q = None \/ (exists x, x ∈ changes /\ elements x.1 `prefix_of` q) -> after_changes changes f q = None.
Proof.
  induction changes as [|[path c] changes IH]; intros Hc f Hf; [by destruct Hf as [?|(x & ?%elem_of_nil & _)]|]. cbn [after_changes foldl].
  apply IH; [intros x Hx; apply Hc; by right|]. unfold after_change. case_decide as E1; [left; apply (Hc (path, c)); [by left|done]|].
  case_decide as E2; [by left|]. destruct Hf as [?|(x & [->|Hx]%elem_of_cons & Hp)]; [by left|done|right; by exists x].
Qed.

Lemma after_changes_skip changes f q : (forall x, x ∈ changes -> ~ elements x.1 `prefix_of` q) -> after_changes changes f q = f q.
Proof.
  revert f. induction changes as [|[path c] changes IH]; intros f Hx; [done|]. cbn [after_changes foldl].
  change (after_changes changes (after_change (elements path) (change_file c) f) q = f q). rewrite IH by (intros x Hin; apply Hx; by right).
  specialize (Hx (path, c) ltac:(by left)). cbn in Hx. unfold after_change. rewrite decide_False by (by intros ->; destruct Hx). by rewrite decide_False.
Qed.

Lemma after_changes_at l1 path c l2 f : (forall x, x ∈ l2 -> ~ elements x.1 `prefix_of` elements path) ->
  after_changes (l1 ++ (path, c) :: l2) f (elements path) = change_file c.
Proof.
  intros H. unfold after_changes. rewrite foldl_app. cbn [foldl].
  change (after_changes l2 (after_change (elements path) (change_file c) (after_changes l1 f)) (elements path) = change_file c).
  rewrite after_changes_skip by done. unfold after_change. by rewrite decide_True.
Qed.
End change.
