(* ===== verification/ApplyDiff.v ===== *)
(** * From a diff to a manifest

    [apply_diff] of [src/blobrepo_utils/src/bonsai/manifest.rs] on the results
    of [BonsaiDiff]: the manifest that is derived from the parent has the files
    of the root that was compared with it, if no change is made after one below
    it; and what happens in another order. *)

From stdpp Require Import list.
From S2P Require Import Prelude Ord Path Hash Bonsai BonsaiDiff HgManifest HgUpload MemoryManifest MemoryManifestOk ManifestDerive.

(** ** Entries of stored manifests *)

Section stored.
Context {C : Sha1Context}.
Implicit Types (st : ManifestStore).

Lemma id_child_inv st i name j : id_child (content st) i name = Some j -> valid_elem name /\ valid_node j.2.
Proof.
  destruct i as [[ft|] h]; [done|]. destruct (content st h) as [mf| |] eqn:E; [|by cbn; rewrite E..].
  apply content_inv in E as (m & Hm & ->). rewrite (child_get _ _ _ _ Hm). destruct (btree_get name m) as [d|] eqn:Ed; [|done]. intros [= <-].
  apply load_content in Hm as [[_ Hv] _]. rewrite Forall_forall in Hv. apply btree_get_in in Ed. by apply (Hv (name, d)).
Qed.

Lemma id_at_valid st p i j : id_at (content st) i p = Some j -> Forall valid_elem p /\ (p <> [] -> valid_node j.2).
Proof.
  revert i. induction p as [|name p IH]; intros i; cbn [id_at]; [by split|]. destruct (id_child (content st) i name) as [i'|] eqn:E; [|done].
  cbn. intros H. apply id_child_inv in E as [Hn Hi]. destruct (IH _ H) as [Hv Hj]. split; [by constructor|]. intros _.
  destruct p as [|name' p]; [|by apply Hj]. by injection H as <-.
Qed.

Lemma id_at_length st k p i j : loads (content st) k i -> id_at (content st) i p = Some j -> length p <= k.
Proof.
  revert i k. induction p as [|name p IH]; intros i k Hl; cbn [id_at length]; [lia|].
  destruct (id_child (content st) i name) as [i'|] eqn:E; [|done]. cbn. intros H. destruct i as [[ft|] h]; [done|]. destruct k as [|k]; [done|].
  apply loads_tree in Hl as (m & Hm & Hl). rewrite (child_get _ _ _ _ Hm) in E. destruct (btree_get name m) as [d|] eqn:Ed; [|done].
  injection E as <-. apply btree_get_in in Ed. rewrite Forall_forall in Hl. specialize (IH _ k (Hl _ Ed) H). lia.
Qed.

Lemma stored_some st i p x : stored_file st i p = Some x <-> id_at (content st) i p = Some (File x.1, x.2).
Proof.
  unfold stored_file. destruct (id_at (content st) i p) as [[[ft|] h]|]; cbn; [|done..]. destruct x as [ft' h']. cbn. split; intros [=]; by subst.
Qed.
End stored.

(** ** The order of the changes *)

(** [q] is strictly below [p]. *)
Definition above (p q : list MPathElement) : Prop := exists name r, q = p ++ name :: r.

Definition no_later_above (x y : MPath * option Entry) : Prop := ~ above (elements y.1) (elements x.1).

(** No change comes after one to a path below its own. *)
Definition parents_first (changes : list (MPath * option Entry)) : Prop := StronglySorted no_later_above changes.

Definition diff_changes (l : list BonsaiDiffResult) : list (MPath * option Entry) := (fun r => (result_path r, make_entry r)) <$> l.

Section apply.
Context {C : Sha1Context} (st : ManifestStore) (k : nat) (root : Entry) (p1 : option Entry) (l : list BonsaiDiffResult).
Hypothesis (Hroots : roots (content st) k root p1 None).
Hypothesis (Hexact : exact (content st) (Some (entry_id root)) (parents p1 None) [] (fun p => p <> []) l).

Definition parent_file (p : list MPathElement) : option (FileType * HgEntryId) := e ← p1; stored_file st (entry_id e) p.
Definition root_file (p : list MPathElement) : option (FileType * HgEntryId) := stored_file st (entry_id root) p.

Lemma root_file_iff p x : p <> [] -> root_file p = Some x <-> applied (content st) l p1 None (mkMPath p) x.
Proof.
  intros Hp. rewrite <- (exact_applied (content st) root p1 None l (mkMPath p) x Hexact); [|by apply (Hroots root (or_introl eq_refl))|done].
  apply stored_some.
Qed.

Lemma parent_file_iff p x : parent_file p = Some x <-> exists e, (p1 = Some e \/ None = Some e) /\ file_at (content st) e (mkMPath p) x.
Proof.
  unfold parent_file, file_at. cbn [elements]. destruct p1 as [e|]; cbn; [rewrite stored_some|]; naive_solver.
Qed.

Lemma stored_below i p name r x : stored_file st i p = Some x -> stored_file st i (p ++ name :: r) = None.
Proof. rewrite stored_some. intros H. unfold stored_file. by rewrite id_at_app, H. Qed.

Lemma parent_below p q x : above p q -> parent_file p = Some x -> parent_file q = None.
Proof. intros (name & r & ->). unfold parent_file. destruct p1 as [e|]; [|done]. apply stored_below. Qed.

Lemma root_below p q x : above p q -> root_file p = Some x -> root_file q = None.
Proof. intros (name & r & ->). apply stored_below. Qed.

Lemma parent_root : parent_file [] = None.
Proof.
  unfold parent_file. destruct p1 as [e|]; [|done]. destruct (Hroots e) as [Ht _]; [by right; left|]. cbn. unfold stored_file, entry_id. cbn. by rewrite Ht.
Qed.

(** What a result says of the root and of the parent. *)
Lemma result_file r : r ∈ l -> elements (result_path r) <> [] /\ root_file (elements (result_path r)) = change_file (make_entry r) /\
  if is_changed r then is_Some (change_file (make_entry r)) else is_Some (parent_file (elements (result_path r))).
Proof.
  intros Hr. destruct (proj1 (proj2 Hexact r) Hr) as (p & kd & Hp & Hk & ->). rewrite result_elements. cbn [app]. split; [done|].
  pose proof (spec_changed _ _ _ _ _ Hk) as Hw. cbn [work_at] in Hw. unfold root_file, stored_file.
  destruct kd as [ft h|ft h|]; cbn in Hw |- *; [rewrite Hw; cbn; by split..|]. split.
  - destruct (id_at (content st) (entry_id root) p) as [[[ft|] h]|] eqn:E; [|done..]. by destruct (Hw ft h).
  - destruct Hk as (_ & (ft & h & Hpar) & _). apply parents_at_iff in Hpar as (e & [He|?] & Hi); [|done]. exists (ft, h).
    apply parent_file_iff. exists e. by split; [left|].
Qed.

Lemma result_change_ok r : r ∈ l -> change_ok k (result_path r, make_entry r).
Proof.
  intros Hr. destruct (result_file r Hr) as (Hp & Hf & Hcase).
  assert (exists i j, loads (content st) k i /\ id_at (content st) i (elements (result_path r)) = Some j) as (i & j & Hl & Hj).
  { destruct (is_changed r).
    - destruct Hcase as [x Hx]. rewrite Hx in Hf. apply stored_some in Hf. do 2 eexists. split; [|exact Hf]. by apply (Hroots root); left.
    - destruct Hcase as [x Hx]. apply parent_file_iff in Hx as (e & [He|?] & Hi); [|done]. do 2 eexists. split; [|exact Hi].
      apply (Hroots e). by right; left. }
  destruct (id_at_valid _ _ _ _ Hj) as [Hv _]. split; [by split|]. split; [by eapply id_at_length|]. intros b Hb.
  cbn in Hb. assert (exists ft, get_type b = File ft) as [ft Hft] by (destruct r; simplify_eq/=; by eexists). split; [|by exists ft].
  rewrite Hb in Hf. cbn in Hf. unfold entry_id in Hf. rewrite Hft in Hf. apply stored_some in Hf. by apply id_at_valid in Hf as [_ Hval]; apply Hval.
Qed.

(** No result is below a changed one, and none is below a file of the parent
    that is left. *)
Lemma result_above r p x : r ∈ l -> above p (elements (result_path r)) -> parent_file p = Some x ->
  exists r', r' ∈ l /\ elements (result_path r') = p.
Proof.
  intros Hr Ha Hx. destruct (result_file r Hr) as (_ & Hf & Hcase). destruct (is_changed r) eqn:Hc.
  2:{ destruct Hcase as [y Hy]. by rewrite (parent_below _ _ _ Ha Hx) in Hy. }
  destruct (decide (mkMPath p ∈ result_path <$> l)) as [Hin|Hin].
  { apply list_elem_of_fmap in Hin as (r' & Heq & Hr'). exists r'. split; [done|]. by rewrite <- Heq. }
  exfalso. assert (p <> []) as Hne by (intros ->; by rewrite parent_root in Hx).
  assert (root_file p = Some x) as Hroot.
  { apply (root_file_iff p x Hne). right. right. split; [done|]. split; [|by apply parent_file_iff].
    intros r' Hr' Hc' [q Hq]. cbn in Hq. destruct Ha as (name & t & Ha).
    apply (exact_conflict_free (content st) _ _ _ _ _ r' r Hexact Hr' Hr Hc').
    - intros Heq. rewrite Heq, Ha in Hq. apply (f_equal length) in Hq. rewrite !length_app in Hq. cbn in Hq. lia.
    - rewrite Ha, Hq. rewrite <- app_assoc. by eexists. }
  rewrite (root_below _ _ _ Ha Hroot) in Hf. rewrite <- Hf in Hcase. by destruct Hcase.
Qed.

Lemma changed_above r r' : r ∈ l -> r' ∈ l -> above (elements (result_path r)) (elements (result_path r')) -> change_file (make_entry r) = None.
Proof.
  intros Hr Hr' Ha. destruct (result_file r Hr) as (_ & Hf & _). destruct (change_file (make_entry r)) as [x|] eqn:E; [|done].
  exfalso. destruct (is_changed r) eqn:Hc; [|by destruct r].
  apply (exact_conflict_free (content st) _ _ _ _ _ r r' Hexact Hr Hr' Hc); destruct Ha as (name & t & Ha).
  - intros Heq. rewrite Heq in Ha. apply (f_equal length) in Ha. rewrite length_app in Ha. cbn in Ha. lia.
  - rewrite Ha. by eexists.
Qed.

(** *** All results, in an order *)

Context (changes : list (MPath * option Entry)).
Hypothesis (Hperm : changes ≡ₚ diff_changes l) (Hfirst : parents_first changes).

Lemma change_result x : x ∈ changes -> exists r, r ∈ l /\ x = (result_path r, make_entry r).
Proof. rewrite Hperm. intros (r & -> & Hr)%list_elem_of_fmap. by exists r. Qed.

Lemma result_change r : r ∈ l -> (result_path r, make_entry r) ∈ changes.
Proof. intros Hr. rewrite Hperm. apply list_elem_of_fmap. by exists r. Qed.

Lemma changes_ok : Forall (change_ok k) changes.
Proof. apply Forall_forall. intros x (r & Hr & ->)%change_result. by apply result_change_ok. Qed.

Lemma changes_split l1 x l2 : changes = l1 ++ x :: l2 ->
  (forall y, y ∈ l2 -> ~ above (elements y.1) (elements x.1)) /\ (forall y, y ∈ l2 -> elements y.1 <> elements x.1).
Proof.
  intros E. split.
  - intros y Hy. rewrite E in Hfirst. apply StronglySorted_app in Hfirst as (_ & _ & H). apply StronglySorted_inv in H as [_ H].
    rewrite Forall_forall in H. by apply H.
  - intros y Hy Heq. assert (NoDup (changes.*1)) as Hnd.
    { rewrite Hperm. unfold diff_changes. rewrite <- list_fmap_compose. apply Hexact. }
    rewrite E, fmap_app in Hnd. apply NoDup_app in Hnd as (_ & _ & [Hn _]%NoDup_cons). apply Hn, list_elem_of_fmap. exists y. split; [|done].
    destruct x as [[p] c], y as [[q] d]. cbn in *. by rewrite Heq.
Qed.

Lemma all_changes_clear rest : forall l1, changes = l1 ++ rest -> all_clear (after_changes l1 parent_file) rest.
Proof.
  induction rest as [|[path c] rest IH]; intros l1 E; [done|]. cbn [all_clear]. split.
  - intros q name r Hq. destruct (changes_split _ _ _ E) as [Hlater _]. cbn in Hlater.
    destruct (change_result (path, c)) as (x & Hx & [= -> ->]); [rewrite E; apply elem_of_app; right; by left|].
    assert (above q (elements (result_path x))) as Ha by by exists name, r.
    apply after_changes_none.
    + intros y Hy Heq. destruct (change_result y) as (z & Hz & ->); [rewrite E; apply elem_of_app; by left|]. cbn in Heq |- *.
      apply (changed_above z x Hz Hx). by rewrite Heq.
    + destruct (parent_file q) as [xq|] eqn:Eq; [right|by left]. destruct (result_above x q xq Hx Ha Eq) as (z & Hz & Hzq).
      exists (result_path z, make_entry z). cbn. rewrite Hzq. split; [|done]. pose proof (result_change z Hz) as Hin.
      rewrite E in Hin. apply elem_of_app in Hin as [Hin|[Heq|Hin]%elem_of_cons]; [done| |].
      * exfalso. injection Heq as Heq _. rewrite <- Heq, Hzq in Hq. apply (f_equal length) in Hq. rewrite length_app in Hq. cbn in Hq. lia.
      * exfalso. apply (Hlater _ Hin). cbn. by rewrite Hzq.
  - specialize (IH (l1 ++ [(path, c)])). unfold after_changes in IH at 1. rewrite foldl_app in IH. apply IH. by rewrite <- app_assoc.
Qed.

Lemma prefix_above (p q : list MPathElement) : p `prefix_of` q -> p = q \/ above p q.
Proof. intros [[|name r] ->]; [left; by rewrite app_nil_r|right; by exists name, r]. Qed.

Lemma option_same {A} (o o' : option A) : (forall x, o = Some x <-> o' = Some x) -> o = o'.
Proof. intros H. destruct o as [x|]; [symmetry; by apply H|]. destruct o' as [x|]; [|done]. by apply H. Qed.

(** Where there is no result, the root has what the parent has, if nothing
    above was taken away. *)
Lemma unchanged_result p : p <> [] -> (forall r, r ∈ l -> elements (result_path r) <> p) ->
  root_file p = if decide (Exists (fun x => elements x.1 `prefix_of` p) changes) then None else parent_file p.
Proof.
  intros Hp Hno. assert (mkMPath p ∉ result_path <$> l) as Hnot.
  { intros (r & Heq & Hr)%list_elem_of_fmap. apply (Hno r Hr). by rewrite <- Heq. }
  assert (forall x, root_file p = Some x -> parent_file p = Some x /\ ~ Exists (fun x => elements x.1 `prefix_of` p) changes) as Hroot.
  { intros x Hx. apply (root_file_iff p x Hp) in Hx as [Hin|[Hin|(_ & Hpre & Hpar)]];
      [exfalso; apply Hnot, list_elem_of_fmap; by eexists; split; [|exact Hin]..|].
    apply parent_file_iff in Hpar. split; [done|]. intros (y & Hy & Hyp)%Exists_exists.
    destruct (change_result y Hy) as (r & Hr & ->). cbn in Hyp. destruct (is_changed r) eqn:Hc; [by apply (Hpre r)|].
    apply prefix_above in Hyp as [Heq|Ha]; [by apply (Hno r)|]. destruct (result_file r Hr) as (_ & _ & Hcase). rewrite Hc in Hcase.
    destruct Hcase as [z Hz]. by rewrite (parent_below _ _ _ Ha Hz) in Hpar. }
  apply option_same. intros x. split.
  - intros Hx. destruct (Hroot x Hx) as [Hpar Hex]. by rewrite decide_False.
  - case_decide as Hex; [done|]. intros Hx. apply (root_file_iff p x Hp). right. right. split; [done|]. split; [|by apply parent_file_iff].
    intros r Hr _ Hpre. apply Hex, Exists_exists. exists (result_path r, make_entry r). split; [by apply result_change|done].
Qed.

Lemma changes_lead p : after_changes changes parent_file p = root_file p.
Proof.
  destruct (decide (p = [])) as [->|Hp].
  { rewrite after_changes_skip; [rewrite parent_root|].
    - unfold root_file, stored_file, entry_id. destruct (Hroots root) as [-> _]; [by left|done].
    - intros x (r & Hr & ->)%change_result Hpre. destruct (result_file r Hr) as (Hne & _). apply Hne. by apply prefix_nil_inv in Hpre. }
  destruct (decide (Exists (fun r => elements (result_path r) = p) l)) as [Hex|Hex].
  - apply Exists_exists in Hex as (r & Hr & <-). destruct (result_file r Hr) as (_ & -> & _).
    apply result_change, list_elem_of_split in Hr as (l1 & l2 & E). rewrite E. apply after_changes_at.
    destruct (changes_split _ _ _ E) as [Ha Hne]. intros y Hy [Heq|Hab]%prefix_above; [by apply (Hne y)|by apply (Ha y)].
  - assert (forall r, r ∈ l -> elements (result_path r) <> p) as Hno.
    { intros r Hr Heq. apply Hex, Exists_exists. by exists r. }
    rewrite (unchanged_result p Hp Hno). case_decide as Hpre.
    + apply after_changes_none; [|right; by apply Exists_exists in Hpre]. intros x (r & Hr & ->)%change_result Heq. by destruct (Hno r Hr).
    + apply after_changes_skip. intros x Hx Hxp. apply Hpre, Exists_exists. by exists x.
Qed.
End apply.

(** ** [apply_diff] *)

Section derive.
Context {C : Sha1Context} {CL : Sha1ContextLaws C} {MO : MapOrder} {MOL : MapOrderLaws MO} {IL : Interleave} {ILL : InterleaveLaws IL}
  {FU : FuturesUnordered} {FUL : FuturesUnorderedLaws FU} {CH : ContentHash}.

Definition same_files (st : ManifestStore) (h : HgNodeHash) (st' : ManifestStore) (h' : HgNodeHash) : Prop :=
  forall p, stored_file st' (Tree, h') p = stored_file st (Tree, h) p.

(** The tree that the changes start from. *)
Lemma start_ok st k p1 s : (forall e, p1 = Some e -> get_type e = Tree /\ valid_node (get_hash e) /\ loads (content st) k (entry_id e)) -> 0 < k ->
  exists e, MemoryRootManifest_new k k (get_hash <$> p1) None s = (s, Ok e) /\ is_memtree e = true /\ mem_ok st k e /\
    forall p, mem_file st p e = parent_file st p1 p.
Proof.
  intros Hp Hk. destruct k as [|k]; [lia|]. destruct p1 as [e|].
  - destruct (Hp e eq_refl) as (Ht & Hv & Hl). exists (convert_treenode (get_hash e)). split; [done|]. split; [done|]. unfold entry_id in Hl. rewrite Ht in Hl. split.
    + split; [|split; [by left|]; split; [constructor|]; by split; [constructor|]]. intros h [= <-]. split; [done|]. by eexists.
    + intros p. unfold parent_file, entry_id. cbn. rewrite Ht. by destruct p.
  - exists empty_tree. destruct (empty_tree_ok st k) as [He Hf]. done.
Qed.

Lemma saved_root k e s : mem_ok (blobs s) k e -> is_memtree e = true ->
  runs (root ← resolve_trivial_conflicts e; m ← root_save k root; mret (get_hash m)) s
    (fun s' h => valid_node h /\ (exists j, loads (content (blobs s')) j (Tree, h)) /\ forall p, stored_file (blobs s') (Tree, h) p = mem_file (blobs s) p e).
Proof.
  intros Hok Ht. eapply runs_step; [by eapply resolve_ok|].
  eapply (runs_bind _ _ _ (saved_as e)); [apply save_grows|intros m; by apply preserves_ret, _|by apply save_ok|].
  intros s1 m Hg Hone (Hv & [j Hj] & Htree & Hf). apply runs_ret. unfold entry_id in *. rewrite (Htree Ht) in *. split; [done|]. split; [by exists j|].
  intros p. by rewrite Hf, (mem_file_grown (blobs s) _ k).
Qed.

(** C7. The results of [bonsai_diff] against one parent, or none, applied to the
    manifest of the parent in any order in which no change comes after one
    below it: [apply_diff] ends without an error, and the manifest that it
    stores loads and has exactly the files of the root. *)
Theorem apply_diff_exact k root p1 l s : roots (content (blobs s)) k root p1 None -> (forall e, p1 = Some e -> valid_node (get_hash e)) ->
  bonsai_diff (content (blobs s)) (S k) root p1 None = Ok l -> parents_first (futures_unordered (diff_changes l)) ->
  runs (apply_diff k l (get_hash <$> p1) None) s
    (fun s' h => valid_node h /\ (exists j, loads (content (blobs s')) j (Tree, h)) /\ same_files (blobs s) (get_hash root) (blobs s') h).
Proof.
  intros Hroots Hv Hdiff Hfirst. destruct (bonsai_diff_ok (content (blobs s)) k root p1 None Hroots) as (l' & El & Hexact). assert (l' = l) as -> by congruence.
  destruct (Hroots root (or_introl eq_refl)) as [Ht Hl]. assert (0 < k) as Hk by (unfold entry_id in Hl; rewrite Ht in Hl; destruct k; [done|lia]).
  destruct (start_ok (blobs s) k p1 s) as (e & Hnew & He & Hok & Hf); [|done|].
  { intros e ->. destruct (Hroots e) as [? ?]; [by right; left|]. split; [done|]. split; [by apply Hv|done]. }
  pose proof (futures_unordered_perm (diff_changes l)) as Hperm.
  pose proof (changes_ok _ _ _ _ _ Hroots Hexact _ Hperm) as Hch.
  destruct (change_all_ok (blobs s) k _ Hch e _ Hok Hf) as (e' & Hall & Hok' & Hf').
  { by apply (all_changes_clear _ _ _ _ _ Hroots Hexact _ Hperm Hfirst _ []). }
  pose proof (change_all_memtree (blobs s) (futures_unordered (diff_changes l)) e) as Htree. rewrite Hall, He in Htree.
  unfold apply_diff. eapply runs_step; [exact Hnew|]. eapply runs_step; [unfold diff_changes in Hall; by rewrite Hall|]. intros Hone.
  destruct (saved_root k e' s Hok' Htree Hone) as (h & Eh & Hvh & Hlh & Hfh). exists h. split; [done|]. split; [done|]. split; [done|].
  intros p. rewrite Hfh, Hf', (changes_lead _ _ _ _ _ Hroots Hexact _ Hperm Hfirst). unfold root_file, entry_id. by rewrite Ht.
Qed.

(** C8. The order matters: a change below a file of the parent that is made
    before anything at or above that file fails, and with it [apply_diff],
    though the deletion of the file is among the changes. *)
Theorem apply_diff_out_of_order k root p1 l s l1 x l2 q : roots (content (blobs s)) k root p1 None -> (forall e, p1 = Some e -> valid_node (get_hash e)) ->
  bonsai_diff (content (blobs s)) (S k) root p1 None = Ok l -> futures_unordered (diff_changes l) = l1 ++ x :: l2 ->
  above q (elements x.1) -> is_Some (parent_file (blobs s) p1 q) -> (forall y, y ∈ l1 -> ~ elements y.1 `prefix_of` q) ->
  (exists r, r ∈ l /\ elements (result_path r) = q /\ make_entry r = None) /\
  exists er, apply_diff k l (get_hash <$> p1) None s = (s, Err er).
Proof.
  intros Hroots Hv Hdiff Horder Ha [y Hy] Hl1. destruct (bonsai_diff_ok (content (blobs s)) k root p1 None Hroots) as (l' & El & Hexact).
  assert (l' = l) as -> by congruence.
  destruct (Hroots root (or_introl eq_refl)) as [Ht Hl]. assert (0 < k) as Hk by (unfold entry_id in Hl; rewrite Ht in Hl; destruct k; [done|lia]).
  destruct (start_ok (blobs s) k p1 s) as (e & Hnew & He & Hok & Hf); [|done|].
  { intros e ->. destruct (Hroots e) as [? ?]; [by right; left|]. split; [done|]. split; [by apply Hv|done]. }
  pose proof (futures_unordered_perm (diff_changes l)) as Hperm. rewrite Horder in Hperm.
  pose proof (changes_ok _ _ _ _ _ Hroots Hexact _ Hperm) as Hch.
  destruct (change_result l _ Hperm x) as (r & Hr & ->); [apply elem_of_app; right; by left|]. split.
  - destruct (result_above _ _ _ _ _ Hroots Hexact r q y Hr Ha Hy) as (r' & Hr' & <-). exists r'. split; [done|]. split; [done|].
    pose proof (changed_above _ _ _ _ _ Hroots Hexact r' r Hr' Hr Ha) as Hnone. destruct r'; [done..|]. done.
  - destruct (change_all_error (blobs s) k l1 _ _ l2 Hch e _ Hok Hf) as (e' & er & Hall).
    { intros Hcl. destruct Ha as (name & t & Ha). specialize (Hcl q name t Ha). rewrite after_changes_skip in Hcl by done. congruence. }
    exists er. unfold apply_diff. unfold diff_changes in Horder, Hall. unfold mbind, eio_bind at 1. rewrite Hnew. unfold eio_bind at 1.
    by rewrite Horder, Hall.
Qed.
End derive.
