(* ===== verification/HgDerive.v ===== *)
(** * Manifests of bonsai changesets

    Model of [get_manifest_from_bonsai] of [src/blobrepo/src/repo.rs] and of
    what it calls: paths and files are looked up in stored manifests, the
    changed files are stored as Mercurial files, the manifest in memory takes
    them and is saved. *)

From stdpp Require Import list.
From S2P Require Import Prelude Ord Path Hash Bonsai BonsaiDiff HgManifest HgUpload MemoryManifest MemoryManifestOk ManifestDerive ApplyDiff.

(** ** Paths in manifests *)

Definition find_content_in_content (s : repo_state) (content : outcome mf_error (option Content)) (path_element : MPathElement)
    : outcome mf_error (option Content) :=
  content ← content;
  match content with
  | Some (ContentTree manifest) =>
      match content_lookup manifest path_element with
      | None => Ok None
      | Some entry => Some <$> get_content s entry
      end
  | _ => Ok None
  end.

Definition find_path_in_manifest (path : option MPath) (manifest : HgNodeHash) (s : repo_state) : outcome mf_error (option Content) :=
  manifest ← get_manifest_by_nodeid manifest s;
  foldl (find_content_in_content s) (Ok (Some (ContentTree manifest))) (iter_opt path).

Definition find_file_in_manifest (path : MPath) (manifest : HgNodeHash) (s : repo_state) : outcome mf_error (option (FileType * HgNodeHash)) :=
  x ← map_err PathError (split_dirname path);
  let '(dirname, basename) := x in
  content ← find_path_in_manifest dirname manifest s;
  match content with
  | Some (ContentTree manifest) =>
      match content_lookup manifest basename with
      | Some entry => Ok (match get_type entry with File t => Some (t, get_hash entry) | Tree => None end)
      | None => Ok None
      end
  | _ => Ok None
  end.

Section derive.
Context {C : Sha1Context} {CH : ContentHash} {FU : FuturesUnordered}.

(** The manifest of the Mercurial changeset of a bonsai changeset. *)
Context (hg_manifest_of : ChangesetId -> outcome mf_error HgNodeHash).

(** ** Files that are stored *)

Definition copy_from_fut (s : repo_state) (change : FileChange) : outcome mf_error (option (MPath * HgNodeHash)) :=
  match copy_from change with
  | None => Ok None
  | Some (path, bcs_id) =>
      manifestid ← hg_manifest_of bcs_id;
      res ← find_file_in_manifest path manifestid s;
      match res with
      | Some (_, node_id) => Ok (Some (path, node_id))
      | None => Err (PathNotFound path)
      end
  end.

Definition store_file_change (p1 p2 : option HgNodeHash) (path : MPath) (change : option FileChange)
    : eio mf_error repo_state (option (Entry * option IncompleteFilenodeInfo)) :=
  match change with
  | None => mret None
  | Some change =>
      copy_from ← reads (fun s => copy_from_fut s change);
      uploaded ← upload_file_entry (mkUploadFile Generate (ContentUploaded (mkMeta (content_id change) copy_from)) (file_type change) p1 p2 path);
      let '(_, (entry, _)) := uploaded in
      let node_info := mkFilenode (FilePath path) (get_hash entry) p1 p2 ((fun x => (FilePath x.1, x.2)) <$> copy_from) in
      mret (Some (entry, Some node_info))
  end.

(** The parent that can be used again: another type for the same content. *)
Definition reuse_parent (parent : HgNodeHash) (path : MPath) (change : FileChange) (s : repo_state) : outcome mf_error (option Entry) :=
  parent_envelope ← fetch_file_envelope parent s;
  if bool_decide (fe_content_id parent_envelope = content_id change) && bool_decide (copy_from change = None) then
    name ← map_err PathError (basename path);
    Ok (Some (mkEntry (Some name) (File (file_type change)) parent))
  else Ok None.

Definition store_file_change_or_reuse (p1 p2 : option HgNodeHash) (path : MPath) (change : option FileChange)
    : eio mf_error repo_state (option (Entry * option IncompleteFilenodeInfo)) :=
  maybe_entry ← match p1, p2, change with
                | Some parent, None, Some change | None, Some parent, Some change => reads (reuse_parent parent path change)
                | _, _, _ => mret None
                end;
  match maybe_entry with
  | None => store_file_change p1 p2 path change
  | Some entry => mret (Some (entry, None))
  end.

(** ** The manifest *)

Definition parent_node (path : MPath) (manifest : option HgNodeHash) (s : repo_state) : outcome mf_error (option HgNodeHash) :=
  match manifest with
  | Some manifest => o ← find_file_in_manifest path manifest s; Ok ((fun x => x.2) <$> (o : option (FileType * HgNodeHash)))
  | None => Ok None
  end.

(** What a future does with the tree in memory. *)
Definition with_root {A} (f : ManifestStore -> MemoryManifestEntry * outcome mf_error A) : eio mf_error repo_state MemoryManifestEntry := fun s =>
  match f (blobs s) with
  | (root, Ok _) => (s, Ok root)
  | (_, Err e) => (s, Err e)
  | (_, Panic) => (s, Panic)
  end.

Definition add_filenodes (infos : option IncompleteFilenodeInfo) : eio mf_error repo_state unit :=
  match infos with Some info => add_filenode info | None => mret tt end.

(** The future of one changed path. *)
Definition change_future (manifest_p1 manifest_p2 : option HgNodeHash) (path : MPath) (change : option FileChange) (root : MemoryManifestEntry)
    : eio mf_error repo_state MemoryManifestEntry :=
  p1 ← reads (parent_node path manifest_p1);
  p2 ← reads (parent_node path manifest_p2);
  entry ← store_file_change_or_reuse p1 p2 path change;
  match entry with
  | None => with_root (fun store => change_entry store path None root)
  | Some (entry, node_infos) =>
      _ ← add_filenodes node_infos;
      with_root (fun store => change_entry store path (Some entry) root)
  end.

(** All of them, in the order in which they come to the tree. *)
Fixpoint change_futures (manifest_p1 manifest_p2 : option HgNodeHash) (changes : list (MPath * option FileChange)) (root : MemoryManifestEntry)
    : eio mf_error repo_state MemoryManifestEntry :=
  match changes with
  | [] => mret root
  | (path, change) :: changes =>
      root ← change_future manifest_p1 manifest_p2 path change root;
      change_futures manifest_p1 manifest_p2 changes root
  end.

Definition new_filenodes : eio mf_error repo_state unit := fun s =>
  (mkState (blobs s) (envelopes s) (content_blobs s) (aliases s) [], Ok tt).

(** The filenodes are in the state. [n] bounds the depth of the manifests. *)
Definition get_manifest_from_bonsai (n : nat) (file_changes : list (MPath * option FileChange)) (manifest_p1 manifest_p2 : option HgNodeHash)
    : eio mf_error repo_state HgNodeHash :=
  _ ← new_filenodes;
  root ← MemoryRootManifest_new n n manifest_p1 manifest_p2;
  root ← change_futures manifest_p1 manifest_p2 (futures_unordered file_changes) root;
  root ← resolve_trivial_conflicts root;
  m ← root_save n root;
  mret (get_hash m).
End derive.

(** ** Lookups *)

Section lookup.
Context {C : Sha1Context}.
Implicit Types s : repo_state.

(** The content of every file below [i] is in the store. *)
Definition readable s (i : BonsaiDiff.id) : Prop := forall p ft h, id_at (content (blobs s)) i p = Some (File ft, h) ->
  exists e c, fetch_file_envelope h s = Ok e /\ fetch_file_contents (fe_content_id e) s = Ok c.

Definition content_is s (r : outcome mf_error (option Content)) (o : option BonsaiDiff.id) : Prop :=
  match o with
  | None => r = Ok None
  | Some (Tree, h) => exists m, load_manifest (blobs s) h = Ok m /\ r = Ok (Some (ContentTree m))
  | Some (File ft, h) => exists c, r = Ok (Some (ContentFile ft c))
  end.

Lemma get_content_is s k d name : loads (content (blobs s)) k (flag d, entryid d) -> readable s (flag d, entryid d) ->
  content_is s (Some <$> get_content s (details_entry (name, d))) (Some (flag d, entryid d)).
Proof.
  destruct d as [h [ft|]]; cbn [flag entryid]; intros Hl Hr; unfold get_content; cbn.
  - destruct (Hr [] ft h eq_refl) as (e & c & He & Hc). rewrite He, bind_Ok, Hc. by exists c.
  - destruct k as [|k]; [done|]. apply loads_tree in Hl as (m & Hm & _). exists m. split; [done|]. unfold load_manifest in Hm.
    destruct (map_err ManifestError _) as [[m'|]| |]; [|done..]. by injection Hm as ->.
Qed.

Lemma find_content_step s k i name r : content_is s r (Some i) -> loads (content (blobs s)) k i -> readable s i ->
  content_is s (find_content_in_content s r name) (id_child (content (blobs s)) i name).
Proof.
  destruct i as [[ft|] h]; [by intros [c ->]|]. intros (m & Hm & ->) Hl Hr. destruct k as [|k]; [done|].
  apply loads_tree in Hl as (m' & Hm' & Hl). assert (m' = m) as -> by congruence. unfold find_content_in_content, content_lookup. rewrite bind_Ok.
  pose proof (child_get _ _ _ name Hm) as Hch. rewrite Hch. destruct (btree_get name m) as [d|] eqn:Ed; [|done]. cbn [fmap option_fmap option_map].
  apply (get_content_is s k).
  - apply btree_get_in in Ed. rewrite Forall_forall in Hl. by apply (Hl (name, d)).
  - intros p ft h' Hp. apply (Hr (name :: p) ft h'). cbn [id_at]. by rewrite Hch.
Qed.

Lemma find_contents s p : forall k i r, content_is s r (Some i) -> loads (content (blobs s)) k i -> readable s i ->
  content_is s (foldl (find_content_in_content s) r p) (id_at (content (blobs s)) i p).
Proof.
  assert (forall p, foldl (find_content_in_content s) (Ok None) p = Ok None) as Hnone by (intros q; by induction q).
  induction p as [|name p IH]; intros k i r Hi Hl Hr; [done|]. cbn [foldl id_at]. pose proof (find_content_step s k i name r Hi Hl Hr) as Hstep.
  destruct (id_child (content (blobs s)) i name) as [j|] eqn:Ej; [|by rewrite Hstep, Hnone]. cbn [mbind option_bind].
  destruct i as [[ft|] h]; [done|]. destruct k as [|k]; [done|]. pose proof Hl as (m & Hm & Hlm)%loads_tree.
  apply (IH k); [done| |].
  - rewrite (child_get _ _ _ _ Hm) in Ej. destruct (btree_get name m) as [d|] eqn:Ed; [|done]. injection Ej as <-.
    apply btree_get_in in Ed. rewrite Forall_forall in Hlm. by apply (Hlm (name, d)).
  - intros q ft h' Hq. apply (Hr (name :: q) ft h'). cbn [id_at]. by rewrite Ej.
Qed.

(** [find_file_in_manifest] finds the file that is stored. *)
Lemma find_file_ok s k h path : elements path <> [] -> loads (content (blobs s)) k (Tree, h) -> readable s (Tree, h) ->
  find_file_in_manifest path h s = Ok (stored_file (blobs s) (Tree, h) (elements path)).
Proof.
  intros Hp Hl Hr. destruct (split_dirname_iter path Hp) as (dir & name & E & Hel). unfold find_file_in_manifest, find_path_in_manifest. rewrite E, Hel.
  cbn [map_err]. rewrite bind_Ok. destruct k as [|k]; [done|]. pose proof Hl as (m & Hm & _)%loads_tree.
  change (get_manifest_by_nodeid h s) with (load_manifest (blobs s) h). rewrite Hm, bind_Ok.
  pose proof (find_contents s (iter_opt dir) (S k) (Tree, h) (Ok (Some (ContentTree m)))) as Hc. unfold stored_file. rewrite id_at_app.
  destruct (id_at (content (blobs s)) (Tree, h) (iter_opt dir)) as [[[ft|] h']|]; cbn [content_is mbind option_bind id_at] in Hc |- *.
  - destruct Hc as [c Hc]; [by exists m|done|done|]. by rewrite Hc, bind_Ok.
  - destruct Hc as (m' & Hm' & Hc); [by exists m|done|done|]. rewrite Hc, bind_Ok, (child_get _ _ _ _ Hm'). unfold content_lookup.
    destruct (btree_get name m') as [[h2 [ft|]]|]; done.
  - rewrite Hc; [by rewrite bind_Ok|by exists m|done|done].
Qed.
End lookup.

(** ** Changes that are stored *)

Section stored.
Context {C : Sha1Context} {CL : Sha1ContextLaws C} {CH : ContentHash}.
Context (hg_manifest_of : ChangesetId -> outcome mf_error HgNodeHash).
Implicit Types s : repo_state.

(** What the uploads of files leave: the envelopes that they put are new. *)
Definition later s s' : Prop := blobs s' = blobs s /\ content_blobs s' = content_blobs s /\ exists new, envelopes s' = new ++ envelopes s.
Definition one_envelope s : Prop := forall k v v', (k, v) ∈ envelopes s -> (k, v') ∈ envelopes s -> v = v'.

#[export] Instance later_preorder : PreOrder later.
Proof.
  split; [intros s; split; [done|split; [done|by exists []]]|]. intros s1 s2 s3 (B1 & C1 & n1 & E1) (B2 & C2 & n2 & E2).
  split; [congruence|]. split; [congruence|]. exists (n2 ++ n1). by rewrite E2, E1, app_assoc.
Qed.

Lemma one_envelope_before s s' : later s s' -> one_envelope s' -> one_envelope s.
Proof. intros (_ & _ & new & E) H k v v' Hv Hv'. apply (H k); rewrite E; apply elem_of_app; by right. Qed.

Lemma envelope_later s s' h e : later s s' -> one_envelope s' -> fetch_file_envelope h s = Ok e -> fetch_file_envelope h s' = Ok e.
Proof.
  intros (_ & _ & new & E) Hone. unfold fetch_file_envelope, fetch_file_envelope_opt. destruct (hm_get h (envelopes s)) as [e'|] eqn:Eh; [|done].
  assert (hm_get h (envelopes s') = Some e') as ->; [|done].
  apply hm_get_in in Eh. assert ((h, e') ∈ envelopes s') as Hin by (rewrite E; apply elem_of_app; by right).
  destruct (hm_get_some _ _ _ Hin) as [e2 He2]. rewrite He2. f_equal. apply (Hone h); [by apply hm_get_in|done].
Qed.

Lemma readable_later s s' i : later s s' -> one_envelope s' -> readable s i -> readable s' i.
Proof.
  intros Hl Hone Hr p ft h Hp. pose proof Hl as (Hb & Hc & _). rewrite Hb in Hp. destruct (Hr p ft h Hp) as (e & c & He & Hf). exists e, c.
  split; [by eapply envelope_later|]. unfold fetch_file_contents. by rewrite Hc.
Qed.

(** A manifest that files can be looked up in. *)
Definition usable s (h : HgNodeHash) : Prop := (exists k, loads (content (blobs s)) k (Tree, h)) /\ readable s (Tree, h).
Definition manifest_file s (mp : option HgNodeHash) (p : list MPathElement) : option (FileType * HgNodeHash) :=
  h ← mp; stored_file (blobs s) (Tree, h) p.

(** The files at the top of a manifest. *)
Lemma manifest_file_top s h m name : load_manifest (blobs s) h = Ok m ->
  manifest_file s (Some h) [name] = d ← btree_get name m; file_of (flag d, entryid d).
Proof. intros Hm. unfold manifest_file. cbn [mbind option_bind]. rewrite (stored_cons _ _ _ _ _ Hm). by destruct (btree_get name m). Qed.

Lemma usable_later s s' h : later s s' -> one_envelope s' -> usable s h -> usable s' h.
Proof. intros Hl Hone [[k Hk] Hr]. pose proof Hl as (Hb & _). split; [exists k; by rewrite Hb|by eapply readable_later]. Qed.

Lemma find_file_later s s' h path : later s s' -> one_envelope s' -> usable s h -> elements path <> [] ->
  find_file_in_manifest path h s' = Ok (stored_file (blobs s) (Tree, h) (elements path)).
Proof. intros Hl Hone Hu Hp. destruct (usable_later _ _ _ Hl Hone Hu) as [[k Hk] Hr]. rewrite (find_file_ok s' k) by done. by destruct Hl as [-> _]. Qed.

(** What a changed file was copied from. *)
Definition copied s (change : FileChange) (copy : option (MPath * HgNodeHash)) : Prop :=
  match copy_from change with
  | None => copy = None
  | Some (path, bcs_id) => elements path <> [] /\ exists mf x, hg_manifest_of bcs_id = Ok mf /\ usable s mf /\
      stored_file (blobs s) (Tree, mf) (elements path) = Some x /\ copy = Some (path, x.2)
  end.

Lemma copied_later s s' change copy : later s s' -> one_envelope s' -> copied s change copy -> copy_from_fut hg_manifest_of s' change = Ok copy.
Proof.
  intros Hl Hone. unfold copied, copy_from_fut. destruct (copy_from change) as [[path bcs_id]|]; [|by intros ->].
  intros (Hp & mf & x & -> & Hu & Hx & ->). rewrite bind_Ok. rewrite (find_file_later s s' mf path Hl Hone Hu Hp). rewrite bind_Ok, Hx. by destruct x.
Qed.

(** The node of a changed file: that of the only parent if it has this content
    and nothing was copied, and otherwise the hash of what Mercurial has as the
    file, after the nodes of the parents. *)
Definition only_parent (p1 p2 : option HgNodeHash) : option HgNodeHash :=
  match p1, p2 with Some p, None | None, Some p => Some p | _, _ => None end.
Definition reused s (p1 p2 : option HgNodeHash) (change : FileChange) (p : HgNodeHash) : Prop :=
  only_parent p1 p2 = Some p /\ copy_from change = None /\ exists e, fetch_file_envelope p s = Ok e /\ fe_content_id e = content_id change.
Definition file_node s (p1 p2 : option HgNodeHash) (change : FileChange) (h : HgNodeHash) : Prop :=
  reused s p1 p2 change h \/
  (forall p, ~ reused s p1 p2 change p) /\
  exists copy c, copied s change copy /\ hm_get (content_id change) (content_blobs s) = Some c /\
    h = nodeid (HgFile.generate_metadata copy c ++ c) (HgParents_new p1 p2).

(** [entry] is what the change makes of its path. *)
Definition stored_as s (mp1 mp2 : option HgNodeHash) (x : MPath * option FileChange) (y : MPath * option Entry) : Prop :=
  y.1 = x.1 /\ elements x.1 <> [] /\
  match x.2 with
  | None => y.2 = None
  | Some change => exists h, file_node s (snd <$> manifest_file s mp1 (elements x.1)) (snd <$> manifest_file s mp2 (elements x.1)) change h /\
      y.2 = Some (mkEntry (last (elements x.1)) (File (file_type change)) h)
  end.

(** *** Running the futures *)

Abbreviation laters := (preserves later).

Lemma laters_with_root {A} (f : ManifestStore -> MemoryManifestEntry * outcome mf_error A) : laters (with_root f).
Proof. intros s. unfold with_root. destruct (f (blobs s)) as [r [| |]]; reflexivity. Qed.
Lemma laters_filenodes infos : laters (add_filenodes infos).
Proof. intros s. destruct infos; [|reflexivity]. split; [done|]. split; [done|]. by exists []. Qed.
Lemma laters_put id e : laters (put_envelope id e).
Proof. intros s. split; [done|]. split; [done|]. by exists [(id, e)]. Qed.

(** An upload of a content that is there puts the envelope. *)
Lemma upload_content id meta ft p1 p2 path s : upload_file_entry (mkUploadFile id (ContentUploaded meta) ft p1 p2 path) s =
  (y ← reads (compute meta p1 p2);
   let '(computed_node_id, metadata, content_size) := y in
   node_id ← lift (match id with
                   | Generate => Ok computed_node_id
                   | Supplied node_id => Ok node_id
                   | Checked node_id => if decide (node_id = computed_node_id) then Ok node_id else Err (InconsistentFileHash node_id computed_node_id)
                   end);
   name ← lift (map_err PathError (basename path));
   _ ← put_envelope node_id (mkFileEnvelope node_id p1 p2 (cbm_id meta) content_size metadata);
   mret (mkInfo path meta, (mkEntry (Some name) (File ft) node_id, FilePath path))) s.
Proof. reflexivity. Qed.

Lemma laters_store_file p1 p2 path change : laters (store_file_change hg_manifest_of p1 p2 path change).
Proof.
  destruct change as [change|]; [|by apply preserves_ret, _]. cbn [store_file_change]. apply preserves_bind; [apply _|by apply preserves_read, _|]. intros copy.
  apply preserves_bind; [apply _| |intros [? [? ?]]; by apply preserves_ret, _]. intros s. rewrite upload_content. revert s. apply preserves_bind; [apply _|by apply preserves_read, _|].
  intros [[h m] sz]. apply preserves_bind; [apply _|by apply preserves_lift, _|]. intros id. apply preserves_bind; [apply _|by apply preserves_lift, _|]. intros name.
  apply preserves_bind; [apply _|apply laters_put|]. intros _. by apply preserves_ret, _.
Qed.

Lemma laters_change mp1 mp2 path change root : laters (change_future hg_manifest_of mp1 mp2 path change root).
Proof.
  unfold change_future. apply preserves_bind; [apply _|by apply preserves_read, _|]. intros p1. apply preserves_bind; [apply _|by apply preserves_read, _|]. intros p2. apply preserves_bind; [apply _| |].
  - apply preserves_bind; [apply _|repeat case_match; (apply preserves_read, _ || apply preserves_ret, _)|]. intros [e|]; [by apply preserves_ret, _|apply laters_store_file].
  - intros [[e infos]|]; [|apply laters_with_root]. apply preserves_bind; [apply _|apply laters_filenodes|]. intros _. apply laters_with_root.
Qed.

Lemma laters_changes mp1 mp2 changes root : laters (change_futures hg_manifest_of mp1 mp2 changes root).
Proof.
  revert root. induction changes as [|[path change] changes IH]; intros root; [by apply preserves_ret, _|]. apply preserves_bind; [apply _|apply laters_change|]. intros r. apply IH.
Qed.

(** A step that leaves everything but new envelopes. *)
Definition steps {A} (m : eio mf_error repo_state A) s (a : A) : Prop := exists s', m s = (s', Ok a) /\ later s s'.

Lemma store_new s0 s p1 p2 path change h name : later s0 s -> one_envelope s -> basename path = Ok name ->
  (exists copy c, copied s0 change copy /\ hm_get (content_id change) (content_blobs s0) = Some c /\
    h = nodeid (HgFile.generate_metadata copy c ++ c) (HgParents_new p1 p2)) ->
  exists infos, steps (store_file_change hg_manifest_of p1 p2 path (Some change)) s (Some (mkEntry (Some name) (File (file_type change)) h, infos)).
Proof.
  intros Hl Hone Hname (copy & c & Hcopy & Hc & ->). eexists. unfold steps. cbn [store_file_change]. unfold mbind, eio_bind at 1, reads.
  rewrite (copied_later _ _ _ _ Hl Hone Hcopy). unfold eio_bind at 1. rewrite upload_content. pose proof Hl as (_ & Hcb & _).
  unfold reads, mbind, eio_bind. unfold compute, HgUpload.fetch. cbn [cbm_id]. rewrite Hcb, Hc. cbn [ok_or]. rewrite bind_Ok. unfold lift. rewrite Hname.
  eexists. split; [reflexivity|apply laters_put].
Qed.

Lemma store_ok s0 s p1 p2 path change h : later s0 s -> one_envelope s -> elements path <> [] -> file_node s0 p1 p2 change h ->
  (forall p, only_parent p1 p2 = Some p -> exists e, fetch_file_envelope p s0 = Ok e) ->
  exists infos, steps (store_file_change_or_reuse hg_manifest_of p1 p2 path (Some change)) s (Some (mkEntry (last (elements path)) (File (file_type change)) h, infos)).
Proof.
  intros Hl Hone Hp Hnode Hpar. destruct (basename_ok path Hp) as [name Hname].
  assert (last (elements path) = Some name) as Elast by (unfold basename in Hname; by destruct (last (elements path)); simplify_eq/=).
  assert (forall p, only_parent p1 p2 = Some p -> exists r, reuse_parent p path change s = Ok r /\
    match r with
    | Some e => reused s0 p1 p2 change p /\ e = mkEntry (Some name) (File (file_type change)) p
    | None => ~ reused s0 p1 p2 change p
    end) as Hreuse.
  { intros p Ho. destruct (Hpar p Ho) as [e He]. pose proof (envelope_later _ _ _ _ Hl Hone He) as He'. unfold reuse_parent. rewrite He', bind_Ok.
    destruct (bool_decide (fe_content_id e = content_id change)) eqn:E1; [apply bool_decide_eq_true in E1|apply bool_decide_eq_false in E1];
      (destruct (bool_decide (copy_from change = None)) eqn:E2; [apply bool_decide_eq_true in E2|apply bool_decide_eq_false in E2]); cbn [andb].
    - rewrite Hname. cbn [map_err]. rewrite bind_Ok. eexists. split; [done|]. split; [|done]. split; [done|]. split; [done|]. by exists e.
    - exists None. split; [done|]. by intros (_ & ? & _).
    - exists None. split; [done|]. intros (_ & _ & e' & He2 & Hc). congruence.
    - exists None. split; [done|]. by intros (_ & ? & _). }
  unfold store_file_change_or_reuse.
  assert (match p1, p2, Some change with
    | Some parent, None, Some change | None, Some parent, Some change => reads (reuse_parent parent path change)
    | _, _, _ => mret None end = match only_parent p1 p2 with Some p => reads (reuse_parent p path change) | None => mret None end) as -> by by destruct p1, p2.
  destruct (only_parent p1 p2) as [p|] eqn:Eo.
  - destruct (Hreuse p eq_refl) as (r & Er & Hr). unfold steps, mbind, eio_bind at 1, reads. rewrite Er. destruct r as [e|].
    + destruct Hr as [Hr ->]. exists None, s. rewrite Elast. split; [|reflexivity]. destruct Hnode as [(Ho & _)|[Hno _]]; [|by destruct (Hno p)].
      by assert (p = h) as -> by congruence.
    + destruct Hnode as [(Ho & Hrest)|[_ Hn]]; [destruct Hr; assert (p = h) as -> by congruence; by split|]. rewrite Elast. exact (store_new s0 s p1 p2 path change h name Hl Hone Hname Hn).
  - unfold steps, mbind, eio_bind at 1. cbn [mret eio_ret]. destruct Hnode as [(Ho & _)|[_ Hn]]; [congruence|]. rewrite Elast. exact (store_new s0 s p1 p2 path change h name Hl Hone Hname Hn).
Qed.

Lemma parent_node_ok s0 s path mp : later s0 s -> one_envelope s -> elements path <> [] -> (forall h, mp = Some h -> usable s0 h) ->
  parent_node path mp s = Ok (snd <$> manifest_file s0 mp (elements path)).
Proof.
  intros Hl Hone Hp Hu. destruct mp as [h|]; [|done]. cbn [parent_node]. rewrite (find_file_later s0 s h path Hl Hone (Hu h eq_refl) Hp). by rewrite bind_Ok.
Qed.

Lemma manifest_envelope s mp p x : (forall h, mp = Some h -> usable s h) -> snd <$> manifest_file s mp p = Some x -> exists e, fetch_file_envelope x s = Ok e.
Proof.
  intros Hu. unfold manifest_file. destruct mp as [h|]; [|done]. cbn. destruct (Hu h eq_refl) as [_ Hr]. unfold stored_file.
  destruct (id_at (content (blobs s)) (Tree, h) p) as [[[ft|] h']|] eqn:E; [|done..]. cbn. intros [= ->].
  destruct (Hr _ _ _ E) as (e & _ & He & _). by exists e.
Qed.

(** The tree that a step leaves. *)
Definition tree_of {A} (r : MemoryManifestEntry * outcome mf_error A) : outcome mf_error MemoryManifestEntry :=
  match r with (root, Ok _) => Ok root | (_, Err e) => Err e | (_, Panic) => Panic end.

Lemma with_root_run {A} (f : ManifestStore -> MemoryManifestEntry * outcome mf_error A) s : with_root f s = (s, tree_of (f (blobs s))).
Proof. unfold with_root. by destruct (f (blobs s)) as [r [| |]]. Qed.

Lemma change_future_ok s0 s mp1 mp2 x y root : later s0 s -> one_envelope s ->
  (forall h, mp1 = Some h -> usable s0 h) -> (forall h, mp2 = Some h -> usable s0 h) -> stored_as s0 mp1 mp2 x y ->
  (change_future hg_manifest_of mp1 mp2 x.1 x.2 root s).2 = tree_of (change_entry (blobs s0) y.1 y.2 root).
Proof.
  intros Hl Hone Hu1 Hu2. destruct x as [path change], y as [path' entry]. cbn [fst snd]. intros (E1 & Hp & Hst). cbn [fst snd] in E1, Hp, Hst. subst path'.
  unfold change_future. unfold mbind, eio_bind at 1, reads. rewrite (parent_node_ok s0 s path mp1) by done.
  unfold eio_bind at 1. rewrite (parent_node_ok s0 s path mp2) by done. destruct change as [change|].
  - destruct Hst as (h & Hnode & ->).
    destruct (store_ok s0 s _ _ path change h Hl Hone Hp Hnode) as (infos & s' & Erun & Hl').
    { intros p. unfold only_parent. intros Ho. destruct (snd <$> manifest_file s0 mp1 (elements path)) as [a|] eqn:Ea.
      - destruct (snd <$> manifest_file s0 mp2 (elements path)); [done|]. injection Ho as ->. by apply (manifest_envelope s0 mp1 (elements path)).
      - destruct (snd <$> manifest_file s0 mp2 (elements path)) eqn:E2; [|done]. injection Ho as ->. by apply (manifest_envelope s0 mp2 (elements path)). }
    unfold eio_bind at 1. rewrite Erun. unfold eio_bind. pose proof (laters_filenodes infos s') as Hb.
    assert (add_filenodes infos s' = ((add_filenodes infos s').1, Ok tt)) as -> by by destruct infos.
    rewrite with_root_run. cbn [snd]. destruct Hb as [-> _]. by destruct Hl' as [-> _], Hl as [-> _].
  - subst entry. unfold eio_bind, store_file_change_or_reuse, mbind, eio_bind. destruct (snd <$> manifest_file s0 mp1 _), (snd <$> manifest_file s0 mp2 _);
      cbn [mret eio_ret store_file_change]; rewrite with_root_run; cbn [snd]; by destruct Hl as [-> _].
Qed.

Lemma change_futures_ok s0 mp1 mp2 changes entries : (forall h, mp1 = Some h -> usable s0 h) -> (forall h, mp2 = Some h -> usable s0 h) ->
  Forall2 (stored_as s0 mp1 mp2) changes entries -> forall root s, later s0 s -> one_envelope (change_futures hg_manifest_of mp1 mp2 changes root s).1 ->
  (change_futures hg_manifest_of mp1 mp2 changes root s).2 = tree_of (change_all (blobs s0) entries root).
Proof.
  intros Hu1 Hu2. induction 1 as [|[path change] [path' entry] changes entries Hst _ IH]; intros root s Hl Hone; [done|].
  cbn [change_futures] in Hone |- *. unfold mbind, eio_bind in Hone |- *.
  pose proof (laters_change mp1 mp2 path change root s) as Hl1. cbn [change_all].
  assert (one_envelope s) as Hone0.
  { destruct (change_future hg_manifest_of mp1 mp2 path change root s) as [s1 [r| |]]; cbn [fst] in Hl1;
      (eapply one_envelope_before; [|exact Hone]); [|done..]. etransitivity; [exact Hl1|apply laters_changes]. }
  pose proof (change_future_ok s0 s mp1 mp2 _ _ root Hl Hone0 Hu1 Hu2 Hst) as E. cbn [fst snd] in E.
  destruct (change_future hg_manifest_of mp1 mp2 path change root s) as [s1 r1]. cbn [fst snd] in *. subst r1.
  destruct (change_entry (blobs s0) path' entry root) as [root1 [u|e|]]; cbn [tree_of] in Hone |- *; [|done..].
  apply IH; [by etransitivity|done].
Qed.
End stored.

(** ** The derived manifest *)

Section derived.
Context {C : Sha1Context} {CL : Sha1ContextLaws C} {CH : ContentHash} {FU : FuturesUnordered} {FUL : FuturesUnorderedLaws FU}.
Context (hg_manifest_of : ChangesetId -> outcome mf_error HgNodeHash).
Implicit Types s : repo_state.

Definition grown_envelopes s s' : Prop := exists new, envelopes s' = new ++ envelopes s.
#[export] Instance grown_envelopes_preorder : PreOrder grown_envelopes.
Proof. split; [intros s; by exists []|]. intros s1 s2 s3 [n1 E1] [n2 E2]. exists (n2 ++ n1). by rewrite E2, E1, app_assoc. Qed.

Lemma one_envelope_grown s s' : grown_envelopes s s' -> one_envelope s' -> one_envelope s.
Proof. intros [new E] H k v v' Hv Hv'. apply (H k); rewrite E; apply elem_of_app; by right. Qed.

Lemma upload_grows u : preserves grown_envelopes (upload_file_entry u).
Proof.
  unfold upload_file_entry. destruct (execute (uf_contents u) (uf_p1 u) (uf_p2 u) (uf_path u)) as [[[cbinfo up] comp]| |] eqn:E; [|intros s; reflexivity..].
  assert (preserves grown_envelopes up) as Hup.
  { unfold execute in E. destruct (uf_contents u) as [meta|raw]; [injection E as <- <- <-; apply preserves_ret, _|].
    destruct (HgFile.copied_from _); cbn in E; [| |done]; injection E as <- <- <-; intros s; by exists []. }
  intros s. unfold lift, reads, mbind, eio_bind. destruct (comp s) as [[[h m] sz]| |]; [|reflexivity..].
  destruct (match uf_node_id u with Generate => _ | _ => _ end) as [id| |]; [|reflexivity..].
  destruct (map_err PathError (basename (uf_path u))) as [name| |]; [|reflexivity..]. unfold put_envelope.
  set (s1 := mkState _ _ _ _ _). assert (grown_envelopes s s1) as Hput by by eexists [_].
  specialize (Hup s1). destruct (up s1) as [s2 [[]| |]]; (etransitivity; [exact Hput|exact Hup]).
Qed.

Lemma merge_entries_grows path entries : preserves grown_envelopes (merge_entries path entries).
Proof.
  apply preserves_bind; [apply _|apply preserves_read, _|]. intros [[ft c]|]; [|apply preserves_ret, _].
  apply preserves_bind; [apply _|apply preserves_lift, _|]. intros path'. cbn zeta.
  apply preserves_bind; [apply _|apply preserves_lift, _|]. intros _. apply preserves_bind; [apply _|apply upload_grows|]. intros [? [e p]].
  apply preserves_bind; [apply _|intros s; by exists []|]. intros _. apply preserves_ret, _.
Qed.

Fixpoint resolve_grows (node : MemoryManifestEntry) {struct node} : forall path, preserves grown_envelopes (resolve_rec path node).
Proof.
  intros path. destruct node as [b|l|base p1 p2 changes]; [apply preserves_ret, _| |].
  - cbn. destruct (mapM as_blob l); [|apply preserves_ret, _]. apply preserves_bind; [apply _|apply merge_entries_grows|]. intros m. apply preserves_ret, _.
  - cbn [resolve_rec]. apply preserves_bind; [apply _| |intros ch; apply preserves_ret, _].
    revert changes. fix IHc 1. intros [|[name [child|]] changes]; [apply preserves_ret, _|..].
    + apply preserves_bind; [apply _|apply resolve_grows|]. intros c. apply preserves_bind; [apply _|apply IHc|]. intros r. apply preserves_ret, _.
    + apply preserves_bind; [apply _|apply IHc|]. intros r. apply preserves_ret, _.
Qed.

Lemma saved_envelopes n e path s : grown_envelopes s (save n e path s).1.
Proof. revert s. apply save_preserves; [apply _|]. intros p1 p2 path' m s. by exists []. Qed.

Lemma file_node_valid s mp1 mp2 p change h : file_node hg_manifest_of s (snd <$> manifest_file s mp1 p) (snd <$> manifest_file s mp2 p) change h ->
  (p <> []) -> valid_node h.
Proof.
  intros [(Ho & _)|(_ & copy & c & _ & _ & ->)] Hp; [|apply nodeid_valid].
  assert (forall mp, snd <$> manifest_file s mp p = Some h -> valid_node h) as Hmp.
  { intros mp. unfold manifest_file. destruct mp as [m|]; [|done]. cbn. destruct (stored_file (blobs s) (Tree, m) p) as [x|] eqn:E; [|done].
    intros [= <-]. apply stored_some, id_at_valid in E as [_ Hv]. by apply Hv. }
  unfold only_parent in Ho. destruct (snd <$> manifest_file s mp1 p) as [a|] eqn:E1, (snd <$> manifest_file s mp2 p) as [b|] eqn:E2; simplify_eq; by eapply Hmp.
Qed.

Definition path_within (n : nat) (x : MPath * option FileChange) : Prop := valid_path x.1 /\ length (elements x.1) <= n.

Lemma stored_change_ok n s mp1 mp2 x y : path_within n x -> stored_as hg_manifest_of s mp1 mp2 x y -> change_ok n y.
Proof.
  destruct x as [path change], y as [path' entry]. intros [Hp Hn] (E & Hne & Hst). cbn in *. subst path'. split; [done|]. split; [done|].
  intros b Hb. cbn in Hb. destruct change as [change|]; [|congruence]. destruct Hst as (h & Hnode & ->). injection Hb as <-. cbn. split; [|by eexists].
  by eapply file_node_valid.
Qed.

(** The tree that the changes start from. *)
Lemma base_ok n mp s : (forall h, mp = Some h -> valid_node h /\ usable s h) -> 0 < n ->
  exists e, (forall s, MemoryRootManifest_new n n mp None s = (s, Ok e)) /\ is_memtree e = true /\ mem_ok (blobs s) n e /\
    forall p, mem_file (blobs s) p e = manifest_file s mp p.
Proof.
  intros Hp Hn. destruct n as [|n]; [lia|]. destruct mp as [h|].
  - destruct (Hp h eq_refl) as (Hv & [k Hk] & _). exists (convert_treenode h). split; [done|]. split; [done|]. split.
    + split; [|split; [by left|]; split; [constructor|]; by split; [constructor|]]. intros h' [= <-]. split; [done|]. by eexists.
    + intros p. by destruct p.
  - exists empty_tree. destruct (empty_tree_ok (blobs s) n) as [He Hf]. done.
Qed.

(** A run of [get_manifest_from_bonsai] puts no envelope under the key of
    another. *)
Definition one_file_per_node n changes mp1 mp2 s : Prop := one_envelope (get_manifest_from_bonsai hg_manifest_of n changes mp1 mp2 s).1.

(** The state in which the changes are made. *)
Definition started s : repo_state := (new_filenodes s).1.

Lemma derive_rest_grows n root : preserves grown_envelopes (root ← resolve_trivial_conflicts root; m ← root_save n root; mret (get_hash m)).
Proof.
  apply preserves_bind; [apply _|apply resolve_grows|]. intros root'. apply preserves_bind; [apply _|intros s; apply saved_envelopes|]. intros m. apply preserves_ret, _.
Qed.

(** What [get_manifest_from_bonsai] does, once its changes are known to make
    [entries]. *)
Lemma derive_run n changes entries mp s : 0 < n -> (forall h, mp = Some h -> valid_node h /\ usable s h) ->
  Forall2 (stored_as hg_manifest_of s mp None) (futures_unordered changes) entries -> Forall (path_within n) changes ->
  one_file_per_node n changes mp None s ->
  exists e s1, is_memtree e = true /\ mem_ok (blobs s) n e /\ (forall p, mem_file (blobs s) p e = manifest_file s mp p) /\ Forall (change_ok n) entries /\
    blobs s1 = blobs s /\
    get_manifest_from_bonsai hg_manifest_of n changes mp None s =
      match tree_of (change_all (blobs s) entries e) with
      | Ok root => (root ← resolve_trivial_conflicts root; m ← root_save n root; mret (get_hash m)) s1
      | Err er => (s1, Err er)
      | Panic => (s1, Panic)
      end.
Proof.
  intros Hn Hmp Hst Hpaths Hone. destruct (base_ok n mp s Hmp Hn) as (e & Hnew & He & Hok & Hf). exists e.
  set (r := change_futures hg_manifest_of mp None (futures_unordered changes) e (started s)). exists r.1.
  assert (Forall (change_ok n) entries) as Hch.
  { apply Forall_forall. intros y Hy. apply list_elem_of_lookup in Hy as [i Hi]. destruct (Forall2_lookup_r _ _ _ _ _ Hst Hi) as (x & Hx & Hxy).
    apply list_elem_of_lookup_2 in Hx. rewrite futures_unordered_perm in Hx. rewrite Forall_forall in Hpaths. eapply stored_change_ok; [by apply Hpaths|done]. }
  assert (later s (started s)) as Hl by (split; [done|]; split; [done|]; by exists []).
  assert (later (started s) r.1) as Hl1 by apply laters_changes.
  assert (get_manifest_from_bonsai hg_manifest_of n changes mp None s =
    match r with (s1, Ok root) => (root ← resolve_trivial_conflicts root; m ← root_save n root; mret (get_hash m)) s1 | (s1, Err er) => (s1, Err er) | (s1, Panic) => (s1, Panic) end) as Erun.
  { unfold get_manifest_from_bonsai. unfold mbind, eio_bind at 1. cbn [new_filenodes]. unfold eio_bind at 1. rewrite Hnew. unfold eio_bind at 1. by unfold started, new_filenodes in r; fold r. }
  split; [done|]. split; [done|]. split; [done|]. split; [done|]. split; [by destruct Hl1 as [-> _]|].
  assert (one_envelope r.1) as Hone1.
  { unfold one_file_per_node in Hone. rewrite Erun in Hone. destruct r as [s1 [root|er|]]; [|done..]. eapply one_envelope_grown; [|exact Hone].
    revert s1 Hl1 Erun Hone. intros s1 _ _ _. apply (derive_rest_grows n root). }
  assert (forall h, mp = Some h -> usable s h) as Hu by (intros h Hh; by apply Hmp).
  pose proof (change_futures_ok hg_manifest_of s mp None _ _ Hu ltac:(done) Hst e (started s) Hl Hone1) as E. fold r in E.
  rewrite Erun, <- E. by destruct r as [s1 [| |]].
Qed.


(** Where a change is made below a file that is still there, nothing is
    derived. *)
Lemma derived_manifest_error n changes l1 path c l2 mp s : 0 < n -> (forall h, mp = Some h -> valid_node h /\ usable s h) ->
  Forall (path_within n) changes -> Forall2 (stored_as hg_manifest_of s mp None) (futures_unordered changes) (l1 ++ (path, c) :: l2) ->
  ~ clear (after_changes l1 (manifest_file s mp)) (elements path) -> one_file_per_node n changes mp None s ->
  exists er, (get_manifest_from_bonsai hg_manifest_of n changes mp None s).2 = Err er.
Proof.
  intros Hn Hmp Hpaths Hst Hno Hone. destruct (derive_run n changes _ mp s Hn Hmp Hst Hpaths Hone) as (e & s1 & He & Hok & Hf & Hch & Hb & Erun).
  destruct (change_all_error (blobs s) n l1 path c l2 Hch e _ Hok Hf Hno) as (e' & er & Hall). exists er. by rewrite Erun, Hall.
Qed.
End derived.
