(* ===== verification/HgDeriveExample.v ===== *)
(** * Manifests that are derived: examples

    A parent with a file that becomes a directory, stored with a hash that is
    enough for an example, and the theorems of [ApplyDiff] on it. The theorem of
    [HgDerive] on a changeset that deletes a file, makes another executable and
    copies a third; and two merges of files that have the same content: one
    whose content starts like metadata is stored as another content. *)

From stdpp Require Import list.
From S2P Require Import Prelude Ord Path Hash Bonsai BonsaiDiff HgManifest HgUpload MemoryManifest MemoryManifestOk ManifestDerive ApplyDiff HgDerive.

(** ** A diff that is applied *)

#[local] Open Scope string_scope.
#[local] Open Scope list_scope.

(** Bytes as a number, to 20 bytes of it. *)
Fixpoint number_bytes (n : nat) (z : Z) : bytes :=
  match n with 0 => [] | S n => z2b z :: number_bytes n (z / 256) end.
Definition example_digest (data : bytes) : Sha1 :=
  mkSha1 (number_bytes 20 (foldl (fun z b => (z * 1000003 + b2z b + 1) mod 2 ^ 160)%Z 7%Z data)).

#[local] Instance example_context : Sha1Context := {| digest := example_digest |}.
#[local] Instance example_context_laws : Sha1ContextLaws example_context.
Proof. split. intros data. reflexivity. Qed.
#[local] Instance concat_interleave : Interleave := {| interleave A := @concat A |}.
#[local] Instance concat_interleave_laws : InterleaveLaws concat_interleave.
Proof. by split. Qed.

#[local] Instance example_contents : ContentHash :=
  {| content_hash c := mkContentId (mkBlake2 (number_bytes 32 (foldl (fun z b => (z * 1000003 + b2z b + 1) mod 2 ^ 256)%Z 3%Z c))); get_sha256 c := HgFile.mkSha256 c |}.

(** Futures that complete in the opposite order. *)
Definition reversed : FuturesUnordered := {| futures_unordered A l := List.rev l |}.
Lemma reversed_laws : FuturesUnorderedLaws reversed.
Proof. split. intros A l. cbn. symmetry. apply Permutation_rev. Qed.

Definition ex_name (s : String.string) : MPathElement := mkElem (bstr s).
Definition ex_hash (s : String.string) : HgNodeHash := mkNode (example_digest (bstr s)).
Definition ex_file (s c : String.string) : MPathElement * Details := (ex_name s, mkDetails (ex_hash c) (File Regular)).

Definition stored (m : ManifestContent) : HgNodeHash * HgManifestEnvelope :=
  let id := nodeid (manifest_text m) NoParents in (id, mkEnvelope id None None id (manifest_text m)).

Definition parent_content : ManifestContent := [ex_file "a" "1"; ex_file "g" "2"].
Definition dir_content : ManifestContent := [ex_file "q" "3"].
Definition root_content : ManifestContent := [ex_file "a" "1"; (ex_name "g", mkDetails (stored dir_content).1 Tree)].

Definition ex_store : ManifestStore := [stored parent_content; stored dir_content; stored root_content].
Definition ex_state : repo_state := mkState ex_store [] [] [] [].
Definition ex_parent : Entry := mkEntry None Tree (stored parent_content).1.
Definition ex_root : Entry := mkEntry None Tree (stored root_content).1.

Definition deleted_g : BonsaiDiffResult := Deleted (mkMPath [ex_name "g"]).
Definition changed_q : BonsaiDiffResult := Changed (mkMPath [ex_name "g"; ex_name "q"]) Regular (ex_hash "3").
Definition ex_results : list BonsaiDiffResult := [deleted_g; changed_q].

Lemma ex_diff : bonsai_diff (content ex_store) 3 ex_root (Some ex_parent) None = Ok ex_results.
Proof. vm_compute. reflexivity. Qed.

Lemma ex_loads m k : load_manifest ex_store (stored m).1 = Ok m -> Forall (fun x => loads (content ex_store) k (flag x.2, entryid x.2)) m ->
  loads (content ex_store) (S k) (Tree, (stored m).1).
Proof. intros Hm Hl. apply loads_tree. by exists m. Qed.

Lemma ex_roots : roots (content ex_store) 2 ex_root (Some ex_parent) None.
Proof.
  intros e [->|[[= <-]|[=]]]; (split; [reflexivity|]).
  - apply (ex_loads root_content 1); [vm_compute; reflexivity|]. constructor; [done|]. constructor; [|done].
    apply (ex_loads dir_content 0); [vm_compute; reflexivity|]. by constructor.
  - apply (ex_loads parent_content 1); [vm_compute; reflexivity|]. by repeat constructor.
Qed.

Lemma ex_valid e : Some ex_parent = Some e -> valid_node (get_hash e).
Proof. intros [= <-]. reflexivity. Qed.

Lemma not_above_long (p q : list MPathElement) : Nat.ltb (length p) (length q) = false -> ~ above p q.
Proof. intros Hl%Nat.ltb_ge (name & r & ->). rewrite length_app in Hl. cbn in Hl. lia. Qed.

Lemma ex_parents_first : parents_first (diff_changes ex_results).
Proof.
  constructor; [constructor; [constructor|constructor]|]. constructor; [|constructor]. by apply not_above_long.
Qed.

Definition ex_apply (FU : FuturesUnordered) : repo_state * outcome mf_error HgNodeHash :=
  apply_diff 2 ex_results (Some (get_hash ex_parent)) None ex_state.

Lemma apply_diff_exact_witness : exists h, (ex_apply in_order_completion).2 = Ok h /\
  stored_file (blobs (ex_apply in_order_completion).1) (Tree, h) [ex_name "g"; ex_name "q"] = Some (Regular, ex_hash "3").
Proof.
  destruct (apply_diff_exact (FU := in_order_completion) 2 ex_root (Some ex_parent) ex_results ex_state ex_roots ex_valid ex_diff ex_parents_first) as (h & Eh & _ & _ & Hf).
  { apply one_value_checked. vm_compute. reflexivity. }
  exists h. split; [exact Eh|]. refine (eq_trans (Hf [ex_name "g"; ex_name "q"]) _). vm_compute. reflexivity.
Defined.

Lemma apply_diff_out_of_order_witness : exists er, ex_apply reversed = (ex_state, Err er).
Proof.
  destruct (apply_diff_out_of_order (FU := reversed) (FUL := reversed_laws) 2 ex_root (Some ex_parent) ex_results ex_state
    [] (mkMPath [ex_name "g"; ex_name "q"], make_entry changed_q) [(mkMPath [ex_name "g"], None)] [ex_name "g"] ex_roots ex_valid ex_diff) as [_ H].
  - reflexivity.
  - by exists (ex_name "q"), [].
  - exists (Regular, ex_hash "2"). vm_compute. reflexivity.
  - intros y Hy. by apply elem_of_nil in Hy.
  - exact H.
Defined.

(** ** A changeset *)



Definition node_for (c : String.string) : HgNodeHash := nodeid (bstr c) (HgParents_new None None).
Definition envelope_for (c : String.string) : HgNodeHash * HgFileEnvelope :=
  (node_for c, envelope_of (node_for c) None None [] (bstr c)).
Definition content_for (c : String.string) : ContentId * bytes := (content_hash (bstr c), bstr c).

(** A parent with the files [a] and [g]; a content for a new file. *)
Definition dp_content : ManifestContent :=
  [(ex_name "a", mkDetails (node_for "1") (File Regular)); (ex_name "g", mkDetails (node_for "2") (File Regular))].
Definition dp_id : HgNodeHash := (stored dp_content).1.
Definition dp_state : repo_state :=
  mkState [stored dp_content] [envelope_for "1"; envelope_for "2"] [content_for "1"; content_for "2"; content_for "3"] [] [].

Definition dp_changeset : ChangesetId := mkChangesetId (mkBlake2 (replicate 32 x00)).
Definition dp_manifest_of (id : ChangesetId) : outcome mf_error HgNodeHash := Ok dp_id.

Definition dp_path (s : String.string) : MPath := mkMPath [ex_name s].
Definition dp_changes : list (MPath * option FileChange) :=
  [(dp_path "a", None);
   (dp_path "g", Some (mkFileChange (content_hash (bstr "2")) Executable 1 None));
   (dp_path "n", Some (mkFileChange (content_hash (bstr "3")) Regular 1 (Some (dp_path "a", dp_changeset))))].

Definition copied_node : HgNodeHash :=
  nodeid (HgFile.generate_metadata (Some (dp_path "a", node_for "1")) (bstr "3") ++ bstr "3") (HgParents_new None None).
Definition dp_entries : list (MPath * option Entry) :=
  [(dp_path "a", None);
   (dp_path "g", Some (mkEntry (Some (ex_name "g")) (File Executable) (node_for "2")));
   (dp_path "n", Some (mkEntry (Some (ex_name "n")) (File Regular) copied_node))].

#[local] Opaque node_for content_hash dp_id.

Lemma dp_load : load_manifest (blobs dp_state) dp_id = Ok dp_content.
Proof. vm_compute. reflexivity. Qed.

(** A file whose content is there. *)
Definition readable_node (h : HgNodeHash) : Prop :=
  exists e c, fetch_file_envelope h dp_state = Ok e /\ fetch_file_contents (fe_content_id e) dp_state = Ok c.

Lemma dp_readable c : In c ["1"; "2"] -> readable_node (node_for c).
Proof. intros [<-|[<-|[]]]; [exists (envelope_for "1").2, (bstr "1")|exists (envelope_for "2").2, (bstr "2")]; (split; vm_compute; reflexivity). Qed.

Lemma dp_child name : id_child (content (blobs dp_state)) (Tree, dp_id) name = (fun d => (flag d, entryid d)) <$> btree_get name dp_content.
Proof. exact (child_get _ _ _ name dp_load). Qed.

Lemma dp_usable : usable dp_state dp_id.
Proof.
  split; [exists 1; apply loads_tree; exists dp_content; split; [exact dp_load|by repeat constructor]|].
  intros [|name p] ft h; [done|]. cbn [id_at]. rewrite dp_child.
  destruct (btree_get name dp_content) as [d|] eqn:E; [|done]. apply btree_get_in in E. cbn [fmap option_fmap option_map mbind option_bind].
  apply elem_of_cons in E as [[= -> ->]|[[= -> ->]|[]%elem_of_nil]%elem_of_cons]; cbn [flag entryid];
    (destruct p as [|name' p]; [intros [= <- <-]; apply dp_readable; auto using in_eq, in_cons|done]).
Qed.

Lemma dp_a : manifest_file dp_state (Some dp_id) [ex_name "a"] = Some (Regular, node_for "1").
Proof. exact (manifest_file_top dp_state dp_id dp_content (ex_name "a") dp_load). Qed.
Lemma dp_g : manifest_file dp_state (Some dp_id) [ex_name "g"] = Some (Regular, node_for "2").
Proof. exact (manifest_file_top dp_state dp_id dp_content (ex_name "g") dp_load). Qed.
Lemma dp_n : manifest_file dp_state (Some dp_id) [ex_name "n"] = None.
Proof. exact (manifest_file_top dp_state dp_id dp_content (ex_name "n") dp_load). Qed.

Lemma dp_fetch : exists e, fetch_file_envelope (node_for "2") dp_state = Ok e /\ fe_content_id e = content_hash (bstr "2").
Proof. exists (envelope_for "2").2. split; vm_compute; reflexivity. Qed.

Lemma dp_new : hm_get (content_hash (bstr "3")) (content_blobs dp_state) = Some (bstr "3").
Proof. vm_compute. reflexivity. Qed.

Lemma dp_stored : Forall2 (stored_as dp_manifest_of dp_state (Some dp_id) None) dp_changes dp_entries.
Proof.
  unfold dp_changes, dp_entries. constructor; [|constructor; [|constructor; [|constructor]]]; (split; [reflexivity|split; [discriminate|]]).
  - reflexivity.
  - exists (node_for "2"). split; [|reflexivity]. left. cbn [fst elements dp_path]. rewrite dp_g. split; [reflexivity|]. split; [reflexivity|exact dp_fetch].
  - exists copied_node. split; [|reflexivity]. right. cbn [fst elements dp_path]. rewrite dp_n. split; [intros p (Ho & _); discriminate Ho|].
    exists (Some (dp_path "a", node_for "1")), (bstr "3"). split; [|split; [exact dp_new|reflexivity]].
    split; [discriminate|]. exists dp_id, (Regular, node_for "1"). split; [reflexivity|]. split; [exact dp_usable|]. split; [exact dp_a|reflexivity].
Qed.

#[local] Instance file_envelope_eq_dec : EqDecision HgFileEnvelope.
Proof. solve_decision. Defined.

Definition one_envelope_check (s : repo_state) : bool :=
  forallb (fun x => forallb (fun y => negb (bool_decide (x.1 = y.1)) || bool_decide (x.2 = y.2)) (envelopes s)) (envelopes s).

Lemma one_envelope_checked s : one_envelope_check s = true -> one_envelope s.
Proof.
  unfold one_envelope_check. rewrite forallb_forall. intros H k v v' H1%list_elem_of_In H2%list_elem_of_In. apply H in H1. rewrite forallb_forall in H1.
  specialize (H1 _ H2). cbn in H1. rewrite bool_decide_true in H1 by done. by apply bool_decide_eq_true in H1.
Qed.


(** ** Merged contents *)

(** Two parents have a file with this content, with different nodes. *)
Definition merge_state (c : bytes) : repo_state :=
  let h1 := ex_hash "p" in let h2 := ex_hash "q" in
  mkState [] [(h1, envelope_of h1 None None [] c); (h2, envelope_of h2 None None [] c)] [(content_hash c, c)] [] [].
Definition merge_sides : list Entry := [mkEntry (Some (ex_name "f")) (File Regular) (ex_hash "p"); mkEntry (Some (ex_name "f")) (File Regular) (ex_hash "q")].

(** The content that the merged file reads as. *)
Definition merged_content (c : bytes) : outcome mf_error bytes :=
  let r := merge_entries (Some (dp_path "f")) merge_sides (merge_state c) in
  match r.2 with
  | Ok (Some (Blob e)) => fetch_file_content_from_blobstore (get_hash e) r.1
  | Ok _ => Panic
  | Err e => Err e
  | Panic => Panic
  end.

Example merged_text : merged_content (bstr "text") = Ok (bstr "text").
Proof. vm_compute. reflexivity. Qed.

(** The content is uploaded as the bytes of a Mercurial file, in which what it
    starts with is metadata. *)
Example merged_marker : merged_content (x01 :: nl :: bstr "text") = Ok (bstr "text").
Proof. vm_compute. reflexivity. Qed.
