(* ===== verification/CaseConflict.v ===== *)
(** * Case conflicts

    Model of [CaseConflictTrie] and [check_case_conflicts] in
    [mononoke_types/src/path.rs]: a trie of path elements whose nodes also
    hold the lower-cased names of their children, used to refuse commits with
    two names that differ only by case. *)

From S2P Require Import Prelude Ord Path Hash Bonsai.

Inductive CaseConflictTrie := mkTrie {
  children : list (MPathElement * CaseConflictTrie);
  lowercase : gset bytes;
}.

Definition trie_new : CaseConflictTrie := mkTrie [] ∅.

Definition trie_is_empty (t : CaseConflictTrie) : bool := Nat.eqb (length (children t)) 0.

Section CaseConflict.

(** [str::to_lowercase] follows the Unicode tables; nothing below depends on
    what it returns. *)
Context (to_lowercase : bytes -> bytes).

Fixpoint trie_add (path : list MPathElement) (t : CaseConflictTrie)
    : CaseConflictTrie * bool :=
  match path with
  | [] => (t, true)
  | element :: iter =>
      match hm_get element (children t) with
      | Some child =>
          let '(child', r) := trie_add iter child in
          (mkTrie (hm_insert element child' (children t)) (lowercase t), r)
      | None =>
          let add_child lc :=
            let '(child', r) := trie_add iter trie_new in
            (mkTrie (hm_insert element child' (children t)) lc, r) in
          match from_utf8 (elem element) with
          | Some s =>
              let element_lower := to_lowercase s in
              if decide (element_lower ∈ lowercase t) then (t, false)
              else add_child ({[element_lower]} ∪ lowercase t)
          | None => add_child (lowercase t)
          end
      end
  end.

Fixpoint trie_remove (path : list MPathElement) (t : CaseConflictTrie)
    : CaseConflictTrie * bool :=
  match path with
  | [] => (t, true)
  | element :: iter =>
      match hm_get element (children t) with
      | None => (t, false)
      | Some child =>
          let '(child', found) := trie_remove iter child in
          if trie_is_empty child' then
            (mkTrie (hm_remove element (children t))
               (match from_utf8 (elem element) with
                | Some s => lowercase t ∖ {[to_lowercase s]}
                | None => lowercase t
                end), found)
          else (mkTrie (hm_insert element child' (children t)) (lowercase t), found)
      end
  end.

(** ** Updates: the trait [CaseConflictTrieUpdate] *)

Class CaseConflictTrieUpdate (P : Type) :=
  trie_apply : P -> CaseConflictTrie -> CaseConflictTrie * option MPath.

#[export] Instance MPath_update : CaseConflictTrieUpdate MPath := fun path t =>
  let '(t', added) := trie_add (elements path) t in
  (t', if added then None else Some path).

(** A changeset: the loop over the deletions, then the loop over the added
    and modified files up to the first conflict. *)
Fixpoint apply_removals (changes : list (MPath * option FileChange)) (t : CaseConflictTrie)
    : CaseConflictTrie :=
  match changes with
  | [] => t
  | (path, change) :: rest =>
      apply_removals rest (if is_some change then t else (trie_remove (elements path) t).1)
  end.

Fixpoint apply_additions (changes : list (MPath * option FileChange)) (t : CaseConflictTrie)
    : CaseConflictTrie * option MPath :=
  match changes with
  | [] => (t, None)
  | (path, change) :: rest =>
      if is_some change then
        let '(t', added) := trie_add (elements path) t in
        if added : bool then apply_additions rest t' else (t', Some path)
      else apply_additions rest t
  end.

#[export] Instance BonsaiChangeset_update `{Chrono} : CaseConflictTrieUpdate BonsaiChangeset :=
  fun cs t =>
    apply_additions (file_changes (inner cs)) (apply_removals (file_changes (inner cs)) t).

Section Check.
Context {P : Type} `{!CaseConflictTrieUpdate P}.

Fixpoint check_case_conflicts_from (t : CaseConflictTrie) (iter : list P) : option MPath :=
  match iter with
  | [] => None
  | update :: iter =>
      let '(t', conflict) := trie_apply update t in
      match conflict with
      | Some p => Some p
      | None => check_case_conflicts_from t' iter
      end
  end.

Definition check_case_conflicts (iter : list P) : option MPath :=
  check_case_conflicts_from trie_new iter.

(** [FromIterator]: conflicts are ignored. *)
Definition trie_from_iter (iter : list P) : CaseConflictTrie :=
  foldl (fun t update => (trie_apply update t).1) trie_new iter.
End Check.

(** ** What the trie holds *)

Fixpoint trie_has (path : list MPathElement) (t : CaseConflictTrie) : Prop :=
  match path with
  | [] => True
  | e :: path =>
      match hm_get e (children t) with Some c => trie_has path c | None => False end
  end.

(** The name an element is compared by: none when it is not UTF-8. *)
Definition lower (e : MPathElement) : option bytes := to_lowercase <$> from_utf8 (elem e).

(** The invariant of a node: [lowercase] holds the names of its children,
    which differ even without case. *)
Definition node_ok (t : CaseConflictTrie) : Prop :=
  (forall l, l ∈ lowercase t <->
     exists e, lower e = Some l /\ is_Some (hm_get e (children t))) /\
  (forall e e' l, lower e = Some l -> lower e' = Some l ->
     is_Some (hm_get e (children t)) -> is_Some (hm_get e' (children t)) -> e = e').

Fixpoint node_at (path : list MPathElement) (t : CaseConflictTrie) : option CaseConflictTrie :=
  match path with
  | [] => Some t
  | e :: path => c ← hm_get e (children t); node_at path c
  end.

Definition trie_wf (t : CaseConflictTrie) : Prop :=
  forall path n, node_at path t = Some n -> node_ok n.

Lemma trie_wf_unfold t :
  trie_wf t <-> node_ok t /\ forall e c, hm_get e (children t) = Some c -> trie_wf c.
Proof.
  split.
  - intros H. split; [by apply (H [])|]. intros e c He path n Hn.
    apply (H (e :: path)). simpl. by rewrite He.
  - intros [H1 H2] [|e path] n Hn; simpl in Hn; [by injection Hn as <-|].
    destruct (hm_get e (children t)) as [c|] eqn:E; [|done]. by eapply H2.
Qed.

Lemma trie_new_wf : trie_wf trie_new.
Proof.
  apply trie_wf_unfold. split; [|done]. split; simpl.
  - intros l. split; [set_solver|]. by intros (e & _ & [? ?]).
  - by intros e e' l _ _ [? ?].
Qed.

(** Replacing a child keeps the node's own invariant. *)
Lemma node_ok_replace t e c c' :
  node_ok t -> hm_get e (children t) = Some c ->
  node_ok (mkTrie (hm_insert e c' (children t)) (lowercase t)).
Proof.
  intros [H1 H2] He.
  assert (forall e0, is_Some (hm_get e0 (hm_insert e c' (children t)))
                     <-> is_Some (hm_get e0 (children t))) as Hd.
  { intros e0. rewrite hm_get_insert. destruct (decide (e0 = e)) as [->|]; [|done].
    rewrite He. split; done. }
  split; simpl.
  - intros l. rewrite H1. by setoid_rewrite Hd.
  - intros e1 e2 l. rewrite !Hd. apply H2.
Qed.

Lemma trie_wf_replace t e c c' :
  trie_wf t -> hm_get e (children t) = Some c -> trie_wf c' ->
  trie_wf (mkTrie (hm_insert e c' (children t)) (lowercase t)).
Proof.
  intros [Hn Hc]%trie_wf_unfold He Hc'. apply trie_wf_unfold.
  split; [by eapply node_ok_replace|]. simpl. intros e0 c0. rewrite hm_get_insert.
  case_decide; [by intros [= <-] | apply Hc].
Qed.

(** A new child whose lower-cased name is not there yet. *)
Lemma trie_wf_new_child t e c' :
  trie_wf t -> hm_get e (children t) = None -> trie_wf c' ->
  (forall l, lower e = Some l -> l ∉ lowercase t) ->
  trie_wf (mkTrie (hm_insert e c' (children t))
             (match lower e with Some l => {[l]} ∪ lowercase t | None => lowercase t end)).
Proof.
  intros [[H1 H2] Hc]%trie_wf_unfold He Hc' Hl. apply trie_wf_unfold. split; [split|]; simpl.
  - intros l. setoid_rewrite hm_get_insert. split.
    + intros Hin. destruct (lower e) as [le|] eqn:Ele.
      * apply elem_of_union in Hin as [->%elem_of_singleton|Hin].
        -- exists e. by rewrite decide_True.
        -- apply H1 in Hin as (e0 & ? & ?). exists e0. case_decide; [done|]. done.
      * apply H1 in Hin as (e0 & ? & ?). exists e0. case_decide; done.
    + intros (e0 & Hl0 & Hs). case_decide as E; [subst e0; rewrite Hl0; set_solver|].
      assert (l ∈ lowercase t) by (apply H1; eauto). destruct (lower e); set_solver.
  - intros e1 e2 l L1 L2. rewrite !hm_get_insert. intros S1 S2.
    destruct (decide (e1 = e)) as [->|], (decide (e2 = e)) as [->|]; try done.
    + exfalso. eapply Hl; [done|]. apply H1. eauto.
    + exfalso. eapply Hl; [done|]. apply H1. eauto.
    + by eapply H2.
  - intros e0 c0. rewrite hm_get_insert. case_decide; [by intros [= <-] | apply Hc].
Qed.

Lemma trie_add_wf path : forall t, trie_wf t -> trie_wf (trie_add path t).1.
Proof.
  induction path as [|e path IH]; intros t Ht; simpl; [done|].
  destruct (hm_get e (children t)) as [c|] eqn:E.
  { pose proof (proj2 (proj1 (trie_wf_unfold t) Ht) e c E) as Hc.
    specialize (IH c Hc). destruct (trie_add path c) as [c' r]. simpl in *.
    by eapply trie_wf_replace. }
  specialize (IH trie_new trie_new_wf). destruct (trie_add path trie_new) as [c' r]. simpl in IH.
  pose proof (trie_wf_new_child t e c' Ht E IH) as H. unfold lower in H.
  destruct (from_utf8 (elem e)) as [s|]; simpl in H; [|by apply H].
  case_decide; [done|]. apply H. intros l [= <-]. done.
Qed.

(** Removing a child together with its lower-cased name. *)
Lemma trie_wf_remove_child t e c :
  trie_wf t -> hm_get e (children t) = Some c ->
  trie_wf (mkTrie (hm_remove e (children t))
             (match lower e with Some l => lowercase t ∖ {[l]} | None => lowercase t end)).
Proof.
  intros [[H1 H2] Hc]%trie_wf_unfold He. apply trie_wf_unfold. split; [split|]; simpl.
  - intros l. setoid_rewrite hm_get_remove. split.
    + intros Hin. assert (l ∈ lowercase t) as (e0 & L0 & S0)%H1 by (destruct (lower e); set_solver).
      exists e0. split; [done|]. case_decide as E; [|done]. subst e0. rewrite L0 in Hin. set_solver.
    + intros (e0 & L0 & S0). case_decide as E; [by destruct S0|].
      assert (l ∈ lowercase t) by (apply H1; eauto).
      destruct (lower e) as [le|] eqn:Le; [|done]. apply elem_of_difference. split; [done|].
      intros ->%elem_of_singleton. apply E. by eapply H2.
  - intros e1 e2 l L1 L2. rewrite !hm_get_remove. intros S1 S2.
    destruct (decide (e1 = e)); [by destruct S1|]. destruct (decide (e2 = e)); [by destruct S2|].
    by eapply H2.
  - intros e0 c0. rewrite hm_get_remove. case_decide; [done | apply Hc].
Qed.

Lemma trie_remove_wf path : forall t, trie_wf t -> trie_wf (trie_remove path t).1.
Proof.
  induction path as [|e path IH]; intros t Ht; simpl; [done|].
  destruct (hm_get e (children t)) as [c|] eqn:E; [|done].
  pose proof (proj2 (proj1 (trie_wf_unfold t) Ht) e c E) as Hc.
  specialize (IH c Hc). destruct (trie_remove path c) as [c' r]. simpl in *.
  destruct (trie_is_empty c'); simpl; [|by eapply trie_wf_replace].
  pose proof (trie_wf_remove_child t e c Ht E) as H. unfold lower in H.
  by destruct (from_utf8 (elem e)).
Qed.

(** ** Case-conflict freedom of a set of paths *)

(** [S] is a set of paths and directories (closed under prefixes). *)
Definition case_conflict_free (S : list MPathElement -> Prop) : Prop :=
  forall p e e' l, S (p ++ [e]) -> S (p ++ [e']) ->
    lower e = Some l -> lower e' = Some l -> e = e'.

Definition below (e : MPathElement) (S : list MPathElement -> Prop) : list MPathElement -> Prop :=
  fun p => S (e :: p).

Lemma ccf_unfold S :
  case_conflict_free S <->
  (forall e e' l, S [e] -> S [e'] -> lower e = Some l -> lower e' = Some l -> e = e') /\
  (forall e, case_conflict_free (below e S)).
Proof.
  split.
  - intros H. split; [intros e e' l; apply (H [])|].
    intros e0 p e e' l H1 H2. by apply (H (e0 :: p)).
  - intros [H1 H2] [|e0 p] e e' l; [apply H1 | apply (H2 e0)].
Qed.

Lemma ccf_ext S S' : (forall p, S p <-> S' p) -> case_conflict_free S -> case_conflict_free S'.
Proof. intros E H p e e' l. rewrite <- !E. apply H. Qed.

(** The paths of the trie, and those of the trie with one more path. *)
Definition with_path (path : list MPathElement) (t : CaseConflictTrie) : list MPathElement -> Prop :=
  fun q => trie_has q t \/ q `prefix_of` path.

Lemma trie_has_is_Some e t : trie_has [e] t <-> is_Some (hm_get e (children t)).
Proof. simpl. destruct (hm_get e (children t)); naive_solver. Qed.

Lemma trie_has_ccf p : forall t e e' l, trie_wf t ->
  trie_has (p ++ [e]) t -> trie_has (p ++ [e']) t ->
  lower e = Some l -> lower e' = Some l -> e = e'.
Proof.
  induction p as [|e0 p IH]; intros t e e' l [[_ Hn] Hc]%trie_wf_unfold H1 H2 L1 L2.
  - cbn [app] in H1, H2. rewrite trie_has_is_Some in H1, H2. by eapply Hn.
  - simpl in H1, H2. destruct (hm_get e0 (children t)) as [c|] eqn:E; [|done].
    by eapply (IH c); eauto.
Qed.

Lemma prefixes_ccf path : case_conflict_free (fun q => q `prefix_of` path).
Proof.
  intros p e e' l [k ->] [k' E] _ _. rewrite <- !app_assoc in E.
  apply app_inv_head in E. by injection E.
Qed.

(** Below an element that is on the path / not on the path. *)
Lemma with_path_below_child e path t c p :
  hm_get e (children t) = Some c ->
  below e (with_path (e :: path) t) p <-> with_path path c p.
Proof.
  intros E. unfold below, with_path. simpl. rewrite E.
  split; (intros [H|H]; [by left|right]); [by eapply prefix_cons_inv_2 | by apply prefix_cons].
Qed.

Lemma with_path_below_new e path t p :
  hm_get e (children t) = None ->
  below e (with_path (e :: path) t) p <-> p `prefix_of` path.
Proof.
  intros E. unfold below, with_path. simpl. rewrite E.
  split; [intros [H|H]; [done | by eapply prefix_cons_inv_2] | right; by apply prefix_cons].
Qed.

Lemma with_path_below_other e e0 path t p :
  e0 <> e -> below e0 (with_path (e :: path) t) p <-> trie_has (e0 :: p) t.
Proof.
  intros E. unfold below, with_path. split; [|by left]. intros [H|H]; [done|].
  by apply prefix_cons_inv_1 in H.
Qed.

Lemma ccf_with_child e path t c :
  trie_wf t -> hm_get e (children t) = Some c ->
  case_conflict_free (with_path (e :: path) t) <-> case_conflict_free (with_path path c).
Proof.
  intros Ht E. rewrite ccf_unfold. split.
  - intros [_ H]. eapply ccf_ext, (H e). intros p. by apply with_path_below_child.
  - intros H. split.
    + assert (forall e0, with_path (e :: path) t [e0] -> trie_has [e0] t) as Hin.
      { intros e0 [?|He%prefix_cons_inv_1]; [done|]. subst e0. simpl. by rewrite E. }
      intros e1 e2 l H1%Hin H2%Hin. by apply (trie_has_ccf [] t e1 e2 l).
    + intros e0. destruct (decide (e0 = e)) as [->|Hne].
      * eapply ccf_ext; [|exact H]. intros p. symmetry. by apply with_path_below_child.
      * intros p e1 e2 l. rewrite !with_path_below_other by done.
        by apply (trie_has_ccf (e0 :: p) t e1 e2 l).
Qed.

Lemma ccf_with_new e path t :
  trie_wf t -> hm_get e (children t) = None ->
  case_conflict_free (with_path (e :: path) t) <->
  (forall l, lower e = Some l -> l ∉ lowercase t).
Proof.
  intros Ht E. pose proof (proj1 (trie_wf_unfold t) Ht) as [[Hlc _] _]. rewrite ccf_unfold. split.
  - intros [H _] l Hl (e' & Hl' & Hs)%Hlc.
    assert (e = e') as <-.
    { eapply H; [right; apply prefix_cons, prefix_nil | left; by apply trie_has_is_Some | done | done]. }
    rewrite E in Hs. by destruct Hs.
  - intros H. split.
    + assert (forall e1 e2 l, trie_has [e1] t -> e2 = e -> lower e1 = Some l -> lower e2 = Some l -> False)
        as Hno.
      { intros e1 e2 l H1%trie_has_is_Some -> L1 L2. eapply H; [done|]. apply Hlc. eauto. }
      intros e1 e2 l [H1|H1%prefix_cons_inv_1] [H2|H2%prefix_cons_inv_1] L1 L2.
      * by apply (trie_has_ccf [] t e1 e2 l).
      * by destruct (Hno e1 e2 l).
      * by destruct (Hno e2 e1 l).
      * congruence.
    + intros e0. destruct (decide (e0 = e)) as [->|Hne].
      * eapply ccf_ext; [|apply (prefixes_ccf path)]. intros p. symmetry. by apply with_path_below_new.
      * intros p e1 e2 l. rewrite !with_path_below_other by done.
        by apply (trie_has_ccf (e0 :: p) t e1 e2 l).
Qed.

(** [add] succeeds exactly when the trie with the path stays free of
    conflicts, and then it holds the path and what it held. *)
Lemma trie_add_spec path : forall t, trie_wf t ->
  ((trie_add path t).2 = true <-> case_conflict_free (with_path path t)) /\
  ((trie_add path t).2 = true -> forall q, trie_has q (trie_add path t).1 <-> with_path path t q).
Proof.
  induction path as [|e path IH]; intros t Ht.
  { simpl. split.
    - split; [|done]. intros _ p e e' l [H1|H1] [H2|H2];
        try (apply prefix_nil_inv in H1; by destruct p); try (apply prefix_nil_inv in H2; by destruct p).
      by apply (trie_has_ccf p t).
    - intros _ q. unfold with_path. split; [by left|]. intros [?|Hq%prefix_nil_inv]; [done | by subst q]. }
  cbn [trie_add]. destruct (hm_get e (children t)) as [c|] eqn:E.
  - pose proof (proj2 (proj1 (trie_wf_unfold t) Ht) e c E) as Hc.
    destruct (IH c Hc) as [IH1 IH2]. rewrite (ccf_with_child e path t c) by done.
    destruct (trie_add path c) as [c' r]. simpl in *. split; [done|].
    intros Hr [|e0 q]; [split; [by left | done]|]. simpl. rewrite hm_get_insert.
    case_decide as E0.
    + subst e0. rewrite (IH2 Hr q). symmetry. by apply (with_path_below_child e path t c q).
    + symmetry. by apply (with_path_below_other e e0 path t q).
  - destruct (IH trie_new trie_new_wf) as [IH1 IH2]. rewrite (ccf_with_new e path t) by done.
    assert (case_conflict_free (with_path path trie_new)) as Hnew.
    { eapply ccf_ext; [|apply (prefixes_ccf path)]. intros q. unfold with_path.
      split; [by right|]. intros [H|H]; [|done]. destruct q; [apply prefix_nil | done]. }
    apply IH1 in Hnew. specialize (IH2 Hnew).
    destruct (trie_add path trie_new) as [c' r]. simpl in Hnew, IH2. subst r.
    assert (forall lc q, trie_has q (mkTrie (hm_insert e c' (children t)) lc)
                         <-> with_path (e :: path) t q) as Hhas.
    { intros lc [|e0 q]; [split; [by left | done]|]. simpl. rewrite hm_get_insert.
      case_decide as E0.
      - subst e0. rewrite IH2.
        transitivity (q `prefix_of` path); [|symmetry; by apply (with_path_below_new e path t q)].
        unfold with_path. split; [intros [H|H]; [|done] | by right]. destruct q; [apply prefix_nil | done].
      - symmetry. by apply (with_path_below_other e e0 path t q). }
    unfold lower. destruct (from_utf8 (elem e)) as [s|]; simpl.
    + case_decide as Hd; simpl; [|split; [naive_solver | intros _; apply Hhas]].
      split; [|done]. split; [done|]. intros H. by destruct (H _ eq_refl).
    + split; [naive_solver | intros _; apply Hhas].
Qed.

(** ** [check_case_conflicts] on paths *)

(** The paths of a list and their directories. *)
Definition closure (paths : list MPath) : list MPathElement -> Prop :=
  fun q => q = [] \/ exists p, p ∈ paths /\ q `prefix_of` elements p.

Lemma check_from_spec paths : forall done_ t,
  trie_wf t -> (forall q, trie_has q t <-> closure done_ q) ->
  match check_case_conflicts_from (P := MPath) t paths with
  | None => case_conflict_free (closure (done_ ++ paths))
  | Some p => exists l1 l2, paths = l1 ++ p :: l2 /\
                case_conflict_free (closure (done_ ++ l1)) /\
                ~ case_conflict_free (closure (done_ ++ l1 ++ [p]))
  end.
Proof.
  induction paths as [|p paths IH]; intros done_ t Ht Hhas.
  { simpl. rewrite app_nil_r. intros q e e' l. rewrite <- !Hhas. by apply trie_has_ccf. }
  cbn [check_case_conflicts_from]. unfold trie_apply, MPath_update.
  pose proof (trie_add_wf (elements p) t Ht) as Hwf.
  destruct (trie_add_spec (elements p) t Ht) as [Hs1 Hs2].
  assert (forall q, with_path (elements p) t q <-> closure (done_ ++ [p]) q) as Hw.
  { intros q. unfold with_path. rewrite Hhas. unfold closure.
    setoid_rewrite elem_of_app. setoid_rewrite list_elem_of_singleton. naive_solver. }
  destruct (trie_add (elements p) t) as [t' [|]]; simpl in *.
  - specialize (IH (done_ ++ [p]) t' Hwf).
    assert (forall q, trie_has q t' <-> closure (done_ ++ [p]) q) as Hhas'.
    { intros q. by rewrite <- Hw, Hs2. }
    specialize (IH Hhas').
    destruct (check_case_conflicts_from t' paths) as [p'|].
    + destruct IH as (l1 & l2 & -> & H1 & H2). exists (p :: l1), l2. split; [done|].
      rewrite <- !app_assoc in *. done.
    + by rewrite <- app_assoc in IH.
  - exists [], paths. split; [done|]. rewrite app_nil_r. split.
    + intros q e e' l. rewrite <- !Hhas. by apply trie_has_ccf.
    + intros H. assert (false = true); [|done]. apply Hs1. eapply ccf_ext; [|exact H].
      intros q. by rewrite Hw.
Qed.

(** C2. [check_case_conflicts] on a list of paths reports nothing exactly when
    no two names in the same directory differ only by case; otherwise it
    reports the first path that brings in such a pair. *)
Theorem check_case_conflicts_exact (paths : list MPath) :
  match check_case_conflicts paths with
  | None => case_conflict_free (closure paths)
  | Some p => exists l1 l2, paths = l1 ++ p :: l2 /\
                case_conflict_free (closure l1) /\ ~ case_conflict_free (closure (l1 ++ [p]))
  end.
Proof.
  apply (check_from_spec paths [] trie_new trie_new_wf).
  intros [|e q]; simpl; unfold closure; [naive_solver|]. split; [done|].
  intros [?|(p & Hp%elem_of_nil & _)]; done.
Qed.

(** ** Removal *)

(** The files of the trie: its leaves. *)
Fixpoint trie_leaf (path : list MPathElement) (t : CaseConflictTrie) : Prop :=
  match path with
  | [] => children t = []
  | e :: path => match hm_get e (children t) with Some c => trie_leaf path c | None => False end
  end.

Lemma trie_is_empty_spec t : trie_is_empty t = true <-> children t = [].
Proof. unfold trie_is_empty. destruct (children t); simpl; split; done. Qed.

Lemma trie_leaf_cons_nonempty e path t : trie_leaf (e :: path) t -> children t <> [].
Proof. simpl. by destruct (children t). Qed.

Lemma trie_remove_leaf path : forall t, path <> [] -> trie_leaf path t ->
  (trie_remove path t).2 = true /\
  forall q, q <> [] -> trie_leaf q (trie_remove path t).1 <-> trie_leaf q t /\ q <> path.
Proof.
  induction path as [|e path IH]; intros t Hne Hl; [done|]. clear Hne.
  cbn [trie_leaf trie_remove] in *. destruct (hm_get e (children t)) as [c|] eqn:E; [|done].
  destruct path as [|e' path].
  { cbn [trie_leaf] in Hl. simpl. rewrite (proj2 (trie_is_empty_spec c) Hl). simpl. split; [done|].
    intros [|e0 q] Hq; [done|]. simpl. rewrite hm_get_remove. case_decide as E0; [subst e0|naive_solver].
    rewrite E. split; [done|]. intros [Hlq Hn]. destruct q as [|e1 q]; [done|].
    by apply trie_leaf_cons_nonempty in Hlq. }
  destruct (IH c ltac:(done) Hl) as [IH1 IH2]. clear IH.
  destruct (trie_remove (e' :: path) c) as [c' r]. simpl in IH1, IH2. subst r.
  destruct (trie_is_empty c') eqn:Ee; (split; [done|]); (intros [|e0 q] Hq; [done|]); simpl.
  - apply trie_is_empty_spec in Ee. rewrite hm_get_remove.
    case_decide as E0; [subst e0; rewrite E|naive_solver]. split; [done|].
    intros [Hlq Hn]. destruct q as [|e1 q]; [by apply trie_leaf_cons_nonempty in Hl|].
    assert (trie_leaf (e1 :: q) c') as H by (apply IH2; naive_solver).
    by apply trie_leaf_cons_nonempty in H.
  - rewrite hm_get_insert. case_decide as E0; [subst e0; rewrite E|naive_solver].
    destruct q as [|e1 q]; [|rewrite IH2 by done; naive_solver].
    simpl. split.
    + intros H. by rewrite (proj2 (trie_is_empty_spec c') H) in Ee.
    + intros [H _]. by apply trie_leaf_cons_nonempty in Hl.
Qed.

(** Removing a file from the trie removes exactly that file: the other
    files stay, directories left empty do not become files, and the trie
    keeps the invariant that ties the lower-cased names of each node to its
    children, so that a later addition sees no conflict with what is gone. *)
Theorem trie_remove_exact path t :
  trie_wf t -> path <> [] -> trie_leaf path t ->
  (trie_remove path t).2 = true /\ trie_wf (trie_remove path t).1 /\
  forall q, q <> [] -> trie_leaf q (trie_remove path t).1 <-> trie_leaf q t /\ q <> path.
Proof.
  intros Ht Hne Hl. destruct (trie_remove_leaf path t Hne Hl) as [H1 H2].
  split; [done|]. split; [by apply trie_remove_wf | done].
Qed.

(** ** Changesets keep the trie in order *)

Lemma changes_update_wf changes t :
  trie_wf t -> trie_wf (apply_additions changes (apply_removals changes t)).1.
Proof.
  intros Ht. assert (trie_wf (apply_removals changes t)) as Hr.
  { revert t Ht. induction changes as [|[p c] changes IH]; intros t Ht; simpl; [done|].
    apply IH. destruct c; [done | by apply trie_remove_wf]. }
  revert Hr. generalize (apply_removals changes t). clear.
  induction changes as [|[p c] changes IH]; intros t Ht; simpl; [done|].
  destruct c; [|by apply IH]. pose proof (trie_add_wf (elements p) t Ht).
  simpl. destruct (trie_add (elements p) t) as [t' [|]]; [by apply IH | done].
Qed.

(** The trie built from any history of changesets satisfies the trie
    invariant, whatever the changesets delete and add and whether or not one
    of them stops at a conflict. *)
Theorem trie_from_changesets_wf `{Chrono} (history : list BonsaiChangeset) :
  trie_wf (trie_from_iter history).
Proof.
  unfold trie_from_iter. generalize trie_new_wf. generalize trie_new.
  induction history as [|cs history IH]; intros t Ht; simpl; [done|].
  apply IH. by apply changes_update_wf.
Qed.

Lemma trie_from_paths_wf (paths : list MPath) : trie_wf (trie_from_iter paths).
Proof.
  unfold trie_from_iter. generalize trie_new_wf. generalize trie_new.
  induction paths as [|p paths IH]; intros t Ht; simpl; [done|].
  apply IH. unfold trie_apply, MPath_update. pose proof (trie_add_wf (elements p) t Ht).
  by destruct (trie_add (elements p) t).
Qed.

End CaseConflict.

(** A trie with two files of one directory. *)
Definition ex_trie : CaseConflictTrie :=
  @trie_from_iter MPath (MPath_update (fun s => s))
    [mkMPath [mkElem (bstr "a"); mkElem (bstr "b")]; mkMPath [mkElem (bstr "a"); mkElem (bstr "c")]].

Lemma trie_remove_exact_witness :
  trie_wf (fun s => s) (trie_remove (fun s => s) [mkElem (bstr "a"); mkElem (bstr "b")] ex_trie).1.
Proof.
  refine (proj1 (proj2 (trie_remove_exact (fun s => s) _ ex_trie _ _ _))).
  - apply trie_from_paths_wf.
  - discriminate.
  - reflexivity.
Defined.
