(* ===== verification/Batch.v ===== *)
(** * Escaping of batched commands

    Model of [src/hgproto/src/batch.rs]: the escaping of argument keys, argument
    values and results of the wire protocol's [batch] command. *)

From S2P Require Import Prelude.

Inductive batch_error :=
| BatchInvalid (raw : bytes)
| BatchEscape (ch : byte).

(** What the byte after a colon stands for. *)
Definition unescape_byte (ch : byte) : outcome batch_error byte :=
  match ch with
  | x63 (* c *) => Ok x3a (* : *)
  | x6f (* o *) => Ok x2c (* , *)
  | x73 (* s *) => Ok x3b (* ; *)
  | x65 (* e *) => Ok x3d (* = *)
  | ch => Err (BatchEscape ch)
  end.

(** A piece of the input that follows a colon. *)
Definition unescape_slice (bs slice : bytes) : outcome batch_error bytes :=
  match slice with
  | [] => Err (BatchInvalid bs)
  | ch :: slice => b ← unescape_byte ch; Ok (b :: slice)
  end.

Definition unescape (bs : bytes) : outcome batch_error bytes :=
  match split_on x3a bs with
  | [] => Ok []
  | first :: slices => out ← collect (unescape_slice bs) slices; Ok (first ++ concat out)
  end.

Definition escape_byte (b : byte) : bytes :=
  match b with
  | x3a => bstr ":c"
  | x2c => bstr ":o"
  | x3b => bstr ":s"
  | x3d => bstr ":e"
  | ch => [ch]
  end.

Definition escape (res : bytes) : bytes := concat (escape_byte <$> res).

(** The bytes that delimit the parts of a batch. *)
Definition delimiter (b : byte) : bool :=
  match b with x2c | x3b | x3d => true | _ => false end.

(** ** Properties *)

Lemma escape_byte_cases b :
  (escape_byte b = [b] /\ b <> x3a /\ delimiter b = false) \/
  (exists ch, escape_byte b = [x3a; ch] /\ unescape_byte ch = Ok b /\ ch <> x3a /\
              delimiter ch = false).
Proof. destruct b; (by left) || (right; eexists; by repeat split). Qed.

Lemma unescape_byte_inv ch b : unescape_byte ch = Ok b -> escape_byte b = [x3a; ch].
Proof. destruct ch; intros H; try discriminate H; injection H as <-; reflexivity. Qed.

Lemma escape_cons b bs : escape (b :: bs) = escape_byte b ++ escape bs.
Proof. done. Qed.

Lemma escape_app xs ys : escape (xs ++ ys) = escape xs ++ escape ys.
Proof. unfold escape. by rewrite fmap_app, concat_app. Qed.

(** The pieces of an escaped string. *)
Lemma split_escape bs raw :
  exists first slices out, split_on x3a (escape bs) = first :: slices /\
    collect (unescape_slice raw) slices = Ok out /\ first ++ concat out = bs.
Proof.
  induction bs as [|b bs (first & slices & out & Hs & Hc & Ho)].
  - exists [], [], []. done.
  - rewrite escape_cons. destruct (escape_byte_cases b) as [(-> & Hb & _)|(ch & -> & Hch & Hne & _)].
    + exists (b :: first), slices, out. cbn [app split_on]. rewrite decide_False by done.
      rewrite Hs, <- Ho. done.
    + exists [], ((ch :: first) :: slices), ((b :: first) :: out). cbn [app split_on].
      rewrite decide_True, decide_False by done. rewrite Hs. split; [done|].
      cbn [collect unescape_slice]. rewrite Hch, !bind_Ok, Hc, bind_Ok.
      cbn [concat app]. by rewrite Ho.
Qed.

Lemma escape_clean bs : x3a ∉ bs -> existsb delimiter bs = false -> escape bs = bs.
Proof.
  induction bs as [|b bs IH]; [done|]. rewrite elem_of_cons. intros Hc [Hd Hds]%orb_false_iff.
  rewrite escape_cons, IH by naive_solver.
  destruct b; done || (destruct Hc; by left).
Qed.

Lemma existsb_join sep ps :
  existsb delimiter (join_with sep ps) = false -> Forall (fun p => existsb delimiter p = false) ps.
Proof.
  induction ps as [|p [|q ps] IH]; simpl; [constructor | by repeat constructor|].
  rewrite existsb_app. intros [Hp Hr]%orb_false_iff. simpl in Hr. apply orb_false_iff in Hr as [_ Hr].
  constructor; [done | by apply IH].
Qed.

Lemma escape_slices raw slices out :
  collect (unescape_slice raw) slices = Ok out ->
  Forall (fun p => x3a ∉ p) slices -> Forall (fun p => existsb delimiter p = false) slices ->
  escape (concat out) = concat ((fun s => x3a :: s) <$> slices).
Proof.
  intros Hc%collect_Ok_Forall2. induction Hc as [|s o slices out Ho _ IH]; [done|].
  intros [Hs Hss]%Forall_cons [Hd Hds]%Forall_cons. cbn [concat fmap list_fmap].
  rewrite escape_app, IH by done. f_equal. destruct s as [|ch s]; [done|].
  cbn [unescape_slice] in Ho. step_ok.
  rewrite escape_cons, (unescape_byte_inv _ _ Ha). simpl in Hd. apply orb_false_iff in Hd as [_ Hd].
  rewrite escape_clean; [done | set_solver | done].
Qed.

Lemma join_concat sep p ps : join_with sep (p :: ps) = p ++ concat ((fun s => sep :: s) <$> ps).
Proof.
  revert p. induction ps as [|q ps IH]; intros p; [by rewrite app_nil_r|].
  change (join_with sep (p :: q :: ps)) with (p ++ sep :: join_with sep (q :: ps)). by rewrite IH.
Qed.

(** Escaping for a batch is exact. Every byte string comes back from its
    escaped form, the escaped form holds none of the delimiters [,], [;] and
    [=], and it is the only string without delimiters that unescapes to it:
    whatever delimiter-free text [unescape] accepts is what [escape] would
    have written. *)
Theorem batch_escape_exact :
  (forall bs, unescape (escape bs) = Ok bs /\ existsb delimiter (escape bs) = false) /\
  (forall bs out, existsb delimiter bs = false -> unescape bs = Ok out -> escape out = bs).
Proof.
  split.
  - intros bs. split.
    + unfold unescape. destruct (split_escape bs (escape bs)) as (f & s & out & -> & -> & Ho).
      rewrite bind_Ok. by f_equal.
    + induction bs as [|b bs IH]; [done|]. rewrite escape_cons, existsb_app, IH.
      destruct (escape_byte_cases b) as [(-> & _ & Hd)|(ch & -> & _ & _ & Hd)]; simpl; by rewrite Hd.
  - intros bs out Hd. unfold unescape. rewrite <- (join_split_on x3a bs) in Hd.
    apply existsb_join in Hd. pose proof (split_on_pieces x3a bs) as Hp.
    destruct (split_on x3a bs) as [|first slices] eqn:E; [by destruct (split_on_ne x3a bs)|].
    intros H. transitivity (join_with x3a (split_on x3a bs)); [|apply join_split_on].
    rewrite E. step_ok. apply Forall_cons in Hd as [Hd1 Hd]. apply Forall_cons in Hp as [Hp1 Hp].
    rewrite escape_app, join_concat, escape_clean by naive_solver. f_equal.
    eapply escape_slices; [done| |done]. eapply Forall_impl; [done|]. naive_solver.
Qed.
