(* ===== verification/Blobstore.v ===== *)
(** * Blob stores

    Model of [src/blobstore/src/lib.rs] (the trait and its documented
    guarantees), of the store in memory ([memblob]), and of the wrappers that
    add a prefix to keys ([prefixblob]) and that keep writes in memory
    ([cacheblob/src/mem_writes.rs]). The wrapper that counts
    ([counted_blobstore.rs]) passes everything on. *)

From stdpp Require Import fin_maps.
From S2P Require Import Prelude.

(** [StillWaiting] stands for a [put] that has not ended. *)
Inductive blob_error :=
| NotFound (key : bytes)
| Failed (cause : nat)
| StillWaiting.

(** ** The trait

    [S] is the state of the store. *)

Class Blobstore (S : Type) := {
  get : bytes -> eio blob_error S (option bytes);
  put : bytes -> bytes -> eio blob_error S unit;
  is_present : bytes -> eio blob_error S bool
}.

(** The provided methods. *)
Definition default_is_present {S} (get : bytes -> eio blob_error S (option bytes)) (key : bytes) : eio blob_error S bool :=
  opt ← get key; mret (bool_decide (is_Some opt)).

Definition assert_present {S} `{!Blobstore S} (key : bytes) : eio blob_error S unit :=
  present ← is_present key;
  if present : bool then mret tt else lift (Err (NotFound key)).

(** ** The guarantees

    [holds s k v]: a [get] of [k] may give [v], which has been put there.
    [durable s k]: a [put] of [k] has completed, and a [get] does not give
    [None] any more. A store may fail at any time. *)

Record view (S : Type) := mkView {
  usable : S -> Prop;
  holds : S -> bytes -> bytes -> Prop;
  durable : S -> bytes -> Prop
}.
Arguments usable {S} _ _. Arguments holds {S} _ _ _ _. Arguments durable {S} _ _ _.

(** A state after operations that put nothing. *)
Record later {S} (V : view S) (s s' : S) : Prop := {
  later_usable : usable V s -> usable V s';
  later_holds k v : holds V s' k v -> holds V s k v;
  later_durable k : durable V s k -> durable V s' k
}.

(** A state after a [put] of [v] under [k], which may have failed. *)
Record after_put {S} (V : view S) (k v : bytes) (s s' : S) : Prop := {
  after_usable : usable V s -> usable V s';
  after_holds k' v' : holds V s' k' v' -> holds V s k' v' \/ (k' = k /\ v' = v);
  after_durable k' : durable V s k' -> durable V s' k'
}.

Class BlobstoreLaws {S} (B : Blobstore S) (V : view S) : Prop := {
  durable_holds s k : usable V s -> durable V s k -> exists v, holds V s k v;
  get_law s k s' r : usable V s -> get k s = (s', r) ->
    later V s s' /\ r <> Panic /\ (forall v, r = Ok (Some v) -> holds V s k v) /\ (r = Ok None -> ~ durable V s k);
  put_law s k v s' r : usable V s -> put k v s = (s', r) ->
    after_put V k v s s' /\ r <> Panic /\ (r = Ok tt -> durable V s' k);
  is_present_law s k s' r : usable V s -> is_present k s = (s', r) ->
    later V s s' /\ r <> Panic /\ (r = Ok true -> exists v, holds V s k v) /\ (r = Ok false -> ~ durable V s k)
}.

(** What can be read is there for good: a store that is not made of others. *)
Class ReadsDurable {S} (B : Blobstore S) (V : view S) : Prop :=
{ holds_durable s k v : usable V s -> holds V s k v -> durable V s k }.

#[export] Instance later_preorder {S} (V : view S) : PreOrder (later V).
Proof. split; [by split|]. intros s1 s2 s3 [H1 H2 H3] [J1 J2 J3]. split; auto. Qed.

Lemma later_put {S} (V : view S) k v s s' : later V s s' -> after_put V k v s s'.
Proof. intros [H1 H2 H3]. split; auto. Qed.

Lemma after_put_later {S} (V : view S) k v s1 s2 s3 : after_put V k v s1 s2 -> later V s2 s3 -> after_put V k v s1 s3.
Proof. intros [H1 H2 H3] [J1 J2 J3]. split; auto. Qed.

Lemma later_after_put {S} (V : view S) k v s1 s2 s3 : later V s1 s2 -> after_put V k v s2 s3 -> after_put V k v s1 s3.
Proof. intros [H1 H2 H3] [J1 J2 J3]. split; auto. intros k' v' [H|H]%J2; auto. Qed.

(** The provided [is_present] is lawful. *)
Lemma default_is_present_law {S} (B : Blobstore S) (V : view S)
    (get_law : forall s k s' r, usable V s -> get k s = (s', r) ->
      later V s s' /\ r <> Panic /\ (forall v, r = Ok (Some v) -> holds V s k v) /\ (r = Ok None -> ~ durable V s k)) s k s' r :
  usable V s -> default_is_present get k s = (s', r) ->
  later V s s' /\ r <> Panic /\ (r = Ok true -> exists v, holds V s k v) /\ (r = Ok false -> ~ durable V s k).
Proof.
  intros Hs. unfold default_is_present, mbind, eio_bind. destruct (get k s) as [s1 r1] eqn:E.
  destruct (get_law s k s1 r1 Hs E) as (Hl & Hp & Hv & Hn).
  destruct r1 as [[v|]|e|]; [| | |done]; intros [= <- <-]; (split; [done|]; split; [done|]; split); try done.
  - intros _. exists v. by apply Hv.
  - intros _. by apply Hn.
Qed.

(** ** What the guarantees give a client *)

Inductive op :=
| OpGet (key : bytes)
| OpPut (key value : bytes)
| OpIsPresent (key : bytes).

Section client.
Context {S : Type} {B : Blobstore S} {V : view S} {L : BlobstoreLaws B V}.

(** The state after an operation, whatever it returned. *)
Definition run_op (s : S) (o : op) : S :=
  match o with
  | OpGet k => (get k s).1
  | OpPut k v => (put k v s).1
  | OpIsPresent k => (is_present k s).1
  end.
Definition run_ops (ops : list op) (s : S) : S := foldl run_op s ops.

(** Every [put] under [k] puts [v]. *)
Definition one_value (k v : bytes) (ops : list op) : Prop := forall v', OpPut k v' ∈ ops -> v' = v.

Definition has_only (s : S) (k v : bytes) : Prop := usable V s /\ forall v', holds V s k v' -> v' = v.

Lemma later_has_only s s' k v : later V s s' -> has_only s k v -> has_only s' k v.
Proof. intros [H1 H2 H3] [Hu Hh]. split; [auto|]. intros v' Hv'. by apply Hh, H2. Qed.

Lemma put_has_only s s' k v k' v' : after_put V k' v' s s' -> (k' = k -> v' = v) -> has_only s k v -> has_only s' k v.
Proof. intros [H1 H2 H3] Hkv [Hu Hh]. split; [auto|]. intros w [Hw|[-> ->]]%H2; [by apply Hh|by apply Hkv]. Qed.

Lemma run_ops_ok k v ops : forall s, one_value k v ops -> has_only s k v ->
  has_only (run_ops ops s) k v /\ (durable V s k -> durable V (run_ops ops s) k).
Proof.
  induction ops as [|o ops IH]; intros s H1 Hs; [done|]. cbn [run_ops foldl]. fold (run_ops ops (run_op s o)).
  assert (has_only (run_op s o) k v /\ (durable V s k -> durable V (run_op s o) k)) as [Ho Hd].
  { destruct o as [k'|k' v'|k']; cbn [run_op].
    - destruct (get k' s) as [s' r] eqn:E. destruct (get_law _ _ _ _ (proj1 Hs) E) as (Hl & _).
      split; [by eapply later_has_only|]. by apply (later_durable _ _ _ Hl).
    - destruct (put k' v' s) as [s' r] eqn:E. destruct (put_law _ _ _ _ _ (proj1 Hs) E) as (Ha & _).
      split; [eapply put_has_only; [exact Ha| |done]; intros ->; apply H1; by left|]. by apply (after_durable _ _ _ _ _ Ha).
    - destruct (is_present k' s) as [s' r] eqn:E. destruct (is_present_law _ _ _ _ (proj1 Hs) E) as (Hl & _).
      split; [by eapply later_has_only|]. by apply (later_durable _ _ _ Hl). }
  destruct (IH (run_op s o)) as [I1 I2]; [intros v' Hv'; apply H1; by right|done|]. split; [done|auto].
Qed.

(** Before a [put] has completed a read gives nothing else than the value;
    afterwards it gives the value, or fails. *)
Lemma client_contract s0 k v ops1 ops2 s1 s2 r : has_only s0 k v -> one_value k v (ops1 ++ ops2) ->
  put k v (run_ops ops1 s0) = (s1, Ok tt) -> get k (run_ops ops2 s1) = (s2, r) ->
  r = Ok (Some v) \/ exists e, r = Err e.
Proof.
  intros Hs H1 Hput Hget.
  destruct (run_ops_ok k v ops1 s0) as [Ho1 _]; [intros v' H; apply H1, elem_of_app; by left|done|].
  destruct (put_law _ _ _ _ _ (proj1 Ho1) Hput) as (Ha & _ & Hd).
  destruct (run_ops_ok k v ops2 s1) as [Ho2 Hd2]; [intros v' H; apply H1, elem_of_app; by right|by eapply put_has_only|].
  destruct (get_law _ _ _ _ (proj1 Ho2) Hget) as (_ & Hp & Hv & Hn).
  destruct r as [[v'|]|e|]; [left| |right; by exists e|done].
  - by rewrite (proj2 Ho2 v' (Hv v' eq_refl)).
  - destruct (Hn eq_refl). by apply Hd2, Hd.
Qed.

Lemma client_reads s0 k v ops s r : has_only s0 k v -> one_value k v ops -> get k (run_ops ops s0) = (s, r) ->
  r = Ok (Some v) \/ r = Ok None \/ exists e, r = Err e.
Proof.
  intros Hs H1 Hget. destruct (run_ops_ok k v ops s0) as [Ho _]; [done|done|].
  destruct (get_law _ _ _ _ (proj1 Ho) Hget) as (_ & Hp & Hv & Hn).
  destruct r as [[v'|]|e|]; [left|right; by left|right; right; by exists e|done].
  by rewrite (proj2 Ho v' (Hv v' eq_refl)).
Qed.
End client.

(** ** [EagerMemblob] and [LazyMemblob] *)

Record Memblob := mkMemblob { hash : gmap bytes bytes }.

Definition Memblob_new : Memblob := mkMemblob ∅.

Definition memblob_put (key value : bytes) : eio blob_error Memblob unit := fun s =>
  (mkMemblob (<[key := value]> (hash s)), Ok tt).
Definition memblob_get (key : bytes) : eio blob_error Memblob (option bytes) := fun s => (s, Ok (hash s !! key)).

#[export] Instance Memblob_blobstore : Blobstore Memblob :=
  {| get := memblob_get; put := memblob_put; is_present := default_is_present memblob_get |}.

Definition memblob_view : view Memblob :=
  mkView _ (fun _ => True) (fun s k v => hash s !! k = Some v) (fun s k => is_Some (hash s !! k)).

Lemma memblob_get_law s k s' r : usable memblob_view s -> memblob_get k s = (s', r) ->
  later memblob_view s s' /\ r <> Panic /\ (forall v, r = Ok (Some v) -> holds memblob_view s k v) /\
  (r = Ok None -> ~ durable memblob_view s k).
Proof.
  intros _ [= <- <-]. split; [reflexivity|]. split; [done|]. split; [by intros v [= ?]|]. intros [= H]. cbn. rewrite H. by intros [? [=]].
Qed.

#[export] Instance memblob_laws : BlobstoreLaws Memblob_blobstore memblob_view.
Proof.
  split.
  - intros s k _ [v Hv]. by exists v.
  - exact memblob_get_law.
  - intros s k v s' r _ [= <- <-]. split; [|split; [done|]; intros _; cbn; rewrite lookup_insert_eq; by eexists].
    split; cbn; [done| |].
    + intros k' v' [[<- <-]|[_ ?]]%lookup_insert_Some; [by right|by left].
    + intros k' Hk. destruct (decide (k = k')) as [->|Hne]; [rewrite lookup_insert_eq; by eexists|by rewrite lookup_insert_ne].
  - intros s k s' r Hs E. by apply (default_is_present_law Memblob_blobstore memblob_view memblob_get_law s k s' r Hs).
Qed.

#[export] Instance memblob_durable : ReadsDurable Memblob_blobstore memblob_view.
Proof. split. intros s k v _ H. by exists v. Qed.

(** ** [PrefixBlobstore] *)

Section prefix.
Context {S : Type} {B : Blobstore S} (prefix : bytes).

Definition prepend (key : bytes) : bytes := prefix ++ key.

Definition PrefixBlobstore : Blobstore S :=
  {| get key := get (prepend key); put key value := put (prepend key) value;
     is_present key := is_present (prepend key) |}.

Definition prefix_view (V : view S) : view S :=
  mkView _ (usable V) (fun s k v => holds V s (prepend k) v) (fun s k => durable V s (prepend k)).

#[export] Instance prefix_laws {V : view S} {L : BlobstoreLaws B V} : BlobstoreLaws PrefixBlobstore (prefix_view V).
Proof.
  split.
  - intros s k Hs Hd. by apply (durable_holds s (prepend k)).
  - intros s k s' r Hs E. destruct (get_law (V := V) s (prepend k) s' r Hs E) as ([H1 H2 H3] & H).
    split; [|exact H]. split; cbn; auto.
  - intros s k v s' r Hs E. destruct (put_law (V := V) s (prepend k) v s' r Hs E) as ([H1 H2 H3] & H).
    split; [|exact H]. split; cbn; auto.
    intros k' v' [Hh|[Hk Hv]]%H2; [by left|right]. split; [|done]. by apply app_inv_head in Hk.
  - intros s k s' r Hs E. destruct (is_present_law (V := V) s (prepend k) s' r Hs E) as ([H1 H2 H3] & H).
    split; [|exact H]. split; cbn; auto.
Qed.

#[export] Instance prefix_durable {V : view S} {D : ReadsDurable B V} : ReadsDurable PrefixBlobstore (prefix_view V).
Proof. split. intros s k v Hs H. by apply (holds_durable s (prepend k) v). Qed.
End prefix.

(** ** [MemWritesBlobstore] *)

Section mem_writes.
Context {S : Type} {B : Blobstore S}.

Record MemWritesBlobstore := mkMemWrites { inner : S; memblob : Memblob }.

Definition MemWritesBlobstore_new (blobstore : S) : MemWritesBlobstore := mkMemWrites blobstore Memblob_new.

(** An operation of the inner store, or of the one in memory. *)
Definition on_inner {A} (f : eio blob_error S A) : eio blob_error MemWritesBlobstore A := fun s =>
  let '(i, r) := f (inner s) in (mkMemWrites i (memblob s), r).
Definition on_memblob {A} (f : eio blob_error Memblob A) : eio blob_error MemWritesBlobstore A := fun s =>
  let '(m, r) := f (memblob s) in (mkMemWrites (inner s) m, r).

Definition mem_writes_is_present (key : bytes) : eio blob_error MemWritesBlobstore bool :=
  present ← on_memblob (is_present key);
  if present : bool then mret true else on_inner (is_present key).

(** A key that is present is not written. *)
Definition mem_writes_put (key value : bytes) : eio blob_error MemWritesBlobstore unit :=
  present ← mem_writes_is_present key;
  if present : bool then mret tt else on_memblob (put key value).

Definition mem_writes_get (key : bytes) : eio blob_error MemWritesBlobstore (option bytes) :=
  val ← on_memblob (get key);
  match val with
  | Some val => mret (Some val)
  | None => on_inner (get key)
  end.

#[export] Instance MemWritesBlobstore_blobstore : Blobstore MemWritesBlobstore :=
  {| get := mem_writes_get; put := mem_writes_put; is_present := mem_writes_is_present |}.

Definition mem_writes_view (V : view S) : view MemWritesBlobstore :=
  mkView _ (fun s => usable V (inner s))
    (fun s k v => hash (memblob s) !! k = Some v \/ holds V (inner s) k v)
    (fun s k => is_Some (hash (memblob s) !! k) \/ durable V (inner s) k).

Context {V : view S} {L : BlobstoreLaws B V} {D : ReadsDurable B V}.

Lemma mem_writes_later s i : later V (inner s) i -> later (mem_writes_view V) s (mkMemWrites i (memblob s)).
Proof. intros [H1 H2 H3]. split; cbn; [auto| |]; intuition auto. Qed.

Lemma mem_writes_get_law s k s' r : usable V (inner s) -> mem_writes_get k s = (s', r) ->
  later (mem_writes_view V) s s' /\ r <> Panic /\ (forall v, r = Ok (Some v) -> holds (mem_writes_view V) s k v) /\
  (r = Ok None -> ~ durable (mem_writes_view V) s k).
Proof.
  intros Hs. unfold mem_writes_get, mbind, eio_bind, on_memblob. cbn. destruct (hash (memblob s) !! k) as [v|] eqn:E.
  - intros [= <- <-]. destruct s as [i m]. split; [reflexivity|]. split; [done|]. split; [|done]. intros v' [= <-]. by left.
  - unfold on_inner. cbn. destruct (get k (inner s)) as [i r'] eqn:Eg. intros [= <- <-].
    destruct (get_law _ _ _ _ Hs Eg) as (Hl & Hp & Hv & Hn). split; [by apply mem_writes_later|]. split; [done|].
    split; [intros v Hr; right; by apply Hv|]. intros Hr [[? H]|H]; [congruence|by apply (Hn Hr)].
Qed.

Lemma mem_writes_present k s : mem_writes_is_present k s =
  if bool_decide (is_Some (hash (memblob s) !! k)) then (s, Ok true) else on_inner (is_present k) s.
Proof.
  destruct s as [i m]. unfold mem_writes_is_present, on_memblob. cbn [is_present Memblob_blobstore].
  unfold default_is_present, mbind, eio_bind, memblob_get. cbn. by destruct (hash m !! k).
Qed.

Lemma mem_writes_is_present_law s k s' r : usable V (inner s) -> mem_writes_is_present k s = (s', r) ->
  later (mem_writes_view V) s s' /\ memblob s' = memblob s /\ r <> Panic /\
  (r = Ok true -> exists v, holds (mem_writes_view V) s k v) /\
  (r = Ok false -> ~ durable (mem_writes_view V) s k).
Proof.
  intros Hs. rewrite mem_writes_present. case_bool_decide as E.
  - intros [= <- <-]. split; [reflexivity|]. split; [done|]. split; [done|]. split; [|done]. intros _. destruct E as [v E]. exists v. by left.
  - unfold on_inner. cbn. destruct (is_present k (inner s)) as [i r'] eqn:Eg. intros [= <- <-].
    destruct (is_present_law _ _ _ _ Hs Eg) as (Hl & Hp & Hv & Hn). split; [by apply mem_writes_later|]. split; [done|]. split; [done|].
    split; [intros Hr; destruct (Hv Hr) as [v H]; exists v; by right|]. intros Hr [H|H]; [done|by apply (Hn Hr)].
Qed.

Lemma mem_writes_put_law s k v s' r : usable V (inner s) -> mem_writes_put k v s = (s', r) ->
  after_put (mem_writes_view V) k v s s' /\ r <> Panic /\ (r = Ok tt -> durable (mem_writes_view V) s' k).
Proof.
  intros Hs. unfold mem_writes_put, mbind, eio_bind. destruct (mem_writes_is_present k s) as [s1 r1] eqn:E.
  destruct (mem_writes_is_present_law s k s1 r1 Hs E) as (Hl & Em & Hp & Ht & _).
  destruct r1 as [[]|e|]; [| | |done].
  - intros [= <- <-]. split; [by apply later_put|]. split; [done|]. intros _. apply Hl.
    destruct (Ht eq_refl) as [w [Hw|Hw]]; [left; by exists w|right]. by apply (holds_durable _ _ w).
  - intros [= <- <-]. split; [|split; [done|]; intros _; left; cbn; rewrite lookup_insert_eq; by eexists].
    eapply later_after_put; [exact Hl|]. split; cbn; [done| |].
    + intros k' v' [[[<- <-]|[_ ?]]%lookup_insert_Some|?]; [by right|left; by left|left; by right].
    + intros k' [Hk|?]; [left|by right]. destruct (decide (k = k')) as [->|Hne]; [rewrite lookup_insert_eq; by eexists|by rewrite lookup_insert_ne].
  - intros [= <- <-]. split; [by apply later_put|done].
Qed.

#[export] Instance mem_writes_laws : BlobstoreLaws MemWritesBlobstore_blobstore (mem_writes_view V).
Proof.
  split.
  - intros s k Hs [[v Hv]|H]; [exists v; by left|]. destruct (durable_holds (V := V) (inner s) k Hs H) as [v Hv]. exists v. by right.
  - exact mem_writes_get_law.
  - exact mem_writes_put_law.
  - intros s k s' r Hs E. by destruct (mem_writes_is_present_law s k s' r Hs E) as (H & _ & H').
Qed.

#[export] Instance mem_writes_durable : ReadsDurable MemWritesBlobstore_blobstore (mem_writes_view V).
Proof. split. intros s k v Hs [Hv|Hv]; [left; by exists v|right; by apply (holds_durable _ _ v)]. Qed.

(** The inner store is never written. *)
Lemma mem_writes_inner key value s s' r : mem_writes_put key value s = (s', r) -> usable V (inner s) ->
  later V (inner s) (inner s').
Proof.
  intros E Hs. unfold mem_writes_put, mbind, eio_bind in E. rewrite mem_writes_present in E.
  case_bool_decide; [injection E as <- _; reflexivity|]. unfold on_inner, on_memblob in E.
  destruct (is_present key (inner s)) as [i [[]|e|]] eqn:Ei; injection E as <- _; cbn;
    by destruct (is_present_law _ _ _ _ Hs Ei) as [H' _].
Qed.
End mem_writes.
Arguments MemWritesBlobstore S : clear implicits.
