(* ===== verification/CacheBlobstore.v ===== *)
(** * Caches in front of blob stores

    Model of [src/blobstore/cacheblob/src/locking_cache.rs]: the operations of
    a cache and of leases, and [CacheBlobstore]; with the caches and leases of
    [cachelib_cache.rs], [in_process_lease.rs] and [dummy.rs]. *)

From stdpp Require Import fin_maps.
From S2P Require Import Prelude Blobstore.

(** ** What a cache and a lease offer *)

Class CacheOps (C : Type) := {
  cache_get : bytes -> eio unit C (option bytes);
  cache_put : bytes -> bytes -> eio unit C unit;
  check_present : bytes -> eio unit C bool
}.

Class LeaseOps (L : Type) := {
  try_add_put_lease : bytes -> eio unit L bool;
  wait_for_other_leases : bytes -> eio unit L unit;
  release_lease : bytes -> bool -> eio unit L unit
}.

(** [known c k v] and [present c k] are the states Known and Present of the
    documentation; an entry may be demoted by any operation. *)
Record cache_view (C : Type) := mkCacheView { known : C -> bytes -> bytes -> Prop; present : C -> bytes -> Prop }.
Arguments known {C} _ _ _ _. Arguments present {C} _ _ _.

Definition demoted {C} (V : cache_view C) (c c' : C) : Prop :=
  (forall k v, known V c' k v -> known V c k v) /\ (forall k, present V c' k -> present V c k).

Class CacheLaws {C} (O : CacheOps C) (V : cache_view C) : Prop := {
  cache_get_law c k c' r : cache_get k c = (c', r) ->
    demoted V c c' /\ r <> Panic /\ forall v, r = Ok (Some v) -> known V c k v;
  check_present_law c k c' r : check_present k c = (c', r) ->
    demoted V c c' /\ r <> Panic /\ (r = Ok true -> present V c k);
  cache_put_law c k v c' r : cache_put k v c = (c', r) ->
    r <> Panic /\
    (forall k' v', known V c' k' v' -> known V c k' v' \/ (k' = k /\ v' = v)) /\
    (forall k', present V c' k' -> present V c k' \/ k' = k)
}.

Class LeaseLaws {L} (O : LeaseOps L) : Prop := {
  try_lease_law l k : (try_add_put_lease k l).2 <> Panic;
  wait_lease_law l k : (wait_for_other_leases k l).2 <> Panic;
  release_lease_law l k b : (release_lease k b l).2 <> Panic
}.

(** ** [CacheBlobstore] *)

Section cache.
Context {S C L : Type} {B : Blobstore S} {CO : CacheOps C} {LO : LeaseOps L}.

Record CacheBlobstore := mkCacheBlob { blobstore : S; cache : C; lease : L }.

Definition on_blobstore {A} (f : eio blob_error S A) : eio blob_error CacheBlobstore A := fun s =>
  let '(b, r) := f (blobstore s) in (mkCacheBlob b (cache s) (lease s), r).

(** Errors of the cache and of the leases are ignored. *)
Definition on_cache {A} (f : eio unit C A) (otherwise : A) : eio blob_error CacheBlobstore A := fun s =>
  let '(c, r) := f (cache s) in
  (mkCacheBlob (blobstore s) c (lease s), match r with Ok a => Ok a | Err _ => Ok otherwise | Panic => Panic end).
Definition on_lease {A} (f : eio unit L A) (otherwise : A) : eio blob_error CacheBlobstore A := fun s =>
  let '(l, r) := f (lease s) in
  (mkCacheBlob (blobstore s) (cache s) l, match r with Ok a => Ok a | Err _ => Ok otherwise | Panic => Panic end).

(** [n] bounds the number of attempts. *)
Fixpoint take_put_lease (n : nat) (key : bytes) : eio blob_error CacheBlobstore bool :=
  match n with
  | 0 => lift (Err StillWaiting)
  | Datatypes.S n =>
      leased ← on_lease (try_add_put_lease key) false;
      if leased : bool then mret true
      else
        present ← on_cache (check_present key) false;
        if present : bool then mret false
        else _ ← on_lease (wait_for_other_leases key) tt; take_put_lease n key
  end.

(** [put_closure]: what is found is put in the cache. *)
Definition cache_fill (key : bytes) (value : option bytes) : eio blob_error CacheBlobstore unit :=
  match value with
  | Some value => on_cache (cache_put key value) tt
  | None => mret tt
  end.

Definition cacheblob_get (key : bytes) : eio blob_error CacheBlobstore (option bytes) :=
  blob ← on_cache (cache_get key) None;
  match blob with
  | Some blob => mret (Some blob)
  | None => value ← on_blobstore (get key); _ ← cache_fill key value; mret value
  end.

(** With the lease: it is released whether the store took the value or not. *)
Definition put_leased (key value : bytes) : eio blob_error CacheBlobstore unit := fun s =>
  match on_blobstore (put key value) s with
  | (s, Ok _) => (_ ← on_cache (cache_put key value) tt; on_lease (release_lease key true) tt) s
  | (s, Err e) => (_ ← on_lease (release_lease key false) tt; lift (Err e)) s
  | (s, Panic) => (s, Panic)
  end.

Definition cacheblob_put (n : nat) (key value : bytes) : eio blob_error CacheBlobstore unit :=
  can_put ← take_put_lease n key;
  if can_put : bool then put_leased key value else mret tt.

Definition cacheblob_is_present (key : bytes) : eio blob_error CacheBlobstore bool :=
  present ← on_cache (check_present key) false;
  if present : bool then mret true else on_blobstore (is_present key).

Definition CacheBlobstore_blobstore (n : nat) : Blobstore CacheBlobstore :=
  {| get := cacheblob_get; put := cacheblob_put n; is_present := cacheblob_is_present |}.

Definition get_no_cache_fill (key : bytes) : eio blob_error CacheBlobstore (option bytes) :=
  blob ← on_cache (cache_get key) None;
  match blob with
  | Some blob => mret (Some blob)
  | None => on_blobstore (get key)
  end.

Definition get_cache_only (key : bytes) : eio blob_error CacheBlobstore (option bytes) := on_cache (cache_get key) None.
End cache.
Arguments CacheBlobstore S C L : clear implicits.

(** ** Caches and leases *)

Record InProcessLease := mkLease { leases : gset bytes }.
Definition InProcessLease_new : InProcessLease := mkLease ∅.

#[export] Instance InProcessLease_ops : LeaseOps InProcessLease :=
  {| try_add_put_lease key l :=
       if decide (key ∈ leases l) then (l, Ok false) else (mkLease ({[key]} ∪ leases l), Ok true);
     wait_for_other_leases key l := (l, Ok tt);
     release_lease key put_success l := (mkLease (leases l ∖ {[key]}), Ok tt) |}.

#[export] Instance DummyLease_ops : LeaseOps unit :=
  {| try_add_put_lease key l := (l, Ok true);
     wait_for_other_leases key l := (l, Ok tt);
     release_lease key put_success l := (l, Ok tt) |}.

#[export] Instance DummyCache_ops : CacheOps unit :=
  {| cache_get key c := (c, Ok None); cache_put key value c := (c, Ok tt); check_present key c := (c, Ok false) |}.

(** A pool of [cachelib]: a read gives what was set under the key, or nothing. *)
Class LruCachePool (P : Type) := {
  pool_get : P -> bytes -> outcome unit (option bytes);
  pool_set : P -> bytes -> bytes -> P * outcome unit bool
}.

Class LruCachePoolLaws {P} (O : LruCachePool P) (held : P -> bytes -> bytes -> Prop) : Prop := {
  pool_get_law p k r : pool_get p k = r -> r <> Panic /\ forall v, r = Ok (Some v) -> held p k v;
  pool_set_law p k v p' r : pool_set p k v = (p', r) ->
    r <> Panic /\ forall k' v', held p' k' v' -> held p k' v' \/ (k' = k /\ v' = v)
}.

Section cachelib.
Context {P : Type} {O : LruCachePool P}.

Record CachelibOps := mkCachelib { blob_pool : P; presence_pool : P }.

Definition cachelib_put (key value : bytes) : eio unit CachelibOps unit := fun c =>
  let presence_pool := (pool_set (presence_pool c) key (bstr "P")).1 in
  let '(blob_pool, r) := pool_set (blob_pool c) key value in
  (mkCachelib blob_pool presence_pool, match r with Ok _ => Ok tt | Err e => Err e | Panic => Panic end).

Definition is_held (r : outcome unit (option bytes)) : bool :=
  match r with Ok (Some _) => true | _ => false end.

Definition cachelib_check_present (key : bytes) : eio unit CachelibOps bool := fun c =>
  (c, Ok (is_held (pool_get (presence_pool c) key) || is_held (pool_get (blob_pool c) key))).

#[export] Instance CachelibOps_ops : CacheOps CachelibOps :=
  {| cache_get key c := (c, pool_get (blob_pool c) key);
     cache_put := cachelib_put; check_present := cachelib_check_present |}.

Context {held : P -> bytes -> bytes -> Prop} {PL : LruCachePoolLaws O held}.

Definition cachelib_view : cache_view CachelibOps :=
  mkCacheView _ (fun c k v => held (blob_pool c) k v)
    (fun c k => exists v, held (presence_pool c) k v \/ held (blob_pool c) k v).

#[export] Instance cachelib_laws : CacheLaws CachelibOps_ops cachelib_view.
Proof.
  split.
  - intros c k c' r [= <- <-]. destruct (pool_get_law (blob_pool c) k _ eq_refl) as [Hp Hv]. by split_and!.
  - intros c k c' r [= <- <-]. split; [by split|]. split; [done|]. intros [= H%orb_true_iff]. cbn.
    destruct H as [H|H]; unfold is_held in H.
    + destruct (pool_get (presence_pool c) k) as [[v|]| |] eqn:E; [|done..]. exists v. left.
      by destruct (pool_get_law _ _ _ E) as [_ Hv]; apply Hv.
    + destruct (pool_get (blob_pool c) k) as [[v|]| |] eqn:E; [|done..]. exists v. right.
      by destruct (pool_get_law _ _ _ E) as [_ Hv]; apply Hv.
  - intros c k v c' r. cbn. unfold cachelib_put. destruct (pool_set (presence_pool c) k (bstr "P")) as [pp rp] eqn:Ep.
    destruct (pool_set (blob_pool c) k v) as [bp rb] eqn:Eb. intros [= <- <-].
    destruct (pool_set_law _ _ _ _ _ Ep) as [_ Hp]. destruct (pool_set_law _ _ _ _ _ Eb) as [Hr Hb]. cbn.
    split; [by destruct rb|]. split; [exact Hb|]. intros k' [w [H|H]].
    + destruct (Hp _ _ H) as [?|[-> _]]; [left; exists w; by left|by right].
    + destruct (Hb _ _ H) as [?|[-> _]]; [left; exists w; by right|by right].
Qed.
End cachelib.
Arguments CachelibOps P : clear implicits.

#[export] Instance dummy_cache_laws : CacheLaws DummyCache_ops (mkCacheView _ (fun _ _ _ => False) (fun _ _ => False)).
Proof.
  split.
  - intros c k c' r [= <- <-]. by split_and!.
  - intros c k c' r [= <- <-]. by split_and!.
  - intros c k v c' r [= <- <-]. by split_and!.
Qed.

#[export] Instance in_process_laws : LeaseLaws InProcessLease_ops.
Proof. split; cbn; [|done|done]. intros l k. by case_decide. Qed.

#[export] Instance dummy_lease_laws : LeaseLaws DummyLease_ops.
Proof. by split. Qed.

(** ** A cached store keeps the guarantees *)

Section laws.
Context {S C L : Type} {B : Blobstore S} {CO : CacheOps C} {LO : LeaseOps L} {V : view S} {CV : cache_view C}
  {BL : BlobstoreLaws B V} {D : ReadsDurable B V} {CL : CacheLaws CO CV} {LL : LeaseLaws LO}.

Abbreviation state := (CacheBlobstore S C L).

(** What the cache knows is in the store for good. *)
Definition cacheblob_view : view state :=
  mkView _ (fun s => usable V (blobstore s) /\
              forall k, (exists v, known CV (cache s) k v) \/ present CV (cache s) k -> durable V (blobstore s) k)
    (fun s k v => holds V (blobstore s) k v \/ known CV (cache s) k v)
    (fun s k => durable V (blobstore s) k).

Lemma later_parts (s s' : state) : later V (blobstore s) (blobstore s') -> demoted CV (cache s) (cache s') ->
  later cacheblob_view s s'.
Proof.
  intros [H1 H2 H3] [D1 D2]. split; cbn.
  - intros [Hu Hk]. split; [auto|]. intros k [[v Hv]|Hp]; apply H3, Hk; [left; exists v; auto|right; auto].
  - intros k v [?|?]; auto.
  - auto.
Qed.

(** An operation of the cache that puts nothing. *)
Lemma on_cache_later {A} (f : eio unit C A) d (s s' : state) r :
  (forall c' r', f (cache s) = (c', r') -> demoted CV (cache s) c' /\ r' <> Panic) ->
  on_cache f d s = (s', r) -> later cacheblob_view s s' /\ exists a, r = Ok a.
Proof.
  intros Hf. unfold on_cache. destruct (f (cache s)) as [c r'] eqn:E. destruct (Hf c r' eq_refl) as [Hd Hp].
  intros [= <- <-]. split; [by apply later_parts|]. destruct r'; [by eexists|by eexists|done].
Qed.

Lemma on_lease_later {A} (f : eio unit L A) d (s s' : state) r : (f (lease s)).2 <> Panic ->
  on_lease f d s = (s', r) -> later cacheblob_view s s' /\ blobstore s' = blobstore s /\ cache s' = cache s /\ exists a, r = Ok a.
Proof.
  unfold on_lease. destruct (f (lease s)) as [l r'] eqn:E. cbn. intros Hp [= <- <-].
  split; [by apply later_parts|]. split; [done|]. split; [done|]. destruct r'; [by eexists|by eexists|done].
Qed.

Lemma check_present_later k d (s s' : state) r : on_cache (check_present k) d s = (s', r) -> d = false ->
  later cacheblob_view s s' /\ exists b, r = Ok b /\ (b = true -> present CV (cache s) k).
Proof.
  unfold on_cache. destruct (check_present k (cache s)) as [c r'] eqn:E.
  destruct (check_present_law _ _ _ _ E) as (Hd & Hp & Hb). intros [= <- <-] ->.
  split; [by apply later_parts|]. destruct r' as [b|e|]; [|by exists false|done]. exists b. split; [done|].
  intros ->. by apply Hb.
Qed.

Lemma cache_get_later k (s s' : state) r : on_cache (cache_get k) None s = (s', r) ->
  later cacheblob_view s s' /\ exists o, r = Ok o /\ forall v, o = Some v -> known CV (cache s) k v.
Proof.
  unfold on_cache. destruct (cache_get k (cache s)) as [c r'] eqn:E.
  destruct (cache_get_law _ _ _ _ E) as (Hd & Hp & Hv). intros [= <- <-].
  split; [by apply later_parts|]. destruct r' as [o|e|]; [|by exists None|done]. exists o. split; [done|].
  intros v ->. by apply Hv.
Qed.

Lemma take_put_lease_later n k : forall (s s' : state) r, usable cacheblob_view s -> take_put_lease n k s = (s', r) ->
  later cacheblob_view s s' /\ r <> Panic /\ (r = Ok false -> durable cacheblob_view s' k).
Proof.
  induction n as [|n IH]; intros s s' r Hu; cbn [take_put_lease]; unfold mbind, eio_bind.
  { intros [= <- <-]. split; [reflexivity|done]. }
  destruct (on_lease (try_add_put_lease k) false s) as [s1 r1] eqn:E1.
  destruct (on_lease_later _ _ _ _ _ (try_lease_law _ _) E1) as (Hl1 & _ & _ & [b1 ->]).
  destruct b1; [intros [= <- <-]; by split|].
  destruct (on_cache (check_present k) false s1) as [s2 r2] eqn:E2.
  destruct (check_present_later _ _ _ _ _ E2 eq_refl) as (Hl2 & b2 & -> & Hb2).
  pose proof (later_usable _ _ _ Hl1 Hu) as Hu1. destruct b2.
  { intros [= <- <-]. split; [by etransitivity|]. split; [done|]. intros _. apply (later_durable _ _ _ Hl2), (proj2 Hu1). right. by apply Hb2. }
  destruct (on_lease (wait_for_other_leases k) tt s2) as [s3 r3] eqn:E3.
  destruct (on_lease_later _ _ _ _ _ (wait_lease_law _ _) E3) as (Hl3 & _ & _ & [b3 ->]).
  assert (later cacheblob_view s s3) as Hl by (etransitivity; [exact Hl1|by etransitivity]).
  intros E. destruct (IH s3 s' r (later_usable _ _ _ Hl Hu) E) as (Hl4 & Hp & Hd). split; [by etransitivity|done].
Qed.

(** Filling the cache with what the store holds. *)
Lemma cache_fill_put k v (s s' : state) r : usable cacheblob_view s -> durable V (blobstore s) k ->
  on_cache (cache_put k v) tt s = (s', r) ->
  after_put cacheblob_view k v s s' /\ r = Ok tt /\ blobstore s' = blobstore s.
Proof.
  unfold on_cache. intros [Hu Hk] Hd. destruct (cache_put k v (cache s)) as [c r'] eqn:E.
  destruct (cache_put_law _ _ _ _ _ E) as (Hp & Hkn & Hpr). intros [= <- <-]. split.
  - split; cbn; [| |done].
    + intros _. split; [done|]. intros k' [[w Hw]|Hw].
      * destruct (Hkn _ _ Hw) as [H|[-> _]]; [apply Hk; left; by exists w|done].
      * destruct (Hpr _ Hw) as [H| ->]; [apply Hk; by right|done].
    + intros k' v' [H|H]; [by left; left|]. destruct (Hkn _ _ H) as [?|?]; [left; by right|by right].
  - destruct r' as [[]|[]|]; done.
Qed.

Lemma cacheblob_get_law s k s' r : usable cacheblob_view s -> cacheblob_get k s = (s', r) ->
  later cacheblob_view s s' /\ r <> Panic /\ (forall v, r = Ok (Some v) -> holds cacheblob_view s k v) /\
  (r = Ok None -> ~ durable cacheblob_view s k).
Proof.
  intros Hu. unfold cacheblob_get, mbind, eio_bind. destruct (on_cache (cache_get k) None s) as [s1 r1] eqn:E1.
  destruct (cache_get_later _ _ _ _ E1) as (Hl1 & o & -> & Ho). destruct o as [w|].
  { intros [= <- <-]. split; [done|]. split; [done|]. split; [|done]. intros v [= <-]. right. by apply Ho. }
  unfold on_blobstore. destruct (get k (blobstore s1)) as [b r2] eqn:E2. pose proof (later_usable _ _ _ Hl1 Hu) as Hu1.
  destruct (get_law _ _ _ _ (proj1 Hu1) E2) as (Hl2 & Hp & Hv & Hn).
  assert (later cacheblob_view s1 (mkCacheBlob b (cache s1) (lease s1))) as Hl3 by by apply later_parts.
  assert (later cacheblob_view s (mkCacheBlob b (cache s1) (lease s1))) as Hl4 by by etransitivity.
  destruct r2 as [[v|]|e|]; [| | |done].
  - cbn [cache_fill]. destruct (on_cache (cache_put k v) tt _) as [s3 r3] eqn:E3. specialize (Hv v eq_refl).
    assert (durable V b k) as Hd by (apply (later_durable _ _ _ Hl2), (holds_durable _ _ v (proj1 Hu1)), Hv).
    destruct (cache_fill_put _ _ _ _ _ (later_usable _ _ _ Hl4 Hu) Hd E3) as ([A1 A2 A3] & -> & _).
    intros [= <- <-]. split; [|split; [done|]; split; [|done]].
    + split; [intros _; apply A1, (later_usable _ _ _ Hl4 Hu)| |intros k' Hk; apply A3, (later_durable _ _ _ Hl4 k' Hk)].
      intros k' v' [H|[-> ->]]%A2; [exact (later_holds _ _ _ Hl4 k' v' H)|]. apply (later_holds _ _ _ Hl1). by left.
    + intros v' [= <-]. apply (later_holds _ _ _ Hl1). by left.
  - cbn [cache_fill]. intros [= <- <-]. split; [done|]. split; [done|]. split; [done|]. intros _ H. apply (Hn eq_refl). exact (later_durable _ _ _ Hl1 k H).
  - intros [= <- <-]. done.
Qed.

Lemma cacheblob_put_law n s k v s' r : usable cacheblob_view s -> cacheblob_put n k v s = (s', r) ->
  after_put cacheblob_view k v s s' /\ r <> Panic /\ (r = Ok tt -> durable cacheblob_view s' k).
Proof.
  intros Hu. unfold cacheblob_put, mbind, eio_bind. destruct (take_put_lease n k s) as [s1 r1] eqn:E1.
  destruct (take_put_lease_later _ _ _ _ _ Hu E1) as (Hl1 & Hp1 & Hf). pose proof (later_usable _ _ _ Hl1 Hu) as Hu1.
  destruct r1 as [[]|e|]; [| | |done].
  2:{ intros [= <- <-]. split; [by apply later_put|]. split; [done|]. intros _. by apply Hf. }
  2:{ intros [= <- <-]. split; [by apply later_put|done]. }
  unfold put_leased, on_blobstore. destruct (put k v (blobstore s1)) as [b r2] eqn:E2.
  destruct (put_law _ _ _ _ _ (proj1 Hu1) E2) as ([P1 P2 P3] & Hp2 & Hd2).
  set (s2 := mkCacheBlob b (cache s1) (lease s1)).
  assert (after_put cacheblob_view k v s s2) as Ha2.
  { eapply later_after_put; [exact Hl1|]. split; cbn; [|intros k' v' [[?|?]%P2|?]; auto|auto].
    intros [Hub Hkb]. split; [auto|]. intros k' H. by apply P3, Hkb. }
  destruct r2 as [[]|e|]; [| |done]; unfold mbind, eio_bind.
  - destruct (on_cache (cache_put k v) tt s2) as [s3 r3] eqn:E3.
    destruct (cache_fill_put _ _ _ _ _ (after_usable _ _ _ _ _ Ha2 Hu) (Hd2 eq_refl) E3) as ([A1 A2 A3] & -> & Eb).
    destruct (on_lease (release_lease k true) tt s3) as [s4 r4] eqn:E4.
    destruct (on_lease_later _ _ _ _ _ (release_lease_law _ _ _) E4) as (Hl4 & Eb4 & _ & [[] ->]).
    intros [= <- <-]. split; [|split; [done|]; intros _; cbn; rewrite Eb4, Eb; by apply Hd2].
    apply (after_put_later _ _ _ _ s3); [|done]. destruct Ha2 as [Q1 Q2 Q3]. split; [auto| |auto].
    intros k' v' [[?|?]%Q2|?]%A2; auto.
  - destruct (on_lease (release_lease k false) tt s2) as [s3 r3] eqn:E3.
    destruct (on_lease_later _ _ _ _ _ (release_lease_law _ _ _) E3) as (Hl3 & _ & _ & [[] ->]).
    intros [= <- <-]. split; [by eapply after_put_later|done].
Qed.

#[export] Instance cacheblob_laws n : BlobstoreLaws (CacheBlobstore_blobstore n) cacheblob_view.
Proof.
  split.
  - intros s k [Hu _] Hd. destruct (durable_holds (V := V) _ _ Hu Hd) as [v Hv]. exists v. by left.
  - exact cacheblob_get_law.
  - exact (cacheblob_put_law n).
  - intros s k s' r Hu. cbn [is_present CacheBlobstore_blobstore]. unfold cacheblob_is_present, mbind, eio_bind.
    destruct (on_cache (check_present k) false s) as [s1 r1] eqn:E1.
    destruct (check_present_later _ _ _ _ _ E1 eq_refl) as (Hl1 & b & -> & Hb). pose proof (later_usable _ _ _ Hl1 Hu) as Hu1.
    destruct b.
    + intros [= <- <-]. split; [done|]. split; [done|]. split; [|done]. intros _.
      destruct (durable_holds (V := V) (blobstore s) k (proj1 Hu)) as [v Hv]; [|exists v; by left]. apply Hu. right. by apply Hb.
    + unfold on_blobstore. destruct (is_present k (blobstore s1)) as [i r2] eqn:E2. intros [= <- <-].
      destruct (is_present_law _ _ _ _ (proj1 Hu1) E2) as (Hl2 & Hp & Ht & Hn).
      split; [etransitivity; [exact Hl1|by apply later_parts]|]. split; [done|]. split.
      * intros Hr. destruct (Ht Hr) as [v Hv]. exists v. apply (later_holds _ _ _ Hl1). by left.
      * intros Hr H. apply (Hn Hr). exact (later_durable _ _ _ Hl1 k H).
Qed.

#[export] Instance cacheblob_durable n : ReadsDurable (CacheBlobstore_blobstore n) cacheblob_view.
Proof.
  split. intros s k v [Hu Hk] [H|H]; [by apply (holds_durable _ _ v Hu)|]. apply Hk. left. by exists v.
Qed.

(** C26. A store behind a cache keeps the documented guarantees of a blob
    store, whatever the cache forgets and however it and the leases fail, if
    what can be read of the store stays there ([ReadsDurable], which a store
    made of several may not give) and if all that is put under the key is one
    value: once a [put] has completed a [get] gives the value that was put, or
    fails, also when the [put] did not reach the store because the cache knew
    the key; and no operation makes a read give another value. Operations run
    one after the other. *)
Theorem cacheblob_contract n s0 k v ops1 ops2 s1 : let B := CacheBlobstore_blobstore n in
  has_only (V := cacheblob_view) s0 k v -> one_value k v (ops1 ++ ops2) ->
  (forall s r, get k (run_ops (B := B) ops1 s0) = (s, r) -> r = Ok (Some v) \/ r = Ok None \/ exists e, r = Err e) /\
  (put k v (run_ops (B := B) ops1 s0) = (s1, Ok tt) ->
   forall s2 r, get k (run_ops (B := B) ops2 s1) = (s2, r) -> r = Ok (Some v) \/ exists e, r = Err e).
Proof.
  intros B0 Hs H1. split.
  - intros s r. apply (client_reads (L := cacheblob_laws n) s0 k v ops1 s r); [done|].
    intros v' Hv'. apply H1, elem_of_app. by left.
  - intros Hput s2 r. by apply (client_contract (L := cacheblob_laws n) s0 k v ops1 ops2).
Qed.
End laws.

(** With leases in the process a [put] of a key that nobody else is putting
    ends, and leaves the leases as they were. *)
Lemma in_process_put_ends {S C} {B : Blobstore S} {CO : CacheOps C} n k v (s : CacheBlobstore S C InProcessLease) :
  k ∉ leases (lease s) ->
  let '(s', r) := cacheblob_put (Datatypes.S n) k v s in
  r <> Panic -> leases (lease s') = leases (lease s) /\
  exists b, put k v (blobstore s) = (blobstore s', b) /\ (b = Ok tt <-> r = Ok tt).
Proof.
  intros Hk. unfold cacheblob_put, take_put_lease, mbind, eio_bind, on_lease at 1. cbn [try_add_put_lease InProcessLease_ops].
  rewrite decide_False by done. cbn. unfold put_leased, on_blobstore. cbn [blobstore cache lease].
  assert (({[k]} ∪ leases (lease s)) ∖ {[k]} = leases (lease s)) as Hl by set_solver.
  destruct (put k v (blobstore s)) as [b [[]|e|]]; unfold mbind, eio_bind, on_cache, on_lease; cbn.
  - destruct (cache_put k v (cache s)) as [c [u|u|]]; cbn; [| |done]; intros _; (split; [exact Hl|]); by exists (Ok tt).
  - intros _. split; [exact Hl|]. by exists (Err e).
  - done.
Qed.

(** ** Example *)

Module CacheExample.
#[local] Instance map_pool : LruCachePool (gmap bytes bytes) :=
  {| pool_get p k := Ok (p !! k); pool_set p k v := (<[k := v]> p, Ok true) |}.
#[local] Instance map_pool_laws : LruCachePoolLaws map_pool (fun p k v => p !! k = Some v).
Proof.
  split.
  - intros p k r <-. split; [done|]. by intros v [= ?].
  - intros p k v p' r [= <- <-]. split; [done|]. intros k' v' [[<- <-]|[_ ?]]%lookup_insert_Some; [by right|by left].
Qed.

Definition stack : Type := CacheBlobstore (MemWritesBlobstore Memblob) (CachelibOps (gmap bytes bytes)) InProcessLease.
Definition empty : stack :=
  mkCacheBlob (MemWritesBlobstore_new Memblob_new) (mkCachelib ∅ ∅) InProcessLease_new.

(** The cache loses what it had. *)
Definition forget (s : stack) : stack := mkCacheBlob (blobstore s) (mkCachelib ∅ ∅) (lease s).

Lemma empty_has_only k v :
  has_only (V := cacheblob_view (V := mem_writes_view memblob_view) (CV := cachelib_view (held := fun p k v => p !! k = Some v))) empty k v.
Proof.
  split; [split; [done|]|].
  - intros k' [[v' H]|[v' [H|H]]]; change ((∅ : gmap bytes bytes) !! k' = Some v') in H; by rewrite lookup_empty in H.
  - intros v' [[H|H]|H]; change ((∅ : gmap bytes bytes) !! k = Some v') in H; by rewrite lookup_empty in H.
Qed.

Definition k1 : bytes := bstr "key".
Definition v1 : bytes := bstr "value".
Definition after : stack := (put (Blobstore := CacheBlobstore_blobstore 1) k1 v1 empty).1.
End CacheExample.

Lemma cacheblob_contract_witness :
  let r := (get (Blobstore := CacheBlobstore_blobstore (CO := CachelibOps_ops (O := CacheExample.map_pool)) 1)
              CacheExample.k1 CacheExample.after).2 in
  r = Ok (Some CacheExample.v1) \/ exists e, r = Err e.
Proof.
  set (s := get _ _). pose proof (cacheblob_contract
    (CL := cachelib_laws (PL := CacheExample.map_pool_laws)) 1 CacheExample.empty CacheExample.k1 CacheExample.v1 [] [] CacheExample.after
    (CacheExample.empty_has_only _ _)) as H.
  assert (one_value CacheExample.k1 CacheExample.v1 ([] ++ [])) as H1 by (intros v' Hv; by apply elem_of_nil in Hv).
  destruct (H H1) as [_ Hget]. apply (Hget eq_refl s.1 s.2). subst s. apply surjective_pairing.
Defined.
