(* ===== verification/BoundedHash.v ===== *)
(** * A hash table with limits

    Model of [src/asyncmemo/src/boundedhash.rs] and of the instances in
    [weight.rs]: a table that remembers the order of insertion, and drops its
    oldest entries when there are too many or they are too heavy. The table
    with an order ([linked_hash_map]) is a class. *)

From stdpp Require Import list.
From S2P Require Import Prelude.

(** ** [LinkedHashMap]

    [lhm_iter] gives the entries, the oldest first. *)

Class LinkedHashMap (K V M : Type) := {
  lhm_new : M;
  lhm_iter : M -> list (K * V);
  lhm_len : M -> N;
  lhm_get : K -> M -> option V;
  lhm_insert : K -> V -> M -> M * option V;
  lhm_remove : K -> M -> M * option V;
  lhm_pop_front : M -> M * option (K * V);
  lhm_clear : M -> M
}.

Class LinkedHashMapLaws {K V M} `{EqDecision K} (O : LinkedHashMap K V M) : Prop := {
  iter_new : lhm_iter lhm_new = [];
  iter_nodup m : NoDup (lhm_iter m).*1;
  len_iter m : lhm_len m = lenN (lhm_iter m);
  get_iter k m : lhm_get k m = hm_get k (lhm_iter m);
  insert_iter k v m : hm_get k (lhm_iter m) = None -> lhm_iter (lhm_insert k v m).1 = lhm_iter m ++ [(k, v)];
  insert_old k v m : (lhm_insert k v m).2 = hm_get k (lhm_iter m);
  remove_iter k m : lhm_iter (lhm_remove k m).1 = hm_remove k (lhm_iter m);
  remove_old k m : (lhm_remove k m).2 = hm_get k (lhm_iter m);
  pop_iter m : lhm_iter (lhm_pop_front m).1 = tail (lhm_iter m);
  pop_front m : (lhm_pop_front m).2 = head (lhm_iter m);
  clear_iter m : lhm_iter (lhm_clear m) = []
}.

(** ** Weights *)

Class Weight (A : Type) := { get_weight : A -> N }.

#[export] Instance Weight_bytes : Weight bytes := {| get_weight := lenN |}.
#[export] Instance Weight_u64 : Weight N := {| get_weight _ := 8%N |}.
#[export] Instance Weight_pair {A B} `{Weight A, Weight B} : Weight (A * B) :=
  {| get_weight p := usize_add (get_weight p.1) (get_weight p.2) |}.

(** ** The table *)

Section bounded_hash.
Context {K V M : Type} `{EqDecision K} {O : LinkedHashMap K V M} {W : Weight V}.

Record BoundedHash := mkBounded { bh_hash : M; entrylimit : N; weightlimit : N; entrysizes : N }.

Definition BoundedHash_new (entrylimit weightlimit : N) : BoundedHash := mkBounded lhm_new entrylimit weightlimit 0.

Definition total_weight (h : BoundedHash) : N := entrysizes h.
Definition bh_len (h : BoundedHash) : N := lhm_len (bh_hash h).
Definition bh_is_empty (h : BoundedHash) : bool := (bh_len h =? 0)%N.
Definition with_hash (m : M) (h : BoundedHash) : BoundedHash := mkBounded m (entrylimit h) (weightlimit h) (entrysizes h).
Definition remove_one (v : V) (h : BoundedHash) : BoundedHash :=
  mkBounded (bh_hash h) (entrylimit h) (weightlimit h) (usize_sub (entrysizes h) (get_weight v)).

(** The oldest entry is dropped. *)
Definition trim_one (h : BoundedHash) : BoundedHash * bool :=
  match lhm_pop_front (bh_hash h) with
  | (m, Some (_, v)) => (remove_one v (with_hash m h), true)
  | (m, None) => (with_hash m h, false)
  end.

(** [while too_much(self) { if !self.trim_one() { break } }]. *)
Fixpoint trim_while (n : nat) (too_much : BoundedHash -> bool) (h : BoundedHash) : option BoundedHash :=
  match n with
  | 0 => None
  | S n =>
      if too_much h then
        match trim_one h with
        | (h, true) => trim_while n too_much h
        | (h, false) => Some h
        end
      else Some h
  end.

(** As many turns as there are entries, and one to see that it is empty. *)
Definition trim_fuel (h : BoundedHash) : nat := S (N.to_nat (bh_len h)).

Definition trim_entries (additional : N) (h : BoundedHash) : BoundedHash * bool :=
  if (entrylimit h <? additional)%N then (h, false)
  else
    let limit := usize_sub (entrylimit h) additional in
    (default h (trim_while (trim_fuel h) (fun h => (limit <? bh_len h)%N) h), true).

Definition trim_weight (additional : N) (h : BoundedHash) : BoundedHash * bool :=
  if (weightlimit h <? additional)%N then (h, false)
  else
    let limit := usize_sub (weightlimit h) additional in
    (default h (trim_while (trim_fuel h) (fun h => (limit <? total_weight h)%N) h), true).

Definition trim (h : BoundedHash) : BoundedHash := (trim_weight 0 (trim_entries 0 h).1).1.

Definition bh_clear (h : BoundedHash) : BoundedHash := mkBounded (lhm_clear (bh_hash h)) (entrylimit h) (weightlimit h) 0.

Definition bh_remove (key : K) (h : BoundedHash) : BoundedHash * option V :=
  match lhm_remove key (bh_hash h) with
  | (m, Some v) => (remove_one v (with_hash m h), Some v)
  | (m, None) => (with_hash m h, None)
  end.

(** [Err] gives the key and the value back. *)
Definition bh_insert (k : K) (v : V) (h : BoundedHash) : BoundedHash * outcome (K * V) (option V) :=
  let '(h, oldv) := bh_remove k h in
  match trim_entries 1 h with
  | (h, false) => (h, Err (k, v))
  | (h, true) =>
      let vw := get_weight v in
      match trim_weight vw h with
      | (h, false) => (h, Err (k, v))
      | (h, true) =>
          (mkBounded (lhm_insert k v (bh_hash h)).1 (entrylimit h) (weightlimit h) (usize_add (entrysizes h) vw), Ok oldv)
      end
  end.

Definition bh_get (key : K) (h : BoundedHash) : option V := lhm_get key (bh_hash h).

(** ** What is in the table *)

Definition bh_iter (h : BoundedHash) : list (K * V) := lhm_iter (bh_hash h).
Fixpoint weigh (l : list (K * V)) : N := match l with [] => 0 | x :: l => get_weight x.2 + weigh l end.

(** The entries when the oldest are dropped until the rest fits. *)
Fixpoint newest (fits : list (K * V) -> bool) (l : list (K * V)) : list (K * V) :=
  if fits l then l else match l with [] => [] | _ :: l => newest fits l end.

Record bh_ok (h : BoundedHash) : Prop := {
  ok_sizes : entrysizes h = weigh (bh_iter h);
  ok_len : (lenN (bh_iter h) <= entrylimit h)%N;
  ok_weight : (weigh (bh_iter h) <= weightlimit h)%N;
  ok_limits : (entrylimit h < 2 ^ 64 /\ weightlimit h < 2 ^ 64)%N
}.

Context {L : LinkedHashMapLaws O}.

Lemma weigh_app l l' : weigh (l ++ l') = (weigh l + weigh l')%N.
Proof. induction l as [|x l IH]; cbn; [done|]. rewrite IH. lia. Qed.

Lemma hm_remove_none k (l : list (K * V)) : hm_get k l = None -> hm_remove k l = l.
Proof.
  unfold hm_remove. induction l as [|[k' v'] l IH]; simpl; [done|]. case_decide; [done|]. intros Hg.
  rewrite filter_cons_True by (simpl; congruence). by rewrite IH.
Qed.

Lemma hm_get_not_in k (l : list (K * V)) : k ∉ l.*1 -> hm_get k l = None.
Proof.
  induction l as [|[k' v'] l IH]; simpl; [done|]. intros [Hne Hl]%not_elem_of_cons. rewrite decide_False by done. by apply IH.
Qed.

Lemma hm_get_suffix_none k (l1 l2 : list (K * V)) : l1 `suffix_of` l2 -> hm_get k l2 = None -> hm_get k l1 = None.
Proof. intros [l ->]. induction l as [|[k' v'] l IH]; simpl; [done|]. by case_decide. Qed.

Lemma weigh_get k l v : NoDup l.*1 -> hm_get k l = Some v -> weigh l = (get_weight v + weigh (hm_remove k l))%N.
Proof.
  unfold hm_remove. induction l as [|[k' v'] l IH]; simpl; [done|]. intros [Hk Hnd]%NoDup_cons. case_decide as E.
  - intros [= ->]. subst k'. rewrite filter_cons_False by (simpl; tauto). f_equal. f_equal.
    symmetry. by apply hm_remove_none, hm_get_not_in.
  - intros Hg. rewrite filter_cons_True by (cbn; congruence). simpl. rewrite (IH Hnd Hg). lia.
Qed.

Lemma hm_remove_le k l : (lenN (hm_remove k l) <= lenN l /\ weigh (hm_remove k l) <= weigh l)%N.
Proof.
  unfold hm_remove, lenN. induction l as [|[k' v'] l [IH1 IH2]]; simpl; [done|]. rewrite filter_cons.
  case_decide; simpl in *; lia.
Qed.

(** Not the entries, but the sum and the limits are right. *)
Definition sums (h : BoundedHash) (l : list (K * V)) : Prop :=
  bh_iter h = l /\ entrysizes h = weigh l /\ (weigh l < 2 ^ 64)%N.

Definition same_limits (h h' : BoundedHash) : Prop := entrylimit h' = entrylimit h /\ weightlimit h' = weightlimit h.

Lemma trim_one_spec h l : sums h l -> exists h', trim_one h = (h', bool_decide (l <> [])) /\ sums h' (tail l) /\ same_limits h h'.
Proof using L.
  intros (Hi & Hs & Hlt). unfold bh_iter in Hi. unfold trim_one.
  pose proof (pop_iter (bh_hash h)) as Hp. pose proof (pop_front (bh_hash h)) as Hf. rewrite Hi in Hp, Hf.
  destruct (lhm_pop_front (bh_hash h)) as [m o]. cbn in Hp, Hf. subst o. destruct l as [|[k v] l]; cbn in *; eexists; (split; [done|]).
  - by split.
  - split; [|by split]. split; [done|]. cbn. rewrite Hs, usize_sub_small by lia. lia.
Qed.

Lemma trim_while_spec (too_much : BoundedHash -> bool) (fits : list (K * V) -> bool) h0 n :
  (forall h l, sums h l -> same_limits h0 h -> too_much h = negb (fits l)) ->
  forall h l, sums h l -> same_limits h0 h -> length l < n ->
  exists h', trim_while n too_much h = Some h' /\ sums h' (newest fits l) /\ same_limits h0 h'.
Proof using L.
  intros Htm. induction n as [|n IH]; intros h l Hs Hl Hn; [lia|]. cbn [trim_while]. rewrite (Htm h l Hs Hl).
  destruct l as [|x l]; cbn [newest].
  - destruct (fits []); cbn [negb]; [by exists h|]. destruct (trim_one_spec h [] Hs) as (h' & -> & Hs' & [H1 H2]).
    exists h'. split; [done|]. split; [done|]. destruct Hl. split; congruence.
  - destruct (fits (x :: l)); cbn [negb]; [by exists h|].
    destruct (trim_one_spec h (x :: l) Hs) as (h' & -> & Hs' & [H1 H2]). cbn in Hn.
    apply (IH h' l Hs'); [destruct Hl; split; congruence|lia].
Qed.

Lemma trim_fuel_enough h l : bh_iter h = l -> length l < trim_fuel h.
Proof using L. intros <-. unfold trim_fuel, bh_len. rewrite len_iter. unfold bh_iter, lenN. lia. Qed.

Lemma trim_entries_spec n h l : sums h l -> (n <= entrylimit h < 2 ^ 64)%N ->
  exists h', trim_entries n h = (h', true) /\ sums h' (newest (fun l => lenN l + n <=? entrylimit h)%N l) /\ same_limits h h'.
Proof using L.
  intros Hs Hn. unfold trim_entries. rewrite (proj2 (N.ltb_ge _ _)) by lia.
  destruct (trim_while_spec (fun h' => (usize_sub (entrylimit h) n <? bh_len h')%N) (fun l => lenN l + n <=? entrylimit h)%N h
    (trim_fuel h)) with (h := h) (l := l) as (h' & E & H1 & H2).
  - intros h' l' (Hi & _) _. unfold bh_len. rewrite len_iter. unfold bh_iter in Hi. rewrite Hi, usize_sub_small by lia.
    apply eq_true_iff_eq. rewrite negb_true_iff, N.ltb_lt, N.leb_gt. lia.
  - done.
  - by split.
  - apply trim_fuel_enough, Hs.
  - rewrite E. by exists h'.
Qed.

Lemma trim_weight_spec n h l : sums h l -> (n <= weightlimit h < 2 ^ 64)%N ->
  exists h', trim_weight n h = (h', true) /\ sums h' (newest (fun l => weigh l + n <=? weightlimit h)%N l) /\ same_limits h h'.
Proof using L.
  intros Hs Hn. unfold trim_weight. rewrite (proj2 (N.ltb_ge _ _)) by lia.
  destruct (trim_while_spec (fun h' => (usize_sub (weightlimit h) n <? total_weight h')%N) (fun l => weigh l + n <=? weightlimit h)%N h
    (trim_fuel h)) with (h := h) (l := l) as (h' & E & H1 & H2).
  - intros h' l' (_ & Hw & _) _. unfold total_weight. rewrite Hw, usize_sub_small by lia.
    apply eq_true_iff_eq. rewrite negb_true_iff, N.ltb_lt, N.leb_gt. lia.
  - done.
  - by split.
  - apply trim_fuel_enough, Hs.
  - rewrite E. by exists h'.
Qed.

(** *** Which entries stay *)

Lemma newest_fits fits l : fits [] = true -> fits (newest fits l) = true.
Proof. intros H0. induction l as [|x l IH]; cbn; [by rewrite H0|]. by destruct (fits (x :: l)) eqn:E. Qed.

Lemma newest_suffix fits l : newest fits l `suffix_of` l.
Proof. 
  induction l as [|x l IH]; cbn; [by destruct (fits [])|]. destruct (fits (x :: l)); [done|]. by apply suffix_cons_r.
Qed.

Lemma newest_all fits l : fits l = true -> newest fits l = l.
Proof. destruct l; cbn; by intros ->. Qed.

(** Nothing that was dropped could have stayed. *)
Lemma newest_most fits l l' : l' `suffix_of` l -> fits l' = true -> l' `suffix_of` newest fits l.
Proof.
  intros Hl Hf. induction l as [|x l IH].
  - apply suffix_nil_inv in Hl as ->. apply suffix_nil.
  - cbn. destruct (fits (x :: l)) eqn:E; [done|]. destruct Hl as [[|y k] Hk]; cbn in Hk; [congruence|]. injection Hk as _ ->.
    apply IH. by eexists.
Qed.

Lemma newest_newest f g l : f [] = true -> (forall l1 l2, l1 `suffix_of` l2 -> f l2 = true -> f l1 = true) ->
  newest g (newest f l) = newest (fun l => f l && g l) l.
Proof.
  intros H0 Hf. induction l as [|x l IH]; cbn.
  - destruct (f []); [|done]. cbn. by destruct (g []).
  - destruct (f (x :: l)) eqn:E; cbn; [|apply IH]. destruct (g (x :: l)); [done|].
    rewrite <- IH. f_equal. symmetry. apply newest_all. apply (Hf l (x :: l)); [by apply suffix_cons_r|done].
Qed.

Lemma entries_suffix limit n (l1 l2 : list (K * V)) : l1 `suffix_of` l2 -> (lenN l2 + n <=? limit = true)%N -> (lenN l1 + n <=? limit = true)%N.
Proof. intros [l ->]. rewrite !N.leb_le. unfold lenN. rewrite length_app. lia. Qed.

Lemma weight_suffix limit n l1 l2 : l1 `suffix_of` l2 -> (weigh l2 + n <=? limit = true)%N -> (weigh l1 + n <=? limit = true)%N.
Proof. intros [l ->]. rewrite !N.leb_le, weigh_app. lia. Qed.

(** *** The operations *)

Lemma bh_ok_sums h : bh_ok h -> sums h (bh_iter h).
Proof. intros [H1 H2 H3 H4]. split; [done|]. split; [done|lia]. Qed.

Lemma sums_ok h0 h l : bh_ok h0 -> same_limits h0 h -> sums h l -> (lenN l <= entrylimit h0)%N -> (weigh l <= weightlimit h0)%N -> bh_ok h.
Proof. intros H0 [H1 H2] (<- & Hs & _) Hl Hw. split; [done|by rewrite H1|by rewrite H2|]. rewrite H1, H2. apply H0. Qed.

Lemma suffix_le (l1 l2 : list (K * V)) : l1 `suffix_of` l2 -> (lenN l1 <= lenN l2 /\ weigh l1 <= weigh l2)%N.
Proof. intros [l ->]. rewrite weigh_app. unfold lenN. rewrite length_app. lia. Qed.

Lemma bh_remove_spec k h : bh_ok h -> exists h', bh_remove k h = (h', hm_get k (bh_iter h)) /\
  sums h' (hm_remove k (bh_iter h)) /\ same_limits h h'.
Proof using L.
  intros Hok. unfold bh_remove. pose proof (remove_iter k (bh_hash h)) as Hi. pose proof (remove_old k (bh_hash h)) as Ho.
  destruct (lhm_remove k (bh_hash h)) as [m o]. cbn in Hi, Ho. subst o. fold (bh_iter h) in *.
  destruct (hm_remove_le k (bh_iter h)) as [_ Hle]. destruct (bh_ok_sums h Hok) as (_ & Hs & Hlt).
  destruct (hm_get k (bh_iter h)) as [v|] eqn:E; eexists; (split; [done|]); (split; [|by split]); (split; [done|]); cbn; (split; [|lia]).
  - rewrite Hs, (weigh_get k (bh_iter h) v) in * by (done || apply iter_nodup). rewrite usize_sub_small by lia. lia.
  - by rewrite hm_remove_none.
Qed.

Lemma bh_remove_ok k h : bh_ok h -> bh_ok (bh_remove k h).1.
Proof using L.
  intros Hok. destruct (bh_remove_spec k h Hok) as (h' & -> & Hs & Hl). destruct (hm_remove_le k (bh_iter h)). destruct Hok.
  eapply sums_ok; [by split|exact Hl|exact Hs|lia|lia].
Qed.

(** There is room for one entry more, of this weight. *)
Definition room (h : BoundedHash) (weight : N) (l : list (K * V)) : bool :=
  (lenN l + 1 <=? entrylimit h)%N && (weigh l + weight <=? weightlimit h)%N.

(** An entry that the limits allow is put last, after as many of the
    newest of the others as there is room for, and replaces the one with its
    key; an entry that they do not allow comes back, and the others are not
    more than they were. The sum of the weights and the limits stay right, and
    no subtraction or addition wraps around. *)
Lemma bh_insert_spec k v h : bh_ok h -> (get_weight v < 2 ^ 64)%N ->
  let '(h', r) := bh_insert k v h in
  bh_ok h' /\ same_limits h h' /\
  if (0 <? entrylimit h)%N && (get_weight v <=? weightlimit h)%N then
    r = Ok (hm_get k (bh_iter h)) /\
    bh_iter h' = newest (room h (get_weight v)) (hm_remove k (bh_iter h)) ++ [(k, v)]
  else r = Err (k, v) /\ bh_iter h' `suffix_of` hm_remove k (bh_iter h).
Proof using L.
  intros Hok Hv. pose proof (ok_limits _ Hok) as [Hl1 Hl2]. unfold bh_insert.
  destruct (bh_remove_spec k h Hok) as (h1 & -> & Hs1 & [Hs1l Hs1w]). destruct (hm_remove_le k (bh_iter h)) as [Hr1 Hr2].
  pose proof (ok_len _ Hok). pose proof (ok_weight _ Hok). set (l := hm_remove k (bh_iter h)) in *.
  destruct (N.ltb_spec 0 (entrylimit h)) as [He|He]; cbn [andb].
  2:{ unfold trim_entries. rewrite (proj2 (N.ltb_lt _ _)) by lia. split; [by eapply (sums_ok h h1 l); [| |exact Hs1|lia|lia]|].
      split; [done|]. split; [done|]. destruct Hs1 as (-> & _). done. }
  destruct (trim_entries_spec 1 h1 l Hs1) as (h2 & -> & Hs2 & [Hs2l Hs2w]); [lia|].
  set (l2 := newest (fun l => lenN l + 1 <=? entrylimit h1)%N l) in *.
  assert (same_limits h h2) as Hl02 by (split; congruence). pose proof (newest_suffix (fun l => lenN l + 1 <=? entrylimit h1)%N l) as Hsuf.
  fold l2 in Hsuf. destruct (suffix_le _ _ Hsuf) as [Hle1 Hle2].
  assert (lenN l2 + 1 <= entrylimit h)%N as Hfit.
  { rewrite <- Hs1l. apply N.leb_le. apply (newest_fits (fun l => lenN l + 1 <=? entrylimit h1)%N). apply N.leb_le. change (lenN []) with 0%N. lia. }
  destruct (N.leb_spec (get_weight v) (weightlimit h)) as [Hw|Hw].
  2:{ unfold trim_weight. rewrite (proj2 (N.ltb_lt _ _)) by (destruct Hl02; lia). split; [by eapply (sums_ok h h2 l2); [| |exact Hs2|lia|lia]|].
      split; [done|]. split; [done|]. by destruct Hs2 as (-> & _). }
  destruct (trim_weight_spec (get_weight v) h2 l2 Hs2) as (h3 & -> & Hs3 & [Hs3l Hs3w]); [destruct Hl02; lia|].
  set (fits3 := fun l => (weigh l + get_weight v <=? weightlimit h2)%N) in *. destruct Hl02 as [Hl02a Hl02b].
  assert (newest fits3 l2 = newest (room h (get_weight v)) l) as El.
  { unfold l2. rewrite newest_newest; [|apply N.leb_le; change (lenN []) with 0%N; lia|by intros l3 l4; apply entries_suffix].
    unfold room, fits3. by rewrite Hs1l, Hl02b. }
  pose proof (newest_suffix fits3 l2) as Hsuf3. destruct (suffix_le _ _ Hsuf3) as [Hle3 Hle4].
  assert (weigh (newest fits3 l2) + get_weight v <= weightlimit h)%N as Hfit3.
  { rewrite <- Hl02b. apply N.leb_le, (newest_fits fits3). apply N.leb_le. cbn. lia. }
  destruct Hs3 as (Hi3 & Hw3 & _). assert (hm_get k (lhm_iter (bh_hash h3)) = None) as Hnone.
  { unfold bh_iter in Hi3. rewrite Hi3. apply (hm_get_suffix_none k _ l); [by transitivity l2|].
    unfold l. rewrite hm_get_remove. by rewrite decide_True. }
  pose proof (insert_iter k v (bh_hash h3) Hnone) as Hins. unfold bh_iter in Hi3.
  set (h4 := mkBounded _ _ _ _). assert (bh_iter h4 = newest (room h (get_weight v)) l ++ [(k, v)]) as Hi4.
  { unfold bh_iter, h4. cbn [bh_hash]. by rewrite Hins, Hi3, El. }
  split; [|split; [split; cbn; congruence|done]].
  assert (lenN (bh_iter h4) = lenN (newest fits3 l2) + 1 /\ weigh (bh_iter h4) = weigh (newest fits3 l2) + get_weight v)%N as [Hlen4 Hw4].
  { rewrite Hi4, <- El, weigh_app. unfold lenN. rewrite length_app. cbn. lia. }
  split; rewrite ?Hlen4, ?Hw4; unfold h4; cbn [entrysizes entrylimit weightlimit]; rewrite ?Hw3, ?usize_add_small; lia.
Qed.

Lemma bh_insert_ok k v h : bh_ok h -> (get_weight v < 2 ^ 64)%N -> bh_ok (bh_insert k v h).1 /\
  forall x, x ∈ bh_iter (bh_insert k v h).1 -> x ∈ bh_iter h \/ x = (k, v).
Proof using L.
  intros Hok Hv. pose proof (bh_insert_spec k v h Hok Hv) as H. destruct (bh_insert k v h) as [h' r]. cbn.
  destruct H as (H1 & _ & H2). split; [done|]. intros x Hx.
  assert (forall l, l `suffix_of` hm_remove k (bh_iter h) -> x ∈ l -> x ∈ bh_iter h) as Hin.
  { intros l [l' Hl] Hxl. assert (x ∈ hm_remove k (bh_iter h)) as Hr by (rewrite Hl; apply elem_of_app; by right).
    unfold hm_remove in Hr. by apply list_elem_of_filter in Hr as [_ ?]. }
  destruct (_ && _); destruct H2 as [_ Hi]; [|left; by eapply Hin].
  rewrite Hi in Hx. apply elem_of_app in Hx as [Hx|Hx%list_elem_of_singleton]; [left|by right].
  eapply Hin; [apply newest_suffix|done].
Qed.

Lemma bh_new_ok e w : (e < 2 ^ 64)%N -> (w < 2 ^ 64)%N -> bh_ok (BoundedHash_new e w) /\ bh_iter (BoundedHash_new e w) = [].
Proof using L.
  intros He Hw. assert (bh_iter (BoundedHash_new e w) = []) as Hi by apply iter_new. split; [|done].
  split; rewrite ?Hi; change (lenN []) with 0%N; cbn; done || lia.
Qed.

Lemma bh_clear_ok h : bh_ok h -> bh_ok (bh_clear h) /\ bh_iter (bh_clear h) = [].
Proof using L.
  intros Hok. assert (bh_iter (bh_clear h) = []) as Hi by apply clear_iter. split; [|done].
  split; rewrite ?Hi; change (lenN []) with 0%N; cbn; try done; try lia. apply Hok.
Qed.

Lemma bh_remove_elem k h x : bh_ok h -> x ∈ bh_iter (bh_remove k h).1 -> x ∈ bh_iter h /\ x.1 <> k.
Proof using L.
  intros Hok. destruct (bh_remove_spec k h Hok) as (h' & -> & (Hi & _) & _). cbn [fst]. rewrite Hi. unfold hm_remove.
  intros [? ?]%list_elem_of_filter. done.
Qed.

(** Within the limits there is nothing to trim. *)
Lemma trim_noop h : bh_ok h -> trim h = h.
Proof using L.
  intros Hok. pose proof (bh_ok_sums h Hok) as Hs. destruct Hok as [H1 H2 H3 [H4 H5]]. unfold trim.
  assert (trim_entries 0 h = (h, true)) as ->.
  { unfold trim_entries. rewrite (proj2 (N.ltb_ge _ _)) by lia. unfold trim_fuel. cbn [trim_while].
    unfold bh_len. rewrite len_iter. fold (bh_iter h). rewrite (proj2 (N.ltb_ge _ _)); [done|].
    rewrite usize_sub_small by lia. lia. }
  unfold trim_weight. cbn [fst]. rewrite (proj2 (N.ltb_ge _ _)) by lia. unfold trim_fuel. cbn [trim_while].
  unfold total_weight. rewrite (proj2 (N.ltb_ge _ _)); [done|]. rewrite usize_sub_small by lia. lia.
Qed.

Lemma bh_get_elem k v h : bh_get k h = Some v -> (k, v) ∈ bh_iter h.
Proof using L.
  unfold bh_get. rewrite get_iter. fold (bh_iter h). generalize (bh_iter h). intros l. induction l as [|[k' v'] l IH]; simpl; [done|].
  case_decide as E; [intros [= ->]; subst; by left|]. intros H. right. by apply IH.
Qed.

(** An entry that the limits allow is found afterwards, and is not too heavy. *)
Lemma bh_insert_get k v h : bh_ok h -> (0 < entrylimit h)%N -> (get_weight v <= weightlimit h < 2 ^ 64)%N ->
  bh_get k (bh_insert k v h).1 = Some v /\ (bh_insert k v h).2 = Ok (bh_get k h).
Proof using L.
  intros Hok He Hw. pose proof (bh_insert_spec k v h Hok ltac:(lia)) as H. destruct (bh_insert k v h) as [h' r].
  destruct H as (_ & _ & H). rewrite (proj2 (N.ltb_lt _ _)), (proj2 (N.leb_le _ _)) in H by lia. destruct H as [-> Hi].
  unfold bh_get. cbn [fst snd]. rewrite !get_iter. fold (bh_iter h) (bh_iter h'). split; [|done]. rewrite Hi.
  assert (hm_get k (newest (room h (get_weight v)) (hm_remove k (bh_iter h))) = None) as Hn.
  { eapply hm_get_suffix_none; [apply newest_suffix|]. rewrite hm_get_remove. by rewrite decide_True. }
  revert Hn. generalize (newest (room h (get_weight v)) (hm_remove k (bh_iter h))). intros l.
  induction l as [|[k' v'] l IH]; simpl; [by rewrite decide_True|]. by case_decide.
Qed.

Lemma bh_get_weight k v h : bh_ok h -> bh_get k h = Some v -> (get_weight v <= weightlimit h)%N.
Proof using L.
  intros Hok Hg%bh_get_elem. pose proof (ok_weight _ Hok) as Hw. revert Hw Hg. generalize (bh_iter h). intros l.
  induction l as [|x l IH]; cbn; [by intros _ ?%elem_of_nil|]. intros Hw [<-|Hin]%elem_of_cons; cbn in *; [lia|]. apply IH; [lia|done].
Qed.
End bounded_hash.
Arguments BoundedHash M : clear implicits.

(** ** An implementation: the entries as a list *)

Section linked.
Context {K V : Type} `{!EqDecision K}.

Definition linked : Type := {l : list (K * V) | NoDup l.*1}.

Lemma linked_remove k (m : linked) : NoDup (hm_remove k (proj1_sig m)).*1.
Proof.
  destruct m as [l Hl]. cbn. revert Hl. unfold hm_remove. induction l as [|[k' v'] l IH]; simpl; [done|].
  intros [Hk Hl]%NoDup_cons. rewrite filter_cons. case_decide; [|by apply IH]. simpl. apply NoDup_cons. split; [|by apply IH].
  intros (x & E & Hx)%list_elem_of_fmap. apply Hk. rewrite E. apply list_elem_of_fmap_2. by apply list_elem_of_filter in Hx as [_ ?].
Qed.

Lemma linked_insert k v (m : linked) : NoDup (hm_remove k (proj1_sig m) ++ [(k, v)]).*1.
Proof.
  rewrite fmap_app. apply NoDup_app. split; [apply linked_remove|]. split; [|apply NoDup_singleton].
  intros k' (x & -> & Hx)%list_elem_of_fmap. unfold hm_remove in Hx. apply list_elem_of_filter in Hx as [Hx _].
  intros H. apply Hx. by apply list_elem_of_singleton in H.
Qed.

Lemma linked_tail (m : linked) : NoDup (tail (proj1_sig m)).*1.
Proof. destruct m as [[|x l] Hl]; cbn; [done|]. by apply NoDup_cons in Hl as [_ ?]. Qed.

#[export] Instance linked_ops : LinkedHashMap K V linked :=
  {| lhm_new := exist _ [] (NoDup_nil_2);
     lhm_iter m := proj1_sig m;
     lhm_len m := lenN (proj1_sig m);
     lhm_get k m := hm_get k (proj1_sig m);
     lhm_insert k v m := (exist _ (hm_remove k (proj1_sig m) ++ [(k, v)]) (linked_insert k v m), hm_get k (proj1_sig m));
     lhm_remove k m := (exist _ (hm_remove k (proj1_sig m)) (linked_remove k m), hm_get k (proj1_sig m));
     lhm_pop_front m := (exist _ (tail (proj1_sig m)) (linked_tail m), head (proj1_sig m));
     lhm_clear m := exist _ [] NoDup_nil_2 |}.

#[export] Instance linked_laws : LinkedHashMapLaws linked_ops.
Proof.
  split; cbn; try done.
  - intros m. apply (proj2_sig m).
  - intros k v m Hk. by rewrite hm_remove_none.
Qed.
End linked.
Arguments linked K V : clear implicits.
