(* ===== verification/AsyncMemo.v ===== *)
(** * Memoization of asynchronous computations

    Model of [src/asyncmemo/src/lib.rs]: a cache of results and of
    computations under way, in shards with limits. Tasks that wait for results
    run interleaved; a turn of a task is what it does with one lock held, or
    one poll of a computation. *)

From stdpp Require Import list.
From S2P Require Import Prelude BoundedHash.

(** ** Computations and slots *)

(** A shared computation, with the key that it is for. The error of a failed
    one can be taken once. *)
Inductive computation (V E : Type) :=
| Pending (result : V + E)
| Done (v : V)
| Failed (error : option E).
Arguments Pending {V E} result. Arguments Done {V E} v. Arguments Failed {V E} error.

Inductive Slot (V : Type) :=
| Waiting (future : nat)
| Complete (v : V).
Arguments Waiting {V} future. Arguments Complete {V} v.

#[export] Instance Weight_Slot {V} `{Weight V} : Weight (Slot V) :=
  {| get_weight s := match s with Waiting _ => 0%N | Complete v => get_weight v end |}.

Definition SHARD_NUM : N := 1000.

(** Where [handle] has its future from. *)
Inductive origin := Internal | Cached | Fresh.

Section memo.
Context {K V E M : Type} `{!EqDecision K} {O : LinkedHashMap K (Slot V) M} {W : Weight V}.

(** The filler, whose every call may give another result, and the hash of
    keys. *)
Context (fill : K -> nat -> V + E) (hash : K -> N).

Record Asyncmemo := mkMemo { hash_vec : list (BoundedHash M); futures : list (K * computation V E) }.

Definition with_limits_and_shards (entrylimit weightlimit shards : N) : outcome E Asyncmemo :=
  _ ← assert_ (0 <? entrylimit)%N;
  _ ← assert_ (0 <? weightlimit)%N;
  if (shards =? 0)%N then Panic
  else mret (mkMemo (replicate (N.to_nat shards) (BoundedHash_new (entrylimit / shards) (weightlimit / shards))) []).

Definition with_limits (entrylimit weightlimit : N) : outcome E Asyncmemo :=
  with_limits_and_shards entrylimit weightlimit SHARD_NUM.
Definition new_unbounded (shards : N) : outcome E Asyncmemo :=
  with_limits_and_shards (2 ^ 64 - 1) (2 ^ 64 - 1) shards.

Definition get_shard (m : Asyncmemo) (key : K) : nat := N.to_nat (hash key mod lenN (hash_vec m)).

(** What is done with the lock of the key's shard held. *)
Definition on_shard (f : BoundedHash M -> BoundedHash M) (i : nat) (m : Asyncmemo) : Asyncmemo :=
  mkMemo (alter f i (hash_vec m)) (futures m).
Definition on_key (f : BoundedHash M -> BoundedHash M) (key : K) (m : Asyncmemo) : Asyncmemo :=
  on_shard f (get_shard m key) m.

Definition slot_present (key : K) (m : Asyncmemo) : option (Slot V) := hash_vec m !! get_shard m key ≫= bh_get key.
Definition slot_remove (key : K) (m : Asyncmemo) : Asyncmemo := on_key (fun h => (bh_remove key h).1) key m.

(** A complete value that was kicked out is put back. *)
Definition insert_or_remove (key : K) (slot : Slot V) (h : BoundedHash M) : BoundedHash M :=
  match bh_insert key slot h with
  | (h, Err _) => (bh_remove key h).1
  | (h, Ok (Some (Complete val))) => trim (bh_insert key (Complete val) h).1
  | (h, _) => h
  end.
Definition slot_insert (key : K) (slot : Slot V) (m : Asyncmemo) : Asyncmemo := on_key (insert_or_remove key slot) key m.

Definition key_present_in_cache (key : K) (m : Asyncmemo) : bool :=
  match slot_present key m with Some (Complete _) => true | _ => false end.
Definition invalidate (key : K) (m : Asyncmemo) : Asyncmemo := slot_remove key m.
Definition memo_clear (m : Asyncmemo) : Asyncmemo := mkMemo (bh_clear <$> hash_vec m) (futures m).
Definition memo_trim (m : Asyncmemo) : Asyncmemo := mkMemo ((fun h => (trim_weight 0 (trim_entries 0 h).1).1) <$> hash_vec m) (futures m).
Definition memo_len (m : Asyncmemo) : N := foldl (fun len h => usize_add len (bh_len h)) 0%N (hash_vec m).
Definition memo_total_weight (m : Asyncmemo) : N := foldl (fun total h => usize_add total (total_weight h)) 0%N (hash_vec m).
Definition memo_is_empty (m : Asyncmemo) : bool := foldl (fun is_empty h => is_empty && bh_is_empty h) true (hash_vec m).

(** ** [MemoFuture] *)

(** Where a task is in [handle] and [poll_real_future]. *)
Inductive pc :=
| Handle
| Polling (future : nat) (from : origin)
| Removing (future : nat) (from : origin)
| Taking (future : nat) (from : origin)
| Present
| Filling
| Inserting (slot : Slot V) (result : poll V)
| Returned (result : outcome E (poll V)).

Record MemoFuture := mkFuture { key : K; internal_future : option nat; at_ : pc }.

Definition memo_get (key : K) : MemoFuture := mkFuture key None (Returned (Ok NotReady)).

Definition goto (t : MemoFuture) (p : pc) : MemoFuture := mkFuture (key t) (internal_future t) p.

(** One poll of a computation that is [ready] or not; another task may be
    polling it. *)
Definition poll_computation (ready : bool) (c : computation V E) : computation V E :=
  match c with
  | Pending (inl v) => if ready then Done v else c
  | Pending (inr e) => if ready then Failed (Some e) else c
  | c => c
  end.

Definition real_poll (t : MemoFuture) (future : nat) (from : origin) (c : computation V E) : MemoFuture :=
  match c with
  | Pending _ => mkFuture (key t) (Some future) (Inserting (Waiting future) NotReady)
  | Done v => goto t (Inserting (Complete v) (Ready v))
  | Failed _ => goto t (Removing future from)
  end.

(** The error has been taken by another task. *)
Definition moved_error (from : origin) : pc :=
  match from with
  | Internal => Present
  | Cached => Filling
  | Fresh => Returned Panic
  end.

Definition turn (ready : bool) (m : Asyncmemo) (t : MemoFuture) : Asyncmemo * MemoFuture :=
  match at_ t with
  | Handle =>
      match internal_future t with
      | Some future => (m, mkFuture (key t) None (Polling future Internal))
      | None => (m, goto t Present)
      end
  | Polling future from =>
      match futures m !! future with
      | Some (k, c) =>
          let c := poll_computation ready c in
          (mkMemo (hash_vec m) (<[future := (k, c)]> (futures m)), real_poll t future from c)
      | None => (m, goto t (Returned Panic))
      end
  | Removing future from => (slot_remove (key t) m, goto t (Taking future from))
  | Taking future from =>
      match futures m !! future with
      | Some (k, Failed (Some e)) =>
          (mkMemo (hash_vec m) (<[future := (k, Failed None)]> (futures m)), goto t (Returned (Err e)))
      | _ => (m, goto t (moved_error from))
      end
  | Present =>
      match slot_present (key t) m with
      | None => (m, goto t Filling)
      | Some (Complete v) => (m, goto t (Returned (Ok (Ready v))))
      | Some (Waiting future) => (m, goto t (Polling future Cached))
      end
  | Filling =>
      let future := length (futures m) in
      (mkMemo (hash_vec m) (futures m ++ [(key t, Pending (fill (key t) future))]), goto t (Polling future Fresh))
  | Inserting slot result => (slot_insert (key t) slot m, goto t (Returned (Ok result)))
  | Returned _ => (m, t)
  end.

(** A whole poll, when nothing comes in between. *)
Fixpoint turns (n : nat) (ready : bool) (m : Asyncmemo) (t : MemoFuture) : Asyncmemo * MemoFuture :=
  match n with
  | 0 => (m, t)
  | S n => let '(m, t) := turn ready m t in turns n ready m t
  end.
Definition memo_poll (ready : bool) (m : Asyncmemo) (t : MemoFuture) : Asyncmemo * MemoFuture :=
  turns 12 ready m (goto t Handle).

(** ** Tasks *)

Record world := mkWorld { w_memo : Asyncmemo; w_tasks : list MemoFuture }.

Inductive step (w : world) : world -> Prop :=
| step_get k : step w (mkWorld (w_memo w) (w_tasks w ++ [memo_get k]))
| step_poll i t r : w_tasks w !! i = Some t -> at_ t = Returned (Ok r) -> step w (mkWorld (w_memo w) (<[i := goto t Handle]> (w_tasks w)))
| step_turn i t ready m t' : w_tasks w !! i = Some t -> turn ready (w_memo w) t = (m, t') -> step w (mkWorld m (<[i := t']> (w_tasks w)))
| step_invalidate k : step w (mkWorld (invalidate k (w_memo w)) (w_tasks w))
| step_clear i : step w (mkWorld (on_shard bh_clear i (w_memo w)) (w_tasks w))
| step_trim i : step w (mkWorld (on_shard (fun h => (trim_weight 0 (trim_entries 0 h).1).1) i (w_memo w)) (w_tasks w)).

(** ** What holds in every world *)

Context {L : LinkedHashMapLaws O} (weight_width : forall v, (get_weight v < 2 ^ 64)%N).

(** The limits of each shard. *)
Context (el wl : N).

Definition computed (k : K) (v : V) : Prop := exists n, fill k n = inl v.
Definition failed_with (k : K) (e : E) : Prop := exists n, fill k n = inr e.

Definition computation_ok (k : K) (c : computation V E) : Prop :=
  match c with
  | Pending result => exists n, fill k n = result
  | Done v => computed k v
  | Failed (Some e) => failed_with k e
  | Failed None => True
  end.

(** The computation is there, and for this key. *)
Definition owned (m : Asyncmemo) (k : K) (f : nat) : Prop := exists c, futures m !! f = Some (k, c).

Definition slot_ok (m : Asyncmemo) (k : K) (s : Slot V) : Prop :=
  match s with Waiting f => owned m k f | Complete v => computed k v end.

(** A shard whose slots satisfy [P]. *)
Record slots (P : K -> Slot V -> Prop) (h : BoundedHash M) : Prop := {
  slots_bh : bh_ok h;
  slots_limits : entrylimit h = el /\ weightlimit h = wl;
  slots_all k s : (k, s) ∈ bh_iter h -> P k s
}.

Definition shard_ok (m : Asyncmemo) : BoundedHash M -> Prop := slots (slot_ok m).

Definition future_of (p : pc) : list nat :=
  match p with
  | Polling f _ | Removing f _ | Taking f _ | Inserting (Waiting f) _ => [f]
  | _ => []
  end.
Definition refs (t : MemoFuture) : list nat := option_list (internal_future t) ++ future_of (at_ t).

(** The computation that only this task knows. *)
Definition fresh_of (t : MemoFuture) : option nat :=
  match at_ t with Polling f Fresh | Removing f Fresh | Taking f Fresh => Some f | _ => None end.

Definition task_ok (m : Asyncmemo) (t : MemoFuture) : Prop :=
  (forall f, f ∈ refs t -> owned m (key t) f) /\
  match at_ t with
  | Polling f Fresh => exists k r, futures m !! f = Some (k, Pending r)
  | Removing f Fresh | Taking f Fresh => exists k e, futures m !! f = Some (k, Failed (Some e))
  | Inserting slot result => (forall v, slot = Complete v -> computed (key t) v) /\ forall v, result = Ready v -> computed (key t) v
  | Returned (Ok (Ready v)) => computed (key t) v
  | Returned (Err e) => failed_with (key t) e
  | Returned Panic => False
  | _ => True
  end.

Definition cached (m : Asyncmemo) (f : nat) : Prop := exists h k, h ∈ hash_vec m /\ (k, Waiting f) ∈ bh_iter h.

Record world_ok (w : world) : Prop := {
  ok_futures f k c : futures (w_memo w) !! f = Some (k, c) -> computation_ok k c;
  ok_shards h : h ∈ hash_vec (w_memo w) -> shard_ok (w_memo w) h;
  ok_tasks i t : w_tasks w !! i = Some t -> task_ok (w_memo w) t;
  ok_fresh i t f : w_tasks w !! i = Some t -> fresh_of t = Some f ->
    ~ cached (w_memo w) f /\ forall j t', w_tasks w !! j = Some t' -> f ∈ refs t' -> j = i
}.

(** Only computations of [fs] have changed. *)
Definition changed (fs : list nat) (m m' : Asyncmemo) : Prop :=
  forall f k c, futures m !! f = Some (k, c) -> exists c', futures m' !! f = Some (k, c') /\ (c' = c \/ f ∈ fs).

Lemma changed_refl fs m : changed fs m m.
Proof. intros f k c H. exists c. split; [done|by left]. Qed.

Lemma owned_changed fs m m' k f : changed fs m m' -> owned m k f -> owned m' k f.
Proof. intros H (c & Hc). destruct (H f k c Hc) as (c' & H' & _). by exists c'. Qed.

Lemma slot_ok_changed fs m m' k s : changed fs m m' -> slot_ok m k s -> slot_ok m' k s.
Proof. intros H. destruct s as [f|v]; cbn; [by apply (owned_changed fs)|done]. Qed.

Lemma shard_ok_changed fs m m' h : changed fs m m' -> shard_ok m h -> shard_ok m' h.
Proof. intros H [H1 H2 H3]. split; [done|done|]. intros k s Hs. by apply (slot_ok_changed fs m), H3. Qed.

Lemma owned_lt m k f : owned m k f -> f < length (futures m).
Proof. intros (c & H). by apply lookup_lt_Some in H. Qed.

Lemma fresh_refs t f : fresh_of t = Some f -> f ∈ refs t.
Proof. unfold fresh_of, refs. destruct (at_ t) as [|? []|? []|? []| | | |]; intros [= ->]; cbn; apply elem_of_app; right; by left. Qed.

(** A task whose own computation is not among those changed. *)
Lemma task_ok_changed fs m m' t : changed fs m m' -> (forall f, fresh_of t = Some f -> f ∉ fs) -> task_ok m t -> task_ok m' t.
Proof.
  intros Hc Hf [H1 H2]. split; [intros f Hr; by apply (owned_changed fs m), H1|].
  unfold fresh_of in Hf. destruct (at_ t) as [|f []|f []|f []| | | |]; try done.
  - destruct H2 as (k & r & H2). destruct (Hc _ _ _ H2) as (c & Hc' & [->|?]); [by exists k, r|by destruct (Hf f eq_refl)].
  - destruct H2 as (k & e & H2). destruct (Hc _ _ _ H2) as (c & Hc' & [->|?]); [by exists k, e|by destruct (Hf f eq_refl)].
  - destruct H2 as (k & e & H2). destruct (Hc _ _ _ H2) as (c & Hc' & [->|?]); [by exists k, e|by destruct (Hf f eq_refl)].
Qed.

Lemma cached_owned w f : world_ok w -> cached (w_memo w) f -> f < length (futures (w_memo w)).
Proof. intros Hw (h & k & Hh & Hs). apply (owned_lt _ k). by apply (slots_all _ _ (ok_shards _ Hw h Hh) k (Waiting f)). Qed.

(** *** One turn *)

Lemma turn_world_ok w i t m' t' : world_ok w -> w_tasks w !! i = Some t ->
  changed (refs t) (w_memo w) m' ->
  (forall f k c, futures m' !! f = Some (k, c) -> computation_ok k c) ->
  (forall h, h ∈ hash_vec m' -> shard_ok m' h) ->
  task_ok m' t' ->
  (forall f, cached m' f -> cached (w_memo w) f \/ (f ∈ refs t /\ fresh_of t' = None)) ->
  (forall f, f ∈ refs t' -> f ∈ refs t \/ cached (w_memo w) f \/ f = length (futures (w_memo w))) ->
  (forall f, fresh_of t' = Some f -> fresh_of t = Some f \/ f = length (futures (w_memo w))) ->
  world_ok (mkWorld m' (<[i := t']> (w_tasks w))).
Proof.
  intros Hw Hi Hch Hfut Hsh Ht H1 H2 H3. pose proof (ok_tasks _ Hw i t Hi) as [Hrefs _].
  assert (forall j tj f, w_tasks w !! j = Some tj -> f ∈ refs tj -> f < length (futures (w_memo w))) as Hlt.
  { intros j tj f Hj Hf. by eapply owned_lt, (ok_tasks _ Hw j tj Hj). }
  assert (forall j tj, (<[i := t']> (w_tasks w)) !! j = Some tj -> (j = i /\ tj = t') \/ (j <> i /\ w_tasks w !! j = Some tj)) as Hins.
  { intros j tj. intros [(<- & -> & _)|[Hne Hj]]%list_lookup_insert_Some; [by left|right; by split]. }
  split; cbn [w_memo w_tasks]; [done|done| |].
  - intros j tj [[-> ->]|[Hne Hj]]%Hins; [done|]. apply (task_ok_changed (refs t) (w_memo w)); [done| |by apply (ok_tasks _ Hw j)].
    intros f Hf Hin. apply Hne. symmetry. by apply (proj2 (ok_fresh _ Hw j tj f Hj Hf) i t).
  - intros j tj f [[-> ->]|[Hne Hj]]%Hins Hf.
    + destruct (H3 f Hf) as [Hold| ->].
      * destruct (ok_fresh _ Hw i t f Hi Hold) as [Hc Hr]. split; [intros [?|[_ ?]]%H1; [done|congruence]|].
        intros j tj [[-> ->]|[Hne Hj]]%Hins; [done|]. by apply (Hr j tj).
      * split; [intros [Hc|[Hc _]]%H1; [apply (cached_owned w) in Hc; [lia|done]|specialize (Hlt _ _ _ Hi Hc); lia]|].
        intros j tj [[-> ->]|[Hne Hj]]%Hins; [done|]. intros Hin. specialize (Hlt _ _ _ Hj Hin). lia.
    + destruct (ok_fresh _ Hw j tj f Hj Hf) as [Hc Hr]. split; [intros [?|[Hin _]]%H1; [done|by apply Hne; symmetry; apply (Hr i t)]|].
      intros j' tj' [[-> ->]|[Hne' Hj']]%Hins Hin; [|by apply (Hr j' tj')].
      destruct (H2 f Hin) as [Hin'|[?|Hnew]]; [by apply (Hr i t)|done|]. pose proof (Hlt _ _ _ Hj (fresh_refs _ _ Hf)). lia.
Qed.

(** *** Shards *)

Lemma slots_remove P k h : slots P h -> slots P (bh_remove k h).1.
Proof using L.
  intros [H1 H2 H3]. split; [by apply bh_remove_ok| |].
  - destruct (bh_remove_spec k h H1) as (h' & -> & _ & [Hl1 Hl2]). cbn. by rewrite Hl1, Hl2.
  - intros k' s Hs. apply bh_remove_elem in Hs as [Hs _]; [by apply H3|done].
Qed.

Lemma slots_clear P h : slots P h -> slots P (bh_clear h).
Proof using L.
  intros [H1 H2 _]. destruct (bh_clear_ok h H1) as [H3 H4]. split; [done|done|]. rewrite H4. by intros k s ?%elem_of_nil.
Qed.

Lemma slots_trim P h : slots P h -> slots P (trim h).
Proof using L. intros H. rewrite trim_noop; [done|apply H]. Qed.

Lemma slot_width (s : Slot V) : (get_weight s < 2 ^ 64)%N.
Proof using weight_width. destruct s; [done|apply weight_width]. Qed.

Lemma slots_bh_insert P k s h : P k s -> slots P h -> slots P (bh_insert k s h).1.
Proof using L weight_width.
  intros Hs [H1 H2 H3]. destruct (bh_insert_ok k s h H1 (slot_width s)) as [H4 H5]. split; [done| |].
  - pose proof (bh_insert_spec k s h H1 (slot_width s)) as Hspec. destruct (bh_insert k s h) as [h' r].
    destruct Hspec as (_ & [Hl1 Hl2] & _). cbn. by rewrite Hl1, Hl2.
  - intros k' s' [H| [= -> ->]]%H5; [by apply H3|done].
Qed.

Lemma slots_insert P k s h : P k s -> slots P h -> slots P (insert_or_remove k s h).
Proof using L weight_width.
  intros Hs Hh. unfold insert_or_remove. pose proof (slots_bh_insert P k s h Hs Hh) as Hi.
  pose proof (bh_insert_spec k s h (slots_bh _ _ Hh) (slot_width s)) as Hspec.
  destruct (bh_insert k s h) as [h1 r]. cbn in Hi. destruct r as [[[f|v]|]|e|]; try done; [|by apply slots_remove].
  apply slots_trim, slots_bh_insert; [|done]. destruct Hspec as (_ & _ & Hr). destruct (_ && _); destruct Hr as [Hr _]; [|done].
  injection Hr as Hr. apply Hh, bh_get_elem. unfold bh_get. by rewrite get_iter.
Qed.

Lemma on_shard_slots P g i m : (forall h, slots P h -> slots P (g h)) -> (forall h, h ∈ hash_vec m -> slots P h) ->
  forall h, h ∈ hash_vec (on_shard g i m) -> slots P h.
Proof.
  intros Hg Hm h (j & Hj)%list_elem_of_lookup. cbn in Hj. destruct (decide (i = j)) as [->|Hne].
  - rewrite list_lookup_alter_eq in Hj. destruct (hash_vec m !! j) as [h'|] eqn:El; [|done]. injection Hj as <-.
    by eapply Hg, Hm, list_elem_of_lookup_2.
  - rewrite list_lookup_alter_ne in Hj by done. by eapply Hm, list_elem_of_lookup_2.
Qed.

(** An operation on a shard that adds at most a slot that is [ok]. *)
Lemma on_shard_ok (ok : K -> Slot V -> Prop) g i m : (forall P h, (forall k s, ok k s -> P k s) -> slots P h -> slots P (g h)) ->
  (forall k s, ok k s -> slot_ok m k s) -> (forall h, h ∈ hash_vec m -> shard_ok m h) ->
  (forall h, h ∈ hash_vec (on_shard g i m) -> shard_ok (on_shard g i m) h) /\
  forall f, cached (on_shard g i m) f -> cached m f \/ exists k, ok k (Waiting f).
Proof.
  intros Hg Hok Hm. split.
  - apply (on_shard_slots (slot_ok m)); [intros h; by apply Hg|]. exact Hm.
  - intros f (h & k & Hh & Hs).
    apply (on_shard_slots (fun k s => forall f, s = Waiting f -> cached m f \/ exists k, ok k (Waiting f)) g i m) in Hh.
    + by apply (slots_all _ _ Hh k (Waiting f) Hs).
    + intros h'. apply Hg. intros k' s Hs' f' ->. right. by exists k'.
    + intros h' Hh'. split; [by apply Hm|by apply Hm|]. intros k' s Hs' f' ->. left. by exists h', k'.
Qed.

(** Operations that add nothing. *)
Lemma on_shard_less_ok g i m : (forall P h, slots P h -> slots P (g h)) -> (forall h, h ∈ hash_vec m -> shard_ok m h) ->
  (forall h, h ∈ hash_vec (on_shard g i m) -> shard_ok (on_shard g i m) h) /\ forall f, cached (on_shard g i m) f -> cached m f.
Proof.
  intros Hg Hm. destruct (on_shard_ok (fun _ _ => False) g i m) as [H1 H2]; [|done|done|].
  - intros P h _. apply Hg.
  - split; [done|]. intros f [?|[? []]]%H2. done.
Qed.

(** *** Every turn *)

(** The cache stays as it is. *)
Lemma same_world_ok w i t t' : world_ok w -> w_tasks w !! i = Some t -> task_ok (w_memo w) t' ->
  (forall f, f ∈ refs t' -> f ∈ refs t \/ cached (w_memo w) f) ->
  (forall f, fresh_of t' = Some f -> fresh_of t = Some f) -> world_ok (mkWorld (w_memo w) (<[i := t']> (w_tasks w))).
Proof.
  intros Hw Hi Ht H2 H3. apply (turn_world_ok w i t); [done|done|apply changed_refl|apply Hw|apply Hw|done|by left| |].
  - intros f [?|?]%H2; [by left|by right; left].
  - intros f ?%H3. by left.
Qed.

Lemma elem_of_refs t f : f ∈ refs t <-> internal_future t = Some f \/ f ∈ future_of (at_ t).
Proof. unfold refs. rewrite elem_of_app. destruct (internal_future t) as [g|]; cbn; [|rewrite elem_of_nil]; rewrite ?list_elem_of_singleton; naive_solver. Qed.

(** One computation changes. *)
Lemma future_world_ok w i t t' f k c c' : world_ok w -> w_tasks w !! i = Some t -> f ∈ refs t ->
  futures (w_memo w) !! f = Some (k, c) -> computation_ok k c' ->
  (forall f, f ∈ refs t' -> f ∈ refs t) -> (forall f, fresh_of t' = Some f -> fresh_of t = Some f) ->
  (changed [f] (w_memo w) (mkMemo (hash_vec (w_memo w)) (<[f := (k, c')]> (futures (w_memo w)))) ->
   (<[f := (k, c')]> (futures (w_memo w))) !! f = Some (k, c') ->
   task_ok (mkMemo (hash_vec (w_memo w)) (<[f := (k, c')]> (futures (w_memo w)))) t') ->
  world_ok (mkWorld (mkMemo (hash_vec (w_memo w)) (<[f := (k, c')]> (futures (w_memo w)))) (<[i := t']> (w_tasks w))).
Proof.
  intros Hw Hi Hf Hk Hc' Hr Hfr Ht. set (m' := mkMemo _ _) in *. pose proof (lookup_lt_Some _ _ _ Hk) as Hlt.
  assert (changed [f] (w_memo w) m') as Hch.
  { intros g k1 c1 Hg. cbn. destruct (decide (f = g)) as [<-|Hne].
    - rewrite list_lookup_insert_eq by done. exists c'. rewrite Hk in Hg. injection Hg as <- <-. split; [done|]. right. by left.
    - rewrite list_lookup_insert_ne by done. exists c1. split; [done|by left]. }
  apply (turn_world_ok w i t); [done|done| | | | |by left|intros g ?; left; by apply Hr|intros g ?; left; by apply Hfr].
  - intros g k1 c1 Hg. destruct (Hch g k1 c1 Hg) as (c2 & H2 & H3). exists c2. split; [done|]. destruct H3 as [?|Hg'%list_elem_of_singleton]; [by left|right].
    by subst g.
  - intros g k1 c1. cbn. intros [(<- & [= <- <-] & _)|[_ Hg]]%list_lookup_insert_Some; [done|by apply (ok_futures _ Hw g)].
  - intros h Hh. apply (shard_ok_changed [f] (w_memo w)); [done|by apply Hw].
  - apply Ht; [done|]. by apply list_lookup_insert_eq.
Qed.

Lemma poll_computation_ok ready k c : computation_ok k c -> computation_ok k (poll_computation ready c).
Proof. destruct c as [[v|e]|v|[e|]]; cbn; try done; by destruct ready. Qed.

Lemma polling_ok ready w i t f from m' t' : world_ok w -> w_tasks w !! i = Some t -> at_ t = Polling f from ->
  turn ready (w_memo w) t = (m', t') -> world_ok (mkWorld m' (<[i := t']> (w_tasks w))).
Proof.
  intros Hw Hi Hat. unfold turn. rewrite Hat. destruct (ok_tasks _ Hw i t Hi) as [Hrefs Hpc]. rewrite Hat in Hpc.
  assert (f ∈ refs t) as Hf by (apply elem_of_refs; right; rewrite Hat; by left).
  destruct (Hrefs f Hf) as (c & Hc). rewrite Hc. intros [= <- <-].
  pose proof (poll_computation_ok ready _ _ (ok_futures _ Hw f _ c Hc)) as Hc'.
  assert (from = Fresh -> exists r, c = Pending r) as Hpend.
  { intros ->. destruct Hpc as (k & r & Hk). exists r. rewrite Hc in Hk. by injection Hk as _ ->. }
  set (c' := poll_computation ready c) in *.
  assert (forall g, g ∈ refs (real_poll t f from c') -> g ∈ refs t) as Hr.
  { intros g. rewrite !elem_of_refs, Hat. destruct c' as [r|v|e]; cbn; rewrite ?elem_of_nil, ?list_elem_of_singleton.
    - intros [[= ->]| ->]; by right.
    - intros [?|[]]; by left.
    - done. }
  apply (future_world_ok w i t _ f (key t) c c'); [done|done|done|done|done|done| |].
  - intros g. unfold fresh_of. rewrite Hat. by destruct c'.
  - intros Hch Heq. split.
    + intros g Hg. assert (key (real_poll t f from c') = key t) as -> by (by destruct c'). by apply (owned_changed [f] (w_memo w)), Hrefs, Hr.
    + destruct c' as [r|v|e] eqn:Ec'; cbn; [by split|split; by intros ? [= <-]|]. destruct from; try done.
      destruct (Hpend eq_refl) as (r & ->). exists (key t). destruct e as [e|]; [by exists e|].
      exfalso. unfold c' in Ec'. destruct r as [v|e]; cbn in Ec'; by destruct ready.
Qed.

Lemma taking_ok ready w i t f from m' t' : world_ok w -> w_tasks w !! i = Some t -> at_ t = Taking f from ->
  turn ready (w_memo w) t = (m', t') -> world_ok (mkWorld m' (<[i := t']> (w_tasks w))).
Proof.
  intros Hw Hi Hat. unfold turn. rewrite Hat. destruct (ok_tasks _ Hw i t Hi) as [Hrefs Hpc]. rewrite Hat in Hpc.
  assert (f ∈ refs t) as Hf by (apply elem_of_refs; right; rewrite Hat; by left).
  destruct (Hrefs f Hf) as (c & Hc). rewrite Hc.
  assert ((exists e, c = Failed (Some e)) \/ from <> Fresh) as Hfresh.
  { destruct from; [by right|by right|left]. destruct Hpc as (k & e & Hk). rewrite Hc in Hk. injection Hk as _ ->. by exists e. }
  assert (forall g p, future_of p = [] -> g ∈ refs (goto t p) -> g ∈ refs t) as Hr.
  { intros g p Hp. rewrite !elem_of_refs. cbn. rewrite Hp, elem_of_nil. intros [?|[]]. by left. }
  assert (world_ok (mkWorld (w_memo w) (<[i := goto t (moved_error from)]> (w_tasks w))) \/ exists e, c = Failed (Some e)) as Hmoved.
  { destruct Hfresh as [?|Hne]; [by right|left]. apply (same_world_ok w i t); [done|done| | |].
    - split; [|by destruct from]. intros g Hg. apply Hrefs. apply (Hr g (moved_error from)); [by destruct from|done].
    - intros g Hg. left. apply (Hr g (moved_error from)); [by destruct from|done].
    - intros g. unfold fresh_of. by destruct from. }
  destruct c as [r|v|[e|]]; cycle 2.
  - intros [= <- <-]. apply (future_world_ok w i t _ f (key t) (Failed (Some e)) (Failed None)); [done|done|done|done|done|by intros g; apply Hr|done|].
    intros Hch _. split; [intros g Hg; apply (owned_changed [f] (w_memo w)); [done|]; apply Hrefs; by apply (Hr g (Returned (Err e)))|].
    apply (ok_futures _ Hw f _ _ Hc).
  - intros [= <- <-]. by destruct Hmoved as [?|[? [=]]].
  - intros [= <- <-]. by destruct Hmoved as [?|[? [=]]].
  - intros [= <- <-]. by destruct Hmoved as [?|[? [=]]].
Qed.

(** The hash table of one shard changes. *)
Lemma shard_world_ok w g j i t t' (ok : K -> Slot V -> Prop) : world_ok w -> w_tasks w !! i = Some t ->
  (forall P h, (forall k s, ok k s -> P k s) -> slots P h -> slots P (g h)) ->
  (forall k s, ok k s -> slot_ok (w_memo w) k s) ->
  (forall k f, ok k (Waiting f) -> f ∈ refs t /\ fresh_of t' = None) ->
  task_ok (w_memo w) t' -> (forall f, f ∈ refs t' -> f ∈ refs t) -> (forall f, fresh_of t' = Some f -> fresh_of t = Some f) ->
  world_ok (mkWorld (on_shard g j (w_memo w)) (<[i := t']> (w_tasks w))).
Proof.
  intros Hw Hi Hg Hok Hwait Ht H2 H3. destruct (on_shard_ok ok g j (w_memo w) Hg Hok) as [Hsh Hc]; [by apply Hw|].
  apply (turn_world_ok w i t); [done|done|exact (changed_refl _ (w_memo w))|apply Hw|exact Hsh| |intros f [?|[k ?]]%Hc; [by left|right; by apply (Hwait k)]
    |intros f ?; left; by apply H2|intros f ?; left; by apply H3].
  apply (task_ok_changed [] (w_memo w)); [exact (changed_refl _ (w_memo w))|by intros f _ ?%elem_of_nil|done].
Qed.

Lemma present_ok ready w i t m' t' : world_ok w -> w_tasks w !! i = Some t -> at_ t = Present ->
  turn ready (w_memo w) t = (m', t') -> world_ok (mkWorld m' (<[i := t']> (w_tasks w))).
Proof using L.
  intros Hw Hi Hat. destruct (ok_tasks _ Hw i t Hi) as [Hrefs _].
  unfold turn. rewrite Hat. destruct (slot_present (key t) (w_memo w)) as [s|] eqn:Eslot.
  2:{ intros [= <- <-]. apply (same_world_ok w i t); [done|done| | |done].
      - split; [|done]. intros g Hg. apply Hrefs. rewrite elem_of_refs, Hat. by apply elem_of_refs in Hg.
      - intros g Hg. left. rewrite elem_of_refs, Hat. by apply elem_of_refs in Hg. }
  unfold slot_present in Eslot. destruct (hash_vec (w_memo w) !! _) as [h|] eqn:Eh; [|done]. cbn in Eslot.
  apply list_elem_of_lookup_2 in Eh. apply bh_get_elem in Eslot. pose proof (slots_all _ _ (ok_shards _ Hw h Eh) _ _ Eslot) as Hok.
  destruct s as [f|v]; intros [= <- <-]; apply (same_world_ok w i t); try done.
  + split; [|done]. intros g [Hg| ->%list_elem_of_singleton]%elem_of_refs; [|done]. apply Hrefs, elem_of_refs. by left.
  + intros g [Hg| ->%list_elem_of_singleton]%elem_of_refs; [left; apply elem_of_refs; by left|right; by exists h, (key t)].
  + split; [|done]. intros g [Hg|?%elem_of_nil]%elem_of_refs; [|done]. apply Hrefs, elem_of_refs. by left.
  + intros g [Hg|?%elem_of_nil]%elem_of_refs; [|done]. left. apply elem_of_refs. by left.
Qed.

Lemma filling_ok ready w i t m' t' : world_ok w -> w_tasks w !! i = Some t -> at_ t = Filling ->
  turn ready (w_memo w) t = (m', t') -> world_ok (mkWorld m' (<[i := t']> (w_tasks w))).
Proof.
  intros Hw Hi Hat. destruct (ok_tasks _ Hw i t Hi) as [Hrefs _].
  unfold turn. rewrite Hat. intros [= <- <-]. set (m' := mkMemo _ _). set (n := length (futures (w_memo w))).
  assert (changed [] (w_memo w) m') as Hch.
  { intros g k c Hg. exists c. cbn. rewrite lookup_app_l by (by eapply lookup_lt_Some). split; [done|by left]. }
  assert (futures m' !! n = Some (key t, Pending (fill (key t) n))) as Hn by (cbn; by apply list_lookup_middle).
  apply (turn_world_ok w i t); [done|done| | | | |by left| |].
  + intros g k c Hg. destruct (Hch g k c Hg) as (c' & H1 & [->|?%elem_of_nil]); [|done]. exists c. split; [done|by left].
  + intros g k c. cbn. intros [Hg|[_ Hg]]%lookup_app_Some; [by apply (ok_futures _ Hw g)|].
    destruct (g - length (futures (w_memo w))) as [|d]; [|done]. injection Hg as <- <-. by eexists.
  + intros h Hh. apply (shard_ok_changed [] (w_memo w)); [done|by apply Hw].
  + split; [|by eexists _, _]. intros g [Hg| ->%list_elem_of_singleton]%elem_of_refs; [|by eexists].
    apply (owned_changed [] (w_memo w)); [done|]. apply Hrefs, elem_of_refs. by left.
  + intros g [Hg| ->%list_elem_of_singleton]%elem_of_refs; [left; apply elem_of_refs; by left|by right; right].
  + intros g [= <-]. by right.
Qed.

Lemma turn_ok ready w i t m' t' : world_ok w -> w_tasks w !! i = Some t -> turn ready (w_memo w) t = (m', t') ->
  world_ok (mkWorld m' (<[i := t']> (w_tasks w))).
Proof using L weight_width.
  intros Hw Hi. destruct (ok_tasks _ Hw i t Hi) as [Hrefs Hpc]. destruct (at_ t) as [|f from|f from|f from| | |s r|r] eqn:Hat.
  - unfold turn. rewrite Hat. destruct (internal_future t) as [f|] eqn:Eint; intros [= <- <-].
    + assert (f ∈ refs t) as Hf by (apply elem_of_refs; by left). apply (same_world_ok w i t); [done|done| | |done].
      * split; [|done]. intros g [[=]| ->%list_elem_of_singleton]%elem_of_refs. by apply Hrefs.
      * intros g [[=]| ->%list_elem_of_singleton]%elem_of_refs. by left.
    + apply (same_world_ok w i t); [done|done| | |done].
      * split; [|done]. intros g [H|?%elem_of_nil]%elem_of_refs; [|done]. cbn in H. congruence.
      * intros g [H|?%elem_of_nil]%elem_of_refs; [|done]. cbn in H. congruence.
  - by apply (polling_ok ready w i t f from).
  - unfold turn. rewrite Hat. intros [= <- <-].
    apply (shard_world_ok w _ _ i t (goto t (Taking f from)) (fun _ _ => False)); [done|done|by intros P h _; apply slots_remove|done|done| | |].
    + split; [|by destruct from]. intros g Hg. apply Hrefs. rewrite elem_of_refs, Hat. by apply elem_of_refs in Hg.
    + intros g. by rewrite !elem_of_refs, Hat.
    + intros g. unfold fresh_of. rewrite Hat. cbn. by destruct from.
  - by apply (taking_ok ready w i t f from).
  - by apply (present_ok ready w i t).
  - by apply (filling_ok ready w i t).
  - unfold turn. rewrite Hat. intros [= <- <-]. destruct Hpc as [Hs Hr].
    assert (forall g, g ∈ refs (goto t (Returned (Ok r))) -> g ∈ refs t) as Hrf.
    { intros g. rewrite !elem_of_refs. cbn. rewrite elem_of_nil. intros [?|[]]. by left. }
    apply (shard_world_ok w _ _ i t (goto t (Returned (Ok r))) (fun k s' => k = key t /\ s' = s)); [done|done| | | | |exact Hrf|done].
    + intros P h HP. by apply slots_insert, HP.
    + intros k s' [-> ->]. destruct s as [f|v]; [|by apply Hs]. apply Hrefs, elem_of_refs. right. rewrite Hat. by left.
    + intros k f [_ <-]. split; [|done]. apply elem_of_refs. right. rewrite Hat. by left.
    + split; [intros g Hg; by apply Hrefs, Hrf|]. destruct r as [|v]; [done|]. by apply Hr.
  - unfold turn. rewrite Hat. intros [= <- <-]. rewrite list_insert_id by done. by destruct w.
Qed.

(** An operation on a shard between the turns. *)
Lemma shard_step_ok w g j : world_ok w -> (forall P h, slots P h -> slots P (g h)) ->
  world_ok (mkWorld (on_shard g j (w_memo w)) (w_tasks w)).
Proof.
  intros Hw Hg. destruct (on_shard_less_ok g j (w_memo w) Hg) as [Hsh Hc]; [by apply Hw|]. split; cbn [w_memo w_tasks]; [apply Hw|exact Hsh| |].
  - intros i t Hi. apply (task_ok_changed [] (w_memo w)); [exact (changed_refl _ (w_memo w))|by intros f _ ?%elem_of_nil|by apply (ok_tasks _ Hw i)].
  - intros i t f Hi Hf. destruct (ok_fresh _ Hw i t f Hi Hf) as [H1 H2]. split; [by intros ?%Hc|done].
Qed.

(** A task that begins, or begins to poll again. *)
Lemma goto_handle_ok m t : task_ok m t -> (exists r, at_ t = Returned r) -> task_ok m (goto t Handle).
Proof.
  intros [H1 _] [r Hr]. split; [|done]. intros f Hf. apply H1. rewrite elem_of_refs, Hr. by apply elem_of_refs in Hf.
Qed.

Lemma memo_step_ok w w' : world_ok w -> step w w' -> world_ok w'.
Proof using L weight_width.
  intros Hw Hstep. destruct Hstep as [k|i t r Hi Hat|i t ready m t' Hi Ht|k|i|i].
  - assert (forall i t, (w_tasks w ++ [memo_get k]) !! i = Some t -> w_tasks w !! i = Some t \/ t = memo_get k) as Hl.
    { intros i t [?|[_ Hi]]%lookup_app_Some; [by left|right]. by destruct (i - length (w_tasks w)) as [|d]; [injection Hi as <-|]. }
    split; cbn [w_memo w_tasks]; [apply Hw|apply Hw| |].
    + intros i t [Hi| ->]%Hl; [by apply (ok_tasks _ Hw i)|]. split; [|done]. by intros f ?%elem_of_nil.
    + intros i t f [Hi| ->]%Hl; [|done]. intros Hf. destruct (ok_fresh _ Hw i t f Hi Hf) as [Hnc Hno]. split; [done|].
      intros j t' [Hj| ->]%Hl; [by apply (Hno j)|]. by intros ?%elem_of_nil.
  - apply (same_world_ok w i t); [done|done|apply goto_handle_ok; [by apply (ok_tasks _ Hw i)|by eexists]| |done].
    intros f Hf. left. rewrite elem_of_refs, Hat. by apply elem_of_refs in Hf.
  - by apply (turn_ok ready w i t).
  - apply shard_step_ok; [done|]. intros P h. apply slots_remove.
  - apply shard_step_ok; [done|]. intros P h. apply slots_clear.
  - apply shard_step_ok; [done|]. intros P h. apply slots_trim.
Qed.

Lemma new_ok e w n m : with_limits_and_shards e w n = Ok m -> (e / n = el)%N -> (w / n = wl)%N ->
  (e < 2 ^ 64)%N -> (w < 2 ^ 64)%N -> world_ok (mkWorld m []).
Proof using L.
  unfold with_limits_and_shards. destruct (0 <? e)%N; [|done]. destruct (0 <? w)%N; [|done]. destruct (N.eqb_spec n 0) as [|Hn]; [done|].
  intros [= <-] <- <- He Hw.
  assert (e / n < 2 ^ 64 /\ w / n < 2 ^ 64)%N as [He' Hw'].
  { assert (forall x, x / n <= x)%N as Hle by (intros x; apply N.Div0.div_le_upper_bound; nia).
    split; (eapply N.le_lt_trans; [apply Hle|done]). }
  destruct (bh_new_ok (e / n) (w / n) He' Hw') as [Hok Hit].
  split; cbn [w_memo w_tasks futures hash_vec]; [done| |done|done].
  intros h ->%elem_of_replicate_inv. split; [done|done|]. rewrite Hit. by intros k s ?%elem_of_nil.
Qed.
End memo.

Section results.
Context {K V E M : Type} `{!EqDecision K} {O : LinkedHashMap K (Slot V) M} {W : Weight V} {L : LinkedHashMapLaws O}.
Context (fill : K -> nat -> V + E) (hash : K -> N) (weight_width : forall v, (get_weight v < 2 ^ 64)%N).

(** What is put in the cache is found there, and a complete value stays. *)
Lemma insert_or_remove_get k s h : bh_ok h -> (0 < entrylimit h)%N -> (get_weight s <= weightlimit h)%N ->
  bh_get k (insert_or_remove k s h) = Some (match bh_get k h with Some (Complete v) => Complete v | _ => s end).
Proof using L weight_width.
  intros Hok He Hs. pose proof (ok_limits _ Hok) as [_ Hl]. assert (get_weight s < 2 ^ 64)%N as Hlt by lia.
  destruct (bh_insert_get k s h Hok He) as [Hg Hr]; [lia|]. pose proof (bh_insert_spec k s h Hok Hlt) as Hspec.
  unfold insert_or_remove. destruct (bh_insert k s h) as [h1 r]. cbn in Hg, Hr. destruct Hspec as (Hok1 & [Hl1 Hl2] & _). subst r.
  destruct (bh_get k h) as [[f|v]|] eqn:E0; [done| |done].
  assert (get_weight (Complete v) <= weightlimit h1)%N as Hv by (rewrite Hl2; by eapply bh_get_weight).
  rewrite trim_noop; [apply (bh_insert_get k (Complete v) h1 Hok1); lia|]. apply bh_insert_ok; [done|apply (slot_width weight_width)].
Qed.

(** How many turns of a poll are left. *)
Definition turns_left (p : pc (V := V) (E := E)) : nat :=
  match p with
  | Handle => 12
  | Polling _ Internal => 11 | Removing _ Internal => 10 | Taking _ Internal => 9
  | Present => 8
  | Polling _ Cached => 7 | Removing _ Cached => 6 | Taking _ Cached => 5
  | Filling => 4
  | Polling _ Fresh => 3 | Removing _ Fresh => 2 | Taking _ Fresh => 1
  | Inserting _ _ => 1
  | Returned _ => 0
  end.

Lemma turn_left ready m t : turns_left (at_ (turn fill hash ready m t).2) <= pred (turns_left (at_ t)).
Proof.
  unfold turn. destruct (at_ t) as [|f from|f from|f from| | |s r|r] eqn:Hat; cbn; try lia.
  - destruct (internal_future t); cbn; lia.
  - destruct (futures m !! f) as [[k c]|]; cbn; [|lia]. destruct (poll_computation ready c); cbn; destruct from; lia.
  - destruct from; lia.
  - destruct (futures m !! f) as [[k [r|v|[e|]]]|]; cbn; destruct from; cbn; lia.
  - destruct (slot_present hash (key t) m) as [[f|v]|]; cbn; lia.
  - by rewrite Hat.
Qed.

(** The turns of a task, each in the cache that it finds. *)
Fixpoint turns_in (ms : list (bool * Asyncmemo)) (t : MemoFuture) : MemoFuture (K := K) (V := V) (E := E) :=
  match ms with
  | [] => t
  | (ready, m) :: ms => turns_in ms (turn fill hash ready m t).2
  end.

(** Every poll returns, whatever other tasks do in between. *)
Lemma poll_returns ms t : 12 <= length ms -> exists r, at_ (turns_in ms (goto t Handle)) = Returned r.
Proof.
  intros Hms. assert (forall ms t, turns_left (at_ t) <= length ms -> exists r, at_ (turns_in ms t) = Returned r) as H.
  { clear. intros ms. induction ms as [|[ready m] ms IH]; intros t Ht.
    - cbn in *. destruct (at_ t) as [|f []|f []|f []| | | |r]; cbn in Ht; try lia. by exists r.
    - apply IH. pose proof (turn_left ready m t). cbn in Ht. lia. }
  by apply H.
Qed.

Lemma turns_steps n ready : forall m ts i t, ts !! i = Some t ->
  rtc (step fill hash) (mkWorld m ts) (mkWorld (turns fill hash n ready m t).1 (<[i := (turns fill hash n ready m t).2]> ts)).
Proof.
  induction n as [|n IH]; intros m ts i t Hi; cbn [turns]; [by rewrite list_insert_id|].
  destruct (turn fill hash ready m t) as [m1 t1] eqn:Et.
  apply (rtc_l _ _ (mkWorld m1 (<[i := t1]> ts))); [by apply (step_turn fill hash (mkWorld m ts) i t ready)|].
  rewrite <- (list_insert_insert_eq ts i (turns fill hash n ready m1 t1).2 t1). apply IH. by eapply list_lookup_insert_eq, lookup_lt_Some.
Qed.

(** A whole poll is a sequence of steps. *)
Lemma memo_poll_steps ready w i t r : w_tasks w !! i = Some t -> at_ t = Returned (Ok r) ->
  rtc (step fill hash) w (mkWorld (memo_poll fill hash ready (w_memo w) t).1 (<[i := (memo_poll fill hash ready (w_memo w) t).2]> (w_tasks w))).
Proof.
  intros Hi Hat. apply (rtc_l _ _ (mkWorld (w_memo w) (<[i := goto t Handle]> (w_tasks w)))); [by apply (step_poll _ _ w i t r)|].
  rewrite <- (list_insert_insert_eq (w_tasks w) i (memo_poll fill hash ready (w_memo w) t).2 (goto t Handle)). apply turns_steps. by eapply list_lookup_insert_eq, lookup_lt_Some.
Qed.

(** C27. Whatever tasks do, one turn at a time and in any order, with keys
    invalidated and shards cleared or trimmed in between: a task gets only
    values and errors of computations that were started for its key, and never
    hits the panic for the error of its own computation; every complete value
    in the cache is of a computation for its key; and every shard is within
    its share of the limits, with the right sum of weights. *)
Theorem memo_sound e w n m world : (e < 2 ^ 64)%N -> (w < 2 ^ 64)%N -> with_limits_and_shards e w n = Ok m ->
  rtc (step fill hash) (mkWorld m []) world ->
  (forall t, t ∈ w_tasks world -> at_ t <> Returned Panic /\
    (forall v, at_ t = Returned (Ok (Ready v)) -> computed fill (key t) v) /\
    (forall er, at_ t = Returned (Err er) -> failed_with fill (key t) er)) /\
  (forall k v, slot_present hash k (w_memo world) = Some (Complete v) -> computed fill k v) /\
  (forall h, h ∈ hash_vec (w_memo world) ->
    (bh_len h <= e / n)%N /\ (weigh (bh_iter h) <= w / n)%N /\ total_weight h = weigh (bh_iter h)).
Proof using L weight_width.
  intros He Hw Hm Hsteps. pose proof (new_ok fill (e / n) (w / n) e w n m Hm eq_refl eq_refl He Hw) as Hok.
  assert (world_ok fill (e / n) (w / n) world) as Hend.
  { clear -Hsteps Hok L weight_width. induction Hsteps as [|w0 w1 w2 H1 _ IH]; [done|]. by apply IH, (memo_step_ok fill hash weight_width _ _ w0). }
  split; [|split].
  - intros t (i & Hi)%list_elem_of_lookup. destruct (ok_tasks _ _ _ _ Hend i t Hi) as [_ Hpc].
    split; [|split]; [intros Hat|intros v Hat|intros er Hat]; by rewrite Hat in Hpc.
  - intros k v. unfold slot_present. destruct (hash_vec (w_memo world) !! _) as [h|] eqn:Eh; [|done]. cbn. intros Hg%bh_get_elem.
    apply list_elem_of_lookup_2 in Eh. by apply (slots_all _ _ _ _ (ok_shards _ _ _ _ Hend h Eh) _ _ Hg).
  - intros h Hh. destruct (ok_shards _ _ _ _ Hend h Hh) as [[H1 H2 H3 H4] [H5 H6] _].
    unfold bh_len. rewrite len_iter. fold (bh_iter h). rewrite <- H5, <- H6. done.
Qed.

(** Limits below the number of shards leave no room at all. *)
Lemma small_limits e w m h k s : (e < 1000)%N -> (w < 2 ^ 64)%N -> with_limits (E := E) e w = Ok m -> h ∈ hash_vec m ->
  (bh_insert k s h).2 = Err (k, s).
Proof using fill L weight_width.
  intros He Hw Hm Hh. assert (e / SHARD_NUM = 0)%N as H0 by (apply N.div_small; unfold SHARD_NUM; lia).
  destruct (ok_shards _ _ _ _ (new_ok fill 0 (w / SHARD_NUM) e w SHARD_NUM m Hm H0 eq_refl ltac:(lia) Hw) h Hh) as [Hok [Hl _] _].
  pose proof (bh_insert_spec k s h Hok (slot_width weight_width s)) as Hspec. destruct (bh_insert k s h) as [h' r].
  destruct Hspec as (_ & _ & Hr). rewrite Hl in Hr. by destruct Hr as [-> _].
Qed.
End results.

(** ** Example *)

(** The first computation of a key fails, the next gives ten times the key. *)
Definition ex_fill (k : N) (n : nat) : N + unit := match n with 0 => inr tt | _ => inl (k * 10)%N end.
Definition ex_cache : Type := Asyncmemo (K := N) (V := N) (E := unit) (M := linked N (Slot N)).
Definition ex_memo : ex_cache := mkMemo (replicate 2 (BoundedHash_new 2 50)) [].
Definition ex_task : MemoFuture (K := N) (V := N) (E := unit) := memo_get 7%N.
Definition ex_failed : ex_cache * MemoFuture := memo_poll ex_fill (fun k => k) true ex_memo ex_task.
Definition ex_done : ex_cache * MemoFuture := memo_poll ex_fill (fun k => k) true ex_failed.1 (memo_get 7%N).

Example ex_failed_result : at_ ex_failed.2 = Returned (Err tt).
Proof. vm_compute. reflexivity. Qed.

Lemma memo_sound_witness : computed ex_fill 7%N 70%N /\ failed_with ex_fill 7%N tt.
Proof.
  assert (rtc (step ex_fill (fun k => k)) (mkWorld ex_memo []) (mkWorld ex_done.1 [ex_failed.2; ex_done.2])) as Hsteps.
  { apply (rtc_l _ _ (mkWorld ex_memo [ex_task])); [exact (step_get _ _ (mkWorld ex_memo []) 7%N)|].
    etrans; [exact (memo_poll_steps ex_fill (fun k => k) true (mkWorld ex_memo [ex_task]) 0 _ NotReady eq_refl eq_refl)|].
    apply (rtc_l _ _ (mkWorld ex_failed.1 [ex_failed.2; memo_get 7%N])); [exact (step_get _ _ (mkWorld ex_failed.1 [ex_failed.2]) 7%N)|].
    exact (memo_poll_steps ex_fill (fun k => k) true (mkWorld ex_failed.1 [ex_failed.2; memo_get 7%N]) 1 _ NotReady eq_refl eq_refl). }
  destruct (memo_sound ex_fill (fun k => k) (W := Weight_u64) (fun _ => eq_refl) 4%N 100%N 2%N ex_memo _ eq_refl eq_refl eq_refl Hsteps) as [H _].
  split.
  - apply (H ex_done.2); [right; by left|]. vm_compute. reflexivity.
  - apply (H ex_failed.2); [by left|]. vm_compute. reflexivity.
Defined.
