(* ===== verification/Framing.v ===== *)
(** * Decoding byte streams

    The interface of a frame decoder ([Decoder], the trait of [tokio_io] that
    the codecs of the program implement) and the model of the two drivers of
    [futures-ext]: [LayeredDecode] ([src/decode.rs]), which runs a decoder
    over a stream of byte chunks, and [BytesStream] ([src/bytes_stream]).
    The main theorem says that how the bytes are cut into chunks, and when
    the chunks arrive, has no influence on the items a lawful decoder
    produces. *)

From S2P Require Import Prelude.

(** ** The decoder interface

    [decode] and [decode_eof] take the decoder's state and the buffer; they
    return the new state with an item or [None], and what is left of the
    buffer. *)

Class Decoder (St Item E : Type) := {
  decode : St -> bytes -> St * outcome E (option Item * bytes);
  decode_eof : St -> bytes -> St * outcome E (option Item * bytes);
}.

(** What the drivers rely on. [decode_more]: more input after the buffer does
    not change what was decoded or refused from it, and a decoder that asked
    for more input goes on as if it had seen all of it at once. The other two
    laws: an item takes up input, and a decoder never adds to the buffer. *)
Class DecoderLaws {St Item E : Type} (D : Decoder St Item E) : Prop := {
  decode_more st buf ext :
    match decode st buf with
    | (st', Ok (Some x, rest)) => decode st (buf ++ ext) = (st', Ok (Some x, rest ++ ext))
    | (st', Ok (None, rest)) => decode st (buf ++ ext) = decode st' (rest ++ ext)
    | (st', Err e) => decode st (buf ++ ext) = (st', Err e)
    | (st', Panic) => decode st (buf ++ ext) = (st', Panic)
    end;
  decode_progress st buf st' x rest :
    decode st buf = (st', Ok (Some x, rest)) -> length rest < length buf;
  decode_wait st buf st' rest :
    decode st buf = (st', Ok (None, rest)) -> length rest <= length buf;
  decode_eof_progress st buf st' x rest :
    length buf <> 0 -> decode_eof st buf = (st', Ok (Some x, rest)) -> length rest < length buf;
}.

Section Driver.
Context {St Item E : Type} `{D : !Decoder St Item E}.

(** ** [LayeredDecode] *)

(** [input] is what the remaining polls of the input stream return: not
    ready, or a chunk; after the last one the stream ends. *)
Record LayeredDecode := mkLD {
  input : list (poll bytes);
  decoder : St;
  buf : bytes;
  eof : bool;
  is_readable : bool;
}.

Definition decode_stream (input : list (poll bytes)) (decoder : St) : LayeredDecode :=
  mkLD input decoder [] false false.

(** The branch of [poll] at the end of the input. *)
Definition poll_eof (st : St) (b : bytes) : LayeredDecode * outcome E (poll (option Item)) :=
  if Nat.eqb (length b) 0 then (mkLD [] st b true true, Ok (Ready None))
  else
    match decode_eof st b with
    | (st', Ok (ret, b')) => (mkLD [] st' b' true true, Ok (Ready ret))
    | (st', Err e) => (mkLD [] st' b true true, Err e)
    | (st', Panic) => (mkLD [] st' b true true, Panic)
    end.

(** The loop of [poll] before the end of the input; one iteration per chunk. *)
Fixpoint poll_loop (input : list (poll bytes)) (st : St) (b : bytes) (is_readable : bool)
    : LayeredDecode * outcome E (poll (option Item)) :=
  let read st b :=
    match input with
    | [] => poll_eof st b
    | NotReady :: input => (mkLD input st b false false, Ok NotReady)
    | Ready v :: input => poll_loop input st (b ++ v) true
    end in
  if is_readable then
    match decode st b with
    | (st', Ok (Some frame, b')) => (mkLD input st' b' false true, Ok (Ready (Some frame)))
    | (st', Ok (None, b')) => read st' b'
    | (st', Err e) => (mkLD input st' b false true, Err e)
    | (st', Panic) => (mkLD input st' b false true, Panic)
    end
  else read st b.

Definition LayeredDecode_poll (s : LayeredDecode)
    : LayeredDecode * outcome E (poll (option Item)) :=
  if eof s then
    if is_readable s then poll_eof (decoder s) (buf s) else (s, Panic)
  else poll_loop (input s) (decoder s) (buf s) (is_readable s).

(** A consumer that polls until the stream ends or fails, and keeps the
    items; [None] when it has not come to an end after [n] polls. *)
Fixpoint drive (n : nat) (s : LayeredDecode) : option (list Item * outcome E unit) :=
  match n with
  | O => None
  | S n =>
      match LayeredDecode_poll s with
      | (s', Ok (Ready (Some x))) => (fun '(xs, r) => (x :: xs, r)) <$> drive n s'
      | (s', Ok (Ready None)) => Some ([], Ok tt)
      | (s', Ok NotReady) => drive n s'
      | (s', Err e) => Some ([], Err e)
      | (s', Panic) => Some ([], Panic)
      end
  end.

(** ** The reference: all the bytes at once *)

(** Items decoded from a buffer until the decoder asks for more; one more
    step than there are bytes is enough for a lawful decoder. *)
Fixpoint drain_fuel (n : nat) (st : St) (b : bytes) : list Item * St * outcome E bytes :=
  match decode st b with
  | (st', Ok (Some x, rest)) =>
      match n with
      | O => ([], st', Panic)
      | S n => let '(xs, st'', r) := drain_fuel n st' rest in (x :: xs, st'', r)
      end
  | (st', Ok (None, rest)) => ([], st', Ok rest)
  | (st', Err e) => ([], st', Err e)
  | (st', Panic) => ([], st', Panic)
  end.

Definition drain (st : St) (b : bytes) := drain_fuel (length b) st b.

Fixpoint drain_eof_fuel (n : nat) (st : St) (b : bytes) : list Item * outcome E unit :=
  if Nat.eqb (length b) 0 then ([], Ok tt) else
  match decode_eof st b with
  | (st', Ok (Some x, rest)) =>
      match n with
      | O => ([], Panic)
      | S n => let '(xs, r) := drain_eof_fuel n st' rest in (x :: xs, r)
      end
  | (st', Ok (None, rest)) => ([], Ok tt)
  | (st', Err e) => ([], Err e)
  | (st', Panic) => ([], Panic)
  end.

Definition drain_eof (st : St) (b : bytes) := drain_eof_fuel (length b) st b.

Definition decode_all (st : St) (b : bytes) : list Item * outcome E unit :=
  match drain st b with
  | (xs, st', Ok rest) => let '(ys, r) := drain_eof st' rest in (xs ++ ys, r)
  | (xs, _, Err e) => (xs, Err e)
  | (xs, _, Panic) => (xs, Panic)
  end.

(** The bytes of the chunks that are still to come. *)
Fixpoint input_bytes (input : list (poll bytes)) : bytes :=
  match input with
  | [] => []
  | NotReady :: input => input_bytes input
  | Ready v :: input => v ++ input_bytes input
  end.

Context `{!DecoderLaws D}.

Lemma drain_fuel_enough n : forall st b, length b <= n -> drain_fuel n st b = drain st b.
Proof.
  enough (forall n m st b, length b <= n -> length b <= m ->
            drain_fuel n st b = drain_fuel m st b) as H by (intros; by apply H).
  clear n. induction n as [|n IH]; intros [|m] st b Hn Hm; simpl;
    destruct (decode st b) as [st' [[[x|] rest]|e|]] eqn:Ed; try done;
    pose proof (decode_progress _ _ _ _ _ Ed); try lia.
  rewrite (IH m st' rest) by lia. done.
Qed.

Lemma drain_eof_fuel_enough n : forall st b,
  length b <= n -> drain_eof_fuel n st b = drain_eof st b.
Proof.
  enough (forall n m st b, length b <= n -> length b <= m ->
            drain_eof_fuel n st b = drain_eof_fuel m st b) as H by (intros; by apply H).
  clear n. induction n as [|n IH]; intros [|m] st b Hn Hm; simpl;
    destruct (Nat.eqb_spec (length b) 0); try done;
    destruct (decode_eof st b) as [st' [[[x|] rest]|e|]] eqn:Ed; try done;
    pose proof (decode_eof_progress _ _ _ _ _ ltac:(done) Ed); try lia.
  rewrite (IH m st' rest) by lia. done.
Qed.

Lemma drain_step st b :
  drain st b =
  match decode st b with
  | (st', Ok (Some x, rest)) => let '(xs, st'', r) := drain st' rest in (x :: xs, st'', r)
  | (st', Ok (None, rest)) => ([], st', Ok rest)
  | (st', Err e) => ([], st', Err e)
  | (st', Panic) => ([], st', Panic)
  end.
Proof.
  unfold drain at 1. destruct (length b) as [|n] eqn:En; cbn [drain_fuel];
    destruct (decode st b) as [st' [[[x|] rest]|e|]] eqn:Ed; try done;
    pose proof (decode_progress _ _ _ _ _ Ed); [lia|].
  rewrite drain_fuel_enough by lia. done.
Qed.

Lemma drain_eof_step st b :
  drain_eof st b =
  if Nat.eqb (length b) 0 then ([], Ok tt) else
  match decode_eof st b with
  | (st', Ok (Some x, rest)) => let '(xs, r) := drain_eof st' rest in (x :: xs, r)
  | (st', Ok (None, rest)) => ([], Ok tt)
  | (st', Err e) => ([], Err e)
  | (st', Panic) => ([], Panic)
  end.
Proof.
  unfold drain_eof at 1. destruct (length b) as [|n] eqn:En; [by cbn [drain_eof_fuel]; rewrite En|].
  cbn [drain_eof_fuel]. rewrite En. cbn [Nat.eqb].
  destruct (decode_eof st b) as [st' [[[x|] rest]|e|]] eqn:Ed; try done.
  pose proof (decode_eof_progress _ _ _ _ _ ltac:(by rewrite En) Ed). rewrite drain_eof_fuel_enough by lia. done.
Qed.

(** One decoding step seen from the reference. *)
Lemma decode_all_step st b :
  decode_all st b =
  match decode st b with
  | (st', Ok (Some x, rest)) => let '(xs, r) := decode_all st' rest in (x :: xs, r)
  | (st', Ok (None, rest)) => drain_eof st' rest
  | (st', Err e) => ([], Err e)
  | (st', Panic) => ([], Panic)
  end.
Proof.
  unfold decode_all. rewrite drain_step.
  destruct (decode st b) as [st' [[[x|] rest]|e|]] eqn:Ed; simpl; try done.
  - destruct (drain st' rest) as [[xs st''] [r|e|]]; simpl; [|done|done].
    by destruct (drain_eof st'' r).
  - by destruct (drain_eof st' rest).
Qed.

(** Asking the decoder before more input arrives does not change the run. *)
Lemma decode_all_early st b st' rest ext :
  decode st b = (st', Ok (None, rest)) -> decode_all st (b ++ ext) = decode_all st' (rest ++ ext).
Proof.
  intros Ed. pose proof (decode_more st b ext) as H. rewrite Ed in H.
  rewrite (decode_all_step st), (decode_all_step st'). by rewrite H.
Qed.

Lemma decode_None_again st b st' rest :
  decode st b = (st', Ok (None, rest)) -> decode st' rest = (st', Ok (None, rest)).
Proof.
  intros Ed. pose proof (decode_more st b []) as H. rewrite Ed, !app_nil_r in H. congruence.
Qed.

(** ** The driver computes the reference *)

(** What is left to be delivered in a state of the driver, the states it can
    be in, and how far it is from its end. *)
Definition remaining (s : LayeredDecode) : list Item * outcome E unit :=
  if eof s then drain_eof (decoder s) (buf s)
  else decode_all (decoder s) (buf s ++ input_bytes (input s)).

Definition driver_ok (s : LayeredDecode) : Prop :=
  (eof s = true -> is_readable s = true /\ input s = []) /\
  (is_readable s = false -> decode (decoder s) (buf s) = (decoder s, Ok (None, buf s))).

Definition distance (s : LayeredDecode) : nat :=
  length (input s) + length (buf s) + length (input_bytes (input s)).

(** What one poll has to establish: [total] was left to be delivered, and
    the driver was at distance at most [d]. *)
Definition poll_correct (total : list Item * outcome E unit) (d : nat)
    (r : LayeredDecode * outcome E (poll (option Item))) : Prop :=
  match r with
  | (s', Ok (Ready (Some x))) =>
      total = (x :: (remaining s').1, (remaining s').2) /\ driver_ok s' /\ distance s' < d
  | (s', Ok (Ready None)) => total = ([], Ok tt)
  | (s', Ok NotReady) => total = remaining s' /\ driver_ok s' /\ distance s' < d
  | (s', Err e) => total = ([], Err e)
  | (s', Panic) => total = ([], Panic)
  end.

Lemma poll_correct_mono total d d' r : d <= d' -> poll_correct total d r -> poll_correct total d' r.
Proof.
  unfold poll_correct. intros Hd. destruct r as [s' [[|[x|]]|e|]]; try done;
    intros (? & ? & ?); (split; [done|]); (split; [done | lia]).
Qed.

Lemma poll_eof_correct st b : poll_correct (drain_eof st b) (length b) (poll_eof st b).
Proof.
  unfold poll_eof. rewrite drain_eof_step. destruct (Nat.eqb_spec (length b) 0); [done|].
  destruct (decode_eof st b) as [st' [[[x|] rest]|e|]] eqn:Ed; try done. simpl.
  unfold remaining, driver_ok, distance. simpl. pose proof (decode_eof_progress _ _ _ _ _ ltac:(done) Ed).
  split; [by destruct (drain_eof st' rest)|]. split; [done | lia].
Qed.

(** Reading the next chunk, when the decoder has asked for one. *)
Definition read_next (input : list (poll bytes)) (st : St) (b : bytes) :=
  match input with
  | [] => poll_eof st b
  | NotReady :: input => (mkLD input st b false false, Ok NotReady)
  | Ready v :: input => poll_loop input st (b ++ v) true
  end.

Lemma poll_loop_unfold input st b rd :
  poll_loop input st b rd =
  if rd then
    match decode st b with
    | (st', Ok (Some frame, b')) => (mkLD input st' b' false true, Ok (Ready (Some frame)))
    | (st', Ok (None, b')) => read_next input st' b'
    | (st', Err e) => (mkLD input st' b false true, Err e)
    | (st', Panic) => (mkLD input st' b false true, Panic)
    end
  else read_next input st b.
Proof. by destruct input. Qed.

Lemma poll_step_correct input st b (rd : bool) :
  (rd = false -> decode st b = (st, Ok (None, b))) ->
  (forall st0 b0, decode st0 b0 = (st0, Ok (None, b0)) ->
     poll_correct (decode_all st0 (b0 ++ input_bytes input))
       (length input + length b0 + length (input_bytes input)) (read_next input st0 b0)) ->
  poll_correct (decode_all st (b ++ input_bytes input))
    (length input + length b + length (input_bytes input))
    (if rd then
      match decode st b with
      | (st', Ok (Some frame, b')) => (mkLD input st' b' false true, Ok (Ready (Some frame)))
      | (st', Ok (None, b')) => read_next input st' b'
      | (st', Err e) => (mkLD input st' b false true, Err e)
      | (st', Panic) => (mkLD input st' b false true, Panic)
      end
    else read_next input st b).
Proof.
  intros Hrd Hread. destruct rd; [|by apply Hread, Hrd].
  pose proof (decode_more st b (input_bytes input)) as Hm.
  destruct (decode st b) as [st' [[[x|] rest]|e|]] eqn:Ed.
  - rewrite decode_all_step, Hm. pose proof (decode_progress _ _ _ _ _ Ed). simpl.
    unfold remaining, driver_ok, distance. simpl.
    split; [by destruct (decode_all st' (rest ++ input_bytes input))|]. split; [done | lia].
  - rewrite (decode_all_early _ _ _ _ _ Ed). pose proof (decode_wait _ _ _ _ Ed).
    eapply poll_correct_mono; [|apply Hread; by eapply decode_None_again]. lia.
  - by rewrite decode_all_step, Hm.
  - by rewrite decode_all_step, Hm.
Qed.

Lemma poll_loop_correct input : forall st b rd,
  (rd = false -> decode st b = (st, Ok (None, b))) ->
  poll_correct (decode_all st (b ++ input_bytes input))
    (length input + length b + length (input_bytes input)) (poll_loop input st b rd).
Proof.
  induction input as [|ev input IH]; intros st b rd Hrd; rewrite poll_loop_unfold;
    match goal with |- poll_correct (decode_all _ (_ ++ input_bytes ?i)) _ _ =>
      assert (forall st0 b0, decode st0 b0 = (st0, Ok (None, b0)) ->
        poll_correct (decode_all st0 (b0 ++ input_bytes i))
          (length i + length b0 + length (input_bytes i)) (read_next i st0 b0)) as Hread end.
  - intros st0 b0 E0. simpl. rewrite app_nil_r, decode_all_step, E0, Nat.add_0_r.
    apply poll_eof_correct.
  - by apply poll_step_correct.
  - intros st0 b0 E0. destruct ev as [|v]; simpl.
    + split; [done|]. split; [by split|]. unfold distance. simpl. lia.
    + rewrite app_assoc. eapply poll_correct_mono; [|apply IH; done]. rewrite !length_app. lia.
  - by apply poll_step_correct.
Qed.

(** The driver of a whole stream delivers what is left. *)
Lemma drive_correct n : forall s, driver_ok s -> distance s < n -> drive n s = Some (remaining s).
Proof.
  induction n as [|n IH]; intros s [Heof Hrd] Hd; [lia|]. cbn [drive].
  assert (poll_correct (remaining s) (distance s) (LayeredDecode_poll s)) as H.
  { unfold LayeredDecode_poll, remaining, distance. destruct (eof s) eqn:Ee.
    - destruct (Heof eq_refl) as [-> Hi]. eapply poll_correct_mono; [|apply poll_eof_correct]. lia.
    - by apply poll_loop_correct. }
  destruct (LayeredDecode_poll s) as [s' [[|[x|]]|e|]]; simpl in H.
  - destruct H as (-> & Hok & Hd'). apply IH; [done | lia].
  - destruct H as (-> & Hok & Hd'). rewrite IH by (done || lia). simpl. by destruct (remaining s').
  - by rewrite H.
  - by rewrite H.
  - by rewrite H.
Qed.

(** From the start of a stream. *)
Lemma drive_stream (events : list (poll bytes)) (st : St) (n : nat) :
  decode st [] = (st, Ok (None, [])) ->
  length events + length (input_bytes events) < n ->
  drive n (decode_stream events st) = Some (decode_all st (input_bytes events)).
Proof.
  intros H0 Hn. rewrite drive_correct; [done | | unfold distance; simpl; lia].
  split; [done|]. intros _. exact H0.
Qed.

(** C32. How the input is cut into chunks and how often it is not ready makes
    no difference: polled more often than there are events and bytes, the
    stream ends, having delivered exactly the items that a lawful decoder
    finds in all the bytes at once. *)
Theorem layered_decode_segmentation (events : list (poll bytes)) (st : St) (n : nat) :
  decode st [] = (st, Ok (None, [])) ->
  length events + length (input_bytes events) < n ->
  drive n (decode_stream events st) = Some (decode_all st (input_bytes events)).
Proof. apply drive_stream. Qed.
End Driver.
