(* ===== verification/ByteStream.v ===== *)
(** * Byte streams shared by successive decoders

    Model of [futures-ext/src/bytes_stream]: [BytesStream], a buffer in front
    of a stream of chunks, from which one decoder after the other takes one
    item each ([into_future_decode]), and the buffered reads of [Read] and
    [BufRead]. *)

From S2P Require Import Prelude Framing.

Record BytesStream := mkBS {
  bs_bytes : bytes;
  bs_stream : list (poll bytes);
  stream_done : bool;
}.

Definition BytesStream_new (stream : list (poll bytes)) : BytesStream := mkBS [] stream false.

Definition BytesStream_is_empty (s : BytesStream) : bool :=
  Nat.eqb (length (bs_bytes s)) 0 && stream_done s.

Definition into_parts (s : BytesStream) : bytes * list (poll bytes) := (bs_bytes s, bs_stream s).

Definition prepend_bytes (s : BytesStream) (b : bytes) : BytesStream :=
  mkBS (b ++ bs_bytes s) (bs_stream s) (stream_done s).

Definition poll_buffer (s : BytesStream) : BytesStream * poll unit :=
  if negb (stream_done s) then
    match bs_stream s with
    | [] => (mkBS (bs_bytes s) [] true, Ready tt)
    | NotReady :: rest => (mkBS (bs_bytes s) rest (stream_done s), NotReady)
    | Ready b :: rest => (mkBS (bs_bytes s ++ b) rest (stream_done s), Ready tt)
    end
  else (s, Ready tt).

(** [None]: the [while] loop has not come to an end after [n] iterations. *)
Fixpoint poll_buffer_until (n : nat) (len : N) (s : BytesStream)
    : option (BytesStream * poll unit) :=
  match n with
  | O => None
  | S n =>
      if (lenN (bs_bytes s) <? len)%N || stream_done s then
        match poll_buffer s with
        | (s', NotReady) => Some (s', NotReady)
        | (s', Ready _) => poll_buffer_until n len s'
        end
      else Some (s, Ready tt)
  end.

Inductive io_error := WouldBlock.

(** [Read::read]: the bytes copied into a buffer of [buf_len] bytes. *)
Definition BytesStream_read (n : nat) (buf_len : N) (s : BytesStream)
    : option (BytesStream * outcome io_error bytes) :=
  '(s, async) ← poll_buffer_until n buf_len s;
  let not_ready := match async with NotReady => true | Ready _ => false end in
  if Nat.eqb (length (bs_bytes s)) 0 && not_ready then Some (s, Err WouldBlock)
  else
    let len := N.min buf_len (lenN (bs_bytes s)) in
    if (len =? 0)%N then Some (s, Ok [])
    else Some (mkBS (drop (N.to_nat len) (bs_bytes s)) (bs_stream s) (stream_done s),
               Ok (take (N.to_nat len) (bs_bytes s))).

(** [BufRead::fill_buf] and [BufRead::consume]. *)
Definition fill_buf (n : nat) (s : BytesStream) : option (BytesStream * outcome io_error bytes) :=
  if Nat.eqb (length (bs_bytes s)) 0 then
    '(s, async) ← poll_buffer_until n 1 s;
    match async with
    | NotReady => Some (s, Err WouldBlock)
    | Ready _ => Some (s, Ok (bs_bytes s))
    end
  else Some (s, Ok (bs_bytes s)).

Definition consume (amt : N) (s : BytesStream) : outcome io_error BytesStream :=
  '(_, b) ← split_to amt (bs_bytes s);
  Ok (mkBS b (bs_stream s) (stream_done s)).

(** ** One item from the stream: [BytesStreamFuture] *)

Section Future.
Context {St Item E : Type} `{D : !Decoder St Item E}.

Record BytesStreamFuture := mkFuture {
  fut_bs : BytesStream;
  fut_decoder : St;
  fut_is_readable : bool;
}.

Definition into_future_decode (s : BytesStream) (decoder : St) : BytesStreamFuture :=
  mkFuture s decoder (negb (Nat.eqb (length (bs_bytes s)) 0) || stream_done s).

(** The loop of [poll], for a stream that has not ended. The result carries
    the stream back to the caller; [Ready None] is the end of the input. *)
Definition future_eof (st : St) (b : bytes) : BytesStreamFuture * outcome E (poll (option Item)) :=
  match decode_eof st b with
  | (st', Ok (ret, b')) => (mkFuture (mkBS b' [] true) st' true, Ok (Ready ret))
  | (st', Err e) => (mkFuture (mkBS b [] true) st' true, Err e)
  | (st', Panic) => (mkFuture (mkBS b [] true) st' true, Panic)
  end.

Fixpoint future_loop (stream : list (poll bytes)) (st : St) (b : bytes) (is_readable : bool)
    : BytesStreamFuture * outcome E (poll (option Item)) :=
  let read st b :=
    match stream with
    | [] => future_eof st b
    | NotReady :: stream => (mkFuture (mkBS b stream false) st false, Ok NotReady)
    | Ready v :: stream => future_loop stream st (b ++ v) true
    end in
  if is_readable then
    match decode st b with
    | (st', Ok (Some frame, b')) =>
        (mkFuture (mkBS b' stream false) st' true, Ok (Ready (Some frame)))
    | (st', Ok (None, b')) => read st' b'
    | (st', Err e) => (mkFuture (mkBS b stream false) st' true, Err e)
    | (st', Panic) => (mkFuture (mkBS b stream false) st' true, Panic)
    end
  else read st b.

Definition future_poll (f : BytesStreamFuture)
    : BytesStreamFuture * outcome E (poll (option Item)) :=
  if stream_done (fut_bs f) then
    future_eof (fut_decoder f) (bs_bytes (fut_bs f))
  else future_loop (bs_stream (fut_bs f)) (fut_decoder f) (bs_bytes (fut_bs f)) (fut_is_readable f).

(** Poll until the future is ready. *)
Fixpoint await (n : nat) (f : BytesStreamFuture) : option (outcome E (option Item) * BytesStream) :=
  match n with
  | O => None
  | S n =>
      match future_poll f with
      | (f', Ok NotReady) => await n f'
      | (f', Ok (Ready x)) => Some (Ok x, fut_bs f')
      | (f', Err e) => Some (Err e, fut_bs f')
      | (f', Panic) => Some (Panic, fut_bs f')
      end
  end.

(** All the bytes the stream still has. *)
Definition bs_all (s : BytesStream) : bytes := bs_bytes s ++ input_bytes (bs_stream s).

Context `{!DecoderLaws D}.

Definition future_ok (f : BytesStreamFuture) : Prop :=
  stream_done (fut_bs f) = false /\
  (fut_is_readable f = false ->
   decode (fut_decoder f) (bs_bytes (fut_bs f)) = (fut_decoder f, Ok (None, bs_bytes (fut_bs f)))).

Lemma future_loop_item stream : forall st b rd st' x rest,
  (rd = false -> decode st b = (st, Ok (None, b))) ->
  decode st (b ++ input_bytes stream) = (st', Ok (Some x, rest)) ->
  match future_loop stream st b rd with
  | (f', Ok (Ready (Some y))) => y = x /\ bs_all (fut_bs f') = rest /\ stream_done (fut_bs f') = false
  | (f', Ok NotReady) =>
      future_ok f' /\ length (bs_stream (fut_bs f')) < length stream /\
      decode (fut_decoder f') (bs_all (fut_bs f')) = (st', Ok (Some x, rest))
  | _ => False
  end.
Proof.
  induction stream as [|ev stream IH]; intros st b rd st' x rest Hrd Hd.
  - cbn [input_bytes] in Hd. rewrite app_nil_r in Hd. cbn [future_loop].
    destruct rd; [|by rewrite (Hrd eq_refl) in Hd].
    rewrite Hd. simpl. unfold bs_all. simpl. by rewrite app_nil_r.
  - assert (forall st0 b0, decode st0 b0 = (st0, Ok (None, b0)) ->
      decode st0 (b0 ++ input_bytes (ev :: stream)) = (st', Ok (Some x, rest)) ->
      match (match ev with
             | NotReady => (mkFuture (mkBS b0 stream false) st0 false, Ok NotReady)
             | Ready v => future_loop stream st0 (b0 ++ v) true
             end : BytesStreamFuture * outcome E (poll (option Item))) with
      | (f', Ok (Ready (Some y))) =>
          y = x /\ bs_all (fut_bs f') = rest /\ stream_done (fut_bs f') = false
      | (f', Ok NotReady) =>
          future_ok f' /\ length (bs_stream (fut_bs f')) < length (ev :: stream) /\
          decode (fut_decoder f') (bs_all (fut_bs f')) = (st', Ok (Some x, rest))
      | _ => False
      end) as Hread.
    { intros st0 b0 E0 Hd0. destruct ev as [|v]; cbn [input_bytes] in Hd0.
      - split; [by split|]. simpl. split; [lia|]. exact Hd0.
      - rewrite app_assoc in Hd0. specialize (IH st0 (b0 ++ v) true st' x rest ltac:(done) Hd0).
        destruct (future_loop _ _ _ _) as [f' [[|[y|]]|e|]]; try done.
        destruct IH as (? & ? & ?). split; [done|]. split; [simpl; lia | done]. }
    cbn [future_loop]. destruct rd; [|by apply Hread; [apply Hrd|]].
    pose proof (decode_more st b (input_bytes (ev :: stream))) as Hm.
    destruct (decode st b) as [st1 [[[y|] r]|e|]] eqn:Ed; rewrite Hd in Hm; try done.
    + injection Hm as H1 H2 H3. split; [by rewrite H2|]. split; [|done]. symmetry. exact H3.
    + apply Hread; [by eapply decode_None_again | done].
Qed.

(** A future that reads one item from the stream gives the item that the
    decoder finds at the head of the bytes, however they arrive, and leaves
    exactly the rest of them to the next reader. *)
Theorem future_decode_exact (s : BytesStream) (st st' : St) (x : Item) (rest : bytes) (n : nat) :
  stream_done s = false -> decode st [] = (st, Ok (None, [])) ->
  decode st (bs_all s) = (st', Ok (Some x, rest)) -> length (bs_stream s) < n ->
  exists s', await n (into_future_decode s st) = Some (Ok (Some x), s') /\
             bs_all s' = rest /\ stream_done s' = false.
Proof.
  intros Hdone H0 Hd Hn.
  assert (forall n f, future_ok f -> length (bs_stream (fut_bs f)) < n ->
            decode (fut_decoder f) (bs_all (fut_bs f)) = (st', Ok (Some x, rest)) ->
            exists s', await n f = Some (Ok (Some x), s') /\ bs_all s' = rest /\
                       stream_done s' = false) as H.
  { clear -D DecoderLaws0. induction n as [|n IH]; intros f [Hdone Hrd] Hn Hd; [lia|].
    cbn [await]. unfold future_poll. rewrite Hdone.
    pose proof (future_loop_item _ _ _ _ _ _ _ Hrd Hd) as Hl.
    destruct (future_loop _ _ _ _) as [f' [[|[y|]]|e|]]; try done.
    - destruct Hl as (Hok & Hlt & Hd'). apply IH; [done | lia | done].
    - destruct Hl as (-> & Hall & Hdn). eauto. }
  apply H; [|done|done]. split; [done|]. simpl. destruct (bs_bytes s) eqn:Eb; [|done].
  by rewrite Hdone.
Qed.
End Future.

(** ** Buffered reads *)

Lemma poll_buffer_until_done n : forall len s,
  stream_done s = true -> poll_buffer_until n len s = None.
Proof.
  induction n as [|n IH]; intros len s Hs; [done|]. cbn [poll_buffer_until].
  rewrite Hs, orb_true_r. unfold poll_buffer. rewrite Hs. simpl. by apply IH.
Qed.

(** C40. Once the stream has ended, [poll_buffer_until] never returns: its
    loop condition holds for ever, whatever is in the buffer, so that a read
    from the stream hangs instead of reporting the end of the file. *)
Theorem poll_buffer_until_hangs (s : BytesStream) (len : N) (n : nat) :
  stream_done s = true ->
  poll_buffer_until n len s = None /\ BytesStream_read n len s = None.
Proof.
  intros Hs. split; [by apply poll_buffer_until_done|].
  unfold BytesStream_read. by rewrite poll_buffer_until_done.
Qed.

Lemma poll_buffer_until_hangs_witness :
  poll_buffer_until 1000 3 (mkBS (bstr "abcdef") [] true) = None.
Proof. exact (proj1 (poll_buffer_until_hangs (mkBS (bstr "abcdef") [] true) 3 1000 eq_refl)). Defined.

(** Before the end of the stream a read is bounded by the chunks to come. *)
Lemma poll_buffer_until_enough stream : forall b len n,
  (len <= lenN (b ++ input_bytes stream))%N -> length stream < n ->
  exists s' r, poll_buffer_until n len (mkBS b stream false) = Some (s', r) /\
    bs_bytes s' ++ input_bytes (bs_stream s') = b ++ input_bytes stream /\
    stream_done s' = false /\ (r = Ready tt -> (len <= lenN (bs_bytes s'))%N).
Proof.
  induction stream as [|ev stream IH]; intros b len [|n] Hlen Hn; cbn [length] in Hn; try lia;
    cbn [poll_buffer_until bs_bytes stream_done]; rewrite orb_false_r.
  - cbn [input_bytes] in Hlen. rewrite app_nil_r in Hlen.
    rewrite (proj2 (N.ltb_ge _ _)) by lia. eauto 10.
  - destruct (N.ltb_spec (lenN b) len) as [Hlt|Hge]; [|eauto 10].
    unfold poll_buffer. cbn [negb stream_done bs_stream bs_bytes]. destruct ev as [|v].
    + eexists _, _. split; [done|]. done.
    + cbn [input_bytes] in *. rewrite app_assoc in *. apply IH; [done | lia].
Qed.

(** While the stream has at least as many bytes as asked for, a read
    returns after at most one poll per chunk; it returns the bytes at the
    head of the stream, at least one unless none was asked for or the stream
    was not ready, and leaves the others in place. *)
Theorem read_prefix (s : BytesStream) (buf_len : N) (n : nat) :
  stream_done s = false -> (buf_len <= lenN (bs_all s))%N -> length (bs_stream s) < n ->
  exists s' r, BytesStream_read n buf_len s = Some (s', r) /\
    match r with
    | Ok got => got ++ bs_all s' = bs_all s /\ (lenN got <= buf_len)%N /\
                (got = [] -> buf_len = 0%N)
    | Err WouldBlock => bs_all s' = bs_all s /\ bs_bytes s' = []
    | Panic => False
    end.
Proof.
  destruct s as [b stream d]. simpl. intros -> Hlen Hn.
  destruct (poll_buffer_until_enough stream b buf_len n Hlen Hn) as (s1 & r & Hp & Hall & Hd & Hr).
  unfold BytesStream_read. rewrite Hp. cbn -[N.min].
  destruct (Nat.eqb_spec (length (bs_bytes s1)) 0) as [E0|E0]; cbn [andb].
  - apply nil_length_inv in E0. destruct r as [|[]]; [by eexists _, _|].
    specialize (Hr eq_refl). rewrite E0 in *. unfold lenN in Hr. cbn [length] in Hr. eexists _, _.
    replace buf_len with 0%N by lia. cbn. split; [done|]. split; [|done].
    unfold bs_all. by rewrite E0.
  - destruct (N.eqb_spec (N.min buf_len (lenN (bs_bytes s1))) 0) as [Em|Em].
    + eexists _, _. split; [done|]. split; [done|]. split; [unfold lenN; cbn [length]; lia|].
      intros _. unfold lenN in *. lia.
    + eexists _, _. split; [done|]. unfold bs_all. cbn -[N.min]. split_and!.
      * by rewrite app_assoc, take_drop.
      * unfold lenN in *. rewrite length_take. lia.
      * intros Et. apply (f_equal length) in Et. rewrite length_take in Et. unfold lenN in *.
        cbn [length] in Et. lia.
Qed.

Lemma read_prefix_witness :
  exists s' r, BytesStream_read 3 4 (mkBS (bstr "ab") [Ready (bstr "cd"); NotReady] false)
               = Some (s', r).
Proof.
  destruct (read_prefix (mkBS (bstr "ab") [Ready (bstr "cd"); NotReady] false) 4 3)
    as (s' & r & H & _).
  - reflexivity.
  - vm_compute. discriminate.
  - cbn. lia.
  - exists s', r. exact H.
Defined.
