(* ===== verification/Netstring.v ===== *)
(** * Netstrings

    Model of the [netstring] crate: the decoder's state machine
    ([src/decode.rs]) and the encoder ([src/encode.rs]), the framing between
    the client wrapper and the server. *)

From S2P Require Import Prelude Decimal Framing ByteStream.

Definition colon : byte := x3a.
Definition comma : byte := x2c.

(** ** The decoder *)

Inductive State :=
| Num (cur : N)
| Body (len : N).

(** [None] once an error has broken the framing. *)
Record NetstringDecoder := mkNetstring { state : option State }.

Definition NetstringDecoder_new : NetstringDecoder := mkNetstring (Some (Num 0)).

Record Slice := mkSlice { slice_start : N; slice_len : N }.
Definition slice_end (s : Slice) : N := (slice_start s + slice_len s)%N.

Inductive netstring_error := BadState | BadCharacter | MissingComma | BytesRemaining.

(** The [for] loop of the state [Num]: stop at a colon ([inl]: the bytes eaten
    and the number), run out of input ([inr]: the number so far), or fail. *)
Fixpoint scan_num (cur eaten : N) (buf : bytes) : outcome netstring_error ((N * N) + N) :=
  match buf with
  | [] => Ok (inr cur)
  | inp :: buf =>
      if is_digit inp
      then scan_num (add_digit cur inp) (eaten + 1) buf
      else if decide (inp = colon) then Ok (inl ((eaten + 1)%N, cur))
      else Err BadCharacter
  end.

(** The state [Body]: [buf] is what follows the [consumed] bytes. The sum
    [len + 1] of the source does not fit a [usize] for one length only, and
    the access to the comma panics in that case. *)
Definition decode_body (consumed len : N) (buf : bytes)
    : option State * outcome netstring_error (N * option (bool * Slice)) :=
  if (2 ^ 64 <=? len + 1)%N then (None, Panic) else
  if (len + 1 <=? lenN buf)%N then
    let v := mkSlice consumed len in
    match buf !! N.to_nat len with
    | Some b =>
        if decide (b = comma)
        then (Some (Num 0), Ok ((consumed + (len + 1))%N, Some (true, v)))
        else (None, Err MissingComma)
    | None => (None, Panic)
    end
  else
    let v := mkSlice consumed (lenN buf) in
    (Some (Body (len - slice_len v)), Ok ((consumed + slice_len v)%N, Some (false, v))).

(** The loop of [decode_buf] goes round once more only from [Num] to [Body]. *)
Definition decode_buf (st : NetstringDecoder) (buf : bytes)
    : NetstringDecoder * outcome netstring_error (N * option (bool * Slice)) :=
  match state st with
  | None => (mkNetstring None, Err BadState)
  | Some (Num cur) =>
      match scan_num cur 0 buf with
      | Ok (inl (eaten, len)) =>
          let '(next, ret) := decode_body eaten len (drop (N.to_nat eaten) buf) in
          (mkNetstring next, ret)
      | Ok (inr cur) => (mkNetstring (Some (Num cur)), Ok (lenN buf, None))
      | Err e => (mkNetstring None, Err e)
      | Panic => (mkNetstring None, Panic)
      end
  | Some (Body len) =>
      let '(next, ret) := decode_body 0 len buf in (mkNetstring next, ret)
  end.

Definition netstring_decode (st : NetstringDecoder) (buf : bytes)
    : NetstringDecoder * outcome netstring_error (option bytes * bytes) :=
  let saved := st in
  match decode_buf st buf with
  | (st', Ok (consumed, Some (true, slice))) =>
      (st',
       '(ret, buf) ← split_to (slice_end slice) buf;
       buf ← (if (slice_end slice <? consumed)%N
              then '(_, buf) ← split_to (consumed - slice_end slice) buf; Ok buf
              else Ok buf);
       '(_, ret) ← split_to (slice_start slice) ret;
       Ok (Some ret, buf))
  | (st', Ok (_, Some (false, _))) | (st', Ok (_, None)) => (saved, Ok (None, buf))
  | (st', Err e) => (st', Err e)
  | (st', Panic) => (st', Panic)
  end.

(** [decode_eof] is the one the trait provides: bytes that do not form an
    item are an error. *)
Definition netstring_decode_eof (st : NetstringDecoder) (buf : bytes)
    : NetstringDecoder * outcome netstring_error (option bytes * bytes) :=
  match netstring_decode st buf with
  | (st', Ok (None, rest)) =>
      (st', if Nat.eqb (length rest) 0 then Ok (None, rest) else Err BytesRemaining)
  | r => r
  end.

#[export] Instance netstring_decoder : Decoder NetstringDecoder bytes netstring_error := {|
  decode := netstring_decode; decode_eof := netstring_decode_eof |}.

(** ** The encoder *)

Definition netstring_encode (msg buf : bytes) : bytes :=
  buf ++ decimal (lenN msg) ++ [colon] ++ msg ++ [comma].

(** ** Numbers *)

Lemma scan_digits ds : forall cur eaten r,
  Forall (fun b => is_digit b = true) ds ->
  scan_num cur eaten (ds ++ r) = scan_num (foldl add_digit cur ds) (eaten + lenN ds) r.
Proof.
  induction ds as [|d ds IH]; intros cur eaten r Hd; cbn [app scan_num foldl].
  - unfold lenN. cbn [length]. by rewrite N.add_0_r.
  - apply Forall_cons in Hd as [Hd Hds]. rewrite Hd, IH by done. f_equal. unfold lenN.
    cbn [length]. lia.
Qed.

Lemma scan_decimal n eaten r :
  (n < 2 ^ 64)%N -> scan_num 0 eaten (decimal n ++ r) = scan_num n (eaten + lenN (decimal n)) r.
Proof.
  intros Hn. rewrite scan_digits by apply decimal_digits. by rewrite decimal_value.
Qed.

(** ** The decoder is lawful *)

(** The number is read the same way when more input follows. *)
Lemma scan_num_more buf ext : forall cur eaten,
  match scan_num cur eaten buf with
  | Ok (inl (e, n)) => scan_num cur eaten (buf ++ ext) = Ok (inl (e, n)) /\
                       (eaten < e <= eaten + lenN buf)%N
  | Ok (inr _) => True
  | Err e => scan_num cur eaten (buf ++ ext) = Err e
  | Panic => False
  end.
Proof.
  induction buf as [|b buf IH]; intros cur eaten; cbn [app scan_num]; [done|].
  assert (lenN (b :: buf) = 1 + lenN buf)%N as Hl by solve_len.
  destruct (is_digit b).
  - specialize (IH (add_digit cur b) (eaten + 1)%N).
    destruct (scan_num _ _ buf) as [[[e n]|n]|e|]; try done.
    destruct IH as [-> ?]. split; [done | lia].
  - case_decide; [split; [done | lia] | done].
Qed.

Lemma decode_body_more consumed len buf ext :
  match decode_body consumed len buf with
  | (st, Ok (c, Some (true, v))) =>
      decode_body consumed len (buf ++ ext) = (st, Ok (c, Some (true, v))) /\
      v = mkSlice consumed len /\ c = (consumed + (len + 1))%N /\ (len + 1 <= lenN buf)%N
  | (st, Ok (_, Some (false, _))) => True
  | (st, Ok (_, None)) => False
  | (st, Err e) => decode_body consumed len (buf ++ ext) = (st, Err e)
  | (st, Panic) => decode_body consumed len (buf ++ ext) = (st, Panic)
  end.
Proof.
  unfold decode_body. destruct (2 ^ 64 <=? len + 1)%N; [done|].
  destruct (N.leb_spec (len + 1) (lenN buf)) as [Hle|Hgt]; [|done].
  rewrite (proj2 (N.leb_le (len + 1) (lenN (buf ++ ext)))) by solve_len.
  rewrite lookup_app_l by (unfold lenN in *; lia).
  destruct (buf !! N.to_nat len) as [b|]; [|done]. case_decide; done.
Qed.

(** Taking the slice out of the buffer. *)
Lemma take_slice (buf : bytes) start len :
  (start + len + 1 <= lenN buf)%N ->
  ('(ret, rest) ← split_to (E := netstring_error) (start + len) buf;
   rest ← (if (start + len <? start + (len + 1))%N
           then '(_, rest) ← split_to (start + (len + 1) - (start + len)) rest; Ok rest
           else Ok rest);
   '(_, ret) ← split_to start ret;
   Ok (Some ret, rest))
  = Ok (Some (take (N.to_nat len) (drop (N.to_nat start) buf)),
        drop (N.to_nat (start + len + 1)) buf).
Proof.
  intros Hle. rewrite (split_to_Ok _ buf), bind_Ok by lia.
  rewrite (proj2 (N.ltb_lt _ _)) by lia.
  rewrite (split_to_Ok _ (drop _ _)), !bind_Ok by (unfold lenN in *; rewrite length_drop; lia).
  rewrite (split_to_Ok _ (take _ _)), bind_Ok by (unfold lenN in *; rewrite length_take; lia).
  rewrite drop_drop. f_equal. f_equal; [f_equal|].
  - rewrite skipn_firstn_comm. f_equal. lia.
  - f_equal. lia.
Qed.

(** A step of [decode] that yields an item, or fails, does the same with more
    input; otherwise nothing changes. *)
Lemma netstring_decode_cases st buf :
  (exists start len next, decode_buf st buf = (next, Ok ((start + (len + 1))%N, Some (true, mkSlice start len)))
     /\ (start + len + 1 <= lenN buf)%N
     /\ forall ext, decode_buf st (buf ++ ext)
                    = (next, Ok ((start + (len + 1))%N, Some (true, mkSlice start len)))) \/
  (exists next e, decode_buf st buf = (next, Err e) /\ forall ext, decode_buf st (buf ++ ext) = (next, Err e)) \/
  (exists next, decode_buf st buf = (next, Panic) /\ forall ext, decode_buf st (buf ++ ext) = (next, Panic)) \/
  netstring_decode st buf = (st, Ok (None, buf)).
Proof.
  unfold netstring_decode. destruct st as [[[cur|len]|]]; unfold decode_buf; cbn [state].
  - pose proof (fun ext => scan_num_more buf ext cur 0) as Hs.
    destruct (scan_num cur 0 buf) as [[[e n]|n]|e|]; [| by do 3 right| |by destruct (Hs [])].
    + pose proof (proj2 (Hs [])) as He.
      pose proof (fun ext => decode_body_more e n (drop (N.to_nat e) buf) ext) as Hb.
      assert (forall ext, drop (N.to_nat e) (buf ++ ext) = drop (N.to_nat e) buf ++ ext) as Hd.
      { intros ext. apply drop_app_le. unfold lenN in *. lia. }
      destruct (decode_body e n (drop (N.to_nat e) buf)) as [next [[c [[[] v]|]]|err|]].
      * left. destruct (Hb []) as (_ & -> & -> & Hle). exists e, n, (mkNetstring next).
        split; [done|]. split; [unfold lenN in *; rewrite length_drop in Hle; lia|].
        intros ext. destruct (Hs ext) as [-> _]. rewrite Hd. by destruct (Hb ext) as (-> & _).
      * by do 3 right.
      * by destruct (Hb []).
      * right; left. exists (mkNetstring next), err. split; [done|].
        intros ext. destruct (Hs ext) as [-> _]. by rewrite Hd, (Hb ext).
      * do 2 right; left. exists (mkNetstring next). split; [done|].
        intros ext. destruct (Hs ext) as [-> _]. by rewrite Hd, (Hb ext).
    + right; left. exists (mkNetstring None), e. split; [done|]. intros ext. by rewrite Hs.
  - pose proof (fun ext => decode_body_more 0 len buf ext) as Hb.
    destruct (decode_body 0 len buf) as [next [[c [[[] v]|]]|err|]].
    + left. destruct (Hb []) as (_ & -> & -> & Hle). exists 0%N, len, (mkNetstring next).
      split; [done|]. split; [lia|]. intros ext. by destruct (Hb ext) as (-> & _).
    + by do 3 right.
    + by destruct (Hb []).
    + right; left. exists (mkNetstring next), err. split; [done|]. intros ext. by rewrite Hb.
    + do 2 right; left. exists (mkNetstring next). split; [done|]. intros ext. by rewrite Hb.
  - right; left. eexists _, _. done.
Qed.

Lemma netstring_decode_item st buf start len next :
  decode_buf st buf = (next, Ok ((start + (len + 1))%N, Some (true, mkSlice start len))) ->
  (start + len + 1 <= lenN buf)%N ->
  netstring_decode st buf =
    (next, Ok (Some (take (N.to_nat len) (drop (N.to_nat start) buf)),
               drop (N.to_nat (start + len + 1)) buf)).
Proof.
  intros Hb Hle. unfold netstring_decode. rewrite Hb. f_equal. unfold slice_end. cbn [slice_start slice_len].
  by apply take_slice.
Qed.

#[export] Instance netstring_laws : DecoderLaws netstring_decoder.
Proof.
  assert (forall st buf st' x rest,
            netstring_decode st buf = (st', Ok (Some x, rest)) -> length rest < length buf) as Hprog.
  { intros st buf st' x rest Hd.
    destruct (netstring_decode_cases st buf) as [(s & l & nx & E & Hle & _)|[(nx & e & E & _)|[(nx & E & _)|E]]].
    - rewrite (netstring_decode_item _ _ _ _ _ E Hle) in Hd. injection Hd as <- <- <-.
      rewrite length_drop. unfold lenN in *. lia.
    - unfold netstring_decode in Hd. by rewrite E in Hd.
    - unfold netstring_decode in Hd. by rewrite E in Hd.
    - congruence. }
  split; cbn [decode decode_eof netstring_decoder].
  - intros st buf ext.
    destruct (netstring_decode_cases st buf) as [(s & l & nx & E & Hle & H)|[(nx & e & E & H)|[(nx & E & H)|E]]].
    + rewrite (netstring_decode_item _ _ _ _ _ E Hle).
      rewrite (netstring_decode_item _ _ _ _ _ (H ext)) by solve_len.
      f_equal. f_equal. f_equal.
      * f_equal. rewrite drop_app_le, take_app_le; [done| |]; unfold lenN in *; rewrite ?length_drop; lia.
      * apply drop_app_le. unfold lenN in *. lia.
    + unfold netstring_decode at 1. rewrite E. unfold netstring_decode. by rewrite H.
    + unfold netstring_decode at 1. rewrite E. unfold netstring_decode. by rewrite H.
    + by rewrite E.
  - apply Hprog.
  - intros st buf st' rest Hd.
    destruct (netstring_decode_cases st buf) as [(s & l & nx & E & Hle & H)|[(nx & e & E & H)|[(nx & E & H)|E]]].
    + by rewrite (netstring_decode_item _ _ _ _ _ E Hle) in Hd.
    + unfold netstring_decode in Hd. by rewrite E in Hd.
    + unfold netstring_decode in Hd. by rewrite E in Hd.
    + rewrite E in Hd. by injection Hd as <- <-.
  - intros st buf st' x rest _ Hd. unfold netstring_decode_eof in Hd.
    destruct (netstring_decode st buf) as [st1 [[[y|] r]|e|]] eqn:E; try done.
    + injection Hd as <- <- <-. by eapply Hprog.
    + injection Hd as _ Hd. by case_match.
Qed.

(** ** Round trip *)

Lemma netstring_decode_encode msg rest :
  (lenN msg < 2 ^ 64 - 1)%N ->
  netstring_decode NetstringDecoder_new (netstring_encode msg [] ++ rest)
  = (NetstringDecoder_new, Ok (Some msg, rest)).
Proof.
  intros Hlen.
  set (p := decimal (lenN msg) ++ [colon]).
  assert (lenN p = lenN (decimal (lenN msg)) + 1)%N as Hp by (unfold p; solve_len).
  assert (netstring_encode msg [] ++ rest = p ++ msg ++ comma :: rest) as ->.
  { unfold netstring_encode, p. cbn [app]. by rewrite <- !app_assoc; simpl; rewrite <- app_assoc. }
  assert (decode_buf NetstringDecoder_new (p ++ msg ++ comma :: rest)
          = (NetstringDecoder_new,
             Ok ((lenN p + (lenN msg + 1))%N, Some (true, mkSlice (lenN p) (lenN msg))))) as E.
  { unfold decode_buf. cbn [state NetstringDecoder_new]. unfold p at 1. rewrite <- app_assoc.
    rewrite scan_decimal by lia. cbn [app scan_num]. change (is_digit colon) with false. cbn iota.
    rewrite decide_True by done. rewrite N.add_0_l, <- Hp.
    rewrite drop_app_length' by (unfold lenN; lia).
    unfold decode_body. rewrite (proj2 (N.leb_gt _ _)) by lia.
    rewrite (proj2 (N.leb_le _ _)) by solve_len.
    rewrite lookup_app_r by (unfold lenN; lia).
    replace (N.to_nat (lenN msg) - length msg) with 0 by (unfold lenN; lia). done. }
  rewrite (netstring_decode_item _ _ _ _ _ E) by solve_len. f_equal. f_equal. f_equal.
  - f_equal. rewrite drop_app_length' by (unfold lenN; lia). by rewrite take_app_length' by (unfold lenN; lia).
  - rewrite app_assoc. change (comma :: rest) with ([comma] ++ rest). rewrite app_assoc.
    apply drop_app_length'. unfold lenN. rewrite !length_app. simpl. lia.
Qed.

Lemma decode_all_encoded msgs :
  Forall (fun m => (lenN m < 2 ^ 64 - 1)%N) msgs ->
  decode_all NetstringDecoder_new (foldl (fun buf m => netstring_encode m buf) [] msgs) = (msgs, Ok tt).
Proof.
  intros Hm. assert (forall msgs buf, foldl (fun buf m => netstring_encode m buf) buf msgs
                        = buf ++ concat ((fun m => netstring_encode m []) <$> msgs)) as Hfold.
  { clear. induction msgs as [|m msgs IH]; intros buf; simpl; [by rewrite app_nil_r|].
    rewrite IH. unfold netstring_encode. simpl. by rewrite <- !app_assoc. }
  rewrite Hfold. cbn [app]. clear Hfold. induction Hm as [|m msgs Hl _ IH]; [done|].
  rewrite decode_all_step. cbn [fmap list_fmap concat].
  change (decode (Decoder := netstring_decoder)) with netstring_decode.
  rewrite netstring_decode_encode by done. by rewrite IH.
Qed.

(** Netstring framing is lossless: whatever messages are written, and
    however their bytes are cut and delayed on the way, the reader gets
    exactly these messages in order and then the end of the stream. *)
Theorem netstring_stream_roundtrip (msgs : list bytes) (events : list (poll bytes)) (n : nat) :
  Forall (fun m => (lenN m < 2 ^ 64 - 1)%N) msgs ->
  input_bytes events = foldl (fun buf m => netstring_encode m buf) [] msgs ->
  length events + length (input_bytes events) < n ->
  drive n (decode_stream events NetstringDecoder_new) = Some (msgs, Ok tt).
Proof.
  intros Hm He Hn. rewrite drive_stream by done. rewrite He. by rewrite decode_all_encoded.
Qed.

Lemma netstring_stream_roundtrip_witness :
  drive 30 (decode_stream [Ready (bstr "5:he"); NotReady; Ready (bstr "llo,0:"); Ready (bstr ",")]
              NetstringDecoder_new) = Some ([bstr "hello"; []], Ok tt).
Proof.
  apply netstring_stream_roundtrip.
  - repeat constructor.
  - reflexivity.
  - simpl. lia.
Defined.

(** ** The decoder under the generic drivers *)

(** Two messages and then a byte that no length starts with. *)
Lemma layered_decode_segmentation_witness :
  drive 30 (decode_stream [Ready (bstr "5:he"); NotReady; Ready (bstr "llo,0:,x"); Ready (bstr "1:")]
              NetstringDecoder_new) = Some ([bstr "hello"; []], Err BadCharacter).
Proof.
  rewrite (layered_decode_segmentation
             [Ready (bstr "5:he"); NotReady; Ready (bstr "llo,0:,x"); Ready (bstr "1:")]
             NetstringDecoder_new 30); [vm_compute; reflexivity | reflexivity | simpl; lia].
Defined.

Lemma future_decode_exact_witness :
  exists s', await 5 (into_future_decode (mkBS (bstr "5:h") [NotReady; Ready (bstr "ello,1:x,")] false)
                        NetstringDecoder_new) = Some (Ok (Some (bstr "hello")), s') /\
             bs_all s' = bstr "1:x," /\ stream_done s' = false.
Proof.
  apply (future_decode_exact (mkBS (bstr "5:h") [NotReady; Ready (bstr "ello,1:x,")] false)
           NetstringDecoder_new NetstringDecoder_new (bstr "hello") (bstr "1:x,") 5).
  - reflexivity.
  - reflexivity.
  - vm_compute. reflexivity.
  - simpl. lia.
Defined.
