(* ===== verification/Dechunker.v ===== *)
(** * The chunked reader of the wire protocol

    Model of [src/hgproto/src/dechunker.rs]: the bundle that a client sends with
    [unbundle] comes as chunks, each preceded by its size in decimal, and the
    [Dechunker] reads it through as if it were the chunks' contents, leaving
    what follows in the reader it wraps.

    The reader underneath is any [AsyncRead + BufRead]: the class [BufRead] has
    the standard trait's operations, [BufReadLaws] what the trait promises, and
    the [Dechunker] is an instance of both. *)

From S2P Require Import Prelude Decimal Framing.

(** The kinds of [io::Error] at hand. [OutOfFuel] is the model's own: a
    [read_until] that went round more often than its bound. *)
Inductive io_error := WouldBlock | InvalidData | OutOfFuel.

Abbreviation io := (outcome io_error).

(** ** Readers *)

Class BufRead (R : Type) := {
  fill_buf : R -> R * io bytes;
  consume : N -> R -> io R;
  read : N -> R -> R * io bytes  (** with the length of the caller's buffer *)
}.

(** [supplies r c n]: the reader is about to give the bytes [c], and then the
    end of the stream, with at most [n] interruptions by [WouldBlock]. *)
Class BufReadLaws {R} (B : BufRead R) (supplies : R -> bytes -> nat -> Prop) : Prop := {
  fill_buf_law r c n : supplies r c n ->
    match fill_buf r with
    | (r', Ok s) => exists t n', c = s ++ t /\ (s = [] -> c = []) /\ n' <= n /\ supplies r' c n' /\
        forall s1 s2, s = s1 ++ s2 -> exists r'', consume (lenN s1) r' = Ok r'' /\ supplies r'' (s2 ++ t) n'
    | (r', Err e) => e = WouldBlock /\ exists n', n' < n /\ supplies r' c n'
    | (_, Panic) => False
    end;
  read_law amt r c n : supplies r c n ->
    match read amt r with
    | (r', Ok s) => exists t n', c = s ++ t /\ (lenN s <= amt)%N /\ (s = [] -> amt = 0%N \/ c = []) /\
        n' <= n /\ supplies r' t n'
    | (r', Err e) => e = WouldBlock /\ exists n', n' < n /\ supplies r' c n'
    | (_, Panic) => False
    end;
  consume_none_law r c n : supplies r c n -> exists r', consume 0 r = Ok r' /\ supplies r' c n
}.

(** The position of the first [delim], as [memchr] finds it: the bytes up to
    and including it. *)
Fixpoint upto (delim : byte) (l : bytes) : option bytes :=
  match l with
  | [] => None
  | b :: l => if decide (b = delim) then Some [b] else (cons b) <$> upto delim l
  end.

(** [BufRead::read_until]: the bytes up to a delimiter, or up to the end of the
    stream, are added to [buf]; what was added stays there after an error. *)
Fixpoint read_until {R} `{BufRead R} (k : nat) (delim : byte) (r : R) (buf : bytes)
    : R * bytes * io unit :=
  match k with
  | O => (r, buf, Err OutOfFuel)
  | S k =>
      match fill_buf r with
      | (r, Ok available) =>
          let '(got, done) := match upto delim available with
                              | Some got => (got, true)
                              | None => (available, false)
                              end in
          match consume (lenN got) r with
          | Ok r => if done || Nat.eqb (length got) 0 then (r, buf ++ got, Ok tt)
                    else read_until k delim r (buf ++ got)
          | Err e => (r, buf ++ got, Err e)
          | Panic => (r, buf ++ got, Panic)
          end
      | (r, Err e) => (r, buf, Err e)
      | (r, Panic) => (r, buf, Panic)
      end
  end.

(** ** The dechunker *)

Inductive DechunkerState :=
| ParsingInt (buf : bytes)
| ReadingChunk (chunk_size : N)
| Done.

Record Dechunker (R : Type) := mkDechunker {
  bufread : R;
  state : DechunkerState;
  maybe_full_content : option bytes
}.
Arguments mkDechunker {R} _ _ _.
Arguments bufread {R} _.
Arguments state {R} _.
Arguments maybe_full_content {R} _.

Section dechunker.
Context {R : Type} `{BufRead R} (fuel : nat).

Definition Dechunker_new (r : R) : Dechunker R := mkDechunker r (ParsingInt []) None.

Definition with_full_content (d : Dechunker R) (content : bytes) : Dechunker R :=
  mkDechunker (bufread d) (state d) (Some content).

Definition into_inner (d : Dechunker R) : R := bufread d.

Definition set_state (d : Dechunker R) (s : DechunkerState) : Dechunker R :=
  mkDechunker (bufread d) s (maybe_full_content d).

(** The loop over the bytes that [read_until] has gathered. *)
Fixpoint parse_size (size : N) (buf : bytes) : io N :=
  match buf with
  | [] => Ok size
  | inp :: buf =>
      if is_digit inp then parse_size (add_digit size inp) buf
      else if decide (inp = x0a) then Ok size
      else Err InvalidData
  end.

Definition advance_parsing_int (d : Dechunker R) : Dechunker R * io unit :=
  match state d with
  | ParsingInt buf =>
      match read_until fuel x0a (bufread d) buf with
      | (r, buf, Ok tt) =>
          let d := mkDechunker r (ParsingInt buf) (maybe_full_content d) in
          match parse_size 0 buf with
          | Ok chunk_size =>
              (set_state d (if (chunk_size =? 0)%N then Done else ReadingChunk chunk_size), Ok tt)
          | Err e => (d, Err e)
          | Panic => (d, Panic)
          end
      | (r, buf, Err e) => (mkDechunker r (ParsingInt buf) (maybe_full_content d), Err e)
      | (r, buf, Panic) => (mkDechunker r (ParsingInt buf) (maybe_full_content d), Panic)
      end
  | _ => (d, Ok tt)
  end.

Definition consume_chunk (amt : N) (d : Dechunker R) : io (Dechunker R) :=
  if (0 <? amt)%N then
    match state d with
    | ReadingChunk chunk_size =>
        if (amt =? chunk_size)%N then Ok (set_state d (ParsingInt []))
        else if (amt <? chunk_size)%N then Ok (set_state d (ReadingChunk (chunk_size - amt)))
        else Panic
    | _ => Panic
    end
  else Ok d.

Definition dechunker_read (amt : N) (d : Dechunker R) : Dechunker R * io bytes :=
  match advance_parsing_int d with
  | (d, Ok tt) =>
      match state d with
      | ParsingInt _ => (d, Panic)
      | Done => (d, Ok [])
      | ReadingChunk chunk_size =>
          match read (N.min amt chunk_size) (bufread d) with
          | (r, Ok got) =>
              match consume_chunk (lenN got) (mkDechunker r (state d) (maybe_full_content d)) with
              | Ok d => (mkDechunker (bufread d) (state d)
                           ((fun full => full ++ got) <$> maybe_full_content d), Ok got)
              | Err e => (d, Err e)
              | Panic => (d, Panic)
              end
          | (r, Err e) => (mkDechunker r (state d) (maybe_full_content d), Err e)
          | (r, Panic) => (mkDechunker r (state d) (maybe_full_content d), Panic)
          end
      end
  | (d, Err e) => (d, Err e)
  | (d, Panic) => (d, Panic)
  end.

Definition dechunker_fill_buf (d : Dechunker R) : Dechunker R * io bytes :=
  match advance_parsing_int d with
  | (d, Ok tt) =>
      match state d with
      | ParsingInt _ => (d, Panic)
      | Done => (d, Ok [])
      | ReadingChunk chunk_size =>
          match fill_buf (bufread d) with
          | (r, Ok buf) => (mkDechunker r (state d) (maybe_full_content d),
                            Ok (take (N.to_nat chunk_size) buf))
          | (r, Err e) => (mkDechunker r (state d) (maybe_full_content d), Err e)
          | (r, Panic) => (mkDechunker r (state d) (maybe_full_content d), Panic)
          end
      end
  | (d, Err e) => (d, Err e)
  | (d, Panic) => (d, Panic)
  end.

Definition dechunker_consume (amt : N) (d : Dechunker R) : io (Dechunker R) :=
  d ← consume_chunk amt d;
  r ← consume amt (bufread d);
  Ok (mkDechunker r (state d) (maybe_full_content d)).

#[export] Instance dechunker_bufread : BufRead (Dechunker R) := {|
  fill_buf := dechunker_fill_buf; consume := dechunker_consume; read := dechunker_read |}.

(** A poll of the future [check_is_done]. *)
Definition check_is_done (d : Dechunker R) : Dechunker R * io bool :=
  match dechunker_fill_buf d with
  | (d, Ok buf) => (d, Ok (Nat.eqb (length buf) 0))
  | (d, Err e) => (d, Err e)
  | (d, Panic) => (d, Panic)
  end.
End dechunker.

(** ** The format, and readers at work *)

Definition encode_chunk (chunk : bytes) : bytes := decimal (lenN chunk) ++ x0a :: chunk.
Definition encode_chunks (chunks : list bytes) : bytes :=
  concat (encode_chunk <$> chunks) ++ bstr "0" ++ [x0a].

Definition good_chunk (chunk : bytes) : Prop := chunk <> [] /\ (lenN chunk < 2 ^ 64)%N.

(** [read_to_end] through a buffer of [amt] bytes, with the interruptions
    waited out. *)
Fixpoint read_to_end {R} `{BufRead R} (k : nat) (amt : N) (r : R) : option (bytes * R) :=
  match k with
  | O => None
  | S k => match read amt r with
           | (r, Ok []) => Some ([], r)
           | (r, Ok s) => '(out, r) ← read_to_end k amt r; Some (s ++ out, r)
           | (r, Err WouldBlock) => read_to_end k amt r
           | _ => None
           end
  end.

(** The same with [fill_buf] and [consume]. *)
Fixpoint fill_to_end {R} `{BufRead R} (k : nat) (r : R) : option (bytes * R) :=
  match k with
  | O => None
  | S k => match fill_buf r with
           | (r, Ok []) => Some ([], r)
           | (r, Ok s) => match consume (lenN s) r with
                          | Ok r => '(out, r) ← fill_to_end k r; Some (s ++ out, r)
                          | _ => None
                          end
           | (r, Err WouldBlock) => fill_to_end k r
           | _ => None
           end
  end.

(** ** The dechunker is a reader of the chunks' contents *)

Lemma upto_spec delim l :
  match upto delim l with
  | Some got => exists p rest, got = p ++ [delim] /\ l = got ++ rest /\ delim ∉ p
  | None => delim ∉ l
  end.
Proof.
  induction l as [|b l IH]; simpl; [set_solver|]. case_decide as Hb.
  - exists [], l. subst. split; [done|]. split; [done|set_solver].
  - destruct (upto delim l) as [got|]; simpl; [|set_solver].
    destruct IH as (p & rest & -> & E & Hp). exists (b :: p), rest. rewrite E. split; [done|].
    split; [done|set_solver].
Qed.

(** Two ways to cut a line off give the same line. *)
Lemma cut_line delim (p q t t' : bytes) :
  delim ∉ p -> delim ∉ q -> p ++ delim :: t = q ++ delim :: t' -> p = q /\ t = t'.
Proof.
  intros Hp Hq E. destruct (app_eq_app _ _ _ _ E) as (l & [[-> E2]|[-> E2]]);
    (destruct l as [|b l]; rewrite ?app_nil_r; simpl in E2; injection E2 as E2;
     [done | exfalso; subst; set_solver]).
Qed.

(** A piece of input without a delimiter lies within the line. *)
Lemma within_line delim (q t s t0 : bytes) :
  delim ∉ s -> q ++ delim :: t = s ++ t0 -> exists q2, q = s ++ q2 /\ t0 = q2 ++ delim :: t.
Proof.
  intros Hs E. destruct (app_eq_app _ _ _ _ E) as (l & [[-> ->]|[-> E2]]); [by exists l|].
  destruct l as [|b l].
  - exists []. rewrite !app_nil_r in *. split; [done|]. by simpl in *.
  - injection E2 as E2 E3. subst. set_solver.
Qed.

Lemma read_until_line {R} `{L : BufReadLaws R} delim t k : forall q r buf n,
  supplies r (q ++ delim :: t) n -> delim ∉ q -> length q < k ->
  match read_until k delim r buf with
  | (r', buf', Ok tt) => buf' = buf ++ q ++ [delim] /\ exists n', n' <= n /\ supplies r' t n'
  | (r', buf', Err e) => e = WouldBlock /\ exists q1 q2 n', q = q1 ++ q2 /\ buf' = buf ++ q1 /\
      n' < n /\ supplies r' (q2 ++ delim :: t) n'
  | (_, _, Panic) => False
  end.
Proof.
  induction k as [|k IH]; intros q r buf n Hr Hq Hk; [lia|]. cbn [read_until].
  pose proof (fill_buf_law r _ n Hr) as Hf. destruct (fill_buf r) as [r1 [s|e|]]; [| |done].
  2: { destruct Hf as (-> & n' & Hn & Hr'). split; [done|]. exists [], q, n'. by rewrite app_nil_r. }
  destruct Hf as (t0 & n1 & E & Hs & Hn1 & _ & Hcons). pose proof (upto_spec delim s) as Hu.
  destruct (upto delim s) as [got|].
  - destruct Hu as (p & rest & -> & -> & Hp).
    destruct (Hcons (p ++ [delim]) rest eq_refl) as (r2 & -> & Hr2). cbn [orb].
    rewrite <- !app_assoc in E. simpl in E.
    destruct (cut_line delim q p t _ Hq Hp E) as [<- ->]. split; [done|]. by exists n1.
  - destruct (Hcons s [] ltac:(by rewrite app_nil_r)) as (r2 & -> & Hr2). cbn [orb].
    destruct (within_line delim q t s t0 Hu E) as (q2 & -> & ->).
    destruct s as [|b s]; [by destruct q2; specialize (Hs eq_refl)|]. cbn [length Nat.eqb].
    assert (length q2 < k) as Hk2 by (rewrite length_app in Hk; simpl in Hk; lia).
    specialize (IH q2 r2 (buf ++ b :: s) n1 Hr2 ltac:(set_solver) Hk2).
    destruct (read_until k delim r2 (buf ++ b :: s)) as [[r' buf'] [[]|e|]]; [| |done].
    + destruct IH as (-> & n' & Hn' & Hr'). split; [by rewrite <- !app_assoc|]. exists n'.
      split; [lia|done].
    + destruct IH as (-> & q1 & q3 & n' & -> & -> & Hn' & Hr'). split; [done|].
      exists (b :: s ++ q1), q3, n'. split; [by simpl; rewrite <- app_assoc|].
      split; [by rewrite <- app_assoc|]. split; [lia|done].
Qed.

Lemma parse_size_line ds t : forall size,
  Forall (fun b => is_digit b = true) ds ->
  parse_size size (ds ++ x0a :: t) = Ok (foldl add_digit size ds).
Proof.
  induction ds as [|d ds IH]; intros size Hd; [done|]. apply Forall_cons in Hd as [Hd Hds].
  cbn [app parse_size foldl]. by rewrite Hd, IH.
Qed.

Definition header (chunks : list bytes) : bytes := decimal (lenN (default [] (head chunks))).
Definition body (chunks : list bytes) : bytes :=
  match chunks with [] => [] | chunk :: chunks => chunk ++ encode_chunks chunks end.

Lemma encode_chunks_header chunks : encode_chunks chunks = header chunks ++ x0a :: body chunks.
Proof.
  destruct chunks as [|c chunks]; [reflexivity|]. unfold encode_chunks, encode_chunk. cbn [fmap list_fmap concat].
  unfold header. simpl. by rewrite <- !app_assoc.
Qed.

Lemma header_no_newline chunks : x0a ∉ header chunks.
Proof.
  intros Hin. pose proof (decimal_digits (lenN (default [] (head chunks)))) as Hd.
  rewrite Forall_forall in Hd. by specialize (Hd _ Hin).
Qed.

Section laws.
Context {R : Type} {B : BufRead R} {supplies : R -> bytes -> nat -> Prop} {L : BufReadLaws B supplies}.
Context (fuel : nat) (Hfuel : 65 < fuel).

(** What a dechunker gives when [tail] follows the chunks in its reader. *)
Definition dechunker_supplies (tail : bytes) (d : Dechunker R) (c : bytes) (n : nat) : Prop :=
  match state d with
  | Done => c = [] /\ supplies (bufread d) tail n
  | ReadingChunk chunk_size => exists p chunks, p <> [] /\ lenN p = chunk_size /\ Forall good_chunk chunks /\
      c = p ++ concat chunks /\ supplies (bufread d) (p ++ encode_chunks chunks ++ tail) n
  | ParsingInt buf => exists q chunks, buf ++ q = header chunks /\ Forall good_chunk chunks /\
      c = concat chunks /\ supplies (bufread d) (q ++ x0a :: body chunks ++ tail) n
  end.

Lemma advance_parsing_int_spec tail d c n :
  dechunker_supplies tail d c n ->
  match advance_parsing_int fuel d with
  | (d', Ok tt) => (forall buf, state d' <> ParsingInt buf) /\
      exists n', n' <= n /\ dechunker_supplies tail d' c n'
  | (d', Err e) => e = WouldBlock /\ exists n', n' < n /\ dechunker_supplies tail d' c n'
  | (_, Panic) => False
  end.
Proof using L Hfuel.
  unfold dechunker_supplies, advance_parsing_int. intros Hd.
  destruct (state d) as [buf|cs|] eqn:Es.
  2, 3: rewrite Es; split; [done | by exists n].
  destruct Hd as (q & chunks & Hq & Hg & -> & Hr).
  pose proof (header_no_newline chunks) as Hnl. rewrite <- Hq, not_elem_of_app in Hnl.
  destruct Hnl as [_ Hnl].
  assert (lenN (default [] (head chunks)) < 2 ^ 64)%N as Hlt.
  { destruct Hg as [|? ? [_ Hl] _]; [done|exact Hl]. }
  assert (length q < fuel) as Hk.
  { pose proof (decimal_short _ Hlt) as Hs. fold (header chunks) in Hs.
    rewrite <- Hq, length_app in Hs. lia. }
  pose proof (read_until_line (L := L) x0a _ fuel q (bufread d) buf n Hr Hnl Hk) as Hu.
  destruct (read_until fuel x0a (bufread d) buf) as [[r' buf'] [[]|e|]]; [| |done].
  - destruct Hu as (-> & n' & Hn & Hr'). rewrite app_assoc, Hq.
    rewrite parse_size_line by apply decimal_digits. cbn [set_state state bufread].
    unfold header. rewrite decimal_value by exact Hlt.
    destruct chunks as [|ch chunks]; cbn [head default].
    + split; [done|]. by exists n'.
    + apply Forall_cons in Hg as [[Hne _] Hg]. cbn [default id head].
      destruct (N.eqb_spec (lenN ch) 0) as [E|E]; [destruct ch; [done|discriminate E]|].
      split; [done|]. exists n'. split; [done|]. exists ch, chunks. repeat split; try done.
      simpl in Hr'. by rewrite <- app_assoc in Hr'.
  - destruct Hu as (-> & q1 & q2 & n' & -> & -> & Hn & Hr'). split; [done|]. exists n'. split; [done|].
    exists q2, chunks. cbn [state bufread]. by rewrite <- app_assoc.
Qed.

(** Taking [s1] off the front of a chunk [p]: the reader underneath moves on
    by as much, before or after. *)
Lemma consume_chunk_spec tail (d : Dechunker R) (s1 p2 : bytes) chunks :
  state d = ReadingChunk (lenN (s1 ++ p2)) -> s1 ++ p2 <> [] -> Forall good_chunk chunks ->
  exists d', consume_chunk (lenN s1) d = Ok d' /\ bufread d' = bufread d /\
    maybe_full_content d' = maybe_full_content d /\
    forall r n full, supplies r (p2 ++ encode_chunks chunks ++ tail) n ->
      dechunker_supplies tail (mkDechunker r (state d') full) (p2 ++ concat chunks) n.
Proof using.
  clear Hfuel fuel. intros Es Hp Hg. unfold consume_chunk, dechunker_supplies. rewrite Es.
  destruct s1 as [|b s1].
  { exists d. cbn. rewrite Es. repeat split; try done. intros r n full Hr. by exists p2, chunks. }
  rewrite (proj2 (N.ltb_lt _ _)) by (unfold lenN; simpl; lia).
  destruct p2 as [|b2 p2].
  - rewrite app_nil_r, N.eqb_refl. eexists. split; [done|]. cbn [set_state state bufread maybe_full_content].
    repeat split; try done. intros r n full Hr. exists (header chunks), chunks.
    rewrite encode_chunks_header in Hr. simpl in Hr. by rewrite <- app_assoc in Hr.
  - rewrite (proj2 (N.eqb_neq _ _)) by solve_len. rewrite (proj2 (N.ltb_lt _ _)) by solve_len.
    eexists. split; [done|]. cbn [set_state state bufread maybe_full_content].
    repeat split; try done. intros r n full Hr. exists (b2 :: p2), chunks.
    repeat split; try done. solve_len.
Qed.

(** Of the bytes [s] at hand, those of the chunk [p]. *)
Lemma split_chunk (p s x t : bytes) :
  p ++ x = s ++ t -> p <> [] ->
  exists s2 q, s = take (length p) s ++ s2 /\ p = take (length p) s ++ q /\
    (take (length p) s = [] -> s = []) /\ s2 ++ t = q ++ x.
Proof using.
  clear Hfuel fuel. intros E Hp. destruct (app_eq_app _ _ _ _ E) as (l & [[-> ->]|[-> ->]]).
  - exists [], l. rewrite take_ge by (rewrite length_app; lia). by rewrite app_nil_r.
  - exists l, []. rewrite take_app_length, app_nil_r. by destruct p.
Qed.

Lemma dechunker_supplies_mk tail r k full p chunks n :
  k = lenN p -> p <> [] -> Forall good_chunk chunks -> supplies r (p ++ encode_chunks chunks ++ tail) n ->
  dechunker_supplies tail (mkDechunker r (ReadingChunk k) full) (p ++ concat chunks) n.
Proof using. intros -> ???. by exists p, chunks. Qed.

Lemma dechunker_consume_law tail r k full s1 p2 chunks n :
  k = lenN (s1 ++ p2) -> s1 ++ p2 <> [] -> Forall good_chunk chunks ->
  (exists r', consume (lenN s1) r = Ok r' /\ supplies r' (p2 ++ encode_chunks chunks ++ tail) n) ->
  exists d', dechunker_consume (lenN s1) (mkDechunker r (ReadingChunk k) full) = Ok d' /\
    dechunker_supplies tail d' (p2 ++ concat chunks) n.
Proof using.
  intros -> Hp Hg (r' & Hr' & Hsup). unfold dechunker_consume.
  destruct (consume_chunk_spec tail (mkDechunker r (ReadingChunk (lenN (s1 ++ p2))) full) s1 p2 chunks)
    as (d' & -> & Hd' & _ & Hsp); try done.
  rewrite bind_Ok, Hd'. cbn [bufread]. rewrite Hr', bind_Ok. eexists. split; [done|]. by apply Hsp.
Qed.

Lemma dechunker_fill_buf_law tail d c n :
  dechunker_supplies tail d c n ->
  match dechunker_fill_buf fuel d with
  | (d', Ok s) => exists t n', c = s ++ t /\ (s = [] -> c = []) /\ n' <= n /\ dechunker_supplies tail d' c n' /\
      forall s1 s2, s = s1 ++ s2 -> exists d'', dechunker_consume (lenN s1) d' = Ok d'' /\
        dechunker_supplies tail d'' (s2 ++ t) n'
  | (d', Err e) => e = WouldBlock /\ exists n', n' < n /\ dechunker_supplies tail d' c n'
  | (_, Panic) => False
  end.
Proof using L Hfuel.
  intros Hd%advance_parsing_int_spec. unfold dechunker_fill_buf.
  destruct (advance_parsing_int fuel d) as [[r st full] [[]|e|]]; [|done|done].
  destruct Hd as (Hst & n1 & Hn1 & Hd). cbn [state bufread maybe_full_content] in *.
  destruct st as [buf|cs|]; [by destruct (Hst buf)| |].
  - destruct Hd as (p & chunks & Hp & <- & Hg & -> & Hr). cbn [bufread] in Hr.
    pose proof (fill_buf_law _ _ _ Hr) as Hf. destruct (fill_buf r) as [r' [s|e|]]; [| |done].
    + destruct Hf as (t & n2 & E & Hs & Hn2 & Hr' & Hcons). replace (N.to_nat (lenN p)) with (length p) by (unfold lenN; lia).
      destruct (split_chunk p s _ t E Hp) as (s2 & q & Es & Ep & Hnil & Et).
      exists (q ++ concat chunks), n2. split; [by rewrite app_assoc, <- Ep|]. split.
      { intros Hn. rewrite (Hs (Hnil Hn)) in E. by specialize (Hs (Hnil Hn)); destruct p. }
      split; [lia|]. split; [by apply dechunker_supplies_mk|].
      intros s1 s3 H13. rewrite H13, <- app_assoc in Ep. rewrite app_assoc.
      apply dechunker_consume_law; [by rewrite <- Ep | by rewrite <- Ep | done|].
      rewrite H13, <- app_assoc in Es. destruct (Hcons _ _ Es) as (r2 & Hr2 & Hsup). exists r2.
      split; [done|]. by rewrite <- app_assoc, <- Et, !app_assoc in *.
    + destruct Hf as (-> & n2 & Hn2 & Hr'). split; [done|]. exists n2. split; [lia|].
      by apply dechunker_supplies_mk.
  - destruct Hd as [-> Hr]. exists [], n1. split; [done|]. split; [done|]. split; [done|].
    split; [by split|]. intros s1 s2 Hs12. symmetry in Hs12. apply app_eq_nil in Hs12 as [-> ->].
    destruct (consume_none_law _ _ _ Hr) as (r2 & Hr2 & Hsup). cbn [bufread] in Hr2.
    exists (mkDechunker r2 Done full). unfold dechunker_consume, consume_chunk.
    change (lenN (@nil byte)) with 0%N.
    change (0 <? 0)%N with false. cbn iota. rewrite bind_Ok. cbn [bufread].
    rewrite Hr2. by repeat split.
Qed.

Lemma dechunker_read_law tail amt d c n :
  dechunker_supplies tail d c n ->
  match dechunker_read fuel amt d with
  | (d', Ok s) => exists t n', c = s ++ t /\ (lenN s <= amt)%N /\ (s = [] -> amt = 0%N \/ c = []) /\
      n' <= n /\ dechunker_supplies tail d' t n'
  | (d', Err e) => e = WouldBlock /\ exists n', n' < n /\ dechunker_supplies tail d' c n'
  | (_, Panic) => False
  end.
Proof using L Hfuel.
  intros Hd%advance_parsing_int_spec. unfold dechunker_read.
  destruct (advance_parsing_int fuel d) as [[r st full] [[]|e|]]; [|done|done].
  destruct Hd as (Hst & n1 & Hn1 & Hd). cbn [state bufread maybe_full_content] in *.
  destruct st as [buf|cs|]; [by destruct (Hst buf)| |].
  - destruct Hd as (p & chunks & Hp & <- & Hg & -> & Hr). cbn [bufread] in Hr.
    pose proof (read_law (N.min amt (lenN p)) _ _ _ Hr) as Hf.
    destruct (read (N.min amt (lenN p)) r) as [r' [s|e|]]; [| |done].
    + destruct Hf as (t & n2 & E & Hl & Hs & Hn2 & Hr').
      destruct (split_chunk p s _ t E Hp) as (s2 & q & Es & Ep & _ & Et).
      rewrite take_ge in Es, Ep by (unfold lenN in *; lia).
      assert (s2 = []) as -> by (destruct s2; [done|]; apply (f_equal length) in Es;
        rewrite length_app in Es; simpl in Es; lia).
      simpl in Et. subst t.
      destruct (consume_chunk_spec tail (mkDechunker r' (ReadingChunk (lenN p)) full) s q chunks)
        as (d' & -> & Hd' & _ & Hsp); [by rewrite <- Ep | by rewrite <- Ep | done|].
      exists (q ++ concat chunks), n2. split; [by rewrite app_assoc, <- Ep|].
      split; [lia|]. split.
      { intros Hn. destruct (Hs Hn) as [H0|H0]; [|by destruct p]. left.
        destruct p; [done|]. unfold lenN in H0. simpl in H0. lia. }
      split; [lia|]. rewrite Hd'. by apply Hsp.
    + destruct Hf as (-> & n2 & Hn2 & Hr'). split; [done|]. exists n2. split; [lia|].
      by apply dechunker_supplies_mk.
  - destruct Hd as [-> Hr]. exists [], n1. split; [done|]. split; [unfold lenN; simpl; lia|].
    split; [by right|]. split; [done|]. by split.
Qed.

Lemma dechunker_consume_none tail d c n :
  dechunker_supplies tail d c n ->
  exists d', dechunker_consume 0 d = Ok d' /\ dechunker_supplies tail d' c n.
Proof using L.
  clear Hfuel fuel. unfold dechunker_consume, dechunker_supplies, consume_chunk.
  change (0 <? 0)%N with false. cbn iota. rewrite bind_Ok. intros Hd.
  destruct (state d) eqn:Es; repeat (destruct Hd as [? Hd]);
    destruct (consume_none_law _ _ _ Hd) as (r' & -> & Hr');
    (eexists; split; [done|]; cbn; rewrite ?Es; naive_solver).
Qed.

(** A dechunker over a lawful reader is a lawful reader. *)
#[export] Instance dechunker_laws tail :
  BufReadLaws (dechunker_bufread fuel) (dechunker_supplies tail).
Proof using L Hfuel.
  split; cbn [fill_buf read consume dechunker_bufread].
  - apply dechunker_fill_buf_law.
  - intros amt. apply dechunker_read_law.
  - apply dechunker_consume_none.
Qed.
End laws.

(** ** Reading to the end *)

(** Both loops end with a call that found the end of the stream. *)
Lemma read_to_end_exact {R} `{L : BufReadLaws R} amt k : forall r c n,
  (0 < amt)%N -> supplies r c n -> length c + n < k ->
  exists r0 r' n', read_to_end k amt r = Some (c, r') /\ n' <= n /\ supplies r0 [] n' /\
    read amt r0 = (r', Ok []).
Proof.
  induction k as [|k IH]; intros r c n Ha Hr Hk; [lia|]. cbn [read_to_end].
  pose proof (read_law amt _ _ _ Hr) as Hl. destruct (read amt r) as [r1 [s|e|]] eqn:E; [| |done].
  - destruct Hl as (t & n1 & -> & _ & Hs & Hn1 & Hr1). destruct s as [|b s].
    + destruct (Hs eq_refl) as [?|H0]; [lia|]. simpl in H0. subst t.
      exists r, r1, n. by repeat split.
    + destruct (IH r1 t n1 Ha Hr1) as (r0 & r2 & n2 & -> & Hn2 & H0 & H1).
      { rewrite length_app in Hk. simpl in Hk. lia. }
      exists r0, r2, n2. split; [done|]. split; [lia|done].
  - destruct Hl as (-> & n1 & Hn1 & Hr1).
    destruct (IH r1 c n1 Ha Hr1) as (r0 & r2 & n2 & -> & Hn2 & H0 & H1); [lia|].
    exists r0, r2, n2. split; [done|]. split; [lia|done].
Qed.

Lemma fill_to_end_exact {R} `{L : BufReadLaws R} k : forall r c n,
  supplies r c n -> length c + n < k ->
  exists r0 r' n', fill_to_end k r = Some (c, r') /\ n' <= n /\ supplies r0 [] n' /\
    fill_buf r0 = (r', Ok []).
Proof.
  induction k as [|k IH]; intros r c n Hr Hk; [lia|]. cbn [fill_to_end].
  pose proof (fill_buf_law _ _ _ Hr) as Hl. destruct (fill_buf r) as [r1 [s|e|]] eqn:E; [| |done].
  - destruct Hl as (t & n1 & -> & Hs & Hn1 & Hr1 & Hc). destruct s as [|b s].
    + rewrite (Hs eq_refl) in *. exists r, r1, n. by repeat split.
    + destruct (Hc (b :: s) [] ltac:(by rewrite app_nil_r)) as (r2 & -> & Hr2).
      destruct (IH r2 t n1 Hr2) as (r0 & r3 & n2 & -> & Hn2 & H0 & H1).
      { rewrite length_app in Hk. simpl in Hk. lia. }
      exists r0, r3, n2. split; [done|]. split; [lia|done].
  - destruct Hl as (-> & n1 & Hn1 & Hr1).
    destruct (IH r1 c n1 Hr1) as (r0 & r2 & n2 & -> & Hn2 & H0 & H1); [lia|].
    exists r0, r2, n2. split; [done|]. split; [lia|done].
Qed.

Section full_content.
Context {R : Type} `{B : BufRead R} (fuel : nat).

Lemma advance_parsing_int_full d :
  maybe_full_content (advance_parsing_int fuel d).1 = maybe_full_content d.
Proof.
  unfold advance_parsing_int. destruct (state d) as [buf| |]; [|done|done].
  destruct (read_until fuel x0a (bufread d) buf) as [[r b] [[]|e|]]; [|done|done].
  by destruct (parse_size 0 b).
Qed.

Lemma consume_chunk_full amt (d d' : Dechunker R) :
  consume_chunk amt d = Ok d' -> maybe_full_content d' = maybe_full_content d.
Proof.
  unfold consume_chunk, set_state. intros H. repeat case_match; try done; by injection H as <-.
Qed.

(** What [read] returns is recorded. *)
Lemma dechunker_read_full amt d :
  match dechunker_read fuel amt d with
  | (d', Ok s) => maybe_full_content d' = (fun full => full ++ s) <$> maybe_full_content d
  | (d', _) => maybe_full_content d' = maybe_full_content d
  end.
Proof.
  unfold dechunker_read. pose proof (advance_parsing_int_full d) as Ha.
  assert ((fun full => full ++ []) <$> maybe_full_content d = maybe_full_content d) as Hnil.
  { destruct (maybe_full_content d); [|done]. simpl. by rewrite app_nil_r. }
  destruct (advance_parsing_int fuel d) as [d1 [[]|e|]]; cbn [fst] in Ha; [|done|done].
  destruct (state d1) as [buf|cs|]; [done| |by rewrite Hnil].
  destruct (read _ _) as [r [s|e|]]; [|done|done].
  destruct (consume_chunk _ _) as [d2|e|] eqn:E; [|done|done].
  apply consume_chunk_full in E. cbn [maybe_full_content] in *. by rewrite E, Ha.
Qed.

Lemma dechunker_fill_buf_full d :
  maybe_full_content (dechunker_fill_buf fuel d).1 = maybe_full_content d.
Proof.
  unfold dechunker_fill_buf. rewrite <- (advance_parsing_int_full d).
  destruct (advance_parsing_int fuel d) as [d1 [[]|e|]]; [|done|done]. cbn [fst].
  destruct (state d1); [done| |done]. by destruct (fill_buf (bufread d1)) as [r [s|e|]].
Qed.

Lemma dechunker_consume_full amt (d d' : Dechunker R) :
  dechunker_consume amt d = Ok d' -> maybe_full_content d' = maybe_full_content d.
Proof.
  unfold dechunker_consume. intros H. step_ok. by apply consume_chunk_full in Ha.
Qed.

Lemma read_to_end_full amt k : forall d out d',
  read_to_end (H := dechunker_bufread fuel) k amt d = Some (out, d') ->
  maybe_full_content d' = (fun full => full ++ out) <$> maybe_full_content d.
Proof.
  induction k as [|k IH]; intros d out d' H; [done|]. cbn [read_to_end read dechunker_bufread] in H.
  pose proof (dechunker_read_full amt d) as Hf.
  destruct (dechunker_read fuel amt d) as [d1 [[|b s]|[]|]]; try done.
  - by injection H as <- <-.
  - apply bind_Some in H as ([out1 d2] & H & E). injection E as <- <-.
    rewrite (IH _ _ _ H), Hf. destruct (maybe_full_content d); [|done]. simpl. by rewrite <- app_assoc.
  - by rewrite (IH _ _ _ H), Hf.
Qed.

Lemma fill_to_end_full k : forall d out d',
  fill_to_end (H := dechunker_bufread fuel) k d = Some (out, d') ->
  maybe_full_content d' = maybe_full_content d.
Proof.
  induction k as [|k IH]; intros d out d' H; [done|].
  cbn [fill_to_end fill_buf consume dechunker_bufread] in H.
  pose proof (dechunker_fill_buf_full d) as Hf.
  destruct (dechunker_fill_buf fuel d) as [d1 [[|b s]|[]|]]; cbn [fst] in Hf; try done.
  - by injection H as <- <-.
  - destruct (dechunker_consume (lenN (b :: s)) d1) as [d2|e|] eqn:E; try done.
    apply dechunker_consume_full in E. apply bind_Some in H as ([out1 d3] & H & E2).
    injection E2 as <- <-. by rewrite (IH _ _ _ H), E.
  - by rewrite (IH _ _ _ H), Hf.
Qed.
End full_content.

(** At the end of the chunks the dechunker stops before the tail. *)
Lemma dechunker_at_end {R} `{L : BufReadLaws R} fuel tail d n :
  65 < fuel -> dechunker_supplies (supplies := supplies) tail d [] n ->
  match advance_parsing_int fuel d with
  | (d', Ok tt) => state d' = Done /\ exists n', n' <= n /\ supplies (bufread d') tail n'
  | _ => True
  end.
Proof.
  intros Hf Hd. apply (advance_parsing_int_spec fuel Hf) in Hd.
  destruct (advance_parsing_int fuel d) as [d' [[]|e|]]; [|done|done].
  destruct Hd as (Hst & n' & Hn & Hd). unfold dechunker_supplies in Hd.
  destruct (state d') as [buf|cs|]; [by destruct (Hst buf)| |].
  - destruct Hd as (p & chunks & Hp & _ & _ & E & _). symmetry in E. by apply app_eq_nil in E as [-> _].
  - split; [done|]. exists n'. by destruct Hd.
Qed.

(** C39. Read with [read], through a buffer of any size, a dechunker gives the
    contents of the chunks one after the other and then the end of the stream,
    wherever the reader underneath cuts its bytes and however often it would
    block; the reader is left with exactly what follows the last chunk, and
    the recorded content is what was read. *)
Theorem dechunker_read_to_end {R} {B : BufRead R} supplies `{!BufReadLaws B supplies}
    (fuel k n : nat) (amt : N) (r : R) (chunks : list bytes) (tail full : bytes) :
  65 < fuel -> (0 < amt)%N -> Forall good_chunk chunks ->
  supplies r (encode_chunks chunks ++ tail) n -> length (concat chunks) + n < k ->
  exists d n', read_to_end (H := dechunker_bufread fuel) k amt (with_full_content (Dechunker_new r) full)
      = Some (concat chunks, d) /\
    maybe_full_content d = Some (full ++ concat chunks) /\
    n' <= n /\ supplies (into_inner d) tail n'.
Proof.
  intros Hfu Ha Hg Hr Hk. set (d0 := with_full_content (Dechunker_new r) full).
  assert (dechunker_supplies (supplies := supplies) tail d0 (concat chunks) n) as Hd0.
  { exists (header chunks), chunks. rewrite encode_chunks_header in Hr. simpl in Hr.
    rewrite <- app_assoc in Hr. done. }
  destruct (read_to_end_exact (L := dechunker_laws fuel Hfu tail) amt k d0 _ n Ha Hd0 Hk)
    as (d1 & d & n1 & E & Hn1 & H1 & Hlast).
  apply (dechunker_at_end (L := _) fuel) in H1; [|done]. cbn [read dechunker_bufread] in Hlast.
  unfold dechunker_read in Hlast. destruct (advance_parsing_int fuel d1) as [d2 [[]|e|]]; try done.
  destruct H1 as (Hst & n2 & Hn2 & Ht). rewrite Hst in Hlast. injection Hlast as <-.
  exists d2, n2. rewrite (read_to_end_full _ _ _ _ _ _ E). repeat split; try done. lia.
Qed.

(** The same through [fill_buf] and [consume]; what is read this way is
    not recorded in the full content. *)
Theorem dechunker_fill_to_end {R} {B : BufRead R} supplies `{!BufReadLaws B supplies}
    (fuel k n : nat) (r : R) (chunks : list bytes) (tail full : bytes) :
  65 < fuel -> Forall good_chunk chunks ->
  supplies r (encode_chunks chunks ++ tail) n -> length (concat chunks) + n < k ->
  exists d n', fill_to_end (H := dechunker_bufread fuel) k (with_full_content (Dechunker_new r) full)
      = Some (concat chunks, d) /\
    maybe_full_content d = Some full /\
    n' <= n /\ supplies (into_inner d) tail n'.
Proof.
  intros Hfu Hg Hr Hk. set (d0 := with_full_content (Dechunker_new r) full).
  assert (dechunker_supplies (supplies := supplies) tail d0 (concat chunks) n) as Hd0.
  { exists (header chunks), chunks. rewrite encode_chunks_header in Hr. simpl in Hr.
    rewrite <- app_assoc in Hr. done. }
  destruct (fill_to_end_exact (L := dechunker_laws fuel Hfu tail) k d0 _ n Hd0 Hk)
    as (d1 & d & n1 & E & Hn1 & H1 & Hlast).
  apply (dechunker_at_end (L := _) fuel) in H1; [|done]. cbn [fill_buf dechunker_bufread] in Hlast.
  unfold dechunker_fill_buf in Hlast. destruct (advance_parsing_int fuel d1) as [d2 [[]|e|]]; try done.
  destruct H1 as (Hst & n2 & Hn2 & Ht). rewrite Hst in Hlast. injection Hlast as <-.
  exists d2, n2. rewrite (fill_to_end_full _ _ _ _ _ E). repeat split; try done. lia.
Qed.

(** ** A reader for the examples

    It gives its pieces one by one; [NotReady] is a call that would block. *)

Fixpoint script_fill (events : list (poll bytes)) : list (poll bytes) * io bytes :=
  match events with
  | [] => ([], Ok [])
  | NotReady :: events => (events, Err WouldBlock)
  | Ready [] :: events => script_fill events
  | Ready s :: _ => (events, Ok s)
  end.

Definition script_consume (amt : N) (events : list (poll bytes)) : io (list (poll bytes)) :=
  match events with
  | Ready s :: events => Ok (Ready (drop (N.to_nat amt) s) :: events)
  | _ => if (amt =? 0)%N then Ok events else Panic
  end.

#[local] Instance script_bufread : BufRead (list (poll bytes)) := {|
  fill_buf := script_fill;
  consume := script_consume;
  read amt events :=
    match script_fill events with
    | (Ready s :: events, Ok _) =>
        (Ready (drop (N.to_nat amt) s) :: events, Ok (take (N.to_nat amt) s))
    | r => r
    end
|}.

Definition blocks (events : list (poll bytes)) : nat :=
  length (List.filter (fun e => match e with NotReady => true | _ => false end) events).

Definition script_supplies (events : list (poll bytes)) (c : bytes) (n : nat) : Prop :=
  c = input_bytes events /\ n = blocks events.

Lemma script_fill_spec events :
  match script_fill events with
  | ((Ready s :: _) as events', Ok s') => s' = s /\ s <> [] /\ script_supplies events' (input_bytes events) (blocks events)
  | ([], Ok s') => s' = [] /\ input_bytes events = [] /\ blocks events = 0
  | (events', Err e) => e = WouldBlock /\ input_bytes events' = input_bytes events /\
      blocks events = S (blocks events')
  | _ => False
  end.
Proof.
  induction events as [|[|[|b s]] events IH]; [done| |exact IH|by repeat split].
  destruct events as [|[|s] events]; done.
Qed.

Lemma script_blocked events events' :
  input_bytes events' = input_bytes events -> blocks events = S (blocks events') ->
  exists n', n' < blocks events /\ script_supplies events' (input_bytes events) n'.
Proof. intros H1 H2. exists (blocks events'). split; [lia | by split]. Qed.

#[local] Instance script_laws : BufReadLaws script_bufread script_supplies.
Proof.
  split; cbn [fill_buf consume read script_bufread].
  - intros r c n [-> ->]. pose proof (script_fill_spec r) as H.
    destruct (script_fill r) as [[|[|s] r'] [s'|e|]]; try done.
    + destruct H as (-> & -> & ->). exists [], 0. repeat split; try done.
      intros s1 s2 E. symmetry in E. apply app_eq_nil in E as [-> ->]. by exists [].
    + destruct H as (-> & H1 & H2). split; [done | by apply script_blocked].
    + destruct H as (-> & H1 & H2). split; [done | by apply script_blocked].
    + destruct H as (-> & Hs & Hin & Hn). exists (input_bytes r'), (blocks r). rewrite Hin.
      split; [done|]. split; [done|]. split; [done|]. split; [by split|].
      intros s1 s2 ->. eexists. split; [done|]. unfold lenN. rewrite Nat2N.id, drop_app_length.
      split; [done|]. by rewrite Hn.
    + destruct H as (-> & H1 & H2). split; [done | by apply script_blocked].
  - intros amt r c n [-> ->]. pose proof (script_fill_spec r) as H.
    destruct (script_fill r) as [[|[|s] r'] [s'|e|]]; try done.
    + destruct H as (-> & -> & ->). exists [], 0. split; [done|].
      split; [unfold lenN; simpl; lia|]. split; [by right | by repeat split].
    + destruct H as (-> & H1 & H2). split; [done | by apply script_blocked].
    + destruct H as (-> & H1 & H2). split; [done | by apply script_blocked].
    + destruct H as (-> & Hs & Hin & Hn). exists (drop (N.to_nat amt) s ++ input_bytes r'), (blocks r).
      rewrite Hin. change (input_bytes (Ready s :: r')) with (s ++ input_bytes r').
      split; [by rewrite app_assoc, take_drop|]. split; [unfold lenN; rewrite length_take; lia|].
      split; [|split; [done|by split]].
      intros E. apply (f_equal length) in E. rewrite length_take in E. simpl in E.
      destruct s; [done|]. simpl in *. left. lia.
    + destruct H as (-> & H1 & H2). split; [done | by apply script_blocked].
  - intros r c n [-> ->]. destruct r as [|[|s] r]; eexists; (split; [done|by split]).
Qed.

Definition script_example : list (poll bytes) :=
  [Ready (bstr "3"); NotReady; Ready [x0a]; Ready (bstr "ab"); NotReady; Ready (bstr "c0");
   Ready [x0a; x74]; Ready (bstr "ail")].

Lemma dechunker_read_to_end_witness :
  exists d n', read_to_end (H := dechunker_bufread 70) 10 2 (with_full_content (Dechunker_new script_example) [])
      = Some (bstr "abc", d) /\
    maybe_full_content d = Some (bstr "abc") /\
    n' <= 2 /\ script_supplies (into_inner d) (bstr "tail") n'.
Proof.
  apply (dechunker_read_to_end script_supplies 70 10 2 2 script_example [bstr "abc"] (bstr "tail") []).
  - lia.
  - lia.
  - repeat constructor. discriminate.
  - split; reflexivity.
  - simpl. lia.
Defined.

Lemma dechunker_fill_to_end_witness :
  exists d n', fill_to_end (H := dechunker_bufread 70) 10 (with_full_content (Dechunker_new script_example) [])
      = Some (bstr "abc", d) /\
    maybe_full_content d = Some [] /\
    n' <= 2 /\ script_supplies (into_inner d) (bstr "tail") n'.
Proof.
  apply (dechunker_fill_to_end script_supplies 70 10 2 script_example [bstr "abc"] (bstr "tail") []).
  - lia.
  - repeat constructor. discriminate.
  - split; reflexivity.
  - simpl. lia.
Defined.

(** A stream cut off at a chunk boundary reads as a complete one: the missing
    size counts as zero. *)
Example dechunker_truncated :
  read_to_end (H := dechunker_bufread 70) 10 8 (Dechunker_new [Ready (bstr "3"); Ready [x0a]; Ready (bstr "abc")])
  = Some (bstr "abc", mkDechunker [] Done None).
Proof. vm_compute. reflexivity. Qed.
