(* ===== verification/BundleCodec.v ===== *)
(** * Bundle2 building blocks

    Model of [mercurial_bundles/src/utils.rs] (draining integers, text,
    paths and hashes from a buffer), [bytes-ext/src/sized.rs] (the counting
    buffer), [mercurial_bundles/src/delta.rs] (deltas on the wire) and
    [mercurial_bundles/src/chunk.rs] (bundle2 chunks and their codec). *)

From S2P Require Import Prelude Ord Path Hash Framing Delta.

Inductive bundle_error :=
| InvalidUtf8
| InvalidPath (e : path_error)
| DeltaTooShort (expected remaining : N)
| DeltaTrailing (remaining : N)
| DeltaFragments (e : delta_error)
| ChunkTooLong (len : N)
| ChunkBadLength (len : Z)
| ErrorChunkHasNoBytes
| ChunkTruncated
| CgTreemanifestNotEmpty
| CgCorrupt
| CgChunkTooShort (len : N)
| CgBadFilename (len : N) (e : bundle_error)
| CgIncomplete (remaining : N)
| CgNotAtEnd
| CgUnknownVersion
| WirePackCorrupt
| WirePackIncomplete (remaining : N)
| WirePackNotAtEnd
| WirePackBadHistory
| WirePackBadFilename
| WirePackInvalidEntry
| WirePackInvalidPart
| WirePackUnsupported.

(** ** [BytesExt]: reading from the front of a buffer *)

Section Drain.
Context {E : Type}.

Definition drain_uint (n : nat) (buf : bytes) : outcome E (N * bytes) :=
  '(b, buf) ← split_to (N.of_nat n) buf; Ok (read_u b, buf).

Definition drain_u8 : bytes -> outcome E (N * bytes) := drain_uint 1.
Definition drain_u16 : bytes -> outcome E (N * bytes) := drain_uint 2.
Definition drain_u32 : bytes -> outcome E (N * bytes) := drain_uint 4.
Definition drain_u64 : bytes -> outcome E (N * bytes) := drain_uint 8.

Definition drain_i32 (buf : bytes) : outcome E (Z * bytes) :=
  '(b, buf) ← split_to 4 buf; Ok (read_i32 b, buf).

Definition drain_node (buf : bytes) : outcome E (HgNodeHash * bytes) :=
  '(b, buf) ← split_to 20 buf;
  match HgNodeHash_from_bytes b with Ok h => Ok (h, buf) | _ => Panic end.

(** [&self[..n]] panics when there are fewer bytes. *)
Definition peek (n : nat) (buf : bytes) : outcome E bytes :=
  if Nat.leb n (length buf) then Ok (take n buf) else Panic.
Definition peek_u16 (buf : bytes) : outcome E N := b ← peek 2 buf; Ok (read_u b).
Definition peek_u32 (buf : bytes) : outcome E N := b ← peek 4 buf; Ok (read_u b).
Definition peek_i32 (buf : bytes) : outcome E Z := b ← peek 4 buf; Ok (read_i32 b).

Lemma drain_uint_put n x rest :
  (Z.of_N x < 2 ^ (8 * Z.of_nat n))%Z -> drain_uint n (u_be n x ++ rest) = Ok (x, rest).
Proof.
  intros Hx. unfold drain_uint. rewrite split_to_app by solve_len. rewrite bind_Ok.
  by rewrite read_u_be.
Qed.

Lemma drain_i32_put z rest : i32_range z -> drain_i32 (i32_be z ++ rest) = Ok (z, rest).
Proof.
  intros Hz. unfold drain_i32. rewrite split_to_app by solve_len. rewrite bind_Ok.
  by rewrite read_i32_be.
Qed.

Lemma peek_i32_put z rest : i32_range z -> peek_i32 (i32_be z ++ rest) = Ok z.
Proof.
  intros Hz. unfold peek_i32, peek. rewrite (proj2 (Nat.leb_le _ _)) by solve_len.
  rewrite take_app_length' by (by rewrite length_i32_be). simpl. by rewrite read_i32_be.
Qed.

Lemma drain_node_put h rest :
  valid_node h -> drain_node (HgNodeHash_as_bytes h ++ rest) = Ok (h, rest).
Proof.
  intros Hv. unfold drain_node. rewrite split_to_app.
  - rewrite bind_Ok, HgNodeHash_from_as_bytes; done.
  - unfold lenN, HgNodeHash_as_bytes. by rewrite Hv.
Qed.
End Drain.

Definition drain_str (len : N) (buf : bytes) : outcome bundle_error (bytes * bytes) :=
  '(b, buf) ← split_to len buf;
  s ← ok_or (from_utf8 b) InvalidUtf8; Ok (s, buf).

Definition drain_path (len : N) (buf : bytes) : outcome bundle_error (MPath * bytes) :=
  '(b, buf) ← split_to len buf;
  p ← map_err InvalidPath (MPath_new b); Ok (p, buf).

(** *** Reading from a buffer with enough bytes *)

Definition take_node (b : bytes) : HgNodeHash := mkNode (mkSha1 (take 20 b)).

Lemma drain_node_cut {E} (b r : bytes) :
  20 <= length b -> drain_node (E := E) (b ++ r) = Ok (take_node b, drop 20 b ++ r).
Proof.
  intros Hb. unfold drain_node.
  assert (b ++ r = take 20 b ++ drop 20 b ++ r) as -> by (by rewrite app_assoc, take_drop).
  assert (length (take 20 b) = 20) as Hl by (rewrite length_take; lia).
  rewrite split_to_app, bind_Ok by (unfold lenN; lia).
  unfold HgNodeHash_from_bytes, Sha1_from_bytes. by rewrite Hl.
Qed.

Lemma drain_uint_cut {E} n (b r : bytes) :
  n <= length b -> drain_uint (E := E) n (b ++ r) = Ok (read_u (take n b), drop n b ++ r).
Proof.
  intros Hb. unfold drain_uint.
  assert (b ++ r = take n b ++ drop n b ++ r) as -> by (by rewrite app_assoc, take_drop).
  rewrite split_to_app; [done|]. unfold lenN. rewrite length_take. lia.
Qed.

Lemma take_node_app h r :
  valid_node h -> take_node (HgNodeHash_as_bytes h ++ r) = h /\
                  drop 20 (HgNodeHash_as_bytes h ++ r) = r.
Proof.
  intros Hv. unfold take_node, HgNodeHash_as_bytes.
  rewrite take_app_length', drop_app_length' by (by rewrite Hv). by destruct h as [[]].
Qed.

(** A parser of one item that is not disturbed by more input. *)
Definition frame_ok {A} (parse : bytes -> outcome bundle_error (option A * bytes)) : Prop :=
  forall buf ext,
    match parse buf with
    | Ok (Some x, rest) => parse (buf ++ ext) = Ok (Some x, rest ++ ext) /\ length rest < length buf
    | Ok (None, rest) => rest = buf
    | Err e => parse (buf ++ ext) = Err e
    | Panic => parse (buf ++ ext) = Panic
    end.

(** ** [BufMut]: a buffer to write to, or only a count of what is written *)

Class BufMut (B : Type) := put_slice : B -> bytes -> B.

#[export] Instance bytes_bufmut : BufMut bytes := fun b s => b ++ s.

Record SizeCounter := mkSize { counter_size : N }.
Definition SizeCounter_new : SizeCounter := mkSize 0.
#[export] Instance counter_bufmut : BufMut SizeCounter :=
  fun c s => mkSize (usize_add (counter_size c) (lenN s)).

Definition put_i32_be {B} `{!BufMut B} (b : B) (z : Z) : B := put_slice b (i32_be z).

(** ** Deltas on the wire *)

Definition DELTA_HEADER_LEN : N := 12.

(** One round of the loop takes twelve bytes at least, so that the length of
    the buffer bounds the number of rounds. *)
Fixpoint decode_delta_loop (fuel : nat) (buf : bytes) (remaining : N)
    : outcome bundle_error (list Fragment * N) :=
  if (DELTA_HEADER_LEN <=? remaining)%N then
    match fuel with
    | O => Panic
    | S fuel =>
        '(start, buf) ← drain_i32 buf;
        '(end_, buf) ← drain_i32 buf;
        '(new_len, buf) ← drain_i32 buf;
        let delta_len := usize_add (as_usize new_len) DELTA_HEADER_LEN in
        if (remaining <? delta_len)%N then Err (DeltaTooShort delta_len remaining)
        else
          '(content, buf) ← split_to (as_usize new_len) buf;
          '(frags, remaining) ← decode_delta_loop fuel buf (remaining - delta_len);
          Ok (mkFragment (as_usize start) (as_usize end_) content :: frags, remaining)
    end
  else Ok ([], remaining).

Definition decode_delta (buf : bytes) : outcome bundle_error Delta :=
  '(frags, remaining) ← decode_delta_loop (length buf) buf (lenN buf);
  if negb (remaining =? 0)%N then Err (DeltaTrailing remaining)
  else map_err DeltaFragments (Delta_new frags).

Definition encode_fragment {B} `{!BufMut B} (out : B) (f : Fragment) : B :=
  let out := put_i32_be out (as_i32 (frag_start f)) in
  let out := put_i32_be out (as_i32 (frag_end f)) in
  let out := put_i32_be out (as_i32 (lenN (frag_content f))) in
  put_slice out (frag_content f).

Definition encode_delta {B} `{!BufMut B} (delta : Delta) (out : B) : B :=
  foldl encode_fragment out (delta_frags delta).

Definition encoded_len (delta : Delta) : N := counter_size (encode_delta delta SizeCounter_new).

(** *** Lemmas on the encoding *)

Definition fragment_bytes (f : Fragment) : bytes := encode_fragment [] f.
Definition delta_bytes (d : Delta) : bytes := concat (fragment_bytes <$> delta_frags d).

Lemma encode_fragment_app out f : encode_fragment out f = out ++ fragment_bytes f.
Proof.
  unfold fragment_bytes, encode_fragment, put_i32_be, put_slice, bytes_bufmut.
  by rewrite <- !app_assoc.
Qed.

Lemma encode_delta_app d (out : bytes) : encode_delta d out = out ++ delta_bytes d.
Proof.
  unfold encode_delta, delta_bytes. generalize (delta_frags d). intros fs. revert out.
  induction fs as [|f fs IH]; intros out; simpl; [by rewrite app_nil_r|].
  by rewrite IH, encode_fragment_app, <- app_assoc.
Qed.

Lemma fragment_bytes_eq f :
  fragment_bytes f =
  i32_be (as_i32 (frag_start f)) ++ i32_be (as_i32 (frag_end f)) ++
  i32_be (as_i32 (lenN (frag_content f))) ++ frag_content f.
Proof.
  unfold fragment_bytes, encode_fragment, put_i32_be, put_slice, bytes_bufmut.
  by rewrite <- !app_assoc.
Qed.

Lemma length_fragment_bytes f : lenN (fragment_bytes f) = (12 + lenN (frag_content f))%N.
Proof. rewrite fragment_bytes_eq. solve_len. Qed.

Lemma usize_add_assoc a b c : usize_add (usize_add a b) c = usize_add a (b + c).
Proof. unfold usize_add. rewrite N.Div0.add_mod_idemp_l. f_equal. lia. Qed.

Lemma encoded_len_mod d : encoded_len d = (lenN (delta_bytes d) mod 2 ^ 64)%N.
Proof.
  unfold encoded_len, encode_delta, delta_bytes.
  assert (forall fs n, (n < 2 ^ 64)%N ->
            counter_size (foldl encode_fragment (mkSize n) fs)
            = usize_add n (lenN (concat (fragment_bytes <$> fs)))) as H.
  { induction fs as [|f fs IH]; intros n Hn; cbn [foldl fmap list_fmap concat].
    - unfold usize_add, lenN. simpl. rewrite N.add_0_r. by rewrite N.mod_small.
    - replace (encode_fragment (mkSize n) f) with (mkSize (usize_add n (lenN (fragment_bytes f)))).
      + rewrite IH by (apply N.mod_lt; lia). rewrite usize_add_assoc. f_equal.
        unfold lenN. rewrite length_app. lia.
      + unfold encode_fragment, put_i32_be, put_slice, counter_bufmut. cbn [counter_size].
        rewrite !usize_add_assoc. f_equal. f_equal. rewrite length_fragment_bytes. solve_len. }
  apply (H (delta_frags d) 0%N). lia.
Qed.

(** Fragments whose numbers fit the wire format. *)
Definition wire_fragment (f : Fragment) : Prop :=
  (frag_start f < 2 ^ 31)%N /\ (frag_end f < 2 ^ 31)%N /\ (lenN (frag_content f) < 2 ^ 31)%N.

Lemma decode_delta_loop_encoded fs : forall fuel,
  Forall wire_fragment fs -> length fs <= fuel ->
  decode_delta_loop fuel (concat (fragment_bytes <$> fs)) (lenN (concat (fragment_bytes <$> fs)))
  = Ok (fs, 0%N).
Proof.
  induction fs as [|f fs IH]; intros fuel Hf Hfuel; [by destruct fuel|].
  apply Forall_cons in Hf as [(Hs & He & Hc) Hf]. destruct fuel as [|fuel]; [simpl in Hfuel; lia|].
  cbn [fmap list_fmap concat decode_delta_loop].
  assert (lenN (fragment_bytes f ++ concat (fragment_bytes <$> fs))
          = 12 + lenN (frag_content f) + lenN (concat (fragment_bytes <$> fs)))%N as Hl.
  { unfold lenN at 1. rewrite length_app, Nat2N.inj_add. fold (lenN (fragment_bytes f)).
    by rewrite length_fragment_bytes. }
  rewrite Hl. unfold DELTA_HEADER_LEN in *. rewrite (proj2 (N.leb_le _ _)) by lia.
  rewrite (fragment_bytes_eq f), <- !app_assoc.
  rewrite drain_i32_put, bind_Ok by apply wrap32_range.
  rewrite drain_i32_put, bind_Ok by apply wrap32_range.
  rewrite drain_i32_put, bind_Ok by apply wrap32_range.
  rewrite !as_usize_as_i32 by done. rewrite usize_add_small by lia.
  rewrite (proj2 (N.ltb_ge _ _)) by lia. rewrite split_to_app, bind_Ok by done.
  replace (12 + lenN (frag_content f) + lenN (concat (fragment_bytes <$> fs)) - (lenN (frag_content f) + 12))%N
    with (lenN (concat (fragment_bytes <$> fs))) by lia.
  rewrite IH, bind_Ok by (done || (simpl in Hfuel; lia)). by destruct f.
Qed.

Lemma length_delta_frags_le fs : length fs <= length (concat (fragment_bytes <$> fs)).
Proof.
  induction fs as [|f fs IH]; cbn [fmap list_fmap concat length]; [lia|]. rewrite length_app.
  pose proof (length_fragment_bytes f). unfold lenN in *. lia.
Qed.

Lemma decode_delta_bytes d :
  Forall wire_fragment (delta_frags d) -> Delta_verify (delta_frags d) = Ok tt ->
  decode_delta (delta_bytes d) = Ok d.
Proof.
  intros Hw Hv. unfold decode_delta, delta_bytes.
  rewrite decode_delta_loop_encoded by (done || apply length_delta_frags_le).
  simpl. unfold Delta_new. rewrite Hv. by destruct d.
Qed.

(** *** The decoder accepts one encoding only *)

Lemma be_bytes_mod n z : be_bytes n (z mod 2 ^ (8 * Z.of_nat n)) = be_bytes n z.
Proof. rewrite <- be_value_bytes. rewrite <- (length_be_bytes n z) at 1. apply be_bytes_value. Qed.

Lemma i32_be_read b : length b = 4 -> i32_be (read_i32 b) = b.
Proof.
  intros Hl. unfold i32_be, read_i32. rewrite <- be_bytes_mod.
  change (8 * Z.of_nat 4)%Z with 32%Z. unfold wrap32.
  rewrite Zminus_mod_idemp_l. replace (be_value b + 2 ^ 31 - 2 ^ 31)%Z with (be_value b) by lia.
  pose proof (be_value_range b) as Hb. rewrite Hl in Hb.
  change (8 * Z.of_nat 4)%Z with 32%Z in Hb. rewrite Z.mod_small by lia.
  rewrite <- Hl. apply be_bytes_value.
Qed.

Lemma as_i32_as_usize z : i32_range z -> as_i32 (as_usize z) = z.
Proof.
  intros Hz. unfold as_i32, as_usize.
  rewrite Z2N.id by (apply Z.mod_pos_bound; lia). unfold wrap32.
  replace ((z mod 2 ^ 64 + 2 ^ 31) mod 2 ^ 32)%Z with ((z + 2 ^ 31) mod 2 ^ 32)%Z.
  - unfold i32_range in Hz. rewrite Z.mod_small; lia.
  - rewrite (Z.div_mod z (2 ^ 64)) at 1 by lia.
    replace (2 ^ 64 * (z / 2 ^ 64) + z mod 2 ^ 64 + 2 ^ 31)%Z
      with (z mod 2 ^ 64 + 2 ^ 31 + (2 ^ 32 * (z / 2 ^ 64)) * 2 ^ 32)%Z by lia.
    apply Z_mod_plus_full.
Qed.

Lemma drain_i32_Ok {E} buf z rest :
  drain_i32 (E := E) buf = Ok (z, rest) -> buf = i32_be z ++ rest /\ i32_range z.
Proof.
  unfold drain_i32. intros ([b r] & Hs & [= <- <-])%bind_Ok_inv.
  unfold split_to in Hs. destruct (N.leb_spec 4 (lenN buf)) as [Hle|]; [|done].
  injection Hs as <- <-. split; [|apply wrap32_range].
  rewrite i32_be_read; [by rewrite take_drop|]. rewrite length_take. unfold lenN in Hle. lia.
Qed.

Lemma split_to_Ok_inv {E} n (buf p r : bytes) :
  split_to (E := E) n buf = Ok (p, r) -> buf = p ++ r /\ lenN p = n.
Proof.
  unfold split_to. destruct (N.leb_spec n (lenN buf)) as [Hle|]; [|done]. intros [= <- <-].
  split; [by rewrite take_drop|]. unfold lenN in *. rewrite length_take. lia.
Qed.

Lemma decode_delta_loop_sound fuel : forall buf fs r,
  (lenN buf < 2 ^ 63)%N -> decode_delta_loop fuel buf (lenN buf) = Ok (fs, r) ->
  exists tail, buf = concat (fragment_bytes <$> fs) ++ tail /\ lenN tail = r.
Proof.
  induction fuel as [|fuel IH]; intros buf fs r Hlen Hd; cbn [decode_delta_loop] in Hd;
    destruct (N.leb_spec DELTA_HEADER_LEN (lenN buf)) as [Hle|];
    try (injection Hd as <- <-; by exists buf); [done|].
  apply bind_Ok_inv in Hd as ([start b1] & [-> Hst]%drain_i32_Ok & Hd).
  apply bind_Ok_inv in Hd as ([end_ b2] & [-> Hen]%drain_i32_Ok & Hd).
  apply bind_Ok_inv in Hd as ([new_len b3] & [-> Hnl]%drain_i32_Ok & Hd).
  destruct (N.ltb_spec (lenN (i32_be start ++ i32_be end_ ++ i32_be new_len ++ b3))
              (usize_add (as_usize new_len) DELTA_HEADER_LEN)) as [|Hge]; [done|].
  apply bind_Ok_inv in Hd as ([content b4] & [-> Hc]%split_to_Ok_inv & Hd).
  apply bind_Ok_inv in Hd as ([fs' r'] & Hd & [= <- <-]).
  assert (lenN (i32_be start ++ i32_be end_ ++ i32_be new_len ++ content ++ b4)
          = 12 + lenN content + lenN b4)%N as Hl by solve_len.
  rewrite Hl in *. unfold DELTA_HEADER_LEN in *. rewrite <- Hc in Hd.
  rewrite usize_add_small in Hd by lia.
  replace (12 + lenN content + lenN b4 - (lenN content + 12))%N with (lenN b4) in Hd by lia.
  apply IH in Hd as (tail & -> & Htail); [|lia]. exists tail. split; [|done].
  cbn [fmap list_fmap concat]. rewrite fragment_bytes_eq. cbn [frag_start frag_end frag_content].
  rewrite Hc, !as_i32_as_usize by done. by rewrite <- !app_assoc.
Qed.

(** Deltas on the wire: a delta that is valid and whose numbers fit is
    read back from its encoding; the decoder accepts nothing but encodings,
    so that no two byte strings decode to the same delta; and the length
    announced by [encoded_len] is the length of what [encode_delta] writes. *)
Theorem delta_codec_roundtrip (d : Delta) :
  (Forall wire_fragment (delta_frags d) -> Delta_verify (delta_frags d) = Ok tt ->
   decode_delta (encode_delta d []) = Ok d) /\
  (forall buf, (lenN buf < 2 ^ 63)%N -> decode_delta buf = Ok d -> encode_delta d [] = buf) /\
  ((lenN (encode_delta d []) < 2 ^ 64)%N -> encoded_len d = lenN (encode_delta d [])).
Proof.
  rewrite encode_delta_app. cbn [app]. split_and!.
  - apply decode_delta_bytes.
  - intros buf Hlen. unfold decode_delta.
    intros ([fs r] & Hl & Hd)%bind_Ok_inv.
    destruct (N.eqb_spec r 0) as [->|]; [|done]. simpl in Hd. apply map_err_Ok in Hd.
    apply bind_Ok_inv in Hd as ([] & _ & [= <-]).
    apply decode_delta_loop_sound in Hl as (tail & -> & Ht); [|done].
    assert (tail = []) as -> by (destruct tail; [done | unfold lenN in Ht; simpl in Ht; lia]).
    unfold delta_bytes. cbn [delta_frags]. by rewrite app_nil_r.
  - intros Hlt. rewrite encoded_len_mod. by apply N.mod_small.
Qed.

Lemma delta_codec_roundtrip_witness :
  decode_delta (encode_delta (mkDelta [mkFragment 0 3 (bstr "abc"); mkFragment 5 9 []]) [])
  = Ok (mkDelta [mkFragment 0 3 (bstr "abc"); mkFragment 5 9 []]).
Proof.
  refine (proj1 (delta_codec_roundtrip (mkDelta [mkFragment 0 3 (bstr "abc"); mkFragment 5 9 []])) _ _).
  - repeat constructor.
  - reflexivity.
Defined.

(** A negative length is not refused: with twelve bytes of header and the
    length [-1], the decoder asks for more bytes than there are. *)
Example decode_delta_negative_length :
  decode_delta (i32_be 0 ++ i32_be 0 ++ i32_be (-1)) = Panic.
Proof. reflexivity. Qed.
