(* ===== verification/Chunk.v ===== *)
(** * Bundle2 chunks

    Model of [mercurial_bundles/src/chunk.rs]: chunks, and the encoder and
    decoder that frame a bundle2 stream. *)

From S2P Require Import Prelude Framing BundleCodec.

Inductive Chunk :=
| Normal (b : bytes)
| ErrorChunk.

#[export] Instance Chunk_eq_dec : EqDecision Chunk.
Proof. solve_decision. Defined.

Definition Chunk_new (val : bytes) : outcome bundle_error Chunk :=
  if (Z.to_N i32_max <? lenN val)%N then Err (ChunkTooLong (lenN val)) else Ok (Normal val).

Definition Chunk_empty : Chunk := Normal [].
Definition Chunk_error : Chunk := ErrorChunk.

Definition Chunk_is_normal (c : Chunk) : bool :=
  match c with Normal _ => true | ErrorChunk => false end.
Definition Chunk_is_empty (c : Chunk) : bool :=
  match c with Normal b => Nat.eqb (length b) 0 | ErrorChunk => false end.
Definition Chunk_is_error (c : Chunk) : bool :=
  match c with Normal _ => false | ErrorChunk => true end.

Definition Chunk_into_bytes (c : Chunk) : outcome bundle_error bytes :=
  match c with Normal b => Ok b | ErrorChunk => Err ErrorChunkHasNoBytes end.

(** ** The codec *)

Definition chunk_encode (item : Chunk) (dst : bytes) : bytes :=
  match item with
  | Normal b => put_slice (put_i32_be dst (as_i32 (lenN b))) b
  | ErrorChunk => put_i32_be dst (-1)
  end.

Definition chunk_decode_buf (src : bytes) : outcome bundle_error (option Chunk * bytes) :=
  if (lenN src <? 4)%N then Ok (None, src) else
  len ← peek_i32 src;
  if (len =? -1)%Z then
    '(_, src) ← drain_i32 src; Ok (Some Chunk_error, src)
  else if (len <? 0)%Z then Err (ChunkBadLength len)
  else
    let len := as_usize len in
    if (lenN src <? 4 + len)%N then Ok (None, src) else
    '(_, src) ← drain_i32 src;
    '(data, src) ← split_to len src;
    chunk ← Chunk_new data;
    Ok (Some chunk, src).

(** The decoder has no state; [decode_eof] is the one the trait provides. *)
Definition chunk_decode (st : unit) (src : bytes) : unit * outcome bundle_error (option Chunk * bytes) :=
  (tt, chunk_decode_buf src).

Definition chunk_decode_eof (st : unit) (src : bytes)
    : unit * outcome bundle_error (option Chunk * bytes) :=
  match chunk_decode_buf src with
  | Ok (None, rest) => (tt, if Nat.eqb (length rest) 0 then Ok (None, rest) else Err ChunkTruncated)
  | r => (tt, r)
  end.

#[export] Instance chunk_decoder : Decoder unit Chunk bundle_error := {|
  decode := chunk_decode; decode_eof := chunk_decode_eof |}.

(** ** The decoder is lawful *)

Definition valid_chunk (c : Chunk) : Prop :=
  match c with Normal b => (lenN b < 2 ^ 31)%N | ErrorChunk => True end.

(** What the decoder does, by the length at the head of the buffer. *)
Lemma chunk_decode_buf_spec z rest :
  i32_range z ->
  chunk_decode_buf (i32_be z ++ rest) =
  if (z =? -1)%Z then Ok (Some ErrorChunk, rest)
  else if (z <? 0)%Z then Err (ChunkBadLength z)
  else if (lenN rest <? Z.to_N z)%N then Ok (None, i32_be z ++ rest)
  else Ok (Some (Normal (take (Z.to_nat z) rest)), drop (Z.to_nat z) rest).
Proof.
  intros Hz. unfold chunk_decode_buf.
  assert (lenN (i32_be z ++ rest) = 4 + lenN rest)%N as Hl by solve_len. rewrite Hl.
  rewrite (proj2 (N.ltb_ge _ _)) by lia. rewrite peek_i32_put, bind_Ok by done.
  rewrite drain_i32_put by done. rewrite !bind_Ok.
  destruct (Z.eqb_spec z (-1)); [done|]. destruct (Z.ltb_spec z 0); [done|].
  unfold i32_range in Hz. rewrite as_usize_small by lia.
  destruct (N.ltb_spec (lenN rest) (Z.to_N z)) as [Hlt|Hge].
  - by rewrite (proj2 (N.ltb_lt _ _)) by lia.
  - rewrite (proj2 (N.ltb_ge _ _)) by lia. rewrite split_to_Ok, bind_Ok by done.
    unfold Chunk_new, i32_max. rewrite (proj2 (N.ltb_ge _ _)).
    + rewrite bind_Ok. repeat f_equal; lia.
    + unfold lenN in *. rewrite length_take. lia.
Qed.

Lemma buf_head (buf : bytes) :
  (lenN buf < 4)%N \/ exists z rest, i32_range z /\ buf = i32_be z ++ rest.
Proof.
  destruct (N.lt_ge_cases (lenN buf) 4) as [|Hge]; [by left|]. right.
  exists (read_i32 (take 4 buf)), (drop 4 buf). split; [apply wrap32_range|].
  rewrite i32_be_read; [by rewrite take_drop|]. rewrite length_take. unfold lenN in Hge. lia.
Qed.

#[export] Instance chunk_laws : DecoderLaws chunk_decoder.
Proof.
  assert (forall buf x rest, chunk_decode_buf buf = Ok (Some x, rest) -> length rest < length buf) as Hp.
  { intros buf x rest. destruct (buf_head buf) as [Hs|(z & r & Hz & ->)].
    - unfold chunk_decode_buf. by rewrite (proj2 (N.ltb_lt _ _)).
    - rewrite chunk_decode_buf_spec by done. rewrite length_app, length_i32_be.
      repeat case_match; intros [= <- <-]; rewrite ?length_drop; lia. }
  split; cbn [decode decode_eof chunk_decoder]; unfold chunk_decode.
  - intros [] buf ext. destruct (buf_head buf) as [Hs|(z & r & Hz & ->)].
    + unfold chunk_decode_buf at 1. by rewrite (proj2 (N.ltb_lt _ _)).
    + rewrite <- app_assoc, !chunk_decode_buf_spec by done.
      destruct (z =? -1)%Z eqn:Hm; [done|]. destruct (Z.ltb_spec z 0); [done|].
      destruct (N.ltb_spec (lenN r) (Z.to_N z)) as [Hlt|Hge].
      * by rewrite <- app_assoc, chunk_decode_buf_spec, Hm, (proj2 (Z.ltb_ge _ _)) by done.
      * rewrite (proj2 (N.ltb_ge _ _)) by solve_len. unfold lenN in Hge.
        by rewrite take_app_le, drop_app_le by lia.
  - intros [] buf [] x rest [= H]. by eapply Hp.
  - intros [] buf [] rest [= H]. destruct (buf_head buf) as [Hs|(z & r & Hz & ->)].
    + unfold chunk_decode_buf in H. rewrite (proj2 (N.ltb_lt _ _)) in H by done.
      by injection H as <-.
    + rewrite chunk_decode_buf_spec in H by done. repeat case_match; by simplify_eq.
  - intros [] buf [] x rest _ H. unfold chunk_decode_eof in H.
    destruct (chunk_decode_buf buf) as [[[y|] r]|e|] eqn:Ed; try done.
    + injection H as <- <-. by eapply Hp.
    + by destruct (Nat.eqb (length r) 0).
Qed.

Lemma Chunk_new_Ok b c : Chunk_new b = Ok c -> c = Normal b /\ (lenN b < 2 ^ 31)%N.
Proof.
  unfold Chunk_new, i32_max. destruct (N.ltb_spec (Z.to_N (2 ^ 31 - 1)) (lenN b)); [done|].
  intros [= <-]. split; [done | lia].
Qed.

Lemma Chunk_new_fits b : (lenN b < 2 ^ 31)%N -> Chunk_new b = Ok (Normal b).
Proof. intros Hb. unfold Chunk_new, i32_max. by rewrite (proj2 (N.ltb_ge _ _)) by lia. Qed.

(** The bytes of a normal chunk. *)
Definition payload (c : Chunk) : bytes := match c with Normal b => b | ErrorChunk => [] end.

(** ** Round trip *)

Lemma chunk_encode_app c dst : chunk_encode c dst = dst ++ chunk_encode c [].
Proof.
  destruct c; simpl; unfold put_i32_be, put_slice, bytes_bufmut; by rewrite <- ?app_assoc.
Qed.

Lemma chunk_decode_encode c rest :
  valid_chunk c -> chunk_decode_buf (chunk_encode c [] ++ rest) = Ok (Some c, rest).
Proof.
  destruct c as [b|]; intros Hv.
  - simpl in Hv. cbn [chunk_encode]. unfold put_i32_be, put_slice, bytes_bufmut. cbn [app].
    rewrite <- app_assoc, chunk_decode_buf_spec by apply wrap32_range.
    rewrite as_i32_small by done. rewrite (proj2 (Z.eqb_neq _ _)), (proj2 (Z.ltb_ge _ _)) by lia.
    rewrite (proj2 (N.ltb_ge _ _)) by solve_len.
    replace (Z.to_nat (Z.of_N (lenN b))) with (length b) by (unfold lenN; lia).
    by rewrite take_app_length, drop_app_length.
  - cbn [chunk_encode]. unfold put_i32_be, put_slice, bytes_bufmut. cbn [app].
    by rewrite chunk_decode_buf_spec.
Qed.

(** What the sink writes for a sequence of chunks. *)
Definition chunks_bytes (cs : list Chunk) : bytes := foldl (fun dst c => chunk_encode c dst) [] cs.

Lemma chunks_bytes_concat cs : chunks_bytes cs = concat ((fun c => chunk_encode c []) <$> cs).
Proof.
  unfold chunks_bytes. enough (forall dst, foldl (fun dst c => chunk_encode c dst) dst cs
    = dst ++ concat ((fun c => chunk_encode c []) <$> cs)) as H by apply H.
  induction cs as [|c cs IH]; intros dst; cbn [foldl fmap list_fmap concat]; [by rewrite app_nil_r|].
  by rewrite IH, chunk_encode_app, <- app_assoc.
Qed.

Lemma decode_all_chunks cs :
  Forall valid_chunk cs -> decode_all tt (chunks_bytes cs) = (cs, Ok tt).
Proof.
  intros Hv. rewrite chunks_bytes_concat. induction Hv as [|c cs Hc _ IH]; [done|].
  rewrite decode_all_step. cbn [fmap list_fmap concat].
  change (decode (Decoder := chunk_decoder)) with chunk_decode. unfold chunk_decode.
  rewrite chunk_decode_encode by done. by rewrite IH.
Qed.

(** A bundle2 stream is read back as the chunks that were written,
    error chunks and empty chunks included, however its bytes are cut and
    delayed. *)
Theorem chunk_stream_roundtrip (cs : list Chunk) (events : list (poll bytes)) (n : nat) :
  Forall valid_chunk cs -> input_bytes events = chunks_bytes cs ->
  length events + length (input_bytes events) < n ->
  drive n (decode_stream events tt) = Some (cs, Ok tt).
Proof.
  intros Hv He Hn. rewrite drive_stream by done. by rewrite He, decode_all_chunks.
Qed.

Lemma chunk_stream_roundtrip_witness :
  drive 40 (decode_stream
    [Ready (bstr "" ++ [x00; x00]); NotReady; Ready ([x00; x02] ++ bstr "hi"); Ready [xff; xff; xff; xff];
     Ready [x00; x00; x00; x00]] tt) = Some ([Normal (bstr "hi"); ErrorChunk; Normal []], Ok tt).
Proof.
  apply chunk_stream_roundtrip.
  - repeat constructor.
  - reflexivity.
  - simpl. lia.
Defined.

(** C38. A chunk made by [Chunk::new] always fits the wire format, and
    everything the decoder returns could have been made by it. *)
Theorem chunk_sizes (b : bytes) :
  (forall c, Chunk_new b = Ok c -> valid_chunk c /\ Chunk_into_bytes c = Ok b) /\
  (forall c rest, chunk_decode_buf b = Ok (Some c, rest) -> valid_chunk c) /\
  (forall e, Chunk_new b = Err e -> (2 ^ 31 <= lenN b)%N).
Proof.
  unfold Chunk_new, i32_max. split_and!.
  - intros c. destruct (N.ltb_spec (Z.to_N (2 ^ 31 - 1)) (lenN b)); [done|].
    intros [= <-]. split; [simpl; lia | done].
  - intros c rest. destruct (buf_head b) as [Hs|(z & r & Hz & ->)].
    + unfold chunk_decode_buf. by rewrite (proj2 (N.ltb_lt _ _)).
    + rewrite chunk_decode_buf_spec by done. destruct (z =? -1)%Z; [by intros [= <- <-]|].
      destruct (z <? 0)%Z; [done|].
      destruct (lenN r <? Z.to_N z)%N; [done|]. intros [= <- <-]. simpl. unfold lenN.
      rewrite length_take. unfold i32_range in Hz. lia.
  - intros e. destruct (N.ltb_spec (Z.to_N (2 ^ 31 - 1)) (lenN b)); [lia | done].
Qed.
