(* ===== verification/PartHeader.v ===== *)
(** * Bundle2 part headers

    Model of [mercurial_bundles/src/part_header.rs]: the part types, the
    header with its mandatory and advisory parameters, the builder that
    checks parameters, and the wire format. *)

From stdpp Require Import fin_maps.
From S2P Require Import Prelude Ord BundleCodec Chunk.

Inductive PartHeaderType :=
| Changegroup
| ReplyChangegroup
| Replycaps
| Listkeys
| B2xTreegroup2
| CheckHeads
| B2xCommonHeads
| B2xInfinitepush
| B2xInfinitepushBookmarks
| B2xRebase
| B2xRebasePack
| Pushkey
| ReplyPushkey
| Pushvars
| PhaseHeads.

#[export] Instance PartHeaderType_eq_dec : EqDecision PartHeaderType.
Proof. solve_decision. Defined.

Inductive header_error :=
| UnknownHeaderType
| PartTypeNotUtf8
| KeyNotUtf8 (cur : nat)
| DuplicateKey (key : bytes)
| EmptyKey
| KeyTooLong
| ValueTooLong
| TooManyMandatory
| TooManyAdvisory.

(** ** ASCII letters *)

Definition is_ascii_upper (b : byte) : bool := in_range 65 90 b.
Definition is_ascii_lower (b : byte) : bool := in_range 97 122 b.
Definition ascii_lower_byte (b : byte) : byte :=
  if is_ascii_upper b then z2b (b2z b + 32) else b.
Definition ascii_upper_byte (b : byte) : byte :=
  if is_ascii_lower b then z2b (b2z b - 32) else b.
Definition to_ascii_lowercase (s : bytes) : bytes := ascii_lower_byte <$> s.
Definition to_ascii_uppercase (s : bytes) : bytes := ascii_upper_byte <$> s.

(** ** Part types *)

Definition type_as_str (t : PartHeaderType) : bytes :=
  match t with
  | Changegroup => bstr "changegroup"
  | ReplyChangegroup => bstr "reply:changegroup"
  | Replycaps => bstr "replycaps"
  | Listkeys => bstr "listkeys"
  | B2xTreegroup2 => bstr "b2x:treegroup2"
  | B2xCommonHeads => bstr "b2x:commonheads"
  | B2xInfinitepush => bstr "b2x:infinitepush"
  | B2xInfinitepushBookmarks => bstr "b2x:infinitepushscratchbookmarks"
  | B2xRebase => bstr "b2x:rebase"
  | B2xRebasePack => bstr "b2x:rebasepackpart"
  | CheckHeads => bstr "check:heads"
  | Pushkey => bstr "pushkey"
  | Pushvars => bstr "pushvars"
  | ReplyPushkey => bstr "reply:pushkey"
  | PhaseHeads => bstr "phase-heads"
  end.

Definition type_decode (data : bytes) : outcome header_error PartHeaderType :=
  let s := to_ascii_lowercase data in
  if decide (s = bstr "changegroup") then Ok Changegroup else
  if decide (s = bstr "reply:changegroup") then Ok ReplyChangegroup else
  if decide (s = bstr "replycaps") then Ok Replycaps else
  if decide (s = bstr "listkeys") then Ok Listkeys else
  if decide (s = bstr "b2x:treegroup2") then Ok B2xTreegroup2 else
  if decide (s = bstr "b2x:infinitepush") then Ok B2xInfinitepush else
  if decide (s = bstr "b2x:infinitepushscratchbookmarks") then Ok B2xInfinitepushBookmarks else
  if decide (s = bstr "b2x:commonheads") then Ok B2xCommonHeads else
  if decide (s = bstr "b2x:rebase") then Ok B2xRebase else
  if decide (s = bstr "b2x:rebasepackpart") then Ok B2xRebasePack else
  if decide (s = bstr "check:heads") then Ok CheckHeads else
  if decide (s = bstr "pushkey") then Ok Pushkey else
  if decide (s = bstr "reply:pushkey") then Ok ReplyPushkey else
  if decide (s = bstr "pushvars") then Ok Pushvars else
  if decide (s = bstr "phase-heads") then Ok PhaseHeads else
  Err UnknownHeaderType.

(** ** Headers and their builder *)

Record PartHeader := mkHeader {
  part_type : PartHeaderType;
  mandatory : bool;
  part_id : N;
  mparams : gmap bytes bytes;
  aparams : gmap bytes bytes;
}.

Record PartHeaderBuilder := mkHBuilder {
  pb_part_type : PartHeaderType;
  pb_mandatory : bool;
  pb_mparams : gmap bytes bytes;
  pb_aparams : gmap bytes bytes;
}.

Definition builder_new (t : PartHeaderType) (mandatory : bool) : PartHeaderBuilder :=
  mkHBuilder t mandatory ∅ ∅.

Definition check_param (b : PartHeaderBuilder) (key val : bytes) : outcome header_error unit :=
  if bool_decide (is_Some (pb_mparams b !! key)) || bool_decide (is_Some (pb_aparams b !! key))
  then Err (DuplicateKey key) else
  if Nat.eqb (length key) 0 then Err EmptyKey else
  if (255 <? lenN key)%N then Err KeyTooLong else
  if (255 <? lenN val)%N then Err ValueTooLong else
  Ok tt.

Definition add_mparam (b : PartHeaderBuilder) (key val : bytes)
    : outcome header_error PartHeaderBuilder :=
  _ ← check_param b key val;
  if Nat.leb 255 (size (pb_mparams b)) then Err TooManyMandatory else
  Ok (mkHBuilder (pb_part_type b) (pb_mandatory b) (<[key := val]> (pb_mparams b)) (pb_aparams b)).

Definition add_aparam (b : PartHeaderBuilder) (key val : bytes)
    : outcome header_error PartHeaderBuilder :=
  _ ← check_param b key val;
  if Nat.leb 255 (size (pb_aparams b)) then Err TooManyAdvisory else
  Ok (mkHBuilder (pb_part_type b) (pb_mandatory b) (pb_mparams b) (<[key := val]> (pb_aparams b))).

Definition build_header (b : PartHeaderBuilder) (part_id : N) : PartHeader :=
  mkHeader (pb_part_type b) (pb_mandatory b) part_id (pb_mparams b) (pb_aparams b).

(** ** The encoder *)

(** The order of tuples that [sort] uses. *)
Definition param_le (x y : bytes * bytes) : Prop :=
  match cmp x.1 y.1 with Lt => True | Eq => cmp x.2 y.2 <> Gt | Gt => False end.

#[export] Instance param_le_dec : RelDecision param_le.
Proof. intros x y. unfold param_le. destruct (cmp x.1 y.1); apply _. Defined.

Definition sorted_params (m : gmap bytes bytes) : list (bytes * bytes) :=
  merge_sort param_le (map_to_list m).

Definition put_u8 (b : bytes) (n : N) : bytes := put_slice b (u_be 1 (as_u8 n)).

Definition put_sizes (b : bytes) (params : list (bytes * bytes)) : bytes :=
  foldl (fun b '(key, val) => put_u8 (put_u8 b (lenN key)) (lenN val)) b params.

Definition put_params (b : bytes) (params : list (bytes * bytes)) : bytes :=
  foldl (fun b '(key, val) => put_slice (put_slice b key) val) b params.

Definition header_encode (h : PartHeader) : outcome bundle_error Chunk :=
  let part_type := type_as_str (part_type h) in
  let part_type := if mandatory h then to_ascii_uppercase part_type else part_type in
  let out_buf := put_slice (put_u8 [] (lenN part_type)) part_type in
  let out_buf := put_slice out_buf (u_be 4 (part_id h)) in
  let out_buf := put_u8 out_buf (N.of_nat (size (mparams h))) in
  let out_buf := put_u8 out_buf (N.of_nat (size (aparams h))) in
  let mparams := sorted_params (mparams h) in
  let aparams := sorted_params (aparams h) in
  let out_buf := put_sizes (put_sizes out_buf mparams) aparams in
  let out_buf := put_params (put_params out_buf mparams) aparams in
  match Chunk_new out_buf with Ok c => Ok c | _ => Panic end.

(** ** The decoder *)

Definition header_drain_str {E} (e : E) (len : N) (buf : bytes) : outcome E (bytes * bytes) :=
  '(b, buf) ← split_to len buf; s ← ok_or (from_utf8 b) e; Ok (s, buf).

Definition decode_header_param (cur : nat) (buf : bytes) (ksize vsize : N)
    : outcome header_error (bytes * bytes * bytes) :=
  '(key, buf) ← header_drain_str (KeyNotUtf8 cur) ksize buf;
  '(val, buf) ← split_to vsize buf;
  Ok (key, val, buf).

Fixpoint drain_sizes (n : nat) (buf : bytes) : outcome header_error (list (N * N) * bytes) :=
  match n with
  | O => Ok ([], buf)
  | S n =>
      '(k, buf) ← drain_u8 buf;
      '(v, buf) ← drain_u8 buf;
      '(sizes, buf) ← drain_sizes n buf;
      Ok ((k, v) :: sizes, buf)
  end.

(** One of the two loops over the parameters, [add] being [add_mparam] or
    [add_aparam] and [cur] the index of the first one. *)
Fixpoint decode_params
    (add : PartHeaderBuilder -> bytes -> bytes -> outcome header_error PartHeaderBuilder)
    (cur : nat) (sizes : list (N * N)) (header : PartHeaderBuilder) (buf : bytes)
    : outcome header_error (PartHeaderBuilder * bytes) :=
  match sizes with
  | [] => Ok (header, buf)
  | (ksize, vsize) :: sizes =>
      '(key, val, buf) ← decode_header_param cur buf ksize vsize;
      header ← add header key val;
      decode_params add (S cur) sizes header buf
  end.

Definition header_decode (header_bytes : bytes) : outcome header_error PartHeader :=
  '(type_size, buf) ← drain_u8 header_bytes;
  '(part_type_encoded, buf) ← header_drain_str PartTypeNotUtf8 type_size buf;
  part_type ← type_decode part_type_encoded;
  let mandatory := existsb is_ascii_upper part_type_encoded in
  '(part_id, buf) ← drain_u32 buf;
  '(nmparams, buf) ← drain_u8 buf;
  '(naparams, buf) ← drain_u8 buf;
  let nm := N.to_nat nmparams in
  let na := N.to_nat naparams in
  '(sizes, buf) ← drain_sizes (nm + na) buf;
  '(header, buf) ← decode_params add_mparam 0 (take nm sizes) (builder_new part_type mandatory) buf;
  '(header, _) ← decode_params add_aparam nm (drop nm sizes) header buf;
  Ok (build_header header part_id).

(** ** The invariant of headers *)

Definition valid_param (key val : bytes) : Prop :=
  utf8_valid key = true /\ key <> [] /\ (lenN key <= 255)%N /\ (lenN val <= 255)%N.

Record valid_header (h : PartHeader) : Prop := {
  vh_id : (part_id h < 2 ^ 32)%N;
  vh_mparams : map_Forall valid_param (mparams h);
  vh_aparams : map_Forall valid_param (aparams h);
  vh_mcount : size (mparams h) <= 255;
  vh_acount : size (aparams h) <= 255;
  vh_disjoint : mparams h ##ₘ aparams h;
}.

(** The same, for a header under construction. *)
Definition valid_builder (b : PartHeaderBuilder) : Prop :=
  forall id, (id < 2 ^ 32)%N -> valid_header (build_header b id).

(** ** The builder keeps the invariant *)

Lemma check_param_Ok b key val :
  check_param b key val = Ok tt <->
  pb_mparams b !! key = None /\ pb_aparams b !! key = None /\ key <> [] /\
  (lenN key <= 255)%N /\ (lenN val <= 255)%N.
Proof.
  unfold check_param. case_bool_decide as Hm; cbn [orb].
  { split; [done|]. intros (E & _). rewrite E in Hm. by destruct Hm. }
  case_bool_decide as Ha.
  { split; [done|]. intros (_ & E & _). rewrite E in Ha. by destruct Ha. }
  apply eq_None_not_Some in Hm, Ha.
  destruct (Nat.eqb_spec (length key) 0) as [E|E].
  { apply nil_length_inv in E. naive_solver. }
  assert (key <> []) by (by intros ->).
  destruct (N.ltb_spec 255 (lenN key)); [split; [done | lia]|].
  destruct (N.ltb_spec 255 (lenN val)); [split; [done | lia]|]. done.
Qed.

Lemma add_mparam_valid b key val b' :
  utf8_valid key = true -> valid_builder b -> add_mparam b key val = Ok b' -> valid_builder b'.
Proof.
  intros Hu Hv. unfold add_mparam. intros ([] & Hc & Ha)%bind_Ok_inv.
  apply check_param_Ok in Hc as (Hm & Hap & Hne & Hk & Hval).
  destruct (Nat.leb_spec 255 (size (pb_mparams b))) as [|Hs]; [done|]. injection Ha as <-.
  intros id Hid. destruct (Hv id Hid) as [H1 H2 H3 H4 H5 H6]. split; cbn in *; [done| |done| |done|].
  - by apply map_Forall_insert_2.
  - rewrite map_size_insert_None by done. lia.
  - by apply map_disjoint_insert_l_2.
Qed.

Lemma add_aparam_valid b key val b' :
  utf8_valid key = true -> valid_builder b -> add_aparam b key val = Ok b' -> valid_builder b'.
Proof.
  intros Hu Hv. unfold add_aparam. intros ([] & Hc & Ha)%bind_Ok_inv.
  apply check_param_Ok in Hc as (Hm & Hap & Hne & Hk & Hval).
  destruct (Nat.leb_spec 255 (size (pb_aparams b))) as [|Hs]; [done|]. injection Ha as <-.
  intros id Hid. destruct (Hv id Hid) as [H1 H2 H3 H4 H5 H6]. split; cbn in *; [done|done| |done| |].
  - by apply map_Forall_insert_2.
  - rewrite map_size_insert_None by done. lia.
  - by apply map_disjoint_insert_r_2.
Qed.

Lemma builder_new_valid t m : valid_builder (builder_new t m).
Proof.
  intros id Hid. split; cbn; [done|apply map_Forall_empty|apply map_Forall_empty| | |].
  - rewrite map_size_empty. lia.
  - rewrite map_size_empty. lia.
  - apply map_disjoint_empty_r.
Qed.

Lemma decode_params_valid add sizes :
  (forall b key val b', utf8_valid key = true -> valid_builder b -> add b key val = Ok b' ->
     valid_builder b') ->
  forall cur b buf b' buf', valid_builder b -> decode_params add cur sizes b buf = Ok (b', buf') ->
    valid_builder b'.
Proof.
  intros Hadd. induction sizes as [|[k v] sizes IH]; intros cur b buf b' buf' Hv; cbn [decode_params].
  - by intros [= <- <-].
  - intros ([[key val] r] & Hp & (b1 & Hb & Hd)%bind_Ok_inv)%bind_Ok_inv.
    assert (utf8_valid key = true) as Hu.
    { unfold decode_header_param, header_drain_str in Hp.
      apply bind_Ok_inv in Hp as ([s r1] & Hs & Hp). apply bind_Ok_inv in Hs as ([s0 r0] & _ & Hs).
      apply bind_Ok_inv in Hs as (s1 & Hs & [= -> ->]).
      apply bind_Ok_inv in Hp as ([? ?] & _ & [= -> -> ->]).
      unfold from_utf8 in Hs. destruct (utf8_valid s0) eqn:E; [|done]. injection Hs as <-. done. }
    by eapply IH; [eapply Hadd|].
Qed.

Lemma drain_uint_range {E} n buf x r :
  drain_uint (E := E) n buf = Ok (x, r) -> (Z.of_N x < 2 ^ (8 * Z.of_nat n))%Z.
Proof.
  unfold drain_uint. intros ([b r'] & [_ Hl]%split_to_Ok_inv & [= <- _])%bind_Ok_inv.
  unfold read_u. pose proof (be_value_range b). unfold lenN in Hl.
  assert (length b = n) as <- by lia. rewrite Z2N.id by lia. lia.
Qed.

Lemma header_decode_valid buf h : header_decode buf = Ok h -> valid_header h.
Proof.
  unfold header_decode. intros H.
  apply bind_Ok_inv in H as ([tsize b1] & _ & H). apply bind_Ok_inv in H as ([enc b2] & _ & H).
  apply bind_Ok_inv in H as (t & _ & H). apply bind_Ok_inv in H as ([id b3] & Hid%drain_uint_range & H).
  apply bind_Ok_inv in H as ([nm b4] & _ & H). apply bind_Ok_inv in H as ([na b5] & _ & H).
  apply bind_Ok_inv in H as ([sizes b6] & _ & H).
  apply bind_Ok_inv in H as ([h1 b7] & H1 & H). apply bind_Ok_inv in H as ([h2 b8] & H2 & [= <-]).
  apply (decode_params_valid add_mparam) in H1; [|apply add_mparam_valid|apply builder_new_valid].
  apply (decode_params_valid add_aparam) in H2; [|apply add_aparam_valid|done].
  apply H2. simpl in Hid. lia.
Qed.

(** ** Part types *)

Lemma type_roundtrip t :
  type_decode (type_as_str t) = Ok t /\ type_decode (to_ascii_uppercase (type_as_str t)) = Ok t /\
  existsb is_ascii_upper (type_as_str t) = false /\
  existsb is_ascii_upper (to_ascii_uppercase (type_as_str t)) = true /\
  utf8_valid (type_as_str t) = true /\ utf8_valid (to_ascii_uppercase (type_as_str t)) = true /\
  length (type_as_str t) <= 32 /\ length (to_ascii_uppercase (type_as_str t)) = length (type_as_str t).
Proof. destruct t; vm_compute; repeat split; lia. Qed.

(** ** Parameters on the wire *)

Definition size_bytes (ps : list (bytes * bytes)) : bytes :=
  concat ((fun '(k, v) => u_be 1 (as_u8 (lenN k)) ++ u_be 1 (as_u8 (lenN v))) <$> ps).
Definition param_bytes (ps : list (bytes * bytes)) : bytes :=
  concat ((fun '(k, v) => k ++ v) <$> ps).

Lemma put_sizes_app ps : forall b, put_sizes b ps = b ++ size_bytes ps.
Proof.
  unfold put_sizes, size_bytes. induction ps as [|[k v] ps IH]; intros b;
    cbn [foldl fmap list_fmap concat]; [by rewrite app_nil_r|].
  rewrite IH. unfold put_u8, put_slice, bytes_bufmut. by rewrite <- !app_assoc.
Qed.

Lemma put_params_app ps : forall b, put_params b ps = b ++ param_bytes ps.
Proof.
  unfold put_params, param_bytes. induction ps as [|[k v] ps IH]; intros b;
    cbn [foldl fmap list_fmap concat]; [by rewrite app_nil_r|].
  rewrite IH. unfold put_slice, bytes_bufmut. by rewrite <- !app_assoc.
Qed.

Definition good_params (ps : list (bytes * bytes)) : Prop :=
  Forall (fun x => valid_param x.1 x.2) ps.

Lemma drain_u8_put {E} x rest :
  (x <= 255)%N -> drain_u8 (E := E) (u_be 1 (as_u8 x) ++ rest) = Ok (x, rest).
Proof.
  intros Hx. unfold as_u8. rewrite N.mod_small by lia. unfold drain_u8.
  rewrite drain_uint_put; [done|]. simpl. lia.
Qed.

Lemma drain_sizes_put ps rest :
  good_params ps ->
  drain_sizes (length ps) (size_bytes ps ++ rest)
  = Ok ((fun '(k, v) => (lenN k, lenN v)) <$> ps, rest).
Proof.
  induction 1 as [|[k v] ps (_ & _ & Hk & Hv) _ IH]; [done|].
  unfold size_bytes in *. cbn [length drain_sizes fmap list_fmap concat]. rewrite <- !app_assoc.
  rewrite !drain_u8_put by done. rewrite !bind_Ok, drain_u8_put by done. rewrite bind_Ok.
  by rewrite IH.
Qed.

(** The first loop, on parameters that are new to both maps. *)
Lemma decode_mparams_put ps : forall cur t m M A rest,
  good_params ps -> NoDup ps.*1 -> (forall k, k ∈ ps.*1 -> M !! k = None /\ A !! k = None) ->
  size M + length ps <= 255 ->
  decode_params add_mparam cur ((fun '(k, v) => (lenN k, lenN v)) <$> ps)
    (mkHBuilder t m M A) (param_bytes ps ++ rest)
  = Ok (mkHBuilder t m (list_to_map ps ∪ M) A, rest).
Proof.
  induction ps as [|[k v] ps IH]; intros cur t m M A rest Hg Hnd Hnew Hsz.
  { cbn. by rewrite map_empty_union. }
  apply Forall_cons in Hg as [(Hu & Hne & Hk & Hv) Hg]. cbn [fmap list_fmap fst] in Hnd.
  apply NoDup_cons in Hnd as [Hkn Hnd]. destruct (Hnew k ltac:(by left)) as [HM HA].
  unfold param_bytes in *. cbn [fmap list_fmap concat decode_params]. cbn [fst snd] in *.
  unfold decode_header_param, header_drain_str. rewrite <- !app_assoc.
  rewrite split_to_app, bind_Ok by done. unfold from_utf8. rewrite Hu. cbn [ok_or]. rewrite !bind_Ok.
  rewrite split_to_app, !bind_Ok by done. unfold add_mparam.
  rewrite (proj2 (check_param_Ok _ k v)) by done. rewrite bind_Ok. cbn [pb_mparams].
  cbn [length] in Hsz. rewrite (proj2 (Nat.leb_gt _ _)) by lia. rewrite bind_Ok.
  cbn [pb_part_type pb_mandatory pb_aparams]. rewrite IH.
  - do 3 f_equal. cbn [list_to_map foldr]. rewrite <- insert_union_l. symmetry.
    apply insert_union_r. by apply not_elem_of_list_to_map_1.
  - done.
  - done.
  - intros k' Hk'. rewrite lookup_insert_ne by (intros ->; done). apply Hnew. by right.
  - rewrite map_size_insert_None by done. lia.
Qed.

Lemma decode_aparams_put ps : forall cur t m M A rest,
  good_params ps -> NoDup ps.*1 -> (forall k, k ∈ ps.*1 -> M !! k = None /\ A !! k = None) ->
  size A + length ps <= 255 ->
  decode_params add_aparam cur ((fun '(k, v) => (lenN k, lenN v)) <$> ps)
    (mkHBuilder t m M A) (param_bytes ps ++ rest)
  = Ok (mkHBuilder t m M (list_to_map ps ∪ A), rest).
Proof.
  induction ps as [|[k v] ps IH]; intros cur t m M A rest Hg Hnd Hnew Hsz.
  { cbn. by rewrite map_empty_union. }
  apply Forall_cons in Hg as [(Hu & Hne & Hk & Hv) Hg]. cbn [fmap list_fmap fst] in Hnd.
  apply NoDup_cons in Hnd as [Hkn Hnd]. destruct (Hnew k ltac:(by left)) as [HM HA].
  unfold param_bytes in *. cbn [fmap list_fmap concat decode_params]. cbn [fst snd] in *.
  unfold decode_header_param, header_drain_str. rewrite <- !app_assoc.
  rewrite split_to_app, bind_Ok by done. unfold from_utf8. rewrite Hu. cbn [ok_or]. rewrite !bind_Ok.
  rewrite split_to_app, !bind_Ok by done. unfold add_aparam.
  rewrite (proj2 (check_param_Ok _ k v)) by done. rewrite bind_Ok. cbn [pb_aparams].
  cbn [length] in Hsz. rewrite (proj2 (Nat.leb_gt _ _)) by lia. rewrite bind_Ok.
  cbn [pb_part_type pb_mandatory pb_mparams]. rewrite IH.
  - do 2 f_equal. cbn [list_to_map foldr]. rewrite <- insert_union_l. f_equal. symmetry.
    apply insert_union_r. by apply not_elem_of_list_to_map_1.
  - done.
  - done.
  - intros k' Hk'. rewrite lookup_insert_ne by (intros ->; done). apply Hnew. by right.
  - rewrite map_size_insert_None by done. lia.
Qed.

(** The sorted parameters are those of the map. *)
Lemma sorted_params_spec m :
  list_to_map (sorted_params m) = m /\ NoDup (sorted_params m).*1 /\
  length (sorted_params m) = size m /\
  (map_Forall valid_param m -> good_params (sorted_params m)) /\
  (forall k, k ∈ (sorted_params m).*1 -> is_Some (m !! k)).
Proof.
  pose proof (merge_sort_Permutation param_le (map_to_list m)) as Hp. fold (sorted_params m) in Hp.
  pose proof (NoDup_fst_map_to_list m) as Hnd.
  assert (NoDup (sorted_params m).*1) as Hnd' by (by rewrite Hp). split_and!.
  - rewrite <- (list_to_map_to_list m) at 2. by apply list_to_map_proper.
  - done.
  - by rewrite Hp, length_map_to_list.
  - intros Hv. unfold good_params. rewrite Hp. apply Forall_forall. intros [k v] Hin.
    apply elem_of_map_to_list in Hin. by apply Hv.
  - intros k. rewrite Hp. intros ([k' v] & -> & Hin)%list_elem_of_fmap.
    apply elem_of_map_to_list in Hin. by eexists.
Qed.

(** ** Round trip *)

Lemma length_size_bytes ps : length (size_bytes ps) = 2 * length ps.
Proof.
  unfold size_bytes. induction ps as [|[k v] ps IH]; cbn [fmap list_fmap concat length]; [done|].
  rewrite !length_app, !length_u_be, IH. lia.
Qed.

Lemma length_param_bytes ps : good_params ps -> length (param_bytes ps) <= 510 * length ps.
Proof.
  unfold param_bytes. induction 1 as [|[k v] ps (_ & _ & Hk & Hv) _ IH];
    cbn [fmap list_fmap concat length]; [lia|].
  rewrite !length_app. unfold lenN in *. cbn [fst snd] in *. lia.
Qed.

(** The bytes of a header. *)
Definition header_bytes (h : PartHeader) : bytes :=
  let name := if mandatory h then to_ascii_uppercase (type_as_str (part_type h))
              else type_as_str (part_type h) in
  u_be 1 (as_u8 (lenN name)) ++ name ++ u_be 4 (part_id h) ++
  u_be 1 (as_u8 (N.of_nat (size (mparams h)))) ++ u_be 1 (as_u8 (N.of_nat (size (aparams h)))) ++
  size_bytes (sorted_params (mparams h) ++ sorted_params (aparams h)) ++
  param_bytes (sorted_params (mparams h)) ++ param_bytes (sorted_params (aparams h)).

Lemma header_encode_bytes h :
  valid_header h -> header_encode h = Ok (Normal (header_bytes h)).
Proof.
  intros [Hid Hm Ha Hmc Hac Hd]. unfold header_encode.
  rewrite !put_params_app, !put_sizes_app. unfold put_u8, put_slice, bytes_bufmut. cbn [app].
  assert (size_bytes (sorted_params (mparams h) ++ sorted_params (aparams h))
          = size_bytes (sorted_params (mparams h)) ++ size_bytes (sorted_params (aparams h))) as Hs.
  { unfold size_bytes. by rewrite fmap_app, concat_app. }
  pose proof (sorted_params_spec (mparams h)) as (_ & _ & Hlm & Hgm & _).
  pose proof (sorted_params_spec (aparams h)) as (_ & _ & Hla & Hga & _).
  pose proof (length_param_bytes _ (Hgm Hm)). pose proof (length_param_bytes _ (Hga Ha)).
  pose proof (type_roundtrip (part_type h)) as (_ & _ & _ & _ & _ & _ & Hl1 & Hl2).
  match goal with |- match Chunk_new ?b with _ => _ end = _ => assert (b = header_bytes h) as -> end.
  { unfold header_bytes. rewrite Hs. by rewrite <- !app_assoc. }
  rewrite Chunk_new_fits; [done|].
  unfold header_bytes, lenN. rewrite !length_app, !length_u_be, length_size_bytes, length_app.
  destruct (mandatory h); lia.
Qed.

Lemma header_decode_bytes h : valid_header h -> header_decode (header_bytes h) = Ok h.
Proof.
  intros [Hid Hm Ha Hmc Hac Hd]. unfold header_decode, header_bytes.
  pose proof (type_roundtrip (part_type h)) as (T1 & T2 & T3 & T4 & T5 & T6 & T7 & T8).
  set (name := if mandatory h then to_ascii_uppercase (type_as_str (part_type h))
               else type_as_str (part_type h)).
  assert (type_decode name = Ok (part_type h) /\ existsb is_ascii_upper name = mandatory h /\
          utf8_valid name = true /\ length name <= 32) as (N1 & N2 & N3 & N4).
  { unfold name. destruct (mandatory h); rewrite ?T8; done. }
  rewrite drain_u8_put, bind_Ok by (unfold lenN; lia).
  unfold header_drain_str. rewrite split_to_app, bind_Ok by done. unfold from_utf8. rewrite N3.
  cbn [ok_or]. rewrite !bind_Ok, N1, bind_Ok, N2. unfold drain_u32.
  rewrite drain_uint_put, bind_Ok by (simpl; lia).
  rewrite drain_u8_put, bind_Ok by lia. rewrite drain_u8_put, bind_Ok by lia.
  rewrite !Nat2N.id.
  pose proof (sorted_params_spec (mparams h)) as (Em & Hndm & Hlm & Hgm & Hkm).
  pose proof (sorted_params_spec (aparams h)) as (Ea & Hnda & Hla & Hga & Hka).
  specialize (Hgm Hm). specialize (Hga Ha).
  rewrite <- Hlm, <- Hla, <- length_app.
  rewrite drain_sizes_put, bind_Ok by (by apply Forall_app). rewrite fmap_app.
  rewrite take_app_length', drop_app_length' by (by rewrite length_fmap).
  unfold builder_new. rewrite decode_mparams_put, bind_Ok; [|done|done|done|].
  2:{ rewrite map_size_empty. lia. }
  rewrite Em, map_union_empty.
  pose proof (decode_aparams_put (sorted_params (aparams h)) (length (sorted_params (mparams h)))
    (part_type h) (mandatory h) (mparams h) ∅ []) as H. rewrite app_nil_r in H. rewrite H.
  - rewrite bind_Ok, Ea, map_union_empty. by destruct h.
  - done.
  - done.
  - intros k Hk. split; [|apply lookup_empty]. apply Hka in Hk as [v Hv].
    by eapply map_disjoint_Some_r.
  - rewrite map_size_empty. lia.
Qed.

(** Part headers: a valid header is encoded without a panic and read back
    unchanged, parameters, part type and mandatory flag included, whatever
    order the maps iterate in; and every header that the decoder accepts is
    valid, so that it can be sent on. *)
Theorem part_header_roundtrip (h : PartHeader) :
  (valid_header h ->
   exists b, header_encode h = Ok (Normal b) /\ header_decode b = Ok h) /\
  (forall buf, header_decode buf = Ok h -> valid_header h).
Proof.
  split.
  - intros Hv. exists (header_bytes h). split; [by apply header_encode_bytes | by apply header_decode_bytes].
  - intros buf. apply header_decode_valid.
Qed.

(** What a client of the builder does: a sequence of successful additions. *)
Inductive built_by : PartHeaderBuilder -> Prop :=
| built_new t m : built_by (builder_new t m)
| built_mparam b key val b' :
    built_by b -> utf8_valid key = true -> add_mparam b key val = Ok b' -> built_by b'
| built_aparam b key val b' :
    built_by b -> utf8_valid key = true -> add_aparam b key val = Ok b' -> built_by b'.

(** Whatever is put together with the builder is a valid header: keys
    are unique across both maps, not empty, and every length and count fits
    its byte on the wire. *)
Theorem builder_header_valid (b : PartHeaderBuilder) (id : N) :
  built_by b -> (id < 2 ^ 32)%N -> valid_header (build_header b id).
Proof.
  intros Hb Hid. assert (valid_builder b) as Hv; [|by apply Hv].
  induction Hb; [apply builder_new_valid | by eapply add_mparam_valid | by eapply add_aparam_valid].
Qed.

(** [ok] of a step, or the builder as it was. *)
Definition stepped (b : PartHeaderBuilder) (r : outcome header_error PartHeaderBuilder) :=
  match r with Ok b' => b' | _ => b end.

Definition ex_builder0 : PartHeaderBuilder := builder_new Pushkey true.
Definition ex_builder1 : PartHeaderBuilder :=
  stepped ex_builder0 (add_mparam ex_builder0 (bstr "namespace") (bstr "bookmarks")).
Definition ex_builder : PartHeaderBuilder :=
  stepped ex_builder1 (add_aparam ex_builder1 (bstr "new") []).

Lemma builder_header_valid_witness : valid_header (build_header ex_builder 7).
Proof.
  apply builder_header_valid; [|reflexivity].
  apply (built_aparam ex_builder1 (bstr "new") []); [|reflexivity|reflexivity].
  apply (built_mparam ex_builder0 (bstr "namespace") (bstr "bookmarks")); [|reflexivity|reflexivity].
  apply built_new.
Defined.
