(* ===== verification/Changegroup.v ===== *)
(** * Changegroups

    Model of [mercurial_bundles/src/changegroup]: the parts of a changegroup
    ([mod.rs]), the packer that turns them into bundle2 chunks ([packer.rs])
    and the unpacker, a state machine over the payload bytes of these chunks
    ([unpacker.rs]). *)

From S2P Require Import Prelude Ord Path Hash Framing Delta BundleCodec Chunk.

(** ** Parts *)

Inductive Section_ :=
| Changeset
| Manifest
| Treemanifest
| Filelog (f : MPath).

#[export] Instance Section_eq_dec : EqDecision Section_.
Proof. solve_decision. Defined.

Record CgDeltaChunk := mkCgDelta {
  cg_node : HgNodeHash;
  cg_p1 : HgNodeHash;
  cg_p2 : HgNodeHash;
  cg_base : HgNodeHash;
  cg_linknode : HgNodeHash;
  cg_delta : Delta;
  cg_flags : option N;
}.

Inductive Part :=
| CgChunk (s : Section_) (c : CgDeltaChunk)
| SectionEnd (s : Section_)
| End_.

Definition is_section_end (p : Part) : bool :=
  match p with SectionEnd _ => true | _ => false end.

(** The accessors panic on parts that do not have what they return. *)
Definition part_section {E} (p : Part) : outcome E Section_ :=
  match p with CgChunk s _ => Ok s | SectionEnd s => Ok s | End_ => Panic end.
Definition part_chunk {E} (p : Part) : outcome E CgDeltaChunk :=
  match p with CgChunk _ c => Ok c | _ => Panic end.

(** ** The packer *)

Record ChunkBuilder := mkBuilder { builder_inner : bytes; len_offset : nat }.

Definition ChunkBuilder_new : ChunkBuilder := mkBuilder [x00; x00; x00; x00] 0.

(** [BigEndian::write_i32(&mut v[at..], z)]. *)
Definition write_i32 {E} (v : bytes) (at_ : nat) (z : Z) : outcome E bytes :=
  if Nat.leb (at_ + 4) (length v) then Ok (take at_ v ++ i32_be z ++ drop (at_ + 4) v) else Panic.

Definition encode_section (b : ChunkBuilder) (s : Section_) : outcome bundle_error ChunkBuilder :=
  _ ← assert_ (Nat.eqb (length (builder_inner b)) 4);
  match s with
  | Filelog f =>
      let f_vec := to_vec f in
      inner ← write_i32 (builder_inner b) 0 (as_i32 (lenN f_vec + 4));
      let inner := put_slice inner f_vec in
      let len_offset := length inner in
      Ok (mkBuilder (put_slice inner [x00; x00; x00; x00]) len_offset)
  | _ => Ok b
  end.

Definition encode_delta_chunk (b : ChunkBuilder) (chunk : CgDeltaChunk) : ChunkBuilder :=
  let inner := put_slice (builder_inner b) (HgNodeHash_as_bytes (cg_node chunk)) in
  let inner := put_slice inner (HgNodeHash_as_bytes (cg_p1 chunk)) in
  let inner := put_slice inner (HgNodeHash_as_bytes (cg_p2 chunk)) in
  let inner := put_slice inner (HgNodeHash_as_bytes (cg_base chunk)) in
  let inner := put_slice inner (HgNodeHash_as_bytes (cg_linknode chunk)) in
  let inner :=
    match cg_flags chunk with
    | Some flags =>
        put_slice inner [z2b (Z.of_N (as_u8 (N.shiftr flags 8))); z2b (Z.of_N (N.land flags 255))]
    | None => inner
    end in
  mkBuilder (encode_delta (cg_delta chunk) inner) (len_offset b).

Definition builder_build (b : ChunkBuilder) : outcome bundle_error Chunk :=
  let len := (lenN (builder_inner b) - N.of_nat (len_offset b))%N in
  inner ← write_i32 (builder_inner b) (len_offset b) (as_i32 len);
  Chunk_new inner.

Definition empty_cg_chunk : outcome bundle_error Chunk :=
  match Chunk_new [x00; x00; x00; x00] with Ok c => Ok c | _ => Panic end.

(** One poll of the packer's stream on the next part. *)
Definition pack_part (last_seen : Section_) (p : Part) : outcome bundle_error (Section_ * Chunk) :=
  match p with
  | CgChunk section delta_chunk =>
      let builder := ChunkBuilder_new in
      '(builder, last_seen) ←
        (if negb (bool_decide (last_seen = section))
         then b ← encode_section builder section; Ok (b, section)
         else Ok (builder, last_seen));
      c ← builder_build (encode_delta_chunk builder delta_chunk);
      Ok (last_seen, c)
  | SectionEnd _ => c ← empty_cg_chunk; Ok (last_seen, c)
  | End_ => c ← empty_cg_chunk; Ok (last_seen, c)
  end.

Fixpoint pack_from (last_seen : Section_) (parts : list Part) : outcome bundle_error (list Chunk) :=
  match parts with
  | [] => Ok []
  | p :: parts =>
      '(last_seen, c) ← pack_part last_seen p;
      cs ← pack_from last_seen parts;
      Ok (c :: cs)
  end.

(** [CgPacker::new] and the whole stream. *)
Definition cg_pack (parts : list Part) : outcome bundle_error (list Chunk) :=
  pack_from Changeset parts.

(** ** The unpacker *)

Inductive CgVersion := Cg2Version | Cg3Version.

#[export] Instance CgVersion_eq_dec : EqDecision CgVersion.
Proof. solve_decision. Defined.

Definition CgVersion_from_str (s : bytes) : outcome bundle_error CgVersion :=
  if decide (s = bstr "02") then Ok Cg2Version
  else if decide (s = bstr "03") then Ok Cg3Version
  else Err CgUnknownVersion.

Definition CHUNK_HEADER2_LEN : N := 20 + 20 + 20 + 20 + 20 + 4.
Definition CHUNK_HEADER3_LEN : N := 20 + 20 + 20 + 20 + 20 + 2 + 4.

Definition chunk_header_len (v : CgVersion) : N :=
  match v with Cg2Version => CHUNK_HEADER2_LEN | Cg3Version => CHUNK_HEADER3_LEN end.

Inductive cg_state :=
| StChangeset
| StManifest
| StTreemanifest
| StFilename
| StFilelog (f : MPath)
| StEnd
| StInvalid.

#[export] Instance cg_state_eq_dec : EqDecision cg_state.
Proof. solve_decision. Defined.

Record CgUnpacker := mkUnpacker { cg_st : cg_state; cg_version : CgVersion }.

Definition CgUnpacker_new (v : CgVersion) : CgUnpacker := mkUnpacker StChangeset v.

Inductive cg_chunk :=
| DeltaChunk (c : CgDeltaChunk)
| EmptyCgChunk.

Inductive DecodeRes :=
| DRNone
| DRSome (f : MPath)
| DREnd.

(** [CgUnpacker::decode_delta]. *)
Definition cg_decode_delta (buf : bytes) (chunk_len : N) (version : CgVersion)
    : outcome bundle_error (option cg_chunk * bytes) :=
  '(_, buf) ← drain_i32 buf;
  '(node, buf) ← drain_node buf;
  '(p1, buf) ← drain_node buf;
  '(p2, buf) ← drain_node buf;
  '(base, buf) ← drain_node buf;
  '(linknode, buf) ← drain_node buf;
  '(flags, buf) ← match version with
                  | Cg2Version => Ok (None, buf)
                  | Cg3Version => '(f, buf) ← drain_u16 buf; Ok (Some f, buf)
                  end;
  '(d, buf) ← split_to (chunk_len - chunk_header_len version) buf;
  delta ← decode_delta d;
  Ok (Some (DeltaChunk (mkCgDelta node p1 p2 base linknode delta flags)), buf).

Definition decode_chunk (buf : bytes) (version : CgVersion)
    : outcome bundle_error (option cg_chunk * bytes) :=
  if (lenN buf <? 4)%N then Ok (None, buf) else
  chunk_len ← peek_i32 buf;
  let chunk_len := as_usize chunk_len in
  if (chunk_len =? 0)%N then
    '(_, buf) ← drain_i32 buf; Ok (Some EmptyCgChunk, buf)
  else if (chunk_len <? chunk_header_len version)%N then Err (CgChunkTooShort chunk_len)
  else if (lenN buf <? chunk_len)%N then Ok (None, buf)
  else cg_decode_delta buf chunk_len version.

(** [filename_len - 4] wraps for lengths below four, and then the read of
    that many bytes panics. *)
Definition decode_filename (buf : bytes) : outcome bundle_error (DecodeRes * bytes) :=
  if (lenN buf <? 4)%N then Ok (DRNone, buf) else
  filename_len ← peek_i32 buf;
  if (filename_len =? 0)%Z then
    '(_, buf) ← split_to 4 buf; Ok (DREnd, buf)
  else
    let filename_len := as_usize filename_len in
    if (lenN buf <? filename_len)%N then Ok (DRNone, buf) else
    '(_, buf) ← split_to 4 buf;
    if (filename_len <? 4)%N then Panic else
    '(filename, buf) ← map_err (CgBadFilename filename_len) (drain_path (filename_len - 4) buf);
    Ok (DRSome filename, buf).

Definition decode_filelog_chunk (buf : bytes) (f : MPath) (version : CgVersion)
    : outcome bundle_error (option Part * cg_state * bytes) :=
  '(c, buf) ← decode_chunk buf version;
  match c with
  | None => Ok (None, StFilelog f, buf)
  | Some EmptyCgChunk => Ok (Some (SectionEnd (Filelog f)), StFilename, buf)
  | Some (DeltaChunk chunk) => Ok (Some (CgChunk (Filelog f) chunk), StFilelog f, buf)
  end.

Definition decode_next (buf : bytes) (st : cg_state) (version : CgVersion)
    : outcome bundle_error (option Part * cg_state * bytes) :=
  match st with
  | StChangeset =>
      '(c, buf) ← decode_chunk buf version;
      match c with
      | None => Ok (None, StChangeset, buf)
      | Some EmptyCgChunk => Ok (Some (SectionEnd Changeset), StManifest, buf)
      | Some (DeltaChunk chunk) => Ok (Some (CgChunk Changeset chunk), StChangeset, buf)
      end
  | StManifest =>
      '(c, buf) ← decode_chunk buf version;
      match c with
      | None => Ok (None, StManifest, buf)
      | Some EmptyCgChunk =>
          let next_state :=
            match version with Cg2Version => StFilename | Cg3Version => StTreemanifest end in
          Ok (Some (SectionEnd Manifest), next_state, buf)
      | Some (DeltaChunk chunk) => Ok (Some (CgChunk Manifest chunk), StManifest, buf)
      end
  | StTreemanifest =>
      '(c, buf) ← decode_chunk buf version;
      match c with
      | None => Ok (None, StTreemanifest, buf)
      | Some EmptyCgChunk => Ok (Some (SectionEnd Treemanifest), StFilename, buf)
      | Some (DeltaChunk _) => Err CgTreemanifestNotEmpty
      end
  | StFilename =>
      '(filename, buf) ← decode_filename buf;
      match filename with
      | DRNone => Ok (None, StFilename, buf)
      | DRSome f => decode_filelog_chunk buf f version
      | DREnd => Ok (Some End_, StEnd, buf)
      end
  | StFilelog filename => decode_filelog_chunk buf filename version
  | StEnd => Ok (None, StEnd, buf)
  | StInvalid => Err CgCorrupt
  end.

Definition cg_decode (u : CgUnpacker) (buf : bytes)
    : CgUnpacker * outcome bundle_error (option Part * bytes) :=
  match decode_next buf (cg_st u) (cg_version u) with
  | Err e => (mkUnpacker StInvalid (cg_version u), Err e)
  | Ok (ret, state, buf) => (mkUnpacker state (cg_version u), Ok (ret, buf))
  | Panic => (mkUnpacker StInvalid (cg_version u), Panic)
  end.

Definition cg_decode_eof (u : CgUnpacker) (buf : bytes)
    : CgUnpacker * outcome bundle_error (option Part * bytes) :=
  match cg_decode u buf with
  | (u, Ok (None, buf)) =>
      (u, if negb (Nat.eqb (length buf) 0) then Err (CgIncomplete (lenN buf))
          else if negb (bool_decide (cg_st u = StEnd)) then Err CgNotAtEnd
          else Ok (None, buf))
  | r => r
  end.

#[export] Instance cg_decoder : Decoder CgUnpacker Part bundle_error := {|
  decode := cg_decode; decode_eof := cg_decode_eof |}.

(** ** What the unpacker does with a chunk

    The body of a delta chunk: everything after its length. *)

Definition flags_len (v : CgVersion) : nat := match v with Cg2Version => 0 | Cg3Version => 2 end.

Definition parse_body (v : CgVersion) (b : bytes) : outcome bundle_error CgDeltaChunk :=
  let b1 := drop 20 b in let b2 := drop 20 b1 in
  let b3 := drop 20 b2 in let b4 := drop 20 b3 in let b5 := drop 20 b4 in
  delta ← decode_delta (drop (flags_len v) b5);
  Ok (mkCgDelta (take_node b) (take_node b1) (take_node b2) (take_node b3) (take_node b4) delta
        (match v with Cg2Version => None | Cg3Version => Some (read_u (take 2 b5)) end)).

Lemma chunk_header_len_eq v : chunk_header_len v = N.of_nat (104 + flags_len v).
Proof. by destruct v. Qed.

Lemma cg_delta_tail (d r : bytes) (n : N) (mk : Delta -> CgDeltaChunk) :
  lenN d = n ->
  ('(d, buf) ← split_to n (d ++ r);
   delta ← decode_delta d; Ok (Some (DeltaChunk (mk delta)), buf))
  = (c ← (delta ← decode_delta d; Ok (mk delta)); Ok (Some (DeltaChunk c), r)).
Proof. intros Hd. rewrite split_to_app by done. rewrite bind_Ok. by destruct (decode_delta d). Qed.

Lemma cg_decode_delta_spec v z b r :
  i32_range z -> 100 + flags_len v <= length b ->
  cg_decode_delta (i32_be z ++ b ++ r) (4 + lenN b) v =
  (c ← parse_body v b; Ok (Some (DeltaChunk c), r)).
Proof.
  intros Hz Hb. unfold cg_decode_delta, parse_body.
  rewrite drain_i32_put, bind_Ok by done.
  rewrite drain_node_cut, bind_Ok by lia.
  do 4 (rewrite drain_node_cut, bind_Ok by (rewrite !length_drop; lia)).
  destruct v; cbn [flags_len] in *.
  - rewrite bind_Ok. refine (cg_delta_tail _ _ _ (fun delta => mkCgDelta _ _ _ _ _ delta _) _).
    unfold chunk_header_len, CHUNK_HEADER2_LEN, lenN. rewrite !length_drop. lia.
  - unfold drain_u16. rewrite drain_uint_cut by (rewrite !length_drop; lia). rewrite !bind_Ok.
    refine (cg_delta_tail _ _ _ (fun delta => mkCgDelta _ _ _ _ _ delta _) _).
    unfold chunk_header_len, CHUNK_HEADER3_LEN, lenN. rewrite !length_drop. lia.
Qed.

Lemma decode_chunk_spec v z rest :
  i32_range z ->
  decode_chunk (i32_be z ++ rest) v =
  let len := as_usize z in
  if (z =? 0)%Z then Ok (Some EmptyCgChunk, rest)
  else if (len <? chunk_header_len v)%N then Err (CgChunkTooShort len)
  else if (4 + lenN rest <? len)%N then Ok (None, i32_be z ++ rest)
  else c ← parse_body v (take (N.to_nat (len - 4)) rest);
       Ok (Some (DeltaChunk c), drop (N.to_nat (len - 4)) rest).
Proof.
  intros Hz. unfold decode_chunk. cbv zeta.
  assert (lenN (i32_be z ++ rest) = 4 + lenN rest)%N as Hl by solve_len. rewrite Hl.
  rewrite (proj2 (N.ltb_ge _ _)) by lia. rewrite peek_i32_put, bind_Ok by done.
  assert ((as_usize z =? 0)%N = (z =? 0)%Z) as ->.
  { unfold i32_range in Hz. destruct (Z.eqb_spec z 0) as [->|Hne]; [done|].
    apply N.eqb_neq. unfold as_usize. intros E.
    pose proof (Z.mod_pos_bound z (2 ^ 64) ltac:(lia)).
    assert (z mod 2 ^ 64 = 0)%Z by lia. apply Z.mod_divide in H0 as [k ->]; lia. }
  destruct (z =? 0)%Z; [by rewrite drain_i32_put|].
  destruct (N.ltb_spec (as_usize z) (chunk_header_len v)) as [|Hh]; [done|].
  destruct (N.ltb_spec (4 + lenN rest) (as_usize z)) as [|Hge]; [done|].
  rewrite chunk_header_len_eq in Hh. set (k := N.to_nat (as_usize z - 4)).
  assert (length (take k rest) = k) as Hk by (rewrite length_take; unfold lenN, k in *; lia).
  rewrite <- (take_drop k rest) at 1.
  replace (as_usize z) with (4 + lenN (take k rest))%N by (unfold lenN; rewrite Hk; lia).
  apply cg_decode_delta_spec; [done|]. rewrite Hk. lia.
Qed.

Lemma decode_chunk_frame v : frame_ok (fun buf => decode_chunk buf v).
Proof.
  intros buf ext. destruct (buf_head buf) as [Hs|(z & r & Hz & ->)].
  { unfold decode_chunk at 1. by rewrite (proj2 (N.ltb_lt _ _)). }
  rewrite <- app_assoc, !decode_chunk_spec by done. cbv zeta.
  destruct (z =? 0)%Z; [split; [done | solve_len]|].
  destruct (as_usize z <? chunk_header_len v)%N eqn:Eh; [done|]. apply N.ltb_ge in Eh.
  destruct (N.ltb_spec (4 + lenN r) (as_usize z)) as [|Hge]; [done|].
  rewrite (proj2 (N.ltb_ge _ _)) by solve_len. rewrite chunk_header_len_eq in Eh.
  rewrite take_app_le, drop_app_le by (unfold lenN in *; lia).
  destruct (parse_body v _); simpl; [|done|done]. split; [done|].
  rewrite length_drop. unfold lenN in *. lia.
Qed.

Lemma decode_filename_spec z rest :
  i32_range z ->
  decode_filename (i32_be z ++ rest) =
  let len := as_usize z in
  if (z =? 0)%Z then Ok (DREnd, rest)
  else if (4 + lenN rest <? len)%N then Ok (DRNone, i32_be z ++ rest)
  else if (len <? 4)%N then Panic
  else p ← map_err (fun e => CgBadFilename len (InvalidPath e))
             (MPath_new (take (N.to_nat (len - 4)) rest));
       Ok (DRSome p, drop (N.to_nat (len - 4)) rest).
Proof.
  intros Hz. unfold decode_filename. cbv zeta.
  assert (lenN (i32_be z ++ rest) = 4 + lenN rest)%N as Hl by solve_len. rewrite Hl.
  rewrite (proj2 (N.ltb_ge _ _)) by lia. rewrite peek_i32_put, bind_Ok by done.
  rewrite split_to_app by solve_len. rewrite !bind_Ok. destruct (z =? 0)%Z; [done|].
  destruct (N.ltb_spec (4 + lenN rest) (as_usize z)) as [|Hge]; [done|].
  destruct (N.ltb_spec (as_usize z) 4) as [|H4]; [done|].
  unfold drain_path. rewrite split_to_Ok, bind_Ok by lia.
  destruct (MPath_new _); simpl; done.
Qed.

Lemma decode_filename_frame buf ext :
  match decode_filename buf with
  | Ok (DRNone, rest) => rest = buf
  | Ok (r, rest) => decode_filename (buf ++ ext) = Ok (r, rest ++ ext) /\ length rest < length buf
  | Err e => decode_filename (buf ++ ext) = Err e
  | Panic => decode_filename (buf ++ ext) = Panic
  end.
Proof.
  destruct (buf_head buf) as [Hs|(z & r & Hz & ->)].
  { unfold decode_filename at 1. by rewrite (proj2 (N.ltb_lt _ _)). }
  rewrite <- app_assoc, !decode_filename_spec by done. cbv zeta.
  destruct (z =? 0)%Z; [split; [done | solve_len]|].
  destruct (N.ltb_spec (4 + lenN r) (as_usize z)) as [|Hge]; [done|].
  rewrite (proj2 (N.ltb_ge (4 + lenN (r ++ ext)) (as_usize z))) by solve_len.
  destruct (N.ltb_spec (as_usize z) 4) as [|H4]; [done|].
  rewrite take_app_le, drop_app_le by (unfold lenN in *; lia).
  destruct (MPath_new _); cbn [map_err mbind outcome_bind]; [|done|done]. split; [done|].
  rewrite length_app, length_drop, length_i32_be. lia.
Qed.

(** A state that reads one chunk and maps the result: what the four states
    with a delta section have in common. *)
Lemma chunk_state_frame v (st : cg_state) (f : cg_chunk -> outcome bundle_error (Part * cg_state)) :
  (forall buf, decode_next buf st v =
     '(c, buf) ← decode_chunk buf v;
     match c with
     | None => Ok (None, st, buf)
     | Some c => '(p, st') ← f c; Ok (Some p, st', buf)
     end) ->
  forall buf ext,
    match decode_next buf st v with
    | Ok (Some x, st', rest) =>
        decode_next (buf ++ ext) st v = Ok (Some x, st', rest ++ ext) /\ length rest < length buf
    | Ok (None, st', rest) =>
        decode_next (buf ++ ext) st v = decode_next (rest ++ ext) st' v /\ length rest <= length buf
    | Err e => decode_next (buf ++ ext) st v = Err e
    | Panic => decode_next (buf ++ ext) st v = Panic
    end.
Proof.
  intros Hst buf ext. rewrite !Hst. pose proof (decode_chunk_frame v buf ext) as H.
  destruct (decode_chunk buf v) as [[[c|] rest]|e|]; simpl in H.
  - destruct H as [-> Hl]. rewrite !bind_Ok. destruct (f c) as [[p st']| |]; simpl; done.
  - subst rest. rewrite bind_Ok. split; [by rewrite Hst | done].
  - by rewrite H.
  - by rewrite H.
Qed.

Definition filelog_step (f : MPath) (c : cg_chunk) : outcome bundle_error (Part * cg_state) :=
  match c with
  | EmptyCgChunk => Ok (SectionEnd (Filelog f), StFilename)
  | DeltaChunk chunk => Ok (CgChunk (Filelog f) chunk, StFilelog f)
  end.

Lemma filelog_frame v f buf ext :
  match decode_filelog_chunk buf f v with
  | Ok (Some x, st', rest) =>
      decode_filelog_chunk (buf ++ ext) f v = Ok (Some x, st', rest ++ ext) /\ length rest < length buf
  | Ok (None, st', rest) =>
      decode_filelog_chunk (buf ++ ext) f v = decode_next (rest ++ ext) st' v /\
      length rest <= length buf
  | Err e => decode_filelog_chunk (buf ++ ext) f v = Err e
  | Panic => decode_filelog_chunk (buf ++ ext) f v = Panic
  end.
Proof.
  apply (chunk_state_frame v (StFilelog f) (filelog_step f)).
  intros b. cbn [decode_next]. unfold decode_filelog_chunk.
  by destruct (decode_chunk b v) as [[[[]|] ?]| |].
Qed.

Lemma decode_next_frame v st buf ext :
  match decode_next buf st v with
  | Ok (Some x, st', rest) =>
      decode_next (buf ++ ext) st v = Ok (Some x, st', rest ++ ext) /\ length rest < length buf
  | Ok (None, st', rest) =>
      decode_next (buf ++ ext) st v = decode_next (rest ++ ext) st' v /\ length rest <= length buf
  | Err e => decode_next (buf ++ ext) st v = Err e
  | Panic => decode_next (buf ++ ext) st v = Panic
  end.
Proof.
  destruct st as [| | | |f| |]; [| | | |apply filelog_frame|done|done].
  - apply (chunk_state_frame v StChangeset (fun c => match c with
      | EmptyCgChunk => Ok (SectionEnd Changeset, StManifest)
      | DeltaChunk chunk => Ok (CgChunk Changeset chunk, StChangeset) end)).
    intros b. cbn [decode_next]. by destruct (decode_chunk b v) as [[[[]|] ?]| |].
  - apply (chunk_state_frame v StManifest (fun c => match c with
      | EmptyCgChunk => Ok (SectionEnd Manifest,
          match v with Cg2Version => StFilename | Cg3Version => StTreemanifest end)
      | DeltaChunk chunk => Ok (CgChunk Manifest chunk, StManifest) end)).
    intros b. cbn [decode_next]. by destruct (decode_chunk b v) as [[[[]|] ?]| |].
  - apply (chunk_state_frame v StTreemanifest (fun c => match c with
      | EmptyCgChunk => Ok (SectionEnd Treemanifest, StFilename)
      | DeltaChunk _ => Err CgTreemanifestNotEmpty end)).
    intros b. cbn [decode_next]. by destruct (decode_chunk b v) as [[[[]|] ?]| |].
  - cbn [decode_next]. pose proof (decode_filename_frame buf ext) as H.
    destruct (decode_filename buf) as [[[|f|] rest]|e|].
    + subst rest. rewrite bind_Ok. done.
    + destruct H as [-> Hl]. rewrite !bind_Ok. pose proof (filelog_frame v f rest ext) as Hf.
      destruct (decode_filelog_chunk rest f v) as [[[[x|] st'] r]|e|]; try done;
        destruct Hf as [-> ?]; split; (done || lia).
    + destruct H as [-> Hl]. done.
    + by rewrite H.
    + by rewrite H.
Qed.

#[export] Instance cg_laws : DecoderLaws cg_decoder.
Proof.
  assert (forall u buf u' x rest, cg_decode u buf = (u', Ok (Some x, rest)) ->
            length rest < length buf) as Hp.
  { intros u buf u' x rest. unfold cg_decode.
    pose proof (decode_next_frame (cg_version u) (cg_st u) buf []) as H.
    destruct (decode_next buf _ _) as [[[[y|] st'] r]|e|]; try done. intros [= <- <- <-].
    by destruct H. }
  split; cbn [decode decode_eof cg_decoder].
  - intros u buf ext. unfold cg_decode.
    pose proof (decode_next_frame (cg_version u) (cg_st u) buf ext) as H.
    destruct (decode_next buf _ _) as [[[[y|] st'] r]|e|].
    + by destruct H as [-> _].
    + cbn [cg_st cg_version]. by destruct H as [-> _].
    + by rewrite H.
    + by rewrite H.
  - apply Hp.
  - intros u buf u' rest. unfold cg_decode.
    pose proof (decode_next_frame (cg_version u) (cg_st u) buf []) as H.
    destruct (decode_next buf _ _) as [[[[y|] st'] r]|e|]; try done. intros [= <- <-].
    by destruct H.
  - intros u buf u' x rest _. unfold cg_decode_eof.
    destruct (cg_decode u buf) as [u1 [[[y|] r]|e|]] eqn:Ed; try done.
    + intros [= <- <- <-]. by eapply Hp.
    + intros [= _ H]. by repeat case_match.
Qed.
