(* ===== verification/ChangegroupRoundtrip.v ===== *)
(** * Changegroup round trip

    The packer and the unpacker of [Changegroup.v] against each other: the
    sequences of parts that a changegroup consists of ([cg_wf], one rule per
    transition of the unpacker), and the theorem that packing such a sequence
    and unpacking the payload of the chunks gives it back. *)

From S2P Require Import Prelude Ord Path Hash Framing Delta BundleCodec Chunk Changegroup.

(** ** Chunks that fit the wire format *)

Definition flag_bytes (flags : option N) : bytes :=
  match flags with
  | Some f => [z2b (Z.of_N (as_u8 (N.shiftr f 8))); z2b (Z.of_N (N.land f 255))]
  | None => []
  end.

Definition body_bytes (c : CgDeltaChunk) : bytes :=
  HgNodeHash_as_bytes (cg_node c) ++ HgNodeHash_as_bytes (cg_p1 c) ++
  HgNodeHash_as_bytes (cg_p2 c) ++ HgNodeHash_as_bytes (cg_base c) ++
  HgNodeHash_as_bytes (cg_linknode c) ++ flag_bytes (cg_flags c) ++ delta_bytes (cg_delta c).

Definition flags_for (v : CgVersion) (flags : option N) : Prop :=
  match v, flags with
  | Cg2Version, None => True
  | Cg3Version, Some f => (f < 2 ^ 16)%N
  | _, _ => False
  end.

Record valid_cg_chunk (v : CgVersion) (c : CgDeltaChunk) : Prop := {
  vcc_node : valid_node (cg_node c);
  vcc_p1 : valid_node (cg_p1 c);
  vcc_p2 : valid_node (cg_p2 c);
  vcc_base : valid_node (cg_base c);
  vcc_linknode : valid_node (cg_linknode c);
  vcc_flags : flags_for v (cg_flags c);
  vcc_wire : Forall wire_fragment (delta_frags (cg_delta c));
  vcc_delta : Delta_verify (delta_frags (cg_delta c)) = Ok tt;
}.

(** The length of a packed chunk, with the file name in front of it. *)
Definition fits (name : bytes) (c : CgDeltaChunk) : Prop :=
  (lenN name + lenN (body_bytes c) + 8 < 2 ^ 31)%N.

(** ** Sequences of parts

    [cg_wf v st last ps]: [ps] is what the unpacker reads from state [st] on;
    [last] is the section of the last delta. A file section has at least one
    delta, and its path differs from that of the section before. *)

Inductive cg_wf (v : CgVersion) : cg_state -> Section_ -> list Part -> Prop :=
| wf_changeset_chunk c ps :
    valid_cg_chunk v c -> fits [] c -> cg_wf v StChangeset Changeset ps ->
    cg_wf v StChangeset Changeset (CgChunk Changeset c :: ps)
| wf_changeset_end ps :
    cg_wf v StManifest Changeset ps -> cg_wf v StChangeset Changeset (SectionEnd Changeset :: ps)
| wf_manifest_chunk last c ps :
    valid_cg_chunk v c -> fits [] c -> cg_wf v StManifest Manifest ps ->
    cg_wf v StManifest last (CgChunk Manifest c :: ps)
| wf_manifest_end last ps :
    cg_wf v (match v with Cg2Version => StFilename | Cg3Version => StTreemanifest end) last ps ->
    cg_wf v StManifest last (SectionEnd Manifest :: ps)
| wf_treemanifest_end last ps :
    cg_wf v StFilename last ps -> cg_wf v StTreemanifest last (SectionEnd Treemanifest :: ps)
| wf_filelog_start last f c ps :
    valid_path f -> last <> Filelog f -> valid_cg_chunk v c -> fits (to_vec f) c ->
    cg_wf v (StFilelog f) (Filelog f) ps -> cg_wf v StFilename last (CgChunk (Filelog f) c :: ps)
| wf_filelog_chunk f c ps :
    valid_cg_chunk v c -> fits [] c -> cg_wf v (StFilelog f) (Filelog f) ps ->
    cg_wf v (StFilelog f) (Filelog f) (CgChunk (Filelog f) c :: ps)
| wf_filelog_end f ps :
    cg_wf v StFilename (Filelog f) ps ->
    cg_wf v (StFilelog f) (Filelog f) (SectionEnd (Filelog f) :: ps)
| wf_end last : cg_wf v StFilename last [End_].

(** ** The packed bytes *)

Lemma encode_delta_chunk_app b c :
  encode_delta_chunk b c = mkBuilder (builder_inner b ++ body_bytes c) (len_offset b).
Proof.
  unfold encode_delta_chunk, body_bytes, put_slice, bytes_bufmut. f_equal.
  rewrite encode_delta_app. destruct (cg_flags c); cbn [flag_bytes]; by rewrite <- !app_assoc.
Qed.

(** The payload of a delta chunk: its length, which counts itself, and the
    body; in front of it the file name with its length. *)
Definition delta_payload (c : CgDeltaChunk) : bytes :=
  i32_be (as_i32 (4 + lenN (body_bytes c))) ++ body_bytes c.

Definition name_payload (f : MPath) : bytes := i32_be (as_i32 (lenN (to_vec f) + 4)) ++ to_vec f.

Lemma length_delta_payload c : lenN (delta_payload c) = (4 + lenN (body_bytes c))%N.
Proof. unfold delta_payload, lenN. rewrite length_app, length_i32_be. lia. Qed.

Lemma length_name_payload f : lenN (name_payload f) = (4 + lenN (to_vec f))%N.
Proof. unfold name_payload, lenN. rewrite length_app, length_i32_be. lia. Qed.

(** Building a chunk behind a prefix of the buffer. *)
Lemma build_payload name c :
  (lenN name + lenN (body_bytes c) + 4 < 2 ^ 31)%N ->
  builder_build (encode_delta_chunk (mkBuilder (name ++ [x00; x00; x00; x00]) (length name)) c)
  = Ok (Normal (name ++ delta_payload c)).
Proof.
  intros Hf. rewrite encode_delta_chunk_app. unfold builder_build.
  cbn [builder_inner len_offset]. rewrite <- app_assoc.
  assert (lenN (name ++ [x00; x00; x00; x00] ++ body_bytes c) - N.of_nat (length name)
          = 4 + lenN (body_bytes c))%N as ->.
  { unfold lenN. rewrite !length_app. cbn [length]. lia. }
  unfold write_i32. rewrite (proj2 (Nat.leb_le _ _)) by (rewrite !length_app; cbn [length]; lia).
  assert (drop (length name + 4) (name ++ [x00; x00; x00; x00] ++ body_bytes c) = body_bytes c) as ->.
  { rewrite app_assoc. apply drop_app_length'. by rewrite length_app. }
  rewrite take_app_length.
  rewrite bind_Ok. apply Chunk_new_fits. pose proof (length_delta_payload c).
  unfold delta_payload, lenN in *. rewrite !length_app, length_i32_be in *. lia.
Qed.

Lemma pack_same_section s c :
  fits [] c -> pack_part s (CgChunk s c) = Ok (s, Normal (delta_payload c)).
Proof.
  intros Hf. unfold pack_part. rewrite bool_decide_true by done. cbn [negb]. rewrite bind_Ok.
  unfold fits, lenN in Hf. cbn [length] in Hf.
  pose proof (build_payload [] c ltac:(unfold lenN; cbn [length]; lia)) as E. cbn [app length] in E.
  unfold ChunkBuilder_new. by rewrite E.
Qed.

Lemma pack_manifest last c :
  fits [] c -> pack_part last (CgChunk Manifest c) = Ok (Manifest, Normal (delta_payload c)).
Proof.
  intros Hf. destruct (decide (last = Manifest)) as [->|Hne]; [by apply pack_same_section|].
  unfold pack_part. rewrite bool_decide_false by done. cbn [negb].
  unfold encode_section, ChunkBuilder_new. cbn [builder_inner length Nat.eqb assert_]. rewrite !bind_Ok.
  unfold fits, lenN in Hf. cbn [length] in Hf.
  pose proof (build_payload [] c ltac:(unfold lenN; cbn [length]; lia)) as E. cbn [app length] in E.
  by rewrite E.
Qed.

Lemma pack_new_file last f c :
  last <> Filelog f -> fits (to_vec f) c ->
  pack_part last (CgChunk (Filelog f) c)
  = Ok (Filelog f, Normal (name_payload f ++ delta_payload c)).
Proof.
  intros Hne Hf. unfold pack_part. rewrite bool_decide_false by done. cbn [negb].
  unfold encode_section, ChunkBuilder_new. cbn [builder_inner length Nat.eqb assert_]. rewrite bind_Ok.
  unfold write_i32. cbn [Nat.add length Nat.leb take drop app]. rewrite app_nil_r, !bind_Ok.
  unfold put_slice, bytes_bufmut. fold (name_payload f).
  rewrite build_payload; [done|]. pose proof (length_name_payload f). unfold fits in Hf. lia.
Qed.

(** ** Reading the body back *)

Lemma flag_bytes_read f : (f < 2 ^ 16)%N -> read_u (flag_bytes (Some f)) = f.
Proof.
  intros Hf. assert (flag_bytes (Some f) = u_be 2 f) as ->; [|apply read_u_be; simpl; lia].
  unfold u_be. cbn [flag_bytes be_bytes]. f_equal; [|f_equal]; apply b2z_inj; rewrite !b2z_z2b.
  - unfold as_u8. rewrite N.shiftr_div_pow2.
    rewrite N2Z.inj_mod, N2Z.inj_div. change (Z.of_N (2 ^ 8)) with 256%Z.
    rewrite Z.mod_mod by lia. done.
  - change 255%N with (N.ones 8). rewrite N.land_ones.
    rewrite N2Z.inj_mod. change (Z.of_N (2 ^ 8)) with 256%Z.
    rewrite Z.mod_mod by lia. change (2 ^ (8 * Z.of_nat 0))%Z with 1%Z. by rewrite Z.div_1_r.
Qed.

Lemma parse_body_bytes v c : valid_cg_chunk v c -> parse_body v (body_bytes c) = Ok c.
Proof.
  intros [H1 H2 H3 H4 H5 Hf Hw Hd]. unfold parse_body, body_bytes.
  do 5 match goal with |- context [drop 20 (HgNodeHash_as_bytes ?h ++ ?r)] =>
    rewrite (proj2 (take_node_app h r ltac:(assumption))) end.
  rewrite !(fun h r H => proj1 (take_node_app h r H)) by assumption.
  assert (drop (flags_len v) (flag_bytes (cg_flags c) ++ delta_bytes (cg_delta c))
          = delta_bytes (cg_delta c)) as ->.
  { destruct v, (cg_flags c) as [f|]; simpl in Hf |- *; done. }
  rewrite decode_delta_bytes, bind_Ok by done. destruct c as [? ? ? ? ? d fl]; simpl in *.
  do 2 f_equal. destruct v, fl as [f|]; simpl in Hf; try done.
  f_equal. by apply flag_bytes_read.
Qed.

Lemma length_body_bytes v c :
  valid_cg_chunk v c -> 100 + flags_len v <= length (body_bytes c).
Proof.
  intros [H1 H2 H3 H4 H5 Hf Hw Hd]. unfold body_bytes. rewrite !length_app.
  unfold HgNodeHash_as_bytes. rewrite H1, H2, H3, H4, H5.
  destruct v, (cg_flags c); simpl in Hf |- *; try done; lia.
Qed.

Lemma decode_chunk_payload v c rest :
  valid_cg_chunk v c -> (lenN (body_bytes c) + 4 < 2 ^ 31)%N ->
  decode_chunk (delta_payload c ++ rest) v = Ok (Some (DeltaChunk c), rest).
Proof.
  intros Hv Hlen. pose proof (length_body_bytes v c Hv) as Hl. unfold delta_payload.
  rewrite <- app_assoc, decode_chunk_spec by apply wrap32_range. cbv zeta.
  rewrite as_usize_as_i32, as_i32_small by lia.
  rewrite (proj2 (Z.eqb_neq _ _)) by lia. rewrite chunk_header_len_eq.
  rewrite (proj2 (N.ltb_ge _ _)) by (unfold lenN in *; lia).
  rewrite (proj2 (N.ltb_ge _ _)) by (unfold lenN; rewrite length_app; lia).
  replace (N.to_nat (4 + lenN (body_bytes c) - 4)) with (length (body_bytes c)) by (unfold lenN; lia).
  by rewrite take_app_length, drop_app_length, parse_body_bytes.
Qed.

Lemma decode_chunk_empty v rest : decode_chunk (i32_be 0 ++ rest) v = Ok (Some EmptyCgChunk, rest).
Proof. by rewrite decode_chunk_spec. Qed.

(** ** Steps of the unpacker on packed parts *)

Lemma decode_name_payload f rest :
  valid_path f -> (lenN (to_vec f) + 4 < 2 ^ 31)%N ->
  decode_filename (name_payload f ++ rest) = Ok (DRSome f, rest).
Proof.
  intros Hv Hlen. unfold name_payload. rewrite <- app_assoc.
  rewrite decode_filename_spec by apply wrap32_range. cbv zeta.
  rewrite as_usize_as_i32, as_i32_small by lia. rewrite (proj2 (Z.eqb_neq _ _)) by lia.
  rewrite (proj2 (N.ltb_ge _ _)) by (unfold lenN; rewrite length_app; lia).
  rewrite (proj2 (N.ltb_ge _ _)) by lia.
  replace (N.to_nat (lenN (to_vec f) + 4 - 4)) with (length (to_vec f)) by (unfold lenN; lia).
  by rewrite take_app_length, drop_app_length, MPath_new_to_vec_valid.
Qed.

(** One part: packed, it is a chunk from which the unpacker reads the part. *)
Definition part_step (v : CgVersion) (st st' : cg_state) (last last' : Section_) (p : Part) : Prop :=
  exists c, pack_part last p = Ok (last', c) /\ valid_chunk c /\
    forall rest, decode_next (payload c ++ rest) st v = Ok (Some p, st', rest).

Lemma delta_part_step v st last last' s c :
  valid_cg_chunk v c -> fits [] c ->
  pack_part last (CgChunk s c) = Ok (last', Normal (delta_payload c)) ->
  (forall rest, decode_next (delta_payload c ++ rest) st v = Ok (Some (CgChunk s c), st, rest)) ->
  part_step v st st last last' (CgChunk s c).
Proof.
  intros Hv Hf Hp Hd. exists (Normal (delta_payload c)). split; [done|]. split; [|exact Hd].
  unfold valid_chunk. rewrite length_delta_payload. unfold fits, lenN in *. cbn [length] in Hf. lia.
Qed.

Lemma end_part_step v st st' last p :
  pack_part last p = (c ← empty_cg_chunk; Ok (last, c)) ->
  (forall rest, decode_next (i32_be 0 ++ rest) st v = Ok (Some p, st', rest)) ->
  part_step v st st' last last p.
Proof. intros Hp Hd. exists (Normal (i32_be 0)). by rewrite Hp. Qed.

Lemma decode_next_delta v c rest :
  valid_cg_chunk v c -> fits [] c ->
  decode_chunk (delta_payload c ++ rest) v = Ok (Some (DeltaChunk c), rest).
Proof.
  intros Hv Hf. apply decode_chunk_payload; [done|]. unfold fits, lenN in *. cbn [length] in Hf. lia.
Qed.

Lemma filelog_start_step v last f c :
  valid_path f -> last <> Filelog f -> valid_cg_chunk v c -> fits (to_vec f) c ->
  part_step v StFilename (StFilelog f) last (Filelog f) (CgChunk (Filelog f) c).
Proof.
  intros Hp Hne Hv Hf. exists (Normal (name_payload f ++ delta_payload c)).
  split; [by apply pack_new_file|]. pose proof (length_delta_payload c).
  pose proof (length_name_payload f). unfold fits in Hf. split.
  - unfold valid_chunk, lenN in *. rewrite length_app. lia.
  - intros rest. cbn [payload decode_next]. rewrite <- app_assoc, decode_name_payload by (done || lia).
    rewrite bind_Ok. unfold decode_filelog_chunk. rewrite decode_chunk_payload by (done || lia). done.
Qed.

(** Well-formed sequences are paths of such steps. *)
Lemma cg_wf_step v st last p ps :
  cg_wf v st last (p :: ps) -> ps <> [] ->
  exists st' last', part_step v st st' last last' p /\ cg_wf v st' last' ps.
Proof.
  inversion 1 as [c ps' Hv Hf Hw|ps' Hw|l c ps' Hv Hf Hw|l ps' Hw|l ps' Hw
    |l f c ps' Hp Hne Hv Hf Hw|f c ps' Hv Hf Hw|f ps' Hw|l]; subst; intros Hps; try done;
    eexists _, _; (split; [|exact Hw]).
  - apply delta_part_step; [done|done|by apply pack_same_section|].
    intros rest. cbn [decode_next]. by rewrite decode_next_delta.
  - apply end_part_step; [done|]. intros rest. cbn [decode_next]. by rewrite decode_chunk_empty.
  - apply delta_part_step; [done|done|by apply pack_manifest|].
    intros rest. cbn [decode_next]. by rewrite decode_next_delta.
  - apply end_part_step; [done|]. intros rest. cbn [decode_next]. by rewrite decode_chunk_empty.
  - apply end_part_step; [done|]. intros rest. cbn [decode_next]. by rewrite decode_chunk_empty.
  - by apply filelog_start_step.
  - apply delta_part_step; [done|done|by apply pack_same_section|].
    intros rest. cbn [decode_next]. unfold decode_filelog_chunk. by rewrite decode_next_delta.
  - apply end_part_step; [done|]. intros rest. cbn [decode_next]. unfold decode_filelog_chunk.
    by rewrite decode_chunk_empty.
Qed.

Lemma cg_wf_last v st last p : cg_wf v st last [p] -> p = End_ /\ st = StFilename.
Proof.
  inversion 1 as [? ? ? ? Hw|? Hw|? ? ? ? ? Hw|? ? Hw|? ? Hw|? ? ? ? ? ? ? ? Hw|? ? ? ? ? Hw|? ? Hw|];
    subst; try done; inversion Hw.
Qed.

Lemma cg_decode_all v ps : forall st last,
  cg_wf v st last ps ->
  exists cs, pack_from last ps = Ok cs /\ Forall valid_chunk cs /\
    decode_all (mkUnpacker st v) (concat (payload <$> cs)) = (ps, Ok tt).
Proof.
  induction ps as [|p ps IH]; intros st last Hw; [inversion Hw|].
  destruct (decide (ps = [])) as [->|Hps].
  - destruct (cg_wf_last v st last p Hw) as [-> ->]. exists [Normal (i32_be 0)].
    split; [done|]. split; [by repeat constructor|]. by destruct v.
  - destruct (cg_wf_step v st last p ps Hw Hps) as (st' & last' & (c & Hp & Hc & Hd) & Hw').
    destruct (IH st' last' Hw') as (cs & Hcs & Hvs & Hall). exists (c :: cs).
    cbn [pack_from]. rewrite Hp, bind_Ok, Hcs, bind_Ok. split; [done|]. split; [by constructor|].
    cbn [fmap list_fmap concat]. rewrite decode_all_step.
    change (decode (Decoder := cg_decoder)) with cg_decode. unfold cg_decode. cbn [cg_st cg_version].
    rewrite Hd. by rewrite Hall.
Qed.

(** C30. Changegroup round trip, through both layers: a well-formed sequence
    of parts is packed without error into chunks that are read back from the
    bundle2 stream, and the unpacker reads the parts back from their
    payloads, both for every way of cutting and delaying the bytes. *)
Theorem changegroup_roundtrip (v : CgVersion) (parts : list Part) :
  cg_wf v StChangeset Changeset parts ->
  exists cs, cg_pack parts = Ok cs /\
    (forall events n, input_bytes events = chunks_bytes cs ->
       length events + length (input_bytes events) < n ->
       drive n (decode_stream events tt) = Some (cs, Ok tt)) /\
    (forall events n, input_bytes events = concat (payload <$> cs) ->
       length events + length (input_bytes events) < n ->
       drive n (decode_stream events (CgUnpacker_new v)) = Some (parts, Ok tt)).
Proof.
  intros Hw. destruct (cg_decode_all v parts _ _ Hw) as (cs & Hcs & Hvs & Hall).
  exists cs. split; [done|]. split; intros events n He Hn.
  - rewrite drive_stream by done. by rewrite He, decode_all_chunks.
  - rewrite drive_stream by done. rewrite He. unfold CgUnpacker_new. by rewrite Hall.
Qed.

(** A changegroup with one changeset, no manifest and one file. *)
Definition ex_cg_chunk : CgDeltaChunk :=
  mkCgDelta NULL_HASH NULL_HASH NULL_HASH NULL_HASH NULL_HASH
    (mkDelta [mkFragment 0 0 (bstr "text")]) (Some 513%N).

Definition ex_file : MPath := mkMPath [mkElem (bstr "dir"); mkElem (bstr "file")].

Definition ex_parts : list Part :=
  [CgChunk Changeset ex_cg_chunk; SectionEnd Changeset; SectionEnd Manifest;
   SectionEnd Treemanifest; CgChunk (Filelog ex_file) ex_cg_chunk; SectionEnd (Filelog ex_file); End_].

Lemma changegroup_roundtrip_witness : exists cs, cg_pack ex_parts = Ok cs.
Proof.
  destruct (changegroup_roundtrip Cg3Version ex_parts) as (cs & H & _).
  - assert (valid_cg_chunk Cg3Version ex_cg_chunk) as Hv.
    { split; try reflexivity. repeat constructor. }
    repeat first [apply wf_end | apply wf_changeset_end | apply wf_manifest_end
      | apply wf_treemanifest_end | apply wf_filelog_end | apply wf_changeset_chunk
      | apply wf_filelog_start | exact Hv | reflexivity | discriminate ].
    split; [discriminate | repeat constructor].
  - exists cs. exact H.
Defined.

(** A changegroup that stops after its first section is accepted: the check of
    [decode_eof] for the state [End] does not run on an empty buffer. *)
Example changegroup_truncated :
  drive 10 (decode_stream [Ready (i32_be 0)] (CgUnpacker_new Cg2Version))
  = Some ([SectionEnd Changeset], Ok tt).
Proof. vm_compute. reflexivity. Qed.
