(* ===== verification/Wirepack.v ===== *)
(** * Wirepacks

    Model of [mercurial_bundles/src/wirepack]: the entries and their wire
    format ([mod.rs]), the protocol state machine that checks a stream of
    parts ([converter.rs]), the packer built on it ([packer.rs]) and the
    unpacker ([unpacker.rs]). *)

From S2P Require Import Prelude Ord Path Hash Framing Delta BundleCodec Chunk.

Inductive Kind := Tree | File.

#[export] Instance Kind_eq_dec : EqDecision Kind.
Proof. solve_decision. Defined.

(** ** Entries *)

Record HistoryEntry := mkHistory {
  h_node : HgNodeHash;
  h_p1 : HgNodeHash;
  h_p2 : HgNodeHash;
  h_linknode : HgNodeHash;
  h_copy_from : option RepoPath;
}.

Record DataEntry := mkData {
  d_node : HgNodeHash;
  d_delta_base : HgNodeHash;
  d_delta : Delta;
}.

Inductive WPart :=
| HistoryMeta (path : RepoPath) (entry_count : N)
| History (e : HistoryEntry)
| DataMeta (path : RepoPath) (entry_count : N)
| Data (e : DataEntry)
| WEnd.

Definition WIREPACK_END : bytes := replicate 10 x00.
Definition HISTORY_COPY_FROM_OFFSET : nat := 20 + 20 + 20 + 20.
Definition HISTORY_HEADER_SIZE : nat := HISTORY_COPY_FROM_OFFSET + 2.
Definition DATA_DELTA_OFFSET : nat := 20 + 20.
Definition DATA_HEADER_SIZE : nat := DATA_DELTA_OFFSET + 8.

(** [&buf[from..to]] where the buffer is long enough. *)
Definition slice (from to : nat) (buf : bytes) : bytes := take (to - from) (drop from buf).

Definition u16_max : N := 65535.

(** *** History entries *)

Definition history_decode (buf : bytes) (kind : Kind)
    : outcome bundle_error (option HistoryEntry * bytes) :=
  if Nat.ltb (length buf) HISTORY_HEADER_SIZE then Ok (None, buf) else
  let copy_from_len := read_u (slice HISTORY_COPY_FROM_OFFSET HISTORY_HEADER_SIZE buf) in
  if (lenN buf <? N.of_nat HISTORY_HEADER_SIZE + copy_from_len)%N then Ok (None, buf) else
  '(node, buf) ← drain_node buf;
  '(p1, buf) ← drain_node buf;
  '(p2, buf) ← drain_node buf;
  '(linknode, buf) ← drain_node buf;
  '(_, buf) ← drain_u16 buf;
  '(copy_from, buf) ←
    (if (0 <? copy_from_len)%N then
       '(path, buf) ← drain_path copy_from_len buf;
       match kind with
       | Tree => Err WirePackBadHistory
       | File => f ← map_err InvalidPath (RepoPath_file (Ok path)); Ok (Some f, buf)
       end
     else Ok (None, buf));
  Ok (Some (mkHistory node p1 p2 linknode copy_from), buf).

Definition history_verify (e : HistoryEntry) (kind : Kind) : outcome bundle_error unit :=
  match h_copy_from e with
  | Some RootPath => Err WirePackInvalidEntry
  | Some (DirectoryPath _) => Err WirePackInvalidEntry
  | Some (FilePath path) =>
      _ ← ensure (bool_decide (kind = File)) WirePackInvalidEntry;
      ensure (MPath_len path <=? u16_max)%N WirePackInvalidEntry
  | None => Ok tt
  end.

Definition history_encode (e : HistoryEntry) (kind : Kind) (buf : bytes) : outcome bundle_error bytes :=
  _ ← history_verify e kind;
  let buf := put_slice buf (HgNodeHash_as_bytes (h_node e)) in
  let buf := put_slice buf (HgNodeHash_as_bytes (h_p1 e)) in
  let buf := put_slice buf (HgNodeHash_as_bytes (h_p2 e)) in
  let buf := put_slice buf (HgNodeHash_as_bytes (h_linknode e)) in
  path_vec ← match h_copy_from e with
             | Some path => p ← expect (RepoPath_mpath path); Ok (to_vec p)
             | None => Ok []
             end;
  let buf := put_slice buf (u_be 2 (as_u16 (lenN path_vec))) in
  Ok (put_slice buf path_vec).

(** *** Data entries

    The sum [DATA_HEADER_SIZE + delta_len] exceeds a [usize] for lengths near
    the maximum; the read of the delta then panics. *)

Definition data_decode (buf : bytes) : outcome bundle_error (option DataEntry * bytes) :=
  if Nat.ltb (length buf) DATA_HEADER_SIZE then Ok (None, buf) else
  let delta_len := read_u (slice DATA_DELTA_OFFSET DATA_HEADER_SIZE buf) in
  if (2 ^ 64 <=? N.of_nat DATA_HEADER_SIZE + delta_len)%N then Panic else
  if (lenN buf <? N.of_nat DATA_HEADER_SIZE + delta_len)%N then Ok (None, buf) else
  '(node, buf) ← drain_node buf;
  '(delta_base, buf) ← drain_node buf;
  '(_, buf) ← drain_u64 buf;
  '(delta, buf) ← split_to delta_len buf;
  delta ← (if decide (delta_base = NULL_HASH) then Ok (Delta_new_fulltext delta)
           else decode_delta delta);
  Ok (Some (mkData node delta_base delta), buf).

Definition data_verify (e : DataEntry) : outcome bundle_error unit :=
  ensure (negb (bool_decide (d_delta_base e = NULL_HASH)) ||
          match maybe_fulltext (d_delta e) with Some _ => true | None => false end)
    WirePackInvalidEntry.

Definition data_encode (e : DataEntry) (buf : bytes) : outcome bundle_error bytes :=
  _ ← data_verify e;
  let buf := put_slice buf (HgNodeHash_as_bytes (d_node e)) in
  let buf := put_slice buf (HgNodeHash_as_bytes (d_delta_base e)) in
  if decide (d_delta_base e = NULL_HASH) then
    fulltext ← expect (maybe_fulltext (d_delta e));
    Ok (put_slice (put_slice buf (u_be 8 (lenN fulltext))) fulltext)
  else
    let buf := put_slice buf (u_be 8 (encoded_len (d_delta e))) in
    Ok (encode_delta (d_delta e) buf).

(** ** The protocol of a part stream: [converter.rs] *)

Inductive conv_state :=
| CHistoryMeta
| CHistory (path : RepoPath) (entry_count : N)
| CDataMeta (path : RepoPath)
| CData (path : RepoPath) (entry_count : N)
| CEnd
| CInvalid.

#[export] Instance conv_state_eq_dec : EqDecision conv_state.
Proof. solve_decision. Defined.

Definition conv_next_history (path : RepoPath) (entry_count : N) : conv_state :=
  if (entry_count =? 0)%N then CDataMeta path else CHistory path entry_count.

Definition conv_next_data (path : RepoPath) (entry_count : N) : conv_state :=
  if (entry_count =? 0)%N then CHistoryMeta else CData path entry_count.

(** Each [seen_*] leaves the state [Invalid] when it fails. *)
Definition seen_history_meta (st : conv_state) (path : RepoPath) (entry_count : N)
    : outcome bundle_error conv_state :=
  match st with
  | CHistoryMeta => Ok (conv_next_history path entry_count)
  | _ => Err WirePackInvalidPart
  end.

Definition seen_history (st : conv_state) : outcome bundle_error conv_state :=
  match st with
  | CHistory path entry_count =>
      _ ← ensure (0 <? entry_count)%N WirePackInvalidPart;
      Ok (conv_next_history path (entry_count - 1))
  | _ => Err WirePackInvalidPart
  end.

Definition seen_data_meta (st : conv_state) (path : RepoPath) (entry_count : N)
    : outcome bundle_error conv_state :=
  match st with
  | CDataMeta expected_path =>
      _ ← ensure (bool_decide (path = expected_path)) WirePackInvalidPart;
      Ok (conv_next_data path entry_count)
  | _ => Err WirePackInvalidPart
  end.

Definition seen_data (st : conv_state) : outcome bundle_error conv_state :=
  match st with
  | CData path entry_count =>
      _ ← ensure (0 <? entry_count)%N WirePackInvalidPart;
      Ok (conv_next_data path (entry_count - 1))
  | _ => Err WirePackInvalidPart
  end.

Definition seen_end (st : conv_state) : outcome bundle_error conv_state :=
  match st with CHistoryMeta => Ok CEnd | _ => Err WirePackInvalidPart end.

Definition seen_none (st : conv_state) : outcome bundle_error conv_state :=
  match st with CEnd => Ok CEnd | _ => Err WirePackInvalidPart end.

(** The trait [WirePackPartProcessor]: what is made of each part. *)
Class WirePackPartProcessor (P D : Type) := {
  p_history_meta : P -> RepoPath -> N -> outcome bundle_error (option D);
  p_history : P -> HistoryEntry -> outcome bundle_error (option D);
  p_data_meta : P -> RepoPath -> N -> outcome bundle_error (option D);
  p_data : P -> DataEntry -> outcome bundle_error (option D);
  p_end : P -> outcome bundle_error (option D);
}.

Section Converter.
Context {P D : Type} `{!WirePackPartProcessor P D}.

(** One round of the loop of [poll] on the next part. *)
Definition convert_part (processor : P) (st : conv_state) (p : WPart)
    : outcome bundle_error (conv_state * option D) :=
  match p with
  | HistoryMeta path entry_count =>
      d ← p_history_meta processor path entry_count;
      st ← seen_history_meta st path entry_count;
      Ok (st, d)
  | History e =>
      st ← seen_history st;
      d ← p_history processor e;
      Ok (st, d)
  | DataMeta path entry_count =>
      d ← p_data_meta processor path entry_count;
      st ← seen_data_meta st path entry_count;
      Ok (st, d)
  | Data e =>
      st ← seen_data st;
      d ← p_data processor e;
      Ok (st, d)
  | WEnd =>
      st ← seen_end st;
      d ← p_end processor;
      Ok (st, d)
  end.

(** The [loop] of a poll, and the polls that follow: after an item the next
    poll looks at the state first, so it stops behind [End] without looking
    at the rest of its input; a part of which nothing is made does not end the
    poll. *)
Fixpoint convert_loop (processor : P) (st : conv_state) (parts : list WPart)
    : outcome bundle_error (list D) :=
  match parts with
  | [] => _ ← seen_none st; Ok []
  | p :: parts =>
      '(st, d) ← convert_part processor st p;
      match d with
      | Some d => ds ← (if bool_decide (st = CEnd) then Ok [] else convert_loop processor st parts); Ok (d :: ds)
      | None => convert_loop processor st parts
      end
  end.

(** The stream polled to its end. *)
Definition convert_from (processor : P) (st : conv_state) (parts : list WPart)
    : outcome bundle_error (list D) :=
  if bool_decide (st = CEnd) then Ok [] else convert_loop processor st parts.

Definition convert (processor : P) (parts : list WPart) : outcome bundle_error (list D) :=
  convert_from processor CHistoryMeta parts.
End Converter.

(** ** The packer *)

Record PackerProcessor := mkPacker { packer_kind : Kind }.

Definition verify_path (mpath : MPath) : outcome bundle_error MPath :=
  if (u16_max <? MPath_len mpath)%N then Err WirePackBadFilename else Ok mpath.

Definition encode_filename (kind : Kind) (filename : RepoPath) (inner : bytes)
    : outcome bundle_error bytes :=
  mpath ← match kind, filename with
          | Tree, RootPath => Ok None
          | File, RootPath => Err WirePackBadFilename
          | Tree, DirectoryPath dir_path => p ← verify_path dir_path; Ok (Some p)
          | File, FilePath file_path => p ← verify_path file_path; Ok (Some p)
          | _, _ => Err WirePackBadFilename
          end;
  match mpath with
  | Some mpath => Ok (put_slice (put_slice inner (u_be 2 (as_u16 (MPath_len mpath)))) (to_vec mpath))
  | None => Ok (put_slice inner (u_be 2 0))
  end.

Definition encode_entry_count (entry_count : N) (inner : bytes) : bytes :=
  put_slice inner (u_be 4 entry_count).

Definition encode_end (inner : bytes) : bytes := put_slice inner WIREPACK_END.

(** [ChunkBuilder::build], for a chunk that is part of the output. *)
Definition built (inner : bytes) : outcome bundle_error (option Chunk) :=
  c ← Chunk_new inner; Ok (Some c).

#[export] Instance packer_processor : WirePackPartProcessor PackerProcessor Chunk := {|
  p_history_meta p path entry_count :=
    inner ← encode_filename (packer_kind p) path [];
    built (encode_entry_count entry_count inner);
  p_history p entry := inner ← history_encode entry (packer_kind p) []; built inner;
  p_data_meta p _ entry_count := built (encode_entry_count entry_count []);
  p_data p entry := inner ← data_encode entry []; built inner;
  p_end p := built (encode_end []);
|}.

Definition wirepack_pack (kind : Kind) (parts : list WPart) : outcome bundle_error (list Chunk) :=
  convert (mkPacker kind) parts.

(** ** The unpacker *)

Inductive wp_state :=
| WFilename
| WHistoryStart (f : RepoPath)
| WHistory (f : RepoPath) (entry_count : N)
| WDataStart (f : RepoPath)
| WData (f : RepoPath) (entry_count : N)
| WStEnd
| WInvalid.

#[export] Instance wp_state_eq_dec : EqDecision wp_state.
Proof. solve_decision. Defined.

Record WirePackUnpacker := mkWP { wp_st : wp_state; wp_kind : Kind }.

Definition WirePackUnpacker_new (kind : Kind) : WirePackUnpacker := mkWP WFilename kind.

Inductive wp_decode_res :=
| WNone
| WSome (f : RepoPath)
| WResEnd.

Definition next_history_state (filename : RepoPath) (entry_count : N) : wp_state :=
  if (entry_count =? 0)%N then WDataStart filename else WHistory filename entry_count.

Definition next_data_state (filename : RepoPath) (entry_count : N) : wp_state :=
  if (entry_count =? 0)%N then WFilename else WData filename entry_count.

Definition wp_decode_filename (kind : Kind) (buf : bytes)
    : outcome bundle_error (wp_decode_res * bytes) :=
  if Nat.ltb (length buf) 10 then Ok (WNone, buf) else
  if decide (take 10 buf = WIREPACK_END) then
    '(_, buf) ← split_to 10 buf; Ok (WResEnd, buf)
  else
    filename_len ← peek_u16 buf;
    if (lenN buf <? filename_len + 2)%N then Ok (WNone, buf) else
    '(_, buf) ← split_to 2 buf;
    if (filename_len =? 0)%N then
      match kind with
      | Tree => Ok (WSome RepoPath_root, buf)
      | File => Err WirePackBadFilename
      end
    else
      '(mpath, buf) ← drain_path filename_len buf;
      filename ← map_err InvalidPath
                   (match kind with
                    | Tree => RepoPath_dir (Ok mpath)
                    | File => RepoPath_file (Ok mpath)
                    end);
      Ok (WSome filename, buf).

Definition decode_section_start (buf : bytes) : outcome bundle_error (option N * bytes) :=
  if Nat.ltb (length buf) 4 then Ok (None, buf)
  else '(n, buf) ← drain_u32 buf; Ok (Some n, buf).

(** The state [HistoryStart], which the loop reaches from [Filename]. *)
Definition decode_history_start (f : RepoPath) (buf : bytes)
    : outcome bundle_error (option WPart * wp_state * bytes) :=
  '(n, buf) ← decode_section_start buf;
  match n with
  | Some entry_count =>
      Ok (Some (HistoryMeta f entry_count), next_history_state f entry_count, buf)
  | None => Ok (None, WHistoryStart f, buf)
  end.

Definition wp_decode_next (kind : Kind) (buf : bytes) (st : wp_state)
    : outcome bundle_error (option WPart * wp_state * bytes) :=
  match st with
  | WFilename =>
      '(r, buf) ← wp_decode_filename kind buf;
      match r with
      | WNone => Ok (None, WFilename, buf)
      | WSome f => decode_history_start f buf
      | WResEnd => Ok (Some WEnd, WStEnd, buf)
      end
  | WHistoryStart f => decode_history_start f buf
  | WHistory f entry_count =>
      '(e, buf) ← history_decode buf kind;
      match e with
      | Some entry => Ok (Some (History entry), next_history_state f (entry_count - 1), buf)
      | None => Ok (None, WHistory f entry_count, buf)
      end
  | WDataStart f =>
      '(n, buf) ← decode_section_start buf;
      match n with
      | Some entry_count => Ok (Some (DataMeta f entry_count), next_data_state f entry_count, buf)
      | None => Ok (None, WDataStart f, buf)
      end
  | WData f entry_count =>
      '(e, buf) ← data_decode buf;
      match e with
      | Some entry => Ok (Some (Data entry), next_data_state f (entry_count - 1), buf)
      | None => Ok (None, WData f entry_count, buf)
      end
  | WStEnd => Ok (None, WStEnd, buf)
  | WInvalid => Err WirePackCorrupt
  end.

Definition wp_decode (u : WirePackUnpacker) (buf : bytes)
    : WirePackUnpacker * outcome bundle_error (option WPart * bytes) :=
  match wp_decode_next (wp_kind u) buf (wp_st u) with
  | Err e => (mkWP WInvalid (wp_kind u), Err e)
  | Ok (ret, state, buf) => (mkWP state (wp_kind u), Ok (ret, buf))
  | Panic => (mkWP WInvalid (wp_kind u), Panic)
  end.

Definition wp_decode_eof (u : WirePackUnpacker) (buf : bytes)
    : WirePackUnpacker * outcome bundle_error (option WPart * bytes) :=
  match wp_decode u buf with
  | (u, Ok (None, buf)) =>
      (u, if negb (Nat.eqb (length buf) 0) then Err (WirePackIncomplete (lenN buf))
          else if negb (bool_decide (wp_st u = WStEnd)) then Err WirePackNotAtEnd
          else Ok (None, buf))
  | r => r
  end.

#[export] Instance wp_decoder : Decoder WirePackUnpacker WPart bundle_error := {|
  decode := wp_decode; decode_eof := wp_decode_eof |}.
