(* ===== verification/WirepackRoundtrip.v ===== *)
(** * Wirepack round trip

    The unpacker of [Wirepack.v] is a lawful decoder, and whatever the packer
    accepts, the unpacker reads back: the protocol states of the packer's
    converter and the states of the unpacker correspond to each other. *)

From S2P Require Import Prelude Ord Path Hash Framing Delta BundleCodec Chunk Wirepack.

(** ** The parsers in terms of the bytes they use *)

Lemma slice_app from to (buf ext : bytes) :
  to <= length buf -> slice from to (buf ++ ext) = slice from to buf.
Proof.
  intros H. unfold slice. destruct (Nat.le_gt_cases from to) as [Hle|Hgt].
  - rewrite drop_app_le by lia. apply take_app_le. rewrite length_drop. lia.
  - replace (to - from) with 0 by lia. done.
Qed.

Definition parse_copy_from (kind : Kind) (b : bytes) : outcome bundle_error (option RepoPath) :=
  if Nat.eqb (length b) 0 then Ok None else
  p ← map_err InvalidPath (MPath_new b);
  match kind with Tree => Err WirePackBadHistory | File => Ok (Some (FilePath p)) end.

Definition parse_history (kind : Kind) (b : bytes) : outcome bundle_error HistoryEntry :=
  copy_from ← parse_copy_from kind (drop 82 b);
  Ok (mkHistory (take_node b) (take_node (drop 20 b)) (take_node (drop 40 b)) (take_node (drop 60 b))
        copy_from).

Definition parse_data (b : bytes) : outcome bundle_error DataEntry :=
  delta ← (if decide (take_node (drop 20 b) = NULL_HASH) then Ok (Delta_new_fulltext (drop 48 b))
           else decode_delta (drop 48 b));
  Ok (mkData (take_node b) (take_node (drop 20 b)) delta).

Lemma history_decode_spec kind b r :
  82 <= length b -> read_u (slice 80 82 b) = (lenN b - 82)%N ->
  history_decode (b ++ r) kind = (e ← parse_history kind b; Ok (Some e, r)).
Proof.
  intros Hl Hc. unfold history_decode, HISTORY_HEADER_SIZE, HISTORY_COPY_FROM_OFFSET.
  rewrite (proj2 (Nat.ltb_ge _ _)) by (rewrite length_app; lia).
  change (20 + 20 + 20 + 20) with 80. change (80 + 2) with 82.
  rewrite slice_app, Hc by done.
  rewrite (proj2 (N.ltb_ge _ _)) by (unfold lenN; rewrite length_app; lia).
  rewrite drain_node_cut, bind_Ok by lia.
  do 3 (rewrite drain_node_cut, bind_Ok by (rewrite !length_drop; lia)).
  unfold drain_u16. rewrite drain_uint_cut, bind_Ok by (rewrite !length_drop; lia).
  rewrite !drop_drop. cbn [Nat.add]. unfold parse_history, parse_copy_from.
  rewrite length_drop. destruct (Nat.eqb_spec (length b - 82) 0) as [E|E].
  - rewrite (proj2 (N.ltb_ge 0 _)) by (unfold lenN; lia). rewrite !bind_Ok.
    rewrite (drop_ge b 82) by lia. done.
  - rewrite (proj2 (N.ltb_lt 0 _)) by (unfold lenN; lia). unfold drain_path.
    rewrite split_to_app by (unfold lenN; rewrite length_drop; lia). rewrite bind_Ok.
    destruct (MPath_new _); cbn [map_err mbind outcome_bind]; [|done|done]. by destruct kind.
Qed.

Lemma data_decode_spec b r :
  48 <= length b -> read_u (slice 40 48 b) = (lenN b - 48)%N -> (lenN b < 2 ^ 64)%N ->
  data_decode (b ++ r) = (e ← parse_data b; Ok (Some e, r)).
Proof.
  intros Hl Hc Hb. unfold data_decode, DATA_HEADER_SIZE, DATA_DELTA_OFFSET.
  rewrite (proj2 (Nat.ltb_ge _ _)) by (rewrite length_app; lia).
  change (20 + 20) with 40. change (40 + 8) with 48.
  rewrite slice_app, Hc by done. rewrite (proj2 (N.leb_gt _ _)) by (unfold lenN in *; lia).
  rewrite (proj2 (N.ltb_ge _ _)) by (unfold lenN; rewrite length_app; lia).
  rewrite drain_node_cut, bind_Ok by lia.
  rewrite drain_node_cut, bind_Ok by (rewrite !length_drop; lia).
  unfold drain_u64. rewrite drain_uint_cut, bind_Ok by (rewrite !length_drop; lia).
  rewrite !drop_drop. cbn [Nat.add].
  rewrite split_to_app by (unfold lenN; rewrite length_drop; lia). rewrite bind_Ok.
  unfold parse_data. case_decide; [done|]. by destruct (decode_delta _).
Qed.

(** *** More input *)

Lemma slice_take from to k (buf : bytes) : to <= k -> slice from to (take k buf) = slice from to buf.
Proof.
  intros H. unfold slice. rewrite skipn_firstn_comm, take_take. f_equal. lia.
Qed.

Lemma history_decode_frame kind : frame_ok (fun buf => history_decode buf kind).
Proof.
  intros buf ext.
  set (cl := read_u (slice 80 82 buf)). set (k := N.to_nat (82 + cl)).
  assert (82 <= k) as Hk82 by (unfold k; lia).
  destruct (Nat.ltb (length buf) 82) eqn:E1.
  { unfold history_decode at 1. change HISTORY_HEADER_SIZE with 82. by rewrite E1. }
  destruct (N.ltb (lenN buf) (82 + cl)) eqn:E2.
  { unfold history_decode at 1. change HISTORY_HEADER_SIZE with 82. rewrite E1.
    change HISTORY_COPY_FROM_OFFSET with 80. change (N.of_nat 82) with 82%N.
    fold cl. by rewrite E2. }
  apply Nat.ltb_ge in E1. apply N.ltb_ge in E2. unfold lenN in E2.
  assert (length (take k buf) = k) as Hk by (rewrite length_take; unfold k; lia).
  assert (forall r, history_decode (take k buf ++ r) kind
            = (e ← parse_history kind (take k buf); Ok (Some e, r))) as H.
  { intros r. apply history_decode_spec; [lia|]. rewrite slice_take by done. fold cl.
    unfold lenN. rewrite Hk. unfold k. lia. }
  pose proof (H (drop k buf)) as H1. pose proof (H (drop k buf ++ ext)) as H2.
  rewrite take_drop in H1. rewrite app_assoc, take_drop in H2. rewrite H1, H2.
  destruct (parse_history kind (take k buf)); [|done|done].
  cbn [mbind outcome_bind]. split; [done|]. rewrite length_drop. lia.
Qed.

Lemma data_decode_frame : frame_ok data_decode.
Proof.
  intros buf ext.
  set (dl := read_u (slice 40 48 buf)). set (k := N.to_nat (48 + dl)).
  assert (48 <= k) as Hk48 by (unfold k; lia).
  destruct (Nat.ltb (length buf) 48) eqn:E1.
  { unfold data_decode at 1. change DATA_HEADER_SIZE with 48. by rewrite E1. }
  destruct (2 ^ 64 <=? 48 + dl)%N eqn:E0.
  { assert (forall e, data_decode (buf ++ e) = Panic) as H.
    { intros e. unfold data_decode. change DATA_HEADER_SIZE with 48. change DATA_DELTA_OFFSET with 40.
      apply Nat.ltb_ge in E1. rewrite (proj2 (Nat.ltb_ge _ _)) by (rewrite length_app; lia).
      rewrite slice_app by done. fold dl. change (N.of_nat 48) with 48%N. by rewrite E0. }
    pose proof (H []) as H0. rewrite app_nil_r in H0. rewrite H0. apply H. }
  destruct (N.ltb (lenN buf) (48 + dl)) eqn:E2.
  { unfold data_decode at 1. change DATA_HEADER_SIZE with 48. rewrite E1.
    change DATA_DELTA_OFFSET with 40. change (N.of_nat 48) with 48%N.
    fold dl. by rewrite E0, E2. }
  apply Nat.ltb_ge in E1. apply N.leb_gt in E0. apply N.ltb_ge in E2. unfold lenN in E2.
  assert (length (take k buf) = k) as Hk by (rewrite length_take; unfold k; lia).
  assert (forall r, data_decode (take k buf ++ r)
            = (e ← parse_data (take k buf); Ok (Some e, r))) as H.
  { intros r. apply data_decode_spec; [lia| |unfold lenN; rewrite Hk; unfold k; lia].
    rewrite slice_take by done. fold dl. unfold lenN. rewrite Hk. unfold k. lia. }
  pose proof (H (drop k buf)) as H1. pose proof (H (drop k buf ++ ext)) as H2.
  rewrite take_drop in H1. rewrite app_assoc, take_drop in H2. rewrite H1, H2.
  destruct (parse_data (take k buf)); [|done|done].
  cbn [mbind outcome_bind]. split; [done|]. rewrite length_drop. lia.
Qed.

Lemma section_start_spec buf :
  4 <= length buf -> decode_section_start buf = Ok (Some (read_u (take 4 buf)), drop 4 buf).
Proof.
  intros H. unfold decode_section_start. rewrite (proj2 (Nat.ltb_ge _ _)) by done.
  pose proof (drain_uint_cut (E := bundle_error) 4 buf [] H) as E. rewrite !app_nil_r in E.
  unfold drain_u32. by rewrite E.
Qed.

Lemma section_start_frame : frame_ok decode_section_start.
Proof.
  intros buf ext. destruct (Nat.lt_ge_cases (length buf) 4) as [Hs|Hge].
  - unfold decode_section_start at 1. by rewrite (proj2 (Nat.ltb_lt _ _)).
  - rewrite !section_start_spec by (rewrite ?length_app; lia).
    rewrite take_app_le, drop_app_le by done. split; [done|]. rewrite length_drop. lia.
Qed.

Lemma filename_spec kind buf :
  10 <= length buf ->
  wp_decode_filename kind buf =
  if decide (take 10 buf = WIREPACK_END) then Ok (WResEnd, drop 10 buf) else
  let fl := read_u (take 2 buf) in
  if (lenN buf <? fl + 2)%N then Ok (WNone, buf)
  else if (fl =? 0)%N then
    match kind with Tree => Ok (WSome RootPath, drop 2 buf) | File => Err WirePackBadFilename end
  else
    p ← map_err InvalidPath (MPath_new (take (N.to_nat fl) (drop 2 buf)));
    Ok (WSome (match kind with Tree => DirectoryPath p | File => FilePath p end),
        drop (N.to_nat fl) (drop 2 buf)).
Proof.
  intros H. unfold wp_decode_filename. rewrite (proj2 (Nat.ltb_ge _ _)) by done.
  case_decide; [by rewrite split_to_Ok by (unfold lenN; lia)|].
  unfold peek_u16, peek. rewrite (proj2 (Nat.leb_le _ _)) by lia. rewrite !bind_Ok. cbv zeta.
  destruct (N.ltb_spec (lenN buf) (read_u (take 2 buf) + 2)) as [|Hge]; [done|].
  rewrite split_to_Ok, bind_Ok by (unfold lenN; lia). change (N.to_nat 2) with 2.
  destruct (N.eqb_spec (read_u (take 2 buf)) 0); [by destruct kind|].
  unfold drain_path. rewrite split_to_Ok, bind_Ok by (unfold lenN in *; rewrite length_drop; lia).
  destruct (MPath_new _); cbn [map_err mbind outcome_bind]; [|done|done]. by destruct kind.
Qed.

Lemma filename_frame kind buf ext :
  match wp_decode_filename kind buf with
  | Ok (WNone, rest) => rest = buf
  | Ok (r, rest) => wp_decode_filename kind (buf ++ ext) = Ok (r, rest ++ ext) /\
                    length rest < length buf
  | Err e => wp_decode_filename kind (buf ++ ext) = Err e
  | Panic => wp_decode_filename kind (buf ++ ext) = Panic
  end.
Proof.
  destruct (Nat.lt_ge_cases (length buf) 10) as [Hs|Hge].
  { unfold wp_decode_filename at 1. by rewrite (proj2 (Nat.ltb_lt _ _)). }
  rewrite !filename_spec by (rewrite ?length_app; lia). cbv zeta.
  rewrite (take_app_le buf ext 10), (take_app_le buf ext 2) by lia.
  rewrite (drop_app_le buf ext 10), (drop_app_le buf ext 2) by lia.
  case_decide; [split; [done | rewrite length_drop; lia]|].
  set (fl := read_u (take 2 buf)).
  destruct (N.ltb_spec (lenN buf) (fl + 2)) as [|Hfl]; [done|].
  rewrite (proj2 (N.ltb_ge _ _)) by (unfold lenN in *; rewrite length_app; lia).
  destruct (N.eqb_spec fl 0).
  { destruct kind; [|done]. split; [done|]. rewrite length_drop. lia. }
  rewrite (take_app_le (drop 2 buf)), (drop_app_le (drop 2 buf))
    by (rewrite length_drop; unfold lenN in *; lia).
  destruct (MPath_new _); cbn [map_err mbind outcome_bind]; [|done|done]. split; [done|].
  rewrite !length_drop. lia.
Qed.

(** ** The unpacker is lawful *)

Definition next_frame (kind : Kind) (step : bytes -> outcome bundle_error (option WPart * wp_state * bytes))
    : Prop :=
  forall buf ext,
  match step buf with
  | Ok (Some x, st', rest) => step (buf ++ ext) = Ok (Some x, st', rest ++ ext) /\
                              length rest < length buf
  | Ok (None, st', rest) => step (buf ++ ext) = wp_decode_next kind (rest ++ ext) st' /\
                            length rest <= length buf
  | Err e => step (buf ++ ext) = Err e
  | Panic => step (buf ++ ext) = Panic
  end.

(** A state that parses one item and goes on with a function of it. *)
Lemma item_state_frame {A} kind st (parse : bytes -> outcome bundle_error (option A * bytes))
    (part : A -> WPart) (next : A -> wp_state) :
  frame_ok parse ->
  (forall buf, wp_decode_next kind buf st =
     '(a, buf) ← parse buf;
     match a with
     | Some a => Ok (Some (part a), next a, buf)
     | None => Ok (None, st, buf)
     end) ->
  next_frame kind (fun buf => wp_decode_next kind buf st).
Proof.
  intros Hp Hst buf ext. rewrite !Hst. specialize (Hp buf ext).
  destruct (parse buf) as [[[a|] rest]|e|].
  - destruct Hp as [-> ?]. done.
  - subst rest. rewrite bind_Ok. split; [by rewrite Hst | done].
  - by rewrite Hp.
  - by rewrite Hp.
Qed.

Lemma wp_next_frame kind st : next_frame kind (fun buf => wp_decode_next kind buf st).
Proof.
  assert (forall f, next_frame kind (fun buf => wp_decode_next kind buf (WHistoryStart f))) as Hstart.
  { intros f. by eapply (item_state_frame kind _ decode_section_start (HistoryMeta f)
      (next_history_state f) section_start_frame). }
  destruct st as [|f|f n|f|f n| |].
  - intros buf ext. cbn [wp_decode_next]. pose proof (filename_frame kind buf ext) as H.
    destruct (wp_decode_filename kind buf) as [[[|f|] rest]|e|].
    + subst rest. done.
    + destruct H as [-> Hl]. rewrite !bind_Ok. pose proof (Hstart f rest ext) as Hf.
      cbn [wp_decode_next] in Hf.
      destruct (decode_history_start f rest) as [[[[x|] st'] r]|e|]; try done;
        destruct Hf as [-> ?]; split; (done || lia).
    + by destruct H as [-> Hl].
    + by rewrite H.
    + by rewrite H.
  - apply Hstart.
  - by eapply (item_state_frame kind _ (fun buf => history_decode buf kind) History
      (fun _ => next_history_state f (n - 1)) (history_decode_frame kind)).
  - by eapply (item_state_frame kind _ decode_section_start (DataMeta f)
      (next_data_state f) section_start_frame).
  - by eapply (item_state_frame kind _ data_decode Data
      (fun _ => next_data_state f (n - 1)) data_decode_frame).
  - done.
  - done.
Qed.

#[export] Instance wp_laws : DecoderLaws wp_decoder.
Proof.
  assert (forall u buf u' x rest, wp_decode u buf = (u', Ok (Some x, rest)) ->
            length rest < length buf) as Hp.
  { intros u buf u' x rest. unfold wp_decode.
    pose proof (wp_next_frame (wp_kind u) (wp_st u) buf []) as H. cbn beta in H.
    destruct (wp_decode_next _ buf _) as [[[[y|] st'] r]|e|]; try done. intros [= <- <- <-].
    by destruct H. }
  split; cbn [decode decode_eof wp_decoder].
  - intros u buf ext. unfold wp_decode.
    pose proof (wp_next_frame (wp_kind u) (wp_st u) buf ext) as H. cbn beta in H.
    destruct (wp_decode_next _ buf _) as [[[[y|] st'] r]|e|].
    + by destruct H as [-> _].
    + cbn [wp_st wp_kind]. by destruct H as [-> _].
    + by rewrite H.
    + by rewrite H.
  - apply Hp.
  - intros u buf u' rest. unfold wp_decode.
    pose proof (wp_next_frame (wp_kind u) (wp_st u) buf []) as H. cbn beta in H.
    destruct (wp_decode_next _ buf _) as [[[[y|] st'] r]|e|]; try done. intros [= <- <-].
    by destruct H.
  - intros u buf u' x rest _. unfold wp_decode_eof.
    destruct (wp_decode u buf) as [u1 [[[y|] r]|e|]] eqn:Ed; try done.
    + intros [= <- <- <-]. by eapply Hp.
    + intros [= _ H]. by repeat case_match.
Qed.

(** ** Entries read back *)

Definition valid_history (e : HistoryEntry) : Prop :=
  valid_node (h_node e) /\ valid_node (h_p1 e) /\ valid_node (h_p2 e) /\ valid_node (h_linknode e) /\
  match h_copy_from e with Some p => valid_repo_path p | None => True end.

Definition valid_data (e : DataEntry) : Prop :=
  valid_node (d_node e) /\ valid_node (d_delta_base e) /\
  Forall wire_fragment (delta_frags (d_delta e)) /\ Delta_verify (delta_frags (d_delta e)) = Ok tt.

Lemma node_length h : valid_node h -> length (HgNodeHash_as_bytes h) = 20.
Proof. done. Qed.

(** Drop a hash, or an integer, at the front of a concatenation. *)
Lemma drop_node n h (r : bytes) :
  valid_node h -> 20 <= n -> drop n (HgNodeHash_as_bytes h ++ r) = drop (n - 20) r.
Proof.
  intros Hv Hn. replace n with (length (HgNodeHash_as_bytes h) + (n - 20)) at 1
    by (rewrite node_length by done; lia).
  by rewrite <- drop_drop, drop_app_length.
Qed.

Lemma drop_uint n k x (r : bytes) : k <= n -> drop n (u_be k x ++ r) = drop (n - k) r.
Proof.
  intros Hn. replace n with (length (u_be k x) + (n - k)) at 1 by (rewrite length_u_be; lia).
  by rewrite <- drop_drop, drop_app_length.
Qed.

(** Drop everything in front of the position that is asked for. *)
Ltac peel := rewrite ?drop_node by (done || lia); rewrite ?drop_uint by lia; cbn [Nat.sub]; rewrite ?drop_0.

Lemma take_node_front h r : valid_node h -> take_node (HgNodeHash_as_bytes h ++ r) = h.
Proof. intros Hv. by apply take_node_app. Qed.

Lemma read_slice_front from to (p x r : bytes) :
  length p = from -> length x = to - from -> read_u (slice from to (p ++ x ++ r)) = read_u x.
Proof.
  intros Hp Hx. unfold slice. rewrite drop_app_length' by done. by rewrite take_app_length' by done.
Qed.

Lemma history_encode_inv e kind b :
  valid_history e -> history_encode e kind [] = Ok b -> (lenN b < 2 ^ 31)%N ->
  exists pv, b = HgNodeHash_as_bytes (h_node e) ++ HgNodeHash_as_bytes (h_p1 e) ++
                 HgNodeHash_as_bytes (h_p2 e) ++ HgNodeHash_as_bytes (h_linknode e) ++
                 u_be 2 (lenN pv) ++ pv /\
             (lenN pv <= u16_max)%N /\ parse_copy_from kind pv = Ok (h_copy_from e).
Proof.
  intros (_ & _ & _ & _ & Hcp) He Hb. unfold history_encode in He.
  apply bind_Ok_inv in He as ([] & Hver & He). apply bind_Ok_inv in He as (pv & Hpv & [= <-]).
  unfold put_slice, bytes_bufmut in *. cbn [app] in *. rewrite <- !app_assoc in *.
  assert (lenN pv < 2 ^ 31)%N as Hlen by (unfold lenN in *; rewrite !length_app in Hb; lia).
  unfold history_verify in Hver.
  assert ((lenN pv <= u16_max)%N /\ parse_copy_from kind pv = Ok (h_copy_from e)) as [Hmax Hparse].
  { destruct (h_copy_from e) as [[|p|p]|]; [done|done| |by injection Hpv as <-].
    simpl in Hpv. injection Hpv as <-. apply bind_Ok_inv in Hver as ([] & Hk & Hm).
    unfold ensure in Hk, Hm. case_bool_decide as Ekind; [subst kind|done].
    destruct (N.leb_spec (MPath_len p) u16_max) as [Hle|]; [|done].
    rewrite MPath_len_to_vec in Hle by (done || lia). split; [done|].
    unfold parse_copy_from. pose proof (MPath_new_to_vec_valid p Hcp) as Hn.
    destruct (to_vec p) eqn:Ev; [done|]. cbn [length Nat.eqb]. by rewrite Hn. }
  exists pv. split; [|done]. unfold as_u16. rewrite N.mod_small by (unfold u16_max in Hmax; lia). done.
Qed.

Lemma history_roundtrip e kind b r :
  valid_history e -> history_encode e kind [] = Ok b -> (lenN b < 2 ^ 31)%N ->
  history_decode (b ++ r) kind = Ok (Some e, r) /\ 82 <= length b.
Proof.
  intros Hv He Hb. destruct (history_encode_inv e kind b Hv He Hb) as (pv & -> & Hmax & Hparse).
  destruct Hv as (H1 & H2 & H3 & H4 & _). unfold u16_max in Hmax.
  match goal with |- history_decode (?b ++ r) kind = _ /\ _ => set (bb := b) end.
  assert (length bb = 82 + length pv) as Hl.
  { unfold bb. rewrite !length_app, !node_length, length_u_be by done. lia. }
  split; [|lia]. rewrite history_decode_spec.
  - assert (drop 82 bb = pv) as E82 by (unfold bb; by peel).
    assert (take_node bb = h_node e) as E0 by (unfold bb; by rewrite take_node_front).
    assert (take_node (drop 20 bb) = h_p1 e) as E20
      by (unfold bb; peel; by rewrite take_node_front).
    assert (take_node (drop 40 bb) = h_p2 e) as E40
      by (unfold bb; peel; by rewrite take_node_front).
    assert (take_node (drop 60 bb) = h_linknode e) as E60
      by (unfold bb; peel; by rewrite take_node_front).
    unfold parse_history. rewrite E82, E0, E20, E40, E60, Hparse. by destruct e.
  - lia.
  - replace (lenN bb - 82)%N with (lenN pv) by (unfold lenN; lia).
    unfold bb. rewrite !app_assoc. rewrite <- (app_assoc _ (u_be 2 _) pv).
    rewrite read_slice_front.
    + apply read_u_be. simpl. lia.
    + rewrite !length_app, !node_length by done. done.
    + by rewrite length_u_be.
Qed.

Lemma data_encode_inv e b :
  valid_data e -> data_encode e [] = Ok b -> (lenN b < 2 ^ 31)%N ->
  exists dv, b = HgNodeHash_as_bytes (d_node e) ++ HgNodeHash_as_bytes (d_delta_base e) ++
                 u_be 8 (lenN dv) ++ dv /\ (lenN dv < 2 ^ 31)%N /\
    (if decide (d_delta_base e = NULL_HASH) then Ok (Delta_new_fulltext dv) else decode_delta dv)
    = Ok (d_delta e).
Proof.
  intros (_ & _ & Hw & Hd) He Hb. unfold data_encode in He.
  apply bind_Ok_inv in He as ([] & _ & He). unfold put_slice, bytes_bufmut in He. cbn [app] in He.
  case_decide as Hn.
  - apply bind_Ok_inv in He as (ft & Hft & [= <-]). rewrite <- !app_assoc in *.
    exists ft. split; [done|]. split; [unfold lenN in *; rewrite !length_app in Hb; lia|].
    unfold maybe_fulltext in Hft. destruct (d_delta e) as [[|f [|? ?]]]; try done.
    cbn [delta_frags] in Hft.
    destruct (N.eqb_spec (frag_start f) 0); [|done]. destruct (N.eqb_spec (frag_end f) 0); [|done].
    destruct f as [fs fe fc]; simpl in *. injection Hft as <-. subst. done.
  - injection He as <-. rewrite encode_delta_app, <- !app_assoc in *.
    exists (delta_bytes (d_delta e)).
    assert (lenN (delta_bytes (d_delta e)) < 2 ^ 31)%N as Hl
      by (unfold lenN in *; rewrite !length_app in Hb; lia).
    rewrite encoded_len_mod, N.mod_small by lia. split; [done|]. split; [done|].
    by apply decode_delta_bytes.
Qed.

Lemma data_roundtrip e b r :
  valid_data e -> data_encode e [] = Ok b -> (lenN b < 2 ^ 31)%N ->
  data_decode (b ++ r) = Ok (Some e, r) /\ 48 <= length b.
Proof.
  intros Hv He Hb. destruct (data_encode_inv e b Hv He Hb) as (dv & -> & Hlen & Hparse).
  destruct Hv as (H1 & H2 & _ & _).
  match goal with |- data_decode (?b ++ r) = _ /\ _ => set (bb := b) end.
  assert (length bb = 48 + length dv) as Hl.
  { unfold bb. rewrite !length_app, !node_length, length_u_be by done. lia. }
  split; [|lia]. rewrite data_decode_spec; [| lia | | unfold lenN in *; lia].
  - assert (drop 48 bb = dv) as E48 by (unfold bb; by peel).
    assert (take_node bb = d_node e) as E0 by (unfold bb; by rewrite take_node_front).
    assert (take_node (drop 20 bb) = d_delta_base e) as E20
      by (unfold bb; peel; by rewrite take_node_front).
    unfold parse_data. rewrite E48, E0, E20, Hparse. by destruct e.
  - replace (lenN bb - 48)%N with (lenN dv) by (unfold lenN; lia).
    unfold bb. rewrite app_assoc. rewrite read_slice_front.
    + apply read_u_be. simpl. lia.
    + rewrite length_app, !node_length by done. done.
    + by rewrite length_u_be.
Qed.

(** ** File names read back *)

Definition kind_path (kind : Kind) (p : MPath) : RepoPath :=
  match kind with Tree => DirectoryPath p | File => FilePath p end.

Lemma to_vec_nonempty p : valid_path p -> to_vec p <> [].
Proof.
  intros Hv E. pose proof (MPath_new_to_vec_valid p Hv) as H. rewrite E in H. by vm_compute in H.
Qed.

Lemma encode_filename_inv kind path b :
  valid_repo_path path -> encode_filename kind path [] = Ok b -> (lenN b < 2 ^ 31)%N ->
  (kind = Tree /\ path = RootPath /\ b = u_be 2 0) \/
  (exists p, path = kind_path kind p /\ valid_path p /\ (lenN (to_vec p) <= u16_max)%N /\
             b = u_be 2 (lenN (to_vec p)) ++ to_vec p).
Proof.
  intros Hv He Hb. unfold encode_filename, put_slice, bytes_bufmut in He. cbn [app] in He.
  assert (forall p, valid_path p ->
    (m ← verify_path p; Ok (Some m)) ≫= (fun m => match m with
       | Some m => Ok (u_be 2 (as_u16 (MPath_len m)) ++ to_vec m)
       | None => Ok (u_be 2 0) end) = Ok b ->
    (lenN (to_vec p) <= u16_max)%N /\ b = u_be 2 (lenN (to_vec p)) ++ to_vec p) as H.
  { intros p Hp. unfold verify_path. destruct (N.ltb_spec u16_max (MPath_len p)) as [|Hle]; [done|].
    rewrite !bind_Ok. intros E.
    assert (b = u_be 2 (as_u16 (MPath_len p)) ++ to_vec p) as Eb by congruence.
    rewrite Eb in Hb |- *. clear E Eb He.
    assert (lenN (to_vec p) < 2 ^ 31)%N by (unfold lenN in *; rewrite length_app in Hb; lia).
    rewrite MPath_len_to_vec in * by (done || lia). split; [done|].
    unfold as_u16. rewrite N.mod_small by (unfold u16_max in Hle; lia). done. }
  destruct kind, path as [|p|p]; try done.
  - left. by injection He as <-.
  - right. exists p. apply H in He as [? ->]; done.
  - right. exists p. apply H in He as [? ->]; done.
Qed.

Lemma take_take_app (a b : bytes) n : length a <= n -> take (length a) (take n (a ++ b)) = a.
Proof. intros H. rewrite take_take, Nat.min_l by done. apply take_app_length. Qed.

Lemma filename_read kind p rest :
  valid_path p -> (lenN (to_vec p) <= u16_max)%N ->
  10 <= length (u_be 2 (lenN (to_vec p)) ++ to_vec p ++ rest) ->
  wp_decode_filename kind (u_be 2 (lenN (to_vec p)) ++ to_vec p ++ rest)
  = Ok (WSome (kind_path kind p), rest).
Proof.
  intros Hv Hmax Hl. pose proof (to_vec_nonempty p Hv) as Hne. unfold u16_max in Hmax.
  assert (0 < lenN (to_vec p))%N as Hpos.
  { unfold lenN. destruct (to_vec p); [done|]. cbn [length]. lia. }
  set (v := to_vec p) in *. set (u := u_be 2 (lenN v)) in *.
  assert (length u = 2) as Hu by apply length_u_be.
  assert (read_u u = lenN v) as Hr by (apply read_u_be; simpl; lia).
  rewrite filename_spec by done.
  rewrite decide_False.
  2:{ intros E. apply (f_equal (take 2)) in E. rewrite <- Hu in E at 1.
      rewrite take_take_app in E by lia. rewrite E in Hr.
      assert (read_u (take 2 WIREPACK_END) = 0%N) by reflexivity. lia. }
  cbv zeta. rewrite (take_app_length' u) by done. rewrite (drop_app_length' u) by done.
  rewrite Hr. rewrite (proj2 (N.ltb_ge _ _)) by (unfold lenN; rewrite !length_app; lia).
  rewrite (proj2 (N.eqb_neq _ _)) by lia.
  replace (N.to_nat (lenN v)) with (length v) by (unfold lenN; lia).
  rewrite take_app_length, drop_app_length. unfold v. rewrite MPath_new_to_vec_valid by done.
  by destruct kind.
Qed.

Lemma filename_read_root rest :
  8 <= length rest -> take 8 rest <> replicate 8 x00 ->
  wp_decode_filename Tree (u_be 2 0 ++ rest) = Ok (WSome RootPath, rest).
Proof.
  intros Hl Hne. change (u_be 2 0) with [x00; x00]. rewrite filename_spec by (simpl; lia).
  rewrite decide_False.
  - cbv zeta. change (read_u (take 2 ([x00; x00] ++ rest))) with 0%N.
    rewrite (proj2 (N.ltb_ge _ _)) by (unfold lenN; rewrite length_app; lia). done.
  - intros E. apply Hne. cbn in E. by injection E.
Qed.

(** ** Packer and unpacker in step *)

Definition valid_wpart (p : WPart) : Prop :=
  match p with
  | HistoryMeta path n => valid_repo_path path /\ (n < 2 ^ 32)%N
  | History e => valid_history e
  | DataMeta path n => (n < 2 ^ 32)%N
  | Data e => valid_data e
  | WEnd => True
  end.

(** The state of the unpacker that corresponds to one of the converter. *)
Definition to_wp (st : conv_state) : wp_state :=
  match st with
  | CHistoryMeta => WFilename
  | CHistory p n => WHistory p n
  | CDataMeta p => WDataStart p
  | CData p n => WData p n
  | CEnd => WStEnd
  | CInvalid => WInvalid
  end.

Lemma to_wp_history p n : to_wp (conv_next_history p n) = next_history_state p n.
Proof. unfold conv_next_history, next_history_state. by destruct (n =? 0)%N. Qed.

Lemma to_wp_data p n : to_wp (conv_next_data p n) = next_data_state p n.
Proof. unfold conv_next_data, next_data_state. by destruct (n =? 0)%N. Qed.

Lemma built_Ok b d : built b = Ok d -> d = Some (Normal b) /\ (lenN b < 2 ^ 31)%N.
Proof. unfold built. by intros (c & [-> ?]%Chunk_new_Ok & [= <-])%bind_Ok_inv. Qed.

Lemma section_start_read n rest :
  (n < 2 ^ 32)%N -> decode_section_start (u_be 4 n ++ rest) = Ok (Some n, rest).
Proof.
  intros Hn. unfold decode_section_start.
  rewrite (proj2 (Nat.ltb_ge _ _)) by (rewrite length_app, length_u_be; lia).
  unfold drain_u32. rewrite drain_uint_put; [done|]. simpl. lia.
Qed.

(** What has to follow the header of a file for it to be read: the end marker
    must not appear in its place. *)
Definition follows (p : WPart) (rest : bytes) : Prop :=
  match p with
  | HistoryMeta path n =>
      4 <= length rest /\ (path = RootPath -> n = 0%N -> take 4 rest <> replicate 4 x00)
  | _ => True
  end.

Lemma history_meta_step kind path n b rest :
  valid_repo_path path -> (n < 2 ^ 32)%N -> encode_filename kind path [] = Ok b ->
  (lenN (b ++ u_be 4 n) < 2 ^ 31)%N -> follows (HistoryMeta path n) rest ->
  wp_decode_next kind ((b ++ u_be 4 n) ++ rest) WFilename
  = Ok (Some (HistoryMeta path n), next_history_state path n, rest).
Proof.
  intros Hv Hn He Hb [Hl Hroot].
  assert (lenN b < 2 ^ 31)%N as Hb' by (unfold lenN in *; rewrite length_app in Hb; lia).
  rewrite <- app_assoc. cbn [wp_decode_next].
  assert (wp_decode_filename kind (b ++ u_be 4 n ++ rest) = Ok (WSome path, u_be 4 n ++ rest)) as ->.
  { destruct (encode_filename_inv kind path b Hv He Hb') as [(-> & -> & ->)|(p & -> & Hp & Hmax & ->)].
    - apply filename_read_root; [rewrite length_app, length_u_be; lia|]. intros E.
      destruct (decide (n = 0)%N) as [->|Hnz].
      + apply (Hroot eq_refl eq_refl). change (u_be 4 0) with [x00; x00; x00; x00] in E.
        cbn in E. by injection E.
      + apply (f_equal (take 4)) in E. rewrite <- (length_u_be 4 n) in E at 1.
        rewrite take_take_app in E by (rewrite length_u_be; lia).
        pose proof (read_u_be 4 n ltac:(simpl; lia)) as Hr. rewrite E in Hr.
        assert (read_u (take 4 (replicate 8 x00)) = 0%N) by reflexivity. lia.
    - rewrite <- app_assoc. apply filename_read; [done|done|].
      rewrite !length_app, !length_u_be. pose proof (to_vec_nonempty p Hp).
      destruct (to_vec p); [done|]. cbn [length]. lia. }
  rewrite bind_Ok. unfold decode_history_start. by rewrite section_start_read.
Qed.

Lemma pack_step kind st p st' d :
  valid_wpart p -> convert_part (mkPacker kind) st p = Ok (st', d) ->
  exists b, d = Some (Normal b) /\ (lenN b < 2 ^ 31)%N /\ 4 <= length b /\
    forall rest, follows p rest ->
      wp_decode_next kind (b ++ rest) (to_wp st) = Ok (Some p, to_wp st', rest).
Proof.
  intros Hv Hc. destruct p as [path n|e|path n|e|]; cbn [convert_part] in Hc.
  - destruct Hv as [Hpath Hn]. apply bind_Ok_inv in Hc as (dd & Hd & Hc).
    apply bind_Ok_inv in Hc as (s & Hs & [= <- <-]).
    cbn [p_history_meta packer_processor packer_kind] in Hd.
    apply bind_Ok_inv in Hd as (b & He & [-> Hb]%built_Ok).
    unfold encode_entry_count, put_slice, bytes_bufmut in *.
    exists (b ++ u_be 4 n). split; [done|]. split; [done|].
    split; [rewrite length_app, length_u_be; lia|]. intros rest Hf.
    destruct st; try done. injection Hs as <-. rewrite to_wp_history. by apply history_meta_step.
  - apply bind_Ok_inv in Hc as (s & Hs & Hc). apply bind_Ok_inv in Hc as (dd & Hd & [= <- <-]).
    cbn [p_history packer_processor packer_kind] in Hd.
    apply bind_Ok_inv in Hd as (b & He & [-> Hb]%built_Ok). exists b. split; [done|]. split; [done|].
    split; [pose proof (proj2 (history_roundtrip e kind b [] Hv He Hb)); lia|]. intros rest _.
    destruct st as [|path n| | | |]; try done. unfold seen_history in Hs.
    apply bind_Ok_inv in Hs as (_ & _ & [= <-]). rewrite to_wp_history. cbn [to_wp wp_decode_next].
    by rewrite (proj1 (history_roundtrip e kind b rest Hv He Hb)).
  - apply bind_Ok_inv in Hc as (dd & Hd & Hc). apply bind_Ok_inv in Hc as (s & Hs & [= <- <-]).
    cbn [p_data_meta packer_processor] in Hd. apply built_Ok in Hd as [-> Hb].
    unfold encode_entry_count, put_slice, bytes_bufmut in *. cbn [app] in *.
    exists (u_be 4 n). split; [done|]. split; [done|]. split; [by rewrite length_u_be|]. intros rest _.
    destruct st as [| |path'| | |]; try done. unfold seen_data_meta, ensure in Hs.
    case_bool_decide as Ep; [subst path'|done]. injection Hs as <-. rewrite to_wp_data.
    cbn [to_wp wp_decode_next]. by rewrite section_start_read.
  - apply bind_Ok_inv in Hc as (s & Hs & Hc). apply bind_Ok_inv in Hc as (dd & Hd & [= <- <-]).
    cbn [p_data packer_processor] in Hd.
    apply bind_Ok_inv in Hd as (b & He & [-> Hb]%built_Ok). exists b. split; [done|]. split; [done|].
    split; [pose proof (proj2 (data_roundtrip e b [] Hv He Hb)); lia|]. intros rest _.
    destruct st as [| | |path n| |]; try done. unfold seen_data in Hs.
    apply bind_Ok_inv in Hs as (_ & _ & [= <-]). rewrite to_wp_data. cbn [to_wp wp_decode_next].
    by rewrite (proj1 (data_roundtrip e b rest Hv He Hb)).
  - apply bind_Ok_inv in Hc as (s & Hs & Hc). apply bind_Ok_inv in Hc as (dd & Hd & [= <- <-]).
    cbn [p_end packer_processor] in Hd. apply built_Ok in Hd as [-> Hb].
    exists WIREPACK_END. split; [done|]. split; [done|]. split; [simpl; lia|]. intros rest _.
    destruct st; try done. injection Hs as <-. cbn [to_wp wp_decode_next].
    rewrite filename_spec by (simpl; lia). by rewrite decide_True.
Qed.

(** The parts up to the end of the pack. *)
Fixpoint upto_end (parts : list WPart) : list WPart :=
  match parts with
  | [] => []
  | WEnd :: _ => [WEnd]
  | p :: parts => p :: upto_end parts
  end.

(** No root directory without history and data, which on the wire is the
    same as the end marker. *)
Fixpoint unambiguous (parts : list WPart) : Prop :=
  match parts with
  | [] => True
  | p :: rest =>
      (p = HistoryMeta RootPath 0 -> match rest with DataMeta _ 0 :: _ => False | _ => True end) /\
      unambiguous rest
  end.

(** The packer makes a chunk of every part. *)
Lemma packer_some kind st p st' d : convert_part (mkPacker kind) st p = Ok (st', d) -> is_Some d.
Proof.
  assert (forall b d, built b = Ok d -> is_Some d) as Hb by (intros b d' [-> _]%built_Ok; done).
  destruct p; cbn [convert_part]; intros (x & Hx & (y & Hy & [= <- <-])%bind_Ok_inv)%bind_Ok_inv;
    cbn in Hx, Hy; first [exact (Hb _ _ Hx)|exact (Hb _ _ Hy)|idtac];
    first [apply bind_Ok_inv in Hx as (? & _ & Hx); exact (Hb _ _ Hx)|apply bind_Ok_inv in Hy as (? & _ & Hy); exact (Hb _ _ Hy)].
Qed.

Lemma pack_from_cons kind st p parts : convert_from (mkPacker kind) st (p :: parts) =
  if bool_decide (st = CEnd) then Ok [] else
    ('(st', d) ← convert_part (mkPacker kind) st p; ds ← convert_from (mkPacker kind) st' parts; Ok (match d with Some d => d :: ds | None => ds end)).
Proof.
  unfold convert_from at 1. case_bool_decide; [done|]. cbn [convert_loop]. destruct (convert_part _ _ _) as [[st' d]| |] eqn:E; [|done..].
  by apply packer_some in E as [c ->].
Qed.

Lemma pack_from_nil kind st : convert_from (mkPacker kind) st [] = if bool_decide (st = CEnd) then Ok [] else _ ← seen_none st; Ok [].
Proof. done. Qed.

Lemma convert_from_live kind st parts cs :
  convert_from (mkPacker kind) st parts = Ok cs -> st <> CEnd ->
  exists p parts' st' d cs', parts = p :: parts' /\ convert_part (mkPacker kind) st p = Ok (st', d) /\
    convert_from (mkPacker kind) st' parts' = Ok cs' /\
    cs = match d with Some d => d :: cs' | None => cs' end.
Proof.
  intros Hc Hst. destruct parts as [|p parts]; rewrite ?pack_from_nil, ?pack_from_cons in Hc;
    rewrite bool_decide_false in Hc by done.
  - by destruct st.
  - apply bind_Ok_inv in Hc as ([st' d] & Hp & Hc). apply bind_Ok_inv in Hc as (cs' & Hcs & [= <-]).
    by exists p, parts, st', d, cs'.
Qed.

(** What follows a header is long enough and is not the end marker. *)
Lemma follows_rest kind st p st' d parts cs :
  convert_part (mkPacker kind) st p = Ok (st', d) ->
  convert_from (mkPacker kind) st' parts = Ok cs ->
  Forall valid_wpart parts -> unambiguous (p :: parts) ->
  follows p (concat (payload <$> cs)).
Proof.
  intros Hp Hc Hv [Hu _]. destruct p as [path n| | | |]; try done. cbn [convert_part] in Hp.
  apply bind_Ok_inv in Hp as (dd & _ & Hp). apply bind_Ok_inv in Hp as (s & Hs & [= <- <-]).
  assert (s = conv_next_history path n) as -> by (destruct st; try done; by injection Hs).
  assert (conv_next_history path n <> CEnd) as Hne by (unfold conv_next_history; by destruct (n =? 0)%N).
  destruct (convert_from_live _ _ _ _ Hc Hne) as (q & parts' & st2 & d2 & cs' & -> & Hq & Hcs' & ->).
  apply Forall_cons in Hv as [Hvq _].
  destruct (pack_step _ _ _ _ _ Hvq Hq) as (b & -> & _ & Hb & _).
  cbn [fmap list_fmap concat payload follows]. split; [rewrite length_app; lia|].
  intros -> ->. specialize (Hu eq_refl). unfold conv_next_history in Hq. cbn [N.eqb] in Hq.
  destruct q as [qp qn|e|qp qn|e|]; cbn [convert_part] in Hq;
    try (apply bind_Ok_inv in Hq as (? & ? & Hq); done).
  apply bind_Ok_inv in Hq as (dd' & Hd & Hq). apply bind_Ok_inv in Hq as (s2 & _ & [= <- ->]).
  cbn [p_data_meta packer_processor] in Hd. apply built_Ok in Hd as [Hd _].
  unfold encode_entry_count, put_slice, bytes_bufmut in Hd. cbn [app] in Hd.
  assert (b = u_be 4 qn) as -> by congruence. rewrite take_app_length' by (by rewrite length_u_be).
  simpl in Hvq. intros E. pose proof (read_u_be 4 qn ltac:(simpl; lia)) as Hr. rewrite E in Hr.
  assert (read_u (replicate 4 x00) = 0%N) by reflexivity. by destruct qn.
Qed.

Lemma wp_decode_all kind parts : forall st cs,
  convert_from (mkPacker kind) st parts = Ok cs -> st <> CEnd ->
  Forall valid_wpart parts -> unambiguous parts ->
  Forall valid_chunk cs /\
  decode_all (mkWP (to_wp st) kind) (concat (payload <$> cs)) = (upto_end parts, Ok tt).
Proof.
  induction parts as [|p parts IH]; intros st cs Hc Hst Hv Hu;
    destruct (convert_from_live _ _ _ _ Hc Hst) as (q & ps & st' & d & cs' & Eq & Hp & Hcs' & ->);
    [done|]. injection Eq as <- <-. apply Forall_cons in Hv as [Hvp Hv].
  pose proof (follows_rest _ _ _ _ _ _ _ Hp Hcs' Hv Hu) as Hf.
  destruct (pack_step kind st p st' d Hvp Hp) as (b & -> & Hb & _ & Hstep).
  specialize (Hstep _ Hf). destruct Hu as [_ Hu].
  assert (forall xs r, decode_all (mkWP (to_wp st') kind) (concat (payload <$> cs')) = (xs, r) ->
    decode_all (mkWP (to_wp st) kind) (concat (payload <$> Normal b :: cs')) = (p :: xs, r)) as Hall.
  { intros xs r E. cbn [fmap list_fmap concat payload]. rewrite decode_all_step.
    change (decode (Decoder := wp_decoder)) with wp_decode. unfold wp_decode. cbn [wp_st wp_kind].
    rewrite Hstep. by rewrite E. }
  destruct (decide (st' = CEnd)) as [->|Hst'].
  - assert (cs' = []) as ->.
    { unfold convert_from in Hcs'. rewrite bool_decide_true in Hcs' by done. by injection Hcs'. }
    split; [by repeat constructor|]. rewrite (Hall [] (Ok tt)) by (by destruct kind).
    destruct p as [pa n|e|pa n|e|]; cbn [convert_part] in Hp; [| | | |done]; exfalso;
      apply bind_Ok_inv in Hp as (? & H1 & Hp); apply bind_Ok_inv in Hp as (? & H2 & [= -> _]);
      destruct st; try done; unfold seen_history_meta, seen_history, seen_data_meta, seen_data,
        conv_next_history, conv_next_data, ensure in *; by repeat case_match.
  - destruct (IH st' cs' Hcs' Hst' Hv Hu) as [Hvs E]. split; [by constructor|].
    rewrite (Hall _ _ E). destruct p; try done. exfalso. cbn [convert_part] in Hp.
    apply bind_Ok_inv in Hp as (s & Hs & Hp). apply bind_Ok_inv in Hp as (? & ? & [= -> _]).
    destruct st; try done. by injection Hs as <-.
Qed.

(** C29. Wirepack round trip: when the packer accepts a sequence of parts whose
    fields fit the wire, the chunks it writes are read back from the bundle2
    stream, and the unpacker reads from their payloads exactly the parts up to
    the end part, behind which the packer takes none, for every way of cutting
    and delaying the bytes. The one thing that the packer accepts and the wire
    cannot tell from the end is a root directory with no history and no data
    ([unambiguous]). *)
Theorem wirepack_roundtrip (kind : Kind) (parts : list WPart) (cs : list Chunk) :
  Forall valid_wpart parts -> unambiguous parts -> wirepack_pack kind parts = Ok cs ->
  (forall events n, input_bytes events = chunks_bytes cs ->
     length events + length (input_bytes events) < n ->
     drive n (decode_stream events tt) = Some (cs, Ok tt)) /\
  (forall events n, input_bytes events = concat (payload <$> cs) ->
     length events + length (input_bytes events) < n ->
     drive n (decode_stream events (WirePackUnpacker_new kind)) = Some (upto_end parts, Ok tt)).
Proof.
  intros Hv Hu Hc. destruct (wp_decode_all kind parts CHistoryMeta cs Hc) as [Hvs Hall]; [done..|].
  split; intros events n He Hn; (rewrite drive_stream; [rewrite He|done|done]).
  - by rewrite decode_all_chunks.
  - cbn [to_wp] in Hall. unfold WirePackUnpacker_new. by rewrite Hall.
Qed.

(** A tree pack: the root with one revision, then a directory without any. *)
Definition ex_wparts : list WPart :=
  [HistoryMeta RootPath 1; History (mkHistory NULL_HASH NULL_HASH NULL_HASH NULL_HASH None);
   DataMeta RootPath 1; Data (mkData NULL_HASH NULL_HASH (Delta_new_fulltext (bstr "tree")));
   HistoryMeta (DirectoryPath (mkMPath [mkElem (bstr "d")])) 0;
   DataMeta (DirectoryPath (mkMPath [mkElem (bstr "d")])) 0; WEnd].

Definition ex_wchunks : list Chunk :=
  match wirepack_pack Tree ex_wparts with Ok cs => cs | _ => [] end.

Lemma wirepack_roundtrip_witness :
  drive 400 (decode_stream (Ready <$> (payload <$> ex_wchunks)) (WirePackUnpacker_new Tree))
  = Some (ex_wparts, Ok tt).
Proof.
  refine (proj2 (wirepack_roundtrip Tree ex_wparts ex_wchunks _ _ _) _ 400 _ _).
  - repeat constructor; discriminate.
  - repeat split; discriminate.
  - reflexivity.
  - reflexivity.
  - vm_compute. lia.
Defined.

(** The exception: an empty root directory is read as the end of the pack. *)
Example wirepack_empty_root :
  match wirepack_pack Tree [HistoryMeta RootPath 0; DataMeta RootPath 0; WEnd] with
  | Ok cs => decode_all (WirePackUnpacker_new Tree) (concat (payload <$> cs))
             = ([WEnd], Err (WirePackIncomplete 10))
  | _ => False
  end.
Proof. vm_compute. reflexivity. Qed.
