(* ===== verification/RevlogManifest.v ===== *)
(** * Manifests of revlogs

    Model of [mercurial/src/manifest/revlog.rs], up to the reading of revlogs:
    a manifest as Mercurial writes it, the names of which may be paths. The
    lines are those of [HgManifest], whose [Details] are the same. *)

From S2P Require Import Prelude Ord Path Hash Bonsai BonsaiDiff HgManifest.

Definition RevlogContent := list (MPath * Details).

(** One line, with a path put before its name. *)
Definition revlog_parse_line (prefix : option MPath) (line : bytes) : outcome manifest_error (MPath * Details) :=
  match find_nul line with
  | None => Err MalformedNoNul
  | Some nil_ =>
      match drop nil_ line with
      | [] => Err MalformedNoHash
      | _ :: hash =>
          name ← map_err InvalidManifestPath (MPath_new (take nil_ line));
          details ← Details_parse hash;
          Ok (match prefix with Some prefix => MPath_join prefix (elements name) | None => name end, details)
      end
  end.

Fixpoint revlog_parse_lines (prefix : option MPath) (lines : list bytes) (files : RevlogContent) : outcome manifest_error RevlogContent :=
  match lines with
  | [] => Ok files
  | [] :: _ => Ok files
  | line :: lines => x ← revlog_parse_line prefix line; revlog_parse_lines prefix lines (btree_insert x.1 x.2 files)
  end.

Definition RevlogContent_parse (data : bytes) : outcome manifest_error RevlogContent := revlog_parse_lines None (split_on nl data) [].
Definition RevlogContent_parse_with_prefix (data : bytes) (prefix : MPath) : outcome manifest_error RevlogContent :=
  revlog_parse_lines (Some prefix) (split_on nl data) [].

Definition Details_generate (d : Details) : bytes := HgNodeHash_to_hex (entryid d) ++ manifest_suffix (flag d).

Definition RevlogContent_generate (files : RevlogContent) : bytes :=
  concat ((fun x => to_vec x.1 ++ [nul] ++ Details_generate x.2 ++ [nl]) <$> files).

(** ** Entries: the name is the last element of the path *)

Record RevlogEntry := mkRevlogEntry { re_path : RepoPath; re_name : option MPathElement; re_details : Details }.

Definition RevlogEntry_new (path : MPath) (details : Details) : outcome path_error RevlogEntry :=
  repo_path ← match flag details with Tree => RepoPath_dir (Ok path) | _ => RepoPath_file (Ok path) end;
  Ok (mkRevlogEntry repo_path (last (elements path)) details).

Definition revlog_lookup (path : MPath) (files : RevlogContent) : outcome path_error (option RevlogEntry) :=
  match btree_get path files with
  | Some details => e ← RevlogEntry_new path details; Ok (Some e)
  | None => Ok None
  end.

Definition revlog_list (files : RevlogContent) : outcome path_error (list RevlogEntry) :=
  collect (fun x => RevlogEntry_new x.1 x.2) files.

(** ** Round trip *)

Definition revlog_ok (files : RevlogContent) : Prop :=
  btree_wf files /\ Forall (fun x => valid_path x.1 /\ valid_node (entryid x.2)) files.

Definition revlog_line (x : MPath * Details) : bytes := to_vec x.1 ++ nul :: Details_generate x.2.

Lemma to_vec_no b p : valid_path p -> b ∈ [nul; nl] -> b ∉ to_vec p.
Proof.
  intros [_ Hv] Hb [->|Hin]%to_vec_bytes; [by apply elem_of_cons in Hb as [?|[?|[]%elem_of_nil]%elem_of_cons]|].
  rewrite Forall_forall in Hv. apply Exists_exists in Hin as (e & He & Hin). apply Hv, valid_elem_iff in He as (_ & Hnul & _ & _ & Hnl).
  apply elem_of_cons in Hb as [->|[->|[]%elem_of_nil]%elem_of_cons]; done.
Qed.

Lemma Details_generate_no_nl d : nl ∉ Details_generate d.
Proof.
  unfold Details_generate. rewrite elem_of_app. intros [Hin|Hin].
  - pose proof (hex_of_chars (sha1_bytes (node_sha1 (entryid d)))) as Hc. rewrite Forall_forall in Hc. by destruct (Hc nl Hin).
  - destruct (flag d) as [[]|]; cbn in Hin; rewrite ?elem_of_cons, ?elem_of_nil in Hin; naive_solver.
Qed.

Lemma revlog_parse_body x : valid_path x.1 -> valid_node (entryid x.2) -> revlog_parse_line None (revlog_line x) = Ok x.
Proof.
  destruct x as [p d]. cbn. intros Hp Hd. unfold revlog_parse_line, revlog_line. cbn [fst snd].
  assert (nul ∉ to_vec p) as Hnul by (apply to_vec_no; [done|by left]).
  rewrite find_nul_app, drop_app_length, take_app_length by done. rewrite MPath_new_to_vec_valid by done. cbn. unfold Details_generate.
  by rewrite Details_parse_text.
Qed.

Lemma revlog_parse_bodies files : Forall (fun x => valid_path x.1 /\ valid_node (entryid x.2)) files -> forall acc,
  revlog_parse_lines None ((revlog_line <$> files) ++ [[]]) acc = Ok (foldl (fun f '(k, v) => btree_insert k v f) acc files).
Proof.
  induction 1 as [|x m [Hn Hd] _ IH]; intros acc; [done|]. cbn [fmap list_fmap app revlog_parse_lines].
  destruct (revlog_line x) as [|b l] eqn:E; [unfold revlog_line in E; by destruct (to_vec x.1)|].
  rewrite <- E, revlog_parse_body, bind_Ok, IH by done. by destruct x.
Qed.

Lemma revlog_content_roundtrip files : revlog_ok files -> RevlogContent_parse (RevlogContent_generate files) = Ok files.
Proof.
  intros [Hwf Hv]. unfold RevlogContent_parse.
  assert (split_on nl (RevlogContent_generate files) = (revlog_line <$> files) ++ [[]]) as ->.
  { unfold RevlogContent_generate. clear Hwf. induction Hv as [|x m [Hp _] _ IH]; [done|]. cbn [fmap list_fmap concat].
    replace (to_vec x.1 ++ [nul] ++ Details_generate x.2 ++ [nl]) with (revlog_line x ++ [nl]) by (unfold revlog_line; rewrite <- app_assoc; done).
    rewrite <- app_assoc. cbn [app]. rewrite split_on_app_sep; [by f_equal|]. unfold revlog_line. rewrite not_elem_of_app, not_elem_of_cons.
    split; [apply to_vec_no; [done|right; by left]|]. split; [done|apply Details_generate_no_nl]. }
  rewrite revlog_parse_bodies by done. f_equal. by apply btree_collect_id.
Qed.

(** ** Manifests of trees

    A manifest with names of one element is read as [HgManifest] reads it. *)

Definition as_path (x : MPathElement * Details) : MPath * Details := (MPath_of_element x.1, x.2).

Lemma valid_as_path (e : MPathElement) : valid_elem e -> valid_path (MPath_of_element e).
Proof. intros He. split; [done|]. cbn. by apply List.Forall_cons. Qed.

Lemma revlog_parse_tree (m : ManifestContent) : content_ok m -> RevlogContent_parse (manifest_text m) = Ok (as_path <$> m).
Proof.
  intros [Hwf Hv]. rewrite <- (revlog_content_roundtrip (as_path <$> m)).
  - f_equal. unfold manifest_text, RevlogContent_generate. rewrite <- list_fmap_compose. f_equal. apply list_fmap_ext. intros i x _. cbn.
    unfold manifest_line, Details_generate. by rewrite <- !app_assoc.
  - split.
    + unfold btree_wf in *. clear Hv. induction Hwf as [|x m _ IH Hx]; [constructor|]. cbn. constructor; [done|]. rewrite Forall_fmap. eapply Forall_impl; [exact Hx|].
      intros y Hy. constructor. done.
    + rewrite Forall_fmap. eapply Forall_impl; [exact Hv|]. intros x [He Hd]. split; [by apply valid_as_path|done].
Qed.

(** Whatever [HgManifest] reads is read here with the same entries. *)
Lemma as_path_insert k v (m : ManifestContent) : btree_insert (MPath_of_element k) v (as_path <$> m) = as_path <$> btree_insert k v m.
Proof.
  induction m as [|[k' v'] m IH]; [done|]. cbn [fmap list_fmap btree_insert as_path fst snd].
  change (cmp (MPath_of_element k) (MPath_of_element k')) with (match cmp k k' with Eq => Eq | c => c end).
  destruct (cmp k k'); [done|done|]. cbn [fmap list_fmap]. by f_equal.
Qed.

Lemma as_path_line line x : parse_line line = Ok x -> revlog_parse_line None line = Ok (as_path x).
Proof.
  unfold parse_line, revlog_parse_line. destruct (find_nul line) as [i|]; [|done]. destruct (drop i line) as [|b hash]; [done|].
  intros (e & He%map_err_Ok & (d & Hd & [= <-])%bind_Ok_inv)%bind_Ok_inv. unfold MPathElement_new in He. apply bind_Ok_inv in He as ([] & Hv & [= <-]).
  assert (MPath_new (take i line) = Ok (MPath_of_element (mkElem (take i line)))) as ->.
  { assert (take i line = to_vec (MPath_of_element (mkElem (take i line)))) as Ht by done. rewrite Ht at 1. apply MPath_new_to_vec_valid.
    by apply valid_as_path. }
  cbn. by rewrite Hd.
Qed.

Lemma as_path_parse data m : ManifestContent_parse data = Ok m -> RevlogContent_parse data = Ok (as_path <$> m).
Proof.
  unfold ManifestContent_parse, RevlogContent_parse. assert (forall acc, parse_lines (split_on nl data) acc = Ok m -> revlog_parse_lines None (split_on nl data) (as_path <$> acc) = Ok (as_path <$> m)) as H; [|by apply (H [])].
  induction (split_on nl data) as [|line lines IH]; intros acc; [by intros [= <-]|]. destruct line as [|b line]; [by intros [= <-]|].
  cbn [parse_lines revlog_parse_lines]. intros (x & Hx & H)%bind_Ok_inv. rewrite (as_path_line _ _ Hx), bind_Ok. cbn [as_path fst snd]. rewrite as_path_insert. by apply IH.
Qed.
