(* ===== verification/TreemanifestParser.v ===== *)
(** * The trees of a push

    Model of [bundle2_resolver/wirepack/src/lib.rs]: the processor that makes
    of the parts of a wirepack one entry for each tree, with what it has seen
    of the tree as its state. The processors of [Wirepack] keep no state; the
    conversion is the same ([mercurial_bundles/src/wirepack/converter.rs]). *)

From S2P Require Import Prelude Ord Path Hash Delta BundleCodec BonsaiDiff HgManifest RevlogManifest.
From S2P Require Wirepack.

#[local] Existing Instance Wirepack.conv_state_eq_dec.

(** ** Processors with a state *)

Class PartProcessor (P D E : Type) := {
  pp_history_meta : P -> RepoPath -> N -> outcome E (P * option D);
  pp_history : P -> Wirepack.HistoryEntry -> outcome E (P * option D);
  pp_data_meta : P -> RepoPath -> N -> outcome E (P * option D);
  pp_data : P -> Wirepack.DataEntry -> outcome E (P * option D);
  pp_end : P -> outcome E (P * option D)
}.

Section converter.
Context {P D E : Type} `{!PartProcessor P D E} (protocol : bundle_error -> E).

Definition process_part (processor : P) (st : Wirepack.conv_state) (p : Wirepack.WPart)
    : outcome E (P * Wirepack.conv_state * option D) :=
  match p with
  | Wirepack.HistoryMeta path entry_count =>
      x ← pp_history_meta processor path entry_count;
      st ← map_err protocol (Wirepack.seen_history_meta st path entry_count);
      Ok (x.1, st, x.2)
  | Wirepack.History e =>
      st ← map_err protocol (Wirepack.seen_history st);
      x ← pp_history processor e;
      Ok (x.1, st, x.2)
  | Wirepack.DataMeta path entry_count =>
      x ← pp_data_meta processor path entry_count;
      st ← map_err protocol (Wirepack.seen_data_meta st path entry_count);
      Ok (x.1, st, x.2)
  | Wirepack.Data e =>
      st ← map_err protocol (Wirepack.seen_data st);
      x ← pp_data processor e;
      Ok (x.1, st, x.2)
  | Wirepack.WEnd =>
      st ← map_err protocol (Wirepack.seen_end st);
      x ← pp_end processor;
      Ok (x.1, st, x.2)
  end.

(** All polls of the stream, over what the polls of its input give. A poll
    looks at the state and then takes parts until something is made of one;
    so an end part of which nothing is made does not end the poll, and the
    next part, if it is there at once, is an error. *)
Fixpoint process_parts (processor : P) (st : Wirepack.conv_state) (polls : list (poll Wirepack.WPart)) : outcome E (list D) :=
  match polls with
  | [] => _ ← map_err protocol (Wirepack.seen_none st); Ok []
  | NotReady :: polls => if bool_decide (st = Wirepack.CEnd) then Ok [] else process_parts processor st polls
  | Ready p :: polls =>
      x ← process_part processor st p;
      match x.2 with
      | Some d => ds ← (if bool_decide (x.1.2 = Wirepack.CEnd) then Ok [] else process_parts x.1.1 x.1.2 polls); Ok (d :: ds)
      | None => process_parts x.1.1 x.1.2 polls
      end
  end.
End converter.

(** A processor without a state. *)
#[export] Instance stateless_processor {P D} `{!Wirepack.WirePackPartProcessor P D} : PartProcessor P D bundle_error := {|
  pp_history_meta p path n := d ← Wirepack.p_history_meta p path n; Ok (p, d);
  pp_history p e := d ← Wirepack.p_history p e; Ok (p, d);
  pp_data_meta p path n := d ← Wirepack.p_data_meta p path n; Ok (p, d);
  pp_data p e := d ← Wirepack.p_data p e; Ok (p, d);
  pp_end p := d ← Wirepack.p_end p; Ok (p, d)
|}.

Lemma map_err_id {E A} (m : outcome E A) : map_err (fun e => e) m = m.
Proof. by destruct m. Qed.

Lemma stateless_part {P D} `{!Wirepack.WirePackPartProcessor P D} (p : P) st part :
  process_part (fun e => e) p st part = (x ← Wirepack.convert_part p st part; Ok (p, x.1, x.2)).
Proof.
  destruct part; cbn; rewrite map_err_id;
    [destruct (Wirepack.p_history_meta _ _ _), (Wirepack.seen_history_meta _ _ _)
    |destruct (Wirepack.seen_history _), (Wirepack.p_history _ _)
    |destruct (Wirepack.p_data_meta _ _ _), (Wirepack.seen_data_meta _ _ _)
    |destruct (Wirepack.seen_data _), (Wirepack.p_data _ _)
    |destruct (Wirepack.seen_end _), (Wirepack.p_end _)]; done.
Qed.

Lemma stateless_convert {P D} `{!Wirepack.WirePackPartProcessor P D} (p : P) parts : forall st, st <> Wirepack.CEnd ->
  process_parts (fun e => e) p st (Ready <$> parts) = Wirepack.convert_from p st parts.
Proof.
  intros st Hst. unfold Wirepack.convert_from. rewrite bool_decide_false by done. clear Hst. revert st.
  induction parts as [|part parts IH]; intros st; cbn [fmap list_fmap process_parts Wirepack.convert_loop]; [by rewrite map_err_id|].
  rewrite stateless_part. destruct (Wirepack.convert_part p st part) as [[st' d]| |]; [|done..].
  rewrite !bind_Ok. cbn [fst snd]. by rewrite IH.
Qed.

(** ** Entries *)

Record HgNodeKey := mkNodeKey { key_path : RepoPath; key_hash : HgNodeHash }.
#[export] Instance HgNodeKey_eq_dec : EqDecision HgNodeKey.
Proof. solve_decision. Defined.

Record TreemanifestEntry := mkTreemanifest {
  te_node_key : HgNodeKey;
  te_data : bytes;
  te_p1 : option HgNodeHash;
  te_p2 : option HgNodeHash;
  te_manifest_content : RevlogContent
}.

Inductive treemanifest_error :=
| PartProtocol (e : bundle_error)
| MalformedTreemanifestPart
| TreeDelta (e : delta_error)
| TreeManifest (e : manifest_error).

Definition TreemanifestEntry_new (node_key : HgNodeKey) (data : bytes) (p1 p2 : HgNodeHash) : outcome treemanifest_error TreemanifestEntry :=
  manifest_content ← map_err TreeManifest (RevlogContent_parse data);
  Ok (mkTreemanifest node_key data (into_option p1) (into_option p2) manifest_content).

(** ** The processor *)

Record TreemanifestPartProcessor := mkTreeProcessor {
  tpp_node : option HgNodeHash;
  tpp_p1 : option HgNodeHash;
  tpp_p2 : option HgNodeHash;
  tpp_path : option RepoPath
}.

Definition TreemanifestPartProcessor_new : TreemanifestPartProcessor := mkTreeProcessor None None None None.

Definition replace_or_fail_if_exists {T} (existing : option T) (new_value : T) : outcome treemanifest_error (option T) :=
  match existing with Some _ => Err MalformedTreemanifestPart | None => Ok (Some new_value) end.

(** [take] leaves nothing in the field. *)
Definition unwrap_field {T} (field : option T) : outcome treemanifest_error T := ok_or field MalformedTreemanifestPart.

Definition tree_history_meta (p : TreemanifestPartProcessor) (path : RepoPath) (entry_count : N)
    : outcome treemanifest_error (TreemanifestPartProcessor * option TreemanifestEntry) :=
  path ← replace_or_fail_if_exists (tpp_path p) path;
  _ ← ensure (entry_count =? 1)%N MalformedTreemanifestPart;
  Ok (mkTreeProcessor (tpp_node p) (tpp_p1 p) (tpp_p2 p) path, None).

Definition tree_history (p : TreemanifestPartProcessor) (entry : Wirepack.HistoryEntry)
    : outcome treemanifest_error (TreemanifestPartProcessor * option TreemanifestEntry) :=
  node ← replace_or_fail_if_exists (tpp_node p) (Wirepack.h_node entry);
  p1 ← replace_or_fail_if_exists (tpp_p1 p) (Wirepack.h_p1 entry);
  p2 ← replace_or_fail_if_exists (tpp_p2 p) (Wirepack.h_p2 entry);
  Ok (mkTreeProcessor node p1 p2 (tpp_path p), None).

Definition tree_data_meta (p : TreemanifestPartProcessor) (path : RepoPath) (entry_count : N)
    : outcome treemanifest_error (TreemanifestPartProcessor * option TreemanifestEntry) :=
  _ ← ensure (bool_decide (Some path = tpp_path p)) MalformedTreemanifestPart;
  _ ← ensure (entry_count =? 1)%N MalformedTreemanifestPart;
  Ok (p, None).

Definition tree_data (p : TreemanifestPartProcessor) (data_entry : Wirepack.DataEntry)
    : outcome treemanifest_error (TreemanifestPartProcessor * option TreemanifestEntry) :=
  _ ← ensure (bool_decide (Wirepack.d_delta_base data_entry = NULL_HASH)) MalformedTreemanifestPart;
  path ← unwrap_field (tpp_path p);
  hash ← unwrap_field (tpp_node p);
  bytes ← map_err TreeDelta (apply [] (Wirepack.d_delta data_entry));
  p1 ← unwrap_field (tpp_p1 p);
  p2 ← unwrap_field (tpp_p2 p);
  entry ← TreemanifestEntry_new (mkNodeKey path hash) bytes p1 p2;
  Ok (mkTreeProcessor None None None None, Some entry).

#[export] Instance tree_processor : PartProcessor TreemanifestPartProcessor TreemanifestEntry treemanifest_error := {|
  pp_history_meta := tree_history_meta;
  pp_history := tree_history;
  pp_data_meta := tree_data_meta;
  pp_data := tree_data;
  pp_end p := Ok (p, None)
|}.

Definition treemanifest_parse (polls : list (poll Wirepack.WPart)) : outcome treemanifest_error (list TreemanifestEntry) :=
  process_parts PartProtocol TreemanifestPartProcessor_new Wirepack.CHistoryMeta polls.

(** ** What is accepted

    One group of four parts for each tree. *)

Record tree_group := mkGroup { tg_path : RepoPath; tg_history : Wirepack.HistoryEntry; tg_data : Wirepack.DataEntry }.

Definition group_parts (g : tree_group) : list Wirepack.WPart :=
  [Wirepack.HistoryMeta (tg_path g) 1; Wirepack.History (tg_history g); Wirepack.DataMeta (tg_path g) 1; Wirepack.Data (tg_data g)].

(** The text of a tree is not a delta, and is a manifest. *)
Definition group_entry (g : tree_group) : outcome treemanifest_error TreemanifestEntry :=
  _ ← ensure (bool_decide (Wirepack.d_delta_base (tg_data g) = NULL_HASH)) MalformedTreemanifestPart;
  data ← map_err TreeDelta (apply [] (Wirepack.d_delta (tg_data g)));
  TreemanifestEntry_new (mkNodeKey (tg_path g) (Wirepack.h_node (tg_history g))) data (Wirepack.h_p1 (tg_history g)) (Wirepack.h_p2 (tg_history g)).

Abbreviation process := (process_parts (D := TreemanifestEntry) PartProtocol).
Abbreviation tpp_new := TreemanifestPartProcessor_new.

(** The next part, after polls that find nothing. *)
Fixpoint next_part (polls : list (poll Wirepack.WPart)) : option (Wirepack.WPart * list (poll Wirepack.WPart)) :=
  match polls with
  | [] => None
  | NotReady :: polls => next_part polls
  | Ready p :: polls => Some (p, polls)
  end.

Definition continue_with (polls : list (poll Wirepack.WPart)) (x : TreemanifestPartProcessor * Wirepack.conv_state * option TreemanifestEntry)
    : outcome treemanifest_error (list TreemanifestEntry) :=
  match x.2 with
  | Some d => ds ← (if bool_decide (x.1.2 = Wirepack.CEnd) then Ok [] else process x.1.1 x.1.2 polls); Ok (d :: ds)
  | None => process x.1.1 x.1.2 polls
  end.

Lemma process_next p st polls : st <> Wirepack.CEnd -> process p st polls =
  match next_part polls with Some (part, polls) => process_part PartProtocol p st part ≫= continue_with polls | None => _ ← map_err PartProtocol (Wirepack.seen_none st); Ok [] end.
Proof.
  intros Hst. induction polls as [|[|part] polls IH]; [done| |done]. cbn [process_parts next_part]. by rewrite bool_decide_false.
Qed.

Lemma process_step p st polls part rest : next_part polls = Some (part, rest) -> st <> Wirepack.CEnd ->
  process p st polls = (process_part PartProtocol p st part ≫= continue_with rest).
Proof. intros Hn Hst. by rewrite process_next, Hn. Qed.

Lemma continue_none p st polls : continue_with polls (p, st, None) = process p st polls.
Proof. done. Qed.

(** The parts that polls give, up to the last of them. *)
Fixpoint reads_parts (parts : list Wirepack.WPart) (polls rest : list (poll Wirepack.WPart)) : Prop :=
  match parts with
  | [] => polls = rest
  | p :: parts => exists mid, next_part polls = Some (p, mid) /\ reads_parts parts mid rest
  end.

Lemma reads_parts_app l1 l2 polls rest : reads_parts (l1 ++ l2) polls rest <-> exists mid, reads_parts l1 polls mid /\ reads_parts l2 mid rest.
Proof.
  revert polls. induction l1 as [|p l1 IH]; intros polls; cbn; [split; [by intros H; exists polls|by intros (? & -> & ?)]|]. setoid_rewrite IH. split.
  - intros (m & Hm & m' & H1 & H2). exists m'. split; [by exists m|done].
  - intros (m' & (m & Hm & H1) & H2). exists m. split; [done|]. by exists m'.
Qed.

(** The parts that are there, without the polls that find nothing. *)
Definition ready_parts (polls : list (poll Wirepack.WPart)) : list Wirepack.WPart := omap (fun p => match p with Ready a => Some a | NotReady => None end) polls.

Lemma next_part_inv polls p rest : next_part polls = Some (p, rest) -> exists before, polls = before ++ Ready p :: rest /\ ready_parts before = [].
Proof.
  induction polls as [|[|q] polls IH]; cbn; [done| |intros [= -> ->]; by exists []]. intros (before & -> & Hb)%IH. exists (NotReady :: before). by split.
Qed.

Lemma reads_parts_ready l p polls rest : reads_parts (l ++ [p]) polls rest <-> exists before, polls = before ++ Ready p :: rest /\ ready_parts before = l.
Proof.
  split.
  - revert polls. induction l as [|q l IH]; intros polls; cbn.
    + intros (mid & Hn & ->). by apply next_part_inv.
    + intros (mid & (b1 & -> & H1)%next_part_inv & (b2 & -> & H2)%IH). exists (b1 ++ Ready q :: b2). rewrite <- app_assoc. split; [done|].
      unfold ready_parts in *. rewrite omap_app, H1. cbn. by rewrite H2.
  - intros (before & -> & <-). induction before as [|[|q] before IH]; [by eexists| |by eexists].
    change (ready_parts (NotReady :: before)) with (ready_parts before). revert IH. by destruct (ready_parts before).
Qed.

(** The four steps of a group. *)
Lemma process_history_meta path n : process_part PartProtocol tpp_new Wirepack.CHistoryMeta (Wirepack.HistoryMeta path n) =
  (_ ← ensure (n =? 1)%N MalformedTreemanifestPart; Ok (mkTreeProcessor None None None (Some path), Wirepack.CHistory path 1, None)).
Proof. cbn. destruct (N.eqb_spec n 1) as [->|]; done. Qed.

Lemma process_history path h : process_part PartProtocol (mkTreeProcessor None None None (Some path)) (Wirepack.CHistory path 1) (Wirepack.History h) =
  Ok (mkTreeProcessor (Some (Wirepack.h_node h)) (Some (Wirepack.h_p1 h)) (Some (Wirepack.h_p2 h)) (Some path), Wirepack.CDataMeta path, None).
Proof. done. Qed.

Lemma process_data_meta p path path' n : tpp_path p = Some path ->
  process_part PartProtocol p (Wirepack.CDataMeta path) (Wirepack.DataMeta path' n) =
  (_ ← ensure (bool_decide (path' = path) && (n =? 1)%N) MalformedTreemanifestPart; Ok (p, Wirepack.CData path 1, None)).
Proof.
  intros Hp. cbn. unfold tree_data_meta. rewrite Hp. destruct (decide (path' = path)) as [->|Hne].
  - rewrite !bool_decide_true by done. by destruct (N.eqb_spec n 1) as [->|].
  - rewrite !bool_decide_false by congruence. done.
Qed.

Lemma process_data path h d :
  process_part PartProtocol (mkTreeProcessor (Some (Wirepack.h_node h)) (Some (Wirepack.h_p1 h)) (Some (Wirepack.h_p2 h)) (Some path)) (Wirepack.CData path 1) (Wirepack.Data d) =
  (e ← group_entry (mkGroup path h d); Ok (tpp_new, Wirepack.CHistoryMeta, Some e)).
Proof.
  cbn -[apply]. unfold tree_data, group_entry. cbn -[apply]. case_bool_decide; [|done]. cbn -[apply]. destruct (apply [] _); [|done..]. cbn.
  unfold TreemanifestEntry_new. by destruct (RevlogContent_parse _).
Qed.

Lemma process_group g polls rest : reads_parts (group_parts g) polls rest -> process tpp_new Wirepack.CHistoryMeta polls =
  (e ← group_entry g; ds ← process tpp_new Wirepack.CHistoryMeta rest; Ok (e :: ds)).
Proof.
  destruct g as [path h d]. unfold group_parts. cbn [reads_parts tg_path tg_history tg_data]. intros (m1 & H1 & m2 & H2 & m3 & H3 & m4 & H4 & ->).
  rewrite (process_step _ _ _ _ _ H1), process_history_meta by done. cbn [N.eqb Pos.eqb ensure]. rewrite !bind_Ok, continue_none.
  rewrite (process_step _ _ _ _ _ H2), process_history, bind_Ok, continue_none by done.
  rewrite (process_step _ _ _ _ _ H3), (process_data_meta _ path) by done. rewrite bool_decide_true by done. cbn [N.eqb Pos.eqb ensure andb]. rewrite !bind_Ok, continue_none.
  rewrite (process_step _ _ _ _ _ H4), process_data by done. by destruct (group_entry _).
Qed.

(** Behind the end part, a part that is there at once is an error. *)
Definition quiet (polls : list (poll Wirepack.WPart)) : Prop := match polls with Ready _ :: _ => False | _ => True end.

Lemma ended polls entries : process tpp_new Wirepack.CEnd polls = Ok entries <-> quiet polls /\ entries = [].
Proof.
  destruct polls as [|[|p] polls]; cbn; [split; [by intros [= <-]|by intros [_ ->]]..|]. split; [|by intros []]. intros H. exfalso.
  apply bind_Ok_inv in H as (x & Hx & _). destruct p; cbn [process_part] in Hx; apply bind_Ok_inv in Hx as (y & Hy & Hx); try done;
    apply bind_Ok_inv in Hx as (z & Hz & _); done.
Qed.

Lemma process_end polls rest : next_part polls = Some (Wirepack.WEnd, rest) -> process tpp_new Wirepack.CHistoryMeta polls = process tpp_new Wirepack.CEnd rest.
Proof. intros Hn. by rewrite (process_step _ _ _ _ _ Hn). Qed.

Lemma data_meta_protocol p st path n k (l : list TreemanifestEntry) : (forall q, st <> Wirepack.CDataMeta q) ->
  (process_part PartProtocol p st (Wirepack.DataMeta path n) ≫= k) = Ok l -> False.
Proof.
  intros Hst (x & Hx & _)%bind_Ok_inv. cbn [process_part] in Hx. apply bind_Ok_inv in Hx as (y & _ & Hx). apply bind_Ok_inv in Hx as (st' & Hx & _).
  apply map_err_Ok in Hx. destruct st; try done. by edestruct Hst.
Qed.

(** The first part decides. *)
Lemma process_start polls entries : process tpp_new Wirepack.CHistoryMeta polls = Ok entries ->
  (exists rest, next_part polls = Some (Wirepack.WEnd, rest) /\ quiet rest /\ entries = []) \/ exists g rest, reads_parts (group_parts g) polls rest.
Proof.
  intros H. pose proof H as H0. rewrite process_next in H by done. destruct (next_part polls) as [[p1 m1]|] eqn:N1; [|done]. destruct p1 as [path n|h|path n|d|].
  2: done.
  2: by apply data_meta_protocol in H.
  2: done.
  2: { left. exists m1. split; [done|]. apply ended. by rewrite <- (process_end _ _ N1). }
  clear H0. right. rewrite process_history_meta in H. destruct (N.eqb_spec n 1) as [->|]; [|done]. cbn [ensure] in H. rewrite !bind_Ok, continue_none, process_next in H by done.
  destruct (next_part m1) as [[p2 m2]|] eqn:N2; [|done]. destruct p2 as [|h|path' n'| |]; [done| |by apply data_meta_protocol in H|done|done].
  rewrite process_history, bind_Ok, continue_none, process_next in H by done.
  destruct (next_part m2) as [[p3 m3]|] eqn:N3; [|done]. destruct p3 as [| |path' n'| |]; [done|done| |done|done].
  rewrite (process_data_meta _ path) in H by done. case_bool_decide as E; [|done]. subst path'. destruct (N.eqb_spec n' 1) as [->|]; [|done]. cbn [ensure andb] in H. rewrite !bind_Ok, continue_none, process_next in H by done.
  destruct (next_part m3) as [[p4 m4]|] eqn:N4; [|done]. destruct p4 as [|h'|path' n'|d|]; [done|done|by apply data_meta_protocol in H| |done].
  exists (mkGroup path h d), m4. cbn. exists m1. split; [done|]. exists m2. split; [done|]. exists m3. split; [done|]. by exists m4.
Qed.

Lemma next_part_length polls p rest : next_part polls = Some (p, rest) -> length rest < length polls.
Proof. intros (b & -> & _)%next_part_inv. rewrite length_app. cbn. lia. Qed.

Lemma reads_parts_length l polls rest : l <> [] -> reads_parts l polls rest -> length rest < length polls.
Proof.
  revert polls. induction l as [|p [|q l] IH]; intros polls Hl; [done| |]; intros (mid & Hn%next_part_length & H).
  - cbn in H. by subst.
  - apply IH in H; [lia|done].
Qed.

Definition all_parts (groups : list tree_group) : list Wirepack.WPart := mjoin (group_parts <$> groups) ++ [Wirepack.WEnd].

Lemma all_parts_cons g groups : all_parts (g :: groups) = group_parts g ++ all_parts groups.
Proof. unfold all_parts. change (mjoin (group_parts <$> g :: groups)) with (group_parts g ++ mjoin (group_parts <$> groups)). by rewrite <- app_assoc. Qed.

Lemma treemanifest_parse_groups polls entries : treemanifest_parse polls = Ok entries <->
  exists groups rest, reads_parts (all_parts groups) polls rest /\ quiet rest /\ Forall2 (fun g e => group_entry g = Ok e) groups entries.
Proof.
  unfold treemanifest_parse. split.
  - remember (length polls) as n eqn:Hn. revert polls entries Hn. induction n as [n IH] using lt_wf_ind. intros polls entries -> H.
    destruct (process_start _ _ H) as [(rest & Hn & Hq & ->)|(g & rest & Hg)].
    { exists [], rest. split; [|done]. by exists rest. }
    rewrite (process_group _ _ _ Hg) in H. apply bind_Ok_inv in H as (e & He & (ds & Hds & [= <-])%bind_Ok_inv).
    destruct (IH (length rest)) with (polls := rest) (entries := ds) as (groups & rest' & Hr & Hq & Hall); [by apply (reads_parts_length (group_parts g))|done|done|].
    exists (g :: groups), rest'. rewrite all_parts_cons. split; [apply reads_parts_app; by exists rest|]. split; [done|]. by constructor.
  - intros (groups & rest & Hr & Hq & Hall). revert polls Hr. induction Hall as [|g e groups entries Hg _ IH]; intros polls Hr.
    + destruct Hr as (mid & Hn & ->). rewrite (process_end _ _ Hn). by apply ended.
    + rewrite all_parts_cons in Hr. apply reads_parts_app in Hr as (mid & H1 & H2). by rewrite (process_group _ _ _ H1), Hg, bind_Ok, (IH _ H2).
Qed.

Lemma parsed_content polls entries : treemanifest_parse polls = Ok entries -> Forall (fun e => RevlogContent_parse (te_data e) = Ok (te_manifest_content e)) entries.
Proof.
  intros (groups & rest & _ & _ & Hall)%treemanifest_parse_groups. induction Hall as [|g e groups entries Hg _ IH]; constructor; [|done].
  unfold group_entry, TreemanifestEntry_new in Hg. apply bind_Ok_inv in Hg as (? & _ & Hg). apply bind_Ok_inv in Hg as (data & _ & Hg).
  by apply bind_Ok_inv in Hg as (m & Hm%map_err_Ok & [= <-]).
Qed.

(** C14. The stream of trees gives an entry for each tree, in order, exactly if
    the parts that the polls give, up to the end part, are groups of a history
    entry and a data entry of one path, with a text that is no delta and is a
    manifest, and no other part is there at once after the end part. *)
Theorem treemanifest_parse_exact polls entries : treemanifest_parse polls = Ok entries <->
  exists before rest groups, polls = before ++ Ready Wirepack.WEnd :: rest /\ ready_parts before = mjoin (group_parts <$> groups) /\
    (rest = [] \/ exists rest', rest = NotReady :: rest') /\ Forall2 (fun g e => group_entry g = Ok e) groups entries.
Proof.
  assert (forall rest, quiet rest <-> (rest = [] \/ exists rest', rest = NotReady :: rest')) as Hquiet.
  { intros [|[|p] rest]; cbn; [by split; [left|]|by split; [right; exists rest|]|split; [done|by intros [|[]]]]. }
  rewrite treemanifest_parse_groups. setoid_rewrite Hquiet. unfold all_parts. setoid_rewrite reads_parts_ready. split.
  - intros (groups & rest & (before & -> & Hb) & Hq & Hall). by exists before, rest, groups.
  - intros (before & rest & groups & -> & Hb & Hq & Hall). exists groups, rest. split; [by exists before|done].
Qed.

(** A second end part, at once or after a poll that finds nothing. *)
Example part_after_tree_end : is_ok (treemanifest_parse [Ready Wirepack.WEnd; Ready Wirepack.WEnd]) = false /\
  treemanifest_parse [Ready Wirepack.WEnd; NotReady; Ready Wirepack.WEnd] = Ok [].
Proof. by vm_compute. Qed.

(** The trees that a server sends ([Parts.treepack_wparts]) are read back. *)
Lemma fulltext_applies text : apply [] (Delta_new_fulltext text) = Ok text.
Proof.
  unfold apply, Delta_new_fulltext. cbn. unfold lenN at 1. destruct text as [|b text]; cbn; [done|]. change (0 <? lenN [])%N with false. change (lenN [] <? 0)%N with false.
  change (0 <? N.of_nat (S (length text)))%N with true. cbn. by rewrite !app_nil_r.
Qed.

Lemma fulltext_entry path h node text m : RevlogContent_parse text = Ok m ->
  group_entry (mkGroup path h (Wirepack.mkData node NULL_HASH (Delta_new_fulltext text))) =
  Ok (mkTreemanifest (mkNodeKey path (Wirepack.h_node h)) text (into_option (Wirepack.h_p1 h)) (into_option (Wirepack.h_p2 h)) m).
Proof.
  intros Hm. unfold group_entry. cbn [tg_data tg_path tg_history Wirepack.d_delta Wirepack.d_delta_base]. rewrite bool_decide_true by done. cbn [ensure].
  rewrite bind_Ok, fulltext_applies. cbn [map_err]. rewrite bind_Ok. unfold TreemanifestEntry_new. by rewrite Hm.
Qed.
