(* ===== verification/PushChangegroup.v ===== *)
(** * The changegroup of a push

    Model of [bundle2_resolver/src/changegroup/split.rs], [changeset.rs] and
    [filelog.rs] (with [mercurial_types/src/flags.rs]): the parts of a
    changegroup are split into changesets and file revisions, and their deltas
    are applied. Delta bases are looked up among what was decoded before, and
    then in the repository as it was before the push. *)

From S2P Require ChangegroupRoundtrip.
From S2P Require Import Prelude Ord Path Hash Bonsai BonsaiDiff Delta BundleCodec Changegroup HgManifest HgFile HgUpload HgChangeset TreemanifestParser.

(** ** Streams that may fail *)

Inductive stream (E A : Type) :=
| Ended (r : outcome E unit)
| Next (a : A) (rest : stream E A).
Arguments Ended {E A} r.
Arguments Next {E A} a rest.

Definition failed {E A} (e : E) : stream E A := Ended (Err e).

(** [Stream::collect]. *)
Fixpoint collect_stream {E A} (s : stream E A) : outcome E (list A) :=
  match s with
  | Ended r => _ ← r; Ok []
  | Next a s => l ← collect_stream s; Ok (a :: l)
  end.

Fixpoint stream_of {E A} (l : list A) : stream E A := match l with [] => Ended (Ok tt) | a :: l => Next a (stream_of l) end.

(** [Stream::and_then], one item after the other, with a state. *)
Fixpoint and_then {E S A B} (f : S -> A -> outcome E (S * B)) (state : S) (s : stream E A) : stream E B :=
  match s with
  | Ended r => Ended r
  | Next a s =>
      match f state a with
      | Ok (state, b) => Next b (and_then f state s)
      | Err e => failed e
      | Panic => Ended Panic
      end
  end.

(** ** Splitting *)

Inductive push_error :=
| InBundle (e : bundle_error)
| MoreThanOneEnd
| NoEnd
| ExpectedChangeset (found : Part)
| RemainderCanceled
| ExpectedManifestEnd (found : Part)
| MismatchedPath (seen path : MPath)
| ExpectedFilelog (found : Part)
| ChangesetDelted (base : HgNodeHash)
| NotLinkedToItself (node linknode : HgNodeHash)
| DeltaError (e : delta_error)
| ChangesetError (e : changeset_error)
| UnknownRevFlags
| RepoError (e : mf_error)
| AliasMissing
| LfsError (e : file_error).

Record FilelogDeltaed := mkFilelogDeltaed { fd_path : MPath; fd_chunk : CgDeltaChunk }.

Fixpoint check_end (seen_end : bool) (cg2s : stream push_error Part) : stream push_error Part :=
  match cg2s with
  | Ended (Ok _) => if seen_end then Ended (Ok tt) else failed NoEnd
  | Ended r => Ended r
  | Next End_ cg2s => if seen_end then failed MoreThanOneEnd else Next End_ (check_end true cg2s)
  | Next part cg2s => Next part (check_end seen_end cg2s)
  end.

(** [take_while]: the part that ends the changesets is dropped. *)
Fixpoint take_changesets (cg2s : stream push_error Part) : stream push_error CgDeltaChunk :=
  match cg2s with
  | Ended r => Ended r
  | Next (CgChunk Changeset chunk) cg2s => Next chunk (take_changesets cg2s)
  | Next (SectionEnd Changeset) _ => Ended (Ok tt)
  | Next bad _ => failed (ExpectedChangeset bad)
  end.

(** What is left when the changesets have ended. *)
Fixpoint return_remainder (cg2s : stream push_error Part) : stream push_error Part :=
  match cg2s with
  | Ended (Ok _) => Ended (Ok tt)
  | Ended (Err _) => failed RemainderCanceled
  | Ended Panic => Ended Panic
  | Next (CgChunk Changeset _) cg2s => return_remainder cg2s
  | Next (SectionEnd Changeset) cg2s => cg2s
  | Next _ _ => failed RemainderCanceled
  end.

Definition skip_manifests (cg2s : stream push_error Part) : stream push_error Part :=
  match cg2s with
  | Ended r => Ended r
  | Next (SectionEnd Manifest) cg2s => cg2s
  | Next bad _ => failed (ExpectedManifestEnd bad)
  end.

(** The path of a part of a file. *)
Definition part_path (part : Part) : option MPath :=
  match part with CgChunk (Filelog path) _ | SectionEnd (Filelog path) => Some path | _ => None end.

Fixpoint take_filelogs (seen_path : option MPath) (cg2s : stream push_error Part) : stream push_error FilelogDeltaed :=
  match cg2s with
  | Ended r => Ended r
  | Next part cg2s =>
      match seen_path, part_path part with
      | Some seen, Some path =>
          if decide (seen = path) then
            match part with
            | CgChunk _ chunk => Next (mkFilelogDeltaed path chunk) (take_filelogs (Some path) cg2s)
            | _ => take_filelogs None cg2s
            end
          else failed (MismatchedPath seen path)
      | _, _ =>
          match part with
          | CgChunk (Filelog path) chunk => Next (mkFilelogDeltaed path chunk) (take_filelogs (Some path) cg2s)
          | SectionEnd Treemanifest => take_filelogs seen_path cg2s
          | End_ => if bool_decide (seen_path = None) then take_filelogs None cg2s else failed (ExpectedFilelog part)
          | bad => failed (ExpectedFilelog bad)
          end
      end
  end.

Definition split_changegroup (cg2s : stream push_error Part) : stream push_error CgDeltaChunk * stream push_error FilelogDeltaed :=
  let cg2s := check_end false cg2s in
  (take_changesets cg2s, take_filelogs None (skip_manifests (return_remainder cg2s))).

(** ** Changesets *)

Section convert.
Context `{Chrono}.

Definition revlog_changeset (chunk : CgDeltaChunk) : outcome push_error (HgNodeHash * RevlogChangeset) :=
  _ ← ensure (bool_decide (cg_base chunk = NULL_HASH)) (ChangesetDelted (cg_base chunk));
  _ ← ensure (bool_decide (cg_node chunk = cg_linknode chunk)) (NotLinkedToItself (cg_node chunk) (cg_linknode chunk));
  text ← map_err DeltaError (apply [] (cg_delta chunk));
  cs ← map_err ChangesetError (RevlogChangeset_parse text (into_option (cg_p1 chunk)) (into_option (cg_p2 chunk)));
  Ok (cg_node chunk, cs).

Definition convert_to_revlog_changesets : stream push_error CgDeltaChunk -> stream push_error (HgNodeHash * RevlogChangeset) :=
  and_then (fun _ chunk => x ← revlog_changeset chunk; Ok (tt, x)) tt.
End convert.

(** ** Files *)

Inductive FilelogData := FilelogRawBytes (data : bytes) | LfsMetaData (meta : ContentBlobMeta).

Record Filelog_ := mkFilelog {
  fl_node_key : HgNodeKey;
  fl_p1 : option HgNodeHash;
  fl_p2 : option HgNodeHash;
  fl_linknode : HgNodeHash;
  fl_data : FilelogData;
  fl_flags : N
}.

Definition REVIDX_DEFAULT_FLAGS : N := 0.
Definition REVIDX_EXTSTORED : N := 2 ^ 13.
Definition REVIDX_ELLIPSIS : N := 2 ^ 14.
Definition REVIDX_ISCENSORED : N := 2 ^ 15.

(** [from_bits]: no other bit is set. *)
Definition parse_rev_flags (flags : option N) : outcome push_error N :=
  match flags with
  | Some value =>
      if (N.land value (N.lor REVIDX_EXTSTORED (N.lor REVIDX_ELLIPSIS REVIDX_ISCENSORED)) =? value)%N then Ok value else Err UnknownRevFlags
  | None => Ok REVIDX_DEFAULT_FLAGS
  end.

#[export] Instance Sha256_eq_dec : EqDecision Sha256.
Proof. solve_decision. Defined.

(** The cache of decoded texts. *)
Definition DeltaCache := list (HgNodeHash * bytes).

Section filelogs.
Context (repo : repo_state).

Definition get_raw_hg_content (base : HgNodeHash) : outcome push_error bytes := map_err RepoError (fetch_raw_filenode_bytes base repo).

Definition delta_cache_decode (bytes_cache : DeltaCache) (node : HgNodeHash) (base : option HgNodeHash) (delta : Delta)
    : outcome push_error (DeltaCache * bytes) :=
  match hm_get node bytes_cache with
  | Some bytes => Ok (bytes_cache, bytes)
  | None =>
      bytes ← match base with
              | None => map_err DeltaError (apply [] delta)
              | Some base =>
                  text ← match hm_get base bytes_cache with Some bytes => Ok bytes | None => get_raw_hg_content base end;
                  map_err DeltaError (apply text delta)
              end;
      Ok ((node, bytes) :: bytes_cache, bytes)
  end.

Definition generate_lfs_meta_data (data : bytes) : outcome push_error ContentBlobMeta :=
  lfs_content ← map_err LfsError (get_lfs_content (data_only data));
  content_id ← ok_or (hm_get (oid lfs_content) (aliases repo)) AliasMissing;
  Ok (mkMeta content_id (HgFile.copy_from lfs_content)).

Definition get_filelog_data (data : bytes) (flags : N) : outcome push_error FilelogData :=
  if (N.land flags REVIDX_EXTSTORED =? REVIDX_EXTSTORED)%N then LfsMetaData <$> generate_lfs_meta_data data
  else Ok (FilelogRawBytes data).

Definition decode_filelog (bytes_cache : DeltaCache) (f : FilelogDeltaed) : outcome push_error (DeltaCache * Filelog_) :=
  let chunk := fd_chunk f in
  x ← delta_cache_decode bytes_cache (cg_node chunk) (into_option (cg_base chunk)) (cg_delta chunk);
  flags ← parse_rev_flags (cg_flags chunk);
  data ← get_filelog_data x.2 flags;
  Ok (x.1, mkFilelog (mkNodeKey (FilePath (fd_path f)) (cg_node chunk)) (into_option (cg_p1 chunk)) (into_option (cg_p2 chunk)) (cg_linknode chunk) data flags).

Definition convert_to_revlog_filelog : stream push_error FilelogDeltaed -> stream push_error Filelog_ := and_then decode_filelog [].
End filelogs.

(** ** What is split off *)

Definition changeset_chunk (p : Part) : option CgDeltaChunk := match p with CgChunk Changeset c => Some c | _ => None end.
Definition filelog_chunk (p : Part) : option FilelogDeltaed := match p with CgChunk (Filelog f) c => Some (mkFilelogDeltaed f c) | _ => None end.

(** Mercurial's flat manifests are not sent. *)
Definition no_manifest (p : Part) : bool := match p with CgChunk Manifest _ => false | _ => true end.

Lemma collect_Next {E A} (a : A) (s : stream E A) l : collect_stream (Next a s) = Ok l <-> exists l', l = a :: l' /\ collect_stream s = Ok l'.
Proof.
  cbn. split.
  - intros (l' & Hl & [= <-])%bind_Ok_inv. by exists l'.
  - intros (l' & -> & Hl). by rewrite Hl.
Qed.

Lemma collect_ended {E A} (r : outcome E unit) (l : list A) : collect_stream (Ended r) = Ok l <-> r = Ok tt /\ l = [].
Proof. cbn. destruct r as [[]| |]; cbn; naive_solver. Qed.

(** A well-formed changegroup has one end part, at its end. *)
Lemma check_end_wf v st last ps : ChangegroupRoundtrip.cg_wf v st last ps -> check_end false (stream_of ps) = stream_of ps.
Proof. induction 1; cbn; congruence. Qed.

Lemma take_filelogs_wf v st last ps : ChangegroupRoundtrip.cg_wf v st last ps ->
  match st with
  | StFilename | StTreemanifest => collect_stream (take_filelogs None (stream_of ps)) = Ok (omap filelog_chunk ps)
  | StFilelog f => collect_stream (take_filelogs (Some f) (stream_of ps)) = Ok (omap filelog_chunk ps)
  | _ => True
  end.
Proof.
  induction 1 as [| | | | | last f c ps ? ? ? ? _ IH|f c ps ? ? _ IH| |]; try done; cbn in *; rewrite ?decide_True by done; [| |done].
  - cbn. by rewrite IH.
  - cbn. by rewrite IH.
Qed.

Lemma split_wf v st last ps : ChangegroupRoundtrip.cg_wf v st last ps -> forallb no_manifest ps = true ->
  match st with
  | StChangeset => collect_stream (take_changesets (stream_of ps)) = Ok (omap changeset_chunk ps) /\
      collect_stream (take_filelogs None (skip_manifests (return_remainder (stream_of ps)))) = Ok (omap filelog_chunk ps)
  | StManifest => collect_stream (take_filelogs None (skip_manifests (stream_of ps))) = Ok (omap filelog_chunk ps) /\ omap changeset_chunk ps = []
  | _ => omap changeset_chunk ps = []
  end.
Proof.
  induction 1 as [c ps ? ? _ IH|ps _ IH|last c ps|last ps Hw IH| | | | |]; cbn; try done.
  - intros Hm. destruct (IH Hm) as [H1 H2]. by rewrite H1.
  - intros Hm. destruct (IH Hm) as [H1 H2]. by rewrite H2.
  - intros Hm. split; [|by destruct v; apply IH]. pose proof (take_filelogs_wf _ _ _ _ Hw) as Ht. by destruct v.
Qed.

(** Whatever is split is split in order and without loss. *)
Lemma take_filelogs_sound e ps : forall seen fs, collect_stream (take_filelogs seen (check_end e (stream_of ps))) = Ok fs ->
  fs = omap filelog_chunk ps /\ omap changeset_chunk ps = [] /\ forallb no_manifest ps = true.
Proof.
  revert e. induction ps as [|p ps IH]; intros e seen fs; [cbn; destruct e; [by intros [= <-]|done]|].
  destruct p as [[| | |f] c|[| | |f]|]; cbn -[collect_stream]; try (by destruct seen).
  - destruct seen as [g|]; [case_decide; [subst|done]|]; rewrite collect_Next; intros (l' & -> & Hl'); destruct (IH _ _ _ Hl') as (-> & ? & ?); done.
  - destruct seen as [g|]; intros Hl; by apply IH in Hl.
  - destruct seen as [g|]; [case_decide; [subst|done]|done]. intros Hl. by apply IH in Hl.
  - destruct e; cbn; [done|]. destruct seen as [g|]; cbn; [done|]. intros Hl. by apply IH in Hl.
Qed.

Lemma split_sound ps cs fs : let '(c, f) := split_changegroup (stream_of ps) in collect_stream c = Ok cs -> collect_stream f = Ok fs ->
  cs = omap changeset_chunk ps /\ fs = omap filelog_chunk ps /\ forallb no_manifest ps = true.
Proof.
  unfold split_changegroup. revert cs fs. induction ps as [|p ps IH]; intros cs fs; [done|].
  destruct p as [[| | |f] c|[| | |f]|]; cbn -[collect_stream]; try done.
  - rewrite collect_Next. intros (l' & -> & Hl') Hf. destruct (IH _ _ Hl' Hf) as (-> & -> & ?). done.
  - intros [= <-]. destruct ps as [|p ps]; [done|]. destruct p as [[| | |f] c|[| | |f]|]; cbn -[collect_stream]; try done.
    intros (-> & -> & ?)%take_filelogs_sound. done.
Qed.

(** ** What the deltas stand for *)

(** The file texts of a push: every delta gives the text of its node on the
    text of its base, which is empty, or of an earlier node, or in the
    repository. *)
Fixpoint deltas_of (repo : repo_state) (text : HgNodeHash -> bytes) (seen : list HgNodeHash) (l : list FilelogDeltaed) : Prop :=
  match l with
  | [] => True
  | f :: l =>
      let chunk := fd_chunk f in
      match into_option (cg_base chunk) with
      | None => apply [] (cg_delta chunk) = Ok (text (cg_node chunk))
      | Some base => apply (text base) (cg_delta chunk) = Ok (text (cg_node chunk)) /\
          (base ∈ seen \/ fetch_raw_filenode_bytes base repo = Ok (text base))
      end /\ deltas_of repo text (cg_node chunk :: seen) l
  end.

(** Flags are some of the bits 13 (stored elsewhere), 14 and 15. *)
Definition known_flags (v : N) : Prop := forall i, N.testbit v i = true -> (13 <= i <= 15)%N.

(** What the text of a revision stands for: itself, or, if it is a pointer to
    content that is stored elsewhere, that content, which the repository must
    know under the alias, and what the pointer says of copies. *)
Definition stands_for (repo : repo_state) (text : bytes) (flags : N) (data : FilelogData) : Prop :=
  if N.testbit flags 13 then exists l content_id, get_lfs_content (data_only text) = Ok l /\ hm_get (oid l) (aliases repo) = Some content_id /\
    data = LfsMetaData (mkMeta content_id (HgFile.copy_from l))
  else data = FilelogRawBytes text.

(** The revision that is meant by a chunk. *)
Definition filelog_meant (repo : repo_state) (text : HgNodeHash -> bytes) (f : FilelogDeltaed) (x : Filelog_) : Prop :=
  let chunk := fd_chunk f in
  let flags := default 0%N (cg_flags chunk) in
  exists data, known_flags flags /\ stands_for repo (text (cg_node chunk)) flags data /\
    x = mkFilelog (mkNodeKey (FilePath (fd_path f)) (cg_node chunk)) (into_option (cg_p1 chunk)) (into_option (cg_p2 chunk)) (cg_linknode chunk) data flags.

Lemma parse_known flags : known_flags (default 0%N flags) -> parse_rev_flags flags = Ok (default 0%N flags).
Proof.
  destruct flags as [v|]; [|done]. cbn. intros Hv. assert (N.land v (N.lor REVIDX_EXTSTORED (N.lor REVIDX_ELLIPSIS REVIDX_ISCENSORED)) = v) as ->; [|by rewrite N.eqb_refl].
  apply N.bits_inj. intros i. rewrite N.land_spec. destruct (N.testbit v i) eqn:E; [|done]. specialize (Hv i E).
  assert (i = 13 \/ i = 14 \/ i = 15)%N as [->|[->| ->]] by lia; reflexivity.
Qed.

Lemma extstored_bit flags : (N.land flags REVIDX_EXTSTORED =? REVIDX_EXTSTORED)%N = N.testbit flags 13.
Proof.
  unfold REVIDX_EXTSTORED. apply eq_iff_eq_true. rewrite N.eqb_eq. split.
  - intros H. apply (f_equal (fun x => N.testbit x 13)) in H. rewrite N.land_spec, N.pow2_bits_true, andb_true_r in H. exact H.
  - intros H. apply N.bits_inj. intros i. rewrite N.land_spec. destruct (N.eqb_spec 13 i) as [<-|Hne]; [by rewrite H|]. rewrite N.pow2_bits_false by done. by rewrite andb_false_r.
Qed.

Lemma data_read repo text flags data : stands_for repo text flags data -> get_filelog_data repo text flags = Ok data.
Proof.
  unfold stands_for, get_filelog_data, generate_lfs_meta_data. rewrite extstored_bit. destruct (N.testbit flags 13); [|by intros ->].
  intros (l & id & -> & Hid & ->). cbn [map_err]. rewrite bind_Ok, Hid. done.
Qed.

(** The cache holds the texts of what was decoded. *)
Definition cache_ok (text : HgNodeHash -> bytes) (seen : list HgNodeHash) (c : DeltaCache) : Prop :=
  forall node, match hm_get node c with Some b => b = text node | None => node ∉ seen end.

Lemma decode_ok repo text seen c f l : cache_ok text seen c -> deltas_of repo text seen (f :: l) ->
  exists c', delta_cache_decode repo c (cg_node (fd_chunk f)) (into_option (cg_base (fd_chunk f))) (cg_delta (fd_chunk f)) = Ok (c', text (cg_node (fd_chunk f))) /\
    cache_ok text (cg_node (fd_chunk f) :: seen) c'.
Proof.
  intros Hc [Hf _]. unfold delta_cache_decode. set (node := cg_node (fd_chunk f)) in *. pose proof (Hc node) as Hnode. destruct (hm_get node c) as [b|] eqn:Eg.
  - subst b. exists c. split; [done|]. intros n. specialize (Hc n). destruct (hm_get n c) eqn:En; [done|]. intros [->|?]%elem_of_cons; [by rewrite Eg in En|done].
  - exists ((node, text node) :: c). split.
    + destruct (into_option _) as [base|]; [|by rewrite Hf]. destruct Hf as [Hf Hbase]. pose proof (Hc base) as Hcb.
      destruct (hm_get base c) as [b|] eqn:Eb; [subst b; cbn -[apply]; by rewrite Hf|]. destruct Hbase as [?|Hr]; [done|].
      unfold get_raw_hg_content. rewrite Hr. cbn -[apply]. by rewrite Hf.
    + intros n. cbn. case_decide as E; [by subst|]. specialize (Hc n). destruct (hm_get n c); [done|]. intros [?|?]%elem_of_cons; done.
Qed.

Lemma filelogs_ok repo text l logs : Forall2 (filelog_meant repo text) l logs -> forall seen c, cache_ok text seen c -> deltas_of repo text seen l ->
  collect_stream (and_then (decode_filelog repo) c (stream_of l)) = Ok logs.
Proof.
  induction 1 as [|f x l logs (data & Hf & Hdata & ->) _ IH]; intros seen c Hc Hd; [done|]. destruct (decode_ok _ _ _ _ _ _ Hc Hd) as (c' & Ec & Hc').
  cbn [stream_of and_then]. unfold decode_filelog at 1. rewrite Ec, bind_Ok. cbn [fst snd]. rewrite (parse_known _ Hf), bind_Ok, (data_read _ _ _ _ Hdata), bind_Ok.
  cbn [collect_stream]. destruct Hd as [_ Hd]. by rewrite (IH _ _ Hc' Hd).
Qed.

(** A stream that can be collected is its items. *)
Lemma collect_stream_of {E A} (s : stream E A) l : collect_stream s = Ok l -> s = stream_of l.
Proof.
  revert l. induction s as [r|a s IH]; intros l.
  - by intros [-> ->]%collect_ended.
  - intros (l' & -> & Hl')%collect_Next. cbn. f_equal. by apply IH.
Qed.

Section pushed.
Context `{ChronoLaws}.

(** The chunk of a changeset, whose flags are not looked at. *)
Definition revlog_chunk (flags : option N) (x : HgNodeHash * RevlogChangeset) : CgDeltaChunk :=
  mkCgDelta x.1 (default NULL_HASH (p1 x.2)) (default NULL_HASH (p2 x.2)) NULL_HASH x.1 (Delta_new_fulltext (serialize_cs x.2)) flags.

Definition parents_ok (cs : RevlogChangeset) : Prop := p1 cs <> Some NULL_HASH /\ p2 cs <> Some NULL_HASH.

Lemma into_option_default p : p <> Some NULL_HASH -> into_option (default NULL_HASH p) = p.
Proof. destruct p as [h|]; [|done]. cbn. unfold into_option. intros Hh. rewrite decide_False; [done|congruence]. Qed.

Definition is_revlog_chunk (c : CgDeltaChunk) (x : HgNodeHash * RevlogChangeset) : Prop := exists flags, c = revlog_chunk flags x.

Lemma changesets_ok chunks css : (exists t, from_timestamp 0 0 = Ok t) -> Forall2 is_revlog_chunk chunks css -> Forall (fun x => valid_cs x.2 /\ parents_ok x.2) css ->
  collect_stream (convert_to_revlog_changesets (stream_of chunks)) = Ok css.
Proof.
  intros Ht. unfold convert_to_revlog_changesets. induction 1 as [|c x chunks css [flags ->] _ IH]; [done|]. intros [[Hv [Hp1 Hp2]] Hcss]%Forall_cons.
  cbn [stream_of and_then]. assert (revlog_changeset (revlog_chunk flags x) = Ok x) as ->.
  { unfold revlog_changeset. cbn [revlog_chunk cg_base cg_node cg_linknode cg_delta cg_p1 cg_p2]. rewrite !bool_decide_true by done. cbn [ensure].
    rewrite !bind_Ok, fulltext_applies. cbn [map_err]. rewrite bind_Ok, !into_option_default by done. rewrite parse_serialize by done. by destruct x. }
  rewrite bind_Ok. cbn [collect_stream]. by rewrite IH.
Qed.

(** C13. A changegroup that a client sends is understood as it was meant. If its
    parts are well-formed and have no flat manifests, and its changesets are
    sent whole with fields that their text can hold ([valid_cs]), these are
    read; and if each delta of a file applies to an empty text, to that of an
    earlier chunk, or to one in the repository, and flags are known, the
    revision read of each chunk has the text for which its chain of deltas
    stands, or, for a pointer to content that the repository knows, that
    content. *)
Theorem changegroup_resolved v parts css text repo logs : ChangegroupRoundtrip.cg_wf v StChangeset Changeset parts -> forallb no_manifest parts = true ->
  Forall2 is_revlog_chunk (omap changeset_chunk parts) css -> Forall (fun x => valid_cs x.2 /\ parents_ok x.2) css -> (exists t, from_timestamp 0 0 = Ok t) ->
  deltas_of repo text [] (omap filelog_chunk parts) -> Forall2 (filelog_meant repo text) (omap filelog_chunk parts) logs ->
  let '(c, f) := split_changegroup (stream_of parts) in
  collect_stream (convert_to_revlog_changesets c) = Ok css /\ collect_stream (convert_to_revlog_filelog repo f) = Ok logs.
Proof.
  intros Hw Hm Hcs Hv Ht Hd Hf. unfold split_changegroup. rewrite (check_end_wf _ _ _ _ Hw). destruct (split_wf _ _ _ _ Hw Hm) as [H1 H2].
  apply collect_stream_of in H1 as ->. apply collect_stream_of in H2 as ->. split; [by apply changesets_ok|].
  eapply filelogs_ok; [exact Hf| |exact Hd]. intros node. cbn. apply not_elem_of_nil.
Qed.
End pushed.

(** ** Example: a changeset and three revisions of a file

    The second is a delta, the third a pointer. *)

Section example.
#[local] Existing Instance ex_chrono.
#[local] Existing Instance ex_chrono_laws.

Definition push_node (b : byte) : HgNodeHash := mkNode (mkSha1 (replicate 20 b)).
Definition push_pointer : LFSContent := mkLfs GIT_VERSION (mkSha256 (replicate 32 x07)) 3 None.
Definition push_text (h : HgNodeHash) : bytes :=
  if decide (h = push_node x11) then bstr "one" else if decide (h = push_node x12) then bstr "one, two" else LFSContent_into_bytes push_pointer.
Definition push_file : MPath := mkMPath [mkElem (bstr "dir"); mkElem (bstr "file")].
Definition push_empty : repo_state := mkState [] [] [] [] [].
Definition push_content_id : ContentId := mkContentId (mkBlake2 (replicate 32 x08)).
Definition push_repo : repo_state := mkState [] [] [] [(mkSha256 (replicate 32 x07), push_content_id)] [].

Definition push_files : list FilelogDeltaed :=
  [mkFilelogDeltaed push_file (mkCgDelta (push_node x11) NULL_HASH NULL_HASH NULL_HASH (push_node x10) (mkDelta [mkFragment 0 0 (bstr "one")]) (Some 0%N));
   mkFilelogDeltaed push_file (mkCgDelta (push_node x12) (push_node x11) NULL_HASH (push_node x11) (push_node x10) (mkDelta [mkFragment 3 3 (bstr ", two")]) (Some 0%N));
   mkFilelogDeltaed push_file (mkCgDelta (push_node x13) (push_node x12) NULL_HASH NULL_HASH (push_node x10) (Delta_new_fulltext (LFSContent_into_bytes push_pointer)) (Some REVIDX_EXTSTORED))].

Definition push_log (f : FilelogDeltaed) (data : FilelogData) : Filelog_ :=
  mkFilelog (mkNodeKey (FilePath push_file) (cg_node (fd_chunk f))) (into_option (cg_p1 (fd_chunk f))) None (push_node x10) data (default 0%N (cg_flags (fd_chunk f))).
Definition push_logs : list Filelog_ :=
  zip_with push_log push_files [FilelogRawBytes (bstr "one"); FilelogRawBytes (bstr "one, two"); LfsMetaData (mkMeta push_content_id None)].

Definition push_parts (x : HgNodeHash * RevlogChangeset) : list Part :=
  [CgChunk Changeset (revlog_chunk (Some 0%N) x); SectionEnd Changeset; SectionEnd Manifest; SectionEnd Treemanifest] ++
  ((fun f => CgChunk (Filelog (fd_path f)) (fd_chunk f)) <$> push_files) ++ [SectionEnd (Filelog push_file); End_].

Lemma push_parts_wf t : ex_date = Some t ->
  ChangegroupRoundtrip.cg_wf Cg3Version StChangeset Changeset (push_parts (push_node x10, example_cs (bstr "bob") [mkMPath [mkElem (bstr "f")]] t)).
Proof.
  intros E. assert (ChangegroupRoundtrip.valid_cg_chunk Cg3Version (revlog_chunk (Some 0%N) (push_node x10, example_cs (bstr "bob") [mkMPath [mkElem (bstr "f")]] t))) as Hv.
  { injection E as <-. split; try reflexivity. repeat constructor. }
  constructor; [exact Hv|injection E as <-; reflexivity|]. constructor. constructor. constructor. cbn [app push_files fmap list_fmap fd_path fd_chunk].
  constructor; [split; [discriminate|repeat constructor]|discriminate|split; try reflexivity; repeat constructor|reflexivity|].
  constructor; [split; try reflexivity; repeat constructor|reflexivity|].
  constructor; [split; try reflexivity; repeat constructor|reflexivity|]. constructor. constructor.
Qed.

Lemma push_logs_meant : Forall2 (filelog_meant push_repo push_text) push_files push_logs.
Proof.
  assert (known_flags 0) as H0 by (intros i; by rewrite N.bits_0).
  constructor; [|constructor; [|constructor; [|constructor]]].
  - exists (FilelogRawBytes (bstr "one")). split; [exact H0|]. split; vm_compute; reflexivity.
  - exists (FilelogRawBytes (bstr "one, two")). split; [exact H0|]. split; vm_compute; reflexivity.
  - exists (LfsMetaData (mkMeta push_content_id None)). split; [|split; [|vm_compute; reflexivity]].
    + cbn. unfold REVIDX_EXTSTORED. intros i. destruct (N.eqb_spec 13 i) as [<-|]; [lia|]. by rewrite N.pow2_bits_false.
    + exists push_pointer, push_content_id. split; [vm_compute; reflexivity|]. split; [vm_compute|]; reflexivity.
Qed.

Lemma changegroup_resolved_witness : exists t, ex_date = Some t /\
  let x := (push_node x10, example_cs (bstr "bob") [mkMPath [mkElem (bstr "f")]] t) in
  let '(c, f) := split_changegroup (stream_of (push_parts x)) in
  collect_stream (convert_to_revlog_changesets c) = Ok [x] /\ collect_stream (convert_to_revlog_filelog push_repo f) = Ok push_logs.
Proof.
  destruct ex_date as [t|] eqn:E; [|discriminate E]. exists t. split; [reflexivity|].
  apply (changegroup_resolved Cg3Version (push_parts (push_node x10, example_cs (bstr "bob") [mkMPath [mkElem (bstr "f")]] t))
    [(push_node x10, example_cs (bstr "bob") [mkMPath [mkElem (bstr "f")]] t)] push_text push_repo).
  - exact (push_parts_wf t E).
  - reflexivity.
  - constructor; [by exists (Some 0%N)|constructor].
  - constructor; [|constructor]. split; [exact (example_valid t E)|by split].
  - exact epoch_exists.
  - split; [vm_compute; reflexivity|]. split; [split; [vm_compute; reflexivity|left; by left]|]. split; [vm_compute; reflexivity|exact I].
  - exact push_logs_meant.
Defined.

(** A part behind the end part is taken. *)
Example part_after_end :
  (let '(c, f) := split_changegroup (stream_of ([SectionEnd Changeset; SectionEnd Manifest; End_] ++ ((fun f => CgChunk (Filelog (fd_path f)) (fd_chunk f)) <$> push_files))) in
  collect_stream f) = Ok push_files.
Proof. vm_compute. reflexivity. Qed.
End example.
