(* ===== verification/UploadEntries.v ===== *)
(** * The entries of a changeset that is created

    Model of [UploadEntries] of [blobrepo/src/repo_commit.rs]: the manifests
    and files uploaded for a changeset are recorded with what they refer to,
    and in the end all that is missing is looked for in the blob store. *)

From stdpp Require Import list.
From S2P Require Import Prelude Ord Path Hash Bonsai BonsaiDiff HgManifest HgFile HgUpload MemoryManifest MemoryManifestOk TreemanifestParser.

Inductive commit_error :=
| CommitRepo (e : mf_error)
| NotAManifest (h : HgNodeHash) (t : Type_)
| UnexpectedEmptyMPath
| NotFoundInBlobstore (h : HgNodeHash)
| BadRootManifest (t : Type_)
| CaseConflictError (path : MPath)
| InconsistentChangesetHash (expected computed : HgNodeHash)
| UnexpectedRootPath
| IncorrectCopyInfo (path : MPath) (node : HgNodeHash)
| CommitUtf8
| CommitBonsai (e : bonsai_error)
| ParentCanceled
| BonsaiMappingNotFound (h : HgNodeHash)
| CommitStorage.

Record UploadEntriesState := mkUploadEntries {
  required_entries : list (RepoPath * HgNodeHash);
  uploaded_entries : list (RepoPath * Entry);
  entry_parents_seen : list HgNodeKey;
  ue_draft : bool
}.

Definition UploadEntries_new (draft : bool) : UploadEntriesState := mkUploadEntries [] [] [] draft.

(** [get_parents] of an entry. *)
Definition entry_parents (s : repo_state) (e : Entry) : outcome mf_error HgParents :=
  match get_type e with
  | Tree =>
      envelope ← map_err ManifestError (fetch_manifest_envelope_opt (get_hash e) (blobs s));
      envelope ← ok_or envelope (HgContentMissing (get_hash e));
      Ok (HgParents_new (env_p1 envelope) (env_p2 envelope))
  | BonsaiDiff.File _ =>
      envelope ← fetch_file_envelope (get_hash e) s;
      Ok (HgParents_new (fe_p1 envelope) (fe_p2 envelope))
  end.

Definition parents_list (p : HgParents) : list HgNodeHash := match p with NoParents => [] | One p1 => [p1] | Two p1 p2 => [p1; p2] end.

Definition find_parents (s : repo_state) (st : UploadEntriesState) (entry : Entry) (path : RepoPath) : outcome commit_error UploadEntriesState :=
  parents ← map_err CommitRepo (entry_parents s entry);
  Ok (mkUploadEntries (required_entries st) (uploaded_entries st) (entry_parents_seen st ++ (mkNodeKey path <$> parents_list parents)) (ue_draft st)).

Definition require (st : UploadEntriesState) (path : RepoPath) (h : HgNodeHash) : UploadEntriesState :=
  mkUploadEntries (hm_insert path h (required_entries st)) (uploaded_entries st) (entry_parents_seen st) (ue_draft st).

(** The entries that a manifest refers to. *)
Fixpoint require_all (path : RepoPath) (l : Manifest) (st : UploadEntriesState) : outcome commit_error UploadEntriesState :=
  match l with
  | [] => Ok st
  | entry :: l =>
      mpath ← ok_or (join_element_opt (RepoPath_mpath path) (get_name entry)) UnexpectedEmptyMPath;
      let child := match get_type entry with BonsaiDiff.File _ => FilePath mpath | Tree => DirectoryPath mpath end in
      require_all path l (require st child (get_hash entry))
  end.

Definition process_manifest (s : repo_state) (st : UploadEntriesState) (entry : Entry) (path : RepoPath) : outcome commit_error UploadEntriesState :=
  content ← map_err CommitRepo (get_content s entry);
  st ← match content with
       | ContentTree manifest => require_all path (content_list manifest) st
       | ContentFile _ _ => Err (NotAManifest (get_hash entry) (get_type entry))
       end;
  find_parents s st entry path.

Definition process_one_entry (s : repo_state) (st : UploadEntriesState) (entry : Entry) (path : RepoPath) : outcome commit_error UploadEntriesState :=
  let st := mkUploadEntries (required_entries st) (hm_insert path entry (uploaded_entries st)) (entry_parents_seen st) (ue_draft st) in
  if bool_decide (get_type entry = Tree) then process_manifest s st entry path else find_parents s st entry path.

Definition process_root_manifest (s : repo_state) (st : UploadEntriesState) (entry : Entry) : outcome commit_error UploadEntriesState :=
  _ ← ensure (bool_decide (get_type entry = Tree)) (NotAManifest (get_hash entry) (get_type entry));
  process_one_entry s (require st RootPath (get_hash entry)) entry RootPath.

(** ** The checks in the end *)

Definition is_present (s : repo_state) (node_id : HgNodeHash) (tree : bool) : bool :=
  if tree then bool_decide (is_Some (hm_get node_id (blobs s))) else bool_decide (is_Some (hm_get node_id (envelopes s))).

Definition assert_in_blobstore (s : repo_state) (node_id : HgNodeHash) (tree : bool) : outcome commit_error unit :=
  ensure (is_present s node_id tree) (NotFoundInBlobstore node_id).

Record FilenodeInfo := mkFilenodeInfo {
  fi_path : RepoPath;
  fi_filenode : HgNodeHash;
  fi_p1 : option HgNodeHash;
  fi_p2 : option HgNodeHash;
  fi_copyfrom : option (RepoPath * HgNodeHash);
  fi_linknode : HgNodeHash
}.

Definition raw_content (s : repo_state) (e : Entry) : outcome mf_error bytes :=
  match get_type e with
  | Tree =>
      envelope ← map_err ManifestError (fetch_manifest_envelope_opt (get_hash e) (blobs s));
      envelope ← ok_or envelope (HgContentMissing (get_hash e));
      Ok (contents envelope)
  | BonsaiDiff.File _ => fetch_raw_filenode_bytes (get_hash e) s
  end.

Definition compute_copy_from_info (s : repo_state) (path : RepoPath) (blobentry : Entry) (parents : HgParents)
    : outcome mf_error (option (RepoPath * HgNodeHash)) :=
  match path with
  | FilePath _ =>
      blob ← raw_content s blobentry;
      let '(p1, p2) := get_nodes parents in
      copied ← map_err FileError (copied_from (File_new blob p1 p2));
      Ok ((fun x => (FilePath x.1, x.2)) <$> (copied : option (MPath * HgNodeHash)))
  | RootPath | DirectoryPath _ => Ok None
  end.

Definition filenode_info (s : repo_state) (cs_id : HgNodeHash) (x : RepoPath * Entry) : outcome mf_error FilenodeInfo :=
  parents ← entry_parents s x.2;
  copyfrom ← compute_copy_from_info s x.1 x.2 parents;
  let '(p1, p2) := get_nodes parents in
  Ok (mkFilenodeInfo x.1 (get_hash x.2) p1 p2 copyfrom cs_id).

(** What is added to the filenodes, if everything required is there. *)
Definition finalize (s : repo_state) (st : UploadEntriesState) (cs_id : HgNodeHash) : outcome commit_error (list FilenodeInfo) :=
  _ ← collect (fun x => assert_in_blobstore s (key_hash x) (is_tree (key_path x))) (entry_parents_seen st);
  _ ← collect (fun x => if bool_decide (is_Some (hm_get x.1 (uploaded_entries st))) then Ok tt
                        else assert_in_blobstore s x.2 (is_tree x.1)) (required_entries st);
  if ue_draft st then Ok [] else map_err CommitRepo (collect (filenode_info s cs_id) (uploaded_entries st)).

(** ** The processing of all entries

    In whatever order they are uploaded, each in the state of the repository
    at that time. *)

Inductive entry_step := RootStep (e : Entry) | ChildStep (e : Entry) (path : RepoPath).

Definition process_step (s : repo_state) (st : UploadEntriesState) (x : entry_step) : outcome commit_error UploadEntriesState :=
  match x with RootStep e => process_root_manifest s st e | ChildStep e path => process_one_entry s st e path end.

Fixpoint process_steps (l : list (repo_state * entry_step)) (st : UploadEntriesState) : outcome commit_error UploadEntriesState :=
  match l with
  | [] => Ok st
  | (s, x) :: l => st ← process_step s st x; process_steps l st
  end.

(** ** Nothing is missing *)

Definition step_entry (x : entry_step) : Entry := match x with RootStep e | ChildStep e _ => e end.
Definition step_path (x : entry_step) : RepoPath := match x with RootStep _ => RootPath | ChildStep _ path => path end.

(** An upload gives the path of a file or of a directory. *)
Definition step_ok (x : entry_step) : Prop :=
  match x with
  | RootStep _ => True
  | ChildStep e path => match get_type e with Tree => exists p, path = DirectoryPath p /\ elements p <> [] | BonsaiDiff.File _ => exists p, path = FilePath p end
  end.

Definition child_path (path : RepoPath) (x : MPathElement * Details) : RepoPath :=
  let mpath := mkMPath (iter_opt (RepoPath_mpath path) ++ [x.1]) in
  match flag x.2 with BonsaiDiff.File _ => FilePath mpath | Tree => DirectoryPath mpath end.

(** All that is below an entry is in the store. *)
Inductive whole (s : repo_state) : id -> Prop :=
| whole_file ft h : is_Some (hm_get h (envelopes s)) -> whole s (BonsaiDiff.File ft, h)
| whole_tree h m : load_manifest (blobs s) h = Ok m -> (forall x, x ∈ m -> whole s (flag x.2, entryid x.2)) -> whole s (Tree, h).

(** A later state has what an earlier one had. *)
Definition later (s s' : repo_state) : Prop :=
  (forall h m, load_manifest (blobs s) h = Ok m -> load_manifest (blobs s') h = Ok m) /\
  (forall h, is_Some (hm_get h (envelopes s)) -> is_Some (hm_get h (envelopes s'))).

Lemma child_join path x : valid_elem x.1 -> join_element_opt (RepoPath_mpath path) (get_name (details_entry x)) =
  Some (mkMPath (iter_opt (RepoPath_mpath path) ++ [x.1])).
Proof.
  intros Hv%valid_elem_nonempty. cbn. destruct (RepoPath_mpath path) as [[p]|]; cbn; unfold MPath_join; cbn; by rewrite Hv.
Qed.

Lemma require_child path x l st : valid_elem x.1 ->
  require_all path (details_entry x :: l) st = require_all path l (require st (child_path path x) (entryid x.2)).
Proof.
  intros Hv. cbn [require_all]. rewrite child_join by done. cbn [ok_or]. rewrite bind_Ok. unfold child_path. by destruct x as [name [h []]].
Qed.

Lemma child_path_inj path path' x y : child_path path x = child_path path' y -> x.1 = y.1 /\ iter_opt (RepoPath_mpath path) = iter_opt (RepoPath_mpath path').
Proof.
  unfold child_path. destruct (flag x.2), (flag y.2); intros [= H]; by apply app_inj_2 in H as [? [= ?]].
Qed.

(** What is required by one manifest. *)
Lemma require_all_spec path m : content_ok m -> forall st, exists st', require_all path (content_list m) st = Ok st' /\
  uploaded_entries st' = uploaded_entries st /\ entry_parents_seen st' = entry_parents_seen st /\ ue_draft st' = ue_draft st /\
  (forall x, x ∈ m -> hm_get (child_path path x) (required_entries st') = Some (entryid x.2)) /\
  (forall q, (forall x, x ∈ m -> q <> child_path path x) -> hm_get q (required_entries st') = hm_get q (required_entries st)).
Proof.
  intros [Hwf Hv]. induction m as [|x m IH]; intros st; [exists st; split; [done|]; split_and!; try done; by intros x ?%elem_of_nil|].
  apply Forall_cons in Hv as [[Hx _] Hv]. apply StronglySorted_inv in Hwf as [Hwf Hlt]. rewrite Forall_forall in Hlt.
  cbn [content_list fmap list_fmap]. rewrite require_child by done.
  destruct (IH Hwf Hv (require st (child_path path x) (entryid x.2))) as (st' & E & Hu & Hp & Hd & Hin & Hout). exists st'.
  split; [exact E|]. split; [exact Hu|]. split; [exact Hp|]. split; [exact Hd|]. split.
  - intros y [->|Hy]%elem_of_cons; [|by apply Hin]. rewrite Hout; [cbn; rewrite hm_get_insert; by rewrite decide_True|].
    intros z Hz [Heq _]%child_path_inj. pose proof (Hlt z Hz) as Hc. rewrite Heq in Hc. by apply ord_irr in Hc.
  - intros q Hq. rewrite Hout by (intros y Hy; apply Hq; by right). cbn. rewrite hm_get_insert. rewrite decide_False; [done|]. apply Hq. by left.
Qed.

(** *** What one step does *)

Definition records (st st' : UploadEntriesState) (x : entry_step) (s : repo_state) : Prop :=
  uploaded_entries st' = hm_insert (step_path x) (step_entry x) (uploaded_entries st) /\ ue_draft st' = ue_draft st /\
  (exists parents, entry_parents s (step_entry x) = Ok parents /\
    entry_parents_seen st' = entry_parents_seen st ++ (mkNodeKey (step_path x) <$> parents_list parents)) /\
  (get_type (step_entry x) = Tree -> exists m, load_manifest (blobs s) (get_hash (step_entry x)) = Ok m /\
    (forall y, y ∈ m -> hm_get (child_path (step_path x) y) (required_entries st') = Some (entryid y.2))) /\
  (forall q, (q <> RootPath \/ exists e p, x = ChildStep e p) ->
    (forall m y, get_type (step_entry x) = Tree -> load_manifest (blobs s) (get_hash (step_entry x)) = Ok m -> y ∈ m -> q <> child_path (step_path x) y) ->
    hm_get q (required_entries st') = hm_get q (required_entries st)).

Lemma get_tree_content s e c : get_type e = Tree -> get_content s e = Ok c -> exists m, c = ContentTree m /\ load_manifest (blobs s) (get_hash e) = Ok m.
Proof.
  unfold get_content, load_manifest. intros ->. destruct (BlobManifest_load _ _) as [[m|]| |]; cbn; try done. intros [= <-]. by exists m.
Qed.

Lemma process_one_spec s st e path st' : process_one_entry s st e path = Ok st' -> exists st1,
  st1 = mkUploadEntries (required_entries st) (hm_insert path e (uploaded_entries st)) (entry_parents_seen st) (ue_draft st) /\
  uploaded_entries st' = uploaded_entries st1 /\ ue_draft st' = ue_draft st /\
  (exists parents, entry_parents s e = Ok parents /\ entry_parents_seen st' = entry_parents_seen st ++ (mkNodeKey path <$> parents_list parents)) /\
  (get_type e = Tree -> exists m, load_manifest (blobs s) (get_hash e) = Ok m /\
    forall y, y ∈ m -> hm_get (child_path path y) (required_entries st') = Some (entryid y.2)) /\
  (forall q, (forall m y, get_type e = Tree -> load_manifest (blobs s) (get_hash e) = Ok m -> y ∈ m -> q <> child_path path y) ->
    hm_get q (required_entries st') = hm_get q (required_entries st)).
Proof.
  intros H. eexists. split; [reflexivity|]. unfold process_one_entry in H. case_bool_decide as Et.
  - unfold process_manifest in H. apply bind_Ok_inv in H as (c & Hc%map_err_Ok & H). destruct (get_tree_content _ _ _ Et Hc) as (m & -> & Hm).
    apply bind_Ok_inv in H as (st2 & H2 & H). destruct (load_content _ _ _ Hm) as [Hok _].
    destruct (require_all_spec path m Hok (mkUploadEntries (required_entries st) (hm_insert path e (uploaded_entries st)) (entry_parents_seen st) (ue_draft st)))
      as (st3 & E3 & Hu & Hp & Hd & Hin & Hout). rewrite H2 in E3. injection E3 as <-.
    unfold find_parents in H. apply bind_Ok_inv in H as (parents & Hpar%map_err_Ok & [= <-]). cbn [uploaded_entries ue_draft entry_parents_seen required_entries] in *.
    split; [done|]. split; [done|]. split; [exists parents; by rewrite Hp|]. split; [by exists m|]. intros q Hq. apply Hout. intros y Hy. by eapply Hq.
  - unfold find_parents in H. apply bind_Ok_inv in H as (parents & Hpar%map_err_Ok & [= <-]). cbn in *. split; [done|]. split; [done|].
    split; [by exists parents|]. split; [done|]. done.
Qed.

Lemma process_step_records s st x st' : process_step s st x = Ok st' -> records st st' x s /\
  forall e, x = RootStep e -> hm_get RootPath (required_entries st') = Some (get_hash e).
Proof.
  destruct x as [e|e path]; cbn [process_step].
  - unfold process_root_manifest. intros (u & _ & H)%bind_Ok_inv. apply process_one_spec in H as (st1 & -> & Hu & Hd & Hp & Hm & Hout). cbn in Hu, Hout.
    split; [split; [done|]; split; [done|]; split; [done|]; split; [done|]|].
    + intros q Hq Hc. rewrite Hout by done. rewrite hm_get_insert, decide_False; [done|]. destruct Hq as [?|(? & ? & ?)]; done.
    + intros e' [= <-]. rewrite Hout, hm_get_insert; [by rewrite decide_True|]. intros m y _ _ _. unfold child_path. by destruct (flag y.2).
  - intros H. apply process_one_spec in H as (st1 & -> & Hu & Hd & Hp & Hm & Hout). split; [|done]. split; [done|]. split; [done|]. split; [done|]. split; [done|].
    intros q _ Hc. by apply Hout.
Qed.

(** *** What all steps have done *)

Record processed (l : list (repo_state * entry_step)) (st : UploadEntriesState) : Prop := {
  pr_uploaded path e : hm_get path (uploaded_entries st) = Some e <-> exists s x, (s, x) ∈ l /\ step_path x = path /\ step_entry x = e;
  pr_required s x : (s, x) ∈ l -> get_type (step_entry x) = Tree -> exists m, load_manifest (blobs s) (get_hash (step_entry x)) = Ok m /\
    forall y, y ∈ m -> hm_get (child_path (step_path x) y) (required_entries st) = Some (entryid y.2);
  pr_parents s x : (s, x) ∈ l -> exists parents, entry_parents s (step_entry x) = Ok parents /\
    forall h, h ∈ parents_list parents -> mkNodeKey (step_path x) h ∈ entry_parents_seen st;
  pr_root s e : (s, RootStep e) ∈ l -> hm_get RootPath (required_entries st) = Some (get_hash e)
}.

Lemma tree_paths x y : step_ok x -> step_ok y -> get_type (step_entry x) = Tree -> get_type (step_entry y) = Tree ->
  iter_opt (RepoPath_mpath (step_path x)) = iter_opt (RepoPath_mpath (step_path y)) -> step_path x = step_path y.
Proof.
  destruct x as [e|e p], y as [e'|e' p']; cbn; [done|intros _ H2 _ E2|intros H1 _ E1 _|intros H1 H2 E1 E2]; rewrite ?E1, ?E2 in *.
  - destruct H2 as ([q] & -> & Hq). cbn in *. congruence.
  - destruct H1 as ([q] & -> & Hq). cbn in *. congruence.
  - destruct H1 as ([q] & -> & _), H2 as ([q'] & -> & _). cbn. congruence.
Qed.

Lemma processed_step l st s x st' : processed l st -> process_step s st x = Ok st' -> Forall (fun y => step_ok y.2) (l ++ [(s, x)]) ->
  NoDup ((fun y => step_path y.2) <$> (l ++ [(s, x)])) -> processed (l ++ [(s, x)]) st'.
Proof.
  intros Hpr Hx Hok Hnd. destruct (process_step_records _ _ _ _ Hx) as [(Hu & _ & Hp & Hm & Hout) Hroot].
  assert (forall s' y, (s', y) ∈ l -> step_path y <> step_path x) as Hfresh.
  { intros s' y Hin Heq. rewrite fmap_app in Hnd. apply NoDup_app in Hnd as (_ & Hnd & _). apply (Hnd (step_path y)).
    - apply list_elem_of_fmap. by exists (s', y).
    - cbn. rewrite Heq. by left. }
  rewrite Forall_forall in Hok. split.
  - intros path e. rewrite Hu, hm_get_insert. case_decide as Ep.
    + split; [intros [= <-]; exists s, x; by rewrite elem_of_app, elem_of_cons; auto|]. intros (s' & y & [Hin|[= -> ->]%list_elem_of_singleton]%elem_of_app & Hy & <-); [|done].
      exfalso. apply (Hfresh _ _ Hin). congruence.
    + rewrite (pr_uploaded _ _ Hpr). split; intros (s' & y & Hin & Hy & He); [exists s', y; by rewrite elem_of_app; auto|].
      apply elem_of_app in Hin as [Hin|[= -> ->]%list_elem_of_singleton]; [by exists s', y|congruence].
  - intros s' y [Hin|[= -> ->]%list_elem_of_singleton]%elem_of_app Ht; [|by apply Hm]. destruct (pr_required _ _ Hpr _ _ Hin Ht) as (m & Em & Hreq). exists m. split; [done|].
    intros z Hz. rewrite Hout; [by apply Hreq|left; unfold child_path; by destruct (flag z.2)|]. intros m' z' Etx Hm' Hz' [_ Heq]%child_path_inj.
    apply (Hfresh _ _ Hin). apply tree_paths; [apply (Hok (s', y)); apply elem_of_app; by left|apply (Hok (s, x)); apply elem_of_app; right; by left|done..].
  - intros s' y [Hin|[= -> ->]%list_elem_of_singleton]%elem_of_app; destruct Hp as (parents & Epar & Hseen).
    + destruct (pr_parents _ _ Hpr _ _ Hin) as (ps & Eps & Hps). exists ps. split; [done|]. intros h Hh. rewrite Hseen. apply elem_of_app. left. by apply Hps.
    + exists parents. split; [done|]. intros h Hh. rewrite Hseen. apply elem_of_app. right. apply list_elem_of_fmap. by exists h.
  - intros s' e [Hin|[= -> <-]%list_elem_of_singleton]%elem_of_app; [|by apply Hroot]. pose proof (Hfresh _ _ Hin) as Hne. cbn in Hne.
    rewrite Hout; [by apply (pr_root _ _ Hpr s')|right; destruct x; [done|by eexists _, _]|]. intros m y _ _ _. unfold child_path. by destruct (flag y.2).
Qed.

Lemma processed_all l : forall done st st', processed done st -> Forall (fun y => step_ok y.2) (done ++ l) ->
  NoDup ((fun y => step_path y.2) <$> (done ++ l)) -> process_steps l st = Ok st' -> processed (done ++ l) st' /\ ue_draft st' = ue_draft st.
Proof.
  induction l as [|[s x] l IH]; intros done st st' Hpr Hok Hnd; cbn [process_steps].
  - intros [= <-]. by rewrite app_nil_r.
  - intros (st1 & H1 & H2)%bind_Ok_inv. destruct (process_step_records _ _ _ _ H1) as [(_ & Hd & _) _].
    rewrite (assoc_L (++) done [(s, x)] l : done ++ (s, x) :: l = (done ++ [(s, x)]) ++ l) in Hok, Hnd |- *.
    destruct (IH (done ++ [(s, x)]) st1 st') as [Hp Hd']; [|done|done|done|by rewrite Hd', Hd].
    apply (processed_step _ st); [done|done| |].
    + apply Forall_app in Hok as [Hok _]. done.
    + rewrite fmap_app in Hnd. by apply NoDup_app in Hnd as [Hnd _].
Qed.

Lemma processed_new draft : processed [] (UploadEntries_new draft).
Proof. split; [intros path e; split; [done|by intros (s & x & ?%elem_of_nil & _)]|by intros s x ?%elem_of_nil..]. Qed.

(** *** The checks *)

Lemma collect_unit {E A} (f : A -> outcome E unit) l us : collect f l = Ok us -> forall x, x ∈ l -> f x = Ok tt.
Proof.
  rewrite collect_Ok_Forall2. intros Hf x Hx. apply list_elem_of_lookup_1 in Hx as [i Hi]. destruct (Forall2_lookup_l _ _ _ _ _ Hf Hi) as ([] & _ & Hu). done.
Qed.

Lemma assert_present s h tree : assert_in_blobstore s h tree = Ok tt -> is_present s h tree = true.
Proof. unfold assert_in_blobstore, ensure. by destruct (is_present s h tree). Qed.

Lemma finalize_checks s st cs_id infos : finalize s st cs_id = Ok infos ->
  (forall key, key ∈ entry_parents_seen st -> is_present s (key_hash key) (is_tree (key_path key)) = true) /\
  (forall path h, hm_get path (required_entries st) = Some h -> hm_get path (uploaded_entries st) = None -> is_present s h (is_tree path) = true) /\
  (ue_draft st = false -> collect (filenode_info s cs_id) (uploaded_entries st) = Ok infos) /\ (ue_draft st = true -> infos = []).
Proof.
  unfold finalize. intros (u1 & H1 & (u2 & H2 & H3)%bind_Ok_inv)%bind_Ok_inv. split.
  { intros key Hk. by apply assert_present, (collect_unit _ _ _ H1). }
  split; [|destruct (ue_draft st); [by injection H3 as <-|by apply map_err_Ok in H3]].
  intros path h Hreq Hup. apply hm_get_in in Hreq. pose proof (collect_unit _ _ _ H2 _ Hreq) as Hc. cbn in Hc. rewrite Hup in Hc.
  rewrite bool_decide_false in Hc by (by intros []). by apply assert_present.
Qed.

Definition refers (s : repo_state) (c h : HgNodeHash) : Prop :=
  exists m y, load_manifest (blobs s) h = Ok m /\ y ∈ m /\ flag y.2 = Tree /\ entryid y.2 = c.

Lemma envelope_seen s e ft ps : get_type e = BonsaiDiff.File ft -> entry_parents s e = Ok ps -> is_Some (hm_get (get_hash e) (envelopes s)).
Proof.
  unfold entry_parents, fetch_file_envelope, fetch_file_envelope_opt. intros ->. by destruct (hm_get (get_hash e) (envelopes s)).
Qed.

(** If the entries uploaded for a changeset, in whatever order, are those that
    its manifests refer to, then after the checks all that is below its root
    manifest is in the store, uploaded or there before, as are the parents of
    every entry; and unless it is a draft, each entry has its filenode, linked
    to the changeset. *)
Lemma finalize_complete l s draft st cs_id infos :
  process_steps l (UploadEntries_new draft) = Ok st -> finalize s st cs_id = Ok infos ->
  Forall (fun x => step_ok x.2 /\ later x.1 s) l -> NoDup ((fun x => step_path x.2) <$> l) ->
  (forall path e h, hm_get path (uploaded_entries st) = Some e -> hm_get path (required_entries st) = Some h -> get_hash e = h) ->
  (forall h, is_Some (hm_get h (blobs s)) -> Forall (fun x => entry_id (step_entry x.2) <> (Tree, h)) l -> whole s (Tree, h)) ->
  well_founded (refers s) ->
  (forall s' x, (s', x) ∈ l -> whole s (entry_id (step_entry x))) /\
  (forall s' x parents h, (s', x) ∈ l -> entry_parents s' (step_entry x) = Ok parents -> h ∈ parents_list parents -> is_present s h (is_tree (step_path x)) = true) /\
  (if draft then infos = []
   else forall s' x, (s', x) ∈ l -> exists info, info ∈ infos /\ fi_path info = step_path x /\ fi_filenode info = get_hash (step_entry x) /\ fi_linknode info = cs_id).
Proof.
  intros Hall Hfin Hok Hnd Hagree Hclosed Hwf.
  destruct (processed_all l [] _ st (processed_new draft)) as [Hpr Hd]; [|done|done|].
  { cbn. eapply Forall_impl; [exact Hok|]. by intros x [? _]. }
  cbn [app] in Hpr. destruct (finalize_checks _ _ _ _ Hfin) as (Hpar & Hreq & Hinfo & Hdraft). rewrite Forall_forall in Hok.
  assert (forall s' x ft, (s', x) ∈ l -> get_type (step_entry x) = BonsaiDiff.File ft -> is_Some (hm_get (get_hash (step_entry x)) (envelopes s))) as Hfile.
  { intros s' x ft Hx Et. destruct (pr_parents _ _ Hpr _ _ Hx) as (ps & Eps & _). destruct (Hok _ Hx) as [_ [_ Hl]]. apply Hl. by eapply envelope_seen. }
  assert (forall h s' x, (s', x) ∈ l -> entry_id (step_entry x) = (Tree, h) -> whole s (Tree, h)) as Htree.
  { induction h as [h IH] using (well_founded_ind Hwf). intros s' x Hx [= Et Eh]. destruct (pr_required _ _ Hpr _ _ Hx Et) as (m & Hm & Hr).
    rewrite Eh in Hm. apply (proj1 (proj2 (Hok _ Hx))) in Hm. apply (whole_tree s h m Hm). intros y Hy. specialize (Hr y Hy).
    destruct (hm_get (child_path (step_path x) y) (uploaded_entries st)) as [e|] eqn:Eup.
    - pose proof (Hagree _ _ _ Eup Hr) as Heh. apply (pr_uploaded _ _ Hpr) in Eup as (s2 & x2 & Hx2 & Hp2 & <-).
      pose proof (proj1 (Hok _ Hx2)) as Hs2. unfold child_path in Hp2. cbn in Hs2. destruct x2 as [e2|e2 path2]; cbn in Hp2; [by destruct (flag y.2)|]. subst path2. cbn [step_entry] in *.
      destruct (flag y.2) as [ft|] eqn:Ef, (get_type e2) as [ft2|] eqn:E2.
      + constructor. rewrite <- Heh. by apply (Hfile s2 _ ft2 Hx2).
      + cbn [step_ok] in Hs2. rewrite E2 in Hs2. by destruct Hs2 as (? & ? & _).
      + cbn [step_ok] in Hs2. rewrite E2 in Hs2. by destruct Hs2 as (? & ?).
      + apply (IH (entryid y.2)) with (s' := s2) (x := ChildStep e2 (DirectoryPath (mkMPath (iter_opt (RepoPath_mpath (step_path x)) ++ [y.1])))); [by exists m, y|done|].
        unfold entry_id. cbn. by rewrite E2, Heh.
    - pose proof (Hreq _ _ Hr Eup) as Hp. unfold child_path in Hp. destruct (flag y.2) as [ft|] eqn:Ef; cbn [is_tree is_present] in Hp; apply bool_decide_eq_true in Hp.
      + by constructor.
      + destruct (decide (Exists (fun x => entry_id (step_entry x.2) = (Tree, entryid y.2)) l)) as [He|He].
        * apply Exists_exists in He as ([s2 x2] & Hx2 & E2). eapply IH; [by exists m, y|exact Hx2|done].
        * apply Hclosed; [done|]. apply Forall_forall. intros x2 Hx2 E2. apply He, Exists_exists. by exists x2. }
  split; [|split].
  - intros s' x Hx. unfold entry_id. destruct (get_type (step_entry x)) as [ft|] eqn:Et; [constructor; by eapply Hfile|]. eapply Htree; [exact Hx|]. unfold entry_id. by rewrite Et.
  - intros s' x ps h Hx Eps Hh. destruct (pr_parents _ _ Hpr _ _ Hx) as (ps' & Eps' & Hseen). rewrite Eps in Eps'. injection Eps' as <-. apply (Hpar _ (Hseen _ Hh)).
  - cbn in Hd. rewrite Hd in *. destruct draft; [by apply Hdraft|]. specialize (Hinfo eq_refl). intros s' x Hx.
    assert (hm_get (step_path x) (uploaded_entries st) = Some (step_entry x)) as Eup by (apply (pr_uploaded _ _ Hpr); by exists s', x).
    apply hm_get_in, list_elem_of_lookup_1 in Eup as [i Hi]. apply collect_Ok_Forall2 in Hinfo. destruct (Forall2_lookup_l _ _ _ _ _ Hinfo Hi) as (info & Hinf & Hf).
    exists info. split; [by eapply list_elem_of_lookup_2|]. unfold filenode_info in Hf. apply bind_Ok_inv in Hf as (ps & _ & Hf). apply bind_Ok_inv in Hf as (cf & _ & Hf).
    destruct (get_nodes ps). by injection Hf as <-.
Qed.

(** ** Examples *)

Section example.
Definition ue_node (b : byte) : HgNodeHash := mkNode (mkSha1 (replicate 20 b)).
Definition ue_name : MPathElement := mkElem (bstr "f").
Definition ue_manifest (h : HgNodeHash) : bytes := manifest_text [(ue_name, mkDetails h (BonsaiDiff.File Regular))].

(** A manifest with one file, and a file. *)
Definition ue_state (required stored : HgNodeHash) : repo_state :=
  mkState [(ue_node x01, mkEnvelope (ue_node x01) None None (ue_node x01) (ue_manifest required))]
    [(stored, mkFileEnvelope stored None None (mkContentId (mkBlake2 [])) 0 [])] [(mkContentId (mkBlake2 []), [])] [] [].

Definition ue_steps (required stored : HgNodeHash) : list (repo_state * entry_step) :=
  [(ue_state required stored, ChildStep (mkEntry (Some ue_name) (BonsaiDiff.File Regular) stored) (FilePath (mkMPath [ue_name])));
   (ue_state required stored, RootStep (mkEntry None Tree (ue_node x01)))].

Definition ue_result (required stored : HgNodeHash) : outcome commit_error (list FilenodeInfo) :=
  st ← process_steps (ue_steps required stored) (UploadEntries_new false);
  finalize (ue_state required stored) st (ue_node x09).

(** The hash of what is uploaded at a path is not compared with what the
    manifest refers to: the checks pass, and the file is missing. *)
Example uploaded_at_path : is_ok (ue_result (ue_node x02) (ue_node x03)) = true /\
  is_present (ue_state (ue_node x02) (ue_node x03)) (ue_node x02) false = false.
Proof. vm_compute. by split. Qed.

End example.
