(* ===== verification/NewBlobs.v ===== *)
(** * The blobs that a changeset of a push introduces

    Model of [bundle2_resolver/src/upload_blobs.rs] and of [NewBlobs] of
    [bundle2_resolver/src/resolver.rs]: the trees and files of a push by their
    paths and hashes, and the walk over the manifests of one changeset that
    finds those it introduces. An upload that is still to be made is a value. *)

From stdpp Require Import list.
From S2P Require Import Prelude Ord Path Hash Bonsai BonsaiDiff HgManifest RevlogManifest HgUpload TreemanifestParser.
From S2P Require Import Delta BundleCodec Changegroup HgFile HgChangeset PushChangegroup UploadEntries.

Inductive resolve_error :=
| BlobAlreadyProvided (key : HgNodeKey)
| NotAFilePath (path : RepoPath)
| TreeUpload (e : manifest_error)
| FileUpload (e : mf_error)
| MaxManifestPath (path : RepoPath)
| JoinedRootPath
| ContentBlobMissingFor (key : HgNodeKey).

(** ** Uploads *)

Inductive UploadBlobsType := IgnoreDuplicates | EnsureNoDuplicates.

Section upload_blobs.
Context {B V : Type} (upload : B -> outcome resolve_error (HgNodeKey * V)).

(** The fold over the blobs; [insert] replaces what was there. *)
Fixpoint upload_from (ubtype : UploadBlobsType) (map : list (HgNodeKey * V)) (blobs : list B) : outcome resolve_error (list (HgNodeKey * V)) :=
  match blobs with
  | [] => Ok map
  | item :: blobs =>
      x ← upload item;
      let '(key, value) := x in
      _ ← ensure (match hm_get key map, ubtype with Some _, EnsureNoDuplicates => false | _, _ => true end) (BlobAlreadyProvided key);
      upload_from ubtype (hm_insert key value map) blobs
  end.

Definition upload_hg_blobs (ubtype : UploadBlobsType) (blobs : list B) : outcome resolve_error (list (HgNodeKey * V)) := upload_from ubtype [] blobs.
End upload_blobs.

Record ManifestUpload := mkManifestUpload {
  mu_content : RevlogContent;
  mu_p1 : option HgNodeHash;
  mu_p2 : option HgNodeHash;
  mu_upload : UploadHgTreeEntry
}.

Section upload.
Context {C : Sha1Context} {CH : ContentHash}.

(** The id of a tree is checked at once, but for that of the root. *)
Definition tree_blob_upload (e : TreemanifestEntry) : outcome resolve_error (HgNodeKey * ManifestUpload) :=
  let node_key := te_node_key e in
  let upload_node_id := match key_path node_key with RootPath => Supplied (key_hash node_key) | _ => Checked (key_hash node_key) end in
  let upload := mkUploadTree upload_node_id (te_data e) (te_p1 e) (te_p2 e) (key_path node_key) in
  _ ← map_err TreeUpload (upload_to_blobstore upload []);
  Ok (node_key, mkManifestUpload (te_manifest_content e) (te_p1 e) (te_p2 e) upload).

Definition filelog_blob_upload (f : Filelog_) : outcome resolve_error (HgNodeKey * (ContentBlobInfo * UploadHgFileEntry)) :=
  let node_key := fl_node_key f in
  path ← match key_path node_key with FilePath path => Ok path | other => Err (NotAFilePath other) end;
  let contents := match fl_data f with FilelogRawBytes bytes => RawBytes bytes | LfsMetaData meta => ContentUploaded meta end in
  let upload := mkUploadFile (Checked (key_hash node_key)) contents Regular (fl_p1 f) (fl_p2 f) path in
  x ← map_err FileUpload (execute contents (fl_p1 f) (fl_p2 f) path);
  Ok (node_key, (x.1.1, upload)).
End upload.

(** ** The walk *)

Definition Manifests := list (HgNodeKey * ManifestUpload).
Definition Filelogs := list (HgNodeKey * UploadHgFileEntry).
Definition ContentBlobs := list (HgNodeKey * ContentBlobInfo).

Inductive blob_future := TreeFuture (u : UploadHgTreeEntry) | FileFuture (u : UploadHgFileEntry).

Definition get_manifest_parent_content (manifests : Manifests) (path : RepoPath) (p : option HgNodeHash) : option RevlogContent :=
  p ← p; mu_content <$> hm_get (mkNodeKey path p) manifests.

#[export] Instance Details_eq_dec : EqDecision Details.
Proof. solve_decision. Defined.

Definition is_entry_present_in_parent (p : option RevlogContent) (name : MPath) (details : Details) : bool :=
  match p ≫= btree_get name with
  | None => false
  | Some parent_details => bool_decide (parent_details = details)
  end.

Section walk.
Context (manifests : Manifests) (filelogs : Filelogs) (content_blobs : ContentBlobs).

Definition max_path_len : N := 4096.

(** The entries of one manifest, with the walk below a tree. The counters are
    for statistics only. *)
Fixpoint walk_entries (walk : RepoPath -> ManifestUpload -> outcome resolve_error (list (HgNodeKey * blob_future) * list ContentBlobInfo))
    (path_taken : RepoPath) (p1 p2 : option RevlogContent) (files : RevlogContent)
    : outcome resolve_error (list (HgNodeKey * blob_future) * list ContentBlobInfo) :=
  match files with
  | [] => Ok ([], [])
  | (name, details) :: files =>
      if is_entry_present_in_parent p1 name details || is_entry_present_in_parent p2 name details then walk_entries walk path_taken p1 p2 files
      else
        next_path ← ok_or (join_opt (RepoPath_mpath path_taken) (elements name)) JoinedRootPath;
        x ← match flag details with
            | Tree =>
                let key := mkNodeKey (DirectoryPath next_path) (entryid details) in
                match hm_get key manifests with
                | Some upload =>
                    walked ← walk (key_path key) upload;
                    Ok ((key, TreeFuture (mu_upload upload)) :: walked.1, walked.2)
                | None => Ok ([], [])
                end
            | BonsaiDiff.File _ =>
                let key := mkNodeKey (FilePath next_path) (entryid details) in
                match hm_get key filelogs with
                | Some upload =>
                    cbinfo ← ok_or (hm_get key content_blobs) (ContentBlobMissingFor key);
                    Ok ([(key, FileFuture upload)], [cbinfo])
                | None => Ok ([], [])
                end
            end;
        rest ← walk_entries walk path_taken p1 p2 files;
        Ok (x.1 ++ rest.1, x.2 ++ rest.2)
  end.

(** [fuel] bounds the depth. *)
Fixpoint walk_helper (fuel : nat) (path_taken : RepoPath) (upload : ManifestUpload)
    : outcome resolve_error (list (HgNodeKey * blob_future) * list ContentBlobInfo) :=
  match fuel with
  | 0 => Panic
  | S fuel =>
      _ ← ensure (RepoPath_len path_taken <=? max_path_len)%N (MaxManifestPath path_taken);
      walk_entries (walk_helper fuel) path_taken
        (get_manifest_parent_content manifests path_taken (mu_p1 upload)) (get_manifest_parent_content manifests path_taken (mu_p2 upload)) (mu_content upload)
  end.

Inductive root_manifest :=
| NoRoot
| RootFuture (u : UploadHgTreeEntry)
| RootStored (e : Entry).

Record NewBlobs := mkNewBlobs { nb_root : root_manifest; nb_sub_entries : list (HgNodeKey * blob_future); nb_content_blobs : list ContentBlobInfo }.

Definition walk_fuel : nat := 4098.

Definition NewBlobs_new (manifest_root_id : HgNodeHash) : outcome resolve_error NewBlobs :=
  if decide (manifest_root_id = NULL_HASH) then Ok (mkNewBlobs NoRoot [] [])
  else
    match hm_get (mkNodeKey RootPath manifest_root_id) manifests with
    | Some upload =>
        x ← walk_helper walk_fuel RootPath upload;
        Ok (mkNewBlobs (RootFuture (mu_upload upload)) x.1 x.2)
    | None => Ok (mkNewBlobs (RootStored (get_root_entry manifest_root_id)) [] [])
    end.
End walk.

(** ** What is introduced *)

Section exact.
Context (manifests : Manifests) (filelogs : Filelogs) (content_blobs : ContentBlobs).
Abbreviation walk_helper := (walk_helper manifests filelogs content_blobs).

(** An entry of a manifest at a path, and where it leads, if neither parent has it. *)
Definition fresh (path : RepoPath) (u : ManifestUpload) (details : Details) (next_path : MPath) : Prop :=
  exists name, (name, details) ∈ mu_content u /\ join_opt (RepoPath_mpath path) (elements name) = Some next_path /\
    is_entry_present_in_parent (get_manifest_parent_content manifests path (mu_p1 u)) name details = false /\
    is_entry_present_in_parent (get_manifest_parent_content manifests path (mu_p2 u)) name details = false.

(** What the push has below a manifest, down along fresh entries. *)
Inductive introduced : RepoPath -> ManifestUpload -> HgNodeKey -> blob_future -> Prop :=
| introduced_file path u details next ft f : fresh path u details next -> flag details = BonsaiDiff.File ft ->
    hm_get (mkNodeKey (FilePath next) (entryid details)) filelogs = Some f ->
    introduced path u (mkNodeKey (FilePath next) (entryid details)) (FileFuture f)
| introduced_tree path u details next up : fresh path u details next -> flag details = Tree ->
    hm_get (mkNodeKey (DirectoryPath next) (entryid details)) manifests = Some up ->
    introduced path u (mkNodeKey (DirectoryPath next) (entryid details)) (TreeFuture (mu_upload up))
| introduced_below path u details next up key f : fresh path u details next -> flag details = Tree ->
    hm_get (mkNodeKey (DirectoryPath next) (entryid details)) manifests = Some up ->
    introduced (DirectoryPath next) up key f -> introduced path u key f.

Lemma walk_entries_in walk path p1 p2 files : forall l cb, walk_entries manifests filelogs content_blobs walk path p1 p2 files = Ok (l, cb) -> forall x,
  x ∈ l <-> exists name details next, (name, details) ∈ files /\ is_entry_present_in_parent p1 name details = false /\
    is_entry_present_in_parent p2 name details = false /\ join_opt (RepoPath_mpath path) (elements name) = Some next /\
    ((exists ft f, flag details = BonsaiDiff.File ft /\ hm_get (mkNodeKey (FilePath next) (entryid details)) filelogs = Some f /\
        x = (mkNodeKey (FilePath next) (entryid details), FileFuture f)) \/
     (exists up l' cb', flag details = Tree /\ hm_get (mkNodeKey (DirectoryPath next) (entryid details)) manifests = Some up /\
        walk (DirectoryPath next) up = Ok (l', cb') /\
        x ∈ (mkNodeKey (DirectoryPath next) (entryid details), TreeFuture (mu_upload up)) :: l')).
Proof.
  induction files as [|[name details] files IH]; intros l cb; cbn [walk_entries].
  { intros [= <- <-] x. split; [by intros ?%elem_of_nil|by intros (? & ? & ? & ?%elem_of_nil & _)]. }
  destruct (is_entry_present_in_parent p1 name details || is_entry_present_in_parent p2 name details) eqn:Epresent.
  { intros H x. rewrite (IH _ _ H x). split; intros (n & d & next & Hin & H1 & H2 & H3); exists n, d, next; (split; [|done]); [by right|].
    apply elem_of_cons in Hin as [[= -> ->]|Hin]; [|done]. by rewrite H1, H2 in Epresent. }
  apply orb_false_iff in Epresent as [E1 E2]. intros (next & En & H)%bind_Ok_inv x. destruct (join_opt _ _) as [next'|] eqn:Ej; [|done]. injection En as ->.
  apply bind_Ok_inv in H as ([l1 cb1] & H1 & H). apply bind_Ok_inv in H as ([l2 cb2] & H2 & [= <- <-]). cbn [fst]. rewrite elem_of_app, (IH _ _ H2 x). clear IH H2.
  assert (x ∈ l1 <-> (exists ft f, flag details = BonsaiDiff.File ft /\ hm_get (mkNodeKey (FilePath next) (entryid details)) filelogs = Some f /\
      x = (mkNodeKey (FilePath next) (entryid details), FileFuture f)) \/
    (exists up l' cb', flag details = Tree /\ hm_get (mkNodeKey (DirectoryPath next) (entryid details)) manifests = Some up /\
      walk (DirectoryPath next) up = Ok (l', cb') /\ x ∈ (mkNodeKey (DirectoryPath next) (entryid details), TreeFuture (mu_upload up)) :: l')) as Hl1.
  { destruct (flag details) as [ft|].
    - destruct (hm_get _ filelogs) as [f|] eqn:Ef.
      + apply bind_Ok_inv in H1 as (cbi & _ & [= <- <-]). rewrite list_elem_of_singleton. split; [intros ->; left; by exists ft, f|].
        intros [(? & ? & _ & [= <-] & ->)|(? & ? & ? & ? & _)]; done.
      + injection H1 as <- <-. split; [by intros ?%elem_of_nil|]. intros [(? & ? & _ & ? & _)|(? & ? & ? & ? & _)]; done.
    - destruct (hm_get _ manifests) as [up|] eqn:Eu.
      + apply bind_Ok_inv in H1 as ([l' cb'] & Hw & [= <- <-]). cbn [key_path] in Hw. cbn [fst]. split; [intros Hx; right; by exists up, l', cb'|].
        intros [(? & ? & ? & _)|(up' & l'' & cb'' & _ & [= <-] & Hw' & Hx)]; [done|]. rewrite Hw in Hw'. by injection Hw' as <- <-.
      + injection H1 as <- <-. split; [by intros ?%elem_of_nil|]. intros [(? & ? & ? & _)|(? & ? & ? & _ & ? & _)]; done. }
  rewrite Hl1. clear Hl1 H1. split.
  - intros [H|(n & d & nx & Hin & H)]; [exists name, details, next; rewrite elem_of_cons; auto 10|exists n, d, nx; rewrite elem_of_cons; auto].
  - intros (n & d & nx & [[= -> ->]|Hin]%elem_of_cons & H3 & H4 & H5 & H); [left; rewrite Ej in H5; by injection H5 as <-|right; exists n, d, nx; auto].
Qed.

(** The walk below every tree that is found has succeeded. *)
Lemma walk_entries_walked walk path p1 p2 files : forall l cb, walk_entries manifests filelogs content_blobs walk path p1 p2 files = Ok (l, cb) ->
  forall name details next up, (name, details) ∈ files -> is_entry_present_in_parent p1 name details = false ->
    is_entry_present_in_parent p2 name details = false -> join_opt (RepoPath_mpath path) (elements name) = Some next -> flag details = Tree ->
    hm_get (mkNodeKey (DirectoryPath next) (entryid details)) manifests = Some up -> exists x, walk (DirectoryPath next) up = Ok x.
Proof.
  induction files as [|[name details] files IH]; intros l cb; cbn [walk_entries]; [by intros _ ? ? ? ? ?%elem_of_nil|].
  intros H n d nx up Hin Hp1 Hp2 Hj Ht Hu. destruct (is_entry_present_in_parent p1 name details || is_entry_present_in_parent p2 name details) eqn:Epresent.
  - apply elem_of_cons in Hin as [[= -> ->]|Hin]; [by rewrite Hp1, Hp2 in Epresent|]. by eapply IH.
  - apply bind_Ok_inv in H as (next & En & H). apply bind_Ok_inv in H as (x & Hx & H). apply bind_Ok_inv in H as ([l2 cb2] & H2 & _).
    apply elem_of_cons in Hin as [[= <- <-]|Hin]; [|by eapply IH]. rewrite Hj in En. injection En as <-. rewrite Ht, Hu in Hx. apply bind_Ok_inv in Hx as (y & Hy & _). by exists y.
Qed.

Lemma walk_introduced fuel : forall path u l cb, walk_helper fuel path u = Ok (l, cb) -> forall key f, (key, f) ∈ l <-> introduced path u key f.
Proof.
  induction fuel as [|fuel IH]; intros path u l cb; cbn [NewBlobs.walk_helper]; [done|]. intros (? & _ & H)%bind_Ok_inv key f.
  pose proof (walk_entries_walked _ _ _ _ _ _ _ H) as Hwalked. rewrite (walk_entries_in _ _ _ _ _ _ _ H (key, f)). split.
  - intros (name & details & next & Hin & H1 & H2 & Hj & [(ft & g & Ef & Eg & [= -> ->])|(up & l' & cb' & Et & Eu & Hw & [[= -> ->]|Hx]%elem_of_cons)]).
    + apply (introduced_file _ _ _ _ ft); [by exists name|done|done].
    + apply introduced_tree; [by exists name|done|done].
    + eapply introduced_below; [by exists name|done|done|]. by apply (IH _ _ _ _ Hw).
  - intros Hi. destruct Hi as [path u details next ft f (name & Hin & Hj & H1 & H2) Ef Eg|path u details next up (name & Hin & Hj & H1 & H2) Et Eu
      |path u details next up key f (name & Hin & Hj & H1 & H2) Et Eu Hi]; exists name, details, next; (split; [done|]); (split; [done|]); (split; [done|]); (split; [done|]).
    + left. by exists ft, f.
    + right. destruct (Hwalked _ _ _ _ Hin H1 H2 Hj Et Eu) as [[l' cb'] Hw]. exists up, l', cb'. rewrite elem_of_cons. auto.
    + right. destruct (Hwalked _ _ _ _ Hin H1 H2 Hj Et Eu) as [[l' cb'] Hw]. exists up, l', cb'. rewrite elem_of_cons. split_and!; try done. right. by apply (IH _ _ _ _ Hw).
Qed.

(** *** The depth *)

(** Names are valid paths, as parsing makes them, and fit in memory. *)
Definition short_name (name : MPath) : Prop := valid_path name /\ (lenN (to_vec name) < 2 ^ 63)%N.
Definition names_ok (u : ManifestUpload) : Prop := Forall (fun x => short_name x.1) (mu_content u).

Definition path_ok (path : RepoPath) : Prop := match path with RootPath => True | DirectoryPath p | FilePath p => valid_path p /\ (lenN (to_vec p) <= 4096 + 2 ^ 63)%N end.

Lemma RepoPath_len_ok path : path_ok path -> RepoPath_len path = match RepoPath_mpath path with Some p => lenN (to_vec p) | None => 0%N end.
Proof. destruct path as [|p|p]; [done|..]; intros [Hv Hl]; cbn; apply MPath_len_to_vec; (done || lia). Qed.

Lemma join_longer path name next : path_ok path -> (RepoPath_len path <= max_path_len)%N -> short_name name ->
  join_opt (RepoPath_mpath path) (elements name) = Some next -> path_ok (DirectoryPath next) /\ (RepoPath_len path < RepoPath_len (DirectoryPath next))%N.
Proof.
  intros Hp Hl [[Hne Hv] Hn] Hj. assert (List.filter nonempty_elem (elements name) = elements name) as Hf.
  { clear -Hv. induction Hv as [|e es He _ IH]; [done|]. cbn. by rewrite (valid_elem_nonempty _ He), IH. }
  rewrite (RepoPath_len_ok path Hp) in *. unfold max_path_len in Hl.
  assert (1 <= lenN (to_vec name))%N as Hpos.
  { rewrite (length_to_vec name Hne). pose proof (elements_le_len _ Hv). destruct (elements name); [done|]. unfold lenN in *. cbn [length] in *. lia. }
  assert (path_ok (DirectoryPath next) /\ (match RepoPath_mpath path with Some p => lenN (to_vec p) | None => 0 end < lenN (to_vec next))%N) as [Hok Hlt];
    [|split; [done|]; by rewrite (RepoPath_len_ok (DirectoryPath next) Hok)].
  destruct (RepoPath_mpath path) as [p|] eqn:Ep; cbn in Hj.
  - unfold MPath_join in Hj. rewrite Hf in Hj. injection Hj as <-. assert (valid_path p) as [Hpne Hpv] by (destruct path; cbn in Ep; [done|injection Ep as ->; apply Hp..]).
    assert (elements p ++ elements name <> []) as Hne' by (by destruct (elements p)). cbn [path_ok]. rewrite (length_to_vec (mkMPath (elements p ++ elements name)) Hne'), (length_to_vec name Hne), (length_to_vec p Hpne) in *. cbn [elements].
    rewrite foldr_app. assert (forall es b, foldr (fun e n => MPathElement_len e + n)%N b es = (foldr (fun e n => MPathElement_len e + n) 0 es + b)%N) as Hfold.
    { induction es as [|e es IH]; intros b; [done|]. cbn. rewrite IH. lia. }
    rewrite Hfold. unfold lenN in *. rewrite length_app.
    assert (1 <= length (elements p) /\ 1 <= length (elements name)) as [? ?] by (destruct (elements p), (elements name); cbn; (done || lia)).
    split; [split; [split; [done|cbn; by apply Forall_app]|lia]|lia].
  - rewrite Hf in Hj. destruct (Nat.eqb_spec (length (elements name)) 0) as [|_]; [done|]. injection Hj as <-. destruct name as [els]. cbn in *. split; [split; [split; [done|done]|lia]|lia].
Qed.

Lemma walk_entries_total walk path p1 p2 files : path_ok path -> (RepoPath_len path <= max_path_len)%N -> Forall (fun x => short_name x.1) files ->
  (forall next key up, path_ok (DirectoryPath next) -> (RepoPath_len path < RepoPath_len (DirectoryPath next))%N -> hm_get key manifests = Some up -> walk (DirectoryPath next) up <> Panic) ->
  walk_entries manifests filelogs content_blobs walk path p1 p2 files <> Panic.
Proof.
  intros Hp Hl Hn Hw. induction Hn as [|[name details] files Hname _ IH]; cbn [walk_entries]; [done|]. destruct (_ || _); [done|].
  destruct (join_opt _ _) as [next|] eqn:Ej; [|done]. cbn [ok_or]. rewrite bind_Ok. destruct (join_longer _ _ _ Hp Hl Hname Ej) as [Hok Hlt].
  destruct (walk_entries manifests filelogs content_blobs walk path p1 p2 files) as [rest| |]; [| |done];
    (destruct (flag details) as [ft|]; [destruct (hm_get _ filelogs); [destruct (hm_get _ content_blobs)|]; done|]);
    destruct (hm_get _ manifests) as [up|] eqn:Eu; try done; cbn [key_path]; pose proof (Hw _ _ _ Hok Hlt Eu) as Hwn; by destruct (walk (DirectoryPath next) up).
Qed.

(** The fuel is enough: the path grows with every step down. *)
Lemma walk_total fuel : (forall key up, hm_get key manifests = Some up -> names_ok up) -> forall path u, names_ok u -> path_ok path ->
  (4097 <= RepoPath_len path + N.of_nat fuel)%N -> walk_helper (S fuel) path u <> Panic.
Proof.
  intros Hall. induction fuel as [|fuel IH]; intros path u Hu Hp Hl; cbn [NewBlobs.walk_helper]; unfold max_path_len; destruct (N.leb_spec (RepoPath_len path) 4096) as [Hle|]; try done; [lia|].
  cbn [ensure]. rewrite bind_Ok. apply walk_entries_total; [done|exact Hle|exact Hu|]. intros next key up Hok Hlt Eu. apply IH; [by eapply Hall|done|lia].
Qed.
End exact.
