(* ===== verification/PushUpload.v ===== *)
(** * A pushed changeset is complete

    The blobs of a changeset of a push, found by [NewBlobs], are uploaded in
    whatever order, recorded by [UploadEntries], and checked in the end. *)

From stdpp Require Import list.
From S2P Require Import Prelude Ord Path Hash Bonsai BonsaiDiff HgManifest RevlogManifest HgFile HgUpload MemoryManifest MemoryManifestOk.
From S2P Require Import Delta BundleCodec Changegroup HgChangeset TreemanifestParser PushChangegroup UploadEntries NewBlobs.

(** ** Running the uploads *)

Section run.
Context {C : Sha1Context} {CH : ContentHash}.

Definition run_future (f : blob_future) : eio mf_error repo_state (Entry * RepoPath) :=
  match f with
  | TreeFuture u =>
      x ← reads (fun s => map_err ManifestError (upload_to_blobstore u (blobs s)));
      _ ← put_manifests x.1;
      mret x.2
  | FileFuture u => x ← upload_file_entry u; mret x.2
  end.

(** What is in the store stays, and more comes to it. *)
Definition grows (s s' : repo_state) : Prop := exists l1 l2, blobs s' = l1 ++ blobs s /\ envelopes s' = l2 ++ envelopes s.

Definition step_of (root : bool) (e : Entry) (path : RepoPath) : entry_step := if root then RootStep e else ChildStep e path.

(** The uploads of a changeset, in any order, while others write to the store;
    an entry is processed when it is uploaded. *)
Inductive run_uploads : repo_state -> list (bool * blob_future) -> list (repo_state * entry_step) -> repo_state -> Prop :=
| run_none s s' : grows s s' -> run_uploads s [] [] s'
| run_next s s1 s2 s3 root f l1 l2 e path steps : grows s s1 -> run_future f s1 = (s2, Ok (e, path)) -> run_uploads s2 (l1 ++ l2) steps s3 ->
    run_uploads s (l1 ++ (root, f) :: l2) ((s2, step_of root e path) :: steps) s3.

#[export] Instance grows_refl : Reflexive grows.
Proof. intros s. by exists [], []. Qed.
#[export] Instance grows_trans : Transitive grows.
Proof. intros s1 s2 s3 (a & b & Ha & Hb) (c & d & Hc & Hd). exists (c ++ a), (d ++ b). by rewrite Hc, Ha, Hd, Hb, !app_assoc. Qed.

Lemma grows_later s s' : grows s s' -> one_value_per_key (blobs s') -> later s s'.
Proof.
  intros (l1 & l2 & H1 & H2) Hone. split.
  - intros h m. unfold load_manifest. destruct (BlobManifest_load h (blobs s)) as [[m'|]| |] eqn:E; try done. cbn. intros [= <-].
    rewrite H1 in Hone |- *. by rewrite (load_later _ _ _ _ Hone E).
  - intros h [e He]. rewrite H2. apply hm_get_in in He. apply (hm_get_some h e). apply elem_of_app. by right.
Qed.

(** The id that an upload gives. *)
Definition id_of (u : UploadHgNodeHash) (computed : HgNodeHash) : HgNodeHash := match u with Generate => computed | Supplied id | Checked id => id end.

Definition uploaded_as (root : bool) (f : blob_future) (s : repo_state) (x : entry_step) : Prop :=
  match f with
  | TreeFuture u => exists e, x = step_of root e (tree_path u) /\ get_type e = Tree /\
      (exists computed, get_hash e = id_of (upload_node_id u) computed) /\ (exists env, hm_get (get_hash e) (blobs s) = Some env /\ contents env = tree_contents u)
  | FileFuture u => exists e, x = step_of root e (FilePath (uf_path u)) /\ get_type e = BonsaiDiff.File (uf_file_type u) /\
      (exists computed, get_hash e = id_of (uf_node_id u) computed)
  end.

Lemma run_future_ok root f s s' e path : run_future f s = (s', Ok (e, path)) -> grows s s' /\ uploaded_as root f s' (step_of root e path).
Proof.
  destruct f as [u|u]; cbn [run_future uploaded_as].
  - unfold mbind, eio_bind, reads, put_manifests, mret, eio_ret. destruct (upload_to_blobstore u (blobs s)) as [[store' [e' path']]| |] eqn:E; cbn; try done.
    intros [= <- -> ->]. unfold upload_to_blobstore in E. apply bind_Ok_inv in E as (id & Hid & [= <- <- <-]).
    assert (id = id_of (upload_node_id u) (nodeid (tree_contents u) (HgParents_new (tree_p1 u) (tree_p2 u)))) as Eid.
    { destruct (upload_node_id u); cbn in Hid |- *; [by injection Hid|by injection Hid|]. case_decide; [by injection Hid as ->|done]. }
    split; [by exists [(id, mkEnvelope id (tree_p1 u) (tree_p2 u) (nodeid (tree_contents u) (HgParents_new (tree_p1 u) (tree_p2 u))) (tree_contents u))], []|].
    eexists. split; [done|]. split; [done|]. split; [by eexists|]. cbn. rewrite decide_True by done. by eexists.
  - unfold upload_file_entry, mbind, eio_bind, lift, reads, put_envelope, mret, eio_ret. destruct (execute _ _ _ _) as [[[cbinfo up] comp]| |] eqn:Ex; [|done..].
    destruct (comp s) as [[[id meta] size]| |]; [|done..]. destruct (match uf_node_id u with Generate => _ | Supplied _ => _ | Checked _ => _ end) as [nid| |] eqn:En; [|done..].
    destruct (map_err PathError (basename (uf_path u))) as [name| |]; [|done..]. cbn. 
    assert (forall s0 s1 r, up s0 = (s1, r) -> blobs s1 = blobs s0 /\ envelopes s1 = envelopes s0) as Hup.
    { destruct (uf_contents u); cbn in Ex; [by injection Ex as <- <- <-; intros s0 s1 r [= <- _]|]. apply bind_Ok_inv in Ex as (cf & _ & [= <- <- <-]).
      intros s0 s1 r. cbn. by intros [= <- _]. }
    match goal with |- context [up ?s0] => destruct (up s0) as [s1 [[]| |]] eqn:Eup end; [|done..]. intros [= <- <- <-]. destruct (Hup _ _ _ Eup) as [Hb He]. cbn in Hb, He.
    split; [exists []; eexists [_]; split; [done|by rewrite He]|]. eexists. split; [done|]. split; [done|]. exists id. cbn.
    destruct (uf_node_id u); cbn; [by injection En|by injection En|]. case_decide; [by injection En as ->|done].
Qed.

Lemma run_uploads_ok s pending steps s3 : run_uploads s pending steps s3 -> grows s s3 /\
  exists pending', pending' ≡ₚ pending /\ Forall2 (fun p x => uploaded_as p.1 p.2 x.1 x.2 /\ grows x.1 s3) pending' steps.
Proof.
  induction 1 as [s s' Hg|s s1 s2 s3 root f l1 l2 e path steps Hg Hf _ [Hg3 (p & Hp & Hall)]].
  - split; [done|]. by exists [].
  - destruct (run_future_ok root _ _ _ _ _ Hf) as [Hg2 Hu]. split; [by transitivity s1; [|transitivity s2]|].
    exists ((root, f) :: p). split; [rewrite Hp; by rewrite Permutation_middle|]. by constructor.
Qed.
End run.

(** ** The paths of what is introduced *)

Definition comps (r : RepoPath) : list MPathElement := iter_opt (RepoPath_mpath r).

(** A manifest of a tree, in the form of a revlog's. *)
Definition tree_shaped (u : ManifestUpload) : Prop := exists m, mu_content u = as_path <$> m /\ content_ok m.

Section paths.
Context (manifests : Manifests) (filelogs : Filelogs) (content_blobs : ContentBlobs).
Abbreviation introduced := (introduced manifests filelogs).
Abbreviation fresh := (fresh manifests).

Definition leads (details : Details) (next : MPath) : HgNodeKey :=
  mkNodeKey (match flag details with BonsaiDiff.File _ => FilePath next | Tree => DirectoryPath next end) (entryid details).

(** What the manifest at a path refers to. *)
Definition refers_to (path : RepoPath) (u : ManifestUpload) (key : HgNodeKey) : Prop := exists details next, fresh path u details next /\ key = leads details next.

Lemma introduced_parent path u key f : introduced path u key f ->
  refers_to path u key \/ exists key' up, introduced path u key' (TreeFuture (mu_upload up)) /\ hm_get key' manifests = Some up /\ refers_to (key_path key') up key.
Proof.
  induction 1 as [path u details next ft f Hf Ef _|path u details next up Hf Et _|path u details next up key f Hf Et Eu Hi IH].
  - left. exists details, next. unfold leads. by rewrite Ef.
  - left. exists details, next. unfold leads. by rewrite Et.
  - right. destruct IH as [Hr|(key' & up' & Hi' & Eu' & Hr)].
    + exists (mkNodeKey (DirectoryPath next) (entryid details)), up. split; [by apply introduced_tree|done].
    + exists key', up'. split; [by eapply introduced_below|done].
Qed.

Definition all_shaped path u : Prop := tree_shaped u /\ forall key up, introduced path u key (TreeFuture (mu_upload up)) -> hm_get key manifests = Some up -> tree_shaped up.

Lemma join_child path x : valid_elem x -> join_opt (RepoPath_mpath path) (elements (MPath_of_element x)) = Some (mkMPath (comps path ++ [x])).
Proof. intros Hv%valid_elem_nonempty. unfold comps. cbn. destruct (RepoPath_mpath path) as [[p]|]; cbn; unfold MPath_join; cbn; by rewrite Hv. Qed.

Lemma fresh_child path u m details next : mu_content u = as_path <$> m -> content_ok m -> fresh path u details next ->
  exists x, (x, details) ∈ m /\ next = mkMPath (comps path ++ [x]) /\ leads details next = mkNodeKey (child_path path (x, details)) (entryid details).
Proof.
  intros Em [_ Hv] (name & Hin & Hj & _). rewrite Em in Hin. apply list_elem_of_fmap in Hin as ([x d] & [= -> ->] & Hin). rewrite Forall_forall in Hv. destruct (Hv _ Hin) as [Hx _].
  cbn in Hx. rewrite join_child in Hj by done. injection Hj as <-. by exists x.
Qed.

Lemma comps_introduced path u key f : introduced path u key f -> all_shaped path u -> exists x rest, comps (key_path key) = comps path ++ x :: rest.
Proof.
  induction 1 as [path u details next ft f Hf Ef _|path u details next up Hf Et _|path u details next up key f Hf Et Eu Hi IH]; intros [(m & Em & Hm) Hall];
    destruct (fresh_child _ _ _ _ _ Em Hm Hf) as (x & _ & -> & _); [by exists x, []|by exists x, []|].
  destruct IH as (y & rest & Hr); [split|].
  - apply (Hall (mkNodeKey (DirectoryPath (mkMPath (comps path ++ [x]))) (entryid details))); [by apply introduced_tree|done].
  - intros key' up' Hi' Eu'. apply (Hall key'); [by eapply introduced_below|done].
  - exists x, (y :: rest). rewrite Hr. unfold comps at 1. cbn. by rewrite <- app_assoc.
Qed.

Lemma walk_entries_nodup walk path p1 p2 m : StronglySorted (fun x y => ord_lt x.1 y.1) m -> Forall (fun x => valid_elem x.1) m ->
  (forall x up l cb, x ∈ m -> hm_get (mkNodeKey (DirectoryPath (mkMPath (comps path ++ [x.1]))) (entryid x.2)) manifests = Some up ->
    walk (DirectoryPath (mkMPath (comps path ++ [x.1]))) up = Ok (l, cb) -> is_entry_present_in_parent p1 (MPath_of_element x.1) x.2 = false ->
    is_entry_present_in_parent p2 (MPath_of_element x.1) x.2 = false -> flag x.2 = Tree ->
    NoDup ((fun k => comps (key_path k.1)) <$> l) /\ forall k, k ∈ l -> exists y rest, comps (key_path k.1) = (comps path ++ [x.1]) ++ y :: rest) ->
  forall l cb, walk_entries manifests filelogs content_blobs walk path p1 p2 (as_path <$> m) = Ok (l, cb) ->
  NoDup ((fun k => comps (key_path k.1)) <$> l) /\ forall k, k ∈ l -> exists x rest, x ∈ m /\ comps (key_path k.1) = comps path ++ x.1 :: rest.
Proof.
  induction m as [|[name details] m IH]; intros Hs Hv Hw l cb; cbn [fmap list_fmap as_path fst snd walk_entries].
  { intros [= <- <-]. split; [constructor|by intros k ?%elem_of_nil]. }
  apply StronglySorted_inv in Hs as [Hs Hlt]. apply Forall_cons in Hv as [Hn Hv]. cbn in Hn.
  assert (forall l cb, walk_entries manifests filelogs content_blobs walk path p1 p2 (as_path <$> m) = Ok (l, cb) ->
    NoDup ((fun k => comps (key_path k.1)) <$> l) /\ forall k, k ∈ l -> exists x rest, x ∈ m /\ comps (key_path k.1) = comps path ++ x.1 :: rest) as IH'.
  { apply IH; [done|done|]. intros x up l' cb' Hx. apply Hw. by right. }
  destruct (is_entry_present_in_parent p1 _ _ || is_entry_present_in_parent p2 _ _) eqn:Epresent.
  { intros H. destruct (IH' _ _ H) as [H1 H2]. split; [done|]. intros k Hk. destruct (H2 k Hk) as (x & rest & ? & ?). exists x, rest. rewrite elem_of_cons. auto. }
  apply orb_false_iff in Epresent as [E1 E2]. rewrite join_child by done. cbn [ok_or]. rewrite bind_Ok.
  intros ([l1 cb1] & H1 & ([l2 cb2] & H2 & [= <- <-])%bind_Ok_inv)%bind_Ok_inv. cbn [fst]. destruct (IH' _ _ H2) as [Hn2 Hc2].
  assert (NoDup ((fun k => comps (key_path k.1)) <$> l1) /\ forall k, k ∈ l1 -> exists rest, comps (key_path k.1) = comps path ++ name :: rest) as [Hn1 Hc1].
  { destruct (flag details) as [ft|] eqn:Ef.
    - destruct (hm_get _ filelogs); [apply bind_Ok_inv in H1 as (cbi & _ & [= <- <-])|injection H1 as <- <-].
      + split; [apply NoDup_singleton|]. intros k ->%list_elem_of_singleton. by exists [].
      + split; [constructor|by intros k ?%elem_of_nil].
    - destruct (hm_get _ manifests) as [up|] eqn:Eu; [apply bind_Ok_inv in H1 as ([l' cb'] & Hwalk & [= <- <-])|injection H1 as <- <-].
      + destruct (Hw (name, details) up l' cb') as [Hn' Hc']; [by left|done|done|done|done|done|]. cbn [fst] in Hc' |- *. cbn [fmap list_fmap fst]. split.
        * apply NoDup_cons. split; [|done]. intros (k & Hk & Hin)%list_elem_of_fmap. destruct (Hc' k Hin) as (y & rest & Hr). rewrite Hr in Hk.
          apply (f_equal length) in Hk. unfold comps in Hk. cbn in Hk. rewrite !length_app in Hk. cbn in Hk. lia.
        * intros k [->|Hin]%elem_of_cons; [by exists []|]. destruct (Hc' k Hin) as (y & rest & Hr). exists (y :: rest). by rewrite Hr, <- app_assoc.
      + split; [constructor|by intros k ?%elem_of_nil]. }
  split.
  - rewrite fmap_app, NoDup_app. split; [done|]. split; [|done]. intros c (k1 & -> & Hk1)%list_elem_of_fmap (k2 & Heq & Hk2)%list_elem_of_fmap.
    destruct (Hc1 k1 Hk1) as [r1 Hr1], (Hc2 k2 Hk2) as (x & r2 & Hx & Hr2). rewrite Hr1, Hr2 in Heq. apply app_inv_head in Heq. injection Heq as -> _.
    rewrite Forall_forall in Hlt. pose proof (Hlt x Hx) as Hc. by apply ord_irr in Hc.
  - intros k [Hk|Hk]%elem_of_app; [destruct (Hc1 k Hk) as [rest Hr]; exists (name, details), rest; rewrite elem_of_cons; auto|].
    destruct (Hc2 k Hk) as (x & rest & Hx & Hr). exists x, rest. rewrite elem_of_cons. auto.
Qed.

Lemma walk_nodup fuel : forall path u l cb, walk_helper manifests filelogs content_blobs fuel path u = Ok (l, cb) -> all_shaped path u ->
  NoDup ((fun k => comps (key_path k.1)) <$> l).
Proof.
  induction fuel as [|fuel IH]; intros path u l cb; [done|]. intros Hw [(m & Em & Hm) Hall]. pose proof Hw as Hw0. cbn [walk_helper] in Hw.
  apply bind_Ok_inv in Hw as ([] & _ & H). rewrite Em in H. destruct Hm as [Hwf Hv].
  eapply (walk_entries_nodup _ _ _ _ m) in H; [by destruct H|done|eapply Forall_impl; [exact Hv|]; by intros ? []|].
  intros x up l' cb' Hx Eu Hwalk E1 E2 Et. rewrite Forall_forall in Hv. destruct (Hv x Hx) as [Hvx _].
  assert (fresh path u x.2 (mkMPath (comps path ++ [x.1]))) as Hfresh.
  { exists (MPath_of_element x.1). rewrite Em. split; [apply list_elem_of_fmap; by exists x|]. split; [by apply join_child|done]. }
  assert (all_shaped (DirectoryPath (mkMPath (comps path ++ [x.1]))) up) as Hshape.
  { split; [apply (Hall (mkNodeKey (DirectoryPath (mkMPath (comps path ++ [x.1]))) (entryid x.2))); [by apply introduced_tree|done]|].
    intros key' up' Hi' Eu'. apply (Hall key'); [by eapply introduced_below|done]. }
  split; [by eapply IH|]. intros [key f] Hk. rewrite (walk_introduced _ _ _ _ _ _ _ _ Hwalk) in Hk. by destruct (comps_introduced _ _ _ _ Hk Hshape) as (y & rest & Hr); exists y, rest.
Qed.
End paths.

Lemma Forall2_map_eq {A B D} (R : A -> B -> Prop) (g : A -> D) (f : B -> D) l k : Forall2 R l k -> (forall x y, x ∈ l -> R x y -> f y = g x) -> f <$> k = g <$> l.
Proof.
  induction 1 as [|x y l k Hr _ IH]; intros H; [done|]. cbn. rewrite (H x y) by (by left || done). f_equal. apply IH. intros a b Ha. apply H. by right.
Qed.

(** ** The changeset *)

(** The trees of a push, and its files, as the resolver has them. *)
Section pushed.
Context {C : Sha1Context} {CH : ContentHash}.

Definition manifest_pushed (key : HgNodeKey) (u : ManifestUpload) : Prop :=
  tree_path (mu_upload u) = key_path key /\ (forall c, id_of (upload_node_id (mu_upload u)) c = key_hash key) /\
  RevlogContent_parse (tree_contents (mu_upload u)) = Ok (mu_content u).

Definition filelog_pushed (key : HgNodeKey) (u : UploadHgFileEntry) : Prop := key_path key = FilePath (uf_path u) /\ forall c, id_of (uf_node_id u) c = key_hash key.

Lemma upload_from_in {B V} (upload : B -> outcome resolve_error (HgNodeKey * V)) ubtype blobs : forall map map', upload_from upload ubtype map blobs = Ok map' ->
  forall key v, hm_get key map' = Some v -> hm_get key map = Some v \/ exists item, item ∈ blobs /\ upload item = Ok (key, v).
Proof.
  induction blobs as [|item blobs IH]; intros map map'; cbn [upload_from]; [intros [= <-]; auto|].
  intros ([k v] & Hu & (? & _ & H)%bind_Ok_inv)%bind_Ok_inv key w Hw. destruct (IH _ _ H _ _ Hw) as [Hin|(i & Hi & He)]; [|right; exists i; rewrite elem_of_cons; auto].
  rewrite hm_get_insert in Hin. case_decide as E; [|by left]. subst. injection Hin as ->. right. exists item. by rewrite elem_of_cons; auto.
Qed.

Lemma manifests_pushed polls entries manifests : treemanifest_parse polls = Ok entries -> upload_hg_blobs tree_blob_upload IgnoreDuplicates entries = Ok manifests ->
  forall key u, hm_get key manifests = Some u -> manifest_pushed key u.
Proof.
  intros Hp Hu key u Hk. apply parsed_content in Hp. rewrite Forall_forall in Hp. destruct (upload_from_in _ _ _ _ _ Hu _ _ Hk) as [|(e & He & Heq)]; [done|].
  specialize (Hp e He). unfold tree_blob_upload in Heq. apply bind_Ok_inv in Heq as (? & _ & [= <- <-]). split; [done|]. split; [|done]. cbn. intros c. by destruct (key_path (te_node_key e)).
Qed.

Lemma filelogs_pushed files m : upload_hg_blobs filelog_blob_upload EnsureNoDuplicates files = Ok m ->
  forall key x, hm_get key m = Some x -> filelog_pushed key x.2.
Proof.
  intros Hu key x Hk. destruct (upload_from_in _ _ _ _ _ Hu _ _ Hk) as [|(e & He & Heq)]; [done|]. unfold filelog_blob_upload in Heq.
  apply bind_Ok_inv in Heq as (path & Hpath & (y & _ & [= <- <-])%bind_Ok_inv). destruct (key_path (fl_node_key e)) as [| |p] eqn:Ep; try done. injection Hpath as ->. split; [by rewrite Ep|done].
Qed.

Context (manifests : Manifests) (filelogs : Filelogs) (content_blobs : ContentBlobs).
Context (manifests_ok : forall key u, hm_get key manifests = Some u -> manifest_pushed key u) (filelogs_ok : forall key u, hm_get key filelogs = Some u -> filelog_pushed key u).
Context (root_id : HgNodeHash) (up : ManifestUpload) (nb : NewBlobs).
Context (Hup : hm_get (mkNodeKey RootPath root_id) manifests = Some up) (Hnb : NewBlobs_new manifests filelogs content_blobs root_id = Ok nb) (Hroot : root_id <> NULL_HASH).

Abbreviation introduced := (introduced manifests filelogs).
Definition pending : list (bool * blob_future) := (true, TreeFuture (mu_upload up)) :: ((fun x => (false, x.2)) <$> nb_sub_entries nb).

Lemma sub_entries_introduced key f : (key, f) ∈ nb_sub_entries nb <-> introduced RootPath up key f.
Proof using Hnb Hup Hroot.
  unfold NewBlobs_new in Hnb. rewrite decide_False, Hup in Hnb by done. apply bind_Ok_inv in Hnb as ([l cb] & Hw & [= <-]). by apply (walk_introduced _ _ content_blobs walk_fuel RootPath up l cb).
Qed.

Definition future_path (f : blob_future) : RepoPath := match f with TreeFuture u => tree_path u | FileFuture u => FilePath (uf_path u) end.

Lemma introduced_kind path u key f : introduced path u key f -> future_path f = key_path key /\
  match f with
  | FileFuture g => hm_get key filelogs = Some g /\ exists p, key_path key = FilePath p
  | TreeFuture t => exists up', t = mu_upload up' /\ hm_get key manifests = Some up' /\ exists p, key_path key = DirectoryPath p
  end.
Proof using manifests_ok filelogs_ok.
  induction 1 as [path u details next ft f Hf Ef Eg|path u details next up' Hf Et Eu|path u details next up' key f Hf Et Eu Hi IH]; [| |exact IH].
  - split; [|split; [done|by eexists]]. destruct (filelogs_ok _ _ Eg) as [H _]. symmetry. exact H.
  - split; [|exists up'; split; [done|]; split; [done|by eexists]]. destruct (manifests_ok _ _ Eu) as [H _]. exact H.
Qed.

Context (s0 s : repo_state) (steps : list (repo_state * entry_step)) (draft : bool) (st : UploadEntriesState).
Context (Hrun : run_uploads s0 pending steps s) (Hsteps : process_steps steps (UploadEntries_new draft) = Ok st) (Hone : one_value_per_key (blobs s)).

Definition step_for (root : bool) (f : blob_future) (x : repo_state * entry_step) : Prop := uploaded_as root f x.1 x.2 /\ grows x.1 s.

Lemma steps_pending x : x ∈ steps -> exists root f, (root, f) ∈ pending /\ step_for root f x.
Proof using Hrun.
  intros Hx. destruct (run_uploads_ok _ _ _ _ Hrun) as (_ & p & Hp & Hall). apply list_elem_of_lookup_1 in Hx as [i Hi].
  destruct (Forall2_lookup_r _ _ _ _ _ Hall Hi) as ([root f] & Hf & Hu). exists root, f. split; [rewrite <- Hp; by eapply list_elem_of_lookup_2|exact Hu].
Qed.

Lemma pending_steps root f : (root, f) ∈ pending -> exists x, x ∈ steps /\ step_for root f x.
Proof using Hrun.
  intros Hx. destruct (run_uploads_ok _ _ _ _ Hrun) as (_ & p & Hp & Hall). rewrite <- Hp in Hx. apply list_elem_of_lookup_1 in Hx as [i Hi].
  destruct (Forall2_lookup_l _ _ _ _ _ Hall Hi) as (x & Hf & Hu). exists x. split; [by eapply list_elem_of_lookup_2|exact Hu].
Qed.

(** Every tree that was uploaded has been read as a manifest. *)
Lemma steps_loaded l : forall st st', process_steps l st = Ok st' -> forall s' x, (s', x) ∈ l -> get_type (step_entry x) = Tree ->
  exists m, load_manifest (blobs s') (get_hash (step_entry x)) = Ok m.
Proof.
  clear. induction l as [|[s1 y] l IH]; intros st st'; cbn [process_steps]; [by intros _ ? ? ?%elem_of_nil|].
  intros (st1 & H1 & H2)%bind_Ok_inv s' x [[= -> ->]|Hin]%elem_of_cons Ht; [|by eapply IH]. destruct (process_step_records _ _ _ _ H1) as [(_ & _ & _ & Hm & _) _].
  destruct (Hm Ht) as (m & ? & _). by exists m.
Qed.

Lemma tree_step_shaped key u root x : hm_get key manifests = Some u -> x ∈ steps -> step_for root (TreeFuture (mu_upload u)) x ->
  get_hash (step_entry x.2) = key_hash key /\ get_type (step_entry x.2) = Tree /\
  exists m, mu_content u = as_path <$> m /\ content_ok m /\ load_manifest (blobs x.1) (key_hash key) = Ok m.
Proof using manifests_ok Hsteps Hone.
  intros Hu Hx [Ha Hg]. destruct (manifests_ok _ _ Hu) as (_ & Hid & Hparse). destruct x as [s2 x]. cbn [fst snd] in *.
  destruct Ha as (e & -> & Ht & (c & Hc) & (env & Henv & Hcont)). rewrite Hid in Hc. assert (step_entry (step_of root e (tree_path (mu_upload u))) = e) as He by by destruct root.
  rewrite He. split; [done|]. split; [done|]. destruct (steps_loaded _ _ _ Hsteps _ _ Hx) as [m Hm]; [by rewrite He|]. rewrite He, Hc in Hm. rewrite Hc in Henv. exists m.
  destruct (load_content _ _ _ Hm) as [Hok _]. split; [|by split]. unfold load_manifest, BlobManifest_load in Hm. case_decide as En.
  - exfalso. destruct Hg as (l1 & l2 & Hb & _). destruct Hone as [_ Hnull]. apply (Hnull env). rewrite Hb. apply elem_of_app. right. rewrite <- En. by apply hm_get_in.
  - unfold fetch_manifest_envelope_opt in Hm. rewrite Henv in Hm. case_decide; [|done]. cbn in Hm. rewrite Hcont in Hm.
    destruct (ManifestContent_parse (tree_contents (mu_upload u))) as [m'| |] eqn:Em; try done. injection Hm as ->. apply as_path_parse in Em. rewrite Hparse in Em. by injection Em.
Qed.

Lemma root_shaped : all_shaped manifests filelogs RootPath up.
Proof using manifests_ok Hsteps Hone Hrun Hup Hnb Hroot.
  split.
  - destruct (pending_steps true (TreeFuture (mu_upload up))) as (x & Hx & Hs); [by left|]. destruct (tree_step_shaped _ _ _ _ Hup Hx Hs) as (_ & _ & m & ? & ? & _). by exists m.
  - intros key u Hi Hu. destruct (pending_steps false (TreeFuture (mu_upload u))) as (x & Hx & Hs).
    { right. apply list_elem_of_fmap. exists (key, TreeFuture (mu_upload u)). split; [done|]. by apply sub_entries_introduced. }
    destruct (tree_step_shaped _ _ _ _ Hu Hx Hs) as (_ & _ & m & ? & ? & _). by exists m.
Qed.

(** *** What each step is *)

Lemma step_path_of root f x : (root, f) ∈ pending -> step_for root f x -> step_path x.2 = future_path f.
Proof using manifests_ok Hup.
  intros Hp [Ha _]. destruct x as [s2 x]. destruct f as [u|u]; destruct Ha as (e & Hx & _); cbn [snd] in Hx |- *; rewrite Hx; cbn; (destruct root; [|done]); cbn.
  - apply elem_of_cons in Hp as [[= ->]|(y & [= ] & _)%list_elem_of_fmap]. destruct (manifests_ok _ _ Hup) as [-> _]. done.
  - apply elem_of_cons in Hp as [[= ]|(y & [= ] & _)%list_elem_of_fmap].
Qed.

Lemma root_path : future_path (TreeFuture (mu_upload up)) = RootPath.
Proof using manifests_ok Hup. apply (manifests_ok _ _ Hup). Qed.

Lemma paths_nodup : NoDup ((fun x => step_path x.2) <$> steps).
Proof using manifests_ok filelogs_ok Hsteps Hone Hrun Hup Hnb Hroot.
  pose proof root_shaped as Hshaped. pose proof Hnb as Hnb'. destruct (run_uploads_ok _ _ _ _ Hrun) as (_ & p & Hp & Hall).
  assert ((fun x => step_path x.2) <$> steps = (fun x => future_path x.2) <$> p) as ->.
  { eapply Forall2_map_eq; [exact Hall|]. intros [root f] x Hin Hs. apply (step_path_of root); [by rewrite <- Hp|exact Hs]. }
  rewrite Hp. unfold pending. cbn [fmap list_fmap snd]. rewrite root_path. rewrite <- list_fmap_compose. cbn.
  assert ((fun x : HgNodeKey * blob_future => future_path x.2) <$> nb_sub_entries nb = (fun x => key_path x.1) <$> nb_sub_entries nb) as Heq.
  { apply list_fmap_ext. intros i [key f] Hi. cbn. apply list_elem_of_lookup_2, sub_entries_introduced in Hi. by apply introduced_kind in Hi as [-> _]. }
  change (((fun x : bool * blob_future => future_path x.2) ∘ (fun x : HgNodeKey * blob_future => (false, x.2))) <$> nb_sub_entries nb) with ((fun x : HgNodeKey * blob_future => future_path x.2) <$> nb_sub_entries nb).
  rewrite Heq. apply NoDup_cons. split.
  - intros ([key f] & Hk & Hin)%list_elem_of_fmap. apply sub_entries_introduced in Hin. destruct (comps_introduced _ _ _ _ _ _ Hin Hshaped) as (y & rest & Hc). cbn in Hk. by rewrite <- Hk in Hc.
  - unfold NewBlobs_new in Hnb'. rewrite decide_False, Hup in Hnb' by done. apply bind_Ok_inv in Hnb' as ([l cb] & Hw & Hl). injection Hl as <-.
    pose proof (walk_nodup _ _ _ _ _ _ _ _ Hw Hshaped) as Hn. apply (NoDup_fmap_1 comps). by rewrite <- list_fmap_compose.
Qed.

Lemma steps_fine x : x ∈ steps -> step_ok x.2 /\ later x.1 s.
Proof using manifests_ok filelogs_ok Hsteps Hone Hrun Hup Hnb Hroot.
  intros Hx. destruct (steps_pending x Hx) as (root & f & Hp & Ha & Hg). split; [|by apply grows_later]. destruct x as [s2 x]. cbn [fst snd] in *.
  pose proof (step_path_of _ _ (s2, x) Hp (conj Ha Hg)) as Hpath. cbn in Hpath. destruct x as [e|e path]; [done|]. cbn in Hpath |- *. subst path.
  assert (exists key, introduced RootPath up key f) as [key Hi].
  { apply elem_of_cons in Hp as [[= -> ->]|([key g] & [= -> ->] & Hin)%list_elem_of_fmap]; [by destruct Ha as (e' & ? & _)|]. exists key. by apply sub_entries_introduced. }
  destruct (comps_introduced _ _ _ _ _ _ Hi root_shaped) as (y & rest & Hc). destruct (introduced_kind _ _ _ _ Hi) as [Hf Hk]. rewrite Hf.
  destruct f as [u|u]; destruct Ha as (e' & He & Ht & _); (destruct root; [done|]); injection He as <-; rewrite Ht.
  - destruct Hk as (? & _ & _ & p & Hp'). exists p. split; [done|]. rewrite Hp' in Hc. unfold comps in Hc. cbn in Hc. by rewrite Hc.
  - destruct Hk as (_ & p & Hp'). by exists p.
Qed.

(** The uploads have the ids that the manifests give them. *)
Lemma step_hash path u key f x : introduced path u key f -> step_for false f x -> get_hash (step_entry x.2) = key_hash key.
Proof using manifests_ok filelogs_ok.
  intros Hi [Ha _]. destruct (introduced_kind _ _ _ _ Hi) as [_ Hk]. destruct x as [s2 x]. cbn [fst snd] in *. destruct f as [u'|u'].
  - destruct Ha as (e & -> & _ & (c & Hc) & _). cbn. destruct Hk as (up' & -> & Hu & _). destruct (manifests_ok _ _ Hu) as (_ & Hid & _). by rewrite Hc.
  - destruct Ha as (e & -> & _ & (c & Hc)). cbn. destruct Hk as (Hu & _). destruct (filelogs_ok _ _ Hu) as [_ Hid]. by rewrite Hc.
Qed.

(** The entry at a path is the one that is required there. *)
Lemma agreed path e h : hm_get path (uploaded_entries st) = Some e -> hm_get path (required_entries st) = Some h -> get_hash e = h.
Proof using manifests_ok filelogs_ok Hsteps Hone Hrun Hup Hnb Hroot.
  destruct (processed_all steps [] _ st (processed_new draft)) as [Hpr _]; [apply Forall_forall; intros x Hx; by apply steps_fine|exact paths_nodup|exact Hsteps|]. cbn [app] in Hpr.
  rewrite (pr_uploaded _ _ Hpr). intros (s2 & x & Hx & Hpath & He) Hreq. destruct (steps_pending _ Hx) as (root & f & Hp & Hs).
  pose proof (step_path_of _ _ _ Hp Hs) as Hfp. cbn in Hfp. apply elem_of_cons in Hp as [[= -> ->]|([key g] & [= -> ->] & Hin)%list_elem_of_fmap].
  - destruct Hs as [(e' & Hxe & _) _]. cbn in Hxe. subst x. cbn in Hpath, He. subst path e'. rewrite (pr_root _ _ Hpr _ _ Hx) in Hreq. by injection Hreq.
  - apply sub_entries_introduced in Hin. destruct (introduced_kind _ _ _ _ Hin) as [Hf Hk].
    assert (get_hash e = key_hash key) as -> by (rewrite <- He; by apply (step_hash _ _ _ _ _ Hin Hs)).
    rewrite Hpath, Hf in Hfp.
    assert (exists root' u' x' p', x' ∈ steps /\ step_for root' (TreeFuture (mu_upload u')) x' /\ (root', TreeFuture (mu_upload u')) ∈ pending /\ refers_to manifests p' u' key /\
      future_path (TreeFuture (mu_upload u')) = p' /\ exists key', hm_get key' manifests = Some u') as (root' & u' & x' & p' & Hx' & Hs' & Hpend' & (details & next & Hfresh & ->) & Hp' & key' & Hu').
    { destruct (introduced_parent _ _ _ _ _ _ Hin) as [Hr|(key' & u' & Hi' & Hu' & Hr)].
      - destruct (pending_steps true (TreeFuture (mu_upload up))) as (x' & Hx' & Hs'); [by left|]. exists true, up, x', RootPath. split_and!; try done; [by left|exact root_path|by eexists].
      - assert ((false, TreeFuture (mu_upload u')) ∈ pending) as Hpend by (right; apply list_elem_of_fmap; exists (key', TreeFuture (mu_upload u')); split; [done|by apply sub_entries_introduced]).
        destruct (pending_steps _ _ Hpend) as (x' & Hx' & Hs'). exists false, u', x', (key_path key'). split_and!; try done; [by apply (introduced_kind _ _ _ _ Hi')|by eexists]. }
    destruct (tree_step_shaped _ _ _ _ Hu' Hx' Hs') as (Hh' & Ht' & m & Em & Hm & Hload). destruct (fresh_child _ _ _ _ _ _ Em Hm Hfresh) as (y & Hy & -> & Hleads).
    destruct x' as [s' x']. destruct (pr_required _ _ Hpr _ _ Hx' Ht') as (m' & Hm' & Hr). cbn [fst snd] in *. rewrite Hh', Hload in Hm'. injection Hm' as <-.
    specialize (Hr _ Hy). cbn [snd] in Hr. rewrite (step_path_of _ _ _ Hpend' Hs' : step_path x' = _), Hp' in Hr.
    rewrite Hleads in Hfp |- *. cbn [key_path key_hash] in Hfp |- *. rewrite Hfp in Hreq. rewrite Hr in Hreq. by injection Hreq.
Qed.
End pushed.

(** ** The whole push *)

Definition pushed_filelogs (files : list (HgNodeKey * (ContentBlobInfo * UploadHgFileEntry))) : Filelogs := (fun x => (x.1, x.2.2)) <$> files.
Definition pushed_contents (files : list (HgNodeKey * (ContentBlobInfo * UploadHgFileEntry))) : ContentBlobs := (fun x => (x.1, x.2.1)) <$> files.

Lemma pushed_filelogs_get files key u : hm_get key (pushed_filelogs files) = Some u -> exists cbi, hm_get key files = Some (cbi, u).
Proof.
  induction files as [|[k [cbi v]] files IH]; [done|]. cbn. case_decide; [|exact IH]. intros [= ->]. by exists cbi.
Qed.

(** C9. A changeset of a push whose root manifest came with the push is created
    from the trees and files that came: they are uploaded in any order while
    others write to the store, each is recorded when it is uploaded, and the
    checks in the end pass. The checks look at what the uploaded manifests
    refer to and no further; so if each stored tree that this changeset did not
    upload has all that is below it in the store, then so has its root
    manifest. The parents of each uploaded entry are there too; and unless it
    is a draft, the root and each introduced tree and file has its filenode, at
    its path and with its id, linked to the changeset. A key of the store has
    one value and trees are acyclic, as their ids are hashes. *)
Theorem pushed_changeset_whole {C : Sha1Context} {CH : ContentHash} polls entries manifests logs files root_id up nb s0 s steps draft st cs_id infos :
  treemanifest_parse polls = Ok entries -> upload_hg_blobs tree_blob_upload IgnoreDuplicates entries = Ok manifests ->
  upload_hg_blobs filelog_blob_upload EnsureNoDuplicates logs = Ok files ->
  hm_get (mkNodeKey RootPath root_id) manifests = Some up -> root_id <> NULL_HASH ->
  NewBlobs_new manifests (pushed_filelogs files) (pushed_contents files) root_id = Ok nb ->
  run_uploads s0 (pending up nb) steps s -> process_steps steps (UploadEntries_new draft) = Ok st -> finalize s st cs_id = Ok infos ->
  one_value_per_key (blobs s) -> well_founded (refers s) ->
  (forall h, is_Some (hm_get h (blobs s)) -> Forall (fun x => entry_id (step_entry x.2) <> (Tree, h)) steps -> whole s (Tree, h)) ->
  whole s (Tree, root_id) /\
  (forall s' x parents h, (s', x) ∈ steps -> entry_parents s' (step_entry x) = Ok parents -> h ∈ parents_list parents -> is_present s h (is_tree (step_path x)) = true) /\
  (if draft then infos = []
   else forall key, key = mkNodeKey RootPath root_id \/ key ∈ (nb_sub_entries nb).*1 ->
     exists info, info ∈ infos /\ fi_path info = key_path key /\ fi_filenode info = key_hash key /\ fi_linknode info = cs_id).
Proof.
  intros Hparse Hman Hfiles Hup Hroot Hnb Hrun Hsteps Hfin Hone Hwf Hclosed.
  pose proof (manifests_pushed _ _ _ Hparse Hman) as Hm.
  assert (forall key u, hm_get key (pushed_filelogs files) = Some u -> filelog_pushed key u) as Hf.
  { intros key u (cbi & Hk)%pushed_filelogs_get. by apply (filelogs_pushed _ _ Hfiles key (cbi, u)). }
  destruct (finalize_complete steps s draft st cs_id infos) as (Hwhole & Hparents & Hinfos); try done.
  - apply Forall_forall. intros x Hx. by eapply steps_fine.
  - by eapply paths_nodup.
  - intros path e h. by eapply agreed.
  - destruct (pending_steps up nb s0 s steps Hrun true (TreeFuture (mu_upload up))) as ([s' x] & Hx & Hs); [by left|].
    destruct (tree_step_shaped manifests Hm s steps draft st Hsteps Hone _ up true (s', x) Hup Hx Hs) as (Hh & Ht & _). cbn [snd key_hash] in Hh, Ht.
    split; [|split; [exact Hparents|destruct draft; [exact Hinfos|]]].
    { pose proof (Hwhole _ _ Hx) as Hw. unfold entry_id in Hw. by rewrite Hh, Ht in Hw. }
    intros key [->|([key' f] & -> & Hin)%list_elem_of_fmap].
    + pose proof (step_path_of manifests Hm root_id up nb Hup s true _ _ ltac:(by left) Hs) as Hp. cbn [snd] in Hp.
      rewrite (root_path manifests Hm root_id up Hup) in Hp. rewrite <- Hp, <- Hh. by eapply Hinfos.
    + assert ((false, f) ∈ pending up nb) as Hpend by (right; apply list_elem_of_fmap; by exists (key', f)).
      destruct (pending_steps up nb s0 s steps Hrun false f Hpend) as ([s2 y] & Hy & Hs2).
      pose proof (step_path_of manifests Hm root_id up nb Hup s false _ _ Hpend Hs2) as Hp. cbn [fst snd] in Hp |- *.
      apply (sub_entries_introduced manifests _ _ root_id up nb Hup Hnb Hroot) in Hin.
      rewrite (proj1 (introduced_kind manifests _ Hm Hf _ _ _ _ Hin)) in Hp. rewrite <- Hp, <- (step_hash manifests _ Hm Hf s _ _ _ _ _ Hin Hs2). by eapply Hinfos.
Qed.

(** ** Example: a root manifest with a directory that has one file *)

Section example.
#[local] Instance push_digest : Sha1Context := {| digest _ := mkSha1 (replicate 20 x02) |}.
#[local] Instance push_content_hash : ContentHash := {| content_hash _ := mkContentId (mkBlake2 (replicate 32 x00)); get_sha256 _ := mkSha256 (replicate 32 x00) |}.

Definition pw_root : HgNodeHash := push_node x01.
Definition pw_id : HgNodeHash := push_node x02.
Definition pw_dir : MPathElement := mkElem (bstr "d").
Definition pw_name : MPathElement := mkElem (bstr "f").
Definition pw_path : MPath := mkMPath [pw_dir; pw_name].

Definition pw_group (path : RepoPath) (node : HgNodeHash) (m : ManifestContent) : tree_group :=
  mkGroup path (Wirepack.mkHistory node NULL_HASH NULL_HASH NULL_HASH None) (Wirepack.mkData node NULL_HASH (Delta_new_fulltext (manifest_text m))).
Definition pw_groups : list tree_group :=
  [pw_group RootPath pw_root [(pw_dir, mkDetails pw_id Tree)];
   pw_group (DirectoryPath (mkMPath [pw_dir])) pw_id [(pw_name, mkDetails pw_id (BonsaiDiff.File Regular))]].
Definition pw_parts : list (poll Wirepack.WPart) := NotReady :: (Ready <$> mjoin (group_parts <$> pw_groups)) ++ [Ready Wirepack.WEnd].
Definition pw_logs : list Filelog_ := [mkFilelog (mkNodeKey (FilePath pw_path) pw_id) None None NULL_HASH (FilelogRawBytes (bstr "one")) 0].

(** What the functions give. *)
Definition or_else {E A} (d : A) (m : outcome E A) : A := match m with Ok a => a | _ => d end.
Definition pw_entries := Eval vm_compute in or_else [] (treemanifest_parse pw_parts).
Definition pw_manifests := Eval vm_compute in or_else [] (upload_hg_blobs tree_blob_upload IgnoreDuplicates pw_entries).
Definition pw_files := Eval vm_compute in or_else [] (upload_hg_blobs filelog_blob_upload EnsureNoDuplicates pw_logs).
Definition pw_up := Eval vm_compute in default (mkManifestUpload [] None None (mkUploadTree Generate [] None None RootPath)) (hm_get (mkNodeKey RootPath pw_root) pw_manifests).
Definition pw_nb := Eval vm_compute in or_else (mkNewBlobs NoRoot [] []) (NewBlobs_new pw_manifests (pushed_filelogs pw_files) (pushed_contents pw_files) pw_root).

(** The file is uploaded first, then its directory, then the root. *)
Definition pw_futures : list (bool * blob_future) := Eval vm_compute in reverse (pending pw_up pw_nb).
Fixpoint pw_run (s : repo_state) (l : list (bool * blob_future)) : list (repo_state * entry_step) :=
  match l with
  | [] => []
  | (root, f) :: l => let '(s', r) := run_future f s in match r with Ok (e, path) => (s', step_of root e path) :: pw_run s' l | _ => [] end
  end.
Definition pw_steps := Eval vm_compute in pw_run push_empty pw_futures.
Definition pw_state := Eval vm_compute in default push_empty (fst <$> last pw_steps).
Definition pw_st := Eval vm_compute in or_else (UploadEntries_new false) (process_steps pw_steps (UploadEntries_new false)).
Definition pw_infos := Eval vm_compute in or_else [] (finalize pw_state pw_st (push_node x09)).

Lemma run_next_alone s s2 s3 root f l1 l2 e path x steps : run_future f s = (s2, Ok (e, path)) -> x = step_of root e path ->
  run_uploads s2 (l1 ++ l2) steps s3 -> run_uploads s (l1 ++ (root, f) :: l2) ((s2, x) :: steps) s3.
Proof. intros Hf -> Hrun. by eapply run_next. Qed.

Lemma pw_uploads : run_uploads push_empty (pending pw_up pw_nb) pw_steps pw_state.
Proof.
  eapply (run_next_alone _ _ _ _ _ [_; _] []); [vm_compute; reflexivity|reflexivity|].
  eapply (run_next_alone _ _ _ _ _ [_] []); [vm_compute; reflexivity|reflexivity|].
  eapply (run_next_alone _ _ _ _ _ [] []); [vm_compute; reflexivity|reflexivity|]. by apply run_none.
Qed.

Lemma pw_keys h env : hm_get h (blobs pw_state) = Some env -> h = pw_root \/ h = pw_id.
Proof. cbn. case_decide; [by left|]. case_decide; [by right|done]. Qed.

Lemma pw_acyclic : well_founded (refers pw_state).
Proof.
  assert (forall c h, refers pw_state c h -> h = pw_root /\ c = pw_id) as Hr.
  { intros c h (m & y & Hm & Hy & Ht & <-). assert (h = pw_root \/ h = pw_id) as Hh.
    { destruct (hm_get h (blobs pw_state)) as [env|] eqn:E; [by eapply pw_keys|]. unfold load_manifest, BlobManifest_load, fetch_manifest_envelope_opt in Hm. rewrite E in Hm.
      destruct (decide (h = NULL_HASH)); [|done]. injection Hm as <-. by apply elem_of_nil in Hy. }
    destruct Hh as [-> | ->]; vm_compute in Hm; injection Hm as <-; apply list_elem_of_singleton in Hy as ->; [done|discriminate Ht]. }
  intros h. constructor. intros c [_ ->]%Hr. constructor. by intros c' [? _]%Hr.
Qed.

Lemma pushed_changeset_whole_witness : whole pw_state (Tree, pw_root) /\ fi_path <$> pw_infos = [FilePath pw_path; DirectoryPath (mkMPath [pw_dir]); RootPath] /\
  exists info, info ∈ pw_infos /\ fi_path info = FilePath pw_path /\ fi_filenode info = pw_id /\ fi_linknode info = push_node x09.
Proof.
  destruct (pushed_changeset_whole pw_parts pw_entries pw_manifests pw_logs pw_files pw_root pw_up pw_nb push_empty pw_state pw_steps false pw_st (push_node x09) pw_infos)
    as (Hw & _ & Hi); try (vm_compute; reflexivity).
  - vm_compute. discriminate.
  - exact pw_uploads.
  - apply one_value_checked. vm_compute. reflexivity.
  - exact pw_acyclic.
  - intros h [env Hh%pw_keys] H. exfalso. apply Forall_cons in H as [_ [Hdir [Hr _]%Forall_cons]%Forall_cons]. destruct Hh as [-> | ->]; [by apply Hr|by apply Hdir].
  - split; [exact Hw|]. split; [vm_compute; reflexivity|]. apply (Hi (mkNodeKey (FilePath pw_path) pw_id)). right. vm_compute. by right; left.
Defined.
End example.
