(* ===== verification/Framed.v ===== *)
(** * Framed readers

    The streams of a bundle are read through [tokio_codec::Framed], a
    third-party driver of decoders over an asynchronous reader. It is a
    parameter here: [Reader] is what [AsyncRead] gives, [framed_poll] what
    polling a [Framed] does, and [FramedLaws] its documented behaviour;
    [polled_view] says it of all the bytes that are still to come. *)

From S2P Require Import Prelude.

(** A reader gives what is there, nothing at the end of its input, or is not
    ready; [pending] are the bytes it will give, [waits] bounds how often it
    will not be ready. *)
Class Reader (R : Type) := {
  read : R -> R * poll bytes;
  pending : R -> bytes;
  waits : R -> nat;
}.

Class ReaderLaws (R : Type) `{!Reader R} : Prop :=
  read_spec : forall r : R,
    match read r with
    | (r', NotReady) => pending r' = pending r /\ waits r' < waits r
    | (r', Ready b) => pending r = b ++ pending r' /\ waits r' <= waits r /\ (b = [] -> pending r = [])
    end.

(** [Cursor::new(buf).chain(io)] of the standard library: what is left of the
    buffer, then the reader. *)
Record Chain (R : Type) := mkChain { cursor : bytes; chained : R }.
Arguments mkChain {R}. Arguments cursor {R}. Arguments chained {R}.

#[export] Instance chain_reader {R} `{!Reader R} : Reader (Chain R) := {|
  read c :=
    match cursor c with
    | [] => let '(r, p) := read (chained c) in (mkChain [] r, p)
    | b => (mkChain [] (chained c), Ready b)
    end;
  pending c := cursor c ++ pending (chained c);
  waits c := waits (chained c);
|}.

#[export] Instance chain_reader_laws {R} `{!Reader R} `{!ReaderLaws R} : ReaderLaws (Chain R).
Proof.
  intros [[|b bs] r]; cbn.
  - pose proof (read_spec r) as H. destruct (read r) as [r' [|b]]; exact H.
  - split; [done|]. split; [lia|done].
Qed.

(** ** Decoders with their buffer

    [Decoder::decode] takes the decoder and the buffer by [&mut]: both come
    back, whatever the result. [decode_eof] is the trait's default. *)
Definition frame_decoder (St Item E : Type) := St -> bytes -> St * bytes * outcome E (option Item).

(** More input after the buffer does not change what was decoded, and a
    decoder that wants more leaves its state and the buffer alone. Allocations
    are bounded by [isize::MAX]. *)
Definition isize_max : N := (2 ^ 63 - 1)%N.

Definition undisturbed {St Item E} (dec : frame_decoder St Item E) : Prop :=
  forall st buf ext, (lenN (buf ++ ext) <= isize_max)%N ->
    match dec st buf with
    | (st', rest, Ok (Some x)) => dec st (buf ++ ext) = (st', rest ++ ext, Ok (Some x))
    | (st', rest, Ok None) => st' = st /\ rest = buf
    | (st', rest, Err e) => dec st (buf ++ ext) = (st', rest ++ ext, Err e)
    | (st', rest, Panic) => (dec st (buf ++ ext)).2 = Panic
    end.

Inductive framed_error (E : Type) :=
| DecoderError (e : E)
| BytesRemaining.
Arguments DecoderError {E} e.
Arguments BytesRemaining {E}.

(** [flags] is the private state of a [Framed], [fresh] its value after
    [Framed::from_parts] with an empty buffer. *)
Record Framed (flags R St : Type) := mkFramed {
  io : R;
  read_buf : bytes;
  codec : St;
  framed_flags : flags;
}.
Arguments mkFramed {flags R St}. Arguments io {flags R St}. Arguments read_buf {flags R St}.
Arguments codec {flags R St}. Arguments framed_flags {flags R St}.

(** [in_order] are the states a [Framed] can be in: what its flags say of its
    reader and buffer is so. *)
Class FramedLib := {
  flags : Type;
  fresh : flags;
  framed_poll {R} `{!Reader R} {St Item E} :
    frame_decoder St Item E -> Framed flags R St -> Framed flags R St * outcome (framed_error E) (poll (option Item));
  in_order {R} `{!Reader R} {St Item E} : frame_decoder St Item E -> Framed flags R St -> Prop;
}.

Abbreviation framed := (Framed flags).

Definition from_parts `{FramedLib} {R St} (r : R) (st : St) : framed R St := mkFramed r [] st fresh.

(** One read. *)
Definition read_step {R} `{!Reader R} (r r' : R) : Prop := r' = (read r).1.

(** The documented behaviour for a decoder that is not disturbed by more
    input: [Framed] reads (that is all it does with its reader), decodes what it has read, and gives the first item;
    it waits only when the reader is not ready, and at the end of the input
    bytes that make no item are an error. *)
Definition polled_ok {fl R} `{!Reader R} {St Item E} (dec : frame_decoder St Item E) (f f' : Framed fl R St)
    (r : outcome (framed_error E) (poll (option Item))) : Prop :=
  rtc read_step (io f) (io f') /\
  exists b, pending (io f) = b ++ pending (io f') /\ waits (io f') <= waits (io f) /\
    let buf := read_buf f ++ b in
    match r with
    | Ok (Ready (Some x)) => dec (codec f) buf = (codec f', read_buf f', Ok (Some x))
    | Ok (Ready None) => pending (io f') = [] /\ read_buf f' = [] /\ dec (codec f) buf = (codec f', [], Ok None)
    | Ok NotReady => waits (io f') < waits (io f) /\
        (dec (codec f) buf = (codec f', read_buf f', Ok None) \/ (buf = [] /\ read_buf f' = [] /\ codec f' = codec f))
    | Err (DecoderError e) => dec (codec f) buf = (codec f', read_buf f', Err e)
    | Err BytesRemaining => pending (io f') = [] /\ read_buf f' <> [] /\
        dec (codec f) buf = (codec f', read_buf f', Ok None)
    | Panic => (dec (codec f) buf).2 = Panic
    end.

Class FramedLaws (L : FramedLib) : Prop := {
  from_parts_in_order {R} `{!Reader R} {St Item E} (dec : frame_decoder St Item E) (r : R) (st : St) :
    in_order dec (from_parts r st);
  framed_poll_spec {R} `{!Reader R} `{!ReaderLaws R} {St Item E} (dec : frame_decoder St Item E) f :
    undisturbed dec -> in_order dec f -> (lenN (read_buf f ++ pending (io f)) <= isize_max)%N ->
    let '(f', r) := framed_poll dec f in in_order dec f' /\ polled_ok dec f f' r;
}.

(** ** A [Framed] seen from outside *)

Section view.
Context {fl R St Item E : Type} `{!Reader R} (dec : frame_decoder St Item E).

(** All that is still to be decoded. *)
Definition ahead (f : Framed fl R St) : bytes := read_buf f ++ pending (io f).

Lemma polled_view (f f' : Framed fl R St) r :
  undisturbed dec -> (lenN (ahead f) <= isize_max)%N -> polled_ok dec f f' r ->
  rtc read_step (io f) (io f') /\ waits (io f') <= waits (io f) /\
  match r with
  | Ok (Ready (Some x)) => dec (codec f) (ahead f) = (codec f', ahead f', Ok (Some x))
  | Ok (Ready None) => ahead f' = [] /\ dec (codec f) (ahead f) = (codec f', [], Ok None)
  | Ok NotReady => waits (io f') < waits (io f) /\ codec f' = codec f /\ ahead f' = ahead f
  | Err (DecoderError e) => dec (codec f) (ahead f) = (codec f', ahead f', Err e)
  | Err BytesRemaining => ahead f' <> [] /\ dec (codec f) (ahead f) = (codec f', ahead f', Ok None)
  | Panic => (dec (codec f) (ahead f)).2 = Panic
  end.
Proof.
  intros Hu Hlen (Hreads & b & Hb & Hw & Hr). split; [done|]. split; [done|]. unfold ahead in *. rewrite Hb, app_assoc in *.
  pose proof (Hu (codec f) (read_buf f ++ b) (pending (io f')) Hlen) as H. clear Hlen. revert H Hr. generalize (read_buf f ++ b).
  intros buf H Hr. cbv zeta in Hr. destruct r as [[|[x|]]|[e|]|].
  - destruct Hr as [Hlt [Hd|(-> & -> & ->)]]; (split; [done|]); [|done]. rewrite Hd in H. by destruct H as [-> ->].
  - by rewrite Hr in H.
  - destruct Hr as (-> & -> & Hd). split; [done|]. by rewrite app_nil_r.
  - by rewrite Hr in H.
  - destruct Hr as (-> & Hne & Hd). rewrite !app_nil_r. done.
  - destruct (dec (codec f) buf) as [[st rest] o]. cbn in Hr. by subst o.
Qed.
End view.
