(* ===== verification/StreamStart.v ===== *)
(** * The start of a bundle2 stream, and capabilities

    Model of [mercurial_bundles/src/stream_start.rs], [types.rs],
    [capabilities.rs], of the stream parameters in [utils.rs], and of the
    header that the builder in [bundle2_encode.rs] writes. *)

From stdpp Require Import fin_maps.
From S2P Require Import Prelude BundleCodec Framing PartHeader Framed.

(** Percent-encoding is the [url] crate's: decoding gives back what was
    encoded, and encoded text is ASCII without the delimiters, which are in
    the encode set of [mercurial_types/src/utils.rs]. *)
Class PercentEncoding := {
  percent_encode : bytes -> bytes;
  percent_decode : bytes -> bytes;
}.

Definition delimiter (b : byte) : Prop := b ∈ bstr " =,".

Class PercentLaws (P : PercentEncoding) : Prop := {
  percent_roundtrip s : percent_decode (percent_encode s) = s;
  percent_clean s b : b ∈ percent_encode s -> ~ delimiter b;
}.

(** The tables of Unicode, for a character (the bytes of one) and for text. *)
Class CharTables := {
  is_alphabetic : bytes -> bool;
  is_uppercase : bytes -> bool;
  to_uppercase : bytes -> bytes;
  str_to_lowercase : bytes -> bytes;
}.

Definition is_ascii (b : byte) : bool := in_range 0 127 b.

Class CharTablesLaws (T : CharTables) : Prop := {
  ascii_alphabetic b : is_ascii b = true -> is_alphabetic [b] = is_ascii_upper b || is_ascii_lower b;
  ascii_uppercase b : is_ascii b = true -> is_uppercase [b] = is_ascii_upper b;
  ascii_to_uppercase b : is_ascii b = true -> to_uppercase [b] = [ascii_upper_byte b];
  ascii_to_lowercase s : Forall (fun b => is_ascii b = true) s -> str_to_lowercase s = to_ascii_lowercase s;
}.

(** The order in which a [HashMap] of parameters is iterated. *)
Class ParamOrder := { param_order : gmap bytes bytes -> list (bytes * bytes) }.
Class ParamOrderLaws (O : ParamOrder) : Prop :=
  param_order_perm : forall m, param_order m ≡ₚ map_to_list m.

Inductive start_error :=
| BadMagic
| BadStreamVal
| StreamKeyNotUtf8
| StreamValNotUtf8
| BadStreamKey
| UnknownCompression
| CompressionNotHere.

Record StreamHeader := mkStreamHeader {
  m_stream_params : gmap bytes bytes;
  a_stream_params : gmap bytes bytes;
}.

(** [splitn(2, |c| c == sep)]: the second piece is missing without [sep]. *)
Fixpoint splitn2 (sep : byte) (l : bytes) : bytes * option bytes :=
  match l with
  | [] => ([], None)
  | b :: l =>
      if decide (b = sep) then ([], Some l)
      else let '(key, val) := splitn2 sep l in (b :: key, val)
  end.

(** [chars().next()]: the first character of valid UTF-8, and the rest. *)
Definition char_len (b : byte) : nat :=
  if in_range 0 127 b then 1 else if in_range 0 223 b then 2 else if in_range 0 239 b then 3 else 4.

Definition first_char (s : bytes) : option (bytes * bytes) :=
  match s with
  | [] => None
  | b :: _ => Some (take (char_len b) s, drop (char_len b) s)
  end.

Section start.
Context {P : PercentEncoding} {T : CharTables} {O : ParamOrder}.

(** ** [utils.rs] *)

Definition is_mandatory_param (s : bytes) : outcome start_error bool :=
  match first_char s with
  | Some (ch, _) => if is_alphabetic ch then Ok (is_uppercase ch) else Err BadStreamKey
  | None => Err BadStreamKey
  end.

Definition capitalize_first (s : bytes) : bytes :=
  match first_char s with
  | None => []
  | Some (ch, rest) => to_uppercase ch ++ rest
  end.

Inductive DecompressorType := DBzip2 | DGzip | OverreadingZstd.
Inductive CompressorType := Bzip2 | Gzip | Zstd.

Definition get_decompressor_type (compression : option bytes) : outcome start_error (option DecompressorType) :=
  match compression with
  | Some s =>
      if decide (s = bstr "BZ") then Ok (Some DBzip2) else
      if decide (s = bstr "GZ") then Ok (Some DGzip) else
      if decide (s = bstr "ZS") then Ok (Some OverreadingZstd) else
      if decide (s = bstr "UN") then Ok None else Err UnknownCompression
  | None => Ok None
  end.

Definition get_compression_param (ct : option CompressorType) : bytes :=
  match ct with
  | Some Bzip2 => bstr "BZ"
  | Some Gzip => bstr "GZ"
  | Some Zstd => bstr "ZS"
  | None => bstr "UN"
  end.

(** ** [StartDecoder] *)

(** One header of [decode_stream_params]: whether it is mandatory, its key
    and its value. The key of [splitn] is always there. *)
Definition decode_stream_param (header : bytes) : outcome start_error (bool * bytes * bytes) :=
  let '(key, val) := splitn2 "=" header in
  val ← ok_or val BadStreamVal;
  key_str ← ok_or (from_utf8 (percent_decode key)) StreamKeyNotUtf8;
  val_str ← ok_or (from_utf8 (percent_decode val)) StreamValNotUtf8;
  m ← is_mandatory_param key_str;
  Ok (m, str_to_lowercase key_str, val_str).

Fixpoint decode_stream_params_loop (headers : list bytes) (m a : gmap bytes bytes)
    : outcome start_error (gmap bytes bytes * gmap bytes bytes) :=
  match headers with
  | [] => Ok (m, a)
  | header :: headers =>
      '(mandatory, key, val) ← decode_stream_param header;
      if mandatory : bool then decode_stream_params_loop headers (<[key := val]> m) a
      else decode_stream_params_loop headers m (<[key := val]> a)
  end.

Definition decode_stream_params (header_buf : bytes) : outcome start_error (gmap bytes bytes * gmap bytes bytes) :=
  if Nat.eqb (length header_buf) 0 then Ok (∅, ∅)
  else decode_stream_params_loop (split_on " " header_buf) ∅ ∅.

Definition start_decode : frame_decoder unit StreamHeader start_error := fun st buf =>
  if (lenN buf <=? 8)%N then (st, buf, Ok None) else
  if decide (take 4 buf <> bstr "HG20") then (st, buf, Err BadMagic) else
  let header_len := N.to_nat (read_u (take 4 (drop 4 buf))) in
  if Nat.leb (length buf) (8 + header_len) then (st, buf, Ok None) else
  let buf := drop 8 buf in
  (st, drop header_len buf,
   '(m, a) ← decode_stream_params (take header_len buf); Ok (Some (mkStreamHeader m a))).

(** ** The header of [Bundle2EncodeBuilder] *)

Definition add_stream_param (header : StreamHeader) (key val : bytes) : outcome start_error StreamHeader :=
  if decide (str_to_lowercase key = bstr "compression") then Err CompressionNotHere else
  m ← is_mandatory_param key;
  Ok (if m : bool
      then mkStreamHeader (<[str_to_lowercase key := val]> (m_stream_params header)) (a_stream_params header)
      else mkStreamHeader (m_stream_params header) (<[str_to_lowercase key := val]> (a_stream_params header))).

Definition build_stream_params (params : list (bytes * bytes)) (header_buf : bytes) : bytes :=
  (foldl (fun '(first, buf) '(key, val) =>
     let buf := if first : bool then buf else buf ++ bstr " " in
     (false, buf ++ percent_encode key ++ bstr "=" ++ percent_encode val)) (true, header_buf) params).2.

Definition start_header (header : StreamHeader) (ct : option CompressorType) : StreamHeader :=
  mkStreamHeader (<[bstr "compression" := get_compression_param ct]> (m_stream_params header)) (a_stream_params header).

(** What [build] writes first: the length is filled in at the end. *)
Definition header_buf (header : StreamHeader) (ct : option CompressorType) : bytes :=
  let h := start_header header ct in
  let params := ((fun x => (capitalize_first x.1, x.2)) <$> param_order (m_stream_params h))
                ++ param_order (a_stream_params h) in
  let buf := build_stream_params params (bstr "HG20" ++ u_be 4 0) in
  let header_len := ((lenN buf - 8) mod 2 ^ 32)%N in
  take 4 buf ++ u_be 4 header_len ++ drop 8 buf.

(** ** Capabilities *)

Definition Capabilities := gmap bytes (list bytes).

Definition decode_cap (kv : bytes) : outcome start_error (bytes * list bytes) :=
  let '(key, val) := splitn2 "=" kv in
  key ← ok_or (from_utf8 (percent_decode key)) StreamKeyNotUtf8;
  values ← match val with
           | None => Ok []
           | Some values =>
               collect (fun v => ok_or (from_utf8 (percent_decode v)) StreamValNotUtf8)
                 (List.filter (fun v => negb (Nat.eqb (length v) 0)) (split_on "," values))
           end;
  Ok (key, values).

Fixpoint decode_caps (kvs : list bytes) (caps : Capabilities) : outcome start_error Capabilities :=
  match kvs with
  | [] => Ok caps
  | kv :: kvs => '(key, values) ← decode_cap kv; decode_caps kvs (<[key := values]> caps)
  end.

(** One item is decoded, at the end of the input. *)
Definition capabilities_decode (st : unit) (buf : bytes) : unit * outcome start_error (option Capabilities * bytes) :=
  (st, Ok (None, buf)).

Definition capabilities_decode_eof (st : unit) (buf : bytes)
    : unit * outcome start_error (option Capabilities * bytes) :=
  (st, caps ← decode_caps (split_on x0a buf) ∅; Ok (Some caps, [])).

(** ** The header is read back *)

(** Keys as [add_stream_param] stores them, when they are ASCII. *)
Definition good_key (k : bytes) : Prop :=
  exists b k', k = b :: k' /\ is_ascii_lower b = true /\ Forall (fun b => is_ascii b = true) k /\ to_ascii_lowercase k = k.

Definition good_param (x : bytes * bytes) : Prop := good_key x.1 /\ utf8_valid x.2 = true.

Record good_header (h : StreamHeader) : Prop := {
  good_m : map_Forall (fun k v => good_param (k, v)) (m_stream_params h);
  good_a : map_Forall (fun k v => good_param (k, v)) (a_stream_params h);
}.

(** One parameter on the wire, and all of them. *)
Definition encoded_param (x : bytes * bytes) : bytes := percent_encode x.1 ++ bstr "=" ++ percent_encode x.2.
Definition encoded_params (ps : list (bytes * bytes)) : bytes := join_with " " (encoded_param <$> ps).

Definition capitalized (x : bytes * bytes) : bytes * bytes := (capitalize_first x.1, x.2).

Definition wire_params (h : StreamHeader) : list (bytes * bytes) :=
  (capitalized <$> param_order (m_stream_params h)) ++ param_order (a_stream_params h).

Lemma build_stream_params_eq ps buf : build_stream_params ps buf = buf ++ encoded_params ps.
Proof.
  unfold build_stream_params, encoded_params. destruct ps as [|[k v] ps]; [by rewrite app_nil_r|].
  cbn [foldl fmap list_fmap]. set (b := buf ++ _). revert b.
  enough (forall ps b x, (foldl (fun '(first, buf) '(key, val) =>
     let buf := if first : bool then buf else buf ++ bstr " " in
     (false, buf ++ percent_encode key ++ bstr "=" ++ percent_encode val)) (false, b ++ x) ps).2
     = b ++ join_with " " (x :: (encoded_param <$> ps))) as H by (intros b; unfold b; by apply H).
  clear. induction ps as [|[k v] ps IH]; intros b x; cbn [foldl fmap list_fmap]; [done|].
  change (join_with " " (x :: encoded_param (k, v) :: (encoded_param <$> ps)))
    with (x ++ bstr " " ++ join_with " " (encoded_param (k, v) :: (encoded_param <$> ps))).
  rewrite (IH ((b ++ x) ++ bstr " ")). by rewrite <- !app_assoc.
Qed.

Lemma header_buf_eq h ct :
  let ps := wire_params (start_header h ct) in
  header_buf h ct = bstr "HG20" ++ u_be 4 (lenN (encoded_params ps) mod 2 ^ 32) ++ encoded_params ps.
Proof.
  intros ps. unfold header_buf. fold capitalized. change (fun x => (capitalize_first x.1, x.2)) with capitalized.
  fold (wire_params (start_header h ct)). fold ps. rewrite build_stream_params_eq. rewrite <- app_assoc.
  replace (lenN _ - 8)%N with (lenN (encoded_params ps)).
  - done.
  - unfold lenN. rewrite !length_app, length_u_be. simpl. lia.
Qed.

Context {PL : PercentLaws P} {TL : CharTablesLaws T} {OL : ParamOrderLaws O}.

Lemma encoded_clean x : " "%byte ∉ encoded_param x.
Proof.
  unfold encoded_param. rewrite !not_elem_of_app. split; [|split].
  - intros H%percent_clean. apply H. by left.
  - by intros ?%list_elem_of_singleton.
  - intros H%percent_clean. apply H. by left.
Qed.

Lemma splitn2_sep sep k v : sep ∉ k -> splitn2 sep (k ++ sep :: v) = (k, Some v).
Proof.
  induction k as [|b k IH]; intros Hk; simpl; [by rewrite decide_True|].
  apply not_elem_of_cons in Hk as [Hb Hk]. rewrite decide_False by congruence. by rewrite IH.
Qed.

Lemma decode_param_encoded k v :
  utf8_valid k = true -> utf8_valid v = true ->
  decode_stream_param (encoded_param (k, v)) = (m ← is_mandatory_param k; Ok (m, str_to_lowercase k, v)).
Proof.
  intros Hk Hv. unfold decode_stream_param, encoded_param. cbn [fst snd].
  change (bstr "=" ++ percent_encode v) with ("="%byte :: percent_encode v).
  rewrite splitn2_sep.
  - cbn [ok_or]. rewrite bind_Ok, !percent_roundtrip. unfold from_utf8. rewrite Hk, Hv. done.
  - intros H%percent_clean. apply H. right. by left.
Qed.

Lemma ascii_utf8 s : Forall (fun b => is_ascii b = true) s -> utf8_valid s = true.
Proof.
  intros H. apply utf8_valid_ascii. eapply Forall_impl; [exact H|]. intros b. unfold is_ascii, in_range.
  intros [_ Hb%N.leb_le]%andb_true_iff. done.
Qed.

Lemma lower_byte b : is_ascii_lower b = true ->
  is_ascii b = true /\ is_ascii (ascii_upper_byte b) = true /\ is_ascii_upper (ascii_upper_byte b) = true /\
  is_ascii_upper b = false /\ ascii_lower_byte (ascii_upper_byte b) = b.
Proof. by destruct b. Qed.

Lemma first_char_ascii b k : is_ascii b = true -> first_char (b :: k) = Some ([b], k).
Proof. intros Hb. unfold first_char, char_len. unfold is_ascii in Hb. by rewrite Hb. Qed.

(** A stored key is advisory as it is, and mandatory once capitalized; both
    are read back as the key. *)
Lemma good_key_spec k :
  good_key k ->
  utf8_valid k = true /\ is_mandatory_param k = Ok false /\ str_to_lowercase k = k /\
  utf8_valid (capitalize_first k) = true /\ is_mandatory_param (capitalize_first k) = Ok true /\
  str_to_lowercase (capitalize_first k) = k.
Proof.
  intros (b & k' & -> & Hb & Hall & Hlow). destruct (lower_byte b Hb) as (H1 & H2 & H3 & H4 & H5).
  assert (capitalize_first (b :: k') = ascii_upper_byte b :: k') as Hc.
  { unfold capitalize_first. rewrite first_char_ascii by done. by rewrite ascii_to_uppercase. }
  assert (Forall (fun b => is_ascii b = true) (ascii_upper_byte b :: k')) as Hall'.
  { apply Forall_cons in Hall as [_ ?]. by constructor. }
  rewrite Hc. unfold is_mandatory_param. rewrite !first_char_ascii by done.
  rewrite !ascii_alphabetic, !ascii_uppercase, !ascii_to_lowercase by done. rewrite Hb, H3, H4.
  split_and!; [by apply ascii_utf8|done|done|by apply ascii_utf8|done|].
  unfold to_ascii_lowercase in *. cbn [fmap list_fmap] in *. injection Hlow as _ Hlow. by rewrite Hlow, H5.
Qed.

Definition insert_params (m : gmap bytes bytes) (ps : list (bytes * bytes)) : gmap bytes bytes :=
  foldl (fun m x => <[x.1 := x.2]> m) m ps.

Lemma decode_advisory ps : forall m a,
  Forall good_param ps -> decode_stream_params_loop (encoded_param <$> ps) m a = Ok (m, insert_params a ps).
Proof.
  induction ps as [|[k v] ps IH]; intros m a; [done|]. intros [[Hk Hv] Hps]%Forall_cons.
  destruct (good_key_spec k Hk) as (Hu & Hm & Hl & _). cbn [fmap list_fmap decode_stream_params_loop].
  rewrite decode_param_encoded by done. by rewrite Hm, !bind_Ok, Hl, IH.
Qed.

Lemma decode_mandatory ps qs : forall m a,
  Forall good_param ps -> Forall good_param qs ->
  decode_stream_params_loop (encoded_param <$> ((capitalized <$> ps) ++ qs)) m a
  = Ok (insert_params m ps, insert_params a qs).
Proof.
  induction ps as [|[k v] ps IH]; intros m a Hps Hqs; [by apply decode_advisory|].
  apply Forall_cons in Hps as [[Hk Hv] Hps]. destruct (good_key_spec k Hk) as (_ & _ & _ & Hu & Hm & Hl).
  cbn [fmap list_fmap app decode_stream_params_loop].
  change (capitalized (k, v)) with (capitalize_first k, v).
  rewrite decode_param_encoded by done. by rewrite Hm, !bind_Ok, Hl, IH.
Qed.

Lemma insert_params_order m : insert_params ∅ (param_order m) = m.
Proof.
  assert (forall l, insert_params ∅ l = list_to_map (reverse l)) as H.
  { intros l. unfold insert_params. induction l as [|x l IH] using rev_ind; [done|].
    rewrite foldl_app, reverse_app, IH. done. }
  rewrite H, <- (list_to_map_to_list m) at 1.
  assert (reverse (param_order m) ≡ₚ map_to_list m) as Hp by (by rewrite reverse_Permutation, param_order_perm).
  rewrite list_to_map_to_list. rewrite <- (list_to_map_to_list m) at 2. apply list_to_map_proper; [|done].
  rewrite Hp. apply NoDup_fst_map_to_list.
Qed.

Lemma good_params_order m : map_Forall (fun k v => good_param (k, v)) m -> Forall good_param (param_order m).
Proof.
  intros H. rewrite param_order_perm. apply Forall_forall. intros [k v] Hin%elem_of_map_to_list. by apply H.
Qed.

Lemma good_start_header h ct : good_header h -> good_header (start_header h ct).
Proof.
  intros [Hm Ha]. split; cbn; [|done]. apply map_Forall_insert_2; [|done]. split.
  - eexists _, _. split; [reflexivity|]. split; [done|]. split; [|done]. by repeat constructor.
  - by destruct ct as [[]|].
Qed.

Lemma wire_params_nonempty h ct : wire_params (start_header h ct) <> [].
Proof.
  unfold wire_params, start_header. cbn [m_stream_params]. set (m := <[_ := _]> _).
  assert (param_order m <> []) as H.
  { intros E. pose proof (param_order_perm m) as Hp. rewrite E in Hp. apply Permutation_nil_l in Hp.
    symmetry in Hp. apply map_to_list_empty_iff in Hp. by apply insert_non_empty in Hp. }
  by destruct (param_order m).
Qed.

(** What the builder writes is read back: every parameter under its own name
    and of its own kind, with the compression among the mandatory ones. *)
Lemma start_roundtrip h ct rest :
  good_header h -> (lenN (encoded_params (wire_params (start_header h ct))) < 2 ^ 32)%N -> rest <> [] ->
  start_decode tt (header_buf h ct ++ rest) = (tt, rest, Ok (Some (start_header h ct))).
Proof.
  intros Hh Hlen Hrest. rewrite header_buf_eq, N.mod_small by done.
  set (h' := start_header h ct) in *. set (e := encoded_params (wire_params h')) in *.
  assert (0 < length rest) as Hpos by (destruct rest; cbn; [done|lia]).
  unfold start_decode. rewrite <- !app_assoc.
  rewrite (proj2 (N.leb_gt _ _)) by (unfold lenN; rewrite !length_app, length_u_be; simpl; lia).
  rewrite take_app_length' by done. rewrite decide_False by (intros H; by apply H).
  rewrite drop_app_length' by done. rewrite take_app_length' by (by rewrite length_u_be).
  rewrite read_u_be by (simpl; lia).
  rewrite (proj2 (Nat.leb_gt _ _)) by (unfold lenN; rewrite !length_app, length_u_be; simpl; lia).
  rewrite (app_assoc (bstr "HG20")).
  rewrite drop_app_length' by (rewrite length_app, length_u_be; done).
  unfold lenN. rewrite Nat2N.id, drop_app_length, take_app_length. f_equal.
  unfold decode_stream_params.
  assert (e <> []) as He.
  { unfold e, encoded_params. pose proof (wire_params_nonempty h ct) as Hne. fold h' in Hne.
    destruct (wire_params h') as [|x ps]; [done|]. destruct ps; cbn [fmap list_fmap join_with].
    - unfold encoded_param. by destruct (percent_encode x.1).
    - unfold encoded_param. by destruct (percent_encode x.1). }
  destruct (Nat.eqb_spec (length e) 0) as [E|_]; [by apply nil_length_inv in E|].
  unfold e, encoded_params. rewrite split_on_join.
  - destruct (good_start_header h ct Hh) as [Hm Ha]. fold h' in Hm, Ha. unfold wire_params.
    rewrite decode_mandatory by (by apply good_params_order). rewrite !insert_params_order. by destruct h'.
  - pose proof (wire_params_nonempty h ct) as Hne. fold h' in Hne. by destruct (wire_params h').
  - apply Forall_fmap, Forall_forall. intros x _. apply encoded_clean.
Qed.

Lemma start_undisturbed : undisturbed start_decode.
Proof.
  intros st buf ext _. unfold start_decode. destruct (N.leb_spec (lenN buf) 8) as [|Hl]; [done|].
  rewrite (proj2 (N.leb_gt (lenN (buf ++ ext)) _)) by (unfold lenN in *; rewrite length_app; lia).
  rewrite !take_app_le by (unfold lenN in Hl; lia).
  destruct (decide (take 4 buf <> bstr "HG20")) as [|Hmagic]; [done|].
  rewrite (drop_app_le buf ext 4) by (unfold lenN in Hl; lia).
  rewrite take_app_le by (rewrite length_drop; unfold lenN in Hl; lia).
  set (n := N.to_nat _). destruct (Nat.leb_spec (length buf) (8 + n)) as [|Hn]; [done|].
  rewrite (proj2 (Nat.leb_gt _ _)) by (rewrite length_app; lia).
  rewrite (drop_app_le buf ext 8) by lia.
  rewrite take_app_le, drop_app_le by (rewrite length_drop; lia).
  by destruct (decode_stream_params _) as [[m a]|e|].
Qed.

Lemma letter_lower b :
  is_ascii_upper b || is_ascii_lower b = true -> is_ascii b = true /\ is_ascii_lower (ascii_lower_byte b) = true.
Proof. by destruct b. Qed.

Lemma ascii_lower b : is_ascii b = true -> is_ascii (ascii_lower_byte b) = true /\ ascii_lower_byte (ascii_lower_byte b) = ascii_lower_byte b.
Proof. by destruct b. Qed.

(** Adding parameters with ASCII keys keeps the header in order. *)
Lemma add_stream_param_good h key val h' :
  good_header h -> Forall (fun b => is_ascii b = true) key -> utf8_valid val = true ->
  add_stream_param h key val = Ok h' -> good_header h'.
Proof.
  intros [Hm Ha] Hk Hv. unfold add_stream_param. destruct (decide _); [done|].
  intros (m & Hmand & Hh)%bind_Ok_inv. assert (good_key (str_to_lowercase key)) as Hgood.
  { unfold is_mandatory_param in Hmand. destruct key as [|b k]; [done|].
    pose proof Hk as [Hb Hk']%Forall_cons. rewrite first_char_ascii, ascii_alphabetic in Hmand by done.
    destruct (is_ascii_upper b || is_ascii_lower b) eqn:Hal; [|done].
    rewrite ascii_to_lowercase by done. apply letter_lower in Hal as [_ Hlow].
    exists (ascii_lower_byte b), (to_ascii_lowercase k). split; [done|]. split; [done|].
    assert (forall l, Forall (fun b => is_ascii b = true) l ->
      Forall (fun b => is_ascii b = true) (to_ascii_lowercase l) /\
      to_ascii_lowercase (to_ascii_lowercase l) = to_ascii_lowercase l) as Hl.
    { clear. intros l. induction 1 as [|b l Hb _ [IH1 IH2]]; [done|]. apply ascii_lower in Hb as [H1 H2].
      unfold to_ascii_lowercase in *. cbn [fmap list_fmap]. split; [by constructor|]. by rewrite IH2, H2. }
    by apply Hl. }
  injection Hh as <-. by destruct m; split; cbn; try done; apply map_Forall_insert_2.
Qed.
End start.
