(* ===== verification/PartOuter.v ===== *)
(** * The outer stream of a bundle

    Model of [mercurial_bundles/src/part_outer.rs]: the decoder that takes a
    bundle apart into part headers and payload chunks; and of the check of
    headers in [part_inner.rs]. *)

From stdpp Require Import fin_maps.
From S2P Require Import Prelude BundleCodec Chunk PartHeader Framed.

Inductive outer_error :=
| BadHeader (e : header_error)
| BundleUnknownPart (header : PartHeader)
| BundleUnknownPartParams (part_type : PartHeaderType) (params : list bytes)
| OuterCorrupt.

Definition is_app_error (e : outer_error) : bool :=
  match e with BundleUnknownPart _ | BundleUnknownPartParams _ _ => true | _ => false end.

(** ** [validate_header] *)

Definition KNOWN_PARAMS (t : PartHeaderType) : option (list bytes) :=
  match t with
  | Changegroup => Some [bstr "version"; bstr "nbchanges"; bstr "treemanifest"]
  | B2xInfinitepush => Some [bstr "pushbackbookmarks"; bstr "cgversion"; bstr "bookmark";
      bstr "bookprevnode"; bstr "create"; bstr "force"]
  | B2xInfinitepushBookmarks => Some []
  | B2xCommonHeads => Some []
  | B2xRebase => Some [bstr "onto"; bstr "newhead"; bstr "cgversion"; bstr "obsmarkerversions"]
  | B2xRebasePack => Some [bstr "version"; bstr "cache"; bstr "category"]
  | B2xTreegroup2 => Some [bstr "version"; bstr "cache"; bstr "category"]
  | Replycaps => Some []
  | Pushkey => Some [bstr "namespace"; bstr "key"; bstr "old"; bstr "new"]
  | Pushvars => Some []
  | _ => None
  end.

Definition validate_header (header : PartHeader) : outcome outer_error (option PartHeader) :=
  match KNOWN_PARAMS (part_type header) with
  | Some known_params =>
      let unknown_params := List.filter (fun param => negb (bool_decide (param ∈ known_params)))
                              (map_to_list (mparams header)).*1 in
      if decide (unknown_params <> []) then Err (BundleUnknownPartParams (part_type header) unknown_params)
      else Ok (Some header)
  | None => if mandatory header then Err (BundleUnknownPart header) else Ok None
  end.

(** ** [OuterDecoder] *)

Inductive OuterFrame :=
| Header (h : PartHeader)
| Payload (part_type : PartHeaderType) (part_id : N) (payload : bytes)
| PartEnd (part_type : PartHeaderType) (part_id : N)
| Discard
| StreamEnd.

Definition is_payload (f : OuterFrame) : bool := match f with Payload _ _ _ => true | _ => false end.

Definition get_payload {E} (f : OuterFrame) : outcome E bytes :=
  match f with Payload _ _ payload => Ok payload | _ => Panic end.

Inductive OuterState :=
| InHeader
| InPayload (part_type : PartHeaderType) (part_id : N)
| DiscardPayload
| AtStreamEnd
| Corrupt.

Definition payload_frame (st : OuterState) (data : bytes) : outcome outer_error OuterFrame :=
  match st with
  | InPayload part_type part_id => Ok (Payload part_type part_id data)
  | DiscardPayload => Ok Discard
  | _ => Panic
  end.

Definition part_end_frame (st : OuterState) : outcome outer_error OuterFrame :=
  match st with
  | InPayload part_type part_id => Ok (PartEnd part_type part_id)
  | DiscardPayload => Ok Discard
  | _ => Panic
  end.

Definition decode_header (header_bytes : bytes) : outcome outer_error (option PartHeader) :=
  header ← map_err BadHeader (header_decode header_bytes); validate_header header.

Definition decode_payload_chunk (buf : bytes) (st : OuterState) (total_len : N)
    : bytes * outcome outer_error (option OuterFrame) :=
  if (lenN buf <? usize_add total_len 4)%N then (buf, Ok None) else
  match ('(_, buf) ← drain_i32 buf; split_to total_len buf) with
  | Ok (chunk, buf) => (buf, frame ← payload_frame st chunk; Ok (Some frame))
  | Err e => (buf, Err e)
  | Panic => (buf, Panic)
  end.

Definition decode_payload (buf : bytes) (st : OuterState) : OuterState * bytes * outcome outer_error (option OuterFrame) :=
  if (lenN buf <? 4)%N then (st, buf, Ok None) else
  match peek_i32 buf with
  | Ok total_len =>
      if (total_len =? 0)%Z then (InHeader, drop 4 buf, frame ← part_end_frame st; Ok (Some frame))
      else let '(buf, payload) := decode_payload_chunk buf st (as_usize total_len) in (st, buf, payload)
  | Err e => (st, buf, Err e)
  | Panic => (st, buf, Panic)
  end.

Definition outer_decode : frame_decoder OuterState OuterFrame outer_error := fun st buf =>
  match st with
  | InHeader =>
      if (lenN buf <? 4)%N then (InHeader, buf, Ok None) else
      match peek_u32 buf with
      | Ok header_len =>
          if (lenN buf <? 4 + header_len)%N then (InHeader, buf, Ok None) else
          let buf := drop 4 buf in
          if (header_len =? 0)%N then (AtStreamEnd, buf, Ok (Some StreamEnd)) else
          let rest := drop (N.to_nat header_len) buf in
          match decode_header (take (N.to_nat header_len) buf) with
          | Ok None => (DiscardPayload, rest, Ok (Some Discard))
          | Ok (Some header) => (InPayload (part_type header) (part_id header), rest, Ok (Some (Header header)))
          | Err e => (if is_app_error e then DiscardPayload else Corrupt, rest, Err e)
          | Panic => (Corrupt, rest, Panic)
          end
      | Err e => (InHeader, buf, Err e)
      | Panic => (InHeader, buf, Panic)
      end
  | InPayload _ _ | DiscardPayload => decode_payload buf st
  | AtStreamEnd => (AtStreamEnd, buf, Ok (Some StreamEnd))
  | Corrupt => (Corrupt, buf, Err OuterCorrupt)
  end.

(** ** The decoder is not disturbed by more input *)

Lemma peek4 {E} (buf : bytes) : (4 <= lenN buf)%N -> peek (E := E) 4 buf = Ok (take 4 buf).
Proof. intros H. unfold peek. rewrite (proj2 (Nat.leb_le _ _)); [done|]. unfold lenN in H. lia. Qed.

(** A chunk of a payload: one more than is there waits, and one that cannot
    be is a panic. *)
Lemma payload_chunk_cases buf st len :
  (4 <= lenN buf <= isize_max)%N -> (len < 2 ^ 64)%N ->
  decode_payload_chunk buf st len =
  if (lenN buf <? usize_add len 4)%N then (buf, Ok None)
  else if (len <? 2 ^ 64 - 4)%N then
    (drop (N.to_nat len) (drop 4 buf), frame ← payload_frame st (take (N.to_nat len) (drop 4 buf)); Ok (Some frame))
  else (buf, Panic).
Proof.
  intros Hb Hlen. unfold decode_payload_chunk. destruct (N.ltb_spec (lenN buf) (usize_add len 4)) as [|Hge]; [done|].
  unfold drain_i32. rewrite split_to_Ok, bind_Ok by lia. change (N.to_nat 4) with 4. rewrite bind_Ok.
  assert (lenN (drop 4 buf) = lenN buf - 4)%N as Hd by (unfold lenN; rewrite length_drop; lia).
  unfold isize_max in Hb. destruct (N.ltb_spec len (2 ^ 64 - 4)) as [Hs|Hl].
  - rewrite usize_add_small in Hge by lia. rewrite split_to_Ok by lia. done.
  - unfold split_to. by rewrite (proj2 (N.leb_gt _ _)) by lia.
Qed.

Lemma payload_undisturbed st buf ext :
  (lenN (buf ++ ext) <= isize_max)%N ->
  match decode_payload buf st with
  | (st', rest, Ok (Some x)) => decode_payload (buf ++ ext) st = (st', rest ++ ext, Ok (Some x))
  | (st', rest, Ok None) => st' = st /\ rest = buf
  | (st', rest, Err e) => decode_payload (buf ++ ext) st = (st', rest ++ ext, Err e)
  | (st', rest, Panic) => (decode_payload (buf ++ ext) st).2 = Panic
  end.
Proof.
  intros Hlen. unfold decode_payload at 1. destruct (N.ltb_spec (lenN buf) 4) as [|Hge]; [done|].
  assert (lenN (buf ++ ext) = lenN buf + lenN ext)%N as Happ by (unfold lenN; rewrite length_app; lia).
  unfold peek_i32. rewrite peek4, bind_Ok by done.
  assert (decode_payload (buf ++ ext) st =
    (let z := read_i32 (take 4 buf) in
     if (z =? 0)%Z then (InHeader, drop 4 buf ++ ext, frame ← part_end_frame st; Ok (Some frame))
     else let '(b, p) := decode_payload_chunk (buf ++ ext) st (as_usize z) in (st, b, p))) as ->.
  { unfold decode_payload. rewrite (proj2 (N.ltb_ge _ _)) by lia. unfold peek_i32. rewrite peek4, bind_Ok by lia.
    rewrite take_app_le, drop_app_le by (unfold lenN in Hge; lia). done. }
  cbv zeta. destruct (read_i32 (take 4 buf) =? 0)%Z.
  - by destruct (part_end_frame st).
  - pose proof (as_usize_range (read_i32 (take 4 buf))) as Hr. set (len := as_usize _) in *. clearbody len.
    rewrite !payload_chunk_cases by lia.
    destruct (N.ltb_spec (lenN buf) (usize_add len 4)) as [|Hin]; [done|].
    rewrite (proj2 (N.ltb_ge (lenN (buf ++ ext)) _)) by lia. destruct (N.ltb_spec len (2 ^ 64 - 4)); [|done].
    rewrite usize_add_small in Hin by lia. unfold lenN in *.
    rewrite (drop_app_le buf ext 4), take_app_le, drop_app_le by (rewrite ?length_drop; lia).
    by destruct (payload_frame st _).
Qed.

Lemma outer_undisturbed : undisturbed outer_decode.
Proof.
  intros st buf ext Hlen.
  assert (lenN (buf ++ ext) = lenN buf + lenN ext)%N as Happ by (unfold lenN; rewrite length_app; lia).
  destruct st as [|t id| | |]; [|cbn [outer_decode]..|done|done].
  - destruct (N.ltb_spec (lenN buf) 4) as [Hs|Hge].
    { cbn [outer_decode]. by rewrite (proj2 (N.ltb_lt _ _)). }
    set (len := read_u (take 4 buf)).
    assert (forall b, outer_decode InHeader (buf ++ b) =
      if (lenN (buf ++ b) <? 4 + len)%N then (InHeader, buf ++ b, Ok None) else
      if (len =? 0)%N then (AtStreamEnd, drop 4 buf ++ b, Ok (Some StreamEnd)) else
      let rest := drop (N.to_nat len) (drop 4 buf ++ b) in
      match decode_header (take (N.to_nat len) (drop 4 buf ++ b)) with
      | Ok None => (DiscardPayload, rest, Ok (Some Discard))
      | Ok (Some header) => (InPayload (part_type header) (part_id header), rest, Ok (Some (Header header)))
      | Err e => (if is_app_error e then DiscardPayload else Corrupt, rest, Err e)
      | Panic => (Corrupt, rest, Panic)
      end) as Hext.
    { intros b. assert (4 <= lenN (buf ++ b))%N by (unfold lenN in *; rewrite length_app; lia).
      cbn [outer_decode]. rewrite (proj2 (N.ltb_ge _ 4)) by done. unfold peek_u32. rewrite peek4, bind_Ok by done.
      rewrite take_app_le, drop_app_le by (unfold lenN in Hge; lia). done. }
    pose proof (Hext []) as Hbuf. rewrite !app_nil_r in Hbuf. rewrite Hbuf.
    destruct (N.ltb_spec (lenN buf) (4 + len)) as [|Hin]; [done|].
    specialize (Hext ext). rewrite (proj2 (N.ltb_ge _ (4 + len))) in Hext by lia.
    destruct (len =? 0)%N; [done|].
    unfold lenN in *. rewrite take_app_le, drop_app_le in Hext by (rewrite length_drop; lia). cbv zeta in *.
    by destruct (decode_header _) as [[h|]|e|]; rewrite Hext.
  - by apply payload_undisturbed.
  - by apply payload_undisturbed.
Qed.

(** ** What it makes of the chunks of a bundle *)

Definition frame_bytes (b : bytes) : bytes := chunk_encode (Normal b) [].

Lemma frame_bytes_eq b : (lenN b < 2 ^ 31)%N -> frame_bytes b = i32_be (Z.of_N (lenN b)) ++ b.
Proof. intros Hb. unfold frame_bytes. cbn [chunk_encode]. by rewrite as_i32_small. Qed.

Lemma header_fits h : valid_header h -> (0 < lenN (header_bytes h) < 2 ^ 31)%N.
Proof.
  intros Hv. split.
  - unfold header_bytes, lenN. rewrite length_app, length_u_be. lia.
  - pose proof (header_encode_bytes h Hv) as He. unfold header_encode in He.
    destruct (Chunk_new _) as [c| |] eqn:Hc; try done. apply Chunk_new_Ok in Hc as [-> Hc].
    injection He as He. by rewrite He in Hc.
Qed.

Lemma outer_header h rest :
  valid_header h ->
  outer_decode InHeader (frame_bytes (header_bytes h) ++ rest) =
  match validate_header h with
  | Ok None => (DiscardPayload, rest, Ok (Some Discard))
  | Ok (Some header) => (InPayload (part_type header) (part_id header), rest, Ok (Some (Header header)))
  | Err e => (if is_app_error e then DiscardPayload else Corrupt, rest, Err e)
  | Panic => (Corrupt, rest, Panic)
  end.
Proof.
  intros Hv. pose proof (header_fits h Hv) as [Hpos Hlt]. rewrite frame_bytes_eq by done. rewrite <- app_assoc.
  set (n := lenN (header_bytes h)) in *.
  assert (lenN (i32_be (Z.of_N n) ++ header_bytes h ++ rest) = 4 + n + lenN rest)%N as Hlen
    by (unfold n, lenN; rewrite !length_app, length_i32_be; lia).
  unfold outer_decode. rewrite Hlen, (proj2 (N.ltb_ge _ _)) by lia. unfold peek_u32.
  rewrite peek4, bind_Ok by (rewrite Hlen; lia).
  rewrite take_app_length', drop_app_length' by (by rewrite length_i32_be).
  change (i32_be (Z.of_N n)) with (u_be 4 n). rewrite read_u_be by (change (8 * Z.of_nat 4)%Z with 32%Z; lia).
  rewrite (proj2 (N.ltb_ge _ _)), (proj2 (N.eqb_neq _ _)) by lia.
  replace (N.to_nat n) with (length (header_bytes h)) by (unfold n, lenN; lia).
  rewrite take_app_length, drop_app_length. unfold decode_header.
  rewrite header_decode_bytes by done. cbn [map_err]. by rewrite bind_Ok.
Qed.

Lemma validate_header_errors h :
  match validate_header h with
  | Ok (Some h') => h' = h /\ KNOWN_PARAMS (part_type h) <> None
  | Ok None => mandatory h = false
  | Err e => is_app_error e = true
  | Panic => False
  end.
Proof.
  unfold validate_header. destruct (KNOWN_PARAMS _); [destruct (decide _); done|]. by destruct (mandatory h).
Qed.

Lemma outer_stream_end rest :
  outer_decode InHeader (frame_bytes [] ++ rest) = (AtStreamEnd, rest, Ok (Some StreamEnd)).
Proof.
  rewrite frame_bytes_eq by done. cbn [app]. unfold outer_decode.
  assert (lenN (i32_be 0 ++ rest) = 4 + lenN rest)%N as Hlen by (unfold lenN; rewrite length_app, length_i32_be; lia).
  cbn [length] in *. change (Z.of_N (lenN (@nil byte))) with 0%Z. rewrite app_nil_r.
  rewrite Hlen, (proj2 (N.ltb_ge _ _)) by lia. unfold peek_u32. rewrite peek4, bind_Ok by (rewrite Hlen; lia).
  rewrite take_app_length', drop_app_length' by (by rewrite length_i32_be).
  change (read_u (i32_be 0)) with 0%N. by rewrite (proj2 (N.ltb_ge _ _)) by lia.
Qed.

(** A state inside a part. *)
Definition in_part (st : OuterState) : bool := match st with InPayload _ _ | DiscardPayload => true | _ => false end.

Definition part_frame (st : OuterState) (b : bytes) : OuterFrame :=
  match st with InPayload t id => Payload t id b | _ => Discard end.
Definition part_last (st : OuterState) : OuterFrame :=
  match st with InPayload t id => PartEnd t id | _ => Discard end.

Lemma outer_part st b rest :
  in_part st = true -> (lenN b < 2 ^ 31)%N ->
  outer_decode st (frame_bytes b ++ rest) =
  if decide (b = []) then (InHeader, rest, Ok (Some (part_last st))) else (st, rest, Ok (Some (part_frame st b))).
Proof.
  intros Hst Hb. rewrite frame_bytes_eq by done. rewrite <- app_assoc. set (n := lenN b) in *.
  assert (lenN (i32_be (Z.of_N n) ++ b ++ rest) = 4 + n + lenN rest)%N as Hlen
    by (unfold n, lenN; rewrite !length_app, length_i32_be; lia).
  assert (outer_decode st (i32_be (Z.of_N n) ++ b ++ rest) = decode_payload (i32_be (Z.of_N n) ++ b ++ rest) st) as ->
    by (by destruct st).
  unfold decode_payload. rewrite Hlen, (proj2 (N.ltb_ge _ _)) by lia.
  rewrite peek_i32_put by (unfold i32_range; lia). rewrite drop_app_length' by (by rewrite length_i32_be).
  destruct (decide (b = [])) as [->|Hne].
  - change (Z.of_N n) with 0%Z. by destruct st.
  - assert (0 < n)%N as Hn by (unfold n, lenN; destruct b; [done|cbn; lia]).
    rewrite (proj2 (Z.eqb_neq _ _)) by lia. unfold decode_payload_chunk.
    rewrite as_usize_small by lia. rewrite usize_add_small by lia. rewrite (proj2 (N.ltb_ge _ _)) by (rewrite Hlen; lia).
    rewrite drain_i32_put, bind_Ok by (unfold i32_range; lia). rewrite split_to_app by (unfold n; lia).
    by destruct st.
Qed.

(** A negative length, which the protocol has for a part that is cut off,
    makes the decoder panic. *)
Example interrupted_part :
  (outer_decode DiscardPayload (i32_be (-1) ++ bstr "rest")).2 = Panic.
Proof. reflexivity. Qed.
