(* ===== verification/BundleEncode.v ===== *)
(** * Writing a bundle

    Model of [mercurial_bundles/src/part_encode.rs]: a part as a stream of
    chunks, and its builder; and of [bundle2_encode.rs]: the bundle builder
    and the writing of a bundle. A writer is the bytes written to it;
    [FramedWrite] with [forward], which are third-party code, write the
    encoding of each chunk in order. *)

From S2P Require Import Prelude BundleCodec Chunk PartHeader Framed StreamStart PartOuter.

(** ** Parts *)

(** A stream of chunks: what its polls give, errors included, until it ends. *)
Definition ChunkStream := list (poll (outcome bundle_error Chunk)).

Inductive PartEncodeData :=
| NoData
| FixedData (c : Chunk)
| GeneratedData (s : ChunkStream).

Record PartEncodeBuilder := mkPEBuilder {
  headerb : PartHeaderBuilder;
  data : PartEncodeData;
}.

Inductive GenerationState :=
| NotStarted (header : PartHeader) (data : PartEncodeData)
| Fixed (c : Chunk)
| Generating (s : ChunkStream)
| EmptyChunk
| Done
| Invalid.

Definition part_builder (t : PartHeaderType) (mandatory : bool) : PartEncodeBuilder :=
  mkPEBuilder (builder_new t mandatory) NoData.

Definition part_add_mparam (b : PartEncodeBuilder) (key val : bytes) : outcome header_error PartEncodeBuilder :=
  h ← add_mparam (headerb b) key val; Ok (mkPEBuilder h (data b)).
Definition part_add_aparam (b : PartEncodeBuilder) (key val : bytes) : outcome header_error PartEncodeBuilder :=
  h ← add_aparam (headerb b) key val; Ok (mkPEBuilder h (data b)).

Definition set_data_fixed (b : PartEncodeBuilder) (c : Chunk) : PartEncodeBuilder :=
  mkPEBuilder (headerb b) (FixedData c).

Definition set_data_bytes (b : PartEncodeBuilder) (val : bytes) : outcome bundle_error PartEncodeBuilder :=
  c ← Chunk_new val; Ok (mkPEBuilder (headerb b) (FixedData c)).

(** [filter] keeps errors and drops empty chunks. *)
Definition set_data_generated (b : PartEncodeBuilder) (s : ChunkStream) : PartEncodeBuilder :=
  mkPEBuilder (headerb b) (GeneratedData (List.filter
    (fun p => match p with Ready (Ok c) => negb (Chunk_is_empty c) | _ => true end) s)).

(** The future gives its bytes or fails; [and_then(Chunk::new)]. *)
Definition set_data_future (b : PartEncodeBuilder) (waits : nat) (result : outcome bundle_error bytes) : PartEncodeBuilder :=
  set_data_generated b (replicate waits NotReady ++ [Ready (val ← result; Chunk_new val)]).

Definition part_build (b : PartEncodeBuilder) (part_id : N) : GenerationState :=
  NotStarted (build_header (headerb b) part_id) (data b).

Definition part_poll_next (st : GenerationState)
    : outcome bundle_error (poll (option Chunk)) * GenerationState :=
  match st with
  | NotStarted header data =>
      match header_encode header with
      | Ok header_chunk =>
          (Ok (Ready (Some header_chunk)),
           match data with
           | FixedData b => Fixed b
           | NoData => EmptyChunk
           | GeneratedData stream => Generating stream
           end)
      | Err e => (Err e, Invalid)
      | Panic => (Panic, Invalid)
      end
  | Generating stream =>
      match stream with
      | Ready (Ok v) :: stream => (Ok (Ready (Some v)), Generating stream)
      | [] => (Ok (Ready (Some Chunk_empty)), Done)
      | NotReady :: stream => (Ok NotReady, Generating stream)
      | Ready (Err e) :: stream => (Err e, Generating stream)
      | Ready Panic :: stream => (Panic, Invalid)
      end
  | Fixed chunk => (Ok (Ready (Some chunk)), EmptyChunk)
  | EmptyChunk => (Ok (Ready (Some Chunk_empty)), Done)
  | Done => (Ok (Ready None), Done)
  | Invalid => (Panic, Invalid)
  end.

(** ** Bundles *)

Record Bundle2EncodeBuilder := mkBundleBuilder {
  bundle_header : StreamHeader;
  compressor_type : option CompressorType;
  parts : list GenerationState;
}.

Section encode.
Context {P : PercentEncoding} {T : CharTables} {O : ParamOrder}.

(** What a [Compressor] writes for the bytes given to it, once finished. *)
Context (compress : CompressorType -> bytes -> bytes).

Definition bundle_new : Bundle2EncodeBuilder := mkBundleBuilder (mkStreamHeader ∅ ∅) None [].

Definition bundle_add_stream_param (b : Bundle2EncodeBuilder) (key val : bytes) : outcome start_error Bundle2EncodeBuilder :=
  h ← add_stream_param (bundle_header b) key val; Ok (mkBundleBuilder h (compressor_type b) (parts b)).

Definition add_part (b : Bundle2EncodeBuilder) (part : PartEncodeBuilder) : Bundle2EncodeBuilder :=
  let part_id := (N.of_nat (length (parts b)) mod 2 ^ 32)%N in
  mkBundleBuilder (bundle_header b) (compressor_type b) (parts b ++ [part_build part part_id]).

Definition set_compressor_type (b : Bundle2EncodeBuilder) (ct : option CompressorType) : Bundle2EncodeBuilder :=
  mkBundleBuilder (bundle_header b) ct (parts b).

(** [poll_part] until the part is done: its chunks go into the sink. [k]
    bounds the polls. *)
Fixpoint poll_part (k : nat) (part : GenerationState) (sink : bytes) : option (outcome bundle_error bytes) :=
  match k with
  | 0 => None
  | S k =>
      match part_poll_next part with
      | (Ok (Ready (Some chunk)), part) => poll_part k part (chunk_encode chunk sink)
      | (Ok (Ready None), _) => Some (Ok sink)
      | (Ok NotReady, part) => poll_part k part sink
      | (Err e, _) => Some (Err e)
      | (Panic, _) => Some Panic
      end
  end.

(** [poll_next_part] and [poll_eos]. *)
Fixpoint poll_next_part (k : nat) (iter : list GenerationState) (sink : bytes) : option (outcome bundle_error bytes) :=
  match iter with
  | [] => Some (Ok (chunk_encode Chunk_empty sink))
  | part :: iter =>
      match poll_part k part sink with
      | Some (Ok sink) => poll_next_part k iter sink
      | r => r
      end
  end.

(** The whole of [Bundle2Encode]: what has been written when it is done. *)
Definition bundle_encode (k : nat) (b : Bundle2EncodeBuilder) : option (outcome bundle_error bytes) :=
  let start := header_buf (bundle_header b) (compressor_type b) in
  match poll_next_part k (parts b) [] with
  | Some (Ok body) =>
      Some (Ok (start ++ match compressor_type b with None => body | Some ct => compress ct body end))
  | r => r
  end.

(** ** What is written *)

Definition stream_chunk (p : poll (outcome bundle_error Chunk)) : option Chunk :=
  match p with Ready (Ok c) => Some c | _ => None end.

Definition data_chunks (d : PartEncodeData) : list Chunk :=
  match d with NoData => [] | FixedData c => [c] | GeneratedData s => omap stream_chunk s end.

(** Data without errors, in chunks that mean no more than their bytes. *)
Definition payload_chunk (c : Chunk) : Prop :=
  match c with Normal b => b <> [] /\ (lenN b < 2 ^ 31)%N | ErrorChunk => False end.

Definition good_data (d : PartEncodeData) : Prop :=
  Forall payload_chunk (data_chunks d) /\
  match d with
  | GeneratedData s => Forall (fun p => match p with NotReady => True | Ready r => is_ok r = true end) s
  | _ => True
  end.

Definition data_payloads (d : PartEncodeData) : list bytes := payload <$> data_chunks d.

Definition payload_bytes (bs : list bytes) : bytes := concat (frame_bytes <$> bs).

Definition part_bytes (h : PartHeader) (d : PartEncodeData) : bytes :=
  frame_bytes (header_bytes h) ++ payload_bytes (data_payloads d) ++ frame_bytes [].

Definition data_polls (d : PartEncodeData) : nat :=
  match d with GeneratedData s => length s | _ => 1 end.

Lemma chunk_encode_frame c sink : payload_chunk c -> chunk_encode c sink = sink ++ frame_bytes (payload c).
Proof. destruct c; [|done]. intros _. by rewrite chunk_encode_app. Qed.

Lemma poll_done k sink : poll_part (S (S k)) EmptyChunk sink = Some (Ok (sink ++ frame_bytes [])).
Proof. cbn [poll_part part_poll_next]. by rewrite chunk_encode_app. Qed.

Lemma poll_generating s : forall k sink,
  good_data (GeneratedData s) -> length s + 1 < k ->
  poll_part k (Generating s) sink = Some (Ok (sink ++ payload_bytes (data_payloads (GeneratedData s)) ++ frame_bytes [])).
Proof.
  induction s as [|p s IH]; intros k sink [Hc Hs] Hk; cbn [length] in Hk; (destruct k as [|k]; [lia|]).
  - destruct k as [|k]; [lia|]. cbn [poll_part part_poll_next]. by rewrite chunk_encode_app.
  - apply Forall_cons in Hs as [Hp Hs]. cbn [poll_part part_poll_next]. destruct p as [|[c| |]]; try done.
    + rewrite IH; [done| |lia]. by split.
    + cbn [data_chunks omap list_omap stream_chunk] in Hc. apply Forall_cons in Hc as [Hc Hcs].
      rewrite IH; [|by split|lia]. rewrite chunk_encode_frame by done.
      unfold data_payloads, payload_bytes. cbn [data_chunks omap list_omap stream_chunk fmap list_fmap concat].
      by rewrite <- !app_assoc.
Qed.

Lemma poll_part_bytes k h d sink :
  valid_header h -> good_data d -> data_polls d + 3 < k ->
  poll_part k (NotStarted h d) sink = Some (Ok (sink ++ part_bytes h d)).
Proof.
  intros Hv Hd Hk. destruct k as [|k]; [lia|]. cbn [poll_part part_poll_next]. rewrite header_encode_bytes by done.
  pose proof (header_fits h Hv) as [Hpos Hlt]. rewrite chunk_encode_app. fold (frame_bytes (header_bytes h)).
  unfold part_bytes. rewrite app_assoc. destruct d as [|c|s]; cbn [data_polls] in Hk.
  - destruct k as [|[|k]]; [lia|lia|]. by rewrite poll_done.
  - destruct k as [|[|[|k]]]; [lia..|]. destruct Hd as [Hc _]. cbn [data_chunks] in Hc.
    apply Forall_cons in Hc as [Hc _]. cbn [poll_part part_poll_next].
    rewrite (chunk_encode_frame c) by done. unfold payload_bytes, data_payloads. cbn [data_chunks fmap list_fmap concat].
    rewrite chunk_encode_app. by rewrite <- !app_assoc.
  - rewrite poll_generating; [done|done|lia].
Qed.

Definition started (x : PartHeader * PartEncodeData) : GenerationState := NotStarted x.1 x.2.

Definition parts_bytes (l : list (PartHeader * PartEncodeData)) : bytes :=
  concat ((fun x => part_bytes x.1 x.2) <$> l) ++ frame_bytes [].

Lemma poll_parts_bytes k l : forall sink,
  Forall (fun x => valid_header x.1 /\ good_data x.2 /\ data_polls x.2 + 3 < k) l ->
  poll_next_part k (started <$> l) sink = Some (Ok (sink ++ parts_bytes l)).
Proof.
  unfold parts_bytes. induction l as [|[h d] l IH]; intros sink Hl; cbn [fmap list_fmap poll_next_part concat].
  - by rewrite chunk_encode_app.
  - apply Forall_cons in Hl as [(Hv & Hd & Hk) Hl]. unfold started at 1. cbn [fst snd].
    rewrite poll_part_bytes by done. rewrite IH by done. by rewrite <- !app_assoc.
Qed.
End encode.
