(* ===== verification/Bundle2.v ===== *)
(** * Reading a bundle

    Model of [mercurial_bundles/src/bundle2.rs], the coordinator that gives
    the items of a bundle, of [part_inner.rs], which makes the rest of a part
    a stream of its own, with the small decoders of [pushrebase/mod.rs] and
    [infinitepush/mod.rs]; and of the wrappers they use from [futures-ext]
    ([take_while_wrapper], [return_remainder] and [ConservativeReceiver]). *)

From stdpp Require Import fin_maps.
From S2P Require Import Prelude Hash BundleCodec Framing Chunk PartHeader Framed StreamStart PartOuter BundleEncode.
From S2P Require Changegroup Wirepack.

(** ** The decoders of parts *)

Inductive heads_error := HeadsRemaining.

Definition heads_decode (st : unit) (buf : bytes) : unit * outcome heads_error (option HgNodeHash * bytes) :=
  if (20 <=? lenN buf)%N then
    (st, '(newcsid, buf) ← split_to 20 buf;
         match HgNodeHash_from_bytes newcsid with Ok h => Ok (Some h, buf) | _ => Panic end)
  else (st, Ok (None, buf)).

(** [decode_eof] as the trait provides it. *)
Definition default_eof {St Item E} (left_over : E) (dec : St -> bytes -> St * outcome E (option Item * bytes))
    (st : St) (buf : bytes) : St * outcome E (option Item * bytes) :=
  match dec st buf with
  | (st, Ok (None, buf)) => (st, if Nat.eqb (length buf) 0 then Ok (None, buf) else Err left_over)
  | r => r
  end.

#[export] Instance heads_decoder : Decoder unit HgNodeHash heads_error := {|
  decode := heads_decode; decode_eof := default_eof HeadsRemaining heads_decode |}.

Record InfinitepushBookmarksUnpacker := mkBookmarksUnpacker { finished : bool; expected_len : option N }.

Definition InfinitepushBookmarksUnpacker_new := mkBookmarksUnpacker false None.

Definition bookmarks_decode (u : InfinitepushBookmarksUnpacker) (buf : bytes)
    : InfinitepushBookmarksUnpacker * outcome heads_error (option bytes * bytes) :=
  if finished u then (u, Ok (None, buf)) else
  match expected_len u with
  | Some toread =>
      if (lenN buf <? toread)%N then (u, Ok (None, buf))
      else (mkBookmarksUnpacker true (Some toread), '(b, buf) ← split_to toread buf; Ok (Some b, buf))
  | None =>
      if (4 <=? lenN buf)%N then
        match drain_u32 buf with
        | Ok (n, buf) => (mkBookmarksUnpacker false (Some n), Ok (None, buf))
        | Err e => (u, Err e)
        | Panic => (u, Panic)
        end
      else (u, Ok (None, buf))
  end.

#[export] Instance bookmarks_decoder : Decoder InfinitepushBookmarksUnpacker bytes heads_error := {|
  decode := bookmarks_decode; decode_eof := default_eof HeadsRemaining bookmarks_decode |}.

(** [EmptyUnpacker]. *)
Definition empty_decode (st : unit) (buf : bytes) : unit * outcome heads_error (option unit * bytes) :=
  (st, Ok (None, buf)).

Definition empty_decoder : Decoder unit unit heads_error := {|
  decode := empty_decode; decode_eof := default_eof HeadsRemaining empty_decode |}.

Definition caps_decoder {P : PercentEncoding} : Decoder unit Capabilities start_error := {|
  decode := capabilities_decode; decode_eof := capabilities_decode_eof |}.

Definition CG_PART_VERSION_HEADER_NAME : bytes := bstr "cgversion".

Definition get_cg_version (header : PartHeader) : outcome bundle_error Changegroup.CgVersion :=
  version_bytes ← ok_or (aparams header !! CG_PART_VERSION_HEADER_NAME) CgUnknownVersion;
  version_str ← ok_or (from_utf8 version_bytes) CgUnknownVersion;
  Changegroup.CgVersion_from_str version_str.

(** Version 2 unless the header says otherwise. *)
Definition get_cg_unpacker (header : PartHeader) : Changegroup.CgUnpacker :=
  Changegroup.CgUnpacker_new
    (match get_cg_version header with Ok version => version | _ => Changegroup.Cg2Version end).

(** ** Streams of payloads *)

(** What decoding a part ends with: its own result, or what its input gave. *)
Inductive inner_end (E : Type) :=
| Finished
| Failed (e : E)
| Panicked.
Arguments Finished {E}. Arguments Failed {E} e. Arguments Panicked {E}.

Definition end_of {E} (r : outcome E unit) : inner_end E :=
  match r with Ok _ => Finished | Err e => Failed e | Panic => Panicked end.

Inductive InnerResult :=
| RChangegroup (items : list Changegroup.Part) (e : inner_end bundle_error)
| RCommonHeads (items : list HgNodeHash) (e : inner_end heads_error)
| RInfinitepushBookmarks (items : list bytes) (e : inner_end heads_error)
| RWirepack (items : list Wirepack.WPart) (e : inner_end bundle_error)
| RReplycaps (items : list Capabilities) (e : inner_end start_error)
| REmpty (e : inner_end heads_error).

(** Whether the consumer saw the end of the part's stream. For [Replycaps] the
    number of items is checked after that. *)
Definition is_finished {E} (e : inner_end E) : bool := match e with Finished => true | _ => false end.
Definition at_end (r : InnerResult) : bool :=
  match r with
  | RChangegroup _ e => is_finished e
  | RCommonHeads _ e => is_finished e
  | RInfinitepushBookmarks _ e => is_finished e
  | RWirepack _ e => is_finished e
  | RReplycaps _ e => is_finished e
  | REmpty e => is_finished e
  end.

(** [Replycaps] is a future of the one item. *)
Definition replycaps_result (r : InnerResult) : option Capabilities :=
  match r with RReplycaps [caps] Finished => Some caps | _ => None end.

Section read.
Context {P : PercentEncoding} {T : CharTables} {FL : FramedLib}.

(** [inner_stream]: the decoder for the part over the stream of its payloads,
    consumed to its end; [None] when [n] polls are not enough. *)
Definition consumed {St Item E} (D : Decoder St Item E) (st : St) (n : nat) (polls : list (poll bytes))
    : option (list Item * inner_end E) :=
  (fun '(xs, r) => (xs, end_of r)) <$> drive (D := D) n (decode_stream polls st).

Definition inner_decode (n : nat) (header : PartHeader) (polls : list (poll bytes)) : option InnerResult :=
  let cg := (fun '(xs, e) => RChangegroup xs e) <$> consumed Changegroup.cg_decoder (get_cg_unpacker header) n polls in
  let wp := (fun '(xs, e) => RWirepack xs e) <$> consumed Wirepack.wp_decoder (Wirepack.WirePackUnpacker_new Wirepack.Tree) n polls in
  let empty := (fun '(_, e) => REmpty e) <$> consumed empty_decoder tt n polls in
  match part_type header with
  | Changegroup => cg
  | B2xCommonHeads => (fun '(xs, e) => RCommonHeads xs e) <$> consumed heads_decoder tt n polls
  | B2xInfinitepush => cg
  | B2xInfinitepushBookmarks =>
      (fun '(xs, e) => RInfinitepushBookmarks xs e) <$> consumed bookmarks_decoder InfinitepushBookmarksUnpacker_new n polls
  | B2xTreegroup2 => wp
  | Replycaps => (fun '(xs, e) => RReplycaps xs e) <$> consumed caps_decoder tt n polls
  | B2xRebasePack => wp
  | B2xRebase => cg
  | Pushkey => empty
  | Pushvars => empty
  | _ => None
  end.

(** The arms of that [match]; any other type is a panic. *)
Definition inner_known (t : PartHeaderType) : bool :=
  match t with
  | Changegroup | B2xCommonHeads | B2xInfinitepush | B2xInfinitepushBookmarks | B2xTreegroup2
  | Replycaps | B2xRebasePack | B2xRebase | Pushkey | Pushvars => true
  | _ => false
  end.

(** ** The outer stream *)

Context {R D : Type} `{!Reader R} `{!Reader D}.

(** The decompressor of a bundle and what it gives back at the end. *)
Context (decompressor_new : Chain R -> DecompressorType -> D) (decompressor_into_inner : D -> Chain R).

Inductive OuterIo :=
| UncompressedRead (r : Chain R)
| CompressedRead (d : D).

#[local] Instance outer_io_reader : Reader OuterIo := {|
  read i := match i with
            | UncompressedRead r => let '(r, p) := read r in (UncompressedRead r, p)
            | CompressedRead d => let '(d, p) := read d in (CompressedRead d, p)
            end;
  pending i := match i with UncompressedRead r => pending r | CompressedRead d => pending d end;
  waits i := match i with UncompressedRead r => waits r | CompressedRead d => waits d end;
|}.

Definition OuterStream := framed OuterIo OuterState.

Definition outer_stream (stream_header : StreamHeader) (r : Chain R) : outcome start_error OuterStream :=
  decompressor_type ← get_decompressor_type (m_stream_params stream_header !! bstr "compression");
  Ok (from_parts match decompressor_type with
                 | None => UncompressedRead r
                 | Some t => CompressedRead (decompressor_new r t)
                 end InHeader).

(** The wrapped stream of a part: what its polls give until a frame that is no
    payload, and the outer stream that [return_remainder] then hands on. *)
Fixpoint payload_polls (k : nat) (s : OuterStream)
    : option (list (poll bytes) * outcome (framed_error outer_error) OuterStream) :=
  match k with
  | 0 => None
  | S k =>
      match framed_poll outer_decode s with
      | (s, Ok NotReady) => (fun '(polls, e) => (NotReady :: polls, e)) <$> payload_polls k s
      | (s, Ok (Ready (Some (Payload _ _ payload)))) =>
          (fun '(polls, e) => (Ready payload :: polls, e)) <$> payload_polls k s
      | (s, Ok (Ready _)) => Some ([], Ok s)
      | (s, Err e) => Some ([], Err e)
      | (s, Panic) => Some ([], Panic)
      end
  end.

(** ** [Bundle2Stream] *)

Inductive CurrentStream :=
| CStart (f : framed R unit)
| COuter (s : OuterStream)
| CInner (remainder : option OuterStream)
| CInvalid
| CEnd.

Record Bundle2Stream := mkBundle2Stream {
  app_errors : list outer_error;
  current_stream : CurrentStream;
}.

Inductive StreamEvent :=
| NextStart (h : StreamHeader)
| NextPart (header : PartHeader) (s : OuterStream)
| StreamDone (read_buf : bytes) (io : R).

Inductive bundle2_error :=
| StartFailed (e : framed_error start_error)
| HeaderFailed (e : start_error)
| OuterFailed (e : framed_error outer_error)
| ReceiveBeforeSend
| CorruptByteStream.

Definition Bundle2Stream_new (r : R) : Bundle2Stream := mkBundle2Stream [] (CStart (from_parts r tt)).

(** One turn of [poll_next]; no result where it calls itself. [CInner]
    holds what the inner stream has sent back by now. *)
Definition bundle_step (b : Bundle2Stream)
    : Bundle2Stream * option (outcome bundle2_error (poll (option StreamEvent))) :=
  let errs := app_errors b in
  match current_stream b with
  | CStart stream =>
      match framed_poll start_decode stream with
      | (stream, Err e) => (mkBundle2Stream errs (CStart stream), Some (Err (StartFailed e)))
      | (stream, Panic) => (mkBundle2Stream errs CInvalid, Some Panic)
      | (stream, Ok NotReady) => (mkBundle2Stream errs (CStart stream), Some (Ok NotReady))
      | (stream, Ok (Ready None)) => (mkBundle2Stream errs (CStart stream), Some (Ok (Ready None)))
      | (stream, Ok (Ready (Some start))) =>
          match outer_stream start (mkChain (read_buf stream) (io stream)) with
          | Ok v => (mkBundle2Stream errs (COuter v), Some (Ok (Ready (Some (NextStart start)))))
          | Err e => (mkBundle2Stream errs CInvalid, Some (Err (HeaderFailed e)))
          | Panic => (mkBundle2Stream errs CInvalid, Some Panic)
          end
      end
  | COuter stream =>
      match framed_poll outer_decode stream with
      | (stream, Err (DecoderError e)) =>
          if is_app_error e then (mkBundle2Stream (errs ++ [e]) (COuter stream), None)
          else (mkBundle2Stream errs (COuter stream), Some (Err (OuterFailed (DecoderError e))))
      | (stream, Err BytesRemaining) => (mkBundle2Stream errs (COuter stream), Some (Err (OuterFailed BytesRemaining)))
      | (stream, Panic) => (mkBundle2Stream errs CInvalid, Some Panic)
      | (stream, Ok NotReady) => (mkBundle2Stream errs (COuter stream), Some (Ok NotReady))
      | (stream, Ok (Ready None)) => (mkBundle2Stream errs (COuter stream), Some (Ok (Ready None)))
      | (stream, Ok (Ready (Some (Header header)))) =>
          if inner_known (part_type header)
          then (mkBundle2Stream errs (CInner None), Some (Ok (Ready (Some (NextPart header stream)))))
          else (mkBundle2Stream errs CInvalid, Some Panic)
      | (stream, Ok (Ready (Some Discard))) => (mkBundle2Stream errs (COuter stream), None)
      | (stream, Ok (Ready (Some StreamEnd))) =>
          let '(mkChain cursor io) := match io stream with
                                      | UncompressedRead r => r
                                      | CompressedRead d => decompressor_into_inner d
                                      end in
          (mkBundle2Stream errs CEnd, Some (Ok (Ready (Some (StreamDone (read_buf stream ++ cursor) io)))))
      | (stream, Ok (Ready (Some _))) => (mkBundle2Stream errs CInvalid, Some Panic)
      end
  | CInner (Some remainder) => (mkBundle2Stream errs (COuter remainder), None)
  | CInner None => (mkBundle2Stream errs CInvalid, Some (Err ReceiveBeforeSend))
  | CInvalid => (mkBundle2Stream errs CInvalid, Some (Err CorruptByteStream))
  | CEnd => (mkBundle2Stream errs CEnd, Some (Ok (Ready None)))
  end.

(** [poll]: [mem::replace] leaves [CInvalid] only while it runs. *)
Fixpoint Bundle2Stream_poll (k : nat) (b : Bundle2Stream)
    : option (Bundle2Stream * outcome bundle2_error (poll (option StreamEvent))) :=
  match k with
  | 0 => None
  | S k => match bundle_step b with (b, None) => Bundle2Stream_poll k b | (b, Some r) => Some (b, r) end
  end.

(** ** A consumer

    Polls the bundle until it ends, and consumes every part before it polls
    again, as the stream requires. *)

Inductive item :=
| IStart (h : StreamHeader)
| IPart (header : PartHeader) (r : InnerResult).

Inductive ending :=
| EDone (read_buf : bytes) (io : R)
| ETruncated
| EBundle (e : bundle2_error)
| EPart (e : framed_error outer_error)
| EStopped
| EPanic.

Definition with_item (i : item) (r : list item * ending * list outer_error) : list item * ending * list outer_error :=
  let '(items, e, errs) := r in (i :: items, e, errs).

Fixpoint read_bundle (k : nat) (b : Bundle2Stream) : option (list item * ending * list outer_error) :=
  match k with
  | 0 => None
  | S k =>
      match bundle_step b with
      | (b, None) => read_bundle k b
      | (b, Some (Ok NotReady)) => read_bundle k b
      | (b, Some (Ok (Ready None))) => Some ([], ETruncated, app_errors b)
      | (b, Some (Ok (Ready (Some (NextStart h))))) => with_item (IStart h) <$> read_bundle k b
      | (b, Some (Ok (Ready (Some (StreamDone read_buf io))))) => Some ([], EDone read_buf io, app_errors b)
      | (b, Some (Ok (Ready (Some (NextPart header s))))) =>
          '(polls, rest) ← payload_polls k s;
          match rest with
          | Ok s =>
              r ← inner_decode k header polls;
              if at_end r
              then with_item (IPart header r) <$> read_bundle k (mkBundle2Stream (app_errors b) (CInner (Some s)))
              else Some ([IPart header r], EStopped, app_errors b)
          | Err e => Some ([], EPart e, app_errors b)
          | Panic => Some ([], EPanic, app_errors b)
          end
      | (b, Some (Err e)) => Some ([], EBundle e, app_errors b)
      | (b, Some Panic) => Some ([], EPanic, app_errors b)
      end
  end.

(** ** What a consumer reads from a well-formed bundle *)

Context {FLL : FramedLaws FL} {RL : ReaderLaws R} {DL : ReaderLaws D}.

#[local] Instance outer_io_laws : ReaderLaws OuterIo.
Proof.
  intros [r|d].
  - pose proof (read_spec r) as H.
    change (read (UncompressedRead r)) with (let '(r, p) := read r in (UncompressedRead r, p)).
    destruct (read r) as [r' [|b]]; exact H.
  - pose proof (read_spec d) as H.
    change (read (CompressedRead d)) with (let '(d, p) := read d in (CompressedRead d, p)).
    destruct (read d) as [d' [|b]]; exact H.
Qed.

(** A stream that can be polled, with no more to come than fits an
    allocation. *)
Definition fits {Rd St Item E} `{!Reader Rd} (dec : frame_decoder St Item E) (f : framed Rd St) : Prop :=
  in_order dec f /\ (lenN (ahead f) <= isize_max)%N.

Lemma poll_view {Rd St Item E} `{!Reader Rd} `{!ReaderLaws Rd} (dec : frame_decoder St Item E) (f : framed Rd St) :
  undisturbed dec -> fits dec f ->
  let '(f', r) := framed_poll dec f in
  in_order dec f' /\ rtc read_step (io f) (io f') /\ waits (io f') <= waits (io f) /\
  match r with
  | Ok (Ready (Some x)) => dec (codec f) (ahead f) = (codec f', ahead f', Ok (Some x))
  | Ok (Ready None) => ahead f' = [] /\ dec (codec f) (ahead f) = (codec f', [], Ok None)
  | Ok NotReady => waits (io f') < waits (io f) /\ codec f' = codec f /\ ahead f' = ahead f
  | Err (DecoderError e) => dec (codec f) (ahead f) = (codec f', ahead f', Err e)
  | Err BytesRemaining => ahead f' <> [] /\ dec (codec f) (ahead f) = (codec f', ahead f', Ok None)
  | Panic => (dec (codec f) (ahead f)).2 = Panic
  end.
Proof.
  intros Hu [Hi Hl]. pose proof (framed_poll_spec dec f Hu Hi Hl) as H. destruct (framed_poll dec f) as [f' r].
  destruct H as [Hi' H]. split; [done|]. by apply polled_view.
Qed.

(** A bundle without compression stays so. *)
Definition plain (s : OuterStream) : Prop := exists r, io s = UncompressedRead r.

Definition later (s s' : OuterStream) : Prop :=
  waits (io s') <= waits (io s) /\ (plain s -> plain s') /\ (in_order outer_decode s -> in_order outer_decode s').

Lemma later_refl s : later s s.
Proof. by split_and!. Qed.

Lemma later_trans s1 s2 s3 : later s1 s2 -> later s2 s3 -> later s1 s3.
Proof. intros (H1 & H2 & H3) (H4 & H5 & H6). split; [lia|auto]. Qed.

Lemma later_fits s s' b : fits outer_decode s -> later s s' -> ahead s = b ++ ahead s' -> fits outer_decode s'.
Proof.
  intros [Hi Hl] (_ & _ & Hi') E. split; [auto|]. rewrite E in Hl. unfold lenN in *. rewrite length_app in Hl. lia.
Qed.

Lemma outer_view (s : OuterStream) :
  fits outer_decode s ->
  let '(s', r) := framed_poll outer_decode s in
  later s s' /\
  match r with
  | Ok (Ready (Some x)) => outer_decode (codec s) (ahead s) = (codec s', ahead s', Ok (Some x))
  | Ok (Ready None) => ahead s' = [] /\ outer_decode (codec s) (ahead s) = (codec s', [], Ok None)
  | Ok NotReady => waits (io s') < waits (io s) /\ codec s' = codec s /\ ahead s' = ahead s
  | Err (DecoderError e) => outer_decode (codec s) (ahead s) = (codec s', ahead s', Err e)
  | Err BytesRemaining => ahead s' <> [] /\ outer_decode (codec s) (ahead s) = (codec s', ahead s', Ok None)
  | Panic => (outer_decode (codec s) (ahead s)).2 = Panic
  end.
Proof.
  intros Hl. pose proof (poll_view outer_decode s outer_undisturbed Hl) as H.
  destruct (framed_poll outer_decode s) as [s' r]. destruct H as (Hi & Hr & Hw & H). split; [|done]. split; [done|]. split; [|done].
  unfold plain. clear -Hr. induction Hr as [i|i i1 i2 H1 _ IH]; [done|]. intros [c ->]. apply IH. rewrite H1.
  change (read (UncompressedRead c)) with (let '(r, p) := read c in (UncompressedRead r, p)).
  destruct (read c) as [c' q]. by exists c'.
Qed.

Ltac later_lia := repeat match goal with H : later _ _ |- _ => destruct H as [H _] end; lia.

Lemma suffix_fits (a b : bytes) : (lenN (a ++ b) <= isize_max)%N -> (lenN b <= isize_max)%N.
Proof. unfold lenN. rewrite length_app. lia. Qed.

(** The polls of a part's payloads, up to the end of the part. *)
Lemma payload_polls_spec k t id : forall bs s rest,
  codec s = InPayload t id -> ahead s = payload_bytes bs ++ frame_bytes [] ++ rest ->
  Forall (fun b => b <> [] /\ (lenN b < 2 ^ 31)%N) bs -> fits outer_decode s ->
  waits (io s) + length bs < k ->
  exists polls s', payload_polls k s = Some (polls, Ok s') /\ input_bytes polls = concat bs /\
    length polls <= waits (io s) + length bs /\
    codec s' = InHeader /\ ahead s' = rest /\ later s s'.
Proof.
  induction k as [|k IH]; intros bs s rest Hc Ha Hbs Hl Hk; [later_lia|]. cbn [payload_polls].
  pose proof (outer_view s Hl) as H.
  destruct (framed_poll outer_decode s) as [s1 r]. destruct H as [Hw H]. pose proof (proj1 Hw) as Hw'.
  assert (match bs with
    | [] => outer_decode (codec s) (ahead s) = (InHeader, rest, Ok (Some (PartEnd t id)))
    | b :: bs => outer_decode (codec s) (ahead s)
        = (InPayload t id, payload_bytes bs ++ frame_bytes [] ++ rest, Ok (Some (Payload t id b)))
    end) as Hd.
  { rewrite Hc, Ha. destruct bs as [|b bs]; unfold payload_bytes; cbn [fmap list_fmap concat app].
    - by rewrite outer_part.
    - apply Forall_cons in Hbs as [[Hne Hb] _]. rewrite <- app_assoc, outer_part by done. by rewrite decide_False. }
  destruct r as [[|[x|]]|[e|]|].
  - destruct H as (Hlt & Hc1 & Ha1). apply (later_fits _ s1 []) in Hl; [|done..]. rewrite Hc in Hc1. rewrite Ha in Ha1.
    destruct (IH bs s1 rest Hc1 Ha1 Hbs Hl) as (polls & s2 & E & Hin & Hlen & Hc2 & Ha2 & Hw2); [later_lia|].
    rewrite E. exists (NotReady :: polls), s2. split; [done|]. split; [done|]. split; [cbn [length]; later_lia|].
    split; [done|]. split; [done|by eapply later_trans].
  - destruct bs as [|b bs]; rewrite Hd in H; injection H as Hc1 Ha1 Hx; subst x.
    + exists [], s1. split; [done|]. split; [done|]. split; [cbn [length]; later_lia|]. done.
    + apply Forall_cons in Hbs as [[Hne Hb] Hbs]. cbn [length] in Hk.
      assert (fits outer_decode s1) as Hl1.
      { eapply (later_fits _ _ (frame_bytes b) Hl Hw). rewrite Ha, <- Ha1. unfold payload_bytes.
        cbn [fmap list_fmap concat]. by rewrite <- app_assoc. }
      destruct (IH bs s1 rest (eq_sym Hc1) (eq_sym Ha1) Hbs Hl1) as (polls & s2 & E & Hin & Hlen & Hc2 & Ha2 & Hw2); [later_lia|].
      rewrite E. exists (Ready b :: polls), s2. split; [done|]. split; [cbn [input_bytes concat]; by rewrite Hin|]. split; [cbn [length]; later_lia|].
      split; [done|]. split; [done|by eapply later_trans].
  - exfalso. destruct H as [_ H]. destruct bs; by rewrite Hd in H.
  - exfalso. destruct bs; by rewrite Hd in H.
  - exfalso. destruct H as [_ H]. destruct bs; by rewrite Hd in H.
  - exfalso. destruct bs; by rewrite Hd in H.
Qed.

(** The consumer's turn on a part. *)
Definition read_part (k : nat) (errs : list outer_error) (header : PartHeader) (s : OuterStream) :=
  '(polls, rest) ← payload_polls k s;
  match rest with
  | Ok s =>
      r ← inner_decode k header polls;
      if at_end r then with_item (IPart header r) <$> read_bundle k (mkBundle2Stream errs (CInner (Some s)))
      else Some ([IPart header r], EStopped, errs)
  | Err e => Some ([], EPart e, errs)
  | Panic => Some ([], EPanic, errs)
  end.

(** The end of the bundle: what is left of the input. *)
Definition bundle_end (s : OuterStream) : ending :=
  let '(mkChain cursor io) := match io s with
                              | UncompressedRead r => r
                              | CompressedRead d => decompressor_into_inner d
                              end in EDone (read_buf s ++ cursor) io.

(** What the consumer does with a frame. *)
Definition after_frame (k : nat) (errs : list outer_error) (s : OuterStream) (r : outcome outer_error (option OuterFrame)) :=
  match r with
  | Ok (Some (Header header)) =>
      if inner_known (part_type header) then read_part k errs header s else Some ([], EPanic, errs)
  | Ok (Some Discard) => read_bundle k (mkBundle2Stream errs (COuter s))
  | Ok (Some StreamEnd) => Some ([], bundle_end s, errs)
  | Err e => if is_app_error e then read_bundle k (mkBundle2Stream (errs ++ [e]) (COuter s))
             else Some ([], EBundle (OuterFailed (DecoderError e)), errs)
  | _ => Some ([], EPanic, errs)
  end.

Lemma outer_turn k : forall errs s st rest r,
  outer_decode (codec s) (ahead s) = (st, rest, r) -> r <> Ok None -> r <> Panic ->
  fits outer_decode s -> waits (io s) < k ->
  exists k' s', codec s' = st /\ ahead s' = rest /\ later s s' /\
    k + waits (io s') <= k' + 1 + waits (io s) /\
    read_bundle k (mkBundle2Stream errs (COuter s)) = after_frame k' errs s' r.
Proof.
  induction k as [|k IH]; intros errs s st rest r Hd Hr1 Hr2 Hl Hk; [later_lia|].
  cbn [read_bundle]. unfold bundle_step. cbn [current_stream app_errors].
  pose proof (outer_view s Hl) as H.
  destruct (framed_poll outer_decode s) as [s1 p]. destruct H as [Hw H]. pose proof (proj1 Hw) as Hw'. destruct p as [[|[x|]]|[e|]|].
  - destruct H as (Hlt & Hc1 & Ha1). rewrite <- Hc1, <- Ha1 in Hd. apply (later_fits _ s1 []) in Hl; [|done..].
    destruct (IH errs s1 st rest r Hd Hr1 Hr2 Hl) as (k' & s' & H1 & H2 & H3 & H4 & H5); [later_lia|].
    exists k', s'. split; [done|]. split; [done|]. split; [by eapply later_trans|]. split; [later_lia|done].
  - rewrite Hd in H. injection H as -> -> ->. exists k, s1. split; [done|]. split; [done|]. split; [done|]. split; [later_lia|].
    destruct x as [h|t id b|t id| |]; cbn [after_frame]; [|done..|].
    + by destruct (inner_known (part_type h)).
    + unfold bundle_end. by destruct (match io s1 with UncompressedRead r => r | CompressedRead d => decompressor_into_inner d end).
  - destruct H as [_ H]. rewrite Hd in H. by injection H as -> -> ->.
  - rewrite Hd in H. injection H as -> -> ->. exists k, s1. split; [done|]. split; [done|]. split; [done|]. split; [later_lia|].
    cbn [after_frame]. by destruct (is_app_error e).
  - destruct H as [_ H]. rewrite Hd in H. by injection H as -> -> ->.
  - rewrite Hd in H. cbn in H. by subst r.
Qed.

(** A part that is thrown away takes one turn for each chunk. *)
Lemma discard_turns bs : forall k errs s rest,
  codec s = DiscardPayload -> ahead s = payload_bytes bs ++ frame_bytes [] ++ rest ->
  Forall (fun b => b <> [] /\ (lenN b < 2 ^ 31)%N) bs -> fits outer_decode s ->
  waits (io s) + length bs < k ->
  exists k' s', codec s' = InHeader /\ ahead s' = rest /\ later s s' /\
    k + waits (io s') <= k' + length bs + 1 + waits (io s) /\
    read_bundle k (mkBundle2Stream errs (COuter s)) = read_bundle k' (mkBundle2Stream errs (COuter s')).
Proof.
  induction bs as [|b bs IH]; intros k errs s rest Hc Ha Hbs Hl Hk.
  - destruct (outer_turn k errs s InHeader rest (Ok (Some Discard))) as (k' & s' & H1 & H2 & H3 & H4 & H5);
      [|done|done|done|later_lia|].
    { rewrite Hc, Ha. unfold payload_bytes. cbn [fmap list_fmap concat app]. by rewrite outer_part. }
    exists k', s'. split; [done|]. split; [done|]. split; [done|]. split; [cbn [length]; later_lia|done].
  - apply Forall_cons in Hbs as [[Hne Hb] Hbs]. cbn [length] in Hk.
    assert (ahead s = frame_bytes b ++ payload_bytes bs ++ frame_bytes [] ++ rest) as Ha'.
    { rewrite Ha. unfold payload_bytes. cbn [fmap list_fmap concat]. by rewrite <- app_assoc. }
    destruct (outer_turn k errs s DiscardPayload (payload_bytes bs ++ frame_bytes [] ++ rest) (Ok (Some Discard)))
      as (k1 & s1 & H1 & H2 & H3 & H4 & H5); [|done|done|done|later_lia|].
    { rewrite Hc, Ha'. rewrite outer_part by done. by rewrite decide_False. }
    apply (later_fits _ s1 (frame_bytes b)) in Hl; [|done|by rewrite Ha', H2].
    destruct (IH k1 errs s1 rest H1 H2 Hbs Hl) as (k' & s' & G1 & G2 & G3 & G4 & G5); [later_lia|].
    exists k', s'. split; [done|]. split; [done|]. split; [by eapply later_trans|]. split; [cbn [length]; later_lia|].
    rewrite H5. exact G5.
Qed.

(** The decoder of a part makes [r] of its payload [body], however the polls
    cut it, and sees its end. *)
Definition reads_as (header : PartHeader) (body : bytes) (r : InnerResult) : Prop :=
  at_end r = true /\
  forall polls n, input_bytes polls = body -> length polls + length body < n -> inner_decode n header polls = Some r.

Abbreviation part := (PartHeader * PartEncodeData)%type.

Definition part_body (x : part) : bytes := concat (data_payloads x.2).

(** What a consumer gets of parts: the parts it knows, each decoded, and the
    errors of those it must know and does not; others are passed over. *)
Inductive delivered : list part -> list item -> list outer_error -> Prop :=
| delivered_nil : delivered [] [] []
| delivered_known x l r items es :
    validate_header x.1 = Ok (Some x.1) -> reads_as x.1 (part_body x) r ->
    delivered l items es -> delivered (x :: l) (IPart x.1 r :: items) es
| delivered_ignored x l items es :
    validate_header x.1 = Ok None -> delivered l items es -> delivered (x :: l) items es
| delivered_refused x l e items es :
    validate_header x.1 = Err e -> delivered l items es -> delivered (x :: l) items (e :: es).

Definition good_part (x : part) : Prop := valid_header x.1 /\ good_data x.2.

Definition part_cost (x : part) : nat := length (data_payloads x.2) + length (part_body x) + 3.

Lemma good_payloads x : good_part x -> Forall (fun b => b <> [] /\ (lenN b < 2 ^ 31)%N) (data_payloads x.2).
Proof.
  intros [_ [Hc _]]. unfold data_payloads. apply Forall_fmap. eapply Forall_impl; [exact Hc|]. by intros [b|].
Qed.

Lemma known_inner h : KNOWN_PARAMS (part_type h) <> None -> inner_known (part_type h) = true.
Proof. by destruct (part_type h). Qed.

Lemma read_part_known k errs x r s rest :
  good_part x -> reads_as x.1 (part_body x) r ->
  codec s = InPayload (part_type x.1) (part_id x.1) ->
  ahead s = payload_bytes (data_payloads x.2) ++ frame_bytes [] ++ rest ->
  fits outer_decode s -> part_cost x + waits (io s) <= k + 1 ->
  exists s', codec s' = InHeader /\ ahead s' = rest /\ later s s' /\
    read_part k errs x.1 s = with_item (IPart x.1 r) <$> read_bundle (k - 1) (mkBundle2Stream errs (COuter s')).
Proof.
  intros Hg [Hend Hr] Hc Ha Hl Hk. unfold part_cost in Hk.
  destruct (payload_polls_spec k _ _ _ s rest Hc Ha (good_payloads x Hg) Hl) as (polls & s' & E & Hin & Hlen & H1 & H2 & H3);
    [later_lia|].
  exists s'. split; [done|]. split; [done|]. split; [done|]. unfold read_part. rewrite E.
  cbn [mbind option_bind]. rewrite (Hr polls k Hin) by (unfold part_body in *; later_lia). cbn [mbind option_bind].
  rewrite Hend. destruct k as [|k]; [later_lia|]. cbn [read_bundle]. unfold bundle_step. cbn [current_stream app_errors].
  by rewrite Nat.sub_succ, Nat.sub_0_r.
Qed.

(** What the outer decoder makes of a header. *)
Definition header_result (h : PartHeader) : OuterState * outcome outer_error (option OuterFrame) :=
  match validate_header h with
  | Ok None => (DiscardPayload, Ok (Some Discard))
  | Ok (Some header) => (InPayload (part_type header) (part_id header), Ok (Some (Header header)))
  | Err e => (if is_app_error e then DiscardPayload else Corrupt, Err e)
  | Panic => (Corrupt, Panic)
  end.

(** All that follows a header in its part, and the bytes after it. *)
Definition body_then (x : part) (rest : bytes) : bytes := payload_bytes (data_payloads x.2) ++ frame_bytes [] ++ rest.

Lemma body_fits s s' x rest :
  fits outer_decode s -> later s s' -> ahead s = body_then x rest -> ahead s' = rest -> fits outer_decode s'.
Proof.
  intros Hs Hl Ha <-. eapply (later_fits _ _ (payload_bytes (data_payloads x.2) ++ frame_bytes []) Hs Hl).
  rewrite Ha. unfold body_then. by rewrite <- app_assoc.
Qed.

Lemma header_turn k errs s x l tail :
  good_part x -> codec s = InHeader -> ahead s = parts_bytes (x :: l) ++ tail ->
  fits outer_decode s -> waits (io s) < k ->
  exists k' s', codec s' = (header_result x.1).1 /\ ahead s' = body_then x (parts_bytes l ++ tail) /\
    fits outer_decode s' /\ later s s' /\
    k + waits (io s') <= k' + 1 + waits (io s) /\
    read_bundle k (mkBundle2Stream errs (COuter s)) = after_frame k' errs s' (header_result x.1).2.
Proof.
  intros Hx Hc Ha Hl Hk.
  assert (ahead s = frame_bytes (header_bytes x.1) ++ body_then x (parts_bytes l ++ tail)) as Ha'.
  { rewrite Ha. unfold parts_bytes, part_bytes, body_then. cbn [fmap list_fmap concat]. by rewrite <- !app_assoc. }
  destruct (outer_turn k errs s (header_result x.1).1 (body_then x (parts_bytes l ++ tail)) (header_result x.1).2)
    as (k' & s' & H1 & H2 & H3 & H4 & H5); [| | |done|done|].
  - rewrite Hc, Ha', outer_header by apply Hx. unfold header_result. by destruct (validate_header x.1) as [[h|]|e|].
  - unfold header_result. by destruct (validate_header x.1) as [[h|]|e|].
  - pose proof (validate_header_errors x.1) as Hv. unfold header_result. by destruct (validate_header x.1) as [[h|]|e|].
  - exists k', s'. split; [done|]. split; [done|]. split; [|done].
    eapply (later_fits _ _ (frame_bytes (header_bytes x.1)) Hl H3). by rewrite Ha', H2.
Qed.

Lemma read_parts l items es : delivered l items es ->
  forall k errs s tail,
  Forall good_part l -> codec s = InHeader -> ahead s = parts_bytes l ++ tail ->
  fits outer_decode s -> sum_list_with part_cost l + waits (io s) + 1 <= k ->
  exists s', (plain s -> plain s') /\ ahead s' = tail /\
    read_bundle k (mkBundle2Stream errs (COuter s)) = Some (items, bundle_end s', errs ++ es).
Proof.
  assert (forall x, 3 <= part_cost x) as Hcost by (intros x; unfold part_cost; later_lia).
  assert (forall x, length (data_payloads x.2) + 3 <= part_cost x) as Hcost' by (intros x; unfold part_cost; later_lia).
  induction 1 as [|x l r items es Hv Hr Hd IH|x l items es Hv Hd IH|x l e items es Hv Hd IH];
    intros k errs s tail Hg Hc Ha Hl Hk; cbn [sum_list_with] in Hk;
    [|apply Forall_cons in Hg as [Hx Hg]; specialize (Hcost x); specialize (Hcost' x);
      destruct (header_turn k errs s x l tail Hx Hc Ha Hl) as (k1 & s1 & H1 & H2 & Hl1 & H3 & H4 & H5); [later_lia|];
      unfold header_result in H1, H5; rewrite Hv in H1, H5; cbn [fst snd] in H1, H5; rewrite H5; cbn [after_frame]..].
  - destruct (outer_turn k errs s AtStreamEnd tail (Ok (Some StreamEnd))) as (k' & s' & H1 & H2 & H3 & H4 & H5);
      [|done|done|done|later_lia|].
    { rewrite Hc, Ha. unfold parts_bytes. cbn [fmap list_fmap concat app]. by rewrite outer_stream_end. }
    exists s'. split; [apply H3|]. split; [done|]. rewrite H5. cbn [after_frame]. by rewrite app_nil_r.
  - pose proof (validate_header_errors x.1) as Hval. rewrite Hv in Hval. rewrite known_inner by apply Hval.
    destruct (read_part_known k1 errs x r s1 _ Hx Hr H1 H2 Hl1) as (s2 & G1 & G2 & G3 & G4); [later_lia|].
    apply (body_fits s1 s2 x _ Hl1 G3 H2) in G2 as Hl2.
    destruct (IH (k1 - 1) errs s2 tail Hg G1 G2 Hl2) as (s' & F1 & F2 & F3); [later_lia|].
    exists s'. split; [intros ?; by apply F1, G3, H3|]. by rewrite G4, F3.
  - destruct (discard_turns _ k1 errs s1 _ H1 H2 (good_payloads x Hx) Hl1) as (k2 & s2 & G1 & G2 & G3 & G4 & G5); [later_lia|].
    apply (body_fits s1 s2 x _ Hl1 G3 H2) in G2 as Hl2.
    destruct (IH k2 errs s2 tail Hg G1 G2 Hl2) as (s' & F1 & F2 & F3); [later_lia|]. exists s'. split; [intros ?; by apply F1, G3, H3|]. by rewrite G5, F3.
  - pose proof (validate_header_errors x.1) as Happ. rewrite Hv in Happ. rewrite Happ in H1 |- *.
    destruct (discard_turns _ k1 (errs ++ [e]) s1 _ H1 H2 (good_payloads x Hx) Hl1) as (k2 & s2 & G1 & G2 & G3 & G4 & G5); [later_lia|].
    apply (body_fits s1 s2 x _ Hl1 G3 H2) in G2 as Hl2.
    destruct (IH k2 (errs ++ [e]) s2 tail Hg G1 G2 Hl2) as (s' & F1 & F2 & F3); [later_lia|].
    exists s'. split; [intros ?; by apply F1, G3, H3|]. rewrite G5, F3. by rewrite <- app_assoc.
Qed.

(** ** The start *)

Lemma start_turn k : forall errs (f : framed R unit) h rest,
  start_decode tt (ahead f) = (tt, rest, Ok (Some h)) -> m_stream_params h !! bstr "compression" = Some (bstr "UN") ->
  fits start_decode f -> waits (io f) < k ->
  exists k' s, codec s = InHeader /\ ahead s = rest /\ (plain s /\ in_order outer_decode s) /\ waits (io s) <= waits (io f) /\
    k + waits (io s) <= k' + 1 + waits (io f) /\
    read_bundle k (mkBundle2Stream errs (CStart f)) = with_item (IStart h) <$> read_bundle k' (mkBundle2Stream errs (COuter s)).
Proof.
  induction k as [|k IH]; intros errs f h rest Hd Hun Hl Hk; [lia|].
  cbn [read_bundle]. unfold bundle_step. cbn [current_stream app_errors].
  pose proof (poll_view start_decode f start_undisturbed Hl) as H.
  destruct (framed_poll start_decode f) as [f1 p]. destruct H as (Hi & _ & Hw & H).
  destruct (codec f) eqn:Hcf. destruct p as [[|[x|]]|[e|]|].
  - destruct H as (Hlt & Hc1 & Ha1). rewrite <- Ha1 in Hd.
    assert (fits start_decode f1) as Hl1 by (destruct Hl as [_ Hl]; rewrite <- Ha1 in Hl; by split).
    destruct (IH errs f1 h rest Hd Hun Hl1) as (k' & s' & H1 & H2 & Hp & H3 & H4 & H5); [lia|].
    exists k', s'. split; [done|]. split; [done|]. split; [done|]. split; [lia|]. split; [lia|done].
  - rewrite Hd in H. injection H as _ -> ->. unfold outer_stream. rewrite Hun. cbn [get_decompressor_type].
    set (s := from_parts (UncompressedRead (mkChain (read_buf f1) (io f1))) InHeader).
    exists k, s. split; [done|]. split; [done|]. split; [split; [by eexists|apply from_parts_in_order]|].
    split; [done|]. split; [cbn; lia|]. done.
  - destruct H as [_ H]. by rewrite Hd in H.
  - by rewrite Hd in H.
  - destruct H as [_ H]. by rewrite Hd in H.
  - by rewrite Hd in H.
Qed.

Context {PO : ParamOrder} {PL : PercentLaws P} {TL : CharTablesLaws T} {OL : ParamOrderLaws PO}.
Context (compress : CompressorType -> bytes -> bytes).

(** A bundle the builder can make: keys are ASCII, parts are valid, and the
    parameters of the stream fit the length field. *)
Record good_bundle (b : Bundle2EncodeBuilder) (l : list part) : Prop := {
  gb_header : good_header (bundle_header b);
  gb_fits : (lenN (encoded_params (wire_params (start_header (bundle_header b) (compressor_type b)))) < 2 ^ 32)%N;
  gb_parts : parts b = started <$> l;
  gb_good : Forall good_part l;
}.

Definition polls_of (l : list part) : nat := sum_list_with (fun x => data_polls x.2 + 4) l.

Lemma bundle_written b l k :
  good_bundle b l -> compressor_type b = None -> polls_of l <= k ->
  bundle_encode compress k b = Some (Ok (header_buf (bundle_header b) None ++ parts_bytes l)).
Proof.
  intros [Hh Hf Hp Hg] Hct Hk. unfold bundle_encode. rewrite Hct, Hp. rewrite poll_parts_bytes; [done|].
  apply Forall_forall. intros x Hx. rewrite Forall_forall in Hg. destruct (Hg x Hx) as [H1 H2].
  split; [done|]. split; [done|]. pose proof (sum_list_with_in x (fun x => data_polls x.2 + 4) l Hx) as Hs.
  unfold polls_of in Hk. cbv beta in Hs. lia.
Qed.

(** C5. A bundle that the builder makes without compression, with parameters
    and part headers that their fields can hold and no empty chunk of data, is
    written without error, and read back from any reader that has its bytes,
    however it delivers them: the stream parameters, the parts in order with
    their headers, each decoded to its end; errors for the parts that must be
    known and are not, and nothing for those that may be ignored. What follows
    the bundle is left in the buffer and the reader. *)
Theorem bundle_roundtrip b l items errs :
  good_bundle b l -> compressor_type b = None -> delivered l items errs ->
  exists bs, (forall k, polls_of l <= k -> bundle_encode compress k b = Some (Ok bs)) /\
    forall r tail, pending r = bs ++ tail -> (lenN (pending r) <= isize_max)%N ->
      exists k0, forall k, k0 <= k -> exists read_buf io,
        read_bundle k (Bundle2Stream_new r)
        = Some (IStart (start_header (bundle_header b) None) :: items, EDone read_buf io, errs) /\
        read_buf ++ pending io = tail.
Proof.
  intros Hb Hct Hd. exists (header_buf (bundle_header b) None ++ parts_bytes l). split.
  { intros k Hk. by apply bundle_written. }
  intros r tail Hr Hl. destruct Hb as [Hh Hf Hp Hg]. rewrite Hct in Hf.
  exists (sum_list_with part_cost l + waits r + 2). intros k Hk.
  set (h := start_header (bundle_header b) None).
  destruct (start_turn k [] (from_parts r tt) h (parts_bytes l ++ tail)) as (k1 & s & H1 & H2 & [Hpl Hio] & H3 & H4 & H5).
  - unfold ahead, from_parts. cbn [read_buf io app]. rewrite Hr, <- app_assoc. apply start_roundtrip; [done|done|].
    unfold parts_bytes. intros E%(f_equal length). rewrite !length_app in E. cbn in E. lia.
  - unfold h, start_header. cbn [m_stream_params]. apply lookup_insert_eq.
  - split; [apply from_parts_in_order|]. unfold ahead. exact Hl.
  - cbn [io from_parts]. lia.
  - cbn [io from_parts] in H3, H4. assert (fits outer_decode s) as Hls.
    { split; [done|]. rewrite H2. rewrite Hr, <- app_assoc in Hl. by eapply suffix_fits. }
    destruct (read_parts l items errs Hd k1 [] s tail Hg H1 H2 Hls) as (s' & G1 & G2 & G3); [lia|].
    unfold Bundle2Stream_new. rewrite H5, G3. cbn [fmap option_fmap option_map with_item app]. unfold bundle_end.
    destruct (G1 Hpl) as [[cursor rd] Heq]. unfold ahead in G2. rewrite Heq in G2. rewrite Heq.
    exists (read_buf s' ++ cursor), rd. split; [done|]. by rewrite <- app_assoc.
Qed.
End read.
