(* ===== verification/Parts.v ===== *)
(** * The parts the server makes

    Model of [mercurial_bundles/src/parts/mod.rs]: the builders of the parts
    the server sends, and of [HgParents] ([mercurial_types/src/blobnode.rs])
    and [HgPhase] ([phase.rs]); and what reading a part gives for the decoders
    of [Bundle2] that are lawful. *)

From S2P Require Import Prelude Path Hash Framing Delta BundleCodec Chunk Decimal PartHeader Framed StreamStart.
From S2P Require Import PartOuter BundleEncode Bundle2.
From S2P Require Changegroup ChangegroupRoundtrip Wirepack WirepackRoundtrip.

#[local] Existing Instances Wirepack.conv_state_eq_dec Wirepack.packer_processor.
#[local] Existing Instances Changegroup.cg_decoder Changegroup.cg_laws Wirepack.wp_decoder WirepackRoundtrip.wp_laws.

(** ** Builders *)

Inductive HgParents :=
| NoParents
| One (p : HgNodeHash)
| Two (p1 p2 : HgNodeHash).

Definition HgParents_new (p1 p2 : option HgNodeHash) : HgParents :=
  match p1, p2 with
  | None, None => NoParents
  | Some p1, None => One p1
  | None, Some p2 => One p2
  | Some p1, Some p2 => Two p1 p2
  end.

Definition get_nodes (p : HgParents) : option HgNodeHash * option HgNodeHash :=
  match p with
  | NoParents => (None, None)
  | One p1 => (Some p1, None)
  | Two p1 p2 => (Some p1, Some p2)
  end.

Inductive HgPhase := Public | Draft.
Definition phase_as_u32 (p : HgPhase) : N := match p with Public => 0 | Draft => 1 end.

(** [?] on an error of the header builder. *)
Definition mandatory_part (t : PartHeaderType) (params : list (bytes * bytes)) : outcome header_error PartEncodeBuilder :=
  foldl (fun b '(key, val) => b ← b; part_add_mparam b key val) (Ok (part_builder t true)) params.

(** The streams given to a builder are lists, or the error they end in;
    [wait] is how often the future made of one is not ready. *)
Definition listkey_part (namespace : bytes) (wait : nat) (items : outcome bundle_error (list (bytes * bytes)))
    : outcome header_error PartEncodeBuilder :=
  builder ← mandatory_part Listkeys [(bstr "namespace", namespace)];
  Ok (set_data_future builder wait
        (items ← items;
         Ok (foldl (fun payload '(key, value) => payload ++ key ++ [x09] ++ value ++ [x0a]) [] items))).

Definition phases_part (wait : nat) (phases_entries : outcome bundle_error (list (HgNodeHash * HgPhase)))
    : outcome header_error PartEncodeBuilder :=
  builder ← mandatory_part PhaseHeads [];
  Ok (set_data_future builder wait
        (entries ← phases_entries;
         Ok (foldl (fun payload '(value, phase) => payload ++ u_be 4 (phase_as_u32 phase) ++ HgNodeHash_as_bytes value)
               [] entries))).

(** The packers as streams: they stop at the first error. *)
Fixpoint cg_stream (last_seen : Changegroup.Section_) (parts : list Changegroup.Part) : ChunkStream :=
  match parts with
  | [] => []
  | p :: parts =>
      match Changegroup.pack_part last_seen p with
      | Ok (last_seen, c) => Ready (Ok c) :: cg_stream last_seen parts
      | Err e => [Ready (Err e)]
      | Panic => [Ready Panic]
      end
  end.

Fixpoint wp_stream (kind : Wirepack.Kind) (st : Wirepack.conv_state) (parts : list Wirepack.WPart) : ChunkStream :=
  if bool_decide (st = Wirepack.CEnd) then [] else
  match parts with
  | [] => match Wirepack.seen_none st with Ok _ => [] | Err e => [Ready (Err e)] | Panic => [Ready Panic] end
  | p :: parts =>
      match Wirepack.convert_part (Wirepack.mkPacker kind) st p with
      | Ok (st, Some d) => Ready (Ok d) :: wp_stream kind st parts
      | Ok (st, None) => wp_stream kind st parts
      | Err e => [Ready (Err e)]
      | Panic => [Ready Panic]
      end
  end.

Record ChangelogEntry := mkChangelog { ch_node : HgNodeHash; ch_parents : HgParents; ch_text : bytes }.

Definition changelog_part (e : ChangelogEntry) : Changegroup.Part :=
  let parents := get_nodes (ch_parents e) in
  Changegroup.CgChunk Changegroup.Changeset
    (Changegroup.mkCgDelta (ch_node e) (default NULL_HASH parents.1) (default NULL_HASH parents.2) NULL_HASH (ch_node e)
       (Delta_new_fulltext (ch_text e)) None).

Definition changegroup_entries (changelogentries : list ChangelogEntry) : list Changegroup.Part :=
  (changelog_part <$> changelogentries) ++
  [Changegroup.SectionEnd Changegroup.Changeset; Changegroup.SectionEnd Changegroup.Manifest; Changegroup.End_].

Definition changegroup_part (changelogentries : list ChangelogEntry) : outcome header_error PartEncodeBuilder :=
  builder ← mandatory_part Changegroup [(bstr "version", bstr "02")];
  Ok (set_data_generated builder (cg_stream Changegroup.Changeset (changegroup_entries changelogentries))).

Record TreepackPartInput := mkTreepackInput {
  tp_node : HgNodeHash;
  tp_p1 : option HgNodeHash;
  tp_p2 : option HgNodeHash;
  tp_content : bytes;
  tp_name : option MPathElement;
  tp_linknode : HgNodeHash;
  tp_basepath : option MPath;
}.

Definition treepack_path (input : TreepackPartInput) : RepoPath :=
  match join_element_opt (tp_basepath input) (tp_name input) with
  | Some path => DirectoryPath path
  | None => RootPath
  end.

Definition treepack_entries (input : TreepackPartInput) : list Wirepack.WPart :=
  let path := treepack_path input in
  [Wirepack.HistoryMeta path 1;
   Wirepack.History (Wirepack.mkHistory (tp_node input) (default NULL_HASH (tp_p1 input)) (default NULL_HASH (tp_p2 input))
     (tp_linknode input) None);
   Wirepack.DataMeta path 1;
   Wirepack.Data (Wirepack.mkData (tp_node input) NULL_HASH (Delta_new_fulltext (tp_content input)))].

Definition treepack_wparts (entries : list TreepackPartInput) : list Wirepack.WPart :=
  mjoin (treepack_entries <$> entries) ++ [Wirepack.WEnd].

Definition treepack_part (entries : list TreepackPartInput) : outcome header_error PartEncodeBuilder :=
  builder ← mandatory_part B2xTreegroup2
    [(bstr "version", bstr "1"); (bstr "cache", bstr "True"); (bstr "category", bstr "manifests")];
  Ok (set_data_generated builder (wp_stream Wirepack.Tree Wirepack.CHistoryMeta (treepack_wparts entries))).

Inductive ChangegroupApplyResult :=
| Success (heads_num_diff : Z)
| ApplyError.

(** [i64] numbers in decimal. *)
Definition wrap64 (z : Z) : Z := ((z + 2 ^ 63) mod 2 ^ 64 - 2 ^ 63)%Z.
Definition format_i64 (z : Z) : bytes :=
  if (z <? 0)%Z then bstr "-" ++ decimal (Z.to_N (- z)) else decimal (Z.to_N z).

Definition format_apply_result (r : ChangegroupApplyResult) : bytes :=
  match r with
  | Success heads_num_diff =>
      if (0 <=? heads_num_diff)%Z then format_i64 (wrap64 (1 + heads_num_diff))
      else format_i64 (wrap64 (-1 + heads_num_diff))
  | ApplyError => bstr "0"
  end.

Definition replychangegroup_part (res : ChangegroupApplyResult) (in_reply_to : N) : outcome header_error PartEncodeBuilder :=
  mandatory_part ReplyChangegroup
    [(bstr "return", format_apply_result res); (bstr "in-reply-to", decimal in_reply_to)].

Definition replypushkey_part (res : bool) (in_reply_to : N) : outcome header_error PartEncodeBuilder :=
  mandatory_part ReplyPushkey
    [(bstr "return", if res then bstr "1" else bstr "0"); (bstr "in-reply-to", decimal in_reply_to)].

(** ** Lawful decoders of parts *)

Lemma heads_more buf ext :
  match heads_decode tt buf with
  | (st', Ok (Some x, rest)) => heads_decode tt (buf ++ ext) = (st', Ok (Some x, rest ++ ext)) /\ length rest < length buf
  | (st', Ok (None, rest)) => st' = tt /\ rest = buf
  | (st', Err e) => False
  | (st', Panic) => False
  end.
Proof.
  unfold heads_decode. destruct (N.leb_spec 20 (lenN buf)) as [H|H]; [|done].
  assert (lenN (buf ++ ext) = lenN buf + lenN ext)%N as Hl by (unfold lenN; rewrite length_app; lia).
  rewrite (proj2 (N.leb_le _ _)) by lia. rewrite !split_to_Ok, !bind_Ok by lia.
  unfold lenN in *. change (N.to_nat 20) with 20. rewrite take_app_le, drop_app_le by lia.
  unfold HgNodeHash_from_bytes, Sha1_from_bytes. rewrite length_take, Nat.min_l by lia. cbn.
  split; [done|]. rewrite length_drop. lia.
Qed.

#[export] Instance heads_laws : DecoderLaws heads_decoder.
Proof.
  split; cbn [decode decode_eof heads_decoder].
  - intros [] buf ext. pose proof (heads_more buf ext) as H.
    destruct (heads_decode tt buf) as [[] [[[x|] r]|e|]]; try done; [by destruct H|by destruct H as [_ ->]].
  - intros [] buf [] x rest Hd. pose proof (heads_more buf []) as H. rewrite Hd in H. by destruct H.
  - intros [] buf [] rest Hd. pose proof (heads_more buf []) as H. rewrite Hd in H. by destruct H as [_ ->].
  - intros [] buf [] x rest _ Hd. unfold default_eof in Hd. pose proof (heads_more buf []) as H.
    destruct (heads_decode tt buf) as [[] [[[y|] r]|e|]]; try done.
    + injection Hd as <- <-. by destruct H.
    + by destruct (Nat.eqb (length r) 0).
Qed.

#[local] Instance caps_laws {P : PercentEncoding} : DecoderLaws caps_decoder.
Proof.
  split; cbn [decode decode_eof caps_decoder]; try done.
  - intros st buf st' rest [= _ <-]. done.
  - intros st buf st' x rest Hne [= _ H]. destruct (decode_caps _ _) as [caps| |]; try done.
    injection H as _ <-. destruct buf; [done|]. cbn. lia.
Qed.

#[local] Instance empty_laws : DecoderLaws empty_decoder.
Proof.
  split; cbn [decode decode_eof empty_decoder]; try done.
  - intros st buf st' rest [= _ <-]. done.
  - intros st buf st' x rest Hne. unfold default_eof, empty_decode. by destruct (Nat.eqb (length buf) 0).
Qed.

(** ** What is read of a part *)

Section reads.
Context {P : PercentEncoding}.

Lemma consumed_all {St Item E} (D : Decoder St Item E) `{!DecoderLaws D} st n polls xs :
  decode st [] = (st, Ok (None, [])) -> decode_all st (input_bytes polls) = (xs, Ok tt) ->
  length polls + length (input_bytes polls) < n -> consumed D st n polls = Some (xs, Finished).
Proof. intros H0 Hall Hn. unfold consumed. rewrite drive_stream by done. by rewrite Hall. Qed.

Definition carries_changegroup (t : PartHeaderType) : bool :=
  match t with Changegroup | B2xInfinitepush | B2xRebase => true | _ => false end.

Lemma reads_changegroup h v body parts :
  carries_changegroup (part_type h) = true -> get_cg_unpacker h = Changegroup.CgUnpacker_new v ->
  decode_all (Changegroup.CgUnpacker_new v) body = (parts, Ok tt) ->
  reads_as h body (RChangegroup parts Finished).
Proof.
  intros Ht Hv Hall. split; [done|]. intros polls n Hin Hn. rewrite <- Hin in Hall, Hn.
  assert (consumed Changegroup.cg_decoder (get_cg_unpacker h) n polls = Some (parts, Finished)) as Hc
    by (rewrite Hv; apply consumed_all; [apply _|by destruct v|done|done]).
  unfold inner_decode. rewrite Hc. by destruct (part_type h).
Qed.

Definition carries_wirepack (t : PartHeaderType) : bool :=
  match t with B2xTreegroup2 | B2xRebasePack => true | _ => false end.

Lemma reads_wirepack h body parts :
  carries_wirepack (part_type h) = true ->
  decode_all (Wirepack.WirePackUnpacker_new Wirepack.Tree) body = (parts, Ok tt) ->
  reads_as h body (RWirepack parts Finished).
Proof.
  intros Ht Hall. split; [done|]. intros polls n Hin Hn. rewrite <- Hin in Hall, Hn.
  assert (consumed Wirepack.wp_decoder (Wirepack.WirePackUnpacker_new Wirepack.Tree) n polls = Some (parts, Finished)) as Hc
    by (apply consumed_all; [apply _|done|done|done]).
  unfold inner_decode. rewrite Hc. by destruct (part_type h).
Qed.

Lemma reads_heads h hs :
  part_type h = B2xCommonHeads -> Forall valid_node hs ->
  reads_as h (concat (HgNodeHash_as_bytes <$> hs)) (RCommonHeads hs Finished).
Proof.
  intros Ht Hhs. split; [done|]. intros polls n Hin Hn. rewrite <- Hin in Hn.
  assert (consumed heads_decoder tt n polls = Some (hs, Finished)) as Hc.
  { apply consumed_all; [apply _|done| |done]. rewrite Hin. clear -Hhs. induction Hhs as [|x hs Hx _ IH]; [done|].
    rewrite decode_all_step. cbn [fmap list_fmap concat].
    change (decode (Decoder := heads_decoder)) with heads_decode. unfold heads_decode.
    rewrite (proj2 (N.leb_le _ _)) by (unfold lenN; rewrite length_app; unfold HgNodeHash_as_bytes; rewrite Hx; lia).
    rewrite split_to_app, bind_Ok by (unfold lenN, HgNodeHash_as_bytes; by rewrite Hx).
    rewrite HgNodeHash_from_as_bytes by done. by rewrite IH. }
  unfold inner_decode. by rewrite Ht, Hc.
Qed.

Lemma reads_empty h :
  part_type h = Pushkey \/ part_type h = Pushvars -> reads_as h [] (REmpty Finished).
Proof.
  intros Ht. split; [done|]. intros polls n Hin Hn. rewrite <- Hin in Hn.
  assert (consumed empty_decoder tt n polls = Some ([], Finished)) as Hc
    by (apply consumed_all; [apply _|done|by rewrite Hin|done]).
  unfold inner_decode. by destruct Ht as [-> | ->]; rewrite Hc.
Qed.

Lemma reads_capabilities h body caps :
  part_type h = Replycaps -> body <> [] -> decode_caps (split_on x0a body) ∅ = Ok caps ->
  reads_as h body (RReplycaps [caps] Finished).
Proof.
  intros Ht Hne Hcaps. split; [done|]. intros polls n Hin Hn. rewrite <- Hin in Hn.
  assert (consumed caps_decoder tt n polls = Some ([caps], Finished)) as Hc.
  { apply consumed_all; [apply _|done| |done]. rewrite Hin. unfold decode_all, drain.
    destruct body as [|b body]; [done|]. cbn [length drain_fuel decode caps_decoder capabilities_decode].
    unfold drain_eof. cbn [length drain_eof_fuel decode_eof caps_decoder Nat.eqb]. unfold capabilities_decode_eof.
    rewrite Hcaps, bind_Ok. by destruct (length body). }
  unfold inner_decode. by rewrite Ht, Hc.
Qed.

(** A part without capabilities has no item, though the format allows it. *)
Lemma no_capabilities h :
  part_type h = Replycaps -> reads_as h [] (RReplycaps [] Finished).
Proof.
  intros Ht. split; [done|]. intros polls n Hin Hn. rewrite <- Hin in Hn.
  assert (consumed caps_decoder tt n polls = Some ([], Finished)) as Hc
    by (apply consumed_all; [apply _|done|by rewrite Hin|done]).
  unfold inner_decode. by rewrite Ht, Hc.
Qed.

(** ** The streams of the packers *)

Definition ready_chunks (cs : list Chunk) : ChunkStream := (fun c => Ready (Ok c)) <$> cs.

Definition normal (c : Chunk) : Prop := Chunk_is_normal c = true /\ valid_chunk c.

Lemma pack_part_normal last p last' c : Changegroup.pack_part last p = Ok (last', c) -> normal c.
Proof.
  assert (forall b, Chunk_new b = Ok c -> normal c) as Hnew by (by intros b [-> Hb]%Chunk_new_Ok).
  assert (Changegroup.empty_cg_chunk = Ok c -> normal c) as Hempty by (by intros [= <-]).
  destruct p as [s d|s|]; cbn [Changegroup.pack_part].
  - intros ([b l] & _ & (c' & Hb & [= -> ->])%bind_Ok_inv)%bind_Ok_inv.
    unfold Changegroup.builder_build in Hb. by apply bind_Ok_inv in Hb as (inner & _ & ?%Hnew).
  - by intros (c' & He & [= -> ->])%bind_Ok_inv; apply Hempty.
  - by intros (c' & He & [= -> ->])%bind_Ok_inv; apply Hempty.
Qed.

Lemma cg_stream_Ok parts : forall last cs,
  Changegroup.pack_from last parts = Ok cs -> cg_stream last parts = ready_chunks cs /\ Forall normal cs.
Proof.
  induction parts as [|p parts IH]; intros last cs; cbn [Changegroup.pack_from cg_stream]; [by intros [= <-]|].
  intros ([last' c] & Hp & (cs' & Hcs & [= <-])%bind_Ok_inv)%bind_Ok_inv. rewrite Hp.
  apply pack_part_normal in Hp. destruct (IH last' cs' Hcs) as [-> Hn]. split; [done|by constructor].
Qed.

Lemma convert_part_normal kind st p st' d :
  Wirepack.convert_part (Wirepack.mkPacker kind) st p = Ok (st', d) -> exists c, d = Some c /\ normal c.
Proof.
  assert (forall b d, Wirepack.built b = Ok d -> exists c, d = Some c /\ normal c) as Hb.
  { intros b d' H. apply WirepackRoundtrip.built_Ok in H as [-> Hl]. by exists (Normal b). }
  destruct p; cbn [Wirepack.convert_part]; intros H; step_ok; cbn in *; step_ok; by eapply Hb.
Qed.

Lemma wp_stream_Ok kind parts : forall st cs,
  Wirepack.convert_from (Wirepack.mkPacker kind) st parts = Ok cs ->
  wp_stream kind st parts = ready_chunks cs /\ Forall normal cs.
Proof.
  induction parts as [|p parts IH]; intros st cs; rewrite ?WirepackRoundtrip.pack_from_nil, ?WirepackRoundtrip.pack_from_cons; cbn [wp_stream];
    (destruct (bool_decide (st = Wirepack.CEnd)); [by intros [= <-]|]).
  - by intros ([] & -> & [= <-])%bind_Ok_inv.
  - intros ([st' d] & Hp & (cs' & Hcs & [= <-])%bind_Ok_inv)%bind_Ok_inv. rewrite Hp.
    apply convert_part_normal in Hp as (c & -> & Hc). destruct (IH st' cs' Hcs) as [-> Hn].
    split; [done|by constructor].
Qed.

(** Empty chunks are filtered out, which changes no byte of the payload. *)
Lemma generated_part b cs :
  Forall normal cs ->
  good_data (data (set_data_generated b (ready_chunks cs))) /\
  concat (data_payloads (data (set_data_generated b (ready_chunks cs)))) = concat (payload <$> cs).
Proof.
  unfold set_data_generated, ready_chunks, data_payloads, good_data. cbn [data data_chunks].
  induction 1 as [|c cs [Hn Hv] _ [[IH1 IH2] IH3]]; [done|]. cbn [fmap list_fmap List.filter].
  destruct c as [[|x bs]|]; [| |done].
  - cbn [Chunk_is_empty length Nat.eqb negb concat payload app]. done.
  - cbn [Chunk_is_empty length Nat.eqb negb omap list_omap stream_chunk fmap list_fmap concat payload].
    split; [|by rewrite IH3]. split; [|by constructor]. constructor; [by split|done].
Qed.

(** ** The parts of the server read back *)

(** Parameters that a reader of the part knows, and that fit the format. *)
Definition known_params (t : PartHeaderType) (params : list (bytes * bytes)) : bool :=
  forallb (fun p => utf8_valid p.1) params && is_ok (mandatory_part t params) &&
  match KNOWN_PARAMS t with Some known => forallb (fun p => bool_decide (p.1 ∈ known)) params | None => false end.

Lemma mandatory_part_keeps (Q : PartHeaderBuilder -> Prop) t params b :
  Q (builder_new t true) ->
  (forall key val h h', (key, val) ∈ params -> Q h -> add_mparam h key val = Ok h' -> Q h') ->
  mandatory_part t params = Ok b -> Q (headerb b).
Proof.
  intros H0 Hstep. unfold mandatory_part.
  assert (forall r, (forall b, r = Ok b -> Q (headerb b)) ->
    foldl (fun b '(key, val) => b ← b; part_add_mparam b key val) r params = Ok b -> Q (headerb b)) as Hf.
  { clear H0. induction params as [|[k v] params IH]; intros r Hr; cbn [foldl]; [apply Hr|].
    apply IH; [intros key val h h' Hk; apply (Hstep key val); by right|].
    intros b' (b0 & Hb0 & (h & Hh & [= <-])%bind_Ok_inv)%bind_Ok_inv. cbn [headerb].
    eapply (Hstep k v); [by left|by apply Hr|exact Hh]. }
  apply Hf. by intros b' [= <-].
Qed.

Lemma add_mparam_fields h key val h' :
  add_mparam h key val = Ok h' ->
  pb_part_type h' = pb_part_type h /\ pb_aparams h' = pb_aparams h /\ pb_mparams h' = <[key := val]> (pb_mparams h).
Proof. unfold add_mparam. intros ([] & _ & H)%bind_Ok_inv. destruct (Nat.leb _ _); [done|]. by injection H as <-. Qed.

Lemma mandatory_part_made t params b :
  mandatory_part t params = Ok b ->
  pb_part_type (headerb b) = t /\ pb_aparams (headerb b) = ∅ /\
  forall key, is_Some (pb_mparams (headerb b) !! key) -> key ∈ params.*1.
Proof.
  apply (mandatory_part_keeps (fun h => pb_part_type h = t /\ pb_aparams h = ∅ /\
    forall key, is_Some (pb_mparams h !! key) -> key ∈ params.*1)).
  - cbn. split; [done|]. split; [done|]. intros key [v Hv]. by rewrite lookup_empty in Hv.
  - intros key val h h' Hk (H1 & H2 & H3) (-> & -> & Hm)%add_mparam_fields. split; [done|]. split; [done|].
    intros key' Hs. rewrite Hm in Hs. destruct (decide (key = key')) as [<-|Hne].
    + apply list_elem_of_fmap. by exists (key, val).
    + rewrite lookup_insert_ne in Hs by done. by apply H3.
Qed.

(** A part with such parameters can go into any bundle, and is recognised. *)
Lemma known_part t params :
  known_params t params = true ->
  exists b, mandatory_part t params = Ok b /\ pb_part_type (headerb b) = t /\ pb_aparams (headerb b) = ∅ /\
    forall id, (id < 2 ^ 32)%N ->
      let h := build_header (headerb b) id in valid_header h /\ validate_header h = Ok (Some h).
Proof.
  unfold known_params. intros [[Hu Hok]%andb_prop Hknown]%andb_prop.
  rewrite forallb_forall in Hu. destruct (mandatory_part t params) as [b| |] eqn:E; [|done..].
  destruct (mandatory_part_made _ _ _ E) as (Ht & Ha & Hkeys). exists b. split; [done|]. split; [done|].
  split; [done|]. intros id Hid. split.
  - apply (mandatory_part_keeps valid_builder) in E; [by apply E|apply builder_new_valid|].
    intros key val h0 h1 Hin Hv Hadd. eapply add_mparam_valid; [|exact Hv|exact Hadd].
    apply (Hu (key, val)). by apply list_elem_of_In.
  - unfold validate_header, build_header. cbn [part_type mparams]. rewrite Ht.
    destruct (KNOWN_PARAMS t) as [known|]; [|done]. rewrite forallb_forall in Hknown.
    rewrite decide_False; [done|]. intros Hne. apply Hne. apply filter_none.
    intros key ([key' v] & -> & Hx)%list_elem_of_fmap. apply elem_of_map_to_list in Hx. cbn [fst].
    assert (key' ∈ params.*1) as Hin by (apply Hkeys; by exists v).
    apply list_elem_of_fmap in Hin as (y & -> & Hy). apply list_elem_of_In, Hknown in Hy. by rewrite Hy.
Qed.

(** What a client reads of a part once its builder is in a bundle. *)
Definition part_reads (b : PartEncodeBuilder) (id : N) (r : InnerResult) : Prop :=
  let h := build_header (headerb b) id in
  good_part (h, data b) /\ validate_header h = Ok (Some h) /\ reads_as h (part_body (h, data b)) r.

Definition good_changelog (e : ChangelogEntry) : Prop :=
  valid_node (ch_node e) /\
  match ch_parents e with NoParents => True | One p => valid_node p | Two p q => valid_node p /\ valid_node q end /\
  (lenN (ch_text e) + 120 < 2 ^ 31)%N.

Definition good_treepack (i : TreepackPartInput) : Prop :=
  valid_node (tp_node i) /\ valid_node (tp_linknode i) /\
  valid_node (default NULL_HASH (tp_p1 i)) /\ valid_node (default NULL_HASH (tp_p2 i)) /\
  valid_repo_path (treepack_path i) /\
  match treepack_path i with DirectoryPath p => (lenN (to_vec p) <= Wirepack.u16_max)%N | _ => True end /\
  (lenN (tp_content i) + 48 < 2 ^ 31)%N.

Lemma null_valid : valid_node NULL_HASH.
Proof. reflexivity. Qed.

Lemma fulltext_wire text : (lenN text < 2 ^ 31)%N -> Forall wire_fragment (delta_frags (Delta_new_fulltext text)).
Proof. intros H. constructor; [|done]. by split_and!. Qed.

Lemma changelog_wf es :
  Forall good_changelog es ->
  ChangegroupRoundtrip.cg_wf Changegroup.Cg2Version Changegroup.StChangeset Changegroup.Changeset (changegroup_entries es).
Proof.
  unfold changegroup_entries. induction 1 as [|e es (Hn & Hp & Ht) _ IH]; cbn [fmap list_fmap app].
  - repeat constructor.
  - unfold changelog_part at 1.
    assert (valid_node (default NULL_HASH (get_nodes (ch_parents e)).1) /\
            valid_node (default NULL_HASH (get_nodes (ch_parents e)).2)) as [H1 H2].
    { destruct (ch_parents e); cbn; [done| |done]. by split; [|apply null_valid]. }
    apply ChangegroupRoundtrip.wf_changeset_chunk; [|  |exact IH].
    + split; cbn; [done..|apply fulltext_wire; lia|done].
    + unfold ChangegroupRoundtrip.fits, ChangegroupRoundtrip.body_bytes, ChangegroupRoundtrip.flag_bytes.
      cbn [Changegroup.cg_node Changegroup.cg_p1 Changegroup.cg_p2 Changegroup.cg_base Changegroup.cg_linknode
           Changegroup.cg_delta Changegroup.cg_flags].
      unfold delta_bytes. cbn [delta_frags Delta_new_fulltext fmap list_fmap concat]. rewrite app_nil_r.
      pose proof (length_fragment_bytes (mkFragment 0 0 (ch_text e))) as Hl. cbn [frag_content] in Hl.
      unfold lenN, HgNodeHash_as_bytes in *. rewrite !length_app. cbn [length].
      rewrite Hn, H1, H2. change (length (sha1_bytes (node_sha1 NULL_HASH))) with 20. lia.
Qed.

Lemma built_small b : (lenN b < 2 ^ 31)%N -> Wirepack.built b = Ok (Some (Normal b)).
Proof. intros H. unfold Wirepack.built. by rewrite Chunk_new_fits. Qed.

Lemma filename_built path n :
  valid_repo_path path -> match path with RootPath => True | DirectoryPath p => (lenN (to_vec p) <= Wirepack.u16_max)%N | _ => False end ->
  exists c, Wirepack.p_history_meta (Wirepack.mkPacker Wirepack.Tree) path n = Ok (Some c).
Proof.
  intros Hv Hp. cbn [Wirepack.p_history_meta Wirepack.packer_processor Wirepack.packer_kind].
  destruct path as [|p|p]; [|unfold Wirepack.encode_filename, Wirepack.verify_path|done].
  - eexists. by apply built_small.
  - rewrite MPath_len_to_vec by (done || (unfold Wirepack.u16_max in *; lia)).
    rewrite (proj2 (N.ltb_ge _ _)) by done. rewrite !bind_Ok. eexists. apply built_small.
    unfold Wirepack.encode_entry_count, put_slice, bytes_bufmut, lenN in *. cbn [app].
    rewrite !length_app, !length_u_be. unfold Wirepack.u16_max in *. lia.
Qed.

Lemma convert_step kind st p st' d ps cs :
  st <> Wirepack.CEnd -> Wirepack.convert_part (Wirepack.mkPacker kind) st p = Ok (st', Some d) ->
  Wirepack.convert_from (Wirepack.mkPacker kind) st' ps = Ok cs ->
  Wirepack.convert_from (Wirepack.mkPacker kind) st (p :: ps) = Ok (d :: cs).
Proof. intros Hst Hp Hps. rewrite WirepackRoundtrip.pack_from_cons. rewrite bool_decide_false by done. by rewrite Hp, bind_Ok, Hps. Qed.

Lemma treepack_entry_packs i rest cs :
  good_treepack i -> Wirepack.convert_from (Wirepack.mkPacker Wirepack.Tree) Wirepack.CHistoryMeta rest = Ok cs ->
  exists cs', Wirepack.convert_from (Wirepack.mkPacker Wirepack.Tree) Wirepack.CHistoryMeta (treepack_entries i ++ rest) = Ok cs'.
Proof.
  intros (Hn & Hl & Hp1 & Hp2 & Hpath & Hlen & Ht) Hrest. unfold treepack_entries. cbn [app].
  destruct (filename_built (treepack_path i) 1) as [c Hc]; [done| |].
  { revert Hlen. unfold treepack_path. by destruct (join_element_opt _ _). }
  eexists. eapply convert_step; [done|cbn [Wirepack.convert_part]; by rewrite Hc|].
  eapply (convert_step _ _ _ (Wirepack.CDataMeta (treepack_path i))); [done| |].
  2: eapply (convert_step _ _ _ (Wirepack.CData (treepack_path i) 1)); [done| |].
  3: eapply (convert_step _ _ _ Wirepack.CHistoryMeta); [done| |exact Hrest].
  - cbn. rewrite built_small; [done|].
    unfold put_slice, bytes_bufmut, lenN. cbn [app]. rewrite !length_app. unfold valid_node, valid_sha1 in *.
    unfold HgNodeHash_as_bytes. rewrite Hn, Hl, Hp1, Hp2. cbn [length]. lia.
  - cbn. rewrite built_small by done. cbn. by rewrite bool_decide_true.
  - cbn. unfold Wirepack.data_encode, Wirepack.data_verify. cbn.
    rewrite orb_true_r, decide_True by done. cbn. rewrite built_small; [done|].
    unfold put_slice, bytes_bufmut, lenN in *. cbn [app]. rewrite !length_app. cbn [length]. unfold valid_node, valid_sha1 in *.
    unfold HgNodeHash_as_bytes. rewrite Hn. change (length (sha1_bytes (node_sha1 NULL_HASH))) with 20. lia.
Qed.

Lemma treepack_wf es :
  Forall good_treepack es ->
  Forall WirepackRoundtrip.valid_wpart (treepack_wparts es) /\
  WirepackRoundtrip.unambiguous (treepack_wparts es) /\
  WirepackRoundtrip.upto_end (treepack_wparts es) = treepack_wparts es /\
  exists cs, Wirepack.wirepack_pack Wirepack.Tree (treepack_wparts es) = Ok cs.
Proof.
  unfold treepack_wparts. induction 1 as [|i es Hi _ (IH1 & IH2 & IH3 & cs & IH4)].
  - cbn. split_and!; [by repeat constructor|done|done|done|by eexists].
  - cbn [fmap list_fmap mjoin list_join]. rewrite <- app_assoc. split_and!.
    + destruct Hi as (Hn & Hl & Hp1 & Hp2 & Hpath & Hlen & Ht). apply Forall_app. split; [|exact IH1].
      unfold treepack_entries. rewrite !Forall_cons. cbn [WirepackRoundtrip.valid_wpart].
      split_and!; try done. split; [done|]. split; [done|]. split; [apply fulltext_wire; lia|done].
    + cbn [treepack_entries app WirepackRoundtrip.unambiguous]. split_and!; done.
    + cbn [treepack_entries app WirepackRoundtrip.upto_end]. do 4 f_equal. exact IH3.
    + by eapply treepack_entry_packs.
Qed.

Lemma changegroup_part_reads es :
  Forall good_changelog es ->
  exists b, changegroup_part es = Ok b /\
    forall id, (id < 2 ^ 32)%N -> part_reads b id (RChangegroup (changegroup_entries es) Finished).
Proof.
  intros Hes.
  destruct (ChangegroupRoundtrip.cg_decode_all _ _ _ _ (changelog_wf es Hes)) as (cs & Hcs & Hv & Hall).
  destruct (cg_stream_Ok _ _ _ Hcs) as [Hs Hn]. unfold changegroup_part. rewrite Hs.
  destruct (known_part Changegroup [(bstr "version", bstr "02")]) as (b0 & -> & Ht & Ha & Hb0); [by vm_compute|].
  rewrite bind_Ok. eexists. split; [done|]. intros id Hid. specialize (Hb0 id Hid) as [Hv0 Hk].
  destruct (generated_part b0 cs Hn) as [Hg Hb]. split; [by split|]. split; [done|].
  apply (reads_changegroup _ Changegroup.Cg2Version); cbn [part_type build_header headerb set_data_generated].
  - by rewrite Ht.
  - unfold get_cg_unpacker, get_cg_version. cbn [aparams build_header headerb set_data_generated].
    by rewrite Ha.
  - unfold part_body. cbn [snd]. rewrite Hb. exact Hall.
Qed.

Lemma treepack_part_reads es :
  Forall good_treepack es ->
  exists b, treepack_part es = Ok b /\
    forall id, (id < 2 ^ 32)%N -> part_reads b id (RWirepack (treepack_wparts es) Finished).
Proof.
  intros Hes.
  destruct (treepack_wf es Hes) as (Hv & Hu & Hend & cs & Hcs).
  destruct (WirepackRoundtrip.wp_decode_all _ _ _ _ Hcs) as [_ Hall]; [done..|]. rewrite Hend in Hall.
  destruct (wp_stream_Ok _ _ _ _ Hcs) as [Hs Hn]. unfold treepack_part. rewrite Hs.
  destruct (known_part B2xTreegroup2
    [(bstr "version", bstr "1"); (bstr "cache", bstr "True"); (bstr "category", bstr "manifests")])
    as (b0 & -> & Ht & Ha & Hb0); [by vm_compute|].
  rewrite bind_Ok. eexists. split; [done|]. intros id Hid. specialize (Hb0 id Hid) as [Hv0 Hk].
  destruct (generated_part b0 cs Hn) as [Hg Hb]. split; [by split|]. split; [done|].
  apply reads_wirepack; cbn [part_type build_header headerb set_data_generated].
  - by rewrite Ht.
  - unfold part_body. cbn [snd]. rewrite Hb. exact Hall.
Qed.

(** C31. The parts the server makes of a commit log and of trees are sound: the
    builder never fails, the part can go into any bundle, the header is one
    the reader knows, and its decoder gives the entries back however the
    payload is cut: a changegroup of one changeset delta for each commit, with
    the null hash for missing parents, and a wirepack of one history and one
    data entry for each tree. *)
Theorem server_parts_read :
  (forall es, Forall good_changelog es ->
     exists b, changegroup_part es = Ok b /\
       forall id, (id < 2 ^ 32)%N -> part_reads b id (RChangegroup (changegroup_entries es) Finished)) /\
  (forall es, Forall good_treepack es ->
     exists b, treepack_part es = Ok b /\
       forall id, (id < 2 ^ 32)%N -> part_reads b id (RWirepack (treepack_wparts es) Finished)).
Proof. split; intros es Hes; [by apply changegroup_part_reads|by apply treepack_part_reads]. Qed.
End reads.
