(* ===== verification/Bundle2Example.v ===== *)
(** * A bundle written and read

    Instances of the interfaces of the bundle files, for ASCII text: a reader
    that is a list of polls, a [Framed] that reads until its decoder has an
    item, percent-encoding, the character tables and an order of parameters;
    and a bundle with a changegroup, a part that may be ignored and one that
    must not. *)

From stdpp Require Import fin_maps.
From S2P Require Import Prelude Path Hash Framing Delta BundleCodec Chunk PartHeader Framed StreamStart PartOuter.
From S2P Require Import BundleEncode Bundle2 Parts.
From S2P Require Changegroup.

(** ** A reader *)

Definition list_waits (l : list (poll bytes)) : nat :=
  length (List.filter (fun p => match p with Ready (_ :: _) => false | _ => true end) l).

#[export] Instance list_reader : Reader (list (poll bytes)) := {|
  read l := match l with
            | [] => ([], Ready [])
            | Ready (b :: bs) :: l => (l, Ready (b :: bs))
            | _ :: l => (l, NotReady)
            end;
  pending := input_bytes;
  waits := list_waits;
|}.

#[export] Instance list_reader_laws : ReaderLaws (list (poll bytes)).
Proof.
  intros [|[|[|b bs]] l]; cbn.
  - by split_and!.
  - split; [done|]. unfold list_waits. cbn. lia.
  - split; [done|]. unfold list_waits. cbn. lia.
  - split; [done|]. split; [done|done].
Qed.

(** ** A [Framed]

    Its flags are whether the end of the input was seen, and whether the
    buffer may hold an item. *)

Section framed.
Context {R St Item E : Type} `{!Reader R} (dec : frame_decoder St Item E).

Fixpoint poll_framed (k : nat) (f : Framed (bool * bool) R St)
    : Framed (bool * bool) R St * outcome (framed_error E) (poll (option Item)) :=
  match k with
  | 0 => (f, Panic)
  | S k =>
      let read_more :=
        match read (io f) with
        | (r, NotReady) => (mkFramed r (read_buf f) (codec f) (false, false), Ok NotReady)
        | (r, Ready []) => poll_framed k (mkFramed r (read_buf f) (codec f) (true, true))
        | (r, Ready b) => poll_framed k (mkFramed r (read_buf f ++ b) (codec f) (false, true))
        end in
      let '(eof, readable) := framed_flags f in
      if readable : bool then
        match dec (codec f) (read_buf f) with
        | (st, buf, Ok (Some x)) => (mkFramed (io f) buf st (eof, true), Ok (Ready (Some x)))
        | (st, buf, Ok None) =>
            if eof : bool
            then (mkFramed (io f) buf st (true, true),
                  match buf with [] => Ok (Ready None) | _ => Err BytesRemaining end)
            else read_more
        | (st, buf, Err e) => (mkFramed (io f) buf st (eof, true), Err (DecoderError e))
        | (st, buf, Panic) => (mkFramed (io f) buf st (eof, true), Panic)
        end
      else read_more
  end.

Definition framed_in_order (f : Framed (bool * bool) R St) : Prop :=
  let '(eof, readable) := framed_flags f in
  (eof = true -> readable = true /\ pending (io f) = []) /\
  (readable = false -> read_buf f = [] \/ dec (codec f) (read_buf f) = (codec f, read_buf f, Ok None)).

Context `{!ReaderLaws R}.

(** Reading on, when the buffer holds no item. *)
Lemma read_on f r p :
  read (io f) = (r, p) ->
  read_buf f = [] \/ dec (codec f) (read_buf f) = (codec f, read_buf f, Ok None) ->
  match p with
  | NotReady => polled_ok dec f (mkFramed r (read_buf f) (codec f) (false, false)) (Ok NotReady)
  | Ready b => forall f' res flags, polled_ok dec (mkFramed r (read_buf f ++ b) (codec f) flags) f' res -> polled_ok dec f f' res
  end.
Proof.
  intros Hr Hnone. pose proof (read_spec (io f)) as H. rewrite Hr in H. destruct p as [|b].
  - destruct H as [Hp Hw]. split; [by eapply rtc_once; unfold read_step; rewrite Hr|]. exists []. cbn [io read_buf codec].
    split; [done|]. split; [lia|]. rewrite app_nil_r. split; [done|]. destruct Hnone as [->|Hd]; [by right|by left].
  - destruct H as (Hp & Hw & He). intros f' res fl (Hreads & b' & Hb & Hw' & Hres). cbn [io read_buf codec] in *.
    split; [eapply rtc_l; [unfold read_step; by rewrite Hr|done]|].
    exists (b ++ b'). rewrite Hp, Hb, <- app_assoc. split; [done|]. split; [lia|]. rewrite app_assoc.
    destruct res as [[|[x|]]|[e|]|]; try done. destruct Hres as [Hlt Hres]. split; [lia|done].
Qed.

Lemma read_at_once (f f' : Framed (bool * bool) R St) res :
  io f' = io f -> match res with
    | Ok (Ready (Some x)) => dec (codec f) (read_buf f) = (codec f', read_buf f', Ok (Some x))
    | Ok (Ready None) => pending (io f) = [] /\ read_buf f' = [] /\ dec (codec f) (read_buf f) = (codec f', [], Ok None)
    | Err (DecoderError e) => dec (codec f) (read_buf f) = (codec f', read_buf f', Err e)
    | Err BytesRemaining => pending (io f) = [] /\ read_buf f' <> [] /\
        dec (codec f) (read_buf f) = (codec f', read_buf f', Ok None)
    | Panic => (dec (codec f) (read_buf f)).2 = Panic
    | _ => False
    end -> polled_ok dec f f' res.
Proof.
  intros Hio H. split; [by rewrite Hio|]. exists []. rewrite Hio, app_nil_r. split; [done|]. split; [done|].
  by destruct res as [[|[x|]]|[e|]|].
Qed.

(** Each read but the last gives some of the bytes. *)
Lemma poll_framed_ok (Hu : undisturbed dec) k : forall f,
  framed_in_order f -> (lenN (read_buf f ++ pending (io f)) <= isize_max)%N ->
  length (pending (io f)) + (if (framed_flags f).1 then 1 else 2) <= k ->
  let '(f', r) := poll_framed k f in framed_in_order f' /\ polled_ok dec f f' r.
Proof.
  induction k as [|k IH]; intros f Hi Hl Hk; [destruct (framed_flags f) as [[] ?]; cbn in Hk; lia|].
  assert ((framed_flags f).1 = false ->
    read_buf f = [] \/ dec (codec f) (read_buf f) = (codec f, read_buf f, Ok None) ->
    let '(f', r) := match read (io f) with
      | (r, NotReady) => (mkFramed r (read_buf f) (codec f) (false, false), Ok NotReady)
      | (r, Ready []) => poll_framed k (mkFramed r (read_buf f) (codec f) (true, true))
      | (r, Ready b) => poll_framed k (mkFramed r (read_buf f ++ b) (codec f) (false, true))
      end in framed_in_order f' /\ polled_ok dec f f' r) as Hmore.
  { intros Heof Hnone. rewrite Heof in Hk. pose proof (read_spec (io f)) as Hspec.
    destruct (read (io f)) as [r [|b]] eqn:Er; pose proof (read_on f r _ Er Hnone) as Hon; cbv beta iota in Hon.
    - split; [|exact Hon]. split; [done|]. intros _. exact Hnone.
    - destruct Hspec as (Hp & Hw & He). destruct b as [|b bs].
      + specialize (He eq_refl). rewrite He in Hp. rewrite app_nil_r in Hon. cbn [app] in Hp. symmetry in Hp.
        specialize (IH (mkFramed r (read_buf f) (codec f) (true, true))). cbn [io read_buf framed_flags fst] in IH.
        rewrite Hp in IH. rewrite He in Hk, Hl. cbn [length] in *.
        specialize (IH ltac:(split; [intros _; split; [done|exact Hp]|done]) Hl ltac:(lia)).
        destruct (poll_framed _ _) as [f' r']. split; [apply IH|]. by eapply Hon, IH.
      + specialize (IH (mkFramed r (read_buf f ++ b :: bs) (codec f) (false, true))). cbn [io read_buf framed_flags fst] in IH.
        specialize (IH ltac:(by split)). rewrite Hp in Hk, Hl. rewrite <- app_assoc in IH. rewrite length_app in Hk. cbn [length] in Hk.
        specialize (IH Hl ltac:(lia)).
        destruct (poll_framed _ _) as [f' r']. split; [apply IH|]. by eapply Hon, IH. }
  cbn [poll_framed]. unfold framed_in_order in Hi. destruct (framed_flags f) as [eof readable] eqn:Ef. cbn [fst] in *.
  destruct Hi as [Heof Hnone]. destruct readable; [|destruct eof; [by destruct Heof|by apply Hmore; auto]].
  pose proof (Hu (codec f) (read_buf f) (pending (io f)) Hl) as Hd.
  assert (forall st buf, framed_in_order (mkFramed (io f) buf st (eof, true))) as Hnext.
  { intros st buf. by split; [intros He; split; [done|by apply Heof]|]. }
  destruct (dec (codec f) (read_buf f)) as [[st buf] [[x|]|e|]] eqn:Ed.
  - split; [apply Hnext|]. by apply read_at_once; cbn [codec read_buf io].
  - destruct Hd as [-> ->]. destruct eof; [|by apply Hmore; auto]. destruct Heof as [_ Hend]; [done|].
    split; [apply Hnext|]. apply read_at_once; [done|]. destruct (read_buf f) eqn:Eb; cbn [codec read_buf io]; rewrite ?Eb; done.
  - split; [apply Hnext|]. by apply read_at_once; cbn [codec read_buf io].
  - split; [apply Hnext|]. apply read_at_once; [done|]. by rewrite Ed.
Qed.
End framed.

#[export] Instance ex_framed : FramedLib := {|
  flags := bool * bool;
  fresh := (false, false);
  framed_poll R _ St Item E dec f := poll_framed dec (length (pending (io f)) + 2) f;
  in_order R _ St Item E dec f := framed_in_order dec f;
|}.

#[export] Instance ex_framed_laws : FramedLaws ex_framed.
Proof.
  split.
  - intros R HR St Item E dec r st. split; [done|]. intros _. by left.
  - intros R HR HL St Item E dec f Hu Hi Hl. apply poll_framed_ok; [done..|].
    match goal with |- context [if ?b then _ else _] => destruct b end; lia.
Qed.

(** ** Text *)

Definition plain_byte (b : byte) : bool := is_ascii_upper b || is_ascii_lower b || in_range 48 57 b.

Definition encode_byte (b : byte) : bytes := if plain_byte b then [b] else "%"%byte :: hex_pair b.

Definition hex_value (b : byte) : option N := list_find (fun c => c = b) HEX_CHARS ≫= fun x => Some (N.of_nat x.1).

Fixpoint decode_bytes (l : bytes) : bytes :=
  match l with
  | [] => []
  | b :: t =>
      if decide (b = "%"%byte) then
        match t with
        | c :: d :: t' =>
            match hex_value c, hex_value d with
            | Some x, Some y => z2b (Z.of_N (16 * x + y)) :: decode_bytes t'
            | _, _ => b :: decode_bytes t
            end
        | _ => b :: decode_bytes t
        end
      else b :: decode_bytes t
  end.

#[export] Instance ex_percent : PercentEncoding := {|
  percent_encode s := concat (encode_byte <$> s);
  percent_decode := decode_bytes;
|}.

Lemma decode_encode_byte b l : decode_bytes (encode_byte b ++ l) = b :: decode_bytes l.
Proof. by destruct b. Qed.

Lemma encode_byte_clean b : forallb (fun c => negb (bool_decide (delimiter c))) (encode_byte b) = true.
Proof. by destruct b; vm_compute. Qed.

#[export] Instance ex_percent_laws : PercentLaws ex_percent.
Proof.
  split.
  - cbn [percent_encode percent_decode ex_percent]. induction s as [|b s IH]; [done|].
    cbn [fmap list_fmap concat]. by rewrite decode_encode_byte, IH.
  - intros s b (l & (c & -> & _)%list_elem_of_In%list_elem_of_fmap & Hb)%list_elem_of_In%in_concat Hd.
    pose proof (encode_byte_clean c) as H. rewrite forallb_forall in H.
    specialize (H b Hb). by rewrite bool_decide_true in H.
Qed.

Definition ascii_char (f : byte -> bool) (ch : bytes) : bool :=
  match ch with [b] => f b | _ => false end.

#[export] Instance ex_tables : CharTables := {|
  is_alphabetic := ascii_char (fun b => is_ascii_upper b || is_ascii_lower b);
  is_uppercase := ascii_char is_ascii_upper;
  to_uppercase := to_ascii_uppercase;
  str_to_lowercase := to_ascii_lowercase;
|}.

#[export] Instance ex_tables_laws : CharTablesLaws ex_tables.
Proof. by split. Qed.

#[export] Instance ex_order : ParamOrder := {| param_order m := map_to_list m |}.
#[export] Instance ex_order_laws : ParamOrderLaws ex_order.
Proof. by intros m. Qed.

(** ** A bundle *)

Definition ex_node (c : byte) : HgNodeHash := mkNode (mkSha1 (replicate 20 c)).

Definition ex_log : list ChangelogEntry :=
  [mkChangelog (ex_node x01) NoParents (bstr "first"); mkChangelog (ex_node x02) (One (ex_node x01)) []].

Definition built_part (r : outcome header_error PartEncodeBuilder) : PartEncodeBuilder :=
  match r with Ok b => b | _ => part_builder Listkeys true end.

(** An advisory part that the reader does not know, and a mandatory one. *)
Definition ex_ignored : PartEncodeBuilder :=
  set_data_future (part_builder Listkeys false) 2 (Ok (bstr "any")).
Definition ex_refused : PartEncodeBuilder := part_builder ReplyPushkey true.

Definition ex_builders : list PartEncodeBuilder :=
  [built_part (changegroup_part ex_log); ex_ignored; ex_refused].

Definition ex_bundle : Bundle2EncodeBuilder := foldl add_part bundle_new ex_builders.

Definition ex_part (b : PartEncodeBuilder) (id : N) : PartHeader * PartEncodeData := (build_header (headerb b) id, data b).
Definition ex_parts : list (PartHeader * PartEncodeData) :=
  [ex_part (built_part (changegroup_part ex_log)) 0; ex_part ex_ignored 1; ex_part ex_refused 2].

Definition ex_reader : Type := list (poll bytes).
Definition ex_new (r : Chain ex_reader) (t : DecompressorType) : Chain ex_reader := r.
Definition ex_inner (d : Chain ex_reader) : Chain ex_reader := d.
Definition ex_compress (t : CompressorType) (b : bytes) : bytes := b.

Definition ex_header : StreamHeader := start_header (mkStreamHeader ∅ ∅) None.

Definition ex_items : list item :=
  [IPart (ex_part (built_part (changegroup_part ex_log)) 0).1 (RChangegroup (changegroup_entries ex_log) Finished)].
Definition ex_errors : list outer_error := [BundleUnknownPart (ex_part ex_refused 2).1].

(** Cut into pieces of [n] bytes, with a wait before each. *)
Fixpoint in_pieces (fuel n : nat) (b : bytes) : list (poll bytes) :=
  match fuel, b with
  | S fuel, _ :: _ => NotReady :: Ready (take n b) :: in_pieces fuel n (drop n b)
  | _, _ => []
  end.

Definition ex_written : bytes :=
  match bundle_encode ex_compress 50 ex_bundle with Some (Ok b) => b | _ => [] end.

Example ex_read :
  match read_bundle (R := ex_reader) ex_new ex_inner 500
          (Bundle2Stream_new (in_pieces 500 7 (ex_written ++ bstr "next"))) with
  | Some (items, EDone read_buf io, errs) =>
      length items = 2 /\ length errs = 1 /\ read_buf ++ input_bytes io = bstr "next"
  | _ => False
  end.
Proof. vm_compute. by split_and!. Qed.

Lemma ex_changegroup :
  part_reads (built_part (changegroup_part ex_log)) 0 (RChangegroup (changegroup_entries ex_log) Finished).
Proof.
  destruct (changegroup_part_reads ex_log) as (b & -> & Hb); [by repeat constructor|]. by apply Hb.
Qed.

Lemma ex_ignored_good : good_part (ex_part ex_ignored 1).
Proof. split; [by apply builder_new_valid|]. split; [by apply Forall_cons|by repeat constructor]. Qed.

Lemma ex_good_bundle : good_bundle ex_bundle ex_parts.
Proof.
  split.
  - by split; apply map_Forall_empty.
  - by vm_compute.
  - reflexivity.
  - apply Forall_cons. split; [exact (proj1 ex_changegroup)|].
    apply Forall_cons. split; [exact ex_ignored_good|].
    apply Forall_cons. split; [|constructor]. split; [by apply builder_new_valid|]. by split; [constructor|].
Qed.

Lemma ex_delivered : delivered ex_parts ex_items ex_errors.
Proof.
  destruct ex_changegroup as (_ & Hv & Hr).
  apply delivered_known; [exact Hv|exact Hr|].
  apply delivered_ignored; [reflexivity|].
  apply delivered_refused; [reflexivity|]. constructor.
Qed.

Lemma bundle_roundtrip_witness :
  good_bundle ex_bundle ex_parts /\ compressor_type ex_bundle = None /\ delivered ex_parts ex_items ex_errors /\
  exists bs, (forall k, polls_of ex_parts <= k -> bundle_encode ex_compress k ex_bundle = Some (Ok bs)) /\
    forall (r : ex_reader) tail, pending r = bs ++ tail -> (lenN (pending r) <= isize_max)%N ->
      exists k0, forall k, k0 <= k -> exists read_buf io,
        read_bundle ex_new ex_inner k (Bundle2Stream_new r)
        = Some (IStart ex_header :: ex_items, EDone read_buf io, ex_errors) /\
        read_buf ++ pending io = tail.
Proof.
  split; [exact ex_good_bundle|]. split; [reflexivity|]. split; [exact ex_delivered|].
  exact (bundle_roundtrip ex_new ex_inner ex_compress ex_bundle ex_parts ex_items ex_errors
           ex_good_bundle eq_refl ex_delivered).
Defined.
