(* ===== verification/Graph.v ===== *)
(** * The graph of changesets

    What the algorithms on history see of it: the trait [ChangesetFetcher]
    of [src/blobrepo/changeset_fetcher/src/lib.rs], generation numbers
    ([src/mononoke_types/src/generation.rs]), and the ancestor relation in
    whose terms their theorems are stated. *)

From stdpp Require Export relations.
From S2P Require Import Prelude Hash Bonsai.

#[export] Instance Blake2_countable : Countable Blake2.
Proof.
  refine {| encode h := encode (blake2_bytes h); decode p := mkBlake2 <$> decode p |}.
  intros [b]. simpl. by rewrite decode_encode.
Defined.

#[export] Instance ChangesetId_countable : Countable ChangesetId.
Proof.
  refine {| encode c := encode (cs_blake2 c); decode p := mkChangesetId <$> decode p |}.
  intros [b]. simpl. by rewrite decode_encode.
Defined.

Lemma mjoin_cons {A} (x : list A) (l : list (list A)) : mjoin (x :: l) = x ++ mjoin l.
Proof. done. Qed.

(** [Generation] is a newtype around [u64]. *)
Definition Generation := N.

Definition difference_from (g other : Generation) : option N :=
  if (other <=? g)%N then Some (g - other)%N else None.

(** [.max()] of an iterator, and [.min()]. *)
Fixpoint max_of (l : list Generation) : option Generation :=
  match l with
  | [] => None
  | g :: l => match max_of l with Some g' => Some (N.max g g') | None => Some g end
  end.

Fixpoint min_of (l : list Generation) : option Generation :=
  match l with
  | [] => None
  | g :: l => match min_of l with Some g' => Some (N.min g g') | None => Some g end
  end.

Lemma max_of_list (l : list Generation) :
  match max_of l with
  | None => l = []
  | Some g => g ∈ l /\ forall g', g' ∈ l -> (g' <= g)%N
  end.
Proof.
  induction l as [|g l IH]; [done|]. cbn [max_of]. destruct (max_of l) as [g1|].
  - destruct IH as [H1 H2]. split.
    + destruct (N.max_spec g g1) as [[_ ->]|[_ ->]]; [by right|by left].
    + intros g' [->|Hg']%elem_of_cons; [lia|]. apply H2 in Hg'. lia.
  - subst l. split; [by left|]. intros g' ->%list_elem_of_singleton. done.
Qed.

Lemma min_of_list (l : list Generation) :
  match min_of l with
  | None => l = []
  | Some g => g ∈ l /\ forall g', g' ∈ l -> (g <= g')%N
  end.
Proof.
  induction l as [|g l IH]; [done|]. cbn [min_of]. destruct (min_of l) as [g1|].
  - destruct IH as [H1 H2]. split.
    + destruct (N.min_spec g g1) as [[_ ->]|[_ ->]]; [by left|by right].
    + intros g' [->|Hg']%elem_of_cons; [lia|]. apply H2 in Hg'. lia.
  - subst l. split; [by left|]. intros g' ->%list_elem_of_singleton. done.
Qed.

Inductive fetch_error :=
| ChangesetNotFound (cs_id : ChangesetId)
| GenerationFetchFailed (e : fetch_error)
| ParentsFetchFailed (e : fetch_error)
| NodeNotFound (e : fetch_error)
| StreamOutOfFuel.

Class ChangesetFetcher := {
  get_generation_number : ChangesetId -> outcome fetch_error Generation;
  get_parents : ChangesetId -> outcome fetch_error (list ChangesetId)
}.

(** The iteration order of a [HashSet] is not specified. *)
Class HashOrder := { hash_order {A} `{Countable A} : gset A -> list A }.
Class HashOrderLaws (O : HashOrder) : Prop :=
{ hash_order_perm {A} `{Countable A} (s : gset A) : hash_order s ≡ₚ elements s }.

#[export] Instance elements_order : HashOrder := {| hash_order A _ _ := elements |}.
#[export] Instance elements_order_laws : HashOrderLaws elements_order.
Proof. split. intros A ? ? s. reflexivity. Qed.

Section graph.
Context {F : ChangesetFetcher}.

Definition generation_of (c : ChangesetId) : Generation :=
  default 0%N (ok (get_generation_number c)).
Definition parents_of (c : ChangesetId) : list ChangesetId := default [] (ok (get_parents c)).

Definition parent (p c : ChangesetId) : Prop := p ∈ parents_of c.

(** Every changeset is an ancestor of itself. *)
Definition ancestor : ChangesetId -> ChangesetId -> Prop := rtc parent.

(** The order of every stream of changesets. *)
Definition descending : list ChangesetId -> Prop :=
  StronglySorted (fun x y => (generation_of y <= generation_of x)%N).

(** Of the changesets in the store, the parents are in the store too, and a
    changeset's generation is above those of its parents. *)
Class FetcherLaws (known : ChangesetId -> Prop) : Prop := {
  fetch_generation c : known c -> get_generation_number c = Ok (generation_of c);
  fetch_parents c : known c -> get_parents c = Ok (parents_of c);
  parent_known p c : known c -> parent p c -> known p;
  parent_generation p c : known c -> parent p c -> (generation_of p < generation_of c)%N
}.

Context {known : ChangesetId -> Prop} {L : FetcherLaws known}.

Lemma ancestor_known a b : known b -> ancestor a b -> known a.
Proof using L. intros Hb. induction 1 as [|a c b Hac _ IH]; [done|]. by apply (parent_known a c); [apply IH|]. Qed.

Lemma ancestor_generation a b : known b -> ancestor a b -> a = b \/ (generation_of a < generation_of b)%N.
Proof using L.
  intros Hb. induction 1 as [|a c b Hac Hcb IH]; [by left|]. right.
  pose proof (ancestor_known _ _ Hb Hcb) as Hc. pose proof (parent_generation _ _ Hc Hac).
  destruct (IH Hb) as [<-|?]; [done|lia].
Qed.

Lemma ancestor_generation_le a b : known b -> ancestor a b -> (generation_of a <= generation_of b)%N.
Proof using L. intros Hb Ha. destruct (ancestor_generation a b Hb Ha) as [->|?]; lia. Qed.

Lemma ancestor_antisym a b : known a -> known b -> ancestor a b -> ancestor b a -> a = b.
Proof using L.
  intros Ha Hb Hab Hba. destruct (ancestor_generation a b Hb Hab) as [|?]; [done|].
  pose proof (ancestor_generation_le b a Ha Hba). lia.
Qed.

(** Either end of a path. *)
Lemma ancestor_left a b : ancestor a b -> a = b \/ exists c, parent a c /\ ancestor c b.
Proof using. intros H. apply rtc_inv in H as [->|(c & ? & ?)]; [by left|right; eauto]. Qed.

Lemma ancestor_right a b : ancestor a b -> a = b \/ exists p, ancestor a p /\ parent p b.
Proof using.
  intros H. apply rtc_inv_r in H as [->|(c & ? & ?)]; [by left|right; eauto].
Qed.

Lemma no_parents_ancestor a b : parents_of b = [] -> ancestor a b -> a = b.
Proof using.
  intros Hb Ha. destruct (ancestor_right a b Ha) as [|(p & _ & Hp)]; [done|].
  unfold parent in Hp. rewrite Hb in Hp. by apply elem_of_nil in Hp.
Qed.
End graph.

(** ** Ancestors as a set *)

Section ancestors.
Context {F : ChangesetFetcher} {known : ChangesetId -> Prop} {L : FetcherLaws known}.

Fixpoint ancestors_to (k : nat) (c : ChangesetId) : gset ChangesetId :=
  {[c]} ∪ match k with
          | O => ∅
          | S k => ⋃ (ancestors_to k <$> parents_of c)
          end.

Definition ancestor_set (c : ChangesetId) : gset ChangesetId := ancestors_to (N.to_nat (generation_of c)) c.

Lemma elem_of_ancestors_to k : forall c x,
  known c -> N.to_nat (generation_of c) <= k -> x ∈ ancestors_to k c <-> ancestor x c.
Proof using L.
  induction k as [|k IH]; intros c x Hc Hk; cbn [ancestors_to]; rewrite elem_of_union, elem_of_singleton.
  - split; [intros [->|?%not_elem_of_empty]; [apply rtc_refl|done]|]. intros Hx. left.
    destruct (ancestor_right x c Hx) as [->|(p & _ & Hp)]; [done|]. pose proof (parent_generation p c Hc Hp). lia.
  - rewrite elem_of_union_list. split.
    + intros [->|(s & (p & -> & Hp)%list_elem_of_fmap & Hx)]; [apply rtc_refl|].
      pose proof (parent_generation p c Hc Hp). apply IH in Hx; [|by apply (parent_known p c)|lia].
      eapply rtc_r; [exact Hx|exact Hp].
    + intros Hx. destruct (ancestor_right x c Hx) as [->|(p & Hxp & Hp)]; [by left|]. right.
      pose proof (parent_generation p c Hc Hp). exists (ancestors_to k p).
      split; [apply list_elem_of_fmap; by exists p|]. apply IH; [by apply (parent_known p c)|lia|done].
Qed.

Lemma elem_of_ancestor_set c x : known c -> x ∈ ancestor_set c <-> ancestor x c.
Proof using L. intros Hc. by apply elem_of_ancestors_to. Qed.

(** The ancestors of some of the given changesets. *)
Definition closure (l : list ChangesetId) : gset ChangesetId := ⋃ (ancestor_set <$> l).

Lemma elem_of_closure l x : Forall known l -> x ∈ closure l <-> exists y, y ∈ l /\ ancestor x y.
Proof using L.
  intros Hl. rewrite Forall_forall in Hl. unfold closure. rewrite elem_of_union_list. split.
  - intros (s & (y & -> & Hy)%list_elem_of_fmap & Hx). exists y. split; [done|].
    apply elem_of_ancestor_set; [by apply Hl|done].
  - intros (y & Hy & Hx). exists (ancestor_set y). split; [apply list_elem_of_fmap; by exists y|].
    apply elem_of_ancestor_set; [by apply Hl|done].
Qed.

Lemma elem_of_closure_parents c x :
  known c -> x ∈ closure (parents_of c) <-> x <> c /\ ancestor x c.
Proof using L.
  intros Hc. rewrite elem_of_closure.
  2: { apply Forall_forall. intros p Hp. by apply (parent_known p c). }
  split.
  - intros (p & Hp & Hx). pose proof (parent_generation p c Hc Hp). pose proof (parent_known p c Hc Hp) as Hkp.
    pose proof (ancestor_generation_le x p Hkp Hx). split; [intros ->; lia|].
    eapply rtc_r; [exact Hx|exact Hp].
  - intros [Hne Hx]. destruct (ancestor_right x c Hx) as [|(p & Hxp & Hp)]; [done|]. by exists p.
Qed.
End ancestors.

(** ** Walking back

    How much there is to do for a walk over all paths back from [c], with
    [k] generations to go. *)

Section weight.
Context {F : ChangesetFetcher} {known : ChangesetId -> Prop} {L : FetcherLaws known}.

Fixpoint weight (k : nat) (c : ChangesetId) : nat :=
  match k with
  | O => 1
  | S k => S (sum_list_with (fun p => S (weight k p)) (parents_of c))
  end.

Lemma sum_list_with_mono {A} (f g : A -> nat) l :
  (forall x, x ∈ l -> f x <= g x) -> sum_list_with f l <= sum_list_with g l.
Proof using.
  induction l as [|x l IH]; intros H; simpl; [done|].
  pose proof (H x ltac:(left)). assert (sum_list_with f l <= sum_list_with g l); [|lia].
  apply IH. intros y Hy. apply H. by right.
Qed.

Lemma weight_mono k : forall k' c, k <= k' -> weight k c <= weight k' c.
Proof using.
  induction k as [|k IH]; intros [|k'] c Hk; simpl; [done|lia|lia|].
  apply le_n_S, sum_list_with_mono. intros p _. apply le_n_S, IH. lia.
Qed.

Definition full_weight (c : ChangesetId) : nat := weight (S (N.to_nat (generation_of c))) c.

Lemma full_weight_step c :
  known c -> sum_list_with (fun p => S (full_weight p)) (parents_of c) < full_weight c.
Proof using L.
  intros Hc. unfold full_weight at 2. simpl. apply le_n_S, sum_list_with_mono.
  intros p Hp. apply le_n_S. unfold full_weight. apply weight_mono.
  pose proof (parent_generation p c Hc Hp). lia.
Qed.
End weight.
