(* ===== verification/Frontier.v ===== *)
(** * Frontiers of changesets by generation

    Model of [src/common/uniqueheap/src/lib.rs] and of
    [src/reachabilityindex/src/index.rs]: heaps of generations, maps from
    generations to sets of changesets, the frontier that both make up, and the
    trait of the indexes that move a frontier down, with what its clients rely
    on. *)

From S2P Require Import Prelude Hash Bonsai Graph.

(** ** [UniqueHeap] *)

(** A [BinaryHeap] as the list of its elements, in no order. *)
Record UniqueHeap := mkUniqueHeap { sorted_vals : list Generation; unique_vals : gset Generation }.

Fixpoint remove_one (g : Generation) (l : list Generation) : list Generation :=
  match l with
  | [] => []
  | g' :: l => if decide (g = g') then l else g' :: remove_one g l
  end.

Definition UniqueHeap_new : UniqueHeap := mkUniqueHeap [] ∅.

Definition heap_push (val : Generation) (h : UniqueHeap) : UniqueHeap :=
  if decide (val ∈ unique_vals h) then h
  else mkUniqueHeap (val :: sorted_vals h) ({[val]} ∪ unique_vals h).

Definition heap_pop (h : UniqueHeap) : option (Generation * UniqueHeap) :=
  match max_of (sorted_vals h) with
  | Some v => Some (v, mkUniqueHeap (remove_one v (sorted_vals h)) (unique_vals h ∖ {[v]}))
  | None => None
  end.

Definition heap_peek (h : UniqueHeap) : option Generation := max_of (sorted_vals h).

Record heap_ok (h : UniqueHeap) : Prop := {
  heap_nodup : NoDup (sorted_vals h);
  heap_same g : g ∈ sorted_vals h <-> g ∈ unique_vals h
}.

Lemma heap_new_ok : heap_ok UniqueHeap_new.
Proof. split; [constructor|]. cbn. set_solver. Qed.

Lemma heap_push_ok val h : heap_ok h -> heap_ok (heap_push val h).
Proof.
  intros [H1 H2]. unfold heap_push. case_decide as Hv; [done|]. split; cbn.
  - constructor; [by rewrite H2|done].
  - intros g. rewrite elem_of_cons, elem_of_union, elem_of_singleton, H2. done.
Qed.

Lemma elem_of_push val h g : heap_ok h -> g ∈ sorted_vals (heap_push val h) <-> g = val \/ g ∈ sorted_vals h.
Proof.
  intros [H1 H2]. unfold heap_push. case_decide as Hv; cbn; [|by rewrite elem_of_cons].
  split; [by right|]. intros [->|?]; [by apply H2|done].
Qed.

Lemma remove_one_spec g l : NoDup l -> NoDup (remove_one g l) /\ forall x, x ∈ remove_one g l <-> x ∈ l /\ x <> g.
Proof.
  induction l as [|y l IH]; intros Hl; cbn [remove_one]; [set_solver|].
  apply NoDup_cons in Hl as [Hy Hl]. destruct (IH Hl) as [IH1 IH2].
  case_decide as Hg; [subst y; split; [done|]; set_solver|]. split.
  - constructor; [|done]. rewrite IH2. tauto.
  - intros x. rewrite !elem_of_cons, IH2. naive_solver.
Qed.

Lemma heap_pop_spec h :
  heap_ok h ->
  match heap_pop h with
  | None => sorted_vals h = []
  | Some (v, h') => v ∈ sorted_vals h /\ heap_ok h' /\
      (forall g, g ∈ sorted_vals h' <-> g ∈ sorted_vals h /\ g <> v) /\
      (forall g, g ∈ sorted_vals h -> (g <= v)%N)
  end.
Proof.
  intros [H1 H2]. unfold heap_pop. pose proof (max_of_list (sorted_vals h)) as Hm.
  destruct (max_of (sorted_vals h)) as [v|]; [|done]. destruct Hm as [Hv Hle].
  destruct (remove_one_spec v (sorted_vals h) H1) as [R1 R2].
  split; [done|]. split; [|split; [exact R2|done]]. split; cbn; [done|].
  intros g. rewrite R2, H2, elem_of_difference, elem_of_singleton. done.
Qed.

(** ** Changesets by generation *)

(** [map.entry(gen).or_insert(HashSet::new()).insert(node)]. *)
Definition gen_insert (gen : Generation) (node : ChangesetId) (m : gmap Generation (gset ChangesetId))
    : gmap Generation (gset ChangesetId) :=
  <[gen := {[node]} ∪ default ∅ (m !! gen)]> m.

Definition nodes_of (m : gmap Generation (gset ChangesetId)) : gset ChangesetId := ⋃ ((map_to_list m).*2).

Lemma elem_of_nodes m c : c ∈ nodes_of m <-> exists g s, m !! g = Some s /\ c ∈ s.
Proof.
  unfold nodes_of. rewrite elem_of_union_list. split.
  - intros (s & ([g s'] & -> & Hs%elem_of_map_to_list)%list_elem_of_fmap & Hc). by exists g, s'.
  - intros (g & s & Hs & Hc). exists s. split; [|done]. apply list_elem_of_fmap. exists (g, s).
    split; [done|]. by apply elem_of_map_to_list.
Qed.

Lemma elem_of_gen_insert g c m x : x ∈ nodes_of (gen_insert g c m) <-> x = c \/ x ∈ nodes_of m.
Proof.
  rewrite !elem_of_nodes. unfold gen_insert. split.
  - intros (g' & s & Hs & Hx). destruct (decide (g' = g)) as [->|Hg].
    + rewrite lookup_insert_eq in Hs. injection Hs as <-. apply elem_of_union in Hx as [->%elem_of_singleton|Hx]; [by left|].
      right. destruct (m !! g) as [s|] eqn:E; [by exists g, s|by apply not_elem_of_empty in Hx].
    + rewrite lookup_insert_ne in Hs by done. right. by exists g', s.
  - intros [->|(g' & s & Hs & Hx)].
    + exists g. eexists. split; [apply lookup_insert_eq|]. set_solver.
    + destruct (decide (g' = g)) as [->|Hg].
      * exists g. eexists. split; [apply lookup_insert_eq|]. rewrite Hs. cbn. set_solver.
      * exists g', s. by rewrite lookup_insert_ne.
Qed.

Section frontier.
Context {F : ChangesetFetcher}.

(** A map with its heap: sets of stored changesets, under their generations,
    none of them empty, and the generations in the heap. *)
Record gens_ok (known : ChangesetId -> Prop) (m : gmap Generation (gset ChangesetId)) (h : UniqueHeap) : Prop := {
  gens_heap : heap_ok h;
  gens_dom g : is_Some (m !! g) <-> g ∈ sorted_vals h;
  gens_nodes g s c : m !! g = Some s -> c ∈ s -> known c /\ generation_of c = g;
  gens_nonempty g s : m !! g = Some s -> s <> ∅
}.

Context {known : ChangesetId -> Prop}.

Lemma gens_empty_ok : gens_ok known ∅ UniqueHeap_new.
Proof.
  split; [apply heap_new_ok| | |]; intros g; rewrite lookup_empty; try done.
  cbn. split; [by intros [? ?]|set_solver].
Qed.

Lemma gens_known m h c : gens_ok known m h -> c ∈ nodes_of m -> known c.
Proof. intros H (g & s & Hs & Hc)%elem_of_nodes. by destruct (gens_nodes _ _ _ H g s c Hs Hc). Qed.

Lemma gens_nodes_at m h c : gens_ok known m h ->
  c ∈ nodes_of m <-> c ∈ default ∅ (m !! generation_of c).
Proof.
  intros H. rewrite elem_of_nodes. split.
  - intros (g & s & Hs & Hc). destruct (gens_nodes _ _ _ H g s c Hs Hc) as [_ ->]. by rewrite Hs.
  - intros Hc. destruct (m !! generation_of c) as [s|] eqn:E; [by exists (generation_of c), s|].
    by apply not_elem_of_empty in Hc.
Qed.

Lemma gens_empty_nodes m h : gens_ok known m h -> m = ∅ <-> nodes_of m = ∅.
Proof.
  intros H. split.
  - intros ->. apply set_eq. intros c. rewrite elem_of_nodes. split; [|by intros ?%not_elem_of_empty].
    intros (g & s & Hs & _). by rewrite lookup_empty in Hs.
  - intros He. apply map_empty. intros g. destruct (m !! g) as [s|] eqn:E; [|done].
    destruct (set_choose_L s (gens_nonempty _ _ _ H g s E)) as [c Hc].
    assert (c ∈ nodes_of m) as Hn by (apply elem_of_nodes; by exists g, s). rewrite He in Hn. set_solver.
Qed.

Lemma gen_insert_ok m h c :
  gens_ok known m h -> known c ->
  gens_ok known (gen_insert (generation_of c) c m) (heap_push (generation_of c) h).
Proof.
  intros [H1 H2 H3 H4] Hc. unfold gen_insert. split; [by apply heap_push_ok| | |].
  - intros g. rewrite elem_of_push by done. destruct (decide (g = generation_of c)) as [->|Hg].
    + rewrite lookup_insert_eq. split; [by left|by eexists].
    + rewrite lookup_insert_ne by done. rewrite H2. split; [by right|]. by intros [?|?].
  - intros g s d. destruct (decide (g = generation_of c)) as [->|Hg].
    + rewrite lookup_insert_eq. intros [= <-] [->%elem_of_singleton|Hd]%elem_of_union; [done|].
      destruct (m !! generation_of c) as [s|] eqn:E; [by apply (H3 _ s)|by apply not_elem_of_empty in Hd].
    + rewrite lookup_insert_ne by done. apply H3.
  - intros g s. destruct (decide (g = generation_of c)) as [->|Hg].
    + rewrite lookup_insert_eq. intros [= <-]. set_solver.
    + rewrite lookup_insert_ne by done. apply H4.
Qed.

(** Taking the highest generation out. *)
Lemma gens_pop m h :
  gens_ok known m h ->
  match heap_pop h with
  | None => m = ∅
  | Some (g, h') => exists s, m !! g = Some s /\ s <> ∅ /\ gens_ok known (delete g m) h' /\
      (forall c, c ∈ nodes_of m <-> c ∈ s \/ c ∈ nodes_of (delete g m)) /\
      (forall c, c ∈ s -> generation_of c = g) /\
      (forall c, c ∈ nodes_of (delete g m) -> (generation_of c < g)%N)
  end.
Proof.
  intros [H1 H2 H3 H4]. pose proof (heap_pop_spec h H1) as Hp. destruct (heap_pop h) as [[g h']|].
  2: { apply map_empty. intros g. destruct (m !! g) eqn:E; [|done].
       assert (g ∈ sorted_vals h) as Hg by (apply H2; by eexists). rewrite Hp in Hg. by apply elem_of_nil in Hg. }
  destruct Hp as (Hg & Hok & Hh' & Hmax). apply H2 in Hg as [s Hs]. exists s.
  split; [done|]. split; [by apply (H4 g)|]. split; [|split; [|split]].
  - split; [done| | |].
    + intros g'. rewrite Hh', <- H2. destruct (decide (g' = g)) as [->|Hgg].
      * rewrite lookup_delete_eq. split; [by intros [? ?]|tauto].
      * rewrite lookup_delete_ne by done. tauto.
    + intros g' s' c [_ ?]%lookup_delete_Some. by apply H3.
    + intros g' s' [_ ?]%lookup_delete_Some. by apply (H4 g').
  - intros c. rewrite !elem_of_nodes. split.
    + intros (g' & s' & Hs' & Hc). destruct (decide (g' = g)) as [->|Hgg]; [left; congruence|].
      right. exists g', s'. by rewrite lookup_delete_ne.
    + intros [Hc|(g' & s' & [_ Hs']%lookup_delete_Some & Hc)]; [by exists g, s|by exists g', s'].
  - intros c Hc. by apply (H3 g s c).
  - intros c (g' & s' & [Hgg Hs']%lookup_delete_Some & Hc)%elem_of_nodes.
    destruct (H3 g' s' c Hs' Hc) as [_ ->]. specialize (Hmax g' ltac:(apply H2; by eexists)). lia.
Qed.
End frontier.

(** ** [NodeFrontier] *)

Record NodeFrontier := mkNodeFrontier {
  gen_map : gmap Generation (gset ChangesetId);
  generations : UniqueHeap
}.

Definition NodeFrontier_default : NodeFrontier := mkNodeFrontier ∅ UniqueHeap_new.

Definition frontier_insert (f : NodeFrontier) (node_gen : ChangesetId * Generation) : NodeFrontier :=
  mkNodeFrontier (gen_insert node_gen.2 node_gen.1 (gen_map f)) (heap_push node_gen.2 (generations f)).

(** [extend] and [from_iter]. *)
Definition frontier_extend (f : NodeFrontier) (l : list (ChangesetId * Generation)) : NodeFrontier :=
  foldl frontier_insert f l.

Definition frontier_from_iter (l : list (ChangesetId * Generation)) : NodeFrontier :=
  frontier_extend NodeFrontier_default l.

Definition NodeFrontier_new {HO : HashOrder} (input : gmap Generation (gset ChangesetId)) : NodeFrontier :=
  mkNodeFrontier input (foldl (fun h g => heap_push g h) UniqueHeap_new (hash_order (dom input))).

Definition frontier_get (f : NodeFrontier) (gen : Generation) : option (gset ChangesetId) := gen_map f !! gen.

Definition get_all_changesets_for_gen_num (f : NodeFrontier) (gen : Generation) : option (gset ChangesetId) :=
  gen_map f !! gen.

Definition frontier_is_empty (f : NodeFrontier) : bool := bool_decide (gen_map f = ∅).

Definition max_gen (f : NodeFrontier) : option Generation := heap_peek (generations f).

Definition remove_max_gen {E} (f : NodeFrontier) : outcome E (option (gset ChangesetId) * NodeFrontier) :=
  match heap_pop (generations f) with
  | None => Ok (None, f)
  | Some (g, h) =>
      s ← expect (gen_map f !! g);
      Ok (Some s, mkNodeFrontier (delete g (gen_map f)) h)
  end.

Definition frontier_len (f : NodeFrontier) : N := N.of_nat (size (gen_map f)).

(** [into_iter], one changeset at a time. *)
Definition frontier_pairs {HO : HashOrder} (f : NodeFrontier) : list (ChangesetId * Generation) :=
  mjoin ((fun g => (fun c => (c, g)) <$> hash_order (default ∅ (gen_map f !! g))) <$> hash_order (dom (gen_map f))).

Section node_frontier.
Context {F : ChangesetFetcher} {known : ChangesetId -> Prop}.

Definition frontier_ok (f : NodeFrontier) : Prop := gens_ok known (gen_map f) (generations f).

Definition frontier_nodes (f : NodeFrontier) : gset ChangesetId := nodes_of (gen_map f).

(** The changesets that can be reached from the frontier. *)
Definition below (f : NodeFrontier) (c : ChangesetId) : Prop := exists x, x ∈ frontier_nodes f /\ ancestor c x.

Lemma frontier_default_ok : frontier_ok NodeFrontier_default.
Proof. apply gens_empty_ok. Qed.

Lemma frontier_default_nodes c : c ∉ frontier_nodes NodeFrontier_default.
Proof.
  intros Hc. apply elem_of_nodes in Hc as (g & s & Hs & _). cbn in Hs. by rewrite lookup_empty in Hs.
Qed.

Lemma frontier_insert_ok f c : frontier_ok f -> known c -> frontier_ok (frontier_insert f (c, generation_of c)).
Proof. apply gen_insert_ok. Qed.

Lemma elem_of_frontier_insert f c g x :
  x ∈ frontier_nodes (frontier_insert f (c, g)) <-> x = c \/ x ∈ frontier_nodes f.
Proof. apply elem_of_gen_insert. Qed.

Lemma frontier_extend_spec l : forall f,
  frontier_ok f -> Forall known l ->
  frontier_ok (frontier_extend f ((fun c => (c, generation_of c)) <$> l)) /\
  forall x, x ∈ frontier_nodes (frontier_extend f ((fun c => (c, generation_of c)) <$> l)) <-> x ∈ l \/ x ∈ frontier_nodes f.
Proof.
  induction l as [|c l IH]; intros f Hf Hl; [cbn; split; [done|]; intros x; split; [by right|by intros [?%elem_of_nil|?]]|].
  apply Forall_cons in Hl as [Hc Hl]. rewrite fmap_cons. unfold frontier_extend. cbn [foldl].
  destruct (IH (frontier_insert f (c, generation_of c)) ltac:(by apply frontier_insert_ok) Hl) as [IH1 IH2].
  split; [done|]. intros x. rewrite (IH2 x), elem_of_frontier_insert, elem_of_cons. tauto.
Qed.

Lemma frontier_empty_nodes f : frontier_ok f -> frontier_is_empty f = true <-> frontier_nodes f = ∅.
Proof. intros Hf. unfold frontier_is_empty. rewrite bool_decide_eq_true. exact (gens_empty_nodes _ _ Hf). Qed.

Lemma max_gen_spec f :
  frontier_ok f ->
  match max_gen f with
  | None => frontier_nodes f = ∅
  | Some g => (exists c, c ∈ frontier_nodes f /\ generation_of c = g) /\
      forall c, c ∈ frontier_nodes f -> (generation_of c <= g)%N
  end.
Proof.
  intros [H1 H2 H3 H4]. unfold max_gen, heap_peek. pose proof (max_of_list (sorted_vals (generations f))) as Hm.
  unfold frontier_nodes. destruct (max_of (sorted_vals (generations f))) as [g|].
  - destruct Hm as [Hg Hle]. apply H2 in Hg as [s Hs]. split.
    + destruct (set_choose_L s (H4 g s Hs)) as [c Hc]. exists c. split; [apply elem_of_nodes; by exists g, s|].
      by apply (H3 g s c).
    + intros c (g' & s' & Hs' & Hc)%elem_of_nodes. destruct (H3 g' s' c Hs' Hc) as [_ ->].
      apply Hle, H2. by eexists.
  - apply set_eq. intros c. split; [|by intros ?%not_elem_of_empty]. intros (g & s & Hs & _)%elem_of_nodes.
    assert (g ∈ sorted_vals (generations f)) as Hg by (apply H2; by eexists). rewrite Hm in Hg. by apply elem_of_nil in Hg.
Qed.

Lemma frontier_at f c : frontier_ok f -> c ∈ default ∅ (frontier_get f (generation_of c)) <-> c ∈ frontier_nodes f.
Proof. intros Hf. symmetry. exact (gens_nodes_at _ _ c Hf). Qed.

Lemma NodeFrontier_new_ok {HO : HashOrder} {HL : HashOrderLaws HO} c :
  known c -> let f := NodeFrontier_new {[generation_of c := {[c]}]} in
  frontier_ok f /\ forall x, x ∈ frontier_nodes f <-> x = c.
Proof.
  intros Hc f. assert (forall l h, heap_ok h -> heap_ok (foldl (fun h g => heap_push g h) h l) /\
    forall g, g ∈ sorted_vals (foldl (fun h g => heap_push g h) h l) <-> g ∈ l \/ g ∈ sorted_vals h) as Hfold.
  { induction l as [|g' l IH]; intros h Hh; [cbn; set_solver|]. cbn [foldl].
    destruct (IH (heap_push g' h) ltac:(by apply heap_push_ok)) as [IH1 IH2]. split; [done|].
    intros g. rewrite IH2, elem_of_push, elem_of_cons by done. tauto. }
  destruct (Hfold (hash_order (dom ({[generation_of c := {[c]}]} : gmap Generation (gset ChangesetId)))) UniqueHeap_new heap_new_ok) as [F1 F2].
  split; [split|]; unfold f, NodeFrontier_new; cbn [gen_map generations].
  - done.
  - intros g. rewrite F2, hash_order_perm, elem_of_elements, elem_of_dom. cbn. split; [by left|].
    intros [?|?%elem_of_nil]; done.
  - intros g s d [<- <-]%lookup_singleton_Some ->%elem_of_singleton. done.
  - intros g s [<- <-]%lookup_singleton_Some. set_solver.
  - intros x. unfold frontier_nodes. cbn [gen_map]. rewrite elem_of_nodes. split.
    + intros (g & s & [<- <-]%lookup_singleton_Some & Hx). by apply elem_of_singleton in Hx.
    + intros ->. exists (generation_of c), {[c]}. rewrite lookup_singleton_eq. set_solver.
Qed.

Lemma remove_max_gen_spec {E} f :
  frontier_ok f ->
  match max_gen f with
  | None => True
  | Some g => exists s f', remove_max_gen (E := E) f = Ok (Some s, f') /\ frontier_ok f' /\
      (forall c, c ∈ frontier_nodes f <-> c ∈ s \/ c ∈ frontier_nodes f') /\
      (forall c, c ∈ s -> known c /\ generation_of c = g) /\
      (forall c, c ∈ frontier_nodes f' -> (generation_of c < g)%N)
  end.
Proof.
  intros Hf. pose proof (gens_pop _ _ Hf) as Hp. unfold max_gen, heap_peek, remove_max_gen.
  unfold heap_pop in *. destruct (max_of (sorted_vals (generations f))) as [g|]; [|done].
  destruct Hp as (s & Hs & Hne & Hok & Hn & Hg & Hlt). rewrite Hs. cbn [expect]. rewrite bind_Ok.
  eexists s, _. split; [done|]. split; [done|]. split; [done|]. split; [|done].
  intros c Hc. by apply (gens_nodes _ _ _ Hf g s c).
Qed.

Lemma frontier_pairs_spec {HO : HashOrder} {HL : HashOrderLaws HO} f :
  frontier_ok f ->
  exists l, frontier_pairs f = (fun c => (c, generation_of c)) <$> l /\ forall c, c ∈ l <-> c ∈ frontier_nodes f.
Proof.
  intros [H1 H2 H3 H4].
  exists (mjoin ((fun g => hash_order (default ∅ (gen_map f !! g))) <$> hash_order (dom (gen_map f)))). split.
  - unfold frontier_pairs. assert (forall g : Generation, g ∈ hash_order (dom (gen_map f)) -> is_Some (gen_map f !! g)) as Hg.
    { intros g. rewrite hash_order_perm, elem_of_elements. apply elem_of_dom. }
    induction (hash_order (dom (gen_map f))) as [|g l IH]; [done|].
    rewrite !fmap_cons, !mjoin_cons, fmap_app, IH by (intros ??; apply Hg; by right).
    apply (f_equal2 app); [|done].
    destruct (Hg g ltac:(by left)) as [s Hs]. rewrite Hs. cbn [from_option id].
    apply list_fmap_ext. intros i c Hc%list_elem_of_lookup_2. rewrite hash_order_perm, elem_of_elements in Hc.
    by destruct (H3 g s c Hs Hc) as [_ ->].
  - intros c. unfold frontier_nodes. rewrite list_elem_of_join, elem_of_nodes. split.
    + intros (l & Hc & (g & -> & Hg)%list_elem_of_fmap). rewrite hash_order_perm in Hg.
      apply elem_of_elements, elem_of_dom in Hg. rewrite hash_order_perm in Hc. apply elem_of_elements in Hc.
      assert (exists s, gen_map f !! (g : Generation) = Some s) as [s Hs] by exact Hg. rewrite Hs in Hc. by exists g, s.
    + intros (g & s & Hs & Hc). exists (hash_order (default ∅ (gen_map f !! g))). split.
      * rewrite Hs, hash_order_perm. by apply elem_of_elements.
      * apply list_elem_of_fmap. exists g. split; [done|]. rewrite hash_order_perm.
        apply elem_of_elements, elem_of_dom. by eexists.
Qed.
End node_frontier.
Arguments frontier_ok {F} known f.

(** ** The indexes

    The traits [ReachabilityIndex] and [LeastCommonAncestorsHint]. The
    documentation of [lca_hint] asks for the first two laws; its clients also
    need that nothing is added to what can be reached. *)

Class ReachabilityIndex := {
  query_reachability : ChangesetId -> ChangesetId -> outcome fetch_error bool
}.

Class LeastCommonAncestorsHint := {
  lca_hint : NodeFrontier -> Generation -> outcome fetch_error NodeFrontier;
  is_ancestor : ChangesetId -> ChangesetId -> outcome fetch_error bool
}.

Class LcaHintLaws {F : ChangesetFetcher} (known : ChangesetId -> Prop) (I : LeastCommonAncestorsHint) : Prop := {
  lca_hint_exact f gen : frontier_ok known f ->
    exists f', lca_hint f gen = Ok f' /\ frontier_ok known f' /\
      (forall c, c ∈ frontier_nodes f' -> (generation_of c <= gen)%N) /\
      (forall c, (generation_of c <= gen)%N -> below f c <-> below f' c);
  is_ancestor_exact a d : known a -> known d ->
    exists b, is_ancestor a d = Ok b /\ (b = true <-> a <> d /\ ancestor a d)
}.

Class ReachabilityLaws {F : ChangesetFetcher} (known : ChangesetId -> Prop) (I : ReachabilityIndex) : Prop := {
  query_reachability_exact desc anc : known desc -> known anc ->
    exists b, query_reachability desc anc = Ok b /\ (b = true <-> ancestor anc desc)
}.
