(* ===== verification/Range.v ===== *)
(** * Ranges of history

    Model of [src/revset/src/range.rs]: [RangeNodeStream], the changesets
    between two given ones. It walks back from the end, remembering children,
    and then forward from the start along them. *)

From S2P Require Import Prelude Hash Bonsai Graph.

Record HashGen := mkHashGen { hash : ChangesetId; generation : Generation }.

#[export] Instance HashGen_eq_dec : EqDecision HashGen.
Proof. solve_decision. Defined.
#[export] Instance HashGen_countable : Countable HashGen.
Proof.
  refine {| encode h := encode (hash h, generation h);
            decode p := (fun x => mkHashGen x.1 x.2) <$> decode p |}.
  intros [h g]. by rewrite decode_encode.
Defined.

Record ParentChild := mkParentChild { pc_parent : HashGen; pc_child : HashGen }.

(** The stream [pending_nodes], as the work left in it: the generation of the
    end node, the parents of a node, or the generation of one parent. *)
Inductive Pending :=
| PendingEnd (end_node : ChangesetId)
| PendingParents (child : HashGen)
| PendingParent (child : HashGen) (parent_hash : ChangesetId).

Record RangeNodeStream := mkRange {
  start_node : ChangesetId;
  children : gmap HashGen (gset HashGen);
  pending_nodes : list Pending;
  output_nodes : option (gmap Generation (gset ChangesetId));
  drain : option (list ChangesetId)
}.

Section range.
Context {F : ChangesetFetcher} {HO : HashOrder}.

Definition make_pending (child : HashGen) : list Pending := [PendingParents child].

Definition RangeNodeStream_new (start_node end_node : ChangesetId) : RangeNodeStream :=
  mkRange start_node ∅ [PendingEnd end_node] None None.

Definition fetch_generation_of (c : ChangesetId) : outcome fetch_error Generation :=
  map_err GenerationFetchFailed (get_generation_number c).

(** [pending_nodes.poll()]. *)
Definition poll_parent (child : HashGen) (parent_hash : ChangesetId) (rest : list Pending)
    : outcome fetch_error (option ParentChild * list Pending) :=
  gen_id ← fetch_generation_of parent_hash;
  Ok (Some (mkParentChild (mkHashGen parent_hash gen_id) child), rest).

Definition poll_parents (child : HashGen) (rest : list Pending)
    (empty : outcome fetch_error (option ParentChild * list Pending))
    : outcome fetch_error (option ParentChild * list Pending) :=
  parents ← map_err ParentsFetchFailed (get_parents (hash child));
  match parents with
  | [] => empty
  | p :: ps => poll_parent child p ((PendingParent child <$> ps) ++ rest)
  end.

Fixpoint poll_pending (pending : list Pending)
    : outcome fetch_error (option ParentChild * list Pending) :=
  match pending with
  | [] => Ok (None, [])
  | PendingEnd end_node :: rest =>
      g ← fetch_generation_of end_node;
      poll_parents (mkHashGen end_node g) rest (poll_pending rest)
  | PendingParents child :: rest => poll_parents child rest (poll_pending rest)
  | PendingParent child parent_hash :: rest => poll_parent child parent_hash rest
  end.

Definition add_child (p c : HashGen) (m : gmap HashGen (gset HashGen)) : gmap HashGen (gset HashGen) :=
  <[p := {[c]} ∪ default ∅ (m !! p)]> m.

(** Stage 1: the loop that walks back from the end. *)
Fixpoint walk_back (k : nat) (start_generation : Generation) (pending : list Pending)
    (m : gmap HashGen (gset HashGen)) : outcome fetch_error (gmap HashGen (gset HashGen)) :=
  match k with
  | O => Err StreamOutOfFuel
  | S k =>
      '(next, pending) ← poll_pending pending;
      match next with
      | None => Ok m
      | Some pc =>
          let m := if (start_generation <=? generation (pc_child pc))%N
                   then add_child (pc_parent pc) (pc_child pc) m else m in
          let pending := if (start_generation <? generation (pc_parent pc))%N
                         then pending ++ make_pending (pc_parent pc) else pending in
          walk_back k start_generation pending m
      end
  end.

Definition add_output (nodes : gmap Generation (gset ChangesetId)) (h : HashGen)
    : gmap Generation (gset ChangesetId) :=
  <[generation h := {[hash h]} ∪ default ∅ (nodes !! generation h)]> nodes.

Definition add_to_handle (m : gmap HashGen (gset HashGen)) (todo : gset HashGen) (h : HashGen)
    : gset HashGen :=
  match m !! h with Some cs => todo ∪ cs | None => todo end.

(** The loop of [build_output_nodes]. *)
Fixpoint walk_forward (k : nat) (m : gmap HashGen (gset HashGen)) (nodes_to_handle : gset HashGen)
    (nodes : gmap Generation (gset ChangesetId)) : option (gmap Generation (gset ChangesetId)) :=
  if decide (nodes_to_handle = ∅) then Some nodes else
  match k with
  | O => None
  | S k =>
      let hs := hash_order nodes_to_handle in
      walk_forward k m (foldl (add_to_handle m) ∅ hs) (foldl add_output nodes hs)
  end.

Definition build_output_nodes (k : nat) (m : gmap HashGen (gset HashGen)) (start : ChangesetId)
    (start_generation : Generation) : outcome fetch_error (gmap Generation (gset ChangesetId)) :=
  ok_or (walk_forward k m (if decide (m = ∅) then ∅ else {[mkHashGen start start_generation]}) ∅)
    StreamOutOfFuel.

(** The highest key of the [BTreeMap]. *)
Definition highest (nodes : gmap Generation (gset ChangesetId)) : option Generation :=
  max_of ((map_to_list nodes).*1).

(** Stage 2. *)
Definition poll_output (s : RangeNodeStream) (nodes : gmap Generation (gset ChangesetId))
    : RangeNodeStream * outcome fetch_error (option ChangesetId) :=
  match highest nodes with
  | None => (mkRange (start_node s) (children s) (pending_nodes s) (Some nodes) (drain s), Ok None)
  | Some highest_generation =>
      match hash_order (default ∅ (nodes !! highest_generation)) with
      | [] => (s, Panic)
      | x :: xs =>
          (mkRange (start_node s) (children s) (pending_nodes s)
             (Some (delete highest_generation nodes)) (Some xs), Ok (Some x))
      end
  end.

Definition range_poll (k : nat) (s : RangeNodeStream)
    : RangeNodeStream * outcome fetch_error (option ChangesetId) :=
  match drain s with
  | Some (x :: xs) =>
      (mkRange (start_node s) (children s) (pending_nodes s) (output_nodes s) (Some xs), Ok (Some x))
  | _ =>
      match output_nodes s with
      | Some nodes => poll_output s nodes
      | None =>
          match
            start_generation ← fetch_generation_of (start_node s);
            m ← walk_back k start_generation (pending_nodes s) (children s);
            nodes ← build_output_nodes k m (start_node s) start_generation;
            Ok (m, nodes)
          with
          | Ok (m, nodes) => poll_output (mkRange (start_node s) m [] None (drain s)) nodes
          | Err e => (s, Err e)
          | Panic => (s, Panic)
          end
      end
  end.

(** [.collect()]. *)
Fixpoint collect_range (n k : nat) (s : RangeNodeStream) : outcome fetch_error (list ChangesetId) :=
  match n with
  | O => Err StreamOutOfFuel
  | S n =>
      match range_poll k s with
      | (s, Ok (Some x)) => xs ← collect_range n k s; Ok (x :: xs)
      | (_, Ok None) => Ok []
      | (_, Err e) => Err e
      | (_, Panic) => Panic
      end
  end.

Definition range_nodes (k : nat) (start_node end_node : ChangesetId)
    : outcome fetch_error (list ChangesetId) :=
  collect_range k k (RangeNodeStream_new start_node end_node).

(** ** The walk back *)

Definition edge_in (m : gmap HashGen (gset HashGen)) (p c : HashGen) : Prop :=
  exists s, m !! p = Some s /\ c ∈ s.

Lemma edge_in_add p c m p' c' :
  edge_in (add_child p c m) p' c' <-> (p' = p /\ c' = c) \/ edge_in m p' c'.
Proof.
  unfold edge_in, add_child. destruct (decide (p' = p)) as [->|Hp].
  - rewrite lookup_insert_eq. split.
    + intros (s & [= <-] & Hs). apply elem_of_union in Hs as [Hs|Hs]; [set_solver|].
      right. destruct (m !! p) as [s|]; [by exists s | set_solver].
    + intros [[_ ->]|(s & -> & Hs)]; eexists; (split; [done|]); set_solver.
  - rewrite lookup_insert_ne by done. naive_solver.
Qed.


(** No key of these maps has an empty set. *)
Definition nonempty_sets {A B} `{Countable A, Countable B} (m : gmap A (gset B)) : Prop :=
  forall k s, m !! k = Some s -> s <> ∅.

Lemma nonempty_sets_empty {A B} `{Countable A, Countable B} : nonempty_sets (∅ : gmap A (gset B)).
Proof. intros k s Hs. by rewrite lookup_empty in Hs. Qed.

Lemma nonempty_sets_insert {A B} `{Countable A, Countable B} (m : gmap A (gset B)) k x s :
  nonempty_sets m -> nonempty_sets (<[k := {[x]} ∪ s]> m).
Proof.
  intros Hm k' s'. destruct (decide (k' = k)) as [->|Hk].
  - rewrite lookup_insert_eq. intros [= <-]. set_solver.
  - rewrite lookup_insert_ne by done. apply Hm.
Qed.

Context {known : ChangesetId -> Prop} {L : FetcherLaws known}.

Definition with_gen (c : ChangesetId) : HashGen := mkHashGen c (generation_of c).

Lemma fetch_generation_of_known c : known c -> fetch_generation_of c = Ok (generation_of c).
Proof using L. intros Hc. unfold fetch_generation_of. by rewrite fetch_generation. Qed.

(** What an item of work stands for. *)
Definition pending_ok (i : Pending) : Prop :=
  match i with
  | PendingEnd e => known e
  | PendingParents c => exists x, c = with_gen x /\ known x
  | PendingParent c p => exists x, c = with_gen x /\ known x /\ parent p x
  end.

(** The edges [p]-[c] that it leads to, above the generation [sg]. *)
Definition leads_to (sg : Generation) (i : Pending) (p c : ChangesetId) : Prop :=
  parent p c /\
  match i with
  | PendingEnd e => (c = e /\ (sg <= generation_of c)%N) \/ ((sg < generation_of c)%N /\ ancestor c e)
  | PendingParents x => (c = hash x /\ (sg <= generation_of c)%N) \/
      ((sg < generation_of c)%N /\ ancestor c (hash x))
  | PendingParent x q => (p = q /\ c = hash x /\ (sg <= generation_of c)%N) \/
      ((sg < generation_of c)%N /\ ancestor c q)
  end.

Definition pending_weight (i : Pending) : nat :=
  match i with
  | PendingEnd e => full_weight e
  | PendingParents c => full_weight (hash c)
  | PendingParent _ p => S (full_weight p)
  end.

Lemma leads_to_parents sg x p c :
  leads_to sg (PendingParents (with_gen x)) p c <->
  exists q, q ∈ parents_of x /\ leads_to sg (PendingParent (with_gen x) q) p c.
Proof.
  unfold leads_to. simpl. split.
  - intros [Hp [[-> Hg]|[Hg Ha]]].
    + exists p. split; [exact Hp|]. split; [done|]. by left.
    + destruct (ancestor_right _ _ Ha) as [->|(q & Hq & Hqx)].
      * exists p. split; [exact Hp|]. split; [done|]. left. repeat split. lia.
      * exists q. split; [exact Hqx|]. split; [done|]. by right.
  - intros (q & Hq & Hp & [(-> & -> & Hg)|[Hg Ha]]); (split; [done|]).
    + by left.
    + right. split; [done|]. eapply rtc_r; [exact Ha|exact Hq].
Qed.

Lemma leads_to_parent sg x q p c :
  known q ->
  leads_to sg (PendingParent (with_gen x) q) p c <->
  (p = q /\ c = x /\ (sg <= generation_of x)%N /\ parent q x) \/
  ((sg < generation_of q)%N /\ leads_to sg (PendingParents (with_gen q)) p c).
Proof.
  intros Hq. unfold leads_to. simpl. split.
  - intros [Hp [(-> & -> & Hg)|[Hg Ha]]]; [by left|]. right.
    pose proof (ancestor_generation_le _ _ Hq Ha). split; [lia|]. split; [done|]. by right.
  - intros [(-> & -> & Hg & Hp)|[Hg [Hp [[-> _]|[Hc Ha]]]]]; (split; [done|]).
    + by left.
    + right. split; [done | apply rtc_refl].
    + by right.
Qed.

Definition any_leads (sg : Generation) (l : list Pending) (p c : ChangesetId) : Prop :=
  Exists (fun i => leads_to sg i p c) l.

Definition total_weight (l : list Pending) : nat := sum_list_with pending_weight l.

Lemma sum_list_with_app {A} (f : A -> nat) l1 l2 :
  sum_list_with f (l1 ++ l2) = sum_list_with f l1 + sum_list_with f l2.
Proof. induction l1; simpl; lia. Qed.

Lemma weight_of_parents x ps :
  total_weight (PendingParent x <$> ps) = sum_list_with (fun p => S (full_weight p)) ps.
Proof. unfold total_weight. induction ps as [|p ps IH]; [done|]. rewrite fmap_cons. cbn [sum_list_with pending_weight]. by rewrite IH. Qed.

(** What a poll of the pending work gives. *)
Definition polled (pend : list Pending)
    (r : outcome fetch_error (option ParentChild * list Pending)) : Prop :=
  match r with
  | Ok (None, _) => forall sg p c, ~ any_leads sg pend p c
  | Ok (Some pc, rest) => exists q x,
      pc = mkParentChild (with_gen q) (with_gen x) /\ known q /\ Forall pending_ok rest /\
      S (full_weight q + total_weight rest) <= total_weight pend /\
      forall sg p c, any_leads sg pend p c <->
        (p = q /\ c = x /\ (sg <= generation_of x)%N) \/
        ((sg < generation_of q)%N /\ leads_to sg (PendingParents (with_gen q)) p c) \/
        any_leads sg rest p c
  | _ => False
  end.

Lemma poll_parents_spec x rest empty :
  known x -> Forall pending_ok rest -> polled rest empty ->
  polled (PendingParents (with_gen x) :: rest) (poll_parents (with_gen x) rest empty).
Proof.
  intros Hx Hr He. unfold poll_parents. cbn [hash with_gen].
  rewrite fetch_parents by done. cbn [map_err]. rewrite bind_Ok.
  pose proof (full_weight_step x Hx) as Hw.
  destruct (parents_of x) as [|q ps] eqn:Eps.
  - assert (forall sg p c, ~ leads_to sg (PendingParents (with_gen x)) p c) as Hno.
    { intros sg p c Hl%leads_to_parents. rewrite Eps in Hl. destruct Hl as (q & Hq & _). set_solver. }
    unfold polled in *. destruct empty as [[[pc|] rest']|e|]; [| |done|done].
    + destruct He as (q & y & -> & Hq & Hok & Hwt & Hl). exists q, y. repeat split; try done.
      * unfold total_weight in *. cbn [sum_list_with]. lia.
      * intros H%Exists_cons. apply Hl. destruct H as [H|H]; [by apply Hno in H|done].
      * intros H%Hl. by apply Exists_cons_tl.
    + intros sg p c H%Exists_cons. destruct H as [H|H]; [by apply Hno in H|by apply He in H].
  - assert (parent q x) as Hq by (unfold parent; rewrite Eps; by left).
    pose proof (parent_known q x Hx Hq) as Hkq. unfold poll_parent.
    rewrite fetch_generation_of_known, bind_Ok by done. cbn [polled].
    exists q, x. split; [done|]. split; [done|]. split.
    { apply Forall_app. split; [|done]. apply Forall_fmap, Forall_forall. intros p Hp.
      exists x. repeat split; [done|]. unfold parent. rewrite Eps. by right. }
    split.
    { pose proof (weight_of_parents (with_gen x) ps). unfold total_weight in *.
      rewrite sum_list_with_app. cbn [sum_list_with pending_weight hash with_gen] in *. lia. }
    intros sg p c. unfold any_leads at 1. rewrite Exists_cons, leads_to_parents, Eps.
    unfold any_leads. rewrite Exists_app, Exists_fmap. split.
    + intros [(r & Hr1 & Hl)|H]; [|by do 3 right].
      apply elem_of_cons in Hr1 as [->|Hr1].
      * apply leads_to_parent in Hl as [(-> & -> & Hg & _)|H]; [by left | by right; left | done].
      * right; right; left. apply Exists_exists. by exists r.
    + intros [(-> & -> & Hg)|[H|[H|H]]].
      * left. exists q. split; [by left|]. apply leads_to_parent; [done|]. by left.
      * left. exists q. split; [by left|]. apply leads_to_parent; [done|]. by right.
      * left. apply Exists_exists in H as (r & Hr1 & Hl). exists r. split; [by right|done].
      * by right.
Qed.

Lemma polled_end e pend r :
  polled (PendingParents (with_gen e) :: pend) r -> polled (PendingEnd e :: pend) r.
Proof.
  assert (forall sg p c, any_leads sg (PendingEnd e :: pend) p c <->
            any_leads sg (PendingParents (with_gen e) :: pend) p c) as E.
  { intros sg p c. unfold any_leads. by rewrite !Exists_cons. }
  unfold polled. destruct r as [[[pc|] rest]|err|]; [| |done|done].
  - intros (q & x & Hpc & Hq & Hok & Hw & Hl). exists q, x. setoid_rewrite E. done.
  - by setoid_rewrite E.
Qed.

Lemma poll_pending_spec pend : Forall pending_ok pend -> polled pend (poll_pending pend).
Proof.
  induction 1 as [|i pend Hi Hpend IH].
  - intros sg p c H. by apply Exists_nil in H.
  - destruct i as [e|c|c p]; simpl in Hi.
    + cbn [poll_pending]. rewrite fetch_generation_of_known, bind_Ok by done.
      apply polled_end. exact (poll_parents_spec e pend _ Hi Hpend IH).
    + destruct Hi as (x & -> & Hx). exact (poll_parents_spec x pend _ Hx Hpend IH).
    + destruct Hi as (x & -> & Hx & Hp). pose proof (parent_known p x Hx Hp) as Hkp.
      cbn [poll_pending]. unfold poll_parent. rewrite fetch_generation_of_known, bind_Ok by done.
      exists p, x. split; [done|]. split; [done|]. split; [done|]. split; [done|].
      intros sg p' c'. unfold any_leads at 1. rewrite Exists_cons, leads_to_parent by done.
      unfold any_leads. naive_solver.
Qed.

Lemma walk_back_spec sg k : forall pend m,
  Forall pending_ok pend -> total_weight pend < k ->
  exists m', walk_back k sg pend m = Ok m' /\ (nonempty_sets m -> nonempty_sets m') /\
    forall p c, edge_in m' p c <-> edge_in m p c \/
      exists p' c', p = with_gen p' /\ c = with_gen c' /\ any_leads sg pend p' c'.
Proof.
  induction k as [|k IH]; intros pend m Hok Hk; [lia|]. cbn [walk_back].
  pose proof (poll_pending_spec pend Hok) as Hp. unfold polled in Hp.
  destruct (poll_pending pend) as [[[pc|] rest]|e|]; [| |done|done]; rewrite bind_Ok.
  2: { exists m. split; [done|]. split; [done|]. intros p c. split; [by left|]. intros [H|(p' & c' & _ & _ & H)]; [done|].
       by apply Hp in H. }
  destruct Hp as (q & x & -> & Hq & Hrest & Hw & Hl). cbn [pc_parent pc_child generation with_gen].
  set (m1 := if (sg <=? generation_of x)%N then _ else _).
  set (pend1 := if (sg <? generation_of q)%N then _ else _).
  assert (Forall pending_ok pend1 /\ total_weight pend1 < k) as [Hok1 Hk1].
  { unfold pend1. destruct (sg <? generation_of q)%N; [|split; [done|lia]].
    split; [apply Forall_app; split; [done|]; apply Forall_singleton; by exists q|].
    unfold total_weight in *. rewrite sum_list_with_app. cbn [sum_list_with make_pending pending_weight hash with_gen]. lia. }
  destruct (IH pend1 m1 Hok1 Hk1) as (m' & -> & Hne & Hm'). exists m'. split; [done|].
  split. { intros Hm. apply Hne. unfold m1. destruct (sg <=? _)%N; [by apply nonempty_sets_insert|done]. }
  intros p c. rewrite Hm'.
  assert (edge_in m1 p c <-> edge_in m p c \/ (p = with_gen q /\ c = with_gen x /\ (sg <= generation_of x)%N)) as ->.
  { unfold m1. destruct (N.leb_spec sg (generation_of x)); [rewrite edge_in_add; naive_solver|].
    split; [by left|]. intros [?|(_ & _ & ?)]; [done|lia]. }
  assert (forall p' c', any_leads sg pend1 p' c' <-> any_leads sg rest p' c' \/
            ((sg < generation_of q)%N /\ leads_to sg (PendingParents (with_gen q)) p' c')) as Hp1.
  { intros p' c'. unfold pend1, any_leads. destruct (N.ltb_spec sg (generation_of q)).
    - unfold make_pending. rewrite Exists_app, Exists_cons, Exists_nil. naive_solver.
    - split; [by left|]. intros [?|[? _]]; [done|lia]. }
  setoid_rewrite Hp1. setoid_rewrite Hl. clear. naive_solver.
Qed.

(** ** The walk forward *)

Definition in_output (nodes : gmap Generation (gset ChangesetId)) (h : HashGen) : Prop :=
  exists s, nodes !! generation h = Some s /\ hash h ∈ s.

Lemma in_output_add nodes h h' : in_output (add_output nodes h') h <-> h = h' \/ in_output nodes h.
Proof.
  unfold in_output, add_output. destruct h as [x g], h' as [x' g']. simpl.
  destruct (decide (g = g')) as [->|Hg].
  - rewrite lookup_insert_eq. split.
    + intros (s & [= <-] & [Hs|Hs]%elem_of_union); [left; set_solver|].
      right. destruct (nodes !! g') as [s|]; [by exists s | set_solver].
    + intros [[= ->]|(s & -> & Hs)]; eexists; (split; [done|]); set_solver.
  - rewrite lookup_insert_ne by done. naive_solver.
Qed.

Lemma foldl_add_output hs : forall nodes,
  (nonempty_sets nodes -> nonempty_sets (foldl add_output nodes hs)) /\
  forall h, in_output (foldl add_output nodes hs) h <-> h ∈ hs \/ in_output nodes h.
Proof.
  induction hs as [|h' hs IH]; intros nodes; simpl; [set_solver|].
  destruct (IH (add_output nodes h')) as [H1 H2]. split.
  - intros Hn. by apply H1, nonempty_sets_insert.
  - intros h. rewrite H2, in_output_add, elem_of_cons. naive_solver.
Qed.

Lemma foldl_add_to_handle m hs : forall todo h,
  h ∈ foldl (add_to_handle m) todo hs <-> h ∈ todo \/ exists y, y ∈ hs /\ edge_in m y h.
Proof.
  induction hs as [|y hs IH]; intros todo h; simpl; [set_solver|].
  rewrite IH. unfold add_to_handle, edge_in. setoid_rewrite elem_of_cons.
  destruct (m !! y) as [s|] eqn:E; [rewrite elem_of_union|]; naive_solver.
Qed.

Lemma walk_forward_spec {HL : HashOrderLaws HO} m G k : forall todo nodes b,
  (forall y h, edge_in m y h -> generation y < generation h <= G)%N ->
  (forall h, h ∈ todo -> b <= generation h <= G)%N -> N.to_nat (G + 1 - b) <= k ->
  exists nodes', walk_forward k m todo nodes = Some nodes' /\
    (nonempty_sets nodes -> nonempty_sets nodes') /\
    forall h, in_output nodes' h <-> in_output nodes h \/ exists y, y ∈ todo /\ rtc (edge_in m) y h.
Proof.
  induction k as [|k IH]; intros todo nodes b Hm Htodo Hk; cbn [walk_forward];
    (destruct (decide (todo = ∅)) as [->|Hne]; [exists nodes; set_solver|]).
  - destruct (set_choose_L todo Hne) as [h Hh]. pose proof (Htodo h Hh). lia.
  - set (hs := hash_order todo). assert (forall h, h ∈ hs <-> h ∈ todo) as Hhs.
    { intros h. unfold hs. by rewrite hash_order_perm, elem_of_elements. }
    destruct (IH (foldl (add_to_handle m) ∅ hs) (foldl add_output nodes hs) (b + 1)%N Hm)
      as (nodes' & -> & H1 & H2).
    + intros h Hh%foldl_add_to_handle. destruct Hh as [?|(y & Hy & He)]; [set_solver|].
      pose proof (Hm _ _ He). apply Hhs, Htodo in Hy. lia.
    + lia.
    + destruct (foldl_add_output hs nodes) as [Hf1 Hf2].
      exists nodes'. split; [done|]. split; [by intros ?%Hf1%H1|].
      intros h. rewrite H2, Hf2. setoid_rewrite foldl_add_to_handle. setoid_rewrite Hhs.
      clear -h. split.
      * intros [[?|?]|(y & [?|(z & Hz & Hzy)] & Hyh)]; [right; exists h|by left|set_solver|].
        { split; [done|apply rtc_refl]. }
        right. exists z. split; [done|]. by eapply rtc_l.
      * intros [?|(y & Hy & Hyh)]; [left; by right|].
        apply rtc_inv in Hyh as [->|(z & Hyz & Hzh)]; [left; by left|].
        right. exists z. split; [|done]. right. by exists y.
Qed.

(** ** The nodes between *)

(** The map of children after the walk back from [e], down to the start [s]. *)
Definition edges_of (s e : ChangesetId) (m : gmap HashGen (gset HashGen)) : Prop :=
  forall p c, edge_in m p c <->
    exists p' c', p = with_gen p' /\ c = with_gen c' /\ leads_to (generation_of s) (PendingEnd e) p' c'.

Definition between (s e x : ChangesetId) : Prop :=
  (generation_of s <= generation_of e)%N /\ parents_of e <> [] /\
  (x = s \/ (ancestor s x /\ ancestor x e)).

Lemma edges_of_some s e m :
  known e -> nonempty_sets m -> edges_of s e m ->
  (m <> ∅ <-> (generation_of s <= generation_of e)%N /\ parents_of e <> []).
Proof.
  intros He Hne Hm. split.
  - intros Hm0. apply map_choose in Hm0 as (p & cs & Hpc).
    destruct (set_choose_L cs (Hne _ _ Hpc)) as [c Hc].
    destruct (proj1 (Hm p c) ltac:(by exists cs)) as (p' & c' & _ & _ & Hp & Hor).
    destruct Hor as [[-> Hg]|[Hg Ha]].
    + split; [done|]. intros E. unfold parent in Hp. rewrite E in Hp. set_solver.
    + pose proof (ancestor_generation_le _ _ He Ha). split; [lia|]. intros E.
      apply (no_parents_ancestor _ _ E) in Ha as ->. unfold parent in Hp. rewrite E in Hp. set_solver.
  - intros [Hg Hp] ->. destruct (parents_of e) as [|p ps] eqn:E; [done|].
    destruct (proj2 (Hm (with_gen p) (with_gen e))) as (cs & Hcs & _).
    + exists p, e. split; [done|]. split; [done|]. split; [unfold parent; rewrite E; by left|]. by left.
    + by rewrite lookup_empty in Hcs.
Qed.

Lemma edge_generation s e m y h :
  known e -> edges_of s e m -> edge_in m y h ->
  (generation y < generation h <= generation_of e)%N.
Proof.
  intros He Hm Hyh. apply Hm in Hyh as (p & c & -> & -> & Hp & Hor). simpl.
  assert (known c /\ (generation_of c <= generation_of e)%N) as [Hc Hle].
  { destruct Hor as [[-> _]|[_ Ha]]; [done|].
    split; [by eapply ancestor_known|by apply ancestor_generation_le]. }
  pose proof (parent_generation p c Hc Hp). lia.
Qed.

Lemma reach_between s e m x :
  known s -> known e -> nonempty_sets m -> edges_of s e m ->
  (exists y, y ∈ (if decide (m = ∅) then ∅ else {[with_gen s]} : gset HashGen) /\
     rtc (edge_in m) y (with_gen x)) <-> between s e x.
Proof.
  intros Hs He Hne Hm. pose proof (edges_of_some s e m He Hne Hm) as Hsome. unfold between.
  destruct (decide (m = ∅)) as [Em|Em].
  { split; [set_solver|]. intros (Hg & Hp & _). by apply Hsome in Em. }
  apply Hsome in Em as [Hg Hp]. transitivity (rtc (edge_in m) (with_gen s) (with_gen x)); [set_solver|].
  assert (forall h, rtc (edge_in m) (with_gen s) h -> exists x, h = with_gen x /\
            (x = s \/ (ancestor s x /\ ancestor x e))) as Hfrom.
  { apply rtc_ind_r; [exists s; split; [done|by left]|].
    intros y h _ Hyh (y' & -> & Hy). apply Hm in Hyh as (p & c & Ey & -> & Hpc & Hor).
    injection Ey as -> _. exists c. split; [done|]. right. split.
    - apply (rtc_r _ p _); [|done]. destruct Hy as [->|[? _]]; [apply rtc_refl|done].
    - destruct Hor as [[-> _]|[_ ?]]; [apply rtc_refl|done]. }
  split.
  - intros Hr. destruct (Hfrom _ Hr) as (x' & Ex & Hx). injection Ex as -> _. done.
  - intros (_ & _ & [->|[Ha Hxe]]); [apply rtc_refl|].
    revert x Ha Hxe. refine (rtc_ind_r _ s _ _); [intros _; apply rtc_refl|].
    intros p x Hsp Hpx IH Hxe. assert (known x) as Hx by (by eapply ancestor_known).
    eapply rtc_r; [apply IH; by eapply rtc_l|]. apply Hm. exists p, x.
    split; [done|]. split; [done|]. split; [done|]. right. split; [|done].
    pose proof (parent_generation p x Hx Hpx).
    pose proof (ancestor_generation_le s p ltac:(by eapply parent_known) Hsp). lia.
Qed.

(** ** The output *)

Lemma highest_spec nodes :
  match highest nodes with
  | None => nodes = ∅
  | Some g => is_Some (nodes !! g) /\ forall g', is_Some (nodes !! g') -> (g' <= g)%N
  end.
Proof.
  assert (forall g, is_Some (nodes !! g) <-> g ∈ (map_to_list nodes).*1) as Hd.
  { intros g. rewrite list_elem_of_fmap. split.
    - intros [s Hs]. exists (g, s). split; [done|by apply elem_of_map_to_list].
    - intros ([g' s] & -> & Hs%elem_of_map_to_list). by exists s. }
  unfold highest. pose proof (max_of_list ((map_to_list nodes).*1)) as Hm.
  destruct (max_of _) as [g|].
  - rewrite Hd. split; [apply Hm|]. intros g' Hg'%Hd. by apply Hm.
  - apply fmap_nil_inv in Hm. by apply map_to_list_empty_iff in Hm.
Qed.

Definition output_nodes_of (nodes : gmap Generation (gset ChangesetId)) (x : ChangesetId) : Prop :=
  exists g s, nodes !! g = Some s /\ x ∈ s.

(** A state of stage 2, and its part of the drain. *)
Lemma collect_drained n k a m p nodes d : forall l,
  collect_range n k (mkRange a m p (Some nodes) (Some [])) = Ok l ->
  collect_range (length d + n) k (mkRange a m p (Some nodes) (Some d)) = Ok (d ++ l).
Proof.
  induction d as [|x d IH]; intros l Hl; [done|]. cbn [length Nat.add collect_range].
  unfold range_poll. cbn [drain start_node children pending_nodes output_nodes].
  by rewrite (IH l Hl).
Qed.

Lemma collect_nodes {HL : HashOrderLaws HO} nodes :
  nonempty_sets nodes ->
  (forall g s x, nodes !! g = Some s -> x ∈ s -> generation_of x = g) ->
  exists n0 l, NoDup l /\ descending l /\ (forall x, x ∈ l <-> output_nodes_of nodes x) /\
    forall n k a m p, n0 <= n -> collect_range n k (mkRange a m p (Some nodes) (Some [])) = Ok l.
Proof.
  remember (size nodes) as sz eqn:Esz. revert nodes Esz.
  induction sz as [|sz IH]; intros nodes Esz Hne Hg.
  - symmetry in Esz. apply map_size_empty_iff in Esz as ->. exists 1, [].
    split; [constructor|]. split; [constructor|]. split.
    { intros x. split; [by intros ?%elem_of_nil|]. intros (g & s & Hs & _). by rewrite lookup_empty in Hs. }
    intros [|n] k a m p Hn; [lia|done].
  - pose proof (highest_spec nodes) as Hh. destruct (highest nodes) as [g|] eqn:Eh; [|by subst nodes].
    destruct Hh as [[s Hs] Hmax].
    destruct (IH (delete g nodes)) as (n0 & l & Hnd & Hsort & Hin & Hcol).
    { rewrite map_size_delete, Hs. lia. }
    { intros g' s' Hs'. apply lookup_delete_Some in Hs' as [_ Hs']. by eapply Hne. }
    { intros g' s' x Hs'. apply lookup_delete_Some in Hs' as [_ Hs']. by apply Hg. }
    remember (hash_order s) as d eqn:Eo. assert (forall x, x ∈ d <-> x ∈ s) as Hd.
    { intros x. by rewrite Eo, hash_order_perm, elem_of_elements. }
    assert (forall x y, x ∈ d -> y ∈ l -> (generation_of y < generation_of x)%N) as Hdl.
    { intros x y Hx Hy. apply Hd in Hx. rewrite (Hg _ _ _ Hs Hx).
      apply Hin in Hy as (g' & s' & Hs' & Hy). apply lookup_delete_Some in Hs' as [Hgg Hs'].
      rewrite (Hg _ _ _ Hs' Hy). pose proof (Hmax g' ltac:(by exists s')). lia. }
    exists (S (length d + n0)), (d ++ l). split; [|split; [|split]].
    + apply NoDup_app. split; [rewrite Eo, hash_order_perm; apply NoDup_elements|].
      split; [|done]. intros x Hx Hl. specialize (Hdl x x Hx Hl). lia.
    + assert (forall x, x ∈ d -> generation_of x = g) as Hdg by (intros x Hx%Hd; by apply (Hg g s)).
      clear -Hsort Hdl Hdg. induction d as [|x d IHd]; [exact Hsort|]. simpl. constructor.
      * apply IHd; set_solver.
      * apply Forall_forall. intros y [Hy|Hy]%elem_of_app.
        -- rewrite !Hdg by (by left || by right). done.
        -- pose proof (Hdl x y ltac:(by left) Hy). lia.
    + intros x. rewrite elem_of_app, Hd, Hin. unfold output_nodes_of. split.
      * intros [Hx|(g' & s' & Hs' & Hx)]; [by exists g, s|].
        apply lookup_delete_Some in Hs' as [_ Hs']. by exists g', s'.
      * intros (g' & s' & Hs' & Hx). destruct (decide (g' = g)) as [->|Hgg]; [left; congruence|].
        right. exists g', s'. by rewrite lookup_delete_ne.
    + intros [|n] k a m p Hn; [lia|]. cbn [collect_range]. unfold range_poll, poll_output.
      cbn [drain start_node children pending_nodes output_nodes]. rewrite Eh, Hs.
      change (default ∅ (Some s)) with s.
      rewrite <- Eo. destruct d as [|x d].
      { exfalso. apply (Hne _ _ Hs). apply set_eq. intros x. rewrite <- Hd. set_solver. }
      replace n with (length d + (n - length d)) by (simpl in Hn; lia).
      erewrite collect_drained; [done|]. apply Hcol. simpl in Hn. lia.
Qed.

(** More fuel changes nothing. *)
Lemma walk_back_more sg k : forall k' pend m r,
  k <= k' -> walk_back k sg pend m = Ok r -> walk_back k' sg pend m = Ok r.
Proof.
  induction k as [|k IH]; intros [|k'] pend m r Hk H; [done|done|lia|]. cbn [walk_back] in *.
  destruct (poll_pending pend) as [[[pc|] rest]|e|]; [|done|done|done].
  rewrite bind_Ok in *. apply IH; [lia|done].
Qed.

Lemma walk_forward_more m k : forall k' todo nodes r,
  k <= k' -> walk_forward k m todo nodes = Some r -> walk_forward k' m todo nodes = Some r.
Proof.
  induction k as [|k IH]; intros [|k'] todo nodes r Hk H; [done| |lia|]; cbn [walk_forward] in *;
    (case_decide; [done|]); [done|]. apply IH; [lia|done].
Qed.

(** The first poll of a stream does the walks; after them the stream is in
    stage 2. *)
Lemma range_nodes_stage2 k s e sg m nodes l :
  fetch_generation_of s = Ok sg -> walk_back k sg [PendingEnd e] ∅ = Ok m ->
  build_output_nodes k m s sg = Ok nodes ->
  collect_range k k (mkRange s m [] (Some nodes) (Some [])) = Ok l -> range_nodes k s e = Ok l.
Proof.
  intros Hg Hm Hn Hl. unfold range_nodes. destruct k as [|k]; [done|].
  cbn [collect_range]. cbn [collect_range] in Hl. unfold range_poll, RangeNodeStream_new in *.
  cbn [drain start_node children pending_nodes output_nodes] in *.
  rewrite Hg, bind_Ok, Hm, bind_Ok, Hn, bind_Ok. unfold poll_output in *.
  destruct (highest nodes) as [g|]; [|done]. by destruct (hash_order _).
Qed.

(** Both walks, with any fuel from some bound on. *)
Lemma walks_spec {HL : HashOrderLaws HO} (s e : ChangesetId) :
  known s -> known e ->
  exists n m nodes, (forall k, n <= k -> walk_back k (generation_of s) [PendingEnd e] ∅ = Ok m /\
                                build_output_nodes k m s (generation_of s) = Ok nodes) /\
    nonempty_sets nodes /\
    forall h, in_output nodes h <-> exists x, h = with_gen x /\ between s e x.
Proof.
  intros Hs He. set (n1 := S (total_weight [PendingEnd e])).
  destruct (walk_back_spec (generation_of s) n1 [PendingEnd e] ∅) as (m & Hm & Hne & Hedges);
    [by apply Forall_singleton | unfold n1; lia |].
  specialize (Hne nonempty_sets_empty).
  assert (edges_of s e m) as Hedg.
  { intros p c. rewrite Hedges. unfold any_leads. setoid_rewrite Exists_cons. setoid_rewrite Exists_nil.
    unfold edge_in. setoid_rewrite lookup_empty. naive_solver. }
  set (todo := if decide (m = ∅) then ∅ else {[with_gen s]} : gset HashGen).
  set (n2 := N.to_nat (generation_of e + 1 - 0)).
  destruct (walk_forward_spec m (generation_of e) n2 todo ∅ 0) as (nodes & Hnodes & Hnn & Hout);
    [intros y h; by apply (edge_generation s e) | | done |].
  { intros h Hh. split; [lia|]. unfold todo in Hh. case_decide as Em; [set_solver|].
    apply (edges_of_some s e m He Hne Hedg) in Em as [Hg _]. apply elem_of_singleton in Hh as ->. done. }
  assert (forall h, in_output nodes h <-> exists y, y ∈ todo /\ rtc (edge_in m) y h) as Hin.
  { intros h. rewrite Hout. unfold in_output at 1. rewrite lookup_empty. naive_solver. }
  exists (n1 + n2), m, nodes. split; [|split; [by apply Hnn, nonempty_sets_empty|]].
  { intros k Hk. split; [by apply (walk_back_more _ n1); [lia|]|]. unfold build_output_nodes.
    fold (with_gen s). fold todo. by rewrite (walk_forward_more m n2 k todo ∅ nodes) by (lia || done). }
  intros h. rewrite Hin. split.
  - intros (y & Hy & Hyh). assert (h = with_gen (hash h)) as Eh.
    { unfold todo in Hy. case_decide; [set_solver|]. apply elem_of_singleton in Hy as ->.
      apply rtc_inv_r in Hyh as [<-|(z & _ & Hzh)]; [done|].
      apply Hedg in Hzh as (p & c & _ & -> & _). done. }
    exists (hash h). split; [done|]. apply (reach_between s e m _ Hs He Hne Hedg). rewrite <- Eh. by exists y.
  - intros (x & -> & Hb). by apply (reach_between s e m _ Hs He Hne Hedg) in Hb.
Qed.

Lemma range_nodes_runs {HL : HashOrderLaws HO} (s e : ChangesetId) :
  known s -> known e ->
  exists n0 l, (forall k, n0 <= k -> range_nodes k s e = Ok l) /\ NoDup l /\ descending l /\
    forall x, x ∈ l <-> between s e x.
Proof.
  intros Hs He. destruct (walks_spec s e Hs He) as (n1 & m & nodes & Hw & Hne & Hin).
  assert (forall g cs x, nodes !! g = Some cs -> x ∈ cs -> generation_of x = g /\ between s e x) as Hx.
  { intros g cs x Hcs Hx. destruct (proj1 (Hin (mkHashGen x g)) ltac:(by exists cs)) as (y & E & Hy).
    by injection E as -> ->. }
  destruct (collect_nodes nodes Hne) as (n2 & l & Hnd & Hsort & Hl & Hcol).
  { intros g cs x Hcs Hxc. by destruct (Hx g cs x Hcs Hxc). }
  exists (n1 + n2), l. split; [|split; [done|split; [done|]]].
  - intros k Hk. destruct (Hw k ltac:(lia)) as [Hm Hn].
    eapply range_nodes_stage2; [by apply fetch_generation_of_known|exact Hm|exact Hn|].
    apply Hcol. lia.
  - intros x. rewrite Hl. split.
    + intros (g & cs & Hcs & Hxc). by destruct (Hx g cs x Hcs Hxc).
    + intros Hb. destruct (proj2 (Hin (with_gen x)) ltac:(by exists x)) as (cs & Hcs & Hxc).
      by exists (generation_of x), cs.
Qed.
(** C34. The stream between two stored changesets ends, and gives changesets
    once, in order of falling generation. When the start is an ancestor of
    the end, they are the descendants of the start that are ancestors of the
    end, except that there are none when the end has no parents at all. When
    it is not, there are none if the end has a lower generation, and the start
    alone if it does not. *)
Theorem range_nodes_exact {HL : HashOrderLaws HO} (s e : ChangesetId) :
  known s -> known e ->
  exists n0 l, (forall k, n0 <= k -> range_nodes k s e = Ok l) /\ NoDup l /\ descending l /\
    ((generation_of e < generation_of s)%N \/ parents_of e = [] -> l = []) /\
    ((generation_of s <= generation_of e)%N -> parents_of e <> [] -> ~ ancestor s e -> l = [s]) /\
    (parents_of e <> [] -> ancestor s e -> forall x, x ∈ l <-> ancestor s x /\ ancestor x e).
Proof.
  intros Hs He. destruct (range_nodes_runs s e Hs He) as (n0 & l & Hk & Hnd & Hd & Hl).
  exists n0, l. split; [done|]. split; [done|]. split; [done|]. split; [|split].
  - intros Hno. destruct l as [|x l]; [done|]. destruct (proj1 (Hl x) ltac:(by left)) as (Hg & Hp & _).
    destruct Hno; [lia|done].
  - intros Hg Hp Hna. assert (forall x, x ∈ l <-> x = s) as Hx.
    { intros x. rewrite Hl. unfold between. split; [|naive_solver]. intros (_ & _ & [->|[H1 H2]]); [done|].
      destruct Hna. by transitivity x. }
    destruct l as [|x l]; [by destruct (proj1 (elem_of_nil s) (proj2 (Hx s) eq_refl))|].
    assert (x = s) as -> by (apply Hx; by left). f_equal. destruct l as [|y l]; [done|].
    assert (y = s) as -> by (apply Hx; right; by left). apply NoDup_cons in Hnd as [[]%not_elem_of_cons _]. done.
  - intros Hp Ha x. rewrite Hl. unfold between. split.
    + intros (_ & _ & [->|?]); [by split|done].
    + intros Hx. split; [by apply ancestor_generation_le|]. split; [done|by right].
Qed.
End range.

(** ** An example *)

Definition ex_cs (b : byte) : ChangesetId := mkChangesetId (mkBlake2 [b]).

(** A merge: 4 has the parents 2 and 3, which have the parent 1; 5 is a
    changeset without parents. *)
Definition ex_graph : list (ChangesetId * (list ChangesetId * Generation)) :=
  [(ex_cs x01, ([], 1%N)); (ex_cs x02, ([ex_cs x01], 2%N)); (ex_cs x03, ([ex_cs x01], 2%N));
   (ex_cs x04, ([ex_cs x02; ex_cs x03], 3%N)); (ex_cs x05, ([], 1%N))].

#[local] Instance ex_fetcher : ChangesetFetcher := {|
  get_generation_number c := ok_or (snd <$> hm_get c ex_graph) (ChangesetNotFound c);
  get_parents c := ok_or (fst <$> hm_get c ex_graph) (ChangesetNotFound c) |}.

#[local] Instance ex_laws : FetcherLaws (F := ex_fetcher) (fun c => c ∈ ex_graph.*1).
Proof.
  assert (forall P : ChangesetId -> Prop, Forall P (ex_graph.*1) -> forall c, c ∈ ex_graph.*1 -> P c) as Hall.
  { intros P H c Hc. rewrite Forall_forall in H. auto. }
  assert (forall c, c ∈ ex_graph.*1 -> forall p, p ∈ parents_of c ->
            p ∈ ex_graph.*1 /\ (generation_of p < generation_of c)%N) as Hparents.
  { apply (Hall (fun c => forall p, p ∈ parents_of c -> _)).
    assert (Forall (fun c => Forall (fun p => p ∈ ex_graph.*1 /\ (generation_of p < generation_of c)%N)
              (parents_of c)) (ex_graph.*1)) as H by (apply (bool_decide_unpack _); by vm_compute).
    eapply Forall_impl; [exact H|]. intros c Hc. by apply Forall_forall. }
  split.
  - apply Hall. by repeat constructor.
  - apply Hall. by repeat constructor.
  - intros p c Hc Hp. by apply (Hparents c Hc p Hp).
  - intros p c Hc Hp. by apply (Hparents c Hc p Hp).
Qed.

Lemma range_nodes_exact_witness :
  (exists n0 l, (forall k, n0 <= k -> range_nodes k (ex_cs x02) (ex_cs x04) = Ok l) /\ NoDup l /\ descending l /\
    ((generation_of (ex_cs x04) < generation_of (ex_cs x02))%N \/ parents_of (ex_cs x04) = [] -> l = []) /\
    ((generation_of (ex_cs x02) <= generation_of (ex_cs x04))%N -> parents_of (ex_cs x04) <> [] ->
       ~ ancestor (ex_cs x02) (ex_cs x04) -> l = [ex_cs x02]) /\
    (parents_of (ex_cs x04) <> [] -> ancestor (ex_cs x02) (ex_cs x04) ->
       forall x, x ∈ l <-> ancestor (ex_cs x02) x /\ ancestor x (ex_cs x04))) /\
  range_nodes 20 (ex_cs x02) (ex_cs x04) = Ok [ex_cs x04; ex_cs x02] /\
  range_nodes 20 (ex_cs x05) (ex_cs x04) = Ok [ex_cs x05].
Proof.
  split; [|split; vm_compute; reflexivity].
  apply (range_nodes_exact (known := fun c => c ∈ ex_graph.*1)).
  - right; left.
  - right; right; right; left.
Defined.
