(* ===== verification/Revset.v ===== *)
(** * Streams of changesets

    Model of what the revsets of [src/revset/src] share: the streams of
    [lib.rs], generations on a stream ([add_generations_by_bonsai] of
    [setcommon.rs]), a machine that is polled until its stream ends, and the
    wrapper [ValidateNodeStream] of [validation.rs], which checks the two
    properties every revset promises. *)

From S2P Require Import Prelude Hash Bonsai Graph.

(** ** Streams

    A boxed stream is known by the results of its successive polls, up to the
    end of the stream; [Ready(None)] follows the last one. A stream is not
    polled again after an error or a panic. *)

Inductive event (A : Type) :=
| EvPending
| EvItem (x : A)
| EvError (e : fetch_error)
| EvPanic.
Arguments EvPending {A}.
Arguments EvItem {A} x.
Arguments EvError {A} e.
Arguments EvPanic {A}.

Definition stream (A : Type) := list (event A).

Abbreviation Poll A := (outcome fetch_error (poll (option A))).

Definition poll_stream {A} (s : stream A) : stream A * Poll A :=
  match s with
  | [] => ([], Ok (Ready None))
  | EvPending :: s => (s, Ok NotReady)
  | EvItem x :: s => (s, Ok (Ready (Some x)))
  | EvError e :: s => (s, Err e)
  | EvPanic :: s => (s, Panic)
  end.

(** The items of a stream, and how it ends. *)
Fixpoint items {A} (s : stream A) : list A :=
  match s with
  | EvPending :: s => items s
  | EvItem x :: s => x :: items s
  | _ => []
  end.

Fixpoint ends {A} (s : stream A) : outcome fetch_error unit :=
  match s with
  | [] => Ok tt
  | EvPending :: s => ends s
  | EvItem x :: s => ends s
  | EvError e :: _ => Err e
  | EvPanic :: _ => Panic
  end.

(** [stream::iter_ok]. *)
Definition iter_ok {A} (l : list A) : stream A := EvItem <$> l.

(** [.collect()]. *)
Definition collected {A} (s : stream A) : outcome fetch_error (list A) := _ ← ends s; Ok (items s).

(** [.take(n)]: the stream ends with its [n]-th item. *)
Fixpoint take_stream {A} (n : nat) (s : stream A) : stream A :=
  match n, s with
  | O, _ => []
  | S _, [] => []
  | S n', EvItem x :: s => EvItem x :: take_stream n' s
  | S _, ev :: s => ev :: take_stream n s
  end.

Lemma items_iter_ok {A} (l : list A) : items (iter_ok l) = l.
Proof. induction l as [|x l IH]; [done|]. cbn. f_equal. apply IH. Qed.

Lemma ends_iter_ok {A} (l : list A) : ends (iter_ok l) = Ok tt.
Proof. by induction l. Qed.

Lemma items_take_stream {A} (s : stream A) : forall n, items (take_stream n s) = take n (items s).
Proof.
  induction s as [|ev s IH]; intros [|n]; try done.
  destruct ev; cbn; [apply IH| |done|done]. f_equal. apply IH.
Qed.

Lemma ends_take_stream {A} (s : stream A) : forall n, ends s = Ok tt -> ends (take_stream n s) = Ok tt.
Proof. induction s as [|ev s IH]; intros [|n] Hs; try done. destruct ev; cbn in *; auto. Qed.

(** ** Machines that are polled

    [step] is one iteration of the loop of a [poll] method: the new state,
    and the result when the iteration returns. [run] polls until the stream
    ends; [None] is out of fuel. *)

Section run.
Context {S A : Type} (step : S -> S * option (Poll A)).

Fixpoint poll_loop (k : nat) (s : S) : option (S * Poll A) :=
  match k with
  | 0 => None
  | Datatypes.S k =>
      match step s with
      | (s, None) => poll_loop k s
      | (s, Some r) => Some (s, r)
      end
  end.

Fixpoint run (n k : nat) (s : S) : option (stream A) :=
  match n with
  | 0 => None
  | Datatypes.S n =>
      match poll_loop k s with
      | None => None
      | Some (s, Ok NotReady) => cons EvPending <$> run n k s
      | Some (s, Ok (Ready (Some x))) => cons (EvItem x) <$> run n k s
      | Some (_, Ok (Ready None)) => Some []
      | Some (_, Err e) => Some [EvError e]
      | Some (_, Panic) => Some [EvPanic]
      end
  end.

(** Polling the machine gives this stream, with any fuel from some bound on. *)
Definition runs (s : S) (evs : stream A) : Prop :=
  exists n0, forall n k, n0 <= n -> n0 <= k -> run n k s = Some evs.

(** The outcome of an iteration that had [w] to do and owes [Res0]. *)
Definition next_ok (Inv : S -> Prop) (mu : S -> nat) (Res : S -> stream A -> Prop)
    (w : nat) (Res0 : stream A -> Prop) (next : S * option (Poll A)) : Prop :=
  match next with
  | (s', None) => Inv s' /\ mu s' < w /\ forall evs, Res s' evs -> Res0 evs
  | (s', Some (Ok NotReady)) => Inv s' /\ mu s' < w /\ forall evs, Res s' evs -> Res0 (EvPending :: evs)
  | (s', Some (Ok (Ready (Some x)))) =>
      Inv s' /\ mu s' < w /\ forall evs, Res s' evs -> Res0 (EvItem x :: evs)
  | (_, Some (Ok (Ready None))) => Res0 []
  | (_, Some (Err e)) => Res0 [EvError e]
  | (_, Some Panic) => Res0 [EvPanic]
  end.

Lemma next_ok_weaken Inv mu Res w w' (Res0 Res0' : stream A -> Prop) next :
  w <= w' -> (forall evs, Res0 evs -> Res0' evs) ->
  next_ok Inv mu Res w Res0 next -> next_ok Inv mu Res w' Res0' next.
Proof.
  intros Hw HR. unfold next_ok. destruct next as [s' [[[|[x|]]|e|]|]]; auto;
    intros (H1 & H2 & H3); (split; [done|]); (split; [lia|]); auto.
Qed.

(** A machine whose measure falls in every iteration runs to the end of its
    stream, and the stream is as [Res] says when every iteration keeps to it. *)
Definition step_ok (Inv : S -> Prop) (mu : S -> nat) (Res : S -> stream A -> Prop) (s : S) : Prop :=
  next_ok Inv mu Res (mu s) (Res s) (step s).

Lemma poll_loop_more k : forall k' s r, k <= k' -> poll_loop k s = Some r -> poll_loop k' s = Some r.
Proof.
  induction k as [|k IH]; intros [|k'] s r Hk H; [done|done|lia|]. cbn [poll_loop] in *.
  destruct (step s) as [s' [r'|]]; [done|]. apply IH; [lia|done].
Qed.

Lemma run_more n : forall n' k k' s r, n <= n' -> k <= k' -> run n k s = Some r -> run n' k' s = Some r.
Proof.
  induction n as [|n IH]; intros [|n'] k k' s r Hn Hk H; [done|done|lia|]. cbn [run] in *.
  destruct (poll_loop k s) as [[s' r']|] eqn:E; [|done].
  rewrite (poll_loop_more k k' s _ Hk E).
  destruct r' as [[|[x|]]|e|]; try done;
    apply fmap_Some in H as (l & Hl & ->); by rewrite (IH n' k k' s' l) by (lia || done).
Qed.

Lemma runs_intro n k s evs : run n k s = Some evs -> runs s evs.
Proof. intros H. exists (n + k). intros n' k' Hn Hk. apply (run_more n n' k k'); [lia|lia|done]. Qed.

Lemma runs_steps Inv mu Res :
  (forall s, Inv s -> step_ok Inv mu Res s) ->
  forall s, Inv s -> exists evs, runs s evs /\ Res s evs.
Proof.
  intros Hstep s. remember (mu s) as m eqn:Em. revert s Em.
  induction (lt_wf m) as [m _ IH]. intros s -> Hs. specialize (Hstep s Hs). unfold step_ok, next_ok in Hstep.
  destruct (step s) as [s' [[[|[x|]]|e|]|]] eqn:E.
  - destruct Hstep as (Hs' & Hm & HR). destruct (IH _ Hm s' eq_refl Hs') as (evs & [n0 Hn] & He).
    exists (EvPending :: evs). split; [|by apply HR]. apply (runs_intro (Datatypes.S n0) (Datatypes.S n0)).
    cbn [run poll_loop]. rewrite E. by rewrite Hn by lia.
  - destruct Hstep as (Hs' & Hm & HR). destruct (IH _ Hm s' eq_refl Hs') as (evs & [n0 Hn] & He).
    exists (EvItem x :: evs). split; [|by apply HR]. apply (runs_intro (Datatypes.S n0) (Datatypes.S n0)).
    cbn [run poll_loop]. rewrite E. by rewrite Hn by lia.
  - exists []. split; [|done]. apply (runs_intro 1 1). cbn [run poll_loop]. by rewrite E.
  - exists [EvError e]. split; [|done]. apply (runs_intro 1 1). cbn [run poll_loop]. by rewrite E.
  - exists [EvPanic]. split; [|done]. apply (runs_intro 1 1). cbn [run poll_loop]. by rewrite E.
  - destruct Hstep as (Hs' & Hm & HR). destruct (IH _ Hm s' eq_refl Hs') as (evs & [n0 Hn] & He).
    exists evs. split; [|by apply HR]. exists (Datatypes.S n0). intros [|n] [|k] Hn1 Hk1; try lia.
    specialize (Hn (Datatypes.S n) k ltac:(lia) ltac:(lia)). cbn [run poll_loop] in *. rewrite E.
    destruct (poll_loop k s') as [[s'' r]|] eqn:E'; [|done].
    destruct r as [[|[x|]]|e|]; try done;
      apply fmap_Some in Hn as (l & Hl & ->); by rewrite (run_more n n k (Datatypes.S k) _ l) by (lia || done).
Qed.
End run.

(** ** Generations on a stream *)

Section revset.
Context {F : ChangesetFetcher}.

Definition add_generation (c : ChangesetId) : event (ChangesetId * Generation) :=
  match get_generation_number c with
  | Ok gen_id => EvItem (c, gen_id)
  | Err e => EvError (GenerationFetchFailed e)
  | Panic => EvPanic
  end.

Definition add_generations_by_bonsai (s : stream ChangesetId) : stream (ChangesetId * Generation) :=
  (fun ev => match ev with
             | EvPending => EvPending
             | EvItem c => add_generation c
             | EvError e => EvError e
             | EvPanic => EvPanic
             end) <$> s.

Definition with_generations (l : list ChangesetId) : list (ChangesetId * Generation) :=
  (fun c => (c, generation_of c)) <$> l.

(** What a revset promises: no changeset twice, and falling generations. *)
Definition revset (l : list ChangesetId) : Prop := NoDup l /\ descending l.

Lemma revset_nil : revset [].
Proof. split; constructor. Qed.

Lemma revset_cons x l :
  revset (x :: l) <->
  (x ∉ l) /\ (forall y, y ∈ l -> (generation_of y <= generation_of x)%N) /\ revset l.
Proof.
  unfold revset, descending. rewrite NoDup_cons. split.
  - intros [[Hx Hn] Hs]. apply StronglySorted_inv in Hs as [Hs Hall]. rewrite Forall_forall in Hall. done.
  - intros (Hx & Hall & Hn & Hs). split; [done|]. constructor; [done|]. by apply Forall_forall.
Qed.

(** ** [ValidateNodeStream] *)

Record ValidateNodeStream := mkValidate {
  wrapped : stream (ChangesetId * Generation);
  last_generation : option Generation;
  seen_hashes : gset ChangesetId
}.

Definition ValidateNodeStream_new (s : stream ChangesetId) : ValidateNodeStream :=
  mkValidate (add_generations_by_bonsai s) None ∅.

Definition validate_step (v : ValidateNodeStream) : ValidateNodeStream * option (Poll ChangesetId) :=
  match poll_stream (wrapped v) with
  | (w, Err e) => (mkValidate w (last_generation v) (seen_hashes v), Some (Err e))
  | (w, Panic) => (mkValidate w (last_generation v) (seen_hashes v), Some Panic)
  | (w, Ok NotReady) => (mkValidate w (last_generation v) (seen_hashes v), Some (Ok NotReady))
  | (w, Ok (Ready None)) => (mkValidate w (last_generation v) (seen_hashes v), Some (Ok (Ready None)))
  | (w, Ok (Ready (Some (hash, gen)))) =>
      if decide (hash ∈ seen_hashes v) then
        (mkValidate w (last_generation v) (seen_hashes v), Some Panic)
      else
        let seen := {[hash]} ∪ seen_hashes v in
        if match last_generation v with None => true | Some last => (gen <=? last)%N end then
          (mkValidate w (Some gen) seen, Some (Ok (Ready (Some hash))))
        else (mkValidate w (last_generation v) seen, Some Panic)
  end.

Context {known : ChangesetId -> Prop} {L : FetcherLaws known}.

Lemma add_generations_known s :
  Forall known (items s) ->
  items (add_generations_by_bonsai s) = with_generations (items s) /\
  ends (add_generations_by_bonsai s) = ends s.
Proof using L.
  unfold add_generations_by_bonsai.
  induction s as [|ev s IH]; intros Hs; [done|]. destruct ev as [|c|e|]; [by apply IH| |done|done].
  apply Forall_cons in Hs as [Hc Hs]. rewrite fmap_cons. unfold add_generation at 1 3.
  rewrite fetch_generation by done. cbn [items ends]. destruct (IH Hs) as [-> ->]. done.
Qed.

(** What a validator in this state accepts. *)
Definition accepts (v : ValidateNodeStream) (l : list ChangesetId) : Prop :=
  revset l /\ forall x, x ∈ l -> (x ∉ seen_hashes v) /\
    forall g, last_generation v = Some g -> (generation_of x <= g)%N.

Lemma accepts_cons v w x l :
  accepts v (x :: l) <->
  (x ∉ seen_hashes v) /\ (forall g, last_generation v = Some g -> (generation_of x <= g)%N) /\
  accepts (mkValidate w (Some (generation_of x)) ({[x]} ∪ seen_hashes v)) l.
Proof.
  unfold accepts. rewrite revset_cons. cbn [seen_hashes last_generation]. split.
  - intros [(Hx & Hl & Hr) Hall]. destruct (Hall x ltac:(by left)) as [Hxs Hxg].
    split; [done|]. split; [done|]. split; [done|]. intros y Hy.
    destruct (Hall y ltac:(by right)) as [Hys _]. split; [set_solver|].
    intros g [= <-]. by apply Hl.
  - intros (Hx & Hg & Hr & Hall). split.
    + split; [|split; [|done]].
      * intros Hxl. destruct (Hall x Hxl) as [Hn _]. set_solver.
      * intros y Hy. by apply (Hall y Hy).
    + intros y [->|Hy]%elem_of_cons; [done|]. destruct (Hall y Hy) as [Hn Hle].
      split; [set_solver|]. intros g Hlast. specialize (Hle _ eq_refl). specialize (Hg g Hlast). lia.
Qed.

Definition validate_inv (v : ValidateNodeStream) : Prop := exists R, items (wrapped v) = with_generations R.

Definition validated (v : ValidateNodeStream) (evs : stream ChangesetId) : Prop :=
  forall R, items (wrapped v) = with_generations R ->
    (accepts v R -> items evs = R /\ ends evs = ends (wrapped v)) /\
    (~ accepts v R -> ends evs = Panic) /\
    items evs `prefix_of` R /\ accepts v (items evs).

Lemma with_generations_nil l : with_generations l = [] -> l = [].
Proof. apply fmap_nil_inv. Qed.

Lemma with_generations_inj l l' : with_generations l = with_generations l' -> l = l'.
Proof.
  intros H. apply (f_equal (fmap fst)) in H. unfold with_generations in H.
  rewrite <- !list_fmap_compose in H. by rewrite !list_fmap_id in H.
Qed.

Lemma with_generations_cons l x g r :
  with_generations l = (x, g) :: r -> exists l', l = x :: l' /\ g = generation_of x /\ r = with_generations l'.
Proof. destruct l as [|y l]; [done|]. intros [= <- <- <-]. eauto. Qed.

Lemma accepts_nil v : accepts v [].
Proof. split; [apply revset_nil|]. set_solver. Qed.

Lemma validated_end v evs :
  items (wrapped v) = [] -> items evs = [] -> ends evs = ends (wrapped v) -> validated v evs.
Proof.
  intros Hw He Hends R HR. rewrite Hw in HR. symmetry in HR. apply with_generations_nil in HR as ->.
  rewrite He. split; [done|]. split; [|split; [done|apply accepts_nil]]. intros Hn. destruct Hn. apply accepts_nil.
Qed.

Lemma validate_refused v x l g w evs :
  items (wrapped v) = (x, g) :: w -> (~ accepts v (x :: l)) -> evs = [EvPanic] ->
  (forall R, items (wrapped v) = with_generations R -> R = x :: l) -> validated v evs.
Proof.
  intros Hw Hn -> HR R E. apply HR in E as ->. split; [done|]. split; [done|].
  split; [apply prefix_nil|apply accepts_nil].
Qed.

Lemma validate_step_ok v : validate_inv v -> step_ok validate_step validate_inv (fun v => length (wrapped v)) validated v.
Proof.
  intros [R HR]. unfold step_ok, next_ok, validate_step. destruct v as [w last seen]. cbn [wrapped last_generation seen_hashes] in *.
  destruct w as [|[|[x g]|e|] w]; cbn [poll_stream items length] in *.
  - by apply validated_end.
  - split; [by exists R|]. split; [simpl; lia|]. intros evs Hevs R' HR'. by apply Hevs.
  - destruct (with_generations_cons R x g (items w) ltac:(done)) as (R' & -> & -> & Hw).
    assert (forall R0, (x, generation_of x) :: items w = with_generations R0 -> R0 = x :: R') as Huniq.
    { intros R0 E. apply with_generations_inj. rewrite <- E, Hw. done. }
    case_decide as Hx.
    { eapply (validate_refused _ x R'); [done| |done|exact Huniq]. rewrite (accepts_cons _ []). by intros [? _]. }
    destruct (match last with Some _ => _ | None => _ end) eqn:Elast.
    2: { eapply (validate_refused _ x R'); [done| |done|exact Huniq]. rewrite (accepts_cons _ []). intros (_ & Hg & _).
         destruct last as [g|]; [|done]. specialize (Hg g eq_refl). apply N.leb_nle in Elast. lia. }
    split; [by exists R'|]. split; [simpl; lia|]. intros evs Hevs R0 E%Huniq. subst R0.
    destruct (Hevs R' Hw) as (H1 & H2 & H3 & H4). cbn [items ends].
    assert (forall l, accepts (mkValidate (EvItem (x, generation_of x) :: w) last seen) (x :: l) <->
              accepts (mkValidate w (Some (generation_of x)) ({[x]} ∪ seen)) l) as Hacc.
    { intros l. rewrite (accepts_cons _ w). cbn [seen_hashes last_generation]. split; [by intros (_ & _ & ?)|].
      intros Hl. split; [done|]. split; [|done]. intros g ->. by apply N.leb_le. }
    rewrite !Hacc. split; [|split; [done|split; [by apply prefix_cons|done]]].
    intros Ha. destruct (H1 Ha) as [-> ?]. done.
  - by apply validated_end.
  - by apply validated_end.
Qed.

(** The validator passes on a stream of stored changesets unchanged when
    it is a revset; otherwise it panics, after items that do form a revset. *)
Theorem validate_exact (s : stream ChangesetId) :
  Forall known (items s) ->
  exists evs, runs validate_step (ValidateNodeStream_new s) evs /\
    (revset (items s) -> items evs = items s /\ ends evs = ends s) /\
    (~ revset (items s) -> ends evs = Panic) /\
    items evs `prefix_of` items s /\ revset (items evs).
Proof.
  intros Hs. destruct (add_generations_known s Hs) as [Hi He].
  destruct (runs_steps validate_step validate_inv (fun v => length (wrapped v)) validated
    validate_step_ok (ValidateNodeStream_new s)) as (evs & Hrun & Hres); [by exists (items s)|].
  exists evs. split; [done|]. destruct (Hres (items s) Hi) as (H1 & H2 & H3 & H4). cbn [wrapped] in *.
  assert (forall l, accepts (ValidateNodeStream_new s) l <-> revset l) as Hacc.
  { intros l. unfold accepts. cbn [seen_hashes last_generation]. split; [by intros [? _]|].
    intros Hl. split; [done|]. set_solver. }
  rewrite !Hacc in *. rewrite <- He. done.
Qed.
End revset.
