(* ===== verification/SetCommon.v ===== *)
(** * What the set operations on revsets share

    Model of [src/revset/src/setcommon.rs]: the inputs of a set operation,
    each a stream with the result of its last poll. An operation consumes such
    a result by putting [NotReady] in its place. *)

From S2P Require Import Prelude Hash Bonsai Graph Revset.

(** [(BonsaiInputStream, Poll<Option<(ChangesetId, Generation)>, Error>)]. *)
Record Input := mkInput {
  in_stream : stream (ChangesetId * Generation);
  in_state : Poll (ChangesetId * Generation)
}.

Definition ready (st : Poll (ChangesetId * Generation)) : bool :=
  match st with Ok (Ready _) => true | _ => false end.

Definition all_inputs_ready (inputs : list Input) : bool :=
  forallb (fun i => ready (in_state i)) inputs.

Definition poll_input (i : Input) : Input :=
  match in_state i with
  | Ok NotReady => let '(s, st) := poll_stream (in_stream i) in mkInput s st
  | _ => i
  end.

(** When a poll panics, so does the operation: the state [Panic]. *)
Definition poll_all_inputs (inputs : list Input) : list Input := poll_input <$> inputs.

Definition any_panic (inputs : list Input) : bool := existsb (fun i => is_panic (in_state i)) inputs.

(** The [find] of the first input that is in an error. *)
Fixpoint first_error (inputs : list Input) : option fetch_error :=
  match inputs with
  | [] => None
  | i :: inputs => match in_state i with Err e => Some e | _ => first_error inputs end
  end.

(** The input has come to its end. *)
Definition finished (i : Input) : bool :=
  match in_state i with Ok (Ready None) => true | _ => false end.

(** The generations of the items that wait; all inputs are expected to be
    ready. *)
Fixpoint ready_generations (inputs : list Input) : outcome fetch_error (list Generation) :=
  match inputs with
  | [] => Ok []
  | i :: inputs =>
      match in_state i with
      | Ok (Ready (Some (_, gen_id))) => cons gen_id <$> ready_generations inputs
      | Ok NotReady => Panic
      | _ => ready_generations inputs
      end
  end.

(** The inputs of a new operation. *)
Definition new_inputs {F : ChangesetFetcher} (inputs : list (stream ChangesetId)) : list Input :=
  (fun i => mkInput (add_generations_by_bonsai i) (Ok NotReady)) <$> inputs.

(** ** What is left of an input *)

Definition left_of (i : Input) : stream (ChangesetId * Generation) :=
  match in_state i with
  | Ok NotReady => in_stream i
  | Ok (Ready None) => []
  | Ok (Ready (Some x)) => EvItem x :: in_stream i
  | Err e => [EvError e]
  | Panic => [EvPanic]
  end.

(** The two inputs have the same future. *)
Definition same_left (i i' : Input) : Prop :=
  items (left_of i) = items (left_of i') /\ ends (left_of i) = ends (left_of i').

#[export] Instance same_left_equiv : Equivalence same_left.
Proof.
  split.
  - by intros i.
  - intros i i' [H1 H2]. by split.
  - intros i j k [H1 H2] [H3 H4]. split; congruence.
Qed.

Lemma poll_input_same i : same_left i (poll_input i).
Proof.
  unfold poll_input, same_left, left_of. destruct i as [s st]. cbn [in_state in_stream].
  destruct st as [[|[x|]]|e|]; try done. by destruct s as [|[|x|e|] s].
Qed.

Lemma poll_all_inputs_same inputs : Forall2 same_left inputs (poll_all_inputs inputs).
Proof. induction inputs as [|i l IH]; cbn; constructor; [apply poll_input_same|exact IH]. Qed.

Lemma finished_left i : finished i = true -> left_of i = [].
Proof. unfold finished, left_of. by destruct (in_state i) as [[|[x|]]|e|]. Qed.

(** An item that waits. *)
Definition waits_with (l : list Input) (g : Generation) (c : ChangesetId) : Prop :=
  exists i, i ∈ l /\ in_state i = Ok (Ready (Some (c, g))).

Lemma waits_with_cons i l g c :
  waits_with (i :: l) g c <-> in_state i = Ok (Ready (Some (c, g))) \/ waits_with l g c.
Proof. unfold waits_with. setoid_rewrite elem_of_cons. naive_solver. Qed.

(** How much there is left to do for an input. *)
Definition input_weight (i : Input) : nat :=
  10 * length (in_stream i) + match in_state i with Ok (Ready (Some _)) => 8 | _ => 0 end.

Definition inputs_weight (inputs : list Input) : nat := sum_list_with input_weight inputs.

Lemma poll_input_weight i :
  input_weight (poll_input i) <= input_weight i /\
  (in_state (poll_input i) = Ok NotReady -> input_weight (poll_input i) < input_weight i).
Proof.
  unfold poll_input, input_weight. destruct i as [s st]. cbn [in_state in_stream].
  destruct st as [[|[x|]]|e|]; cbn [in_state in_stream]; try (split; [lia|done]).
  destruct s as [|[|x|e|] s]; cbn; (split; [lia|]); (done || lia).
Qed.

Lemma poll_all_weight inputs :
  inputs_weight (poll_all_inputs inputs) <= inputs_weight inputs /\
  (Exists (fun i => in_state i = Ok NotReady) (poll_all_inputs inputs) ->
   inputs_weight (poll_all_inputs inputs) < inputs_weight inputs).
Proof.
  unfold inputs_weight, poll_all_inputs.
  induction inputs as [|i l [IH1 IH2]]; [split; [done|by intros ?%Exists_nil]|].
  rewrite fmap_cons. cbn [sum_list_with]. destruct (poll_input_weight i) as [Hw1 Hw2].
  split; [lia|]. intros [H|H]%Exists_cons; [specialize (Hw2 H)|specialize (IH2 H)]; lia.
Qed.

(** An input state that is neither an error nor a panic nor waiting. *)
Lemma not_all_ready inputs :
  any_panic inputs = false -> first_error inputs = None -> all_inputs_ready inputs = false ->
  Exists (fun i => in_state i = Ok NotReady) inputs.
Proof.
  induction inputs as [|i l IH]; cbn; [done|]. intros [Hp1 Hp2]%orb_false_iff He [Hr|Hr]%andb_false_iff.
  - left. destruct (in_state i) as [[|[x|]]|e|]; done.
  - right. apply IH; [done| |done]. by destruct (in_state i).
Qed.

Lemma all_ready_state inputs i :
  all_inputs_ready inputs = true -> i ∈ inputs -> exists o, in_state i = Ok (Ready o).
Proof.
  unfold all_inputs_ready. rewrite forallb_forall. intros H Hi. specialize (H i).
  rewrite <- list_elem_of_In in H. specialize (H Hi). destruct (in_state i) as [[|o]|e|]; eauto; done.
Qed.

Lemma first_error_Some inputs e :
  first_error inputs = Some e -> exists i, i ∈ inputs /\ in_state i = Err e.
Proof.
  induction inputs as [|i l IH]; cbn; [done|]. destruct (in_state i) eqn:E;
    [intros H|intros [= ->]|intros H]; try (destruct (IH H) as (j & Hj & ?); exists j; split; [by right|done]).
  exists i. split; [by left|done].
Qed.

Lemma first_error_None inputs i e : first_error inputs = None -> i ∈ inputs -> in_state i <> Err e.
Proof.
  induction inputs as [|j l IH]; intros Hn Hi; [by apply elem_of_nil in Hi|]. cbn in Hn.
  apply elem_of_cons in Hi as [->|Hi]; [intros E; by rewrite E in Hn|].
  apply IH; [|done]. by destruct (in_state j).
Qed.

Lemma ready_generations_spec inputs :
  all_inputs_ready inputs = true ->
  exists gens, ready_generations inputs = Ok gens /\
    forall g, g ∈ gens <-> exists i c, i ∈ inputs /\ in_state i = Ok (Ready (Some (c, g))).
Proof.
  induction inputs as [|i l IH]; intros Hr.
  { exists []. split; [done|]. set_solver. }
  cbn in Hr. apply andb_true_iff in Hr as [Hr1 Hr2]. destruct (IH Hr2) as (gens & HG & Hgens).
  cbn [ready_generations]. destruct (in_state i) as [[|[[c g]|]]|e|] eqn:E; try done.
  - exists (g :: gens). rewrite HG. split; [done|]. intros g'. rewrite elem_of_cons, Hgens. split.
    + intros [->|(j & d & Hj & Ej)]; [exists i, c; split; [by left|done]|exists j, d; split; [by right|done]].
    + intros (j & d & [->|Hj]%elem_of_cons & Ej); [left; congruence|right; eauto].
  - exists gens. split; [done|]. intros g'. rewrite Hgens. split.
    + intros (j & d & Hj & Ej). exists j, d. split; [by right|done].
    + intros (j & d & [->|Hj]%elem_of_cons & Ej); [congruence|eauto].
Qed.

(** What is to come from all of them, and how they end. *)
Definition holds (i : Input) (c : ChangesetId) : Prop := c ∈ (items (left_of i)).*1.

Definition any_holds (l : list Input) (c : ChangesetId) : Prop := exists i, i ∈ l /\ holds i c.
Definition all_end (l : list Input) : Prop := forall i, i ∈ l -> ends (left_of i) = Ok tt.
Definition any_fail (l : list Input) (e : fetch_error) : Prop :=
  exists i, i ∈ l /\ ends (left_of i) = Err e.

Record same_inputs (l l' : list Input) : Prop := {
  same_holds c : any_holds l c <-> any_holds l' c;
  same_end : all_end l <-> all_end l';
  same_fail e : any_fail l e <-> any_fail l' e
}.

Lemma holds_same i i' c : same_left i i' -> holds i c <-> holds i' c.
Proof. unfold same_left, holds. by intros [-> _]. Qed.

Lemma input_finished i c : in_state i = Ok (Ready None) -> ~ holds i c.
Proof. unfold holds, left_of. intros ->. apply not_elem_of_nil. Qed.

Lemma any_holds_cons i l c : any_holds (i :: l) c <-> holds i c \/ any_holds l c.
Proof. unfold any_holds. setoid_rewrite elem_of_cons. naive_solver. Qed.

Lemma all_end_cons i l : all_end (i :: l) <-> ends (left_of i) = Ok tt /\ all_end l.
Proof. unfold all_end. setoid_rewrite elem_of_cons. naive_solver. Qed.

Lemma any_fail_cons i l e : any_fail (i :: l) e <-> ends (left_of i) = Err e \/ any_fail l e.
Proof. unfold any_fail. setoid_rewrite elem_of_cons. naive_solver. Qed.

Lemma Forall2_elem_of_l' {A B} (P : A -> B -> Prop) l l' x :
  Forall2 P l l' -> x ∈ l -> exists y, y ∈ l' /\ P x y.
Proof.
  induction 1 as [|a b l l' Hab _ IH]; intros Hx; [by apply elem_of_nil in Hx|].
  apply elem_of_cons in Hx as [->|Hx]; [exists b; split; [by left|done]|].
  destruct (IH Hx) as (y & ? & ?). exists y. split; [by right|done].
Qed.

Lemma same_left_inputs l l' : Forall2 same_left l l' -> same_inputs l l'.
Proof.
  induction 1 as [|i i' l l' Hi _ [IH1 IH2 IH3]]; [by split|]. split.
  - intros c. rewrite !any_holds_cons, IH1. by rewrite (holds_same i i' c Hi).
  - rewrite !all_end_cons, IH2. by destruct Hi as [_ ->].
  - intros e. rewrite !any_fail_cons, IH3. by destruct Hi as [_ ->].
Qed.

Lemma poll_all_ready l i o : i ∈ l -> in_state i = Ok (Ready o) -> i ∈ poll_all_inputs l.
Proof.
  intros Hi E. apply list_elem_of_fmap. exists i. split; [|done]. unfold poll_input. by rewrite E.
Qed.

(** ** Inputs in order *)

Section order.
Context {F : ChangesetFetcher}.

Definition input_ok (i : Input) : Prop :=
  exists R, items (left_of i) = with_generations R /\ descending R /\ ends (left_of i) <> Panic.

Lemma input_ok_same i i' : same_left i i' -> input_ok i -> input_ok i'.
Proof. unfold same_left, input_ok. by intros [-> ->]. Qed.

(** The item that waits is one of the highest to come. *)
Lemma input_ready i c g :
  input_ok i -> in_state i = Ok (Ready (Some (c, g))) ->
  g = generation_of c /\ input_ok (mkInput (in_stream i) (Ok NotReady)) /\
  forall d, holds i d <-> d = c \/ holds (mkInput (in_stream i) (Ok NotReady)) d /\ (generation_of d <= g)%N.
Proof.
  intros (R & HR & Hd & He) E. unfold left_of in *. rewrite E in *. cbn [items ends] in *.
  destruct (with_generations_cons R c g (items (in_stream i)) ltac:(done)) as (R' & -> & -> & HR').
  apply StronglySorted_inv in Hd as [Hd Hall]. rewrite Forall_forall in Hall.
  split; [done|]. split; [exists R'; split; [done|]; by split|].
  intros d. unfold holds, left_of. rewrite E. cbn [in_state in_stream items].
  rewrite fmap_cons, elem_of_cons. cbn [fst]. split; [|naive_solver].
  intros [->|Hd']; [by left|]. right. split; [done|]. apply Hall.
  rewrite HR' in Hd'. unfold with_generations in Hd'. rewrite <- list_fmap_compose in Hd'.
  by rewrite list_fmap_id in Hd'.
Qed.

Lemma no_panic inputs : Forall input_ok inputs -> any_panic inputs = false.
Proof.
  induction 1 as [|i l (R & _ & _ & Hi) _ IH]; [done|]. unfold any_panic in *. cbn [existsb]. rewrite IH, orb_false_r.
  unfold left_of in Hi. by destruct (in_state i).
Qed.

Lemma Forall_input_same inputs inputs' :
  Forall2 same_left inputs inputs' -> Forall input_ok inputs -> Forall input_ok inputs'.
Proof. induction 1; intros Hall; [done|]. apply Forall_cons in Hall as [? ?]. constructor; [by eapply input_ok_same|auto]. Qed.

(** The inputs made of streams of stored changesets in order. *)
Context {known : ChangesetId -> Prop} {L : FetcherLaws known}.

Definition good_input (s : stream ChangesetId) : Prop :=
  Forall known (items s) /\ descending (items s) /\ ends s <> Panic.

Lemma new_input_ok s :
  good_input s ->
  let i := mkInput (add_generations_by_bonsai s) (Ok NotReady) in
  input_ok i /\ ends (left_of i) = ends s /\ forall c, holds i c <-> c ∈ items s.
Proof using L.
  intros (Hk & Hd & He). cbv zeta. destruct (add_generations_known s Hk) as [Hi Hs].
  unfold input_ok, holds, left_of. cbn [in_state in_stream]. rewrite Hi, Hs.
  split; [by exists (items s)|]. split; [done|]. intros c.
  unfold with_generations. rewrite <- list_fmap_compose. by rewrite list_fmap_id.
Qed.

Lemma new_inputs_ok ss : Forall good_input ss -> Forall input_ok (new_inputs ss).
Proof using L.
  intros H. apply Forall_fmap. eapply Forall_impl; [exact H|]. intros s Hs. by apply new_input_ok.
Qed.

Lemma new_any_holds ss c :
  Forall good_input ss -> any_holds (new_inputs ss) c <-> exists s, s ∈ ss /\ c ∈ items s.
Proof using L.
  intros H. rewrite Forall_forall in H. unfold any_holds, new_inputs. split.
  - intros (i & (s & -> & Hs)%list_elem_of_fmap & Hc). exists s. split; [done|]. by apply (new_input_ok s (H s Hs)).
  - intros (s & Hs & Hc). eexists. split; [apply list_elem_of_fmap; by exists s|]. by apply (new_input_ok s (H s Hs)).
Qed.

Lemma new_all_hold ss c :
  Forall good_input ss -> (forall i, i ∈ new_inputs ss -> holds i c) <-> forall s, s ∈ ss -> c ∈ items s.
Proof using L.
  intros H. rewrite Forall_forall in H. unfold new_inputs. split.
  - intros Hall s Hs. apply (new_input_ok s (H s Hs)), Hall, list_elem_of_fmap. by exists s.
  - intros Hall i (s & -> & Hs)%list_elem_of_fmap. apply (new_input_ok s (H s Hs)). by apply Hall.
Qed.

Lemma new_all_end ss :
  Forall good_input ss -> all_end (new_inputs ss) <-> forall s, s ∈ ss -> ends s = Ok tt.
Proof using L.
  intros H. rewrite Forall_forall in H. unfold all_end, new_inputs. split.
  - intros Hall s Hs. destruct (new_input_ok s (H s Hs)) as (_ & <- & _). apply Hall, list_elem_of_fmap. by exists s.
  - intros Hall i (s & -> & Hs)%list_elem_of_fmap. destruct (new_input_ok s (H s Hs)) as (_ & -> & _). by apply Hall.
Qed.

Lemma new_any_fail ss e :
  Forall good_input ss -> any_fail (new_inputs ss) e <-> exists s, s ∈ ss /\ ends s = Err e.
Proof using L.
  intros H. rewrite Forall_forall in H. unfold any_fail, new_inputs. split.
  - intros (i & (s & -> & Hs)%list_elem_of_fmap & He). exists s. split; [done|].
    by destruct (new_input_ok s (H s Hs)) as (_ & <- & _).
  - intros (s & Hs & He). eexists. split; [apply list_elem_of_fmap; by exists s|].
    by destruct (new_input_ok s (H s Hs)) as (_ & -> & _).
Qed.
End order.
