(* ===== verification/UnionStream.v ===== *)
(** * Unions of revsets

    Model of [UnionNodeStream] of [src/revset/src/unionnodestream.rs]: the
    union is put together one generation at a time, from the highest down. *)

From S2P Require Import Prelude Hash Bonsai Graph Revset SetCommon.

Record UnionNodeStream := mkUnion {
  inputs : list Input;
  current_generation : option Generation;
  accumulator : gset ChangesetId;
  drain : option (list ChangesetId)
}.

Section union.
Context {F : ChangesetFetcher} {HO : HashOrder}.

Definition UnionNodeStream_new (ss : list (stream ChangesetId)) : UnionNodeStream :=
  mkUnion (new_inputs ss) None ∅ None.

Definition gc_finished_inputs (inputs : list Input) : list Input :=
  List.filter (fun i => negb (finished i)) inputs.

Definition update_current_generation (s : UnionNodeStream) : outcome fetch_error UnionNodeStream :=
  if all_inputs_ready (inputs s) then
    gens ← ready_generations (inputs s);
    Ok (mkUnion (inputs s) (max_of gens) (accumulator s) (drain s))
  else Ok s.

(** The loop of [accumulate_nodes], with [found_csids]. *)
Fixpoint accumulate_loop (current : option Generation) (inputs : list Input) (acc : gset ChangesetId)
    : bool * list Input * gset ChangesetId :=
  match inputs with
  | [] => (false, [], acc)
  | i :: inputs =>
      match in_state i with
      | Ok (Ready (Some (csid, gen_id))) =>
          if decide (Some gen_id = current) then
            let '(_, l, acc) := accumulate_loop current inputs ({[csid]} ∪ acc) in
            (true, mkInput (in_stream i) (Ok NotReady) :: l, acc)
          else let '(found, l, acc) := accumulate_loop current inputs acc in (found, i :: l, acc)
      | _ => let '(found, l, acc) := accumulate_loop current inputs acc in (found, i :: l, acc)
      end
  end.

Definition accumulate_nodes (s : UnionNodeStream) : UnionNodeStream :=
  let '(found_csids, l, acc) := accumulate_loop (current_generation s) (inputs s) (accumulator s) in
  mkUnion l (if found_csids then current_generation s else None) acc (drain s).

(** The [match] on [current_generation]. *)
Definition advance (s : UnionNodeStream) : outcome fetch_error UnionNodeStream :=
  match current_generation s with
  | None =>
      if decide (accumulator s = ∅) then update_current_generation s
      else Ok (mkUnion (inputs s) None ∅ (Some (hash_order (accumulator s))))
  | Some _ => Ok (accumulate_nodes s)
  end.

Definition union_done (s : UnionNodeStream) : bool :=
  match inputs s, drain s with
  | [], None => bool_decide (accumulator s = ∅)
  | _, _ => false
  end.

(** The iteration from the check for errors on; the drain is empty. *)
Definition union_rest (s : UnionNodeStream) : UnionNodeStream * option (Poll ChangesetId) :=
  match first_error (inputs s) with
  | Some e => (mkUnion [] (current_generation s) (accumulator s) (drain s), Some (Err e))
  | None =>
      let s := mkUnion (gc_finished_inputs (inputs s)) (current_generation s) (accumulator s) (drain s) in
      if all_inputs_ready (inputs s) then
        match advance s with
        | Ok s => (s, if union_done s then Some (Ok (Ready None)) else None)
        | Err e => (s, Some (Err e))
        | Panic => (s, Some Panic)
        end
      else (s, Some (Ok NotReady))
  end.

Definition union_step (s : UnionNodeStream) : UnionNodeStream * option (Poll ChangesetId) :=
  let polled := poll_all_inputs (inputs s) in
  if any_panic polled then (mkUnion polled (current_generation s) (accumulator s) (drain s), Some Panic)
  else match drain s with
  | Some (x :: d) =>
      (mkUnion polled (current_generation s) (accumulator s) (Some d), Some (Ok (Ready (Some x))))
  | _ => union_rest (mkUnion polled (current_generation s) (accumulator s) None)
  end.

(** ** What is still to come *)

Definition drained (s : UnionNodeStream) : list ChangesetId := default [] (drain s).

Definition content (s : UnionNodeStream) (c : ChangesetId) : Prop :=
  c ∈ drained s \/ c ∈ accumulator s \/ any_holds (inputs s) c.

(** [drain] and [accumulator] hold changesets of one generation, above what
    is to come. While there is a current generation nothing is above it. *)
Record union_inv (s : UnionNodeStream) : Prop := {
  inv_inputs : Forall input_ok (inputs s);
  inv_drain : NoDup (drained s);
  inv_phase : drained s = [] \/ (accumulator s = ∅ /\ current_generation s = None);
  inv_current g : current_generation s = Some g ->
    (forall c, any_holds (inputs s) c -> (generation_of c <= g)%N) /\
    (forall c, c ∈ accumulator s -> generation_of c = g) /\
    (accumulator s = ∅ -> exists i c, i ∈ inputs s /\ in_state i = Ok (Ready (Some (c, g))));
  inv_collected x : current_generation s = None -> x ∈ drained s \/ x ∈ accumulator s ->
    (forall c, any_holds (inputs s) c -> (generation_of c < generation_of x)%N) /\
    forall c, c ∈ drained s \/ c ∈ accumulator s -> generation_of c = generation_of x
}.

Definition phase_weight (s : UnionNodeStream) : nat :=
  match current_generation s with
  | None => if decide (accumulator s = ∅) then 1 else 0
  | Some _ => if decide (accumulator s = ∅) then 0 else 1
  end.

Definition union_weight (s : UnionNodeStream) : nat :=
  inputs_weight (inputs s) + 4 * size (accumulator s) + 2 * length (drained s) + phase_weight s.

Definition union_result (s : UnionNodeStream) (evs : stream ChangesetId) : Prop :=
  revset (items evs) /\ (forall c, c ∈ items evs -> content s c) /\
  ((ends evs = Ok tt /\ all_end (inputs s) /\ forall c, content s c -> c ∈ items evs) \/
   exists e, any_fail (inputs s) e /\ ends evs = Err e).

(** A state with other inputs that come to the same, and nothing in its drain. *)
Definition with_inputs (s : UnionNodeStream) (l : list Input) : UnionNodeStream :=
  mkUnion l (current_generation s) (accumulator s) (drain s).

Lemma with_inputs_result s l evs :
  same_inputs (inputs s) l -> union_result (with_inputs s l) evs -> union_result s evs.
Proof.
  intros [Hh He Hf] (Hr & Hin & Hend). unfold union_result, content, with_inputs, drained in *.
  cbn [inputs accumulator drain] in *. setoid_rewrite Hh. setoid_rewrite Hf. rewrite He. done.
Qed.

Lemma with_inputs_inv s l :
  same_inputs (inputs s) l -> Forall input_ok l ->
  (forall i o, i ∈ inputs s -> in_state i = Ok (Ready (Some o)) -> i ∈ l) ->
  union_inv s -> union_inv (with_inputs s l).
Proof.
  intros [Hh _ _] Hl Hready [H1 H2 H3 H4 H5]. split; unfold with_inputs, drained in *;
    cbn [inputs accumulator drain current_generation] in *; [done..| |].
  - intros g Hg. destruct (H4 g Hg) as (Hle & Hacc & Hex). setoid_rewrite <- Hh.
    split; [done|]. split; [done|]. intros Ha. destruct (Hex Ha) as (i & c & Hi & Es). eauto.
  - intros x Hn Hx. setoid_rewrite <- Hh. by apply H5.
Qed.

Lemma polled_inv s : union_inv s -> union_inv (with_inputs s (poll_all_inputs (inputs s))).
Proof.
  intros Hs. pose proof (poll_all_inputs_same (inputs s)) as Hp. apply with_inputs_inv; [| | |done].
  - by apply same_left_inputs.
  - eapply Forall_input_same; [done|]. apply Hs.
  - intros i o. apply poll_all_ready.
Qed.

(** ** Finished inputs *)

Lemma elem_of_gc l i : i ∈ gc_finished_inputs l <-> i ∈ l /\ finished i = false.
Proof.
  unfold gc_finished_inputs. rewrite !list_elem_of_In, filter_In. by rewrite negb_true_iff.
Qed.

Lemma gc_same l : same_inputs l (gc_finished_inputs l).
Proof.
  unfold gc_finished_inputs. induction l as [|i l [IH1 IH2 IH3]]; [done|]. cbn [List.filter].
  destruct (finished i) eqn:Ei; cbn [negb].
  - apply finished_left in Ei. split.
    + intros c. rewrite any_holds_cons, IH1. unfold holds at 1. rewrite Ei. set_solver.
    + rewrite all_end_cons, IH2, Ei. naive_solver.
    + intros e. rewrite any_fail_cons, IH3, Ei. naive_solver.
  - split.
    + intros c. by rewrite !any_holds_cons, IH1.
    + by rewrite !all_end_cons, IH2.
    + intros e. by rewrite !any_fail_cons, IH3.
Qed.

Lemma gc_weight l : inputs_weight (gc_finished_inputs l) <= inputs_weight l.
Proof.
  unfold gc_finished_inputs, inputs_weight. induction l as [|i l IH]; [done|]. cbn [List.filter sum_list_with].
  destruct (negb (finished i)); cbn [sum_list_with]; lia.
Qed.

Lemma gc_inv s : union_inv s -> union_inv (with_inputs s (gc_finished_inputs (inputs s))).
Proof.
  intros Hs. apply with_inputs_inv; [apply gc_same| | |done].
  - apply filter_Forall, Hs.
  - intros i o Hi Hr. apply elem_of_gc. split; [done|]. unfold finished. by rewrite Hr.
Qed.

(** ** Collecting a generation *)

(** What [accumulate_loop] returns. *)
Record accumulated (g : Generation) (l : list Input) (acc : gset ChangesetId)
    (found : bool) (l' : list Input) (acc' : gset ChangesetId) : Prop := {
  acc_elem c : c ∈ acc' <-> c ∈ acc \/ waits_with l g c;
  acc_found : found = true <-> exists c, waits_with l g c;
  acc_same : found = false -> l' = l /\ acc' = acc;
  acc_ok : Forall input_ok l';
  acc_end : all_end l <-> all_end l';
  acc_fail e : any_fail l e <-> any_fail l' e;
  acc_holds c : any_holds l c <-> waits_with l g c \/ any_holds l' c;
  acc_weight : inputs_weight l' + 4 * size acc' + (if found then 4 else 0) <= inputs_weight l + 4 * size acc
}.

Lemma accumulated_skip g i l acc found l' acc' :
  input_ok i -> (forall c, in_state i <> Ok (Ready (Some (c, g)))) ->
  accumulated g l acc found l' acc' -> accumulated g (i :: l) acc found (i :: l') acc'.
Proof.
  intros Hi Hno [H1 H2 H3 H4 H5 H6 H7 H8]. split.
  - intros c. rewrite H1, waits_with_cons. specialize (Hno c). tauto.
  - rewrite H2. setoid_rewrite waits_with_cons. split; intros [c Hc]; exists c; [by right|]. destruct Hc as [Hc|Hc]; [|done]. by destruct (Hno c).
  - intros E. by destruct (H3 E) as [-> ->].
  - by constructor.
  - by rewrite !all_end_cons, H5.
  - intros e. by rewrite !any_fail_cons, H6.
  - intros c. rewrite !any_holds_cons, waits_with_cons, H7. specialize (Hno c). tauto.
  - unfold inputs_weight in *. cbn [sum_list_with]. lia.
Qed.

Lemma accumulated_take g i l acc found l' acc' c :
  input_ok i -> in_state i = Ok (Ready (Some (c, g))) ->
  accumulated g l ({[c]} ∪ acc) found l' acc' ->
  accumulated g (i :: l) acc true (mkInput (in_stream i) (Ok NotReady) :: l') acc'.
Proof.
  intros Hi Es [H1 H2 H3 H4 H5 H6 H7 H8]. destruct (input_ready i c g Hi Es) as (_ & Hok & Hh).
  assert (ends (left_of (mkInput (in_stream i) (Ok NotReady))) = ends (left_of i)) as Hends.
  { unfold left_of. by rewrite Es. }
  assert (forall d, holds i d <-> d = c \/ holds (mkInput (in_stream i) (Ok NotReady)) d) as Hh'.
  { intros d. unfold holds, left_of. rewrite Es. cbn. by rewrite elem_of_cons. }
  assert (forall d, in_state i = Ok (Ready (Some (d, g))) <-> d = c) as Ec.
  { intros d. rewrite Es. split; [by intros [= ->]|by intros ->]. }
  split.
  - intros d. rewrite H1, waits_with_cons, elem_of_union, elem_of_singleton, Ec. tauto.
  - split; [|done]. intros _. exists c. apply waits_with_cons. left. exact Es.
  - done.
  - by constructor.
  - by rewrite !all_end_cons, H5, Hends.
  - intros e. by rewrite !any_fail_cons, H6, Hends.
  - intros d. rewrite !any_holds_cons, waits_with_cons, H7, Hh', Ec. tauto.
  - assert (size ({[c]} ∪ acc) <= S (size acc)).
    { rewrite size_union_alt, size_singleton. pose proof (subseteq_size (acc ∖ {[c]}) acc ltac:(set_solver)). lia. }
    unfold inputs_weight in *. cbn [sum_list_with]. unfold input_weight at 1 3. rewrite Es. cbn [in_stream in_state].
    destruct found; lia.
Qed.

Lemma accumulate_loop_spec g l : forall acc,
  Forall input_ok l ->
  let '(found, l', acc') := accumulate_loop (Some g) l acc in accumulated g l acc found l' acc'.
Proof.
  induction l as [|i l IH]; intros acc Hl; cbn [accumulate_loop].
  { split; unfold waits_with; try done; try set_solver. cbn. lia. }
  apply Forall_cons in Hl as [Hi Hl]. pose proof (IH acc Hl) as IH0.
  destruct (accumulate_loop (Some g) l acc) as [[found0 l0] acc0].
  destruct (in_state i) as [[|[[c g']|]]|e|] eqn:Es; try (apply accumulated_skip; [done| |done]; congruence).
  destruct (decide (Some g' = Some g)) as [[= ->]|Hg]; [|apply accumulated_skip; [done| |done]; congruence].
  specialize (IH ({[c]} ∪ acc) Hl). destruct (accumulate_loop (Some g) l ({[c]} ∪ acc)) as [[found1 l1] acc1].
  by eapply accumulated_take.
Qed.

(** ** Each step keeps to the invariant *)

(** All inputs have an item: what they still hold is at most that high. *)
Lemma below_ready l c :
  Forall input_ok l -> all_inputs_ready l = true -> any_holds l c ->
  exists d g, waits_with l g d /\ (generation_of c <= g)%N.
Proof.
  intros Hl Hr (i & Hi & Hc). destruct (all_ready_state l i Hr Hi) as [[[d g]|] Es].
  - exists d, g. split; [by exists i|]. rewrite Forall_forall in Hl.
    destruct (input_ready i d g (Hl i Hi) Es) as (Eg & _ & Hh). rewrite Eg. destruct (proj1 (Hh c) Hc) as [E|[_ Hle]]; [by rewrite E|by rewrite <- Eg].
  - by apply input_finished in Hc.
Qed.

Definition advanced (s s' : UnionNodeStream) : Prop :=
  union_inv s' /\ (union_done s' = false -> union_weight s' < union_weight s) /\
  forall evs, union_result s' evs -> union_result s evs.

Lemma advance_start s :
  union_inv s -> all_inputs_ready (inputs s) = true -> (forall i, i ∈ inputs s -> finished i = false) ->
  current_generation s = None -> accumulator s = ∅ -> drain s = None ->
  exists s', advance s = Ok s' /\ advanced s s'.
Proof.
  intros Hs Hr Hgc Hcur Hacc Hd. unfold advance. rewrite Hcur, decide_True by done.
  unfold update_current_generation. rewrite Hr.
  destruct (ready_generations_spec (inputs s) Hr) as (gens & -> & Hgens). rewrite bind_Ok.
  eexists. split; [done|]. pose proof (max_of_list gens) as Hmax. destruct Hs as [H1 H2 H3 H4 H5].
  unfold drained in *. rewrite Hd in *. split; [|split].
  - split; unfold drained; cbn [inputs drain accumulator current_generation]; [done|done|by left| |].
    + intros g Hg. rewrite Hg in Hmax. destruct Hmax as [Hin Hle]. split; [|split].
      * intros c Hc. destruct (below_ready _ c H1 Hr Hc) as (d & g' & (i & Hi & Es) & Hle').
        assert (g' <= g)%N; [|lia]. apply Hle, Hgens. eauto.
      * rewrite Hacc. set_solver.
      * intros _. apply Hgens in Hin as (i & c & ? & ?). eauto.
    + rewrite Hacc. set_solver.
  - intros Hdone. unfold union_weight, drained, phase_weight. cbn [inputs drain accumulator current_generation].
    rewrite Hd, Hcur, decide_True by done. destruct (max_of gens) as [g|]; [rewrite decide_True by done; lia|].
    exfalso. unfold union_done in Hdone. cbn in Hdone. destruct (inputs s) as [|i l]; [by rewrite bool_decide_eq_false in Hdone|].
    destruct (all_ready_state (i :: l) i Hr ltac:(by left)) as [[[c g]|] Es].
    + assert (g ∈ gens) by (apply Hgens; exists i, c; split; [by left|done]). subst gens. set_solver.
    + specialize (Hgc i ltac:(by left)). unfold finished in Hgc. by rewrite Es in Hgc.
  - intros evs. unfold union_result, content, drained. cbn [inputs drain accumulator]. by rewrite Hd.
Qed.

Lemma advance_drain s :
  HashOrderLaws HO ->
  union_inv s -> current_generation s = None -> accumulator s <> ∅ -> drain s = None ->
  exists s', advance s = Ok s' /\ advanced s s'.
Proof.
  intros HL [H1 H2 H3 H4 H5] Hcur Hacc Hd. unfold advance. rewrite Hcur, decide_False by done.
  eexists. split; [done|]. unfold drained in *. rewrite Hd in *.
  assert (forall c, c ∈ hash_order (accumulator s) <-> c ∈ accumulator s) as Hord.
  { intros c. by rewrite hash_order_perm, elem_of_elements. }
  split; [|split].
  - split; unfold drained; cbn [inputs drain accumulator current_generation default]; [done| |by right|done|].
    + rewrite hash_order_perm. apply NoDup_elements.
    + intros x _ [Hx|Hx]; [|set_solver]. apply Hord in Hx.
      destruct (H5 x Hcur (or_intror Hx)) as [Hlt Hg]. split; [done|].
      intros c [Hc|Hc]; [|set_solver]. apply Hg. right. by apply Hord.
  - intros _. unfold union_weight, drained, phase_weight. cbn [inputs drain accumulator current_generation].
    rewrite Hd, Hcur, (decide_True (P := ∅ = ∅)), (decide_False (P := accumulator s = ∅)) by done.
    change (default [] (Some (hash_order (accumulator s)))) with (hash_order (accumulator s)).
    assert (length (hash_order (accumulator s)) = size (accumulator s)) as ->.
    { rewrite hash_order_perm. reflexivity. }
    assert (size (accumulator s) <> 0) by (intros E; apply Hacc; by apply leibniz_equiv, size_empty_inv).
    rewrite size_empty. cbn. lia.
  - intros evs (Hr & Hin & Hend). unfold union_result, content, drained in *.
    cbn [inputs drain accumulator default] in *. rewrite Hd. cbn. setoid_rewrite Hord in Hin. setoid_rewrite Hord in Hend.
    split; [done|]. split.
    { intros c Hc. destruct (Hin c Hc) as [?|[?%not_elem_of_empty|?]]; [tauto|done|tauto]. }
    destruct Hend as [(He & Hok & Hall)|Hf]; [left|by right]. split; [done|]. split; [done|].
    intros c [?%elem_of_nil|Hc]; [done|]. apply Hall. tauto.
Qed.

Lemma advance_collect s g :
  union_inv s -> all_inputs_ready (inputs s) = true ->
  current_generation s = Some g -> drain s = None ->
  exists s', advance s = Ok s' /\ advanced s s'.
Proof.
  intros [H1 H2 H3 H4 H5] Hr Hcur Hd. unfold advance. rewrite Hcur. eexists. split; [done|].
  unfold accumulate_nodes. rewrite Hcur.
  pose proof (accumulate_loop_spec g (inputs s) (accumulator s) H1) as Hloop.
  destruct (accumulate_loop (Some g) (inputs s) (accumulator s)) as [[found l'] acc'].
  destruct Hloop as [A1 A2 A3 A4 A5 A6 A7 A8]. destruct (H4 g Hcur) as (Hle & Hg & Hex).
  unfold drained in *. rewrite Hd in *.
  assert (acc' <> ∅) as Hne.
  { destruct (decide (accumulator s = ∅)) as [E|E].
    - destruct (Hex E) as (i & c & Hi & Es). assert (c ∈ acc') by (apply A1; right; by exists i). set_solver.
    - apply set_choose_L in E as [c Hc]. assert (c ∈ acc') by (apply A1; by left). set_solver. }
  assert (forall c, c ∈ acc' -> generation_of c = g) as Hg'.
  { intros c [Hc|(i & Hi & Es)]%A1; [by apply Hg|]. rewrite Forall_forall in H1.
    by destruct (input_ready i c g (H1 i Hi) Es) as (-> & _). }
  split; [|split].
  - split; unfold drained; cbn [inputs drain accumulator current_generation default]; [done|done|by left| |].
    + intros g' E. destruct found; [|done]. injection E as <-. split; [|split]; [|done|done].
      intros c Hc. apply Hle, A7. by right.
    + intros x E [Hx|Hx]; [set_solver|]. destruct found; [done|]. destruct (A3 eq_refl) as [-> ->].
      rewrite (Hg' x Hx). split; [|intros c [?|?]; [set_solver|by apply Hg']].
      intros c Hc. destruct (below_ready _ c H1 Hr Hc) as (d & g' & Hw & Hle').
      pose proof Hw as (i & Hi & Es). rewrite Forall_forall in H1.
      destruct (input_ready i d g' (H1 i Hi) Es) as (Eg & _ & Hh).
      assert (g' <= g)%N by (rewrite Eg; apply Hle; exists i; split; [done|]; apply Hh; by left).
      assert (g' <> g); [|lia]. intros ->. by discriminate (proj2 A2 (ex_intro _ d Hw)).
  - intros _. unfold union_weight, drained, phase_weight. cbn [inputs drain accumulator current_generation].
    rewrite Hd, Hcur. destruct found.
    + rewrite (decide_False (P := acc' = ∅)) by done. destruct (decide (accumulator s = ∅)); lia.
    + destruct (A3 eq_refl) as [-> ->]. rewrite !(decide_False (P := accumulator s = ∅)) by done. lia.
  - intros evs (Hrv & Hin & Hend). unfold union_result, content, drained in *.
    cbn [inputs drain accumulator default] in *. rewrite Hd. cbn. setoid_rewrite A7. rewrite A5. setoid_rewrite A6.
    setoid_rewrite A1 in Hin. setoid_rewrite A1 in Hend. split; [done|]. split.
    { intros c Hc. destruct (Hin c Hc) as [?|[[?|?]|?]]; tauto. }
    destruct Hend as [(He & Hok & Hall)|Hf]; [left|by right]. split; [done|]. split; [done|].
    intros c Hc. apply Hall. tauto.
Qed.
Lemma union_done_result s : union_done s = true -> union_result s [].
Proof.
  unfold union_done, union_result, content, drained. destruct (inputs s) as [|i l], (drain s) as [d|]; try done.
  intros ->%bool_decide_eq_true. split; [apply revset_nil|]. split; [set_solver|]. left.
  split; [done|]. split; [by intros i ?%elem_of_nil|].
  intros c [?%elem_of_nil|[?%not_elem_of_empty|(i & ?%elem_of_nil & _)]]; done.
Qed.

Lemma advance_ok {HL : HashOrderLaws HO} s :
  union_inv s -> all_inputs_ready (inputs s) = true -> (forall i, i ∈ inputs s -> finished i = false) ->
  drain s = None -> exists s', advance s = Ok s' /\ advanced s s'.
Proof.
  intros Hs Hr Hgc Hd. destruct (current_generation s) as [g|] eqn:Hcur.
  { destruct (advance_collect s g Hs Hr Hcur Hd) as (s' & ? & ?). by exists s'. }
  destruct (decide (accumulator s = ∅)) as [Hacc|Hacc]; [by apply advance_start|].
  destruct (advance_drain s HL Hs Hcur Hacc Hd) as (s' & ? & ?). by exists s'.
Qed.

Lemma with_inputs_weight s l :
  inputs_weight l <= inputs_weight (inputs s) -> union_weight (with_inputs s l) <= union_weight s.
Proof. intros H. unfold union_weight, with_inputs, phase_weight, drained. cbn [inputs accumulator drain current_generation]. lia. Qed.

Abbreviation union_next := (next_ok union_inv union_weight union_result).

(** One iteration when the drain is empty, from inputs that were just polled. *)
Lemma union_rest_ok {HL : HashOrderLaws HO} s w :
  union_inv s -> drain s = None -> union_weight s <= w ->
  (Exists (fun i => in_state i = Ok NotReady) (inputs s) -> union_weight s < w) ->
  union_next w (union_result s) (union_rest s).
Proof.
  intros Hs Hd Hw Hlt. unfold union_rest. destruct (first_error (inputs s)) as [e|] eqn:He.
  { destruct (first_error_Some _ _ He) as (i & Hi & Es). split; [apply revset_nil|]. split; [set_solver|].
    right. exists e. split; [|done]. exists i. split; [done|]. unfold left_of. by rewrite Es. }
  fold (with_inputs s (gc_finished_inputs (inputs s))).
  pose proof (gc_inv s Hs) as Hg. pose proof (with_inputs_weight s _ (gc_weight (inputs s))) as Hgw.
  assert (forall evs, union_result (with_inputs s (gc_finished_inputs (inputs s))) evs -> union_result s evs) as Hres.
  { intros evs. apply with_inputs_result, gc_same. }
  assert (forall i, i ∈ gc_finished_inputs (inputs s) -> finished i = false) as Hgc.
  { by intros i [_ ?]%elem_of_gc. }
  remember (with_inputs s (gc_finished_inputs (inputs s))) as s1 eqn:E1.
  assert (inputs s1 = gc_finished_inputs (inputs s) /\ drain s1 = None) as [Ei Ed] by by subst.
  destruct (all_inputs_ready (inputs s1)) eqn:Hr.
  - destruct (advance_ok s1 Hg Hr ltac:(by rewrite Ei) Ed) as (s' & -> & (Hs' & Hw' & HR)).
    destruct (union_done s') eqn:Hdone; [by apply Hres, HR, union_done_result|].
    split; [done|]. split; [specialize (Hw' eq_refl); lia|auto].
  - assert (Exists (fun i => in_state i = Ok NotReady) (inputs s)) as Hex.
    { apply not_all_ready in Hr; [| |].
      - apply Exists_exists in Hr as (i & Hi & Es). rewrite Ei in Hi. apply elem_of_gc in Hi as [Hi _].
        apply Exists_exists. eauto.
      - by apply no_panic, Hg.
      - destruct (first_error (inputs s1)) as [e|] eqn:He1; [|done].
        destruct (first_error_Some _ _ He1) as (i & Hi & Es). rewrite Ei in Hi. apply elem_of_gc in Hi as [Hi _].
        by destruct (first_error_None (inputs s) i e). }
    split; [done|]. split; [specialize (Hlt Hex); lia|]. exact Hres.
Qed.

(** One iteration when the drain has an item. *)
Lemma union_drain_ok s x d w :
  union_inv s -> drain s = Some (x :: d) -> union_weight s <= w ->
  union_next w (union_result s)
    (mkUnion (inputs s) (current_generation s) (accumulator s) (Some d), Some (Ok (Ready (Some x)))).
Proof.
  intros [H1 H2 H3 H4 H5] Hd Hw. unfold drained in *. rewrite Hd in *. cbn [default] in *.
  destruct H3 as [|[Hacc Hcur]]; [done|]. apply NoDup_cons in H2 as [Hx H2].
  destruct (H5 x Hcur (or_introl (list_elem_of_here x d))) as [Hlt Hg].
  assert (forall c, c ∈ d -> generation_of c = generation_of x) as Hgd.
  { intros c Hc. apply Hg. left. by right. }
  split; [|split].
  - split; unfold drained; cbn [inputs accumulator drain current_generation]; [done|done|by right|by rewrite Hcur|].
    intros y _ [Hy|Hy]; [|by rewrite Hacc in Hy; apply not_elem_of_empty in Hy].
    change (default [] (Some d)) with d in *. rewrite (Hgd y Hy). split; [done|].
    intros c [Hc|Hc]; [by apply Hgd|by rewrite Hacc in Hc; apply not_elem_of_empty in Hc].
  - unfold union_weight, drained, phase_weight in *. cbn [inputs accumulator drain current_generation] in *.
    rewrite Hd in Hw. cbn [from_option id length] in *. lia.
  - intros evs (Hr & Hin & Hend). unfold union_result, content, drained in *. rewrite Hd.
    cbn [inputs accumulator drain items ends] in *. change (default [] (Some d)) with d in *.
    change (default [] (Some (x :: d))) with (x :: d). rewrite Hacc in *.
    assert (forall c, c ∈ items evs -> c ∈ d \/ any_holds (inputs s) c) as Hin'.
    { intros c Hc. destruct (Hin c Hc) as [?|[?%not_elem_of_empty|?]]; [by left|done|by right]. }
    split; [|split].
    + apply revset_cons. split; [|split; [|done]].
      * intros Hxe. destruct (Hin' x Hxe) as [?|Hh]; [done|]. specialize (Hlt x Hh). lia.
      * intros c Hc. destruct (Hin' c Hc) as [Hcd|Hh]; [by rewrite Hgd|]. specialize (Hlt c Hh). lia.
    + intros c [->|Hc]%elem_of_cons; [left; by left|]. destruct (Hin' c Hc) as [?|?]; [left; by right|by do 2 right].
    + destruct Hend as [(He & Hok & Hall)|Hf]; [left|by right]. split; [done|]. split; [done|].
      intros c [[->|Hc]%elem_of_cons|Hc]; [by left|right; apply Hall; by left|right; apply Hall; by right].
Qed.

Lemma union_step_ok {HL : HashOrderLaws HO} s :
  union_inv s -> step_ok union_step union_inv union_weight union_result s.
Proof.
  intros Hs. unfold step_ok, union_step. pose proof (polled_inv s Hs) as Hp.
  pose proof (poll_all_weight (inputs s)) as [Hw1 Hw2].
  pose proof (same_left_inputs _ _ (poll_all_inputs_same (inputs s))) as Hsame.
  rewrite no_panic by apply Hp. set (s1 := with_inputs s (poll_all_inputs (inputs s))) in *.
  assert (union_weight s1 <= union_weight s /\
          (Exists (fun i => in_state i = Ok NotReady) (inputs s1) -> union_weight s1 < union_weight s)) as [Hle Hlt].
  { unfold union_weight, phase_weight, drained. cbn [s1 with_inputs inputs accumulator drain current_generation].
    split; [lia|]. intros H. specialize (Hw2 H). lia. }
  apply (next_ok_weaken _ _ _ (union_weight s) _ (union_result s1)); [done|intros evs; by apply with_inputs_result|].
  destruct (drain s) as [[|x d]|] eqn:Ed.
  - set (s2 := mkUnion _ _ _ None).
    apply (next_ok_weaken _ _ _ (union_weight s) _ (union_result s2)); [done| |].
    { intros evs. unfold union_result, content, drained. cbn [s1 s2 with_inputs inputs accumulator drain]. by rewrite Ed. }
    assert (union_weight s2 = union_weight s1) as E2.
    { unfold union_weight, drained. cbn [s1 s2 with_inputs drain]. by rewrite Ed. }
    apply union_rest_ok; [|done|by rewrite E2|by rewrite E2].
    destruct Hp as [P1 P2 P3 P4 P5]. unfold drained in *. cbn [s1 with_inputs inputs accumulator drain current_generation] in *.
    rewrite Ed in *. by split.
  - by apply (union_drain_ok s1).
  - fold (with_inputs s (poll_all_inputs (inputs s))). replace (mkUnion _ _ _ None) with s1.
    + by apply union_rest_ok.
    + unfold s1, with_inputs. by rewrite Ed.
Qed.

Lemma union_start {known : ChangesetId -> Prop} {L : FetcherLaws known} ss :
  Forall (good_input (known := known)) ss -> union_inv (UnionNodeStream_new ss).
Proof.
  intros H. split; unfold drained; cbn; [by eapply new_inputs_ok|constructor|by left|done|].
  intros x _ [Hx|Hx]; set_solver.
Qed.

(** The union of streams of stored changesets in order of falling
    generation ends and is itself such a stream, without repetitions. Its
    items come from the inputs, however long each is not ready; when no input
    fails it has all of them, and otherwise it ends in the error of one. *)
Theorem union_exact {HL : HashOrderLaws HO} {known : ChangesetId -> Prop} {L : FetcherLaws known} ss :
  Forall (good_input (known := known)) ss ->
  exists evs, runs union_step (UnionNodeStream_new ss) evs /\ revset (items evs) /\
    (forall c, c ∈ items evs -> exists s, s ∈ ss /\ c ∈ items s) /\
    ((ends evs = Ok tt /\ (forall s, s ∈ ss -> ends s = Ok tt /\ forall c, c ∈ items s -> c ∈ items evs)) \/
     exists s e, s ∈ ss /\ ends s = Err e /\ ends evs = Err e).
Proof.
  intros Hss. destruct (runs_steps _ _ _ _ union_step_ok (UnionNodeStream_new ss) (union_start ss Hss))
    as (evs & Hruns & Hr & Hin & Hend).
  exists evs. split; [done|]. split; [done|].
  unfold content, drained in *. cbn [UnionNodeStream_new inputs accumulator drain] in *.
  setoid_rewrite (fun c => new_any_holds ss c Hss) in Hin. setoid_rewrite (fun c => new_any_holds ss c Hss) in Hend.
  rewrite (new_all_end ss Hss) in Hend. setoid_rewrite (fun e => new_any_fail ss e Hss) in Hend. split.
  - intros c Hc. destruct (Hin c Hc) as [?%elem_of_nil|[?%not_elem_of_empty|?]]; done.
  - destruct Hend as [(He & Hok & Hall)|(e & (s & Hs & Hf) & He)]; [left|right; by exists s, e].
    split; [done|]. intros s Hs. split; [by apply Hok|]. intros c Hc. apply Hall. right; right. by exists s.
Qed.
End union.
