(* ===== verification/IntersectStream.v ===== *)
(** * Intersections of revsets

    Model of [IntersectNodeStream] of [src/revset/src/intersectnodestream.rs].
    The current generation is the lowest that an input waits with; items above
    it are dropped, items of it are counted, and those that every input had
    are in the intersection. *)

From S2P Require Import Prelude Hash Bonsai Graph Revset SetCommon.

Record IntersectNodeStream := mkIntersect {
  inputs : list Input;
  current_generation : option Generation;
  accumulator : gmap ChangesetId N;
  drain : option (list (ChangesetId * N))
}.

Section intersect.
Context {F : ChangesetFetcher} {HO : HashOrder}.

Definition IntersectNodeStream_new (ss : list (stream ChangesetId)) : IntersectNodeStream :=
  mkIntersect (new_inputs ss) None ∅ None.

Definition update_current_generation (s : IntersectNodeStream) : outcome fetch_error IntersectNodeStream :=
  if all_inputs_ready (inputs s) then
    gens ← ready_generations (inputs s);
    Ok (mkIntersect (inputs s) (min_of gens) (accumulator s) (drain s))
  else Ok s.

(** [Some(gen_id) >= self.current_generation]. *)
Definition at_least (gen_id : Generation) (current : option Generation) : bool :=
  match current with None => true | Some g => (g <=? gen_id)%N end.

(** [*self.accumulator.entry(csid).or_insert(0) += 1]. *)
Definition count_up (csid : ChangesetId) (acc : gmap ChangesetId N) : gmap ChangesetId N :=
  <[csid := (default 0 (acc !! csid) + 1)%N]> acc.

(** The loop of [accumulate_nodes], with [found_csids]. *)
Fixpoint accumulate_loop (current : option Generation) (inputs : list Input) (acc : gmap ChangesetId N)
    : bool * list Input * gmap ChangesetId N :=
  match inputs with
  | [] => (false, [], acc)
  | i :: inputs =>
      match in_state i with
      | Ok (Ready (Some (csid, gen_id))) =>
          let acc := if decide (Some gen_id = current) then count_up csid acc else acc in
          let '(found, l, acc) := accumulate_loop current inputs acc in
          if at_least gen_id current then (true, mkInput (in_stream i) (Ok NotReady) :: l, acc)
          else (found, i :: l, acc)
      | _ => let '(found, l, acc) := accumulate_loop current inputs acc in (found, i :: l, acc)
      end
  end.

Definition accumulate_nodes (s : IntersectNodeStream) : IntersectNodeStream :=
  let '(found_csids, l, acc) := accumulate_loop (current_generation s) (inputs s) (accumulator s) in
  mkIntersect l (if found_csids then current_generation s else None) acc (drain s).

Definition any_input_finished (inputs : list Input) : bool :=
  match inputs with [] => true | _ => existsb finished inputs end.

(** The loop that empties the drain: the next item with the full count. *)
Fixpoint drain_next (n : N) (d : list (ChangesetId * N)) : option (ChangesetId * list (ChangesetId * N)) :=
  match d with
  | [] => None
  | (csid, count) :: d => if (count =? n)%N then Some (csid, d) else drain_next n d
  end.

(** The order in which the entries of a [HashMap] come. *)
Definition entries (m : gmap ChangesetId N) : list (ChangesetId * N) :=
  (fun c => (c, default 0%N (m !! c))) <$> hash_order (dom m).

(** The [match] on [current_generation]. *)
Definition advance (s : IntersectNodeStream) : outcome fetch_error IntersectNodeStream :=
  match current_generation s with
  | None =>
      if decide (accumulator s = ∅) then update_current_generation s
      else Ok (mkIntersect (inputs s) None ∅ (Some (entries (accumulator s))))
  | Some _ => Ok (accumulate_nodes s)
  end.

Definition intersect_done (s : IntersectNodeStream) : bool :=
  match drain s with
  | None => bool_decide (accumulator s = ∅) && any_input_finished (inputs s)
  | Some _ => false
  end.

(** The iteration from the check for errors on; the drain is empty. *)
Definition intersect_rest (s : IntersectNodeStream) : IntersectNodeStream * option (Poll ChangesetId) :=
  match first_error (inputs s) with
  | Some e => (mkIntersect [] (current_generation s) (accumulator s) (drain s), Some (Err e))
  | None =>
      if all_inputs_ready (inputs s) then
        match advance s with
        | Ok s => (s, if intersect_done s then Some (Ok (Ready None)) else None)
        | Err e => (s, Some (Err e))
        | Panic => (s, Some Panic)
        end
      else (s, Some (Ok NotReady))
  end.

Definition intersect_step (s : IntersectNodeStream) : IntersectNodeStream * option (Poll ChangesetId) :=
  let polled := poll_all_inputs (inputs s) in
  if any_panic polled then
    (mkIntersect polled (current_generation s) (accumulator s) (drain s), Some Panic)
  else match drain_next (lenN polled) (default [] (drain s)) with
  | Some (csid, d) =>
      (mkIntersect polled (current_generation s) (accumulator s) (Some d), Some (Ok (Ready (Some csid))))
  | None => intersect_rest (mkIntersect polled (current_generation s) (accumulator s) None)
  end.

(** ** Counting *)

#[local] Instance holds_dec i c : Decision (holds i c).
Proof. unfold holds. apply _. Defined.

Fixpoint held (l : list Input) (c : ChangesetId) : N :=
  match l with
  | [] => 0
  | i :: l => (if decide (holds i c) then 1 else 0) + held l c
  end.

Lemma held_le l c : (held l c <= lenN l)%N.
Proof.
  unfold lenN. induction l as [|i l IH]; cbn [held length]; [done|]. destruct (decide _); lia.
Qed.

Lemma held_lt l c i : i ∈ l -> ~ holds i c -> (held l c < lenN l)%N.
Proof.
  unfold lenN. induction l as [|j l IH]; intros Hi Hn; [by apply elem_of_nil in Hi|]. cbn [held length].
  pose proof (held_le l c). unfold lenN in *. apply elem_of_cons in Hi as [->|Hi].
  - rewrite decide_False by done. lia.
  - specialize (IH Hi Hn). destruct (decide _); lia.
Qed.

Lemma held_zero l c : (forall i, i ∈ l -> ~ holds i c) -> held l c = 0%N.
Proof.
  induction l as [|i l IH]; intros H; [done|]. cbn [held]. rewrite decide_False by (apply H; by left).
  rewrite IH; [done|]. intros j Hj. apply H. by right.
Qed.

Lemma held_all l c : held l c = lenN l <-> forall i, i ∈ l -> holds i c.
Proof.
  split.
  - intros E i Hi. destruct (decide (holds i c)) as [|Hn]; [done|]. pose proof (held_lt l c i Hi Hn). lia.
  - unfold lenN. induction l as [|i l IH]; intros H; [done|]. cbn [held length].
    rewrite decide_True by (apply H; by left). rewrite IH; [lia|]. intros j Hj. apply H. by right.
Qed.

Lemma held_same l l' c : Forall2 same_left l l' -> held l c = held l' c.
Proof.
  induction 1 as [|i i' l l' Hi _ IH]; [done|]. cbn [held]. rewrite IH.
  destruct (holds_same i i' c Hi). destruct (decide (holds i c)), (decide (holds i' c)); tauto.
Qed.

(** ** What is still to come *)

Definition drained (s : IntersectNodeStream) : list (ChangesetId * N) := default [] (drain s).

Definition count (s : IntersectNodeStream) (c : ChangesetId) : N :=
  (default 0 (accumulator s !! c) + held (inputs s) c)%N.

Definition content (s : IntersectNodeStream) (c : ChangesetId) : Prop :=
  (c, lenN (inputs s)) ∈ drained s \/ (inputs s <> [] /\ count s c = lenN (inputs s)).

(** An input in order, without repetitions. *)
Definition set_input (i : Input) : Prop := input_ok i /\ NoDup (items (left_of i)).*1.

Record intersect_inv (s : IntersectNodeStream) : Prop := {
  inv_inputs : Forall set_input (inputs s);
  inv_some : inputs s = [] -> accumulator s = ∅;
  inv_drain : NoDup (drained s).*1;
  inv_phase : drained s = [] \/ (accumulator s = ∅ /\ current_generation s = None);
  inv_current g : current_generation s = Some g ->
    (exists j, j ∈ inputs s /\ forall c, holds j c -> (generation_of c <= g)%N) /\
    (forall c, is_Some (accumulator s !! c) -> generation_of c = g) /\
    (accumulator s = ∅ -> exists i c, i ∈ inputs s /\ in_state i = Ok (Ready (Some (c, g))));
  inv_collected x : current_generation s = None -> x ∈ (drained s).*1 \/ is_Some (accumulator s !! x) ->
    (forall c, any_holds (inputs s) c -> (generation_of c < generation_of x)%N) /\
    forall c, c ∈ (drained s).*1 \/ is_Some (accumulator s !! c) -> generation_of c = generation_of x
}.

Definition phase_weight (s : IntersectNodeStream) : nat :=
  match current_generation s with
  | None => if decide (accumulator s = ∅) then 1 else 0
  | Some _ => if decide (accumulator s = ∅) then 0 else 1
  end.

Definition intersect_weight (s : IntersectNodeStream) : nat :=
  inputs_weight (inputs s) + 4 * size (accumulator s) + 2 * length (drained s) + phase_weight s.

Definition intersect_result (s : IntersectNodeStream) (evs : stream ChangesetId) : Prop :=
  revset (items evs) /\ (forall c, c ∈ items evs -> content s c) /\
  ((ends evs = Ok tt /\ forall c, content s c -> c ∈ items evs) \/
   exists e, any_fail (inputs s) e /\ ends evs = Err e).

Abbreviation intersect_next := (next_ok intersect_inv intersect_weight intersect_result).

Definition with_inputs (s : IntersectNodeStream) (l : list Input) : IntersectNodeStream :=
  mkIntersect l (current_generation s) (accumulator s) (drain s).

Lemma polled_result s evs :
  intersect_result (with_inputs s (poll_all_inputs (inputs s))) evs -> intersect_result s evs.
Proof.
  pose proof (poll_all_inputs_same (inputs s)) as Hp. pose proof (same_left_inputs _ _ Hp) as [_ _ Hf].
  assert (lenN (poll_all_inputs (inputs s)) = lenN (inputs s)) as Hlen.
  { unfold lenN, poll_all_inputs. by rewrite length_fmap. }
  assert (forall c, content (with_inputs s (poll_all_inputs (inputs s))) c <-> content s c) as Hc.
  { intros c. unfold content, count, drained. cbn [with_inputs inputs accumulator drain]. rewrite Hlen.
    rewrite <- (held_same _ _ c Hp). assert (poll_all_inputs (inputs s) <> [] <-> inputs s <> []) as ->; [|done].
    unfold poll_all_inputs. by destruct (inputs s). }
  unfold intersect_result. setoid_rewrite Hc. cbn [with_inputs inputs]. by setoid_rewrite <- Hf.
Qed.

Lemma set_input_same i i' : same_left i i' -> set_input i -> set_input i'.
Proof. intros Hs [H1 H2]. split; [by eapply input_ok_same|]. by destruct Hs as [<- _]. Qed.

Lemma intersect_polled_inv s : intersect_inv s -> intersect_inv (with_inputs s (poll_all_inputs (inputs s))).
Proof.
  intros [H1 H0 H2 H3 H4 H5]. pose proof (poll_all_inputs_same (inputs s)) as Hp.
  pose proof (same_left_inputs _ _ Hp) as [Hh _ _].
  split; unfold drained in *; cbn [with_inputs inputs accumulator drain current_generation] in *; [| |done|done| |].
  - clear -Hp H1. induction Hp; [done|]. apply Forall_cons in H1 as [? ?].
    constructor; [by eapply set_input_same|auto].
  - intros E. apply H0. by destruct (inputs s).
  - intros g Hg. destruct (H4 g Hg) as ((j & Hj & Hle) & Hacc & Hex). split; [|split; [done|]].
    + destruct (Forall2_elem_of_l' _ _ _ _ Hp Hj) as (j' & Hj' & Hsame). exists j'. split; [done|].
      intros c Hc. apply Hle. by apply (holds_same j j').
    + intros Ha. destruct (Hex Ha) as (i & c & Hi & Es). exists i, c. split; [|done]. by eapply poll_all_ready.
  - intros x Hn Hx. setoid_rewrite <- Hh. by apply H5.
Qed.

(** ** The drain *)

Lemma drain_next_spec n d :
  match drain_next n d with
  | Some (x, d') => exists pre, d = pre ++ (x, n) :: d' /\ forall c, (c, n) ∉ pre
  | None => forall c, (c, n) ∉ d
  end.
Proof.
  induction d as [|[c k] d IH]; cbn [drain_next]; [intros c; apply not_elem_of_nil|].
  destruct (N.eqb_spec k n) as [->|Hk]; [exists []; split; [done|]; intros c'; apply not_elem_of_nil|].
  destruct (drain_next n d) as [[x d']|].
  - destruct IH as (pre & -> & Hpre). exists ((c, k) :: pre). split; [done|].
    intros c' [[= -> ->]|Hc]%elem_of_cons; [done|]. by apply Hpre in Hc.
  - intros c' [[= -> ->]|Hc]%elem_of_cons; [done|]. by apply IH in Hc.
Qed.

Lemma intersect_drain_ok s x d w :
  intersect_inv s -> drain_next (lenN (inputs s)) (drained s) = Some (x, d) -> intersect_weight s <= w ->
  intersect_next w (intersect_result s)
    (mkIntersect (inputs s) (current_generation s) (accumulator s) (Some d), Some (Ok (Ready (Some x)))).
Proof.
  intros [H1 H0 H2 H3 H4 H5] Hd Hw. pose proof (drain_next_spec (lenN (inputs s)) (drained s)) as Hs.
  rewrite Hd in Hs. destruct Hs as (pre & Ed & Hpre).
  destruct H3 as [H3|[Hacc Hcur]]; [rewrite Ed in H3; by destruct pre|].
  assert (forall c, ~ is_Some (accumulator s !! c)) as Hna.
  { intros c. rewrite Hacc, lookup_empty. by intros [? ?]. }
  rewrite Ed, fmap_app in H2. apply NoDup_app in H2 as (_ & Hx2 & H2).
  cbn [fmap list_fmap fst] in H2. apply NoDup_cons in H2 as [Hx H2].
  assert (x ∈ (drained s).*1) as Hxd by (rewrite Ed, fmap_app; apply elem_of_app; right; by left).
  destruct (H5 x Hcur (or_introl Hxd)) as [Hlt Hg].
  assert (forall c, c ∈ d.*1 -> c ∈ (drained s).*1) as Hsub.
  { intros c Hc. rewrite Ed, fmap_app. apply elem_of_app. right. by right. }
  split; [|split].
  - split; unfold drained; cbn [inputs accumulator drain current_generation from_option id];
      [done|by intros _|done|by right|by rewrite Hcur|].
    intros y _ [Hy|Hy]; [|by apply Hna in Hy]. rewrite (Hg y) by (left; by apply Hsub). split; [done|].
    intros c [Hc|Hc]; [|by apply Hna in Hc]. apply Hg. left. by apply Hsub.
  - unfold intersect_weight, phase_weight in *. cbn [inputs accumulator drain current_generation] in *.
    unfold drained at 1. cbn [drain from_option id]. rewrite Ed, length_app in Hw. cbn [length] in Hw. lia.
  - intros evs (Hr & Hin & Hend).
    assert (forall c, content s c <-> c = x \/
              content (mkIntersect (inputs s) (current_generation s) (accumulator s) (Some d)) c) as Hc.
    { intros c. unfold content, count. unfold drained at 2. cbn [inputs accumulator drain from_option id]. split.
      - rewrite Ed. intros [[Hc|[[= ->]|Hc]%elem_of_cons]%elem_of_app|Hc];
          [by apply Hpre in Hc|by left|by right; left|by right; right].
      - intros [->|[Hc|Hc]]; [left; rewrite Ed; apply elem_of_app; right; by left| |by right].
        left. rewrite Ed. apply elem_of_app. right. by right. }
    assert (forall c, c ∈ items evs -> c ∈ d.*1 \/ any_holds (inputs s) c) as Hin'.
    { intros c Hce. destruct (Hin c Hce) as [Hcd|[Hne Hcnt]].
      - left. apply list_elem_of_fmap. by exists (c, lenN (inputs s)).
      - right. unfold count in Hcnt. cbn [inputs accumulator] in Hcnt. rewrite Hacc, lookup_empty in Hcnt.
        destruct (inputs s) as [|i l] eqn:Ei; [done|]. exists i. split; [by left|].
        apply (held_all (i :: l) c); [|by left]. cbn [from_option id] in Hcnt. lia. }
    split; [|split].
    + cbn [items]. apply revset_cons. split; [|split; [|done]].
      * intros Hxe. destruct (Hin' x Hxe) as [?|Hh]; [done|]. specialize (Hlt x Hh). lia.
      * intros c Hce. destruct (Hin' c Hce) as [Hcd|Hh]; [|specialize (Hlt c Hh); lia].
        rewrite (Hg c); [done|]. left. by apply Hsub.
    + cbn [items]. intros c [->|Hce]%elem_of_cons; apply Hc; [by left|right; by apply Hin].
    + destruct Hend as [(He & Hall)|Hf]; [left|by right]. split; [done|]. cbn [items].
      intros c [->|Hcc]%Hc; [by left|right; by apply Hall].
Qed.

(** ** Collecting a generation *)

(** What [accumulate_loop] returns. *)
Record counted (g : Generation) (l : list Input) (acc : gmap ChangesetId N)
    (found : bool) (l' : list Input) (acc' : gmap ChangesetId N) : Prop := {
  acc_ok : Forall set_input l';
  acc_pairs : Forall2 (fun i i' => (ends (left_of i) = ends (left_of i')) /\ forall c, holds i' c -> holds i c) l l';
  acc_count c : (generation_of c <= g)%N ->
    (default 0 (acc' !! c) + held l' c = default 0 (acc !! c) + held l c)%N;
  acc_keys c : is_Some (acc' !! c) <-> is_Some (acc !! c) \/ waits_with l g c;
  acc_same : found = false -> l' = l /\ acc' = acc /\ forall c g', waits_with l g' c -> (g' < g)%N;
  acc_weight : inputs_weight l' + 4 * size acc' + (if found then 4 else 0) <= inputs_weight l + 4 * size acc
}.

Lemma counted_skip g i l acc found l' acc' :
  set_input i -> (forall c g', in_state i = Ok (Ready (Some (c, g'))) -> (g' < g)%N) ->
  counted g l acc found l' acc' -> counted g (i :: l) acc found (i :: l') acc'.
Proof.
  intros Hi Hno [H1 H2 H3 H4 H5 H6]. split.
  - by constructor.
  - by constructor.
  - intros c Hc. cbn [held]. specialize (H3 c Hc). lia.
  - intros c. rewrite H4, waits_with_cons. split; [tauto|]. intros [?|[E|?]]; [by left| |by right].
    specialize (Hno c g E). lia.
  - intros E. destruct (H5 E) as (-> & -> & H). split; [done|]. split; [done|].
    intros c g' [Hc|Hc]%waits_with_cons; [by eapply Hno|by eapply H].
  - unfold inputs_weight in *. cbn [sum_list_with]. lia.
Qed.

Lemma size_count_up c acc : size (count_up c acc) <= S (size acc).
Proof.
  unfold count_up. destruct (acc !! c) eqn:E; [rewrite map_size_insert_Some by eauto|rewrite map_size_insert_None by done]; lia.
Qed.

Lemma lookup_count_up c acc d :
  (default 0 (count_up c acc !! d) = default 0 (acc !! d) + if decide (d = c) then 1 else 0)%N.
Proof.
  unfold count_up. destruct (decide (d = c)) as [->|Hd]; [by rewrite lookup_insert_eq|].
  rewrite lookup_insert_ne by done. lia.
Qed.

Lemma set_input_ready i c g :
  set_input i -> in_state i = Ok (Ready (Some (c, g))) ->
  g = generation_of c /\ set_input (mkInput (in_stream i) (Ok NotReady)) /\
  (~ holds (mkInput (in_stream i) (Ok NotReady)) c) /\
  forall d, holds i d <-> d = c \/ holds (mkInput (in_stream i) (Ok NotReady)) d.
Proof.
  intros [Hi Hn] Es. destruct (input_ready i c g Hi Es) as (Hg & Hok & _).
  unfold set_input, holds, left_of in *. rewrite Es in *. cbn [in_state in_stream items fmap list_fmap fst] in *.
  apply NoDup_cons in Hn as [Hc Hn]. split; [done|]. split; [by split|]. split; [done|].
  intros d. by rewrite elem_of_cons.
Qed.

Lemma counted_take g i l acc found l' acc' c gen_id :
  set_input i -> in_state i = Ok (Ready (Some (c, gen_id))) -> (g <= gen_id)%N ->
  counted g l (if decide (Some gen_id = Some g) then count_up c acc else acc) found l' acc' ->
  counted g (i :: l) acc true (mkInput (in_stream i) (Ok NotReady) :: l') acc'.
Proof.
  intros Hi Es Hg [H1 H2 H3 H4 H5 H6]. destruct (set_input_ready i c gen_id Hi Es) as (Eg & Hok & Hc & Hh).
  split.
  - by constructor.
  - constructor; [|done]. split; [unfold left_of; by rewrite Es|]. intros d Hd. apply Hh. by right.
  - intros d Hd. cbn [held]. specialize (H3 d Hd). specialize (Hh d).
    destruct (decide (Some gen_id = Some g)) as [[= E]|Hne].
    + rewrite lookup_count_up in H3. destruct (decide (d = c)) as [->|Hdc].
      * rewrite (decide_False (P := holds (mkInput _ _) c)), (decide_True (P := holds i c)) by tauto. lia.
      * destruct (decide (holds i d)), (decide (holds (mkInput _ _) d)); try tauto; lia.
    + assert (d <> c) by (intros ->; destruct Hne; f_equal; lia).
      destruct (decide (holds i d)), (decide (holds (mkInput _ _) d)); try tauto; lia.
  - intros d. rewrite H4, waits_with_cons, Es. destruct (decide (Some gen_id = Some g)) as [[= ->]|Hne].
    + unfold count_up. destruct (decide (d = c)) as [->|Hdc].
      * rewrite lookup_insert_eq. split; [intros _; right; by left|intros _; left; by eexists].
      * rewrite lookup_insert_ne by done. split; [tauto|]. intros [?|[[= ->]|?]]; [by left|done|by right].
    + split; [tauto|]. intros [?|[[= -> ->]|?]]; [by left|done|by right].
  - done.
  - assert (size (if decide (Some gen_id = Some g) then count_up c acc else acc) <= S (size acc)).
    { destruct (decide _); [apply size_count_up|lia]. }
    unfold inputs_weight in *. cbn [sum_list_with]. unfold input_weight at 1 3. rewrite Es. cbn [in_stream in_state].
    destruct found; lia.
Qed.

Lemma count_loop_spec g l : forall acc,
  Forall set_input l ->
  let '(found, l', acc') := accumulate_loop (Some g) l acc in counted g l acc found l' acc'.
Proof.
  induction l as [|i l IH]; intros acc Hl; cbn [accumulate_loop].
  { split; unfold waits_with; try done; try set_solver. cbn. lia. }
  apply Forall_cons in Hl as [Hi Hl]. pose proof (IH acc Hl) as IH0.
  destruct (in_state i) as [[|[[c g']|]]|e|] eqn:Es;
    try (destruct (accumulate_loop (Some g) l acc) as [[found0 l0] acc0]; apply counted_skip; [done| |done]; congruence).
  specialize (IH (if decide (Some g' = Some g) then count_up c acc else acc) Hl).
  destruct (accumulate_loop (Some g) l (if decide (Some g' = Some g) then count_up c acc else acc)) as [[found1 l1] acc1].
  cbn [at_least]. destruct (N.leb_spec g g') as [Hg|Hg]; [by eapply counted_take|].
  rewrite decide_False in IH by (intros [= ->]; lia). apply counted_skip; [done| |done]. intros d g'' E. congruence.
Qed.

(** ** Each step keeps to the invariant *)

Lemma any_finished l : any_input_finished l = true -> l = [] \/ exists i, i ∈ l /\ finished i = true.
Proof.
  unfold any_input_finished. destruct l as [|i l]; [by left|]. intros (j & Hj & Hf)%existsb_exists.
  right. exists j. by rewrite list_elem_of_In.
Qed.

Lemma none_finished l i : any_input_finished l = false -> i ∈ l -> finished i = false.
Proof.
  unfold any_input_finished. destruct l as [|j l]; [done|]. intros Hf Hi.
  destruct (finished i) eqn:E; [|done].
  rewrite (proj2 (existsb_exists finished (j :: l))) in Hf; [done|]. exists i. by rewrite <- list_elem_of_In.
Qed.

Lemma intersect_done_result s : intersect_done s = true -> intersect_result s [].
Proof.
  unfold intersect_done. intros Hdone. split; [apply revset_nil|]. split; [set_solver|]. left. split; [done|].
  unfold content, count, drained. destruct (drain s) as [d|]; [done|].
  apply andb_true_iff in Hdone as [Hacc%bool_decide_eq_true Hf].
  intros c [Hc|[Hne Hcnt]]; [by apply elem_of_nil in Hc|]. rewrite Hacc, lookup_empty in Hcnt.
  apply any_finished in Hf as [?|(i & Hi & Hf)]; [done|]. exfalso.
  assert (~ holds i c) as Hn by (unfold holds; rewrite finished_left by done; apply not_elem_of_nil).
  pose proof (held_lt (inputs s) c i Hi Hn). cbn [from_option id] in Hcnt. lia.
Qed.

(** All inputs have an item: what one holds is at most that high. *)
Lemma held_below_ready l i c :
  Forall set_input l -> all_inputs_ready l = true -> i ∈ l -> holds i c ->
  exists d g, in_state i = Ok (Ready (Some (d, g))) /\ (generation_of c <= g)%N.
Proof.
  intros Hl Hr Hi Hc. destruct (all_ready_state l i Hr Hi) as [[[d g]|] Es].
  - exists d, g. split; [done|]. rewrite Forall_forall in Hl. destruct (Hl i Hi) as [Hok _].
    destruct (input_ready i d g Hok Es) as (Eg & _ & Hh). rewrite Eg.
    destruct (proj1 (Hh c) Hc) as [E|[_ Hle]]; [by rewrite E|by rewrite <- Eg].
  - by apply input_finished in Hc.
Qed.

Definition advanced (s s' : IntersectNodeStream) : Prop :=
  intersect_inv s' /\ (intersect_done s' = false -> intersect_weight s' < intersect_weight s) /\
  forall evs, intersect_result s' evs -> intersect_result s evs.

Lemma intersect_start s :
  intersect_inv s -> all_inputs_ready (inputs s) = true ->
  current_generation s = None -> accumulator s = ∅ -> drain s = None ->
  exists s', advance s = Ok s' /\ ((intersect_done s' = true /\ intersect_done s = true) \/ advanced s s').
Proof.
  intros [H1 H0 H2 H3 H4 H5] Hr Hcur Hacc Hd. unfold advance. rewrite Hcur, decide_True by done.
  unfold update_current_generation. rewrite Hr.
  destruct (ready_generations_spec (inputs s) Hr) as (gens & -> & Hgens). rewrite bind_Ok.
  eexists. split; [done|]. unfold intersect_done. cbn [inputs accumulator drain]. rewrite Hd, Hacc.
  rewrite bool_decide_eq_true_2 by done. destruct (any_input_finished (inputs s)) eqn:Hf; [by left|]. right.
  pose proof (min_of_list gens) as Hmin. unfold drained in *. rewrite Hd in *.
  assert (exists g j d, min_of gens = Some g /\ j ∈ inputs s /\ in_state j = Ok (Ready (Some (d, g)))) as (g & j & d & Eg & Hj & Es).
  { destruct (min_of gens) as [g|].
    - destruct Hmin as [(j & d & Hj & Es)%Hgens _]. by exists g, j, d.
    - exfalso. destruct (inputs s) as [|i l] eqn:Ei; [done|].
      destruct (all_ready_state (i :: l) i Hr ltac:(by left)) as [[[c g]|] Es].
      + assert (g ∈ gens) by (apply Hgens; exists i, c; split; [by left|done]). subst gens. set_solver.
      + pose proof (none_finished _ i Hf ltac:(by left)) as Hfi. unfold finished in Hfi. by rewrite Es in Hfi. }
  rewrite Eg. split; [|split].
  - split; unfold drained; cbn [inputs drain accumulator current_generation]; [done|done|done|by left| |].
    + intros g' [= <-]. split; [|split].
      * exists j. split; [done|]. intros c Hc.
        destruct (held_below_ready _ j c H1 Hr Hj Hc) as (d' & g' & Es' & Hle). congruence.
      * intros c. rewrite lookup_empty. by intros [? ?].
      * intros _. by exists j, d.
    + done.
  - intros _. unfold intersect_weight, drained, phase_weight. cbn [inputs drain accumulator current_generation].
    rewrite Hd, Hcur, Hacc, !decide_True by done. lia.
  - intros evs. unfold intersect_result, content, count, drained. cbn [inputs drain accumulator]. by rewrite Hd, Hacc.
Qed.

Lemma entries_fst {HL : HashOrderLaws HO} m c : c ∈ (entries m).*1 <-> is_Some (m !! c).
Proof.
  unfold entries. rewrite <- list_fmap_compose. cbn [compose fst]. unfold compose. cbn [fst].
  rewrite list_fmap_id, hash_order_perm, elem_of_elements. apply elem_of_dom.
Qed.

Lemma entries_elem {HL : HashOrderLaws HO} m c k : (c, k) ∈ entries m <-> m !! c = Some k.
Proof.
  unfold entries. rewrite list_elem_of_fmap. setoid_rewrite hash_order_perm. setoid_rewrite elem_of_elements.
  setoid_rewrite elem_of_dom. split.
  - intros (d & [= -> ->] & [k' Hk]). by rewrite Hk.
  - intros Hk. exists c. split; [by rewrite Hk|by eexists].
Qed.

Lemma entries_NoDup {HL : HashOrderLaws HO} m : NoDup (entries m).*1.
Proof.
  unfold entries. rewrite <- list_fmap_compose. unfold compose. cbn [fst].
  rewrite list_fmap_id, hash_order_perm. apply NoDup_elements.
Qed.

Lemma length_entries {HL : HashOrderLaws HO} m : length (entries m) = size m.
Proof. unfold entries. rewrite length_fmap, hash_order_perm, <- size_dom. reflexivity. Qed.

Lemma intersect_turn {HL : HashOrderLaws HO} s :
  intersect_inv s -> current_generation s = None -> accumulator s <> ∅ -> drain s = None ->
  exists s', advance s = Ok s' /\ advanced s s'.
Proof.
  intros [H1 H0 H2 H3 H4 H5] Hcur Hacc Hd. unfold advance. rewrite Hcur, decide_False by done.
  eexists. split; [done|]. unfold drained in *. rewrite Hd in *.
  assert (forall c, ~ is_Some ((∅ : gmap ChangesetId N) !! c)) as Hno by (intros c; rewrite lookup_empty; by intros [? ?]).
  split; [|split].
  - split; unfold drained; cbn [inputs drain accumulator current_generation from_option id];
      [done|done|by apply entries_NoDup|by right|done|].
    intros x _ [Hx|Hx]; [|by apply Hno in Hx]. apply entries_fst in Hx.
    destruct (H5 x Hcur (or_intror Hx)) as [Hlt Hg]. split; [done|].
    intros c [Hc|Hc]; [|by apply Hno in Hc]. apply Hg. right. by apply entries_fst.
  - intros _. unfold intersect_weight, drained, phase_weight. cbn [inputs drain accumulator current_generation from_option id].
    rewrite Hd, Hcur, (decide_True (P := ∅ = ∅)), (decide_False (P := accumulator s = ∅)), length_entries by done.
    assert (size (accumulator s) <> 0) by (intros E; apply Hacc; by apply map_size_empty_inv).
    rewrite map_size_empty. cbn [from_option id length]. lia.
  - intros evs. assert (forall c, content (mkIntersect (inputs s) None ∅ (Some (entries (accumulator s)))) c <-> content s c) as Hc.
    { intros c. unfold content, count, drained. cbn [inputs accumulator drain from_option id].
      rewrite Hd, entries_elem, lookup_empty. cbn [from_option id].
      assert (is_Some (accumulator s !! c) -> held (inputs s) c = 0%N) as Hz.
      { intros Ha. apply held_zero. intros i Hi Hh. destruct (H5 c Hcur (or_intror Ha)) as [Hlt _].
        specialize (Hlt c ltac:(by exists i)). lia. }
      unfold lenN. destruct (accumulator s !! c) as [k|]; cbn [from_option id].
      - rewrite Hz by by eexists. split.
        + intros [[= ->]|[Hne E]]; [right|destruct (inputs s); [done|cbn in E; lia]].
          split; [|lia]. intros E. specialize (H0 E). done.
        + intros [?%elem_of_nil|[Hne E]]; [done|]. left. f_equal. lia.
      - split; [|intros [?%elem_of_nil|?]; [done|by right]]. intros [?|?]; [done|by right]. }
    unfold intersect_result. setoid_rewrite Hc. done.
Qed.

Lemma intersect_collect s g :
  intersect_inv s -> all_inputs_ready (inputs s) = true ->
  current_generation s = Some g -> drain s = None ->
  exists s', advance s = Ok s' /\ advanced s s'.
Proof.
  intros [H1 H0 H2 H3 H4 H5] Hr Hcur Hd. unfold advance. rewrite Hcur. eexists. split; [done|].
  unfold accumulate_nodes. rewrite Hcur.
  pose proof (count_loop_spec g (inputs s) (accumulator s) H1) as Hloop.
  destruct (accumulate_loop (Some g) (inputs s) (accumulator s)) as [[found l'] acc'].
  destruct Hloop as [A1 A2 A3 A4 A5 A6]. destruct (H4 g Hcur) as ((j & Hj & Hjle) & Hg & Hex).
  unfold drained in *. rewrite Hd in *.
  assert (acc' <> ∅) as Hne.
  { assert (exists c, is_Some (accumulator s !! c) \/ waits_with (inputs s) g c) as (c & Hc%A4).
    - destruct (decide (accumulator s = ∅)) as [E|E].
      + destruct (Hex E) as (i & c & Hi & Es). exists c. right. by exists i.
      + apply map_choose in E as (c & k & Hk). exists c. left. by exists k.
    - intros ->. rewrite lookup_empty in Hc. by destruct Hc. }
  assert (forall c, is_Some (acc' !! c) -> generation_of c = g) as Hg'.
  { intros c [Hc|(i & Hi & Es)]%A4; [by apply Hg|]. rewrite Forall_forall in H1.
    by destruct (set_input_ready i c g (H1 i Hi) Es) as (-> & _). }
  assert (exists j', j' ∈ l' /\ forall c, holds j' c -> (generation_of c <= g)%N) as (j' & Hj' & Hjle').
  { destruct (Forall2_elem_of_l' _ _ _ _ A2 Hj) as (j' & Hj' & _ & Hsub). exists j'. split; [done|]. auto. }
  assert (lenN l' = lenN (inputs s)) as Hlen by (unfold lenN; by rewrite (Forall2_length _ _ _ A2)).
  split; [|split].
  - split; unfold drained; cbn [inputs drain accumulator current_generation from_option id];
      [done| |done|by left| |].
    + intros ->. apply Forall2_nil_inv_r in A2. rewrite A2 in Hj. by apply elem_of_nil in Hj.
    + intros g' E. destruct found; [|done]. injection E as <-. split; [by exists j'|]. by split.
    + intros x E [Hx|Hx]; [by apply elem_of_nil in Hx|]. destruct found; [done|].
      destruct (A5 eq_refl) as (-> & -> & Hlow). rewrite (Hg' x Hx). split.
      * intros c (i & Hi & Hc). destruct (held_below_ready _ i c H1 Hr Hi Hc) as (d & g' & Es & Hle).
        assert (g' < g)%N; [|lia]. apply (Hlow d). by exists i.
      * intros c [?%elem_of_nil|?]; [done|by apply Hg'].
  - intros _. unfold intersect_weight, drained, phase_weight. cbn [inputs drain accumulator current_generation].
    rewrite Hd, Hcur. destruct found.
    + rewrite (decide_False (P := acc' = ∅)) by done. destruct (decide (accumulator s = ∅)); lia.
    + destruct (A5 eq_refl) as (-> & -> & _). rewrite !(decide_False (P := accumulator s = ∅)) by done. lia.
  - intros evs.
    assert (forall c, content (mkIntersect l' (if found then Some g else None) acc' None) c <-> content s c) as Hc.
    { intros c. unfold content, drained. cbn [inputs drain from_option id]. rewrite Hlen, Hd. cbn [from_option id].
      assert (l' <> [] <-> inputs s <> []) as ->.
      { split; intros Hn E; [rewrite E in Hj|rewrite E in Hj']; by apply elem_of_nil in Hj || apply elem_of_nil in Hj'. }
      unfold count. cbn [inputs accumulator].
      destruct (N.le_gt_cases (generation_of c) g) as [Hcg|Hcg]; [by rewrite A3|].
      assert (forall m : gmap ChangesetId N, (forall d, is_Some (m !! d) -> generation_of d = g) -> default 0%N (m !! c) = 0%N) as Hz.
      { intros m Hm. destruct (m !! c) eqn:E; [|done]. specialize (Hm c ltac:(by eexists)). lia. }
      rewrite !Hz by done.
      pose proof (held_lt (inputs s) c j Hj ltac:(intros Hh; specialize (Hjle c Hh); lia)).
      pose proof (held_lt l' c j' Hj' ltac:(intros Hh; specialize (Hjle' c Hh); lia)).
      split; (intros [?%elem_of_nil|[_ E]]; [done|lia]). }
    assert (forall e, any_fail l' e <-> any_fail (inputs s) e) as Hf.
    { clear -A2. intros e. induction A2 as [|i i' l l' [Hi _] _ IH]; [done|]. by rewrite !any_fail_cons, IH, Hi. }
    unfold intersect_result. setoid_rewrite Hc. cbn [inputs]. setoid_rewrite Hf. done.
Qed.

Lemma intersect_rest_ok {HL : HashOrderLaws HO} s w :
  intersect_inv s -> drain s = None -> intersect_weight s <= w ->
  (Exists (fun i => in_state i = Ok NotReady) (inputs s) -> intersect_weight s < w) ->
  intersect_next w (intersect_result s) (intersect_rest s).
Proof.
  intros Hs Hd Hw Hlt. unfold intersect_rest. destruct (first_error (inputs s)) as [e|] eqn:He.
  { destruct (first_error_Some _ _ He) as (i & Hi & Es). split; [apply revset_nil|]. split; [set_solver|].
    right. exists e. split; [|done]. exists i. split; [done|]. unfold left_of. by rewrite Es. }
  assert (Forall input_ok (inputs s)) as Hok.
  { eapply Forall_impl; [apply Hs|]. by intros i [? _]. }
  destruct (all_inputs_ready (inputs s)) eqn:Hr.
  - assert (exists s', advance s = Ok s' /\
      ((intersect_done s' = true /\ intersect_done s = true) \/ advanced s s')) as (s' & -> & Hs').
    { destruct (current_generation s) as [g|] eqn:Hcur.
      { destruct (intersect_collect s g Hs Hr Hcur Hd) as (s' & ? & ?). exists s'. auto. }
      destruct (decide (accumulator s = ∅)) as [Hacc|Hacc]; [by apply intersect_start|].
      destruct (intersect_turn s Hs Hcur Hacc Hd) as (s' & ? & ?). exists s'. auto. }
    destruct Hs' as [[-> Hdone]|(Hs' & Hw' & HR)]; [by apply intersect_done_result|].
    destruct (intersect_done s') eqn:Hdone; [by apply HR, intersect_done_result|].
    split; [done|]. split; [specialize (Hw' eq_refl); lia|auto].
  - assert (Exists (fun i => in_state i = Ok NotReady) (inputs s)) as Hex.
    { apply not_all_ready; [by apply no_panic|done|done]. }
    split; [done|]. split; [specialize (Hlt Hex); lia|done].
Qed.

Lemma intersect_step_ok {HL : HashOrderLaws HO} s :
  intersect_inv s -> step_ok intersect_step intersect_inv intersect_weight intersect_result s.
Proof.
  intros Hs. unfold step_ok, intersect_step. pose proof (intersect_polled_inv s Hs) as Hp.
  pose proof (poll_all_weight (inputs s)) as [Hw1 Hw2]. rewrite no_panic.
  2: { eapply Forall_impl; [apply Hp|]. by intros i [? _]. }
  set (s1 := with_inputs s (poll_all_inputs (inputs s))) in *.
  assert (intersect_weight s1 <= intersect_weight s /\
          (Exists (fun i => in_state i = Ok NotReady) (inputs s1) -> intersect_weight s1 < intersect_weight s)) as [Hle Hlt].
  { unfold intersect_weight, phase_weight, drained. cbn [s1 with_inputs inputs accumulator drain current_generation].
    split; [lia|]. intros H. specialize (Hw2 H). lia. }
  apply (next_ok_weaken _ _ _ (intersect_weight s) _ (intersect_result s1)); [done|intros evs; apply polled_result|].
  destruct (drain_next _ _) as [[x d]|] eqn:Ed; [by apply (intersect_drain_ok s1)|].
  set (s2 := mkIntersect _ _ _ None).
  pose proof (drain_next_spec (lenN (inputs s1)) (drained s1)) as Hno.
  change (drain_next (lenN (inputs s1)) (drained s1) = None) in Ed. rewrite Ed in Hno.
  assert (intersect_weight s2 <= intersect_weight s1) as E2.
  { unfold intersect_weight, drained. cbn [s1 s2 with_inputs inputs accumulator drain from_option id length].
    unfold phase_weight. cbn [s1 s2 with_inputs current_generation accumulator]. lia. }
  apply (next_ok_weaken _ _ _ (intersect_weight s) _ (intersect_result s2)); [done| |].
  - intros evs. assert (forall c, content s2 c <-> content s1 c) as Hc.
    { intros c. unfold content, drained in *. cbn [s1 s2 with_inputs inputs drain from_option id] in *.
      split; (intros [H|H]; [|by right]); [by apply elem_of_nil in H|by apply Hno in H]. }
    unfold intersect_result. by setoid_rewrite Hc.
  - apply intersect_rest_ok; [|done|lia|intros H; specialize (Hlt H); lia].
    destruct Hp as [P1 P0 P2 P3 P4 P5]. unfold drained in *.
    split; unfold drained; cbn [s1 s2 with_inputs inputs accumulator drain current_generation from_option id] in *;
      [done|done|constructor|by left|done|].
    intros x Hn [Hx|Hx]; [by apply elem_of_nil in Hx|]. destruct (P5 x Hn (or_intror Hx)) as [Hlt' Hg].
    split; [done|]. intros c [Hc|Hc]; [by apply elem_of_nil in Hc|]. apply Hg. by right.
Qed.

Lemma intersect_runs {HL : HashOrderLaws HO} {known : ChangesetId -> Prop} {L : FetcherLaws known} ss :
  Forall (good_input (known := known)) ss -> Forall (fun s => NoDup (items s)) ss ->
  exists evs, runs intersect_step (IntersectNodeStream_new ss) evs /\ revset (items evs) /\
    (forall c, c ∈ items evs -> ss <> [] /\ forall s, s ∈ ss -> c ∈ items s) /\
    ((ends evs = Ok tt /\ (ss <> [] -> forall c, (forall s, s ∈ ss -> c ∈ items s) -> c ∈ items evs)) \/
     exists s e, s ∈ ss /\ ends s = Err e /\ ends evs = Err e).
Proof.
  intros Hss Hnd.
  assert (forall c, content (IntersectNodeStream_new ss) c <-> ss <> [] /\ forall s, s ∈ ss -> c ∈ items s) as Hc.
  { intros c. unfold content, count, drained. cbn [IntersectNodeStream_new inputs accumulator drain from_option id].
    rewrite lookup_empty. cbn [from_option id]. rewrite N.add_0_l, held_all, (new_all_hold ss c Hss).
    assert (new_inputs ss <> [] <-> ss <> []) as -> by by destruct ss.
    split; [intros [?%elem_of_nil|?]; done|by right]. }
  assert (intersect_inv (IntersectNodeStream_new ss)) as Hinv.
  { split; unfold drained; cbn; [|done|constructor|by left|done|].
    - apply Forall_fmap, Forall_forall. intros s Hs. rewrite Forall_forall in Hss, Hnd.
      destruct (new_input_ok s (Hss s Hs)) as (H1 & H2 & H3). split; [done|].
      cbn [compose]. unfold left_of. cbn [in_state in_stream].
      destruct (Hss s Hs) as (Hk & _). destruct (add_generations_known s Hk) as [-> _].
      unfold with_generations. rewrite <- list_fmap_compose. unfold compose. cbn [fst]. rewrite list_fmap_id. by apply Hnd.
    - intros x _ [?%elem_of_nil|H]; [done|]. rewrite lookup_empty in H. by destruct H. }
  destruct (runs_steps _ _ _ _ intersect_step_ok (IntersectNodeStream_new ss) Hinv) as (evs & Hruns & Hr & Hin & Hend).
  exists evs. split; [done|]. split; [done|]. split; [by intros c ?%Hin%Hc|].
  destruct Hend as [[He Hall]|(e & Hf & He)]; [left|right].
  - split; [done|]. intros Hne c Hcs. by apply Hall, Hc.
  - apply (new_any_fail ss e Hss) in Hf as (s & Hs & Hf). by exists s, e.
Qed.

(** The intersection of revsets of stored changesets ends and is a
    revset. Its items are in every input; when no input fails (or one that
    fails is not needed) it has all of those, and otherwise it ends in the
    error of an input. Of no inputs at all the intersection is empty. *)
Theorem intersect_exact {HL : HashOrderLaws HO} {known : ChangesetId -> Prop} {L : FetcherLaws known} ss :
  Forall (good_input (known := known)) ss -> Forall (fun s => NoDup (items s)) ss ->
  exists evs, runs intersect_step (IntersectNodeStream_new ss) evs /\ revset (items evs) /\
    (forall c, c ∈ items evs -> ss <> [] /\ forall s, s ∈ ss -> c ∈ items s) /\
    ((ends evs = Ok tt /\ (ss <> [] -> forall c, (forall s, s ∈ ss -> c ∈ items s) -> c ∈ items evs)) \/
     exists s e, s ∈ ss /\ ends s = Err e /\ ends evs = Err e).
Proof. apply intersect_runs. Qed.
End intersect.
