(* ===== verification/DifferenceStream.v ===== *)
(** * Differences of revsets

    Model of [SetDifferenceNodeStream] of
    [src/revset/src/setdifferencenodestream.rs]. For each item to keep, the
    items to remove are read up to its generation, and those of that very
    generation are remembered. *)

From S2P Require Import Prelude Hash Bonsai Graph Revset.

Record SetDifferenceNodeStream := mkDifference {
  keep_input : stream (ChangesetId * Generation);
  next_keep : poll (option (ChangesetId * Generation));
  remove_input : stream (ChangesetId * Generation);
  next_remove : poll (option (ChangesetId * Generation));
  remove_nodes : gset ChangesetId;
  remove_generation : option Generation
}.

Section difference.
Context {F : ChangesetFetcher}.

Definition SetDifferenceNodeStream_new (keep remove : stream ChangesetId) : SetDifferenceNodeStream :=
  mkDifference (add_generations_by_bonsai keep) NotReady (add_generations_by_bonsai remove) NotReady ∅ None.

(** [next_keep] and [next_remove]: poll unless there is a result already. *)
Definition poll_next (input : stream (ChangesetId * Generation)) (next : poll (option (ChangesetId * Generation)))
    : stream (ChangesetId * Generation) * Poll (ChangesetId * Generation) :=
  match next with
  | NotReady => poll_stream input
  | Ready _ => (input, Ok next)
  end.

(** What the inner loop does with an item: remember it, skip it, or stop. *)
Inductive removal := Remember | Skip | Stop.

Definition judge (keep_gen gen : Generation) : removal :=
  if (gen =? keep_gen)%N then Remember else if (keep_gen <? gen)%N then Skip else Stop.

(** The inner loop from where it polls: the input that is left, the result of
    the last poll, and the nodes to remove. *)
Fixpoint gather_loop (keep_gen : Generation) (input : stream (ChangesetId * Generation)) (nodes : gset ChangesetId)
    : stream (ChangesetId * Generation) * Poll (ChangesetId * Generation) * gset ChangesetId :=
  match input with
  | [] => ([], Ok (Ready None), nodes)
  | EvPending :: input => (input, Ok NotReady, nodes)
  | EvError e :: input => (input, Err e, nodes)
  | EvPanic :: input => (input, Panic, nodes)
  | EvItem (hash, gen) :: input =>
      match judge keep_gen gen with
      | Remember => gather_loop keep_gen input ({[hash]} ∪ nodes)
      | Skip => gather_loop keep_gen input nodes
      | Stop => (input, Ok (Ready (Some (hash, gen))), nodes)
      end
  end.

Definition gather (keep_gen : Generation) (input : stream (ChangesetId * Generation))
    (next : poll (option (ChangesetId * Generation))) (nodes : gset ChangesetId)
    : stream (ChangesetId * Generation) * Poll (ChangesetId * Generation) * gset ChangesetId :=
  match next with
  | NotReady => gather_loop keep_gen input nodes
  | Ready None => (input, Ok next, nodes)
  | Ready (Some (hash, gen)) =>
      match judge keep_gen gen with
      | Remember => gather_loop keep_gen input ({[hash]} ∪ nodes)
      | Skip => gather_loop keep_gen input nodes
      | Stop => (input, Ok next, nodes)
      end
  end.

(** The iteration from the item to keep on. *)
Definition difference_keep (d : SetDifferenceNodeStream) (keep : stream (ChangesetId * Generation))
    (keep_hash : ChangesetId) (keep_gen : Generation) : SetDifferenceNodeStream * option (Poll ChangesetId) :=
  let next_keep := Ready (Some (keep_hash, keep_gen)) in
  let nodes := if decide (remove_generation d = Some keep_gen) then remove_nodes d else ∅ in
  match gather keep_gen (remove_input d) (next_remove d) nodes with
  | (remove, Ok NotReady, nodes) =>
      (mkDifference keep next_keep remove NotReady nodes (Some keep_gen), Some (Ok NotReady))
  | (remove, Err e, nodes) =>
      (mkDifference keep next_keep remove NotReady nodes (Some keep_gen), Some (Err e))
  | (remove, Panic, nodes) =>
      (mkDifference keep next_keep remove NotReady nodes (Some keep_gen), Some Panic)
  | (remove, Ok (Ready next), nodes) =>
      (mkDifference keep NotReady remove (Ready next) nodes (Some keep_gen),
       if decide (keep_hash ∈ nodes) then None else Some (Ok (Ready (Some keep_hash))))
  end.

Definition difference_step (d : SetDifferenceNodeStream) : SetDifferenceNodeStream * option (Poll ChangesetId) :=
  let put keep next := mkDifference keep next (remove_input d) (next_remove d) (remove_nodes d) (remove_generation d) in
  match poll_next (keep_input d) (next_keep d) with
  | (keep, Ok NotReady) => (put keep NotReady, Some (Ok NotReady))
  | (keep, Ok (Ready None)) => (put keep (Ready None), Some (Ok (Ready None)))
  | (keep, Err e) => (put keep NotReady, Some (Err e))
  | (keep, Panic) => (put keep NotReady, Some Panic)
  | (keep, Ok (Ready (Some (keep_hash, keep_gen)))) => difference_keep d keep keep_hash keep_gen
  end.

(** ** What is still to come *)

Definition left_of (input : stream (ChangesetId * Generation)) (next : poll (option (ChangesetId * Generation)))
    : stream (ChangesetId * Generation) :=
  match next with
  | NotReady => input
  | Ready None => []
  | Ready (Some x) => EvItem x :: input
  end.

Definition ordered (s : stream (ChangesetId * Generation)) (l : list ChangesetId) : Prop :=
  items s = with_generations l /\ descending l /\ ends s <> Panic.

Definition kept (N : gset ChangesetId) (Rm K : list ChangesetId) : list ChangesetId :=
  List.filter (fun c => bool_decide ((c ∉ N) /\ c ∉ Rm)) K.

Lemma kept_cons N Rm x K :
  kept N Rm (x :: K) = if bool_decide ((x ∉ N) /\ x ∉ Rm) then x :: kept N Rm K else kept N Rm K.
Proof. done. Qed.

(** Only whether a changeset is to be removed matters. *)
Lemma kept_ext N Rm N' Rm' K :
  (forall c, c ∈ K -> (c ∈ N \/ c ∈ Rm) <-> (c ∈ N' \/ c ∈ Rm')) -> kept N Rm K = kept N' Rm' K.
Proof.
  induction K as [|x K IH]; intros H; [done|]. rewrite !kept_cons, IH by (intros; apply H; by right).
  specialize (H x ltac:(by left)).
  by rewrite (bool_decide_ext ((x ∉ N) /\ x ∉ Rm) ((x ∉ N') /\ x ∉ Rm')) by tauto.
Qed.

Record difference_inv (d : SetDifferenceNodeStream) (K Rm : list ChangesetId) : Prop := {
  inv_keep : ordered (left_of (keep_input d) (next_keep d)) K;
  inv_remove : ordered (left_of (remove_input d) (next_remove d)) Rm;
  inv_above g c : remove_generation d = Some g -> c ∈ K -> (generation_of c <= g)%N;
  inv_nodes c : c ∈ remove_nodes d -> remove_generation d = Some (generation_of c)
}.

Definition next_weight (next : poll (option (ChangesetId * Generation))) : nat :=
  match next with Ready (Some _) => 1 | _ => 0 end.

Definition difference_weight (d : SetDifferenceNodeStream) : nat :=
  2 * length (keep_input d) + next_weight (next_keep d) + length (left_of (remove_input d) (next_remove d)).

(** The stream still to come: what is kept, or an error of the other input. *)
Definition gives (keep remove : stream (ChangesetId * Generation)) (l : list ChangesetId)
    (evs : stream ChangesetId) : Prop :=
  (items evs = l /\ ends evs = ends keep) \/
  (exists e, ends remove = Err e /\ ends evs = Err e /\ items evs `prefix_of` l).

Definition difference_result (d : SetDifferenceNodeStream) (evs : stream ChangesetId) : Prop :=
  forall K Rm, difference_inv d K Rm ->
  gives (left_of (keep_input d) (next_keep d)) (left_of (remove_input d) (next_remove d))
    (kept (remove_nodes d) Rm K) evs.

(** What the inner loop does to the items to remove. *)
Record gathered (g : Generation) (Rm : list ChangesetId) (old : stream (ChangesetId * Generation))
    (nodes : gset ChangesetId) (input : stream (ChangesetId * Generation))
    (next : poll (option (ChangesetId * Generation))) (nodes' : gset ChangesetId) (Rm' : list ChangesetId) : Prop := {
  g_ordered : ordered (left_of input next) Rm';
  g_nodes c : c ∈ nodes' -> c ∈ nodes \/ generation_of c = g;
  g_same c : (generation_of c <= g)%N -> c ∈ nodes \/ c ∈ Rm <-> c ∈ nodes' \/ c ∈ Rm';
  g_below : next <> NotReady -> forall c, c ∈ Rm' -> (generation_of c < g)%N;
  g_ends : ends (left_of input next) = ends old;
  g_weight : length (left_of input next) + (match next with NotReady => 1 | _ => 0 end) <= length old
}.

Lemma descending_cons x l :
  descending (x :: l) <-> descending l /\ forall y, y ∈ l -> (generation_of y <= generation_of x)%N.
Proof.
  unfold descending. split.
  - intros H. apply StronglySorted_inv in H as [H1 H2]. by rewrite Forall_forall in H2.
  - intros [H1 H2]. constructor; [done|]. by apply Forall_forall.
Qed.

Lemma ordered_item c g s l :
  ordered (EvItem (c, g) :: s) l ->
  exists l', l = c :: l' /\ g = generation_of c /\ ordered s l' /\ forall y, y ∈ l' -> (generation_of y <= g)%N.
Proof.
  intros (Hi & Hd & He). symmetry in Hi. destruct (with_generations_cons _ _ _ _ Hi) as (l' & -> & -> & Hl).
  apply descending_cons in Hd as [Hd Hle]. exists l'. repeat split; try done.
Qed.

Lemma remove_loop_spec g s : forall nodes Rm,
  ordered s Rm ->
  match gather_loop g s nodes with
  | (input, Ok next, nodes') => exists Rm', gathered g Rm s nodes input next nodes' Rm'
  | (_, Err e, _) => ends s = Err e
  | (_, Panic, _) => False
  end.
Proof.
  induction s as [|ev s IH]; intros nodes Rm Hs; cbn [gather_loop].
  { destruct Hs as (Hi & Hd & He). symmetry in Hi. apply with_generations_nil in Hi as ->.
    exists []. split; try done; try tauto. intros _ c Hc. by apply elem_of_nil in Hc. }
  destruct ev as [|[c gen]|e|].
  - exists Rm. split; cbn; try done; try lia; tauto.
  - destruct (ordered_item c gen s Rm Hs) as (Rm' & -> & -> & Hs' & Hle). unfold judge.
    destruct (N.eqb_spec (generation_of c) g) as [Eg|Eg]; [|destruct (N.ltb_spec g (generation_of c)) as [Hg|Hg]].
    + specialize (IH ({[c]} ∪ nodes) Rm' Hs'). destruct (gather_loop g s ({[c]} ∪ nodes)) as [[input [next|e|]] nodes']; [|done|done].
      destruct IH as (Rm2 & [G1 G2 G3 G4 G5 G6]). exists Rm2. split; [done| | |done|done|cbn; lia].
      * intros d [Hd|Hd]%G2; [|by right]. apply elem_of_union in Hd as [->%elem_of_singleton|Hd]; [by right|by left].
      * intros d Hd. rewrite <- G3, elem_of_union, elem_of_singleton, elem_of_cons by done. tauto.
    + specialize (IH nodes Rm' Hs'). destruct (gather_loop g s nodes) as [[input [next|e|]] nodes']; [|done|done].
      destruct IH as (Rm2 & [G1 G2 G3 G4 G5 G6]). exists Rm2. split; [done|done| |done|done|cbn; lia].
      intros d Hd. rewrite <- G3, elem_of_cons by done. split; [|tauto].
      intros [?|[->|?]]; [by left|lia|by right].
    + exists (c :: Rm'). split; cbn; try done; try tauto; [|lia].
      intros _ d [->|Hd]%elem_of_cons; [lia|]. specialize (Hle d Hd). lia.
  - done.
  - by destruct Hs as (_ & _ & ?).
Qed.

Lemma gather_spec g input0 next0 nodes Rm :
  ordered (left_of input0 next0) Rm ->
  match gather g input0 next0 nodes with
  | (input, Ok next, nodes') => exists Rm', gathered g Rm (left_of input0 next0) nodes input next nodes' Rm'
  | (_, Err e, _) => ends (left_of input0 next0) = Err e
  | (_, Panic, _) => False
  end.
Proof.
  intros Hs. destruct next0 as [|[[c gen]|]].
  - by apply remove_loop_spec.
  - exact (remove_loop_spec g (EvItem (c, gen) :: input0) nodes Rm Hs).
  - exists Rm. pose proof Hs as (Hi & _). symmetry in Hi. apply with_generations_nil in Hi as ->.
    split; cbn; try done; try tauto. intros _ c Hc. by apply elem_of_nil in Hc.
Qed.

Definition has_inv (d : SetDifferenceNodeStream) : Prop := exists K Rm, difference_inv d K Rm.

Abbreviation difference_next := (next_ok has_inv difference_weight difference_result).

(** The iteration with the item [x] to keep, [K] coming after it. *)
Lemma difference_keep_ok d keep x K Rm w :
  ordered keep K -> (forall y, y ∈ K -> (generation_of y <= generation_of x)%N) ->
  ordered (left_of (remove_input d) (next_remove d)) Rm ->
  (forall g, remove_generation d = Some g -> (generation_of x <= g)%N) ->
  (forall c, c ∈ remove_nodes d -> remove_generation d = Some (generation_of c)) ->
  2 * length keep + 1 + length (left_of (remove_input d) (next_remove d)) <= w ->
  difference_next w (gives keep (left_of (remove_input d) (next_remove d)) (kept (remove_nodes d) Rm (x :: K)))
    (difference_keep d keep x (generation_of x)).
Proof.
  intros Hk Hle Hr Hg Hn Hw. unfold difference_keep.
  set (nodes := if decide _ then _ else _).
  assert (forall c, (generation_of c <= generation_of x)%N -> c ∈ remove_nodes d <-> c ∈ nodes) as Hnodes.
  { intros c Hc. unfold nodes. case_decide as E; [done|]. split; [|by intros ?%not_elem_of_empty].
    intros Hcn. specialize (Hn c Hcn). specialize (Hg _ Hn). destruct E. rewrite Hn. f_equal. lia. }
  assert (forall c, c ∈ nodes -> generation_of c = generation_of x) as Hngen.
  { intros c. unfold nodes. case_decide as E; [|by intros ?%not_elem_of_empty]. intros Hc%Hn. congruence. }
  pose proof (gather_spec (generation_of x) _ _ nodes Rm Hr) as Hgs.
  destruct (gather _ _ _ nodes) as [[input [next|e|]] nodes']; [| |done].
  2: { right. exists e. split; [done|]. split; [done|]. apply prefix_nil. }
  destruct Hgs as (Rm' & [G1 G2 G3 G4 G5 G6]).
  assert (forall c, c ∈ nodes' -> generation_of c = generation_of x) as Hn'.
  { intros c [Hc|Hc]%G2; [by apply Hngen|done]. }
  assert (kept (remove_nodes d) Rm (x :: K) = kept nodes' Rm' (x :: K)) as ->.
  { apply kept_ext. intros c Hc. assert (generation_of c <= generation_of x)%N.
    { apply elem_of_cons in Hc as [->|Hc]; [done|by apply Hle]. }
    rewrite Hnodes by done. by apply G3. }
  assert (forall c, c ∈ nodes' -> Some (generation_of x) = Some (generation_of c)) as Hn2.
  { intros c Hc. by rewrite (Hn' c Hc). }
  destruct next as [|o].
  - assert (ordered (left_of keep (Ready (Some (x, generation_of x)))) (x :: K)) as Hxk.
    { destruct Hk as (H1 & H2 & H3). split; [cbn; by rewrite H1|]. split; [by apply descending_cons|done]. }
    split; [|split].
    + exists (x :: K), Rm'. split; cbn; [done|done| |done]. intros g c [= <-] [->|Hc]%elem_of_cons; [done|by apply Hle].
    + unfold difference_weight. cbn [keep_input next_keep remove_input next_remove next_weight left_of] in *. lia.
    + intros evs Hevs. specialize (Hevs (x :: K) Rm'). cbn [keep_input next_keep remove_input next_remove remove_nodes] in Hevs.
      unfold gives in *. rewrite <- G5. apply Hevs. split; cbn; [done|done| |done].
      intros g c [= <-] [->|Hc]%elem_of_cons; [done|by apply Hle].
  - assert (difference_inv (mkDifference keep NotReady input (Ready o) nodes' (Some (generation_of x))) K Rm') as Hinv.
    { split; cbn [keep_input next_keep remove_input next_remove remove_generation remove_nodes left_of];
        [done|done| |done]. intros g c [= <-] Hc. by apply Hle. }
    assert (difference_weight (mkDifference keep NotReady input (Ready o) nodes' (Some (generation_of x))) < w) as Hw'.
    { unfold difference_weight. cbn [keep_input next_keep remove_input next_remove next_weight]. lia. }
    rewrite kept_cons. case_decide as Hx.
    + rewrite bool_decide_false by tauto. split; [by exists K, Rm'|]. split; [done|].
      intros evs Hevs. unfold gives. rewrite <- G5. exact (Hevs K Rm' Hinv).
    + rewrite bool_decide_true.
      2: { split; [done|]. intros Hc. specialize (G4 ltac:(done) x Hc). lia. }
      split; [by exists K, Rm'|]. split; [done|]. intros evs Hevs.
      destruct (Hevs K Rm' Hinv) as [[H1 H2]|(e & H1 & H2 & H3)];
        cbn [keep_input next_keep remove_input next_remove remove_nodes] in *.
      * left. cbn. by rewrite H1.
      * right. rewrite <- G5. exists e. cbn [items ends]. split; [done|]. split; [done|]. by apply prefix_cons.
Qed.

Lemma ordered_end s l : ordered s l -> s = [] -> l = [].
Proof. intros (H & _) ->. symmetry in H. by apply with_generations_nil in H. Qed.

Lemma difference_inv_unique d K Rm K' Rm' :
  difference_inv d K Rm -> difference_inv d K' Rm' -> K = K' /\ Rm = Rm'.
Proof.
  intros [[H1 _] [H2 _] _ _] [[H3 _] [H4 _] _ _]. split; apply with_generations_inj; congruence.
Qed.

Lemma difference_step_ok d : has_inv d -> step_ok difference_step has_inv difference_weight difference_result d.
Proof.
  intros (K & Rm & Hinv). unfold step_ok.
  apply (next_ok_weaken _ _ _ (difference_weight d) _
    (gives (left_of (keep_input d) (next_keep d)) (left_of (remove_input d) (next_remove d)) (kept (remove_nodes d) Rm K)));
    [done| |].
  { intros evs H K' Rm' Hinv'. by destruct (difference_inv_unique d K Rm K' Rm' Hinv Hinv') as [<- <-]. }
  pose proof Hinv as [Hk Hr Hab Hno]. unfold difference_step. destruct d as [ki nk ri nr rn rg].
  cbn [keep_input next_keep remove_input next_remove remove_nodes remove_generation] in *.
  assert (forall x g ki' K', ordered (EvItem (x, g) :: ki') K' -> K' = K ->
    2 * length ki' + 1 + length (left_of ri nr) <= difference_weight (mkDifference ki nk ri nr rn rg) ->
    difference_next (difference_weight (mkDifference ki nk ri nr rn rg))
      (gives (EvItem (x, g) :: ki') (left_of ri nr) (kept rn Rm K)) (difference_keep (mkDifference ki nk ri nr rn rg) ki' x g)) as Hitem.
  { intros x g ki' K' Hk' -> Hw. destruct (ordered_item x g ki' K Hk') as (K' & -> & -> & Hk2 & Hle).
    eapply (next_ok_weaken _ _ _ _ _ (gives ki' (left_of ri nr) (kept rn Rm (x :: K')))); [done|intros evs H; exact H|].
    apply (difference_keep_ok (mkDifference ki nk ri nr rn rg)); try done.
    intros g Hg. apply (Hab g x Hg). by left. }
  unfold difference_weight in *. cbn [keep_input next_keep remove_input next_remove next_weight] in *.
  destruct nk as [|[[x g]|]]; cbn [poll_next left_of next_weight] in *.
  2: { apply (Hitem x g ki K); [done|done|lia]. }
  2: { rewrite (ordered_end _ _ Hk eq_refl). by left. }
  destruct ki as [|[|[x g]|e|] ki]; cbn [poll_stream length] in *.
  - rewrite (ordered_end _ _ Hk eq_refl). by left.
  - split; [exists K, Rm; by split|]. split; [cbn [length next_weight keep_input next_keep remove_input next_remove]; lia|].
    intros evs Hevs. destruct (Hevs K Rm) as [?|?]; [by split|by left|by right].
  - apply (Hitem x g ki K); [done|done|lia].
  - destruct Hk as (Hk & _). symmetry in Hk. apply with_generations_nil in Hk as ->. by left.
  - by destruct Hk as (_ & _ & ?).
Qed.

(** The difference of two streams of stored changesets in order of
    falling generation ends, and is the first stream without the changesets of
    the second, in the order of the first; it ends the way the first does. When
    the second fails, it may end early, in that error. *)
Theorem difference_exact {known : ChangesetId -> Prop} {L : FetcherLaws known} keep remove :
  Forall known (items keep) -> descending (items keep) -> ends keep <> Panic ->
  Forall known (items remove) -> descending (items remove) -> ends remove <> Panic ->
  let rest := List.filter (fun c => bool_decide (c ∉ items remove)) (items keep) in
  exists evs, runs difference_step (SetDifferenceNodeStream_new keep remove) evs /\
    ((items evs = rest /\ ends evs = ends keep) \/
     exists e, ends remove = Err e /\ ends evs = Err e /\ items evs `prefix_of` rest).
Proof.
  intros Hk1 Hk2 Hk3 Hr1 Hr2 Hr3 rest.
  destruct (add_generations_known keep Hk1) as [Ek1 Ek2]. destruct (add_generations_known remove Hr1) as [Er1 Er2].
  assert (difference_inv (SetDifferenceNodeStream_new keep remove) (items keep) (items remove)) as Hinv.
  { split; cbn; [| |done|by intros c ?%not_elem_of_empty];
      (split; [done|]); (split; [done|]); by rewrite ?Ek2, ?Er2. }
  destruct (runs_steps _ _ _ _ difference_step_ok (SetDifferenceNodeStream_new keep remove)) as (evs & Hruns & Hres);
    [by exists (items keep), (items remove)|].
  exists evs. split; [done|]. specialize (Hres _ _ Hinv). unfold gives in Hres.
  cbn [keep_input next_keep remove_input next_remove remove_nodes left_of SetDifferenceNodeStream_new] in Hres.
  rewrite Ek2, Er2 in Hres. replace rest with (kept ∅ (items remove) (items keep)); [done|].
  unfold kept, rest. apply List.filter_ext. intros c. apply bool_decide_ext. set_solver.
Qed.
End difference.
