(* ===== verification/Ancestors.v ===== *)
(** * Streams of ancestors

    Model of [src/revset/src/ancestors.rs]: [AncestorsNodeStream], which gives
    the ancestors of a changeset one generation at a time, and the common
    ancestors of several changesets, as the intersection of such streams. *)

From S2P Require Import Prelude Hash Bonsai Graph Frontier Revset SetCommon IntersectStream.

Record AncestorsNodeStream := mkAncestors {
  next_generation : gmap Generation (gset ChangesetId);
  pending_changesets : stream (ChangesetId * Generation);
  anc_drain : list ChangesetId;
  sorted_unique_generations : UniqueHeap
}.

Section ancestors.
Context {F : ChangesetFetcher} {HO : HashOrder}.

Definition parents_stream (hash : ChangesetId) : stream ChangesetId :=
  match map_err ParentsFetchFailed (get_parents hash) with
  | Ok parents => iter_ok parents
  | Err e => [EvError e]
  | Panic => [EvPanic]
  end.

Definition make_pending (hashes : list ChangesetId) : stream (ChangesetId * Generation) :=
  add_generations_by_bonsai (mjoin (M := list) (parents_stream <$> hashes)).

Definition AncestorsNodeStream_new (hash : ChangesetId) : AncestorsNodeStream :=
  mkAncestors ∅ (make_pending (hash_order {[hash]})) (hash_order {[hash]}) UniqueHeap_new.

(** The loop over [pending_changesets]; a result when [poll] returns from it. *)
Fixpoint absorb (pending : stream (ChangesetId * Generation)) (m : gmap Generation (gset ChangesetId))
    (h : UniqueHeap)
    : stream (ChangesetId * Generation) * option (Poll ChangesetId) * gmap Generation (gset ChangesetId) * UniqueHeap :=
  match pending with
  | [] => ([], None, m, h)
  | EvItem (hash, generation) :: pending => absorb pending (gen_insert generation hash m) (heap_push generation h)
  | EvPending :: pending => (pending, Some (Ok NotReady), m, h)
  | EvError e :: pending => (pending, Some (Err e), m, h)
  | EvPanic :: pending => (pending, Some Panic, m, h)
  end.

(** Taking the next generation; the [expect]s are panics. *)
Definition pop_generation (m : gmap Generation (gset ChangesetId)) (h : UniqueHeap)
    : outcome fetch_error (Generation * list ChangesetId * gmap Generation (gset ChangesetId) * UniqueHeap) :=
  '(highest_generation, h) ← expect (heap_pop h);
  current_generation ← expect (m !! highest_generation);
  Ok (highest_generation, hash_order current_generation, delete highest_generation m, h).

Definition ancestors_step (s : AncestorsNodeStream) : AncestorsNodeStream * option (Poll ChangesetId) :=
  match anc_drain s with
  | x :: d =>
      (mkAncestors (next_generation s) (pending_changesets s) d (sorted_unique_generations s),
       Some (Ok (Ready (Some x))))
  | [] =>
      match absorb (pending_changesets s) (next_generation s) (sorted_unique_generations s) with
      | (pending, Some r, m, h) => (mkAncestors m pending [] h, Some r)
      | (pending, None, m, h) =>
          if decide (m = ∅) then (mkAncestors m pending [] h, Some (Ok (Ready None)))
          else match pop_generation m h with
          | Ok (_, x :: d, m, h) => (mkAncestors m (make_pending (x :: d)) d h, Some (Ok (Ready (Some x))))
          | Err e => (mkAncestors m pending [] h, Some (Err e))
          | _ => (mkAncestors m pending [] h, Some Panic)
          end
      end
  end.

(** The whole stream, polled with fuel [k]. *)
Definition ancestors_of (k : nat) (hash : ChangesetId) : option (stream ChangesetId) :=
  run ancestors_step k k (AncestorsNodeStream_new hash).

Definition common_ancestors (k : nat) (nodes : list ChangesetId) : option (stream ChangesetId) :=
  ancestors ← mapM (ancestors_of k) nodes;
  run intersect_step k k (IntersectNodeStream_new ancestors).

Definition greatest_common_ancestor (k : nat) (nodes : list ChangesetId) : option (stream ChangesetId) :=
  take_stream 1 <$> common_ancestors k nodes.

(** ** The pending changesets *)

Context {known : ChangesetId -> Prop} {L : FetcherLaws known}.

Definition work (P : list ChangesetId) : stream (ChangesetId * Generation) := iter_ok (with_generations P).

Lemma mjoin_iter_ok {A B} (f : A -> list B) l : mjoin (M := list) ((fun x => iter_ok (f x)) <$> l) = iter_ok (mjoin (f <$> l)).
Proof.
  unfold iter_ok. induction l as [|x l IH]; [done|]. rewrite !fmap_cons. cbn [mjoin list_join].
  rewrite fmap_app. f_equal. exact IH.
Qed.

Lemma add_generations_iter_ok l : Forall known l -> add_generations_by_bonsai (iter_ok l) = work l.
Proof using L.
  unfold add_generations_by_bonsai, work, iter_ok, with_generations.
  induction 1 as [|c l Hc _ IH]; [done|]. rewrite !fmap_cons, IH. unfold add_generation.
  by rewrite fetch_generation.
Qed.

Definition parents_of_all (l : list ChangesetId) : list ChangesetId := mjoin (parents_of <$> l).

Lemma elem_of_parents_of_all l p : p ∈ parents_of_all l <-> exists c, c ∈ l /\ parent p c.
Proof.
  unfold parents_of_all. rewrite list_elem_of_join. split.
  - intros (ps & Hp & (c & -> & Hc)%list_elem_of_fmap). by exists c.
  - intros (c & Hc & Hp). exists (parents_of c). split; [exact Hp|]. apply list_elem_of_fmap. by exists c.
Qed.

Lemma parents_known l : Forall known l -> Forall known (parents_of_all l).
Proof using L.
  rewrite !Forall_forall. intros Hl p (c & Hc & Hp)%elem_of_parents_of_all. by apply (parent_known p c); [apply Hl|].
Qed.

Lemma make_pending_known l : Forall known l -> make_pending l = work (parents_of_all l).
Proof using L.
  intros Hl. unfold make_pending. rewrite <- add_generations_iter_ok by by apply parents_known.
  unfold parents_of_all. rewrite <- mjoin_iter_ok. f_equal. f_equal.
  apply list_fmap_ext. intros i c Hc. rewrite Forall_lookup in Hl. specialize (Hl i c Hc).
  unfold parents_stream. by rewrite fetch_parents.
Qed.

Lemma absorb_work P : forall m h,
  gens_ok known m h -> Forall known P ->
  exists m' h', absorb (work P) m h = ([], None, m', h') /\ gens_ok known m' h' /\
    forall c, c ∈ nodes_of m' <-> c ∈ P \/ c ∈ nodes_of m.
Proof using L.
  induction P as [|c P IH]; intros m h Hm HP.
  { exists m, h. split; [done|]. split; [done|]. set_solver. }
  apply Forall_cons in HP as [Hc HP]. unfold work, with_generations, iter_ok. rewrite !fmap_cons. cbn [absorb].
  destruct (IH (gen_insert (generation_of c) c m) (heap_push (generation_of c) h) ltac:(by apply gen_insert_ok) HP)
    as (m' & h' & E & Hok & Hn).
  exists m', h'. split; [exact E|]. split; [done|]. intros x. rewrite Hn, elem_of_gen_insert, elem_of_cons. tauto.
Qed.

Lemma pop_generation_ok {HL : HashOrderLaws HO} m h :
  gens_ok known m h -> m <> ∅ ->
  exists g x d m' h', pop_generation m h = Ok (g, x :: d, m', h') /\ gens_ok known m' h' /\ NoDup (x :: d) /\
    (forall c, c ∈ nodes_of m <-> c ∈ x :: d \/ c ∈ nodes_of m') /\
    (forall c, c ∈ x :: d -> known c /\ generation_of c = g) /\
    (forall c, c ∈ nodes_of m' -> (generation_of c < g)%N).
Proof.
  intros Hm Hne. pose proof (gens_pop m h Hm) as Hp. unfold pop_generation.
  destruct (heap_pop h) as [[g h']|]; [|done]. destruct Hp as (s & Hs & Hsne & Hok & Hn & Hg & Hlt).
  cbn [expect]. rewrite bind_Ok, Hs. cbn [expect]. rewrite bind_Ok.
  assert (forall c, c ∈ hash_order s <-> c ∈ s) as Ho.
  { intros c. by rewrite hash_order_perm, elem_of_elements. }
  destruct (hash_order s) as [|x d] eqn:Eo.
  { destruct (set_choose_L s Hsne) as [c Hc%Ho]. by apply elem_of_nil in Hc. }
  exists g, x, d, (delete g m), h'. split; [done|]. split; [done|]. split.
  { rewrite <- Eo, hash_order_perm. apply NoDup_elements. }
  split; [intros c; by rewrite Hn, Ho|]. split; [|done].
  intros c Hc%Ho. by apply (gens_nodes _ _ _ Hm g s c).
Qed.

(** ** What is still to come *)

(** The drain, and the ancestors of everything that waits. *)
Definition content (s : AncestorsNodeStream) (P : list ChangesetId) : gset ChangesetId :=
  list_to_set (anc_drain s) ∪ closure (P ++ elements (nodes_of (next_generation s))).

Record ancestors_inv (s : AncestorsNodeStream) (P : list ChangesetId) : Prop := {
  inv_pending : pending_changesets s = work P;
  inv_known : Forall known P;
  inv_gens : gens_ok known (next_generation s) (sorted_unique_generations s);
  inv_drain : NoDup (anc_drain s);
  inv_above x y : x ∈ anc_drain s -> y ∈ P \/ y ∈ nodes_of (next_generation s) ->
    (generation_of y < generation_of x)%N;
  inv_level x y : x ∈ anc_drain s -> y ∈ anc_drain s -> generation_of y = generation_of x
}.

Lemma work_inj P P' : work P = work P' -> P = P'.
Proof.
  intros H. apply with_generations_inj. apply (f_equal items) in H. unfold work in H. by rewrite !items_iter_ok in H.
Qed.

Definition has_inv (s : AncestorsNodeStream) : Prop := exists P, ancestors_inv s P.

Definition pending_ids (s : AncestorsNodeStream) : list ChangesetId := (items (pending_changesets s)).*1.

Lemma pending_ids_work s P : pending_changesets s = work P -> pending_ids s = P.
Proof.
  unfold pending_ids, work. intros ->. rewrite items_iter_ok. unfold with_generations.
  rewrite <- list_fmap_compose. apply list_fmap_id.
Qed.

Definition ancestors_weight (s : AncestorsNodeStream) : nat := size (content s (pending_ids s)).

Definition ancestors_result (s : AncestorsNodeStream) (evs : stream ChangesetId) : Prop :=
  ends evs = Ok tt /\ revset (items evs) /\
  forall c, c ∈ items evs <-> c ∈ content s (pending_ids s).

Lemma waiting_known s P : ancestors_inv s P -> Forall known (P ++ elements (nodes_of (next_generation s))).
Proof.
  intros H. apply Forall_app. split; [apply H|]. apply Forall_forall. intros c Hc%elem_of_elements.
  by eapply gens_known; [apply H|].
Qed.

Lemma elem_of_content s P c :
  ancestors_inv s P ->
  c ∈ content s P <-> c ∈ anc_drain s \/ exists y, (y ∈ P \/ y ∈ nodes_of (next_generation s)) /\ ancestor c y.
Proof.
  intros H. unfold content. rewrite elem_of_union, elem_of_list_to_set, elem_of_closure by by apply waiting_known.
  setoid_rewrite elem_of_app. setoid_rewrite elem_of_elements. done.
Qed.

Abbreviation ancestors_next := (next_ok has_inv ancestors_weight ancestors_result).

(** An iteration that gives [x], leaving a state that lacks just that. *)
Lemma ancestors_item s P x s' P' :
  ancestors_inv s P -> ancestors_inv s' P' ->
  (forall c, c ∈ content s P <-> c = x \/ c ∈ content s' P') ->
  (forall c, c ∈ content s' P' -> c <> x /\ (generation_of c <= generation_of x)%N) ->
  ancestors_next (ancestors_weight s) (ancestors_result s) (s', Some (Ok (Ready (Some x)))).
Proof.
  intros Hs Hs' Hc Hlt. split; [by exists P'|]. unfold ancestors_weight, ancestors_result.
  rewrite (pending_ids_work s P), (pending_ids_work s' P') by (apply Hs || apply Hs'). split.
  - apply subset_size. split; [intros c Hcc; apply Hc; by right|]. intros Hsub.
    destruct (Hlt x); [|done]. apply Hsub, Hc. by left.
  - intros evs (He & Hr & Hin). split; [done|]. cbn [items]. split.
    + apply revset_cons. split; [by intros ?%Hin%Hlt; naive_solver|]. split; [|done].
      intros y Hy%Hin. by apply Hlt.
    + intros c. rewrite elem_of_cons, Hin, Hc. done.
Qed.

Lemma ancestors_step_ok {HL : HashOrderLaws HO} s :
  has_inv s -> step_ok ancestors_step has_inv ancestors_weight ancestors_result s.
Proof.
  intros [P Hs]. pose proof Hs as [H1 H2 H3 H4 H5 H6]. unfold step_ok, ancestors_step.
  destruct (anc_drain s) as [|x d] eqn:Ed.
  - rewrite H1. destruct (absorb_work P _ _ H3 H2) as (m & h & -> & Hm & Hn).
    assert (forall c, c ∈ content s P <-> exists y, y ∈ nodes_of m /\ ancestor c y) as Hc.
    { intros c. rewrite elem_of_content by done. rewrite Ed. setoid_rewrite Hn. split.
      - by intros [?%elem_of_nil|?].
      - by right. }
    case_decide as Em.
    + split; [done|]. split; [apply revset_nil|]. intros c. cbn. rewrite (pending_ids_work s P), Hc by done.
      apply (gens_empty_nodes _ _ Hm) in Em. rewrite Em. set_solver.
    + destruct (pop_generation_ok m h Hm Em) as (g & x & d & m' & h' & -> & Hm' & Hnd & Hnm & Hxd & Hlt).
      assert (Forall known (x :: d)) as Hk by (apply Forall_forall; intros c Hcc; by apply Hxd).
      assert (ancestors_inv (mkAncestors m' (make_pending (x :: d)) d h') (parents_of_all (x :: d))) as Hinv.
      { apply NoDup_cons in Hnd as [_ Hnd].
        split; cbn [pending_changesets next_generation anc_drain sorted_unique_generations]; [by apply make_pending_known|
          by apply parents_known|done|done| |].
        - intros y z Hy Hz. destruct (Hxd y ltac:(by right)) as [_ ->]. destruct Hz as [Hz|Hz]; [|by apply Hlt].
          apply elem_of_parents_of_all in Hz as (c & Hcc & Hp). destruct (Hxd c Hcc) as [Hkc <-].
          by apply (parent_generation z c).
        - intros y z Hy Hz. destruct (Hxd y ltac:(by right)) as [_ ->]. by destruct (Hxd z ltac:(by right)) as [_ ->]. }
      apply (ancestors_item s P x _ (parents_of_all (x :: d))); [done|done| |].
      * intros c. rewrite Hc, elem_of_content by done. cbn [anc_drain next_generation]. split.
        -- intros (y & [Hy|Hy]%Hnm & Hcy); [|right; right; exists y; by split; [right|]].
           destruct (ancestor_right c y Hcy) as [->|(p & Hcp & Hp)].
           ++ apply elem_of_cons in Hy as [->|Hy]; [by left|right; by left].
           ++ right; right. exists p. split; [|done]. left. apply elem_of_parents_of_all. by exists y.
        -- intros [->|[Hcd|(y & [Hy|Hy] & Hcy)]].
           ++ exists x. split; [apply Hnm; left; by left|apply rtc_refl].
           ++ exists c. split; [apply Hnm; left; by right|apply rtc_refl].
           ++ apply elem_of_parents_of_all in Hy as (z & Hz & Hp). exists z. split; [apply Hnm; by left|].
              eapply rtc_r; [exact Hcy|exact Hp].
           ++ exists y. split; [apply Hnm; by right|done].
      * intros c. rewrite elem_of_content by done. cbn [anc_drain next_generation].
        destruct (Hxd x ltac:(by left)) as [_ Hgx]. apply NoDup_cons in Hnd as [Hxnd _].
        intros [Hcd|(y & Hy & Hcy)].
        -- split; [by intros ->|]. destruct (Hxd c ltac:(by right)) as [_ ->]. lia.
        -- assert (known y /\ (generation_of y < g)%N) as [Hky Hgy].
           { destruct Hy as [(z & Hz & Hp)%elem_of_parents_of_all|Hy].
             - destruct (Hxd z Hz) as [Hkz <-]. split; [by apply (parent_known y z)|by apply (parent_generation y z)].
             - split; [by eapply gens_known|by apply Hlt]. }
           pose proof (ancestor_generation_le c y Hky Hcy). split; [intros ->; lia|lia].
  - apply NoDup_cons in H4 as [Hx Hd].
    assert (ancestors_inv (mkAncestors (next_generation s) (pending_changesets s) d (sorted_unique_generations s)) P) as Hinv.
    { split; cbn [pending_changesets next_generation anc_drain sorted_unique_generations]; try done.
      - intros y z Hy. apply H5. by right.
      - intros y z Hy Hz. apply H6; by right. }
    apply (ancestors_item s P x _ P); [done|done| |].
    + intros c. rewrite !elem_of_content by done. rewrite Ed. cbn [anc_drain next_generation]. rewrite elem_of_cons. tauto.
    + intros c. rewrite elem_of_content by done. cbn [anc_drain next_generation]. intros [Hc|(y & Hy & Hcy)].
      * split; [by intros ->|]. rewrite (H6 x c) by (by left || by right). done.
      * pose proof (H5 x y ltac:(by left) Hy).
        assert (known y) as Hky by (destruct Hy; [by eapply Forall_forall|by eapply gens_known]).
        pose proof (ancestor_generation_le c y Hky Hcy). split; [intros ->; lia|lia].
Qed.

Lemma ancestors_runs {HL : HashOrderLaws HO} hash :
  known hash ->
  exists evs, runs ancestors_step (AncestorsNodeStream_new hash) evs /\ ends evs = Ok tt /\
    revset (items evs) /\ forall c, c ∈ items evs <-> ancestor c hash.
Proof.
  intros Hk. set (s := AncestorsNodeStream_new hash).
  assert (hash_order {[hash]} = [hash]) as Eh.
  { apply Permutation_singleton_r. rewrite hash_order_perm. by rewrite elements_singleton. }
  assert (ancestors_inv s (parents_of_all [hash])) as Hs.
  { unfold s, AncestorsNodeStream_new. rewrite Eh.
    split; cbn [pending_changesets next_generation anc_drain sorted_unique_generations].
    - apply make_pending_known. by apply Forall_singleton.
    - apply parents_known. by apply Forall_singleton.
    - apply gens_empty_ok.
    - apply NoDup_singleton.
    - intros x y ->%list_elem_of_singleton [Hy|Hy].
      + apply elem_of_parents_of_all in Hy as (c & ->%list_elem_of_singleton & Hp). by apply (parent_generation y hash).
      + apply elem_of_nodes in Hy as (g & S & HS & _). by rewrite lookup_empty in HS.
    - by intros x y ->%list_elem_of_singleton ->%list_elem_of_singleton. }
  destruct (runs_steps _ _ _ _ ancestors_step_ok s) as (evs & Hruns & He & Hr & Hin); [by exists (parents_of_all [hash])|].
  exists evs. split; [done|]. split; [done|]. split; [done|]. intros c.
  rewrite Hin, (pending_ids_work s (parents_of_all [hash])) by apply Hs.
  rewrite elem_of_content by done. unfold s, AncestorsNodeStream_new. rewrite Eh. cbn [anc_drain next_generation]. split.
  - intros [->%list_elem_of_singleton|(y & [Hy|Hy] & Hcy)]; [apply rtc_refl| |].
    + apply elem_of_parents_of_all in Hy as (z & ->%list_elem_of_singleton & Hp). eapply rtc_r; [exact Hcy|exact Hp].
    + apply elem_of_nodes in Hy as (g & S & HS & _). by rewrite lookup_empty in HS.
  - intros Hc. destruct (ancestor_right c hash Hc) as [->|(p & Hcp & Hp)]; [left; by left|]. right.
    exists p. split; [|done]. left. apply elem_of_parents_of_all. exists hash. split; [by left|done].
Qed.

Lemma ancestors_of_all {HL : HashOrderLaws HO} nodes :
  Forall known nodes ->
  exists n0 ss, (forall k, n0 <= k -> mapM (ancestors_of k) nodes = Some ss) /\
    Forall (good_input (known := known)) ss /\ Forall (fun s => NoDup (items s)) ss /\
    Forall (fun s => ends s = Ok tt) ss /\
    Forall2 (fun n s => forall c, c ∈ items s <-> ancestor c n) nodes ss.
Proof.
  induction 1 as [|n nodes Hn _ (n1 & ss & Hk & H1 & H2 & H3 & H4)].
  { exists 0, []. repeat split; constructor. }
  destruct (ancestors_runs n Hn) as (evs & [n2 Hr] & He & [Hnd Hd] & Hin).
  exists (n1 + n2), (evs :: ss). split.
  { intros k Hle. change (mapM (ancestors_of k) (n :: nodes)) with
      (y ← ancestors_of k n; ys ← mapM (ancestors_of k) nodes; Some (y :: ys)).
    assert (ancestors_of k n = Some evs) as -> by (apply Hr; lia). by rewrite Hk by lia. }
  split; [|split; [|split]]; constructor; try done. split; [|split; [done|by rewrite He]].
  apply Forall_forall. intros c Hc%Hin. by eapply ancestor_known.
Qed.

Definition common (nodes : list ChangesetId) (c : ChangesetId) : Prop :=
  forall n, n ∈ nodes -> ancestor c n.

Lemma common_ancestors_runs {HL : HashOrderLaws HO} nodes :
  nodes <> [] -> Forall known nodes ->
  exists n0 evs, (forall k, n0 <= k -> common_ancestors k nodes = Some evs) /\
    ends evs = Ok tt /\ revset (items evs) /\ forall c, c ∈ items evs <-> common nodes c.
Proof.
  intros Hne Hk. destruct (ancestors_of_all nodes Hk) as (n1 & ss & Hss & H1 & H2 & H3 & H4).
  destruct (intersect_runs ss H1 H2) as (evs & [n2 Hr] & Hrev & Hin & Hend).
  exists (n1 + n2), evs. split.
  { intros k Hle. unfold common_ancestors. rewrite Hss by lia. cbn. by apply Hr; lia. }
  assert (forall c, common nodes c <-> forall s, s ∈ ss -> c ∈ items s) as Hc.
  { intros c. unfold common. clear -H4. induction H4 as [|n s nodes ss Hns _ IH]; [set_solver|].
    setoid_rewrite elem_of_cons. split.
    - intros H s' [->|Hs']; [apply Hns, H; by left|]. apply IH; [|done]. intros m Hm. apply H. by right.
    - intros H m [->|Hm]; [apply Hns, H; by left|]. revert m Hm. apply IH. intros s' Hs'. apply H. by right. }
  assert (ss <> []) as Hss0 by (intros E; rewrite E in H4; by apply Forall2_nil_inv_r in H4).
  destruct Hend as [[He Hall]|(s & e & Hs & He & _)].
  - split; [done|]. split; [done|]. intros c. rewrite Hc. split; [by intros [_ ?]%Hin|by apply (Hall Hss0)].
  - rewrite Forall_forall in H3. by rewrite (H3 s Hs) in He.
Qed.

(** C23. The stream of the common ancestors of some stored changesets is the
    revset of exactly those, and [greatest_common_ancestor] is its first item:
    it gives nothing if there is none, and otherwise one changeset that is an
    ancestor of all of them, no common ancestor having a higher generation. *)
Theorem greatest_common_ancestor_exact {HL : HashOrderLaws HO} nodes :
  nodes <> [] -> Forall known nodes ->
  exists n0 evs, (forall k, n0 <= k -> common_ancestors k nodes = Some evs) /\
    ends evs = Ok tt /\ revset (items evs) /\ (forall c, c ∈ items evs <-> common nodes c) /\
    (forall k, n0 <= k -> exists r, greatest_common_ancestor k nodes = Some r /\ ends r = Ok tt /\
       ((items r = [] /\ forall c, ~ common nodes c) \/
        exists x, items r = [x] /\ common nodes x /\
          forall c, common nodes c -> (generation_of c <= generation_of x)%N)).
Proof.
  intros Hne Hk. destruct (common_ancestors_runs nodes Hne Hk) as (n0 & evs & Hr & He & Hrev & Hin).
  exists n0, evs. split; [done|]. split; [done|]. split; [done|]. split; [done|]. intros k Hle.
  exists (take_stream 1 evs). unfold greatest_common_ancestor. rewrite Hr by done. split; [done|].
  split; [by apply ends_take_stream|]. rewrite items_take_stream. destruct (items evs) as [|x l].
  - left. split; [done|]. by intros c ?%Hin%elem_of_nil.
  - right. exists x. split; [done|]. split; [apply Hin; by left|]. intros c Hc%Hin.
    apply revset_cons in Hrev as (_ & Hle' & _). apply elem_of_cons in Hc as [->|Hc]; [done|by apply Hle'].
Qed.
End ancestors.
