(* ===== verification/Skiplist.v ===== *)
(** * The skip list index

    Model of [src/reachabilityindex/skiplist/src/lib.rs] and of the helpers in
    [src/reachabilityindex/common/src/lib.rs]: an index from changesets to
    edges that jump over single-parent history, its lazy construction, and the
    queries it answers. The counters of performance are left out. The thrift
    structures are those of [reachabilityindex/if/skiplist.thrift]. *)

From S2P Require Import Prelude Hash Bonsai Graph Frontier.

Definition DEFAULT_EDGE_COUNT : N := 10.

Abbreviation Edge := (ChangesetId * Generation)%type.

Inductive SkiplistNodeType :=
| SkipEdges (edges : list Edge)
| ParentEdges (edges : list Edge).

(** [CHashMap] and the number of edges per node, a [u32]. *)
Record SkiplistEdgeMapping := mkMapping {
  mapping : gmap ChangesetId SkiplistNodeType;
  skip_edges_per_node : N
}.

Definition mapping_insert (c : ChangesetId) (n : SkiplistNodeType) (m : SkiplistEdgeMapping) : SkiplistEdgeMapping :=
  mkMapping (<[c := n]> (mapping m)) (skip_edges_per_node m).

Definition contains_key (c : ChangesetId) (m : SkiplistEdgeMapping) : bool :=
  match mapping m !! c with Some _ => true | None => false end.

(** ** Thrift *)

Record thrift_CommitAndGenerationNumber := mkTCommitGen { t_cg_cs_id : thrift_IdType; t_gen : Z }.

Inductive thrift_SkiplistNodeType :=
| TSkipEdges (edges : list thrift_CommitAndGenerationNumber)
| TParentEdges (edges : list thrift_CommitAndGenerationNumber)
| TSkiplistUnknownField (x : Z).

Inductive skiplist_error :=
| BadChangesetId (e : bonsai_error)
| UknownSkiplistThriftEncoding.

(** [u64 as i64] and back. *)
Definition as_i64 (n : N) : Z := ((Z.of_N n + 2 ^ 63) mod 2 ^ 64 - 2 ^ 63)%Z.
Definition as_u64 (z : Z) : N := Z.to_N (z mod 2 ^ 64).

Definition encode_vec_to_thrift (cs_gen : list Edge) : list thrift_CommitAndGenerationNumber :=
  (fun '(cs_id, gen_num) => mkTCommitGen (ChangesetId_into_thrift cs_id) (as_i64 gen_num)) <$> cs_gen.

Definition decode_vec_to_thrift (edges : list thrift_CommitAndGenerationNumber) : outcome skiplist_error (list Edge) :=
  collect (fun e => cs_id ← map_err BadChangesetId (ChangesetId_from_thrift (t_cg_cs_id e));
                    Ok (cs_id, as_u64 (t_gen e))) edges.

Definition to_thrift (n : SkiplistNodeType) : thrift_SkiplistNodeType :=
  match n with
  | SkipEdges edges => TSkipEdges (encode_vec_to_thrift edges)
  | ParentEdges parent_edges => TParentEdges (encode_vec_to_thrift parent_edges)
  end.

Definition from_thrift (skiplist_node : thrift_SkiplistNodeType) : outcome skiplist_error SkiplistNodeType :=
  match skiplist_node with
  | TSkipEdges edges => SkipEdges <$> decode_vec_to_thrift edges
  | TParentEdges edges => ParentEdges <$> decode_vec_to_thrift edges
  | TSkiplistUnknownField _ => Err UknownSkiplistThriftEncoding
  end.

(** [deserialize_skiplist_map] from the decoded thrift map on: a bad changeset
    id anywhere is reported before a bad node. *)
Definition skiplist_map_from_thrift (m : list (thrift_IdType * thrift_SkiplistNodeType))
    : outcome skiplist_error (gmap ChangesetId SkiplistNodeType) :=
  v ← collect (fun '(cs_id, skiplist_thrift) =>
        cs_id ← map_err BadChangesetId (ChangesetId_from_thrift cs_id);
        Ok (skiplist ← from_thrift skiplist_thrift; Ok (cs_id, skiplist))) m;
  entries ← collect (fun x => x) v;
  Ok (foldl (fun m '(c, n) => <[c := n]> m) ∅ entries).

Lemma as_u64_i64 n : (n < 2 ^ 64)%N -> as_u64 (as_i64 n) = n.
Proof.
  intros Hn. unfold as_u64, as_i64. rewrite Zminus_mod_idemp_l.
  replace (Z.of_N n + 2 ^ 63 - 2 ^ 63)%Z with (Z.of_N n) by lia. rewrite Z.mod_small by lia. apply N2Z.id.
Qed.

Definition valid_edge (e : Edge) : Prop := valid_blake2 (cs_blake2 e.1) /\ (e.2 < 2 ^ 64)%N.

Definition edges_of (n : SkiplistNodeType) : list Edge :=
  match n with SkipEdges edges | ParentEdges edges => edges end.

Lemma decode_encode_vec edges : Forall valid_edge edges -> decode_vec_to_thrift (encode_vec_to_thrift edges) = Ok edges.
Proof.
  intros H. apply collect_Ok_Forall2, Forall2_fmap_l, Forall_Forall2_diag. eapply Forall_impl; [exact H|].
  intros [[b] g] [Hc Hg].
  assert (ChangesetId_from_thrift (ChangesetId_into_thrift (mkChangesetId b)) = Ok (mkChangesetId b)) as E
    by exact (typed_roundtrip mkChangesetId b Hc).
  unfold compose. cbn [t_cg_cs_id t_gen]. rewrite E. cbn [map_err]. by rewrite bind_Ok, as_u64_i64.
Qed.

Lemma skiplist_thrift_roundtrip n : Forall valid_edge (edges_of n) -> from_thrift (to_thrift n) = Ok n.
Proof. destruct n; intros H; cbn; by rewrite decode_encode_vec. Qed.

Section skiplist.
Context {F : ChangesetFetcher} {HO : HashOrder}.

(** ** Helpers of the indexes *)

Definition fetch_generation_and_join (node : ChangesetId) : outcome fetch_error Edge :=
  gen ← get_generation_number node; Ok (node, gen).

Definition check_if_node_exists (node : ChangesetId) : outcome fetch_error unit :=
  map_err NodeNotFound (_ ← get_generation_number node; Ok tt).

Definition changesets_with_generation_numbers (nodes : list ChangesetId) : outcome fetch_error (list Edge) :=
  collect fetch_generation_and_join nodes.

(** The next layer of the search and what was seen. *)
Definition advance_bfs_layer (curr_layer curr_seen : gset Edge) : outcome fetch_error (gset Edge * gset Edge) :=
  let seen := curr_layer ∪ curr_seen in
  all_parents ← collect (fun '(hash, _) => get_parents hash) (hash_order curr_layer);
  pairs ← changesets_with_generation_numbers (mjoin all_parents);
  Ok (list_to_set (List.filter (fun p => bool_decide (p ∉ seen)) pairs), seen).

(** ** Construction *)

Definition nth_node_or_last {T} (v : list T) (i : nat) : option T :=
  match v !! i with Some x => Some x | None => last v end.

(** The loop of [compute_skip_edges]. *)
Fixpoint compute_loop (k : nat) (m : SkiplistEdgeMapping) (curr : Edge) (i : nat) (skip_edges : list Edge)
    : outcome fetch_error (list Edge) :=
  match k with
  | 0 => Err StreamOutOfFuel
  | S k =>
      match mapping m !! curr.1 with
      | Some (SkipEdges edges) =>
          match nth_node_or_last edges i with
          | Some next_node =>
              let skip_edges := skip_edges ++ [next_node] in
              if (skip_edges_per_node m <=? lenN skip_edges)%N then Ok skip_edges
              else compute_loop k m next_node (S i) skip_edges
          | None => Ok skip_edges
          end
      | _ => Ok skip_edges
      end
  end.

Definition compute_skip_edges (start_node : Edge) (m : SkiplistEdgeMapping) : outcome fetch_error (list Edge) :=
  compute_loop (S (N.to_nat (skip_edges_per_node m))) m start_node 0 [start_node].

(** The [loop_fn] of [find_nodes_to_index]. *)
Fixpoint find_loop (curr_depth : nat) (m : SkiplistEdgeMapping) (curr_layer_unfiltered curr_seen : gset Edge)
    : outcome fetch_error (gset Edge) :=
  let curr_layer := filter (fun p => contains_key p.1 m = false) curr_layer_unfiltered in
  match curr_depth with
  | 0 => Ok curr_seen
  | S curr_depth =>
      if decide (curr_layer = ∅) then Ok curr_seen
      else '(next_layer, next_seen) ← advance_bfs_layer curr_layer curr_seen;
           find_loop curr_depth m next_layer next_seen
  end.

(** [sort_by] on the generation, which is stable. *)
Fixpoint insert_by_gen (x : Edge) (l : list Edge) : list Edge :=
  match l with
  | [] => [x]
  | y :: l => if (x.2 <=? y.2)%N then x :: y :: l else y :: insert_by_gen x l
  end.
Definition sort_by_gen (l : list Edge) : list Edge := foldr insert_by_gen [] l.

Definition find_nodes_to_index (m : SkiplistEdgeMapping) (start : Edge) (depth : N) : outcome fetch_error (list Edge) :=
  _ ← check_if_node_exists start.1;
  hash_gen_pairs ← find_loop (N.to_nat depth) m {[start]} ∅;
  Ok (sort_by_gen (hash_order hash_gen_pairs)).

(** What is stored for one node, given its parents. *)
Definition index_node (m : SkiplistEdgeMapping) (curr_hash : ChangesetId) (parent_gen_pairs : list Edge)
    : outcome fetch_error SkiplistEdgeMapping :=
  match parent_gen_pairs with
  | [unique_parent_gen_pair] =>
      new_edges ← compute_skip_edges unique_parent_gen_pair m;
      Ok (mapping_insert curr_hash (SkipEdges new_edges) m)
  | _ => Ok (mapping_insert curr_hash (ParentEdges parent_gen_pairs) m)
  end.

Fixpoint index_nodes (m : SkiplistEdgeMapping) (l : list (ChangesetId * list Edge))
    : outcome fetch_error SkiplistEdgeMapping :=
  match l with
  | [] => Ok m
  | (curr_hash, parent_gen_pairs) :: l => m ← index_node m curr_hash parent_gen_pairs; index_nodes m l
  end.

Definition parents_with_generations (p : Edge) : outcome fetch_error (ChangesetId * list Edge) :=
  parents ← get_parents p.1;
  pairs ← changesets_with_generation_numbers parents;
  Ok (p.1, pairs).

Definition lazy_index_node (m : SkiplistEdgeMapping) (node : ChangesetId) (max_depth : N)
    : outcome fetch_error SkiplistEdgeMapping :=
  if (max_depth =? 0)%N || contains_key node m then Ok m
  else
    node_gen_pair ← fetch_generation_and_join node;
    node_gen_pairs ← find_nodes_to_index m node_gen_pair max_depth;
    hash_parentgens_gen_vec ← collect parents_with_generations node_gen_pairs;
    index_nodes m hash_parentgens_gen_vec.

(** ** [SkiplistIndex] *)

Definition SkiplistIndex_new : SkiplistEdgeMapping := mkMapping ∅ DEFAULT_EDGE_COUNT.
Definition with_skip_edge_count (n : N) : SkiplistEdgeMapping := mkMapping ∅ n.
Definition new_with_skiplist_graph (g : gmap ChangesetId SkiplistNodeType) : SkiplistEdgeMapping :=
  mkMapping g DEFAULT_EDGE_COUNT.
Definition add_node (m : SkiplistEdgeMapping) (node : ChangesetId) (max_index_depth : N) := lazy_index_node m node max_index_depth.

Definition get_skip_edges (m : SkiplistEdgeMapping) (node : ChangesetId) : option (list Edge) :=
  match mapping m !! node with Some (SkipEdges edges) => Some edges | _ => None end.
Definition is_node_indexed (m : SkiplistEdgeMapping) (node : ChangesetId) : bool := contains_key node m.
Definition indexed_node_count (m : SkiplistEdgeMapping) : N := N.of_nat (size (mapping m)).

(** The edge with the longest jump that does not pass [gen]. *)
Fixpoint take_while {A} (f : A -> bool) (l : list A) : list A :=
  match l with
  | [] => []
  | x :: l => if f x then x :: take_while f l else []
  end.

Definition best_edge (edges : list Edge) (gen : Generation) : option Edge :=
  last (take_while (fun edge_pair => (gen <=? edge_pair.2)%N) edges).

Fixpoint move_loop (m : SkiplistEdgeMapping) (gen : Generation) (all_cs_ids no_skiplist_edges : list ChangesetId)
    (node_frontier : NodeFrontier) : list ChangesetId * NodeFrontier :=
  match all_cs_ids with
  | [] => (no_skiplist_edges, node_frontier)
  | cs_id :: all_cs_ids =>
      match mapping m !! cs_id with
      | Some (SkipEdges edges) =>
          match best_edge edges gen with
          | Some edge_pair => move_loop m gen all_cs_ids no_skiplist_edges (frontier_insert node_frontier edge_pair)
          | None => move_loop m gen all_cs_ids (no_skiplist_edges ++ [cs_id]) node_frontier
          end
      | Some (ParentEdges edges) => move_loop m gen all_cs_ids no_skiplist_edges (frontier_extend node_frontier edges)
      | None => move_loop m gen all_cs_ids (no_skiplist_edges ++ [cs_id]) node_frontier
      end
  end.

Definition move_skippable_nodes (m : SkiplistEdgeMapping) (all_cs_ids : list ChangesetId) (gen : Generation)
    : list ChangesetId * NodeFrontier :=
  move_loop m gen all_cs_ids [] NodeFrontier_default.

(** One round of the [loop_fn] of [process_frontier]. *)
Definition process_round (m : SkiplistEdgeMapping) (f : NodeFrontier) (max : Generation)
    : outcome fetch_error NodeFrontier :=
  '(all_cs_ids, f) ← remove_max_gen f;
  all_cs_ids ← expect all_cs_ids;
  let '(no_skiplist_edges, skipped_frontier) := move_skippable_nodes m (hash_order all_cs_ids) max in
  all_parents ← collect get_parents no_skiplist_edges;
  gen_cs ← collect fetch_generation_and_join (mjoin all_parents);
  Ok (frontier_extend (frontier_extend f gen_cs) (frontier_pairs skipped_frontier)).

Fixpoint process_loop (k : nat) (m : SkiplistEdgeMapping) (f : NodeFrontier) (max : Generation)
    : outcome fetch_error NodeFrontier :=
  match max_gen f with
  | Some val =>
      if (max <? val)%N then
        match k with
        | 0 => Err StreamOutOfFuel
        | S k => f ← process_round m f max; process_loop k m f max
        end
      else Ok f
  | None => Ok f
  end.

(** Each round takes out the highest generation. *)
Definition process_frontier (m : SkiplistEdgeMapping) (f : NodeFrontier) (max : Generation)
    : outcome fetch_error NodeFrontier :=
  process_loop (S (N.to_nat (default 0%N (max_gen f)))) m f max.

Definition contains_at (f : NodeFrontier) (gen : Generation) (c : ChangesetId) : bool :=
  match get_all_changesets_for_gen_num f gen with
  | Some cs_ids => bool_decide (c ∈ cs_ids)
  | None => false
  end.

Definition skiplist_query_reachability (m : SkiplistEdgeMapping) (desc_hash anc_hash : ChangesetId)
    : outcome fetch_error bool :=
  '(desc_hash, desc_gen) ← fetch_generation_and_join desc_hash;
  '(anc_hash, anc_gen) ← fetch_generation_and_join anc_hash;
  frontier ← process_frontier m (NodeFrontier_new {[desc_gen := {[desc_hash]}]}) anc_gen;
  Ok (contains_at frontier anc_gen anc_hash).

Definition skiplist_lca_hint (m : SkiplistEdgeMapping) (node_frontier : NodeFrontier) (gen : Generation)
    : outcome fetch_error NodeFrontier :=
  process_frontier m node_frontier gen.

Definition skiplist_is_ancestor (m : SkiplistEdgeMapping) (ancestor descendant : ChangesetId) : outcome fetch_error bool :=
  anc_gen ← get_generation_number ancestor;
  desc_gen ← get_generation_number descendant;
  if (desc_gen <=? anc_gen)%N then Ok false
  else
    res ← skiplist_lca_hint m (frontier_insert NodeFrontier_default (descendant, desc_gen)) anc_gen;
    Ok (contains_at res anc_gen ancestor).

#[local] Instance skiplist_reachability (m : SkiplistEdgeMapping) : ReachabilityIndex :=
  {| query_reachability := skiplist_query_reachability m |}.

#[local] Instance skiplist_hint (m : SkiplistEdgeMapping) : LeastCommonAncestorsHint :=
  {| lca_hint := skiplist_lca_hint m; is_ancestor := skiplist_is_ancestor m |}.

(** ** The invariant of the index *)

(** The jump from [c] to [e] passes no ancestor of [c] by. *)
Definition jump (c e : ChangesetId) : Prop :=
  e <> c /\ ancestor e c /\
  forall x, ancestor x c -> x <> c -> (generation_of x <= generation_of e)%N -> ancestor x e.

Context {known : ChangesetId -> Prop} {L : FetcherLaws known}.

Definition stored (p : Edge) : Prop := known p.1 /\ p.2 = generation_of p.1.

Definition node_ok (c : ChangesetId) (n : SkiplistNodeType) : Prop :=
  known c /\
  match n with
  | SkipEdges edges => Forall (fun p => p.2 = generation_of p.1 /\ jump c p.1) edges
  | ParentEdges edges => edges = (fun p => (p, generation_of p)) <$> parents_of c
  end.

Definition index_ok (m : SkiplistEdgeMapping) : Prop := forall c n, mapping m !! c = Some n -> node_ok c n.

Lemma jump_generation c e : known c -> jump c e -> known e /\ (generation_of e < generation_of c)%N.
Proof using L.
  intros Hc (Hne & Ha & _). split; [by apply (ancestor_known e c)|].
  by destruct (ancestor_generation e c Hc Ha).
Qed.

Lemma jump_parent c p : known c -> parents_of c = [p] -> jump c p.
Proof using L.
  intros Hc Hp. assert (parent p c) as Hpc by (unfold parent; rewrite Hp; by left).
  pose proof (parent_generation p c Hc Hpc). split; [intros ->; lia|]. split; [by apply rtc_once|].
  intros x Hx Hne _. destruct (ancestor_right x c Hx) as [|(q & Hxq & Hq)]; [done|].
  unfold parent in Hq. rewrite Hp in Hq. by apply list_elem_of_singleton in Hq as ->.
Qed.

Lemma jump_trans c d e : known c -> jump c d -> jump d e -> jump c e.
Proof using L.
  intros Hc Hcd Hde. destruct (jump_generation c d Hc Hcd) as [Hd Hgd].
  destruct (jump_generation d e Hd Hde) as [He Hge]. destruct Hcd as (_ & Ha & Hx), Hde as (_ & Ha' & Hx').
  split; [intros ->; lia|]. split; [by transitivity d|]. intros x Hxc Hne Hg.
  apply Hx'; [apply Hx; [done|done|lia]|intros ->; lia|done].
Qed.

Lemma elem_of_nth {T} (v : list T) i x : nth_node_or_last v i = Some x -> x ∈ v.
Proof.
  unfold nth_node_or_last. destruct (v !! i) eqn:E.
  - intros [= ->]. by eapply list_elem_of_lookup_2.
  - intros (l & ->)%last_Some. apply elem_of_app. right. by left.
Qed.

Definition edges_ok (c : ChangesetId) (l : list Edge) : Prop :=
  Forall (fun p => p.2 = generation_of p.1 /\ jump c p.1) l.

Lemma compute_loop_ok m c k : forall curr i l,
  index_ok m -> known c -> jump c curr.1 -> edges_ok c l ->
  N.to_nat (skip_edges_per_node m) + 2 <= k + length l ->
  (1 <= k \/ (lenN l < skip_edges_per_node m)%N) ->
  exists l', compute_loop k m curr i l = Ok l' /\ edges_ok c l' /\ l `prefix_of` l'.
Proof using L.
  induction k as [|k IH]; intros curr i l Hm Hc Hj Hl Hk Hlt; [unfold lenN in *; lia|]. cbn [compute_loop].
  destruct (mapping m !! curr.1) as [[edges|edges]|] eqn:E; [|by exists l|by exists l].
  destruct (nth_node_or_last edges i) as [next|] eqn:En; [|by exists l].
  destruct (Hm _ _ E) as [_ Hedges]. rewrite Forall_forall in Hedges.
  destruct (Hedges next (elem_of_nth _ _ _ En)) as [Hg Hn].
  assert (edges_ok c (l ++ [next])) as Hl'.
  { apply Forall_app. split; [done|]. apply Forall_singleton. split; [done|]. by apply (jump_trans c curr.1). }
  destruct (N.leb_spec (skip_edges_per_node m) (lenN (l ++ [next]))) as [Hle|Hle].
  { eexists. split; [done|]. split; [done|]. by apply prefix_app_r. }
  destruct (IH next (S i) (l ++ [next])) as (l' & -> & Hok & Hpre); [done|done| |done| |by right|].
  - by apply (jump_trans c curr.1).
  - rewrite length_app. cbn [length]. lia.
  - exists l'. split; [done|]. split; [done|]. by etransitivity; [apply prefix_app_r|].
Qed.

Lemma mapping_insert_ok m c n : index_ok m -> node_ok c n -> index_ok (mapping_insert c n m).
Proof.
  intros Hm Hn d n' Hd. cbn in Hd. destruct (decide (d = c)) as [->|Hdc].
  - rewrite lookup_insert_eq in Hd. by injection Hd as <-.
  - rewrite lookup_insert_ne in Hd by done. by apply Hm.
Qed.

Lemma index_node_ok m c :
  index_ok m -> known c ->
  exists n, index_node m c ((fun p => (p, generation_of p)) <$> parents_of c) = Ok (mapping_insert c n m) /\ node_ok c n.
Proof using L.
  intros Hm Hc. unfold index_node. destruct (parents_of c) as [|p [|q ps]] eqn:Ep; cbn [fmap list_fmap].
  - eexists. split; [done|]. split; [done|]. by rewrite Ep.
  - pose proof (jump_parent c p Hc Ep) as Hj. unfold compute_skip_edges.
    destruct (compute_loop_ok m c (S (N.to_nat (skip_edges_per_node m))) (p, generation_of p) 0 [(p, generation_of p)])
      as (l' & -> & Hok & _); [done|done|done|by apply Forall_singleton|cbn [length]; lia|left; lia|].
    rewrite bind_Ok. eexists. split; [done|]. by split.
  - eexists. split; [done|]. split; [done|]. by rewrite Ep.
Qed.

(** ** Finding what to index *)

Lemma fetch_join c : known c -> fetch_generation_and_join c = Ok (c, generation_of c).
Proof using L. intros Hc. unfold fetch_generation_and_join. by rewrite fetch_generation. Qed.

Lemma fetch_joins l : Forall known l -> changesets_with_generation_numbers l = Ok ((fun p => (p, generation_of p)) <$> l).
Proof using L.
  intros Hl. apply collect_Ok_map. eapply Forall_impl; [exact Hl|]. intros c Hc. by apply fetch_join.
Qed.

Lemma collect_parents l : Forall known l -> collect get_parents l = Ok (parents_of <$> l).
Proof using L.
  intros Hl. apply collect_Ok_map. eapply Forall_impl; [exact Hl|]. intros c Hc. by apply fetch_parents.
Qed.

Lemma known_parents l : Forall known l -> Forall known (mjoin (parents_of <$> l)).
Proof using L.
  rewrite !Forall_forall. intros Hl p (ps & Hp & (c & -> & Hc)%list_elem_of_fmap)%list_elem_of_join.
  by apply (parent_known p c); [apply Hl|].
Qed.

Lemma advance_bfs_ok {HL : HashOrderLaws HO} layer seen :
  set_Forall stored layer -> set_Forall stored seen ->
  exists next, advance_bfs_layer layer seen = Ok (next, layer ∪ seen) /\ set_Forall stored next.
Proof using L.
  intros Hl Hs. unfold advance_bfs_layer.
  set (cs := (hash_order layer).*1).
  assert (Forall known cs) as Hcs.
  { apply Forall_fmap, Forall_forall. intros p Hp. rewrite hash_order_perm, elem_of_elements in Hp. by apply Hl. }
  assert (collect (fun '(hash, _) => get_parents hash) (hash_order layer) = collect get_parents cs) as ->.
  { unfold cs. clear. induction (hash_order layer) as [|[c g] l IH]; [done|]. rewrite fmap_cons. cbn [collect fst]. by rewrite IH. }
  rewrite collect_parents, bind_Ok, fetch_joins, bind_Ok by (done || by apply known_parents).
  eexists. split; [done|]. intros p Hp. rewrite elem_of_list_to_set, list_elem_of_In, filter_In, <- list_elem_of_In in Hp.
  destruct Hp as [(c & -> & Hc)%list_elem_of_fmap _]. split; [|done].
  pose proof (known_parents cs Hcs) as Hk. rewrite Forall_forall in Hk. by apply Hk.
Qed.

Lemma find_loop_ok {HL : HashOrderLaws HO} m depth : forall layer seen,
  set_Forall stored layer -> set_Forall stored seen ->
  (forall p, p ∈ seen -> contains_key p.1 m = false) ->
  exists seen', find_loop depth m layer seen = Ok seen' /\ set_Forall stored seen' /\
    (forall p, p ∈ seen' -> contains_key p.1 m = false) /\ seen ⊆ seen' /\
    (depth <> 0 -> forall p, p ∈ layer -> contains_key p.1 m = false -> p ∈ seen').
Proof using L.
  induction depth as [|depth IH]; intros layer seen Hl Hs Hm; cbn [find_loop]; [by exists seen|].
  set (layer' := filter _ layer). case_decide as Hlay.
  { exists seen. split; [done|]. split; [done|]. split; [done|]. split; [done|]. intros _ p Hp Hk. assert (p ∈ layer') as Hp' by (by apply elem_of_filter).
    rewrite Hlay in Hp'. by apply not_elem_of_empty in Hp'. }
  assert (set_Forall stored layer') as Hl' by (intros p [_ Hp]%elem_of_filter; by apply Hl).
  destruct (advance_bfs_ok layer' seen Hl' Hs) as (next & -> & Hn). rewrite bind_Ok.
  destruct (IH next (layer' ∪ seen)) as (seen' & -> & H1 & H2 & H3 & _); [done|by apply set_Forall_union| |].
  { intros p [Hp|Hp]%elem_of_union; [by apply elem_of_filter in Hp as [? _]|by apply Hm]. }
  exists seen'. split; [done|]. split; [done|]. split; [done|]. split; [set_solver|].
  intros _ p Hp Hk. apply H3, elem_of_union. left. by apply elem_of_filter.
Qed.

Lemma sort_by_gen_perm l : sort_by_gen l ≡ₚ l.
Proof.
  induction l as [|x l IH]; [done|]. cbn. fold (sort_by_gen l). rewrite <- IH at 2. generalize (sort_by_gen l) as k. clear.
  induction k as [|y k IH]; [done|]. cbn. destruct (x.2 <=? y.2)%N; [done|]. rewrite IH. apply Permutation_swap.
Qed.

(** [m'] has what [m] has, and correct entries for the nodes [cs] besides. *)
Definition extended (m m' : SkiplistEdgeMapping) (cs : list ChangesetId) : Prop :=
  skip_edges_per_node m' = skip_edges_per_node m /\
  (forall c, c ∉ cs -> mapping m' !! c = mapping m !! c) /\
  (forall c, c ∈ cs -> is_Some (mapping m' !! c)).

Lemma index_nodes_ok l : forall m,
  index_ok m -> Forall stored l ->
  exists m', index_nodes m ((fun p => (p.1, (fun p => (p, generation_of p)) <$> parents_of p.1)) <$> l) = Ok m' /\
    index_ok m' /\ extended m m' l.*1.
Proof using L.
  induction l as [|[c g] l IH]; intros m Hm Hl.
  { exists m. split; [done|]. split; [done|]. repeat split. by intros c ?%elem_of_nil. }
  apply Forall_cons in Hl as [[Hc _] Hl]. rewrite !fmap_cons. cbn [index_nodes fst].
  destruct (index_node_ok m c Hm Hc) as (n & -> & Hn). rewrite bind_Ok.
  destruct (IH (mapping_insert c n m) ltac:(by apply mapping_insert_ok) Hl) as (m' & -> & Hm' & He1 & He2 & He3).
  exists m'. split; [done|]. split; [done|]. split; [by rewrite He1|]. split.
  - intros d [Hd1 Hd2]%not_elem_of_cons. rewrite He2 by done. cbn. by rewrite lookup_insert_ne.
  - intros d [->|Hd]%elem_of_cons; [|by apply He3]. destruct (decide (c ∈ l.*1)) as [|Hcl]; [by apply He3|].
    rewrite He2 by done. cbn. rewrite lookup_insert_eq. by eexists.
Qed.

Lemma lazy_index_ok {HL : HashOrderLaws HO} m c depth :
  index_ok m -> known c ->
  exists m' cs, lazy_index_node m c depth = Ok m' /\ index_ok m' /\ extended m m' cs /\
    (forall d, d ∈ cs -> mapping m !! d = None) /\ (depth <> 0%N -> is_Some (mapping m' !! c)).
Proof using L.
  intros Hm Hc. unfold lazy_index_node. destruct ((depth =? 0)%N || contains_key c m) eqn:E.
  { exists m, []. split; [done|]. split; [done|]. split; [split; [done|split; [done|by intros d ?%elem_of_nil]]|].
    split; [by intros d ?%elem_of_nil|]. intros Hd. apply orb_true_iff in E as [E%N.eqb_eq|E]; [done|].
    unfold contains_key in E. destruct (mapping m !! c); [by eexists|done]. }
  apply orb_false_iff in E as [Hd%N.eqb_neq Hkey]. rewrite fetch_join, bind_Ok by done.
  unfold find_nodes_to_index, check_if_node_exists. cbn [fst]. rewrite fetch_generation, bind_Ok by done.
  cbn [map_err]. rewrite bind_Ok.
  destruct (find_loop_ok m (N.to_nat depth) {[(c, generation_of c)]} ∅) as (seen & -> & H1 & H2 & _ & H3);
    [by intros p ->%elem_of_singleton|by intros p ?%not_elem_of_empty|by intros p ?%not_elem_of_empty|].
  rewrite !bind_Ok. set (l := sort_by_gen (hash_order seen)).
  assert (forall p, p ∈ l <-> p ∈ seen) as Hl.
  { intros p. unfold l. by rewrite sort_by_gen_perm, hash_order_perm, elem_of_elements. }
  assert (Forall stored l) as Hst by (apply Forall_forall; intros p Hp%Hl; by apply H1).
  assert (collect parents_with_generations l = Ok ((fun p => (p.1, (fun p => (p, generation_of p)) <$> parents_of p.1)) <$> l)) as ->.
  { apply collect_Ok_map. eapply Forall_impl; [exact Hst|]. intros p [Hp _]. unfold parents_with_generations.
    rewrite fetch_parents, bind_Ok, fetch_joins, bind_Ok; [done| |done].
    apply Forall_forall. intros q Hq. by apply (parent_known q p.1). }
  rewrite bind_Ok. destruct (index_nodes_ok l m Hm Hst) as (m' & -> & Hm' & He).
  exists m', l.*1. split; [done|]. split; [done|]. split; [done|]. split.
  - intros d (p & -> & Hp%Hl%H2)%list_elem_of_fmap. unfold contains_key in Hp. by destruct (mapping m !! p.1).
  - intros _. apply He, list_elem_of_fmap. exists (c, generation_of c). split; [done|]. apply Hl, H3; [lia| |done].
    by apply elem_of_singleton.
Qed.

(** ** Moving a frontier down *)

(** The changesets put in the place of one above [gen]. *)
Definition replaces (gen : Generation) (x : ChangesetId) (R : ChangesetId -> Prop) : Prop :=
  (forall y, R y -> known y /\ (generation_of y < generation_of x)%N) /\
  forall c, (generation_of c <= gen)%N -> ancestor c x <-> exists y, R y /\ ancestor c y.

Lemma replaces_parents gen x : known x -> (gen < generation_of x)%N -> replaces gen x (fun y => parent y x).
Proof using L.
  intros Hx Hg. split.
  - intros y Hy. split; [by apply (parent_known y x)|by apply parent_generation].
  - intros c Hc. split.
    + intros Ha. destruct (ancestor_right c x Ha) as [->|(y & Hcy & Hy)]; [lia|by exists y].
    + intros (y & Hy & Hcy). eapply rtc_r; [exact Hcy|exact Hy].
Qed.

Lemma replaces_jump gen x e :
  known x -> jump x e -> (gen <= generation_of e)%N -> replaces gen x (fun y => y = e).
Proof using L.
  intros Hx Hj Hg. destruct (jump_generation x e Hx Hj) as [He Hlt]. split; [by intros y ->|].
  destruct Hj as (_ & Ha & Hj). intros c Hc. split.
  - intros Hcx. exists e. split; [done|]. apply Hj; [done|intros ->; lia|lia].
  - intros (y & -> & Hcy). by transitivity e.
Qed.

Lemma elem_of_take_while {A} (f : A -> bool) l x : x ∈ take_while f l -> x ∈ l /\ f x = true.
Proof.
  induction l as [|y l IH]; cbn; [by intros ?%elem_of_nil|]. destruct (f y) eqn:E; [|by intros ?%elem_of_nil].
  intros [->|Hx]%elem_of_cons; [split; [by left|done]|]. destruct (IH Hx). split; [by right|done].
Qed.

Lemma best_edge_ok edges gen p : best_edge edges gen = Some p -> p ∈ edges /\ (gen <= p.2)%N.
Proof.
  unfold best_edge. intros (l & E)%last_Some. assert (p ∈ take_while (fun e => (gen <=? e.2)%N) edges) as Hp.
  { rewrite E. apply elem_of_app. right. by left. }
  apply elem_of_take_while in Hp as [Hp Hg]. split; [done|]. by apply N.leb_le.
Qed.

(** The edges that an indexed changeset is replaced by. *)
Definition moved (m : SkiplistEdgeMapping) (gen : Generation) (x : ChangesetId) : option (list Edge) :=
  match mapping m !! x with
  | Some (SkipEdges edges) => (fun e => [e]) <$> best_edge edges gen
  | Some (ParentEdges edges) => Some edges
  | None => None
  end.

Definition stays (m : SkiplistEdgeMapping) (gen : Generation) (x : ChangesetId) : bool :=
  match moved m gen x with None => true | Some _ => false end.

Lemma move_loop_eq m gen all : forall no f,
  move_loop m gen all no f =
  (no ++ List.filter (stays m gen) all, frontier_extend f (mjoin ((fun x => default [] (moved m gen x)) <$> all))).
Proof.
  induction all as [|x all IH]; intros no f; [cbn; by rewrite app_nil_r|].
  cbn [move_loop List.filter]. rewrite fmap_cons, mjoin_cons. unfold stays at 1, moved at 1 2.
  destruct (mapping m !! x) as [[edges|edges]|]; [destruct (best_edge edges gen) as [e|]| |];
    cbn [fmap option_fmap option_map from_option id app]; rewrite IH; try (by rewrite <- app_assoc); [done|].
  unfold frontier_extend. by rewrite foldl_app.
Qed.

Lemma moved_ok m gen x edges :
  index_ok m -> known x -> (gen < generation_of x)%N -> moved m gen x = Some edges ->
  exists ys, edges = (fun p => (p, generation_of p)) <$> ys /\ replaces gen x (fun y => y ∈ ys).
Proof using L.
  intros Hm Hx Hg. unfold moved. destruct (mapping m !! x) as [[es|es]|] eqn:E; [| |done].
  - intros ([e g] & He & ->)%fmap_Some. apply best_edge_ok in He as [He Hle].
    destruct (Hm x _ E) as [_ Hes]. rewrite Forall_forall in Hes. destruct (Hes _ He) as [Eg Hj]. cbn [fst snd] in *.
    subst g. exists [e]. split; [done|]. pose proof (replaces_jump gen x e Hx Hj Hle) as [R1 R2].
    split; [intros y ->%list_elem_of_singleton; by apply R1|]. intros c Hc. rewrite (R2 c Hc).
    by setoid_rewrite list_elem_of_singleton.
  - intros [= <-]. destruct (Hm x _ E) as [_ ->]. exists (parents_of x). split; [done|]. by apply replaces_parents.
Qed.

Lemma moved_all_ok m gen all :
  index_ok m -> Forall (fun x => known x /\ (gen < generation_of x)%N) all ->
  exists ys, mjoin ((fun x => default [] (moved m gen x)) <$> all) = (fun p => (p, generation_of p)) <$> ys /\
    (forall y, y ∈ ys -> exists x, x ∈ all /\ known y /\ (generation_of y < generation_of x)%N) /\
    forall c, (generation_of c <= gen)%N ->
      (exists x, x ∈ all /\ stays m gen x = false /\ ancestor c x) <-> exists y, y ∈ ys /\ ancestor c y.
Proof using L.
  intros Hm. induction 1 as [|x all [Hx Hg] _ (ys & E & H1 & H2)].
  { exists []. split; [done|]. split; [by intros y ?%elem_of_nil|]. intros c _.
    split; [intros (x & ?%elem_of_nil & _)|intros (y & ?%elem_of_nil & _)]; done. }
  rewrite fmap_cons, mjoin_cons. rewrite E. setoid_rewrite elem_of_cons.
  destruct (moved m gen x) as [edges|] eqn:Em; cbn [from_option id].
  - destruct (moved_ok m gen x edges Hm Hx Hg Em) as (zs & -> & R1 & R2). exists (zs ++ ys).
    split; [by rewrite fmap_app|]. split.
    + intros y [Hy|Hy]%elem_of_app; [exists x; split; [by left|by apply R1]|].
      destruct (H1 y Hy) as (x' & ? & ?). exists x'. split; [by right|done].
    + intros c Hc. setoid_rewrite elem_of_app. specialize (R2 c Hc). specialize (H2 c Hc). split.
      * intros (x' & [->|Hx'] & Hs & Ha); [apply R2 in Ha as (y & ? & ?); exists y; auto|].
        destruct (proj1 H2 (ex_intro _ x' (conj Hx' (conj Hs Ha)))) as (y & ? & ?). exists y. auto.
      * intros (y & [Hy|Hy] & Ha).
        -- exists x. split; [by left|]. split; [unfold stays; by rewrite Em|]. apply R2. by exists y.
        -- destruct (proj2 H2 (ex_intro _ y (conj Hy Ha))) as (x' & ? & ? & ?). exists x'. auto.
  - exists ys. split; [done|]. split; [intros y Hy; destruct (H1 y Hy) as (x' & ? & ?); exists x'; auto|].
    intros c Hc. rewrite <- (H2 c Hc). split.
    + intros (x' & [->|Hx'] & Hs & Ha); [unfold stays in Hs; by rewrite Em in Hs|by exists x'].
    + intros (x' & Hx' & Hs & Ha). exists x'. auto.
Qed.

Lemma process_round_ok {HL : HashOrderLaws HO} m f max val :
  index_ok m -> frontier_ok known f -> max_gen f = Some val -> (max < val)%N ->
  exists f', process_round m f max = Ok f' /\ frontier_ok known f' /\
    (forall c, c ∈ frontier_nodes f' -> (generation_of c < val)%N) /\
    (forall c, (generation_of c <= max)%N -> below f c <-> below f' c).
Proof using L.
  intros Hm Hf Hval Hmax. pose proof (remove_max_gen_spec (E := fetch_error) f Hf) as Hrem. rewrite Hval in Hrem.
  destruct Hrem as (s & f1 & E & Hf1 & Hn & Hs & Hlt). unfold process_round. rewrite E, bind_Ok. cbn [expect].
  rewrite bind_Ok. set (all := hash_order s).
  assert (forall x, x ∈ all <-> x ∈ s) as Hall by (intros x; unfold all; by rewrite hash_order_perm, elem_of_elements).
  assert (Forall (fun x => known x /\ (max < generation_of x)%N) all) as Hok.
  { apply Forall_forall. intros x Hx%Hall. destruct (Hs x Hx) as [? ->]. done. }
  unfold move_skippable_nodes. rewrite move_loop_eq, app_nil_l.
  destruct (moved_all_ok m max all Hm Hok) as (ys & -> & Y1 & Y2).
  assert (Forall known ys) as Hys by (apply Forall_forall; intros y Hy; by destruct (Y1 y Hy) as (? & _ & ? & _)).
  destruct (frontier_extend_spec ys NodeFrontier_default frontier_default_ok Hys) as [Hsk Hskn].
  destruct (frontier_pairs_spec _ Hsk) as (zs & -> & Hzs).
  set (no := List.filter (stays m max) all).
  assert (forall x, x ∈ no <-> x ∈ s /\ stays m max x = true) as Hno.
  { intros x. unfold no. rewrite list_elem_of_In, filter_In, <- list_elem_of_In. by rewrite Hall. }
  assert (Forall known no) as Hnok by (apply Forall_forall; intros x [Hx _]%Hno; by destruct (Hs x Hx)).
  rewrite collect_parents, bind_Ok by done.
  pose proof (known_parents no Hnok) as Hps. unfold changesets_with_generation_numbers in *.
  pose proof (fetch_joins _ Hps) as Ej. unfold changesets_with_generation_numbers in Ej. rewrite Ej, bind_Ok.
  destruct (frontier_extend_spec _ f1 Hf1 Hps) as [Hf2 Hn2].
  assert (forall z, z ∈ zs <-> z ∈ ys) as Hzy.
  { intros z. rewrite Hzs, Hskn. split; [|by left]. intros [?|Hz]; [done|]. by apply frontier_default_nodes in Hz. }
  assert (Forall known zs) as Hzk by (apply Forall_forall; intros z Hz%Hzy; rewrite Forall_forall in Hys; by apply Hys).
  destruct (frontier_extend_spec zs _ Hf2 Hzk) as [Hf3 Hn3].
  eexists. split; [done|]. split; [done|].
  assert (forall p, p ∈ mjoin (parents_of <$> no) <-> exists x, x ∈ no /\ parent p x) as Hpar.
  { intros p. rewrite list_elem_of_join. split; [intros (l & Hp & (x & -> & Hx)%list_elem_of_fmap); by exists x|].
    intros (x & Hx & Hp). exists (parents_of x). split; [exact Hp|]. apply list_elem_of_fmap. by exists x. }
  assert (forall x, x ∈ all -> generation_of x = val) as Hgv by (intros x Hx%Hall; by apply Hs).
  split.
  - intros c [Hc|[Hc|Hc]%Hn2]%Hn3; [|apply Hpar in Hc as (x & Hx & Hp)|by apply Hlt].
    + destruct (Y1 c ltac:(by apply Hzy)) as (x & Hx & _ & ?). by rewrite <- (Hgv x Hx).
    + apply Hno in Hx as [Hx _]. destruct (Hs x Hx) as [Hk <-]. by apply parent_generation.
  - intros c Hc. unfold below. setoid_rewrite Hn3. setoid_rewrite Hn2. setoid_rewrite Hpar. setoid_rewrite Hzy. split.
    + intros (x & [Hx|Hx]%Hn & Ha); [|exists x; auto]. destruct (stays m max x) eqn:Est.
      * destruct (Hs x Hx) as [Hk Hgx]. destruct (proj1 (proj2 (replaces_parents max x Hk ltac:(lia)) c Hc) Ha) as (p & Hp & Hcp).
        exists p. split; [|done]. right; left. exists x. split; [by apply Hno|done].
      * destruct (proj1 (Y2 c Hc)) as (y & Hy & Hcy); [exists x; split; [by apply Hall|done]|]. exists y. auto.
    + intros (y & [Hy|[(x & [Hx _]%Hno & Hp)|Hy]] & Ha).
      * destruct (proj2 (Y2 c Hc) (ex_intro _ y (conj Hy Ha))) as (x & Hx%Hall & _ & Hcx). exists x. split; [by apply Hn; left|done].
      * exists x. split; [by apply Hn; left|]. eapply rtc_r; [exact Ha|exact Hp].
      * exists y. split; [by apply Hn; right|done].
Qed.

Lemma process_loop_ok {HL : HashOrderLaws HO} m max k : forall f,
  index_ok m -> frontier_ok known f -> (forall c, c ∈ frontier_nodes f -> N.to_nat (generation_of c) < k) ->
  exists f', process_loop k m f max = Ok f' /\ frontier_ok known f' /\
    (forall c, c ∈ frontier_nodes f' -> (generation_of c <= max)%N) /\
    (forall c, (generation_of c <= max)%N -> below f c <-> below f' c).
Proof using L.
  induction k as [|k IH]; intros f Hm Hf Hk; cbn [process_loop]; pose proof (max_gen_spec f Hf) as Hmg;
    (destruct (max_gen f) as [val|] eqn:Emg;
      [|exists f; split; [done|]; split; [done|]; split; [|done]; intros c Hc; rewrite Hmg in Hc; by apply not_elem_of_empty in Hc]);
    destruct Hmg as [(x & Hx & Hgx) Hle];
    (destruct (N.ltb_spec max val) as [Hlt|Hlt];
      [|exists f; split; [done|]; split; [done|]; split; [|done]; intros c Hc; specialize (Hle c Hc); lia]).
  - specialize (Hk x Hx). lia.
  - destruct (process_round_ok m f max val Hm Hf Emg Hlt) as (f1 & -> & Hf1 & Hn1 & Hb1). rewrite bind_Ok.
    destruct (IH f1 Hm Hf1) as (f' & -> & Hf' & Hn' & Hb').
    { intros c Hc. specialize (Hn1 c Hc). specialize (Hk x Hx). lia. }
    exists f'. split; [done|]. split; [done|]. split; [done|]. intros c Hc. by rewrite Hb1, Hb'.
Qed.

Lemma process_frontier_ok {HL : HashOrderLaws HO} m f max :
  index_ok m -> frontier_ok known f ->
  exists f', process_frontier m f max = Ok f' /\ frontier_ok known f' /\
    (forall c, c ∈ frontier_nodes f' -> (generation_of c <= max)%N) /\
    (forall c, (generation_of c <= max)%N -> below f c <-> below f' c).
Proof using L.
  intros Hm Hf. apply process_loop_ok; [done|done|]. intros c Hc. pose proof (max_gen_spec f Hf) as Hmg.
  destruct (max_gen f) as [g|]; cbn [from_option id].
  - destruct Hmg as [_ Hle]. specialize (Hle c Hc). lia.
  - rewrite Hmg in Hc. by apply not_elem_of_empty in Hc.
Qed.

(** ** Queries *)

(** In a frontier that was moved down to the generation of [c], [c] itself
    is there when it can be reached. *)
Lemma below_level f c :
  frontier_ok known f -> (forall x, x ∈ frontier_nodes f -> (generation_of x <= generation_of c)%N) ->
  contains_at f (generation_of c) c = true <-> below f c.
Proof using L.
  intros Hf Hle. unfold contains_at, get_all_changesets_for_gen_num.
  pose proof (frontier_at f c Hf) as Hat. unfold frontier_get in Hat.
  assert ((match gen_map f !! generation_of c with Some cs_ids => bool_decide (c ∈ cs_ids) | None => false end) = true
    <-> c ∈ frontier_nodes f) as ->.
  { rewrite <- Hat. destruct (gen_map f !! generation_of c) as [s|]; cbn [from_option id]; [by rewrite bool_decide_eq_true|].
    split; [done|by intros ?%not_elem_of_empty]. }
  split; [intros Hc; exists c; split; [done|apply rtc_refl]|]. intros (x & Hx & Ha).
  assert (known x) as Hk by (by eapply gens_known). specialize (Hle x Hx).
  destruct (ancestor_generation c x Hk Ha) as [->|?]; [done|lia].
Qed.

Lemma query_reachability_ok {HL : HashOrderLaws HO} m desc anc :
  index_ok m -> known desc -> known anc ->
  exists b, skiplist_query_reachability m desc anc = Ok b /\ (b = true <-> ancestor anc desc).
Proof using L.
  intros Hm Hd Ha. unfold skiplist_query_reachability. rewrite !fetch_join, !bind_Ok by done.
  destruct (NodeFrontier_new_ok (known := known) desc Hd) as [Hf Hn].
  destruct (process_frontier_ok m _ (generation_of anc) Hm Hf) as (f' & -> & Hf' & Hle & Hb). rewrite bind_Ok.
  eexists. split; [done|]. rewrite below_level, <- Hb by (done || lia). unfold below. setoid_rewrite Hn.
  split; [by intros (x & -> & ?)|]. intros ?. by exists desc.
Qed.

Lemma is_ancestor_ok {HL : HashOrderLaws HO} m anc desc :
  index_ok m -> known anc -> known desc ->
  exists b, skiplist_is_ancestor m anc desc = Ok b /\ (b = true <-> anc <> desc /\ ancestor anc desc).
Proof using L.
  intros Hm Ha Hd. unfold skiplist_is_ancestor. rewrite !fetch_generation, !bind_Ok by done.
  destruct (N.leb_spec (generation_of desc) (generation_of anc)) as [Hle|Hlt].
  - exists false. split; [done|]. split; [done|]. intros [Hne Hanc].
    destruct (ancestor_generation anc desc Hd Hanc); [done|lia].
  - unfold skiplist_lca_hint.
    destruct (process_frontier_ok m _ (generation_of anc) Hm (frontier_insert_ok _ desc frontier_default_ok Hd))
      as (f' & E & Hf' & Hle & Hb).
    eexists. split; [exact (f_equal (mbind _) E)|]. rewrite below_level, <- Hb by (done || lia). unfold below.
    setoid_rewrite elem_of_frontier_insert. split.
    + intros (x & [->|Hx] & Hanc); [split; [intros ->; lia|done]|by apply frontier_default_nodes in Hx].
    + intros [_ Hanc]. exists desc. split; [by left|done].
Qed.

(** The indexes that the construction can reach. *)
Inductive built : SkiplistEdgeMapping -> Prop :=
| built_new n : built (with_skip_edge_count n)
| built_add m c depth m' : built m -> known c -> add_node m c depth = Ok m' -> built m'.

Lemma built_ok {HL : HashOrderLaws HO} m : built m -> index_ok m.
Proof using L.
  induction 1 as [n|m c depth m' _ IH Hc Hadd]; [intros c n' Hn; cbn in Hn; by rewrite lookup_empty in Hn|].
  destruct (lazy_index_ok m c depth IH Hc) as (m2 & cs & E & Hm2 & _). unfold add_node in Hadd. rewrite E in Hadd. by injection Hadd as <-.
Qed.

(** Indexing a stored changeset succeeds, whatever was indexed before and
    however deep it goes. It leaves the entries that were there, indexes the
    changeset itself unless the depth is 0, and every entry of the new index
    is right: the edges of a node are its parents, or jumps that pass none of
    its ancestors by. *)
Theorem add_node_exact {HL : HashOrderLaws HO} m c depth :
  built m -> known c ->
  exists m', add_node m c depth = Ok m' /\
    (forall d n, mapping m !! d = Some n -> mapping m' !! d = Some n) /\
    (depth <> 0%N -> is_node_indexed m' c = true) /\
    (forall d edges, mapping m' !! d = Some (ParentEdges edges) -> edges.*1 = parents_of d) /\
    (forall d edges e g, mapping m' !! d = Some (SkipEdges edges) -> (e, g) ∈ edges ->
       g = generation_of e /\ e <> d /\ ancestor e d /\
       forall x, ancestor x d -> x <> d -> (generation_of x <= g)%N -> ancestor x e).
Proof using L.
  intros Hb Hc. destruct (lazy_index_ok m c depth (built_ok m Hb) Hc) as (m' & cs & E & Hm' & (_ & Hold & _) & Hcs & Hnew).
  exists m'. split; [exact E|]. split; [|split; [|split]].
  - intros d n Hd. rewrite Hold; [done|]. intros Hdc. specialize (Hcs d Hdc). congruence.
  - intros Hdepth. unfold is_node_indexed, contains_key. by destruct (Hnew Hdepth) as [n ->].
  - intros d edges Hd. destruct (Hm' d _ Hd) as [_ ->]. rewrite <- list_fmap_compose. apply list_fmap_id.
  - intros d edges e g Hd He. destruct (Hm' d _ Hd) as [_ Hes]. rewrite Forall_forall in Hes.
    destruct (Hes _ He) as [Eg (H1 & H2 & H3)]. cbn [fst snd] in *. subst g. done.
Qed.

(** C21. Whatever changesets were indexed, with whatever number of edges per
    node, the index answers as its traits promise: [query_reachability] and
    [is_ancestor] decide reachability, and [lca_hint] moves a frontier down to
    a generation without changing which changesets of that generation or below
    can be reached from it. *)
Theorem skiplist_lawful {HL : HashOrderLaws HO} m :
  built m -> LcaHintLaws known (skiplist_hint m) /\ ReachabilityLaws known (skiplist_reachability m).
Proof using L.
  intros Hb. pose proof (built_ok m Hb) as Hm. split; split.
  - intros f gen Hf. by apply process_frontier_ok.
  - intros a d Ha Hd. by apply is_ancestor_ok.
  - intros desc anc Hd Ha. by apply query_reachability_ok.
Qed.
End skiplist.
