(* ===== verification/AncestorsDifference.v ===== *)
(** * Differences of unions of ancestors

    Model of [src/revset/src/ancestorscombinators.rs]:
    [DifferenceOfUnionsOfAncestorsNodeStream], the ancestors of some changesets
    that are not ancestors of others. It walks back from the former one
    generation at a time, and has an index move the frontier of the latter
    down. It is proved against the interface of the index. *)

From S2P Require Import Prelude Hash Bonsai Graph Frontier Revset Ancestors.

(** [SelectAll] gives the items of its streams as they become ready. *)
Class SelectOrder := { select_all {A} : list (stream A) -> stream A }.
Class SelectOrderLaws (O : SelectOrder) : Prop :=
{ select_all_ok {A} (ls : list (list A)) : exists l, select_all (iter_ok <$> ls) = iter_ok l /\ l ≡ₚ mjoin ls }.

Record DifferenceOfUnionsOfAncestorsNodeStream := mkDou {
  dou_next_generation : gmap Generation (gset ChangesetId);
  current_generation : Generation;
  dou_pending : list (stream (ChangesetId * Generation));
  exclude_ancestors : NodeFrontier;
  current_exclude_generation : option Generation;
  dou_drain : list ChangesetId;
  dou_generations : UniqueHeap
}.

Section difference_of_unions.
Context {F : ChangesetFetcher} {HO : HashOrder} {SO : SelectOrder} {I : LeastCommonAncestorsHint}.

Definition make_pending_one (hash : ChangesetId) : stream (ChangesetId * Generation) :=
  add_generations_by_bonsai (parents_stream hash).

Definition max_generation : Generation := (2 ^ 64 - 1)%N.

Definition insert_all (l : list (ChangesetId * Generation)) : gmap Generation (gset ChangesetId) * UniqueHeap :=
  foldl (fun '(m, h) '(hash, generation) => (gen_insert generation hash m, heap_push generation h))
    (∅, UniqueHeap_new) l.

Definition new_with_excludes (hashes excludes : list ChangesetId)
    : outcome fetch_error DifferenceOfUnionsOfAncestorsNodeStream :=
  map_err GenerationFetchFailed
    (exclude_generations ← collected (add_generations_by_bonsai (iter_ok excludes));
     hashes_generations ← collected (add_generations_by_bonsai (iter_ok hashes));
     let '(next_generation, sorted_unique_generations) := insert_all hashes_generations in
     Ok (mkDou next_generation max_generation [] (frontier_from_iter exclude_generations)
           (max_of (exclude_generations.*2)) [] sorted_unique_generations)).

(** The loop of [exclude_node]: whether the node is to be excluded, and the
    frontier with its highest generation. *)
Fixpoint exclude_loop (k : nat) (exclude : NodeFrontier) (exclude_generation : option Generation)
    (node : ChangesetId) (gen : Generation) : outcome fetch_error (bool * NodeFrontier * option Generation) :=
  match k with
  | 0 => Err StreamOutOfFuel
  | S k =>
      if frontier_is_empty exclude then Ok (false, exclude, exclude_generation)
      else
        let exclude_generation := match exclude_generation with None => max_gen exclude | g => g end in
        match exclude_generation with
        | None => Ok (false, exclude, None)
        | Some exclude_gen =>
            if (exclude_gen <? gen)%N then Ok (false, exclude, exclude_generation)
            else match (if (exclude_gen =? gen)%N then frontier_get exclude gen else None) with
            | Some nodes => Ok (bool_decide (node ∈ nodes), exclude, exclude_generation)
            | None =>
                exclude ← lca_hint exclude gen;
                exclude_loop k exclude None node gen
            end
        end
  end.

(** After one hint the frontier is low enough. *)
Definition exclude_node (s : DifferenceOfUnionsOfAncestorsNodeStream) (node : ChangesetId) :=
  exclude_loop 2 (exclude_ancestors s) (current_exclude_generation s) node (current_generation s).

Definition dou_step (s : DifferenceOfUnionsOfAncestorsNodeStream)
    : DifferenceOfUnionsOfAncestorsNodeStream * option (Poll ChangesetId) :=
  match dou_drain s with
  | x :: d =>
      match exclude_node s x with
      | Ok (true, exclude, g) =>
          (mkDou (dou_next_generation s) (current_generation s) (dou_pending s) exclude g d (dou_generations s), None)
      | Ok (false, exclude, g) =>
          (mkDou (dou_next_generation s) (current_generation s) (dou_pending s ++ [make_pending_one x]) exclude g d
             (dou_generations s), Some (Ok (Ready (Some x))))
      | Err e => (s, Some (Err e))
      | Panic => (s, Some Panic)
      end
  | [] =>
      match absorb (select_all (dou_pending s)) (dou_next_generation s) (dou_generations s) with
      | (pending, Some r, m, h) =>
          (mkDou m (current_generation s) [pending] (exclude_ancestors s) (current_exclude_generation s) [] h, Some r)
      | (pending, None, m, h) =>
          let s' := mkDou m (current_generation s) [pending] (exclude_ancestors s) (current_exclude_generation s) [] h in
          if decide (m = ∅) then (s', Some (Ok (Ready None)))
          else match pop_generation m h with
          | Ok (g, d, m, h) =>
              (mkDou m g [pending] (exclude_ancestors s) (current_exclude_generation s) d h, None)
          | Err e => (s', Some (Err e))
          | Panic => (s', Some Panic)
          end
      end
  end.

(** The whole stream, polled with fuel [k]. *)
Definition difference_of_unions (k : nat) (hashes excludes : list ChangesetId) : option (stream ChangesetId) :=
  match new_with_excludes hashes excludes with
  | Ok s => run dou_step k k s
  | Err e => Some [EvError e]
  | Panic => Some [EvPanic]
  end.

Context {known : ChangesetId -> Prop} {L : FetcherLaws known} {IL : LcaHintLaws known I}.

(** ** Excluding *)

(** The recorded generation is that of the frontier. *)
Definition exclude_ok (f : NodeFrontier) (g : option Generation) : Prop :=
  frontier_ok known f /\ (g = None \/ g = max_gen f).

Lemma below_high f c g :
  frontier_ok known f -> max_gen f = Some g -> (g < generation_of c)%N -> ~ below f c.
Proof using L.
  intros Hf Hg Hlt (x & Hx & Ha). pose proof (max_gen_spec f Hf) as Hm. rewrite Hg in Hm. destruct Hm as [_ Hle].
  specialize (Hle x Hx). assert (known x) as Hk by (by eapply gens_known).
  pose proof (ancestor_generation_le c x Hk Ha). lia.
Qed.

Lemma below_none f c : frontier_nodes f = ∅ -> ~ below f c.
Proof. intros Hf (x & Hx & _). rewrite Hf in Hx. by apply not_elem_of_empty in Hx. Qed.

(** An answer without moving the frontier, when that is low enough. *)
Lemma exclude_low k f g node :
  exclude_ok f g -> (forall x, x ∈ frontier_nodes f -> (generation_of x <= generation_of node)%N) ->
  exists b g', exclude_loop (S k) f g node (generation_of node) = Ok (b, f, g') /\ exclude_ok f g' /\
    (b = true <-> below f node).
Proof using L.
  intros [Hf Hg] Hle. cbn [exclude_loop]. destruct (frontier_is_empty f) eqn:Ee.
  { exists false, g. split; [done|]. split; [done|]. split; [done|]. intros Hb.
    apply (frontier_empty_nodes f Hf) in Ee. by apply (below_none f node) in Hb. }
  assert (match g with None => max_gen f | g => g end = max_gen f) as Eg.
  { destruct Hg as [->| ->]; [done|]. by destruct (max_gen f). }
  change (match g with Some _ => g | None => max_gen f end) with (match g with None => max_gen f | g => g end).
  rewrite Eg. pose proof (max_gen_spec f Hf) as Hm. destruct (max_gen f) as [eg|] eqn:Em.
  2: { apply (frontier_empty_nodes f Hf) in Hm. congruence. }
  destruct Hm as [(y & Hy & Hgy) Hmax]. destruct (N.ltb_spec eg (generation_of node)) as [Hlt|Hge].
  { exists false, (Some eg). split; [done|]. split; [split; [done|by right]|]. split; [done|].
    intros Hb. by apply (below_high f node eg) in Hb. }
  assert (eg = generation_of node) as -> by (specialize (Hle y Hy); lia). rewrite N.eqb_refl.
  pose proof (frontier_at f y Hf) as Hat. rewrite Hgy in Hat.
  destruct (frontier_get f (generation_of node)) as [nodes|] eqn:En.
  2: { apply Hat in Hy. by apply not_elem_of_empty in Hy. }
  eexists _, _. split; [done|]. split; [split; [done|by right]|]. rewrite bool_decide_eq_true.
  pose proof (frontier_at f node Hf) as Hn. rewrite En in Hn. cbn [from_option id] in Hn. rewrite Hn. split.
  - intros H. exists node. split; [done|apply rtc_refl].
  - intros (x & Hx & Ha). assert (known x) as Hk by (by eapply gens_known). specialize (Hle x Hx).
    destruct (ancestor_generation node x Hk Ha) as [->|?]; [done|lia].
Qed.

Lemma exclude_node_ok f g node :
  exclude_ok f g -> known node ->
  exists b f' g', exclude_loop 2 f g node (generation_of node) = Ok (b, f', g') /\ exclude_ok f' g' /\
    (b = true <-> below f node) /\ forall c, (generation_of c <= generation_of node)%N -> below f c <-> below f' c.
Proof using L IL.
  intros Hfg Hn. pose proof Hfg as [Hf Hg]. pose proof (max_gen_spec f Hf) as Hm.
  assert ((exists eg, max_gen f = Some eg /\ (generation_of node < eg)%N) \/
    forall eg, max_gen f = Some eg -> (eg <= generation_of node)%N) as [(eg & Eg & Hlt)|Hlow].
  { destruct (max_gen f) as [eg|]; [|by right]. destruct (N.lt_ge_cases (generation_of node) eg); [left; eauto|].
    right. by intros ? [= <-]. }
  - destruct (lca_hint_exact f (generation_of node) Hf) as (f' & El & Hf' & Hle' & Hb').
    destruct (exclude_low 0 f' None node) as (b & g' & E & Hok & Hb); [by split; [|left]|done|].
    exists b, f', g'. split; [|split; [done|split; [by rewrite Hb, <- Hb'|done]]].
    rewrite <- E. cbn [exclude_loop]. rewrite Eg in Hm. destruct Hm as [(y & Hy & _) _].
    destruct (frontier_is_empty f) eqn:Ee.
    { apply (frontier_empty_nodes f Hf) in Ee. rewrite Ee in Hy. by apply not_elem_of_empty in Hy. }
    assert (match g with None => max_gen f | g => g end = Some eg) as E2.
    { destruct Hg as [->| ->]; rewrite ?Eg; done. }
    change (match g with Some _ => g | None => max_gen f end) with (match g with None => max_gen f | g => g end).
    rewrite E2. destruct (N.ltb_spec eg (generation_of node)); [lia|].
    destruct (N.eqb_spec eg (generation_of node)); [lia|]. by rewrite El, bind_Ok.
  - destruct (exclude_low 1 f g node Hfg) as (b & g' & E & Hok & Hb).
    { intros x Hx. destruct (max_gen f) as [eg|]; [|rewrite Hm in Hx; by apply not_elem_of_empty in Hx].
      destruct Hm as [_ Hle]. specialize (Hle x Hx). specialize (Hlow eg eq_refl). lia. }
    exists b, f, g'. done.
Qed.

(** ** What is still to come *)

Definition waiting (s : DifferenceOfUnionsOfAncestorsNodeStream) : list ChangesetId :=
  mjoin ((fun p => (items p).*1) <$> dou_pending s) ++ elements (nodes_of (dou_next_generation s)).

(** Everything that the walk can still reach, excluded or not. *)
Definition reach (s : DifferenceOfUnionsOfAncestorsNodeStream) : gset ChangesetId := closure (dou_drain s ++ waiting s).

Record dou_inv (s : DifferenceOfUnionsOfAncestorsNodeStream) : Prop := {
  inv_pending : exists P, dou_pending s = work <$> P /\ Forall (Forall known) P;
  inv_gens : gens_ok known (dou_next_generation s) (dou_generations s);
  inv_drain : NoDup (dou_drain s);
  inv_level x : x ∈ dou_drain s -> known x /\ generation_of x = current_generation s;
  inv_above x y : x ∈ dou_drain s -> y ∈ waiting s -> (generation_of y < generation_of x)%N;
  inv_exclude : exclude_ok (exclude_ancestors s) (current_exclude_generation s)
}.

Definition dou_weight (s : DifferenceOfUnionsOfAncestorsNodeStream) : nat :=
  2 * size (reach s) + match dou_drain s with [] => 1 | _ => 0 end.

Definition dou_result (s : DifferenceOfUnionsOfAncestorsNodeStream) (evs : stream ChangesetId) : Prop :=
  ends evs = Ok tt /\ revset (items evs) /\
  forall c, c ∈ items evs <-> c ∈ reach s /\ ~ below (exclude_ancestors s) c.

Abbreviation dou_next := (next_ok dou_inv dou_weight dou_result).

Lemma fst_work P : (items (work P)).*1 = P.
Proof. exact (pending_ids_work (mkAncestors ∅ (work P) [] UniqueHeap_new) P eq_refl). Qed.

Lemma pending_work P : mjoin ((fun p => (items p).*1) <$> (work <$> P)) = mjoin P.
Proof. rewrite <- list_fmap_compose. unfold compose. induction P as [|l P IH]; [done|]. by rewrite fmap_cons, !mjoin_cons, IH, fst_work. Qed.

Lemma dou_waiting_known s : dou_inv s -> Forall known (waiting s).
Proof.
  intros [(P & HP & Hk) Hg _ _ _ _]. unfold waiting. rewrite HP, pending_work. apply Forall_app. split.
  - apply Forall_forall. intros c (l & Hc & Hl)%list_elem_of_join. rewrite Forall_forall in Hk.
    specialize (Hk l Hl). rewrite Forall_forall in Hk. by apply Hk.
  - apply Forall_forall. intros c Hc%elem_of_elements. by eapply gens_known.
Qed.

Lemma elem_of_reach s c :
  dou_inv s -> c ∈ reach s <-> exists y, (y ∈ dou_drain s \/ y ∈ waiting s) /\ ancestor c y.
Proof using L.
  intros Hs. unfold reach. rewrite elem_of_closure; [by setoid_rewrite (elem_of_app (dou_drain s) (waiting s))|].
  apply Forall_app. split; [|by apply dou_waiting_known]. apply Forall_forall. intros x Hx. by apply Hs.
Qed.

(** Dealing with the first of the drain: what is left lacks it. *)
Lemma reach_split s x d s' :
  dou_inv s -> dou_inv s' -> dou_drain s = x :: d -> dou_drain s' = d ->
  (forall y, y ∈ waiting s -> y ∈ waiting s') ->
  (forall y, y ∈ waiting s' -> y ∈ waiting s \/ parent y x) ->
  (forall c, c ∈ reach s' -> c ∈ reach s /\ c <> x /\ (generation_of c <= generation_of x)%N) /\
  (forall c, c ∈ reach s -> c ∈ reach s' \/ ancestor c x) /\ x ∈ reach s.
Proof using L.
  intros Hs Hs' Ed Ed' Hw Hw'. assert (x ∈ dou_drain s) as Hx by (rewrite Ed; by left).
  destruct (inv_level s Hs x Hx) as [Hkx Hgx]. pose proof (inv_drain s Hs) as Hnd. rewrite Ed in Hnd.
  apply NoDup_cons in Hnd as [Hxd _]. split; [|split].
  - intros c. rewrite !elem_of_reach by done. rewrite Ed'. intros (y & [Hy|Hy] & Ha).
    + assert (y ∈ dou_drain s) as Hyd by (rewrite Ed; by right).
      destruct (inv_level s Hs y Hyd) as [Hky Hgy]. split; [exists y; auto|].
      destruct (ancestor_generation c y Hky Ha) as [->|Hlt]; [split; [by intros ->|lia]|].
      split; [intros ->; lia|lia].
    + assert ((exists z, (z ∈ dou_drain s \/ z ∈ waiting s) /\ ancestor c z) /\ known y /\ (generation_of y < generation_of x)%N) as (Hz & Hky & Hgy).
      { destruct (Hw' y Hy) as [Hy'|Hp].
        - split; [exists y; auto|]. split; [|by apply (inv_above s Hs)].
          pose proof (dou_waiting_known s Hs) as Hk. rewrite Forall_forall in Hk. by apply Hk.
        - split; [exists x; split; [by left|]; eapply rtc_r; [exact Ha|exact Hp]|].
          split; [by apply (parent_known y x)|by apply parent_generation]. }
      split; [done|]. pose proof (ancestor_generation_le c y Hky Ha). split; [intros ->; lia|lia].
  - intros c. rewrite !elem_of_reach by done. rewrite Ed, Ed'. intros (y & [[->|Hy]%elem_of_cons|Hy] & Ha);
      [by right|left; exists y; auto|left; exists y; split; [right; by apply Hw|done]].
  - apply elem_of_reach; [done|]. exists x. split; [by left|apply rtc_refl].
Qed.

Lemma size_reach (X Y : gset ChangesetId) x : X ⊆ Y -> x ∈ Y -> x ∉ X -> size X < size Y.
Proof. intros H1 H2 H3. apply subset_size. split; [done|]. intros H. by apply H3, H. Qed.

Lemma dou_drain_ok s x d : dou_inv s -> dou_drain s = x :: d -> dou_next (dou_weight s) (dou_result s) (dou_step s).
Proof using L IL.
  intros Hs Ed. pose proof Hs as [(P & HP & HPk) H2 H3 H4 H5 H6]. unfold dou_step. rewrite Ed.
  rewrite Ed in H3. apply NoDup_cons in H3 as [Hxd Hd].
  destruct (H4 x) as [Hkx Hgx]; [rewrite Ed; by left|]. unfold exclude_node. rewrite <- Hgx.
  destruct (exclude_node_ok _ _ x H6 Hkx) as (b & f' & g' & -> & Hex & Hb & Hsame).
  assert (forall c, c ∈ reach s -> (generation_of c <= generation_of x)%N) as Hle.
  { intros c (y & Hy & Ha)%elem_of_reach; [|done]. destruct Hy as [Hy|Hy].
    - destruct (H4 y Hy) as [Hky Hgy]. rewrite Hgx, <- Hgy. by apply ancestor_generation_le.
    - assert (known y) as Hky by (pose proof (dou_waiting_known s Hs) as Hk; rewrite Forall_forall in Hk; by apply Hk).
      pose proof (H5 x y ltac:(rewrite Ed; by left) Hy). pose proof (ancestor_generation_le c y Hky Ha). lia. }
  set (s1 := mkDou _ _ (dou_pending s) f' g' d _). set (s2 := mkDou _ _ (dou_pending s ++ _) f' g' d _).
  assert (waiting s1 = waiting s) as W1 by done.
  assert (make_pending_one x = work (parents_of x)) as Epend.
  { unfold make_pending_one, parents_stream. rewrite fetch_parents by done. cbn [map_err].
    apply add_generations_iter_ok. apply Forall_forall. intros p Hp. by apply (parent_known p x). }
  assert (forall y, y ∈ waiting s2 <-> y ∈ waiting s \/ parent y x) as W2.
  { intros y. unfold waiting. cbn [s2 dou_pending dou_next_generation].
    rewrite fmap_app, join_app, !elem_of_app, Epend. cbn [fmap list_fmap]. rewrite mjoin_cons, fst_work, app_nil_r. unfold parent. tauto. }
  assert (forall y, y ∈ d -> y ∈ dou_drain s) as Hsub by (intros y Hy; rewrite Ed; by right).
  destruct b.
  - assert (dou_inv s1) as Hs1.
    { split; cbn [s1 dou_pending dou_next_generation dou_generations dou_drain current_generation exclude_ancestors current_exclude_generation];
        [by exists P|done|done|intros y Hy; rewrite Hgx; by apply H4, Hsub| |done]. intros y z Hy. rewrite W1. by apply H5, Hsub. }
    destruct (reach_split s x d s1 Hs Hs1 Ed eq_refl) as (R1 & R2 & R3); [by rewrite W1|rewrite W1; by left|].
    assert (reach s1 ⊆ reach s) as Hsr by (intros c Hc; by apply R1).
    split; [done|]. split.
    { pose proof (size_reach (reach s1) (reach s) x Hsr R3 ltac:(intros Hx; by destruct (R1 x Hx) as (_ & ? & _))).
      unfold dou_weight. rewrite Ed. destruct (dou_drain s1); lia. }
    intros evs (He & Hr & Hin). split; [done|]. split; [done|]. intros c. rewrite Hin. cbn [s1 exclude_ancestors]. split.
    + intros [Hc Hn]. split; [by apply Hsr|]. rewrite Hsame; [done|]. by apply Hle, Hsr.
    + intros [Hc Hn]. destruct (R2 c Hc) as [Hc1|Ha].
      * split; [done|]. rewrite <- Hsame; [done|]. by apply Hle.
      * destruct Hn. destruct (proj1 Hb eq_refl) as (z & Hz & Hxz). exists z. split; [done|]. by transitivity x.
  - assert (dou_inv s2) as Hs2.
    { split; cbn [s2 dou_pending dou_next_generation dou_generations dou_drain current_generation exclude_ancestors current_exclude_generation];
        [ |done|done|intros y Hy; rewrite Hgx; by apply H4, Hsub| |done].
      - exists (P ++ [parents_of x]). rewrite HP, Epend, fmap_app. split; [done|]. apply Forall_app. split; [done|].
        apply Forall_singleton, Forall_forall. intros p Hp. by apply (parent_known p x).
      - intros y z Hy [Hz|Hz]%W2; [by apply H5; [apply Hsub|]|]. destruct (H4 y (Hsub y Hy)) as [_ Hgy].
        rewrite Hgy, <- Hgx. by apply parent_generation. }
    destruct (reach_split s x d s2 Hs Hs2 Ed eq_refl) as (R1 & R2 & R3); [intros y Hy; apply W2; by left|intros y; apply W2|].
    assert (reach s2 ⊆ reach s) as Hsr by (intros c Hc; by apply R1).
    split; [done|]. split.
    { pose proof (size_reach (reach s2) (reach s) x Hsr R3 ltac:(intros Hx; by destruct (R1 x Hx) as (_ & ? & _))).
      unfold dou_weight. rewrite Ed. destruct (dou_drain s2); lia. }
    assert (~ below (exclude_ancestors s) x) as Hnx by (intros Hbx; by apply Hb in Hbx).
    intros evs (He & Hr & Hin). split; [done|]. cbn [items]. cbn [s2 exclude_ancestors] in Hin. split.
    + apply revset_cons. split; [by intros [Hx _]%Hin; destruct (R1 x Hx) as (_ & ? & _)|]. split; [|done].
      intros y [Hy _]%Hin. by destruct (R1 y Hy) as (_ & _ & ?).
    + intros c. rewrite elem_of_cons, Hin. split.
      * intros [->|[Hc Hn]]; [done|]. split; [by apply Hsr|]. rewrite Hsame; [done|]. by apply Hle, Hsr.
      * intros [Hc Hn]. destruct (decide (c = x)) as [->|Hcx]; [by left|right]. split; [|rewrite <- Hsame; [done|]; by apply Hle].
        destruct (R2 c Hc) as [Hc2|Ha]; [done|]. apply elem_of_reach; [done|].
        destruct (ancestor_right c x Ha) as [|(p & Hcp & Hp)]; [done|]. exists p. split; [|done]. right. apply W2. by right.
Qed.

Lemma select_work {SL : SelectOrderLaws SO} P :
  exists l, select_all (work <$> P) = work l /\ l ≡ₚ mjoin P.
Proof.
  destruct (select_all_ok (with_generations <$> P)) as (l & E & Hl).
  assert (mjoin (with_generations <$> P) = with_generations (mjoin P)) as Ej.
  { clear. unfold with_generations. induction P as [|p P IH]; [done|]. by rewrite fmap_cons, !mjoin_cons, fmap_app, IH. }
  rewrite Ej in Hl. apply Permutation_map_inv in Hl as (l' & -> & Hl). exists l'. split; [|done].
  transitivity (select_all (iter_ok <$> (with_generations <$> P))); [by rewrite <- list_fmap_compose|exact E].
Qed.

Lemma dou_advance_ok {HL : HashOrderLaws HO} {SL : SelectOrderLaws SO} s :
  dou_inv s -> dou_drain s = [] -> dou_next (dou_weight s) (dou_result s) (dou_step s).
Proof using L.
  intros Hs Ed. pose proof Hs as [(P & HP & HPk) H2 H3 H4 H5 H6]. unfold dou_step. rewrite Ed, HP.
  destruct (select_work P) as (l & -> & Hl).
  assert (Forall known l) as Hlk.
  { rewrite Hl. apply Forall_forall. intros c (p & Hc & Hp)%list_elem_of_join. rewrite Forall_forall in HPk.
    specialize (HPk p Hp). rewrite Forall_forall in HPk. by apply HPk. }
  destruct (absorb_work l _ _ H2 Hlk) as (m & h & -> & Hm & Hn).
  assert (forall y, y ∈ nodes_of m <-> y ∈ waiting s) as Hw.
  { intros y. rewrite Hn, Hl. unfold waiting. rewrite HP, pending_work, elem_of_app, elem_of_elements. done. }
  assert (forall c, c ∈ reach s <-> exists y, y ∈ nodes_of m /\ ancestor c y) as Hreach.
  { intros c. rewrite elem_of_reach, Ed by done. setoid_rewrite Hw. split; [|naive_solver].
    intros (y & [Hy|Hy] & Ha); [by apply elem_of_nil in Hy|by exists y]. }
  case_decide as Em.
  { split; [done|]. split; [apply revset_nil|]. intros c. split; [by intros ?%elem_of_nil|]. intros [Hc _].
    apply Hreach in Hc as (y & Hy & _). apply (gens_empty_nodes _ _ Hm) in Em. rewrite Em in Hy. by apply not_elem_of_empty in Hy. }
  destruct (pop_generation_ok m h Hm Em) as (g & x & d & m' & h' & -> & Hm' & Hnd & Hnm & Hxd & Hlt).
  set (s1 := mkDou m' g [[]] (exclude_ancestors s) (current_exclude_generation s) (x :: d) h').
  assert (forall y, y ∈ waiting s1 <-> y ∈ nodes_of m') as W1.
  { intros y. change (waiting s1) with (elements (nodes_of m')). apply elem_of_elements. }
  assert (dou_inv s1) as Hs1.
  { split; cbn [s1 dou_pending dou_next_generation dou_generations dou_drain current_generation exclude_ancestors current_exclude_generation];
      [exists [[]]; split; [done|by repeat constructor]|done|done|done| |done].
    intros y z Hy Hz%W1. destruct (Hxd y Hy) as [_ ->]. by apply Hlt. }
  assert (reach s1 = reach s) as Er.
  { apply set_eq. intros c. rewrite Hreach, elem_of_reach by done. setoid_rewrite W1. setoid_rewrite Hnm. done. }
  split; [done|]. change (dou_weight s1 < dou_weight s /\ forall evs, dou_result s1 evs -> dou_result s evs).
  unfold dou_weight, dou_result. rewrite Er, Ed. cbn [s1 dou_drain exclude_ancestors]. split; [lia|done].
Qed.

Lemma dou_step_ok {HL : HashOrderLaws HO} {SL : SelectOrderLaws SO} s :
  dou_inv s -> step_ok dou_step dou_inv dou_weight dou_result s.
Proof using L IL.
  intros Hs. unfold step_ok. destruct (dou_drain s) as [|x d] eqn:Ed; [by apply dou_advance_ok|by eapply dou_drain_ok].
Qed.

Lemma collected_known l : Forall known l -> collected (add_generations_by_bonsai (iter_ok l)) = Ok (with_generations l).
Proof using L.
  intros Hl. unfold collected. destruct (add_generations_known (iter_ok l)) as [E1 E2]; [by rewrite items_iter_ok|].
  by rewrite E1, E2, ends_iter_ok, items_iter_ok, bind_Ok.
Qed.

Lemma insert_all_ok l m h :
  Forall known l -> gens_ok known m h ->
  let '(m', h') := foldl (fun '(m, h) '(hash, generation) => (gen_insert generation hash m, heap_push generation h))
                     (m, h) (with_generations l) in
  gens_ok known m' h' /\ forall c, c ∈ nodes_of m' <-> c ∈ l \/ c ∈ nodes_of m.
Proof.
  revert m h. induction l as [|c l IH]; intros m h Hl Hm.
  { cbn. split; [done|]. intros c. split; [by right|by intros [?%elem_of_nil|?]]. }
  apply Forall_cons in Hl as [Hc Hl]. unfold with_generations. rewrite fmap_cons. cbn [foldl].
  specialize (IH (gen_insert (generation_of c) c m) (heap_push (generation_of c) h) Hl ltac:(by apply gen_insert_ok)).
  unfold with_generations in IH. destruct (foldl _ _ _) as [m' h']. destruct IH as [IH1 IH2].
  split; [done|]. intros x. rewrite IH2, elem_of_gen_insert, elem_of_cons. tauto.
Qed.

Lemma max_of_extend l f :
  frontier_ok known f -> (forall c, c ∈ frontier_nodes f <-> c ∈ l) -> max_of ((with_generations l).*2) = max_gen f.
Proof.
  intros Hf Hn. pose proof (max_gen_spec f Hf) as Hm. pose proof (max_of_list ((with_generations l).*2)) as Hl.
  assert (forall g, g ∈ (with_generations l).*2 <-> exists c, c ∈ l /\ g = generation_of c) as Hg.
  { intros g. unfold with_generations. rewrite <- list_fmap_compose, list_elem_of_fmap. naive_solver. }
  destruct (max_of _) as [g|], (max_gen f) as [g'|]; [| | |done].
  - destruct Hl as [(c & Hc & ->)%Hg H1], Hm as [(c' & Hc' & <-) H2]. f_equal.
    apply Hn in Hc. specialize (H2 c Hc). apply Hn in Hc'.
    specialize (H1 (generation_of c') ltac:(apply Hg; by exists c')). lia.
  - destruct Hl as [(c & Hc & _)%Hg _]. apply Hn in Hc. rewrite Hm in Hc. by apply not_elem_of_empty in Hc.
  - destruct Hm as [(c & Hc & _) _]. apply Hn in Hc.
    assert (generation_of c ∈ (with_generations l).*2) as Hin by (apply Hg; by exists c).
    rewrite Hl in Hin. by apply elem_of_nil in Hin.
Qed.

(** C22. The stream of [new_with_excludes] ends and is a revset. It consists
    of the ancestors of the given changesets that are not ancestors of the
    excluded ones, over any index that keeps to its trait. *)
Theorem difference_of_unions_exact {HL : HashOrderLaws HO} {SL : SelectOrderLaws SO} hashes excludes :
  Forall known hashes -> Forall known excludes ->
  exists n0 evs, (forall k, n0 <= k -> difference_of_unions k hashes excludes = Some evs) /\
    ends evs = Ok tt /\ revset (items evs) /\
    forall c, c ∈ items evs <->
      (exists h, h ∈ hashes /\ ancestor c h) /\ ~ exists e, e ∈ excludes /\ ancestor c e.
Proof using L IL.
  intros Hh He. unfold difference_of_unions, new_with_excludes.
  rewrite !collected_known, !bind_Ok by done. unfold insert_all.
  pose proof (insert_all_ok hashes ∅ UniqueHeap_new Hh gens_empty_ok) as Hins.
  destruct (foldl _ _ _) as [m h]. destruct Hins as [Hm Hn]. cbn [map_err].
  destruct (frontier_extend_spec excludes NodeFrontier_default frontier_default_ok He) as [Hf Hfn].
  set (s := mkDou _ _ _ _ _ _ _).
  assert (forall c, c ∈ nodes_of m <-> c ∈ hashes) as Hn'.
  { intros c. rewrite Hn. split; [|by left]. intros [?|(g & S & HS & _)%elem_of_nodes]; [done|by rewrite lookup_empty in HS]. }
  assert (forall c, c ∈ frontier_nodes (exclude_ancestors s) <-> c ∈ excludes) as Hfn'.
  { intros c. transitivity (c ∈ excludes \/ c ∈ frontier_nodes NodeFrontier_default); [exact (Hfn c)|]. split; [|by left]. intros [?|H]; [done|]. by apply frontier_default_nodes in H. }
  assert (dou_inv s) as Hs.
  { split; cbn [s dou_pending dou_next_generation dou_generations dou_drain current_generation exclude_ancestors current_exclude_generation].
    - by exists [].
    - done.
    - constructor.
    - by intros x ?%elem_of_nil.
    - by intros x y ?%elem_of_nil.
    - split; [done|]. right. by apply max_of_extend. }
  destruct (runs_steps _ _ _ _ dou_step_ok s Hs) as (evs & [n0 Hr] & Hend & Hrev & Hin).
  exists n0, evs. split; [by intros k Hk; apply Hr|]. split; [done|]. split; [done|]. intros c.
  rewrite Hin, elem_of_reach by done. unfold below. setoid_rewrite Hfn'.
  assert (forall y, y ∈ waiting s <-> y ∈ hashes) as Hw.
  { intros y. change (waiting s) with (elements (nodes_of m)). by rewrite elem_of_elements. }
  setoid_rewrite Hw. cbn [s dou_drain]. split.
  - intros [(y & [?%elem_of_nil|Hy] & Ha) Hne]; [done|]. split; [by exists y|done].
  - intros [(y & Hy & Ha) Hne]. split; [exists y; auto|done].
Qed.
End difference_of_unions.
