(* ===== verification/RevsetExample.v ===== *)
(** * Revsets and the skip list index at work

    The theorems on revsets and on the index, at the small history of [Range]:
    4 is a merge of 2 and 3, whose parent is 1; 5 has no parents. *)

From S2P Require Import Prelude Hash Bonsai Graph Frontier Range Revset SetCommon UnionStream.
From S2P Require Import IntersectStream DifferenceStream Ancestors Skiplist AncestorsDifference.

#[local] Existing Instance ex_fetcher.
#[local] Existing Instance ex_laws.

Abbreviation ex_known := (fun c => c ∈ ex_graph.*1).

(** The streams of a [SelectAll] one after the other. *)
#[local] Instance in_sequence : SelectOrder := {| select_all A ss := mjoin (M := list) ss |}.

#[local] Instance in_sequence_laws : SelectOrderLaws in_sequence.
Proof.
  split. intros A ls. exists (mjoin ls). split; [|done]. cbn.
  rewrite <- (list_fmap_id ls) at 2. exact (mjoin_iter_ok (fun x => x) ls).
Qed.

Lemma ex_all_known l : bool_decide (Forall ex_known l) = true -> Forall ex_known l.
Proof. apply bool_decide_eq_true. Qed.

Lemma ex_descending l :
  bool_decide (StronglySorted (fun x y => (generation_of y <= generation_of x)%N) l) = true -> descending l.
Proof. apply bool_decide_eq_true. Qed.

(** Two streams, the first of which is not ready at first. *)
Definition ex_left : stream ChangesetId := [EvPending; EvItem (ex_cs x04); EvItem (ex_cs x02)].
Definition ex_right : stream ChangesetId := [EvItem (ex_cs x02); EvPending; EvItem (ex_cs x05)].

Lemma ex_good s :
  bool_decide (Forall ex_known (items s)) = true ->
  bool_decide (StronglySorted (fun x y => (generation_of y <= generation_of x)%N) (items s)) = true ->
  ends s = Ok tt -> good_input (known := ex_known) s.
Proof.
  intros H1 H2 H3. split; [by apply ex_all_known|]. split; [by apply ex_descending|by rewrite H3].
Qed.

Lemma ex_inputs : Forall (good_input (known := ex_known)) [ex_left; ex_right].
Proof. apply Forall_cons. split; [|apply Forall_singleton]; apply ex_good; by vm_compute. Qed.

Lemma validate_exact_witness :
  (exists evs, runs validate_step (ValidateNodeStream_new ex_left) evs /\ revset (items evs)) /\
  run validate_step 10 10 (ValidateNodeStream_new ex_left) = Some ex_left /\
  run validate_step 10 10 (ValidateNodeStream_new (iter_ok [ex_cs x02; ex_cs x04])) =
    Some [EvItem (ex_cs x02); EvPanic].
Proof.
  split; [|split; by vm_compute].
  destruct (validate_exact (known := ex_known) ex_left) as (evs & Hr & _ & _ & _ & Hrev).
  - apply ex_all_known. by vm_compute.
  - by exists evs.
Defined.

Lemma union_exact_witness :
  (exists evs, runs union_step (UnionNodeStream_new [ex_left; ex_right]) evs /\ revset (items evs)) /\
  run union_step 20 20 (UnionNodeStream_new [ex_left; ex_right]) =
    Some [EvPending; EvItem (ex_cs x04); EvPending; EvItem (ex_cs x02); EvItem (ex_cs x05)].
Proof.
  split; [|by vm_compute]. destruct (union_exact (known := ex_known) [ex_left; ex_right]) as (evs & Hr & Hrev & _).
  - exact ex_inputs.
  - by exists evs.
Defined.

Lemma intersect_exact_witness :
  (exists evs, runs intersect_step (IntersectNodeStream_new [ex_left; ex_right]) evs /\ revset (items evs)) /\
  run intersect_step 20 20 (IntersectNodeStream_new [ex_left; ex_right]) =
    Some [EvPending; EvPending; EvItem (ex_cs x02)].
Proof.
  split; [|by vm_compute].
  destruct (intersect_exact (known := ex_known) [ex_left; ex_right]) as (evs & Hr & Hrev & _).
  - exact ex_inputs.
  - apply (bool_decide_unpack _). by vm_compute.
  - by exists evs.
Defined.

Lemma difference_exact_witness :
  (exists evs, runs difference_step (SetDifferenceNodeStream_new ex_left ex_right) evs /\
     ((items evs = [ex_cs x04] /\ ends evs = Ok tt) \/
      exists e, ends ex_right = Err e /\ ends evs = Err e /\ items evs `prefix_of` [ex_cs x04])) /\
  run difference_step 20 20 (SetDifferenceNodeStream_new ex_left ex_right) =
    Some [EvPending; EvItem (ex_cs x04); EvPending].
Proof.
  split; [|by vm_compute].
  destruct (difference_exact (known := ex_known) ex_left ex_right) as (evs & Hr & Hres).
  - apply ex_all_known. by vm_compute.
  - apply ex_descending. by vm_compute.
  - done.
  - apply ex_all_known. by vm_compute.
  - apply ex_descending. by vm_compute.
  - done.
  - exists evs. split; [exact Hr|exact Hres].
Defined.

Lemma greatest_common_ancestor_exact_witness :
  (exists n0, forall k, n0 <= k -> exists r,
     greatest_common_ancestor k [ex_cs x02; ex_cs x03] = Some r /\ ends r = Ok tt) /\
  greatest_common_ancestor 20 [ex_cs x02; ex_cs x03] = Some [EvItem (ex_cs x01)] /\
  greatest_common_ancestor 20 [ex_cs x02; ex_cs x05] = Some [].
Proof.
  split; [|split; by vm_compute].
  destruct (greatest_common_ancestor_exact (known := ex_known) [ex_cs x02; ex_cs x03]) as (n0 & evs & _ & _ & _ & _ & H).
  - done.
  - apply ex_all_known. by vm_compute.
  - exists n0. intros k Hk. destruct (H k Hk) as (r & Hr & He & _). by exists r.
Defined.

(** The index after 4 was indexed, two layers deep. *)
Definition ex_index : SkiplistEdgeMapping :=
  default (with_skip_edge_count 3) (ok (add_node (with_skip_edge_count 3) (ex_cs x04) 2)).

Lemma ex_added m c depth :
  is_ok (add_node m c depth) = true -> built (known := ex_known) m -> ex_known c ->
  built (known := ex_known) (default m (ok (add_node m c depth))).
Proof. destruct (add_node m c depth) as [m'|e|] eqn:E; [|done|done]. intros _ Hm Hc. exact (built_add m c depth m' Hm Hc E). Qed.

Lemma ex_index_built : built (known := ex_known) ex_index.
Proof.
  unfold ex_index. apply ex_added; [by vm_compute|constructor|]. right; right; right; left.
Qed.

Lemma add_node_exact_witness :
  (exists m', add_node ex_index (ex_cs x01) 5 = Ok m' /\ is_node_indexed m' (ex_cs x01) = true) /\
  indexed_node_count ex_index = 3%N /\ get_skip_edges ex_index (ex_cs x02) = Some [(ex_cs x01, 1%N)].
Proof.
  split; [|split; by vm_compute].
  destruct (add_node_exact (known := ex_known) ex_index (ex_cs x01) 5) as (m' & Hm' & _ & Hi & _).
  - exact ex_index_built.
  - left.
  - exists m'. split; [exact Hm'|by apply Hi].
Defined.

Lemma skiplist_lawful_witness :
  (LcaHintLaws ex_known (skiplist_hint ex_index) /\ ReachabilityLaws ex_known (skiplist_reachability ex_index)) /\
  skiplist_query_reachability ex_index (ex_cs x04) (ex_cs x01) = Ok true /\
  skiplist_is_ancestor ex_index (ex_cs x02) (ex_cs x03) = Ok false.
Proof.
  split; [|split; by vm_compute]. apply (skiplist_lawful (known := ex_known)). exact ex_index_built.
Defined.

Lemma ex_hint_laws : LcaHintLaws ex_known (skiplist_hint ex_index).
Proof.
  split.
  - intros f gen Hf. apply process_frontier_ok; [apply built_ok, ex_index_built|done].
  - intros a d Ha Hd. apply is_ancestor_ok; [apply built_ok, ex_index_built|done|done].
Qed.

Lemma difference_of_unions_exact_witness :
  (exists n0 evs, (forall k, n0 <= k ->
     difference_of_unions (I := skiplist_hint ex_index) k [ex_cs x04] [ex_cs x02] = Some evs) /\ ends evs = Ok tt) /\
  difference_of_unions (I := skiplist_hint ex_index) 20 [ex_cs x04] [ex_cs x02] =
    Some [EvItem (ex_cs x04); EvItem (ex_cs x03)].
Proof.
  split; [|by vm_compute].
  destruct (difference_of_unions_exact (I := skiplist_hint ex_index) (known := ex_known) (IL := ex_hint_laws)
    [ex_cs x04] [ex_cs x02]) as (n0 & evs & Hr & He & _).
  - apply ex_all_known. by vm_compute.
  - apply ex_all_known. by vm_compute.
  - by exists n0, evs.
Defined.
