(* ===== verification/TopoSort.v ===== *)
(** * Topological sorting

    Model of [sort_topological] of [src/blobrepo/src/utils.rs], which puts the
    changesets to be saved in order: a depth-first search with an explicit
    stack. [Graph] is required for the iteration order of a [HashSet]. *)

From S2P Require Import Prelude Hash Bonsai Graph.

Inductive Mark := Temporary | Marked.

Inductive Action (T : Type) :=
| Visit (node : T)
| MarkNode (node : T).
Arguments Visit {T} node.
Arguments MarkNode {T} node.

Section sort.
Context {T : Type} `{Countable T} {HO : HashOrder}.

(** [HashMap<T, Vec<T>>]. *)
Abbreviation dag_map := (gmap T (list T)).

Definition children_of (dag : dag_map) (node : T) : list T := default [] (dag !! node).

(** The [while let]; [None] is out of fuel, [Some None] a cycle. *)
Fixpoint sort_loop (k : nat) (dag : dag_map) (stack : list (Action T)) (marks : gmap T Mark)
    (output : list T) : option (option (gmap T Mark * list T)) :=
  match stack with
  | [] => Some (Some (marks, output))
  | action :: stack =>
      match k with
      | 0 => None
      | S k =>
          match action with
          | Visit node =>
              match marks !! node with
              | Some Temporary => Some None
              | Some Marked => sort_loop k dag stack marks output
              | None =>
                  sort_loop k dag (reverse (Visit <$> children_of dag node) ++ MarkNode node :: stack)
                    (<[node := Temporary]> marks) output
              end
          | MarkNode node => sort_loop k dag stack (<[node := Marked]> marks) (output ++ [node])
          end
      end
  end.

Fixpoint sort_nodes (k : nat) (dag : dag_map) (nodes : list T) (marks : gmap T Mark) (output : list T)
    : option (option (list T)) :=
  match nodes with
  | [] => Some (Some output)
  | node :: nodes =>
      match sort_loop k dag [Visit node] marks output with
      | Some (Some (marks, output)) => sort_nodes k dag nodes marks output
      | Some None => Some None
      | None => None
      end
  end.

(** The nodes: the keys and what they point at. *)
Definition dag_nodes (dag : dag_map) : gset T :=
  list_to_set (mjoin ((fun '(n, ns) => n :: ns) <$> map_to_list dag)).

Definition sort_topological (k : nat) (dag : dag_map) : option (option (list T)) :=
  match sort_nodes k dag (hash_order (dag_nodes dag)) ∅ [] with
  | Some (Some output) => Some (Some (reverse output))
  | r => r
  end.

Context (dag : dag_map).

Definition edge (n c : T) : Prop := c ∈ children_of dag n.

Lemma dag_nodes_spec n : n ∈ dag_nodes dag <-> is_Some (dag !! n) \/ exists m, edge m n.
Proof.
  unfold dag_nodes, edge, children_of. rewrite elem_of_list_to_set, list_elem_of_join. split.
  - intros (l & Hn & ([m ns] & -> & Hm%elem_of_map_to_list)%list_elem_of_fmap).
    apply elem_of_cons in Hn as [->|Hn]; [left; by eexists|]. right. exists m. by rewrite Hm.
  - intros [[ns Hn]|(m & Hm)].
    + exists (n :: ns). split; [by left|]. apply list_elem_of_fmap. exists (n, ns). split; [done|].
      by apply elem_of_map_to_list.
    + destruct (dag !! m) as [ns|] eqn:E; simpl in Hm; [|by apply elem_of_nil in Hm].
      exists (m :: ns). split; [by right|]. apply list_elem_of_fmap. exists (m, ns). split; [done|].
      by apply elem_of_map_to_list.
Qed.

Lemma edge_node n c : edge n c -> n ∈ dag_nodes dag /\ c ∈ dag_nodes dag.
Proof.
  intros Hc. split; apply dag_nodes_spec; [left|right; by exists n].
  unfold edge, children_of in Hc. destruct (dag !! n); [by eexists|by apply elem_of_nil in Hc].
Qed.

(** ** The invariant of the search *)

Definition action_node (a : Action T) : T := match a with Visit n | MarkNode n => n end.

(** The nodes being visited. *)
Definition open_nodes (stack : list (Action T)) : list T :=
  omap (fun a => match a with MarkNode n => Some n | Visit _ => None end) stack.

(** Every node comes after all its children. *)
Fixpoint after_children (seen : list T) (l : list T) : Prop :=
  match l with
  | [] => True
  | n :: l => (forall c, edge n c -> c ∈ seen) /\ after_children (seen ++ [n]) l
  end.

(** What the stack says: above the mark of [n] are only descendants of [n],
    and all children of [n] that are not in the output. *)
Fixpoint stack_ok (output above : list T) (stack : list (Action T)) : Prop :=
  match stack with
  | [] => True
  | Visit n :: stack => stack_ok output (above ++ [n]) stack
  | MarkNode n :: stack =>
      (forall c, edge n c -> c ∈ output \/ c ∈ above) /\ (forall x, x ∈ above -> tc edge n x) /\
      stack_ok output (above ++ [n]) stack
  end.

Record search_ok (stack : list (Action T)) (marks : gmap T Mark) (output : list T) : Prop := {
  so_marked n : marks !! n = Some Marked <-> n ∈ output;
  so_open n : marks !! n = Some Temporary <-> n ∈ open_nodes stack;
  so_once : NoDup (output ++ open_nodes stack);
  so_nodes : Forall (fun a => action_node a ∈ dag_nodes dag) stack;
  so_after : after_children [] output;
  so_stack : stack_ok output [] stack
}.

Lemma stack_ok_visits output l : forall above stack,
  stack_ok output above ((Visit <$> l) ++ stack) <-> stack_ok output (above ++ l) stack.
Proof.
  induction l as [|n l IH]; intros above stack; simpl; [by rewrite app_nil_r|].
  rewrite IH. by rewrite <- app_assoc.
Qed.

Lemma stack_ok_change output output' stack : forall above above',
  stack_ok output above stack ->
  (forall x, x ∈ output \/ x ∈ above -> x ∈ output' \/ x ∈ above') ->
  (forall x, x ∈ above' -> x ∈ above \/ exists y, y ∈ above /\ tc edge y x) ->
  stack_ok output' above' stack.
Proof.
  induction stack as [|[n|n] stack IH]; intros above above' Hs Hup Hdown; simpl in *; [done| |].
  - apply (IH (above ++ [n])); [done| |]; intros x; rewrite !elem_of_app.
    + specialize (Hup x). tauto.
    + intros [Hx|Hx]; [|tauto]. destruct (Hdown x Hx) as [?|(y & Hy & Hyx)]; [tauto|].
      right. exists y. rewrite elem_of_app. tauto.
  - destruct Hs as (Hc & Hr & Hs). split; [|split].
    + intros c Hn. apply Hup, Hc, Hn.
    + intros x Hx. destruct (Hdown x Hx) as [?|(y & Hy & Hyx)]; [by apply Hr|].
      transitivity y; [by apply Hr|done].
    + apply (IH (above ++ [n])); [done| |]; intros x; rewrite !elem_of_app.
      * specialize (Hup x). tauto.
      * intros [Hx|Hx]; [|tauto]. destruct (Hdown x Hx) as [?|(y & Hy & Hyx)]; [tauto|].
        right. exists y. rewrite elem_of_app. tauto.
Qed.

Lemma stack_ok_open output stack m x : forall above,
  stack_ok output above stack -> m ∈ open_nodes stack -> x ∈ above -> tc edge m x.
Proof.
  induction stack as [|[n|n] stack IH]; intros above Hs Hm Hx; simpl in *; [by apply elem_of_nil in Hm| |].
  - apply (IH (above ++ [n])); [done|done|]. apply elem_of_app. by left.
  - destruct Hs as (_ & Hr & Hs). apply elem_of_cons in Hm as [->|Hm]; [by apply Hr|].
    apply (IH (above ++ [n])); [done|done|]. apply elem_of_app. by left.
Qed.

Lemma open_nodes_visits l stack : open_nodes ((Visit <$> l) ++ stack) = open_nodes stack.
Proof. induction l as [|n l IH]; [done|]. exact IH. Qed.

Lemma after_children_snoc n l : forall seen,
  after_children seen l -> (forall c, edge n c -> c ∈ seen ++ l) -> after_children seen (l ++ [n]).
Proof.
  induction l as [|m l IH]; intros seen Hl Hn; simpl in *; [by rewrite app_nil_r in Hn|].
  destruct Hl as [Hm Hl]. split; [done|]. apply IH; [done|]. intros c Hc. rewrite <- app_assoc. by apply Hn.
Qed.

(** *** The steps *)

Lemma search_visit_marked n stack marks output :
  marks !! n = Some Marked -> search_ok (Visit n :: stack) marks output -> search_ok stack marks output.
Proof.
  intros Hn [Hm Ho Hnd Hns Ha Hs]. split; [done|done|done|by inversion_clear Hns|done|].
  apply (stack_ok_change output _ _ [n]); [done| |by intros x ?%elem_of_nil].
  intros x [Hx|Hx%list_elem_of_singleton]; [by left|subst x]. left. by apply Hm.
Qed.

Lemma search_visit_fresh n stack marks output :
  marks !! n = None -> search_ok (Visit n :: stack) marks output ->
  search_ok ((reverse (Visit <$> children_of dag n)) ++ MarkNode n :: stack) (<[n := Temporary]> marks) output.
Proof.
  intros Hn [Hm Ho Hnd Hns Ha Hs].
  assert (n ∉ output) as Hout by (rewrite <- Hm; congruence).
  assert (n ∉ open_nodes stack) as Hopen by (rewrite <- (Ho n); congruence).
  rewrite <- fmap_reverse. split.
  - intros m. destruct (decide (m = n)) as [->|Hne]; [rewrite lookup_insert_eq; naive_solver|].
    by rewrite lookup_insert_ne.
  - intros m. rewrite open_nodes_visits. simpl. rewrite elem_of_cons.
    destruct (decide (m = n)) as [->|Hne]; [rewrite lookup_insert_eq; naive_solver|].
    rewrite lookup_insert_ne by done. rewrite (Ho m). simpl. naive_solver.
  - rewrite open_nodes_visits. simpl. rewrite <- Permutation_middle. constructor; [|done].
    rewrite elem_of_app. simpl in Hopen. tauto.
  - apply Forall_app. split; [|by inversion_clear Hns; constructor]. apply Forall_fmap, Forall_forall.
    intros c Hc. rewrite elem_of_reverse in Hc. simpl. by apply (edge_node n c).
  - done.
  - rewrite stack_ok_visits. simpl. split; [|split].
    + intros c Hc. right. by apply elem_of_reverse.
    + intros x Hx. apply tc_once. exact (proj1 (elem_of_reverse _ _) Hx).
    + apply (stack_ok_change output _ _ [n]); [done| |]; intros x.
      * rewrite elem_of_app. tauto.
      * rewrite elem_of_app, elem_of_reverse. intros [Hx|Hx]; [|by left]. right. exists n.
        split; [by left|apply tc_once, Hx].
Qed.

Lemma search_mark n stack marks output :
  search_ok (MarkNode n :: stack) marks output -> search_ok stack (<[n := Marked]> marks) (output ++ [n]).
Proof.
  intros [Hm Ho Hnd Hns Ha (Hc & _ & Hs)]. simpl in Hnd, Ho.
  rewrite <- Permutation_middle in Hnd. apply NoDup_cons in Hnd as [Hn Hnd].
  rewrite not_elem_of_app in Hn. split.
  - intros m. rewrite elem_of_app, list_elem_of_singleton.
    destruct (decide (m = n)) as [->|Hne]; [rewrite lookup_insert_eq; naive_solver|].
    rewrite lookup_insert_ne by done. rewrite Hm. tauto.
  - intros m. destruct (decide (m = n)) as [->|Hne]; [rewrite lookup_insert_eq; naive_solver|].
    rewrite lookup_insert_ne by done. rewrite Ho, elem_of_cons. naive_solver.
  - rewrite <- app_assoc. simpl. rewrite <- Permutation_middle. constructor; [|done].
    by rewrite not_elem_of_app.
  - by inversion_clear Hns.
  - apply after_children_snoc; [done|]. intros c Hcn. destruct (Hc c Hcn) as [?|Hx]; [done|].
    by apply elem_of_nil in Hx.
  - apply (stack_ok_change output _ _ [n]); [done| |by intros x ?%elem_of_nil].
    intros x. rewrite elem_of_app, list_elem_of_singleton. tauto.
Qed.

(** ** Termination and what the search gives *)

(** Each step of the loop makes this smaller: the work on the stack, and what
    the nodes that have no mark yet will add to it. *)
Definition node_work (marks : gmap T Mark) (n : T) : nat :=
  if decide (marks !! n = None) then S (length (children_of dag n)) else 0.

Definition search_work (stack : list (Action T)) (marks : gmap T Mark) : nat :=
  length stack + sum_list_with (node_work marks) (elements (dag_nodes dag)).

Lemma node_work_insert marks n mark m : node_work (<[n := mark]> marks) m <= node_work marks m.
Proof.
  unfold node_work. destruct (decide (m = n)) as [->|Hne].
  - rewrite lookup_insert_eq. destruct (decide (Some mark = None)); [done|lia].
  - by rewrite lookup_insert_ne.
Qed.

Lemma sum_list_with_drop {A} (f g : A -> nat) n l :
  (forall m, f m <= g m) -> n ∈ l -> f n = 0 -> sum_list_with f l + g n <= sum_list_with g l.
Proof.
  intros Hle Hn Hf. induction l as [|m l IH]; simpl; [by apply elem_of_nil in Hn|].
  assert (sum_list_with f l <= sum_list_with g l) as Hl by (apply sum_list_with_mono; auto).
  apply elem_of_cons in Hn as [<-|Hn]; [lia|]. specialize (IH Hn). specialize (Hle m). lia.
Qed.

Lemma search_work_mark n mark stack stack' marks :
  length stack' < length stack -> search_work stack' (<[n := mark]> marks) < search_work stack marks.
Proof.
  intros Hl. unfold search_work.
  pose proof (sum_list_with_mono (node_work (<[n := mark]> marks)) (node_work marks)
                (elements (dag_nodes dag)) (fun m _ => node_work_insert marks n mark m)). lia.
Qed.

Lemma search_work_visit n stack marks :
  marks !! n = None -> n ∈ dag_nodes dag ->
  search_work (reverse (Visit <$> children_of dag n) ++ MarkNode n :: stack) (<[n := Temporary]> marks)
  < search_work (Visit n :: stack) marks.
Proof.
  intros Hn Hin. unfold search_work. rewrite length_app, length_reverse, length_fmap. simpl.
  pose proof (sum_list_with_drop (node_work (<[n := Temporary]> marks)) (node_work marks) n
                (elements (dag_nodes dag)) (node_work_insert marks n Temporary)
                ltac:(by apply elem_of_elements)) as Hd.
  unfold node_work in Hd at 1 3. rewrite lookup_insert_eq in Hd.
  rewrite decide_False in Hd by done. rewrite decide_True in Hd by done. specialize (Hd eq_refl). lia.
Qed.

Definition cyclic : Prop := exists n, tc edge n n.

(** From any state of the search, with enough fuel. *)
Lemma sort_loop_spec k : forall stack marks output,
  search_ok stack marks output -> search_work stack marks <= k ->
  match sort_loop k dag stack marks output with
  | None => False
  | Some None => cyclic
  | Some (Some (marks', output')) =>
      search_ok [] marks' output' /\ (forall n, n ∈ output -> n ∈ output') /\
      (forall a, a ∈ stack -> action_node a ∈ output') /\
      (forall n, n ∈ output' -> n ∈ output \/ n ∈ dag_nodes dag)
  end.
Proof.
  induction k as [|k IH]; intros [|[n|n] stack] marks output Hok Hw; simpl;
    try (unfold search_work in Hw; simpl in Hw; lia); try (split; [done|split; [done|split; [|by left]]]; by intros a ?%elem_of_nil).
  - pose proof (so_nodes _ _ _ Hok) as [Hn _]%Forall_cons. simpl in Hn.
    destruct (marks !! n) as [[]|] eqn:E.
    + exists n. destruct Hok as [_ Ho _ _ _ Hs]. apply (stack_ok_open output stack n n [n]); [done|by apply Ho|by left].
    + pose proof (proj1 (so_marked _ _ _ Hok n) E) as Hout.
      apply search_visit_marked in Hok; [|done].
      specialize (IH _ _ _ Hok). unfold search_work in IH, Hw. simpl in Hw.
      destruct (sort_loop k dag stack marks output) as [[[marks' output']|]|]; [|apply IH; lia|apply IH; lia].
      destruct (IH ltac:(lia)) as (H1 & H2 & H3 & H4). split; [done|]. split; [done|]. split; [|done].
      intros a [->|Ha]%elem_of_cons; [by apply H2|by apply H3].
    + apply (search_visit_fresh _ _ _ _ E) in Hok.
      pose proof (search_work_visit n stack marks E Hn) as Hd. specialize (IH _ _ _ Hok ltac:(lia)).
      destruct (sort_loop k dag _ _ _) as [[[marks' output']|]|]; [|done|done].
      destruct IH as (H1 & H2 & H3 & H4). split; [done|]. split; [done|]. split; [|done].
      intros a [->|Ha]%elem_of_cons.
      * apply (H3 (MarkNode n)). apply elem_of_app. right. by left.
      * apply H3. apply elem_of_app. right. by right.
  - pose proof (so_nodes _ _ _ Hok) as [Hn _]%Forall_cons. simpl in Hn.
    apply search_mark in Hok.
    pose proof (search_work_mark n Marked (MarkNode n :: stack) stack marks ltac:(simpl; lia)) as Hd.
    specialize (IH _ _ _ Hok ltac:(lia)).
    destruct (sort_loop k dag stack _ _) as [[[marks' output']|]|]; [|done|done].
    destruct IH as (H1 & H2 & H3 & H4). split; [done|]. split; [|split].
    + intros m Hm. apply H2, elem_of_app. by left.
    + intros a [->|Ha]%elem_of_cons; [apply H2, elem_of_app; right; by left|by apply H3].
    + intros m [Hm|Hm]%H4; [|by right]. apply elem_of_app in Hm as [?| ->%list_elem_of_singleton]; [by left|by right].
Qed.

Lemma search_start n marks output :
  n ∈ dag_nodes dag -> search_ok [] marks output -> search_ok [Visit n] marks output.
Proof. intros Hn [Hm Ho Hnd _ Ha _]. split; [done|done|done|by repeat constructor|done|done]. Qed.

Lemma search_empty : search_ok [] ∅ [].
Proof.
  split; simpl; [| |constructor|constructor|done|done]; intros n; rewrite lookup_empty; split; try done;
    by intros ?%elem_of_nil.
Qed.

Lemma sort_nodes_spec k nodes : forall marks output,
  search_ok [] marks output -> Forall (fun n => n ∈ dag_nodes dag) nodes ->
  (forall n, n ∈ output -> n ∈ dag_nodes dag) ->
  1 + sum_list_with (fun n => S (length (children_of dag n))) (elements (dag_nodes dag)) <= k ->
  match sort_nodes k dag nodes marks output with
  | None => False
  | Some None => cyclic
  | Some (Some output') =>
      NoDup output' /\ after_children [] output' /\
      (forall n, n ∈ output' -> n ∈ dag_nodes dag) /\ (forall n, n ∈ output \/ n ∈ nodes -> n ∈ output')
  end.
Proof.
  intros marks output Hok Hns Hout Hk. revert marks output Hok Hout.
  induction Hns as [|n nodes Hn _ IH]; intros marks output Hok Hout; simpl.
  - destruct Hok as [_ _ Hnd _ Ha _]. rewrite app_nil_r in Hnd. split; [done|]. split; [done|]. split; [done|].
    intros n [?|?%elem_of_nil]; done.
  - pose proof (sort_loop_spec k [Visit n] marks output (search_start n marks output Hn Hok)) as Hl.
    unfold search_work in Hl. simpl in Hl.
    assert (sum_list_with (node_work marks) (elements (dag_nodes dag)) <=
      sum_list_with (fun n => S (length (children_of dag n))) (elements (dag_nodes dag))) as Hle.
    { apply sum_list_with_mono. intros m _. unfold node_work. case_decide; lia. }
    specialize (Hl ltac:(lia)). destruct (sort_loop k dag [Visit n] marks output) as [[[marks' output']|]|]; [|done|done].
    destruct Hl as (H1 & H2 & H3 & H4).
    assert (forall m, m ∈ output' -> m ∈ dag_nodes dag) as H5 by (intros m [?|?]%H4; auto).
    specialize (IH marks' output' H1 H5).
    destruct (sort_nodes k dag nodes marks' output') as [[output''|]|]; [|done|done].
    destruct IH as (J1 & J2 & J3 & J4). split; [done|]. split; [done|]. split; [done|].
    intros m [Hm|[->|Hm]%elem_of_cons]; apply J4; [left; by apply H2| |by right].
    left. apply (H3 (Visit n)). by left.
Qed.

Lemma after_children_split l : forall seen l1 n l2 c,
  after_children seen l -> l = l1 ++ n :: l2 -> edge n c -> c ∈ seen ++ l1.
Proof.
  induction l as [|m l IH]; intros seen l1 n l2 c Hl E Hc; [by destruct l1|].
  destruct Hl as [Hm Hl], l1 as [|m' l1]; injection E as -> ->; [rewrite app_nil_r; by apply Hm|].
  specialize (IH (seen ++ [m']) l1 n l2 c Hl eq_refl Hc). by rewrite <- app_assoc in IH.
Qed.

(** Each node of [l] stands before its children. *)
Definition parents_first (l : list T) : Prop :=
  forall l1 n l2 c, l = l1 ++ n :: l2 -> edge n c -> c ∈ l2.

Lemma parents_first_tc l l1 n l2 c : parents_first l -> l = l1 ++ n :: l2 -> tc edge n c -> c ∈ l2.
Proof.
  intros Hl E Hc. revert l1 l2 E. induction Hc as [n c Hc|n m c Hm _ IH]; intros l1 l2 E; [by eapply Hl|].
  pose proof (Hl _ _ _ _ E Hm) as (l3 & l4 & ->)%list_elem_of_split.
  apply elem_of_app. right. right. apply (IH (l1 ++ n :: l3)). rewrite E. by rewrite <- app_assoc.
Qed.

Lemma sort_loop_more k : forall k' stack marks output r,
  k <= k' -> sort_loop k dag stack marks output = Some r -> sort_loop k' dag stack marks output = Some r.
Proof.
  induction k as [|k IH]; intros [|k'] [|[n|n] stack] marks output r Hk; simpl; try done; try lia.
  - destruct (marks !! n) as [[]|]; [done|apply IH; lia|apply IH; lia].
  - apply IH. lia.
Qed.

Lemma sort_nodes_more k k' nodes : forall marks output r,
  k <= k' -> sort_nodes k dag nodes marks output = Some r -> sort_nodes k' dag nodes marks output = Some r.
Proof.
  induction nodes as [|n nodes IH]; intros marks output r Hk; simpl; [done|].
  destruct (sort_loop k dag [Visit n] marks output) as [[[marks' output']|]|] eqn:E; [|by rewrite (sort_loop_more _ _ _ _ _ _ Hk E)|done].
  rewrite (sort_loop_more _ _ _ _ _ _ Hk E). by apply IH.
Qed.

Lemma sort_topological_runs {HL : HashOrderLaws HO} :
  exists n0 r, (forall k, n0 <= k -> sort_topological k dag = Some r) /\
    match r with
    | None => cyclic
    | Some l => ~ cyclic /\ NoDup l /\ (forall n, n ∈ l <-> n ∈ dag_nodes dag) /\ parents_first l
    end.
Proof.
  set (n0 := 1 + sum_list_with (fun n => S (length (children_of dag n))) (elements (dag_nodes dag))).
  pose proof (sort_nodes_spec n0 (hash_order (dag_nodes dag)) ∅ [] search_empty) as Hs.
  assert (forall n, n ∈ hash_order (dag_nodes dag) <-> n ∈ dag_nodes dag) as Hin.
  { intros n. by rewrite hash_order_perm, elem_of_elements. }
  assert (Forall (fun n => n ∈ dag_nodes dag) (hash_order (dag_nodes dag))) as Hall.
  { apply Forall_forall. intros n. apply Hin. }
  specialize (Hs Hall ltac:(by intros n ?%elem_of_nil) (le_n _)). unfold sort_topological.
  destruct (sort_nodes n0 dag (hash_order (dag_nodes dag)) ∅ []) as [r|] eqn:E; [|done].
  assert (forall k, n0 <= k -> sort_nodes k dag (hash_order (dag_nodes dag)) ∅ [] = Some r) as Hk.
  { intros k Hk. by apply (sort_nodes_more n0). }
  exists n0, (reverse <$> r). destruct r as [l|]; (split; [intros k H0; by rewrite (Hk k H0)|]); [|exact Hs].
  destruct Hs as (Hnd & Ha & H1 & H2). simpl.
  assert (parents_first (reverse l)) as Hp.
  { intros l1 n l2 c El Hc. pose proof (f_equal reverse El) as E'.
    rewrite reverse_involutive, reverse_app, reverse_cons, <- app_assoc in E'.
    apply elem_of_reverse, (after_children_split l [] _ n (reverse l1) c Ha); [|done].
    rewrite E'. reflexivity. }
  assert (NoDup (reverse l)) as Hndr by (by rewrite reverse_Permutation).
  assert (forall n, n ∈ reverse l <-> n ∈ dag_nodes dag) as Hl.
  { intros n. rewrite elem_of_reverse. split; [apply H1|]. intros Hn. apply H2. right. by apply Hin. }
  split; [|split; [done|done]].
  intros (n & Hn). assert (n ∈ dag_nodes dag) as Hnd'.
  { assert (exists m, edge n m) as (m & [Hm _]%edge_node) by (inversion Hn; eauto). done. }
  apply Hl in Hnd' as (l1 & l2 & El)%list_elem_of_split.
  pose proof (parents_first_tc _ _ _ _ _ Hp El Hn) as Hn2.
  rewrite El in Hndr. apply NoDup_app in Hndr as (_ & _ & [Hno _]%NoDup_cons). done.
Qed.
(** C28. The sort terminates, whatever order the nodes of the hash map come in.
    It gives up exactly when the graph has a cycle; otherwise it gives every
    node of the graph, keys and children, exactly once, and each of them
    before all its children. *)
Theorem sort_topological_exact {HL : HashOrderLaws HO} :
  exists n0 r, (forall k, n0 <= k -> sort_topological k dag = Some r) /\
    (r = None <-> cyclic) /\
    forall l, r = Some l -> NoDup l /\ (forall n, n ∈ l <-> n ∈ dag_nodes dag) /\ parents_first l.
Proof.
  destruct sort_topological_runs as (n0 & r & Hk & Hr). exists n0, r. split; [done|].
  destruct r as [l|]; [|by split; [split|]]. destruct Hr as (Hno & Hr). split; [by split|].
  intros l' [= <-]. exact Hr.
Qed.
End sort.

(** ** Examples *)

Definition ex_dag : gmap nat (list nat) := list_to_map [(1, [2; 3]); (2, [3]); (3, [4; 4])].

Example sort_topological_ex : sort_topological 20 ex_dag = Some (Some [1; 2; 3; 4]).
Proof. vm_compute. reflexivity. Qed.

Example sort_topological_cycle : sort_topological 20 (<[4 := [1]]> ex_dag) = Some None.
Proof. vm_compute. reflexivity. Qed.

Lemma sort_topological_exact_witness :
  exists n0 r, (forall k, n0 <= k -> sort_topological k ex_dag = Some r) /\
    (r = None <-> cyclic ex_dag) /\
    forall l, r = Some l -> NoDup l /\ (forall n, n ∈ l <-> n ∈ dag_nodes ex_dag) /\ parents_first ex_dag l.
Proof. exact (sort_topological_exact ex_dag). Defined.
