(* ===== verification/SyncQueue.v ===== *)
(** * The queue of blobs to synchronize

    Model of [src/blobstore_sync_queue/src/lib.rs] (schema in [schemas/]): the
    table of what was put in which blob store, until every store has it. Times
    are instants, as integers. *)

From S2P Require Import Prelude Graph.

Definition BlobstoreId : Type := N.

Record BlobstoreSyncQueueEntry := mkEntry {
  repo_id : N;
  blobstore_key : bytes;
  blobstore_id : BlobstoreId;
  timestamp : Z;
  id : option N
}.

#[export] Instance entry_eq_dec : EqDecision BlobstoreSyncQueueEntry.
Proof. solve_decision. Defined.

Definition BlobstoreSyncQueueEntry_new (repo_id : N) (key : bytes) (blobstore_id : BlobstoreId) (timestamp : Z)
    : BlobstoreSyncQueueEntry := mkEntry repo_id key blobstore_id timestamp None.

(** The rows of the table, each with its id; ids are not used again. *)
Record SqlBlobstoreSyncQueue := mkQueue { next_id : N; rows : list BlobstoreSyncQueueEntry }.

Inductive queue_error := MissingId | QueueFailed.

(** [InsertEntry]: nothing but the id is unique, so no row is ignored. *)
Definition queue_add (entry : BlobstoreSyncQueueEntry) (q : SqlBlobstoreSyncQueue) : SqlBlobstoreSyncQueue * bool :=
  (mkQueue (next_id q + 1)
     (rows q ++ [mkEntry (repo_id entry) (blobstore_key entry) (blobstore_id entry) (timestamp entry) (Some (next_id q))]),
   true).

Definition of_repo (repo : N) (e : BlobstoreSyncQueueEntry) : bool := (repo_id e =? repo)%N.

(** [SELECT DISTINCT blobstore_key ... LIMIT]: of the old keys any [limit]. *)
Definition old_keys `{FuturesUnordered} (repo : N) (older_than : Z) (limit : nat) (q : SqlBlobstoreSyncQueue) : list bytes :=
  take limit (futures_unordered (remove_dups (blobstore_key <$>
    List.filter (fun e => of_repo repo e && (timestamp e <=? older_than)%Z) (rows q)))).

(** [GetRangeOfEntries]: all entries of some old keys. Rows come in no
    particular order. *)
Definition queue_iter `{FuturesUnordered} (repo : N) (older_than : Z) (limit : nat) (q : SqlBlobstoreSyncQueue)
    : list BlobstoreSyncQueueEntry :=
  futures_unordered (List.filter (fun e => of_repo repo e && bool_decide (blobstore_key e ∈ old_keys repo older_than limit q)) (rows q)).

Definition queue_del (entries : list BlobstoreSyncQueueEntry) (q : SqlBlobstoreSyncQueue)
    : SqlBlobstoreSyncQueue * outcome queue_error unit :=
  match collect (fun e => ok_or (id e) MissingId) entries with
  | Ok ids => (mkQueue (next_id q) (List.filter (fun e => negb (bool_decide (Exists (fun i => id e = Some i) ids))) (rows q)), Ok tt)
  | Err e => (q, Err e)
  | Panic => (q, Panic)
  end.

(** [GetByKey]. *)
Definition queue_get (repo : N) (key : bytes) (q : SqlBlobstoreSyncQueue) : list BlobstoreSyncQueueEntry :=
  List.filter (fun e => of_repo repo e && bool_decide (blobstore_key e = key)) (rows q).

(** Every row has an id, below the next one, and no two have the same. *)
Record queue_wf (q : SqlBlobstoreSyncQueue) : Prop := {
  row_id e : e ∈ rows q -> exists i, id e = Some i /\ (i < next_id q)%N;
  row_inj e e' : e ∈ rows q -> e' ∈ rows q -> id e = id e' -> e = e'
}.

Lemma queue_add_elem entry q e : e ∈ rows (queue_add entry q).1 <->
  e ∈ rows q \/ e = mkEntry (repo_id entry) (blobstore_key entry) (blobstore_id entry) (timestamp entry) (Some (next_id q)).
Proof. cbn. by rewrite elem_of_app, list_elem_of_singleton. Qed.

Lemma queue_add_wf entry q : queue_wf q -> queue_wf (queue_add entry q).1.
Proof.
  intros [H1 H2]. split.
  - intros e [He| ->]%queue_add_elem; cbn [next_id queue_add fst].
    + destruct (H1 e He) as (i & Hi & Hlt). exists i. split; [done|lia].
    + exists (next_id q). split; [done|lia].
  - intros e e' [He| ->]%queue_add_elem [He'| ->]%queue_add_elem Hid; [by apply H2| | |done].
    + destruct (H1 e He) as (i & Hi & Hlt). rewrite Hi in Hid. injection Hid as ->. lia.
    + destruct (H1 e' He') as (i & Hi & Hlt). rewrite Hi in Hid. injection Hid as <-. lia.
Qed.

Lemma queue_get_elem repo key q e : e ∈ queue_get repo key q <-> e ∈ rows q /\ repo_id e = repo /\ blobstore_key e = key.
Proof.
  unfold queue_get, of_repo. rewrite list_elem_of_In, filter_In, <- list_elem_of_In, andb_true_iff, N.eqb_eq, bool_decide_eq_true.
  done.
Qed.

Section iter.
Context `{FL : FuturesUnorderedLaws}.

(** A key is given with all its entries. *)
Lemma queue_iter_elem repo older_than limit q e : e ∈ queue_iter repo older_than limit q ->
  e ∈ rows q /\ repo_id e = repo.
Proof using FL.
  unfold queue_iter. rewrite futures_unordered_perm, list_elem_of_In, filter_In, <- list_elem_of_In.
  intros [He [Hr%N.eqb_eq _]%andb_true_iff]. done.
Qed.
End iter.

(** What is left when entries are deleted. *)
Lemma queue_del_elem entries q : queue_wf q -> (forall e, e ∈ entries -> e ∈ rows q \/ is_Some (id e)) ->
  exists q', queue_del entries q = (q', Ok tt) /\ queue_wf q' /\
    forall e, e ∈ rows q' <-> e ∈ rows q /\ forall e', e' ∈ entries -> id e' <> id e.
Proof.
  intros Hq Hin. unfold queue_del.
  rewrite (collect_Ok_map _ (fun e => default 0%N (id e))).
  2:{ apply Forall_forall. intros e He. destruct (Hin e He) as [Hr|[i Hi]]; [|by rewrite Hi].
      destruct (row_id _ Hq e Hr) as (i & Hi & _). by rewrite Hi. }
  eexists. split; [done|]. set (ids := _ <$> entries).
  assert (forall e, e ∈ List.filter (fun e => negb (bool_decide (Exists (fun i => id e = Some i) ids))) (rows q) <->
    e ∈ rows q /\ forall e', e' ∈ entries -> id e' <> id e) as Hel.
  { intros e. rewrite list_elem_of_In, filter_In, <- list_elem_of_In, negb_true_iff, bool_decide_eq_false, Exists_exists.
    split; intros [He Hno]; (split; [done|]).
    - intros e' He' Heq. apply Hno. destruct (row_id _ Hq e He) as (i & Hi & _). exists i. split; [|done].
      unfold ids. apply list_elem_of_fmap. exists e'. split; [|done]. by rewrite Heq, Hi.
    - intros (i & (e' & -> & He')%list_elem_of_fmap & Hi). apply (Hno e' He'). rewrite Hi.
      destruct (Hin e' He') as [Hr|[j Hj]]; [|by rewrite Hj]. destruct (row_id _ Hq e' Hr) as (j & Hj & _). by rewrite Hj. }
  split; [|exact Hel]. destruct Hq as [H1 H2]. split; cbn.
  - intros e [He _]%Hel. by apply H1.
  - intros e e' [He _]%Hel [He' _]%Hel. by apply H2.
Qed.
