(* ===== verification/Multiplexed.v ===== *)
(** * Several blob stores as one, and their healing

    Model of [src/blobstore/multiplexedblob/src/base.rs] and [queue.rs], and
    of [src/cmds/blobstore_healer/healer.rs]: blobs are put to several
    stores, a queue records where they are, and a healer copies them to the
    stores that miss them. The operations are tasks that run interleaved, one
    request at a time. *)

From stdpp Require Import fin_maps.
From S2P Require Import Prelude Blobstore SyncQueue.

(** ** Replies to a read *)

Inductive multiplex_error :=
| SomeFailedOthersNone (errors : gmap BlobstoreId blob_error)
| AllFailed (errors : gmap BlobstoreId blob_error)
| QueueError (e : queue_error).

(** The state of [loop_fn]: the requests that are pending and the errors so
    far, or what it breaks with. *)
Inductive loop_state (A : Type) :=
| Continue (requests : list BlobstoreId) (errors : gmap BlobstoreId blob_error)
| Break (result : outcome multiplex_error (option A)).
Arguments Continue {A} requests errors. Arguments Break {A} result.

Definition loop_next {A} (blobstores_count : nat) (requests : list BlobstoreId) (errors : gmap BlobstoreId blob_error)
    : loop_state A :=
  if decide (requests = []) then
    if decide (errors = ∅) then Break (Ok None)
    else if decide (base.size errors = blobstores_count) then Break (Err (AllFailed errors))
    else Break (Err (SomeFailedOthersNone errors))
  else Continue requests errors.

(** One turn: the first of the requests that is done gave [reply]. *)
Definition get_turn (blobstores_count : nat) (blobstore_id : BlobstoreId) (reply : outcome blob_error (option bytes))
    (requests : list BlobstoreId) (errors : gmap BlobstoreId blob_error) : loop_state bytes :=
  match reply with
  | Ok (Some value) => Break (Ok (Some value))
  | Ok None => loop_next blobstores_count requests errors
  | Err error => loop_next blobstores_count requests (<[blobstore_id := error]> errors)
  | Panic => Break Panic
  end.

Definition is_present_turn (blobstores_count : nat) (blobstore_id : BlobstoreId) (reply : outcome blob_error bool)
    (requests : list BlobstoreId) (errors : gmap BlobstoreId blob_error) : loop_state unit :=
  match reply with
  | Ok true => Break (Ok (Some tt))
  | Ok false => loop_next blobstores_count requests errors
  | Err error => loop_next blobstores_count requests (<[blobstore_id := error]> errors)
  | Panic => Break Panic
  end.

(** [MultiplexedBlobstore]: the answer. The queue is read only when some of
    the stores failed and the others have nothing. *)
Definition with_queue {A} (none : A) (result : outcome multiplex_error A)
    (entries : outcome queue_error (list BlobstoreSyncQueueEntry)) : outcome multiplex_error A :=
  match result with
  | Err (AllFailed e) => Err (AllFailed e)
  | Err error =>
      match entries with
      | Ok [] => Ok none
      | Ok _ => Err error
      | Err e => Err (QueueError e)
      | Panic => Panic
      end
  | result => result
  end.

(** The requests but one. *)
Definition without (b : BlobstoreId) (l : list BlobstoreId) : list BlobstoreId := List.filter (fun b' => negb (b' =? b)%N) l.

(** ** The healer *)

(** What [heal_blob] has still to do for one blob. *)
Inductive heal_state :=
| Fetching (key : bytes) (entries : list BlobstoreSyncQueueEntry) (blobstores_to_fetch missing_blobstores : list BlobstoreId)
| Putting (key : bytes) (entries : list BlobstoreSyncQueueEntry) (blob : bytes) (heal_blobstores : list BlobstoreId)
    (heal_results : list (BlobstoreId * bool))
| Reporting (key : bytes) (healed_blobstores : list BlobstoreId)
| Healed (cleaned_entries : list BlobstoreSyncQueueEntry)
| HealFailed.

(** [group_by]: entries with the same key that follow each other. *)
Fixpoint group_by_key (entries : list BlobstoreSyncQueueEntry) : list (bytes * list BlobstoreSyncQueueEntry) :=
  match entries with
  | [] => []
  | e :: entries =>
      match group_by_key entries with
      | (key, group) :: groups =>
          if decide (blobstore_key e = key) then (key, e :: group) :: groups
          else (blobstore_key e, [e]) :: (key, group) :: groups
      | [] => [(blobstore_key e, [e])]
      end
  end.

Section heal.
Context (ids : list BlobstoreId).

Definition seen_blobstores (entries : list BlobstoreSyncQueueEntry) : list BlobstoreId :=
  remove_dups (List.filter (fun b => bool_decide (b ∈ ids)) (blobstore_id <$> entries)).

Definition missing_blobstores (entries : list BlobstoreSyncQueueEntry) : list BlobstoreId :=
  List.filter (fun b => negb (bool_decide (b ∈ seen_blobstores entries))) ids.

(** [None]: the blob is left for later. *)
Definition heal_blob (healing_deadline : Z) (group : bytes * list BlobstoreSyncQueueEntry) : option heal_state :=
  let '(key, entries) := group in
  if decide (missing_blobstores entries = []) then Some (Healed entries)
  else if negb (existsb (fun e => (timestamp e <? healing_deadline)%Z) entries) then None
  else Some (Fetching key entries (seen_blobstores entries) (missing_blobstores entries)).

Definition heal `{FuturesUnordered} (repo : N) (healing_deadline : Z) (blobstore_sync_queue_limit : nat) (q : SqlBlobstoreSyncQueue)
    : list heal_state :=
  omap (heal_blob healing_deadline) (group_by_key (queue_iter repo healing_deadline blobstore_sync_queue_limit q)).
End heal.

(** [fetch_blob]: the last of the stores to fetch from is asked. *)
Definition fetch_from (st : heal_state) : option BlobstoreId :=
  match st with Fetching _ _ to_fetch _ => last to_fetch | _ => None end.

Definition fetch_turn (reply : outcome blob_error (option bytes)) (st : heal_state) : heal_state :=
  match st with
  | Fetching key entries to_fetch missing =>
      match reply with
      | Err _ => Fetching key entries (removelast to_fetch) missing
      | Ok None => HealFailed
      | Ok (Some blob) => Putting key entries blob missing []
      | Panic => HealFailed
      end
  | st => st
  end.

(** Without a store to fetch from, or with all results there. *)
Definition heal_turn (st : heal_state) : heal_state :=
  match st with
  | Fetching _ _ [] _ => HealFailed
  | Putting key entries _ [] heal_results =>
      if forallb snd heal_results then Healed entries
      else Reporting key (List.filter snd heal_results).*1
  | Reporting _ [] => Healed []
  | st => st
  end.

Definition put_turn (bid : BlobstoreId) (is_ok : bool) (st : heal_state) : heal_state :=
  match st with
  | Putting key entries blob todo results => Putting key entries blob (without bid todo) ((bid, is_ok) :: results)
  | st => st
  end.

Definition cleaned (st : heal_state) : option (list BlobstoreSyncQueueEntry) :=
  match st with Healed entries => Some entries | _ => None end.

(** ** Tasks *)

Inductive task :=
| TPut (key value : bytes) (pending stored : list BlobstoreId)
| TGet (key : bytes) (promised : bool) (st : loop_state bytes)
| TGot (key : bytes) (promised : bool) (answer : outcome multiplex_error (option bytes))
| TPresent (key : bytes) (promised : bool) (st : loop_state unit)
| TPresence (key : bytes) (promised : bool) (answer : outcome multiplex_error (option unit))
| THeal (healing : list heal_state).

Section world.
Context {S : Type} {B : Blobstore S} {V : view S} {FU : FuturesUnordered} (ids : list BlobstoreId) (repo : N).

(** [w_done] are the keys of which a [put] has returned. A read is
    [promised] a value if its key was among them when it began, and no entry
    of the key has been cleaned up since. *)
Record world := mkWorld {
  w_stores : gmap BlobstoreId S;
  w_queue : SqlBlobstoreSyncQueue;
  w_done : gset bytes;
  w_tasks : list task
}.

Definition set_task (w : world) (i : nat) (t : task) : world :=
  mkWorld (w_stores w) (w_queue w) (w_done w) (<[i := t]> (w_tasks w)).
Definition set_store (w : world) (b : BlobstoreId) (s : S) : world :=
  mkWorld (<[b := s]> (w_stores w)) (w_queue w) (w_done w) (w_tasks w).
Definition set_queue (w : world) (q : SqlBlobstoreSyncQueue) : world :=
  mkWorld (w_stores w) q (w_done w) (w_tasks w).
Definition set_done (w : world) (key : bytes) : world :=
  mkWorld (w_stores w) (w_queue w) ({[key]} ∪ w_done w) (w_tasks w).
Definition add_task (w : world) (t : task) : world :=
  mkWorld (w_stores w) (w_queue w) (w_done w) (w_tasks w ++ [t]).

(** A clean-up takes promises back. *)
Definition unpromise (keys : list bytes) (t : task) : task :=
  match t with
  | TGet key promised st => TGet key (promised && negb (bool_decide (key ∈ keys))) st
  | TPresent key promised st => TPresent key (promised && negb (bool_decide (key ∈ keys))) st
  | t => t
  end.

(** A request may time out, whether or not the store has done its part. *)
Definition maybe_timeout {A} (timeout : bool) (r : outcome blob_error A) : outcome blob_error A :=
  if timeout then Err (Failed 0) else r.

Inductive step (w : world) : world -> Prop :=
| step_store b s s' : w_stores w !! b = Some s -> later V s s' -> step w (set_store w b s')
| step_start_put k v : step w (add_task w (TPut k v ids []))
| step_put i k v pending stored b s s' r timeout : w_tasks w !! i = Some (TPut k v pending stored) ->
    b ∈ pending -> w_stores w !! b = Some s -> put k v s = (s', r) ->
    step w (set_task (set_store w b s') i
      (TPut k v (without b pending) (match maybe_timeout timeout r with Ok _ => b :: stored | _ => stored end)))
| step_on_put i k v pending stored b now : w_tasks w !! i = Some (TPut k v pending stored) -> b ∈ stored ->
    step w (set_done (set_task (set_queue w (queue_add (BlobstoreSyncQueueEntry_new repo k b now) (w_queue w)).1) i
      (TPut k v pending (without b stored))) k)
| step_on_put_failed i k v pending stored b : w_tasks w !! i = Some (TPut k v pending stored) -> b ∈ stored ->
    step w (set_task w i (TPut k v pending (without b stored)))
| step_start_get k : step w (add_task w (TGet k (bool_decide (k ∈ w_done w)) (Continue ids ∅)))
| step_get i k p requests errors b s s' r timeout : w_tasks w !! i = Some (TGet k p (Continue requests errors)) ->
    b ∈ requests -> w_stores w !! b = Some s -> get k s = (s', r) ->
    step w (set_task (set_store w b s') i
      (TGet k p (get_turn (length ids) b (maybe_timeout timeout r) (without b requests) errors)))
| step_got i k p result entries : w_tasks w !! i = Some (TGet k p (Break result)) ->
    entries = Ok (queue_get repo k (w_queue w)) \/ entries = Err QueueFailed ->
    step w (set_task w i (TGot k p (with_queue None result entries)))
| step_start_present k : step w (add_task w (TPresent k (bool_decide (k ∈ w_done w)) (Continue ids ∅)))
| step_present i k p requests errors b s s' r : w_tasks w !! i = Some (TPresent k p (Continue requests errors)) ->
    b ∈ requests -> w_stores w !! b = Some s -> is_present k s = (s', r) ->
    step w (set_task (set_store w b s') i
      (TPresent k p (is_present_turn (length ids) b r (without b requests) errors)))
| step_presence i k p result entries : w_tasks w !! i = Some (TPresent k p (Break result)) ->
    entries = Ok (queue_get repo k (w_queue w)) \/ entries = Err QueueFailed ->
    step w (set_task w i (TPresence k p (with_queue None result entries)))
| step_start_heal deadline limit : step w (add_task w (THeal (heal ids repo deadline limit (w_queue w))))
| step_heal_turn i healing j st : w_tasks w !! i = Some (THeal healing) -> healing !! j = Some st ->
    step w (set_task w i (THeal (<[j := heal_turn st]> healing)))
| step_heal_fetch i healing j key entries to_fetch missing b s s' r : w_tasks w !! i = Some (THeal healing) ->
    healing !! j = Some (Fetching key entries to_fetch missing) -> last to_fetch = Some b ->
    w_stores w !! b = Some s -> get key s = (s', r) ->
    step w (set_task (set_store w b s') i (THeal (<[j := fetch_turn r (Fetching key entries to_fetch missing)]> healing)))
| step_heal_put i healing j key entries blob todo results b s s' r : w_tasks w !! i = Some (THeal healing) ->
    healing !! j = Some (Putting key entries blob todo results) -> b ∈ todo ->
    w_stores w !! b = Some s -> put key blob s = (s', r) ->
    step w (set_task (set_store w b s') i (THeal (<[j := put_turn b (is_ok r) (Putting key entries blob todo results)]> healing)))
| step_heal_report i healing j key b todo now : w_tasks w !! i = Some (THeal healing) ->
    healing !! j = Some (Reporting key (b :: todo)) ->
    step w (set_task (set_queue w (queue_add (BlobstoreSyncQueueEntry_new repo key b now) (w_queue w)).1) i
      (THeal (<[j := Reporting key todo]> healing)))
| step_heal_report_failed i healing j key b todo : w_tasks w !! i = Some (THeal healing) ->
    healing !! j = Some (Reporting key (b :: todo)) ->
    step w (set_task w i (THeal (<[j := HealFailed]> healing)))
| step_heal_cleanup i healing cleaned_entries q : w_tasks w !! i = Some (THeal healing) ->
    mapM cleaned healing = Some cleaned_entries -> queue_del (concat cleaned_entries) (w_queue w) = (q, Ok tt) ->
    step w (mkWorld (w_stores w) q (w_done w) (unpromise (blobstore_key <$> concat cleaned_entries) <$> <[i := THeal []]> (w_tasks w))).

(** ** What holds in every world *)

Context {L : BlobstoreLaws B V} {FL : FuturesUnorderedLaws FU}.

Definition stored (w : world) (k : bytes) (b : BlobstoreId) : Prop := exists s, w_stores w !! b = Some s /\ durable V s k.
Definition everywhere (w : world) (k : bytes) : Prop := forall b, b ∈ ids -> stored w k b.
Definition queued (w : world) (k : bytes) : Prop :=
  exists e, e ∈ rows (w_queue w) /\ repo_id e = repo /\ blobstore_key e = k /\ blobstore_id e ∈ ids.

(** An entry that was read from the queue. *)
Record known (w : world) (e : BlobstoreSyncQueueEntry) : Prop := {
  known_repo : repo_id e = repo;
  known_stored : blobstore_id e ∈ ids -> stored w (blobstore_key e) (blobstore_id e);
  known_id : exists i, id e = Some i /\ (i < next_id (w_queue w))%N /\ forall e', e' ∈ rows (w_queue w) -> id e' = Some i -> e' = e
}.

(** What a promised read will still find. *)
Definition read_ok (w : world) (k : bytes) (requests : list BlobstoreId) (errors : gmap BlobstoreId blob_error) : Prop :=
  (forall b, b ∈ requests -> b ∈ ids) /\ (forall b, is_Some (errors !! b) -> b ∈ ids) /\ ids <> [] /\
  ((queued w k /\ exists b, stored w k b /\ (b ∈ requests \/ is_Some (errors !! b))) \/
   (everywhere w k /\ forall b, b ∈ ids -> b ∈ requests \/ is_Some (errors !! b))).

Definition loop_ok {A} (w : world) (k : bytes) (st : loop_state A) : Prop :=
  match st with
  | Continue requests errors => read_ok w k requests errors
  | Break (Ok found) => found <> None
  | Break (Err (AllFailed _)) => True
  | Break (Err _) => queued w k
  | Break Panic => True
  end.

Definition entries_ok (w : world) (key : bytes) (entries : list BlobstoreSyncQueueEntry) : Prop :=
  forall e, e ∈ entries -> known w e /\ blobstore_key e = key.

Definition heal_ok (w : world) (st : heal_state) : Prop :=
  match st with
  | Fetching key entries _ missing => entries_ok w key entries /\ forall b, b ∈ ids -> b ∈ missing \/ stored w key b
  | Putting key entries _ todo results => entries_ok w key entries /\
      (forall b, b ∈ ids -> b ∈ todo \/ (b, false) ∈ results \/ stored w key b) /\
      (forall b, (b, true) ∈ results -> stored w key b)
  | Reporting key healed => forall b, b ∈ healed -> stored w key b
  | Healed entries => forall e, e ∈ entries -> known w e /\ everywhere w (blobstore_key e)
  | HealFailed => True
  end.

Definition task_ok (w : world) (t : task) : Prop :=
  match t with
  | TPut k _ pending on => (forall b, b ∈ pending -> b ∈ ids) /\ (forall b, b ∈ on -> b ∈ ids /\ stored w k b)
  | TGet k true st => loop_ok w k st
  | TGot _ true answer => answer <> Ok None
  | TPresent k true st => loop_ok w k st
  | TPresence _ true answer => answer <> Ok None
  | THeal healing => forall st, st ∈ healing -> heal_ok w st
  | _ => True
  end.

Record world_ok (w : world) : Prop := {
  ok_usable b s : w_stores w !! b = Some s -> usable V s;
  ok_queue : queue_wf (w_queue w);
  ok_rows e : e ∈ rows (w_queue w) -> repo_id e = repo -> blobstore_id e ∈ ids -> stored w (blobstore_key e) (blobstore_id e);
  ok_done k : k ∈ w_done w -> ids <> [] /\ (queued w k \/ everywhere w k);
  ok_tasks t : t ∈ w_tasks w -> task_ok w t
}.

(** A later world: only entries of [keys] may be gone. *)
Record grows (keys : list bytes) (w w' : world) : Prop := {
  grows_stored k b : stored w k b -> stored w' k b;
  grows_queued k : queued w k -> k ∉ keys -> queued w' k;
  grows_next : (next_id (w_queue w) <= next_id (w_queue w'))%N;
  grows_rows e i : e ∈ rows (w_queue w') -> id e = Some i -> (i < next_id (w_queue w))%N -> e ∈ rows (w_queue w)
}.

Lemma elem_of_without b b' l : b' ∈ without b l <-> b' ∈ l /\ b' <> b.
Proof. unfold without. rewrite list_elem_of_In, filter_In, <- list_elem_of_In, negb_true_iff, N.eqb_neq. done. Qed.

Lemma stored_everywhere keys w w' k : grows keys w w' -> everywhere w k -> everywhere w' k.
Proof. intros Hg He b Hb. by apply (grows_stored _ _ _ Hg), He. Qed.

Lemma known_grows keys w w' e : grows keys w w' -> known w e -> known w' e.
Proof.
  intros Hg [H1 H2 (i & Hi & Hlt & Hr)]. split; [done|intros Hb; by apply (grows_stored _ _ _ Hg), H2|].
  exists i. split; [done|]. pose proof (grows_next _ _ _ Hg). split; [lia|].
  intros e' He' Hid. apply Hr; [|done]. by eapply (grows_rows _ _ _ Hg).
Qed.

Lemma loop_ok_grows {A} keys w w' k (st : loop_state A) : grows keys w w' -> k ∉ keys -> loop_ok w k st -> loop_ok w' k st.
Proof.
  intros Hg Hk. pose proof (fun H => grows_queued _ _ _ Hg k H Hk) as Hq. pose proof (grows_stored _ _ _ Hg k) as Hst.
  destruct st as [requests errors|[found|[e|e|e]|]]; cbn; try done.
  intros (H1 & H2 & H3 & [[H4 (b & H5 & H6)]|[H4 H5]]); (split; [done|]; split; [done|]; split; [done|]).
  - left. split; [by apply Hq|]. exists b. split; [by apply Hst|done].
  - right. split; [by eapply stored_everywhere|done].
Qed.

Lemma heal_ok_grows keys w w' st : grows keys w w' -> heal_ok w st -> heal_ok w' st.
Proof.
  intros Hg. pose proof (grows_stored _ _ _ Hg) as Hst. pose proof (fun e => known_grows keys w w' e Hg) as Hkn.
  destruct st as [key entries to_fetch missing|key entries blob todo results|key healed|entries|]; cbn; [| | | |done].
  - intros [H1 H2]. split; [intros e He; destruct (H1 e He); split; [by apply Hkn|done]|].
    intros b Hb. destruct (H2 b Hb); [by left|right; by apply Hst].
  - intros (H1 & H2 & H3). split; [intros e He; destruct (H1 e He); split; [by apply Hkn|done]|].
    split; [|intros b Hb; by apply Hst, H3]. intros b Hb. destruct (H2 b Hb) as [|[|]]; [by left|right; by left|right; right; by apply Hst].
  - intros H b Hb. by apply Hst, H.
  - intros H e He. destruct (H e He). split; [by apply Hkn|by eapply stored_everywhere].
Qed.

Lemma task_ok_grows keys w w' t : grows keys w w' -> task_ok w t -> task_ok w' (unpromise keys t).
Proof.
  intros Hg. destruct t as [k v pending on|k p st|k p answer|k p st|k p answer|healing]; cbn; try done.
  - intros [H1 H2]. split; [done|]. intros b Hb. destruct (H2 b Hb). split; [done|by apply (grows_stored _ _ _ Hg)].
  - destruct p; [|done]. case_bool_decide; [done|]. by apply (loop_ok_grows keys).
  - destruct p; [|done]. case_bool_decide; [done|]. by apply (loop_ok_grows keys).
  - intros H st Hst. by apply (heal_ok_grows keys w), H.
Qed.

Lemma unpromise_nil t : unpromise [] t = t.
Proof.
  destruct t as [| k p st| | k p st| |]; cbn; try done; rewrite bool_decide_false by (by intros ?%elem_of_nil);
    by rewrite andb_true_r.
Qed.

Lemma task_ok_same w w' t : grows [] w w' -> task_ok w t -> task_ok w' t.
Proof. rewrite <- (unpromise_nil t) at 2. apply task_ok_grows. Qed.

(** One task does one thing. *)
Lemma grows_world_ok w w' : world_ok w -> grows [] w w' ->
  (forall b s, w_stores w' !! b = Some s -> usable V s) -> queue_wf (w_queue w') ->
  (forall e, e ∈ rows (w_queue w') -> e ∉ rows (w_queue w) -> repo_id e = repo -> blobstore_id e ∈ ids ->
    stored w' (blobstore_key e) (blobstore_id e)) ->
  (forall k, k ∈ w_done w' -> k ∉ w_done w -> ids <> [] /\ queued w' k) ->
  (forall t, t ∈ w_tasks w' -> t ∈ w_tasks w \/ task_ok w' t) -> world_ok w'.
Proof.
  intros [H1 H2 H3 H4 H5] Hg Hu Hq Hr Hd Ht. split; [done|done| | |].
  - intros e He Hrepo Hb. destruct (decide (e ∈ rows (w_queue w))) as [Hin|Hnin]; [|by apply Hr].
    by apply (grows_stored _ _ _ Hg), H3.
  - intros k Hk. destruct (decide (k ∈ w_done w)) as [Hin|Hnin].
    + destruct (H4 k Hin) as [Hne [Hqk|He]]; (split; [done|]).
      * left. by apply (grows_queued _ _ _ Hg); [|intros ?%elem_of_nil].
      * right. by eapply stored_everywhere.
    + destruct (Hd k Hk Hnin). split; [done|by left].
  - intros t [Hin|Hok]%Ht; [|done]. by apply (task_ok_same w), H5.
Qed.

Lemma elem_of_tasks_insert (ts : list task) i t t' : t' ∈ <[i := t]> ts -> t' ∈ ts \/ t' = t.
Proof.
  intros (j & Hj)%list_elem_of_lookup. apply list_lookup_insert_Some in Hj as [(_ & <- & _)|[_ Hj]]; [by right|left].
  by eapply list_elem_of_lookup_2.
Qed.

(** *** Worlds that change *)

Lemma grows_trans w1 w2 w3 : grows [] w1 w2 -> grows [] w2 w3 -> grows [] w1 w3.
Proof.
  intros [H1 H2 H3 H4] [J1 J2 J3 J4]. split; [auto|auto|lia|].
  intros e i He Hi Hlt. eapply H4; [|done|done]. eapply J4; [done|done|lia].
Qed.

Lemma grows_same w w' : w_stores w' = w_stores w -> w_queue w' = w_queue w -> grows [] w w'.
Proof. intros E1 E2. split; unfold stored, queued; rewrite ?E1, ?E2; auto; lia. Qed.

Lemma grows_set_store w b s s' : w_stores w !! b = Some s -> (forall k, durable V s k -> durable V s' k) ->
  grows [] w (set_store w b s').
Proof.
  intros Hb Hd. split; [|auto|cbn; lia|auto]. intros k b' (s1 & Hs1 & Hk). unfold stored. cbn.
  destruct (decide (b = b')) as [<-|Hne]; [|rewrite lookup_insert_ne by done; by exists s1].
  rewrite lookup_insert_eq. exists s'. split; [done|]. apply Hd. by rewrite Hb in Hs1; injection Hs1 as ->.
Qed.

Lemma grows_queue_add w k b now :
  grows [] w (set_queue w (queue_add (BlobstoreSyncQueueEntry_new repo k b now) (w_queue w)).1).
Proof.
  split; [done| |cbn; lia|].
  - intros k' (e & He & H) _. exists e. split; [|done]. apply queue_add_elem. by left.
  - intros e i [He| ->]%queue_add_elem Hi Hlt; [done|]. cbn in Hi. injection Hi as <-. lia.
Qed.

Lemma usable_set_store w b s s' : world_ok w -> w_stores w !! b = Some s -> (usable V s -> usable V s') ->
  forall b1 s1, w_stores (set_store w b s') !! b1 = Some s1 -> usable V s1.
Proof.
  intros Hw Hb Hu b1 s1. cbn. intros [[<- <-]|[_ H]]%lookup_insert_Some; [|by apply (ok_usable _ Hw b1)].
  by apply Hu, (ok_usable _ Hw b).
Qed.

(** A task has used a store. *)
Lemma set_store_world_ok w b s s' ts : world_ok w -> w_stores w !! b = Some s -> (usable V s -> usable V s') ->
  (forall k, durable V s k -> durable V s' k) ->
  (forall t, t ∈ ts -> t ∈ w_tasks w \/ task_ok (set_store w b s') t) ->
  world_ok (mkWorld (<[b := s']> (w_stores w)) (w_queue w) (w_done w) ts).
Proof.
  intros Hw Hb Hu Hd Ht. apply (grows_world_ok w); [done| | |by apply Hw|done|done|].
  3:{ intros t [H|H]%Ht; [by left|right]. eapply task_ok_same; [|exact H]. by apply grows_same. }
  - eapply grows_trans; [by eapply grows_set_store|by apply grows_same].
  - intros b1 s1. by apply (usable_set_store w b s s').
Qed.

(** A task has used nothing. *)
Lemma set_tasks_world_ok w ts : world_ok w -> (forall t, t ∈ ts -> t ∈ w_tasks w \/ task_ok w t) ->
  world_ok (mkWorld (w_stores w) (w_queue w) (w_done w) ts).
Proof.
  intros Hw Ht. apply (grows_world_ok w); [done|by apply grows_same|apply Hw|apply Hw|done|done|].
  intros t [H|H]%Ht; [by left|right]. eapply task_ok_same; [|exact H]. by apply grows_same.
Qed.

(** An entry has been added for a blob that is stored. *)
Lemma queue_add_world_ok w k b now done ts : world_ok w -> stored w k b ->
  (forall k', k' ∈ done -> k' ∈ w_done w \/ (k' = k /\ b ∈ ids)) ->
  (forall t, t ∈ ts -> t ∈ w_tasks w \/ task_ok w t) ->
  world_ok (mkWorld (w_stores w) (queue_add (BlobstoreSyncQueueEntry_new repo k b now) (w_queue w)).1 done ts).
Proof.
  intros Hw Hst Hd Ht. pose proof (grows_queue_add w k b now) as Hg.
  apply (grows_world_ok w); [done|eapply grows_trans; [exact Hg|by apply grows_same]|apply Hw|by apply queue_add_wf, Hw| | |].
  - intros e [He| ->]%queue_add_elem; done.
  - intros k' [?|[-> Hb]]%Hd ?; [done|]. split; [by intros ->; apply elem_of_nil in Hb|].
    eexists. split; [apply queue_add_elem; by right|done].
  - intros t [H|H]%Ht; [by left|right]. eapply task_ok_same; [|done]. eapply grows_trans; [exact Hg|by apply grows_same].
Qed.

(** *** Reads *)

Lemma read_next {A} w k requests errors : NoDup ids -> read_ok w k requests errors ->
  loop_ok w k (loop_next (A := A) (length ids) requests errors).
Proof.
  intros Hnd Hok. unfold loop_next. case_decide as E1; [subst requests|done]. destruct Hok as (_ & H2 & H3 & H4).
  case_decide as E2.
  - subst errors. exfalso. destruct H4 as [[_ (b & _ & [?%elem_of_nil|[? ?]])]|[_ H5]]; [done|by rewrite lookup_empty in H|].
    destruct ids as [|b l]; [done|]. destruct (H5 b) as [?%elem_of_nil|[? H]]; [by left|done|by rewrite lookup_empty in H].
  - case_decide as E3; [done|]. destruct H4 as [[H4 _]|[_ H5]]; [done|]. exfalso. apply E3.
    rewrite <- size_dom. rewrite <- (size_list_to_set (C := gset BlobstoreId) ids) by done. f_equal.
    apply leibniz_equiv, set_equiv. intros b. rewrite elem_of_dom, elem_of_list_to_set. split; [apply H2|].
    intros Hb. by destruct (H5 b Hb) as [?%elem_of_nil|?].
Qed.

Lemma read_none w k b requests errors : ~ stored w k b -> b ∈ ids -> read_ok w k requests errors ->
  read_ok w k (without b requests) errors.
Proof.
  intros Hno Hb (H1 & H2 & H3 & H4). split; [intros b' [Hb' _]%elem_of_without; by apply H1|]. split; [done|]. split; [done|].
  destruct H4 as [[H4 (b' & H5 & H6)]|[H4 _]]; [left|by destruct (Hno (H4 b Hb))].
  split; [done|]. exists b'. split; [done|]. destruct H6; [left|by right]. apply elem_of_without. split; [done|by intros ->].
Qed.

Lemma read_failed w k b e requests errors : b ∈ ids -> read_ok w k requests errors ->
  read_ok w k (without b requests) (<[b := e]> errors).
Proof.
  intros Hb (H1 & H2 & H3 & H4).
  assert (forall b', b' ∈ requests \/ is_Some (errors !! b') -> b' ∈ without b requests \/ is_Some (<[b := e]> errors !! b')) as Hkeep.
  { intros b' H. destruct (decide (b = b')) as [->|Hne]; [right; rewrite lookup_insert_eq; by eexists|].
    rewrite lookup_insert_ne by done. destruct H; [left; apply elem_of_without; by split|by right]. }
  split; [intros b' [Hb' _]%elem_of_without; by apply H1|]. split; [|split; [done|]].
  - intros b'. destruct (decide (b = b')) as [<-|Hne]; [done|]. rewrite lookup_insert_ne by done. apply H2.
  - destruct H4 as [[H4 (b' & H5 & H6)]|[H4 H5]]; [left|right]; (split; [done|]); [exists b'; auto|auto].
Qed.

Lemma get_turn_ok w k b s s' r timeout requests errors : NoDup ids -> world_ok w -> read_ok w k requests errors ->
  b ∈ requests -> w_stores w !! b = Some s -> get k s = (s', r) ->
  loop_ok w k (get_turn (length ids) b (maybe_timeout timeout r) (without b requests) errors).
Proof.
  intros Hnd Hw Hok Hb Hs E. pose proof (proj1 Hok b Hb) as Hid.
  destruct (get_law _ _ _ _ (ok_usable _ Hw b s Hs) E) as (_ & _ & _ & Hn).
  destruct timeout; [by apply read_next, read_failed|]. destruct r as [[v|]|e|]; cbn; [done| |by apply read_next, read_failed|done].
  apply read_next; [done|]. apply read_none; [|done|done]. intros (s1 & Hs1 & Hd). rewrite Hs in Hs1. injection Hs1 as <-.
  by apply (Hn eq_refl).
Qed.

Lemma is_present_turn_ok w k b s s' r requests errors : NoDup ids -> world_ok w -> read_ok w k requests errors ->
  b ∈ requests -> w_stores w !! b = Some s -> is_present k s = (s', r) ->
  loop_ok w k (is_present_turn (length ids) b r (without b requests) errors).
Proof.
  intros Hnd Hw Hok Hb Hs E. pose proof (proj1 Hok b Hb) as Hid.
  destruct (is_present_law _ _ _ _ (ok_usable _ Hw b s Hs) E) as (_ & _ & _ & Hn).
  destruct r as [[]|e|]; cbn; [done| |by apply read_next, read_failed|done].
  apply read_next; [done|]. apply read_none; [|done|done]. intros (s1 & Hs1 & Hd). rewrite Hs in Hs1. injection Hs1 as <-.
  by apply (Hn eq_refl).
Qed.

(** The read begins. *)
Lemma read_start w k : world_ok w -> k ∈ w_done w -> read_ok w k ids ∅.
Proof.
  intros Hw Hk. destruct (ok_done _ Hw k Hk) as [Hne Hd]. split; [done|].
  split; [intros b [? H]; by rewrite lookup_empty in H|]. split; [done|]. destruct Hd as [Hq|He]; [left|right; auto].
  split; [done|]. destruct Hq as (e & He & Hr & <- & Hb). exists (blobstore_id e). split; [by apply (ok_rows _ Hw)|by left].
Qed.

Lemma with_queue_ok {A} w k (result : outcome multiplex_error (option A)) entries :
  entries = Ok (queue_get repo k (w_queue w)) \/ entries = Err QueueFailed ->
  loop_ok w k (Break result) -> with_queue None result entries <> Ok None.
Proof.
  intros He. destruct result as [[v|]|e|]; cbn; [done|done| |done].
  assert (queued w k -> queue_get repo k (w_queue w) <> []) as Hq.
  { intros (e1 & H1 & H2 & H3 & _) E. apply (not_elem_of_nil e1). rewrite <- E. by apply queue_get_elem. }
  destruct e as [e|e|e]; [| |]; intros H; try done; destruct He as [-> | ->]; try done; specialize (Hq H);
    by destruct (queue_get repo k (w_queue w)).
Qed.

(** *** Healing *)

Lemma group_by_key_elem key group entries e : (key, group) ∈ group_by_key entries -> e ∈ group ->
  e ∈ entries /\ blobstore_key e = key.
Proof.
  revert key group. induction entries as [|e1 entries IH]; intros key group; cbn; [by intros ?%elem_of_nil|].
  destruct (group_by_key entries) as [|[key1 group1] groups] eqn:E.
  - intros [= -> ->]%list_elem_of_singleton ->%list_elem_of_singleton. split; [by left|done].
  - case_decide as Ek.
    + intros [[= -> ->]|H]%elem_of_cons.
      * intros [->|H]%elem_of_cons; [split; [by left|done]|]. destruct (IH key1 group1) as [? ?]; [by left|done|]. split; [by right|done].
      * intros He. destruct (IH key group) as [? ?]; [by right|done|]. split; [by right|done].
    + intros [[= -> ->]|H]%elem_of_cons.
      * intros ->%list_elem_of_singleton. split; [by left|done].
      * intros He. destruct (IH key group) as [? ?]; [done|done|]. split; [by right|done].
Qed.

Lemma seen_or_missing entries b : b ∈ ids -> b ∈ missing_blobstores ids entries \/ exists e, e ∈ entries /\ blobstore_id e = b.
Proof.
  intros Hb. destruct (decide (b ∈ seen_blobstores ids entries)) as [Hs|Hs].
  - right. unfold seen_blobstores in Hs. rewrite elem_of_remove_dups, list_elem_of_In, filter_In, <- list_elem_of_In in Hs.
    destruct Hs as [(e & -> & He)%list_elem_of_fmap _]. by exists e.
  - left. unfold missing_blobstores. rewrite list_elem_of_In, filter_In, <- list_elem_of_In. split; [done|].
    by rewrite bool_decide_false.
Qed.

Lemma heal_blob_ok w deadline key entries st : entries_ok w key entries ->
  heal_blob ids deadline (key, entries) = Some st -> heal_ok w st.
Proof.
  intros Hok. assert (forall b, b ∈ ids -> b ∈ missing_blobstores ids entries \/ stored w key b) as Hcov.
  { intros b Hb. destruct (seen_or_missing entries b Hb) as [|(e & He & <-)]; [by left|right].
    destruct (Hok e He) as [Hk <-]. by apply (known_stored _ _ Hk). }
  unfold heal_blob. case_decide as E.
  - intros [= <-]. cbn. intros e He. destruct (Hok e He) as [Hk ->]. split; [done|].
    intros b Hb. destruct (Hcov b Hb) as [H|]; [|done]. rewrite E in H. by apply elem_of_nil in H.
  - destruct (negb _); [done|]. intros [= <-]. by split.
Qed.

Lemma heal_start w deadline limit st : world_ok w -> st ∈ heal ids repo deadline limit (w_queue w) -> heal_ok w st.
Proof using FL.
  intros Hw ([key group] & Hg & Hst)%list_elem_of_omap. eapply heal_blob_ok; [|exact Hst].
  intros e He. destruct (group_by_key_elem key group _ e Hg He) as [Hiter Hk].
  destruct (queue_iter_elem repo deadline limit (w_queue w) e Hiter) as [Hin Hr].
  split; [|done]. destruct (row_id _ (ok_queue _ Hw) e Hin) as (i & Hi & Hlt).
  split; [done|by apply (ok_rows _ Hw)|]. exists i. split; [done|]. split; [done|].
  intros e' He' Hi'. apply (row_inj _ (ok_queue _ Hw)); congruence.
Qed.

Lemma heal_turn_ok w st : heal_ok w st -> heal_ok w (heal_turn st).
Proof.
  destruct st as [key entries [|b l] missing|key entries blob [|b l] results|key [|b l]|entries|]; cbn; try done.
  - intros (H1 & H2 & H3). destruct (forallb snd results) eqn:E.
    + intros e He. destruct (H1 e He) as [Hk ->]. split; [done|]. intros b Hb.
      destruct (H2 b Hb) as [?%elem_of_nil|[H|]]; [done| |done]. rewrite forallb_forall in E.
      apply list_elem_of_In, E in H. done.
    + intros b (x & -> & Hx)%list_elem_of_fmap. apply list_elem_of_In, filter_In in Hx as [Hx Hs].
      destruct x as [b []]; [|done]. by apply H3, list_elem_of_In.
  - intros _ e ?%elem_of_nil. done.
Qed.

Lemma fetch_turn_ok w r st : heal_ok w st -> heal_ok w (fetch_turn r st).
Proof.
  destruct st as [key entries to_fetch missing| | | |]; cbn; try done. intros [H1 H2].
  destruct r as [[blob|]|e|]; cbn; try done. split; [done|]. split; [|by intros b ?%elem_of_nil].
  intros b Hb. destruct (H2 b Hb); [by left|right; by right].
Qed.

Lemma heal_put_ok w key entries blob todo results b (ok : bool) : heal_ok w (Putting key entries blob todo results) ->
  (ok = true -> stored w key b) -> heal_ok w (put_turn b ok (Putting key entries blob todo results)).
Proof.
  cbn. intros (H1 & H2 & H3) Hok. split; [done|]. split.
  - intros b' Hb'. destruct (decide (b' = b)) as [->|Hne].
    + right. destruct ok; [right; by apply Hok|left; by left].
    + destruct (H2 b' Hb') as [H|[H|H]]; [left; by apply elem_of_without|right; left; by right|right; by right].
  - intros b' [[= -> <-]|H]%elem_of_cons; [by apply Hok|by apply H3].
Qed.

(** The task of the healer with one of the blobs changed. *)
Lemma heal_insert_ok w healing j st : (forall st, st ∈ healing -> heal_ok w st) -> heal_ok w st ->
  task_ok w (THeal (<[j := st]> healing)).
Proof.
  intros H Hst st' (j' & Hj)%list_elem_of_lookup. apply list_lookup_insert_Some in Hj as [(_ & <- & _)|[_ Hj]]; [done|].
  by eapply H, list_elem_of_lookup_2.
Qed.

Lemma heal_cleanup_ok w i healing cleaned_entries q : world_ok w -> THeal healing ∈ w_tasks w ->
  mapM cleaned healing = Some cleaned_entries -> queue_del (concat cleaned_entries) (w_queue w) = (q, Ok tt) ->
  world_ok (mkWorld (w_stores w) q (w_done w)
    (unpromise (blobstore_key <$> concat cleaned_entries) <$> <[i := THeal []]> (w_tasks w))).
Proof.
  intros Hw Hin Hm Hdel. set (keys := blobstore_key <$> concat cleaned_entries).
  assert (forall e, e ∈ concat cleaned_entries -> known w e /\ everywhere w (blobstore_key e)) as Hce.
  { intros e (es & Hes & He)%list_elem_of_In%in_concat. apply list_elem_of_In in Hes, He.
    apply mapM_Some_1 in Hm. apply list_elem_of_lookup in Hes as (j & Hj). destruct (Forall2_lookup_r _ _ _ _ _ Hm Hj) as (st & Hst%list_elem_of_lookup_2 & Hc).
    pose proof (ok_tasks _ Hw _ Hin st Hst) as Hok. destruct st; try done. injection Hc as ->. by apply Hok. }
  destruct (queue_del_elem (concat cleaned_entries) (w_queue w)) as (q' & Hdel' & Hwf & Hel); [apply Hw| |].
  { intros e He. right. destruct (known_id _ _ (proj1 (Hce e He))) as (n & -> & _). by eexists. }
  rewrite Hdel' in Hdel. injection Hdel as ->. assert (next_id q = next_id (w_queue w)) as Hnext.
  { unfold queue_del in Hdel'. destruct (collect _ _); by injection Hdel' as <-. }
  set (w' := mkWorld _ _ _ _). assert (grows keys w w') as Hg.
  { split; [done| |cbn; lia|].
    - intros k (e & He & Hr & Hk & Hb) Hnin. exists e. split; [|done]. apply Hel. split; [done|].
      intros e' He' Hid. apply Hnin. destruct (known_id _ _ (proj1 (Hce e' He'))) as (n & Hn & _ & Hrow).
      rewrite (Hrow e He) in Hk; [|by rewrite <- Hid, Hn]. subst k. by apply list_elem_of_fmap_2.
    - by intros e n [He _]%Hel. }
  split; [by apply Hw|done| | |].
  - intros e [He _]%Hel. by apply (ok_rows _ Hw).
  - intros k Hk. destruct (ok_done _ Hw k Hk) as [Hne Hd]. split; [done|].
    destruct (decide (k ∈ keys)) as [(e & -> & He)%list_elem_of_fmap|Hnin].
    + right. by apply Hce.
    + destruct Hd; [left; by apply (grows_queued _ _ _ Hg)|right; by eapply stored_everywhere].
  - intros t (t1 & -> & Ht1)%list_elem_of_fmap. apply (task_ok_grows keys w w'); [done|].
    apply elem_of_tasks_insert in Ht1 as [H| ->]; [by apply (ok_tasks _ Hw)|]. cbn. by intros st ?%elem_of_nil.
Qed.

(** *** Every step *)

(** A task that has read a store, or put to it. *)
Lemma store_step_ok w i b s s' t : world_ok w -> w_stores w !! b = Some s ->
  (later V s s' \/ exists k v, after_put V k v s s') -> (grows [] w (set_store w b s') -> task_ok (set_store w b s') t) ->
  world_ok (set_task (set_store w b s') i t).
Proof.
  intros Hw Hb Hs Ht. assert ((usable V s -> usable V s') /\ forall k, durable V s k -> durable V s' k) as [Hu Hd].
  { by destruct Hs as [[]|(k & v & [])]. }
  apply (set_store_world_ok w b s s' (<[i := t]> (w_tasks w)) Hw Hb Hu Hd).
  intros t' [H| ->]%elem_of_tasks_insert; [by left|right]. by apply Ht, (grows_set_store w b s).
Qed.

Lemma set_task_ok w i t : world_ok w -> task_ok w t -> world_ok (set_task w i t).
Proof.
  intros Hw Ht. apply (set_tasks_world_ok w (<[i := t]> (w_tasks w)) Hw).
  intros t' [H| ->]%elem_of_tasks_insert; [by left|by right].
Qed.

Lemma add_task_ok w t : world_ok w -> task_ok w t -> world_ok (add_task w t).
Proof.
  intros Hw Ht. apply (set_tasks_world_ok w (w_tasks w ++ [t]) Hw).
  intros t' [H|H%list_elem_of_singleton]%elem_of_app; [by left|right; by subst].
Qed.

Lemma put_step_ok w i k v pending on b s s' r timeout : world_ok w -> task_ok w (TPut k v pending on) -> b ∈ pending ->
  w_stores w !! b = Some s -> put k v s = (s', r) ->
  world_ok (set_task (set_store w b s') i
    (TPut k v (without b pending) (match maybe_timeout timeout r with Ok _ => b :: on | _ => on end))).
Proof.
  intros Hw [H1 H2] Hb Hs E. destruct (put_law _ _ _ _ _ (ok_usable _ Hw b s Hs) E) as (Ha & _ & Hd).
  apply (store_step_ok w i b s s'); [done|done|right; by exists k, v|]. intros Hg.
  split; [intros b' [Hb' _]%elem_of_without; by apply H1|]. intros b' Hb'.
  assert (b' ∈ on \/ (b' = b /\ r = Ok tt)) as [Hon|[-> ->]].
  { destruct timeout; [by left|]. destruct r as [[]|e|]; [|by left|by left]. apply elem_of_cons in Hb' as [->|?]; [by right|by left]. }
  - destruct (H2 b' Hon). split; [done|]. by apply (grows_stored _ _ _ Hg).
  - split; [by apply H1|]. exists s'. split; [apply lookup_insert_eq|by apply Hd].
Qed.

Lemma step_ok w w' : NoDup ids -> world_ok w -> step w w' -> world_ok w'.
Proof using L FL.
  intros Hnd Hw Hstep. destruct Hstep as [b s s' Hs Hl|k v|i k v pending on b s s' r timeout Hi Hb Hs E|i k v pending on b now Hi Hb
    |i k v pending on b Hi Hb|k|i k p requests errors b s s' r timeout Hi Hb Hs E|i k p result entries Hi He
    |k|i k p requests errors b s s' r Hi Hb Hs E|i k p result entries Hi He|deadline limit|i healing j st Hi Hj
    |i healing j key entries to_fetch missing b s s' r Hi Hj Hlast Hs E|i healing j key entries blob todo results b s s' r Hi Hj Hb Hs E
    |i healing j key b todo now Hi Hj|i healing j key b todo Hi Hj|i healing cleaned_entries q Hi Hm Hdel];
    try pose proof (ok_tasks _ Hw _ (list_elem_of_lookup_2 _ _ _ Hi)) as Hok.
  - by apply (set_store_world_ok w b s s' (w_tasks w) Hw Hs); [apply Hl|apply Hl|left].
  - apply add_task_ok; [done|]. split; [done|by intros b ?%elem_of_nil].
  - by eapply put_step_ok.
  - destruct Hok as [H1 H2]. destruct (H2 b Hb) as [Hid Hst].
    apply (queue_add_world_ok w k b now ({[k]} ∪ w_done w) (<[i := TPut k v pending (without b on)]> (w_tasks w))); [done..| |].
    + intros k' [->%elem_of_singleton|?]%elem_of_union; [by right|by left].
    + intros t [H| ->]%elem_of_tasks_insert; [by left|right]. split; [done|]. intros b' [Hb' _]%elem_of_without. by apply H2.
  - apply set_task_ok; [done|]. destruct Hok as [H1 H2]. split; [done|]. intros b' [Hb' _]%elem_of_without. by apply H2.
  - apply add_task_ok; [done|]. cbn. case_bool_decide; [|done]. by apply read_start.
  - destruct (get_law _ _ _ _ (ok_usable _ Hw b s Hs) E) as (Hl & _).
    apply (store_step_ok w i b s s'); [done|done|by left|]. intros Hg. destruct p; [|done].
    apply (loop_ok_grows [] w); [done|by intros ?%elem_of_nil|]. by eapply get_turn_ok.
  - apply set_task_ok; [done|]. destruct p; [|done]. by eapply with_queue_ok.
  - apply add_task_ok; [done|]. cbn. case_bool_decide; [|done]. by apply read_start.
  - destruct (is_present_law _ _ _ _ (ok_usable _ Hw b s Hs) E) as (Hl & _).
    apply (store_step_ok w i b s s'); [done|done|by left|]. intros Hg. destruct p; [|done].
    apply (loop_ok_grows [] w); [done|by intros ?%elem_of_nil|]. by eapply is_present_turn_ok.
  - apply set_task_ok; [done|]. destruct p; [|done]. by eapply with_queue_ok.
  - apply add_task_ok; [done|]. intros st Hst. by eapply heal_start.
  - apply set_task_ok; [done|]. apply heal_insert_ok; [done|]. by eapply heal_turn_ok, Hok, list_elem_of_lookup_2.
  - destruct (get_law _ _ _ _ (ok_usable _ Hw b s Hs) E) as (Hl & _).
    apply (store_step_ok w i b s s'); [done|done|by left|]. intros Hg.
    apply heal_insert_ok; [intros st Hst; by apply (heal_ok_grows [] w), Hok|].
    apply fetch_turn_ok, (heal_ok_grows [] w); [done|]. by eapply Hok, list_elem_of_lookup_2.
  - destruct (put_law _ _ _ _ _ (ok_usable _ Hw b s Hs) E) as (Ha & _ & Hd).
    apply (store_step_ok w i b s s'); [done|done|right; by exists key, blob|]. intros Hg.
    apply heal_insert_ok; [intros st Hst; by apply (heal_ok_grows [] w), Hok|].
    apply heal_put_ok; [apply (heal_ok_grows [] w); [done|by eapply Hok, list_elem_of_lookup_2]|].
    intros Hr. exists s'. split; [apply lookup_insert_eq|]. apply Hd. by destruct r as [[]|e|].
  - pose proof (Hok _ (list_elem_of_lookup_2 _ _ _ Hj)) as Hrep. cbn in Hrep.
    apply (queue_add_world_ok w key b now (w_done w) (<[i := THeal (<[j := Reporting key todo]> healing)]> (w_tasks w)));
      [done|by apply Hrep; left|by left|].
    intros t [H| ->]%elem_of_tasks_insert; [by left|right]. apply heal_insert_ok; [done|]. intros b' Hb'. apply Hrep. by right.
  - apply set_task_ok; [done|]. by apply heal_insert_ok.
  - by eapply heal_cleanup_ok, Hdel; [|eapply list_elem_of_lookup_2|].
Qed.

(** No task has run yet: the stores may hold anything. *)
Record initial (w : world) : Prop := {
  initial_usable b s : w_stores w !! b = Some s -> usable V s;
  initial_queue : rows (w_queue w) = [];
  initial_done : w_done w = ∅;
  initial_tasks : w_tasks w = []
}.

Lemma initial_ok w : initial w -> world_ok w.
Proof.
  intros [H1 H2 H3 H4]. split; [done| | | |]; rewrite ?H2, ?H3, ?H4.
  - split; rewrite H2; [by intros e ?%elem_of_nil|by intros e e' ?%elem_of_nil].
  - by intros e ?%elem_of_nil.
  - by intros k ?%elem_of_empty.
  - by intros t ?%elem_of_nil.
Qed.

Lemma reachable_ok w0 w : NoDup ids -> initial w0 -> rtc step w0 w -> world_ok w.
Proof using L FL.
  intros Hnd Hinit Hsteps. apply initial_ok in Hinit. induction Hsteps as [|w0 w1 w2 H1 _ IH]; [done|].
  by apply IH, (step_ok w0).
Qed.

(** C25. Blobs are put to several stores, which may fail or be late at any
    time, while a healer copies them and cleans the queue up. In every world
    that is reached, a key of which a [put] has returned is in one of the
    stores for good, and in all of them or in the queue; and a [get] or an
    [is_present] of such a key never answers that there is nothing, unless
    entries of its key have been cleaned up while it was running. *)
Theorem multiplexed_never_loses w0 w : NoDup ids -> initial w0 -> rtc step w0 w ->
  (forall k, k ∈ w_done w -> (exists b, b ∈ ids /\ stored w k b) /\ (queued w k \/ everywhere w k)) /\
  (forall i k answer, w_tasks w !! i = Some (TGot k true answer) -> answer <> Ok None) /\
  (forall i k answer, w_tasks w !! i = Some (TPresence k true answer) -> answer <> Ok None).
Proof using L FL.
  intros Hnd Hinit Hsteps. pose proof (reachable_ok w0 w Hnd Hinit Hsteps) as Hw. split; [|split].
  - intros k Hk. destruct (ok_done _ Hw k Hk) as [Hne Hd]. split; [|done]. destruct Hd as [(e & He & Hr & <- & Hb)|He].
    + exists (blobstore_id e). split; [done|]. by apply (ok_rows _ Hw).
    + assert (exists b, b ∈ ids) as [b Hb]; [destruct ids as [|b l]; [done|exists b; by left]|]. exists b. split; [done|by apply He].
  - intros i k answer Hi. apply (ok_tasks _ Hw (TGot k true answer)). by eapply list_elem_of_lookup_2.
  - intros i k answer Hi. apply (ok_tasks _ Hw (TPresence k true answer)). by eapply list_elem_of_lookup_2.
Qed.
End world.

(** ** Examples

    Two stores in memory. A read runs while the first of them is late, before
    and after a healer has copied the blob to the second and cleaned the queue
    up. *)


Definition ex_ids : list BlobstoreId := [0%N; 1%N].
Definition ex_stores : gmap BlobstoreId Memblob := {[ 0%N := Memblob_new; 1%N := Memblob_new ]}.
Definition ex_world : world := mkWorld ex_stores (mkQueue 0 []) ∅ [].
Definition ex_key : bytes := bstr "key".
Definition ex_value : bytes := bstr "value".

#[local] Notation ex_step := (step (V := memblob_view) ex_ids 7%N).

Lemma ex_initial : initial (V := memblob_view) ex_world.
Proof. by split. Qed.

Lemma ex_ids_nodup : NoDup ex_ids.
Proof. by apply NoDup_cons; split; [rewrite list_elem_of_singleton|apply NoDup_singleton]. Qed.

(** The [put] has returned, the second store has not the blob yet, and the
    read has asked it. *)
Definition ex_put : world := add_task ex_world (TPut ex_key ex_value ex_ids []).
Definition ex_stored : world :=
  set_task (set_store ex_put 0%N (mkMemblob {[ ex_key := ex_value ]})) 0 (TPut ex_key ex_value [1%N] [0%N]).
Definition ex_done : world :=
  set_done (set_task (set_queue ex_stored (queue_add (BlobstoreSyncQueueEntry_new 7 ex_key 0%N 0) (w_queue ex_stored)).1) 0
    (TPut ex_key ex_value [1%N] [])) ex_key.
Definition ex_asking : world := add_task ex_done (TGet ex_key true (Continue ex_ids ∅)).
Definition ex_asked : world := set_task (set_store ex_asking 1%N Memblob_new) 1 (TGet ex_key true (Continue [0%N] ∅)).

Lemma ex_asking_reached : rtc ex_step ex_world ex_asking.
Proof.
  apply (rtc_l _ _ ex_put); [exact (step_start_put ex_ids 7 ex_world ex_key ex_value)|].
  apply (rtc_l _ _ ex_stored).
  { refine (step_put ex_ids 7 ex_put 0 ex_key ex_value ex_ids [] 0%N Memblob_new _ (Ok tt) false eq_refl _ eq_refl eq_refl). by left. }
  apply (rtc_l _ _ ex_done).
  { refine (step_on_put ex_ids 7 ex_stored 0 ex_key ex_value [1%N] [0%N] 0%N 0 eq_refl _). by left. }
  apply rtc_once. exact (step_start_get ex_ids 7 ex_done ex_key).
Qed.

Lemma ex_asked_step : ex_step ex_asking ex_asked.
Proof.
  refine (step_get ex_ids 7 ex_asking 1 ex_key true ex_ids ∅ 1%N Memblob_new Memblob_new (Ok None) false eq_refl _ eq_refl eq_refl).
  right. by left.
Qed.

(** The first store times out, and the queue is read. *)
Definition ex_errors : gmap BlobstoreId blob_error := {[ 0%N := Failed 0 ]}.
Definition timed_out (p : bool) (w : world) : world :=
  set_task (set_store w 0%N (mkMemblob {[ ex_key := ex_value ]})) 1 (TGet ex_key p (Break (Err (SomeFailedOthersNone ex_errors)))).
Definition ex_failed : world :=
  set_task (timed_out true ex_asked) 1 (TGot ex_key true (Err (SomeFailedOthersNone ex_errors))).

Lemma ex_failed_reached : rtc ex_step ex_world ex_failed.
Proof.
  apply (rtc_r _ (timed_out true ex_asked)); [apply (rtc_r _ ex_asked); [apply (rtc_r _ ex_asking); [apply ex_asking_reached|apply ex_asked_step]|]|].
  - refine (step_get ex_ids 7 ex_asked 1 ex_key true [0%N] ∅ 0%N (mkMemblob {[ ex_key := ex_value ]}) _ (Ok (Some ex_value)) true
      eq_refl _ eq_refl eq_refl). by left.
  - refine (step_got ex_ids 7 (timed_out true ex_asked) 1 ex_key true (Err (SomeFailedOthersNone ex_errors))
      (Ok (queue_get 7 ex_key (w_queue ex_asked))) eq_refl _). by left.
Qed.

Lemma ex_key_done : ex_key ∈ w_done ex_done.
Proof. change (ex_key ∈ ({[ex_key]} ∪ ∅ : gset bytes)). set_solver. Qed.

Lemma multiplexed_never_loses_witness : exists b, b ∈ ex_ids /\ stored (V := memblob_view) ex_failed ex_key b.
Proof.
  destruct (multiplexed_never_loses ex_ids 7%N ex_world ex_failed ex_ids_nodup ex_initial ex_failed_reached) as [H _].
  apply (H ex_key). exact ex_key_done.
Defined.

(** A healer copies the blob and cleans the queue up in between: the read
    answers that there is nothing, though the [put] had returned before it
    began and both stores have the blob. *)
Definition ex_entry : BlobstoreSyncQueueEntry := mkEntry 7 ex_key 0%N 0 (Some 0%N).
Definition ex_has : Memblob := mkMemblob {[ ex_key := ex_value ]}.
Definition ex_healing : world := add_task ex_asked (THeal [Fetching ex_key [ex_entry] [0%N] [1%N]]).
Definition ex_fetched : world := set_task (set_store ex_healing 0%N ex_has) 2 (THeal [Putting ex_key [ex_entry] ex_value [1%N] []]).
Definition ex_copied : world := set_task (set_store ex_fetched 1%N ex_has) 2 (THeal [Putting ex_key [ex_entry] ex_value [] [(1%N, true)]]).
Definition ex_healed : world := set_task ex_copied 2 (THeal [Healed [ex_entry]]).
Definition ex_cleaned : world :=
  mkWorld (w_stores ex_healed) (mkQueue 1 []) (w_done ex_healed)
    (unpromise [ex_key] <$> <[2 := THeal []]> (w_tasks ex_healed)).

Definition ex_lost : world := set_task (timed_out false ex_cleaned) 1 (TGot ex_key false (Ok None)).

Lemma ex_cleaned_reached : rtc ex_step ex_asking ex_cleaned.
Proof.
  apply (rtc_l _ _ ex_asked); [apply ex_asked_step|].
  apply (rtc_l _ _ ex_healing); [exact (step_start_heal ex_ids 7 ex_asked 10 10)|].
  apply (rtc_l _ _ ex_fetched).
  { exact (step_heal_fetch ex_ids 7 ex_healing 2 _ 0 ex_key [ex_entry] [0%N] [1%N] 0%N ex_has ex_has (Ok (Some ex_value))
      eq_refl eq_refl eq_refl eq_refl eq_refl). }
  apply (rtc_l _ _ ex_copied).
  { refine (step_heal_put ex_ids 7 ex_fetched 2 _ 0 ex_key [ex_entry] ex_value [1%N] [] 1%N Memblob_new ex_has (Ok tt)
      eq_refl eq_refl _ eq_refl eq_refl). by left. }
  apply (rtc_l _ _ ex_healed); [exact (step_heal_turn ex_ids 7 ex_copied 2 _ 0 _ eq_refl eq_refl)|].
  apply rtc_once. exact (step_heal_cleanup ex_ids 7 ex_healed 2 _ [[ex_entry]] (mkQueue 1 []) eq_refl eq_refl eq_refl).
Qed.

Lemma ex_lost_reached : rtc ex_step ex_asking ex_lost.
Proof.
  apply (rtc_r _ (timed_out false ex_cleaned)); [apply (rtc_r _ ex_cleaned); [apply ex_cleaned_reached|]|].
  - refine (step_get ex_ids 7 ex_cleaned 1 ex_key false [0%N] ∅ 0%N ex_has _ (Ok (Some ex_value)) true eq_refl _ eq_refl eq_refl).
    by left.
  - refine (step_got ex_ids 7 (timed_out false ex_cleaned) 1 ex_key false (Err (SomeFailedOthersNone ex_errors))
      (Ok (queue_get 7 ex_key (w_queue ex_cleaned))) eq_refl _). by left.
Qed.

Lemma cleaned_up_read_lost : rtc ex_step ex_world ex_asking /\ ex_key ∈ w_done ex_asking /\
  w_tasks ex_asking !! 1 = Some (TGet ex_key true (Continue ex_ids ∅)) /\ rtc ex_step ex_asking ex_lost /\
  w_tasks ex_lost !! 1 = Some (TGot ex_key false (Ok None)) /\ everywhere (V := memblob_view) ex_ids ex_lost ex_key.
Proof.
  split; [apply ex_asking_reached|]. split; [exact ex_key_done|].
  split; [done|]. split; [apply ex_lost_reached|]. split; [done|].
  intros b [->|[->|?%elem_of_nil]%elem_of_cons]%elem_of_cons; [| |done]; exists ex_has; (split; [done|by eexists]).
Qed.
