(* ===== verification/Changesets.v ===== *)
(** * The changesets table

    Model of [SqlChangesets] in [src/changesets/src/lib.rs] with its schema
    ([src/changesets/schemas/sqlite-changesets.sql]), and of the
    [SimpleChangesetFetcher] over it
    ([src/blobrepo/changeset_fetcher/src/lib.rs]). The SQL queries of the source
    are written out over the two tables; a read goes to a replica first, which
    may lag behind the master. *)

From S2P Require Import Prelude Hash Bonsai Graph.

Definition RepositoryId := N.

Record ChangesetEntry := mkEntry {
  e_repo_id : RepositoryId;
  e_cs_id : ChangesetId;
  e_parents : list ChangesetId;
  e_gen : N
}.

Record ChangesetInsert := mkInsert {
  i_repo_id : RepositoryId;
  i_cs_id : ChangesetId;
  i_parents : list ChangesetId
}.

(** Rows of the tables [changesets] and [csparents]. *)
Record changesets_row := mkRow { r_id : N; r_repo_id : RepositoryId; r_cs_id : ChangesetId; r_gen : N }.
Record csparents_row := mkParentRow { p_cs_id : N; p_parent_id : N; p_seq : N }.

Record database := mkDb { changesets : list changesets_row; csparents : list csparents_row }.

#[export] Instance changesets_row_eq_dec : EqDecision changesets_row.
Proof. solve_decision. Defined.
#[export] Instance csparents_row_eq_dec : EqDecision csparents_row.
Proof. solve_decision. Defined.

Definition empty_db : database := mkDb [] [].

Inductive changesets_error :=
| MissingParents (cs_ids : list ChangesetId)
| DuplicateInsertionInconsistency (cs_id : ChangesetId) (stored new : list ChangesetId).

(** ** The queries *)

Definition same_key (repo_id : RepositoryId) (cs_id : ChangesetId) (r : changesets_row) : bool :=
  bool_decide (r_repo_id r = repo_id /\ r_cs_id r = cs_id).

(** [SelectChangesets]: the rows of some changesets. *)
Definition SelectChangesets (db : database) (repo_id : RepositoryId) (cs_ids : list ChangesetId)
    : list changesets_row :=
  List.filter (fun r => bool_decide (r_repo_id r = repo_id /\ r_cs_id r ∈ cs_ids)) (changesets db).

(** [ORDER BY seq]. *)
Fixpoint insert_by_seq (p : csparents_row) (l : list csparents_row) : list csparents_row :=
  match l with
  | [] => [p]
  | q :: l' => if (p_seq p <=? p_seq q)%N then p :: l else q :: insert_by_seq p l'
  end.

Definition order_by_seq (l : list csparents_row) : list csparents_row := foldr insert_by_seq [] l.

(** The rows that a [JOIN] of [csparents] and [changesets] gives for the
    changeset with an id, ordered by [seq]. *)
Definition parent_rows_of (db : database) (id : N) : list csparents_row :=
  order_by_seq (List.filter (fun p => bool_decide (p_cs_id p = id)) (csparents db)).

Definition joined_parents (db : database) (id : N) : list ChangesetId :=
  concat ((fun p => r_cs_id <$> List.filter (fun r => bool_decide (p_parent_id p = r_id r)) (changesets db))
            <$> parent_rows_of db id).

(** [SelectChangeset], with its [LEFT JOIN]: a changeset without parents has
    one row. *)
Definition SelectChangeset (db : database) (repo_id : RepositoryId) (cs_id : ChangesetId)
    : list (N * option ChangesetId) :=
  concat ((fun r => match joined_parents db (r_id r) with
                    | [] => [(r_gen r, None)]
                    | ps => (fun p => (r_gen r, Some p)) <$> ps
                    end) <$> List.filter (same_key repo_id cs_id) (changesets db)).

(** [InsertChangeset], ignored when the key exists: the table after it and the
    id of the new row. *)
Definition InsertChangeset (db : database) (repo_id : RepositoryId) (cs_id : ChangesetId) (gen : N)
    : option (database * N) :=
  if existsb (same_key repo_id cs_id) (changesets db) then None
  else let id := (1 + foldr N.max 0 (r_id <$> changesets db))%N in
       Some (mkDb (changesets db ++ [mkRow id repo_id cs_id gen]) (csparents db), id).

Definition InsertParents (db : database) (rows : list csparents_row) : database :=
  mkDb (changesets db) (csparents db ++ rows).

(** ** Operations *)

Definition select_changeset (db : database) (repo_id : RepositoryId) (cs_id : ChangesetId)
    : option ChangesetEntry :=
  let rows := SelectChangeset db repo_id cs_id in
  match rows with
  | [] => None
  | (gen, _) :: _ => Some (mkEntry repo_id cs_id (omap snd rows) gen)
  end.

(** The difference of the two [HashSet]s. *)
Definition check_missing_rows (expected : list ChangesetId) (actual : list changesets_row)
    : outcome changesets_error unit :=
  let diff := (list_to_set expected : gset ChangesetId) ∖ list_to_set (r_cs_id <$> actual) in
  if decide (diff = ∅) then Ok tt else Err (MissingParents (elements diff)).

(** [parent_map.get(parent)]: the last row inserted under a key wins. *)
Definition parent_id_of (parent_rows : list changesets_row) (parent : ChangesetId) : option N :=
  r_id <$> last (List.filter (fun r => bool_decide (r_cs_id r = parent)) parent_rows).

Fixpoint parent_inserts (new_cs_id : N) (parent_rows : list changesets_row) (seq : N)
    (parents : list ChangesetId) : outcome changesets_error (list csparents_row) :=
  match parents with
  | [] => Ok []
  | parent :: parents =>
      parent_id ← expect (parent_id_of parent_rows parent);
      rest ← parent_inserts new_cs_id parent_rows (seq + 1) parents;
      Ok (mkParentRow new_cs_id parent_id seq :: rest)
  end.

Definition insert_parents (db : database) (new_cs_id : N) (cs : ChangesetInsert)
    (parent_rows : list changesets_row) : outcome changesets_error database :=
  rows ← parent_inserts new_cs_id parent_rows 0 (i_parents cs);
  Ok (InsertParents db rows).

Definition check_changeset_matches (db : database) (cs : ChangesetInsert) : outcome changesets_error unit :=
  let stored_parents := e_parents <$> select_changeset db (i_repo_id cs) (i_cs_id cs) in
  if decide (Some (i_parents cs) = stored_parents) then Ok tt
  else Err (DuplicateInsertionInconsistency (i_cs_id cs) (default [] stored_parents) (i_parents cs)).

(** [add]: an error or a panic rolls the transaction back. *)
Definition add (db : database) (cs : ChangesetInsert) : database * outcome changesets_error bool :=
  let parent_rows := match i_parents cs with
                     | [] => []
                     | ps => SelectChangesets db (i_repo_id cs) ps
                     end in
  match check_missing_rows (i_parents cs) parent_rows with
  | Ok _ =>
      let gen := usize_add (foldr N.max 0%N (r_gen <$> parent_rows)) 1 in
      match InsertChangeset db (i_repo_id cs) (i_cs_id cs) gen with
      | Some (db1, id) =>
          match insert_parents db1 id cs parent_rows with
          | Ok db2 => (db2, Ok true)
          | Err e => (db, Err e)
          | Panic => (db, Panic)
          end
      | None => (db, _ ← check_changeset_matches db cs; Ok false)
      end
  | Err e => (db, Err e)
  | Panic => (db, Panic)
  end.

(** [get]: the replica, and then the master. *)
Definition get (replica master : database) (repo_id : RepositoryId) (cs_id : ChangesetId)
    : option ChangesetEntry :=
  match select_changeset replica repo_id cs_id with
  | Some entry => Some entry
  | None => select_changeset master repo_id cs_id
  end.

(** [SimpleChangesetFetcher]. *)
Definition simple_fetcher (replica master : database) (repo_id : RepositoryId) : ChangesetFetcher := {|
  get_generation_number cs_id :=
    entry ← ok_or (get replica master repo_id cs_id) (ChangesetNotFound cs_id); Ok (e_gen entry);
  get_parents cs_id :=
    entry ← ok_or (get replica master repo_id cs_id) (ChangesetNotFound cs_id); Ok (e_parents entry)
|}.

(** ** Well-formed tables *)

Definition key_of (r : changesets_row) : RepositoryId * ChangesetId := (r_repo_id r, r_cs_id r).

Definition parent_row (id : N) (i : nat) (p : changesets_row) : csparents_row :=
  mkParentRow id (r_id p) (N.of_nat i).

Definition parents_in (db : database) (id : N) : list csparents_row :=
  List.filter (fun p => bool_decide (p_cs_id p = id)) (csparents db).

(** [ps] are the rows of the parents of [r]. *)
Definition row_parents (db : database) (r : changesets_row) (ps : list changesets_row) : Prop :=
  Forall (fun p => p ∈ changesets db /\ r_repo_id p = r_repo_id r) ps /\
  parents_in db (r_id r) = imap (parent_row (r_id r)) ps.

Definition max_gen (ps : list changesets_row) : N := foldr N.max 0%N (r_gen <$> ps).

Record wf (db : database) : Prop := {
  wf_ids : NoDup (r_id <$> changesets db);
  wf_keys : NoDup (key_of <$> changesets db);
  wf_rows r : r ∈ changesets db -> exists ps, row_parents db r ps /\ r_gen r = (1 + max_gen ps)%N;
  wf_gens r : r ∈ changesets db -> (r_gen r <= lenN (changesets db))%N;
  wf_csparents p : p ∈ csparents db -> p_cs_id p ∈ r_id <$> changesets db
}.

Lemma NoDup_fmap_inj {A B} (f : A -> B) l x y :
  NoDup (f <$> l) -> x ∈ l -> y ∈ l -> f x = f y -> x = y.
Proof.
  induction l as [|z l IH]; intros Hnd Hx Hy E; [by apply elem_of_nil in Hx|].
  rewrite fmap_cons in Hnd. apply NoDup_cons in Hnd as [Hz Hnd].
  apply elem_of_cons in Hx as [->|Hx]; apply elem_of_cons in Hy as [->|Hy]; [done| | |by apply IH].
  - destruct Hz. rewrite E. by apply list_elem_of_fmap_2.
  - destruct Hz. rewrite <- E. by apply list_elem_of_fmap_2.
Qed.

Lemma order_by_seq_imap id ps : forall k,
  order_by_seq (imap (fun i => parent_row id (k + i)) ps) = imap (fun i => parent_row id (k + i)) ps.
Proof.
  induction ps as [|p ps IH]; intros k; [done|]. simpl. unfold compose.
  assert (imap (fun i => parent_row id (k + S i)) ps = imap (fun i => parent_row id (S k + i)) ps) as ->.
  { apply imap_ext. intros i x _. f_equal. lia. }
  rewrite IH. destruct ps as [|q ps]; [done|]. simpl. unfold compose.
  by rewrite (proj2 (N.leb_le _ _)) by lia.
Qed.

Lemma concat_imap {A B C} (f : B -> list C) (h : A -> C) ps : forall g : nat -> A -> B,
  (forall i p, p ∈ ps -> f (g i p) = [h p]) -> concat (f <$> imap g ps) = h <$> ps.
Proof.
  induction ps as [|p ps IH]; intros g H; [done|]. rewrite imap_cons, !fmap_cons. cbn [concat].
  rewrite (H 0 p) by by left. rewrite IH; [done|]. intros i q Hq. apply H. by right.
Qed.

Section wf.
Context (db : database) (Hwf : wf db).

Lemma find_row id r : r ∈ changesets db -> r_id r = id ->
  List.filter (fun x => bool_decide (id = r_id x)) (changesets db) = [r].
Proof using Hwf.
  intros Hr <-. apply filter_unique; [by eapply NoDup_fmap_1, wf_ids|done|by apply bool_decide_true|].
  intros y Hy Hb%bool_decide_eq_true. by eapply (NoDup_fmap_inj r_id); [apply wf_ids| | |].
Qed.

Lemma joined_parents_wf r ps : row_parents db r ps -> joined_parents db (r_id r) = r_cs_id <$> ps.
Proof using Hwf.
  intros [Hin Hp]. unfold joined_parents, parent_rows_of. fold (parents_in db (r_id r)). rewrite Hp.
  change (imap (parent_row (r_id r)) ps) with (imap (fun i => parent_row (r_id r) (0 + i)) ps).
  rewrite order_by_seq_imap. apply concat_imap. intros i p [Hpdb _]%(proj1 (Forall_forall _ _) Hin).
  change (p_parent_id (parent_row (r_id r) (0 + i) p)) with (r_id p). by rewrite (find_row (r_id p) p).
Qed.

Lemma select_row r ps :
  r ∈ changesets db -> row_parents db r ps ->
  select_changeset db (r_repo_id r) (r_cs_id r)
  = Some (mkEntry (r_repo_id r) (r_cs_id r) (r_cs_id <$> ps) (r_gen r)).
Proof using Hwf.
  intros Hr Hps. unfold select_changeset, SelectChangeset.
  rewrite (filter_unique (same_key (r_repo_id r) (r_cs_id r)) _ r).
  - simpl. rewrite (joined_parents_wf r ps Hps), app_nil_r.
    destruct ps as [|p ps]; [done|]. simpl. do 3 f_equal.
    clear. induction ps as [|q ps IH]; [done|]. simpl. by f_equal.
  - by eapply NoDup_fmap_1, wf_ids.
  - done.
  - by apply bool_decide_true.
  - intros y Hy [E1 E2]%bool_decide_eq_true. eapply (NoDup_fmap_inj key_of); [by apply wf_keys|done|done|].
    unfold key_of. congruence.
Qed.

Lemma select_none repo c :
  (forall r, r ∈ changesets db -> ~ (r_repo_id r = repo /\ r_cs_id r = c)) ->
  select_changeset db repo c = None.
Proof using.
  intros H. unfold select_changeset, SelectChangeset. rewrite filter_none; [done|].
  intros y Hy. by apply bool_decide_false, H.
Qed.

(** What the table holds under a key. *)
Lemma select_cases repo c :
  (select_changeset db repo c = None /\ existsb (same_key repo c) (changesets db) = false /\
     forall r, r ∈ changesets db -> ~ (r_repo_id r = repo /\ r_cs_id r = c)) \/
  (exists r ps, r ∈ changesets db /\ r_repo_id r = repo /\ r_cs_id r = c /\ row_parents db r ps /\
     r_gen r = (1 + max_gen ps)%N /\ existsb (same_key repo c) (changesets db) = true /\
     select_changeset db repo c = Some (mkEntry repo c (r_cs_id <$> ps) (r_gen r))).
Proof using Hwf.
  destruct (existsb (same_key repo c) (changesets db)) eqn:E.
  - right. apply existsb_exists in E as (r & Hr%list_elem_of_In & [E1 E2]%bool_decide_eq_true).
    destruct (wf_rows db Hwf r Hr) as (ps & Hps & Hg). exists r, ps. subst. repeat split; try apply Hps; try done.
    by apply select_row.
  - left. assert (forall r, r ∈ changesets db -> ~ (r_repo_id r = repo /\ r_cs_id r = c)) as H.
    { intros r Hr Hk. assert (existsb (same_key repo c) (changesets db) = true) as H; [|congruence].
      apply existsb_exists. exists r. split; [by apply list_elem_of_In|by apply bool_decide_true]. }
    split; [by apply select_none|done].
Qed.
End wf.

(** ** Adding a changeset *)

Lemma elem_of_select db repo cs_ids r :
  r ∈ SelectChangesets db repo cs_ids <-> r ∈ changesets db /\ r_repo_id r = repo /\ r_cs_id r ∈ cs_ids.
Proof.
  unfold SelectChangesets. rewrite (list_elem_of_In (List.filter _ _)), filter_In, bool_decide_eq_true.
  by rewrite <- list_elem_of_In.
Qed.

Lemma max_gen_le ps m : (max_gen ps <= m)%N <-> forall r, r ∈ ps -> (r_gen r <= m)%N.
Proof.
  unfold max_gen. induction ps as [|p ps IH]; cbn [fmap list_fmap foldr].
  - split; [|lia]. intros _ r Hr. by apply elem_of_nil in Hr.
  - rewrite N.max_lub_iff, IH. setoid_rewrite elem_of_cons. naive_solver.
Qed.

Lemma max_gen_ext ps qs : (forall r, r ∈ ps <-> r ∈ qs) -> max_gen ps = max_gen qs.
Proof.
  intros H. apply N.le_antisymm; apply max_gen_le; intros r Hr%H.
  - exact (proj1 (max_gen_le qs _) (N.le_refl _) r Hr).
  - exact (proj1 (max_gen_le ps _) (N.le_refl _) r Hr).
Qed.

Lemma check_missing_rows_spec expected actual :
  match check_missing_rows expected actual with
  | Ok _ => forall p, p ∈ expected -> exists r, r ∈ actual /\ r_cs_id r = p
  | Err (MissingParents ms) => ms <> [] /\
      forall p, p ∈ ms <-> p ∈ expected /\ forall r, r ∈ actual -> r_cs_id r <> p
  | _ => False
  end.
Proof.
  unfold check_missing_rows. set (diff := _ ∖ _).
  assert (forall p, p ∈ diff <-> p ∈ expected /\ forall r, r ∈ actual -> r_cs_id r <> p) as Hd.
  { intros p. unfold diff. rewrite elem_of_difference, !elem_of_list_to_set, list_elem_of_fmap. split.
    - intros [H1 H2]. split; [done|]. intros r Hr E. apply H2. by exists r.
    - intros [H1 H2]. split; [done|]. intros (r & -> & Hr). by apply (H2 r). }
  case_decide as E.
  - intros p Hp. destruct (decide (p ∈ r_cs_id <$> actual)) as [Hin|Hin].
    + apply list_elem_of_fmap in Hin as (r & -> & Hr). by exists r.
    + assert (p ∈ diff) as H; [|rewrite E in H; by apply not_elem_of_empty in H]. apply Hd. split; [done|].
      intros r Hr Er. apply Hin, list_elem_of_fmap. by exists r.
  - split.
    + intros E'. by apply E, leibniz_equiv, elements_empty_inv.
    + intros p. by rewrite elem_of_elements, Hd.
Qed.

Lemma parent_inserts_spec db repo id rows : wf db -> (forall r, r ∈ rows -> r ∈ changesets db /\ r_repo_id r = repo) ->
  NoDup rows -> forall parents k,
  (forall p, p ∈ parents -> exists r, r ∈ rows /\ r_cs_id r = p) ->
  exists ps, r_cs_id <$> ps = parents /\ Forall (fun r => r ∈ rows) ps /\
    parent_inserts id rows (N.of_nat k) parents = Ok (imap (fun i => parent_row id (k + i)) ps).
Proof.
  intros Hwf Hrows Hnd. induction parents as [|p parents IH]; intros k Hp; [by exists []|].
  destruct (Hp p ltac:(by left)) as (r & Hr & <-).
  destruct (IH (S k)) as (ps & <- & Hps & Hins); [intros q Hq; apply Hp; by right|].
  exists (r :: ps). split; [done|]. split; [by constructor|]. cbn [parent_inserts].
  unfold parent_id_of. rewrite (filter_unique _ _ r Hnd Hr).
  - cbn [last fmap option_fmap option_map expect]. rewrite bind_Ok.
    replace (N.of_nat k + 1)%N with (N.of_nat (S k)) by lia. rewrite Hins, bind_Ok. f_equal.
    rewrite imap_cons. f_equal; [unfold parent_row; by rewrite Nat.add_0_r|].
    apply imap_ext. intros i x _. unfold compose. f_equal. lia.
  - by apply bool_decide_true.
  - intros y Hy E%bool_decide_eq_true. destruct (Hrows y Hy), (Hrows r Hr).
    eapply (NoDup_fmap_inj key_of); [by apply wf_keys|done|done|]. unfold key_of. congruence.
Qed.

Lemma parents_in_app db rows' ps id :
  parents_in (mkDb rows' (csparents db ++ ps)) id
  = parents_in db id ++ List.filter (fun p => bool_decide (p_cs_id p = id)) ps.
Proof. unfold parents_in. simpl. apply List.filter_app. Qed.

(** The rows of a new changeset and of its parents. *)
Section insert.
Context (db : database) (Hwf : wf db) (new : changesets_row) (ps : list changesets_row).
Context (Hid : r_id new ∉ r_id <$> changesets db) (Hkey : key_of new ∉ key_of <$> changesets db).
Context (Hps : Forall (fun p => p ∈ changesets db /\ r_repo_id p = r_repo_id new) ps).
Context (Hgen : r_gen new = (1 + max_gen ps)%N).

Definition inserted : database :=
  mkDb (changesets db ++ [new]) (csparents db ++ imap (parent_row (r_id new)) ps).

Lemma inserted_old r qs : r ∈ changesets db -> row_parents db r qs -> row_parents inserted r qs.
Proof using Hid.
  intros Hr [Hq Hp]. split.
  - eapply Forall_impl; [exact Hq|]. intros q [Hq1 Hq2]. split; [|done]. apply elem_of_app. by left.
  - unfold inserted. rewrite parents_in_app, Hp, filter_none; [by rewrite app_nil_r|].
    intros p Hp'. apply elem_of_lookup_imap in Hp' as (i & q & -> & _). apply bool_decide_false.
    simpl. intros E. apply Hid. rewrite E. by apply list_elem_of_fmap_2.
Qed.

Lemma inserted_new : row_parents inserted new ps.
Proof using Hwf Hid Hps.
  split.
  - eapply Forall_impl; [exact Hps|]. intros q [Hq1 Hq2]. split; [|done]. apply elem_of_app. by left.
  - unfold inserted. rewrite parents_in_app. unfold parents_in. rewrite filter_none.
    + apply filter_all, Forall_forall. intros p (i & q & -> & _)%elem_of_lookup_imap. by apply bool_decide_true.
    + intros p Hp. apply bool_decide_false. intros E. apply Hid. rewrite <- E.
      by apply (wf_csparents db Hwf).
Qed.

Lemma inserted_wf : wf inserted.
Proof using Hwf Hid Hkey Hps Hgen.
  assert (max_gen ps <= lenN (changesets db))%N as Hmax.
  { apply max_gen_le. intros r Hr. rewrite Forall_forall in Hps. by apply (wf_gens db Hwf), Hps. }
  split; unfold inserted; cbn [changesets csparents].
  - rewrite fmap_app. apply NoDup_app. split; [by apply wf_ids|]. split; [|apply NoDup_singleton].
    intros x Hx ->%list_elem_of_singleton. done.
  - rewrite fmap_app. apply NoDup_app. split; [by apply wf_keys|]. split; [|apply NoDup_singleton].
    intros x Hx ->%list_elem_of_singleton. done.
  - intros r [Hr| ->%list_elem_of_singleton]%elem_of_app; [|by exists ps; split; [apply inserted_new|]].
    destruct (wf_rows db Hwf r Hr) as (qs & Hqs & Hg). exists qs. split; [|done].
    by apply inserted_old.
  - intros r [Hr| ->%list_elem_of_singleton]%elem_of_app.
    + pose proof (wf_gens db Hwf r Hr). unfold lenN in *. rewrite length_app. simpl. lia.
    + unfold lenN in *. rewrite length_app. simpl. lia.
  - intros p [Hp|(i & q & -> & _)%elem_of_lookup_imap]%elem_of_app; rewrite fmap_app.
    + apply elem_of_app. left. by apply (wf_csparents db Hwf).
    + apply elem_of_app. right. by left.
Qed.

Lemma inserted_select_new :
  select_changeset inserted (r_repo_id new) (r_cs_id new)
  = Some (mkEntry (r_repo_id new) (r_cs_id new) (r_cs_id <$> ps) (r_gen new)).
Proof using Hwf Hid Hkey Hps Hgen.
  apply select_row; [apply inserted_wf| |apply inserted_new]. apply elem_of_app. right. by left.
Qed.

Lemma inserted_select_old repo c :
  (repo, c) <> key_of new -> select_changeset inserted repo c = select_changeset db repo c.
Proof using Hwf Hid Hkey Hps Hgen.
  intros Hne. destruct (select_cases db Hwf repo c)
    as [(E & _ & Hno)|(r & qs & Hr & <- & <- & Hqs & _ & _ & E)]; rewrite E.
  - apply select_none. intros r [Hr| ->%list_elem_of_singleton]%elem_of_app; [by apply Hno|].
    intros [<- <-]. done.
  - apply select_row; [apply inserted_wf|apply elem_of_app; by left|by apply inserted_old].
Qed.
End insert.

Lemma fresh_id_spec rows : (1 + foldr N.max 0 (r_id <$> rows))%N ∉ r_id <$> rows.
Proof.
  assert (forall x, x ∈ r_id <$> rows -> (x <= foldr N.max 0 (r_id <$> rows))%N) as H.
  { induction rows as [|r rows IH]; intros x Hx; [by apply elem_of_nil in Hx|].
    rewrite fmap_cons in *. cbn [foldr]. apply elem_of_cons in Hx as [->|Hx]; [lia|].
    apply IH in Hx. lia. }
  intros Hx%H. lia.
Qed.

Definition stored (db : database) (repo_id : RepositoryId) (c : ChangesetId) : Prop :=
  is_Some (select_changeset db repo_id c).

Lemma stored_row db repo c :
  wf db -> stored db repo c <-> exists r, r ∈ changesets db /\ r_repo_id r = repo /\ r_cs_id r = c.
Proof.
  intros Hwf. unfold stored. destruct (select_cases db Hwf repo c)
    as [(E & _ & Hno)|(r & qs & Hr & H1 & H2 & _ & _ & _ & E)]; rewrite E.
  - split; [by intros [? [=]]|]. intros (r & Hr & Hk). by destruct (Hno r Hr).
  - split; [|by eexists]. intros _. by exists r.
Qed.

(** The generation of a changeset with these parents: one above the highest
    of theirs, and 1 when there are none. *)
Definition generation_above (db : database) (repo : RepositoryId) (parents : list ChangesetId) (g : N) : Prop :=
  (forall p, p ∈ parents -> exists e, select_changeset db repo p = Some e /\ (e_gen e < g)%N) /\
  (g = 1%N \/ exists p e, p ∈ parents /\ select_changeset db repo p = Some e /\ g = (1 + e_gen e)%N).

Lemma max_gen_attained ps : max_gen ps = 0%N \/ exists r, r ∈ ps /\ r_gen r = max_gen ps.
Proof.
  unfold max_gen. induction ps as [|p ps IH]; [by left|]. rewrite fmap_cons. cbn [foldr].
  destruct (N.max_spec (r_gen p) (foldr N.max 0%N (r_gen <$> ps))) as [[_ ->]|[_ ->]].
  - destruct IH as [->|(r & Hr & E)]; [by left|]. right. exists r. split; [by right|done].
  - right. exists p. split; [by left|done].
Qed.

Lemma generation_above_max db repo ps :
  wf db -> Forall (fun p => p ∈ changesets db /\ r_repo_id p = repo) ps ->
  generation_above db repo (r_cs_id <$> ps) (1 + max_gen ps).
Proof.
  intros Hwf Hps. rewrite Forall_forall in Hps.
  assert (forall r, r ∈ ps -> exists e, select_changeset db repo (r_cs_id r) = Some e /\ e_gen e = r_gen r) as Hsel.
  { intros r Hr. destruct (Hps r Hr) as [Hdb <-]. destruct (wf_rows db Hwf r Hdb) as (qs & Hqs & _).
    eexists. split; [by eapply select_row|done]. }
  split.
  - intros c (r & -> & Hr)%list_elem_of_fmap. destruct (Hsel r Hr) as (e & He & Hg). exists e. split; [done|].
    pose proof (proj1 (max_gen_le ps _) (N.le_refl _) r Hr). lia.
  - destruct (max_gen_attained ps) as [->|(r & Hr & <-)]; [by left|]. right.
    destruct (Hsel r Hr) as (e & He & Hg). exists (r_cs_id r), e. split; [by apply list_elem_of_fmap_2|].
    split; [done|]. by rewrite Hg.
Qed.

(** Of the rows that [add] looks up, and of what they leave out. *)
Lemma add_missing_parents db cs :
  wf db -> ~ Forall (stored db (i_repo_id cs)) (i_parents cs) ->
  exists ms, add db cs = (db, Err (MissingParents ms)) /\ ms <> [] /\
    forall p, p ∈ ms <-> p ∈ i_parents cs /\ ~ stored db (i_repo_id cs) p.
Proof.
  intros Hwf Hpar. unfold add. set (rows := match i_parents cs with [] => [] | _ => _ end).
  assert (forall p, p ∈ i_parents cs -> (exists r, r ∈ rows /\ r_cs_id r = p) <-> stored db (i_repo_id cs) p) as Hrows.
  { intros p Hp. rewrite stored_row by done. unfold rows.
    destruct (i_parents cs) as [|q ps]; [by apply elem_of_nil in Hp|].
    setoid_rewrite elem_of_select. split; [naive_solver|]. intros (r & Hr & <- & <-). by exists r. }
  pose proof (check_missing_rows_spec (i_parents cs) rows) as Hm.
  destruct (check_missing_rows (i_parents cs) rows) as [[]|[ms|]|]; [| |done|done].
  - destruct Hpar. apply Forall_forall. intros p Hp. by apply Hrows, Hm.
  - exists ms. destruct Hm as [Hne Hms]. split; [done|]. split; [done|]. intros p. rewrite Hms. split.
    + intros [Hp Hno]. split; [done|]. intros (r & Hr & E)%Hrows; [|done]. by apply (Hno r).
    + intros [Hp Hno]. split; [done|]. intros r Hr E. apply Hno, Hrows; [done|]. by exists r.
Qed.

(** What [add] does for a changeset whose parents are stored. *)
Lemma add_with_parents db cs :
  wf db -> (lenN (changesets db) < 2 ^ 64 - 1)%N ->
  (forall p, p ∈ i_parents cs -> stored db (i_repo_id cs) p) ->
  (stored db (i_repo_id cs) (i_cs_id cs) /\
   add db cs = (db, _ ← check_changeset_matches db cs; Ok false)) \/
  (~ stored db (i_repo_id cs) (i_cs_id cs) /\ exists db' g,
     add db cs = (db', Ok true) /\ wf db' /\
     select_changeset db' (i_repo_id cs) (i_cs_id cs)
     = Some (mkEntry (i_repo_id cs) (i_cs_id cs) (i_parents cs) g) /\
     generation_above db (i_repo_id cs) (i_parents cs) g /\
     length (changesets db') = S (length (changesets db)) /\
     forall repo c, (repo, c) <> (i_repo_id cs, i_cs_id cs) ->
       select_changeset db' repo c = select_changeset db repo c).
Proof.
  intros Hwf Hlen Hpar. unfold add.
  set (rows := match i_parents cs with [] => [] | _ => _ end).
  assert (forall r, r ∈ rows <-> r ∈ changesets db /\ r_repo_id r = i_repo_id cs /\ r_cs_id r ∈ i_parents cs) as Hrows.
  { intros r. unfold rows. destruct (i_parents cs) as [|p ps]; [|apply elem_of_select].
    split; [by intros ?%elem_of_nil|]. by intros (_ & _ & ?%elem_of_nil). }
  assert (NoDup rows) as Hnd.
  { unfold rows. destruct (i_parents cs); [constructor|]. unfold SelectChangesets.
    apply NoDup_ListNoDup, List.NoDup_filter, NoDup_ListNoDup. by eapply NoDup_fmap_1, wf_ids. }
  assert (forall p, p ∈ i_parents cs -> exists r, r ∈ rows /\ r_cs_id r = p) as Hfound.
  { intros p Hp. destruct (proj1 (stored_row _ _ _ Hwf) (Hpar p Hp)) as (r & Hr & H1 & H2). exists r.
    split; [|done]. apply Hrows. by subst. }
  pose proof (check_missing_rows_spec (i_parents cs) rows) as Hm.
  destruct (check_missing_rows (i_parents cs) rows) as [[]|[ms|]|]; [| |done|done].
  2: { destruct Hm as [Hne Hms]. destruct ms as [|p ms]; [done|].
       destruct (proj1 (Hms p) ltac:(by left)) as [Hp Hno]. destruct (Hfound p Hp) as (r & Hr & E).
       by destruct (Hno r Hr). }
  unfold InsertChangeset.
  destruct (select_cases db Hwf (i_repo_id cs) (i_cs_id cs))
    as [(E & -> & Hno)|(r & qs & Hr & H1 & H2 & _ & _ & -> & E)].
  2: { left. split; [unfold stored; by rewrite E|done]. }
  right. split; [unfold stored; rewrite E; by intros [? [=]]|].
  set (id := (1 + foldr N.max 0 (r_id <$> changesets db))%N).
  destruct (parent_inserts_spec db (i_repo_id cs) id rows Hwf) with (parents := i_parents cs) (k := 0)
    as (ps & Eps & Hps & Hins); [intros r Hr; apply Hrows in Hr; naive_solver|done|done|].
  assert (max_gen rows = max_gen ps) as Hmax.
  { apply max_gen_ext. rewrite Forall_forall in Hps. intros r. split; [|apply Hps]. intros Hr.
    pose proof (proj1 (Hrows r) Hr) as (H1 & H2 & H3). rewrite <- Eps in H3.
    apply list_elem_of_fmap in H3 as (r' & E' & Hr'). pose proof (proj1 (Hrows r') (Hps r' Hr')) as (H4 & H5 & _).
    assert (r = r') as ->; [|done]. eapply (NoDup_fmap_inj key_of); [by apply wf_keys|done|done|].
    unfold key_of. congruence. }
  assert (Forall (fun p => p ∈ changesets db /\ r_repo_id p = i_repo_id cs) ps) as Hpdb.
  { eapply Forall_impl; [exact Hps|]. intros r Hr%Hrows. naive_solver. }
  assert (max_gen ps <= lenN (changesets db))%N as Hle.
  { apply max_gen_le. intros r Hr. rewrite Forall_forall in Hpdb. by apply (wf_gens db Hwf), Hpdb. }
  fold (max_gen rows). rewrite Hmax, usize_add_small by lia. rewrite N.add_comm.
  set (new := mkRow id (i_repo_id cs) (i_cs_id cs) (1 + max_gen ps)).
  unfold insert_parents. change 0%N with (N.of_nat 0). rewrite Hins, bind_Ok.
  assert (r_id new ∉ r_id <$> changesets db) as Hid by apply fresh_id_spec.
  assert (key_of new ∉ key_of <$> changesets db) as Hkey.
  { intros (r & Er & Hr)%list_elem_of_fmap. unfold key_of in Er. simpl in Er. injection Er as E1 E2.
    by destruct (Hno r Hr). }
  exists (inserted db new ps), (1 + max_gen ps)%N. split; [done|].
  split; [by apply inserted_wf|]. split; [rewrite <- Eps; by apply (inserted_select_new db Hwf new ps)|].
  split; [rewrite <- Eps; by apply generation_above_max|].
  split; [unfold inserted; cbn [changesets]; rewrite length_app; simpl; lia|].
  intros repo c Hne. by apply inserted_select_old.
Qed.

(** C36. Adding a changeset to a well-formed table. It is stored, with its
    parents in order and a generation one above theirs, exactly when all its
    parents are stored and it is not, and nothing else changes; when it is
    stored already with the same parents the table stays the same; and each
    of the two errors is reported exactly in its case, with what is missing
    or what differs. *)
Theorem changesets_add_exact (db : database) (cs : ChangesetInsert) :
  wf db -> (lenN (changesets db) < 2 ^ 64 - 1)%N ->
  match add db cs with
  | (db', Ok true) =>
      wf db' /\ ~ stored db (i_repo_id cs) (i_cs_id cs) /\
      (exists g, select_changeset db' (i_repo_id cs) (i_cs_id cs)
                 = Some (mkEntry (i_repo_id cs) (i_cs_id cs) (i_parents cs) g) /\
                 generation_above db (i_repo_id cs) (i_parents cs) g) /\
      forall repo c, (repo, c) <> (i_repo_id cs, i_cs_id cs) ->
        select_changeset db' repo c = select_changeset db repo c
  | (db', Ok false) => db' = db /\ exists g,
      select_changeset db (i_repo_id cs) (i_cs_id cs)
      = Some (mkEntry (i_repo_id cs) (i_cs_id cs) (i_parents cs) g)
  | (db', Err (MissingParents ms)) => db' = db /\ ms <> [] /\
      forall p, p ∈ ms <-> p ∈ i_parents cs /\ ~ stored db (i_repo_id cs) p
  | (db', Err (DuplicateInsertionInconsistency c old new)) =>
      db' = db /\ c = i_cs_id cs /\ new = i_parents cs /\ old <> new /\
      exists g, select_changeset db (i_repo_id cs) c = Some (mkEntry (i_repo_id cs) c old g)
  | (_, Panic) => False
  end.
Proof.
  intros Hwf Hlen.
  destruct (decide (Forall (fun p => is_Some (select_changeset db (i_repo_id cs) p)) (i_parents cs))) as [Hp|Hp].
  2: { destruct (add_missing_parents db cs Hwf Hp) as (ms & -> & Hne & Hms). done. }
  rewrite Forall_forall in Hp.
  destruct (add_with_parents db cs Hwf Hlen Hp) as [[[e He] ->]|(Hno & db' & g & -> & Hwf' & Hs & Hg & _ & Hold)].
  2: { split; [done|]. split; [done|]. split; [by exists g|done]. }
  unfold check_changeset_matches. rewrite He.
  destruct (select_cases db Hwf (i_repo_id cs) (i_cs_id cs)) as [(E & _)|(r & qs & _ & _ & _ & _ & _ & _ & E)];
    [congruence|]. rewrite E in He. injection He as <-. cbn [fmap option_fmap option_map e_parents default].
  case_decide as Epar; rewrite ?bind_Ok; [|change (id _) with (r_cs_id <$> qs)].
  - injection Epar as Epar. split; [done|]. exists (r_gen r). by rewrite Epar.
  - split; [done|]. split; [done|]. split; [done|]. split; [congruence|]. by exists (r_gen r).
Qed.

(** ** The table as a changeset fetcher *)

Lemma wf_empty : wf empty_db.
Proof.
  split; simpl; try constructor; try (by intros r Hr%elem_of_nil). 
Qed.

(** The table after some more changesets were added, or failed to be. *)
Definition added (db db' : database) : Prop := exists cs, (add db cs).1 = db'.

Lemma added_length db db' : added db db' -> length (changesets db) <= length (changesets db').
Proof.
  intros [cs <-]. unfold add, insert_parents, InsertChangeset.
  destruct (check_missing_rows _ _); [|done|done].
  destruct (existsb _ _); [done|]. destruct (parent_inserts _ _ _ _); [|done|done].
  rewrite bind_Ok. simpl. rewrite length_app. simpl. lia.
Qed.

Lemma added_wf db db' :
  wf db -> (lenN (changesets db) < 2 ^ 64 - 1)%N -> added db db' ->
  wf db' /\ forall repo c e, select_changeset db repo c = Some e -> select_changeset db' repo c = Some e.
Proof.
  intros Hwf Hlen [cs <-].
  destruct (decide (Forall (fun p => is_Some (select_changeset db (i_repo_id cs) p)) (i_parents cs))) as [Hp|Hp].
  2: { destruct (add_missing_parents db cs Hwf Hp) as (ms & -> & _). done. }
  rewrite Forall_forall in Hp.
  destruct (add_with_parents db cs Hwf Hlen Hp) as [[_ ->]|(Hno & db' & g & -> & Hwf' & _ & _ & _ & Hold)]; [done|].
  split; [done|]. intros repo c e He. cbn [fst]. rewrite Hold; [done|]. intros E. injection E as -> ->.
  apply Hno. by exists e.
Qed.

Lemma history_wf db db' :
  wf db -> rtc added db db' -> (lenN (changesets db') < 2 ^ 64 - 1)%N ->
  wf db' /\ forall repo c e, select_changeset db repo c = Some e -> select_changeset db' repo c = Some e.
Proof.
  intros Hwf Hr Hlen. revert Hr Hlen. revert db'. refine (rtc_ind_r _ db _ _); [done|].
  intros y z _ Hyz IH Hlen. pose proof (added_length y z Hyz).
  destruct IH as [Hy Hsel]; [unfold lenN in *; lia|].
  destruct (added_wf y z Hy ltac:(unfold lenN in *; lia) Hyz) as [Hz Hsel']. split; [done|]. auto.
Qed.

Lemma generation_above_bound db repo ps g p :
  generation_above db repo ps g -> p ∈ ps -> exists e, select_changeset db repo p = Some e /\ (e_gen e < g)%N.
Proof. intros [H _]. apply H. Qed.

Lemma simple_fetcher_laws replica master repo :
  wf master ->
  (forall c e, select_changeset replica repo c = Some e -> select_changeset master repo c = Some e) ->
  FetcherLaws (F := simple_fetcher replica master repo) (stored master repo).
Proof.
  intros Hwf Hlag.
  assert (forall c, get replica master repo c = select_changeset master repo c) as Hget.
  { intros c. unfold get. destruct (select_changeset replica repo c) eqn:E; [|done]. symmetry. auto. }
  assert (forall c e, select_changeset master repo c = Some e ->
    generation_of (F := simple_fetcher replica master repo) c = e_gen e /\
    parents_of (F := simple_fetcher replica master repo) c = e_parents e) as Hof.
  { intros c e He. unfold generation_of, parents_of, get_generation_number, get_parents, simple_fetcher.
    by rewrite Hget, He. }
  assert (forall p c, stored master repo c -> parent (F := simple_fetcher replica master repo) p c ->
    exists e, select_changeset master repo p = Some e /\
      (e_gen e < generation_of (F := simple_fetcher replica master repo) c)%N) as Hpar.
  { intros p c [e He] Hp. destruct (Hof c e He) as [-> Eps]. unfold parent in Hp. rewrite Eps in Hp.
    destruct (select_cases master Hwf repo c) as [(E & _)|(r & qs & Hr & <- & <- & [Hq _] & Hg & _ & E)];
      [congruence|].
    rewrite E in He. injection He as <-. simpl in *. rewrite Hg.
    by apply (generation_above_bound _ _ _ _ _ (generation_above_max master (r_repo_id r) qs Hwf Hq)). }
  split.
  - intros c [e He]. destruct (Hof c e He) as [-> _].
    unfold get_generation_number, simple_fetcher. by rewrite Hget, He.
  - intros c [e He]. destruct (Hof c e He) as [_ ->].
    unfold get_parents, simple_fetcher. by rewrite Hget, He.
  - intros p c Hc Hp. destruct (Hpar p c Hc Hp) as (e & He & _). by exists e.
  - intros p c Hc Hp. destruct (Hpar p c Hc Hp) as (e & He & Hlt). by destruct (Hof p e He) as [-> _].
Qed.

(** Whatever has been added to the changesets table, and however far the
    replica that is read first lags behind the master, the changesets stored
    in the master form a graph that the algorithms on history can rely on:
    their entries are found, the parents of a stored changeset are stored,
    and generations grow from parents to children. *)
Theorem changesets_fetcher_lawful (replica master : database) (repo : RepositoryId) :
  rtc added empty_db replica -> rtc added replica master -> (lenN (changesets master) < 2 ^ 64 - 1)%N ->
  FetcherLaws (F := simple_fetcher replica master repo) (stored master repo).
Proof.
  intros Hr Hm Hlen.
  assert (length (changesets replica) <= length (changesets master)) as Hle.
  { clear -Hm. induction Hm as [|a b c Hab _ IH]; [done|]. apply added_length in Hab. lia. }
  destruct (history_wf empty_db replica wf_empty Hr) as [Hwr _]; [unfold lenN in *; lia|].
  destruct (history_wf replica master Hwr Hm Hlen) as [Hwm Hsel].
  apply simple_fetcher_laws; [done|]. intros c e. apply Hsel.
Qed.

(** ** An example: a merge in a table that the replica has the root of *)

Definition ex_cs (b : byte) : ChangesetId := mkChangesetId (mkBlake2 [b]).
Definition ex_insert (b : byte) (ps : list ChangesetId) : ChangesetInsert := mkInsert 0%N (ex_cs b) ps.

Definition ex_replica : database := (add empty_db (ex_insert x01 [])).1.
Definition ex_master : database :=
  foldl (fun db cs => (add db cs).1) ex_replica
    [ex_insert x02 [ex_cs x01]; ex_insert x03 [ex_cs x01]; ex_insert x04 [ex_cs x02; ex_cs x03];
     ex_insert x06 [ex_cs x07]; ex_insert x02 []].

Lemma ex_replica_history : rtc added empty_db ex_replica.
Proof. apply rtc_once. by eexists. Qed.

Lemma ex_master_history : rtc added ex_replica ex_master.
Proof.
  unfold ex_master. generalize ex_replica.
  generalize [ex_insert x02 [ex_cs x01]; ex_insert x03 [ex_cs x01]; ex_insert x04 [ex_cs x02; ex_cs x03];
     ex_insert x06 [ex_cs x07]; ex_insert x02 []].
  induction l as [|cs l IH]; intros db; [apply rtc_refl|]. eapply rtc_l; [by eexists|]. apply IH.
Qed.

Lemma changesets_add_exact_witness :
  wf ex_replica /\ select_changeset ex_replica 0%N (ex_cs x01) = Some (mkEntry 0%N (ex_cs x01) [] 1%N).
Proof.
  pose proof (changesets_add_exact empty_db (ex_insert x01 []) wf_empty) as H.
  split; [|vm_compute; reflexivity]. apply H. reflexivity.
Defined.

Lemma changesets_fetcher_lawful_witness :
  FetcherLaws (F := simple_fetcher ex_replica ex_master 0%N) (stored ex_master 0%N) /\
  get ex_replica ex_master 0%N (ex_cs x04) = Some (mkEntry 0%N (ex_cs x04) [ex_cs x02; ex_cs x03] 3%N).
Proof.
  split; [|vm_compute; reflexivity]. apply changesets_fetcher_lawful.
  - apply ex_replica_history.
  - apply ex_master_history.
  - vm_compute. reflexivity.
Defined.
