(* ===== verification/BonsaiHgMapping.v ===== *)
(** * The mapping between bonsai and Mercurial changesets

    Model of [src/bonsai_hg_mapping/src/lib.rs] with its schema
    ([src/bonsai_hg_mapping/schemas/sqlite-bonsai-hg-mapping.sql]), and of the
    wrapper that keeps writes in memory ([src/bonsai_hg_mapping/src/mem_writes.rs]).
    The trait is an interface with laws; both implementations have them. *)

From stdpp Require Import list.
From S2P Require Import Prelude Hash Bonsai Changesets.

Record BonsaiHgMappingEntry := mkMapping { repo_id : RepositoryId; hg_cs_id : HgNodeHash; bcs_id : ChangesetId }.

#[export] Instance BonsaiHgMappingEntry_eq_dec : EqDecision BonsaiHgMappingEntry.
Proof. solve_decision. Defined.

Inductive mapping_error :=
| ConflictingEntries (stored current : BonsaiHgMappingEntry)
| RaceConditionWithDelete (entry : BonsaiHgMappingEntry)
| CacheError.

Inductive BonsaiOrHgChangesetIds := BonsaiIds (l : list ChangesetId) | HgIds (l : list HgNodeHash).

Definition is_empty (ids : BonsaiOrHgChangesetIds) : bool :=
  match ids with BonsaiIds l => Nat.eqb (length l) 0 | HgIds l => Nat.eqb (length l) 0 end.

(** ** The trait *)

Class BonsaiHgMapping (S : Type) := {
  mapping_add : BonsaiHgMappingEntry -> eio mapping_error S bool;
  mapping_get : RepositoryId -> BonsaiOrHgChangesetIds -> eio mapping_error S (list BonsaiHgMappingEntry)
}.

Definition get_hg_from_bonsai {S} `{BonsaiHgMapping S} (repo : RepositoryId) (cs_id : ChangesetId) : eio mapping_error S (option HgNodeHash) :=
  result ← mapping_get repo (BonsaiIds [cs_id]); mret (hg_cs_id <$> head result).
Definition get_bonsai_from_hg {S} `{BonsaiHgMapping S} (repo : RepositoryId) (cs_id : HgNodeHash) : eio mapping_error S (option ChangesetId) :=
  result ← mapping_get repo (HgIds [cs_id]); mret (bcs_id <$> head result).

(** *** What it promises *)

(** An entry that is asked for. *)
Definition asked (repo : RepositoryId) (ids : BonsaiOrHgChangesetIds) (e : BonsaiHgMappingEntry) : Prop :=
  repo_id e = repo /\ match ids with BonsaiIds l => bcs_id e ∈ l | HgIds l => hg_cs_id e ∈ l end.

#[export] Instance asked_dec repo ids e : Decision (asked repo ids e).
Proof. unfold asked. destruct ids; apply _. Defined.

(** Entries of which there can be one. *)
Definition same_cs (e1 e2 : BonsaiHgMappingEntry) : Prop :=
  repo_id e1 = repo_id e2 /\ (hg_cs_id e1 = hg_cs_id e2 \/ bcs_id e1 = bcs_id e2).

#[export] Instance same_cs_dec e1 e2 : Decision (same_cs e1 e2).
Proof. unfold same_cs. apply _. Defined.

Definition one_to_one (V : BonsaiHgMappingEntry -> Prop) : Prop := forall e1 e2, V e1 -> V e2 -> same_cs e1 e2 -> e1 = e2.
Definition compatible (V : BonsaiHgMappingEntry -> Prop) (e : BonsaiHgMappingEntry) : Prop := forall e', V e' -> same_cs e' e -> e' = e.

(** Hashes of their length. *)
Definition valid_mapping (e : BonsaiHgMappingEntry) : Prop := valid_node (hg_cs_id e) /\ valid_blake2 (cs_blake2 (bcs_id e)).

(** [view] is what a state maps, where it is in order. *)
Class BonsaiHgMappingLaws (S : Type) `{BonsaiHgMapping S} := {
  view : S -> BonsaiHgMappingEntry -> Prop;
  in_order : S -> Prop;
  view_one_to_one s : in_order s -> one_to_one (view s);
  get_view repo ids s : in_order s -> exists s' l, mapping_get repo ids s = (s', Ok l) /\ in_order s' /\ (forall e, view s' e <-> view s e) /\
    forall e, e ∈ l <-> view s e /\ asked repo ids e;
  add_view e s : in_order s -> valid_mapping e -> compatible (view s) e -> exists s' b, mapping_add e s = (s', Ok b) /\ in_order s' /\
    (b = true <-> ~ view s e) /\ forall e', view s' e' <-> view s e' \/ e' = e
}.

(** ** [SqlBonsaiHgMapping] *)

(** The rows of the master and of the replica. *)
Record tables := mkTables { master : list BonsaiHgMappingEntry; replica : list BonsaiHgMappingEntry }.

(** [LIMIT 1] gives any row. *)
Class Limit1 := { limit1 : list BonsaiHgMappingEntry -> option BonsaiHgMappingEntry }.
Class Limit1Laws (L : Limit1) : Prop := {
  limit1_in l r : limit1 l = Some r -> r ∈ l;
  limit1_some l : l <> [] -> is_Some (limit1 l)
}.

(** [INSERT OR IGNORE], with the keys of the schema; the number of rows. *)
Definition InsertMapping (entry : BonsaiHgMappingEntry) (rows : list BonsaiHgMappingEntry) : list BonsaiHgMappingEntry * nat :=
  if existsb (fun r => bool_decide (same_cs r entry)) rows then (rows, 0) else (rows ++ [entry], 1).

Definition SelectMappingByBonsai (repo : RepositoryId) (bcs_ids : list ChangesetId) (rows : list BonsaiHgMappingEntry) : list BonsaiHgMappingEntry :=
  List.filter (fun r => bool_decide (repo_id r = repo) && bool_decide (bcs_id r ∈ bcs_ids)) rows.
Definition SelectMappingByHg (repo : RepositoryId) (hg_cs_ids : list HgNodeHash) (rows : list BonsaiHgMappingEntry) : list BonsaiHgMappingEntry :=
  List.filter (fun r => bool_decide (repo_id r = repo) && bool_decide (hg_cs_id r ∈ hg_cs_ids)) rows.
Definition SelectAnyMapping `{Limit1} (repo : RepositoryId) (hg : HgNodeHash) (bcs : ChangesetId) (rows : list BonsaiHgMappingEntry)
    : option BonsaiHgMappingEntry :=
  limit1 (List.filter (fun r => bool_decide (repo_id r = repo) && (bool_decide (hg_cs_id r = hg) || bool_decide (bcs_id r = bcs))) rows).

Definition select_mapping (rows : list BonsaiHgMappingEntry) (repo : RepositoryId) (cs_id : BonsaiOrHgChangesetIds) : list BonsaiHgMappingEntry :=
  if is_empty cs_id then []
  else match cs_id with BonsaiIds l => SelectMappingByBonsai repo l rows | HgIds l => SelectMappingByHg repo l rows end.

Definition filter_fetched_ids (cs : BonsaiOrHgChangesetIds) (mappings : list BonsaiHgMappingEntry) : BonsaiOrHgChangesetIds :=
  match cs with
  | BonsaiIds l => BonsaiIds (List.filter (fun cs => negb (bool_decide (cs ∈ bcs_id <$> mappings))) l)
  | HgIds l => HgIds (List.filter (fun cs => negb (bool_decide (cs ∈ hg_cs_id <$> mappings))) l)
  end.

Definition sql_add `{Limit1} (entry : BonsaiHgMappingEntry) : eio mapping_error tables bool := fun s =>
  let '(rows, affected_rows) := InsertMapping entry (master s) in
  let s := mkTables rows (replica s) in
  if Nat.eqb affected_rows 1 then (s, Ok true)
  else
    (s, match SelectAnyMapping (repo_id entry) (hg_cs_id entry) (bcs_id entry) (master s) with
        | Some row => if bool_decide (row = entry) then Ok false else Err (ConflictingEntries row entry)
        | None => Err (RaceConditionWithDelete entry)
        end).

Definition sql_get (repo : RepositoryId) (ids : BonsaiOrHgChangesetIds) (s : tables) : list BonsaiHgMappingEntry :=
  let mappings := select_mapping (replica s) repo ids in
  let left_to_fetch := filter_fetched_ids ids mappings in
  if is_empty left_to_fetch then mappings else mappings ++ select_mapping (master s) repo left_to_fetch.

#[export] Instance SqlBonsaiHgMapping `{Limit1} : BonsaiHgMapping tables := {|
  mapping_add := sql_add;
  mapping_get repo ids s := (s, Ok (sql_get repo ids s))
|}.

(** ** [MemWritesBonsaiHgMapping] *)

Record MemWrites (S : Type) := mkMem {
  hg_to_bcs : list ((RepositoryId * HgNodeHash) * ChangesetId);
  bcs_to_hg : list ((RepositoryId * ChangesetId) * HgNodeHash);
  ordered_inserts : list BonsaiHgMappingEntry;
  inner : S
}.
Arguments mkMem {S}.
Arguments hg_to_bcs {S}.
Arguments bcs_to_hg {S}.
Arguments ordered_inserts {S}.
Arguments inner {S}.

Section mem_writes.
Context {S : Type} `{BonsaiHgMapping S}.

Definition MemWrites_new (inner : S) : MemWrites S := mkMem [] [] [] inner.

Definition mem_insert (entry : BonsaiHgMappingEntry) (s : MemWrites S) : MemWrites S :=
  mkMem (hm_insert (repo_id entry, hg_cs_id entry) (bcs_id entry) (hg_to_bcs s))
    (hm_insert (repo_id entry, bcs_id entry) (hg_cs_id entry) (bcs_to_hg s)) (ordered_inserts s ++ [entry]) (inner s).

Definition with_inner (i : S) (s : MemWrites S) : MemWrites S := mkMem (hg_to_bcs s) (bcs_to_hg s) (ordered_inserts s) i.

Definition mem_add (entry : BonsaiHgMappingEntry) : eio mapping_error (MemWrites S) bool := fun s =>
  match hm_get (repo_id entry, bcs_id entry) (bcs_to_hg s) with
  | Some _ => (s, Ok false)
  | None =>
      match mapping_get (repo_id entry) (BonsaiIds [bcs_id entry]) (inner s) with
      | (i, Ok []) => (mem_insert entry (with_inner i s), Ok true)
      | (i, Ok _) => (with_inner i s, Ok false)
      | (i, Err e) => (with_inner i s, Err e)
      | (i, Panic) => (with_inner i s, Panic)
      end
  end.

(** What is mapped in memory. *)
Definition mem_lookup (repo : RepositoryId) (ids : BonsaiOrHgChangesetIds) (s : MemWrites S) : list BonsaiHgMappingEntry :=
  match ids with
  | BonsaiIds l => omap (fun bcs => (fun hg => mkMapping repo hg bcs) <$> hm_get (repo, bcs) (bcs_to_hg s)) l
  | HgIds l => omap (fun hg => (fun bcs => mkMapping repo hg bcs) <$> hm_get (repo, hg) (hg_to_bcs s)) l
  end.

Definition mem_get (repo : RepositoryId) (ids : BonsaiOrHgChangesetIds) : eio mapping_error (MemWrites S) (list BonsaiHgMappingEntry) := fun s =>
  let mappings := mem_lookup repo ids s in
  let left_to_fetch := filter_fetched_ids ids mappings in
  if is_empty left_to_fetch then (s, Ok mappings)
  else
    let '(i, r) := mapping_get repo left_to_fetch (inner s) in
    (with_inner i s, mappings_from_inner ← r; Ok (mappings ++ mappings_from_inner)).

#[export] Instance MemWritesBonsaiHgMapping : BonsaiHgMapping (MemWrites S) := {| mapping_add := mem_add; mapping_get := mem_get |}.
End mem_writes.

(** ** The table keeps the promises *)

(** The unique keys hold; the replica may lag behind. *)
Definition tables_ok (s : tables) : Prop := one_to_one (fun e => e ∈ master s) /\ replica s ⊆ master s.

Lemma select_mapping_in rows repo ids e : e ∈ select_mapping rows repo ids <-> e ∈ rows /\ asked repo ids e.
Proof.
  unfold select_mapping, asked. destruct ids as [l|l]; cbn [is_empty]; destruct l as [|x l]; cbn [length Nat.eqb];
    [set_solver| |set_solver|]; unfold SelectMappingByBonsai, SelectMappingByHg; rewrite filter_in, andb_true_iff, !bool_decide_eq_true; tauto.
Qed.

(** What is still to be fetched. *)
Lemma filter_fetched_asked repo ids mappings e : asked repo (filter_fetched_ids ids mappings) e <->
  asked repo ids e /\ match ids with BonsaiIds _ => bcs_id e ∉ bcs_id <$> mappings | HgIds _ => hg_cs_id e ∉ hg_cs_id <$> mappings end.
Proof. unfold asked. destruct ids; cbn; rewrite filter_in, negb_true_iff, bool_decide_eq_false; tauto. Qed.

Lemma is_empty_asked repo ids e : is_empty ids = true -> ~ asked repo ids e.
Proof. unfold asked. destruct ids as [[|x l]|[|x l]]; cbn; intros ?; [set_solver|done|set_solver|done]. Qed.

(** First some entries that are right, and then what is missing. *)
Lemma fetch_rest (V : BonsaiHgMappingEntry -> Prop) repo ids first rest : one_to_one V ->
  (forall e, e ∈ first -> V e /\ asked repo ids e) ->
  (forall e, V e -> asked repo ids e -> e ∈ first \/ ~ asked repo (filter_fetched_ids ids first) e \/ e ∈ rest) ->
  (forall e, e ∈ rest -> V e /\ asked repo ids e) ->
  forall e, e ∈ first ++ rest <-> V e /\ asked repo ids e.
Proof.
  intros Hone Hfirst Hsome Hrest e. rewrite elem_of_app. split; [intros [He|He]; [by apply Hfirst|by apply Hrest]|].
  intros [HV Ha]. destruct (Hsome e HV Ha) as [?|[Hno|?]]; [by left| |by right].
  rewrite filter_fetched_asked in Hno. left. destruct ids as [l|l].
  - destruct (decide (bcs_id e ∈ bcs_id <$> first)) as [(e' & He & Hin)%list_elem_of_fmap|]; [|by destruct Hno].
    destruct (Hfirst e' Hin) as [HV' [Hr' _]]. rewrite (Hone e e'); [done|done|done|]. split; [destruct Ha; congruence|]. by right.
  - destruct (decide (hg_cs_id e ∈ hg_cs_id <$> first)) as [(e' & He & Hin)%list_elem_of_fmap|]; [|by destruct Hno].
    destruct (Hfirst e' Hin) as [HV' [Hr' _]]. rewrite (Hone e e'); [done|done|done|]. split; [destruct Ha; congruence|]. by left.
Qed.

(** The master's entries, whatever the replica has of them. *)
Lemma sql_get_exact repo ids s e : tables_ok s -> e ∈ sql_get repo ids s <-> e ∈ master s /\ asked repo ids e.
Proof.
  intros [Hone Hsub]. unfold sql_get.
  assert (forall e, e ∈ select_mapping (replica s) repo ids -> e ∈ master s /\ asked repo ids e) as Hfirst.
  { intros x [Hx Ha]%select_mapping_in. split; [by apply Hsub|done]. }
  destruct (is_empty _) eqn:E.
  - rewrite <- (app_nil_r (select_mapping _ _ _)). apply (fetch_rest (fun e => e ∈ master s)); [done|done| |set_solver].
    intros x _ _. right. left. by apply is_empty_asked.
  - apply (fetch_rest (fun e => e ∈ master s)); [done|done| |].
    + intros x Hx _. destruct (decide (asked repo (filter_fetched_ids ids (select_mapping (replica s) repo ids)) x)); [|by right; left].
      right. right. by apply select_mapping_in.
    + intros x [Hx Ha]%select_mapping_in. split; [done|]. by apply filter_fetched_asked in Ha as [? _].
Qed.

Section sql.
Context {L : Limit1} {LL : Limit1Laws L}.

Lemma any_row rows entry : let l := List.filter (fun r => bool_decide (repo_id r = repo_id entry) &&
    (bool_decide (hg_cs_id r = hg_cs_id entry) || bool_decide (bcs_id r = bcs_id entry))) rows in
  forall r, r ∈ l <-> r ∈ rows /\ same_cs r entry.
Proof. intros l r. unfold l, same_cs. rewrite filter_in, andb_true_iff, orb_true_iff, !bool_decide_eq_true. tauto. Qed.

Lemma add_cases entry s : tables_ok s ->
  let '(s', r) := sql_add entry s in
  tables_ok s' /\ replica s' = replica s /\
  (((forall e, e ∈ master s -> ~ same_cs e entry) /\ r = Ok true /\ master s' = master s ++ [entry]) \/
   (entry ∈ master s /\ r = Ok false /\ s' = s) \/
   (entry ∉ master s /\ exists stored, stored ∈ master s /\ same_cs stored entry /\ r = Err (ConflictingEntries stored entry) /\ s' = s)).
Proof.
  intros Hok. pose proof Hok as [Hone Hsub]. unfold sql_add, InsertMapping.
  destruct (existsb (fun r => bool_decide (same_cs r entry)) (master s)) eqn:E.
  - apply existsb_exists in E as (r0 & Hr0%list_elem_of_In & Hs0%bool_decide_eq_true). cbn [Nat.eqb master].
    assert (mkTables (master s) (replica s) = s) as -> by by destruct s. unfold SelectAnyMapping. set (l := List.filter _ _).
    pose proof (any_row (master s) entry) as Hl. cbn zeta in Hl. fold l in Hl.
    destruct (limit1_some l) as [row Hrow]; [intros En; assert (r0 ∈ l) as Hin by by apply Hl|]; [rewrite En in Hin; by apply elem_of_nil in Hin|].
    rewrite Hrow. apply limit1_in, Hl in Hrow as [Hin Hsame]. split; [done|]. split; [done|]. right. case_bool_decide as Ee; [left; by subst|right].
    split; [|by exists row]. intros He. apply Ee. by apply Hone.
  - cbn [Nat.eqb]. assert (forall e, e ∈ master s -> ~ same_cs e entry) as Hno.
    { intros e He Hs. assert (existsb (fun r => bool_decide (same_cs r entry)) (master s) = true); [|congruence].
      apply existsb_exists. exists e. split; [by apply list_elem_of_In|by apply bool_decide_true]. }
    split; [|split; [done|by left]]. split; [|cbn; set_solver]. intros e1 e2. cbn. rewrite !elem_of_app, !list_elem_of_singleton.
    intros [H1| ->] [H2| ->] Hs; [by apply Hone|by destruct (Hno e1)| |done]. destruct (Hno e2 H2). destruct Hs as [? [?|?]]; split; auto.
Qed.

(** C20. [add] of the table: an entry that meets no other is added; one that is
    there is found; and with one that has one of its two changesets in another
    mapping nothing is changed and the conflict is reported, whichever row the
    query gives. The keys stay unique. *)
Theorem sql_add_exact entry s : tables_ok s ->
  let '(s', r) := sql_add entry s in
  tables_ok s' /\ replica s' = replica s /\
  (((forall e, e ∈ master s -> ~ same_cs e entry) /\ r = Ok true /\ master s' = master s ++ [entry]) \/
   (entry ∈ master s /\ r = Ok false /\ s' = s) \/
   (entry ∉ master s /\ exists stored, stored ∈ master s /\ same_cs stored entry /\ r = Err (ConflictingEntries stored entry) /\ s' = s)).
Proof. apply add_cases. Qed.

#[export] Program Instance SqlBonsaiHgMapping_laws : BonsaiHgMappingLaws tables := {| view s e := e ∈ master s; in_order := tables_ok |}.
Next Obligation. by intros s [? _]. Qed.
Next Obligation. intros repo ids s Hok. do 2 eexists. split; [done|]. split; [done|]. split; [done|]. intros e. by apply sql_get_exact. Qed.
Next Obligation.
  intros e s Hok _ Hc. pose proof (add_cases e s Hok) as H. cbn. destruct (sql_add e s) as [s' r]. destruct H as (Hok' & _ & Hcase). exists s'.
  destruct Hcase as [(Hno & -> & ->)|[(Hin & -> & ->)|(Hin & row & Hr & Hs & _)]].
  - exists true. split; [done|]. split; [done|]. split; [split; [|done]; intros _ Hin; apply (Hno e Hin); by split; [|left]|]. intros e'. by rewrite elem_of_app, list_elem_of_singleton.
  - exists false. split; [done|]. split; [done|]. split; [split; [done|by intros []]|]. intros e'. split; [by left|intros [?| ->]; done].
  - destruct Hin. by rewrite <- (Hc row Hr Hs).
Qed.
End sql.

(** ** So do writes in memory *)

Section mem.
Context {S : Type} {M : BonsaiHgMapping S} {ML : BonsaiHgMappingLaws S}.
Implicit Types s : MemWrites S.

Definition in_memory s (e : BonsaiHgMappingEntry) : Prop := hm_get (repo_id e, bcs_id e) (bcs_to_hg s) = Some (hg_cs_id e).
Definition mem_view s (e : BonsaiHgMappingEntry) : Prop := in_memory s e \/ view (inner s) e.

(** The two maps are inverse to each other. *)
Definition mem_ok s : Prop := in_order (inner s) /\ one_to_one (mem_view s) /\
  forall repo hg bcs, hm_get (repo, hg) (hg_to_bcs s) = Some bcs <-> hm_get (repo, bcs) (bcs_to_hg s) = Some hg.

Lemma mem_lookup_in repo ids s e : mem_ok s -> e ∈ mem_lookup repo ids s <-> in_memory s e /\ asked repo ids e.
Proof.
  intros (_ & _ & Hinv). unfold mem_lookup, in_memory, asked. destruct ids as [l|l]; rewrite list_elem_of_omap.
  - split.
    + intros (bcs & Hb & Hx). destruct (hm_get (repo, bcs) (bcs_to_hg s)) as [hg|] eqn:E; [|done]. injection Hx as <-. by cbn.
    + intros [He [Hr Hb]]. exists (bcs_id e). split; [done|]. rewrite <- Hr, He. cbn. by destruct e.
  - split.
    + intros (hg & Hb & Hx). destruct (hm_get (repo, hg) (hg_to_bcs s)) as [bcs|] eqn:E; [|done]. injection Hx as <-. cbn. by apply Hinv in E.
    + intros [He [Hr Hb]]. exists (hg_cs_id e). split; [done|]. apply Hinv in He. rewrite <- Hr, He. cbn. by destruct e.
Qed.

Lemma with_inner_ok i s : mem_ok s -> in_order i -> (forall e, view i e <-> view (inner s) e) ->
  mem_ok (with_inner i s) /\ forall e, mem_view (with_inner i s) e <-> mem_view s e.
Proof.
  intros (_ & Hone & Hinv) Hi Hv. assert (forall e, mem_view (with_inner i s) e <-> mem_view s e) as H.
  { intros e. unfold mem_view. cbn. by rewrite Hv. }
  split; [|done]. split; [done|]. split; [|done]. intros e1 e2 H1%H H2%H. by apply Hone.
Qed.

Lemma mem_get_view repo ids s : mem_ok s -> exists s' l, mem_get repo ids s = (s', Ok l) /\ mem_ok s' /\ (forall e, mem_view s' e <-> mem_view s e) /\
  forall e, e ∈ l <-> mem_view s e /\ asked repo ids e.
Proof.
  intros Hok. pose proof Hok as (Hin & Hone & _). unfold mem_get.
  assert (forall e, e ∈ mem_lookup repo ids s -> mem_view s e /\ asked repo ids e) as Hfirst.
  { intros x [Hx Ha]%mem_lookup_in; [|done]. split; [by left|done]. }
  destruct (is_empty _) eqn:E.
  - do 2 eexists. split; [done|]. split; [done|]. split; [done|]. rewrite <- (app_nil_r (mem_lookup repo ids s)). apply (fetch_rest (mem_view s)); [done|done| |set_solver].
    intros x _ _. right. left. by apply is_empty_asked.
  - destruct (get_view repo (filter_fetched_ids ids (mem_lookup repo ids s)) (inner s) Hin) as (i & rest & Er & Hi & Hv & Hrest). rewrite Er, bind_Ok.
    destruct (with_inner_ok i s Hok Hi Hv) as [Hok' Hview]. do 2 eexists. split; [done|]. split; [done|]. split; [done|]. apply (fetch_rest (mem_view s)); [done|done| |].
    + intros x [Hx|Hx] Ha; [left; by apply mem_lookup_in|right].
      destruct (decide (asked repo (filter_fetched_ids ids (mem_lookup repo ids s)) x)); [right; by apply Hrest|by left].
    + intros x [Hx Ha]%Hrest. split; [by right|]. by apply filter_fetched_asked in Ha as [? _].
Qed.

Lemma same_self e : same_cs e e.
Proof. split; [done|by left]. Qed.

Lemma mem_insert_ok e s : mem_ok s -> compatible (mem_view s) e -> ~ mem_view s e ->
  mem_ok (mem_insert e s) /\ forall e', mem_view (mem_insert e s) e' <-> mem_view s e' \/ e' = e.
Proof.
  intros (Hin & Hone & Hinv) Hc Hnew.
  assert (hm_get (repo_id e, bcs_id e) (bcs_to_hg s) = None) as Hb.
  { destruct (hm_get _ _) as [hg|] eqn:E; [|done]. destruct Hnew. rewrite <- (Hc (mkMapping (repo_id e) hg (bcs_id e))); [by left|by left|]. split; [done|by right]. }
  assert (hm_get (repo_id e, hg_cs_id e) (hg_to_bcs s) = None) as Hh.
  { destruct (hm_get (repo_id e, hg_cs_id e) (hg_to_bcs s)) as [bcs|] eqn:E; [|reflexivity]. destruct Hnew. apply Hinv in E.
    rewrite <- (Hc (mkMapping (repo_id e) (hg_cs_id e) bcs)); [by left|by left|]. split; [done|by left]. }
  assert (forall e', mem_view (mem_insert e s) e' <-> mem_view s e' \/ e' = e) as Hview.
  { intros [r h b]. unfold mem_view, in_memory, mem_insert. cbn. rewrite hm_get_insert. case_decide as Ek.
    - injection Ek as -> ->. rewrite Hb. destruct e as [re he be]. cbn in *. split; [intros [[= ->]|?]; auto|].
      intros [[?|Hv]|[= ->]]; [done|by right|by left].
    - split; [intros [?|?]; auto|]. intros [[?|?]|Heq]; [by left|by right|]. destruct Ek. by rewrite <- Heq. }
  split; [|done]. split; [done|]. split.
  - intros e1 e2 [H1| ->]%Hview [H2| ->]%Hview Hs; [by apply Hone|by apply Hc| |done]. symmetry. apply Hc; [done|].
    destruct Hs as [? [?|?]]; split; auto.
  - intros repo hg bcs. unfold mem_insert. cbn. rewrite !hm_get_insert. destruct (decide ((repo, hg) = (repo_id e, hg_cs_id e))) as [E1|E1].
    + injection E1 as -> ->. destruct (decide ((repo_id e, bcs) = (repo_id e, bcs_id e))) as [E2|E2]; [injection E2 as ->; done|].
      rewrite <- Hinv, Hh. split; [intros [= <-]; by destruct E2|done].
    + destruct (decide ((repo, bcs) = (repo_id e, bcs_id e))) as [E2|E2]; [|apply Hinv]. injection E2 as -> ->. rewrite Hinv, Hb.
      split; [done|]. intros [= <-]. by destruct E1.
Qed.

#[export] Program Instance MemWritesBonsaiHgMapping_laws : BonsaiHgMappingLaws (MemWrites S) := {| view := mem_view; in_order := mem_ok |}.
Next Obligation. by intros s (_ & ? & _). Qed.
Next Obligation. apply mem_get_view. Qed.
Next Obligation.
  intros e s Hok _ Hc. pose proof Hok as (Hin & Hone & Hinv). cbn [mapping_add MemWritesBonsaiHgMapping]. unfold mem_add.
  destruct (hm_get (repo_id e, bcs_id e) (bcs_to_hg s)) as [hg|] eqn:E.
  - assert (mem_view s e) as Hv.
    { rewrite <- (Hc (mkMapping (repo_id e) hg (bcs_id e))); [by left|by left|]. split; [done|by right]. }
    exists s, false. split; [done|]. split; [done|]. split; [split; [done|by intros []]|]. intros e'. split; [by left|intros [?| ->]; done].
  - destruct (get_view (repo_id e) (BonsaiIds [bcs_id e]) (inner s) Hin) as (i & l & -> & Hi & Hvi & Hl).
    destruct (with_inner_ok i s Hok Hi Hvi) as [Hok' Hview]. destruct l as [|x l].
    + assert (~ mem_view s e) as Hnew.
      { intros [Hm|Hm]; [unfold in_memory in Hm; congruence|]. apply (not_elem_of_nil e), Hl. split; [done|]. split; [done|by apply list_elem_of_singleton]. }
      destruct (mem_insert_ok e (with_inner i s) Hok') as [Hok2 Hview2]; [intros e' He'%Hview; by apply Hc|by rewrite Hview|].
      exists (mem_insert e (with_inner i s)), true. split; [done|]. split; [done|]. split; [done|]. intros e'. by rewrite Hview2, Hview.
    + assert (mem_view s e) as Hv.
      { destruct (proj1 (Hl x)) as [Hx [Hr Hb]]; [by left|]. apply list_elem_of_singleton in Hb. rewrite <- (Hc x); [by right|by right|]. split; [done|by right]. }
      exists (with_inner i s), false. split; [done|]. split; [done|]. split; [split; [done|by intros []]|]. intros e'. rewrite Hview.
      split; [by left|intros [?| ->]; done].
Qed.
End mem.

(** ** What clients rely on *)

Section client.
Context {S : Type} {M : BonsaiHgMapping S} {ML : BonsaiHgMappingLaws S}.

Lemma head_one (l : list BonsaiHgMappingEntry) e : (forall e', e' ∈ l <-> e' = e) -> head l = Some e.
Proof. intros H. destruct l as [|x l]; [exfalso; apply (not_elem_of_nil e); by apply H|]. cbn. f_equal. apply H. by left. Qed.

(** Whatever keeps the mapping, the table or memory in front of another
    mapping: an entry that meets no other is added, and afterwards each of its
    changesets is mapped to the other, and every other entry that was there
    is there. *)
Theorem mapping_after_add e s : in_order s -> valid_mapping e -> compatible (view s) e ->
  exists s' b, mapping_add e s = (s', Ok b) /\ in_order s' /\
    (get_hg_from_bonsai (repo_id e) (bcs_id e) s').2 = Ok (Some (hg_cs_id e)) /\
    (get_bonsai_from_hg (repo_id e) (hg_cs_id e) s').2 = Ok (Some (bcs_id e)) /\
    forall e', view s e' -> (get_hg_from_bonsai (repo_id e') (bcs_id e') s').2 = Ok (Some (hg_cs_id e')).
Proof.
  intros Hok Hval Hc. destruct (add_view e s Hok Hval Hc) as (s' & b & Ea & Hok' & _ & Hview). exists s', b. split; [done|]. split; [done|].
  assert (forall ids e', view s' e' -> asked (repo_id e') ids e' -> (forall x, asked (repo_id e') ids x -> same_cs x e') ->
    exists s2 l, mapping_get (repo_id e') ids s' = (s2, Ok l) /\ head l = Some e') as Hget.
  { intros ids e' Hv Ha Hs. destruct (get_view (repo_id e') ids s' Hok') as (s2 & l & El & _ & _ & Hl). exists s2, l. split; [done|]. apply head_one. intros x. rewrite Hl.
    split; [|by intros ->]. intros [Hx Hax]. apply (view_one_to_one s'); [done|done|done|by apply Hs]. }
  assert (forall e', view s' e' -> (get_hg_from_bonsai (repo_id e') (bcs_id e') s').2 = Ok (Some (hg_cs_id e'))) as Hhg.
  { intros e' Hv. destruct (Hget (BonsaiIds [bcs_id e']) e' Hv) as (s2 & l & El & Eh); [split; [done|by left]| |].
    - intros x [Hr Hb%list_elem_of_singleton]. split; [done|by right].
    - unfold get_hg_from_bonsai, mbind, eio_bind. rewrite El. cbn. by rewrite Eh. }
  assert (view s' e) as He by (apply Hview; by right). split; [by apply Hhg|]. split.
  - destruct (Hget (HgIds [hg_cs_id e]) e He) as (s2 & l & El & Eh); [split; [done|by left]| |].
    + intros x [Hr Hb%list_elem_of_singleton]. split; [done|by left].
    + unfold get_bonsai_from_hg, mbind, eio_bind. rewrite El. cbn. by rewrite Eh.
  - intros e' Hv. apply Hhg, Hview. by left.
Qed.
End client.

(** ** Examples *)

Section example.
#[local] Instance first_row : Limit1 := {| limit1 l := head l |}.
#[local] Instance first_row_laws : Limit1Laws first_row.
Proof. split; intros [|x l]; cbn; [done|intros r [= <-]; by left|done|by eexists]. Qed.

Definition map_hg (b : byte) : HgNodeHash := mkNode (mkSha1 (replicate 20 b)).
Definition map_bcs (b : byte) : ChangesetId := mkChangesetId (mkBlake2 (replicate 32 b)).
Definition map_row (h b : byte) : BonsaiHgMappingEntry := mkMapping 0%N (map_hg h) (map_bcs b).

(** A master with a row that the replica does not have yet. *)
Definition map_tables : tables := mkTables [map_row x01 x01] [].

Lemma map_tables_ok : tables_ok map_tables.
Proof. split; [|set_solver]. intros e1 e2 H1%list_elem_of_singleton H2%list_elem_of_singleton _. congruence. Qed.

Lemma sql_add_exact_witness : (sql_add (map_row x01 x02) map_tables).2 = Err (ConflictingEntries (map_row x01 x01) (map_row x01 x02)).
Proof.
  pose proof (sql_add_exact (map_row x01 x02) map_tables map_tables_ok) as H. destruct (sql_add (map_row x01 x02) map_tables) as [s r].
  destruct H as (_ & _ & [(Hno & _)|[(Hin & _)|(_ & row & Hrow & _ & -> & _)]]).
  - destruct (Hno (map_row x01 x01)); [by left|]. split; [done|by left].
  - apply list_elem_of_singleton in Hin. discriminate.
  - apply list_elem_of_singleton in Hrow. by rewrite Hrow.
Defined.

Lemma mapping_after_add_witness : exists s b, mapping_add (map_row x02 x02) (MemWrites_new map_tables) = (s, Ok b) /\
  (get_hg_from_bonsai 0%N (map_bcs x02) s).2 = Ok (Some (map_hg x02)) /\ (get_hg_from_bonsai 0%N (map_bcs x01) s).2 = Ok (Some (map_hg x01)).
Proof.
  destruct (mapping_after_add (map_row x02 x02) (MemWrites_new map_tables)) as (s & b & E & _ & H1 & _ & H2).
  - split; [exact map_tables_ok|]. split; [|by intros repo hg bcs].
    intros e1 e2 [?|H1%list_elem_of_singleton] [?|H2%list_elem_of_singleton] _; [done|done|done|congruence].
  - by split.
  - intros e' [?|H%list_elem_of_singleton] [_ [Hs|Hs]]; [done|done|subst e'; discriminate Hs|subst e'; discriminate Hs].
  - exists s, b. split; [exact E|]. split; [exact H1|]. exact (H2 (map_row x01 x01) (or_intror (proj2 (list_elem_of_singleton _ _) eq_refl))).
Defined.

(** A second bonsai changeset for a Mercurial changeset: the table refuses it,
    in memory it is taken, and then the two directions disagree. *)
Definition conflicting : MemWrites tables := (mapping_add (map_row x02 x03) (mapping_add (map_row x02 x02) (MemWrites_new map_tables)).1).1.

Example memory_takes_conflicts : (get_bonsai_from_hg 0%N (map_hg x02) conflicting).2 = Ok (Some (map_bcs x03)) /\
  (get_hg_from_bonsai 0%N (map_bcs x02) conflicting).2 = Ok (Some (map_hg x02)).
Proof. vm_compute. by split. Qed.
End example.
