(* ===== verification/Bookmarks.v ===== *)
(** * Bookmarks

    Model of [SqlBookmarks] and its transactions in
    [src/bookmarks/dbbookmarks/src/lib.rs] (schema in [schemas/]), and of the
    types of [src/bookmarks/src/lib.rs]. The SQL statements of the source are
    written out over the tables; a SQL transaction that is not committed
    leaves them as they were. *)

From stdpp Require Import fin_maps.
From S2P Require Import Prelude Hash Bonsai Graph Changesets.

(** [Bookmark] is an ASCII string. *)
Record Bookmark := mkBookmark { bookmark : bytes }.

#[export] Instance Bookmark_eq_dec : EqDecision Bookmark.
Proof. solve_decision. Defined.
#[export] Instance Bookmark_countable : Countable Bookmark.
Proof.
  refine {| encode b := encode (bookmark b); decode p := mkBookmark <$> decode p |}.
  intros [b]. simpl. by rewrite decode_encode.
Defined.

Record BundleReplayData := mkReplay {
  bundle_handle : bytes;
  commit_timestamps : list (HgNodeHash * Z)
}.

Inductive BookmarkUpdateReason :=
| Pushrebase (bundle_replay_data : option BundleReplayData)
| Push (bundle_replay_data : option BundleReplayData)
| Blobimport
| ManualMove
| TestMove (bundle_replay_data : option BundleReplayData).

Inductive bookmark_error :=
| BookmarkAlreadyUsed (key : Bookmark)
| JsonFailed
| ReplayDataNotAllowed
| InconsistentReplayData.

(** ** The tables *)

(** The [reason] column has the kind of the move only. *)
Record log_row := mkLog {
  l_id : N;
  l_repo_id : RepositoryId;
  l_name : Bookmark;
  l_from : option ChangesetId;
  l_to : option ChangesetId;
  l_reason : BookmarkUpdateReason;
  l_timestamp : Z
}.

Record replay_row := mkReplayRow { r_log_id : N; r_bundle_handle : bytes; r_commit_hashes_json : bytes }.

Record tables := mkTables {
  bookmarks : gmap (RepositoryId * Bookmark) ChangesetId;
  update_log : list log_row;
  replay_data : list replay_row
}.

Definition reason_kind (r : BookmarkUpdateReason) : BookmarkUpdateReason :=
  match r with
  | Pushrebase _ => Pushrebase None
  | Push _ => Push None
  | TestMove _ => TestMove None
  | r => r
  end.

(** The rows of [bookmarks]: (repo_id, name) is the primary key. *)
Abbreviation table := (gmap (RepositoryId * Bookmark) ChangesetId).

(** ** Transactions *)

Record BookmarkSetData := mkSetData { new_cs : ChangesetId; old_cs : ChangesetId }.

Record SqlBookmarksTransaction := mkTxn {
  repo_id : RepositoryId;
  force_sets : gmap Bookmark (ChangesetId * BookmarkUpdateReason);
  creates : gmap Bookmark (ChangesetId * BookmarkUpdateReason);
  sets : gmap Bookmark (BookmarkSetData * BookmarkUpdateReason);
  force_deletes : gmap Bookmark BookmarkUpdateReason;
  deletes : gmap Bookmark (ChangesetId * BookmarkUpdateReason)
}.

Definition create_transaction (repo_id : RepositoryId) : SqlBookmarksTransaction :=
  mkTxn repo_id ∅ ∅ ∅ ∅ ∅.

Definition check_if_bookmark_already_used (t : SqlBookmarksTransaction) (key : Bookmark)
    : outcome bookmark_error unit :=
  if bool_decide (is_Some (creates t !! key)) || bool_decide (is_Some (force_sets t !! key)) ||
     bool_decide (is_Some (sets t !! key)) || bool_decide (is_Some (force_deletes t !! key)) ||
     bool_decide (is_Some (deletes t !! key))
  then Err (BookmarkAlreadyUsed key) else Ok tt.

Definition txn_update (t : SqlBookmarksTransaction) (key : Bookmark) (new old : ChangesetId)
    (reason : BookmarkUpdateReason) : outcome bookmark_error SqlBookmarksTransaction :=
  _ ← check_if_bookmark_already_used t key;
  Ok (mkTxn (repo_id t) (force_sets t) (creates t) (<[key := (mkSetData new old, reason)]> (sets t))
        (force_deletes t) (deletes t)).

Definition txn_create (t : SqlBookmarksTransaction) (key : Bookmark) (new : ChangesetId)
    (reason : BookmarkUpdateReason) : outcome bookmark_error SqlBookmarksTransaction :=
  _ ← check_if_bookmark_already_used t key;
  Ok (mkTxn (repo_id t) (force_sets t) (<[key := (new, reason)]> (creates t)) (sets t)
        (force_deletes t) (deletes t)).

Definition txn_force_set (t : SqlBookmarksTransaction) (key : Bookmark) (new : ChangesetId)
    (reason : BookmarkUpdateReason) : outcome bookmark_error SqlBookmarksTransaction :=
  _ ← check_if_bookmark_already_used t key;
  Ok (mkTxn (repo_id t) (<[key := (new, reason)]> (force_sets t)) (creates t) (sets t)
        (force_deletes t) (deletes t)).

Definition txn_delete (t : SqlBookmarksTransaction) (key : Bookmark) (old : ChangesetId)
    (reason : BookmarkUpdateReason) : outcome bookmark_error SqlBookmarksTransaction :=
  _ ← check_if_bookmark_already_used t key;
  Ok (mkTxn (repo_id t) (force_sets t) (creates t) (sets t) (force_deletes t)
        (<[key := (old, reason)]> (deletes t))).

Definition txn_force_delete (t : SqlBookmarksTransaction) (key : Bookmark)
    (reason : BookmarkUpdateReason) : outcome bookmark_error SqlBookmarksTransaction :=
  _ ← check_if_bookmark_already_used t key;
  Ok (mkTxn (repo_id t) (force_sets t) (creates t) (sets t) (<[key := reason]> (force_deletes t))
        (deletes t)).

Section commit.
Context {MO : MapOrder} (to_json : list (HgNodeHash * Z) -> option bytes).

(** The rows of [log_rows]: from, to and why. *)
Definition move := (option ChangesetId * option ChangesetId * BookmarkUpdateReason)%type.

(** Each group of moves overwrites what the groups before it inserted. *)
Definition log_rows (t : SqlBookmarksTransaction) : gmap Bookmark move :=
  ((fun '(from, r) => (Some from, None, r)) <$> deletes t) ∪
  ((fun r => (None, None, r)) <$> force_deletes t) ∪
  ((fun '(d, r) => (Some (old_cs d), Some (new_cs d), r)) <$> sets t) ∪
  ((fun '(to, r) => (None, Some to, r)) <$> creates t) ∪
  ((fun '(to, r) => (None, Some to, r)) <$> force_sets t).

(** [ReplaceBookmarks]. *)
Definition replace_bookmarks (repo : RepositoryId) (rows : list (Bookmark * ChangesetId)) (tb : table)
    : table :=
  foldl (fun tb '(name, cs) => <[(repo, name) := cs]> tb) tb rows.

(** [InsertBookmarks]: what is there already is ignored; also the number of
    rows inserted. *)
Definition insert_bookmarks (repo : RepositoryId) (rows : list (Bookmark * ChangesetId)) (tb : table)
    : table * nat :=
  foldl (fun '(tb, n) '(name, cs) =>
           match tb !! (repo, name) with
           | Some _ => (tb, n)
           | None => (<[(repo, name) := cs]> tb, S n)
           end) (tb, 0) rows.

(** The loop over [sets]; [None] reverts the transaction. *)
Definition update_bookmark (repo : RepositoryId) (tb : table) (name : Bookmark) (d : BookmarkSetData)
    : option table :=
  if decide (new_cs d = old_cs d) then
    if decide (tb !! (repo, name) = Some (new_cs d)) then Some tb else None
  else if decide (tb !! (repo, name) = Some (old_cs d)) then Some (<[(repo, name) := new_cs d]> tb)
  else None.

Fixpoint update_bookmarks (repo : RepositoryId) (updates : list (Bookmark * BookmarkSetData)) (tb : table)
    : option table :=
  match updates with
  | [] => Some tb
  | (name, d) :: updates => tb ← update_bookmark repo tb name d; update_bookmarks repo updates tb
  end.

Definition delete_bookmarks (repo : RepositoryId) (names : list Bookmark) (tb : table) : table :=
  foldl (fun tb name => delete (repo, name) tb) tb names.

(** [DeleteBookmarkIf] for each of [deletes]. *)
Fixpoint delete_bookmarks_if (repo : RepositoryId) (rows : list (Bookmark * ChangesetId)) (tb : table)
    : option table :=
  match rows with
  | [] => Some tb
  | (name, old) :: rows =>
      if decide (tb !! (repo, name) = Some old)
      then delete_bookmarks_if repo rows (delete (repo, name) tb)
      else None
  end.

Definition next_log_id (log : list log_row) : N := (1 + foldr N.max 0 (l_id <$> log))%N.

Definition replay_of (reason : BookmarkUpdateReason) : option BundleReplayData :=
  match reason with
  | Pushrebase d | Push d | TestMove d => d
  | _ => None
  end.

Definition log_bundle_replay_data (id : N) (reason : BookmarkUpdateReason) (rows : list replay_row)
    : outcome bookmark_error (list replay_row) :=
  match replay_of reason with
  | Some d =>
      json ← ok_or (to_json (commit_timestamps d)) JsonFailed;
      Ok (rows ++ [mkReplayRow id (bundle_handle d) json])
  | None => Ok rows
  end.

Fixpoint log_bookmark_moves (repo : RepositoryId) (timestamp : Z) (moves : list (Bookmark * move))
    (log : list log_row) (rows : list replay_row)
    : outcome bookmark_error (list log_row * list replay_row) :=
  match moves with
  | [] => Ok (log, rows)
  | (name, (from, to, reason)) :: moves =>
      let id := next_log_id log in
      let log := log ++ [mkLog id repo name from to (reason_kind reason) timestamp] in
      rows ← log_bundle_replay_data id reason rows;
      log_bookmark_moves repo timestamp moves log rows
  end.

(** The moves of the table, before the log is written; [None] when the
    transaction is to be reverted. *)
Definition move_bookmarks (t : SqlBookmarksTransaction) (tb : table) : option table :=
  let repo := repo_id t in
  let tb := replace_bookmarks repo (prod_map id fst <$> map_order (force_sets t)) tb in
  let rows := prod_map id fst <$> map_order (creates t) in
  let '(tb, affected) := insert_bookmarks repo rows tb in
  if negb (Nat.eqb affected (length rows)) then None else
  tb ← update_bookmarks repo (prod_map id fst <$> map_order (sets t)) tb;
  let tb := delete_bookmarks repo ((map_order (force_deletes t)).*1) tb in
  delete_bookmarks_if repo (prod_map id fst <$> map_order (deletes t)) tb.

Definition commit (t : SqlBookmarksTransaction) (now : Z) (db : tables)
    : tables * outcome bookmark_error bool :=
  match move_bookmarks t (bookmarks db) with
  | None => (db, Ok false)
  | Some tb =>
      match log_bookmark_moves (repo_id t) now (map_order (log_rows t)) (update_log db) (replay_data db) with
      | Ok (log, rows) => (mkTables tb log rows, Ok true)
      | Err e => (db, Err e)
      | Panic => (db, Panic)
      end
  end.
End commit.

(** [get]. *)
Definition get_bookmark (db : tables) (name : Bookmark) (repo : RepositoryId) : option ChangesetId :=
  bookmarks db !! (repo, name).

(** ** The log *)

Record BookmarkUpdateLogEntry := mkLogEntry {
  le_id : N;
  le_repo_id : RepositoryId;
  le_bookmark_name : Bookmark;
  le_to : option ChangesetId;
  le_from : option ChangesetId;
  le_reason : BookmarkUpdateReason;
  le_timestamp : Z
}.

Definition update_bundle_replay_data (r : BookmarkUpdateReason) (d : option BundleReplayData)
    : outcome bookmark_error BookmarkUpdateReason :=
  match r with
  | Pushrebase _ => Ok (Pushrebase d)
  | Push _ => Ok (Push d)
  | TestMove _ => Ok (TestMove d)
  | Blobimport | ManualMove =>
      match d with Some _ => Err ReplayDataNotAllowed | None => Ok r end
  end.

(** [ReadNextBookmarkLogEntry]: the entry with the lowest id above [id]. *)
Definition lowest_row (rows : list log_row) : option log_row :=
  foldr (fun r acc => match acc with
                      | Some s => if (l_id r <=? l_id s)%N then Some r else Some s
                      | None => Some r
                      end) None rows.

Definition further_entries (db : tables) (id : N) (repo : RepositoryId) : list log_row :=
  List.filter (fun r => (id <? l_id r)%N && (l_repo_id r =? repo)%N) (update_log db).

Section read_log.
Context (from_json : bytes -> option (list (HgNodeHash * Z))).

Definition get_bundle_replay_data (row : option replay_row) : outcome bookmark_error (option BundleReplayData) :=
  match row with
  | Some r => ts ← ok_or (from_json (r_commit_hashes_json r)) JsonFailed;
              Ok (Some (mkReplay (r_bundle_handle r) ts))
  | None => Ok None
  end.

Definition read_next_bookmark_log_entry (db : tables) (id : N) (repo : RepositoryId)
    : outcome bookmark_error (option BookmarkUpdateLogEntry) :=
  match lowest_row (further_entries db id repo) with
  | None => Ok None
  | Some r =>
      d ← get_bundle_replay_data (head (List.filter (fun x => (r_log_id x =? l_id r)%N) (replay_data db)));
      reason ← update_bundle_replay_data (l_reason r) d;
      Ok (Some (mkLogEntry (l_id r) (l_repo_id r) (l_name r) (l_to r) (l_from r) reason (l_timestamp r)))
  end.
End read_log.

Definition count_further_bookmark_log_entries (db : tables) (id : N) (repo : RepositoryId) : N :=
  lenN (further_entries db id repo).

(** ** Transactions use a bookmark once *)

Definition txn_wf (t : SqlBookmarksTransaction) : Prop := forall b,
  (is_Some (force_sets t !! b) -> creates t !! b = None /\ sets t !! b = None /\
     force_deletes t !! b = None /\ deletes t !! b = None) /\
  (is_Some (creates t !! b) -> sets t !! b = None /\ force_deletes t !! b = None /\ deletes t !! b = None) /\
  (is_Some (sets t !! b) -> force_deletes t !! b = None /\ deletes t !! b = None) /\
  (is_Some (force_deletes t !! b) -> deletes t !! b = None).

(** The transactions that the operations make. *)
Inductive built : SqlBookmarksTransaction -> Prop :=
| built_new repo : built (create_transaction repo)
| built_update t key new old r t' : built t -> txn_update t key new old r = Ok t' -> built t'
| built_create t key new r t' : built t -> txn_create t key new r = Ok t' -> built t'
| built_force_set t key new r t' : built t -> txn_force_set t key new r = Ok t' -> built t'
| built_delete t key old r t' : built t -> txn_delete t key old r = Ok t' -> built t'
| built_force_delete t key r t' : built t -> txn_force_delete t key r = Ok t' -> built t'.

Lemma not_used t key :
  check_if_bookmark_already_used t key = Ok tt ->
  creates t !! key = None /\ force_sets t !! key = None /\ sets t !! key = None /\
  force_deletes t !! key = None /\ deletes t !! key = None.
Proof.
  unfold check_if_bookmark_already_used. intros H.
  assert (forall A (o : option A), bool_decide (is_Some o) = false -> o = None) as Hno.
  { intros A [a|] E; [|done]. apply bool_decide_eq_false in E. destruct E. by eexists. }
  destruct (_ || _) eqn:E; [done|]. repeat apply orb_false_iff in E as [E ?]. auto 10.
Qed.

Lemma lookup_insert_cases {A} (m : gmap Bookmark A) key b x :
  (b = key /\ <[key := x]> m !! b = Some x) \/ (b <> key /\ <[key := x]> m !! b = m !! b).
Proof.
  destruct (decide (b = key)) as [->|Hne]; [left|right].
  - by rewrite lookup_insert_eq.
  - by rewrite lookup_insert_ne.
Qed.

Lemma built_wf t : built t -> txn_wf t.
Proof.
  induction 1 as [repo|t key new old r t' _ IH H|t key new r t' _ IH H|t key new r t' _ IH H|t key old r t' _ IH H
                 |t key r t' _ IH H]; [intros b; simpl; rewrite !lookup_empty; repeat split|..];
    apply bind_Ok_inv in H as ([] & (H1 & H2 & H3 & H4 & H5)%not_used & [= <-]); intros b; specialize (IH b); simpl.
  - destruct (lookup_insert_cases (sets t) key b (mkSetData new old, r)) as [[-> ->]|[_ ->]]; [|done].
    rewrite H1, H2, H4, H5. repeat split; try done; by intros [? ?].
  - destruct (lookup_insert_cases (creates t) key b (new, r)) as [[-> ->]|[_ ->]]; [|done].
    rewrite H2, H3, H4, H5. repeat split; try done; by intros [? ?].
  - destruct (lookup_insert_cases (force_sets t) key b (new, r)) as [[-> ->]|[_ ->]]; [|done].
    rewrite H1, H3, H4, H5. repeat split; try done; by intros [? ?].
  - destruct (lookup_insert_cases (deletes t) key b (old, r)) as [[-> ->]|[_ ->]]; [|done].
    rewrite H1, H2, H3, H4. repeat split; try done; by intros [? ?].
  - destruct (lookup_insert_cases (force_deletes t) key b r) as [[-> ->]|[_ ->]]; [|done].
    rewrite H1, H2, H3, H5. repeat split; try done; by intros [? ?].
Qed.

(** ** Moving bookmarks *)

(** [tb'] is [tb] with the given bookmarks set to the given values. *)
Definition touches (repo : RepositoryId) (rows : list (Bookmark * option ChangesetId)) (tb tb' : table) : Prop :=
  (forall b v, (b, v) ∈ rows -> tb' !! (repo, b) = v) /\
  (forall r b, (r <> repo \/ b ∉ rows.*1) -> tb' !! (r, b) = tb !! (r, b)).

Lemma touches_nil repo tb : touches repo [] tb tb.
Proof. split; [by intros b v ?%elem_of_nil|done]. Qed.

Lemma touches_cons repo b v rows tb tb1 tb2 :
  b ∉ rows.*1 -> tb1 !! (repo, b) = v -> (forall k, k <> (repo, b) -> tb1 !! k = tb !! k) ->
  touches repo rows tb1 tb2 -> touches repo ((b, v) :: rows) tb tb2.
Proof.
  intros Hb Hv Hk [H1 H2]. split.
  - intros b' v' [E|Hin]%elem_of_cons; [|by apply H1]. injection E as -> ->.
    rewrite H2 by (by right). done.
  - intros r b' Hrb. rewrite fmap_cons in Hrb. simpl in Hrb. rewrite not_elem_of_cons in Hrb.
    rewrite H2 by naive_solver. apply Hk. intros [= -> ->]. naive_solver.
Qed.

Lemma touches_lookup repo rows tb tb' b :
  touches repo rows tb tb' -> b ∉ rows.*1 -> tb' !! (repo, b) = tb !! (repo, b).
Proof. intros [_ H] Hb. apply H. by right. Qed.

Lemma fmap_fst_pair {A B} (f : A -> B) (l : list (Bookmark * A)) :
  ((fun x => (x.1, f x.2)) <$> l).*1 = l.*1.
Proof. induction l as [|[b a] l IH]; [done|]. rewrite !fmap_cons. by rewrite IH. Qed.

Section phases.
Context (repo : RepositoryId).

Lemma replace_bookmarks_spec rows : forall tb, NoDup rows.*1 ->
  touches repo ((fun x => (x.1, Some x.2)) <$> rows) tb (replace_bookmarks repo rows tb).
Proof.
  induction rows as [|[b cs] rows IH]; intros tb Hnd; [apply touches_nil|].
  rewrite fmap_cons in Hnd. apply NoDup_cons in Hnd as [Hb Hnd]. rewrite fmap_cons. cbn [fst snd replace_bookmarks foldl].
  apply (touches_cons _ _ _ _ _ (<[(repo, b) := cs]> tb)).
  - by rewrite fmap_fst_pair.
  - by rewrite lookup_insert_eq.
  - intros k Hk. by rewrite lookup_insert_ne.
  - by apply IH.
Qed.

Lemma insert_bookmarks_spec rows : forall tb n, NoDup rows.*1 ->
  let '(tb', n') := foldl (fun '(tb, n) '(name, cs) =>
           match tb !! (repo, name) with
           | Some _ => (tb, n)
           | None => (<[(repo, name) := cs]> tb, S n)
           end) (tb, n) rows in
  n' <= n + length rows /\
  (n' = n + length rows -> (forall b, b ∈ rows.*1 -> tb !! (repo, b) = None) /\
     touches repo ((fun x => (x.1, Some x.2)) <$> rows) tb tb') /\
  ((forall b, b ∈ rows.*1 -> tb !! (repo, b) = None) -> n' = n + length rows).
Proof.
  induction rows as [|[b cs] rows IH]; intros tb n Hnd; cbn [foldl].
  - split; [simpl; lia|]. split; [|simpl; lia]. split; [by intros b ?%elem_of_nil|apply touches_nil].
  - rewrite fmap_cons in Hnd. apply NoDup_cons in Hnd as [Hb Hnd]. rewrite !fmap_cons. cbn [fst snd length].
    destruct (tb !! (repo, b)) as [old|] eqn:E.
    + specialize (IH tb n Hnd). destruct (foldl _ (tb, n) rows) as [tb' n']. destruct IH as (H1 & _ & _).
      split; [lia|]. split; [lia|]. intros H. rewrite (H b) in E by by left. done.
    + specialize (IH (<[(repo, b) := cs]> tb) (S n) Hnd).
      destruct (foldl _ (<[(repo, b) := cs]> tb, S n) rows) as [tb' n']. destruct IH as (H1 & H2 & H3).
      split; [lia|]. split.
      * intros En. destruct H2 as [H2 Ht]; [lia|]. split.
        -- intros b' [->|Hb']%elem_of_cons; [done|]. rewrite <- (H2 b' Hb').
           rewrite lookup_insert_ne; [done|]. intros [= ->]. done.
        -- eapply touches_cons; [by rewrite fmap_fst_pair|by rewrite lookup_insert_eq| |exact Ht].
           intros k Hk. by rewrite lookup_insert_ne.
      * intros H. rewrite H3; [lia|]. intros b' Hb'. rewrite lookup_insert_ne; [apply H; by right|].
        intros [= ->]. done.
Qed.

Lemma update_bookmarks_spec rows : forall tb, NoDup rows.*1 ->
  match update_bookmarks repo rows tb with
  | Some tb' => (forall b d, (b, d) ∈ rows -> tb !! (repo, b) = Some (old_cs d)) /\
      touches repo ((fun x => (x.1, Some (new_cs x.2))) <$> rows) tb tb'
  | None => exists b d, (b, d) ∈ rows /\ tb !! (repo, b) <> Some (old_cs d)
  end.
Proof.
  induction rows as [|[b d] rows IH]; intros tb Hnd; cbn [update_bookmarks].
  - split; [by intros b d ?%elem_of_nil|apply touches_nil].
  - rewrite fmap_cons in Hnd. apply NoDup_cons in Hnd as [Hb Hnd]. rewrite fmap_cons. cbn [fst snd].
    assert (match update_bookmark repo tb b d with
            | Some tb1 => tb !! (repo, b) = Some (old_cs d) /\ tb1 !! (repo, b) = Some (new_cs d) /\
                          forall k, k <> (repo, b) -> tb1 !! k = tb !! k
            | None => tb !! (repo, b) <> Some (old_cs d)
            end) as H1.
    { unfold update_bookmark. repeat case_decide; try congruence.
      - repeat split; congruence.
      - split; [done|]. split; [by rewrite lookup_insert_eq|]. intros k Hk. by rewrite lookup_insert_ne. }
    destruct (update_bookmark repo tb b d) as [tb1|]; simpl; [|exists b, d; split; [by left|done]].
    destruct H1 as (Hold & Hnew & Hk). specialize (IH tb1 Hnd).
    destruct (update_bookmarks repo rows tb1) as [tb2|].
    + destruct IH as [H1 H2]. split.
      * intros b' d' [E|Hin]%elem_of_cons; [by injection E as -> ->|].
        rewrite <- (H1 b' d' Hin). symmetry. apply Hk. intros [= ->].
        apply Hb. apply list_elem_of_fmap. by exists (b, d').
      * eapply touches_cons; [by rewrite (fmap_fst_pair (fun d => Some (new_cs d)))|done..].
    + destruct IH as (b' & d' & Hin & Hne). exists b', d'. split; [by right|].
      rewrite <- Hk; [done|]. intros [= ->]. apply Hb. apply list_elem_of_fmap. by exists (b, d').
Qed.

Lemma delete_bookmarks_spec names : forall tb, NoDup names ->
  touches repo ((fun b => (b, None)) <$> names) tb (delete_bookmarks repo names tb).
Proof.
  induction names as [|b names IH]; intros tb Hnd; [apply touches_nil|].
  apply NoDup_cons in Hnd as [Hb Hnd]. rewrite fmap_cons. cbn [delete_bookmarks foldl].
  apply (touches_cons _ _ _ _ _ (delete (repo, b) tb)).
  - rewrite <- list_fmap_compose. unfold compose. simpl. by rewrite list_fmap_id.
  - by rewrite lookup_delete_eq.
  - intros k Hk. by rewrite lookup_delete_ne.
  - by apply IH.
Qed.

Lemma delete_bookmarks_if_spec rows : forall tb, NoDup rows.*1 ->
  match delete_bookmarks_if repo rows tb with
  | Some tb' => (forall b old, (b, old) ∈ rows -> tb !! (repo, b) = Some old) /\
      touches repo ((fun x => (x.1, None)) <$> rows) tb tb'
  | None => exists b old, (b, old) ∈ rows /\ tb !! (repo, b) <> Some old
  end.
Proof.
  induction rows as [|[b old] rows IH]; intros tb Hnd; cbn [delete_bookmarks_if].
  - split; [by intros b d ?%elem_of_nil|apply touches_nil].
  - rewrite fmap_cons in Hnd. apply NoDup_cons in Hnd as [Hb Hnd]. rewrite fmap_cons. cbn [fst snd].
    case_decide as E; [|exists b, old; split; [by left|done]].
    assert (forall b' x, (b', x) ∈ rows -> (repo, b) <> (repo, b')) as Hne.
    { intros b' x Hin [= ->]. apply Hb. apply list_elem_of_fmap. by exists (b', x). }
    specialize (IH (delete (repo, b) tb) Hnd).
    destruct (delete_bookmarks_if repo rows (delete (repo, b) tb)) as [tb2|].
    + destruct IH as [H1 H2]. split.
      * intros b' d' [E'|Hin]%elem_of_cons; [by injection E' as -> ->|].
        rewrite <- (H1 b' d' Hin). by rewrite lookup_delete_ne by (by eapply Hne).
      * eapply touches_cons; [by rewrite (fmap_fst_pair (fun _ => None))|by rewrite lookup_delete_eq| |exact H2].
        intros k Hk. by rewrite lookup_delete_ne.
    + destruct IH as (b' & d' & Hin & Hn). exists b', d'. split; [by right|].
      by rewrite lookup_delete_ne in Hn by (by eapply Hne).
Qed.
End phases.

(** ** Commits are atomic *)

Section commit_spec.
Context {MO : MapOrder} {ML : MapOrderLaws MO} (to_json : list (HgNodeHash * Z) -> option bytes).

(** What a transaction expects of the table. *)
Record allowed (t : SqlBookmarksTransaction) (tb : table) : Prop := {
  allowed_creates b : is_Some (creates t !! b) -> tb !! (repo_id t, b) = None;
  allowed_sets b d r : sets t !! b = Some (d, r) -> tb !! (repo_id t, b) = Some (old_cs d);
  allowed_deletes b old r : deletes t !! b = Some (old, r) -> tb !! (repo_id t, b) = Some old
}.

(** The value it gives a bookmark, if it moves it. *)
Definition new_value (t : SqlBookmarksTransaction) (b : Bookmark) : option (option ChangesetId) :=
  (fun m : move => m.1.2) <$> log_rows t !! b.

Definition moved (t : SqlBookmarksTransaction) (tb tb' : table) : Prop := forall r b,
  tb' !! (r, b) = if decide (r = repo_id t) then default (tb !! (r, b)) (new_value t b) else tb !! (r, b).

Lemma map_order_lookup {A} (m : gmap Bookmark A) b x : (b, x) ∈ map_order m <-> m !! b = Some x.
Proof using ML. by rewrite map_order_perm, elem_of_map_to_list. Qed.

Lemma map_order_keys {A} (m : gmap Bookmark A) :
  NoDup (map_order m).*1 /\ forall b, b ∈ (map_order m).*1 <-> is_Some (m !! b).
Proof using ML.
  split.
  - rewrite map_order_perm. apply NoDup_fst_map_to_list.
  - intros b. rewrite list_elem_of_fmap. split.
    + intros ([b' x] & -> & Hx%map_order_lookup). by exists x.
    + intros [x Hx]. exists (b, x). split; [done|by apply map_order_lookup].
Qed.

Lemma rows_of {A} (m : gmap Bookmark (A * BookmarkUpdateReason)) :
  let rows := prod_map id fst <$> map_order m in
  NoDup rows.*1 /\ (forall b, b ∈ rows.*1 <-> is_Some (m !! b)) /\
  forall b x, (b, x) ∈ rows <-> exists r, m !! b = Some (x, r).
Proof using ML.
  intros rows. assert (rows.*1 = (map_order m).*1) as ->.
  { unfold rows. induction (map_order m) as [|[b [x r]] l IH]; [done|]. rewrite !fmap_cons. by rewrite IH. }
  unfold rows. split; [apply map_order_keys|]. split; [apply map_order_keys|]. intros b x.
  rewrite list_elem_of_fmap. split.
  - intros ([b' [x' r]] & E & Hin%map_order_lookup). injection E as -> ->. by exists r.
  - intros [r Hr]. exists (b, (x, r)). split; [done|by apply map_order_lookup].
Qed.

(** The keys of the rows of a phase, for [touches]. *)
Lemma phase_keys {A} (f : A -> option ChangesetId) (m : gmap Bookmark (A * BookmarkUpdateReason)) repo tb tb' :
  touches repo ((fun x => (x.1, f x.2)) <$> (prod_map id fst <$> map_order m)) tb tb' ->
  (forall b x r, m !! b = Some (x, r) -> tb' !! (repo, b) = f x) /\
  (forall r b, (r <> repo \/ m !! b = None) -> tb' !! (r, b) = tb !! (r, b)).
Proof using ML.
  destruct (rows_of m) as (_ & Hk & Hr). intros [H1 H2]. split.
  - intros b x r Hb. apply H1. apply list_elem_of_fmap. exists (b, x). split; [done|]. apply Hr. by exists r.
  - intros r b Hrb. apply H2. destruct Hrb as [?|Hb]; [by left|]. right. rewrite fmap_fst_pair, Hk, Hb.
    by intros [? ?].
Qed.

Lemma new_value_cases t b :
  txn_wf t ->
  (forall v r, force_sets t !! b = Some (v, r) -> new_value t b = Some (Some v)) /\
  (forall v r, creates t !! b = Some (v, r) -> new_value t b = Some (Some v)) /\
  (forall d r, sets t !! b = Some (d, r) -> new_value t b = Some (Some (new_cs d))) /\
  (forall r, force_deletes t !! b = Some r -> new_value t b = Some None) /\
  (forall v r, deletes t !! b = Some (v, r) -> new_value t b = Some None) /\
  (force_sets t !! b = None -> creates t !! b = None -> sets t !! b = None -> force_deletes t !! b = None ->
   deletes t !! b = None -> new_value t b = None).
Proof using.
  clear ML. intros Hwf. destruct (Hwf b) as (H1 & H2 & H3 & H4). unfold new_value, log_rows.
  rewrite !lookup_union, !lookup_fmap.
  destruct (force_sets t !! b) as [[v1 r1]|].
  { destruct H1 as (-> & -> & -> & ->); [by eexists|]. naive_solver. }
  destruct (creates t !! b) as [[v2 r2]|].
  { destruct H2 as (-> & -> & ->); [by eexists|]. naive_solver. }
  destruct (sets t !! b) as [[v3 r3]|].
  { destruct H3 as (-> & ->); [by eexists|]. naive_solver. }
  destruct (force_deletes t !! b) as [r4|].
  { rewrite H4; [|by eexists]. naive_solver. }
  destruct (deletes t !! b) as [[v5 r5]|]; naive_solver.
Qed.

(** The keys of another group are not touched. *)
Lemma untouched {A} (m : gmap Bookmark A) b : ~ is_Some (m !! b) -> m !! b = None.
Proof using. apply eq_None_not_Some. Qed.

(** A phase sets the keys of its group, each to its value. *)
Definition phase {A} (repo : RepositoryId) (m : gmap Bookmark A) (value : A -> option ChangesetId)
    (tb tb' : table) : Prop :=
  (forall b x, m !! b = Some x -> tb' !! (repo, b) = value x) /\
  (forall r b, (r <> repo \/ m !! b = None) -> tb' !! (r, b) = tb !! (r, b)).

Lemma phase_of {A} (f : A -> option ChangesetId) (m : gmap Bookmark (A * BookmarkUpdateReason)) repo tb tb' :
  touches repo ((fun x => (x.1, f x.2)) <$> (prod_map id fst <$> map_order m)) tb tb' ->
  phase repo m (fun x => f x.1) tb tb'.
Proof using ML.
  intros [H1 H2]%phase_keys. split; [|exact H2]. intros b [x r]. apply H1.
Qed.

Lemma phase_of_deletes (m : gmap Bookmark BookmarkUpdateReason) repo tb tb' :
  touches repo ((fun b => (b, None)) <$> (map_order m).*1) tb tb' -> phase repo m (fun _ => None) tb tb'.
Proof using ML.
  destruct (map_order_keys m) as [_ Hk]. intros [H1 H2]. split.
  - intros b x Hb. apply H1. apply list_elem_of_fmap. exists b. split; [done|]. apply Hk. by exists x.
  - intros r b Hrb. apply H2. destruct Hrb as [?|Hb]; [by left|right].
    rewrite <- list_fmap_compose. unfold compose. simpl. rewrite list_fmap_id, Hk, Hb. by intros [? ?].
Qed.

Lemma phases_moved t tb tb1 tb2 tb3 tb4 tb5 :
  txn_wf t ->
  phase (repo_id t) (force_sets t) (fun x => Some x.1) tb tb1 ->
  phase (repo_id t) (creates t) (fun x => Some x.1) tb1 tb2 ->
  phase (repo_id t) (sets t) (fun x => Some (new_cs x.1)) tb2 tb3 ->
  phase (repo_id t) (force_deletes t) (fun _ => None) tb3 tb4 ->
  phase (repo_id t) (deletes t) (fun _ => None) tb4 tb5 ->
  moved t tb tb5.
Proof using.
  clear ML. intros Hwf [T1 U1] [T2 U2] [T3 U3] [T4 U4] [T5 U5] r b.
  case_decide as Er; [subst r|by rewrite U5, U4, U3, U2, U1 by (by left)].
  pose proof (new_value_cases t b Hwf) as (N1 & N2 & N3 & N4 & N5 & N6).
  destruct (deletes t !! b) as [[old r]|] eqn:D5; [rewrite (N5 _ _ eq_refl); by apply (T5 b (old, r))|].
  rewrite U5 by (by right).
  destruct (force_deletes t !! b) as [r|] eqn:D4; [rewrite (N4 _ eq_refl); by apply (T4 b r)|].
  rewrite U4 by (by right).
  destruct (sets t !! b) as [[d r]|] eqn:D3; [rewrite (N3 _ _ eq_refl); by apply (T3 b (d, r))|].
  rewrite U3 by (by right).
  destruct (creates t !! b) as [[v r]|] eqn:D2; [rewrite (N2 _ _ eq_refl); by apply (T2 b (v, r))|].
  rewrite U2 by (by right).
  destruct (force_sets t !! b) as [[v r]|] eqn:D1; [rewrite (N1 _ _ eq_refl); by apply (T1 b (v, r))|].
  rewrite U1 by (by right). by rewrite N6.
Qed.

(** A group sees the table as it was: no group before it has its keys. *)
Lemma phase_untouched {A B} repo (m : gmap Bookmark A) value tb tb' b (x : option B) :
  phase repo m value tb tb' -> is_Some x -> (is_Some (m !! b) -> x = None) ->
  tb' !! (repo, b) = tb !! (repo, b).
Proof using.
  clear ML. intros [_ U] [y ->] Hx. apply U. right. apply eq_None_not_Some. intros Hb. discriminate (Hx Hb).
Qed.

Lemma move_bookmarks_spec t tb :
  txn_wf t ->
  match move_bookmarks t tb with
  | Some tb' => allowed t tb /\ moved t tb tb'
  | None => ~ allowed t tb
  end.
Proof using ML.
  intros Hwf. unfold move_bookmarks. set (repo := repo_id t).
  destruct (rows_of (force_sets t)) as (Hnd1 & _). destruct (rows_of (creates t)) as (Hnd2 & Hk2 & _).
  destruct (rows_of (sets t)) as (Hnd3 & _ & Hr3). destruct (rows_of (deletes t)) as (Hnd5 & _ & Hr5).
  destruct (map_order_keys (force_deletes t)) as (Hnd4 & _).
  pose proof (phase_of _ _ _ _ _ (replace_bookmarks_spec repo _ tb Hnd1)) as P1.
  set (tb1 := replace_bookmarks repo _ tb) in *.
  pose proof (insert_bookmarks_spec repo _ tb1 0 Hnd2) as Hins. unfold insert_bookmarks.
  destruct (foldl _ (tb1, 0) _) as [tb2 n2]. destruct Hins as (_ & Hins & Hins').
  assert (forall b, is_Some (creates t !! b) -> tb1 !! (repo, b) = tb !! (repo, b)) as E1.
  { intros b Hb. apply (phase_untouched _ _ _ _ _ _ _ P1 Hb). intros Hf. destruct (Hwf b) as (H1 & H2 & H3 & H4); tauto. }
  destruct (Nat.eqb_spec n2 (length (prod_map id fst <$> map_order (creates t)))) as [En|En]; cbn [negb].
  2: { intros Ha. apply En. rewrite Hins'; [done|]. intros b Hb%Hk2. rewrite (E1 b Hb).
       by apply (allowed_creates t tb Ha). }
  destruct (Hins En) as [Hc P2%phase_of].
  assert (forall b, is_Some (sets t !! b) -> tb2 !! (repo, b) = tb !! (repo, b)) as E2.
  { intros b Hb. rewrite (phase_untouched _ _ _ _ _ _ _ P2 Hb) by (intros Hf; destruct (Hwf b) as (H1 & H2 & H3 & H4); tauto).
    apply (phase_untouched _ _ _ _ _ _ _ P1 Hb). intros Hf. destruct (Hwf b) as (H1 & H2 & H3 & H4); tauto. }
  pose proof (update_bookmarks_spec repo _ tb2 Hnd3) as Hupd.
  destruct (update_bookmarks repo _ tb2) as [tb3|]; cbn [mbind option_bind].
  2: { intros Ha. destruct Hupd as (b & d & Hin & Hne). apply Hr3 in Hin as [r Hb].
       rewrite E2 in Hne by (by eexists). by apply Hne, (allowed_sets t tb Ha b d r). }
  destruct Hupd as [Hs P3%(phase_of (fun d => Some (new_cs d)))].
  pose proof (phase_of_deletes _ _ _ _ (delete_bookmarks_spec repo _ tb3 Hnd4)) as P4.
  set (tb4 := delete_bookmarks repo _ tb3) in *.
  assert (forall b, is_Some (deletes t !! b) -> tb4 !! (repo, b) = tb !! (repo, b)) as E4.
  { intros b Hb. rewrite (phase_untouched _ _ _ _ _ _ _ P4 Hb) by (intros Hf; destruct (Hwf b) as (H1 & H2 & H3 & H4); tauto).
    rewrite (phase_untouched _ _ _ _ _ _ _ P3 Hb) by (intros Hf; destruct (Hwf b) as (H1 & H2 & H3 & H4); tauto).
    rewrite (phase_untouched _ _ _ _ _ _ _ P2 Hb) by (intros Hf; destruct (Hwf b) as (H1 & H2 & H3 & H4); tauto).
    apply (phase_untouched _ _ _ _ _ _ _ P1 Hb). intros Hf. destruct (Hwf b) as (H1 & H2 & H3 & H4); tauto. }
  pose proof (delete_bookmarks_if_spec repo _ tb4 Hnd5) as Hdel.
  destruct (delete_bookmarks_if repo _ tb4) as [tb5|].
  2: { intros Ha. destruct Hdel as (b & old & Hin & Hne). apply Hr5 in Hin as [r Hb].
       rewrite E4 in Hne by (by eexists). by apply Hne, (allowed_deletes t tb Ha b old r). }
  destruct Hdel as [Hd P5%(phase_of (fun _ => None))]. split; [split|by eapply phases_moved].
  - intros b Hb. fold repo. rewrite <- E1 by done. apply Hc. by apply Hk2.
  - intros b d r Hb. fold repo. rewrite <- E2 by (by eexists). apply Hs, Hr3. by eexists.
  - intros b old r Hb. fold repo. rewrite <- E4 by (by eexists). apply Hd, Hr5. by eexists.
Qed.

(** The entries of the log for some moves. *)
Definition logged (repo : RepositoryId) (now : Z) (moves : list (Bookmark * move)) (entries : list log_row) : Prop :=
  Forall2 (fun m e => l_repo_id e = repo /\ l_name e = m.1 /\ (l_from e, l_to e) = m.2.1 /\
                      l_reason e = reason_kind m.2.2 /\ l_timestamp e = now) moves entries.

Lemma log_bookmark_moves_spec repo now moves : forall log rows,
  match log_bookmark_moves to_json repo now moves log rows with
  | Ok (log', _) => exists entries, log' = log ++ entries /\ logged repo now moves entries
  | Err e => e = JsonFailed
  | Panic => False
  end.
Proof using.
  clear ML. induction moves as [|[b [[from to] r]] moves IH]; intros log rows; cbn [log_bookmark_moves].
  - exists []. rewrite app_nil_r. split; [done|constructor].
  - unfold log_bundle_replay_data.
    assert (forall rows1, match log_bookmark_moves to_json repo now moves
                      (log ++ [mkLog (next_log_id log) repo b from to (reason_kind r) now]) rows1 with
            | Ok (log', _) => exists entries, log' = log ++ entries /\
                logged repo now ((b, (from, to, r)) :: moves) entries
            | Err e => e = JsonFailed
            | Panic => False
            end) as H.
    { intros rows1. specialize (IH (log ++ [mkLog (next_log_id log) repo b from to (reason_kind r) now]) rows1).
      destruct (log_bookmark_moves _ _ _ _ _ _) as [[log' rows']|e|]; [|done|done].
      destruct IH as (entries & -> & Hl). eexists (_ :: entries). rewrite <- app_assoc. split; [done|].
      by constructor. }
    destruct (replay_of r) as [d|]; [|rewrite bind_Ok; apply H].
    destruct (to_json (commit_timestamps d)); cbn [ok_or]; [|done]. rewrite !bind_Ok. apply H.
Qed.

(** C35. A transaction commits as a whole or not at all. It commits exactly
    when every bookmark it creates does not exist and every one it updates or
    deletes has the value it expects; then each bookmark in it gets its new
    value, no other changes, and the log gains one entry for each of them
    with where it moved from and to and why. Otherwise, and also when the
    data for the log cannot be serialized, nothing changes at all. *)
Theorem commit_exact (t : SqlBookmarksTransaction) (now : Z) (db : tables) :
  built t ->
  match commit to_json t now db with
  | (db', Ok true) => allowed t (bookmarks db) /\ moved t (bookmarks db) (bookmarks db') /\
      exists moves entries, moves ≡ₚ map_to_list (log_rows t) /\
        update_log db' = update_log db ++ entries /\ logged (repo_id t) now moves entries
  | (db', Ok false) => db' = db /\ ~ allowed t (bookmarks db)
  | (db', Err e) => db' = db /\ e = JsonFailed /\ allowed t (bookmarks db)
  | (_, Panic) => False
  end.
Proof using ML.
  intros Hwf%built_wf. unfold commit. pose proof (move_bookmarks_spec t (bookmarks db) Hwf) as Hm.
  destruct (move_bookmarks t (bookmarks db)) as [tb|]; [|done]. destruct Hm as [Ha Hm].
  pose proof (log_bookmark_moves_spec (repo_id t) now (map_order (log_rows t)) (update_log db) (replay_data db)) as Hl.
  destruct (log_bookmark_moves _ _ _ _ _ _) as [[log rows]|e|]; [|done|done].
  destruct Hl as (entries & -> & Hl). split; [done|]. split; [done|].
  exists (map_order (log_rows t)), entries. split; [apply map_order_perm|done].
Qed.

(** What a commit does to the table alone. *)
Lemma commit_moved (t : SqlBookmarksTransaction) (now : Z) (db : tables) :
  built t ->
  match commit to_json t now db with
  | (db', Ok true) => allowed t (bookmarks db) /\ moved t (bookmarks db) (bookmarks db')
  | (db', Ok false) => db' = db
  | (db', Err e) => db' = db /\ e = JsonFailed
  | (_, Panic) => False
  end.
Proof using ML.
  intros Hwf%built_wf. unfold commit. pose proof (move_bookmarks_spec t (bookmarks db) Hwf) as Hm.
  destruct (move_bookmarks t (bookmarks db)) as [tb|]; [|done].
  pose proof (log_bookmark_moves_spec (repo_id t) now (map_order (log_rows t)) (update_log db) (replay_data db)) as Hl.
  destruct (log_bookmark_moves _ _ _ _ _ _) as [[log rows]|e|]; done.
Qed.

(** Where the log says that a bookmark is: at the target of its last move. *)
Definition replay_from (acc : option ChangesetId) (log : list log_row) (r : RepositoryId) (b : Bookmark)
    : option ChangesetId :=
  foldl (fun acc row => if decide (l_repo_id row = r /\ l_name row = b) then l_to row else acc) acc log.

Definition replay_log (db : tables) : RepositoryId -> Bookmark -> option ChangesetId :=
  replay_from None (update_log db).

Lemma replay_logged repo now moves entries :
  logged repo now moves entries -> NoDup moves.*1 -> forall acc r b,
  (forall m, (b, m) ∈ moves -> replay_from acc entries repo b = m.1.2) /\
  ((r <> repo \/ b ∉ moves.*1) -> replay_from acc entries r b = acc).
Proof using.
  clear ML MO. induction 1 as [|[b0 m0] e moves entries (Hr & Hb & Hft & _) Hl IH]; intros Hnd acc r b.
  { split; [by intros m ?%elem_of_nil|done]. }
  rewrite fmap_cons in *. apply NoDup_cons in Hnd as [Hb0 Hnd]. cbn [fst snd] in *.
  unfold replay_from. cbn [foldl]. subst repo b0. split.
  - intros m [E|Hin]%elem_of_cons; [|by apply (IH Hnd _ r)]. injection E as -> ->.
    rewrite decide_True by done. destruct (IH Hnd (l_to e) (l_repo_id e) (l_name e)) as [_ Hacc].
    unfold replay_from in Hacc. rewrite Hacc by (by right). by rewrite <- Hft.
  - intros Hrb. rewrite not_elem_of_cons in Hrb. rewrite decide_False by naive_solver.
    apply (IH Hnd acc). naive_solver.
Qed.

(** The databases that commits make. *)
Inductive reachable : tables -> Prop :=
| reachable_empty : reachable (mkTables ∅ [] [])
| reachable_commit db t now : reachable db -> built t -> reachable (commit to_json t now db).1.

(** C33. The update log is complete: whatever transactions have been
    committed, attempted or reverted, replaying the log from the beginning
    gives exactly the table of bookmarks. *)
Theorem log_replays (db : tables) :
  reachable db -> forall r b, bookmarks db !! (r, b) = replay_log db r b.
Proof using ML.
  induction 1 as [|db t now _ IH Ht]; intros r b; [cbn [bookmarks]; by rewrite lookup_empty|].
  apply built_wf in Ht as Hwf. unfold commit.
  pose proof (move_bookmarks_spec t (bookmarks db) Hwf) as Hm.
  destruct (move_bookmarks t (bookmarks db)) as [tb|]; [|apply IH]. destruct Hm as [_ Hm].
  pose proof (log_bookmark_moves_spec (repo_id t) now (map_order (log_rows t)) (update_log db) (replay_data db)) as Hl.
  destruct (log_bookmark_moves _ _ _ _ _ _) as [[log rows]|e|]; [|apply IH|apply IH].
  destruct Hl as (entries & -> & Hl). cbn [fst bookmarks]. unfold replay_log, replay_from.
  cbn [update_log]. rewrite foldl_app. fold (replay_from None (update_log db) r b). fold (replay_log db r b).
  rewrite <- IH. fold (replay_from (bookmarks db !! (r, b)) entries r b).
  destruct (map_order_keys (log_rows t)) as [Hnd Hk].
  destruct (replay_logged _ _ _ _ Hl Hnd (bookmarks db !! (r, b)) r b) as [Hin Hout].
  rewrite Hm. unfold new_value. case_decide as Er; [subst r|by rewrite Hout by (by left)].
  destruct (log_rows t !! b) as [m|] eqn:Em; simpl.
  - symmetry. apply Hin. by apply map_order_lookup.
  - rewrite Hout; [done|]. right. rewrite Hk, Em. by intros [? ?].
Qed.
End commit_spec.

(** ** Examples *)

Definition ex_json (ts : list (HgNodeHash * Z)) : option bytes := Some (bstr "{}").
Definition ex_cs (b : byte) : ChangesetId := mkChangesetId (mkBlake2 [b]).
Definition ex_name : Bookmark := mkBookmark (bstr "master").

Definition ex_create : SqlBookmarksTransaction :=
  default (create_transaction 0%N) (ok (txn_create (create_transaction 0%N) ex_name (ex_cs x01) ManualMove)).
Definition ex_update : SqlBookmarksTransaction :=
  default (create_transaction 0%N)
    (ok (txn_update (create_transaction 0%N) ex_name (ex_cs x02) (ex_cs x01)
           (Pushrebase (Some (mkReplay (bstr "h") []))))).

Lemma ex_create_built : built ex_create.
Proof. eapply built_create; [apply built_new|]. reflexivity. Qed.

Lemma ex_update_built : built ex_update.
Proof. eapply built_update; [apply built_new|]. reflexivity. Qed.

Definition ex_db : tables := (commit ex_json ex_create 5 (mkTables ∅ [] [])).1.

Lemma commit_exact_witness :
  (commit ex_json ex_update 6 ex_db).2 = Ok true /\
  moved ex_update (bookmarks ex_db) (bookmarks (commit ex_json ex_update 6 ex_db).1) /\
  (commit ex_json ex_update 7 (commit ex_json ex_update 6 ex_db).1).2 = Ok false.
Proof.
  split; [vm_compute; reflexivity|]. split; [|vm_compute; reflexivity].
  exact (proj1 (proj2 (commit_exact ex_json ex_update 6 ex_db ex_update_built))).
Defined.

Lemma log_replays_witness :
  bookmarks (commit ex_json ex_update 6 ex_db).1 !! (0%N, ex_name)
  = replay_log (commit ex_json ex_update 6 ex_db).1 0%N ex_name /\
  replay_log (commit ex_json ex_update 6 ex_db).1 0%N ex_name = Some (ex_cs x02).
Proof.
  split; [|vm_compute; reflexivity].
  apply (log_replays ex_json). apply reachable_commit; [|apply ex_update_built].
  apply reachable_commit; [apply reachable_empty|apply ex_create_built].
Defined.
