(* ===== verification/Repo.v ===== *)
(** * The repository

    What pushrebase sees of [BlobRepo] ([src/blobrepo/src/repo.rs]): the
    changesets in the blob store, the changesets table, the bookmarks, the
    reads of them, and [save_bonsai_changesets]. The SQL tables are those of
    [Changesets] and [Bookmarks]; blobs are kept by changeset id. *)

From S2P Require Import Prelude Ord Path Hash Bonsai Graph TopoSort Changesets Bookmarks.

(** [BonsaiChangeset::get_changeset_id]: the hash of the serialized changeset,
    by the [blake2] and [thrift] packages. What the code relies on: different
    changesets have different ids, and no changeset can be made that has
    itself among its ancestors, since its id depends on theirs. *)
Class BonsaiHash {CH : Chrono} := { get_changeset_id : BonsaiChangeset -> ChangesetId }.

Class BonsaiHashLaws {CH : Chrono} (BH : BonsaiHash) : Prop := {
  get_changeset_id_inj b b' : get_changeset_id b = get_changeset_id b' -> b = b';
  no_hash_cycle : well_founded (fun p c => exists b, get_changeset_id b = c /\ p ∈ parents (inner b))
}.

Inductive repo_error :=
| BonsaiNotFound (cs_id : ChangesetId)
| BlobNotFound (cs_id : ChangesetId)
| ChangesetsFailed (e : changesets_error)
| SortOutOfFuel.

Section repo.
Context {CH : Chrono} {BH : BonsaiHash} {HO : HashOrder}.

Record BlobRepo := mkRepo {
  repoid : RepositoryId;
  repo_bookmarks : tables;
  repo_changesets : database;
  repo_blobstore : gmap ChangesetId BonsaiChangeset
}.

(** ** Reading *)

Definition get_bonsai_changeset (repo : BlobRepo) (bonsai_cs_id : ChangesetId)
    : outcome repo_error BonsaiChangeset :=
  ok_or (repo_blobstore repo !! bonsai_cs_id) (BlobNotFound bonsai_cs_id).

Definition changeset_entry (repo : BlobRepo) (c : ChangesetId) : option ChangesetEntry :=
  get (repo_changesets repo) (repo_changesets repo) (repoid repo) c.

Definition get_changeset_parents_by_bonsai (repo : BlobRepo) (changesetid : ChangesetId)
    : outcome repo_error (list ChangesetId) :=
  entry ← ok_or (changeset_entry repo changesetid) (BonsaiNotFound changesetid);
  Ok (e_parents entry).

Definition get_generation_number_by_bonsai (repo : BlobRepo) (cs : ChangesetId) : option Generation :=
  e_gen <$> changeset_entry repo cs.

Definition get_changeset_fetcher (repo : BlobRepo) : ChangesetFetcher :=
  simple_fetcher (repo_changesets repo) (repo_changesets repo) (repoid repo).

Definition get_bonsai_bookmark (repo : BlobRepo) (bookmark_name : Bookmark) : option ChangesetId :=
  get_bookmark (repo_bookmarks repo) bookmark_name (repoid repo).

(** ** Saving changesets *)

Definition by_id (bonsai_changesets : list BonsaiChangeset) : gmap ChangesetId BonsaiChangeset :=
  foldl (fun m bcs => <[get_changeset_id bcs := bcs]> m) ∅ bonsai_changesets.

(** The entries are added one after the other, until one fails. *)
Fixpoint complete_changesets (repo_id : RepositoryId) (m : gmap ChangesetId BonsaiChangeset)
    (ids : list ChangesetId) (db : database) : database * outcome repo_error unit :=
  match ids with
  | [] => (db, Ok tt)
  | id :: ids =>
      match m !! id with
      | Some bcs =>
          match add db (mkInsert repo_id (get_changeset_id bcs) (parents (inner bcs))) with
          | (db, Ok _) => complete_changesets repo_id m ids db
          | (db, Err e) => (db, Err (ChangesetsFailed e))
          | (db, Panic) => (db, Panic)
          end
      | None => complete_changesets repo_id m ids db
      end
  end.

Definition save_bonsai_changesets (k : nat) (bonsai_changesets : list BonsaiChangeset) (repo : BlobRepo)
    : BlobRepo * outcome repo_error unit :=
  let m := by_id bonsai_changesets in
  match sort_topological k ((fun bcs => parents (inner bcs)) <$> m) with
  | None => (repo, Err SortOutOfFuel)
  | Some None => (repo, Panic)
  | Some (Some sorted) =>
      let '(db, r) := complete_changesets (repoid repo) m (reverse sorted) (repo_changesets repo) in
      (mkRepo (repoid repo) (repo_bookmarks repo) db (m ∪ repo_blobstore repo), r)
  end.

(** ** What holds of a repository *)

(** A changeset as the store has it. *)
Definition frozen (b : BonsaiChangeset) : Prop :=
  freeze (inner b) = Ok b /\ btree_wf (file_changes (inner b)).

Definition in_repo (repo : BlobRepo) (c : ChangesetId) : Prop :=
  stored (repo_changesets repo) (repoid repo) c.

Definition repo_parents (repo : BlobRepo) (c : ChangesetId) : list ChangesetId :=
  parents_of (F := get_changeset_fetcher repo) c.

Record repo_ok (repo : BlobRepo) : Prop := {
  ro_table : wf (repo_changesets repo);
  ro_entry c e : select_changeset (repo_changesets repo) (repoid repo) c = Some e ->
    exists b, repo_blobstore repo !! c = Some b /\ parents (inner b) = e_parents e;
  ro_blob c b : repo_blobstore repo !! c = Some b -> get_changeset_id b = c /\ frozen b
}.

(** Room for [n] more rows in the table. *)
Definition room (n : nat) (repo : BlobRepo) : Prop :=
  (N.of_nat n + lenN (changesets (repo_changesets repo)) < 2 ^ 64 - 1)%N.

(** Changesets are never changed or removed. *)
Record repo_le (r r' : BlobRepo) : Prop := {
  rl_repoid : repoid r' = repoid r;
  rl_entry c e : select_changeset (repo_changesets r) (repoid r) c = Some e ->
    select_changeset (repo_changesets r') (repoid r') c = Some e;
  rl_blob c b : repo_blobstore r !! c = Some b -> repo_blobstore r' !! c = Some b
}.

#[export] Instance repo_le_preorder : PreOrder repo_le.
Proof.
  split; [by split|]. intros r1 r2 r3 [H1 H2 H3] [J1 J2 J3]. split; [congruence|auto|auto].
Qed.

Lemma changeset_entry_select repo c :
  changeset_entry repo c = select_changeset (repo_changesets repo) (repoid repo) c.
Proof. unfold changeset_entry, get. by destruct (select_changeset _ _ _). Qed.

Lemma fetcher_laws repo : repo_ok repo -> FetcherLaws (F := get_changeset_fetcher repo) (in_repo repo).
Proof. intros Hok. apply simple_fetcher_laws; [apply Hok|done]. Qed.

Lemma in_repo_parents repo c e :
  select_changeset (repo_changesets repo) (repoid repo) c = Some e -> repo_parents repo c = e_parents e.
Proof.
  intros He. unfold repo_parents, parents_of, get_parents, get_changeset_fetcher, simple_fetcher, get.
  by rewrite He.
Qed.

(** What is stored of a changeset. *)
Lemma in_repo_blob repo c :
  repo_ok repo -> in_repo repo c ->
  exists b, repo_blobstore repo !! c = Some b /\ get_changeset_id b = c /\ frozen b /\
    parents (inner b) = repo_parents repo c.
Proof.
  intros Hok [e He]. destruct (ro_entry _ Hok c e He) as (b & Hb & Hp).
  destruct (ro_blob _ Hok c b Hb) as [Hid Hf]. exists b. by rewrite (in_repo_parents _ _ _ He).
Qed.

Lemma get_parents_in_repo repo c :
  in_repo repo c -> get_changeset_parents_by_bonsai repo c = Ok (repo_parents repo c).
Proof.
  intros [e He]. unfold get_changeset_parents_by_bonsai. rewrite changeset_entry_select, He.
  by rewrite (in_repo_parents _ _ _ He).
Qed.

Lemma parents_in_repo repo c p : repo_ok repo -> in_repo repo c -> p ∈ repo_parents repo c -> in_repo repo p.
Proof. intros Hok Hc Hp. by apply (parent_known (FetcherLaws := fetcher_laws repo Hok) p c). Qed.

Lemma repo_le_in r r' c : repo_le r r' -> in_repo r c -> in_repo r' c.
Proof. intros Hle [e He]. exists e. by apply Hle. Qed.

Lemma repo_le_parents r r' c : repo_le r r' -> in_repo r c -> repo_parents r' c = repo_parents r c.
Proof.
  intros Hle [e He]. rewrite (in_repo_parents _ _ _ He). apply in_repo_parents. by apply Hle.
Qed.

Lemma repo_le_ancestor r r' a c :
  repo_ok r -> repo_le r r' -> in_repo r c ->
  ancestor (F := get_changeset_fetcher r') a c <-> ancestor (F := get_changeset_fetcher r) a c.
Proof.
  intros Hok Hle Hc. pose proof (fetcher_laws r Hok) as L. split.
  - intros Ha. revert Hc. induction Ha as [c|a p c Hap Hpc IH]; intros Hc; [reflexivity|].
    specialize (IH Hc). apply (rtc_l _ _ p); [|done].
    pose proof (ancestor_known (F := get_changeset_fetcher r) p c Hc IH) as Hp.
    unfold parent in *.
    change (a ∈ repo_parents r p). by rewrite <- (repo_le_parents r r' p Hle Hp).
  - intros Ha. revert Hc. induction Ha as [c|a p c Hap Hpc IH]; intros Hc; [reflexivity|].
    pose proof (ancestor_known (F := get_changeset_fetcher r) p c Hc Hpc) as Hp.
    apply (rtc_l _ _ p); [|by apply IH]. unfold parent in *.
    change (a ∈ repo_parents r' p). by rewrite (repo_le_parents r r' p Hle Hp).
Qed.

(** *** What saving does *)

Lemma by_id_spec bs c b : by_id bs !! c = Some b -> get_changeset_id b = c /\ b ∈ bs.
Proof.
  unfold by_id. assert (forall m : gmap ChangesetId BonsaiChangeset, (forall c b, m !! c = Some b -> get_changeset_id b = c /\ b ∈ bs) ->
    forall l, (forall b, b ∈ l -> b ∈ bs) ->
    forall c b, foldl (fun m bcs => <[get_changeset_id bcs := bcs]> m) m l !! c = Some b ->
      get_changeset_id b = c /\ b ∈ bs) as H.
  { intros m Hm l. revert m Hm. induction l as [|x l IH]; intros m Hm Hl; [done|]. simpl. apply IH.
    - intros c' b'. destruct (decide (c' = get_changeset_id x)) as [->|Hne].
      + rewrite lookup_insert_eq. intros [= <-]. split; [done|]. apply Hl. by left.
      + rewrite lookup_insert_ne by done. apply Hm.
    - intros b' Hb'. apply Hl. by right. }
  apply H; [|done]. intros c' b' Hc. by rewrite lookup_empty in Hc.
Qed.

Context {BL : BonsaiHashLaws BH}.

Lemma by_id_lookup bs b : b ∈ bs -> by_id bs !! get_changeset_id b = Some b.
Proof.
  unfold by_id. intros Hb. assert (forall l (m : gmap ChangesetId BonsaiChangeset), b ∈ l \/ m !! get_changeset_id b = Some b ->
    foldl (fun m bcs => <[get_changeset_id bcs := bcs]> m) m l !! get_changeset_id b = Some b) as H.
  { induction l as [|x l IH]; intros m [Hm|Hm]; simpl; [by apply elem_of_nil in Hm|done| |].
    - apply elem_of_cons in Hm as [->|Hm]; apply IH; [right; apply lookup_insert_eq|by left].
    - apply IH. right. destruct (decide (get_changeset_id x = get_changeset_id b)) as [E|Hne].
      + rewrite E, lookup_insert_eq. by apply get_changeset_id_inj in E as ->.
      + by rewrite lookup_insert_ne. }
  apply H. by left.
Qed.

Lemma no_cycle bs : ~ cyclic ((fun bcs => parents (inner bcs)) <$> by_id bs).
Proof.
  intros (n & Hn). assert (forall x y, tc (edge ((fun bcs => parents (inner bcs)) <$> by_id bs)) x y ->
    tc (fun c p => exists b, get_changeset_id b = c /\ p ∈ parents (inner b)) x y) as Hsub.
  { intros x y. apply tc_congruence with (f := fun x => x). clear. intros x y Hxy. unfold edge, children_of in Hxy.
    rewrite lookup_fmap in Hxy. destruct (by_id bs !! x) as [b|] eqn:E; simpl in Hxy; [|by apply elem_of_nil in Hxy].
    apply by_id_spec in E as [E _]. by exists b. }
  apply Hsub in Hn. clear Hsub.
  induction (no_hash_cycle n) as [n _ IH]. 
  assert (exists p, (exists b, get_changeset_id b = n /\ p ∈ parents (inner b)) /\
            tc (fun c p => exists b, get_changeset_id b = c /\ p ∈ parents (inner b)) p p) as (p & Hp & Hpp).
  { inversion Hn as [? ? H1|? m ? H1 H2]; subst.
    - by exists n.
    - exists m. split; [done|]. by eapply tc_r. }
  by apply (IH p).
Qed.

Section complete.
Context (rid : RepositoryId) (m : gmap ChangesetId BonsaiChangeset).
Context (Hid : forall c b, m !! c = Some b -> get_changeset_id b = c).

(** The stored entries of these changesets are theirs. *)
Definition consistent (db : database) : Prop := forall c b e,
  m !! c = Some b -> select_changeset db rid c = Some e -> e_parents e = parents (inner b).

(** The parents of each changeset are stored, or come before it. *)
Definition in_order (db : database) (ids : list ChangesetId) : Prop := forall l1 c l2 b p,
  ids = l1 ++ c :: l2 -> m !! c = Some b -> p ∈ parents (inner b) ->
  stored db rid p \/ (p ∈ l1 /\ is_Some (m !! p)).

Definition saved (ids : list ChangesetId) : list ChangesetId :=
  List.filter (fun c => bool_decide (is_Some (m !! c))) ids.

Record completed (ids : list ChangesetId) (db db' : database) : Prop := {
  cp_wf : wf db';
  cp_length : length (changesets db') <= length (saved ids) + length (changesets db);
  cp_old r c e : select_changeset db r c = Some e -> select_changeset db' r c = Some e;
  cp_new c b : c ∈ ids -> m !! c = Some b ->
    exists e, select_changeset db' rid c = Some e /\ e_parents e = parents (inner b);
  cp_only c e : select_changeset db' rid c = Some e ->
    select_changeset db rid c = Some e \/ exists b, m !! c = Some b /\ e_parents e = parents (inner b)
}.

(** Adding one changeset whose parents are stored. *)
Lemma add_one db c b :
  wf db -> (lenN (changesets db) < 2 ^ 64 - 1)%N -> consistent db -> m !! c = Some b ->
  (forall p, p ∈ parents (inner b) -> stored db rid p) ->
  exists db' x, add db (mkInsert rid (get_changeset_id b) (parents (inner b))) = (db', Ok x) /\
    completed [c] db db' /\ consistent db'.
Proof using Hid.
  intros Hwf Hlen Hcons Hc Hp. pose proof (Hid c b Hc) as E.
  destruct (add_with_parents db (mkInsert rid (get_changeset_id b) (parents (inner b))) Hwf Hlen Hp)
    as [[[e He] Hadd]|(Hno & db' & g & Hadd & Hwf' & He & _ & Hl & Hold)]; cbn [i_repo_id i_cs_id i_parents] in *;
    rewrite Hadd, E in *.
  - pose proof (Hcons c b e Hc He) as Ep. unfold check_changeset_matches. cbn [i_repo_id i_cs_id i_parents].
    rewrite He. cbn [fmap option_fmap option_map]. rewrite decide_True by (by rewrite Ep). rewrite bind_Ok.
    exists db, false. split; [done|]. split; [|done]. split; [done|lia|done| |by left].
    intros c' b' Hin%list_elem_of_singleton Hc'. subst c'. exists e. split; [done|congruence].
  - exists db', true. split; [done|].
    assert (forall r c0 e, select_changeset db r c0 = Some e -> select_changeset db' r c0 = Some e) as Hmono.
    { intros r c0 e0 H0. rewrite Hold; [done|]. intros [= -> ->]. apply Hno. by eexists. }
    assert (forall c0 e0, select_changeset db' rid c0 = Some e0 ->
      select_changeset db rid c0 = Some e0 \/ exists b0, m !! c0 = Some b0 /\ e_parents e0 = parents (inner b0)) as Honly.
    { intros c0 e0 H0. destruct (decide (c0 = c)) as [->|Hne].
      - right. exists b. split; [done|]. rewrite He in H0. by injection H0 as <-.
      - left. rewrite Hold in H0; [done|]. by intros [= ->]. }
    split; [split; [done| |done| |done]|].
    + unfold saved. simpl. rewrite bool_decide_true by (by eexists). simpl. lia.
    + intros c' b' Hin%list_elem_of_singleton Hc'. subst c'. eexists. split; [exact He|]. simpl. congruence.
    + intros c' b' e' Hc' He'. destruct (Honly c' e' He') as [?|(b0 & Hb0 & ?)]; [by eapply Hcons|congruence].
Qed.

Lemma complete_changesets_spec ids : forall db,
  wf db -> (lenN (saved ids) + lenN (changesets db) < 2 ^ 64 - 1)%N -> consistent db -> in_order db ids ->
  exists db', complete_changesets rid m ids db = (db', Ok tt) /\ completed ids db db'.
Proof using Hid.
  induction ids as [|c ids IH]; intros db Hwf Hlen Hcons Hord.
  { exists db. split; [done|]. split; [done|lia|done| |by left]. by intros c b ?%elem_of_nil. }
  simpl. destruct (m !! c) as [b|] eqn:Ec.
  - unfold saved, lenN in Hlen. simpl in Hlen. rewrite bool_decide_true in Hlen by (by eexists). simpl in Hlen.
    destruct (add_one db c b Hwf) as (db1 & x & -> & Hc1 & Hcons1); [unfold lenN; lia|done|done| |].
    { intros p Hp. destruct (Hord [] c ids b p eq_refl Ec Hp) as [?|[Hin _]]; [done|]. by apply elem_of_nil in Hin. }
    pose proof (cp_length _ _ _ Hc1) as Hl1. unfold saved at 1 in Hl1. simpl in Hl1.
    rewrite bool_decide_true in Hl1 by (by eexists). simpl in Hl1.
    destruct (IH db1) as (db2 & E & H2).
    + apply Hc1.
    + unfold lenN, saved. lia.
    + done.
    + intros l1 c' l2 b' p -> Hc' Hp. destruct (Hord (c :: l1) c' l2 b' p eq_refl Hc' Hp) as [[e He]|[Hin Hm]].
      * left. exists e. by apply (cp_old _ _ _ Hc1).
      * apply elem_of_cons in Hin as [->|Hin]; [left|by right].
        destruct (cp_new _ _ _ Hc1 c b ltac:(by left) Ec) as (e & He & _). by exists e.
    + rewrite E. exists db2. split; [done|]. split.
      * apply H2.
      * pose proof (cp_length _ _ _ H2). unfold saved at 1. simpl. rewrite bool_decide_true by (by eexists).
        simpl. unfold saved in *. lia.
      * intros r c' e H0. by apply (cp_old _ _ _ H2), (cp_old _ _ _ Hc1).
      * intros c' b' [->|Hin]%elem_of_cons Hc'; [|by apply (cp_new _ _ _ H2)].
        destruct (cp_new _ _ _ Hc1 c b' ltac:(by left) Hc') as (e & He & Hpe). exists e. split; [|done].
        by apply (cp_old _ _ _ H2).
      * intros c' e [H0|H0]%(cp_only _ _ _ H2); [|by right]. by apply (cp_only _ _ _ Hc1).
  - destruct (IH db Hwf) as (db2 & E & H2).
    + unfold saved, lenN in Hlen. simpl in Hlen. rewrite bool_decide_false in Hlen by (intros [? ?]; congruence). done.
    + done.
    + intros l1 c' l2 b' p -> Hc' Hp. destruct (Hord (c :: l1) c' l2 b' p eq_refl Hc' Hp) as [?|[Hin [x Hm]]]; [by left|].
      right. apply elem_of_cons in Hin as [->|Hin]; [congruence|]. split; [done|by eexists].
    + exists db2. split; [done|]. destruct H2 as [H1 Hl H3 H4 H5]. split; [done| |done| |done].
      * unfold saved at 1. simpl. by rewrite bool_decide_false by (intros [? ?]; congruence).
      * intros c' b' [->|Hin]%elem_of_cons Hc'; [congruence|by apply (H4 c')].
Qed.
End complete.

(** The save of changesets whose parents are in the repository or among them. *)
Definition parents_known (repo : BlobRepo) (bs : list BonsaiChangeset) : Prop := forall b p,
  b ∈ bs -> p ∈ parents (inner b) -> in_repo repo p \/ exists b', b' ∈ bs /\ get_changeset_id b' = p.

Record saved_ok (bs : list BonsaiChangeset) (repo repo' : BlobRepo) : Prop := {
  sv_ok : repo_ok repo';
  sv_le : repo_le repo repo';
  sv_bookmarks : repo_bookmarks repo' = repo_bookmarks repo;
  sv_length : length (changesets (repo_changesets repo')) <= length bs + length (changesets (repo_changesets repo));
  sv_new b : b ∈ bs -> in_repo repo' (get_changeset_id b) /\ repo_blobstore repo' !! get_changeset_id b = Some b;
  sv_only c : in_repo repo' c -> in_repo repo c \/ exists b, b ∈ bs /\ get_changeset_id b = c
}.

Lemma by_id_parents_edge bs c p :
  edge ((fun bcs => parents (inner bcs)) <$> by_id bs) c p <->
  exists b, by_id bs !! c = Some b /\ p ∈ parents (inner b).
Proof.
  unfold edge, children_of. rewrite lookup_fmap. destruct (by_id bs !! c) as [b|]; simpl.
  - split; [by exists b|]. by intros (b' & [= <-] & ?).
  - split; [by intros ?%elem_of_nil|]. by intros (b' & ? & _).
Qed.

Lemma saved_length bs ids : NoDup ids -> length (saved (by_id bs) ids) <= length bs.
Proof using BL.
  intros Hnd. rewrite <- (length_fmap get_changeset_id bs). apply submseteq_length, NoDup_submseteq.
  - unfold saved. clear -Hnd. induction Hnd as [|c ids Hc Hnd IH]; simpl; [constructor|].
    case_bool_decide; [|done]. constructor; [|done]. intros Hin. apply Hc.
    apply list_elem_of_In, filter_In in Hin as [Hin _]. by apply list_elem_of_In.
  - intros c Hc. apply list_elem_of_In, filter_In in Hc as [_ [b Hb]%bool_decide_eq_true].
    apply by_id_spec in Hb as [<- Hb]. by apply list_elem_of_fmap_2.
Qed.

Lemma save_runs {HL : HashOrderLaws HO} bs repo :
  repo_ok repo -> room (length bs) repo -> Forall frozen bs -> parents_known repo bs ->
  exists n0 repo', (forall k, n0 <= k -> save_bonsai_changesets k bs repo = (repo', Ok tt)) /\ saved_ok bs repo repo'.
Proof using BL.
  intros Hok Hroom Hfr Hpar. set (m := by_id bs).
  destruct (sort_topological_runs ((fun bcs => parents (inner bcs)) <$> m)) as (n0 & r & Hk & Hr).
  destruct r as [l|]; [|by destruct (no_cycle bs)]. destruct Hr as (_ & Hnd & Hl & Hpf).
  assert (NoDup (reverse l)) as Hndr by (by rewrite reverse_Permutation).
  assert (forall c b, m !! c = Some b -> get_changeset_id b = c) as Hid.
  { intros c b Hb. by apply by_id_spec in Hb as [? _]. }
  assert (forall c b b', m !! c = Some b -> repo_blobstore repo !! c = Some b' -> b = b') as Hsame.
  { intros c b b' Hb Hb'. apply get_changeset_id_inj. rewrite (Hid c b Hb). symmetry. by apply (ro_blob _ Hok). }
  destruct (complete_changesets_spec (repoid repo) m Hid (reverse l) (repo_changesets repo))
    as (db & E & [C1 C2 C3 C4 C5]).
  - apply Hok.
  - pose proof (saved_length bs (reverse l) Hndr). unfold room, lenN in *. subst m. lia.
  - intros c b e Hb He. destruct (ro_entry _ Hok c e He) as (b' & Hb' & <-). by rewrite (Hsame c b b').
  - intros l1 c l2 b p El Hc Hp. destruct (decide (in_repo repo p)) as [|Hno]; [by left|]. right.
    pose proof (proj2 (by_id_spec bs c b Hc)) as Hin.
    destruct (Hpar b p Hin Hp) as [|(b' & Hb' & Ep)]; [done|]. split; [|exists b'; subst p; by apply by_id_lookup].
    pose proof (f_equal reverse El) as El'. rewrite reverse_involutive, reverse_app, reverse_cons, <- app_assoc in El'.
    apply elem_of_reverse, (Hpf (reverse l2) c (reverse l1) p El'). apply by_id_parents_edge. by exists b.
  - exists n0, (mkRepo (repoid repo) (repo_bookmarks repo) db (m ∪ repo_blobstore repo)). split.
    { intros k H0. unfold save_bonsai_changesets. fold m. by rewrite (Hk k H0), E. }
    assert (forall c b, (m ∪ repo_blobstore repo) !! c = Some b -> m !! c = Some b \/ repo_blobstore repo !! c = Some b) as Hun.
    { intros c b [?|[_ ?]]%lookup_union_Some_raw; [by left|by right]. }
    assert (forall c b, repo_blobstore repo !! c = Some b -> (m ∪ repo_blobstore repo) !! c = Some b) as Hold.
    { intros c b Hb. apply lookup_union_Some_raw. destruct (m !! c) as [b'|] eqn:Em; [left|by right].
      by rewrite (Hsame c b' b Em Hb). }
    rewrite Forall_forall in Hfr.
    assert (forall b, b ∈ bs -> m !! get_changeset_id b = Some b /\ get_changeset_id b ∈ reverse l) as Hnew.
    { intros b Hb. assert (m !! get_changeset_id b = Some b) as Hm by (by apply by_id_lookup). split; [done|].
      apply elem_of_reverse, Hl, dag_nodes_spec. left. rewrite lookup_fmap, Hm. by eexists. }
    split; cbn [repoid repo_bookmarks repo_changesets repo_blobstore].
    + split; cbn [repoid repo_bookmarks repo_changesets repo_blobstore]; [done| |].
      * intros c e [He|(b & Hb & He)]%C5.
        -- destruct (ro_entry _ Hok c e He) as (b & Hb & Hp). exists b. split; [by apply Hold|done].
        -- exists b. split; [by apply lookup_union_Some_raw; left|done].
      * intros c b [Hb|Hb]%Hun; [|by apply (ro_blob _ Hok)]. apply by_id_spec in Hb as [Hc Hb]. split; [done|by apply Hfr].
    + split; cbn [repoid repo_changesets repo_blobstore]; [done|intros c e; apply C3|done].
    + done.
    + pose proof (saved_length bs (reverse l) Hndr). unfold m in *. lia.
    + intros b Hb. destruct (Hnew b Hb) as [Hm Hin]. destruct (C4 _ b Hin Hm) as (e & He & _). split; [by exists e|].
      by apply lookup_union_Some_raw; left.
    + intros c [e [He|(b & Hb & _)]%C5]; [left; by exists e|right]. apply by_id_spec in Hb as [? ?]. by exists b.
Qed.
End repo.
