(* ===== verification/BookmarkList.v ===== *)
(** * Listing bookmarks

    Model of the names and prefixes of [src/bookmarks/src/lib.rs], of
    [list_by_prefix] in [src/bookmarks/dbbookmarks/src/lib.rs] with its two
    queries, and of the readers of [src/blobrepo/src/repo.rs] that list all
    bookmarks. [LIKE] is that of SQLite, which folds the case of ASCII
    letters. *)

From stdpp Require Import fin_maps.
From S2P Require Import Prelude Hash Bonsai Graph Changesets Bookmarks Repo.

(** ** Names and prefixes *)

Definition is_ascii (b : byte) : bool := in_range 0 127 b.

Inductive name_error := NonAscii (s : bytes).

Definition Bookmark_new (s : bytes) : outcome name_error Bookmark :=
  if forallb is_ascii s then Ok (mkBookmark s) else Err (NonAscii s).

Definition Bookmark_to_string (b : Bookmark) : bytes := bookmark b.

Record BookmarkPrefix := mkPrefix { bookmark_prefix : bytes }.

Definition BookmarkPrefix_new (s : bytes) : outcome name_error BookmarkPrefix :=
  if forallb is_ascii s then Ok (mkPrefix s) else Err (NonAscii s).

Definition BookmarkPrefix_empty : BookmarkPrefix := mkPrefix [].
Definition BookmarkPrefix_to_string (p : BookmarkPrefix) : bytes := bookmark_prefix p.
Definition BookmarkPrefix_is_empty (p : BookmarkPrefix) : bool := bool_decide (bookmark_prefix p = []).

(** ** [LIKE] *)

Definition percent : byte := x25.
Definition underscore : byte := x5f.

Definition fold_case (b : byte) : byte := if in_range 65 90 b then z2b (b2z b + 32) else b.

Fixpoint like (pattern : bytes) : bytes -> bool :=
  match pattern with
  | [] => fun s => match s with [] => true | _ => false end
  | c :: pattern =>
      if Byte.eqb c percent then
        fix any s := like pattern s || match s with [] => false | _ :: s => any s end
      else if Byte.eqb c underscore then
        fun s => match s with [] => false | _ :: s => like pattern s end
      else fun s => match s with [] => false | d :: s => Byte.eqb (fold_case c) (fold_case d) && like pattern s end
  end.

(** ** The queries *)

Section list.
Context {CH : Chrono} {MO : MapOrder}.

(** Rows come in an order that is not specified. *)
Definition rows_of (repo : RepositoryId) (tb : table) : list (Bookmark * ChangesetId) :=
  (fun x => (x.1.2, x.2)) <$> List.filter (fun x => (x.1.1 =? repo)%N) (map_order tb).

Definition SelectAll (repo : RepositoryId) (tb : table) : list (Bookmark * ChangesetId) := rows_of repo tb.

Definition SelectByPrefix (repo : RepositoryId) (prefix : BookmarkPrefix) (tb : table)
    : list (Bookmark * ChangesetId) :=
  List.filter (fun x => like (bookmark_prefix prefix ++ [percent]) (bookmark x.1)) (rows_of repo tb).

Definition list_by_prefix_impl (prefix : BookmarkPrefix) (repo : RepositoryId) (conn : tables)
    : list (Bookmark * ChangesetId) :=
  if BookmarkPrefix_is_empty prefix then SelectAll repo (bookmarks conn)
  else SelectByPrefix repo prefix (bookmarks conn).

Definition list_by_prefix (master : tables) (prefix : BookmarkPrefix) (repo : RepositoryId) :=
  list_by_prefix_impl prefix repo master.

Definition list_by_prefix_maybe_stale (replica : tables) (prefix : BookmarkPrefix) (repo : RepositoryId) :=
  list_by_prefix_impl prefix repo replica.

(** [BlobRepo]'s readers of all bookmarks. *)
Definition get_bonsai_bookmarks (repo : BlobRepo) : list (Bookmark * ChangesetId) :=
  list_by_prefix (repo_bookmarks repo) BookmarkPrefix_empty (repoid repo).

Definition get_bonsai_bookmarks_maybe_stale (replica : tables) (repo : BlobRepo) : list (Bookmark * ChangesetId) :=
  list_by_prefix_maybe_stale replica BookmarkPrefix_empty (repoid repo).
End list.

(** ** What is listed *)

Definition wild (b : byte) : Prop := b = percent \/ b = underscore.

(** [s] starts with [p], up to the case of letters. *)
Definition starts (p s : bytes) : Prop := (fold_case <$> p) `prefix_of` (fold_case <$> s).

Lemma byte_eqb_spec x y : reflect (x = y) (Byte.eqb x y).
Proof.
  destruct (Byte.eqb x y) eqn:E; constructor; [by apply byte_dec_bl|].
  intros ->. by rewrite byte_dec_lb in E.
Qed.

Lemma like_any s : like [percent] s = true.
Proof. induction s as [|b s IH]; [done|]. cbn in *. exact IH. Qed.

Lemma like_starts p : Forall (fun b => ~ wild b) p -> forall s, like (p ++ [percent]) s = true <-> starts p s.
Proof.
  unfold starts. induction 1 as [|c p Hc Hp IH]; intros s.
  - rewrite app_nil_l, like_any. split; [intros _; apply prefix_nil|done].
  - cbn [app like]. destruct (byte_eqb_spec c percent); [by destruct Hc; left|].
    destruct (byte_eqb_spec c underscore); [by destruct Hc; right|]. destruct s as [|d s].
    + split; [done|]. intros [k Hk]. done.
    + rewrite andb_true_iff, IH. cbn [fmap list_fmap]. destruct (byte_eqb_spec (fold_case c) (fold_case d)) as [->|Hne].
      * split; [intros [_ H]; by apply prefix_cons|intros H%prefix_cons_inv_2; done].
      * split; [by intros [? _]|]. intros H%prefix_cons_inv_1. done.
Qed.

(** Nothing that starts with a prefix is missed, wild or not. *)
Lemma starts_like p : forall s, starts p s -> like (p ++ [percent]) s = true.
Proof.
  unfold starts. induction p as [|c p IH]; intros s H; [apply like_any|].
  destruct s as [|d s]; [by destruct H|]. cbn [fmap list_fmap] in H.
  pose proof (prefix_cons_inv_1 _ _ _ _ H) as Hc. apply prefix_cons_inv_2, IH in H. cbn [app like].
  destruct (byte_eqb_spec c percent) as [->|].
  - destruct (like (p ++ [percent]) (d :: s)); [done|]. cbn [orb]. destruct s; by rewrite H.
  - destruct (byte_eqb_spec c underscore); [done|]. by rewrite Hc, H, byte_dec_lb.
Qed.

Section spec.
Context {CH : Chrono} {MO : MapOrder} {ML : MapOrderLaws MO}.

Lemma rows_of_spec repo tb n c : (n, c) ∈ rows_of repo tb <-> tb !! (repo, n) = Some c.
Proof.
  unfold rows_of. rewrite list_elem_of_fmap. split.
  - intros ([[r n'] c'] & [= -> ->] & H%list_elem_of_In%filter_In). destruct H as [H%list_elem_of_In Hr].
    apply N.eqb_eq in Hr as <-. rewrite map_order_perm in H. by apply elem_of_map_to_list in H.
  - intros H. exists (repo, n, c). split; [done|]. apply list_elem_of_In, filter_In. split; [|by apply N.eqb_eq].
    apply list_elem_of_In. rewrite map_order_perm. by apply elem_of_map_to_list.
Qed.

Lemma list_by_prefix_elem p repo db n c :
  (n, c) ∈ list_by_prefix_impl p repo db <->
  bookmarks db !! (repo, n) = Some c /\ (p = BookmarkPrefix_empty \/ like (bookmark_prefix p ++ [percent]) (bookmark n) = true).
Proof.
  unfold list_by_prefix_impl, BookmarkPrefix_is_empty. destruct p as [p]. cbn. destruct (bool_decide_reflect (p = [])) as [->|Hne].
  - unfold SelectAll. rewrite rows_of_spec. split; [by intros ?; split; [|left]|by intros [? _]].
  - unfold SelectByPrefix. rewrite list_elem_of_In, filter_In, <- list_elem_of_In, rows_of_spec. cbn.
    split; [intros [? ?]; split; [done|by right]|]. intros [? [[= ->]|?]]; done.
Qed.

(** [list_by_prefix] gives the bookmarks of the repository that start with
    the prefix, up to case, when the prefix has no wildcard; with one it may
    give more but misses none. *)
Theorem list_by_prefix_exact p repo db n c :
  (bookmarks db !! (repo, n) = Some c -> starts (bookmark_prefix p) (bookmark n) -> (n, c) ∈ list_by_prefix db p repo) /\
  (Forall (fun b => ~ wild b) (bookmark_prefix p) -> (n, c) ∈ list_by_prefix db p repo ->
   bookmarks db !! (repo, n) = Some c /\ starts (bookmark_prefix p) (bookmark n)).
Proof.
  unfold list_by_prefix. rewrite list_by_prefix_elem. split.
  - intros Hb Hs. split; [done|]. right. by apply starts_like.
  - intros Hw [Hb [->|Hl]]; (split; [done|]); [apply prefix_nil|]. by apply like_starts.
Qed.

(** Every bookmark is listed, once. *)
Lemma get_bonsai_bookmarks_spec repo n c :
  (n, c) ∈ get_bonsai_bookmarks repo <-> bookmarks (repo_bookmarks repo) !! (repoid repo, n) = Some c.
Proof. unfold get_bonsai_bookmarks, list_by_prefix. rewrite list_by_prefix_elem. split; [by intros [? _]|by intros; split; [|left]]. Qed.

(** The wildcards of a prefix are not escaped: [a_] lists [abc]. *)
Lemma list_by_prefix_wildcard c :
  (mkBookmark (bstr "abc"), c) ∈ list_by_prefix (mkTables {[(0%N, mkBookmark (bstr "abc")) := c]} [] []) (mkPrefix (bstr "a_")) 0%N.
Proof. apply list_by_prefix_elem. split; [apply lookup_singleton_eq|right; reflexivity]. Qed.
End spec.
