(* ===== verification/Phases.v ===== *)
(** * Phases

    Model of [src/phases/src/lib.rs] and [hint.rs]: the phases of changesets,
    the table that keeps them ([SqlPhases], schema in [src/phases/schemas/]),
    and [HintPhases], which computes what the table does not have from the
    bookmarks and the index of reachability. *)

From stdpp Require Import fin_maps.
From S2P Require Import Prelude Hash Bonsai Graph Frontier Changesets Bookmarks Repo BookmarkList.

(** ** Phases *)

Inductive Phase := Draft | Public.

#[export] Instance Phase_eq_dec : EqDecision Phase.
Proof. solve_decision. Defined.

Inductive phases_error :=
| PhasesError (buf : bytes)
| StoreFailed
| ReachabilityFailed (e : fetch_error).

Definition Phase_to_string (p : Phase) : bytes :=
  match p with Draft => bstr "Draft" | Public => bstr "Public" end.

(** [TryFrom<IOBuf>]. *)
Definition Phase_try_from (v : bytes) : outcome phases_error Phase :=
  if utf8_valid v then
    if decide (v = bstr "Draft") then Ok Draft
    else if decide (v = bstr "Public") then Ok Public
    else Err (PhasesError v)
  else Err (PhasesError v).

(** [ConvIr::new], of a value that is a string of bytes. *)
Definition Phase_conv_new (v : bytes) : outcome phases_error Phase :=
  if forallb is_ascii v then
    if decide (v = bstr "Draft") then Ok Draft
    else if decide (v = bstr "Public") then Ok Public
    else Err (PhasesError v)
  else Err (PhasesError v).

Record PhasesMapping := mkMapping {
  calculated : gmap ChangesetId Phase;
  unknown : list ChangesetId;
  maybe_public_heads : option (gset ChangesetId)
}.

Definition PhasesMapping_default : PhasesMapping := mkMapping ∅ [] None.

(** ** The trait

    An operation may change the state [S] of its storage. *)

Definition io (S A : Type) : Type := eio phases_error S A.

Section trait.
Context {CH : Chrono}.

Class Phases (S : Type) := {
  add : BlobRepo -> ChangesetId -> Phase -> io S bool;
  add_all : BlobRepo -> list (ChangesetId * Phase) -> io S unit;
  get : BlobRepo -> ChangesetId -> io S (option Phase);
  get_all : BlobRepo -> list ChangesetId -> io S PhasesMapping;
  get_all_with_bookmarks : BlobRepo -> list ChangesetId -> option (gset ChangesetId) -> io S PhasesMapping
}.

(** ** [SqlPhases] *)

(** The rows of [phases]: (repo_id, cs_id) is the primary key. *)
Abbreviation phases_table := (gmap (RepositoryId * ChangesetId) Phase).

Inductive SqlEngine := Mysql | Sqlite.

Record SqlPhases := mkSqlPhases {
  engine : SqlEngine;
  write_connection : phases_table;
  read_connection : phases_table
}.

(** One row of [InsertPhase], with the count of affected rows: an update counts
    as two, or as none when it changes nothing. *)
Definition insert_row (e : SqlEngine) (tb : phases_table) (k : RepositoryId * ChangesetId) (phase : Phase)
    : phases_table * nat :=
  match tb !! k with
  | None => (<[k := phase]> tb, 1)
  | Some old =>
      match e with
      | Mysql => (<[k := phase]> tb, if decide (old = phase) then 0 else 2)
      | Sqlite => (tb, 0)
      end
  end.

Definition InsertPhase (e : SqlEngine) (values : list (RepositoryId * ChangesetId * Phase)) (tb : phases_table)
    : phases_table * nat :=
  foldl (fun '(tb, n) '(repo_id, cs_id, phase) =>
           let '(tb, k) := insert_row e tb (repo_id, cs_id) phase in (tb, n + k)) (tb, 0) values.

Context {MO : MapOrder}.

Definition SelectPhase (repo_id : RepositoryId) (cs_id : ChangesetId) (tb : phases_table) : list Phase :=
  option_list (tb !! (repo_id, cs_id)).

Definition SelectPhases (repo_id : RepositoryId) (cs_ids : list ChangesetId) (tb : phases_table)
    : list (ChangesetId * Phase) :=
  (fun x => (x.1.2, x.2)) <$>
    List.filter (fun x => (x.1.1 =? repo_id)%N && bool_decide (x.1.2 ∈ cs_ids)) (map_order tb).

(** [collect::<HashMap<_, _>>()]. *)
Definition collect_map {A} (rows : list (ChangesetId * A)) : gmap ChangesetId A :=
  foldl (fun m '(cs_id, a) => <[cs_id := a]> m) ∅ rows.

Definition sql_write (s : SqlPhases) (tb : phases_table) : SqlPhases :=
  mkSqlPhases (engine s) tb (read_connection s).

Definition sql_add (repo : BlobRepo) (cs_id : ChangesetId) (phase : Phase) : io SqlPhases bool := fun s =>
  let '(tb, affected_rows) := InsertPhase (engine s) [(repoid repo, cs_id, phase)] (write_connection s) in
  (sql_write s tb, Ok (1 <=? affected_rows)%nat).

Definition sql_add_all (repo : BlobRepo) (phases : list (ChangesetId * Phase)) : io SqlPhases unit := fun s =>
  if decide (phases = []) then (s, Ok tt)
  else
    let values := (fun x => (repoid repo, x.1, x.2)) <$> phases in
    (sql_write s (InsertPhase (engine s) values (write_connection s)).1, Ok tt).

Definition sql_get (repo : BlobRepo) (cs_id : ChangesetId) : io SqlPhases (option Phase) := fun s =>
  (s, Ok (head (SelectPhase (repoid repo) cs_id (read_connection s)))).

Definition sql_get_all (repo : BlobRepo) (cs_ids : list ChangesetId) : io SqlPhases PhasesMapping := fun s =>
  if decide (cs_ids = []) then (s, Ok PhasesMapping_default)
  else
    let calculated := collect_map (SelectPhases (repoid repo) cs_ids (read_connection s)) in
    let unknown := List.filter (fun cs_id => negb (bool_decide (is_Some (calculated !! cs_id)))) cs_ids in
    (s, Ok (mkMapping calculated unknown None)).

Definition sql_get_all_with_bookmarks (repo : BlobRepo) (cs_ids : list ChangesetId)
    (maybe_public_heads : option (gset ChangesetId)) : io SqlPhases PhasesMapping :=
  m ← sql_get_all repo cs_ids;
  mret (mkMapping (calculated m) (unknown m) maybe_public_heads).

#[export] Instance SqlPhases_phases : Phases SqlPhases :=
  {| add := sql_add; add_all := sql_add_all; get := sql_get; get_all := sql_get_all;
     get_all_with_bookmarks := sql_get_all_with_bookmarks |}.

(** ** [PhasesReachabilityHint] *)

Context {HO : HashOrder} {FU : FuturesUnordered} (skip_index : ChangesetFetcher -> ReachabilityIndex).

(** [skip_while(|x| !x).take(1).collect()] of the answers. *)
Fixpoint first_reachable (answers : list (outcome fetch_error bool)) : outcome phases_error Phase :=
  match answers with
  | [] => Ok Draft
  | Ok true :: _ => Ok Public
  | Ok false :: answers => first_reachable answers
  | Err e :: _ => Err (ReachabilityFailed e)
  | Panic :: _ => Panic
  end.

Definition hint_get (changeset_fetcher : ChangesetFetcher) (cs_id : ChangesetId) (bookmarks_cs_ids : gset ChangesetId)
    : outcome phases_error Phase :=
  if decide (cs_id ∈ bookmarks_cs_ids) then Ok Public
  else
    let vecf := (fun public_cs => query_reachability (ReachabilityIndex := skip_index changeset_fetcher) public_cs cs_id)
                  <$> hash_order bookmarks_cs_ids in
    first_reachable (futures_unordered vecf).

Definition hint_get_all (changeset_fetcher : ChangesetFetcher) (cs_ids : list ChangesetId)
    (bookmarks_cs_ids : gset ChangesetId) : outcome phases_error (gmap ChangesetId Phase) :=
  vec ← collect (fun cs_id => phase ← hint_get changeset_fetcher cs_id bookmarks_cs_ids; Ok (cs_id, phase))
          (futures_unordered cs_ids);
  Ok (collect_map vec).

(** ** [HintPhases] *)

Definition is_public (x : ChangesetId * Phase) : bool := bool_decide (x.2 = Public).

(** The heads of the bookmarks: known, not needed, or fetched. *)
Definition public_heads (repo : BlobRepo) (not_found_in_db : list ChangesetId)
    (maybe_public_heads : option (gset ChangesetId)) : option (gset ChangesetId) :=
  match maybe_public_heads with
  | Some heads => Some heads
  | None => if decide (not_found_in_db = []) then None
            else Some (list_to_set (get_bonsai_bookmarks repo).*2)
  end.

Definition calculate (repo : BlobRepo) (not_found_in_db : list ChangesetId) (heads : option (gset ChangesetId))
    : outcome phases_error (gmap ChangesetId Phase) :=
  match heads with
  | Some heads => hint_get_all (get_changeset_fetcher repo) not_found_in_db heads
  | None => Ok ∅
  end.

Context {S : Type} {phases_store : Phases S}.

Definition HintPhases_add (repo : BlobRepo) (cs_id : ChangesetId) (phase : Phase) : io S bool :=
  if decide (phase = Public) then add repo cs_id phase else mret false.

Definition HintPhases_add_all (repo : BlobRepo) (phases : list (ChangesetId * Phase)) : io S unit :=
  add_all repo (List.filter is_public phases).

Definition HintPhases_get_all_with_bookmarks (repo : BlobRepo) (cs_ids : list ChangesetId)
    (maybe_public_heads : option (gset ChangesetId)) : io S PhasesMapping :=
  phases_mapping ← get_all repo cs_ids;
  let not_found_in_db := unknown phases_mapping in
  let found_in_db := calculated phases_mapping in
  let maybe_public_heads := public_heads repo not_found_in_db maybe_public_heads in
  calculated ← lift (calculate repo not_found_in_db maybe_public_heads);
  let add_to_db := List.filter is_public (map_order calculated) in
  _ ← add_all repo add_to_db;
  mret (mkMapping (found_in_db ∪ calculated) [] maybe_public_heads).

Definition HintPhases_get_all (repo : BlobRepo) (cs_ids : list ChangesetId) : io S PhasesMapping :=
  HintPhases_get_all_with_bookmarks repo cs_ids None.

Definition HintPhases_get (repo : BlobRepo) (cs_id : ChangesetId) : io S (option Phase) :=
  m ← HintPhases_get_all repo [cs_id];
  mret (calculated m !! cs_id).
End trait.

(** The instance is chosen by name: a store has the type of its own state. *)
Definition HintPhases {CH : Chrono} {MO : MapOrder} {HO : HashOrder} {FU : FuturesUnordered}
    (skip_index : ChangesetFetcher -> ReachabilityIndex) {S} (phases_store : Phases S) : Phases S :=
  {| add := HintPhases_add; add_all := HintPhases_add_all;
     get := HintPhases_get skip_index; get_all := HintPhases_get_all skip_index;
     get_all_with_bookmarks := HintPhases_get_all_with_bookmarks skip_index |}.

(** ** What is relied on of a store

    A read of many gives what [look] has of each; [entry] are the rows that
    anyone may still read, and a write adds only the rows it is given. *)

Definition mapping_of (look : ChangesetId -> option Phase) (cs_ids : list ChangesetId) : PhasesMapping :=
  mkMapping (collect_map (omap (fun c => (fun p => (c, p)) <$> look c) cs_ids))
    (List.filter (fun c => negb (bool_decide (is_Some (look c)))) cs_ids) None.

Class StoreLaws {CH : Chrono} {S} (P : Phases S) (look : S -> RepositoryId -> ChangesetId -> option Phase)
    (entry : S -> RepositoryId -> ChangesetId -> Phase -> Prop) : Prop := {
  look_entry s r c p : look s r c = Some p -> entry s r c p;
  get_all_law s repo cs_ids s' res : get_all repo cs_ids s = (s', res) ->
    s' = s /\ forall m, res = Ok m -> m = mapping_of (look s (repoid repo)) cs_ids;
  add_law s repo cs_id phase s' res r c p : add repo cs_id phase s = (s', res) -> entry s' r c p ->
    entry s r c p \/ (r = repoid repo /\ c = cs_id /\ p = phase);
  add_all_law s repo phases s' res r c p : add_all repo phases s = (s', res) -> entry s' r c p ->
    entry s r c p \/ (r = repoid repo /\ (c, p) ∈ phases)
}.

Section maps.
Lemma collect_map_elem {A} (l : list (ChangesetId * A)) c a : collect_map l !! c = Some a -> (c, a) ∈ l.
Proof.
  induction l as [|[c' a'] l IH] using rev_ind; [cbn; by rewrite lookup_empty|].
  unfold collect_map in *. rewrite foldl_snoc. cbn. rewrite elem_of_app.
  destruct (decide (c = c')) as [->|Hne].
  - rewrite lookup_insert_eq. intros [= ->]. right. by left.
  - rewrite lookup_insert_ne by done. intros H. left. by apply IH.
Qed.

(** The rows of a function: the order and repetitions do not matter. *)
Lemma collect_map_fun {A} (l : list (ChangesetId * A)) (f : ChangesetId -> option A) :
  (forall c a, (c, a) ∈ l -> f c = Some a) ->
  forall c a, collect_map l !! c = Some a <-> (c, a) ∈ l.
Proof.
  intros Hf c a. split; [apply collect_map_elem|]. intros Hin.
  destruct (collect_map l !! c) as [a'|] eqn:E.
  - pose proof (Hf _ _ (collect_map_elem _ _ _ E)). pose proof (Hf _ _ Hin). congruence.
  - exfalso. revert E Hin. clear Hf. induction l as [|[c' a'] l IH] using rev_ind; [by intros _ ?%elem_of_nil|].
    unfold collect_map in *. rewrite foldl_snoc. cbn. rewrite elem_of_app. destruct (decide (c = c')) as [->|Hne].
    + by rewrite lookup_insert_eq.
    + rewrite lookup_insert_ne by done. intros E [H|[= <- _]%list_elem_of_singleton]; [by apply IH|done].
Qed.

Lemma mapping_of_calculated look cs_ids c p :
  calculated (mapping_of look cs_ids) !! c = Some p <-> c ∈ cs_ids /\ look c = Some p.
Proof.
  unfold mapping_of. cbn. rewrite (collect_map_fun _ look).
  - rewrite list_elem_of_omap. split.
    + intros (c' & Hc & E). destruct (look c') eqn:El; [|done]. cbn in E. injection E as <- <-. done.
    + intros [Hc El]. exists c. by rewrite El.
  - intros c' a' (x & Hx & E)%list_elem_of_omap. destruct (look x) eqn:El; [|done]. cbn in E. by injection E as <- <-.
Qed.

Lemma mapping_of_unknown look cs_ids c : c ∈ unknown (mapping_of look cs_ids) <-> c ∈ cs_ids /\ look c = None.
Proof.
  unfold mapping_of. cbn. rewrite list_elem_of_In, filter_In, <- list_elem_of_In.
  destruct (look c); cbn; naive_solver.
Qed.
End maps.

(** ** The table keeps the laws *)

Section sql_laws.
Context {CH : Chrono} {MO : MapOrder} {ML : MapOrderLaws MO}.

Definition sql_look (s : SqlPhases) (r : RepositoryId) (c : ChangesetId) : option Phase := read_connection s !! (r, c).
Definition sql_entry (s : SqlPhases) (r : RepositoryId) (c : ChangesetId) (p : Phase) : Prop :=
  write_connection s !! (r, c) = Some p \/ read_connection s !! (r, c) = Some p.

Lemma insert_row_spec e tb k phase k' p : (insert_row e tb k phase).1 !! k' = Some p ->
  tb !! k' = Some p \/ (k' = k /\ p = phase).
Proof.
  unfold insert_row. destruct (tb !! k) as [old|] eqn:Ek; [destruct e|]; cbn; [|by left|];
    (destruct (decide (k' = k)) as [->|Hne]; [rewrite lookup_insert_eq; intros [= <-]; by right|rewrite lookup_insert_ne by done; by left]).
Qed.

Lemma InsertPhase_cons e repo_id cs_id phase values tb :
  (InsertPhase e ((repo_id, cs_id, phase) :: values) tb).1 =
  (InsertPhase e values (insert_row e tb (repo_id, cs_id) phase).1).1.
Proof.
  unfold InsertPhase. cbn [foldl]. destruct (insert_row e tb (repo_id, cs_id) phase) as [tb' k]. cbn [fst].
  assert (forall n n' (tb : gmap (RepositoryId * ChangesetId) Phase),
    (foldl (fun '(tb, n) '(repo_id, cs_id, phase) =>
       let '(tb, k) := insert_row e tb (repo_id, cs_id) phase in (tb, n + k)) (tb, n) values).1 =
    (foldl (fun '(tb, n) '(repo_id, cs_id, phase) =>
       let '(tb, k) := insert_row e tb (repo_id, cs_id) phase in (tb, n + k)) (tb, n') values).1) as H; [|apply H].
  clear. induction values as [|[[r c] p] values IH]; intros n n' tb; [done|]. cbn [foldl].
  destruct (insert_row e tb (r, c) p) as [tb' k]. apply IH.
Qed.

Lemma InsertPhase_spec e values : forall tb k p, (InsertPhase e values tb).1 !! k = Some p ->
  tb !! k = Some p \/ (k, p) ∈ values.
Proof.
  induction values as [|[[r c] phase] values IH]; intros tb k p H; [by left|].
  rewrite InsertPhase_cons in H. apply IH in H as [H|H]; [|right; by right].
  apply insert_row_spec in H as [H|[-> ->]]; [by left|right; by left].
Qed.

Lemma sql_get_all_mapping repo cs_ids s :
  sql_get_all repo cs_ids s = (s, Ok (mapping_of (sql_look s (repoid repo)) cs_ids)).
Proof.
  unfold sql_get_all. case_decide as Hnil; [by subst|]. f_equal. f_equal.
  assert (collect_map (SelectPhases (repoid repo) cs_ids (read_connection s)) =
    calculated (mapping_of (sql_look s (repoid repo)) cs_ids)) as Hc.
  { apply map_eq. intros c. apply option_eq. intros p. rewrite mapping_of_calculated.
    assert (forall c p, (c, p) ∈ SelectPhases (repoid repo) cs_ids (read_connection s) <->
      c ∈ cs_ids /\ sql_look s (repoid repo) c = Some p) as Hsel.
    { clear c p. intros c p. unfold SelectPhases, sql_look. rewrite list_elem_of_fmap. split.
      - intros ([[r c'] p'] & [= -> ->] & [H [Hr%N.eqb_eq Hin%bool_decide_eq_true]%andb_true_iff]%list_elem_of_In%filter_In).
        cbn in Hr, Hin. subst r. split; [done|]. apply list_elem_of_In in H. rewrite map_order_perm in H.
        by apply elem_of_map_to_list in H.
      - intros [Hin H]. exists (repoid repo, c, p). split; [done|]. apply list_elem_of_In, filter_In. cbn.
        rewrite N.eqb_refl, bool_decide_eq_true_2 by done. split; [|done].
        apply list_elem_of_In. rewrite map_order_perm. by apply elem_of_map_to_list. }
    rewrite (collect_map_fun _ (sql_look s (repoid repo))); [apply Hsel|]. by intros c' a' [_ H]%Hsel. }
  rewrite Hc. unfold mapping_of. f_equal. apply List.filter_ext_in. intros c Hin%list_elem_of_In. f_equal.
  apply bool_decide_ext. split; intros [p H].
  - apply mapping_of_calculated in H as [_ H]. by exists p.
  - exists p. by apply mapping_of_calculated.
Qed.

#[export] Instance sql_store_laws : StoreLaws SqlPhases_phases sql_look sql_entry.
Proof.
  split.
  - intros s r c p H. by right.
  - intros s repo cs_ids s' res. cbn. rewrite sql_get_all_mapping. intros [= <- <-]. split; [done|]. by intros m [= <-].
  - intros s repo cs_id phase s' res r c p. cbn. unfold sql_add.
    pose proof (InsertPhase_spec (engine s) [(repoid repo, cs_id, phase)] (write_connection s) (r, c) p) as Hi.
    destruct (InsertPhase _ _ _) as [tb n]. intros [= <- _] [H|H]; [|by left; right].
    destruct (Hi H) as [H'|[= -> -> ->]%list_elem_of_singleton]; [by left; left|by right].
  - intros s repo phases s' res r c p. cbn. unfold sql_add_all. case_decide; intros [= <- _]; [by left|].
    intros [H'|H']; [|by left; right]. apply InsertPhase_spec in H' as [H'|H']; [by left; left|].
    apply list_elem_of_fmap in H' as ([c' p'] & [= -> -> ->] & Hin). by right.
Qed.
End sql_laws.

(** ** What the phases are *)

Section hint_spec.
Context {CH : Chrono} {BH : BonsaiHash} {MO : MapOrder} {ML : MapOrderLaws MO} {HO : HashOrder} {HL : HashOrderLaws HO}
  {FU : FuturesUnordered} {FL : FuturesUnorderedLaws FU} {skip_index : ChangesetFetcher -> ReachabilityIndex}.

(** The index is right on the graph of the repository, as
    [Skiplist.skiplist_lawful] says of an index built on it. *)
Definition index_right (repo : BlobRepo) : Prop :=
  ReachabilityLaws (F := get_changeset_fetcher repo) (in_repo repo) (skip_index (get_changeset_fetcher repo)).

(** A public changeset is an ancestor of a public head. *)
Definition public_in (repo : BlobRepo) (heads : gset ChangesetId) (c : ChangesetId) : Prop :=
  exists h, h ∈ heads /\ ancestor (F := get_changeset_fetcher repo) c h.

Lemma first_reachable_spec l : (forall x, x ∈ l -> exists b, x = Ok b) ->
  exists p, first_reachable l = Ok p /\ (p = Public <-> Ok true ∈ l).
Proof.
  induction l as [|x l IH]; intros Hl; [exists Draft; split; [done|]; split; [done|by intros ?%elem_of_nil]|].
  destruct (Hl x) as [[] ->]; [by left| |]; cbn.
  - exists Public. split; [done|]. split; [intros _; by left|done].
  - destruct IH as (p & -> & Hp); [intros y Hy; apply Hl; by right|]. exists p. split; [done|]. rewrite Hp, elem_of_cons.
    split; [by right|]. by intros [[=]|?].
Qed.

Lemma hint_get_exact repo c heads : repo_ok repo -> index_right repo -> in_repo repo c -> (forall h, h ∈ heads -> in_repo repo h) ->
  exists p, hint_get skip_index (get_changeset_fetcher repo) c heads = Ok p /\ (p = Public <-> public_in repo heads c).
Proof.
  intros Hok L Hc Hheads. unfold hint_get, public_in. case_decide as Hin.
  { exists Public. split; [done|]. split; [intros _; by exists c|done]. }
  assert (forall h, h ∈ heads -> exists b, query_reachability (ReachabilityIndex := skip_index (get_changeset_fetcher repo)) h c = Ok b /\
    (b = true <-> ancestor (F := get_changeset_fetcher repo) c h)) as Hq.
  { intros h Hh. apply (query_reachability_exact (ReachabilityLaws := L) h c); [by apply Hheads|done]. }
  assert (forall x, x ∈ futures_unordered ((fun h => query_reachability (ReachabilityIndex := skip_index (get_changeset_fetcher repo)) h c)
      <$> hash_order heads) <-> exists h, h ∈ heads /\ x = query_reachability (ReachabilityIndex := skip_index (get_changeset_fetcher repo)) h c) as Hx.
  { intros x. rewrite futures_unordered_perm, list_elem_of_fmap. setoid_rewrite hash_order_perm. setoid_rewrite elem_of_elements. naive_solver. }
  match goal with |- context [first_reachable ?l] => destruct (first_reachable_spec l) as (p & -> & Hp) end.
  { intros x (h & Hh & ->)%Hx. destruct (Hq h Hh) as (b & -> & _). by exists b. }
  exists p. split; [done|]. rewrite Hp, Hx. split.
  - intros (h & Hh & E). exists h. split; [done|]. destruct (Hq h Hh) as (b & Eb & Hb). rewrite Eb in E. injection E as <-. by apply Hb.
  - intros (h & Hh & Ha). exists h. split; [done|]. destruct (Hq h Hh) as (b & -> & Hb). by rewrite (proj2 Hb Ha).
Qed.

Lemma hint_get_all_exact repo cs_ids heads : repo_ok repo -> index_right repo -> (forall c, c ∈ cs_ids -> in_repo repo c) ->
  (forall h, h ∈ heads -> in_repo repo h) ->
  exists m, hint_get_all skip_index (get_changeset_fetcher repo) cs_ids heads = Ok m /\
    forall c p, m !! c = Some p <-> c ∈ cs_ids /\ (p = Public <-> public_in repo heads c).
Proof.
  intros Hok L Hids Hheads. set (phase c := default Draft (ok (hint_get skip_index (get_changeset_fetcher repo) c heads))).
  assert (forall c, c ∈ cs_ids -> hint_get skip_index (get_changeset_fetcher repo) c heads = Ok (phase c) /\
    (phase c = Public <-> public_in repo heads c)) as Hph.
  { intros c Hc. destruct (hint_get_exact repo c heads Hok L (Hids c Hc) Hheads) as (p & E & Hp). unfold phase. by rewrite E. }
  unfold hint_get_all. rewrite (collect_Ok_map _ (fun c => (c, phase c))).
  2:{ apply Forall_forall. intros c Hc. rewrite futures_unordered_perm in Hc. by rewrite (proj1 (Hph c Hc)). }
  eexists. split; [done|]. intros c p.
  rewrite (collect_map_fun _ (fun c => Some (phase c))) by (intros c' a' (x & [= -> ->] & _)%list_elem_of_fmap; done).
  rewrite list_elem_of_fmap. setoid_rewrite futures_unordered_perm. split.
  - intros (x & [= -> ->] & Hx). split; [done|]. by apply Hph.
  - intros [Hc Hp]. exists c. split; [|done]. destruct (Hph c Hc) as [_ Hq]. f_equal. rewrite <- Hq in Hp.
    destruct p, (phase c); naive_solver.
Qed.

(** The heads in use are changesets of the repository. *)
Definition heads_ok (repo : BlobRepo) (heads : option (gset ChangesetId)) : Prop :=
  (forall n c, bookmarks (repo_bookmarks repo) !! (repoid repo, n) = Some c -> in_repo repo c) /\
  (forall hs, heads = Some hs -> forall h, h ∈ hs -> in_repo repo h).

Lemma public_heads_ok repo ids heads hs : heads_ok repo heads -> public_heads repo ids heads = Some hs ->
  forall h, h ∈ hs -> in_repo repo h.
Proof.
  intros [Hb Hh] E h Hin. unfold public_heads in E. destruct heads as [hs'|]; [injection E as ->; by apply (Hh hs)|].
  case_decide; [done|]. injection E as <-. apply elem_of_list_to_set, list_elem_of_fmap in Hin as ([n c] & -> & Hin).
  apply get_bonsai_bookmarks_spec in Hin. by apply (Hb n).
Qed.

Lemma calculate_exact repo ids heads : repo_ok repo -> index_right repo -> heads_ok repo heads -> (forall c, c ∈ ids -> in_repo repo c) ->
  exists m, calculate skip_index repo ids (public_heads repo ids heads) = Ok m /\
    forall c p, m !! c = Some p <-> c ∈ ids /\ (p = Public <-> public_in repo (default ∅ (public_heads repo ids heads)) c).
Proof.
  intros Hok L Hh Hids. unfold calculate. destruct (public_heads repo ids heads) as [hs|] eqn:E.
  - apply hint_get_all_exact; [done|done|done|]. by eapply public_heads_ok.
  - exists ∅. split; [done|]. intros c p. rewrite lookup_empty. unfold public_heads in E. destruct heads; [done|].
    case_decide as Hnil; [|done]. subst ids. split; [done|]. by intros [?%elem_of_nil _].
Qed.

Section store.
Context {S : Type} {P : Phases S} {look : S -> RepositoryId -> ChangesetId -> option Phase}
  {entry : S -> RepositoryId -> ChangesetId -> Phase -> Prop} {SL : StoreLaws P look entry}.

(** What the store has of a changeset, and else what the heads say. *)
Definition answered (repo : BlobRepo) (s : S) (heads : gset ChangesetId) (cs_ids : list ChangesetId) (m : PhasesMapping) : Prop :=
  forall c p, calculated m !! c = Some p <->
    c ∈ cs_ids /\ (look s (repoid repo) c = Some p \/
                   (look s (repoid repo) c = None /\ (p = Public <-> public_in repo heads c))).

Definition missing (repo : BlobRepo) (s : S) (cs_ids : list ChangesetId) : list ChangesetId :=
  unknown (mapping_of (look s (repoid repo)) cs_ids).

Lemma hint_phases_ok repo cs_ids heads s s' res : repo_ok repo -> index_right repo -> heads_ok repo heads ->
  (forall c, c ∈ cs_ids -> in_repo repo c) ->
  HintPhases_get_all_with_bookmarks skip_index repo cs_ids heads s = (s', res) ->
  (forall r c p, entry s' r c p -> entry s r c p \/
     (r = repoid repo /\ p = Public /\ c ∈ cs_ids /\ public_in repo (default ∅ (public_heads repo (missing repo s cs_ids) heads)) c)) /\
  forall m, res = Ok m -> unknown m = [] /\ maybe_public_heads m = public_heads repo (missing repo s cs_ids) heads /\
    answered repo s (default ∅ (maybe_public_heads m)) cs_ids m.
Proof.
  intros Hok L Hh Hids. unfold HintPhases_get_all_with_bookmarks, mbind, eio_bind.
  destruct (get_all repo cs_ids s) as [s1 r1] eqn:E1. apply get_all_law in E1 as [-> H1].
  destruct r1 as [m1|e|]; [|intros [= <- <-]; split; [by left|done]..].
  rewrite (H1 m1 eq_refl). fold (missing repo s cs_ids). set (hs := public_heads repo (missing repo s cs_ids) heads).
  destruct (calculate_exact repo (missing repo s cs_ids) heads Hok L Hh) as (m & Em & Hm).
  { intros c [Hc _]%mapping_of_unknown. by apply Hids. }
  fold hs in Em, Hm. unfold lift. rewrite Em.
  assert (forall c, (c, Public) ∈ List.filter is_public (map_order m) -> c ∈ cs_ids /\ public_in repo (default ∅ hs) c) as Hpub.
  { intros c [Hin _]%list_elem_of_In%filter_In. apply list_elem_of_In in Hin. rewrite map_order_perm in Hin.
    apply elem_of_map_to_list, Hm in Hin as [[Hin _]%mapping_of_unknown Hp]. split; [done|by apply Hp]. }
  destruct (add_all repo _ s) as [s2 r2] eqn:E2.
  assert (forall r c p, entry s2 r c p -> entry s r c p \/
    (r = repoid repo /\ p = Public /\ c ∈ cs_ids /\ public_in repo (default ∅ hs) c)) as Hent.
  { intros r c p H. destruct (add_all_law _ _ _ _ _ _ _ _ E2 H) as [?|[-> Hin]]; [by left|right].
    assert (p = Public) as -> by (apply list_elem_of_In, filter_In in Hin as [_ Hp]; by apply bool_decide_eq_true in Hp).
    by apply Hpub in Hin as [? ?]. }
  destruct r2 as [[]|e|]; intros [= <- <-]; (split; [exact Hent|]); [|done..].
  intros m' [= <-]. cbn. split; [done|]. split; [done|]. intros c p. cbn. rewrite lookup_union_Some_raw.
  rewrite (mapping_of_calculated (look s (repoid repo)) cs_ids), Hm. unfold missing. rewrite mapping_of_unknown. split.
  - intros [[Hc Hl]|(_ & [Hc Hn] & Hp)]; (split; [done|]); [by left|by right].
  - intros [Hc [Hl|[Hl Hp]]]; [by left|right]. split; [|done].
    apply eq_None_not_Some. intros [q [_ Hq]%mapping_of_calculated]. congruence.
Qed.
End store.

(** ** [HintPhases] over the table *)

Lemma InsertPhase_stored e values : forall tb k, is_Some (tb !! k) \/ (exists p, (k, p) ∈ values) ->
  is_Some ((InsertPhase e values tb).1 !! k).
Proof.
  induction values as [|[[r c] phase] values IH]; intros tb k H.
  { destruct H as [H|[p ?%elem_of_nil]]; done. }
  rewrite InsertPhase_cons. apply IH. unfold insert_row.
  destruct (decide (k = (r, c))) as [->|Hne].
  - left. destruct (tb !! (r, c)) as [old|] eqn:Ek; [destruct e|]; cbn; rewrite ?lookup_insert_eq, ?Ek; by eexists.
  - destruct H as [H|[p [[= -> ->]|H]%elem_of_cons]]; [left|done|right; by exists p].
    destruct (tb !! (r, c)); [destruct e|]; cbn; rewrite ?lookup_insert_ne by done; done.
Qed.

(** The table never fails. *)
Lemma hint_phases_sql repo cs_ids heads s : repo_ok repo -> index_right repo -> heads_ok repo heads ->
  (forall c, c ∈ cs_ids -> in_repo repo c) ->
  exists m new, HintPhases_get_all_with_bookmarks skip_index repo cs_ids heads s = ((sql_add_all repo new s).1, Ok m) /\
    forall c, calculated m !! c = Some Public -> sql_look s (repoid repo) c = None -> (c, Public) ∈ new.
Proof.
  intros Hok L Hh Hids. unfold HintPhases_get_all_with_bookmarks, mbind, eio_bind. cbn [get_all SqlPhases_phases].
  rewrite sql_get_all_mapping. fold (missing (look := sql_look) repo s cs_ids).
  destruct (calculate_exact repo (missing (look := sql_look) repo s cs_ids) heads Hok L Hh) as (m & Em & Hm).
  { intros c [Hc _]%mapping_of_unknown. by apply Hids. }
  unfold lift. rewrite Em. cbn [add_all SqlPhases_phases].
  assert (forall new, (sql_add_all repo new s).2 = Ok tt) as Hadd by (intros new; unfold sql_add_all; by case_decide).
  set (new := List.filter is_public (map_order m)). specialize (Hadd new).
  destruct (sql_add_all repo new s) as [s' r] eqn:E. cbn in Hadd. subst r.
  eexists _, new. rewrite E. split; [done|]. cbn. intros c Hc Hn. apply lookup_union_Some_raw in Hc as [Hc|[_ Hc]].
  - apply (mapping_of_calculated (sql_look s (repoid repo))) in Hc as [_ Hc]. congruence.
  - apply list_elem_of_In, filter_In. split; [|by apply bool_decide_eq_true]. apply list_elem_of_In.
    rewrite map_order_perm. by apply elem_of_map_to_list.
Qed.

(** [HintPhases] over the SQL table always answers, for each changeset
    that was asked for and no other: with what the replica of the table has,
    and where that has nothing, [Public] exactly for the ancestors of the
    public heads (the given ones, else the bookmarks, which are read only if
    something is missing). What it finds to be public is in the table
    afterwards, and it adds nothing else. *)
Theorem hint_phases_exact repo cs_ids heads s : repo_ok repo -> index_right repo -> heads_ok repo heads ->
  (forall c, c ∈ cs_ids -> in_repo repo c) ->
  exists s' m, get_all_with_bookmarks (Phases := HintPhases skip_index SqlPhases_phases) repo cs_ids heads s = (s', Ok m) /\
    unknown m = [] /\
    maybe_public_heads m = public_heads repo (missing (look := sql_look) repo s cs_ids) heads /\
    answered (look := sql_look) repo s (default ∅ (maybe_public_heads m)) cs_ids m /\
    read_connection s' = read_connection s /\
    (forall c, calculated m !! c = Some Public -> sql_look s (repoid repo) c = None ->
       is_Some (write_connection s' !! (repoid repo, c))) /\
    (forall r c p, sql_entry s' r c p -> sql_entry s r c p \/
       (r = repoid repo /\ p = Public /\ c ∈ cs_ids /\ public_in repo (default ∅ (maybe_public_heads m)) c)).
Proof.
  intros Hok L Hh Hids. cbn [get_all_with_bookmarks HintPhases].
  destruct (hint_phases_sql repo cs_ids heads s Hok L Hh Hids) as (m & new & E & Hnew).
  destruct (hint_phases_ok (look := sql_look) (entry := sql_entry) repo cs_ids heads s _ _ Hok L Hh Hids E) as [Hent Hm].
  destruct (Hm m eq_refl) as (Hu & Hheads & Hans). exists (sql_add_all repo new s).1, m. rewrite Hheads.
  split; [exact E|]. split; [done|]. split; [done|]. rewrite Hheads in Hans. split; [done|].
  split; [unfold sql_add_all; by case_decide|]. split; [|exact Hent].
  intros c Hc Hn. specialize (Hnew c Hc Hn). unfold sql_add_all. case_decide as Hnil; [by subst; apply elem_of_nil in Hnew|].
  cbn. apply InsertPhase_stored. right. exists Public. apply list_elem_of_fmap. by exists (c, Public).
Qed.
End hint_spec.
