(* ===== verification/PhasesCaching.v ===== *)
(** * Cached phases

    Model of [src/phases/src/caching.rs] with the cache key of
    [src/mononoke_types/src/repo.rs]: [CachingHintPhases], which keeps phases
    in memcache in front of a store and of the computation of [Phases]. *)

From stdpp Require Import fin_maps.
From S2P Require Import Prelude Decimal Hash Bonsai Graph Frontier Changesets Bookmarks Repo BookmarkList Phases.

(** ** Memcache

    A read may fail or find nothing; what it finds was written under that
    key. [KeyGen] adds a prefix and versions to a key. *)

Class MemcacheClient (M : Type) := {
  mc_get : M -> bytes -> outcome unit (option bytes);
  mc_set : M -> bytes -> bytes -> option N -> M * outcome unit unit
}.

Class MemcacheLaws {M} (C : MemcacheClient M) (held : M -> bytes -> bytes -> Prop) : Prop := {
  mc_get_held m k v : mc_get m k = Ok (Some v) -> held m k v;
  mc_set_held m k v ttl k' v' : held (mc_set m k v ttl).1 k' v' -> held m k' v' \/ (k' = k /\ v' = v)
}.

Class KeyGen := { key : bytes -> bytes }.
Class KeyGenLaws (K : KeyGen) : Prop := { key_inj :: Inj (=) (=) key }.

Definition TTL_DRAFT_SEC : N := 21600.

(** [{:04}]. *)
Definition pad4 (s : bytes) : bytes := replicate (4 - length s) x30 ++ s.

Definition RepositoryId_prefix (r : RepositoryId) : bytes := bstr "repo" ++ pad4 (decimal r) ++ bstr ".".

Definition get_cache_key (repo_id : RepositoryId) (cs_id : ChangesetId) : bytes :=
  RepositoryId_prefix repo_id ++ bstr "." ++ Blake2_to_hex (cs_blake2 cs_id).

Section caching.
Context {CH : Chrono} {MO : MapOrder} {HO : HashOrder} {FU : FuturesUnordered}
  (skip_index : ChangesetFetcher -> ReachabilityIndex) {S M : Type} {phases_store : Phases S}
  {memcache : MemcacheClient M} {keygen : KeyGen}.

(** ** Reading and writing the cache *)

Definition get_phase_from_memcache (m : M) (repo_id : RepositoryId) (cs_id : ChangesetId) : option Phase :=
  match mc_get m (key (get_cache_key repo_id cs_id)) with
  | Ok (Some x) => ok (Phase_try_from x)
  | _ => None
  end.

Definition get_phases_from_memcache (m : M) (repo_id : RepositoryId) (cs_ids : list ChangesetId) : PhasesMapping :=
  let vec := (fun cs_id => (cs_id, get_phase_from_memcache m repo_id cs_id)) <$> futures_unordered cs_ids in
  mkMapping (collect_map (omap (fun x => (fun phase => (x.1, phase)) <$> x.2) vec))
    (List.filter (fun x => negb (bool_decide (is_Some x.2))) vec).*1 None.

(** A failure to write is not reported. *)
Definition set_phase_to_memcache (m : M) (repo_id : RepositoryId) (cs_id : ChangesetId) (phase : Phase) : M :=
  let ttl := match phase with Draft => Some TTL_DRAFT_SEC | Public => None end in
  (mc_set m (key (get_cache_key repo_id cs_id)) (Phase_to_string phase) ttl).1.

Definition set_phases_to_memcache (m : M) (repo_id : RepositoryId) (phases : list (ChangesetId * Phase)) : M :=
  foldl (fun m '(cs_id, phase) => set_phase_to_memcache m repo_id cs_id phase) m (futures_unordered phases).

(** ** [CachingHintPhases]

    Its state is that of the store and of the cache. *)

Definition on_store {A} (f : io S A) : io (S * M) A := fun '(s, m) => let '(s, r) := f s in ((s, m), r).
Definition read_cache {A} (f : M -> A) : io (S * M) A := fun '(s, m) => ((s, m), Ok (f m)).
Definition write_cache (f : M -> M) : io (S * M) unit := fun '(s, m) => ((s, f m), Ok tt).

Definition CachingHintPhases_add (repo : BlobRepo) (cs_id : ChangesetId) (phase : Phase) : io (S * M) bool :=
  maybe_phase ← read_cache (fun m => get_phase_from_memcache m (repoid repo) cs_id);
  if decide (maybe_phase = Some phase) then mret false
  else
    _ ← write_cache (fun m => set_phase_to_memcache m (repoid repo) cs_id phase);
    if decide (phase = Public) then on_store (add repo cs_id phase) else mret true.

Definition CachingHintPhases_add_all (repo : BlobRepo) (phases : list (ChangesetId * Phase)) : io (S * M) unit :=
  phases_mapping ← read_cache (fun m => get_phases_from_memcache m (repoid repo) phases.*1);
  let add_to_memcache :=
    List.filter (fun x => negb (bool_decide (calculated phases_mapping !! x.1 = Some x.2))) phases in
  let add_to_db := List.filter is_public add_to_memcache in
  _ ← write_cache (fun m => set_phases_to_memcache m (repoid repo) add_to_memcache);
  on_store (add_all repo add_to_db).

Definition CachingHintPhases_get_all_with_bookmarks (repo : BlobRepo) (cs_ids : list ChangesetId)
    (maybe_public_heads : option (gset ChangesetId)) : io (S * M) PhasesMapping :=
  in_memcache ← read_cache (fun m => get_phases_from_memcache m (repoid repo) cs_ids);
  let found_in_memcache := calculated in_memcache in
  in_db ← on_store (get_all repo (unknown in_memcache));
  let found_in_db := calculated in_db in
  let not_found_in_db := unknown in_db in
  let maybe_public_heads := public_heads repo not_found_in_db maybe_public_heads in
  calculated ← lift (calculate skip_index repo not_found_in_db maybe_public_heads);
  let add_to_db := List.filter is_public (map_order calculated) in
  let add_to_memcache := map_order calculated ++ map_order found_in_db in
  let all := foldl (fun m '(cs_id, phase) => <[cs_id := phase]> m) found_in_memcache add_to_memcache in
  _ ← on_store (add_all repo add_to_db);
  _ ← write_cache (fun m => set_phases_to_memcache m (repoid repo) add_to_memcache);
  mret (mkMapping all [] maybe_public_heads).

Definition CachingHintPhases_get_all (repo : BlobRepo) (cs_ids : list ChangesetId) : io (S * M) PhasesMapping :=
  CachingHintPhases_get_all_with_bookmarks repo cs_ids None.

Definition CachingHintPhases_get (repo : BlobRepo) (cs_id : ChangesetId) : io (S * M) (option Phase) :=
  m ← CachingHintPhases_get_all repo [cs_id];
  mret (calculated m !! cs_id).

Definition CachingHintPhases : Phases (S * M) :=
  {| add := CachingHintPhases_add; add_all := CachingHintPhases_add_all;
     get := CachingHintPhases_get; get_all := CachingHintPhases_get_all;
     get_all_with_bookmarks := CachingHintPhases_get_all_with_bookmarks |}.
End caching.

(** ** What the cache answers *)

Lemma Phase_try_from_string v p : Phase_try_from v = Ok p <-> v = Phase_to_string p.
Proof.
  split.
  - unfold Phase_try_from. destruct (utf8_valid v); [|done]. case_decide as Hd; [by intros [= <-]|].
    case_decide as Hp; [by intros [= <-]|done].
  - intros ->. by destruct p.
Qed.

Lemma hex_pair_inj b b' : hex_pair b = hex_pair b' -> b = b'.
Proof.
  intros H. assert (forall b, hex_loop 1 0 (hex_pair b) = Ok [b]) as Hl.
  { intros x. apply (hex_loop_hex_of [x] [] []). constructor. }
  pose proof (Hl b) as Hb. rewrite H, Hl in Hb. by injection Hb.
Qed.

Lemma hex_of_inj l : forall l', hex_of l = hex_of l' -> l = l'.
Proof.
  induction l as [|b l IH]; intros [|b' l'] H; [done|done|done|]. cbn [hex_of] in H.
  apply app_inj_1 in H as [Hb Hl]; [|done]. by rewrite (hex_pair_inj _ _ Hb), (IH l' Hl).
Qed.

Lemma cache_key_inj r c c' : get_cache_key r c = get_cache_key r c' -> c = c'.
Proof.
  unfold get_cache_key. intros H%app_inv_head%app_inv_head. destruct c as [[l]], c' as [[l']].
  unfold Blake2_to_hex in H. cbn in H. by apply hex_of_inj in H as ->.
Qed.

Lemma foldl_insert_union {A} (rows : list (ChangesetId * A)) (m : gmap ChangesetId A) :
  foldl (fun m '(c, a) => <[c := a]> m) m rows = collect_map rows ∪ m.
Proof.
  induction rows as [|[c a] rows IH] using rev_ind.
  - cbn. by rewrite (left_id_L ∅ (∪)).
  - unfold collect_map. rewrite !foldl_snoc. cbn. rewrite IH. by rewrite insert_union_l.
Qed.

Section caching_spec.
Context {CH : Chrono} {BH : BonsaiHash} {MO : MapOrder} {ML : MapOrderLaws MO} {HO : HashOrder} {HL : HashOrderLaws HO}
  {FU : FuturesUnordered} {FL : FuturesUnorderedLaws FU} {skip_index : ChangesetFetcher -> ReachabilityIndex}
  {M : Type} {memcache : MemcacheClient M} {held : M -> bytes -> bytes -> Prop} {MC : MemcacheLaws memcache held}
  {keygen : KeyGen} {KL : KeyGenLaws keygen}.

Abbreviation cached m repo c := (get_phase_from_memcache m (repoid repo) c).

Lemma from_memcache_calculated m r cs_ids c p :
  calculated (get_phases_from_memcache m r cs_ids) !! c = Some p <->
  c ∈ cs_ids /\ get_phase_from_memcache m r c = Some p.
Proof.
  assert (forall c p, (c, p) ∈ omap (fun x => (fun phase => (x.1, phase)) <$> x.2)
      ((fun cs_id => (cs_id, get_phase_from_memcache m r cs_id)) <$> futures_unordered cs_ids) <->
    c ∈ cs_ids /\ get_phase_from_memcache m r c = Some p) as H.
  { clear c p. intros c p. rewrite list_elem_of_omap. setoid_rewrite list_elem_of_fmap.
    setoid_rewrite futures_unordered_perm. split.
    - intros (x & (c' & -> & Hc) & E). cbn in E. destruct (get_phase_from_memcache m r c') eqn:Eg; [|done].
      cbn in E. injection E as <- <-. done.
    - intros [Hc E]. exists (c, Some p). cbn. split; [|done]. exists c. by rewrite E. }
  unfold get_phases_from_memcache. cbn.
  rewrite (collect_map_fun _ (get_phase_from_memcache m r)); [apply H|]. by intros c' a' [_ ?]%H.
Qed.

Lemma from_memcache_unknown m r cs_ids c :
  c ∈ unknown (get_phases_from_memcache m r cs_ids) <-> c ∈ cs_ids /\ get_phase_from_memcache m r c = None.
Proof.
  unfold get_phases_from_memcache. cbn. rewrite list_elem_of_fmap. setoid_rewrite list_elem_of_In.
  setoid_rewrite filter_In. setoid_rewrite <- list_elem_of_In. setoid_rewrite list_elem_of_fmap.
  setoid_rewrite futures_unordered_perm. split.
  - intros (x & -> & (c' & -> & Hc) & Hn). cbn in *. by destruct (get_phase_from_memcache m r c').
  - intros [Hc E]. exists (c, None). split; [done|]. split; [|done]. exists c. by rewrite E.
Qed.

(** What is written to the cache, up to what was there. *)
Lemma set_phases_held m r rows k v : held (set_phases_to_memcache m r rows) k v ->
  held m k v \/ exists c p, (c, p) ∈ rows /\ k = key (get_cache_key r c) /\ v = Phase_to_string p.
Proof.
  unfold set_phases_to_memcache. intros H.
  assert (forall l m, held (foldl (fun m '(c, p) => set_phase_to_memcache m r c p) m l) k v ->
    held m k v \/ exists c p, (c, p) ∈ l /\ k = key (get_cache_key r c) /\ v = Phase_to_string p) as Hl.
  { clear H m rows. induction l as [|[c p] l IH]; intros m H; [by left|]. cbn [foldl] in H. apply IH in H as [H|(c' & p' & Hin & Hk)].
    - apply mc_set_held in H as [H|[-> ->]]; [by left|right]. exists c, p. split; [by left|done].
    - right. exists c', p'. split; [by right|done]. }
  apply Hl in H as [H|(c & p & Hin & Hk)]; [by left|right]. exists c, p. split; [|done]. by rewrite futures_unordered_perm in Hin.
Qed.

(** The answers: from the cache, else from the table, else computed. *)
Definition answer (repo : BlobRepo) (s : SqlPhases) (m : M) (heads : gset ChangesetId) (c : ChangesetId) (p : Phase) : Prop :=
  cached m repo c = Some p \/ (cached m repo c = None /\
    (sql_look s (repoid repo) c = Some p \/ (sql_look s (repoid repo) c = None /\ (p = Public <-> public_in repo heads c)))).

Lemma caching_ok repo cs_ids heads s m : repo_ok repo -> index_right (skip_index := skip_index) repo -> heads_ok repo heads ->
  (forall c, c ∈ cs_ids -> in_repo repo c) ->
  let hs := public_heads repo (missing (look := sql_look) repo s (unknown (get_phases_from_memcache m (repoid repo) cs_ids))) heads in
  exists new rows res,
    CachingHintPhases_get_all_with_bookmarks skip_index repo cs_ids heads (s, m) =
      (((sql_add_all repo new s).1, set_phases_to_memcache m (repoid repo) rows), Ok res) /\
    unknown res = [] /\ maybe_public_heads res = hs /\
    (forall c p, calculated res !! c = Some p <-> c ∈ cs_ids /\ answer repo s m (default ∅ hs) c p) /\
    (forall c p, (c, p) ∈ new -> p = Public /\ public_in repo (default ∅ hs) c) /\
    (forall c p, (c, p) ∈ rows -> sql_look s (repoid repo) c = Some p \/ (p = Public <-> public_in repo (default ∅ hs) c)).
Proof.
  intros Hok L Hh Hids. set (ids := unknown (get_phases_from_memcache m (repoid repo) cs_ids)).
  set (hs := public_heads repo (missing (look := sql_look) repo s ids) heads). intros hs0. subst hs0.
  unfold CachingHintPhases_get_all_with_bookmarks, mbind, eio_bind, read_cache, on_store. cbn [get_all SqlPhases_phases].
  rewrite sql_get_all_mapping. fold ids. fold (missing (look := sql_look) repo s ids).
  destruct (calculate_exact repo (missing (look := sql_look) repo s ids) heads Hok L Hh) as (calc & Em & Hm).
  { intros c [[Hc _]%from_memcache_unknown _]%mapping_of_unknown. by apply Hids. }
  fold hs in Em, Hm |- *. unfold lift. rewrite Em. cbn [add_all SqlPhases_phases].
  set (new := List.filter is_public (map_order calc)).
  set (rows := map_order calc ++ map_order (calculated (mapping_of (sql_look s (repoid repo)) ids))).
  assert (forall new, (sql_add_all repo new s).2 = Ok tt) as Hadd by (intros l; unfold sql_add_all; by case_decide).
  specialize (Hadd new). destruct (sql_add_all repo new s) as [s' r] eqn:E. cbn in Hadd. subst r.
  eexists new, rows, _. rewrite E. split; [done|]. split; [done|]. split; [done|].
  assert (forall c p, (c, p) ∈ rows <-> c ∈ ids /\ (sql_look s (repoid repo) c = Some p \/
    (sql_look s (repoid repo) c = None /\ (p = Public <-> public_in repo (default ∅ hs) c)))) as Hrows.
  { intros c p. unfold rows. rewrite elem_of_app, !map_order_perm, !elem_of_map_to_list, Hm, mapping_of_calculated.
    unfold missing. rewrite mapping_of_unknown. tauto. }
  assert (forall c p, collect_map rows !! c = Some p <-> (c, p) ∈ rows) as Hcoll.
  { apply (collect_map_fun _ (fun c => (calculated (mapping_of (sql_look s (repoid repo)) ids) ∪ calc) !! c)).
    intros c p. unfold rows. rewrite elem_of_app, !map_order_perm, !elem_of_map_to_list, lookup_union_Some_raw.
    intros [Hc|Hc]; [right|by left]. split; [|done]. apply Hm in Hc as [Hc _].
    unfold missing in Hc. apply mapping_of_unknown in Hc as [_ Hn].
    apply eq_None_not_Some. intros [q [_ Hq]%mapping_of_calculated]. congruence. }
  split; [|split].
  - intros c p. cbn [calculated]. rewrite foldl_insert_union, lookup_union_Some_raw, from_memcache_calculated, Hcoll, Hrows.
    unfold ids, answer. rewrite from_memcache_unknown. split.
    + intros [[[Hc Hn] H]|(_ & Hc & H)]; (split; [done|]); [by right|by left].
    + intros [Hc [H|[Hn H]]]; [right|left; done]. split; [|done].
      apply eq_None_not_Some. intros [q [[_ Hq]%from_memcache_unknown _]%Hcoll%Hrows]. congruence.
  - intros c p Hin. apply list_elem_of_In, filter_In in Hin as [Hin Hp]. apply bool_decide_eq_true in Hp. cbn in Hp. subst p.
    split; [done|]. apply list_elem_of_In in Hin. rewrite map_order_perm in Hin. apply elem_of_map_to_list, Hm in Hin as [_ H].
    by apply H.
  - intros c p [_ H]%Hrows. tauto.
Qed.

(** ** Servers that share a table and a cache

    [w_past] are the changesets that a bookmark has ever pointed to. *)

Record world := mkWorld { w_repo : BlobRepo; w_sql : SqlPhases; w_mc : M; w_past : gset ChangesetId }.

Definition bookmark_heads (repo : BlobRepo) : gset ChangesetId := list_to_set (get_bonsai_bookmarks repo).*2.

Definition heads_known (w : world) (heads : option (gset ChangesetId)) : Prop :=
  forall hs, heads = Some hs -> hs ⊆ w_past w.

Definition asked (w : world) (cs_ids : list ChangesetId) (heads : option (gset ChangesetId)) : Prop :=
  index_right (skip_index := skip_index) (w_repo w) /\ heads_known w heads /\ forall c, c ∈ cs_ids -> in_repo (w_repo w) c.

(** The phases that a caller may add: what it calls public has been. *)
Definition may_add (w : world) (phases : list (ChangesetId * Phase)) : Prop :=
  forall c, (c, Public) ∈ phases -> public_in (w_repo w) (w_past w) c.

Inductive step (w : world) : world -> Prop :=
| step_repo repo : repo_ok repo -> repo_le (w_repo w) repo -> heads_ok repo None ->
    step w (mkWorld repo (w_sql w) (w_mc w) (w_past w ∪ bookmark_heads repo))
| step_replicate rows : (forall k p, rows !! k = Some p -> write_connection (w_sql w) !! k = Some p \/ read_connection (w_sql w) !! k = Some p) ->
    step w (mkWorld (w_repo w) (mkSqlPhases (engine (w_sql w)) (write_connection (w_sql w)) rows) (w_mc w) (w_past w))
| step_evict m : (forall k v, held m k v -> held (w_mc w) k v) ->
    step w (mkWorld (w_repo w) (w_sql w) m (w_past w))
| step_hint cs_ids heads s r : asked w cs_ids heads ->
    get_all_with_bookmarks (Phases := HintPhases skip_index SqlPhases_phases) (w_repo w) cs_ids heads (w_sql w) = (s, r) ->
    step w (mkWorld (w_repo w) s (w_mc w) (w_past w))
| step_caching cs_ids heads s m r : asked w cs_ids heads ->
    get_all_with_bookmarks (Phases := CachingHintPhases skip_index) (w_repo w) cs_ids heads (w_sql w, w_mc w) = ((s, m), r) ->
    step w (mkWorld (w_repo w) s m (w_past w))
| step_hint_add phases s r : may_add w phases ->
    add_all (Phases := HintPhases skip_index SqlPhases_phases) (w_repo w) phases (w_sql w) = (s, r) ->
    step w (mkWorld (w_repo w) s (w_mc w) (w_past w))
| step_caching_add c p s m r : may_add w [(c, p)] ->
    add (Phases := CachingHintPhases skip_index) (w_repo w) c p (w_sql w, w_mc w) = ((s, m), r) ->
    step w (mkWorld (w_repo w) s m (w_past w))
| step_caching_add_all phases s m r : may_add w phases ->
    add_all (Phases := CachingHintPhases skip_index) (w_repo w) phases (w_sql w, w_mc w) = ((s, m), r) ->
    step w (mkWorld (w_repo w) s m (w_past w)).

Record world_ok (w : world) : Prop := {
  wo_repo : repo_ok (w_repo w);
  wo_past h : h ∈ w_past w -> in_repo (w_repo w) h;
  wo_heads n c : bookmarks (repo_bookmarks (w_repo w)) !! (repoid (w_repo w), n) = Some c -> c ∈ w_past w;
  wo_sql c p : sql_entry (w_sql w) (repoid (w_repo w)) c p -> p = Public /\ public_in (w_repo w) (w_past w) c;
  wo_mc c : held (w_mc w) (key (get_cache_key (repoid (w_repo w)) c)) (Phase_to_string Public) ->
    public_in (w_repo w) (w_past w) c
}.

Lemma public_mono repo repo' past past' c : repo_ok repo -> repo_le repo repo' ->
  (forall h, h ∈ past -> in_repo repo h) -> past ⊆ past' -> public_in repo past c -> public_in repo' past' c.
Proof.
  intros Hok Hle Hp Hsub (h & Hh & Ha). exists h. split; [by apply Hsub|]. apply (repo_le_ancestor repo repo'); auto.
Qed.

Lemma public_in_subset repo past past' c : past ⊆ past' -> public_in repo past c -> public_in repo past' c.
Proof. intros Hsub (h & Hh & Ha). exists h. split; [by apply Hsub|done]. Qed.

Lemma bookmark_heads_elem repo c : c ∈ bookmark_heads repo <-> exists n, bookmarks (repo_bookmarks repo) !! (repoid repo, n) = Some c.
Proof.
  unfold bookmark_heads. rewrite elem_of_list_to_set, list_elem_of_fmap. setoid_rewrite <- get_bonsai_bookmarks_spec. split.
  - intros ([n c'] & -> & H). by exists n.
  - intros [n H]. by exists (n, c).
Qed.

(** The heads that a query uses. *)
Lemma used_heads w ids heads : world_ok w -> heads_known w heads ->
  default ∅ (public_heads (w_repo w) ids heads) ⊆ w_past w.
Proof.
  intros Hw Hk c Hc. unfold public_heads in Hc. destruct heads as [hs|]; [by apply (Hk hs)|].
  case_decide; [by apply elem_of_empty in Hc|]. cbn in Hc. apply (bookmark_heads_elem (w_repo w)) in Hc as [n Hc].
  by apply (wo_heads _ Hw n).
Qed.

Lemma world_heads w heads : world_ok w -> heads_known w heads -> heads_ok (w_repo w) heads.
Proof.
  intros Hw Hk. split.
  - intros n c Hc. by apply (wo_past _ Hw), (wo_heads _ Hw n).
  - intros hs Hhs h Hh. apply (wo_past _ Hw). by apply (Hk hs).
Qed.

(** A step that leaves the repository alone keeps the invariant if what it
    adds to the table and to the cache has been public. *)
Lemma world_ok_stores w s m : world_ok w ->
  (forall c p, sql_entry s (repoid (w_repo w)) c p -> sql_entry (w_sql w) (repoid (w_repo w)) c p \/
     (p = Public /\ public_in (w_repo w) (w_past w) c)) ->
  (forall c, held m (key (get_cache_key (repoid (w_repo w)) c)) (Phase_to_string Public) ->
     held (w_mc w) (key (get_cache_key (repoid (w_repo w)) c)) (Phase_to_string Public) \/ public_in (w_repo w) (w_past w) c) ->
  world_ok (mkWorld (w_repo w) s m (w_past w)).
Proof.
  intros [H1 H2 H3 H4 H5] Hs Hm. split; cbn; [done|done|done| |].
  - intros c p [H|H]%Hs; [by apply H4|done].
  - intros c [H|H]%Hm; [by apply H5|done].
Qed.

Lemma set_phases_public m r rows c : held (set_phases_to_memcache m r rows) (key (get_cache_key r c)) (Phase_to_string Public) ->
  held m (key (get_cache_key r c)) (Phase_to_string Public) \/ (c, Public) ∈ rows.
Proof.
  intros [H|(c' & p & Hin & Hk & Hv)]%set_phases_held; [by left|right].
  apply key_inj, cache_key_inj in Hk as ->. by destruct p.
Qed.

Lemma set_phase_public m r c' p c : held (set_phase_to_memcache m r c' p) (key (get_cache_key r c)) (Phase_to_string Public) ->
  held m (key (get_cache_key r c)) (Phase_to_string Public) \/ (c = c' /\ p = Public).
Proof.
  intros [H|[Hk Hv]]%mc_set_held; [by left|right]. apply key_inj, cache_key_inj in Hk as ->. by destruct p.
Qed.

Lemma cached_held m r c p : get_phase_from_memcache m r c = Some p -> held m (key (get_cache_key r c)) (Phase_to_string p).
Proof.
  unfold get_phase_from_memcache. destruct (mc_get m _) as [[x|]| |] eqn:E; [|done..]. apply mc_get_held in E.
  destruct (Phase_try_from x) as [q| |] eqn:Ex; [|done..]. cbn. intros [= ->]. by apply Phase_try_from_string in Ex as ->.
Qed.

(** What a query with the cache adds. *)
Lemma caching_step w cs_ids heads s m r : world_ok w -> asked w cs_ids heads ->
  CachingHintPhases_get_all_with_bookmarks skip_index (w_repo w) cs_ids heads (w_sql w, w_mc w) = ((s, m), r) ->
  world_ok (mkWorld (w_repo w) s m (w_past w)).
Proof.
  intros Hw (L & Hk & Hids) E. pose proof (wo_repo _ Hw) as Hok.
  destruct (caching_ok (w_repo w) cs_ids heads (w_sql w) (w_mc w) Hok L (world_heads w heads Hw Hk) Hids)
    as (new & rows & res & E' & _ & _ & _ & Hnew & Hrows).
  rewrite E in E'. injection E' as -> -> _. pose proof (used_heads w
    (missing (look := sql_look) (w_repo w) (w_sql w) (unknown (get_phases_from_memcache (w_mc w) (repoid (w_repo w)) cs_ids))) heads Hw Hk) as Hsub.
  apply world_ok_stores; [done| |].
  - intros c p H. destruct (sql_add_all (w_repo w) new (w_sql w)) as [s' r'] eqn:Ea.
    destruct (add_all_law (P := SqlPhases_phases) (w_sql w) (w_repo w) new s' r' (repoid (w_repo w)) c p Ea H) as [?|[_ Hin]]; [by left|right].
    apply Hnew in Hin as [-> Hp]. split; [done|]. by eapply public_in_subset.
  - intros c [H|Hin]%set_phases_public; [by left|right]. apply Hrows in Hin as [Hl|Hp].
    + apply (wo_sql _ Hw c Public). by right.
    + eapply public_in_subset; [exact Hsub|]. by apply Hp.
Qed.

Lemma hint_step w cs_ids heads s r : world_ok w -> asked w cs_ids heads ->
  HintPhases_get_all_with_bookmarks skip_index (w_repo w) cs_ids heads (w_sql w) = (s, r) ->
  world_ok (mkWorld (w_repo w) s (w_mc w) (w_past w)).
Proof.
  intros Hw (L & Hk & Hids) E. pose proof (wo_repo _ Hw) as Hok.
  destruct (hint_phases_ok (look := sql_look) (entry := sql_entry) (w_repo w) cs_ids heads (w_sql w) s r Hok L
    (world_heads w heads Hw Hk) Hids E) as [Hent _].
  apply world_ok_stores; [done| |by left].
  intros c p [H|(_ & -> & _ & Hp)]%Hent; [by left|right]. split; [done|].
  eapply public_in_subset; [|exact Hp]. by apply used_heads.
Qed.

Lemma add_all_step w phases s r : world_ok w -> may_add w phases -> forall new,
  (forall x, x ∈ new -> x ∈ phases /\ x.2 = Public) -> sql_add_all (w_repo w) new (w_sql w) = (s, r) ->
  forall c p, sql_entry s (repoid (w_repo w)) c p -> sql_entry (w_sql w) (repoid (w_repo w)) c p \/
    (p = Public /\ public_in (w_repo w) (w_past w) c).
Proof.
  intros Hw Hmay new Hnew E c p H.
  destruct (add_all_law (P := SqlPhases_phases) (w_sql w) (w_repo w) new s r (repoid (w_repo w)) c p E H) as [?|[_ Hin]]; [by left|right].
  destruct (Hnew _ Hin) as [Hin' Hp]. cbn in Hp. subst p. split; [done|by apply Hmay].
Qed.

Lemma filter_public (l : list (ChangesetId * Phase)) x : x ∈ List.filter is_public l -> x ∈ l /\ x.2 = Public.
Proof. intros [H Hp%bool_decide_eq_true]%list_elem_of_In%filter_In. split; [by apply list_elem_of_In|done]. Qed.

Lemma caching_add_step w c p s m r : world_ok w -> may_add w [(c, p)] ->
  CachingHintPhases_add (w_repo w) c p (w_sql w, w_mc w) = ((s, m), r) -> world_ok (mkWorld (w_repo w) s m (w_past w)).
Proof.
  intros Hw Hmay. unfold CachingHintPhases_add, mbind, eio_bind, read_cache, write_cache. cbn.
  case_decide; [by intros [= <- <- _]; apply world_ok_stores; [done|by left|by left]|].
  assert (p = Public -> public_in (w_repo w) (w_past w) c) as Hp by (intros ->; apply Hmay; by left).
  assert (forall c', held (set_phase_to_memcache (w_mc w) (repoid (w_repo w)) c p) (key (get_cache_key (repoid (w_repo w)) c')) (Phase_to_string Public) ->
    held (w_mc w) (key (get_cache_key (repoid (w_repo w)) c')) (Phase_to_string Public) \/ public_in (w_repo w) (w_past w) c') as Hm.
  { intros c' [?|[-> ?]]%set_phase_public; [by left|right; by apply Hp]. }
  case_decide as Hd.
  - unfold on_store. cbn. destruct (sql_add (w_repo w) c p (w_sql w)) as [s' r'] eqn:E. intros [= <- <- _].
    apply world_ok_stores; [done| |done]. intros c' p' H'.
    destruct (add_law (P := SqlPhases_phases) (w_sql w) (w_repo w) c p s' r' (repoid (w_repo w)) c' p' E H') as [?|(_ & -> & ->)]; [by left|right].
    split; [done|by apply Hp].
  - intros [= <- <- _]. by apply world_ok_stores; [done|by left|].
Qed.

Lemma caching_add_all_step w phases s m r : world_ok w -> may_add w phases ->
  CachingHintPhases_add_all (w_repo w) phases (w_sql w, w_mc w) = ((s, m), r) -> world_ok (mkWorld (w_repo w) s m (w_past w)).
Proof.
  intros Hw Hmay. unfold CachingHintPhases_add_all, mbind, eio_bind, read_cache, write_cache, on_store. cbn.
  set (rows := List.filter _ phases). assert (forall x, x ∈ rows -> x ∈ phases) as Hrows.
  { intros x [Hx _]%list_elem_of_In%filter_In. by apply list_elem_of_In. }
  destruct (sql_add_all (w_repo w) (List.filter is_public rows) (w_sql w)) as [s' r'] eqn:E. intros [= <- <- _].
  apply world_ok_stores; [done| |].
  - eapply (add_all_step w phases); [done|done| |exact E]. intros x [Hx Hp]%filter_public. split; [by apply Hrows|done].
  - intros c [H|Hin]%set_phases_public; [by left|right]. by apply Hmay, Hrows.
Qed.

Lemma world_step w w' : world_ok w -> step w w' -> world_ok w'.
Proof.
  intros Hw Hstep. destruct Hstep as [repo Hr Hle Hh|rows Hrows|m Hm|ids hs s r Ha E|ids hs s m r Ha E|ph s r Ha E|c p s m r Ha E|ph s m r Ha E].
  - pose proof Hw as [H1 H2 H3 H4 H5]. assert (repoid repo = repoid (w_repo w)) as Hid by apply Hle.
    assert (forall c, public_in (w_repo w) (w_past w) c -> public_in repo (w_past w ∪ bookmark_heads repo) c) as Hmono.
    { intros c. apply public_mono; [done|done|done|]. apply union_subseteq_l. }
    split; cbn [w_repo w_sql w_mc w_past]; [done| | | |].
    + intros h [Hin|[n Hin]%bookmark_heads_elem]%elem_of_union; [by apply (repo_le_in _ _ _ Hle), H2|by apply (proj1 Hh n)].
    + intros n c Hc. apply elem_of_union_r, bookmark_heads_elem. by exists n.
    + intros c p H. rewrite Hid in H. apply H4 in H as [-> H]. split; [done|by apply Hmono].
    + intros c H. rewrite Hid in H. by apply Hmono, H5.
  - apply world_ok_stores; [done| |by left]. intros c p [H|H]; cbn in H; left; [by left|]. apply Hrows in H as [H|H]; [by left|by right].
  - apply world_ok_stores; [done|by left|]. intros c H%Hm. by left.
  - by eapply hint_step.
  - by eapply caching_step.
  - apply world_ok_stores; [done| |by left]. eapply (add_all_step w ph); [done|done| |exact E]. intros x. apply filter_public.
  - by eapply caching_add_step.
  - by eapply caching_add_all_step.
Qed.

(** An answer of the table, or computed. *)
Lemma sound_answer w ids heads c p : world_ok w -> heads_known w heads ->
  sql_look (w_sql w) (repoid (w_repo w)) c = Some p \/
    (sql_look (w_sql w) (repoid (w_repo w)) c = None /\
     (p = Public <-> public_in (w_repo w) (default ∅ (public_heads (w_repo w) ids heads)) c)) ->
  (p = Public -> public_in (w_repo w) (w_past w) c) /\
  (sql_look (w_sql w) (repoid (w_repo w)) c <> None \/ c ∈ ids ->
   public_in (w_repo w) (default (bookmark_heads (w_repo w)) heads) c -> p = Public).
Proof.
  intros Hw Hk [Hl|[Hn Hp]].
  - destruct (wo_sql _ Hw c p) as [-> H]; [by right|]. done.
  - split.
    + intros H%Hp. eapply public_in_subset; [|exact H]. by apply used_heads.
    + intros [?|Hin] Hpub; [done|]. apply Hp. unfold public_heads. destruct heads as [h|]; [done|].
      case_decide as Hnil; [subst; by apply elem_of_nil in Hin|]. done.
Qed.

Lemma some_phase w ids heads c : world_ok w -> index_right (skip_index := skip_index) (w_repo w) -> heads_known w heads ->
  in_repo (w_repo w) c ->
  exists p, p = Public <-> public_in (w_repo w) (default ∅ (public_heads (w_repo w) ids heads)) c.
Proof.
  intros Hw L Hk Hc.
  destruct (hint_get_exact (skip_index := skip_index) (w_repo w) c (default ∅ (public_heads (w_repo w) ids heads)) (wo_repo _ Hw) L Hc)
    as (p & _ & Hp); [|by exists p].
  intros h Hh. apply (wo_past _ Hw). by apply (used_heads w ids heads).
Qed.

Lemma hint_sound w cs_ids heads : world_ok w -> asked w cs_ids heads ->
  exists s m, HintPhases_get_all_with_bookmarks skip_index (w_repo w) cs_ids heads (w_sql w) = (s, Ok m) /\
    (forall c, is_Some (calculated m !! c) <-> c ∈ cs_ids) /\
    (forall c, calculated m !! c = Some Public -> public_in (w_repo w) (w_past w) c) /\
    (forall c, c ∈ cs_ids -> public_in (w_repo w) (default (bookmark_heads (w_repo w)) heads) c ->
       calculated m !! c = Some Public \/ False).
Proof.
  intros Hw (L & Hk & Hids). pose proof (wo_repo _ Hw) as Hok. pose proof (world_heads w heads Hw Hk) as Hh.
  destruct (hint_phases_sql (w_repo w) cs_ids heads (w_sql w) Hok L Hh Hids) as (m & new & E & _).
  destruct (hint_phases_ok (look := sql_look) (entry := sql_entry) (w_repo w) cs_ids heads (w_sql w) _ _ Hok L Hh Hids E) as [_ Hm].
  destruct (Hm m eq_refl) as (_ & Hheads & Hans). rewrite Hheads in Hans.
  set (ids := missing (look := sql_look) (w_repo w) (w_sql w) cs_ids) in *.
  assert (forall c, c ∈ cs_ids -> exists p, calculated m !! c = Some p) as Htotal.
  { intros c Hc. destruct (sql_look (w_sql w) (repoid (w_repo w)) c) as [p|] eqn:El.
    - exists p. apply Hans. split; [done|by left].
    - destruct (some_phase w ids heads c Hw L Hk (Hids c Hc)) as [p Hp]. exists p. apply Hans. split; [done|by right]. }
  eexists _, m. split; [exact E|]. split; [|split].
  - intros c. split; [by intros [p [Hc _]%Hans]|by intros [p Hp]%Htotal; exists p].
  - intros c [Hc Ha]%Hans. by apply (sound_answer w ids heads c Public Hw Hk) in Ha as [H _]; apply H.
  - intros c Hc Hp. left. destruct (Htotal c Hc) as [p Hcp]. rewrite Hcp. f_equal. apply Hans in Hcp as [_ Ha].
    apply (sound_answer w ids heads c p Hw Hk Ha); [|done].
    destruct (sql_look (w_sql w) (repoid (w_repo w)) c) eqn:El; [by left|right].
    unfold ids, missing. apply mapping_of_unknown. done.
Qed.

Lemma caching_sound w cs_ids heads : world_ok w -> asked w cs_ids heads ->
  exists s m, CachingHintPhases_get_all_with_bookmarks skip_index (w_repo w) cs_ids heads (w_sql w, w_mc w) = (s, Ok m) /\
    (forall c, is_Some (calculated m !! c) <-> c ∈ cs_ids) /\
    (forall c, calculated m !! c = Some Public -> public_in (w_repo w) (w_past w) c) /\
    (forall c, c ∈ cs_ids -> public_in (w_repo w) (default (bookmark_heads (w_repo w)) heads) c ->
       calculated m !! c = Some Public \/ get_phase_from_memcache (w_mc w) (repoid (w_repo w)) c = Some Draft).
Proof.
  intros Hw (L & Hk & Hids). pose proof (wo_repo _ Hw) as Hok. pose proof (world_heads w heads Hw Hk) as Hh.
  destruct (caching_ok (w_repo w) cs_ids heads (w_sql w) (w_mc w) Hok L Hh Hids) as (new & rows & m & E & _ & _ & Hans & _ & _).
  set (unc := unknown (get_phases_from_memcache (w_mc w) (repoid (w_repo w)) cs_ids)) in *.
  set (ids := missing (look := sql_look) (w_repo w) (w_sql w) unc) in *. unfold answer in Hans.
  assert (forall c, c ∈ cs_ids -> exists p, calculated m !! c = Some p) as Htotal.
  { intros c Hc. destruct (cached (w_mc w) (w_repo w) c) as [p|] eqn:Ec; [exists p; apply Hans; split; [done|by left]|].
    destruct (sql_look (w_sql w) (repoid (w_repo w)) c) as [p|] eqn:El.
    - exists p. apply Hans. split; [done|]. right. split; [done|by left].
    - destruct (some_phase w ids heads c Hw L Hk (Hids c Hc)) as [p Hp]. exists p. apply Hans. split; [done|]. right. split; [done|by right]. }
  eexists _, m. split; [exact E|]. split; [|split].
  - intros c. split; [by intros [p [Hc _]%Hans]|by intros [p Hp]%Htotal; exists p].
  - intros c [Hc [Hca|[_ Ha]]]%Hans; [by apply (wo_mc _ Hw), cached_held|].
    by apply (sound_answer w ids heads c Public Hw Hk) in Ha as [H _]; apply H.
  - intros c Hc Hp. destruct (Htotal c Hc) as [p Hcp]. rewrite Hcp. apply Hans in Hcp as [_ [Ha|[Hn Ha]]].
    + destruct p; [by right|by left].
    + left. f_equal. apply (sound_answer w ids heads c p Hw Hk Ha); [|done].
      destruct (sql_look (w_sql w) (repoid (w_repo w)) c) eqn:El; [by left|right].
      unfold ids, missing. apply mapping_of_unknown. split; [|done]. by apply from_memcache_unknown.
Qed.

(** The cache is written before the store: when the store fails, the addition
    is lost, and adding again does not reach the store. *)
Lemma caching_add_lost {S} {store : Phases S} repo c s m e :
  let m' := set_phase_to_memcache m (repoid repo) c Public in
  add (Phases := store) repo c Public s = (s, Err e) ->
  cached m repo c <> Some Public -> cached m' repo c = Some Public ->
  CachingHintPhases_add repo c Public (s, m) = ((s, m'), Err e) /\
  CachingHintPhases_add repo c Public (s, m') = ((s, m'), Ok false).
Proof.
  intros m' Hadd Hm Hm'. unfold CachingHintPhases_add, mbind, eio_bind, read_cache, write_cache, on_store. cbn [fst snd].
  fold m'. rewrite (decide_False _ _ Hm), (decide_True _ _ Hm'), (decide_True _ _ (eq_refl Public)). by rewrite Hadd.
Qed.

(** C24. Whatever servers with and without the cache do, on a repository whose
    changesets are kept, with a replica that lags and a cache that forgets,
    where callers add as public only what has been public: a query answers for
    each changeset asked for, and an answer [Public] is true, now or once.
    Every ancestor of a head that is used is answered [Public], unless the
    cache still has [Draft] for it. *)
Theorem phases_sound w0 w cs_ids heads : world_ok w0 -> rtc step w0 w -> asked w cs_ids heads ->
  let hs := default (bookmark_heads (w_repo w)) heads in
  let sound_answers (stale : ChangesetId -> Prop) (m : PhasesMapping) :=
    (forall c, is_Some (calculated m !! c) <-> c ∈ cs_ids) /\
    (forall c, calculated m !! c = Some Public -> public_in (w_repo w) (w_past w) c) /\
    (forall c, c ∈ cs_ids -> public_in (w_repo w) hs c -> calculated m !! c = Some Public \/ stale c) in
  (exists s m, get_all_with_bookmarks (Phases := HintPhases skip_index SqlPhases_phases) (w_repo w) cs_ids heads (w_sql w) = (s, Ok m) /\
     sound_answers (fun _ => False) m) /\
  (exists s m, get_all_with_bookmarks (Phases := CachingHintPhases skip_index) (w_repo w) cs_ids heads (w_sql w, w_mc w) = (s, Ok m) /\
     sound_answers (fun c => get_phase_from_memcache (w_mc w) (repoid (w_repo w)) c = Some Draft) m).
Proof.
  intros Hw0 Hsteps Ha hs sound_answers. assert (world_ok w) as Hw.
  { induction Hsteps as [w0|w0 w1 w Hst _ IH]; [done|]. apply IH; [|done]. by apply (world_step w0). }
  split; [by apply hint_sound|by apply caching_sound].
Qed.
End caching_spec.
