(* ===== verification/CacheLayers.v ===== *)
(** * Layers of caches

    Model of [src/common/rust/caching_ext]: values that are looked up in the
    cache of the process, then in memcache, and last in a database, and are
    put where they were not. A [HashSet] is the list of its elements in the
    order in which it is iterated, a [HashMap] an association list. *)

From S2P Require Import Prelude PhasesCaching.

(** ** The cache of the process

    A read may fail or find nothing; what it finds was written under that
    key. *)

Class Cachelib (P T : Type) := {
  get_cached : P -> bytes -> outcome unit (option T);
  set_cached : P -> bytes -> T -> P * outcome unit bool
}.

Class CachelibLaws {P T} (C : Cachelib P T) (kept : P -> bytes -> T -> Prop) : Prop := {
  get_cached_kept p k v : get_cached p k = Ok (Some v) -> kept p k v;
  set_cached_kept p k v k' v' : kept (set_cached p k v).1 k' v' -> kept p k' v' \/ (k' = k /\ v' = v)
}.

Definition MEMCACHE_VALUE_MAX_SIZE_of (n : nat) (v : bytes) : bool := Nat.ltb (length v) n.

Inductive McErrorKind := MemcacheInternal | Missing | Deserialization.

Inductive cache_error (E : Type) := CachelibFailed | DbFailed (e : E).
Arguments CachelibFailed {E}.
Arguments DbFailed {E}.

Section layers.
Context {Key T P M D E : Type} `{!EqDecision Key} {cachelib : Cachelib P T} {memcache : MemcacheClient M} {keygen : KeyGen}.

(** The parameters of [GetOrFillMultipleFromCacheLayers]; [max_size] is
    memcache's bound on values. *)
Context (get_cache_key : Key -> bytes) (deserialize : bytes -> option T) (serialize : T -> bytes) (max_size : nat)
  (get_from_db : list Key -> eio E D (list (Key * T))).

(** *** [CachelibHandler] *)

Fixpoint get_multiple_from_cachelib (p : P) (keys : list (Key * bytes)) : outcome unit (list (Key * T) * list (Key * bytes)) :=
  match keys with
  | [] => Ok ([], [])
  | (key, cache_key) :: keys =>
      r ← get_cached p cache_key;
      rest ← get_multiple_from_cachelib p keys;
      let '(fetched, left_to_fetch) := rest in
      Ok (match r with Some value => ((key, value) :: fetched, left_to_fetch) | None => (fetched, (key, cache_key) :: left_to_fetch) end)
  end.

(** A failure to write is ignored. *)
Definition fill_multiple_cachelib (keys : list (Key * (T * bytes))) (p : P) : P * list (Key * T) :=
  (foldl (fun p '(_, (value, cache_key)) => (set_cached p cache_key value).1) p keys, (fun '(k, (value, _)) => (k, value)) <$> keys).

(** *** Memcache *)

Definition fetch_from_memcache (m : M) (memcache_key : bytes) : T + McErrorKind :=
  match mc_get m memcache_key with
  | Ok (Some serialized) => match deserialize serialized with Some entry => inl entry | None => inr Deserialization end
  | Ok None => inr Missing
  | _ => inr MemcacheInternal
  end.

Fixpoint get_multiple_from_memcache (m : M) (keys : list (Key * bytes)) : list (Key * (T * bytes)) * list (Key * bytes * bytes) :=
  match keys with
  | [] => ([], [])
  | (k, cache_key) :: keys =>
      let memcache_key := key cache_key in
      let '(fetched, left_to_fetch) := get_multiple_from_memcache m keys in
      match fetch_from_memcache m memcache_key with
      | inl entry => ((k, (entry, cache_key)) :: fetched, left_to_fetch)
      | inr _ => (fetched, (k, cache_key, memcache_key) :: left_to_fetch)
      end
  end.

Definition fill_multiple_memcache (keys : list (Key * (T * bytes * bytes))) (m : M) : M * list (Key * (T * bytes)) :=
  (foldl (fun m '(_, (value, _, memcache_key)) =>
     let serialized := serialize value in
     if MEMCACHE_VALUE_MAX_SIZE_of max_size serialized then (mc_set m memcache_key serialized None).1 else m) m keys,
   (fun '(k, (value, cache_key, _)) => (k, (value, cache_key))) <$> keys).

(** *** [run] *)

(** [key_mapping.remove(&key).expect(..)]. *)
Fixpoint with_cache_keys (left_to_fetch : list (Key * bytes * bytes)) (fetched : list (Key * T)) : outcome (cache_error E) (list (Key * (T * bytes * bytes))) :=
  match fetched with
  | [] => Ok []
  | (k, value) :: fetched =>
      match list_find (fun x : Key * bytes * bytes => x.1.1 = k) left_to_fetch with
      | Some (_, (_, cache_key, memcache_key)) => rest ← with_cache_keys left_to_fetch fetched; Ok ((k, (value, cache_key, memcache_key)) :: rest)
      | None => Panic
      end
  end.

(** [HashMap::extend], one after the other. *)
Definition extend (l : list (Key * T)) (m : list (Key * T)) : list (Key * T) := foldl (fun m '(k, v) => hm_insert k v m) m l.

Definition run (keys : list Key) : eio (cache_error E) (D * P * M) (list (Key * T)) := fun '(d, p, m) =>
  match get_multiple_from_cachelib p ((fun k => (k, get_cache_key k)) <$> keys) with
  | Ok (fetched_from_cachelib, left_to_fetch) =>
      let '(fetched_from_memcache, left_to_fetch) := get_multiple_from_memcache m left_to_fetch in
      let '(p, fetched_from_memcache) := fill_multiple_cachelib fetched_from_memcache p in
      match get_from_db ((fun x => x.1.1) <$> left_to_fetch) d with
      | (d, Ok fetched_from_db) =>
          match with_cache_keys left_to_fetch fetched_from_db with
          | Ok fetched_from_db =>
              let '(m, fetched_from_db) := fill_multiple_memcache fetched_from_db m in
              let '(p, fetched_from_db) := fill_multiple_cachelib fetched_from_db p in
              ((d, p, m), Ok (extend fetched_from_db (extend fetched_from_memcache (extend fetched_from_cachelib []))))
          | Err e => ((d, p, m), Err e)
          | Panic => ((d, p, m), Panic)
          end
      | (d, Err e) => ((d, p, m), Err (DbFailed e))
      | (d, Panic) => ((d, p, m), Panic)
      end
  | Err _ => ((d, p, m), Err CachelibFailed)
  | Panic => ((d, p, m), Panic)
  end.
End layers.

(** ** What is found *)

Section layers_ok.
Context {Key T P M D E : Type} `{!EqDecision Key} {cachelib : Cachelib P T} {memcache : MemcacheClient M} {keygen : KeyGen}
  {kept : P -> bytes -> T -> Prop} {CL : CachelibLaws cachelib kept}
  {held : M -> bytes -> bytes -> Prop} {ML : MemcacheLaws memcache held} {KL : KeyGenLaws keygen}.
Context (get_cache_key : Key -> bytes) (deserialize : bytes -> option T) (serialize : T -> bytes) (max_size : nat)
  (get_from_db : list Key -> eio E D (list (Key * T))).

Lemma from_cachelib (p : P) (keys : list (Key * bytes)) f l : get_multiple_from_cachelib p keys = Ok (f, l) ->
  (forall k v, (k, v) ∈ f -> exists ck, (k, ck) ∈ keys /\ kept p ck v) /\ (forall x, x ∈ l -> x ∈ keys) /\
  forall k ck, (k, ck) ∈ keys -> (exists v, (k, v) ∈ f) \/ (k, ck) ∈ l.
Proof.
  revert f l. induction keys as [|[k ck] keys IH]; intros f l; cbn [get_multiple_from_cachelib]; [intros [= <- <-]; set_solver|].
  intros (r & Er & ([f' l'] & Erest & Eq)%bind_Ok_inv)%bind_Ok_inv. destruct (IH f' l' Erest) as (H1 & H2 & H3).
  destruct r as [v|]; injection Eq as <- <-; (split; [|split]).
  - intros k' v' [[= -> ->]|Hin]%elem_of_cons; [exists ck; split; [by left|by apply get_cached_kept]|].
    destruct (H1 k' v' Hin) as (ck' & ? & ?). exists ck'. split; [by right|done].
  - intros x Hx. right. by apply H2.
  - intros k' ck' [[= -> ->]|Hin]%elem_of_cons; [left; exists v; by left|]. destruct (H3 k' ck' Hin) as [[v' ?]|?]; [left; exists v'; by right|by right].
  - intros k' v' Hin. destruct (H1 k' v' Hin) as (ck' & ? & ?). exists ck'. split; [by right|done].
  - intros x [->|Hx]%elem_of_cons; [by left|right; by apply H2].
  - intros k' ck' [[= -> ->]|Hin]%elem_of_cons; [right; by left|]. destruct (H3 k' ck' Hin) as [?|?]; [by left|right; by right].
Qed.

Lemma from_memcache (m : M) (keys : list (Key * bytes)) f l : get_multiple_from_memcache deserialize m keys = (f, l) ->
  (forall k v ck, (k, (v, ck)) ∈ f -> (k, ck) ∈ keys /\ exists b, held m (key ck) b /\ deserialize b = Some v) /\
  (forall k ck mk, (k, ck, mk) ∈ l -> (k, ck) ∈ keys /\ mk = key ck) /\
  forall k ck, (k, ck) ∈ keys -> (exists v, (k, (v, ck)) ∈ f) \/ (k, ck, key ck) ∈ l.
Proof.
  revert f l. induction keys as [|[k ck] keys IH]; intros f l; cbn [get_multiple_from_memcache]; [intros [= <- <-]; set_solver|].
  destruct (get_multiple_from_memcache deserialize m keys) as [f' l'] eqn:Erest. destruct (IH f' l' eq_refl) as (H1 & H2 & H3).
  destruct (fetch_from_memcache deserialize m (key ck)) as [v|e] eqn:Ef; intros [= <- <-]; (split; [|split]).
  - intros k' v' ck' [[= -> -> ->]|Hin]%elem_of_cons.
    + split; [by left|]. unfold fetch_from_memcache in Ef. destruct (mc_get m (key ck)) as [[b|]| |] eqn:Eg; [|done..].
      destruct (deserialize b) as [v'|] eqn:Ed; [|done]. injection Ef as <-. exists b. split; [by apply mc_get_held|done].
    + destruct (H1 k' v' ck' Hin) as (? & ?). split; [by right|done].
  - intros k' ck' mk Hx. destruct (H2 _ _ _ Hx). split; [by right|done].
  - intros k' ck' [[= -> ->]|Hin]%elem_of_cons; [left; exists v; by left|]. destruct (H3 k' ck' Hin) as [[v' ?]|?]; [left; exists v'; by right|by right].
  - intros k' v' ck' Hin. destruct (H1 k' v' ck' Hin) as (? & ?). split; [by right|done].
  - intros k' ck' mk [[= -> -> ->]|Hx]%elem_of_cons; [split; [by left|done]|]. destruct (H2 _ _ _ Hx). split; [by right|done].
  - intros k' ck' [[= -> ->]|Hin]%elem_of_cons; [right; by left|]. destruct (H3 k' ck' Hin) as [?|?]; [by left|right; by right].
Qed.

Lemma filled_cachelib (keys : list (Key * (T * bytes))) : forall (p : P) ck v, kept (fill_multiple_cachelib (Key := Key) keys p).1 ck v -> kept p ck v \/ exists k, (k, (v, ck)) ∈ keys.
Proof.
  unfold fill_multiple_cachelib. cbn [fst]. induction keys as [|[k [v' ck']] keys IH]; intros p ck v H; [by left|]. cbn [foldl] in H.
  apply IH in H as [H|[k' Hin]]; [|right; exists k'; by right]. apply set_cached_kept in H as [H|[-> ->]]; [by left|]. right. exists k. by left.
Qed.

Lemma filled_memcache (keys : list (Key * (T * bytes * bytes))) : forall (m : M) mk b, held (fill_multiple_memcache (Key := Key) serialize max_size keys m).1 mk b ->
  held m mk b \/ exists k v ck, (k, (v, ck, mk)) ∈ keys /\ b = serialize v.
Proof.
  unfold fill_multiple_memcache. cbn [fst]. induction keys as [|[k [[v ck] mk']] keys IH]; intros m mk b H; [by left|]. cbn [foldl] in H.
  apply IH in H as [H|(k' & v' & ck' & Hin & ?)]; [|right; exists k', v', ck'; split; [by right|done]].
  destruct (MEMCACHE_VALUE_MAX_SIZE_of max_size (serialize v)); [|by left]. apply mc_set_held in H as [H|[-> ->]]; [by left|].
  right. exists k, v, ck. split; [by left|done].
Qed.

Lemma with_cache_keys_ok (left_to_fetch : list (Key * bytes * bytes)) (fetched : list (Key * T)) : (forall k v, (k, v) ∈ fetched -> exists ck mk, (k, ck, mk) ∈ left_to_fetch) ->
  exists l, with_cache_keys (E := E) (T := T) left_to_fetch fetched = Ok l /\ (fun x => (x.1, x.2.1.1)) <$> l = fetched /\
    forall k v ck mk, (k, (v, ck, mk)) ∈ l -> (k, v) ∈ fetched /\ (k, ck, mk) ∈ left_to_fetch.
Proof.
  induction fetched as [|[k v] fetched IH]; intros H; [exists []; split; [done|]; split; [done|]; intros ? ? ? ? ?%elem_of_nil; done|].
  destruct IH as (l & El & Hm & Hl); [intros k' v' Hin; apply (H k' v'); by right|]. cbn [with_cache_keys].
  destruct (list_find _ left_to_fetch) as [[i [[k' ck] mk]]|] eqn:Ef.
  - apply list_find_Some in Ef as (Hi & Hk & _). cbn in Hk. subst k'. apply list_elem_of_lookup_2 in Hi. rewrite El, bind_Ok. eexists. split; [done|].
    split; [cbn; by rewrite Hm|]. intros k' v' ck' mk' [[= -> -> -> ->]|Hin]%elem_of_cons; [split; [by left|done]|].
    destruct (Hl _ _ _ _ Hin). split; [by right|done].
  - exfalso. apply list_find_None in Ef. rewrite Forall_forall in Ef. destruct (H k v) as (ck & mk & Hin); [by left|]. by apply (Ef _ Hin).
Qed.

Lemma hm_insert_in (k k' : Key) (v v' : T) m : (k', v') ∈ hm_insert k v m -> (k', v') = (k, v) \/ (k', v') ∈ m.
Proof.
  induction m as [|[k2 v2] m IH]; cbn; [intros [?|[]%elem_of_nil]%elem_of_cons; by left|]. case_decide.
  - intros [?|?]%elem_of_cons; [by left|right; by right].
  - intros [Hq|[?|?]%IH]%elem_of_cons; [right; rewrite Hq; by left|by left|right; by right].
Qed.

Lemma extend_in (l : list (Key * T)) k v : forall m, (k, v) ∈ extend l m -> (k, v) ∈ l \/ (k, v) ∈ m.
Proof.
  unfold extend. induction l as [|[k' v'] l IH]; intros m H; [by right|]. cbn [foldl] in H. apply IH in H as [?|H]; [left; by right|].
  apply hm_insert_in in H as [Hq|?]; [left; rewrite Hq; by left|by right].
Qed.

Lemma extend_get (l : list (Key * T)) k : forall m, (exists v, (k, v) ∈ l) \/ is_Some (hm_get k m) -> is_Some (hm_get k (extend l m)).
Proof.
  unfold extend. induction l as [|[k' v'] l IH]; intros m H; cbn [foldl]; [by destruct H as [[v ?%elem_of_nil]|?]|]. apply IH.
  rewrite hm_get_insert. case_decide as Ek; [right; by eexists|]. destruct H as [[v [[= -> ->]|Hin]%elem_of_cons]|H]; [done|left; by exists v|by right].
Qed.

(** *** What [run] gives *)

(** The values that are right under a cache key; the database, where it is in
    order, has them, and may be asked for some of the keys. *)
Context (right : bytes -> T -> Prop) (db_ok : D -> Prop) (may_ask : Key -> Prop).
Hypothesis (right_one : forall ck v v', right ck v -> right ck v' -> v = v').
Hypothesis (get_from_db_ok : forall keys d, db_ok d -> (forall k, k ∈ keys -> may_ask k) -> exists d' l, get_from_db keys d = (d', Ok l) /\ db_ok d' /\
  forall k v, (k, v) ∈ l <-> k ∈ keys /\ right (get_cache_key k) v).
Hypothesis (cachelib_reads : forall p k, exists o, get_cached p k = Ok o).
Hypothesis (serialize_back : forall ck v, right ck v -> deserialize (serialize v) = Some v).

Definition caches_right (p : P) (m : M) : Prop :=
  (forall ck v, kept p ck v -> right ck v) /\
  (forall ck b v, held m (key ck) b -> deserialize b = Some v -> right ck v).

Lemma cachelib_total p keys : exists f l, get_multiple_from_cachelib (Key := Key) p keys = Ok (f, l).
Proof using cachelib_reads.
  induction keys as [|[k ck] keys (f & l & IH)]; [by exists [], []|]. cbn [get_multiple_from_cachelib]. destruct (cachelib_reads p ck) as [o ->].
  rewrite bind_Ok, IH, bind_Ok. destruct o; do 2 eexists; done.
Qed.

Lemma run_exact keys d p m : db_ok d -> caches_right p m -> (forall k, k ∈ keys -> may_ask k) ->
  exists d' p' m' l, run get_cache_key deserialize serialize max_size get_from_db keys (d, p, m) = ((d', p', m'), Ok l) /\
    db_ok d' /\ caches_right p' m' /\ forall k v, (k, v) ∈ l <-> k ∈ keys /\ right (get_cache_key k) v.
Proof using All.
  intros Hd [Hp Hm] Hask. unfold run. destruct (cachelib_total p ((fun k => (k, get_cache_key k)) <$> keys)) as (f1 & l1 & E1). rewrite E1.
  destruct (from_cachelib _ _ _ _ E1) as (F1 & L1 & A1). destruct (get_multiple_from_memcache deserialize m l1) as [f2 l2] eqn:E2.
  destruct (from_memcache _ _ _ _ E2) as (F2 & L2 & A2).
  assert (forall k ck, (k, ck) ∈ (fun k => (k, get_cache_key k)) <$> keys <-> k ∈ keys /\ ck = get_cache_key k) as Hkeys.
  { intros k ck. rewrite list_elem_of_fmap. split; [by intros (k' & [= -> ->] & ?)|intros [? ->]; by exists k]. }
  destruct (fill_multiple_cachelib f2 p) as [p1 g2] eqn:G2.
  destruct (get_from_db_ok ((fun x => x.1.1) <$> l2) d Hd) as (d' & l3 & -> & Hd' & H3).
  { intros k ([[k' ck] mk] & -> & Hin)%list_elem_of_fmap. apply Hask. by destruct (L2 _ _ _ Hin) as [[? _]%L1%Hkeys _]. }
  destruct (with_cache_keys_ok l2 l3) as (l4 & E4 & M4 & H4).
  { intros k v [Hin _]%H3. apply list_elem_of_fmap in Hin as ([[k' ck] mk] & -> & Hin). by exists ck, mk. }
  rewrite E4. destruct (fill_multiple_memcache serialize max_size l4 m) as [m1 g3] eqn:G3. destruct (fill_multiple_cachelib g3 p1) as [p2 g4] eqn:G4.
  assert (forall k v, (k, v) ∈ f1 -> k ∈ keys /\ right (get_cache_key k) v) as R1.
  { intros k v (ck & [Hk ->]%Hkeys & Hkept)%F1. split; [done|by apply Hp]. }
  assert (forall k v ck, (k, (v, ck)) ∈ f2 -> k ∈ keys /\ right ck v /\ ck = get_cache_key k) as R2.
  { intros k v ck ([Hk ->]%L1%Hkeys & b & Hb & Hv)%F2. split; [done|]. split; [by eapply Hm|done]. }
  assert (forall k v ck mk, (k, (v, ck, mk)) ∈ l4 -> k ∈ keys /\ right ck v /\ mk = key ck) as R4.
  { intros k v ck mk [[_ Hv]%H3 Hin]%H4. destruct (L2 _ _ _ Hin) as [[Hk ->]%L1%Hkeys ->]. done. }
  assert (g2 = (fun '(k, (value, _)) => (k, value)) <$> f2) as Eg2 by by injection G2.
  assert (g4 = l3) as ->.
  { injection G3 as <- <-. injection G4 as <- <-. rewrite <- M4, <- list_fmap_compose. apply list_fmap_ext. by intros ? [k [[v ck] mk]] _. }
  eexists d', p2, m1, _. split; [done|]. split; [done|].
  assert (forall k v, (k, v) ∈ g2 <-> exists ck, (k, (v, ck)) ∈ f2) as Hg2.
  { intros k v. rewrite Eg2, list_elem_of_fmap. split; [intros ([k' [v' ck]] & [= -> ->] & ?); by exists ck|intros [ck ?]; by exists (k, (v, ck))]. }
  assert (forall k v, (k, v) ∈ extend l3 (extend g2 (extend f1 [])) -> k ∈ keys /\ right (get_cache_key k) v) as Hsound.
  { intros k v [[Hin Hv]%H3|[(ck & (? & ? & ->)%R2)%Hg2|[Hin|?%elem_of_nil]%extend_in]%extend_in]%extend_in; [|done|by apply R1|done].
    split; [|done]. apply list_elem_of_fmap in Hin as ([[k' ck] mk] & -> & Hin). by destruct (L2 _ _ _ Hin) as [[? _]%L1%Hkeys _]. }
  split.
  - split.
    + intros ck v Hkept. pose proof (filled_cachelib g3 p1 ck v) as Hf. rewrite G4 in Hf. destruct (Hf Hkept) as [Hk1|[k' Hin]].
      * pose proof (filled_cachelib f2 p ck v) as Hf2. rewrite G2 in Hf2. destruct (Hf2 Hk1) as [?|[k' Hin]]; [by apply Hp|by apply R2 in Hin as (_ & ? & _)].
      * injection G3 as _ <-. apply list_elem_of_fmap in Hin as ([k2 [[v2 ck2] mk]] & [= -> -> <-] & Hin). by apply R4 in Hin as (_ & Hv & _).
    + intros ck b v Hheld Hv. pose proof (filled_memcache l4 m (key ck) b) as Hf. rewrite G3 in Hf. destruct (Hf Hheld) as [?|(k' & v' & ck' & Hin & ->)]; [by eapply Hm|].
      apply R4 in Hin as (_ & Hv' & ->%key_inj). rewrite (serialize_back _ _ Hv') in Hv. by injection Hv as ->.
  - intros k v. split; [apply Hsound|]. intros [Hk Hv].
    assert (is_Some (hm_get k (extend l3 (extend g2 (extend f1 []))))) as [v' Hv'].
    { apply extend_get. destruct (A1 k (get_cache_key k)) as [Hf|Hl]; [by apply Hkeys|right; apply extend_get; right; apply extend_get; by left|].
      destruct (A2 k _ Hl) as [[v' Hf]|Hl2]; [right; apply extend_get; left; exists v'; apply Hg2; by eexists|].
      left. exists v. apply H3. split; [|done]. apply list_elem_of_fmap. by exists (k, get_cache_key k, key (get_cache_key k)). }
    apply hm_get_in in Hv'. destruct (Hsound k v' Hv') as [_ Hv2]. by rewrite (right_one _ _ _ Hv Hv2).
Qed.
End layers_ok.
