(* ===== verification/MappingCaching.v ===== *)
(** * The cached mapping between bonsai and Mercurial changesets

    Model of [src/bonsai_hg_mapping/src/caching.rs] with the conversions of
    [src/bonsai_hg_mapping/src/lib.rs]: any mapping behind the cache of the
    process and memcache. It keeps the promises of a mapping, so that nobody
    sees the caches. The compact protocol of thrift is not under [src]. *)

From stdpp Require Import list.
From S2P Require Import Prelude Decimal Hash Bonsai Changesets PhasesCaching BonsaiHgMapping CacheLayers.

(** The keys of the caches. *)
Inductive BonsaiOrHgChangesetId := CsBonsai (cs_id : ChangesetId) | CsHg (cs_id : HgNodeHash).

#[export] Instance BonsaiOrHgChangesetId_eq_dec : EqDecision BonsaiOrHgChangesetId.
Proof. solve_decision. Defined.

(** [{:?}] of a key. *)
Definition debug_key (cs : BonsaiOrHgChangesetId) : bytes :=
  match cs with
  | CsBonsai cs_id => bstr "Bonsai(ChangesetId(Blake2(" ++ Blake2_to_hex (cs_blake2 cs_id) ++ bstr ")))"
  | CsHg cs_id => bstr "Hg(HgChangesetId(HgNodeHash(Sha1(" ++ Sha1_to_hex (node_sha1 cs_id) ++ bstr "))))"
  end.

Definition mapping_cache_key (repo_id : RepositoryId) (cs : BonsaiOrHgChangesetId) : bytes :=
  RepositoryId_prefix repo_id ++ bstr "." ++ debug_key cs.

(** ** Serialization *)

Record thrift_mapping := mkTMapping { t_repo_id : RepositoryId; t_bcs_id : thrift_IdType; t_hg_cs_id : bytes }.

Definition mapping_from_thrift (entry : thrift_mapping) : option BonsaiHgMappingEntry :=
  hg ← ok (Sha1_from_thrift (t_hg_cs_id entry));
  bcs ← ok (ChangesetId_from_thrift (t_bcs_id entry));
  Some (mkMapping (t_repo_id entry) (mkNode hg) bcs).

Definition mapping_into_thrift (e : BonsaiHgMappingEntry) : thrift_mapping :=
  mkTMapping (repo_id e) (ChangesetId_into_thrift (bcs_id e)) (Sha1_into_thrift (node_sha1 (hg_cs_id e))).

Class CompactProtocol := { compact_serialize : thrift_mapping -> bytes; compact_deserialize : bytes -> option thrift_mapping }.
Class CompactProtocolLaws (C : CompactProtocol) : Prop := { compact_back t : compact_deserialize (compact_serialize t) = Some t }.

Section caching.
Context {S P M : Type} {mapping : BonsaiHgMapping S} {cachelib : Cachelib P BonsaiHgMappingEntry} {memcache : MemcacheClient M} {keygen : KeyGen}
  {compact : CompactProtocol}.

(** A [HashSet] of the keys, in the order in which it is iterated, and
    memcache's bound on values. *)
Context (hash_set : list BonsaiOrHgChangesetId -> list BonsaiOrHgChangesetId) (max_size : nat).

Definition memcache_deserialize (buf : bytes) : option BonsaiHgMappingEntry := entry ← compact_deserialize buf; mapping_from_thrift entry.
Definition memcache_serialize (entry : BonsaiHgMappingEntry) : bytes := compact_serialize (mapping_into_thrift entry).

Definition bonsai_of (k : BonsaiOrHgChangesetId) : option ChangesetId := match k with CsBonsai c => Some c | CsHg _ => None end.
Definition hg_of (k : BonsaiOrHgChangesetId) : option HgNodeHash := match k with CsBonsai _ => None | CsHg c => Some c end.

Definition key_of_entry (from_bonsai : bool) (entry : BonsaiHgMappingEntry) : BonsaiOrHgChangesetId :=
  if from_bonsai then CsBonsai (bcs_id entry) else CsHg (hg_cs_id entry).

(** With the two assertions. *)
Definition get_from_db (from_bonsai : bool) (repo : RepositoryId) (keys : list BonsaiOrHgChangesetId)
    : eio mapping_error S (list (BonsaiOrHgChangesetId * BonsaiHgMappingEntry)) := fun s =>
  match keys with
  | [] => (s, Ok [])
  | _ =>
      let bcs_ids : list ChangesetId := omap bonsai_of keys in
      let hg_cs_ids : list HgNodeHash := omap hg_of keys in
      match (if from_bonsai then if hg_cs_ids then Some (BonsaiIds bcs_ids) else None
             else if bcs_ids then Some (HgIds hg_cs_ids) else None) with
      | Some bonsai_or_hg_csids =>
          let '(s, r) := mapping_get repo bonsai_or_hg_csids s in
          (s, mapping_entries ← r; Ok (extend ((fun entry => (key_of_entry from_bonsai entry, entry)) <$> mapping_entries) []))
      | None => (s, Panic)
      end
  end.

(** A failure of the cache of the process is given as it is. *)
Definition from_cache_error (e : cache_error mapping_error) : mapping_error := match e with CachelibFailed => CacheError | DbFailed e => e end.

Definition is_from_bonsai (cs : BonsaiOrHgChangesetIds) : bool := match cs with BonsaiIds _ => true | HgIds _ => false end.
Definition keys_of_ids (cs : BonsaiOrHgChangesetIds) : list BonsaiOrHgChangesetId :=
  hash_set (match cs with BonsaiIds cs => CsBonsai <$> cs | HgIds cs => CsHg <$> cs end).

Definition caching_get (repo : RepositoryId) (cs : BonsaiOrHgChangesetIds) : eio mapping_error (S * P * M) (list BonsaiHgMappingEntry) := fun w =>
  let '(w, r) := CacheLayers.run (mapping_cache_key repo) memcache_deserialize memcache_serialize max_size
    (get_from_db (is_from_bonsai cs) repo) (keys_of_ids cs) w in
  (w, map ← map_err from_cache_error r; Ok (map.*2)).

Definition caching_add (entry : BonsaiHgMappingEntry) : eio mapping_error (S * P * M) bool := fun '(s, p, m) =>
  let '(s, r) := mapping_add entry s in ((s, p, m), r).

#[export] Instance CachingBonsaiHgMapping : BonsaiHgMapping (S * P * M) := {| mapping_add := caching_add; mapping_get := caching_get |}.
End caching.

(** ** Keys *)

Lemma digits_split s : forall s' l l', Forall (fun b => is_digit b = true) s -> Forall (fun b => is_digit b = true) s' ->
  s ++ x2e :: l = s' ++ x2e :: l' -> s = s' /\ l = l'.
Proof.
  induction s as [|b s IH]; intros [|b' s'] l l' Hs Hs' H.
  - by injection H as ->.
  - injection H as <- _. by apply Forall_inv in Hs'.
  - injection H as -> _. by apply Forall_inv in Hs.
  - injection H as <- H. destruct (IH s' l l') as [-> ->]; [by eapply Forall_inv_tail|by eapply Forall_inv_tail|done|done].
Qed.

Lemma prefix_inj r r' l l' : RepositoryId_prefix r ++ l = RepositoryId_prefix r' ++ l' -> r = r' /\ l = l'.
Proof.
  unfold RepositoryId_prefix. rewrite <- !app_assoc. intros H%app_inv_head. cbn [bstr app] in H.
  assert (forall k, Forall (fun b => is_digit b = true) (pad4 (decimal k))) as Hd.
  { intros k. unfold pad4. apply Forall_app. split; [by apply Forall_replicate|apply decimal_digits]. }
  apply digits_split in H as [H ->]; [|done|done]. split; [|done]. unfold pad4 in H.
  apply (f_equal plain_value) in H. by rewrite !decimal_plain in H.
Qed.

Lemma debug_key_inj k k' : debug_key k = debug_key k' -> k = k'.
Proof.
  destruct k as [[[b]]|[[b]]], k' as [[[b']]|[[b']]]; intros H; [|discriminate H|discriminate H|];
    apply app_inv_head, app_inv_tail, hex_of_inj in H; cbn in H; by subst b'.
Qed.

Lemma mapping_cache_key_inj r r' k k' : mapping_cache_key r k = mapping_cache_key r' k' -> r = r' /\ k = k'.
Proof. intros [-> H%app_inv_head%debug_key_inj]%prefix_inj. done. Qed.

(** An entry has a key. *)
Definition has_key (k : BonsaiOrHgChangesetId) (e : BonsaiHgMappingEntry) : Prop :=
  match k with CsBonsai c => bcs_id e = c | CsHg c => hg_cs_id e = c end.

(** ** The promises are kept *)

Section caching_ok.
Context {S P M : Type} {mapping : BonsaiHgMapping S} {ML : BonsaiHgMappingLaws S}
  {cachelib : Cachelib P BonsaiHgMappingEntry} {kept : P -> bytes -> BonsaiHgMappingEntry -> Prop} {CL : CachelibLaws cachelib kept}
  {memcache : MemcacheClient M} {held : M -> bytes -> bytes -> Prop} {MCL : MemcacheLaws memcache held}
  {keygen : KeyGen} {KL : KeyGenLaws keygen} {compact : CompactProtocol} {CPL : CompactProtocolLaws compact}.
Context (hash_set : list BonsaiOrHgChangesetId -> list BonsaiOrHgChangesetId) (max_size : nat).
Hypothesis (hash_set_in : forall l k, k ∈ hash_set l <-> k ∈ l).
Hypothesis (cachelib_reads : forall p k, exists o, get_cached p k = Ok o).

(** What is right under a cache key. *)
Definition right_entry (s : S) (ck : bytes) (e : BonsaiHgMappingEntry) : Prop :=
  view s e /\ exists k, ck = mapping_cache_key (repo_id e) k /\ has_key k e.

Lemma right_has_key s repo k e : right_entry s (mapping_cache_key repo k) e <-> view s e /\ repo_id e = repo /\ has_key k e.
Proof.
  unfold right_entry. split; [by intros (Hv & k' & [-> ->]%mapping_cache_key_inj & Hk)|]. intros (Hv & <- & Hk). split; [done|by exists k].
Qed.

Lemma mapping_back e : valid_mapping e -> memcache_deserialize (memcache_serialize e) = Some e.
Proof.
  intros [Hh Hb]. unfold memcache_deserialize, memcache_serialize. rewrite compact_back.
  change (mapping_from_thrift (mapping_into_thrift e) = Some e). unfold mapping_from_thrift, mapping_into_thrift. cbn [t_hg_cs_id t_bcs_id t_repo_id].
  unfold valid_node, valid_sha1 in Hh. unfold valid_blake2 in Hb. unfold Sha1_from_thrift, Sha1_into_thrift, ChangesetId_from_thrift, typed_from_thrift,
    ChangesetId_into_thrift, Blake2_from_thrift, Blake2_into_thrift. rewrite Hh, Hb. by destruct e as [r [[h]] [[b]]].
Qed.

Definition caching_in_order (w : S * P * M) : Prop :=
  let '(s, p, m) := w in in_order s /\ (forall e, view s e -> valid_mapping e) /\
  caches_right (kept := kept) (held := held) memcache_deserialize (right_entry s) p m.
Definition caching_view (w : S * P * M) : BonsaiHgMappingEntry -> Prop := view w.1.1.

Lemma caches_right_mono s s' p m : (forall e, view s e -> view s' e) ->
  caches_right (kept := kept) (held := held) memcache_deserialize (right_entry s) p m ->
  caches_right (kept := kept) (held := held) memcache_deserialize (right_entry s') p m.
Proof.
  intros Hv [Hp Hm]. split; [intros ck e [? ?]%Hp; by split; [apply Hv|]|]. intros ck b e Hb He. destruct (Hm ck b e Hb He) as [? ?]. by split; [apply Hv|].
Qed.
Lemma omap_in {A B} (f : A -> option B) (l : list A) y : y ∈ omap f l <-> exists x, x ∈ l /\ f x = Some y.
Proof. apply list_elem_of_omap. Qed.

(** What is asked for, by the ids or by the keys. *)
Lemma keys_of_ids_in ids k : k ∈ keys_of_ids hash_set ids <->
  match ids with BonsaiIds l => exists c, k = CsBonsai c /\ c ∈ l | HgIds l => exists c, k = CsHg c /\ c ∈ l end.
Proof using hash_set_in. unfold keys_of_ids. rewrite hash_set_in. destruct ids; apply list_elem_of_fmap. Qed.

Definition of_kind (from_bonsai : bool) (k : BonsaiOrHgChangesetId) : Prop := match k with CsBonsai _ => from_bonsai = true | CsHg _ => from_bonsai = false end.

Lemma asked_keys repo ids e : asked repo ids e <-> repo_id e = repo /\ exists k, k ∈ keys_of_ids hash_set ids /\ has_key k e.
Proof using hash_set_in.
  unfold asked. split; intros [Hr H]; (split; [done|]); destruct ids as [l|l].
  - exists (CsBonsai (bcs_id e)). split; [|done]. apply keys_of_ids_in. by eexists.
  - exists (CsHg (hg_cs_id e)). split; [|done]. apply keys_of_ids_in. by eexists.
  - destruct H as (k & (c & -> & Hc)%keys_of_ids_in & Hk). cbn in Hk. by subst c.
  - destruct H as (k & (c & -> & Hc)%keys_of_ids_in & Hk). cbn in Hk. by subst c.
Qed.

(** The ids that [get_from_db] asks the mapping for. *)
Lemma get_from_db_asks fb repo keys s : keys <> [] -> (forall k, k ∈ keys -> of_kind fb k) -> exists ids,
  get_from_db fb repo keys s = (let '(s, r) := mapping_get repo ids s in
    (s, mapping_entries ← r; Ok (extend ((fun entry => (key_of_entry fb entry, entry)) <$> mapping_entries) []))) /\
  forall e, asked repo ids e <-> repo_id e = repo /\ key_of_entry fb e ∈ keys.
Proof.
  intros Hne Hk. unfold get_from_db. destruct keys as [|k0 keys]; [done|]. set (ks := k0 :: keys) in *. unfold asked, key_of_entry. destruct fb.
  - assert ((omap hg_of ks : list HgNodeHash) = []) as ->.
    { apply elem_of_nil_inv. intros c (k & Hin & Hf)%omap_in. specialize (Hk k Hin). by destruct k. }
    eexists. split; [done|]. intros e. rewrite omap_in. split; intros [? H]; (split; [done|]).
    + destruct H as (k & Hin & Hf). destruct k; [|done]. by injection Hf as <-.
    + by exists (CsBonsai (bcs_id e)).
  - assert ((omap bonsai_of ks : list ChangesetId) = []) as ->.
    { apply elem_of_nil_inv. intros c (k & Hin & Hf)%omap_in. specialize (Hk k Hin). by destruct k. }
    eexists. split; [done|]. intros e. rewrite omap_in. split; intros [? H]; (split; [done|]).
    + destruct H as (k & Hin & Hf). destruct k; [done|]. by injection Hf as <-.
    + by exists (CsHg (hg_cs_id e)).
Qed.

Lemma key_of_entry_has fb k e : of_kind fb k -> has_key k e <-> key_of_entry fb e = k.
Proof. destruct k as [c|c]; cbn; intros ->; cbn; (split; [by intros ->|by intros [= ->]]). Qed.

(** Entries that are mapped, collected by their keys. *)
Lemma collected fb (l : list BonsaiHgMappingEntry) (V : BonsaiHgMappingEntry -> Prop) : one_to_one V -> (forall e, e ∈ l -> V e) ->
  (forall e1 e2, e1 ∈ l -> e2 ∈ l -> repo_id e1 = repo_id e2) -> forall k e,
  (k, e) ∈ extend ((fun entry => (key_of_entry fb entry, entry)) <$> l) [] <-> e ∈ l /\ key_of_entry fb e = k.
Proof.
  intros Hone HV Hrepo k e. split.
  - intros [Hin|?%elem_of_nil]%extend_in; [|done]. apply list_elem_of_fmap in Hin as (e' & [= -> ->] & Hin). done.
  - intros [Hin <-]. destruct (extend_get ((fun entry => (key_of_entry fb entry, entry)) <$> l) (key_of_entry fb e) []) as [e' He'].
    { left. exists e. apply list_elem_of_fmap. by exists e. }
    pose proof (hm_get_in _ _ _ He') as Hin'. apply extend_in in Hin' as [Hin'|?%elem_of_nil]; [|done].
    apply list_elem_of_fmap in Hin' as (e2 & [= Hk ->] & Hin2). assert (e = e2) as ->; [|by apply hm_get_in].
    apply Hone; [by apply HV|by apply HV|]. split; [by apply Hrepo|]. unfold key_of_entry in Hk. destruct fb; injection Hk; auto.
Qed.

Lemma caching_get_view repo ids w : caching_in_order w -> exists w' l, caching_get hash_set max_size repo ids w = (w', Ok l) /\
  caching_in_order w' /\ (forall e, caching_view w' e <-> caching_view w e) /\ forall e, e ∈ l <-> caching_view w e /\ asked repo ids e.
Proof using All.
  destruct w as [[s p] m]. intros (Hs & Hval & Hc). unfold caching_get.
  destruct (run_exact (mapping_cache_key repo) memcache_deserialize memcache_serialize max_size (get_from_db (is_from_bonsai ids) repo)
    (right_entry s) (fun i => in_order i /\ forall e, view i e <-> view s e) (of_kind (is_from_bonsai ids))) with (keys := keys_of_ids hash_set ids) (d := s) (p := p) (m := m)
    as (i & p' & m' & l & -> & [Hi Hvi] & Hc' & Hl).
  - intros ck e e' (Hv & k & -> & Hk) (Hv' & k' & [Hr ->]%mapping_cache_key_inj & Hk'). apply (view_one_to_one s); [done|done|done|].
    split; [done|]. destruct k'; cbn in *; subst; auto.
  - intros keys i [Hi Hvi] Hkind. destruct keys as [|k0 keys]; [exists i, []; split; [done|]; split; [done|]; intros k v; set_solver|].
    destruct (get_from_db_asks (is_from_bonsai ids) repo (k0 :: keys) i) as (ids' & -> & Hids); [done|done|].
    destruct (get_view repo ids' i Hi) as (i' & l & -> & Hi' & Hvi' & Hl). rewrite bind_Ok. eexists _, _. split; [done|]. split.
    { split; [done|]. intros e. by rewrite Hvi', Hvi. }
    intros k e. rewrite (collected _ l (view s)); [|by apply view_one_to_one|intros e' [He' _]%Hl; by apply Hvi|].
    + rewrite Hl, Hids, right_has_key, Hvi. split.
      * intros [(Hv & Hr & Hin) <-]. split; [done|]. split; [done|]. split; [done|]. by apply (key_of_entry_has _ _ _ (Hkind _ Hin)).
      * intros (Hin & Hv & Hr & Hk%(key_of_entry_has _ _ _ (Hkind _ Hin))). by subst k.
    + intros e1 e2 [_ [Hr1 _]]%Hl [_ [Hr2 _]]%Hl. congruence.
  - done.
  - intros ck e [Hv _]. by apply mapping_back, Hval.
  - done.
  - done.
  - intros k Hk%keys_of_ids_in. destruct ids; destruct Hk as (c & -> & _); done.
  - eexists _, _. split; [done|]. split; [split; [done|split; [intros e He%Hvi; by apply Hval|]]|split; [done|]].
    + eapply caches_right_mono; [|done]. intros e. by apply Hvi.
    + intros e. unfold caching_view. cbn [fst]. rewrite asked_keys, list_elem_of_fmap. split.
      * intros ([k e'] & -> & [Hk (Hv & Hr & Hh)%right_has_key]%Hl). split; [done|]. split; [done|]. by exists k.
      * intros (Hv & Hr & k & Hk & Hh). exists (k, e). split; [done|]. apply Hl. split; [done|]. by apply right_has_key.
Qed.

#[local] Existing Instance CachingBonsaiHgMapping.

Definition CachingBonsaiHgMapping_laws : BonsaiHgMappingLaws (S * P * M) (H := CachingBonsaiHgMapping hash_set max_size).
Proof using All.
  refine {| view := caching_view; in_order := caching_in_order |}.
  - intros [[s p] m] (Hs & _). by apply view_one_to_one.
  - apply caching_get_view.
  - intros e [[s p] m] (Hs & Hval & Hc) He Hcomp. destruct (add_view e s Hs He Hcomp) as (s' & b & E & Hs' & Hb & Hv).
    exists (s', p, m), b. cbn. rewrite E. split; [done|]. split; [split; [done|split]|done].
    + intros e' [?| ->]%Hv; [by apply Hval|done].
    + eapply caches_right_mono; [|done]. intros e' ?. apply Hv. by left.
Defined.

(** C19. The caches are not seen: from caches that hold what is mapped, the
    mapping behind them and the mapping with them give the same entries for any
    ids, the caches stay right, and so they do when entries are added. *)
Theorem caching_same repo ids s p m : caching_in_order (s, p, m) -> exists w l s' l',
  caching_get hash_set max_size repo ids (s, p, m) = (w, Ok l) /\ mapping_get repo ids s = (s', Ok l') /\ (forall e, e ∈ l <-> e ∈ l') /\
  caching_in_order w /\
  forall e, valid_mapping e -> compatible (view s) e -> exists w' b, caching_add e w = (w', Ok b) /\ caching_in_order w' /\
    forall e', caching_view w' e' <-> view s e' \/ e' = e.
Proof using All.
  intros Hw. destruct (caching_get_view repo ids _ Hw) as (w & l & E & Hok & Hv & Hl). destruct (get_view repo ids s) as (s' & l' & E' & _ & _ & Hl'); [apply Hw|].
  exists w, l, s', l'. split; [done|]. split; [done|]. split; [intros e; by rewrite Hl, Hl'|]. split; [done|]. intros e He Hc.
  destruct (@add_view _ _ CachingBonsaiHgMapping_laws e w) as (w' & b & Ew & Hok' & _ & Hview); [done|done|intros e' Hin%Hv; by apply Hc|].
  exists w', b. split; [done|]. split; [done|]. intros e'. rewrite <- (Hv e'). apply Hview.
Qed.
End caching_ok.

(** ** Example *)

Section example.
(** Fields of bytes one after the other. *)
Definition ex_field (l : bytes) : bytes := concat ((fun b => [x01; b]) <$> l) ++ [x00].
Fixpoint ex_parse (l : bytes) : option (bytes * bytes) :=
  match l with
  | x00 :: l => Some ([], l)
  | x01 :: b :: l => '(f, r) ← ex_parse l; Some (b :: f, r)
  | _ => None
  end.

Lemma ex_parse_field f r : ex_parse (ex_field f ++ r) = Some (f, r).
Proof. induction f as [|b f IH]; [done|]. cbn [ex_field concat fmap list_fmap app ex_parse]. unfold ex_field in IH. cbn in IH. by rewrite IH. Qed.

#[local] Instance ex_compact : CompactProtocol := {|
  compact_serialize t := ex_field (decimal (t_repo_id t)) ++ ex_field (t_hg_cs_id t) ++
    match t_bcs_id t with TBlake2 b => [x00] ++ ex_field b | TIdUnknownField x => [if (x <? 0)%Z then x02 else x01] ++ ex_field (decimal (Z.abs_N x)) end;
  compact_deserialize l :=
    '(r, l) ← ex_parse l; '(h, l) ← ex_parse l;
    match l with
    | x00 :: l => '(b, _) ← ex_parse l; Some (mkTMapping (plain_value r) (TBlake2 b) h)
    | x01 :: l => '(b, _) ← ex_parse l; Some (mkTMapping (plain_value r) (TIdUnknownField (Z.of_N (plain_value b))) h)
    | x02 :: l => '(b, _) ← ex_parse l; Some (mkTMapping (plain_value r) (TIdUnknownField (- Z.of_N (plain_value b))) h)
    | _ => None
    end
|}.
#[local] Instance ex_compact_laws : CompactProtocolLaws ex_compact.
Proof.
  split. intros [r b h]. cbn [compact_serialize compact_deserialize ex_compact t_repo_id t_bcs_id t_hg_cs_id].
  rewrite ex_parse_field. cbn [mbind option_bind]. rewrite ex_parse_field. cbn [mbind option_bind].
  pose proof (decimal_plain r 0) as Hr. cbn [replicate app] in Hr. rewrite Hr.
  destruct b as [b|x]; cbn [app]; [rewrite <- (app_nil_r (ex_field b)), ex_parse_field; done|].
  pose proof (decimal_plain (Z.abs_N x) 0) as Hn. cbn [replicate app] in Hn.
  destruct (Z.ltb_spec x 0); rewrite <- (app_nil_r (ex_field _)), ex_parse_field; cbn [mbind option_bind]; rewrite Hn; do 3 f_equal; lia.
Qed.

#[local] Instance ex_pool : Cachelib (list (bytes * BonsaiHgMappingEntry)) BonsaiHgMappingEntry := {|
  get_cached p k := Ok (hm_get k p);
  set_cached p k v := (hm_insert k v p, Ok true)
|}.
#[local] Instance ex_pool_laws : CachelibLaws ex_pool (fun p k v => (k, v) ∈ p).
Proof. split; [intros p k v [= H]; by apply hm_get_in|]. intros p k v k' v' [[= -> ->]|H]%hm_insert_in; [by right|by left]. Qed.

Lemma ex_pool_reads p k : exists o, get_cached p k = Ok o.
Proof. by exists (hm_get k p). Qed.

#[local] Instance ex_memcache : MemcacheClient (list (bytes * bytes)) := {|
  mc_get m k := Ok (hm_get k m);
  mc_set m k v _ := (hm_insert k v m, Ok tt)
|}.
#[local] Instance ex_memcache_laws : MemcacheLaws ex_memcache (fun m k v => (k, v) ∈ m).
Proof. split; [intros p k v [= H]; by apply hm_get_in|]. intros p k v ttl k' v' [[= -> ->]|H]%hm_insert_in; [by right|by left]. Qed.

#[local] Instance ex_keygen : KeyGen := {| key k := bstr "scm.mononoke.bonsai_hg_mapping" ++ k |}.
#[local] Instance ex_keygen_laws : KeyGenLaws ex_keygen.
Proof. split. intros k k' H. by apply app_inv_head in H. Qed.

#[local] Instance ex_first_row : Limit1 := {| limit1 l := head l |}.
#[local] Instance ex_first_row_laws : Limit1Laws ex_first_row.
Proof. split; intros [|x l]; cbn; [done|intros r [= <-]; by left|done|by eexists]. Qed.

Lemma caching_same_witness : exists w l, caching_get remove_dups 1000 0%N (HgIds [map_hg x01]) (map_tables, [], []) = (w, Ok l) /\
  forall e, e ∈ l <-> e ∈ [map_row x01 x01].
Proof.
  destruct (caching_same (S := tables) (P := list (bytes * BonsaiHgMappingEntry)) (M := list (bytes * bytes)) remove_dups 1000
    (fun l k => elem_of_remove_dups l k) ex_pool_reads 0%N (HgIds [map_hg x01]) map_tables [] [])
    as (w & l & s' & l' & E & E' & Hl & _).
  - split; [exact map_tables_ok|]. split; [|split].
    + intros e He%list_elem_of_singleton. subst e. by split.
    + intros ck v Hin. by apply elem_of_nil in Hin.
    + intros ck b v Hin. by apply elem_of_nil in Hin.
  - exists w, l. split; [exact E|]. intros e. rewrite (Hl e). vm_compute in E'. injection E' as _ <-. done.
Defined.
End example.
