(* ===== verification/Pushrebase.v ===== *)
(** * Pushrebase: the steps

    Model of [src/bundle2_resolver/pushrebase/src/lib.rs], first part: finding
    the head and the roots of what was pushed, the files that a changeset may
    conflict on, the intersection of two lists of changed files, and the
    rebase of one changeset and of a stack of them. [PushrebaseLoop] puts the
    steps together. *)

From S2P Require Import Prelude Hash Bonsai Graph Range TopoSort Changesets Bookmarks CaseConflict Repo Ord Path.

Record PushrebaseConflict := mkConflict { left : MPath; right : MPath }.

(** [ErrorKind], and the errors of what is called. *)
Inductive pushrebase_failure :=
| BonsaiNotFoundForHgChangeset (hg_cs : HgNodeHash)
| PushrebaseBookmarkNotFound (b : Bookmark)
| PushrebaseTooManyHeads
| PushrebaseNoCommonRoot (b : Bookmark) (roots : gset ChangesetId)
| RootNotFound (c : ChangesetId)
| NoRoots
| TooManyRebaseAttempts
| FetchFailed (e : fetch_error)
| RepoFailed (e : repo_error)
| BonsaiFailed (e : bonsai_error)
| BookmarksFailed (e : bookmark_error).

Inductive PushrebaseError :=
| Conflicts (conflicts : list PushrebaseConflict)
| PotentialCaseConflict (path : MPath)
| RebaseOverMerge
| RootTooFarBehind
| Error (e : pushrebase_failure).

Record PushrebaseParams := mkParams { rewritedates : bool; recursion_limit : N }.

Record OntoBookmarkParams := mkOnto { onto_bookmark : Bookmark; create_if_not_exists : bool }.

(** [Timestamp]: nanoseconds, an [i64]. *)
Record Timestamp := mkTimestamp { nanos : Z }.
Definition timestamp_seconds (t : Timestamp) : Z := Z.quot (nanos t) 1000000000.

(** ** Conflicting files *)

(** The loop of [intersect_changed_files]. *)
Fixpoint intersect_loop (ls : list MPath) : list MPath -> list PushrebaseConflict :=
  fix loop_right (rs : list MPath) : list PushrebaseConflict :=
    match ls, rs with
    | l :: ls', r :: rs' =>
        match cmp l r with
        | Eq => mkConflict l r :: intersect_loop ls' rs'
        | Lt => (if is_prefix_of l (elements r) then [mkConflict l r] else []) ++ intersect_loop ls' rs
        | Gt => (if is_prefix_of r (elements l) then [mkConflict l r] else []) ++ loop_right rs'
        end
    | _, _ => []
    end.

Definition intersect_changed_files (left right : list MPath) : outcome PushrebaseError unit :=
  match intersect_loop (sort_unstable left) (sort_unstable right) with
  | [] => Ok tt
  | conflicts => Err (Conflicts conflicts)
  end.

(** One of the paths is the other, or a directory of it. *)
Definition paths_conflict (l r : MPath) : Prop :=
  elements l `prefix_of` elements r \/ elements r `prefix_of` elements l.

Lemma paths_conflict_lt l r : ord_lt l r -> paths_conflict l r <-> is_prefix_of l (elements r) = true.
Proof.
  intros Hlt. rewrite is_prefix_of_spec. split; [|by left].
  intros [H|H]; [done|]. by apply path_prefix_not_gt in H.
Qed.

Lemma paths_conflict_gt l r : ord_lt r l -> paths_conflict l r <-> is_prefix_of r (elements l) = true.
Proof. intros Hlt%paths_conflict_lt. rewrite <- Hlt. unfold paths_conflict. tauto. Qed.

Lemma intersect_loop_unfold ls rs :
  intersect_loop ls rs =
  match ls, rs with
  | l :: ls', r :: rs' =>
      match cmp l r with
      | Eq => mkConflict l r :: intersect_loop ls' rs'
      | Lt => (if is_prefix_of l (elements r) then [mkConflict l r] else []) ++ intersect_loop ls' rs
      | Gt => (if is_prefix_of r (elements l) then [mkConflict l r] else []) ++ intersect_loop ls rs'
      end
  | _, _ => []
  end.
Proof. destruct ls, rs; reflexivity. Qed.

(** Whatever is reported is a conflict. *)
Lemma intersect_loop_sound n : forall ls rs c, length ls + length rs < n ->
  c ∈ intersect_loop ls rs -> left c ∈ ls /\ right c ∈ rs /\ paths_conflict (left c) (right c).
Proof.
  induction n as [|n IH]; intros ls rs c Hn; [lia|]. rewrite intersect_loop_unfold.
  destruct ls as [|l ls], rs as [|r rs]; try (by intros ?%elem_of_nil). simpl in Hn.
  destruct (cmp_spec l r) as [<-|Hlt|Hlt].
  - intros [->|Hc]%elem_of_cons; [split; [by left|split; [by left|by left]]|].
    apply IH in Hc as (H1 & H2 & H3); [|lia]. split; [by right|]. split; [by right|done].
  - intros [Hc|Hc]%elem_of_app.
    + destruct (is_prefix_of l (elements r)) eqn:E; [|by apply elem_of_nil in Hc].
      apply list_elem_of_singleton in Hc as ->. split; [by left|]. split; [by left|].
      by apply paths_conflict_lt.
    + apply IH in Hc as (H1 & H2 & H3); [|simpl; lia]. split; [by right|done].
  - intros [Hc|Hc]%elem_of_app.
    + destruct (is_prefix_of r (elements l)) eqn:E; [|by apply elem_of_nil in Hc].
      apply list_elem_of_singleton in Hc as ->. split; [by left|]. split; [by left|].
      by apply paths_conflict_gt.
    + apply IH in Hc as (H1 & H2 & H3); [|simpl; lia]. split; [done|]. split; [by right|done].
Qed.

(** The lowest path of two sorted lists: if it conflicts with something in
    the other list, it conflicts with the first path there. *)
Lemma lowest_conflict l r rs y :
  ord_lt l r -> StronglySorted ord_le (r :: rs) -> y ∈ r :: rs -> paths_conflict l y -> paths_conflict l r.
Proof.
  intros Hlt [_ Hrs]%StronglySorted_inv [->|Hy]%elem_of_cons Hc; [done|].
  rewrite Forall_forall in Hrs. destruct (Hrs y Hy) as [<-|Hry]; [done|].
  assert (ord_lt l y) as Hly by (by transitivity r).
  apply (paths_conflict_lt _ _ Hly), is_prefix_of_spec in Hc. left. by eapply path_prefix_between.
Qed.

Lemma intersect_loop_complete n : forall ls rs, length ls + length rs < n ->
  StronglySorted ord_le ls -> StronglySorted ord_le rs -> intersect_loop ls rs = [] ->
  forall x y, x ∈ ls -> y ∈ rs -> ~ paths_conflict x y.
Proof.
  induction n as [|n IH]; intros ls rs Hn Hls Hrs; [lia|]. rewrite intersect_loop_unfold.
  destruct ls as [|l ls]; [intros _ x y Hx; by apply elem_of_nil in Hx|].
  destruct rs as [|r rs]; [intros _ x y _ Hy; by apply elem_of_nil in Hy|].
  simpl in Hn. destruct (cmp_spec l r) as [<-|Hlt|Hlt]; [done| |].
  - destruct (is_prefix_of l (elements r)) eqn:E; [done|]. simpl. intros H0 x y [->|Hx]%elem_of_cons Hy.
    + intros Hc%(lowest_conflict l r rs); [|done..]. apply paths_conflict_lt in Hc; [congruence|done].
    + apply (IH ls (r :: rs)); [simpl; lia|by apply StronglySorted_inv in Hls as [??]|done..].
  - destruct (is_prefix_of r (elements l)) eqn:E; [done|]. simpl. intros H0 x y Hx [->|Hy]%elem_of_cons.
    + intros Hc. assert (paths_conflict r l) as Hrl.
      { apply (lowest_conflict r l ls x); [done..|]. unfold paths_conflict in *. tauto. }
      apply paths_conflict_lt in Hrl; [congruence|done].
    + apply (IH (l :: ls) rs); [simpl; lia|done|by apply StronglySorted_inv in Hrs as [??]|done..].
Qed.

Lemma intersect_members (l r : list MPath) x :
  (x ∈ sort_unstable l <-> x ∈ l) /\ (x ∈ sort_unstable r <-> x ∈ r).
Proof. by rewrite !sort_unstable_perm. Qed.

Lemma intersect_Ok_iff (l r : list MPath) :
  intersect_changed_files l r = Ok tt <-> forall x y, x ∈ l -> y ∈ r -> ~ paths_conflict x y.
Proof.
  unfold intersect_changed_files. set (ls := sort_unstable l). set (rs := sort_unstable r).
  pose proof (intersect_loop_complete (S (length ls + length rs)) ls rs ltac:(lia)
                (sort_unstable_sorted l) (sort_unstable_sorted r)) as Hcomp.
  pose proof (fun c => intersect_loop_sound (S (length ls + length rs)) ls rs c ltac:(lia)) as Hsound.
  destruct (intersect_loop ls rs) as [|c cs]; (split; [|done || intros H]).
  - intros _ x y Hx Hy. apply Hcomp; [done| |]; by apply intersect_members.
  - done.
  - destruct (Hsound c ltac:(by left)) as (H1 & H2 & H3).
    apply (intersect_members l r) in H1, H2. by destruct (H _ _ H1 H2).
Qed.

(** Two lists of changed files pass the check exactly when no path of
    one is a path of the other or a directory of one, whatever the order of
    the lists; and every conflict that is reported is between a path of the
    left and a path of the right. *)
Theorem intersect_changed_files_exact (l r : list MPath) :
  (intersect_changed_files l r = Ok tt <-> forall x y, x ∈ l -> y ∈ r -> ~ paths_conflict x y) /\
  (forall e, intersect_changed_files l r = Err e -> exists cs, e = Conflicts cs /\ cs <> [] /\
     Forall (fun c => left c ∈ l /\ right c ∈ r /\ paths_conflict (left c) (right c)) cs) /\
  intersect_changed_files l r <> Panic.
Proof.
  split; [apply intersect_Ok_iff|]. unfold intersect_changed_files.
  pose proof (fun c => intersect_loop_sound _ (sort_unstable l) (sort_unstable r) c (Nat.lt_succ_diag_r _)) as Hsound.
  destruct (intersect_loop _ _) as [|c cs]; (split; [|done]); [done|].
  intros e [= <-]. exists (c :: cs). split; [done|]. split; [done|]. apply Forall_forall.
  intros c' Hc'. destruct (Hsound c' Hc') as (H1 & H2 & H3). by apply (intersect_members l r) in H1, H2.
Qed.

(** ** Finding the head and the root of what is pushed *)

Section steps.
Context {CH : Chrono} {BH : BonsaiHash} {HO : HashOrder}.

Abbreviation failed e := (Err (Error e)).

Definition remove_all {A} `{Countable A} (s : gset A) (l : list A) : gset A := foldl (fun s x => s ∖ {[x]}) s l.

Definition ids_of (commits : list BonsaiChangeset) : gset ChangesetId :=
  list_to_set (get_changeset_id <$> commits).

Definition find_only_head_or_fail (commits : list BonsaiChangeset) : outcome PushrebaseError ChangesetId :=
  let commits_set := foldl (fun s commit => remove_all s (parents (inner commit))) (ids_of commits) commits in
  if Nat.eqb (size commits_set) 1 then expect (head (hash_order commits_set))
  else failed PushrebaseTooManyHeads.

Definition find_roots (commits : list BonsaiChangeset) : list ChangesetId :=
  let commits_set := ids_of commits in
  concat ((fun commit => List.filter (fun p => negb (bool_decide (p ∈ commits_set))) (parents (inner commit)))
            <$> commits).

(** The loop: [left] is how far it may still go. *)
Fixpoint closest_loop (repo : BlobRepo) (bookmark : Bookmark) (roots : gset ChangesetId) (left : nat)
    (queue : list ChangesetId) : outcome PushrebaseError ChangesetId :=
  match left with
  | 0 => Err RootTooFarBehind
  | S left =>
      match queue with
      | [] => failed (PushrebaseNoCommonRoot bookmark roots)
      | id :: queue =>
          if decide (id ∈ roots) then Ok id else
          parents ← map_err (fun e => Error (RepoFailed e)) (get_changeset_parents_by_bonsai repo id);
          match parents with
          | [] => closest_loop repo bookmark roots left queue
          | [parent] => closest_loop repo bookmark roots left (queue ++ [parent])
          | _ => Err RebaseOverMerge
          end
      end
  end.

Definition find_closest_ancestor_root (repo : BlobRepo) (config : PushrebaseParams) (bookmark : Bookmark)
    (roots : gset ChangesetId) (onto_bookmark_cs_id : ChangesetId) : outcome PushrebaseError ChangesetId :=
  closest_loop repo bookmark roots (N.to_nat (recursion_limit config)) [onto_bookmark_cs_id].

(** [max_by_key]: of several elements with the highest key, the last. *)
Definition max_by_key {A} (key : A -> N) (l : list A) : option A :=
  foldl (fun best x => match best with
                       | Some y => if (key y <=? key x)%N then Some x else Some y
                       | None => Some x
                       end) None l.

Definition root_generation (repo : BlobRepo) (root : ChangesetId)
    : outcome PushrebaseError (ChangesetId * Generation) :=
  gen_num ← ok_or (get_generation_number_by_bonsai repo root) (Error (RootNotFound root));
  Ok (root, gen_num).

Definition find_closest_root (repo : BlobRepo) (config : PushrebaseParams) (bookmark : OntoBookmarkParams)
    (roots : list ChangesetId) : outcome PushrebaseError ChangesetId :=
  let roots : gset ChangesetId := list_to_set roots in
  match get_bonsai_bookmark repo (onto_bookmark bookmark) with
  | Some id => find_closest_ancestor_root repo config (onto_bookmark bookmark) roots id
  | None =>
      if create_if_not_exists bookmark then
        roots_with_gen_nums ← collect (root_generation repo) (hash_order roots);
        '(cs_id, _) ← ok_or (max_by_key snd roots_with_gen_nums) (Error NoRoots);
        Ok cs_id
      else failed (PushrebaseBookmarkNotFound (onto_bookmark bookmark))
  end.

Definition get_onto_bookmark_value (repo : BlobRepo) (onto : OntoBookmarkParams)
    : outcome PushrebaseError (option ChangesetId) :=
  match get_bonsai_bookmark repo (onto_bookmark onto) with
  | Some bookmark_value => Ok (Some bookmark_value)
  | None =>
      if create_if_not_exists onto then Ok None
      else failed (PushrebaseBookmarkNotFound (onto_bookmark onto))
  end.

(** *** The walk from the bookmark to the closest root *)

(** After [n] steps over changesets with one parent, none of them a root. *)
Inductive walk (repo : BlobRepo) (roots : gset ChangesetId) : nat -> ChangesetId -> ChangesetId -> Prop :=
| walk_here c : walk repo roots 0 c c
| walk_on n c p x : c ∉ roots -> repo_parents repo c = [p] -> walk repo roots n p x ->
    walk repo roots (S n) c x.

(** What the walk over at most [left] changesets finds. *)
Definition closest_result (repo : BlobRepo) (bookmark : Bookmark) (roots : gset ChangesetId) (left : nat)
    (c : ChangesetId) (r : outcome PushrebaseError ChangesetId) : Prop :=
  (exists n x, n < left /\ walk repo roots n c x /\ x ∈ roots /\ r = Ok x) \/
  (exists n x, n < left /\ walk repo roots n c x /\ x ∉ roots /\ 1 < length (repo_parents repo x) /\
     r = Err RebaseOverMerge) \/
  (exists n x, S n < left /\ walk repo roots n c x /\ x ∉ roots /\ repo_parents repo x = [] /\
     r = failed (PushrebaseNoCommonRoot bookmark roots)) \/
  ((exists x, walk repo roots left c x \/ (exists n, S n = left /\ walk repo roots n c x /\ x ∉ roots /\
     repo_parents repo x = [])) /\ r = Err RootTooFarBehind).

Lemma walk_snoc repo roots n : forall c x p,
  walk repo roots n c x -> x ∉ roots -> repo_parents repo x = [p] -> walk repo roots (S n) c p.
Proof.
  induction n as [|n IH]; intros c x p Hw Hx Hp; inversion Hw; subst.
  - econstructor; [done|done|constructor].
  - econstructor; [done|done|by eapply IH].
Qed.

Lemma closest_result_step repo bookmark roots left c p r :
  c ∉ roots -> repo_parents repo c = [p] -> closest_result repo bookmark roots left p r ->
  closest_result repo bookmark roots (S left) c r.
Proof.
  intros Hc Hp [(n & x & Hn & Hw & H)|[(n & x & Hn & Hw & H)|[(n & x & Hn & Hw & H)|((x & H) & Hr)]]].
  - left. exists (S n), x. split; [lia|]. split; [by econstructor|done].
  - right. left. exists (S n), x. split; [lia|]. split; [by econstructor|done].
  - right. right. left. exists (S n), x. split; [lia|]. split; [by econstructor|done].
  - right. right. right. split; [|done]. exists x. destruct H as [Hw|(n & Hn & Hw & H)]; [left; by econstructor|].
    right. exists (S n). split; [lia|]. split; [by econstructor|done].
Qed.

Lemma closest_loop_spec repo bookmark roots left : forall c,
  repo_ok repo -> in_repo repo c ->
  closest_result repo bookmark roots left c (closest_loop repo bookmark roots left [c]).
Proof.
  induction left as [|left IH]; intros c Hok Hc.
  { right. right. right. split; [|done]. exists c. left. constructor. }
  cbn [closest_loop]. destruct (decide (c ∈ roots)) as [Hin|Hno].
  { left. exists 0, c. split; [lia|]. split; [constructor|done]. }
  rewrite (get_parents_in_repo repo c Hc). cbn [map_err]. rewrite bind_Ok.
  destruct (repo_parents repo c) as [|p [|q ps]] eqn:E.
  - destruct left as [|left].
    + right. right. right. split; [|done]. exists c. right. exists 0. split; [done|]. split; [constructor|done].
    + right. right. left. exists 0, c. split; [lia|]. split; [constructor|done].
  - apply (closest_result_step _ _ _ _ _ p); [done|done|]. apply IH; [done|].
    apply (parents_in_repo repo c p Hok Hc). rewrite E. by left.
  - right. left. exists 0, c. split; [lia|]. split; [constructor|]. rewrite E. split; [done|]. simpl. split; [lia|done].
Qed.

(** There is one walk, and it ends at a root, a merge or the first changeset. *)
Lemma walk_suffix repo roots n : forall m c x y,
  n <= m -> walk repo roots n c x -> walk repo roots m c y -> walk repo roots (m - n) x y.
Proof.
  induction n as [|n IH]; intros m c x y Hm Hx Hy; [inversion Hx; subst; by rewrite Nat.sub_0_r|].
  inversion Hx as [|? ? p ? Hc Hp Hpx]; subst. inversion Hy as [|m' ? p' ? _ Hp' Hpy]; subst; [lia|].
  rewrite Hp in Hp'. injection Hp' as <-. apply (IH m' p); [lia|done|done].
Qed.

Definition ends_walk (repo : BlobRepo) (roots : gset ChangesetId) (x : ChangesetId) : Prop :=
  x ∈ roots \/ length (repo_parents repo x) <> 1.

Lemma walk_end_unique repo roots n m c x y :
  walk repo roots n c x -> walk repo roots m c y -> ends_walk repo roots x -> n <= m -> n = m /\ x = y.
Proof.
  intros Hx Hy He Hnm. pose proof (walk_suffix repo roots n m c x y Hnm Hx Hy) as Hw.
  inversion Hw as [|k ? p ? Hr Hp _ E1]; subst; [split; [lia|done]|].
  destruct He as [?|He]; [done|]. by rewrite Hp in He.
Qed.

Lemma walk_ends repo roots n m c x y :
  walk repo roots n c x -> walk repo roots m c y -> ends_walk repo roots x -> ends_walk repo roots y ->
  n = m /\ x = y.
Proof.
  intros Hx Hy Hex Hey. destruct (Nat.le_ge_cases n m) as [H|H]; [by eapply walk_end_unique|].
  destruct (walk_end_unique repo roots m n c y x Hy Hx Hey H). done.
Qed.

(** The walk back from the bookmark to a root of what is pushed. It
    returns a changeset exactly when that is a root, every changeset before
    it on the way has one parent and is none, and the limit allows it to be
    looked at; it refuses to rebase over a merge exactly when it meets one
    before a root and within the limit; and it does not fail in any other way
    than by having no root within the limit. *)
Theorem find_closest_ancestor_root_exact (repo : BlobRepo) (config : PushrebaseParams) (bookmark : Bookmark)
    (roots : gset ChangesetId) (c : ChangesetId) :
  repo_ok repo -> in_repo repo c ->
  let r := find_closest_ancestor_root repo config bookmark roots c in
  let limit := N.to_nat (recursion_limit config) in
  (forall x, r = Ok x <-> exists n, n < limit /\ walk repo roots n c x /\ x ∈ roots) /\
  (r = Err RebaseOverMerge <->
     exists n x, n < limit /\ walk repo roots n c x /\ x ∉ roots /\ 1 < length (repo_parents repo x)) /\
  (is_ok r = false -> r = Err RebaseOverMerge \/ r = Err RootTooFarBehind \/
     r = Err (Error (PushrebaseNoCommonRoot bookmark roots))).
Proof.
  intros Hok Hc r limit. pose proof (closest_loop_spec repo bookmark roots limit c Hok Hc) as H.
  change (closest_loop _ _ _ _ _) with r in H.
  assert (forall n m x y, n < limit -> walk repo roots n c x -> ends_walk repo roots x ->
    walk repo roots limit c y \/ (walk repo roots m c y /\ ends_walk repo roots y) -> m = n /\ x = y) as Huniq.
  { intros n m x y Hn Hx He [Hy|[Hy Hey]].
    - pose proof (walk_end_unique repo roots n limit c x y Hx Hy He ltac:(lia)) as [? _]. lia.
    - destruct (walk_ends repo roots n m c x y Hx Hy He Hey). done. }
  unfold ends_walk in Huniq.
  destruct H as [(n & x & Hn & Hw & Hin & ->)|[(n & x & Hn & Hw & Hin & Hp & ->)
    |[(n & x & Hn & Hw & Hin & Hp & ->)|((x & H) & ->)]]].
  - split; [|split; [|done]].
    + intros y. split; [intros [= <-]; by exists n|]. intros (m & Hm & Hy & Hyr).
      by destruct (Huniq n m x y Hn Hw ltac:(by left) ltac:(right; auto)) as [_ ->].
    + split; [done|]. intros (m & y & Hm & Hy & Hyr & Hyp).
      destruct (Huniq n m x y Hn Hw ltac:(by left) ltac:(right; split; [done|right; lia])) as [_ ->]. done.
  - split; [|split; [|by left]].
    + intros y. split; [done|]. intros (m & Hm & Hy & Hyr).
      destruct (Huniq n m x y Hn Hw ltac:(right; lia) ltac:(right; auto)) as [_ ->]. done.
    + split; [intros _; by exists n, x|done].
  - rewrite <- length_zero_iff_nil in Hp. split; [|split; [|by right; right]].
    + intros y. split; [done|]. intros (m & Hm & Hy & Hyr).
      destruct (Huniq n m x y ltac:(lia) Hw ltac:(right; lia) ltac:(right; auto)) as [_ ->]. done.
    + split; [done|]. intros (m & y & Hm & Hy & Hyr & Hyp).
      destruct (Huniq n m x y ltac:(lia) Hw ltac:(right; lia) ltac:(right; split; [done|right; lia])) as [_ ->]. lia.
  - assert (forall m y, m < limit -> walk repo roots m c y -> y ∈ roots \/ 1 < length (repo_parents repo y) -> False) as Hno.
    { intros m y Hm Hy Hey. destruct H as [Hx|(n & Hn & Hx & Hr & Hp)].
      - destruct (Huniq m limit y x Hm Hy) as [? _]; [destruct Hey; [by left|right; lia]|by left|lia].
      - rewrite <- length_zero_iff_nil in Hp.
        destruct (Huniq m n y x Hm Hy) as [_ ->]; [destruct Hey; [by left|right; lia]|right; split; [done|right; lia]|].
        destruct Hey; [done|lia]. }
    split; [|split; [|by right; left]].
    + intros y. split; [done|]. intros (m & Hm & Hy & Hyr). destruct (Hno m y Hm Hy ltac:(by left)).
    + split; [done|]. intros (m & y & Hm & Hy & _ & Hyp). destruct (Hno m y Hm Hy ltac:(by right)).
Qed.

(** ** Rebasing a changeset *)

Abbreviation RebasedChangesets := (gmap ChangesetId (ChangesetId * Timestamp)).

(** [remapping.get(&p).map(|(cs, _)| cs).cloned().unwrap_or(p)]. *)
Definition remap (remapping : RebasedChangesets) (p : ChangesetId) : ChangesetId :=
  match remapping !! p with Some (cs, _) => cs | None => p end.

Definition mutation_keys : list bytes :=
  [bstr "mutpred"; bstr "mutuser"; bstr "mutdate"; bstr "mutop"; bstr "mutsplit"].

(** [BTreeMap::remove]. *)
Definition btree_remove {V} (key : bytes) (m : list (bytes * V)) : list (bytes * V) :=
  List.filter (fun x => negb (bool_decide (x.1 = key))) m.

Definition rebase_file_change (remapping : RebasedChangesets) (file_change : FileChange) : FileChange :=
  mkFileChange (content_id file_change) (file_type file_change) (Bonsai.size file_change)
    ((fun '(path, cs) => (path, remap remapping cs)) <$> copy_from file_change).

Definition rebase_change (remapping : RebasedChangesets) (x : MPath * option FileChange)
    : MPath * option FileChange :=
  (x.1, rebase_file_change remapping <$> x.2).

Definition rebase_date (timestamp : option Timestamp) (d : DateTime) : outcome bonsai_error DateTime :=
  match timestamp with
  | Some timestamp => from_timestamp (timestamp_seconds timestamp) (tz_offset_secs d)
  | None => Ok d
  end.

Definition rebase_changeset (bcs : BonsaiChangeset) (remapping : RebasedChangesets)
    (timestamp : option Timestamp) : outcome bonsai_error BonsaiChangeset :=
  let bcs := into_mut bcs in
  author_date ← rebase_date timestamp (author_date bcs);
  freeze (mkBonsai (remap remapping <$> parents bcs) (author bcs) author_date (committer bcs)
            (committer_date bcs) (message bcs)
            (foldl (fun extra key => btree_remove key extra) (extra bcs) mutation_keys)
            (btree_collect (rebase_change remapping <$> file_changes bcs))).

(** What a rebased changeset keeps, and what it changes. *)
Record rebased (remapping : RebasedChangesets) (old new : BonsaiChangesetMut) : Prop := {
  rb_parents : parents new = remap remapping <$> parents old;
  rb_author : author new = author old;
  rb_committer : committer new = committer old;
  rb_committer_date : committer_date new = committer_date old;
  rb_message : message new = message old;
  rb_extra x : x ∈ extra new <-> x ∈ extra old /\ x.1 ∉ mutation_keys;
  rb_changes : file_changes new = rebase_change remapping <$> file_changes old
}.

Lemma elem_of_btree_remove {V} (x : bytes * V) key m : x ∈ btree_remove key m <-> x ∈ m /\ x.1 <> key.
Proof.
  unfold btree_remove. rewrite (list_elem_of_In (List.filter _ _)), filter_In, negb_true_iff, bool_decide_eq_false.
  by rewrite <- list_elem_of_In.
Qed.

Lemma remove_keys_spec {V} (x : bytes * V) keys : forall m,
  x ∈ foldl (fun extra key => btree_remove key extra) m keys <-> x ∈ m /\ x.1 ∉ keys.
Proof.
  induction keys as [|key keys IH]; intros m; simpl.
  - split; [|by intros [? _]]. intros Hx. split; [done|apply not_elem_of_nil].
  - rewrite IH, elem_of_btree_remove, not_elem_of_cons. tauto.
Qed.

Lemma btree_wf_keys {K V W} `{!Ordered K} (f : K * V -> K * W) (l : list (K * V)) :
  (forall x, (f x).1 = x.1) -> btree_wf l -> btree_wf (f <$> l).
Proof.
  intros Hf. induction 1 as [|x l Hs IH Hx]; [constructor|]. constructor; [done|].
  apply Forall_fmap. eapply Forall_impl; [exact Hx|]. intros y. simpl. by rewrite !Hf.
Qed.

Lemma changed_paths_rebase remapping l :
  changed_paths (rebase_change remapping <$> l) = changed_paths l.
Proof.
  unfold changed_paths. rewrite <- list_fmap_compose. apply list_fmap_ext. by intros i [path [fc|]] _.
Qed.

Lemma copies_known_rebase remapping old new :
  parents new = remap remapping <$> parents old ->
  file_changes new = rebase_change remapping <$> file_changes old -> copies_known old -> copies_known new.
Proof.
  intros Ep Ec Hold path fc from id Hin Hcopy. rewrite Ec in Hin. rewrite Ep.
  apply list_elem_of_fmap in Hin as ([path' [fc'|]] & E & Hin); [|done]. injection E as -> ->.
  simpl in Hcopy. destruct (copy_from fc') as [[from' id']|] eqn:Ef; [|done]. injection Hcopy as -> <-.
  apply list_elem_of_fmap_2. by eapply Hold.
Qed.

Lemma rebase_changeset_spec (b : BonsaiChangeset) remapping timestamp :
  frozen b ->
  match rebase_changeset b remapping timestamp with
  | Ok b' => rebased remapping (inner b) (inner b') /\ frozen b' /\
      rebase_date timestamp (author_date (inner b)) = Ok (author_date (inner b'))
  | Err e => rebase_date timestamp (author_date (inner b)) = Err e
  | Panic => False
  end.
Proof.
  intros [Hfr Hwf]. unfold rebase_changeset, into_mut.
  assert (rebase_date timestamp (author_date (inner b)) <> Panic) as Hp.
  { destruct timestamp; simpl; [|done]. unfold from_timestamp. destruct (west_opt _); [|done]. cbn [ok_or].
    rewrite bind_Ok. by destruct (timestamp_opt _ _ _). }
  destruct (rebase_date timestamp (author_date (inner b))) as [d|e|]; [rewrite bind_Ok|done|done].
  assert (btree_wf (rebase_change remapping <$> file_changes (inner b))) as Hwf' by (by apply btree_wf_keys).
  rewrite (btree_collect_id _ Hwf').
  unfold freeze in Hfr. apply bind_Ok_inv in Hfr as ([] & Hv & _).
  apply (verify_spec _ Hwf) in Hv as [Hc Hpcf].
  set (new := mkBonsai _ _ _ _ _ _ _ _).
  assert (verify new = Ok tt) as Hv'.
  { apply verify_spec; [done|]. split; [by apply (copies_known_rebase remapping (inner b))|].
    unfold new. cbn [file_changes]. by rewrite changed_paths_rebase. }
  unfold freeze. rewrite Hv', bind_Ok. split; [|split; [|done]].
  - split; try done. intros x. apply remove_keys_spec.
  - split; [|done]. unfold freeze. cbn [inner]. by rewrite Hv', bind_Ok.
Qed.

(** ** Rebasing a stack of changesets

    [timestamp_of] is [Timestamp::from] on a date, which asks the [chrono]
    package for the nanoseconds. *)

Context (timestamp_of : DateTime -> Timestamp).

Definition fetch_bonsai_range (k : nat) (repo : BlobRepo) (ancestor descendant : ChangesetId)
    : outcome PushrebaseError (list BonsaiChangeset) :=
  ids ← map_err (fun e => Error (FetchFailed e))
          (range_nodes (F := get_changeset_fetcher repo) k ancestor descendant);
  map_err (fun e => Error (RepoFailed e)) (collect (get_bonsai_changeset repo) ids).

Definition find_rebased_set (k : nat) (repo : BlobRepo) (root head : ChangesetId)
    : outcome PushrebaseError (list BonsaiChangeset) :=
  nodes ← fetch_bonsai_range k repo root head;
  Ok (reverse (List.filter (fun node => negb (bool_decide (get_changeset_id node = root))) nodes)).

(** The loop of [create_rebased_changesets]. *)
Fixpoint rebase_all (date : option Timestamp) (remapping : RebasedChangesets) (set : list BonsaiChangeset)
    : outcome bonsai_error (list BonsaiChangeset * RebasedChangesets) :=
  match set with
  | [] => Ok ([], remapping)
  | bcs_old :: set =>
      bcs_new ← rebase_changeset bcs_old remapping date;
      let timestamp := timestamp_of (author_date (inner bcs_new)) in
      '(rebased, remapping) ←
        rebase_all date (<[get_changeset_id bcs_old := (get_changeset_id bcs_new, timestamp)]> remapping) set;
      Ok (bcs_new :: rebased, remapping)
  end.

Definition create_rebased_changesets (k : nat) (repo : BlobRepo) (config : PushrebaseParams)
    (root head onto : ChangesetId) (now : Timestamp)
    : BlobRepo * outcome PushrebaseError (ChangesetId * RebasedChangesets) :=
  let date := if rewritedates config then Some now else None in
  match
    rebased_set ← find_rebased_set k repo root head;
    map_err (fun e => Error (BonsaiFailed e)) (rebase_all date {[root := (onto, now)]} rebased_set)
  with
  | Ok (rebased, remapping) =>
      match save_bonsai_changesets k rebased repo with
      | (repo, Ok _) => (repo, Ok (default head (fst <$> remapping !! head), delete root remapping))
      | (repo, Err e) => (repo, failed (RepoFailed e))
      | (repo, Panic) => (repo, Panic)
      end
  | Err e => (repo, Err e)
  | Panic => (repo, Panic)
  end.

Lemma rebased_ext m m' old new :
  (forall p, p ∈ parents old -> remap m p = remap m' p) -> copies_known old ->
  rebased m old new -> rebased m' old new.
Proof.
  intros Hp Hc [H1 H2 H3 H4 H5 H6 H7]. split; try done.
  - rewrite H1. apply list_fmap_ext. intros i p Hi. apply Hp. by eapply list_elem_of_lookup_2.
  - rewrite H7. apply list_fmap_ext. intros i [path [fc|]] Hi%list_elem_of_lookup_2; [|done].
    unfold rebase_change, rebase_file_change. cbn [fst snd fmap option_fmap option_map].
    destruct (copy_from fc) as [[from id]|] eqn:Ef; [|done]. cbn [fmap option_fmap option_map].
    by rewrite (Hp id (Hc path fc from id Hi Ef)).
Qed.

(** In a list of changesets, the parents of each are not it or later ones. *)
Fixpoint parents_before (set : list BonsaiChangeset) : Prop :=
  match set with
  | [] => True
  | b :: set => (forall p, p ∈ parents (inner b) -> p ∉ get_changeset_id <$> (b :: set)) /\ parents_before set
  end.

Definition rebased_as (date : option Timestamp) (m : RebasedChangesets) (old new : BonsaiChangeset) : Prop :=
  rebased m (inner old) (inner new) /\ frozen new /\
  rebase_date date (author_date (inner old)) = Ok (author_date (inner new)) /\
  m !! get_changeset_id old = Some (get_changeset_id new, timestamp_of (author_date (inner new))).

Lemma frozen_copies b : frozen b -> copies_known (inner b).
Proof.
  intros [Hf Hwf]. unfold freeze in Hf. apply bind_Ok_inv in Hf as ([] & Hv & _).
  by apply (verify_spec _ Hwf) in Hv as [? _].
Qed.

Lemma rebase_all_spec date set : forall m,
  Forall frozen set -> NoDup (get_changeset_id <$> set) -> parents_before set ->
  match rebase_all date m set with
  | Ok (new, m') => Forall2 (rebased_as date m') set new /\
      forall c, c ∉ get_changeset_id <$> set -> m' !! c = m !! c
  | Err e => exists b, b ∈ set /\ rebase_date date (author_date (inner b)) = Err e
  | Panic => False
  end.
Proof.
  induction set as [|b set IH]; intros m Hf Hnd Hp; cbn [rebase_all]; [by split; [constructor|]|].
  apply Forall_cons in Hf as [Hfb Hf]. rewrite fmap_cons in *. apply NoDup_cons in Hnd as [Hb Hnd].
  destruct Hp as [Hpb Hp]. pose proof (rebase_changeset_spec b m date Hfb) as Hr.
  destruct (rebase_changeset b m date) as [b'|e|]; [rewrite bind_Ok|exists b; split; [by left|done]|done].
  destruct Hr as (Hr & Hfb' & Hd). cbv zeta.
  set (m1 := <[get_changeset_id b := (get_changeset_id b', timestamp_of (author_date (inner b')))]> m).
  specialize (IH m1 Hf Hnd Hp). destruct (rebase_all date m1 set) as [[new m']|e|]; [rewrite bind_Ok| |done].
  2: { destruct IH as (b0 & Hin & He). exists b0. split; [by right|done]. }
  destruct IH as [H2 Hm']. split.
  - constructor; [|done]. split; [|split; [done|split; [done|]]].
    + apply (rebased_ext m); [|by apply frozen_copies|done]. intros p Hpin.
      specialize (Hpb p Hpin). rewrite fmap_cons, not_elem_of_cons in Hpb.
      unfold remap. rewrite Hm' by apply Hpb. unfold m1. rewrite lookup_insert_ne; [done|]. intros <-. by destruct Hpb.
    + rewrite Hm' by done. apply lookup_insert_eq.
  - intros c Hc. rewrite not_elem_of_cons in Hc. rewrite Hm' by apply Hc. unfold m1.
    rewrite lookup_insert_ne; [done|]. intros <-. by destruct Hc.
Qed.

(** *** What is to be rebased *)

Record of_repo (repo : BlobRepo) (b : BonsaiChangeset) : Prop := {
  or_in : in_repo repo (get_changeset_id b);
  or_blob : repo_blobstore repo !! get_changeset_id b = Some b;
  or_frozen : frozen b;
  or_parents : parents (inner b) = repo_parents repo (get_changeset_id b)
}.

Lemma of_repo_exists repo c :
  repo_ok repo -> in_repo repo c -> exists b, get_changeset_id b = c /\ get_bonsai_changeset repo c = Ok b /\ of_repo repo b.
Proof.
  intros Hok Hc. destruct (in_repo_blob repo c Hok Hc) as (b & Hb & Hid & Hf & Hp). exists b. split; [done|].
  split; [unfold get_bonsai_changeset; by rewrite Hb|]. subst c. by split.
Qed.

Lemma collect_bonsais repo ids :
  repo_ok repo -> Forall (in_repo repo) ids ->
  exists l, collect (get_bonsai_changeset repo) ids = Ok l /\ get_changeset_id <$> l = ids /\ Forall (of_repo repo) l.
Proof.
  intros Hok. induction 1 as [|c ids Hc _ (l & E & El & Hl)]; [by exists []|].
  destruct (of_repo_exists repo c Hok Hc) as (b & Hb & Eb & Hof). exists (b :: l). cbn [collect].
  rewrite Eb, bind_Ok, E, bind_Ok. split; [done|]. rewrite fmap_cons. split; [by rewrite Hb, El|by constructor].
Qed.

Abbreviation repo_ancestor repo := (ancestor (F := get_changeset_fetcher repo)).
Abbreviation repo_generation repo := (generation_of (F := get_changeset_fetcher repo)).
Abbreviation repo_between repo := (between (F := get_changeset_fetcher repo)).

Lemma fetch_bonsai_range_runs {HL : HashOrderLaws HO} repo a d :
  repo_ok repo -> in_repo repo a -> in_repo repo d ->
  exists n0 l, (forall k, n0 <= k -> fetch_bonsai_range k repo a d = Ok l) /\
    NoDup (get_changeset_id <$> l) /\ Forall (of_repo repo) l /\
    descending (F := get_changeset_fetcher repo) (get_changeset_id <$> l) /\
    forall c, c ∈ get_changeset_id <$> l <-> repo_between repo a d c.
Proof.
  intros Hok Ha Hd. pose proof (fetcher_laws repo Hok) as L.
  destruct (range_nodes_runs (F := get_changeset_fetcher repo) (L := L) a d Ha Hd) as (n0 & ids & Hk & Hnd & Hdesc & Hids).
  destruct (collect_bonsais repo ids Hok) as (l & E & El & Hl).
  { apply Forall_forall. intros c Hc. apply Hids in Hc as (_ & _ & [->|[_ Hcd]]); [done|].
    by apply (ancestor_known (L := L) c d Hd). }
  exists n0, l. rewrite El. split; [|done]. intros k H0. unfold fetch_bonsai_range.
  rewrite (Hk k H0). cbn [map_err]. by rewrite bind_Ok, E.
Qed.

Lemma parents_before_snoc set b :
  parents_before set -> (forall x p, x ∈ set \/ x = b -> p ∈ parents (inner x) -> p <> get_changeset_id b) ->
  parents_before (set ++ [b]).
Proof.
  induction set as [|x set IH]; cbn [parents_before app]; intros Hs Hb.
  - split; [|done]. intros p Hp. rewrite fmap_cons, not_elem_of_cons. split; [|apply not_elem_of_nil].
    apply (Hb b p); [by right|done].
  - destruct Hs as [Hx Hs]. split.
    + intros p Hp. rewrite fmap_cons, fmap_app, not_elem_of_cons, not_elem_of_app. specialize (Hx p Hp).
      rewrite fmap_cons, not_elem_of_cons in Hx. split; [apply Hx|]. split; [apply Hx|].
      cbn [fmap list_fmap]. rewrite not_elem_of_cons. split; [|apply not_elem_of_nil].
      apply (Hb x p); [left; by left|done].
    + apply IH; [done|]. intros y p [Hy|Hy]; apply Hb; [left; by right|by right].
Qed.

Lemma parents_before_reverse (keep : BonsaiChangeset -> bool) repo l :
  repo_ok repo -> Forall (of_repo repo) l ->
  descending (F := get_changeset_fetcher repo) (get_changeset_id <$> l) ->
  parents_before (reverse (List.filter keep l)).
Proof.
  intros Hok. pose proof (fetcher_laws repo Hok) as L. induction l as [|b l IH]; intros Hl Hd; [done|].
  apply Forall_cons in Hl as [Hb Hl]. apply StronglySorted_inv in Hd as [Hd Hbl]. specialize (IH Hl Hd).
  simpl. destruct (keep b); [|done]. rewrite reverse_cons. apply parents_before_snoc; [done|].
  intros x p Hx Hp. assert (of_repo repo x /\ (repo_generation repo (get_changeset_id x) <= repo_generation repo (get_changeset_id b))%N) as [Hox Hg].
  { destruct Hx as [Hx| ->]; [|split; [done|lia]]. rewrite elem_of_reverse in Hx.
    apply list_elem_of_In, filter_In in Hx as [Hx%list_elem_of_In _]. rewrite Forall_forall in Hl.
    split; [by apply Hl|]. by apply (proj1 (Forall_forall _ _) Hbl), list_elem_of_fmap_2. }
  intros ->. rewrite (or_parents _ _ Hox) in Hp.
  pose proof (parent_generation (FetcherLaws := L) _ _ (or_in _ _ Hox) Hp). lia.
Qed.

Lemma find_rebased_set_runs {HL : HashOrderLaws HO} repo root head :
  repo_ok repo -> in_repo repo root -> in_repo repo head -> repo_ancestor repo root head ->
  exists n0 set, (forall k, n0 <= k -> find_rebased_set k repo root head = Ok set) /\
    NoDup (get_changeset_id <$> set) /\ Forall (of_repo repo) set /\ parents_before set /\
    forall c, c ∈ get_changeset_id <$> set <-> c <> root /\ repo_ancestor repo root c /\ repo_ancestor repo c head.
Proof.
  intros Hok Hr Hh Hrh. pose proof (fetcher_laws repo Hok) as L.
  destruct (fetch_bonsai_range_runs repo root head Hok Hr Hh) as (n0 & l & Hk & Hnd & Hl & Hd & Hin).
  set (keep := fun node => negb (bool_decide (get_changeset_id node = root))).
  assert (forall c, c ∈ get_changeset_id <$> reverse (List.filter keep l) <-> c <> root /\ c ∈ get_changeset_id <$> l) as Hc.
  { intros c. rewrite !list_elem_of_fmap. setoid_rewrite elem_of_reverse.
    setoid_rewrite (list_elem_of_In (List.filter keep l)). setoid_rewrite filter_In. unfold keep.
    setoid_rewrite negb_true_iff. setoid_rewrite bool_decide_eq_false. setoid_rewrite <- list_elem_of_In.
    split; [intros (b & -> & ? & ?); eauto|]. intros (? & b & -> & ?). eauto. }
  exists n0, (reverse (List.filter keep l)). split; [|split; [|split; [|split]]].
  - intros k H0. unfold find_rebased_set. by rewrite (Hk k H0), bind_Ok.
  - rewrite fmap_reverse, reverse_Permutation. clear -Hnd. induction l as [|b l IH]; [done|].
    rewrite fmap_cons in Hnd. apply NoDup_cons in Hnd as [Hb Hnd]. simpl. specialize (IH Hnd).
    destruct (keep b); [|done]. rewrite fmap_cons. constructor; [|done].
    intros (x & E & Hx)%list_elem_of_fmap. apply Hb. apply list_elem_of_In, filter_In in Hx as [Hx _].
    rewrite E. by apply list_elem_of_fmap_2, list_elem_of_In.
  - rewrite reverse_Permutation. by apply filter_Forall.
  - by eapply parents_before_reverse.
  - intros c. rewrite Hc, Hin. unfold between. split.
    + intros (Hne & _ & _ & [?|?]); done.
    + intros (Hne & H1 & H2). split; [done|]. split; [by apply ancestor_generation_le|]. split; [|by right].
      intros E. pose proof (no_parents_ancestor _ _ E H2) as ->. by pose proof (no_parents_ancestor _ _ E H1) as ->.
Qed.

(** *** The rebased stack *)

Context {BL : BonsaiHashLaws BH} {HL : HashOrderLaws HO}.

Definition date_of (config : PushrebaseParams) (now : Timestamp) : option Timestamp :=
  if rewritedates config then Some now else None.

(** [m] sends each changeset after [root], up to [head], to its image on top
    of [onto]; it is complete with [root] itself sent to [onto]. *)
Definition with_root (root onto : ChangesetId) (now : Timestamp) (m : RebasedChangesets) : RebasedChangesets :=
  <[root := (onto, now)]> m.

Record rebased_stack (repo repo' : BlobRepo) (config : PushrebaseParams) (root head onto : ChangesetId)
    (now : Timestamp) (new_head : ChangesetId) (m : RebasedChangesets) : Prop := {
  rs_keys c : is_Some (m !! c) <-> c <> root /\ repo_ancestor repo root c /\ repo_ancestor repo c head;
  rs_each c new ts : m !! c = Some (new, ts) -> exists b b',
    repo_blobstore repo !! c = Some b /\ repo_blobstore repo' !! new = Some b' /\ in_repo repo' new /\
    rebased (with_root root onto now m) (inner b) (inner b') /\
    rebase_date (date_of config now) (author_date (inner b)) = Ok (author_date (inner b'));
  rs_head : new_head = remap (with_root root onto now m) head
}.

Lemma length_in_repo repo ids :
  repo_ok repo -> NoDup ids -> Forall (in_repo repo) ids -> length ids <= length (changesets (repo_changesets repo)).
Proof using.
  intros Hok Hnd Hin. rewrite <- (length_fmap r_cs_id). apply submseteq_length, NoDup_submseteq; [done|].
  intros c Hc. rewrite Forall_forall in Hin. apply Hin, stored_row in Hc as (r & Hr & _ & <-); [|apply Hok].
  by apply list_elem_of_fmap_2.
Qed.

Lemma Forall2_elem_l {A B} (R : A -> B -> Prop) l k x : Forall2 R l k -> x ∈ l -> exists y, y ∈ k /\ R x y.
Proof using.
  intros H (i & Hi)%list_elem_of_lookup. destruct (Forall2_lookup_l _ _ _ _ _ H Hi) as (y & Hy & ?).
  exists y. split; [by eapply list_elem_of_lookup_2|done].
Qed.

Lemma Forall2_elem_r {A B} (R : A -> B -> Prop) l k y : Forall2 R l k -> y ∈ k -> exists x, x ∈ l /\ R x y.
Proof using.
  intros H (i & Hi)%list_elem_of_lookup. destruct (Forall2_lookup_r _ _ _ _ _ H Hi) as (x & Hx & ?).
  exists x. split; [by eapply list_elem_of_lookup_2|done].
Qed.

(** The rebased changesets have their parents in the repository or among them. *)
Lemma rebased_parents_known repo set new M root onto now date :
  repo_ok repo -> in_repo repo onto -> Forall (of_repo repo) set ->
  Forall2 (rebased_as date M) set new -> M !! root = Some (onto, now) ->
  (forall c, c ∉ get_changeset_id <$> set -> c <> root -> M !! c = None) ->
  parents_known repo new.
Proof using.
  intros Hok Honto Hset H2 Hroot Hother b' p' Hb' Hp'.
  destruct (Forall2_elem_r _ _ _ _ H2 Hb') as (b & Hb & Hr & _).
  rewrite (rb_parents _ _ _ Hr) in Hp'. apply list_elem_of_fmap in Hp' as (p & -> & Hp).
  rewrite Forall_forall in Hset. pose proof (Hset b Hb) as Hob. rewrite (or_parents _ _ Hob) in Hp.
  pose proof (parents_in_repo _ _ _ Hok (or_in _ _ Hob) Hp) as Hin. unfold remap.
  destruct (decide (p ∈ get_changeset_id <$> set)) as [Hps|Hps].
  - apply list_elem_of_fmap in Hps as (b0 & -> & Hb0). destruct (Forall2_elem_l _ _ _ _ H2 Hb0) as (b1 & Hb1 & _ & _ & _ & E).
    rewrite E. right. by exists b1.
  - destruct (decide (p = root)) as [->|Hne]; [rewrite Hroot; by left|]. rewrite Hother by done. by left.
Qed.

(** There is room for images of the changesets after [root] up to [head]. *)
Definition to_rebase (repo : BlobRepo) (root head : ChangesetId) (ids : list ChangesetId) : Prop :=
  NoDup ids /\ forall c, c ∈ ids -> c <> root /\ repo_ancestor repo root c /\ repo_ancestor repo c head.

Definition room_for (repo : BlobRepo) (root head : ChangesetId) : Prop :=
  forall ids, to_rebase repo root head ids -> room (length ids) repo.

Lemma create_rebased_runs repo config root head onto now :
  repo_ok repo -> room_for repo root head ->
  in_repo repo root -> in_repo repo head -> in_repo repo onto -> repo_ancestor repo root head ->
  exists n0 repo' r, (forall k, n0 <= k -> create_rebased_changesets k repo config root head onto now = (repo', r)) /\
    match r with
    | Ok (new_head, m) => exists new, saved_ok new repo repo' /\
        rebased_stack repo repo' config root head onto now new_head m /\
        exists ids, to_rebase repo root head ids /\ length new = length ids
    | Err (Error (BonsaiFailed e)) => repo' = repo /\ exists c b, repo_blobstore repo !! c = Some b /\
        rebase_date (date_of config now) (author_date (inner b)) = Err e
    | _ => False
    end.
Proof.
  intros Hok Hroom Hr Hh Ho Hrh.
  destruct (find_rebased_set_runs repo root head Hok Hr Hh Hrh) as (n1 & set & Hset & Hnd & Hof & Hpb & Hin).
  assert (Forall frozen set) as Hfr by (eapply Forall_impl; [exact Hof|]; by intros ? []).
  pose proof (rebase_all_spec (date_of config now) set {[root := (onto, now)]} Hfr Hnd Hpb) as Hall.
  rewrite Forall_forall in Hof.
  destruct (rebase_all (date_of config now) {[root := (onto, now)]} set) as [[new M]|e|] eqn:Eall; [| |done].
  2: { destruct Hall as (b & Hb & He). exists n1, repo, (failed (BonsaiFailed e)). split.
       - intros k Hk. unfold create_rebased_changesets. rewrite (Hset k Hk), bind_Ok.
         change (if rewritedates config then _ else _) with (date_of config now). by rewrite Eall.
       - split; [done|]. exists (get_changeset_id b), b. split; [apply (Hof b Hb)|done]. }
  destruct Hall as [H2 Hout].
  assert (root ∉ get_changeset_id <$> set) as Hrootn by (rewrite Hin; tauto).
  assert (M !! root = Some (onto, now)) as HMroot by (rewrite Hout by done; apply lookup_singleton_eq).
  assert (forall c, c ∉ get_changeset_id <$> set -> c <> root -> M !! c = None) as HMout.
  { intros c Hc Hne. rewrite Hout by done. by apply lookup_singleton_ne. }
  assert (with_root root onto now (delete root M) = M) as EM.
  { unfold with_root. by rewrite insert_delete_eq, insert_id. }
  assert (exists ids, to_rebase repo root head ids /\ length new = length ids) as (ids & Hids & Hlen).
  { exists (get_changeset_id <$> set). split; [split; [done|by intros c; rewrite Hin]|].
    by rewrite <- (Forall2_length _ _ _ H2), length_fmap. }
  destruct (save_runs new repo Hok) as (n2 & repo' & Hsave & Hsv).
  - rewrite Hlen. by apply Hroom.
  - apply Forall_forall. intros b' Hb'. by destruct (Forall2_elem_r _ _ _ _ H2 Hb') as (b & _ & _ & ? & _).
  - eapply rebased_parents_known; [done|exact Ho|apply Forall_forall, Hof|exact H2|exact HMroot|exact HMout].
  - exists (n1 + n2), repo', (Ok (default head (fst <$> M !! head), delete root M)). split.
    { intros k Hk. unfold create_rebased_changesets. rewrite (Hset k) by lia. rewrite bind_Ok.
      change (if rewritedates config then _ else _) with (date_of config now). rewrite Eall. cbn [map_err].
      by rewrite (Hsave k) by lia. }
    exists new. split; [done|]. split; [|by exists ids]. split; rewrite ?EM.
    + intros c. rewrite <- Hin. destruct (decide (c = root)) as [->|Hne].
      * rewrite lookup_delete_eq. split; [by intros [? ?]|done].
      * rewrite lookup_delete_ne by done. split.
        -- intros Hs. destruct (decide (c ∈ get_changeset_id <$> set)) as [|Hno]; [done|].
           rewrite HMout in Hs by done. by destruct Hs.
        -- intros (b & -> & Hb)%list_elem_of_fmap. by destruct (Forall2_elem_l _ _ _ _ H2 Hb) as (b' & _ & _ & _ & _ & ->).
    + intros c nw ts. destruct (decide (c = root)) as [->|Hne]; [by rewrite lookup_delete_eq|].
      rewrite lookup_delete_ne by done. intros Hm.
      destruct (decide (c ∈ get_changeset_id <$> set)) as [Hc|Hno]; [|by rewrite HMout in Hm].
      apply list_elem_of_fmap in Hc as (b & -> & Hb).
      destruct (Forall2_elem_l _ _ _ _ H2 Hb) as (b' & Hb' & Hreb & _ & Hdate & Hm'). rewrite Hm in Hm'. injection Hm' as -> _.
      destruct (sv_new _ _ _ Hsv b' Hb') as [Hi Hbl]. exists b, b'. split; [apply (Hof b Hb)|done].
    + unfold remap. by destruct (M !! head) as [[? ?]|].
Qed.

(** The images of the changesets from [root] on are descendants of [onto]. *)
Lemma rebased_stack_onto repo repo' new config root head onto now new_head m :
  repo_ok repo -> in_repo repo head -> repo_ancestor repo root head -> saved_ok new repo repo' ->
  rebased_stack repo repo' config root head onto now new_head m -> repo_ancestor repo' onto new_head.
Proof using.
  intros Hok Hh Hrh Hsv [Hkeys Heach ->]. pose proof (fetcher_laws repo Hok) as L.
  pose proof (ancestor_known (L := L) _ _ Hh Hrh) as Hr.
  assert (forall c, repo_ancestor repo root c -> repo_ancestor repo c head ->
    repo_ancestor repo' onto (remap (with_root root onto now m) c)) as H; [|by apply H].
  assert (remap (with_root root onto now m) root = onto) as Eroot.
  { unfold remap, with_root. by rewrite lookup_insert_eq. }
  refine (rtc_ind_r _ _ _ _); [intros _; by rewrite Eroot|].
  intros p c Hrp Hpc IH Hch. assert (repo_ancestor repo p head) as Hph by (eapply rtc_l; [exact Hpc|exact Hch]).
  pose proof (ancestor_known (L := L) _ _ Hh Hch) as Hc. pose proof (ancestor_known (L := L) _ _ Hh Hph) as Hp.
  assert (c <> root) as Hne.
  { intros ->. pose proof (parent_generation (FetcherLaws := L) _ _ Hr Hpc).
    pose proof (ancestor_generation_le (L := L) _ _ Hp Hrp). lia. }
  destruct (proj2 (Hkeys c)) as [[nw ts] Hm]; [split; [done|]; split; [eapply rtc_r; [exact Hrp|exact Hpc]|done]|].
  assert (remap (with_root root onto now m) c = nw) as ->.
  { unfold remap, with_root. rewrite lookup_insert_ne by done. by rewrite Hm. }
  eapply rtc_r; [by apply IH|]. destruct (Heach c nw ts Hm) as (b & b' & Hb & Hb' & Hin & Hreb & _).
  destruct (in_repo_blob repo' nw (sv_ok _ _ _ Hsv) Hin) as (b1 & Hb1 & _ & _ & Hp1).
  rewrite Hb' in Hb1. injection Hb1 as <-. change (remap (with_root root onto now m) p ∈ repo_parents repo' nw).
  rewrite <- Hp1, (rb_parents _ _ _ Hreb). apply list_elem_of_fmap_2.
  destruct (in_repo_blob repo c Hok Hc) as (b2 & Hb2 & _ & _ & Hp2). rewrite Hb in Hb2. injection Hb2 as <-.
  rewrite Hp2. exact Hpc.
Qed.

(** C4. Rebasing a stack. With a head that descends from the root, the
    creation of the rebased changesets ends, and fails only when the date of
    a changeset cannot be changed to the present, with nothing saved. When it
    succeeds, exactly the changesets after the root up to the head have an
    image; each image is stored, is its changeset with parents and copy
    sources sent to their images (the root's being the changeset rebased
    onto), without the mutation extras and with everything else kept; the new
    head descends from the changeset rebased onto; and nothing that was in
    the repository is changed. *)
Theorem create_rebased_changesets_exact (repo : BlobRepo) (config : PushrebaseParams)
    (root head onto : ChangesetId) (now : Timestamp) :
  repo_ok repo -> room (length (changesets (repo_changesets repo))) repo ->
  in_repo repo root -> in_repo repo head -> in_repo repo onto -> repo_ancestor repo root head ->
  exists n0 repo' r, (forall k, n0 <= k -> create_rebased_changesets k repo config root head onto now = (repo', r)) /\
    match r with
    | Ok (new_head, m) => repo_ok repo' /\ repo_le repo repo' /\ repo_bookmarks repo' = repo_bookmarks repo /\
        rebased_stack repo repo' config root head onto now new_head m /\ repo_ancestor repo' onto new_head
    | Err (Error (BonsaiFailed e)) => repo' = repo /\ exists c b, repo_blobstore repo !! c = Some b /\
        rebase_date (date_of config now) (author_date (inner b)) = Err e
    | _ => False
    end.
Proof.
  intros Hok Hroom Hr Hh Ho Hrh.
  assert (room_for repo root head) as Hrf.
  { intros ids [Hnd Hids]. pose proof (length_in_repo repo ids Hok Hnd) as Hl. unfold room in *.
    assert (Forall (in_repo repo) ids); [|specialize (Hl ltac:(done)); lia]. apply Forall_forall. intros c Hc.
    apply (ancestor_known (L := fetcher_laws repo Hok) c head Hh). by apply Hids. }
  destruct (create_rebased_runs repo config root head onto now Hok Hrf Hr Hh Ho Hrh) as (n0 & repo' & r & Hk & Hres).
  exists n0, repo', r. split; [done|]. destruct r as [[new_head m]|[]|]; try done.
  destruct Hres as (new & Hsv & Hst & _). split; [apply Hsv|]. split; [apply Hsv|]. split; [apply Hsv|].
  split; [done|]. exact (rebased_stack_onto repo repo' new config root head onto now new_head m Hok Hh Hrh Hsv Hst).
Qed.
End steps.
