(* ===== verification/PushrebaseLoop.v ===== *)
(** * Pushrebase: the loop

    Model of [src/bundle2_resolver/pushrebase/src/lib.rs], second part: the
    files that a range of changesets changes, the attempts to rebase and to
    move the bookmark, and the loop around them. Other clients may change the
    repository between any two steps of an attempt: [env] says what they do. *)

From S2P Require Import Prelude Hash Bonsai Graph Range TopoSort Changesets Bookmarks CaseConflict Repo Ord Path Pushrebase.

#[export] Instance MPath_countable : Countable MPath.
Proof.
  refine {| encode p := encode (elem <$> elements p);
            decode x := (fun l => mkMPath (mkElem <$> l)) <$> decode x |}.
  intros [els]. rewrite decode_encode. simpl. f_equal. f_equal. rewrite <- list_fmap_compose.
  induction els as [|[e] els IH]; [done|]. rewrite fmap_cons. by rewrite IH.
Defined.

(** The points where other clients act, in one attempt. *)
Inductive stage := BeforeRead | BeforeRange | BeforeFiles | BeforeRebase | BeforeCommit.

Record PushrebaseSuccessResult := mkSuccess {
  success_head : ChangesetId;
  retry_num : nat;
  rebased_changesets : list ChangesetId
}.

Definition MAX_REBASE_ATTEMPTS : nat := 100.

Section loop.
Context {CH : Chrono} {BH : BonsaiHash} {HO : HashOrder} {MO : MapOrder}.
Context (timestamp_of : DateTime -> Timestamp).
Context (to_lowercase : bytes -> bytes) (to_json : list (HgNodeHash * Z) -> option bytes).

(** [find_changed_files_between_manfiests] compares derived Mercurial
    manifests, and [get_hg_from_bonsai_changeset] derives a Mercurial
    changeset; their definitions are not part of this model. *)
Context (find_changed_files_between_manfiests :
  BlobRepo -> ChangesetId -> ChangesetId -> outcome PushrebaseError (list MPath)).
Context (get_hg_from_bonsai_changeset : BlobRepo -> ChangesetId -> outcome repo_error HgNodeHash).
Context (get_bonsai_from_hg : BlobRepo -> HgNodeHash -> option ChangesetId).

Abbreviation failed e := (Err (Error e)).
Abbreviation RebasedChangesets := (gmap ChangesetId (ChangesetId * Timestamp)).

(** ** Changed files *)

Definition extract_conflict_files_from_bonsai_changeset (bcs : BonsaiChangeset) : list MPath :=
  concat ((fun '(path, maybe_file_change) =>
             match maybe_file_change ≫= copy_from with
             | Some (copy_from_path, _) => [copy_from_path; path]
             | None => [path]
             end) <$> file_changes (inner bcs)).

Definition changed_files_of (repo : BlobRepo) (ids : gset ChangesetId) (reject_merges : bool)
    (x : ChangesetId * BonsaiChangeset) : outcome PushrebaseError (list MPath) :=
  let '(id, bcs) := x in
  match parents (inner bcs) with
  | [] | [_] => Ok (extract_conflict_files_from_bonsai_changeset bcs)
  | [p0_id; p1_id] =>
      if reject_merges then Err RebaseOverMerge else
      match bool_decide (p0_id ∈ ids), bool_decide (p1_id ∈ ids) with
      | true, true => Ok (extract_conflict_files_from_bonsai_changeset bcs)
      | true, false => find_changed_files_between_manfiests repo id p0_id
      | false, true => find_changed_files_between_manfiests repo id p1_id
      | false, false => Panic
      end
  | _ => Panic
  end.

(** The list of futures is made first, which may panic, and then run. *)
Definition join_all {A} (futures : list (outcome PushrebaseError A)) : outcome PushrebaseError (list A) :=
  if existsb is_panic futures then Panic else collect id futures.

Definition get_with_id (repo : BlobRepo) (id : ChangesetId) : outcome repo_error (ChangesetId * BonsaiChangeset) :=
  bcs ← get_bonsai_changeset repo id; Ok (id, bcs).

Definition find_changed_files (k : nat) (repo : BlobRepo) (ancestor descendant : ChangesetId)
    (reject_merges : bool) : outcome PushrebaseError (list MPath) :=
  ids ← map_err (fun e => Error (FetchFailed e))
          (range_nodes (F := get_changeset_fetcher repo) k ancestor descendant);
  id_to_bcs ← map_err (fun e => Error (RepoFailed e)) (collect (get_with_id repo) ids);
  let ids : gset ChangesetId := list_to_set id_to_bcs.*1 in
  file_changes ← join_all (changed_files_of repo ids reject_merges <$>
                   List.filter (fun x => negb (bool_decide (x.1 = ancestor))) id_to_bcs);
  Ok (sort_unstable (hash_order (list_to_set (concat file_changes) : gset MPath))).

(** ** Moving the bookmark *)

Definition rebased_timestamp (repo : BlobRepo) (x : ChangesetId * (ChangesetId * Timestamp))
    : outcome PushrebaseError (HgNodeHash * Z) :=
  let '(id_old, (_, datetime)) := x in
  hg_cs_id ← map_err (fun e => Error (RepoFailed e)) (get_hg_from_bonsai_changeset repo id_old);
  Ok (hg_cs_id, nanos datetime).

(** The raw bundle2 id is given in hexadecimal. *)
Definition create_bookmark_update_reason (repo : BlobRepo) (maybe_raw_bundle2_id : option bytes)
    (rebased_changesets : RebasedChangesets) : outcome PushrebaseError BookmarkUpdateReason :=
  match maybe_raw_bundle2_id with
  | Some id =>
      timestamps ← collect (rebased_timestamp repo) (map_order rebased_changesets);
      Ok (Bookmarks.Pushrebase (Some (mkReplay id timestamps)))
  | None => Ok (Bookmarks.Pushrebase None)
  end.

(** The commit of the transaction with one move. *)
Definition commit_move (repo : BlobRepo) (now : Timestamp) (new_value : ChangesetId)
    (rebased_changesets : RebasedChangesets) (txn : outcome bookmark_error SqlBookmarksTransaction)
    : BlobRepo * outcome PushrebaseError (option (ChangesetId * list ChangesetId)) :=
  match txn with
  | Ok txn =>
      match commit to_json txn (nanos now) (repo_bookmarks repo) with
      | (db, r) =>
          (mkRepo (repoid repo) db (repo_changesets repo) (repo_blobstore repo),
           success ← map_err (fun e => Error (BookmarksFailed e)) r;
           Ok (if success : bool then Some (new_value, fst <$> (map_order rebased_changesets).*2) else None))
      end
  | Err e => (repo, failed (BookmarksFailed e))
  | Panic => (repo, Panic)
  end.

Definition try_update_bookmark (repo : BlobRepo) (bookmark_name : Bookmark) (old_value new_value : ChangesetId)
    (maybe_raw_bundle2_id : option bytes) (rebased_changesets : RebasedChangesets) (now : Timestamp)
    : BlobRepo * outcome PushrebaseError (option (ChangesetId * list ChangesetId)) :=
  match create_bookmark_update_reason repo maybe_raw_bundle2_id rebased_changesets with
  | Ok reason =>
      commit_move repo now new_value rebased_changesets
        (txn_update (create_transaction (repoid repo)) bookmark_name new_value old_value reason)
  | Err e => (repo, Err e)
  | Panic => (repo, Panic)
  end.

Definition try_create_bookmark (repo : BlobRepo) (bookmark_name : Bookmark) (new_value : ChangesetId)
    (maybe_raw_bundle2_id : option bytes) (rebased_changesets : RebasedChangesets) (now : Timestamp)
    : BlobRepo * outcome PushrebaseError (option (ChangesetId * list ChangesetId)) :=
  match create_bookmark_update_reason repo maybe_raw_bundle2_id rebased_changesets with
  | Ok reason =>
      commit_move repo now new_value rebased_changesets
        (txn_create (create_transaction (repoid repo)) bookmark_name new_value reason)
  | Err e => (repo, Err e)
  | Panic => (repo, Panic)
  end.

(** ** The loop *)

Context (env : nat -> stage -> BlobRepo -> BlobRepo) (now : nat -> Timestamp).

Definition do_rebase (k n : nat) (repo : BlobRepo) (config : PushrebaseParams) (root head : ChangesetId)
    (bookmark_val : option ChangesetId) (onto_bookmark : Bookmark) (maybe_raw_bundle2_id : option bytes)
    : BlobRepo * outcome PushrebaseError (option (ChangesetId * list ChangesetId)) :=
  match create_rebased_changesets timestamp_of k repo config root head (default root bookmark_val) (now n) with
  | (repo, Ok (new_head, rebased_changesets)) =>
      let repo := env n BeforeCommit repo in
      match bookmark_val with
      | Some bookmark_val =>
          try_update_bookmark repo onto_bookmark bookmark_val new_head maybe_raw_bundle2_id rebased_changesets (now n)
      | None => try_create_bookmark repo onto_bookmark new_head maybe_raw_bundle2_id rebased_changesets (now n)
      end
  | (repo, Err e) => (repo, Err e)
  | (repo, Panic) => (repo, Panic)
  end.

(** What is checked before rebasing: the case conflicts of the server's
    changesets and the client's, and the conflicts of the changed files. *)
Definition check_conflicts (k n : nat) (repo : BlobRepo) (latest_rebase_attempt onto : ChangesetId)
    (client_cf : list MPath) (client_bcs : list BonsaiChangeset) : BlobRepo * outcome PushrebaseError unit :=
  let repo := env n BeforeRange repo in
  match
    server_bcs ← fetch_bonsai_range k repo latest_rebase_attempt onto;
    match @check_case_conflicts _ (BonsaiChangeset_update to_lowercase) (reverse server_bcs ++ reverse client_bcs) with
    | Some path => Err (PotentialCaseConflict path)
    | None => Ok tt
    end
  with
  | Ok _ =>
      let repo := env n BeforeFiles repo in
      (repo, server_cf ← find_changed_files k repo latest_rebase_attempt onto true;
             intersect_changed_files server_cf client_cf)
  | r => (repo, r)
  end.

Record pushrebase_args := mkArgs {
  config : PushrebaseParams;
  onto : OntoBookmarkParams;
  head : ChangesetId;
  root : ChangesetId;
  client_cf : list MPath;
  client_bcs : list BonsaiChangeset;
  maybe_raw_bundle2_id : option bytes
}.

(** One turn of the loop: the value of the bookmark, and what became of the
    rebase. *)
Definition attempt (k n : nat) (a : pushrebase_args) (latest_rebase_attempt : ChangesetId) (repo : BlobRepo)
    : BlobRepo * outcome PushrebaseError (option ChangesetId * option (ChangesetId * list ChangesetId)) :=
  let repo := env n BeforeRead repo in
  match get_onto_bookmark_value repo (onto a) with
  | Ok bookmark_val =>
      match check_conflicts k n repo latest_rebase_attempt (default (root a) bookmark_val) (client_cf a) (client_bcs a) with
      | (repo, Ok _) =>
          let repo := env n BeforeRebase repo in
          let '(repo, update_res) :=
            do_rebase k n repo (config a) (root a) (head a) bookmark_val (onto_bookmark (onto a)) (maybe_raw_bundle2_id a) in
          (repo, res ← update_res; Ok (bookmark_val, res))
      | (repo, Err e) => (repo, Err e)
      | (repo, Panic) => (repo, Panic)
      end
  | Err e => (repo, Err e)
  | Panic => (repo, Panic)
  end.

(** [left] attempts may still fail. *)
Fixpoint rebase_in_loop (k left : nat) (a : pushrebase_args) (latest_rebase_attempt : ChangesetId)
    (retry_num : nat) (repo : BlobRepo) : BlobRepo * outcome PushrebaseError PushrebaseSuccessResult :=
  match attempt k retry_num a latest_rebase_attempt repo with
  | (repo, Ok (_, Some (head, rebased_changesets))) => (repo, Ok (mkSuccess head retry_num rebased_changesets))
  | (repo, Ok (bookmark_val, None)) =>
      match left with
      | S left => rebase_in_loop k left a (default (root a) bookmark_val) (S retry_num) repo
      | O => (repo, failed TooManyRebaseAttempts)
      end
  | (repo, Err e) => (repo, Err e)
  | (repo, Panic) => (repo, Panic)
  end.

(** ** The whole push *)

Definition fetch_bonsai_changeset (repo : BlobRepo) (hg_cs : HgNodeHash) : outcome PushrebaseError BonsaiChangeset :=
  bcs_id ← ok_or (get_bonsai_from_hg repo hg_cs) (Error (BonsaiNotFoundForHgChangeset hg_cs));
  map_err (fun e => Error (RepoFailed e)) (get_bonsai_changeset repo bcs_id).

Definition fetch_bonsai_changesets (repo : BlobRepo) (commit_ids : list HgNodeHash)
    : outcome PushrebaseError (list BonsaiChangeset) := collect (fetch_bonsai_changeset repo) commit_ids.

Definition do_pushrebase (k : nat) (repo : BlobRepo) (config : PushrebaseParams) (onto_bookmark : OntoBookmarkParams)
    (pushed_set : list HgNodeHash) (maybe_raw_bundle2_id : option bytes)
    : BlobRepo * outcome PushrebaseError PushrebaseSuccessResult :=
  match
    pushed ← fetch_bonsai_changesets repo pushed_set;
    head ← find_only_head_or_fail pushed;
    root ← find_closest_root repo config onto_bookmark (find_roots pushed);
    client_cf ← find_changed_files k repo root head false;
    client_bcs ← fetch_bonsai_range k repo root head;
    Ok (mkArgs config onto_bookmark head root client_cf client_bcs maybe_raw_bundle2_id)
  with
  | Ok a => rebase_in_loop k MAX_REBASE_ATTEMPTS a (root a) 0 repo
  | Err e => (repo, Err e)
  | Panic => (repo, Panic)
  end.

(** ** What the check of an attempt gives *)

Context {BL : BonsaiHashLaws BH} {HL : HashOrderLaws HO} {ML : MapOrderLaws MO}.

Abbreviation repo_ancestor repo := (ancestor (F := get_changeset_fetcher repo)).

(** No changeset after [a] up to [d] is a merge, or changes a file that
    conflicts with one of [files]. *)
Definition conflict_free (repo : BlobRepo) (files : list MPath) (a d : ChangesetId) : Prop :=
  forall c b, c <> a -> repo_ancestor repo a c -> repo_ancestor repo c d -> repo_blobstore repo !! c = Some b ->
    length (parents (inner b)) <= 1 /\
    forall x y, x ∈ extract_conflict_files_from_bonsai_changeset b -> y ∈ files -> ~ paths_conflict x y.

Lemma collect_id_Ok {A} (l : list (outcome PushrebaseError A)) k :
  collect id l = Ok k <-> l = Ok <$> k.
Proof using.
  clear. rewrite collect_Ok_Forall2. split.
  - induction 1 as [|x y l k Hx _ IH]; [done|]. rewrite fmap_cons, <- IH. by rewrite <- Hx.
  - intros ->. induction k as [|y k IH]; [constructor|]. rewrite fmap_cons. by constructor.
Qed.

Lemma join_all_Ok {A} (l : list (outcome PushrebaseError A)) k : join_all l = Ok k -> l = Ok <$> k.
Proof using. clear. unfold join_all. destruct (existsb is_panic l); [done|]. apply collect_id_Ok. Qed.

Lemma collect_with_id repo ids l :
  collect (get_bonsai_changeset repo) ids = Ok l -> get_changeset_id <$> l = ids ->
  collect (get_with_id repo) ids = Ok ((fun b => (get_changeset_id b, b)) <$> l).
Proof using.
  intros H <-. apply collect_Ok_Forall2 in H. apply collect_Ok_Forall2.
  remember (get_changeset_id <$> l) as ids eqn:E. revert E. induction H as [|c b ids l Hb _ IH]; [constructor|].
  rewrite fmap_cons. intros [= -> ->]. rewrite fmap_cons. constructor; [|by apply IH].
  unfold get_with_id. by rewrite Hb.
Qed.

Lemma find_changed_files_runs repo a d reject :
  repo_ok repo -> in_repo repo a -> in_repo repo d ->
  exists n0 bs, (forall k, n0 <= k -> find_changed_files k repo a d reject =
      (file_changes ← join_all (changed_files_of repo (list_to_set (get_changeset_id <$> bs)) reject <$>
          List.filter (fun x => negb (bool_decide (x.1 = a))) ((fun b => (get_changeset_id b, b)) <$> bs));
       Ok (sort_unstable (hash_order (list_to_set (concat file_changes) : gset MPath))))) /\
    Forall (of_repo repo) bs /\
    forall c, c ∈ get_changeset_id <$> bs <-> between (F := get_changeset_fetcher repo) a d c.
Proof using HL.
  intros Hok Ha Hd. pose proof (fetcher_laws repo Hok) as L.
  destruct (range_nodes_runs (F := get_changeset_fetcher repo) (L := L) a d Ha Hd) as (n0 & ids & Hk & _ & _ & Hids).
  destruct (collect_bonsais repo ids Hok) as (l & E & El & Hl).
  { apply Forall_forall. intros c Hc. apply Hids in Hc as (_ & _ & [->|[_ Hcd]]); [done|].
    by apply (ancestor_known (L := L) c d Hd). }
  exists n0, l. rewrite El. split; [|done]. intros k H0. unfold find_changed_files. rewrite (Hk k H0). cbn [map_err].
  rewrite bind_Ok, (collect_with_id repo ids l E El). cbn [map_err]. rewrite bind_Ok. cbv zeta.
  rewrite <- list_fmap_compose. by rewrite <- El.
Qed.

Lemma changed_files_reject repo ids c b files :
  changed_files_of repo ids true (c, b) = Ok files ->
  length (parents (inner b)) <= 1 /\ files = extract_conflict_files_from_bonsai_changeset b.
Proof using. unfold changed_files_of. by destruct (parents (inner b)) as [|? [|? [|? ?]]]; intros [= <-]; simpl; auto. Qed.

(** A check that passes. *)
Lemma checked_conflict_free k repo a d server_cf files n0 bs :
  repo_ok repo -> in_repo repo d -> repo_ancestor repo a d ->
  (forall k, n0 <= k -> find_changed_files k repo a d true =
      (file_changes ← join_all (changed_files_of repo (list_to_set (get_changeset_id <$> bs)) true <$>
          List.filter (fun x => negb (bool_decide (x.1 = a))) ((fun b => (get_changeset_id b, b)) <$> bs));
       Ok (sort_unstable (hash_order (list_to_set (concat file_changes) : gset MPath))))) ->
  Forall (of_repo repo) bs ->
  (forall c, c ∈ get_changeset_id <$> bs <-> between (F := get_changeset_fetcher repo) a d c) ->
  n0 <= k -> find_changed_files k repo a d true = Ok server_cf -> intersect_changed_files server_cf files = Ok tt ->
  conflict_free repo files a d.
Proof using HL.
  intros Hok Hd Had Hrun Hbs Hin Hk Hcf Hint c b Hne Hac Hcd Hb. pose proof (fetcher_laws repo Hok) as L.
  rewrite (Hrun k Hk) in Hcf. apply bind_Ok_inv in Hcf as (fs & Hfs%join_all_Ok & [= <-]).
  rewrite intersect_Ok_iff in Hint. rewrite Forall_forall in Hbs.
  assert (c ∈ get_changeset_id <$> bs) as Hc.
  { apply Hin. unfold between. split; [by apply (ancestor_generation_le (L := L))|]. split; [|by right].
    intros E. pose proof (no_parents_ancestor _ _ E Hcd) as ->. by pose proof (no_parents_ancestor _ _ E Hac) as ->. }
  apply list_elem_of_fmap in Hc as (b' & -> & Hb'). rewrite (or_blob _ _ (Hbs b' Hb')) in Hb. injection Hb as <-.
  assert (exists files', files' ∈ fs /\ changed_files_of repo (list_to_set (get_changeset_id <$> bs)) true
            (get_changeset_id b', b') = Ok files') as (files' & Hf & Hcfo).
  { assert (changed_files_of repo (list_to_set (get_changeset_id <$> bs)) true (get_changeset_id b', b') ∈
      (Ok <$> fs : list (outcome PushrebaseError (list MPath)))) as Hx.
    { rewrite <- Hfs. apply list_elem_of_fmap_2. apply list_elem_of_In, filter_In. split.
      - apply list_elem_of_In, list_elem_of_fmap. by exists b'.
      - cbn [fst]. by rewrite bool_decide_false. }
    apply list_elem_of_fmap in Hx as (files' & E & Hf). by exists files'. }
  apply changed_files_reject in Hcfo as [Hp ->]. split; [done|]. intros x y Hx Hy. apply Hint; [|done].
  rewrite sort_unstable_perm, hash_order_perm, elem_of_elements, elem_of_list_to_set.
  rewrite list_elem_of_In, in_concat. exists (extract_conflict_files_from_bonsai_changeset b').
  by rewrite <- !list_elem_of_In.
Qed.

(** *** Putting checks together *)

Lemma single_parents_path repo a d c :
  repo_ok repo -> in_repo repo d ->
  (forall x, x <> a -> repo_ancestor repo a x -> repo_ancestor repo x d -> length (repo_parents repo x) <= 1) ->
  repo_ancestor repo a d -> repo_ancestor repo c d -> repo_ancestor repo a c \/ repo_ancestor repo c a.
Proof using.
  intros Hok Hd Hone Had. pose proof (fetcher_laws repo Hok) as L.
  revert Hd Hone. revert d Had. refine (rtc_ind_r _ _ _ _); [by right|].
  intros w d Haw Hwd IH Hd Hone Hcd.
  assert (in_repo repo w) as Hw by (eapply (parent_known (FetcherLaws := L)); [exact Hd|exact Hwd]).
  assert (repo_ancestor repo a d) as Had by (eapply rtc_r; [exact Haw|exact Hwd]).
  destruct (ancestor_right c d Hcd) as [->|(q & Hcq & Hqd)]; [by left|].
  assert (d <> a) as Hne.
  { intros ->. pose proof (parent_generation (FetcherLaws := L) _ _ Hd Hwd).
    pose proof (ancestor_generation_le (L := L) _ _ Hw Haw). lia. }
  assert (q = w) as ->.
  { specialize (Hone d Hne Had ltac:(reflexivity)). unfold parent, repo_parents in *.
    destruct (parents_of d) as [|p [|? ?]]; [by apply elem_of_nil in Hqd| |simpl in Hone; lia].
    apply list_elem_of_singleton in Hqd, Hwd. congruence. }
  apply IH; [done| |done]. intros x Hx Hax Hxw. apply Hone; [done|done|]. eapply rtc_r; [exact Hxw|exact Hwd].
Qed.

Lemma conflict_free_trans repo files a b d :
  repo_ok repo -> in_repo repo d -> repo_ancestor repo a b -> repo_ancestor repo b d ->
  conflict_free repo files a b -> conflict_free repo files b d -> conflict_free repo files a d.
Proof using.
  intros Hok Hd Hab Hbd H1 H2 c bcs Hne Hac Hcd Hblob. pose proof (fetcher_laws repo Hok) as L.
  destruct (single_parents_path repo b d c Hok Hd) as [Hbc|Hcb]; [|done|done| |by apply (H1 c)].
  - intros x Hx Hbx Hxd. pose proof (ancestor_known (L := L) x d Hd Hxd) as Hxin.
    destruct (in_repo_blob repo x Hok Hxin) as (bx & Hbl & _ & _ & <-). by apply (H2 x bx).
  - destruct (decide (c = b)) as [->|Hcb]; [by apply (H1 b)|by apply (H2 c)].
Qed.

Lemma conflict_free_le repo repo' files a d :
  repo_ok repo -> repo_le repo repo' -> in_repo repo d -> conflict_free repo files a d -> conflict_free repo' files a d.
Proof using.
  intros Hok Hle Hd H c b Hne Hac Hcd Hb. pose proof (fetcher_laws repo Hok) as L.
  apply (repo_le_ancestor repo repo' c d Hok Hle Hd) in Hcd.
  pose proof (ancestor_known (L := L) c d Hd Hcd) as Hc.
  apply (repo_le_ancestor repo repo' a c Hok Hle Hc) in Hac.
  destruct (in_repo_blob repo c Hok Hc) as (b' & Hb' & _). pose proof (rl_blob _ _ Hle c b' Hb') as Hb''.
  rewrite Hb in Hb''. injection Hb'' as <-. by apply (H c).
Qed.

(** ** The compare-and-swap of the bookmark *)

(** The move of one bookmark, from a value or from nothing. *)
Definition move_txn (repo : BlobRepo) (b : Bookmark) (old : option ChangesetId) (new : ChangesetId)
    (reason : BookmarkUpdateReason) : outcome bookmark_error SqlBookmarksTransaction :=
  match old with
  | Some old => txn_update (create_transaction (repoid repo)) b new old reason
  | None => txn_create (create_transaction (repoid repo)) b new reason
  end.

(** [repo'] is [repo] with the bookmark moved. *)
Record bookmark_moved (repo repo' : BlobRepo) (b : Bookmark) (old : option ChangesetId) (new : ChangesetId) : Prop := {
  bm_old : get_bonsai_bookmark repo b = old;
  bm_new : get_bonsai_bookmark repo' b = Some new;
  bm_others r b' : (r, b') <> (repoid repo, b) ->
    bookmarks (repo_bookmarks repo') !! (r, b') = bookmarks (repo_bookmarks repo) !! (r, b');
  bm_repoid : repoid repo' = repoid repo;
  bm_changesets : repo_changesets repo' = repo_changesets repo;
  bm_blobstore : repo_blobstore repo' = repo_blobstore repo
}.

Lemma move_txn_Ok repo b old new reason : exists t, move_txn repo b old new reason = Ok t /\ built t /\
  repo_id t = repoid repo /\ log_rows t = {[b := (old, Some new, reason)]} /\
  (forall tb, allowed t tb -> tb !! (repoid repo, b) = old).
Proof using.
  destruct old as [old|]; eexists; (split; [reflexivity|]).
  - split; [eapply built_update; [apply built_new|reflexivity]|]. split; [done|]. split.
    + apply map_eq. intros b'. unfold log_rows. cbn [sets creates force_sets deletes force_deletes create_transaction].
      rewrite !lookup_union, !lookup_fmap, !lookup_empty. cbn [fmap option_fmap option_map].
      destruct (decide (b' = b)) as [->|Hne].
      * by rewrite lookup_insert_eq, lookup_singleton_eq.
      * by rewrite lookup_insert_ne, lookup_empty, lookup_singleton_ne.
    + intros tb Ha. eapply (allowed_sets _ _ Ha b (mkSetData new old)). apply lookup_insert_eq.
  - split; [eapply built_create; [apply built_new|reflexivity]|]. split; [done|]. split.
    + apply map_eq. intros b'. unfold log_rows. cbn [sets creates force_sets deletes force_deletes create_transaction].
      rewrite !lookup_union, !lookup_fmap, !lookup_empty. cbn [fmap option_fmap option_map].
      destruct (decide (b' = b)) as [->|Hne].
      * by rewrite lookup_insert_eq, lookup_singleton_eq.
      * by rewrite lookup_insert_ne, lookup_empty, lookup_singleton_ne.
    + intros tb Ha. apply (allowed_creates _ _ Ha). eexists. apply lookup_insert_eq.
Qed.

Lemma commit_move_spec repo t b old new reason m n :
  move_txn repo b old new reason = Ok t ->
  match commit_move repo n new m (Ok t) with
  | (repo', Ok (Some (h, _))) => h = new /\ bookmark_moved repo repo' b old new
  | (repo', Ok None) => repo' = repo
  | (repo', Err e) => repo' = repo /\ e = Error (BookmarksFailed JsonFailed)
  | (_, Panic) => False
  end.
Proof using ML.
  intros Ht. destruct (move_txn_Ok repo b old new reason) as (t' & Ht' & Hb & Hid & Hlog & Hal).
  rewrite Ht in Ht'. injection Ht' as <-. unfold commit_move.
  pose proof (commit_moved to_json t (nanos n) (repo_bookmarks repo) Hb) as Hc.
  destruct (commit to_json t (nanos n) (repo_bookmarks repo)) as [db [[|]|e|]]; cbn [map_err]; rewrite ?bind_Ok.
  - destruct Hc as [Ha Hm]. split; [done|]. unfold moved, new_value in Hm. rewrite Hid, Hlog in Hm.
    split; [by apply Hal| | |done..].
    + unfold get_bonsai_bookmark, get_bookmark. cbn [repo_bookmarks repoid]. rewrite Hm, decide_True by done.
      by rewrite lookup_singleton_eq.
    + intros r b' Hne. cbn [repo_bookmarks repoid]. rewrite Hm. destruct (decide (r = repoid repo)) as [->|]; [|done].
      rewrite lookup_singleton_ne; [done|]. by intros ->.
  - subst db. by destruct repo.
  - destruct Hc as [-> ->]. by destruct repo.
  - done.
Qed.

Lemma create_reason_cases repo id m :
  match create_bookmark_update_reason repo id m with
  | Ok _ => True
  | Err e => exists e', e = Error (RepoFailed e')
  | Panic => exists c, get_hg_from_bonsai_changeset repo c = Panic
  end.
Proof using.
  unfold create_bookmark_update_reason. destruct id as [id|]; [|done].
  assert (forall l : list (ChangesetId * (ChangesetId * Timestamp)), match collect (rebased_timestamp repo) l with
     | Ok _ => True | Err e => exists e', e = Error (RepoFailed e')
     | Panic => exists c, get_hg_from_bonsai_changeset repo c = Panic end) as H.
  { induction l as [|[old [c ts]] l IH]; [done|]. cbn [collect].
    assert (match rebased_timestamp repo (old, (c, ts)) with
      | Ok _ => True | Err e => exists e', e = Error (RepoFailed e')
      | Panic => exists c, get_hg_from_bonsai_changeset repo c = Panic end) as H1.
    { unfold rebased_timestamp. destruct (get_hg_from_bonsai_changeset repo old) eqn:E; simpl; eauto. }
    destruct (rebased_timestamp repo (old, (c, ts))); [rewrite bind_Ok|exact H1|exact H1].
    destruct (collect (rebased_timestamp repo) l); [by rewrite bind_Ok|exact IH|exact IH]. }
  specialize (H (map_order m)). by destruct (collect _ _).
Qed.

(** The way the two attempts to move the bookmark fit together. *)
Definition try_move_bookmark (repo : BlobRepo) (b : Bookmark) (old : option ChangesetId) (new : ChangesetId)
    (id : option bytes) (m : RebasedChangesets) (now : Timestamp) :=
  match old with
  | Some old => try_update_bookmark repo b old new id m now
  | None => try_create_bookmark repo b new id m now
  end.

Lemma try_move_spec repo b old new id m n :
  match try_move_bookmark repo b old new id m n with
  | (repo', Ok (Some (h, _))) => h = new /\ bookmark_moved repo repo' b old new
  | (repo', Ok None) => repo' = repo
  | (repo', Err (Error (BookmarksFailed _))) | (repo', Err (Error (RepoFailed _))) => repo' = repo
  | (_, Err _) => False
  | (repo', Panic) => repo' = repo /\ exists c, get_hg_from_bonsai_changeset repo c = Panic
  end.
Proof using ML.
  pose proof (create_reason_cases repo id m) as Hc.
  assert (try_move_bookmark repo b old new id m n =
    match create_bookmark_update_reason repo id m with
    | Ok reason => commit_move repo n new m (move_txn repo b old new reason)
    | Err e => (repo, Err e)
    | Panic => (repo, Panic)
    end) as -> by (by destruct old).
  destruct (create_bookmark_update_reason repo id m) as [reason|e|].
  - destruct (move_txn_Ok repo b old new reason) as (t & Ht & _). rewrite Ht.
    pose proof (commit_move_spec repo t b old new reason m n Ht) as H.
    destruct (commit_move repo n new m (Ok t)) as [repo' [[[h cs]|]|e|]]; try done. by destruct H as [-> ->].
  - by destruct Hc as [e' ->].
  - done.
Qed.

(** ** What other clients may do

    They may add changesets, though not so many that the table overflows, and
    move bookmarks; the one that is pushed to they only move forward. *)

Definition rows (r : BlobRepo) : N := lenN (changesets (repo_changesets r)).

(** Attempt [n] leaves room for [2 ^ 56] changesets of each attempt after it. *)
Definition row_limit (n : nat) (st : stage) : N :=
  (N.of_nat (n + match st with BeforeCommit => 2 | _ => 1 end) * 2 ^ 56)%N.

Section runs.
Context (a : pushrebase_args).

(** Where the pushed changesets are to go: the bookmark, or the root while
    there is none. *)
Definition target (r : BlobRepo) : ChangesetId :=
  default (root a) (get_bonsai_bookmark r (onto_bookmark (onto a))).

Record state_ok (limit : N) (r : BlobRepo) : Prop := {
  ss_ok : repo_ok r;
  ss_rows : (rows r <= limit)%N;
  ss_target : in_repo r (target r)
}.

Record step_ok (limit : N) (r r' : BlobRepo) : Prop := {
  st_state : state_ok limit r';
  st_le : repo_le r r';
  st_forward : repo_ancestor r' (target r) (target r')
}.

Definition env_ok : Prop := forall n st r,
  state_ok (row_limit n st) r -> step_ok (row_limit n st) r (env n st r).

Context (Henv : env_ok) (r0 : BlobRepo).

(** The push: a head over its root, which is in the repository. *)
Record push_ok : Prop := {
  po_ok : repo_ok r0;
  po_rows : (rows r0 <= 2 ^ 56)%N;
  po_root : in_repo r0 (root a);
  po_head : in_repo r0 (head a);
  po_above : repo_ancestor r0 (root a) (head a)
}.

Context (Hpush : push_ok).

(** The invariant between attempts: up to [latest] everything is checked. *)
Record loop_ok (n : nat) (latest : ChangesetId) (r : BlobRepo) : Prop := {
  lo_state : state_ok (row_limit n BeforeRead) r;
  lo_le : repo_le r0 r;
  lo_root : repo_ancestor r (root a) latest;
  lo_target : repo_ancestor r latest (target r);
  lo_free : conflict_free r (client_cf a) (root a) latest
}.

(** A push that succeeded. The bookmark was at [old] when it was moved to
    [h]; nothing between the root and [old] conflicts with what was pushed,
    and [h] is the head of the pushed stack, rebased onto [old]. *)
Definition pushed (r' : BlobRepo) (h : ChangesetId) : Prop := exists rc old n m,
  let v := default (root a) old in
  repo_ok rc /\ repo_le r0 rc /\ in_repo rc v /\
  bookmark_moved rc r' (onto_bookmark (onto a)) old h /\
  repo_ancestor rc (root a) v /\ conflict_free rc (client_cf a) (root a) v /\
  rebased_stack r0 rc (config a) (root a) (head a) v (now n) h m /\ repo_ancestor rc v h.

Lemma row_limit_le n st : (row_limit n st <= row_limit n BeforeCommit)%N.
Proof using. unfold row_limit. apply N.mul_le_mono_r. destruct st; lia. Qed.

Lemma limit_before n st : st <> BeforeCommit -> row_limit n st = row_limit n BeforeRead.
Proof using. by destruct st. Qed.

Lemma limit_next n : row_limit n BeforeCommit = row_limit (S n) BeforeRead.
Proof using. unfold row_limit. f_equal. lia. Qed.

Lemma le_ancestor r r' x y :
  repo_ok r -> repo_le r r' -> in_repo r y -> repo_ancestor r x y -> repo_ancestor r' x y.
Proof using. intros Hok Hle Hy Hxy. by apply (repo_le_ancestor r r' x y Hok Hle Hy). Qed.

Lemma ancestor_in r x y : repo_ok r -> in_repo r y -> repo_ancestor r x y -> in_repo r x.
Proof using. intros Hok. apply (ancestor_known (L := fetcher_laws r Hok)). Qed.

(** Room for the rebased changesets in a repository that has grown. *)
Lemma room_for_later r n :
  repo_ok r -> repo_le r0 r -> (rows r <= row_limit n BeforeRead)%N -> n <= MAX_REBASE_ATTEMPTS ->
  room_for r (root a) (head a) /\
  forall ids, to_rebase r (root a) (head a) ids -> (lenN ids <= 2 ^ 56)%N.
Proof using Hpush.
  intros Hok Hle Hr Hn. destruct Hpush as [H1 H2 H3 H4 H5].
  assert (forall ids, to_rebase r (root a) (head a) ids -> (lenN ids <= 2 ^ 56)%N) as Hids.
  { intros ids [Hnd Hin]. pose proof (length_in_repo r0 ids H1 Hnd) as Hl.
    assert (Forall (in_repo r0) ids) as Hall.
    { apply Forall_forall. intros c Hc. destruct (Hin c Hc) as (_ & _ & Hch).
      apply (repo_le_ancestor r0 r c (head a) H1 Hle H4) in Hch. by eapply ancestor_in. }
    specialize (Hl Hall). unfold rows, lenN in *. lia. }
  split; [|done]. intros ids Hi. specialize (Hids ids Hi). unfold room. unfold rows, row_limit, MAX_REBASE_ATTEMPTS in *.
  unfold lenN in *. lia.
Qed.

(** The stack was rebased in a later repository than it was read from. *)
Lemma rebased_stack_le r r' r'' v n h m :
  repo_le r0 r -> repo_le r' r'' ->
  rebased_stack r r' (config a) (root a) (head a) v n h m -> rebased_stack r0 r'' (config a) (root a) (head a) v n h m.
Proof using Hpush.
  intros Hle Hle' [Hk He Hh]. destruct Hpush as [H1 H2 H3 H4 H5].
  assert (forall c, c <> root a /\ repo_ancestor r (root a) c /\ repo_ancestor r c (head a) <->
                    c <> root a /\ repo_ancestor r0 (root a) c /\ repo_ancestor r0 c (head a)) as Hc.
  { intros c. rewrite (repo_le_ancestor r0 r c (head a) H1 Hle H4). split; intros (Hne & Hrc & Hch);
      (split; [done|split; [|done]]); pose proof (ancestor_in r0 c (head a) H1 H4 Hch) as Hin;
      by apply (repo_le_ancestor r0 r (root a) c H1 Hle Hin). }
  split; [by intros c; rewrite Hk, Hc| |done].
  intros c nw ts Hm. destruct (He c nw ts Hm) as (b & b' & Hb & Hb' & Hin & Hreb).
  assert (in_repo r0 c) as Hcin.
  { apply (ancestor_in r0 c (head a) H1 H4), Hc, Hk. by eexists. }
  destruct (in_repo_blob r0 c H1 Hcin) as (b0 & Hb0 & _). pose proof (rl_blob _ _ Hle c b0 Hb0) as Hb1.
  rewrite Hb in Hb1. injection Hb1 as <-. exists b, b'. split; [done|]. split; [by apply Hle'|].
  split; [by apply (repo_le_in r')|done].
Qed.

Lemma env_step n st r :
  st <> BeforeCommit -> state_ok (row_limit n BeforeRead) r -> step_ok (row_limit n BeforeRead) r (env n st r).
Proof using Henv. intros Hst Hs. rewrite <- (limit_before n st Hst) in *. by apply Henv. Qed.

(** The errors that an attempt may end in; it does not get stuck. *)
Definition known_error (e : PushrebaseError) : Prop :=
  match e with Error (FetchFailed _) => False | _ => True end.

Lemma changed_files_errors repo ids l :
  match join_all (changed_files_of repo ids true <$> l) with Err e => e = RebaseOverMerge | _ => True end.
Proof using.
  unfold join_all. destruct (existsb is_panic _); [done|].
  induction l as [|[c b] l IH]; [done|]. rewrite fmap_cons. cbn [collect].
  assert (match changed_files_of repo ids true (c, b) with Err e => e = RebaseOverMerge | _ => True end) as Hc.
  { unfold changed_files_of. by destruct (parents (inner b)) as [|? [|? [|? ?]]]. }
  change (id (changed_files_of repo ids true (c, b))) with (changed_files_of repo ids true (c, b)).
  destruct (changed_files_of repo ids true (c, b)); [|exact Hc|done]. simpl. by destruct (collect id _).
Qed.

(** The checks of an attempt that has read [v] as the place to rebase onto. *)
Lemma check_conflicts_runs n r latest v :
  state_ok (row_limit n BeforeRead) r -> in_repo r v -> repo_ancestor r latest v ->
  exists n0 r' res, (forall k, n0 <= k -> check_conflicts k n r latest v (client_cf a) (client_bcs a) = (r', res)) /\
    match res with
    | Ok _ => repo_le r r' /\ step_ok (row_limit n BeforeRead) r r' /\ conflict_free r' (client_cf a) latest v
    | Err e => known_error e
    | Panic => True
    end.
Proof using Henv HL.
  intros Hs Hv Hlv. pose proof (env_step n BeforeRange r ltac:(done) Hs) as [S1 L1 F1].
  set (r1 := env n BeforeRange r) in *.
  pose proof (repo_le_in _ _ _ L1 Hv) as Hv1. pose proof (le_ancestor _ _ _ _ (ss_ok _ _ Hs) L1 Hv Hlv) as Hlv1.
  pose proof (ancestor_in _ _ _ (ss_ok _ _ S1) Hv1 Hlv1) as Hl1.
  destruct (fetch_bonsai_range_runs r1 latest v (ss_ok _ _ S1) Hl1 Hv1) as (n1 & l & Hrun & _).
  destruct (@check_case_conflicts _ (BonsaiChangeset_update to_lowercase) (reverse l ++ reverse (client_bcs a))) as [path|] eqn:Ec.
  { exists n1, r1, (Err (PotentialCaseConflict path)). split; [|done]. intros k Hk. unfold check_conflicts.
    fold r1. by rewrite (Hrun k Hk), bind_Ok, Ec. }
  pose proof (env_step n BeforeFiles r1 ltac:(done) S1) as [S2 L2 F2]. set (r2 := env n BeforeFiles r1) in *.
  pose proof (repo_le_in _ _ _ L2 Hv1) as Hv2. pose proof (le_ancestor _ _ _ _ (ss_ok _ _ S1) L2 Hv1 Hlv1) as Hlv2.
  pose proof (ancestor_in _ _ _ (ss_ok _ _ S2) Hv2 Hlv2) as Hl2.
  destruct (find_changed_files_runs r2 latest v true (ss_ok _ _ S2) Hl2 Hv2) as (n2 & bs & Hcf & Hbs & Hin).
  exists (n1 + n2), r2, (server_cf ← find_changed_files n2 r2 latest v true; intersect_changed_files server_cf (client_cf a)).
  split.
  { intros k Hk. unfold check_conflicts. fold r1. rewrite (Hrun k) by lia. rewrite bind_Ok, Ec. fold r2.
    by rewrite (Hcf k), (Hcf n2) by lia. }
  pose proof (checked_conflict_free n2 r2 latest v) as Hfree.
  destruct (find_changed_files n2 r2 latest v true) as [cf|e|] eqn:Ecf.
  - rewrite bind_Ok. destruct (intersect_changed_files cf (client_cf a)) as [[]|e|] eqn:Ei; [| |done].
    + split; [by transitivity r1|]. split.
      * split; [done|by transitivity r1|]. etransitivity; [|exact F2].
        apply (le_ancestor r1 r2); [apply S1|done|apply S1|done].
      * by apply (Hfree cf (client_cf a) n2 bs (ss_ok _ _ S2) Hv2 Hlv2 Hcf Hbs Hin).
    + unfold intersect_changed_files in Ei. destruct (intersect_loop _ _); [done|]. by injection Ei as <-.
  - simpl. rewrite (Hcf n2 ltac:(lia)) in Ecf.
    pose proof (changed_files_errors r2 (list_to_set (get_changeset_id <$> bs))
                  (List.filter (fun x => negb (bool_decide (x.1 = latest))) ((fun b => (get_changeset_id b, b)) <$> bs))) as He.
    destruct (join_all _) as [fs|e'|]; simpl in Ecf; [done| |done]. injection Ecf as <-. by rewrite He.
  - done.
Qed.

Lemma do_rebase_try k n r old :
  do_rebase k n r (config a) (root a) (head a) old (onto_bookmark (onto a)) (maybe_raw_bundle2_id a) =
  match create_rebased_changesets timestamp_of k r (config a) (root a) (head a) (default (root a) old) (now n) with
  | (r', Ok (h, m)) => try_move_bookmark (env n BeforeCommit r') (onto_bookmark (onto a)) old h (maybe_raw_bundle2_id a) m (now n)
  | (r', Err e) => (r', Err e)
  | (r', Panic) => (r', Panic)
  end.
Proof using. unfold do_rebase. destruct (create_rebased_changesets _ _ _ _ _ _ _ _) as [r' [[h m]|e|]]; [by destruct old|done|done]. Qed.

(** The repository after the rebased changesets are saved. *)
Lemma saved_state n r r' new :
  state_ok (row_limit n BeforeRead) r -> saved_ok new r r' -> (lenN new <= 2 ^ 56)%N ->
  state_ok (row_limit n BeforeCommit) r' /\ target r' = target r.
Proof using.
  intros Hs Hsv Hnew. assert (target r' = target r) as Et.
  { unfold target, get_bonsai_bookmark. by rewrite (sv_bookmarks _ _ _ Hsv), (rl_repoid _ _ (sv_le _ _ _ Hsv)). }
  split; [|done]. split; [apply Hsv| |].
  - pose proof (sv_length _ _ _ Hsv). pose proof (ss_rows _ _ Hs). unfold rows, row_limit, lenN in *. lia.
  - rewrite Et. apply (repo_le_in r); [apply Hsv|apply Hs].
Qed.

(** Rebasing onto [v], which was read from the bookmark and checked. *)
Lemma do_rebase_runs n r old :
  let v := default (root a) old in
  n <= MAX_REBASE_ATTEMPTS -> state_ok (row_limit n BeforeRead) r -> repo_le r0 r -> in_repo r v ->
  repo_ancestor r (root a) v -> repo_ancestor r v (target r) -> conflict_free r (client_cf a) (root a) v ->
  exists n0 r' res, (forall k, n0 <= k ->
      do_rebase k n r (config a) (root a) (head a) old (onto_bookmark (onto a)) (maybe_raw_bundle2_id a) = (r', res)) /\
    match res with
    | Ok (Some (h, _)) => pushed r' h
    | Ok None => loop_ok (S n) v r'
    | Err e => known_error e
    | Panic => True
    end.
Proof using Henv Hpush HL BL ML.
  intros v Hn Hs Hle Hv Hrv Hvt Hfree. pose proof (ss_ok _ _ Hs) as Hok.
  destruct (room_for_later r n Hok Hle (ss_rows _ _ Hs) Hn) as [Hroom Hids].
  pose proof (repo_le_in _ _ _ Hle (po_root Hpush)) as Hr. pose proof (repo_le_in _ _ _ Hle (po_head Hpush)) as Hh.
  pose proof (le_ancestor _ _ _ _ (po_ok Hpush) Hle (po_head Hpush) (po_above Hpush)) as Hrh.
  destruct (create_rebased_runs timestamp_of r (config a) (root a) (head a) v (now n) Hok Hroom Hr Hh Hv Hrh)
    as (n1 & r1 & res & Hrun & Hres).
  destruct res as [[h m]|e|]; [| |done].
  2: { exists n1, r1, (Err e). split; [intros k Hk; rewrite do_rebase_try; fold v; by rewrite (Hrun k Hk)|]. by destruct e as [| | | |[]]. }
  destruct Hres as (new & Hsv & Hst & ids & Htr & Hlen).
  assert (lenN new <= 2 ^ 56)%N as Hnew. { specialize (Hids ids Htr). unfold lenN in *. by rewrite Hlen. }
  destruct (saved_state n r r1 new Hs Hsv Hnew) as [Hs1 Et].
  pose proof (Henv n BeforeCommit r1 Hs1) as [S2 L2 F2]. set (r2 := env n BeforeCommit r1) in *.
  pose proof (try_move_spec r2 (onto_bookmark (onto a)) old h (maybe_raw_bundle2_id a) m (now n)) as Hmove.
  destruct (try_move_bookmark r2 _ old h _ m _) as [r3 res3] eqn:Emove.
  exists n1, r3, res3. split; [intros k Hk; rewrite do_rebase_try; fold v; by rewrite (Hrun k Hk)|].
  assert (repo_le r r2) as Lr2 by (transitivity r1; [apply Hsv|done]).
  pose proof (repo_le_in _ _ _ Lr2 Hv) as Hv2. pose proof (le_ancestor _ _ _ _ Hok Lr2 Hv Hrv) as Hrv2.
  pose proof (conflict_free_le _ _ _ _ _ Hok Lr2 Hv Hfree) as Hfree2.
  destruct res3 as [[[h' cs]|]|e|].
  - destruct Hmove as [-> Hmoved]. exists r2, old, n, m. split; [apply S2|]. split; [by transitivity r|].
    split; [done|]. split; [done|]. split; [done|]. split; [done|]. split; [by apply (rebased_stack_le r r1)|].
    pose proof (rebased_stack_onto r r1 new (config a) (root a) (head a) v (now n) h m Hok Hh Hrh Hsv Hst) as Hvh.
    apply (le_ancestor r1 r2); [apply Hsv|done| |done].
    destruct (decide (h = v)) as [->|Hne].
    { apply (repo_le_in r); [apply Hsv|done]. }
    pose proof (rs_head _ _ _ _ _ _ _ _ _ Hst) as Eh. unfold remap, with_root in Eh.
    destruct (decide (head a = root a)) as [E|E]; [rewrite E, lookup_insert_eq in Eh; congruence|].
    rewrite lookup_insert_ne in Eh by done.
    destruct (m !! head a) as [[nw ts]|] eqn:Em.
    + destruct (rs_each _ _ _ _ _ _ _ _ _ Hst _ _ _ Em) as (_ & _ & _ & _ & Hin & _). by subst nw.
    + exfalso. destruct (proj2 (rs_keys _ _ _ _ _ _ _ _ _ Hst (head a))) as [? Hm]; [|congruence].
      split; [done|]. by split.
  - subst r3. split; [by rewrite <- limit_next|by transitivity r|done| |done].
    transitivity (target r1); [|done]. rewrite Et.
    apply (le_ancestor r r2); [done|done|apply Hs|done].
  - by destruct e as [| | | |[]].
  - done.
Qed.

Lemma attempt_runs n latest r :
  n <= MAX_REBASE_ATTEMPTS -> loop_ok n latest r ->
  exists n0 r' res, (forall k, n0 <= k -> attempt k n a latest r = (r', res)) /\
    match res with
    | Ok (_, Some (h, _)) => pushed r' h
    | Ok (old, None) => loop_ok (S n) (default (root a) old) r'
    | Err e => known_error e
    | Panic => True
    end.
Proof using Henv Hpush HL BL ML.
  intros Hn [Hs Hle Hroot Htarget Hfree]. pose proof (ss_ok _ _ Hs) as Hok.
  pose proof (env_step n BeforeRead r ltac:(done) Hs) as [S1 L1 F1]. set (r1 := env n BeforeRead r) in *.
  destruct (get_onto_bookmark_value r1 (onto a)) as [old|e|] eqn:Eval.
  2: { exists 0, r1, (Err e). split; [intros k _; unfold attempt; fold r1; by rewrite Eval|].
       unfold get_onto_bookmark_value in Eval. destruct (get_bonsai_bookmark _ _); [done|].
       destruct (create_if_not_exists _); [done|]. by injection Eval as <-. }
  2: { unfold get_onto_bookmark_value in Eval. destruct (get_bonsai_bookmark _ _); [done|].
       by destruct (create_if_not_exists _). }
  assert (default (root a) old = target r1) as Ev.
  { unfold target. unfold get_onto_bookmark_value in Eval. destruct (get_bonsai_bookmark _ _); [by injection Eval as <-|].
    destruct (create_if_not_exists _); [by injection Eval as <-|done]. }
  pose proof (ss_target _ _ Hs) as Ht. pose proof (ancestor_in _ _ _ Hok Ht Htarget) as Hlat.
  assert (repo_ancestor r1 latest (target r1)) as Hlv.
  { transitivity (target r); [|done]. by apply (le_ancestor r r1). }
  destruct (check_conflicts_runs n r1 latest (target r1) S1 (ss_target _ _ S1) Hlv) as (n1 & r2 & res & Hcheck & Hres).
  destruct res as [[]|e|].
  2: { exists n1, r2, (Err e). split; [|done]. intros k Hk. unfold attempt. fold r1.
       by rewrite Eval, Ev, (Hcheck k Hk). }
  2: { exists n1, r2, Panic. split; [|done]. intros k Hk. unfold attempt. fold r1.
       by rewrite Eval, Ev, (Hcheck k Hk). }
  destruct Hres as (L2 & [S2 _ F2] & Hfree2).
  pose proof (env_step n BeforeRebase r2 ltac:(done) S2) as [S3 L3 F3]. set (r3 := env n BeforeRebase r2) in *.
  assert (repo_le r r3) as Lr3 by (transitivity r1; [done|]; by transitivity r2).
  assert (repo_le r1 r3) as L13 by (by transitivity r2).
  pose proof (ss_target _ _ S1) as Hv1. pose proof (repo_le_in _ _ _ L13 Hv1) as Hv3.
  assert (repo_ancestor r3 (root a) latest) as Hrl3 by (by apply (le_ancestor r r3)).
  assert (repo_ancestor r3 latest (target r1)) as Hlv3 by (by apply (le_ancestor r1 r3); [apply S1|..]).
  assert (conflict_free r3 (client_cf a) (root a) (target r1)) as Hfree3.
  { apply (conflict_free_trans r3 (client_cf a) (root a) latest); [apply S3|done|done|done| |].
    - by apply (conflict_free_le r r3).
    - apply (conflict_free_le r2 r3); [apply S2|done| |done]. by apply (repo_le_in r1 r2). }
  destruct (do_rebase_runs n r3 old Hn S3) as (n2 & r4 & res & Hdo & Hres4).
  - by transitivity r.
  - by rewrite Ev.
  - rewrite Ev. by transitivity latest.
  - rewrite Ev. transitivity (target r2); [|done]. apply (le_ancestor r2 r3); [apply S2|done|apply S2|done].
  - by rewrite Ev.
  - exists (n1 + n2), r4, (x ← res; Ok (old, x)). split.
    { intros k Hk. unfold attempt. fold r1. rewrite Eval, Ev, (Hcheck k) by lia. fold r3.
      by rewrite (Hdo k) by lia. }
    by destruct res as [[[h cs]|]|e|].
Qed.

Lemma loop_runs left : forall n latest r,
  n + left = MAX_REBASE_ATTEMPTS -> loop_ok n latest r ->
  exists n0 r' res, (forall k, n0 <= k -> rebase_in_loop k left a latest n r = (r', res)) /\
    match res with
    | Ok s => pushed r' (success_head s) /\ retry_num s <= MAX_REBASE_ATTEMPTS
    | Err e => known_error e
    | Panic => True
    end.
Proof using Henv Hpush HL BL ML.
  induction left as [|left IH]; intros n latest r Hn Hl;
    (destruct (attempt_runs n latest r ltac:(lia) Hl) as (n1 & r1 & res & Hat & Hres));
    destruct res as [[old [[h cs]|]]|e|].
  - exists n1, r1, (Ok (mkSuccess h n cs)). split; [intros k Hk; simpl; by rewrite (Hat k Hk)|]. split; [done|simpl; lia].
  - exists n1, r1, (failed TooManyRebaseAttempts). split; [intros k Hk; simpl; by rewrite (Hat k Hk)|done].
  - exists n1, r1, (Err e). split; [intros k Hk; simpl; by rewrite (Hat k Hk)|done].
  - exists n1, r1, Panic. split; [intros k Hk; simpl; by rewrite (Hat k Hk)|done].
  - exists n1, r1, (Ok (mkSuccess h n cs)). split; [intros k Hk; simpl; by rewrite (Hat k Hk)|]. split; [done|simpl; lia].
  - destruct (IH (S n) (default (root a) old) r1 ltac:(lia) Hres) as (n2 & r2 & res & Hloop & H).
    exists (n1 + n2), r2, res. split; [|done]. intros k Hk. simpl. rewrite (Hat k) by lia. apply Hloop. lia.
  - exists n1, r1, (Err e). split; [intros k Hk; simpl; by rewrite (Hat k Hk)|done].
  - exists n1, r1, Panic. split; [intros k Hk; simpl; by rewrite (Hat k Hk)|done].
Qed.

(** C3. Pushrebase is safe under any interference. Let other clients add
    changesets and move bookmarks between any two steps, as long as they move
    the bookmark that is pushed to forward only. Then the loop ends, after at
    most the allowed number of retries; and when it succeeds, it has moved the
    bookmark, and no other, from the value [old] it had at that very moment
    to the new head; no changeset between the root of the push and [old] is a
    merge or changes a file that conflicts with the files of the push,
    whichever attempt got to check it; and the new head is the pushed stack,
    changeset by changeset, rebased onto [old]. *)
Theorem rebase_in_loop_safe :
  state_ok (2 ^ 56) r0 -> repo_ancestor r0 (root a) (target r0) ->
  exists n0 r' res, (forall k, n0 <= k -> rebase_in_loop k MAX_REBASE_ATTEMPTS a (root a) 0 r0 = (r', res)) /\
    match res with
    | Ok s => pushed r' (success_head s) /\ retry_num s <= MAX_REBASE_ATTEMPTS
    | Err e => known_error e
    | Panic => True
    end.
Proof using Henv Hpush HL BL ML.
  intros Hs Hrt. apply loop_runs; [done|]. split; [done|done|done|done|].
  intros c b Hne Hrc Hcr. pose proof (po_ok Hpush) as Hok. pose proof (po_root Hpush) as Hr.
  destruct Hne. apply (ancestor_antisym (L := fetcher_laws r0 Hok)); [by eapply ancestor_in|done|done|done].
Qed.
End runs.
End loop.
