(* ===== verification/PushrebaseExample.v ===== *)
(** * Pushrebase and phases: examples

    A model of the hash of changesets that satisfies the laws, a repository of
    three changesets with a bookmark, and a push that loses the race for the
    bookmark once. The theorems of [Pushrebase] and [PushrebaseLoop] are
    applied to it, and those of [Phases] and [PhasesCaching] with an empty skip
    list, an empty table, and a cache that is a map. *)

From stdpp Require Import fin_maps.
From S2P Require Import Frontier Skiplist BookmarkList Phases PhasesCaching.
From S2P Require Import Prelude Hash Bonsai Graph Range TopoSort Changesets Bookmarks CaseConflict Repo Ord Path Pushrebase PushrebaseLoop.

(** ** Dates: any offset, seconds and nanoseconds *)

#[local] Instance ex_chrono : Chrono := {|
  FixedOffset := Z;
  ChronoDateTime := Z * Z * N;
  west_opt tz := Some tz;
  utc_minus_local tz := tz;
  timestamp_opt tz s n := Some (tz, s, n);
  timestamp dt := dt.1.2;
  offset dt := dt.1.1;
  subsec_nanos dt := dt.2;
|}.

(** ** A hash that is a serialization *)

#[local] Instance ContentId_eq_dec : EqDecision ContentId.
Proof. solve_decision. Defined.
#[local] Instance FileChange_eq_dec : EqDecision FileChange.
Proof. solve_decision. Defined.

#[local] Instance FileChange_countable : Countable FileChange.
Proof.
  refine (inj_countable'
    (fun f => (blake2_bytes (content_blake2 (content_id f)), match file_type f with Regular => 0 | Executable => 1 | Symlink => 2 end,
               Bonsai.size f, copy_from f))
    (fun '(c, t, n, cp) => mkFileChange (mkContentId (mkBlake2 c))
       (match t with 0 => Regular | 1 => Executable | _ => Symlink end) n cp) _).
  by intros [[[c]] [] n cp].
Defined.

(** Three bits to a byte. *)
Definition pos_bytes : positive -> bytes :=
  fix go p :=
    match p with
    | xO (xO (xO q)) => x02 :: go q
    | xO (xO (xI q)) => x03 :: go q
    | xO (xI (xO q)) => x04 :: go q
    | xO (xI (xI q)) => x05 :: go q
    | xI (xO (xO q)) => x06 :: go q
    | xI (xO (xI q)) => x07 :: go q
    | xI (xI (xO q)) => x08 :: go q
    | xI (xI (xI q)) => x09 :: go q
    | xO (xO xH) => [x0a]
    | xO (xI xH) => [x0b]
    | xI (xO xH) => [x0c]
    | xI (xI xH) => [x0d]
    | xO xH => [x0e]
    | xI xH => [x0f]
    | xH => [x10]
    end%positive.

Lemma pos_bytes_inj : forall p q, pos_bytes p = pos_bytes q -> p = q.
Proof.
  fix IH 1. intros p q.
  destruct p as [[[p|p|]|[p|p|]|]|[[p|p|]|[p|p|]|]|], q as [[[q|q|]|[q|q|]|]|[[q|q|]|[q|q|]|]|]; simpl;
    intros E; first [discriminate E|reflexivity|injection E as E; by rewrite (IH p q E)].
Qed.

Fixpoint ser_bytes (l : bytes) : bytes :=
  match l with
  | [] => [x00]
  | b :: l => if bool_decide (b = x00 \/ b = x01) then x01 :: b :: ser_bytes l else b :: ser_bytes l
  end.

Fixpoint ser_ids (l : list ChangesetId) : bytes :=
  match l with
  | [] => [x00]
  | c :: l => x01 :: ser_bytes (blake2_bytes (cs_blake2 c)) ++ ser_ids l
  end.

Lemma ser_bytes_inj l l' r r' : ser_bytes l ++ r = ser_bytes l' ++ r' -> l = l' /\ r = r'.
Proof.
  revert l'. induction l as [|b l IH]; intros [|b' l'] E; simpl in E.
  - by injection E.
  - case_bool_decide; injection E; naive_solver.
  - case_bool_decide; injection E; naive_solver.
  - assert (b = b' /\ ser_bytes l ++ r = ser_bytes l' ++ r') as [-> E'].
    { repeat case_bool_decide; injection E; naive_solver. }
    by apply IH in E' as [-> ->].
Qed.

Lemma ser_ids_inj l l' r r' : ser_ids l ++ r = ser_ids l' ++ r' -> l = l' /\ r = r'.
Proof.
  revert l'. induction l as [|[[c]] l IH]; intros [|[[c']] l'] E; simpl in E; try done; injection E as E; [done|].
  rewrite <- !app_assoc in E. apply ser_bytes_inj in E as [-> E]. by apply IH in E as [-> ->].
Qed.

Definition contents (b : BonsaiChangesetMut) : list positive :=
  [encode (author b); encode (chrono (author_date b)); encode (committer b);
   encode (chrono <$> committer_date b); encode (message b); encode (extra b);
   encode (file_changes b)].

#[local] Instance ex_hash : BonsaiHash := {|
  get_changeset_id b :=
    mkChangesetId (mkBlake2 (ser_ids (parents (inner b)) ++ pos_bytes (encode (contents (inner b)))))
|}.

Lemma ser_bytes_length l : length l < length (ser_bytes l).
Proof. induction l as [|b l IH]; simpl; [lia|]. case_bool_decide; simpl; lia. Qed.

Lemma ser_ids_length p l : p ∈ l -> length (blake2_bytes (cs_blake2 p)) < length (ser_ids l).
Proof.
  induction l as [|c l IH]; [by intros ?%elem_of_nil|]. simpl. rewrite length_app.
  intros [->|Hp]%elem_of_cons; [pose proof (ser_bytes_length (blake2_bytes (cs_blake2 c))); lia|specialize (IH Hp); lia].
Qed.

#[local] Instance ex_hash_laws : BonsaiHashLaws ex_hash.
Proof.
  split.
  - intros [b] [b'] E. injection E as E. apply ser_ids_inj in E as [Ep E]. apply pos_bytes_inj in E.
    apply (inj encode) in E. f_equal. destruct b as [p1 a1 [d1] c1 cd1 m1 e1 f1], b' as [p2 a2 [d2] c2 cd2 m2 e2 f2].
    unfold contents in E. cbn [parents author author_date chrono committer committer_date message extra file_changes] in *.
    injection E as E1%(inj encode) E2%(inj encode) E3%(inj encode) Ecd%(inj encode) E4%(inj encode) E5%(inj encode) E6%(inj encode).
    subst. f_equal.
    destruct cd1 as [[]|], cd2 as [[]|]; simpl in Ecd; congruence.
  - apply (well_founded_lt_compat _ (fun c => length (blake2_bytes (cs_blake2 c)))).
    intros p c (b & <- & Hp). simpl. rewrite length_app. pose proof (ser_ids_length p _ Hp). lia.
Qed.

(** ** The repository *)

Definition ex_path (name : bytes) : MPath := mkMPath [mkElem name].

Definition ex_bonsai (ps : list ChangesetId) (file : bytes) : BonsaiChangeset :=
  mkFrozen (mkBonsai ps (bstr "a") (mkDateTime (0%Z, 5%Z, 0%N)) None None (bstr "m") []
    [(ex_path file, Some (mkFileChange (mkContentId (mkBlake2 [])) Regular 1 None))]).

Definition ex_base : BonsaiChangeset := ex_bonsai [] (bstr "r").
Definition ex_root : ChangesetId := get_changeset_id ex_base.
Definition ex_server : BonsaiChangeset := ex_bonsai [ex_root] (bstr "s").
Definition ex_client : BonsaiChangeset := ex_bonsai [ex_root] (bstr "c").

Definition ex_bonsais : list BonsaiChangeset := [ex_base; ex_server; ex_client].
Definition ex_bookmark : Bookmark := mkBookmark (bstr "master").

Definition ex_repo : BlobRepo :=
  mkRepo 0%N (mkTables {[(0%N, ex_bookmark) := ex_root]} [] [])
    (foldl (fun db b => (add db (mkInsert 0%N (get_changeset_id b) (parents (inner b)))).1) empty_db ex_bonsais)
    (by_id ex_bonsais).

(** The push of the client's changeset, and another client that moves the
    bookmark to the server's changeset just before the first commit. *)
Definition ex_args : pushrebase_args :=
  mkArgs (mkParams true 10) (mkOnto ex_bookmark false) (get_changeset_id ex_client) ex_root
    [ex_path (bstr "c")] [ex_client] None.

Definition ex_target (r : BlobRepo) : bool :=
  bool_decide (get_bonsai_bookmark r ex_bookmark = Some ex_root) &&
  bool_decide (e_parents <$> select_changeset (repo_changesets r) (repoid r) (get_changeset_id ex_server) = Some [ex_root]).

Definition ex_move (r : BlobRepo) : BlobRepo :=
  mkRepo (repoid r)
    (mkTables (<[(repoid r, ex_bookmark) := get_changeset_id ex_server]> (bookmarks (repo_bookmarks r)))
       (update_log (repo_bookmarks r)) (replay_data (repo_bookmarks r)))
    (repo_changesets r) (repo_blobstore r).

Definition ex_env (n : nat) (st : stage) (r : BlobRepo) : BlobRepo :=
  match n, st with
  | 0, BeforeCommit => if ex_target r then ex_move r else r
  | _, _ => r
  end.

Definition ex_now (n : nat) : Timestamp := mkTimestamp 7000000000.
Definition ex_timestamp (d : DateTime) : Timestamp := mkTimestamp (timestamp_secs d * 1000000000).
Definition ex_to_json (ts : list (HgNodeHash * Z)) : option bytes := Some [].
Definition ex_diff (repo : BlobRepo) (c p : ChangesetId) : outcome PushrebaseError (list MPath) := Ok [].
Definition ex_hg (repo : BlobRepo) (c : ChangesetId) : outcome repo_error HgNodeHash := Err (BonsaiNotFound c).

Definition ex_run : BlobRepo * outcome PushrebaseError PushrebaseSuccessResult :=
  rebase_in_loop ex_timestamp (fun b => b) ex_to_json ex_diff ex_hg ex_env ex_now 30 MAX_REBASE_ATTEMPTS
    ex_args ex_root 0 ex_repo.

Definition ex_result (r : BlobRepo * outcome PushrebaseError PushrebaseSuccessResult) : bool :=
  match r with
  | (r, Ok s) =>
      Nat.eqb (retry_num s) 1 && bool_decide (get_bonsai_bookmark r ex_bookmark = Some (success_head s)) &&
      bool_decide (repo_parents r (success_head s) = [get_changeset_id ex_server])
  | _ => false
  end.

Example ex_retry : ex_result ex_run = true.
Proof. vm_compute. reflexivity. Qed.

(** ** The hypotheses hold *)

Lemma ex_table : rtc added empty_db (repo_changesets ex_repo).
Proof.
  unfold ex_repo, ex_bonsais. cbn [repo_changesets foldl].
  do 3 (eapply rtc_r; [|by eexists]). apply rtc_refl.
Qed.

Lemma ex_wf : wf (repo_changesets ex_repo).
Proof. apply (history_wf empty_db _ wf_empty ex_table). vm_compute. reflexivity. Qed.

Lemma ex_stored c : in_repo ex_repo c -> c ∈ get_changeset_id <$> ex_bonsais.
Proof.
  intros (r & Hr & _ & <-)%stored_row; [|apply ex_wf].
  assert (r_cs_id <$> changesets (repo_changesets ex_repo) = get_changeset_id <$> ex_bonsais) as <- by (vm_compute; reflexivity).
  by apply list_elem_of_fmap_2.
Qed.

Lemma ex_frozen ps file : frozen (ex_bonsai ps file).
Proof. split; [reflexivity|]. repeat constructor. Qed.

Lemma ex_bonsais_frozen b : b ∈ ex_bonsais -> frozen b.
Proof. intros Hb. repeat (apply elem_of_cons in Hb as [->|Hb]; [apply ex_frozen|]). by apply elem_of_nil in Hb. Qed.

Lemma ex_repo_ok : repo_ok ex_repo.
Proof.
  split.
  - apply ex_wf.
  - intros c e He. assert (c ∈ get_changeset_id <$> ex_bonsais) as Hc by (apply ex_stored; by exists e).
    apply list_elem_of_fmap in Hc as (b & -> & Hb). exists b.
    split; [by apply (by_id_lookup (BL := ex_hash_laws))|].
    assert (Forall (fun b => e_parents <$> select_changeset (repo_changesets ex_repo) (repoid ex_repo) (get_changeset_id b)
              = Some (parents (inner b))) ex_bonsais) as Hall by (apply (bool_decide_unpack _); vm_compute; reflexivity).
    rewrite Forall_forall in Hall. specialize (Hall b Hb). rewrite He in Hall. by injection Hall.
  - intros c b Hb. destruct (by_id_spec ex_bonsais c b Hb) as [Hid Hin]. split; [exact Hid|by apply ex_bonsais_frozen].
Qed.

Lemma ex_in c : bool_decide (is_Some (select_changeset (repo_changesets ex_repo) (repoid ex_repo) c)) = true -> in_repo ex_repo c.
Proof. apply bool_decide_eq_true. Qed.

Lemma ex_above : ancestor (F := get_changeset_fetcher ex_repo) ex_root (get_changeset_id ex_client).
Proof.
  apply rtc_once. unfold parent.
  assert (parents_of (F := get_changeset_fetcher ex_repo) (get_changeset_id ex_client) = [ex_root]) as -> by (vm_compute; reflexivity).
  by left.
Qed.

Lemma ex_push_ok : push_ok ex_args ex_repo.
Proof.
  split; [apply ex_repo_ok|vm_compute; discriminate|apply ex_in; vm_compute; reflexivity|apply ex_in; vm_compute; reflexivity|].
  apply ex_above.
Qed.

Lemma ex_target_root : target ex_args ex_repo = ex_root.
Proof. vm_compute. reflexivity. Qed.

Lemma step_refl limit r : state_ok ex_args limit r -> step_ok ex_args limit r r.
Proof. intros Hs. split; [done|reflexivity|reflexivity]. Qed.

Lemma ex_env_ok : env_ok ex_env ex_args.
Proof.
  intros [|n] [] r Hs; try by apply step_refl. unfold ex_env. destruct (ex_target r) eqn:E; [|by apply step_refl].
  apply andb_true_iff in E as [Eb%bool_decide_eq_true Es%bool_decide_eq_true].
  assert (target ex_args (ex_move r) = get_changeset_id ex_server) as Et'.
  { unfold target, get_bonsai_bookmark, get_bookmark, ex_move. cbn [repo_bookmarks bookmarks repoid onto_bookmark onto ex_args].
    by rewrite lookup_insert_eq. }
  assert (target ex_args r = ex_root) as Et by (unfold target; cbn [onto_bookmark onto ex_args]; by rewrite Eb).
  destruct (select_changeset _ _ _) as [e|] eqn:Ee; [|done]. injection Es as Ep.
  destruct Hs as [[H1 H2 H3] Hr Ht]. split; [split| |].
  - by split.
  - done.
  - rewrite Et'. by exists e.
  - by split.
  - rewrite Et, Et'. apply rtc_once. change (ex_root ∈ repo_parents r (get_changeset_id ex_server)).
    rewrite (in_repo_parents r _ e Ee), Ep. by left.
Qed.

(** ** The theorems at the example *)

Lemma find_closest_ancestor_root_exact_witness :
  (forall x, find_closest_ancestor_root ex_repo (mkParams true 10) ex_bookmark {[ex_root]} (get_changeset_id ex_server) = Ok x <->
     exists n, n < 10 /\ walk ex_repo {[ex_root]} n (get_changeset_id ex_server) x /\ x ∈ ({[ex_root]} : gset ChangesetId)) /\
  find_closest_ancestor_root ex_repo (mkParams true 10) ex_bookmark {[ex_root]} (get_changeset_id ex_server) = Ok ex_root.
Proof.
  split; [|vm_compute; reflexivity].
  apply (find_closest_ancestor_root_exact ex_repo (mkParams true 10) ex_bookmark {[ex_root]} (get_changeset_id ex_server) ex_repo_ok).
  apply ex_in. vm_compute. reflexivity.
Defined.

Lemma create_rebased_changesets_exact_witness :
  exists n0 repo' r, (forall k, n0 <= k -> create_rebased_changesets ex_timestamp k ex_repo (mkParams true 10) ex_root
      (get_changeset_id ex_client) (get_changeset_id ex_server) (ex_now 0) = (repo', r)) /\
    match r with
    | Ok (new_head, m) => repo_ok repo' /\ repo_le ex_repo repo' /\ repo_bookmarks repo' = repo_bookmarks ex_repo /\
        rebased_stack ex_repo repo' (mkParams true 10) ex_root (get_changeset_id ex_client) (get_changeset_id ex_server)
          (ex_now 0) new_head m /\
        ancestor (F := get_changeset_fetcher repo') (get_changeset_id ex_server) new_head
    | Err (Error (BonsaiFailed e)) => repo' = ex_repo /\ exists c b, repo_blobstore ex_repo !! c = Some b /\
        rebase_date (date_of (mkParams true 10) (ex_now 0)) (author_date (inner b)) = Err e
    | _ => False
    end.
Proof.
  apply (create_rebased_changesets_exact ex_timestamp ex_repo (mkParams true 10) ex_root
    (get_changeset_id ex_client) (get_changeset_id ex_server) (ex_now 0) ex_repo_ok).
  - vm_compute. reflexivity.
  - apply ex_in. vm_compute. reflexivity.
  - apply ex_in. vm_compute. reflexivity.
  - apply ex_in. vm_compute. reflexivity.
  - apply ex_above.
Defined.

Lemma rebase_in_loop_safe_witness :
  exists n0 r' res, (forall k, n0 <= k ->
      rebase_in_loop ex_timestamp (fun b => b) ex_to_json ex_diff ex_hg ex_env ex_now k MAX_REBASE_ATTEMPTS
        ex_args ex_root 0 ex_repo = (r', res)) /\
    match res with
    | Ok s => pushed ex_now ex_args ex_repo r' (success_head s) /\ retry_num s <= MAX_REBASE_ATTEMPTS
    | Err e => known_error e
    | Panic => True
    end.
Proof.
  apply (rebase_in_loop_safe ex_timestamp (fun b => b) ex_to_json ex_diff ex_hg ex_env ex_now ex_args ex_env_ok ex_repo ex_push_ok).
  - split; [apply ex_repo_ok|vm_compute; discriminate|apply ex_in; vm_compute; reflexivity].
  - rewrite ex_target_root. reflexivity.
Defined.

(** ** Phases *)

#[local] Instance map_cache : MemcacheClient (gmap bytes bytes) :=
  {| mc_get m k := Ok (m !! k); mc_set m k v ttl := (<[k := v]> m, Ok tt) |}.

Definition map_held (m : gmap bytes bytes) (k v : bytes) : Prop := m !! k = Some v.

#[local] Instance map_cache_laws : MemcacheLaws map_cache map_held.
Proof.
  split; unfold map_held; cbn; [by intros m k v [= ->]|]. intros m k v _ k' v' [[<- <-]|[_ ?]]%lookup_insert_Some; [by right|by left].
Qed.

#[local] Instance same_key : KeyGen := {| key k := k |}.
#[local] Instance same_key_laws : KeyGenLaws same_key.
Proof. split. by intros k k'. Qed.

Definition ex_index (F : ChangesetFetcher) : ReachabilityIndex := skiplist_reachability (F := F) SkiplistIndex_new.
Definition phases_table : SqlPhases := mkSqlPhases Sqlite ∅ ∅.
Definition ex_client_id : ChangesetId := get_changeset_id ex_client.

Lemma ex_index_right : index_right (skip_index := ex_index) ex_repo.
Proof.
  split. intros desc anc Hd Ha.
  apply (query_reachability_ok (known := in_repo ex_repo) (L := fetcher_laws ex_repo ex_repo_ok)); [|done|done].
  intros c n H. cbn in H. by rewrite lookup_empty in H.
Qed.

Lemma ex_bookmarks n c : bookmarks (repo_bookmarks ex_repo) !! (repoid ex_repo, n) = Some c -> c = ex_root.
Proof. intros H. change (({[(0%N, ex_bookmark) := ex_root]} : table) !! (0%N, n) = Some c) in H. by apply lookup_singleton_Some in H as [_ ->]. Qed.

Lemma ex_root_in : in_repo ex_repo ex_root.
Proof. apply ex_in. vm_compute. reflexivity. Qed.

Lemma ex_heads_ok : heads_ok ex_repo None.
Proof. split; [|done]. intros n c ->%ex_bookmarks. apply ex_root_in. Qed.

Lemma hint_phases_exact_witness :
  exists s m, HintPhases_get_all_with_bookmarks ex_index ex_repo [ex_root] None phases_table = (s, Ok m) /\
    calculated m !! ex_root = Some Public /\ is_Some (write_connection s !! (0%N, ex_root)).
Proof.
  destruct (hint_phases_exact (skip_index := ex_index) ex_repo [ex_root] None phases_table ex_repo_ok ex_index_right ex_heads_ok)
    as (s & m & E & _ & Hh & Ha & _ & Hw & _).
  { intros c ->%list_elem_of_singleton. apply ex_root_in. }
  assert (calculated m !! ex_root = Some Public) as Hp.
  { apply Ha. split; [by left|]. right. split; [apply lookup_empty|]. split; [intros _|done].
    rewrite Hh. exists ex_root. split; [vm_compute; reflexivity|reflexivity]. }
  exists s, m. split; [exact E|]. split; [exact Hp|]. apply (Hw ex_root Hp). apply lookup_empty.
Defined.

Definition ex_cached : gmap bytes bytes := {[ key (get_cache_key 0%N ex_root) := Phase_to_string Public ]}.
Definition ex_world (m : gmap bytes bytes) : world := mkWorld ex_repo phases_table m {[ex_root]}.

Lemma ex_world_ok : world_ok (held := map_held) (ex_world ex_cached).
Proof.
  split; unfold ex_world; cbn [w_repo w_sql w_mc w_past].
  - apply ex_repo_ok.
  - intros h ->%elem_of_singleton. apply ex_root_in.
  - intros n c ->%ex_bookmarks. by apply elem_of_singleton.
  - intros c p [H|H]; unfold phases_table in H; cbn [write_connection read_connection] in H; by apply lookup_empty_Some in H.
  - intros c H. unfold map_held, ex_cached in H. apply lookup_singleton_Some in H as [Hk _].
    apply key_inj, cache_key_inj in Hk as <-. exists ex_root. split; [by apply elem_of_singleton|reflexivity].
Qed.

Lemma ex_asked m : asked (skip_index := ex_index) (ex_world m) [ex_root] None.
Proof.
  split; [apply ex_index_right|]. split; [done|]. intros c ->%list_elem_of_singleton. apply ex_root_in.
Qed.

(** The cache forgets what it had, and the answer stays. *)
Lemma phases_sound_witness :
  exists s m, CachingHintPhases_get_all_with_bookmarks ex_index ex_repo [ex_root] None (phases_table, ∅ : gmap bytes bytes) = (s, Ok m) /\
    calculated m !! ex_root = Some Public.
Proof.
  destruct (phases_sound (skip_index := ex_index) (held := map_held) (ex_world ex_cached) (ex_world ∅) [ex_root] None ex_world_ok) as [_ (s & m & E & _ & _ & H)].
  - apply rtc_once. apply (step_evict (ex_world ex_cached) ∅). intros k v Hv. unfold map_held in Hv. by rewrite lookup_empty in Hv.
  - apply ex_asked.
  - exists s, m. split; [exact E|]. destruct (H ex_root) as [Hp|Hp]; [by left| |exact Hp|].
    + exists ex_root. split; [vm_compute; reflexivity|reflexivity].
    + cbn in Hp. discriminate.
Defined.
